(* ===== verification/_CoqProject ===== *)
-Q . S2P
Prelude.v
Walk.v
RustStr.v
MachineInt.v
Glob.v
Egress.v
ActsFor.v
Envelope.v
Composition.v
Selection.v
SelectionParse.v
Freshness.v
NormEvidence.v
NormPreservation.v
NormSelection.v
NormConformance.v
NormCompatibility.v
Merge.v
DependencyGraph.v
EventChain.v
Chunking.v
ErasureLedger.v
ContentStore.v
ContentHistory.v
Diff.v
ManifestTree.v
TreeReads.v
TreeUpdates.v
TextDiff.v
TextMerge.v
EventLog.v
RefAuthority.v
Coordination.v
InstanceMachine.v
ExecInvocation.v
ExecController.v
ExecOwner.v
ExecResolution.v
NativeController.v
NativeRuns.v
EffectRecovery.v
AttemptAdmission.v
RuntimeTables.v
ExecLifetime.v
ExecOutcome.v
RuntimePolicy.v
RuntimeReplay.v
RuntimeOps.v
RuntimeErase.v
RuntimeShape.v
RuntimeFold.v
RuntimeBatch.v
RuntimeHistory.v
RuntimeGuard.v
RuntimeExamples.v
