(* ===== verification/Prelude.v ===== *)
(** * A verification development of WhippleScript

    WhippleScript runs workflows whose effects (model calls, files, credentials,
    messages) are governed: an instance executes rules over an event log, effects
    wait for each other and for leases, and every flow of data to a sink is checked
    against signed policy envelopes.  This library models the decision procedures and
    the durable state machines that the rest of the program relies on, as executable
    definitions, and proves what makes them correct.  Names follow the source under
    src/crates; a definition's doc comment names its function where it differs.

    ** Files

    - [Prelude]: results and their monad, ordered iteration over maps and sets,
      tactics, the hint databases [whip] and [whip_iter], shared lemmas.
    - [Walk]: the worklist walk over an edge list that the acts-for closure and the
      cycle guard share, with the fuel that is always enough.
    - [RustStr]: the byte-string operations of Rust's [str] that the code uses.
    - [MachineInt]: [i64] and [u64]: ranges, wrapping, checked addition, decimal text.

    Governance (crates kernel and custody):
    - [Glob]: the glob matcher (core/selection.rs, [glob_matches]).
    - [Egress]: allow-lists of requests (custody/egress.rs) and signing bounds
      (custody/sign_prefix.rs).
    - [ActsFor]: the acts-for order over delegation edges (kernel/ifc.rs,
      [acts_for_over]) and the interface [FlowPolicy] of a policy that decides flows.
    - [Envelope]: one policy envelope (kernel/ifc.rs, [Envelope]; ifc/source_flow.rs):
      labels of the two axes, leaks and injections, declassification and endorsement,
      unwrap grants, request, handoff and signature admission, provider bindings.
    - [Composition]: several envelopes at once (kernel/ifc.rs, [Composition]): the
      admission of a signed set against its record, and the composed decisions.

    Selection and evidence (crate core):
    - [Selection], [SelectionParse]: the selection algebra (core/selection.rs):
      evaluation, stranding, region expansion, renderer and recursive-descent parser.
    - [Freshness]: the basis of a piece of evidence and its staleness
      (core/freshness.rs).
    - [NormEvidence], [NormPreservation]: the judgment of a test report or a bounded
      proof, and the comparison of dependency observations (core/norm_evidence.rs,
      core/norm_preservation.rs).
    - [NormSelection], [NormConformance]: the causal selection of evidence
      (core/norm_selection.rs): first the code, then its specification over the
      captured history and the proof that they agree.
    - [NormCompatibility]: finite norms (core/norm_compatibility.rs): declarations and
      their parser, bounded enumeration, shrinking to an incompatible core.

    Content (crate store):
    - [Chunking], [ErasureLedger]: content-defined chunks (store/chunking.rs) and the
      chained ledger of erasures (store/erasure_ledger.rs).
    - [ContentStore], [ContentHistory]: the content-addressed store (store/content.rs
      and content/): puts, reads through rows, packs and roots, erasure; and what holds
      along any history of operations.
    - [Diff]: the line diff (store/diff.rs): Myers search, hunks, unified text.
    - [TextDiff], [TextMerge]: alignment of texts and the three-way text merge
      (store/text_merge.rs).
    - [ManifestTree], [TreeReads], [TreeUpdates]: the manifest tree
      (store/manifest_tree.rs): build and update; reads, reachability and diff; the
      correctness of the incremental update.
    - [Merge]: three-way merge of manifests (store/merge.rs) and the reconciliation
      plans over it (store/reconcile.rs).

    Durable state (crates store and host-do, kernel scheduler):
    - [DependencyGraph]: effect dependencies, the cycle guard and the pass that
      re-queues blocked effects (store/dependency_graph.rs, store/lib.rs).
    - [EventChain]: the canonical encoding of an event and the digest chain
      (store/event_chain.rs).
    - [EventLog]: the append surface (store/log_append.rs) as an interface with laws,
      and its SQLite implementation: ownership claims, compare-and-set, fenced and
      idempotent appends, and the backfill (store/lib.rs).
    - [RefAuthority]: mutable names (store/ref_authority.rs, host-do/do_refs.rs): two
      implementations of one abstract history, and the conformance driver.
    - [Coordination]: leases, ledgers and counters (store/coordination.rs).
    - [InstanceMachine]: the scheduler of one instance and the native host loop
      (kernel/instance_machine.rs, kernel/sansio.rs).

    Execution of effects (crates kernel, store and cli):
    - [ExecInvocation]: identity keys, envelopes, receipts and placements
      (kernel/exec_invocation.rs, exec_placement.rs).
    - [ExecController], [ExecOwner]: the controller of a delivery with the owner
      barrier (kernel/exec_controller.rs, exec_barrier.rs), and the runs of an owner.
    - [ExecResolution]: what a provider's record proves of an attempt
      (kernel/exec_resolution.rs, store/exec_lifetime.rs).
    - [NativeController], [NativeRuns]: the receiver of the native host over its
      chained table (cli/native_controller.rs, store/exec_native_owner.rs), and its
      refinement of the owner's controller.

    The runtime store of one instance (crate store):
    - [EffectRecovery]: the attempts of an effect, folded from dispatches and evidence of
      their targets, and the guard on a resubmission (store/effect_recovery.rs).
    - [AttemptAdmission]: the live part of a restored journal and the attempt selected
      from it (store/attempt_admission.rs).
    - [RuntimeTables], [RuntimePolicy]: the rows of an instance with the statements that
      change them, and the policy and capacity gate (store/lib.rs,
      store/migrations/0001_runtime_store.sql).
    - [ExecLifetime], [ExecOutcome]: the journal of an execution: tracking, fences and
      proofs of closure (store/exec_lifetime.rs), observed outcomes, retained settlements
      and wakes (store/exec_outcome.rs, exec_settlement.rs, exec_reconciliation.rs).
    - [RuntimeReplay]: the rebuild of the tables from the log (store/lib.rs,
      [rebuild_projections] and the [replay_] functions).
    - [RuntimeOps]: every operation on the log and the tables of an instance
      (store/lib.rs, host_actions.rs, exec_lifetime.rs): creation, rule commits, facts,
      claims, starts, completions, settlements, blocks, transitions, expiry, cancellation,
      retry, leases, fences, proofs, outcomes, wakes, revisions, tracking and restores.
    - [RuntimeErase], [RuntimeShape], [RuntimeFold], [RuntimeBatch]: the relation between
      live and rebuilt tables, the shape of the tables, and that each operation appends
      events whose replay does what the operation did.
    - [RuntimeHistory], [RuntimeGuard], [RuntimeExamples]: histories of operations and
      restores with what holds along them, what guards the start and the end of a run,
      and an instance on which the theorems are applied.

    ** How the parts interact

    An instance is scheduled by [InstanceMachine]; its rules and effects are recorded
    in [EventLog], whose rows are chained by [EventChain]; effects wait for each other
    in [DependencyGraph] and for shared resources in [Coordination].  [RuntimeOps] writes
    the events of an instance and, in the same transaction, the tables that
    [RuntimeReplay] would derive from them; a start passes the gate of [RuntimePolicy]
    and the guard of [EffectRecovery], a retry asks [ExecLifetime] whether the executions
    of the effect are closed, a settlement asks [ExecOutcome] what may be recorded, and
    dependencies are those of [DependencyGraph].
    An effect that
    leaves the process is an invocation of [ExecInvocation], admitted by
    [ExecController] or its native implementation [NativeController], and closed by
    [ExecResolution].  Files live in [ContentStore] as [Chunking] cuts them, named by
    [ManifestTree]; branches advance through [Merge] and [TextMerge], are shown by
    [Diff] and publish through [RefAuthority].  Flows are decided by
    [Envelope], or by [Composition] when several authorities govern, both over
    [ActsFor] and, for credentials, [Egress] and [Glob].  [Selection] names changes
    and declarations; [Freshness] reads its expressions as the basis of evidence, and
    [NormSelection] decides what evidence, judged by [NormEvidence] and carried over by
    [NormPreservation], stands for a norm.

    The interfaces between parts are type classes: [FlowPolicy] (the composed policy
    and the single envelope are instances, and the soundness of a flow decision is
    proved once against it), [LogAppend] with [LogAppendLaws], [RefAuthority] with
    [RefAuthorityLaws], [ContentBlobs] with its laws (what a manifest tree asks of the
    content store), [InstanceDriver] and [HostDriver] (the recording driver and host are
    instances, which make the calls of the scheduler and its requests observable), [RuntimeJson] (what the runtime store
    asks of a JSON value) and [RuntimeGates] (the registry, and the checks and digests of
    other components that an operation of the runtime store consults).

    ** What the theorems show

    - Governance: a composition refuses whatever one of its envelopes refuses; a flow
      that is not refused is safe for every party; release and endorsement happen only
      at marked crossings under a grant; attached compartments stand; unwraps,
      requests and signatures need an owned grant and fail closed; a minted credential
      reaches no further than its parent; the acts-for walk decides the closure.
    - Log and refs: a superseded owner is fenced out, one writer wins a head, the log
      only grows and its head is the fold of its prefix, a head commits to the prefix
      up to a hash collision; the two ref authorities refine one history, polls miss no
      change, and the conformance driver cannot fail on them.
    - Scheduling: dependency graphs stay acyclic and an acyclic instance is never
      stuck; leases exclude, counters never exceed their cap, numbers are not reused
      and effects are applied once; the scheduler follows its documented lifecycle and
      the native host answers each request exactly once.
    - Runtime store: after a history of operations and restores whose callers keep the
      conditions below, a rebuild from the log succeeds and agrees with the live tables, a
      rebuild to an earlier head gives the tables of that time, and a restore either
      changes nothing or goes back to them; [RuntimeErase.agree] lists the columns in which
      live and rebuilt tables may differ, and why.  Along such a history leases belong to
      runs, one to a run, active ones to running runs, and a finished run stays finished,
      until a restore, and refuses completions.  Of any state: a run begins only if what
      the log says of its earlier attempts, recorded and reconciled evidence included,
      proves their absence, if the gate admits it and the agent has capacity left; the gate
      is exact over the rows of the registries; scripts need a bound capability; an effect
      is tried again only when its runs in the table that the log tracks are closed; a
      settlement records what was observed of the execution; what a pass hands out can be
      started.
    - Execution: a delivery is executed at most once whatever is redelivered, a barrier
      drains, a stale owner's delivery is blocked, a resolution is sound for what the
      provider observed; the native controller refines the owner's and keeps a result
      it recorded.
    - Content: what was stored reads back and what is read is authentic, an erased root
      takes exactly the chunks no other live root lists; the tree reads back what it was
      built from, the incremental update leaves a tree of the updated manifest (not always
      the one a build gives, [apply_not_canonical]), the tree diff is exact.
    - Core algorithms: the merges are three-way merges that account for every edit, the
      line diff is shortest and its hunks patch, the selection algebra's closure strands
      nothing, rendering and parsing are inverse up to the nesting limit, staleness is
      exact, the glob matcher decides its relation, norm selection and compatibility
      agree with their specifications.

    ** Fuel and bounds

    [walk] takes [S (S (length edges))] units: a node is expanded once and an expansion
    pushes one node per outgoing edge.  The glob loop takes fuel for every pair of
    positions and the parser's chains take the length of the text; [glob_matches_spec]
    and [parse_total] show that these are enough.  The parser's depth counters are the
    source's own limit of 256.  [fixpoint_loop] and [run_to_completion] have no bound
    in the source, and whether they end is up to the driver: the theorems of that file
    hold for any fuel that returns.  A read of the content store recurses from a root to
    its chunks; one level more than there are roots is enough when no root lists itself
    through others ([reads_authentic]), and two levels for what was put ([stored_reads_back]).
    Evidence capture runs on the number of acts not yet captured, enumeration of
    assignments on the size of the table.  The Myers search runs at most
    one round per line of both texts and a snake at most one step per line; the patience
    recursion takes twice the tokens of both sides plus two; absorption takes one round
    per item and one more.  Tree walks are bounded by the nodes and levels of the tree,
    a build by its entries.  The runtime store has no fuel: its loops run over lists of
    rows and events.  But for the scheduler, the theorems about these functions state a
    result, so the fuel they give is enough.

    ** Parameters

    URL parsing ([UrlLib]), SHA-256 ([Sha256], with theorems up to a collision), the
    canonical hash of a signed entry ([EntryDigest]), SQLite's datetime arithmetic
    ([Datetime]), JSON text ([JsonStrings], [NodeJson], [ExecText], [NativeText]) and
    JSON values ([ExecValue]), Unicode properties beyond ASCII ([UnicodeTable]) and the
    iteration order of a hash map ([HashOrder]) are not in the repository and are
    arguments, and so are the checks an embedder supplies of a report, a preservation
    witness and a selected act ([ReportVerifier], [PreservationVerifier],
    [SelectionVerifier]), with what the code relies on as laws of a class.  What the database draws
    for a row (identifiers, timestamps) and the readings of the clock are arguments of
    the operations.

    ** Histories of the runtime store

    A history of [RuntimeHistory] starts with the creation of the instance and takes any
    operation, whether it succeeds or refuses, with these conditions on its callers, which
    the store does not check ([RuntimeExamples] shows what happens without some of them).
    Identifiers of effects, facts, runs, requests and revisions are not empty, since the
    replay skips a row with an empty one.  A fact is derived under the key of an earlier
    event only if its row is on record, and the facts of a settlement have keys of
    their own.  A completion names the provider and worker of
    its run, which the replay overwrites.  A block sets a pending status, and an event that
    is appended on its own is of a type that a rebuild does not read.  Keys of the form
    of a tracking key are used by tracking only.  The edits of facts
    without an event ([retire_fact], [revive_fact]) are defined and are not steps, as
    the source documents them as an overlay on the projection.

    ** Not modelled

    The textual forms of an envelope, the walk over a program's IR that collects its
    flows, signature verification, the sealing of payloads, schema migrations, the
    overflow of sequence numbers and epochs past [i64], and the SQL engine itself (a
    table is a list or a map, a transaction is one function).  The transport to an
    executor and the kernel's driving of settlements,
    the rows of evidence, diagnostics, artifacts and tracker deliveries that operations
    of the runtime store also write, the facts a file or a coercion attaches to a
    completion, the result cache,
    the language front end, its canonical text, the rule pass and the effect handlers,
    the providers, the command line, the services and the remaining tables are outside
    this library. *)
From stdpp Require Export base option list gmap fin_maps sets strings sorting relations.
From Stdlib Require Export Lia.

(** ** Fallible computations

    [Result<T, E>] of the source.  The error type comes first, so that
    [result E] is a monad and stdpp's [x ← e; k] notation is Rust's [?]. *)
Inductive result (E A : Type) : Type :=
| Ok (a : A)
| Err (e : E).
Arguments Ok {E A} _.
Arguments Err {E A} _.

#[export] Instance result_ret {E} : MRet (result E) := λ A a, Ok a.
#[export] Instance result_bind {E} : MBind (result E) := λ A B f m,
  match m with Ok a => f a | Err e => Err e end.
#[export] Instance result_fmap {E} : FMap (result E) := λ A B f m,
  match m with Ok a => Ok (f a) | Err e => Err e end.

#[export] Instance result_eq_dec {E A} `{EqDecision E, EqDecision A} :
  EqDecision (result E A).
Proof. solve_decision. Defined.

(** [Option::ok_or]. *)
Definition ok_or {E A} (e : E) (o : option A) : result E A :=
  match o with Some a => Ok a | None => Err e end.

(** A guard clause [if !b { return Err(e) }]. *)
Definition ensure {E} (b : bool) (e : E) : result E unit :=
  if b then Ok tt else Err e.

(** A loop [for x in l { check(x)?; }]: the first refusal is the answer. *)
Fixpoint check_all {E A} (check : A → result E unit) (l : list A) : result E unit :=
  match l with
  | [] => Ok tt
  | x :: l' => check x ≫= λ _, check_all check l'
  end.

(** [iter().map(f).collect::<Result<Vec<_>, _>>()]: the first refusal wins. *)
Fixpoint collect {E A B} (f : A → result E B) (l : list A) : result E (list B) :=
  match l with
  | [] => Ok []
  | x :: l' => f x ≫= λ y, collect f l' ≫= λ ys, Ok (y :: ys)
  end.

(** ** Tactics *)

(** Turn boolean tests on decidable propositions into the propositions. *)
Ltac reflect_bool :=
  repeat match goal with
  | H : bool_decide _ = true |- _ => apply bool_decide_eq_true_1 in H
  | H : bool_decide _ = false |- _ => apply bool_decide_eq_false_1 in H
  | H : Is_true _ |- _ => apply Is_true_eq_true in H
  | H : _ && _ = true |- _ => apply andb_true_iff in H; destruct H
  | H : _ || _ = false |- _ => apply orb_false_iff in H; destruct H
  | H : negb _ = true |- _ => apply negb_true_iff in H
  | H : negb _ = false |- _ => apply negb_false_iff in H
  | |- bool_decide _ = true => apply bool_decide_eq_true_2
  | |- bool_decide _ = false => apply bool_decide_eq_false_2
  | |- negb _ = true => apply negb_true_iff
  | |- negb _ = false => apply negb_false_iff
  end.

(** ** Results *)

Lemma bind_ok {E A B} (m : result E A) (f : A → result E B) b :
  m ≫= f = Ok b ↔ ∃ a, m = Ok a ∧ f a = Ok b.
Proof. destruct m; naive_solver. Qed.

Lemma ensure_ok {E} b (e : E) : ensure b e = Ok tt ↔ b = true.
Proof. destruct b; naive_solver. Qed.

Lemma check_all_ok {E A} (check : A → result E unit) l :
  check_all check l = Ok tt ↔ ∀ x, x ∈ l → check x = Ok tt.
Proof.
  induction l as [|x l IH]; simpl; [set_solver|].
  rewrite bind_ok. setoid_rewrite elem_of_cons. split.
  - intros ([] & Hx & Hl) y [->|Hy]; [done|]. by apply IH.
  - intros H. exists tt. split; [by apply H; left|]. apply IH. auto.
Qed.

Lemma check_all_err {E A} (check : A → result E unit) l e :
  check_all check l = Err e → ∃ x, x ∈ l ∧ check x = Err e.
Proof.
  induction l as [|x l IH]; simpl; [done|].
  destruct (check x) as [[]|e'] eqn:Hx; simpl; intros H.
  - destruct (IH H) as (y & ? & ?). exists y. set_solver.
  - exists x. simplify_eq. set_solver.
Qed.

Lemma collect_ok {E A B} (f : A → result E B) l ys :
  collect f l = Ok ys ↔ Forall2 (λ x y, f x = Ok y) l ys.
Proof.
  revert ys. induction l as [|x l IH]; intros ys; simpl.
  - split; [intros [= <-]; constructor|by inversion 1].
  - rewrite bind_ok. setoid_rewrite bind_ok. split.
    + intros (y & ? & ys' & ?%IH & [= <-]). by constructor.
    + inversion 1 as [|? y ? ys' ? Hl]; subst. apply IH in Hl. eauto.
Qed.

Lemma collect_elem {E A B} (f : A → result E B) l ys y :
  collect f l = Ok ys → y ∈ ys → ∃ x, x ∈ l ∧ f x = Ok y.
Proof.
  rewrite collect_ok. induction 1 as [|x z l ys Hx Hl IH]; [by intros ?%elem_of_nil|].
  intros [->|Hy]%elem_of_cons; [exists x; set_solver|].
  destruct (IH Hy) as (x' & ? & ?). exists x'. set_solver.
Qed.

Lemma collect_err {E A B} (f : A → result E B) l e :
  collect f l = Err e → ∃ x, x ∈ l ∧ f x = Err e.
Proof.
  induction l as [|x l IH]; simpl; [done|].
  destruct (f x) as [y|e'] eqn:Hx; simpl; intros Hl.
  - destruct (collect f l); simpl in Hl; [done|]. simplify_eq.
    destruct IH as (z & ? & ?); [done|]. exists z. set_solver.
  - exists x. simplify_eq. set_solver.
Qed.

Lemma elem_of_option_list {A} (o : option A) x : x ∈ option_list o ↔ o = Some x.
Proof.
  destruct o; simpl; [rewrite list_elem_of_singleton; naive_solver|].
  rewrite elem_of_nil. naive_solver.
Qed.

(** ** Ordered iteration

    [BTreeMap] and [BTreeSet] iterate in the order of their keys.  Maps and
    sets of the model are stdpp's [gmap] and [gset], whose own iteration order
    is unspecified, so the places where the source's order shows go through
    these functions.  Strings are byte sequences, and [String.le] is the
    lexicographic order of their bytes, which is Rust's [Ord for str]. *)

Definition sorted_strings (l : list string) : list string := merge_sort String.le l.

Definition set_keys (X : gset string) : list string := sorted_strings (elements X).

Definition map_keys {A} (m : gmap string A) : list string :=
  sorted_strings (map_to_list m).*1.

Definition map_entries {A} (m : gmap string A) : list (string * A) :=
  omap (λ k, pair k <$> m !! k) (map_keys m).

Lemma elem_of_sorted_strings l x : x ∈ sorted_strings l ↔ x ∈ l.
Proof. unfold sorted_strings. by rewrite merge_sort_Permutation. Qed.

Lemma sorted_strings_sorted l : StronglySorted String.le (sorted_strings l).
Proof. apply StronglySorted_merge_sort; apply _. Qed.

Lemma elem_of_set_keys X x : x ∈ set_keys X ↔ x ∈ X.
Proof. unfold set_keys. by rewrite elem_of_sorted_strings, elem_of_elements. Qed.

Lemma NoDup_set_keys X : NoDup (set_keys X).
Proof.
  unfold set_keys, sorted_strings. rewrite merge_sort_Permutation.
  apply NoDup_elements.
Qed.

Lemma length_set_keys X : length (set_keys X) = size X.
Proof. unfold set_keys, sorted_strings. by rewrite merge_sort_Permutation. Qed.

Lemma elem_of_map_keys {A} (m : gmap string A) k : k ∈ map_keys m ↔ is_Some (m !! k).
Proof.
  unfold map_keys. rewrite elem_of_sorted_strings, list_elem_of_fmap. split.
  - intros ([k' x] & -> & ?%elem_of_map_to_list). simpl. eauto.
  - intros [x Hx]. exists (k, x). by rewrite elem_of_map_to_list.
Qed.

Lemma NoDup_map_keys {A} (m : gmap string A) : NoDup (map_keys m).
Proof.
  unfold map_keys, sorted_strings. rewrite merge_sort_Permutation.
  apply NoDup_fst_map_to_list.
Qed.

Lemma elem_of_map_entries {A} (m : gmap string A) k x :
  (k, x) ∈ map_entries m ↔ m !! k = Some x.
Proof.
  unfold map_entries. rewrite list_elem_of_omap.
  setoid_rewrite elem_of_map_keys. split.
  - intros (k' & _ & H). destruct (m !! k') eqn:?; naive_solver.
  - intros H. exists k. rewrite H. eauto.
Qed.

(** The entries carry the keys of the map, in their order. *)
Lemma map_entries_keys {A} (m : gmap string A) : (map_entries m).*1 = map_keys m.
Proof.
  unfold map_entries. assert (∀ k, k ∈ map_keys m → is_Some (m !! k)) as H
    by (intros k; apply elem_of_map_keys).
  induction (map_keys m) as [|k l IH]; [done|]. simpl.
  destruct (H k) as [x ->]; [by left|]. simpl. f_equal. apply IH. intros k' Hk'. apply H. by right.
Qed.

Lemma NoDup_map_entries {A} (m : gmap string A) : NoDup (map_entries m).*1.
Proof. rewrite map_entries_keys. apply NoDup_map_keys. Qed.

Lemma sum_list_fmap_perm {A} (f : A → nat) l l' :
  l ≡ₚ l' → sum_list (f <$> l) = sum_list (f <$> l').
Proof. induction 1; rewrite ?fmap_cons; cbn [sum_list]; lia. Qed.

(** ** Iteration over sets, as [iter().all] and [iter().any] *)

Definition set_all {A} `{Countable A} (f : A → bool) (X : gset A) : bool :=
  forallb f (elements X).
Definition set_any {A} `{Countable A} (f : A → bool) (X : gset A) : bool :=
  existsb f (elements X).

Lemma forallb_elem {A} (f : A → bool) l :
  forallb f l = true ↔ ∀ x, x ∈ l → f x = true.
Proof. rewrite forallb_forall. by setoid_rewrite <- list_elem_of_In. Qed.

Lemma existsb_elem {A} (f : A → bool) l :
  existsb f l = true ↔ ∃ x, x ∈ l ∧ f x = true.
Proof. rewrite existsb_exists. by setoid_rewrite <- list_elem_of_In. Qed.

Lemma set_all_true {A} `{Countable A} (f : A → bool) (X : gset A) :
  set_all f X = true ↔ ∀ x, x ∈ X → f x = true.
Proof. unfold set_all. rewrite forallb_elem. by setoid_rewrite elem_of_elements. Qed.

Lemma set_any_true {A} `{Countable A} (f : A → bool) (X : gset A) :
  set_any f X = true ↔ ∃ x, x ∈ X ∧ f x = true.
Proof. unfold set_any. rewrite existsb_elem. by setoid_rewrite elem_of_elements. Qed.

(** The sets a loop grows, and shrinks, by a test of the entry it visits. *)
Lemma foldl_grows {S B A} `{Countable A} (Inv : S → Prop) (f : S → B → S) (proj : S → gset A)
    (P : B → A → Prop) :
  (∀ s b, Inv s → Inv (f s b)) →
  (∀ s b x, Inv s → x ∈ proj (f s b) ↔ x ∈ proj s ∨ P b x) →
  ∀ (l : list B) s x, Inv s → x ∈ proj (foldl f s l) ↔ x ∈ proj s ∨ ∃ b, b ∈ l ∧ P b x.
Proof.
  intros Hinv Hstep l. induction l as [|b l IH]; intros s x Hs; simpl.
  - split; [by left|]. intros [?|(b & ?%elem_of_nil & _)]; done.
  - rewrite IH, Hstep by auto. split.
    + intros [[?|?]|(b' & ? & ?)]; [by left|right; exists b; by split; [left|]|].
      right. exists b'. by split; [right|].
    + intros [?|(b' & [->|?]%elem_of_cons & ?)]; [by left; left|by left; right|right; eauto].
Qed.

Lemma foldl_shrinks {S B A} `{Countable A} (Inv : S → Prop) (f : S → B → S) (proj : S → gset A)
    (P : B → A → Prop) :
  (∀ s b, Inv s → Inv (f s b)) →
  (∀ s b x, Inv s → x ∈ proj (f s b) ↔ x ∈ proj s ∧ ¬ P b x) →
  ∀ (l : list B) s x, Inv s → x ∈ proj (foldl f s l) ↔ x ∈ proj s ∧ ¬ ∃ b, b ∈ l ∧ P b x.
Proof.
  intros Hinv Hstep l. induction l as [|b l IH]; intros s x Hs; simpl.
  - split; [|tauto]. intros ?. split; [done|]. by intros (b & ?%elem_of_nil & _).
  - rewrite IH, Hstep by auto. split.
    + intros [[? Hb] Hl]. split; [done|]. intros (b' & [->|?]%elem_of_cons & ?); eauto.
    + intros [? Hl]. split; [split; [done|]|]; [intros ?|intros (b' & ? & ?)]; apply Hl;
        [exists b; by split; [left|]|exists b'; by split; [right|]].
Qed.

Lemma foldl_keeps {S B} (Inv : S → Prop) (f : S → B → S) l s :
  (∀ s b, Inv s → Inv (f s b)) → Inv s → Inv (foldl f s l).
Proof. intros Hf. revert s. induction l; simpl; auto. Qed.

Lemma bool_decide_iff_eq (b1 b2 : bool) : (b1 = true ↔ b2 = true) → b1 = b2.
Proof. destruct b1, b2; naive_solver. Qed.

(** ** Filters and sublists *)

Lemma filter_sublist {A} (P : A → Prop) `{∀ x, Decision (P x)} (l1 l2 : list A) :
  l1 `sublist_of` l2 → filter P l1 `sublist_of` filter P l2.
Proof.
  induction 1 as [|x l1 l2 _ IH|x l1 l2 _ IH]; [done| |]; rewrite !filter_cons;
    destruct (decide (P x)); auto using sublist_skip, sublist_cons.
Qed.

Lemma sublist_Forall {A} (P : A → Prop) (l1 l2 : list A) :
  l1 `sublist_of` l2 → Forall P l2 → Forall P l1.
Proof. rewrite !Forall_forall. eauto using elem_of_sublist. Qed.

Lemma filter_all {A} (P : A → Prop) `{∀ x, Decision (P x)} (l : list A) : (∀ x, P x) → filter P l = l.
Proof. intros HP. induction l as [|x l IH]; [done|]. by rewrite filter_cons_True, IH. Qed.

(** *** Ranges of a list *)

(** [l[i..j]]. *)
Definition part {A} (l : list A) (i j : nat) : list A := take (j - i) (drop i l).

Lemma part_app {A} (l : list A) i j k : i ≤ j → j ≤ k → part l i j ++ part l j k = part l i k.
Proof.
  intros Hij Hjk. unfold part. replace j with (i + (j - i)) at 3 by lia.
  rewrite <- drop_drop, take_take_drop. f_equal. lia.
Qed.

Lemma part_drop {A} (l : list A) i j : i ≤ j → drop i l = part l i j ++ drop j l.
Proof.
  intros Hij. unfold part. replace j with (i + (j - i)) at 2 by lia. by rewrite <- drop_drop, take_drop.
Qed.

Lemma part_full {A} (l : list A) : part l 0 (length l) = l.
Proof. unfold part. rewrite Nat.sub_0_r, drop_0. by apply take_ge. Qed.

Lemma part_same {A} (l : list A) i : part l i i = [].
Proof. unfold part. by rewrite Nat.sub_diag. Qed.

Lemma length_part {A} (l : list A) i j : j ≤ length l → length (part l i j) = j - i.
Proof. intros Hj. unfold part. rewrite length_take, length_drop. lia. Qed.

Lemma part_one {A} (l : list A) i x : l !! i = Some x → part l i (S i) = [x].
Proof.
  intros Hx. unfold part. replace (S i - i) with 1 by lia. by rewrite (drop_S l x i Hx).
Qed.

Lemma fmap_part {A B} (f : A → B) (l : list A) i j : f <$> part l i j = part (f <$> l) i j.
Proof. unfold part. by rewrite fmap_take, fmap_drop. Qed.

Lemma sorted_lookup {A} (R : A → A → Prop) (l : list A) i j x y :
  StronglySorted R l → i < j → l !! i = Some x → l !! j = Some y → R x y.
Proof.
  intros Hs. revert i j. induction Hs as [|z l Hs IH HR]; intros [|i] [|j] Hij Hi Hj; simplify_eq/=; try lia.
  - by eapply Forall_lookup_1.
  - apply (IH i j); [lia|done..].
Qed.

(** Sorting puts back a strictly ordered list. *)
Lemma sort_permuted {A} (R S : A → A → Prop) `{∀ x y, Decision (R x y), !Transitive R, !Total R} (l l' : list A) :
  (∀ x y, x ∈ l → y ∈ l → S x y → R x y ∧ ¬ R y x) → StronglySorted S l → l' ≡ₚ l → merge_sort R l' = l.
Proof.
  intros HS Hl Hp. apply (StronglySorted_unique_strong R).
  - intros x y Hx Hy Hxy Hyx. rewrite merge_sort_Permutation, Hp in Hx.
    apply list_elem_of_lookup in Hx as [i Hi], Hy as [j Hj].
    destruct (lt_eq_lt_dec i j) as [[Hlt| ->]|Hlt]; [|congruence|].
    + pose proof (sorted_lookup _ _ i j _ _ Hl Hlt Hi Hj) as HSxy.
      destruct (HS x y) as [_ []]; [by eapply list_elem_of_lookup_2..|done|done].
    + pose proof (sorted_lookup _ _ j i _ _ Hl Hlt Hj Hi) as HSyx.
      destruct (HS y x) as [_ []]; [by eapply list_elem_of_lookup_2..|done|done].
  - by apply (StronglySorted_merge_sort R).
  - revert HS. clear Hp l'. induction Hl as [|x l Hl IH Hx]; intros HS; constructor.
    + apply IH. intros y z Hy Hz. apply HS; by apply elem_of_cons; right.
    + rewrite Forall_forall in Hx |- *. intros y Hy.
      apply HS; [by apply elem_of_cons; left|by apply elem_of_cons; right|by apply Hx].
  - by rewrite merge_sort_Permutation.
Qed.

(** A symmetric relation that holds in one order holds in every order. *)
Lemma pairwise_permutation {A} (R : A → A → Prop) `{!Symmetric R} (l l' : list A) :
  l ≡ₚ l' → StronglySorted R l → StronglySorted R l'.
Proof.
  induction 1 as [|x l l' Hp IH|x y l|]; intros Hs; [done| | |by auto].
  - apply StronglySorted_inv in Hs as [Hs HF]. constructor; [auto|]. by rewrite <- Hp.
  - apply StronglySorted_inv in Hs as [Hs [Hyx HFy]%Forall_cons]. apply StronglySorted_inv in Hs as [Hs HFx].
    constructor; [by constructor|]. by constructor.
Qed.

Lemma sorted_both {A} (R S T : A → A → Prop) (l : list A) :
  (∀ x y, x ∈ l → y ∈ l → R x y → S x y → T x y) → StronglySorted R l → StronglySorted S l → StronglySorted T l.
Proof.
  intros HT HR HS. induction HR as [|x l HR IH HFR]; constructor; apply StronglySorted_inv in HS as [HS HFS].
  - apply IH; [|done]. intros y z Hy Hz. apply HT; by apply elem_of_cons; right.
  - rewrite Forall_forall in HFR, HFS |- *. intros y Hy. apply HT; [by apply elem_of_cons; left|by apply elem_of_cons; right|auto..].
Qed.

Lemma mjoin_cons {A} (x : list A) (l : list (list A)) : mjoin (x :: l) = x ++ mjoin l.
Proof. done. Qed.

Lemma filter_ext_in {A} (P Q : A → Prop) `{∀ x, Decision (P x), ∀ x, Decision (Q x)} (l : list A) :
  (∀ x, x ∈ l → P x ↔ Q x) → filter P l = filter Q l.
Proof.
  induction l as [|x l IH]; intros HPQ; [done|]. rewrite !filter_cons. rewrite IH by (intros y Hy; apply HPQ; by right).
  pose proof (HPQ x ltac:(left)). repeat case_decide; tauto.
Qed.

Lemma filter_none {A} (P : A → Prop) `{∀ x, Decision (P x)} (l : list A) :
  (∀ x, x ∈ l → ¬ P x) → filter P l = [].
Proof.
  induction l as [|x l IH]; intros HP; [done|]. rewrite filter_cons_False by (apply HP; left). apply IH. intros y Hy. apply HP. by right.
Qed.

Lemma filter_id {A} (P : A → Prop) `{∀ x, Decision (P x)} (l : list A) :
  (∀ x, x ∈ l → P x) → filter P l = l.
Proof.
  induction l as [|x l IH]; intros HP; [done|]. rewrite filter_cons_True by (apply HP; left).
  f_equal. apply IH. intros y Hy. apply HP. by right.
Qed.

Lemma NoDup_fmap_inj {A B} (f : A → B) (l : list A) x y :
  NoDup (f <$> l) → x ∈ l → y ∈ l → f x = f y → x = y.
Proof.
  induction l as [|z l IH]; simpl; [by intros _ ?%elem_of_nil|].
  rewrite NoDup_cons, list_elem_of_fmap. intros [Hz Hl].
  intros [->|Hx]%elem_of_cons [->|Hy]%elem_of_cons Heq; [done| | |by apply IH]; exfalso; eauto.
Qed.

Lemma collect_fmap {E A B} (f : A → result E B) (g : A → B) l :
  (∀ x, x ∈ l → f x = Ok (g x)) → collect f l = Ok (g <$> l).
Proof.
  induction l as [|x l IH]; simpl; intros Hf; [done|].
  rewrite Hf by set_solver. simpl. by rewrite IH by set_solver.
Qed.

Create HintDb whip.
Create Rewrite HintDb whip_iter.
#[export] Hint Rewrite @elem_of_set_keys @elem_of_map_keys @elem_of_map_entries
  @set_all_true @set_any_true @forallb_elem @existsb_elem : whip_iter.
#[export] Hint Resolve NoDup_set_keys NoDup_map_keys : whip.
