(* ===== verification/Walk.v ===== *)
(** The worklist walk that the acts-for closure of the governance kernel and the
    cycle guard of the effect store both run: pop a node from a stack, stop when
    it is the target, skip it when it was expanded before, and otherwise push
    its successors.  The walk is defined over a list of directed edges; the two
    components pass their own edges. *)
From S2P Require Import Prelude.

Section walk.
Context {A : Type} `{Countable A}.
Implicit Types (edges : list (A * A)) (x y q : A) (frontier : list A) (visited : gset A).

(** ** Definitions *)

(** The successors of [x], in the order of the edges. *)
Definition successors edges x : list A :=
  omap (λ e, if bool_decide (e.1 = x) then Some e.2 else None) edges.

(** [while let Some(x) = frontier.pop()].  The head of the list is the top of
    the stack, so pushing successors one after the other reverses them.  [None]
    says that the fuel ran out. *)
Fixpoint walk (fuel : nat) edges q frontier visited : option bool :=
  match fuel with
  | 0 => None
  | S fuel' =>
      match frontier with
      | [] => Some false
      | x :: rest =>
          if bool_decide (x = q) then Some true
          else if bool_decide (x ∈ visited) then walk fuel' edges q rest visited
          else walk fuel' edges q (reverse (successors edges x) ++ rest) ({[x]} ∪ visited)
      end
  end.

(** Each node is expanded at most once and an expansion pushes one node per
    outgoing edge, so a walk from one node pops at most [1 + |edges|] nodes; the
    last unit of fuel observes the empty stack. *)
Definition walk_fuel edges : nat := S (S (length edges)).

(** Whether [q] is found from [p]. *)
Definition reaches edges p q : bool :=
  default false (walk (walk_fuel edges) edges q [p] ∅).

(** The edge relation the walk follows. *)
Definition edge edges x y : Prop := (x, y) ∈ edges.

(** The edges the walk may still push: those whose source is not expanded. *)
Definition unexpanded edges visited : list (A * A) :=
  filter (λ e, (e.1 ∉ visited)) edges.

(** ** Lemmas *)

Lemma elem_of_successors edges x y : y ∈ successors edges x ↔ edge edges x y.
Proof.
  unfold successors, edge. rewrite list_elem_of_omap. split.
  - intros ([a b] & He & Hb). case_bool_decide; naive_solver.
  - intros He. exists (x, y). by rewrite bool_decide_true.
Qed.

Lemma successors_cons edges a b x :
  successors ((a, b) :: edges) x
  = if bool_decide (a = x) then b :: successors edges x else successors edges x.
Proof. unfold successors. simpl. by case_bool_decide. Qed.

Lemma length_unexpanded_step edges visited x :
  x ∉ visited →
  length (successors edges x) + length (unexpanded edges ({[x]} ∪ visited))
  = length (unexpanded edges visited).
Proof.
  intros Hx. unfold unexpanded.
  induction edges as [|[a b] edges IH]; [done|].
  rewrite successors_cons, !filter_cons; simpl.
  destruct (decide (a = x)) as [->|Hne].
  - rewrite bool_decide_true by done.
    rewrite decide_False by set_solver. rewrite decide_True by done. simpl. lia.
  - rewrite bool_decide_false by done.
    destruct (decide (a ∈ visited)).
    + rewrite !decide_False by set_solver. done.
    + rewrite !decide_True by set_solver. simpl. lia.
Qed.

(** Enough fuel always gives an answer. *)
Lemma walk_total fuel edges q frontier visited :
  length frontier + length (unexpanded edges visited) < fuel →
  is_Some (walk fuel edges q frontier visited).
Proof.
  revert frontier visited. induction fuel as [|fuel IH]; intros F V Hf; [lia|].
  destruct F as [|x F]; simpl; [eauto|]. simpl in Hf.
  case_bool_decide; [eauto|]. case_bool_decide as HV.
  - apply IH. lia.
  - apply IH. rewrite length_app, length_reverse.
    pose proof (length_unexpanded_step edges V x HV). lia.
Qed.

Lemma walk_fuel_total edges p q :
  is_Some (walk (walk_fuel edges) edges q [p] ∅).
Proof.
  apply walk_total. unfold walk_fuel. simpl.
  assert (length (unexpanded edges (∅ : gset A)) ≤ (length edges))
    by apply length_filter. lia.
Qed.

(** A path that starts inside a set and ends outside it crosses its border. *)
Lemma rtc_exit (R : relation A) (V : gset A) x q :
  rtc R x q → x ∈ V → q ∉ V →
  ∃ v z, v ∈ V ∧ (z ∉ V) ∧ R v z ∧ rtc R z q.
Proof.
  induction 1 as [x|x y q Hxy Hyq IH]; intros Hx Hq; [done|].
  destruct (decide (y ∈ V)); [naive_solver|]. by exists x, y.
Qed.

Lemma walk_sound fuel edges q frontier visited :
  walk fuel edges q frontier visited = Some true →
  ∃ x, x ∈ frontier ∧ rtc (edge edges) x q.
Proof.
  revert frontier visited. induction fuel as [|fuel IH]; intros F V Hw; [done|].
  destruct F as [|x F]; simpl in Hw; [done|].
  case_bool_decide as Hq; [subst; exists q; set_solver|].
  case_bool_decide as HV.
  - destruct (IH _ _ Hw) as (y & ? & ?). exists y. set_solver.
  - destruct (IH _ _ Hw) as (y & Hy & Hrtc).
    rewrite elem_of_app, elem_of_reverse, elem_of_successors in Hy.
    destruct Hy as [Hy|Hy]; [|exists y; set_solver].
    exists x. split; [set_solver|]. by eapply rtc_l.
Qed.

Lemma walk_complete fuel edges q frontier visited :
  (∀ v z, v ∈ visited → edge edges v z → z ∈ visited ∨ z ∈ frontier) →
  q ∉ visited →
  walk fuel edges q frontier visited = Some false →
  ∀ x, x ∈ frontier → ¬ rtc (edge edges) x q.
Proof.
  revert frontier visited. induction fuel as [|fuel IH]; intros F V Hcl Hq Hw; [done|].
  destruct F as [|x F]; simpl in Hw; [set_solver|].
  case_bool_decide as Hxq; [done|]. case_bool_decide as HV.
  - assert (∀ y, y ∈ F → ¬ rtc (edge edges) y q) as HF.
    { apply (IH _ V); [|done..]. intros v z Hv Hvz.
      destruct (Hcl v z Hv Hvz) as [?|?]; [by left|]. set_solver. }
    intros y Hy. apply elem_of_cons in Hy as [->|Hy]; [|by apply HF].
    intros Hrtc. destruct (rtc_exit _ V _ _ Hrtc HV Hq) as (v & z & Hv & Hz & Hvz & Hzq).
    destruct (Hcl v z Hv Hvz) as [?|Hin]; [done|].
    apply elem_of_cons in Hin as [->|Hin]; [done|]. by eapply HF.
  - assert (∀ y, y ∈ reverse (successors edges x) ++ F → ¬ rtc (edge edges) y q) as HF.
    { apply (IH _ ({[x]} ∪ V)); [|set_solver|done]. intros v z Hv Hvz.
      rewrite elem_of_app, elem_of_reverse, elem_of_successors.
      apply elem_of_union in Hv as [->%elem_of_singleton|Hv]; [naive_solver|].
      destruct (Hcl v z Hv Hvz) as [?|Hin]; set_solver. }
    intros y Hy. apply elem_of_cons in Hy as [->|Hy].
    + intros Hrtc. destruct (rtc_inv _ _ Hrtc) as [->|(z & Hxz & Hzq)]; [done|].
      apply (HF z); [|done]. rewrite elem_of_app, elem_of_reverse, elem_of_successors.
      by left.
    + apply HF. set_solver.
Qed.

(** The walk decides reachability. *)
Lemma reaches_rtc edges p q : reaches edges p q = true ↔ rtc (edge edges) p q.
Proof.
  unfold reaches. destruct (walk_fuel_total edges p q) as [b Hb]. rewrite Hb. simpl.
  destruct b; split; intros Hr; try done.
  - destruct (walk_sound _ _ _ _ _ Hb) as (x & Hx & ?). set_solver.
  - exfalso. revert Hr. apply (walk_complete (walk_fuel edges) edges q [p] ∅);
      [set_solver..|done|set_solver].
Qed.

Lemma reaches_false edges p q : reaches edges p q = false ↔ ¬ rtc (edge edges) p q.
Proof. rewrite <- reaches_rtc. by destruct (reaches edges p q). Qed.

End walk.

Lemma edge_mono {A} (E1 E2 : list (A * A)) x y : E1 ⊆ E2 → edge E1 x y → edge E2 x y.
Proof. unfold edge. set_solver. Qed.

Lemma reach_mono {A} (E1 E2 : list (A * A)) x y :
  E1 ⊆ E2 → rtc (edge E1) x y → rtc (edge E2) x y.
Proof. intros Hs. apply rtc_subrel. intros a b. by apply edge_mono. Qed.
