(* ===== verification/RustStr.v ===== *)
(** The operations of Rust's [str] that the modelled code uses, over byte strings.

    A Rust [String] is a sequence of UTF-8 bytes; the model is the standard
    library's [string], a sequence of eight-bit characters, so [String.length]
    is [str::len] and comparison of bytes is [Ord for str].  [trim] removes the
    characters with the Unicode property White_Space, in their UTF-8 encoding. *)
From S2P Require Import Prelude.
From Stdlib Require Export Ascii.
Local Open Scope string_scope.

(** ** Definitions *)

(** [s.as_bytes()]. *)
Abbreviation chars := String.list_ascii_of_string.

Definition bytes (l : list N) : string :=
  foldr (λ n s, String (ascii_of_N n) s) "" l.

Fixpoint strip_prefix (p s : string) : option string :=
  match p, s with
  | EmptyString, _ => Some s
  | String a p', String b s' => if Ascii.eqb a b then strip_prefix p' s' else None
  | String _ _, EmptyString => None
  end.

(** [s.starts_with(p)]. *)
Definition starts_with (s p : string) : bool :=
  match strip_prefix p s with Some _ => true | None => false end.

(** [s.contains(c)] for an ASCII character. *)
Fixpoint contains_char (c : ascii) (s : string) : bool :=
  match s with
  | EmptyString => false
  | String a s' => Ascii.eqb a c || contains_char c s'
  end.

(** [s.contains(p)]. *)
Fixpoint contains_str (p s : string) : bool :=
  starts_with s p ||
  match s with EmptyString => false | String _ s' => contains_str p s' end.

(** The longest prefix whose characters satisfy [f], and the rest. *)
Fixpoint span (f : ascii → bool) (s : string) : string * string :=
  match s with
  | EmptyString => ("", "")
  | String a s' => if f a then let '(l, r) := span f s' in (String a l, r) else ("", s)
  end.

(** [s.split_once(c)] for an ASCII character. *)
Definition split_once (c : ascii) (s : string) : option (string * string) :=
  match span (λ a, negb (Ascii.eqb a c)) s with
  | (l, String _ r) => Some (l, r)
  | (_, EmptyString) => None
  end.

(** [s.split_once(p)] for a string. *)
Fixpoint split_once_str (p s : string) : option (string * string) :=
  match strip_prefix p s with
  | Some r => Some ("", r)
  | None =>
      match s with
      | EmptyString => None
      | String a s' => (λ lr, (String a lr.1, lr.2)) <$> split_once_str p s'
      end
  end.

(** [s.split(c)] for an ASCII character. *)
Fixpoint split_char (c : ascii) (s : string) : list string :=
  match s with
  | EmptyString => [""]
  | String a s' =>
      if Ascii.eqb a c then "" :: split_char c s'
      else match split_char c s' with
           | [] => [String a ""]
           | w :: ws => String a w :: ws
           end
  end.

(** The part before the last [c]: [s.rfind(c).map(|cut| &s[..cut])]. *)
Fixpoint before_last (c : ascii) (s : string) : option string :=
  match s with
  | EmptyString => None
  | String a s' =>
      match before_last c s' with
      | Some p => Some (String a p)
      | None => if Ascii.eqb a c then Some "" else None
      end
  end.

(** The UTF-8 encodings of the White_Space characters. *)
Definition whitespace : list string :=
  bytes <$> mjoin
    [ (λ n, [n]) <$> [9; 10; 11; 12; 13; 32]%N;
      [[194; 133]; [194; 160]; [225; 154; 128]]%N;
      (λ n, [226; 128; n]%N) <$>
        [128; 129; 130; 131; 132; 133; 134; 135; 136; 137; 138; 168; 169; 175]%N;
      [[226; 129; 159]; [227; 128; 128]]%N ].

Definition strip_one (encodings : list string) (s : string) : option string :=
  head (omap (λ w, strip_prefix w s) encodings).

Fixpoint strip_many (fuel : nat) (encodings : list string) (s : string) : string :=
  match fuel with
  | 0 => s
  | S fuel' =>
      match strip_one encodings s with
      | Some s' => strip_many fuel' encodings s'
      | None => s
      end
  end.

(** [str::trim_start], [str::trim_end], [str::trim]: every stripped character has
    at least one byte, so the length of the string is enough fuel. *)
Definition trim_start (s : string) : string := strip_many (String.length s) whitespace s.
Definition trim_end (s : string) : string :=
  String.rev (strip_many (String.length s) (String.rev <$> whitespace) (String.rev s)).
Definition trim (s : string) : string := trim_end (trim_start s).

(** [!s.trim().is_empty()]. *)
Definition nonempty (s : string) : bool :=
  match trim s with EmptyString => false | String _ _ => true end.

Definition is_ascii_upper (a : ascii) : bool :=
  let n := N_of_ascii a in (65 <=? n)%N && (n <=? 90)%N.
Definition is_ascii_lower (a : ascii) : bool :=
  let n := N_of_ascii a in (97 <=? n)%N && (n <=? 122)%N.
Definition is_ascii_digit (a : ascii) : bool :=
  let n := N_of_ascii a in (48 <=? n)%N && (n <=? 57)%N.
Definition is_ascii_alphanumeric (a : ascii) : bool :=
  is_ascii_upper a || is_ascii_lower a || is_ascii_digit a.

Fixpoint map_string (f : ascii → ascii) (s : string) : string :=
  match s with EmptyString => "" | String a s' => String (f a) (map_string f s') end.
Definition to_ascii_lowercase : string → string :=
  map_string (λ a, if is_ascii_upper a then ascii_of_N (N_of_ascii a + 32) else a).
Definition to_ascii_uppercase : string → string :=
  map_string (λ a, if is_ascii_lower a then ascii_of_N (N_of_ascii a - 32) else a).

(** [s.chars()], each character as its bytes: a byte outside 0x80-0xBF starts one. *)
Fixpoint utf8_chars (s : string) : list string :=
  match s with
  | EmptyString => []
  | String a s' =>
      match utf8_chars s', s' with
      | c :: cs, String b _ =>
          if (128 <=? N_of_ascii b)%N && (N_of_ascii b <? 192)%N then String a c :: cs
          else String a "" :: c :: cs
      | cs, _ => String a "" :: cs
      end
  end.

(** Which characters beyond ASCII, given in UTF-8, are alphanumeric. *)
Class UnicodeTable := alphanumeric_beyond_ascii : string → bool.

(** [c.is_alphanumeric() || c == '_']. *)
Definition identifier_char `{UnicodeTable} (c : string) : bool :=
  match c with
  | String a EmptyString => is_ascii_alphanumeric a || Ascii.eqb a "_"
  | _ => alphanumeric_beyond_ascii c
  end.

(** [parts.join(sep)]. *)
Definition join (sep : string) (parts : list string) : string := String.concat sep parts.

(** ** Lemmas *)

Create Rewrite HintDb whip_str.

Lemma string_app_cons a s t : String a s +:+ t = String a (s +:+ t).
Proof. done. Qed.
Lemma string_app_nil_l s : "" +:+ s = s.
Proof. done. Qed.
#[export] Hint Rewrite string_app_cons string_app_nil_l : whip_str.

Lemma strip_prefix_Some p s r : strip_prefix p s = Some r ↔ s = p +:+ r.
Proof.
  revert s. induction p as [|a p IH]; intros s; simpl.
  - split; [by intros [= ->] | by intros ->].
  - destruct s as [|b s]; [done|]. destruct (Ascii.eqb_spec a b) as [->|Hne].
    + rewrite IH, string_app_cons. split; [by intros -> | by intros [= ->]].
    + rewrite string_app_cons. split; [done | by intros [= ->]].
Qed.

Lemma strip_prefix_app p s : strip_prefix p (p +:+ s) = Some s.
Proof. by apply strip_prefix_Some. Qed.

Lemma starts_with_true s p : starts_with s p = true ↔ ∃ r, s = p +:+ r.
Proof.
  unfold starts_with. destruct (strip_prefix p s) eqn:Hp.
  - apply strip_prefix_Some in Hp. naive_solver.
  - split; [done|]. intros [r ->]. by rewrite strip_prefix_app in Hp.
Qed.

Lemma string_app_length s1 s2 :
  String.length (s1 +:+ s2) = String.length s1 + String.length s2.
Proof. induction s1; [done|]. rewrite string_app_cons. simpl. congruence. Qed.

Lemma string_app_assoc s1 s2 s3 : (s1 +:+ s2) +:+ s3 = s1 +:+ (s2 +:+ s3).
Proof. induction s1; [done|]. rewrite !string_app_cons. congruence. Qed.

Lemma string_app_nil_r s : s +:+ "" = s.
Proof. induction s; [done|]. rewrite string_app_cons. congruence. Qed.

Lemma span_app f s l r : span f s = (l, r) → s = l +:+ r.
Proof.
  revert l r. induction s as [|a s IH]; intros l r; simpl.
  - by intros [= <- <-].
  - destruct (f a); [|by intros [= <- <-]].
    destruct (span f s) as [l' r']. intros [= <- <-]. rewrite string_app_cons. f_equal. by apply IH.
Qed.

Lemma before_last_Some c s p :
  before_last c s = Some p → ∃ r, s = p +:+ String c r.
Proof.
  revert p. induction s as [|a s IH]; intros p; simpl; [done|].
  destruct (before_last c s) as [p'|] eqn:Hp.
  - intros [= <-]. destruct (IH p' eq_refl) as [r ->]. by exists r.
  - destruct (Ascii.eqb_spec a c) as [->|]; [|done]. intros [= <-]. by exists s.
Qed.

Lemma before_last_length c s p :
  before_last c s = Some p → String.length p < String.length s.
Proof.
  intros (r & ->)%before_last_Some. rewrite string_app_length. simpl. lia.
Qed.

Lemma before_last_app c s r :
  contains_char c r = false → before_last c (s +:+ String c r) = Some s.
Proof.
  intros Hr. assert (before_last c r = None) as Hn.
  { induction r as [|a r IH]; simpl in *; [done|].
    apply orb_false_iff in Hr as [Ha Hr]. by rewrite (IH Hr), Ha. }
  induction s as [|a s IH].
  - rewrite string_app_nil_l. simpl. by rewrite Hn, Ascii.eqb_refl.
  - rewrite string_app_cons. simpl. by rewrite IH.
Qed.

Lemma chars_app s t : chars (s +:+ t) = app (chars s) (chars t).
Proof. induction s; [done|]. rewrite string_app_cons. simpl. congruence. Qed.

Lemma chars_inj s t : chars s = chars t → s = t.
Proof.
  intros H. rewrite <- (String.string_of_list_ascii_of_string s), H.
  apply String.string_of_list_ascii_of_string.
Qed.

Lemma contains_char_false c s : contains_char c s = false ↔ (c ∉ chars s).
Proof.
  induction s as [|a s IH]; simpl; [split; [intros _; apply not_elem_of_nil|done]|].
  rewrite orb_false_iff, IH, not_elem_of_cons.
  destruct (Ascii.eqb_spec a c); naive_solver.
Qed.

Lemma rev_app_spec s t : String.rev_app s t = String.rev s +:+ t.
Proof.
  unfold String.rev. revert t. induction s as [|a s IH]; intros t; [done|]. simpl.
  rewrite IH, (IH (String a "")), string_app_assoc. done.
Qed.

Lemma rev_cons a s : String.rev (String a s) = String.rev s +:+ String a "".
Proof. unfold String.rev at 1. simpl. apply rev_app_spec. Qed.

Lemma rev_snoc a s : String.rev (s +:+ String a "") = String a (String.rev s).
Proof.
  induction s as [|b s IH]; [done|].
  rewrite string_app_cons, !rev_cons, IH. apply string_app_cons.
Qed.

Lemma rev_rev s : String.rev (String.rev s) = s.
Proof. induction s as [|a s IH]; [done|]. by rewrite rev_cons, rev_snoc, IH. Qed.

Lemma strip_many_None fuel encodings s :
  strip_one encodings s = None → strip_many fuel encodings s = s.
Proof. intros H. destruct fuel; [done|]. simpl. by rewrite H. Qed.

(** A string whose ends start and end no whitespace character is its own trim. *)
Lemma trim_id s :
  strip_one whitespace s = None →
  strip_one (String.rev <$> whitespace) (String.rev s) = None →
  trim s = s.
Proof.
  intros Hl Hr. unfold trim, trim_start, trim_end.
  by rewrite (strip_many_None _ _ s), strip_many_None, rev_rev.
Qed.

(** [f] fixes [c] and sends nothing else to it. *)
Definition fixes (f : ascii → ascii) (c : ascii) : Prop := ∀ a, f a = c ↔ a = c.

Lemma contains_char_map f c s :
  fixes f c → contains_char c (map_string f s) = contains_char c s.
Proof.
  intros Hf. induction s as [|a s IH]; simpl; [done|]. rewrite IH. f_equal.
  specialize (Hf a). destruct (Ascii.eqb_spec (f a) c), (Ascii.eqb_spec a c); naive_solver.
Qed.

Lemma starts_with_map f p s :
  (∀ c, c ∈ chars p → fixes f c) → starts_with (map_string f s) p = starts_with s p.
Proof.
  unfold starts_with. revert s. induction p as [|c p IH]; intros s Hp; simpl; [done|].
  destruct s as [|a s]; simpl; [done|].
  assert (fixes f c) as Hc by (apply Hp; left). specialize (Hc a).
  destruct (Ascii.eqb_spec c (f a)) as [Hfa|Hfa], (Ascii.eqb_spec c a) as [Ha|Ha].
  - apply IH. intros d Hd. apply Hp. by right.
  - destruct Ha. symmetry. by apply Hc.
  - destruct Hfa. symmetry. by apply Hc.
  - done.
Qed.

Lemma string_app_inj_l p s t : p +:+ s = p +:+ t → s = t.
Proof. intros H. apply (f_equal (strip_prefix p)) in H. rewrite !strip_prefix_app in H. by simplify_eq. Qed.

Lemma contains_str_app a p r : contains_str p (a +:+ p +:+ r) = true.
Proof.
  induction a as [|c a IH].
  - rewrite string_app_nil_l.
    assert (starts_with (p +:+ r) p = true) as H by (apply starts_with_true; eauto).
    by destruct (p +:+ r); simpl; rewrite H.
  - rewrite string_app_cons. simpl. by rewrite IH, orb_true_r.
Qed.

Lemma contains_str_no_char c p s :
  contains_char c s = false → contains_str (String c p) s = false.
Proof.
  induction s as [|d s IH]; [done|]. simpl. intros [Hd Hs]%orb_false_iff.
  rewrite IH by done. rewrite orb_false_r. unfold starts_with. cbn [strip_prefix].
  by rewrite Ascii.eqb_sym, Hd.
Qed.

(** *** Trimming *)

Lemma rev_app_distr s t : String.rev (s +:+ t) = String.rev t +:+ String.rev s.
Proof.
  induction s as [|a s IH]; [by rewrite string_app_nil_l, string_app_nil_r|].
  by rewrite string_app_cons, !rev_cons, IH, string_app_assoc.
Qed.

Lemma strip_one_Some encodings s r :
  strip_one encodings s = Some r → ∃ w, w ∈ encodings ∧ s = w +:+ r.
Proof.
  unfold strip_one. induction encodings as [|w ws IH]; simpl; [done|].
  destruct (strip_prefix w s) as [r'|] eqn:Hw; simpl.
  - intros [= <-]. exists w. split; [left|]. by apply strip_prefix_Some.
  - intros (w' & ? & ?)%IH. exists w'. split; [by right|done].
Qed.

Lemma strip_one_None encodings s :
  strip_one encodings s = None ↔ ∀ w, w ∈ encodings → strip_prefix w s = None.
Proof.
  unfold strip_one. induction encodings as [|w ws IH]; simpl.
  - split; [by intros _ w ?%elem_of_nil|done].
  - setoid_rewrite elem_of_cons. destruct (strip_prefix w s) eqn:Hw; simpl; [|naive_solver].
    split; [done|]. intros H. rewrite (H w) in Hw by auto. done.
Qed.

Lemma strip_many_suffix fuel encodings s : ∃ w, s = w +:+ strip_many fuel encodings s.
Proof.
  revert s. induction fuel as [|fuel IH]; intros s; simpl; [by exists ""|].
  destruct (strip_one encodings s) as [r|] eqn:Hr; [|by exists ""].
  apply strip_one_Some in Hr as (w & _ & ->). destruct (IH r) as [w' Hw'].
  exists (w +:+ w'). by rewrite string_app_assoc, <- Hw'.
Qed.

Lemma strip_many_done fuel encodings s :
  (∀ w, w ∈ encodings → w ≠ "") → (String.length s <= fuel)%nat →
  strip_one encodings (strip_many fuel encodings s) = None.
Proof.
  intros Hne. revert s. induction fuel as [|fuel IH]; intros s Hf; simpl.
  - destruct s; [|simpl in Hf; lia]. apply strip_one_None. intros w Hw.
    destruct w; [by destruct (Hne "" Hw)|done].
  - destruct (strip_one encodings s) as [r|] eqn:Hr; [|done]. apply IH.
    apply strip_one_Some in Hr as (w & Hw & ->). rewrite string_app_length in Hf.
    destruct w; [by destruct (Hne "" Hw)|]. simpl in Hf. lia.
Qed.

Lemma whitespace_nonempty w : w ∈ whitespace → w ≠ "".
Proof.
  intros Hw ->. assert (forallb (λ w, negb (String.eqb w "")) whitespace = true) as H by done.
  rewrite forallb_elem in H. by apply H in Hw.
Qed.

Lemma trim_start_suffix s : ∃ w, s = w +:+ trim_start s.
Proof. apply strip_many_suffix. Qed.

Lemma trim_end_prefix s : ∃ w, s = trim_end s +:+ w.
Proof.
  unfold trim_end. destruct (strip_many_suffix (String.length s) (String.rev <$> whitespace)
    (String.rev s)) as [w Hw].
  exists (String.rev w). rewrite <- rev_app_distr, <- Hw. by rewrite rev_rev.
Qed.

Lemma rev_length s : String.length (String.rev s) = String.length s.
Proof.
  induction s as [|a s IH]; [done|]. rewrite rev_cons, string_app_length. simpl. lia.
Qed.

Lemma trim_idemp s : trim (trim s) = trim s.
Proof.
  unfold trim at 2 3. set (x := trim_start s).
  assert (strip_one whitespace x = None) as Hx.
  { apply strip_many_done; [apply whitespace_nonempty|lia]. }
  apply trim_id.
  - destruct (trim_end_prefix x) as [w Hw]. apply strip_one_None. intros e He.
    destruct (strip_prefix e (trim_end x)) as [r|] eqn:Hr; [|done].
    apply strip_prefix_Some in Hr. rewrite strip_one_None in Hx. specialize (Hx e He).
    rewrite Hw, Hr, string_app_assoc, strip_prefix_app in Hx. done.
  - unfold trim_end. rewrite rev_rev. apply strip_many_done; [|rewrite rev_length; lia].
    intros w (w' & -> & Hw')%list_elem_of_fmap Heq.
    apply (f_equal String.rev) in Heq. rewrite rev_rev in Heq.
    by destruct (whitespace_nonempty w' Hw').
Qed.

Lemma contains_char_app c s t :
  contains_char c (s +:+ t) = contains_char c s || contains_char c t.
Proof.
  induction s as [|a s IH]; [done|]. rewrite string_app_cons. simpl. by rewrite IH, orb_assoc.
Qed.

Lemma contains_char_trim c s : contains_char c s = false → contains_char c (trim s) = false.
Proof.
  intros Hs. unfold trim. destruct (trim_start_suffix s) as [w Hw].
  destruct (trim_end_prefix (trim_start s)) as [w' Hw']. rewrite Hw, Hw' in Hs.
  rewrite !contains_char_app in Hs. by apply orb_false_iff in Hs as [_ [? _]%orb_false_iff].
Qed.
