(* ===== verification/MachineInt.v ===== *)
(** Machine integers of the source: the range of [i64], wrapping and checked
    arithmetic, and the decimal text of a number with Rust's [str::parse::<i64>]. *)
From S2P Require Import Prelude RustStr.
From stdpp Require Import pretty.

(** ** Ranges *)

Definition i64_min : Z := -9223372036854775808.
Definition i64_max : Z := 9223372036854775807.

Definition in_i64 (z : Z) : Prop := (i64_min <= z <= i64_max)%Z.
#[export] Instance in_i64_dec z : Decision (in_i64 z).
Proof. unfold in_i64. apply _. Defined.

(** Two's complement wrap-around, as a release build computes [a - b]. *)
Definition wrap_i64 (z : Z) : Z := ((z - i64_min) mod 18446744073709551616 + i64_min)%Z.

(** The cast [z as u64], and the wrapping operations of [u64]. *)
Definition as_u64 (z : Z) : Z := (z mod 18446744073709551616)%Z.
Definition wrapping_add_u64 (a b : Z) : Z := as_u64 (a + b).
Definition wrapping_mul_u64 (a b : Z) : Z := as_u64 (a * b).

(** [i64::checked_add]. *)
Definition checked_add_i64 (a b : Z) : option Z :=
  if bool_decide (in_i64 (a + b)%Z) then Some (a + b)%Z else None.

(** ** Decimal text *)

Fixpoint parse_digits (acc : N) (s : string) : option N :=
  match s with
  | EmptyString => Some acc
  | String c s' =>
      if is_ascii_digit c then parse_digits (acc * 10 + (N_of_ascii c - 48))%N s' else None
  end.

Definition parse_magnitude (s : string) : option N :=
  match s with EmptyString => None | String _ _ => parse_digits 0 s end.

(** [s.parse::<i64>().ok()]: an optional sign, at least one digit, and a value in
    range. *)
Definition parse_i64 (s : string) : option Z :=
  z ← match s with
      | String "-"%char s' => Z.opp ∘ Z.of_N <$> parse_magnitude s'
      | String "+"%char s' => Z.of_N <$> parse_magnitude s'
      | _ => Z.of_N <$> parse_magnitude s
      end;
  if bool_decide (in_i64 z) then Some z else None.

(** ** Lemmas *)

Lemma wrap_i64_id z : in_i64 z → wrap_i64 z = z.
Proof.
  unfold wrap_i64, in_i64, i64_min, i64_max. intros Hz. rewrite Z.mod_small; lia.
Qed.

Lemma wrap_i64_range z : in_i64 (wrap_i64 z).
Proof.
  unfold wrap_i64, in_i64, i64_min, i64_max.
  pose proof (Z.mod_pos_bound (z - -9223372036854775808) 18446744073709551616). lia.
Qed.

Lemma as_u64_id z : (0 <= z < 18446744073709551616)%Z → as_u64 z = z.
Proof. apply Z.mod_small. Qed.

Lemma checked_add_i64_Some a b t :
  checked_add_i64 a b = Some t ↔ in_i64 t ∧ t = (a + b)%Z.
Proof. unfold checked_add_i64. case_bool_decide; naive_solver. Qed.

Lemma pretty_N_char_value n :
  (n < 10)%N → is_ascii_digit (pretty_N_char n) = true ∧ (N_of_ascii (pretty_N_char n) - 48 = n)%N.
Proof.
  intros Hn.
  assert (n = 0 ∨ n = 1 ∨ n = 2 ∨ n = 3 ∨ n = 4 ∨ n = 5 ∨ n = 6 ∨ n = 7 ∨ n = 8 ∨ n = 9)%N as Hc by lia.
  by repeat (destruct Hc as [->|Hc]; [done|]); subst.
Qed.

Lemma parse_pretty_N_go n s : parse_digits 0 (pretty_N_go n s) = parse_digits n s.
Proof.
  revert s. induction (N.lt_wf_0 n) as [n _ IH]; intros s.
  assert (n = 0 ∨ 0 < n)%N as [->|Hn] by lia; [by rewrite pretty_N_go_0|].
  rewrite pretty_N_go_step by done. rewrite IH by (apply N.div_lt; lia). simpl.
  destruct (pretty_N_char_value (n `mod` 10)) as [-> ->]; [apply N.mod_lt; lia|].
  f_equal. rewrite (N.div_mod n 10) at 3; lia.
Qed.

Lemma parse_magnitude_pretty (n : N) : parse_magnitude (pretty n) = Some n.
Proof.
  unfold pretty, pretty_N. case_decide as Hn; [by subst|].
  pose proof (parse_pretty_N_go n "") as Hp. unfold parse_magnitude.
  destruct (pretty_N_go n "") eqn:Hg; [|done].
  simpl in Hp. congruence.
Qed.

Lemma pretty_N_head (n : N) : ∃ c s, pretty n = String c s ∧ is_ascii_digit c = true.
Proof.
  pose proof (parse_magnitude_pretty n) as Hp. unfold parse_magnitude in Hp.
  destruct (pretty n) as [|c s]; [done|]. exists c, s. split; [done|].
  simpl in Hp. by destruct (is_ascii_digit c).
Qed.

Lemma parse_i64_pretty z : in_i64 z → parse_i64 (pretty z) = Some z.
Proof.
  intros Hz. unfold parse_i64. destruct z as [|p|p]; [done| |].
  - change (pretty (Z.pos p)) with (pretty (N.pos p)).
    destruct (pretty_N_head (N.pos p)) as (c & s & Hs & Hc).
    rewrite Hs. assert (parse_magnitude (String c s) = Some (N.pos p)) as Hm
      by (rewrite <- Hs; apply parse_magnitude_pretty).
    destruct c as [[] [] [] [] [] [] [] []]; try done; rewrite Hm; simpl;
      by rewrite bool_decide_true.
  - change (pretty (Z.neg p)) with (String "-" (pretty (N.pos p))).
    pose proof (parse_magnitude_pretty (N.pos p)) as Hm.
    destruct (pretty (N.pos p)) as [|c s]; [done|].
    change ((z ← (Z.opp ∘ Z.of_N <$> parse_magnitude (String c s));
             if bool_decide (in_i64 z) then Some z else None) = Some (Z.neg p)).
    rewrite Hm. simpl. by rewrite bool_decide_true.
Qed.
