(* ===== verification/Glob.v ===== *)
(** The glob matcher of the selection algebra ([glob_matches], core/selection.rs),
    which the egress scopes and the freshness basis share: the iterative
    two-pointer loop with single-star backtracking, a relational reading of
    globs, and the agreement of the two. *)
From S2P Require Import Prelude RustStr.

(** ** Definitions *)

Definition STAR : ascii := "*"%char.
Definition QUESTION : ascii := "?"%char.

(** One run of the loop [while v < value.len()].  [Some (Some p)] is the pattern
    position at which the loop ends, [Some None] the early [return false], and
    [None] says that the fuel ran out. *)
Fixpoint glob_loop (fuel : nat) (pattern value : list ascii)
    (p v : nat) (star : option nat) (resume : nat) : option (option nat) :=
  match fuel with
  | 0 => None
  | S fuel' =>
      match value !! v with
      | None => Some (Some p)
      | Some c =>
          let mismatch :=
            match star with
            | Some star_p =>
                glob_loop fuel' pattern value (S star_p) (S resume) star (S resume)
            | None => Some None
            end in
          match pattern !! p with
          | Some d =>
              if Ascii.eqb d QUESTION || Ascii.eqb d c then
                glob_loop fuel' pattern value (S p) (S v) star resume
              else if Ascii.eqb d STAR then
                glob_loop fuel' pattern value (S p) v (Some p) v
              else mismatch
          | None => mismatch
          end
      end
  end.

(** [while p < pattern.len() && pattern[p] == b'*'] on the rest of the pattern. *)
Fixpoint skip_stars (pattern : list ascii) : list ascii :=
  match pattern with
  | d :: rest => if Ascii.eqb d STAR then skip_stars rest else pattern
  | [] => []
  end.

(** Every turn moves [p] forward or [resume] forward, see [glob_loop_total]. *)
Definition glob_fuel (pattern value : list ascii) : nat :=
  S (S (length value) * S (length pattern)).

Definition glob_bytes (pattern value : list ascii) : bool :=
  match glob_loop (glob_fuel pattern value) pattern value 0 0 None 0 with
  | Some (Some p) => bool_decide (skip_stars (drop p pattern) = [])
  | _ => false
  end.

Definition glob_matches (pattern value : string) : bool :=
  glob_bytes (chars pattern) (chars value).

(** What a glob means: [?] is any one byte, [*] any run of bytes, and every other
    byte is itself. *)
Inductive glob : list ascii → list ascii → Prop :=
| glob_nil : glob [] []
| glob_any p c v : glob p v → glob (QUESTION :: p) (c :: v)
| glob_byte p c v : glob p v → glob (c :: p) (c :: v)
| glob_star_none p v : glob p v → glob (STAR :: p) v
| glob_star_more p c v : glob (STAR :: p) v → glob (STAR :: p) (c :: v).

(** What is still possible when the loop stands at [(p, v)]: the rest of the
    pattern matches the rest of the value, or the last star absorbs more. *)
Definition pending (pattern value : list ascii) (p v : nat) (star : option nat)
    (resume : nat) : Prop :=
  glob (drop p pattern) (drop v value) ∨
  match star with
  | Some star_p => glob (STAR :: drop (S star_p) pattern) (drop (S resume) value)
  | None => False
  end.

(** The answer the code gives once the loop has ended. *)
Definition accepted (pattern : list ascii) (r : option (option nat)) : Prop :=
  match r with
  | Some (Some p) => skip_stars (drop p pattern) = []
  | _ => False
  end.

(** ** Termination *)

Lemma glob_loop_total fuel pattern value p v star resume :
  p ≤ length pattern → resume ≤ v → v ≤ length value →
  (∀ sp, star = Some sp → sp < length pattern) →
  (length value - resume) * S (length pattern) + (length pattern - p) < fuel →
  is_Some (glob_loop fuel pattern value p v star resume).
Proof.
  revert p v star resume.
  induction fuel as [|fuel IH]; intros p v star resume Hp Hr Hv Hs Hf; [by apply Nat.nlt_0_r in Hf|].
  simpl. destruct (value !! v) as [c|] eqn:Hc; [|eauto].
  apply lookup_lt_Some in Hc.
  assert (is_Some match star with
    | Some star_p => glob_loop fuel pattern value (S star_p) (S resume) star (S resume)
    | None => Some None end) as Hmis.
  { destruct star as [sp|]; [|eauto]. specialize (Hs sp eq_refl).
    apply IH; [lia..|naive_solver|nia]. }
  destruct (pattern !! p) as [d|] eqn:Hd; [|done].
  apply lookup_lt_Some in Hd.
  destruct (_ || _); [apply IH; [lia..|done|lia]|].
  destruct (Ascii.eqb d STAR); [|done].
  apply IH; [lia..| |nia]. naive_solver.
Qed.

Lemma glob_fuel_total pattern value :
  is_Some (glob_loop (glob_fuel pattern value) pattern value 0 0 None 0).
Proof. apply glob_loop_total; [lia..|done|]. unfold glob_fuel. lia. Qed.

(** ** The relation *)

Lemma glob_star_iff p v :
  glob (STAR :: p) v ↔ glob p v ∨ ∃ c v', v = c :: v' ∧ glob (STAR :: p) v'.
Proof.
  split.
  - intros H. remember (STAR :: p) as q eqn:Hq.
    destruct H; simplify_eq; [|naive_solver..].
    right. eexists _, _. split; [done|]. by apply glob_star_none.
  - intros [?|(c & v' & -> & ?)]; by constructor.
Qed.

Lemma glob_cons_iff d p c v :
  d ≠ STAR → glob (d :: p) (c :: v) ↔ (d = QUESTION ∨ d = c) ∧ glob p v.
Proof.
  intros Hd. split.
  - intros H. inv H; naive_solver.
  - intros [[->| ->] ?]; by constructor.
Qed.

Lemma skip_stars_nil p : skip_stars p = [] ↔ glob p [].
Proof.
  induction p as [|d p IH]; simpl; [split; [constructor|done]|].
  destruct (Ascii.eqb_spec d STAR) as [->|Hd].
  - rewrite IH, glob_star_iff. naive_solver.
  - split; [done|]. intros H. by inv H.
Qed.

(** A star matches a longer rest when it matches a shorter one. *)
Lemma glob_star_app p v w : glob (STAR :: p) w → glob (STAR :: p) (v ++ w).
Proof. intros H. induction v; simpl; [done|]. by constructor. Qed.

(** A star-free run of the pattern consumes exactly its length. *)
Lemma glob_run mid p v :
  STAR ∉ mid → glob (mid ++ p) v →
  ∃ w v', v = w ++ v' ∧ length w = length mid ∧ glob p v'.
Proof.
  revert v. induction mid as [|d mid IH]; intros v Hs H; simpl in *.
  - by exists [], v.
  - apply not_elem_of_cons in Hs as [Hd Hs].
    destruct v as [|c v]; [by inv H|].
    apply glob_cons_iff in H as [_ H]; [|done].
    destruct (IH v Hs H) as (w & v' & -> & ? & ?).
    exists (c :: w), v'. simpl. split; [done|]. split; [lia|done].
Qed.

Lemma glob_star_suffix p v : glob (STAR :: p) v → ∃ w v', v = w ++ v' ∧ glob p v'.
Proof.
  intros H. remember (STAR :: p) as q eqn:Hq.
  induction H as [|p' c v H IH|p' c v H IH|p' v H IH|p' c v H IH]; simplify_eq.
  - exists [STAR], v. done.
  - by exists [], v.
  - destruct (IH eq_refl) as (w & v' & -> & ?). by exists (c :: w), v'.
Qed.

(** ** Soundness *)

Lemma glob_loop_sound fuel pattern value p v star resume :
  v ≤ length value →
  accepted pattern (glob_loop fuel pattern value p v star resume) →
  pending pattern value p v star resume.
Proof.
  revert p v star resume. induction fuel as [|fuel IH]; intros p v star resume Hv; [done|].
  simpl. destruct (value !! v) as [c|] eqn:Hc; simpl.
  - assert (drop v value = c :: drop (S v) value) as HV by (by apply drop_S).
    pose proof (lookup_lt_Some _ _ _ Hc) as Hlt.
    assert (accepted pattern match star with
      | Some star_p => glob_loop fuel pattern value (S star_p) (S resume) star (S resume)
      | None => Some None end → pending pattern value p v star resume) as Hmis.
    { destruct star as [sp|]; [|done]. intros H. right.
      destruct (decide (S resume ≤ length value)) as [Hr|Hr].
      - destruct (IH _ _ _ _ Hr H) as [Hg|Hg]; [by constructor|].
        destruct (value !! S resume) as [c'|] eqn:Hc'.
        + rewrite (drop_S _ _ _ Hc'). by constructor.
        + apply lookup_ge_None in Hc'.
          rewrite (drop_ge value) in Hg by lia. by rewrite (drop_ge value) by lia.
      - destruct fuel; [done|]. simpl in H. rewrite lookup_ge_None_2 in H by lia.
        simpl in H. rewrite (drop_ge value) by lia. constructor. by apply skip_stars_nil. }
    destruct (pattern !! p) as [d|] eqn:Hd; [|done].
    assert (drop p pattern = d :: drop (S p) pattern) as HP by (by apply drop_S).
    destruct (Ascii.eqb d QUESTION || Ascii.eqb d c) eqn:Hm.
    + intros H. destruct (IH (S p) (S v) star resume ltac:(lia) H) as [Hg|Hg]; [|by right].
      left. rewrite HP, HV. apply orb_true_iff in Hm as [->%Ascii.eqb_eq| ->%Ascii.eqb_eq];
        by constructor.
    + destruct (Ascii.eqb_spec d STAR) as [->|]; [|done].
      intros H. left. rewrite HP, HV. apply glob_star_iff.
      destruct (IH _ _ _ _ Hv H) as [Hg|Hg]; [left; by rewrite <- HV|right; eauto].
  - intros H. left. apply lookup_ge_None in Hc. rewrite (drop_ge value) by lia.
    by apply skip_stars_nil.
Qed.

(** ** Completeness, for values without a literal star *)

(** The bytes between the last star and [p] hold no star and were matched against
    the value from [resume] to [v]. *)
Definition aligned (pattern : list ascii) (p v : nat) (star : option nat)
    (resume : nat) : Prop :=
  match star with
  | Some sp => ∃ mid, drop (S sp) pattern = mid ++ drop p pattern ∧ (STAR ∉ mid) ∧
                      resume + length mid = v
  | None => True
  end.

(** Nothing is lost when the loop forgets an earlier star. *)
Lemma star_forgotten pattern value p v sp resume rest :
  aligned pattern p v (Some sp) resume →
  drop p pattern = STAR :: rest →
  glob (STAR :: drop (S sp) pattern) (drop (S resume) value) →
  glob (STAR :: rest) (drop v value).
Proof.
  intros (mid & Hmid & Hs & Hlen) Hp Hg. rewrite Hmid, Hp in Hg.
  destruct (glob_star_suffix _ _ Hg) as (w & v' & Hw & Hg').
  destruct (glob_run _ _ _ Hs Hg') as (w2 & v2 & -> & Hl2 & Hg2).
  assert (v2 = drop (S resume + length w + length w2) value) as Hv2.
  { rewrite <- drop_drop, <- drop_drop, Hw, drop_app_length, drop_app_length. done. }
  replace (drop v value) with
    (take (S (length w)) (drop v value) ++ drop (S (length w)) (drop v value))
    by apply take_drop.
  apply glob_star_app. rewrite drop_drop.
  replace (v + S (length w)) with (S resume + length w + length w2) by lia.
  by rewrite <- Hv2.
Qed.

(** At the end of the value an earlier star has too few bytes left. *)
Lemma star_exhausted pattern value p v sp resume :
  aligned pattern p v (Some sp) resume → v = length value →
  ¬ glob (STAR :: drop (S sp) pattern) (drop (S resume) value) ∨
  glob (drop p pattern) [].
Proof.
  intros (mid & Hmid & Hs & Hlen) Hv. rewrite Hmid.
  destruct (decide (length mid = 0)) as [Hz|Hz].
  - apply nil_length_inv in Hz as ->. simpl in *.
    destruct (decide (skip_stars (drop p pattern) = [])) as [Hk|Hk].
    + right. by apply skip_stars_nil.
    + left. rewrite (drop_ge value) by lia. intros (w & v' & Hw & Hg)%glob_star_suffix.
      symmetry in Hw. apply app_eq_nil in Hw as [-> ->]. by apply Hk, skip_stars_nil.
  - left. intros (w & v' & Hw & Hg)%glob_star_suffix.
    destruct (glob_run _ _ _ Hs Hg) as (w2 & v2 & -> & Hl2 & _).
    apply (f_equal length) in Hw. rewrite length_drop, !length_app in Hw. lia.
Qed.

Lemma glob_loop_complete fuel pattern value p v star resume :
  STAR ∉ value → resume ≤ v → v ≤ length value →
  aligned pattern p v star resume →
  is_Some (glob_loop fuel pattern value p v star resume) →
  pending pattern value p v star resume →
  accepted pattern (glob_loop fuel pattern value p v star resume).
Proof.
  intros Hval. revert p v star resume.
  induction fuel as [|fuel IH]; intros p v star resume Hr Hv Hal Htot; [by destruct Htot|].
  simpl in *. destruct (value !! v) as [c|] eqn:Hc.
  - assert (drop v value = c :: drop (S v) value) as HV by (by apply drop_S).
    pose proof (lookup_lt_Some _ _ _ Hc) as Hlt.
    assert (c ≠ STAR) as Hcs by (intros ->; apply Hval, list_elem_of_lookup; eauto).
    assert (∀ Ht : is_Some match star with
      | Some star_p => glob_loop fuel pattern value (S star_p) (S resume) star (S resume)
      | None => Some None end, ¬ glob (drop p pattern) (drop v value) →
      pending pattern value p v star resume →
      accepted pattern match star with
      | Some star_p => glob_loop fuel pattern value (S star_p) (S resume) star (S resume)
      | None => Some None end) as Hmis.
    { intros Ht Hno [?|Hg]; [done|]. destruct star as [sp|]; [|done].
      apply IH; [lia..| |done|].
      - exists []. split; [done|]. split; [set_solver|simpl; lia].
      - apply glob_star_iff in Hg as [?|(c' & v' & Hv' & ?)]; [by left|]. right.
        replace (drop (S (S resume)) value) with v'; [done|].
        replace (S (S resume)) with (S resume + 1) by lia.
        rewrite <- drop_drop, Hv'. done. }
    destruct (pattern !! p) as [d|] eqn:Hd; cycle 1.
    { intros Hpend. apply Hmis; [done| |done].
      apply lookup_ge_None in Hd. rewrite HV, (drop_ge pattern) by lia. intros H; inv H. }
    assert (drop p pattern = d :: drop (S p) pattern) as HP by (by apply drop_S).
    destruct (Ascii.eqb d QUESTION || Ascii.eqb d c) eqn:Hm.
    + assert (d ≠ STAR) as Hds.
      { intros ->. apply orb_true_iff in Hm as [?%Ascii.eqb_eq|?%Ascii.eqb_eq]; [done|].
        by simplify_eq. }
      intros Hpend. apply IH; [lia..| |done|].
      * destruct star as [sp|]; [|done]. destruct Hal as (mid & Hmid & Hs & Hlen).
        exists (mid ++ [d])%list. rewrite Hmid, HP, <- app_assoc.
        split; [done|]. rewrite length_app. split; [set_solver|simpl; lia].
      * destruct Hpend as [Hg|Hg]; [left|by right].
        rewrite HP, HV in Hg. by apply glob_cons_iff in Hg as [_ ?].
    + apply orb_false_iff in Hm as [Hq%Ascii.eqb_neq Hdc%Ascii.eqb_neq].
      destruct (Ascii.eqb_spec d STAR) as [->|Hds].
      * intros Hpend. apply IH; [lia..| |done|].
        { exists []. split; [done|]. split; [set_solver|simpl; lia]. }
        assert (glob (STAR :: drop (S p) pattern) (drop v value)) as Hg.
        { destruct Hpend as [Hg|Hg]; [by rewrite HP in Hg|].
          destruct star as [sp|]; [|done]. by eapply star_forgotten. }
        apply glob_star_iff in Hg as [?|(c' & v' & Hv' & ?)]; [by left|right].
        rewrite HV in Hv'. by simplify_eq.
      * intros Hpend. apply Hmis; [done| |done].
        rewrite HP, HV, glob_cons_iff by done. naive_solver.
  - apply lookup_ge_None in Hc. intros Hpend. simpl. apply skip_stars_nil.
    destruct Hpend as [Hg|Hg]; [by rewrite (drop_ge value) in Hg by lia|].
    destruct star as [sp|]; [|done].
    destruct (star_exhausted pattern value p v sp resume Hal ltac:(lia)); done.
Qed.

Lemma glob_bytes_accepted pattern value :
  glob_bytes pattern value = true ↔
  accepted pattern (glob_loop (glob_fuel pattern value) pattern value 0 0 None 0).
Proof.
  unfold glob_bytes, accepted. repeat case_match; try done. by rewrite bool_decide_eq_true.
Qed.

Lemma pending_start pattern value :
  pending pattern value 0 0 None 0 ↔ glob pattern value.
Proof. unfold pending. rewrite !drop_0. tauto. Qed.

Lemma glob_bytes_sound pattern value : glob_bytes pattern value = true → glob pattern value.
Proof.
  rewrite glob_bytes_accepted. intros H. apply pending_start.
  eapply glob_loop_sound; [lia|done].
Qed.

Lemma glob_bytes_complete pattern value :
  STAR ∉ value → glob pattern value → glob_bytes pattern value = true.
Proof.
  intros Hv Hg. apply glob_bytes_accepted.
  apply glob_loop_complete; [done|lia..|done|apply glob_fuel_total|].
  by apply pending_start.
Qed.

(** A pattern without wildcards matches exactly itself. *)
Lemma glob_literal p v : STAR ∉ p → QUESTION ∉ p → glob p v ↔ v = p.
Proof.
  revert v. induction p as [|d p IH]; intros v Hs Hq.
  - split; [by inversion 1|]. intros ->. constructor.
  - apply not_elem_of_cons in Hs as [Hd Hs]. apply not_elem_of_cons in Hq as [Hdq Hq].
    destruct v as [|c v]; [split; [inversion 1; simplify_eq|done]|].
    rewrite glob_cons_iff, IH by done. naive_solver.
Qed.

(** A leading wildcard before literal text matches only what ends in the text. *)
Lemma glob_star_literal_suffix p v :
  STAR ∉ p → QUESTION ∉ p → glob (STAR :: p) v → ∃ pre, v = pre ++ p.
Proof.
  intros Hs Hq (w & v' & -> & ->%glob_literal)%glob_star_suffix; [by exists w|done..].
Qed.

(** ** Theorems *)

(** [glob_matches] decides the glob relation ([*] any run of bytes, [?] any
    one byte, every other byte itself) on every value that has no literal [*];
    it accepts nothing outside the relation on any value. *)
Theorem glob_matches_spec pattern value :
  (glob_matches pattern value = true → glob (chars pattern) (chars value)) ∧
  (STAR ∉ chars value →
   glob (chars pattern) (chars value) → glob_matches pattern value = true).
Proof.
  split; [apply glob_bytes_sound|]. intros. by apply glob_bytes_complete.
Qed.

Lemma glob_matches_spec_witness :
  glob (chars "a*c?") (chars "abbcd") ∧ glob_matches "a*c?" "abbcd" = true.
Proof.
  destruct (glob_matches_spec "a*c?" "abbcd") as [Hs Hc].
  assert (glob (chars "a*c?") (chars "abbcd")) as Hg by (apply Hs; reflexivity).
  split; [exact Hg|]. apply Hc; [|exact Hg].
  rewrite list_elem_of_In. simpl. intuition discriminate.
Defined.

(** The matcher compares a pattern byte with the value byte before it asks
    whether the pattern byte is the wildcard, so a literal [*] at the front of the
    value consumes the wildcard: the pattern [*] matches a value that starts with
    [*] only when that is the whole value. *)
Theorem glob_star_literal s :
  glob_matches "*" (String STAR s) = true ↔ s = ""%string.
Proof.
  unfold glob_matches, glob_bytes, glob_fuel. simpl.
  destruct s as [|c s]; simpl; [done|]. by split.
Qed.
