(* ===== verification/Egress.v ===== *)
(** The two allow-lists of the custody crate: where a credential may reach
    (custody/egress.rs) and which bytes it may sign (custody/sign_prefix.rs).

    Parsing a URL is the work of the [url] crate, so it is an interface here:
    [UrlLib] carries the parser, and the definitions that use it take it as an
    argument. *)
From stdpp Require Import pretty.
From S2P Require Import Prelude RustStr Glob.
Local Open Scope string_scope.

(** ** The [url] crate *)

(** What the code reads off a parsed URL: [scheme()], [host_str()], [port()]
    and [path()].  [port()] is [None] for the default port of the scheme. *)
Record UrlParts := mkUrlParts {
  url_scheme : string;
  url_host : option string;
  url_port : option N;
  url_path : string;
}.

(** [Url::parse], with the rendered parse error. *)
Class UrlLib := url_parse : string → result string UrlParts.

(** ** egress.rs *)

Record EgressTarget := mkTarget {
  t_method : string;
  t_scheme : string;
  t_host : string;
  t_path : string;
}.

(** The refusals of [EgressTarget::parse], [ScopeEntry::parse] and
    [parse_scope], one constructor per message. *)
Inductive egress_error :=
| UnparsableUrl (error : string)
| EgressScheme (scheme : string)
| NoHost
| EmptyScopeEntry
| ScopeNoScheme (rest : string)
| ScopeScheme (scheme : string)
| PartialLabelHost
| ScopeNoPath (raw : string)
| EmptyScopeHost
| NoScopeEntries.

Definition is_http (scheme : string) : bool :=
  bool_decide (scheme = "http") || bool_decide (scheme = "https").

Definition target_parse `{UrlLib} (method url : string) : result egress_error EgressTarget :=
  match url_parse url with
  | Err error => Err (UnparsableUrl error)
  | Ok parsed =>
      let scheme := to_ascii_lowercase (url_scheme parsed) in
      if negb (is_http scheme) then Err (EgressScheme scheme)
      else match url_host parsed with
      | None => Err NoHost
      | Some host =>
          let host := to_ascii_lowercase host in
          let host := match url_port parsed with
                      | Some port => host +:+ ":" +:+ pretty port
                      | None => host
                      end in
          Ok {| t_method := to_ascii_uppercase (trim method);
                t_scheme := scheme;
                t_host := host;
                t_path := if bool_decide (url_path parsed = "") then "/"
                          else url_path parsed |}
      end
  end.

(** [EgressTarget::render]. *)
Definition target_render (t : EgressTarget) : string :=
  t_method t +:+ " " +:+ t_scheme t +:+ "://" +:+ t_host t +:+ t_path t.

Record ScopeEntry := mkEntry {
  s_method : option string;
  s_scheme : string;
  s_host : string;
  s_path : string;
}.

(** [head.chars().all(|c| c.is_ascii_uppercase())]. *)
Definition all_upper (s : string) : bool :=
  forallb is_ascii_upper (String.list_ascii_of_string s).

(** [raw.split_once(char::is_whitespace)]: the text before the first whitespace
    character and the text after it. *)
Fixpoint split_once_whitespace (s : string) : option (string * string) :=
  match strip_one whitespace s with
  | Some r => Some ("", r)
  | None =>
      match s with
      | EmptyString => None
      | String a s' => (λ lr, (String a lr.1, lr.2)) <$> split_once_whitespace s'
      end
  end.

(** The optional leading METHOD of an entry, and the rest. *)
Definition split_method (raw : string) : option string * string :=
  match split_once_whitespace raw with
  | Some (head, tail) =>
      if negb (bool_decide (head = "")) && all_upper head && nonempty tail
      then (Some head, trim tail)
      else (None, raw)
  | None => (None, raw)
  end.

(** The scheme and the host and path pattern of an entry, after the method. *)
Definition entry_location (raw rest : string) : result egress_error (string * string * string) :=
  match split_once_str "://" rest with
  | None => Err (ScopeNoScheme rest)
  | Some (scheme, authority_and_path) =>
      let scheme := to_ascii_lowercase scheme in
      if negb (is_http scheme) then Err (ScopeScheme scheme)
      else if starts_with authority_and_path "*"
              && negb (starts_with authority_and_path "*.")
      then Err PartialLabelHost
      else match split_once "/" authority_and_path with
      | None => Err (ScopeNoPath raw)
      | Some (host, path) =>
          if bool_decide (host = "") then Err EmptyScopeHost
          else Ok (scheme, to_ascii_lowercase host, "/" +:+ path)
      end
  end.

(** [ScopeEntry::parse]. *)
Definition entry_parse (raw : string) : result egress_error ScopeEntry :=
  let raw := trim raw in
  if bool_decide (raw = "") then Err EmptyScopeEntry
  else
    let '(method, rest) := split_method raw in
    '(scheme, host, path) ← entry_location raw rest;
    Ok {| s_method := method; s_scheme := scheme; s_host := host; s_path := path |}.

(** [ScopeEntry::admits]. *)
Definition entry_admits (e : ScopeEntry) (t : EgressTarget) : bool :=
  match s_method e with None => true | Some m => bool_decide (m = t_method t) end
  && bool_decide (s_scheme e = t_scheme t)
  && glob_matches (s_host e) (t_host t)
  && glob_matches (s_path e) (t_path t).

Definition scope_admits (entries : list ScopeEntry) (t : EgressTarget) : bool :=
  existsb (λ e, entry_admits e t) entries.

(** [raw.split(',').map(str::trim).filter(|e| !e.is_empty())]. *)
Definition comma_entries (raw : string) : list string :=
  filter (λ e, e ≠ "") (trim <$> split_char "," raw).

Definition parse_scope (raw : string) : result egress_error (list ScopeEntry) :=
  let entries := comma_entries raw in
  if bool_decide (entries = []) then Err NoScopeEntries
  else collect entry_parse entries.

(** ** sign_prefix.rs

    Byte vectors are strings of eight-bit characters, as everywhere. *)

(** The table of well-known prefixes. *)
Definition named (name : string) : option string :=
  if bool_decide (name = "tls13-client-auth") then
    Some (bytes (replicate 64 32%N) +:+ "TLS 1.3, client CertificateVerify" +:+ bytes [0%N])
  else if bool_decide (name = "jwt-rs256-header") then
    Some "eyJhbGciOiJSUzI1NiIsInR5cCI6IkpXVCJ9."
  else None.

Definition NAMED : list string := ["tls13-client-auth"; "jwt-rs256-header"].

Inductive sign_error :=
| EmptySignPrefix
| OddHex (entry : string)
| BadHex (entry : string)
| UnknownSignPrefix (entry : string)
| NoSignPrefixes.

Definition hex_digit (a : ascii) : option N :=
  let n := N_of_ascii a in
  if is_ascii_digit a then Some (n - 48)%N
  else if (97 <=? n)%N && (n <=? 102)%N then Some (n - 87)%N
  else if (65 <=? n)%N && (n <=? 70)%N then Some (n - 55)%N
  else None.

(** [u8::from_str_radix(pair, 16)] on two characters; the standard library reads
    a leading [+] as a sign. *)
Definition u8_from_hex (a b : ascii) : option N :=
  if Ascii.eqb a "+" then hex_digit b
  else hi ← hex_digit a; lo ← hex_digit b; Some (16 * hi + lo)%N.

(** [digits.as_bytes().chunks(2)], each read as a byte; the length is even. *)
Fixpoint hex_bytes (digits : string) : option string :=
  match digits with
  | String a (String b rest) =>
      n ← u8_from_hex a b; bs ← hex_bytes rest; Some (String (ascii_of_N n) bs)
  | String _ EmptyString => None
  | EmptyString => Some ""
  end.

(** [sign_prefix::parse]. *)
Definition prefix_parse (entry : string) : result sign_error string :=
  let entry := trim entry in
  if bool_decide (entry = "") then Err EmptySignPrefix
  else match strip_prefix "hex:" entry with
  | Some digits =>
      if bool_decide (digits = "") || negb (Nat.even (String.length digits))
      then Err (OddHex entry)
      else ok_or (BadHex entry) (hex_bytes digits)
  | None => ok_or (UnknownSignPrefix entry) (named entry)
  end.

Definition parse_list (raw : string) : result sign_error (list string) :=
  let entries := comma_entries raw in
  if bool_decide (entries = []) then Err NoSignPrefixes
  else collect prefix_parse entries.

(** [sign_prefix::admits]. *)
Definition prefix_admits (prefixes : list string) (payload : string) : bool :=
  existsb (λ prefix, starts_with payload prefix) prefixes.

(** The lower-case hexadecimal digits of a byte, [{byte:02x}]. *)
Definition hex_char (n : N) : ascii :=
  ascii_of_N (if (n <? 10)%N then n + 48 else n + 87).

Fixpoint to_hex (payload : string) : string :=
  match payload with
  | EmptyString => ""
  | String a rest =>
      let n := N_of_ascii a in
      String (hex_char (n / 16)) (String (hex_char (n mod 16)) (to_hex rest))
  end.

(** How the signed form of an envelope writes a prefix ([canonical], ifc.rs). *)
Definition canonical_prefix (prefix : string) : string := "hex:" +:+ to_hex prefix.

(** ** Lemmas *)

Lemma entry_admits_true e t :
  entry_admits e t = true ↔
  (∀ m, s_method e = Some m → m = t_method t) ∧ s_scheme e = t_scheme t ∧
  glob_matches (s_host e) (t_host t) = true ∧ glob_matches (s_path e) (t_path t) = true.
Proof.
  unfold entry_admits. rewrite !andb_true_iff, !bool_decide_eq_true.
  destruct (s_method e); rewrite ?bool_decide_eq_true; naive_solver.
Qed.

Lemma scope_admits_true entries t :
  scope_admits entries t = true ↔ ∃ e, e ∈ entries ∧ entry_admits e t = true.
Proof. apply existsb_elem. Qed.

Lemma is_http_true s : is_http s = true ↔ s = "http" ∨ s = "https".
Proof. unfold is_http. by rewrite orb_true_iff, !bool_decide_eq_true. Qed.

Lemma split_once_Some c s l r :
  split_once c s = Some (l, r) → s = l +:+ String c r ∧ contains_char c l = false.
Proof.
  unfold split_once. destruct (span _ s) as [l' [|a r']] eqn:Hs; [done|].
  intros [= -> ->]. revert l Hs.
  induction s as [|b s IH]; intros l Hs; simpl in Hs; [done|].
  destruct (Ascii.eqb_spec b c) as [->|Hb]; simpl in Hs.
  - by injection Hs as <- -> ->.
  - destruct (span _ s) as [l' r'']. injection Hs as <- ->.
    destruct (IH l' eq_refl) as [-> Hc]. split; [done|]. simpl.
    destruct (Ascii.eqb_spec b c); done.
Qed.

Lemma lowercase_fixes c :
  is_ascii_upper c = false → is_ascii_lower c = false →
  fixes (λ a, if is_ascii_upper a then ascii_of_N (N_of_ascii a + 32) else a) c.
Proof.
  intros Hu Hl a. split.
  - destruct (is_ascii_upper a) eqn:Ha; [|done]. intros <-. exfalso.
    destruct a as [[][][][][][][][]]; vm_compute in Ha, Hl; discriminate.
  - intros ->. by rewrite Hu.
Qed.

Lemma entry_location_shape raw rest scheme host path :
  entry_location raw rest = Ok (scheme, host, path) →
  is_http scheme = true ∧ host ≠ "" ∧ contains_char "/" host = false ∧
  (∃ p, path = "/" +:+ p) ∧
  (starts_with host "*" = true → starts_with host "*." = true).
Proof.
  unfold entry_location.
  destruct (split_once_str "://" rest) as [[sch auth]|]; [|done].
  destruct (is_http _) eqn:Hh; simpl; [|done].
  destruct (starts_with auth "*" && _) eqn:Hst; [done|].
  destruct (split_once "/" auth) as [[h p]|] eqn:Hs; [|done].
  apply split_once_Some in Hs as [-> Hc].
  case_bool_decide as Hne; [done|]. intros [= <- <- <-].
  split; [done|]. split; [by destruct h|].
  unfold to_ascii_lowercase.
  split; [rewrite contains_char_map; [done|by apply lowercase_fixes]|].
  split; [eauto|]. destruct h as [|a h]; [done|].
  rewrite !starts_with_map.
  2,3: intros c Hc'; apply lowercase_fixes;
       repeat (apply elem_of_cons in Hc' as [->|Hc']; [done|]); by apply elem_of_nil in Hc'.
  intros [r [= -> ->]]%starts_with_true. apply starts_with_true.
  destruct r as [|b r]; [by vm_compute in Hst|].
  apply andb_false_iff in Hst as [Hst|Hst]; [by vm_compute in Hst|].
  apply negb_false_iff, starts_with_true in Hst as [r' [= ->]]. by exists r.
Qed.

Lemma entry_parse_shape raw e :
  entry_parse raw = Ok e →
  is_http (s_scheme e) = true ∧ s_host e ≠ "" ∧ contains_char "/" (s_host e) = false ∧
  (∃ p, s_path e = "/" +:+ p) ∧
  (starts_with (s_host e) "*" = true → starts_with (s_host e) "*." = true).
Proof.
  unfold entry_parse. case_bool_decide; [done|].
  destruct (split_method _) as [m rest].
  intros ([[sch h] p] & Hl & [= <-])%bind_ok. by apply entry_location_shape in Hl.
Qed.

Lemma prefix_admits_true prefixes payload :
  prefix_admits prefixes payload = true ↔
  ∃ prefix rest, prefix ∈ prefixes ∧ payload = prefix +:+ rest.
Proof.
  unfold prefix_admits. rewrite existsb_elem.
  setoid_rewrite starts_with_true. naive_solver.
Qed.

Lemma hex_char_digit n : (n < 16)%N → hex_digit (hex_char n) = Some n.
Proof.
  intros Hn. destruct n as [|p]; [done|]. do 4 (destruct p as [p|p|]; try done; try lia).
Qed.

Lemma hex_char_plus n : (n < 16)%N → hex_char n ≠ "+"%char.
Proof. intros Hn%hex_char_digit Heq. by rewrite Heq in Hn. Qed.

Lemma hex_bytes_to_hex s : hex_bytes (to_hex s) = Some s.
Proof.
  induction s as [|a s IH]; [done|]. cbn [to_hex hex_bytes].
  pose proof (N_ascii_bounded a). set (n := N_of_ascii a) in *.
  assert (n / 16 < 16)%N by (apply N.Div0.div_lt_upper_bound; lia).
  assert (n mod 16 < 16)%N by (apply N.mod_lt; lia).
  unfold u8_from_hex. destruct (Ascii.eqb_spec (hex_char (n / 16)) "+").
  { by destruct (hex_char_plus (n / 16)). }
  rewrite !hex_char_digit by done. cbn. rewrite IH. cbn.
  rewrite <- (N.Div0.div_mod n 16). unfold n. by rewrite ascii_N_embedding.
Qed.

(** Nothing of a canonical prefix is trimmed: it starts with [h] and ends with a
    hexadecimal digit. *)
Lemma to_hex_last s : s ≠ "" → ∃ t n, (n < 16)%N ∧ to_hex s = t +:+ String (hex_char n) "".
Proof.
  induction s as [|a s IH]; [done|]. intros _. cbn [to_hex].
  assert (N_of_ascii a mod 16 < 16)%N as Hlo by (apply N.mod_lt; lia).
  destruct s as [|b s].
  - by exists (String (hex_char (N_of_ascii a / 16)) ""), (N_of_ascii a mod 16)%N.
  - destruct IH as (t & n & Hn & ->); [done|].
    by exists (String (hex_char (N_of_ascii a / 16)) (String (hex_char (N_of_ascii a mod 16)) t)), n.
Qed.

Lemma hex_char_not_space n s :
  (n < 16)%N → strip_one (String.rev <$> whitespace) (String (hex_char n) s) = None.
Proof.
  intros Hn. destruct n as [|p]; [done|]. do 4 (destruct p as [p|p|]; try done; try lia).
Qed.

Lemma trim_canonical_prefix s : s ≠ "" → trim (canonical_prefix s) = canonical_prefix s.
Proof.
  intros (t & n & Hn & Ht)%to_hex_last. unfold canonical_prefix. rewrite Ht.
  rewrite <- string_app_assoc. apply trim_id.
  - by rewrite string_app_assoc.
  - rewrite rev_snoc. by apply hex_char_not_space.
Qed.

Lemma to_hex_even s : Nat.even (String.length (to_hex s)) = true.
Proof. induction s; done. Qed.

(** ** Theorems *)

(** Every scope that [parse_scope] accepts is a non-empty list of well-formed
    entries: an http or https scheme, a non-empty host pattern with no path in it
    that starts with [*] only as the whole label [*.], and a path pattern that
    starts at the root. *)
Theorem parse_scope_wellformed raw entries :
  parse_scope raw = Ok entries →
  entries ≠ [] ∧
  ∀ e, e ∈ entries →
    (s_scheme e = "http" ∨ s_scheme e = "https") ∧
    s_host e ≠ "" ∧ contains_char "/" (s_host e) = false ∧
    (∃ p, s_path e = "/" +:+ p) ∧
    (starts_with (s_host e) "*" = true → starts_with (s_host e) "*." = true).
Proof.
  unfold parse_scope. case_bool_decide as Hne; [done|]. intros H. split.
  - intros ->. apply collect_ok in H. by inversion H; simplify_eq.
  - intros e He. destruct (collect_elem _ _ _ _ H He) as (x & _ & Hx).
    apply entry_parse_shape in Hx. by rewrite <- is_http_true.
Qed.

Lemma parse_scope_wellformed_witness :
  ∃ e, parse_scope "POST https://*.stripe.com/v1/*, http://h/" = Ok e ∧ e ≠ [].
Proof.
  eexists. split; [vm_compute; reflexivity|].
  eapply parse_scope_wellformed with (raw := "POST https://*.stripe.com/v1/*, http://h/").
  vm_compute. reflexivity.
Defined.

(** A wildcard host admits subdomains and nothing else: when an accepted entry
    has a host pattern that starts with [*] and holds no other wildcard, every
    target the entry admits has a host that ends, at a label boundary, in the text
    after the wildcard, on the entry's own scheme. *)
Theorem scope_host_label_anchored raw e t rest :
  entry_parse raw = Ok e → s_host e = String "*" rest →
  contains_char "*" rest = false → contains_char "?" rest = false →
  entry_admits e t = true →
  t_scheme t = s_scheme e ∧
  ∃ sub domain, rest = "." +:+ domain ∧ t_host t = sub +:+ "." +:+ domain.
Proof.
  intros (_ & _ & _ & _ & Hstar)%entry_parse_shape Hhost Hs Hq
    (_ & Hsch & Hglob & _)%entry_admits_true.
  split; [done|]. rewrite Hhost in Hstar, Hglob.
  apply glob_bytes_sound, glob_star_literal_suffix in Hglob as [pre Hpre];
    [|by apply contains_char_false..].
  destruct (proj1 (starts_with_true _ _) (Hstar (proj2 (starts_with_true _ "*") (ex_intro _ rest eq_refl))))
    as [d [= ->]].
  exists (String.string_of_list_ascii pre), d. split; [done|]. apply chars_inj.
  by rewrite Hpre, (chars_app (String.string_of_list_ascii pre)),
    String.list_ascii_of_string_of_list_ascii.
Qed.

Lemma scope_host_label_anchored_witness :
  ∃ sub domain, "a.b.stripe.com" = sub +:+ "." +:+ domain ∧ ".stripe.com" = "." +:+ domain.
Proof.
  destruct (scope_host_label_anchored "https://*.stripe.com/*"
    (mkEntry None "https" "*.stripe.com" "/*")
    (mkTarget "GET" "https" "a.b.stripe.com" "/x") ".stripe.com")
    as [_ (sub & domain & Hrest & Hhost)]; [vm_compute; reflexivity..|].
  exists sub, domain. split; [exact Hhost|exact Hrest].
Defined.

(** Writing a signing bound into the signed form of an envelope and reading it
    back gives the same bytes. *)
Theorem canonical_prefix_roundtrip prefix :
  prefix ≠ "" → prefix_parse (canonical_prefix prefix) = Ok prefix.
Proof.
  intros Hne. unfold prefix_parse. rewrite trim_canonical_prefix by done.
  rewrite bool_decide_false by done. unfold canonical_prefix. rewrite strip_prefix_app.
  rewrite to_hex_even, hex_bytes_to_hex.
  rewrite bool_decide_false; [done|]. by destruct prefix.
Qed.

Lemma canonical_prefix_roundtrip_witness :
  prefix_parse (canonical_prefix "eyJ.") = Ok "eyJ.".
Proof. apply (canonical_prefix_roundtrip "eyJ."). discriminate. Defined.

(** A key bounded to one well-known protocol prefix cannot sign a payload of
    another: no payload begins with two different prefixes of the table. *)
Theorem named_prefixes_disjoint a b pa pb payload :
  named a = Some pa → named b = Some pb → a ≠ b →
  prefix_admits [pa] payload = true → prefix_admits [pb] payload = false.
Proof.
  unfold named. repeat case_bool_decide; intros [= <-] [= <-] Hab; try congruence.
  all: destruct payload as [|c payload]; intros Hp; [done|].
  all: unfold prefix_admits, starts_with in *; simpl in *.
  all: by destruct c as [[][][][][][][][]].
Qed.

Lemma named_prefixes_disjoint_witness :
  ∃ pa pb, named "jwt-rs256-header" = Some pa ∧ named "tls13-client-auth" = Some pb ∧
    prefix_admits [pa] (pa +:+ "e30") = true ∧ prefix_admits [pb] (pa +:+ "e30") = false.
Proof.
  do 2 eexists. split; [vm_compute; reflexivity|]. split; [vm_compute; reflexivity|].
  split; [vm_compute; reflexivity|].
  eapply (named_prefixes_disjoint "jwt-rs256-header" "tls13-client-auth");
    [vm_compute; reflexivity..|discriminate|vm_compute; reflexivity].
Defined.

(** The hexadecimal form of a signing bound is documented as pairs of digits;
    the byte reader also takes a sign, so [hex:+f] is accepted and bounds the key
    to the byte 15. *)
Theorem hex_sign_accepted c n :
  hex_digit c = Some n →
  prefix_parse ("hex:+" +:+ String c "") = Ok (String (ascii_of_N n) "").
Proof.
  intros H. destruct c as [[][][][][][][][]]; vm_compute in H; try discriminate;
    injection H as <-; vm_compute; reflexivity.
Qed.

Lemma hex_sign_accepted_witness : prefix_parse "hex:+f" = Ok (String (ascii_of_N 15) "").
Proof. apply (hex_sign_accepted "f"%char 15%N). reflexivity. Defined.
