(* ===== verification/ActsFor.v ===== *)
(** The acts-for order and the domination test of the information-flow kernel
    ([acts_for_over] and the two [dominates], kernel/ifc.rs), and the interface a
    flow policy offers to the leak and injection decisions. *)
From S2P Require Import Prelude Walk.

(** ** Definitions *)

(** The bottom reader authority. *)
Definition PUBLIC : string := "public".

Abbreviation edges := (list (string * string)).

(** [p] acts for [q] over a set of delegation edges. *)
Definition acts_for_over (deleg : edges) (p q : string) : bool :=
  if bool_decide (q = PUBLIC) || bool_decide (p = q) then true
  else if bool_decide (p = PUBLIC) then false
  else reaches deleg p q.

(** [provider] dominates [required]: every required compartment is covered by some
    provider compartment. *)
Definition dominates_over (deleg : edges) (provider required : gset string) : bool :=
  set_all (λ req, set_any (λ prov, acts_for_over deleg prov req) provider) required.

(** The same question as a proposition. *)
Definition acts_for (deleg : edges) (p q : string) : Prop :=
  q = PUBLIC ∨ p = q ∨ (p ≠ PUBLIC ∧ rtc (edge deleg) p q).

(** A party may read data labelled with the compartments [label] when it acts for
    every one of them. *)
Definition cleared (deleg : edges) (party : string) (label : gset string) : Prop :=
  ∀ req, req ∈ label → acts_for deleg party req.

(** ** The interface of a flow policy

    What a policy offers to a crossing: its acts-for edges, what a read of a
    resource tags data with, what a write of it is covered by, the parties that
    see the payload of a write besides the sink, and the two integrity readings. *)
Class FlowPolicy (P : Type) := {
  flow_edges : P → edges;
  reader_source_of : P → string → gset string;
  reader_sink_of : P → string → gset string;
  custodians_of : P → string → list string;
  integrity_source_of : P → string → gset string;
  integrity_sink_of : P → string → gset string;
}.

Definition policy_leaks `{FlowPolicy P} (policy : P) (source sink : string) : bool :=
  negb (dominates_over (flow_edges policy) (reader_sink_of policy sink)
          (reader_source_of policy source))
  || existsb (λ custodian,
       negb (dominates_over (flow_edges policy) {[ custodian ]}
               (reader_source_of policy source)))
       (custodians_of policy sink).

Definition policy_injects `{FlowPolicy P} (policy : P) (read write : string) : bool :=
  negb (dominates_over (flow_edges policy) (integrity_source_of policy read)
          (integrity_sink_of policy write)).

(** One policy is at least as strict as another: it has fewer edges and fewer
    covering compartments, and more required compartments and custodians. *)
Record stricter `{FlowPolicy P, FlowPolicy Q} (strict : P) (lax : Q) : Prop := {
  stricter_edges : flow_edges strict ⊆ flow_edges lax;
  stricter_reader_source r : reader_source_of lax r ⊆ reader_source_of strict r;
  stricter_reader_sink r : reader_sink_of strict r ⊆ reader_sink_of lax r;
  stricter_custodians r : custodians_of lax r ⊆ custodians_of strict r;
  stricter_integrity_source r : integrity_source_of strict r ⊆ integrity_source_of lax r;
  stricter_integrity_sink r : integrity_sink_of lax r ⊆ integrity_sink_of strict r;
}.

(** ** Lemmas *)

Lemma acts_for_over_spec deleg p q : acts_for_over deleg p q = true ↔ acts_for deleg p q.
Proof.
  unfold acts_for_over, acts_for.
  destruct (decide (q = PUBLIC)); [rewrite bool_decide_true by done; naive_solver|].
  rewrite (bool_decide_false (q = PUBLIC)) by done.
  destruct (decide (p = q)); [rewrite bool_decide_true by done; naive_solver|].
  rewrite (bool_decide_false (p = q)) by done. simpl.
  case_bool_decide; [naive_solver|]. rewrite reaches_rtc. naive_solver.
Qed.

Lemma acts_for_refl deleg p : acts_for deleg p p.
Proof. unfold acts_for. auto. Qed.

(** Nobody but the bottom is below [public] once no edge leaves it; in general a
    path through [public] ends at [public]. *)
Lemma acts_for_trans deleg p q r :
  acts_for deleg p q → acts_for deleg q r → acts_for deleg p r.
Proof.
  unfold acts_for. intros [->|[->|[Hp Hpq]]] [->|[->|[Hq Hqr]]]; auto; try done.
  right; right. split; [done|]. by etrans.
Qed.

Lemma acts_for_public deleg q : acts_for deleg PUBLIC q ↔ q = PUBLIC.
Proof. unfold acts_for. naive_solver. Qed.

Lemma acts_for_mono d1 d2 p q : d1 ⊆ d2 → acts_for d1 p q → acts_for d2 p q.
Proof. unfold acts_for. intros Hd. pose proof (reach_mono _ _ p q Hd). naive_solver. Qed.

Lemma dominates_over_spec deleg provider required :
  dominates_over deleg provider required = true ↔
  ∀ req, req ∈ required → ∃ prov, prov ∈ provider ∧ acts_for deleg prov req.
Proof.
  unfold dominates_over. rewrite set_all_true.
  setoid_rewrite set_any_true. by setoid_rewrite acts_for_over_spec.
Qed.

Lemma dominates_over_mono d1 d2 p1 p2 r1 r2 :
  d1 ⊆ d2 → p1 ⊆ p2 → r2 ⊆ r1 →
  dominates_over d1 p1 r1 = true → dominates_over d2 p2 r2 = true.
Proof.
  rewrite !dominates_over_spec. intros Hd Hp Hr H req Hreq.
  destruct (H req) as (prov & ? & ?); [set_solver|]. exists prov.
  split; [set_solver|]. by eapply acts_for_mono.
Qed.

Lemma dominates_over_trans deleg a b c :
  dominates_over deleg a b = true → dominates_over deleg b c = true →
  dominates_over deleg a c = true.
Proof.
  rewrite !dominates_over_spec. intros Hab Hbc req Hreq.
  destruct (Hbc req Hreq) as (q & Hq & ?). destruct (Hab q Hq) as (p & Hp & ?).
  exists p. split; [done|]. by eapply acts_for_trans.
Qed.

(** Domination is what turns a clearance for the sink into one for the source. *)
Lemma dominates_cleared deleg provider required party :
  dominates_over deleg provider required = true →
  cleared deleg party provider → cleared deleg party required.
Proof.
  rewrite dominates_over_spec. intros Hd Hc req Hreq.
  destruct (Hd req Hreq) as (prov & Hprov & ?). eapply acts_for_trans; eauto.
Qed.

Lemma cleared_singleton deleg party label :
  dominates_over deleg {[ party ]} label = true ↔ cleared deleg party label.
Proof. rewrite dominates_over_spec. unfold cleared. set_solver. Qed.

Lemma policy_leaks_false `{FlowPolicy P} (strict : P) source sink :
  policy_leaks strict source sink = false ↔
  dominates_over (flow_edges strict) (reader_sink_of strict sink)
    (reader_source_of strict source) = true ∧
  ∀ c, c ∈ custodians_of strict sink →
    cleared (flow_edges strict) c (reader_source_of strict source).
Proof.
  unfold policy_leaks. rewrite orb_false_iff, negb_false_iff.
  setoid_rewrite <- cleared_singleton.
  rewrite <- not_true_iff_false, existsb_elem. setoid_rewrite negb_true_iff.
  split; intros [? Hc]; (split; [done|]).
  - intros c ?. destruct (dominates_over _ {[c]} _) eqn:?; [done|]. exfalso. eauto.
  - intros (c & Hin & Hf). by rewrite Hc in Hf.
Qed.

Section policies.
Context `{FlowPolicy P, FlowPolicy Q}.
Implicit Types (strict : P) (lax : Q).

(** A stricter policy refuses whatever the laxer one refuses. *)
Lemma stricter_leaks strict lax source sink :
  stricter strict lax →
  policy_leaks strict source sink = false → policy_leaks lax source sink = false.
Proof.
  intros [He Hsrc Hsnk Hcust _ _]. rewrite !policy_leaks_false. intros [Hd Hc]. split.
  - eapply dominates_over_mono; [done|apply Hsnk|apply Hsrc|done].
  - intros c Hin req Hreq. eapply acts_for_mono; [done|].
    apply (Hc c); [by apply Hcust|by apply Hsrc].
Qed.

Lemma stricter_injects strict lax read write :
  stricter strict lax →
  policy_injects strict read write = false → policy_injects lax read write = false.
Proof.
  intros [He _ _ _ Hsrc Hsnk]. unfold policy_injects. rewrite !negb_false_iff.
  eapply dominates_over_mono; [done|apply Hsrc|apply Hsnk].
Qed.

End policies.

(** ** Theorems *)

(** C38: The acts-for walk terminates with the right answer on every edge list,
    cyclic ones included: [p] acts for [q] exactly when [q] is the public bottom,
    or they are the same role, or [p] is not public and a chain of delegations
    leads from [p] to [q].  The order it decides is reflexive and transitive, and
    public acts for nothing but itself. *)
Theorem acts_for_over_correct deleg :
  (∀ p q, acts_for_over deleg p q = true ↔
     q = PUBLIC ∨ p = q ∨ (p ≠ PUBLIC ∧ rtc (edge deleg) p q)) ∧
  (∀ p, acts_for_over deleg p p = true) ∧
  (∀ p q r, acts_for_over deleg p q = true → acts_for_over deleg q r = true →
     acts_for_over deleg p r = true) ∧
  (∀ q, acts_for_over deleg PUBLIC q = true ↔ q = PUBLIC).
Proof.
  setoid_rewrite acts_for_over_spec. split; [done|]. split; [apply acts_for_refl|].
  split; [apply acts_for_trans|apply acts_for_public].
Qed.

Lemma acts_for_over_correct_witness :
  acts_for_over [("a", "b"); ("b", "c"); ("c", "a")] "a" "c" = true.
Proof.
  destruct (acts_for_over_correct [("a", "b"); ("b", "c"); ("c", "a")]) as (_ & _ & Htrans & _).
  apply (Htrans "a" "b" "c")%string; vm_compute; reflexivity.
Defined.
