(* ===== verification/Envelope.v ===== *)
(** The governance envelope of the information-flow kernel (kernel/ifc.rs): the
    policy record, its queries, the leak and injection decisions of one envelope
    and of the source-flow walk (kernel/ifc/source_flow.rs), and the allow-list
    admissions of a credential. *)
From S2P Require Import Prelude Walk RustStr Glob Egress ActsFor.
Local Open Scope string_scope.

(** ** Data *)

(** kernel/mcp.rs. *)
Inductive McpRung := Unattested | Pinned | Attested | Classified.
(** custody/lib.rs. *)
Inductive Rung := Process | OsKeyring | Hardware | Remote.
(** kernel/provider_trust.rs. *)
Inductive CustodyClass := Unknown | Trains | Retained | ZeroRetention | OperatorHeld.

(** kernel/host_policy.rs. *)
Record ProviderBindingPolicy := mkProviderBinding {
  pb_provider : string;
  pb_model : string;
  pb_base_url : string;
  pb_credential_ref : string;
  pb_wire : option string;
}.

Record PlacementPolicy := mkPlacement {
  pl_kind : string;
  pl_provider_bindings : gset string;
  pl_command_network : bool;
}.

Record Attachment := mkAttachment {
  att_authority : string;
  att_exposure : string;
  att_digest : string;
  att_readers : gset string;
}.

(** What reads of a resource tag data with, and what its writes demand of data. *)
Record DualLabel := mkLabel { source : gset string; sink : gset string }.

(** [DualLabel::both]. *)
Definition both (set : gset string) : DualLabel := {| source := set; sink := set |}.

Record UnwrapGrant := mkUnwrap {
  credential : string;
  payload_type : string;
  role : string;
}.

Record Envelope := mkEnvelope {
  readers : gmap string DualLabel;
  governed : gset string;
  authority : option string;
  requires_authority : gset string;
  policy_lifetime : option N;
  exposes : gmap string string;
  attachments : list Attachment;
  deleg : list (string * string);
  declassify : list (string * string);
  integrity : gmap string DualLabel;
  endorse : list (string * string);
  unwrap_grants : list UnwrapGrant;
  request_scopes : gmap string (list string);
  sign_prefixes : gmap string (list string);
  deliver_scopes : gmap string (list string);
  confined_egress : gset string;
  custodian_role : option string;
  internal_signals : gset string;
  mcp_min_rung : option McpRung;
  credential_min_rung : option Rung;
  custody_demand : gmap string CustodyClass;
  require_verified : gset string;
  internal_workflows : gset string;
  principals : gset string;
  address_of : gmap string string;
  party_of : gmap string string;
  guarantees : list (string * list string);
  capabilities : gset string;
  provider_bindings : gmap string ProviderBindingPolicy;
  placements : gmap string PlacementPolicy;
}.

(** The refusals of the envelope's own checks, one constructor per message, with
    the values the message interpolates. *)
Inductive ifc_error :=
| UnwrapNotBound (who credential : string)
| UnwrapNotCredential (who credential address : string)
| NoSignBound (credential : string)
| SignDenied (credential : string)
| NoEgressScope (credential : string)
| OutsideEgressScope (target credential : string)
| NoHandoffScope (credential : string)
| OutsideHandoffScope (target credential : string)
| EgressProblem (problem : egress_error)
| PatternResource (identifier : string).

(** ** Identities *)

Definition resolve (env : Envelope) (handle : string) : string :=
  default handle (address_of env !! handle).

Definition has_parties (env : Envelope) : bool := negb (bool_decide (party_of env = ∅)).

Definition role_for_principal (env : Envelope) (principal : string) : string :=
  default PUBLIC (party_of env !! principal).

Definition who (env : Envelope) : string := default "an envelope" (authority env).

(** ** Confidentiality *)

Definition reader_set (env : Envelope) (resource : string) : gset string :=
  default ∅ (source <$> readers env !! resolve env resource).

Definition reader_sink (env : Envelope) (resource : string) : gset string :=
  default ∅ (sink <$> readers env !! resolve env resource).

Definition custodian_reader_of (env : Envelope) (resource : string) : option string :=
  let address := resolve env resource in
  role ← custodian_role env;
  if starts_with address "credential:" && negb (bool_decide (address ∈ confined_egress env))
  then Some role else None.

Definition can_act (env : Envelope) (p q : string) : bool := acts_for_over (deleg env) p q.

Definition dominates (env : Envelope) (provider required : gset string) : bool :=
  set_all (λ req, set_any (λ prov, can_act env prov req) provider) required.

Definition uncleared_custodian (env : Envelope) (src snk : string) : option string :=
  custodian ← custodian_reader_of env snk;
  if negb (dominates env {[ custodian ]} (reader_set env src)) then Some custodian else None.

Definition leaks (env : Envelope) (src snk : string) : bool :=
  negb (dominates env (reader_sink env snk) (reader_set env src))
  || bool_decide (is_Some (uncleared_custodian env src snk)).

Definition declassify_releases (env : Envelope) (src snk : string) : bool :=
  let sink_readers := reader_sink env snk in
  let custodian : option (gset string) := singleton <$> custodian_reader_of env snk in
  existsb (λ '(resource, role),
    bool_decide (resolve env resource = resolve env src)
    && (bool_decide (role = PUBLIC)
        || (dominates env sink_readers {[ role ]}
            && match custodian with
               | None => true
               | Some custodian => dominates env custodian {[ role ]}
               end)))
    (declassify env).

(** ** Integrity *)

Definition integrity_set (env : Envelope) (resource : string) : gset string :=
  default ∅ (source <$> integrity env !! resolve env resource).

Definition integrity_sink (env : Envelope) (resource : string) : gset string :=
  default ∅ (sink <$> integrity env !! resolve env resource).

Definition injects (env : Envelope) (read write : string) : bool :=
  negb (dominates env (integrity_set env read) (integrity_sink env write)).

(** One turn of the loop over the endorse grants: the raised set, and whether any
    grant applied. *)
Definition endorse_step (env : Envelope) (read : string)
    (acc : gset string * bool) (grant : string * string) : gset string * bool :=
  if bool_decide (resolve env grant.1 = resolve env read)
  then ({[ grant.2 ]} ∪ acc.1, true) else acc.

Definition endorse_raises (env : Envelope) (read write : string) : bool :=
  let '(raised, granted) :=
    foldl (endorse_step env read) (integrity_set env read, false) (endorse env) in
  granted && dominates env raised (integrity_sink env write).

(** Integrity carried by a signal: [None] is fully trusted. *)
Abbreviation CarriedIntegrity := (option (gset string)).

Definition meet_integrity (a b : CarriedIntegrity) : CarriedIntegrity :=
  match a, b with
  | None, x | x, None => x
  | Some a, Some b => Some (a ∩ b)
  end.

(** ** The source-flow walk (source_flow.rs) *)

Definition source_flow_leaks (env : Envelope) (src snk : string) (marked : bool) : bool :=
  leaks env src snk && negb (marked && declassify_releases env src snk).

Definition source_flow_injects (env : Envelope) (src snk : string)
    (carried : option CarriedIntegrity) (marked : bool) : bool :=
  match carried with
  | Some carried =>
      match carried with
      | Some set => negb (dominates env set (integrity_sink env snk))
      | None => false
      end
  | None =>
      let src := default src (strip_prefix "output:" src) in
      negb (dominates env (integrity_set env src) (integrity_sink env snk)
            || (marked && endorse_raises env src snk))
  end.

(** ** Rendering and reading labels *)

Definition label_text (set : gset string) : string :=
  if bool_decide (set = ∅) then PUBLIC else join ", " (set_keys set).

Definition reader_label (env : Envelope) (resource : string) : string :=
  label_text (reader_set env resource).

Definition integrity_label (env : Envelope) (resource : string) : string :=
  label_text (integrity_sink env resource).

Definition carried_label (i : CarriedIntegrity) : string :=
  match i with None => "trusted (derived)" | Some set => label_text set end.

Definition reject_pattern_resource (identifier : string) : result ifc_error unit :=
  ensure (negb (contains_char "*" identifier)) (PatternResource identifier).

Definition qualify_role (role : string) (authority : option string) : string :=
  match authority with
  | None => role
  | Some authority =>
      if bool_decide (role = PUBLIC) || contains_str "::" role || contains_char ":" role
      then role else authority +:+ "::" +:+ role
  end.

Definition qualify_role_set (roles : gset string) (authority : option string) : gset string :=
  set_map (λ role, qualify_role role authority) roles.

Definition clause_heads : list string :=
  ["readable"; "from"; "egress"; "internal"; "sealed"; "audience"].

(** The position of the first clause head at or after [start]. *)
Definition label_clause_end (label : list string) (start : nat) : nat :=
  match list_find (λ tok, tok ∈ clause_heads) (drop start label) with
  | Some (rel, _) => start + rel
  | None => length label
  end.

Definition collect_role_set (tokens : list string) : gset string :=
  list_to_set (filter (λ role, role ≠ "" ∧ role ≠ PUBLIC)
    (tokens ≫= λ token, trim <$> split_char "," token)).

(** ** Unwrap grants *)

Definition check_unwrap_grant (env : Envelope) (grant : UnwrapGrant) : result ifc_error unit :=
  let address := resolve env (credential grant) in
  _ ← ensure (bool_decide (address ∈ governed env)) (UnwrapNotBound (who env) (credential grant));
  ensure (starts_with address "credential:")
    (UnwrapNotCredential (who env) (credential grant) address).

Definition check_unwrap_grants_are_owned (env : Envelope) : result ifc_error unit :=
  check_all (check_unwrap_grant env) (unwrap_grants env).

Definition grants_any_unwrap (env : Envelope) (cred ptype : string) : bool :=
  let target := resolve env cred in
  existsb (λ grant,
    bool_decide (resolve env (credential grant) = target)
    && bool_decide (payload_type grant = ptype)) (unwrap_grants env).

Definition unwrap_types_for (env : Envelope) (cred : string) : list string :=
  let target := resolve env cred in
  set_keys (list_to_set (payload_type <$>
    filter (λ grant, resolve env (credential grant) = target) (unwrap_grants env))).

Definition may_unwrap (env : Envelope) (cred ptype rl : string) : bool :=
  let target := resolve env cred in
  existsb (λ grant,
    bool_decide (resolve env (credential grant) = target)
    && bool_decide (payload_type grant = ptype)
    && can_act env rl (role grant)) (unwrap_grants env).

(** ** Membership queries *)

Definition is_internal_signal (env : Envelope) (resource : string) : bool :=
  bool_decide (resolve env resource ∈ internal_signals env).

Definition is_internal_workflow (env : Envelope) (resource : string) : bool :=
  bool_decide (resolve env resource ∈ internal_workflows env).

Definition governs (env : Envelope) (resource : string) : bool :=
  bool_decide (resolve env resource ∈ governed env).

Definition custody_demand_for (env : Envelope) (rl : string) : option CustodyClass :=
  custody_demand env !! rl.

Definition provider_delegations (env : Envelope) : list (string * string) :=
  omap (λ '(subject, rl), (λ provider, (provider, rl)) <$> strip_prefix "provider:" subject)
    (deleg env).

Definition permits_capabilities (env : Envelope) (wanted : list string) : bool :=
  forallb (λ capability, bool_decide (capability ∈ capabilities env)) wanted.

Definition placement_admits (env : Envelope) (placement_handle binding_handle : string) : bool :=
  match placements env !! placement_handle with
  | Some placement => bool_decide (binding_handle ∈ pl_provider_bindings placement)
  | None => false
  end.

Definition permits_provider_binding (env : Envelope)
    (binding_handle credential_ref provider model base_url placement_handle : string) : bool :=
  if bool_decide (provider_bindings env = ∅) && bool_decide (placements env = ∅) then true
  else match provider_bindings env !! binding_handle with
  | None => false
  | Some binding =>
      if negb (bool_decide (pb_credential_ref binding = credential_ref))
         || negb (bool_decide (pb_provider binding = provider))
         || negb (bool_decide (pb_model binding = model))
         || negb (bool_decide (pb_base_url binding = base_url))
      then false
      else placement_admits env placement_handle binding_handle
  end.

Definition resolve_provider_binding (env : Envelope)
    (binding_handle credential_ref placement_handle : string) : option ProviderBindingPolicy :=
  binding ← provider_bindings env !! binding_handle;
  if negb (bool_decide (pb_credential_ref binding = credential_ref)) then None
  else if placement_admits env placement_handle binding_handle then Some binding else None.

(** ** Credential allow-lists *)

(** A credential name and its ancestors, nearest first; every step drops at least
    one byte, so the length of the name bounds the walk. *)
Fixpoint ancestors_from (fuel : nat) (probe : string) : list string :=
  probe :: match fuel with
           | 0 => []
           | S fuel' =>
               match before_last "/" probe with
               | Some parent => ancestors_from fuel' parent
               | None => []
               end
           end.

Definition credential_ancestors (cred : string) : list string :=
  ancestors_from (String.length cred) cred.

(** [iter().find_map(f)]. *)
Definition find_map {A B} (f : A → option B) (l : list A) : option B := head (omap f l).

(** The lookup of one probe: as written, or under the address it resolves to. *)
Definition scope_at (env : Envelope) (scopes : gmap string (list string)) (probe : string)
    : option (list string) :=
  match scopes !! probe with
  | Some entries => Some entries
  | None => scopes !! resolve env probe
  end.

Definition request_scope (env : Envelope) (cred : string) : option (list string) :=
  find_map (scope_at env (request_scopes env)) (credential_ancestors cred).

Definition deliver_scope (env : Envelope) (cred : string) : option (list string) :=
  find_map (scope_at env (deliver_scopes env)) (credential_ancestors cred).

Definition sign_bound (env : Envelope) (cred : string) : option (list string) :=
  find_map (λ probe, sign_prefixes env !! probe) (credential_ancestors cred).

Definition governs_any (env : Envelope) (cred : string) : bool :=
  existsb (governs env) (credential_ancestors cred).

Definition admits_sign (env : Envelope) (cred payload : string) : result ifc_error unit :=
  match sign_bound env cred with
  | None => if negb (governs_any env cred) then Ok tt else Err (NoSignBound cred)
  | Some prefixes =>
      if prefix_admits prefixes payload then Ok tt else Err (SignDenied cred)
  end.

(** [?] on an egress refusal. *)
Definition egress_result {A} (r : result egress_error A) : result ifc_error A :=
  match r with Ok a => Ok a | Err e => Err (EgressProblem e) end.

(** Whether the allow-list [entries] admits [method url]; [outside] is the refusal
    of a target no entry names. *)
Definition admits_entries `{UrlLib} (entries : list string) (method url : string)
    (outside : string → ifc_error) : result ifc_error unit :=
  target ← egress_result (target_parse method url);
  parsed ← egress_result (parse_scope (join "," entries));
  if scope_admits parsed target then Ok tt else Err (outside (target_render target)).

Definition admits_request `{UrlLib} (env : Envelope) (cred method url : string)
    : result ifc_error unit :=
  match request_scope env cred with
  | None => if negb (governs_any env cred) then Ok tt else Err (NoEgressScope cred)
  | Some entries => admits_entries entries method url (λ t, OutsideEgressScope t cred)
  end.

Definition admits_deliver `{UrlLib} (env : Envelope) (cred method url : string)
    : result ifc_error unit :=
  match deliver_scope env cred with
  | None => if negb (governs_any env cred) then Ok tt else Err (NoHandoffScope cred)
  | Some entries => admits_entries entries method url (λ t, OutsideHandoffScope t cred)
  end.

(** ** The envelope as a flow policy *)

#[export] Instance envelope_policy : FlowPolicy Envelope := {
  flow_edges := deleg;
  reader_source_of := reader_set;
  reader_sink_of := reader_sink;
  custodians_of env resource := option_list (custodian_reader_of env resource);
  integrity_source_of := integrity_set;
  integrity_sink_of := integrity_sink;
}.

(** ** Lemmas *)

Lemma dominates_spec env provider required :
  dominates env provider required = true ↔
  ∀ req, req ∈ required → ∃ prov, prov ∈ provider ∧ acts_for (deleg env) prov req.
Proof. apply dominates_over_spec. Qed.

Lemma leaks_policy env src snk : leaks env src snk = policy_leaks env src snk.
Proof.
  unfold leaks, policy_leaks. f_equal. simpl. unfold uncleared_custodian.
  destruct (custodian_reader_of env snk) as [c|]; simpl; [|done].
  change (dominates_over (deleg env)) with (dominates env).
  by destruct (dominates env _ _).
Qed.

Lemma injects_policy env read write : injects env read write = policy_injects env read write.
Proof. done. Qed.

Lemma leaks_false env src snk :
  leaks env src snk = false ↔
  dominates env (reader_sink env snk) (reader_set env src) = true ∧
  ∀ c, custodian_reader_of env snk = Some c → cleared (deleg env) c (reader_set env src).
Proof.
  rewrite leaks_policy, policy_leaks_false. simpl.
  by setoid_rewrite elem_of_option_list.
Qed.

Lemma declassify_releases_true env src snk :
  declassify_releases env src snk = true ↔
  ∃ resource rl, (resource, rl) ∈ declassify env ∧ resolve env resource = resolve env src ∧
    (rl = PUBLIC ∨
     (∃ prov, prov ∈ reader_sink env snk ∧ acts_for (deleg env) prov rl) ∧
     ∀ c, custodian_reader_of env snk = Some c → acts_for (deleg env) c rl).
Proof.
  assert (∀ p rl, dominates env p {[ rl ]} = true ↔
    ∃ prov, prov ∈ p ∧ acts_for (deleg env) prov rl) as Hsingle.
  { intros p rl. rewrite dominates_spec. set_solver. }
  unfold declassify_releases. rewrite existsb_elem. split.
  - intros ([resource rl] & Hin & Hb). exists resource, rl.
    apply andb_true_iff in Hb as [Hr Hor]. apply bool_decide_eq_true in Hr.
    split; [done|]. split; [done|].
    apply orb_true_iff in Hor as [Hp|[Hs Hc]%andb_true_iff]; [left; by reflect_bool|right].
    split; [by apply Hsingle|]. intros c Hcust. rewrite Hcust in Hc.
    apply Hsingle in Hc as (? & ->%elem_of_singleton & ?). done.
  - intros (resource & rl & Hin & Hr & Hor). exists (resource, rl). split; [done|].
    rewrite bool_decide_true by done. simpl.
    destruct Hor as [->|[Hs Hc]]; [by rewrite bool_decide_true|].
    apply orb_true_iff. right. apply andb_true_iff. split; [by apply Hsingle|].
    destruct (custodian_reader_of env snk) as [c|]; simpl; [|done].
    apply Hsingle. exists c. split; [set_solver|]. by apply Hc.
Qed.

(** The endorse grants over [read], and the vouchers they add. *)
Definition endorsements (env : Envelope) (read : string) : list (string * string) :=
  filter (λ g, resolve env g.1 = resolve env read) (endorse env).

Definition endorsed (env : Envelope) (read : string) : gset string :=
  list_to_set (endorsements env read).*2.

Lemma endorse_fold env read l acc :
  let over := filter (λ g, resolve env g.1 = resolve env read) l in
  foldl (endorse_step env read) acc l
  = (list_to_set over.*2 ∪ acc.1, acc.2 || negb (bool_decide (over = []))).
Proof.
  revert acc. induction l as [|[resource rl] l IH]; intros [R g]; simpl.
  - rewrite orb_false_r. f_equal. set_solver.
  - rewrite IH, filter_cons. unfold endorse_step. simpl.
    destruct (decide (resolve env resource = resolve env read)).
    + rewrite (bool_decide_true (resolve _ _ = _)) by done. simpl.
      rewrite orb_true_r. f_equal. set_solver.
    + by rewrite (bool_decide_false (resolve _ _ = _)).
Qed.

Lemma endorse_raises_true env read write :
  endorse_raises env read write = true ↔
  endorsements env read ≠ [] ∧
  dominates env (endorsed env read ∪ integrity_set env read) (integrity_sink env write) = true.
Proof.
  unfold endorse_raises. rewrite endorse_fold. simpl.
  by rewrite andb_true_iff, negb_true_iff, bool_decide_eq_false.
Qed.

Lemma ancestors_fuel f1 f2 probe :
  (String.length probe ≤ f1)%nat → (String.length probe ≤ f2)%nat →
  ancestors_from f1 probe = ancestors_from f2 probe.
Proof.
  revert f2 probe. induction f1 as [|f1 IH]; intros f2 probe H1 H2.
  - destruct probe; [|simpl in H1; lia]. by destruct f2.
  - destruct f2 as [|f2].
    + destruct probe; [done|simpl in H2; lia].
    + simpl. destruct (before_last "/" probe) as [parent|] eqn:Hp; [|done].
      f_equal. apply before_last_length in Hp. apply IH; lia.
Qed.

(** The ancestors of a child are the child and the ancestors of its parent. *)
Lemma credential_ancestors_child parent leaf :
  contains_char "/" leaf = false →
  credential_ancestors (parent +:+ "/" +:+ leaf)
  = (parent +:+ "/" +:+ leaf) :: credential_ancestors parent.
Proof.
  intros Hl. unfold credential_ancestors.
  pose proof (before_last_app "/" parent leaf Hl) as Hb. change (String "/" leaf) with ("/" +:+ leaf) in Hb.
  pose proof (before_last_length _ _ _ Hb) as Hlen.
  set (child := parent +:+ "/" +:+ leaf) in *.
  destruct (String.length child) as [|n] eqn:Hn; [lia|]. simpl. rewrite Hb.
  f_equal. apply ancestors_fuel; lia.
Qed.

Lemma find_map_cons {A B} (f : A → option B) x l :
  find_map f (x :: l) = match f x with Some y => Some y | None => find_map f l end.
Proof. unfold find_map. simpl. by destruct (f x). Qed.

Lemma find_map_Some {A B} (f : A → option B) l y :
  find_map f l = Some y → ∃ x, x ∈ l ∧ f x = Some y.
Proof.
  induction l as [|x l IH]; [done|]. rewrite find_map_cons.
  destruct (f x) eqn:Hx; [|set_solver]. intros [= ->]. exists x. set_solver.
Qed.

Lemma governs_any_child env parent leaf :
  contains_char "/" leaf = false →
  governs_any env (parent +:+ "/" +:+ leaf) = false → governs_any env parent = false.
Proof.
  intros Hl. unfold governs_any. rewrite credential_ancestors_child by done.
  intros [_ ?]%orb_false_iff. done.
Qed.

Lemma egress_result_ok {A} (r : result egress_error A) a : egress_result r = Ok a ↔ r = Ok a.
Proof. destruct r; simpl; split; congruence. Qed.

Lemma admits_entries_ok `{UrlLib} entries method url outside :
  admits_entries entries method url outside = Ok tt ↔
  ∃ target parsed, target_parse method url = Ok target ∧
    parse_scope (join "," entries) = Ok parsed ∧ scope_admits parsed target = true.
Proof.
  unfold admits_entries. rewrite bind_ok. setoid_rewrite bind_ok.
  setoid_rewrite egress_result_ok. split.
  - intros (t & ? & p & ? & Hs). exists t, p. by destruct (scope_admits p t).
  - intros (t & p & ? & ? & Hs). exists t. split; [done|]. exists p. by rewrite Hs.
Qed.

(** What it means for an allow-list to name a target: some entry of the list has
    the method (or none), the scheme, and patterns that match the host and the path
    each on their own. *)
Definition named_by (entries : list string) (target : EgressTarget) : Prop :=
  ∃ parsed e, parse_scope (join "," entries) = Ok parsed ∧ e ∈ parsed ∧
    (∀ m, s_method e = Some m → m = t_method target) ∧ s_scheme e = t_scheme target ∧
    glob (chars (s_host e)) (chars (t_host target)) ∧
    glob (chars (s_path e)) (chars (t_path target)).

Lemma admits_entries_named `{UrlLib} entries method url outside :
  admits_entries entries method url outside = Ok tt →
  ∃ target, target_parse method url = Ok target ∧ named_by entries target.
Proof.
  rewrite admits_entries_ok.
  intros (t & p & Ht & Hp & (e & He & (Hm & Hs & Hh & Hpath)%entry_admits_true)%scope_admits_true).
  exists t. split; [done|]. exists p, e. repeat split; [done..| |].
  - by apply glob_bytes_sound.
  - by apply glob_bytes_sound.
Qed.

Lemma may_unwrap_true env cred ptype rl :
  may_unwrap env cred ptype rl = true ↔
  ∃ grant, grant ∈ unwrap_grants env ∧ resolve env (credential grant) = resolve env cred ∧
    payload_type grant = ptype ∧ acts_for (deleg env) rl (role grant).
Proof.
  unfold may_unwrap. rewrite existsb_elem. f_equiv. intros grant.
  rewrite !andb_true_iff, !bool_decide_eq_true. unfold can_act.
  rewrite acts_for_over_spec. tauto.
Qed.

Lemma check_unwrap_grants_are_owned_ok env :
  check_unwrap_grants_are_owned env = Ok tt ↔
  ∀ grant, grant ∈ unwrap_grants env →
    resolve env (credential grant) ∈ governed env ∧
    starts_with (resolve env (credential grant)) "credential:" = true.
Proof.
  unfold check_unwrap_grants_are_owned. rewrite check_all_ok.
  assert (∀ g, check_unwrap_grant env g = Ok tt ↔
    resolve env (credential g) ∈ governed env ∧
    starts_with (resolve env (credential g)) "credential:" = true) as Hg.
  { intros g. unfold check_unwrap_grant. rewrite bind_ok. setoid_rewrite ensure_ok.
    split; [intros ([] & ?%ensure_ok%bool_decide_eq_true & ?); done|].
    intros [? ?]. exists tt. split; [|done]. apply ensure_ok. by rewrite bool_decide_true. }
  by setoid_rewrite Hg.
Qed.

Lemma elem_of_unwrap_types_for env cred ptype :
  ptype ∈ unwrap_types_for env cred ↔
  ∃ grant, grant ∈ unwrap_grants env ∧ resolve env (credential grant) = resolve env cred ∧
    payload_type grant = ptype.
Proof.
  unfold unwrap_types_for. rewrite elem_of_set_keys, elem_of_list_to_set, list_elem_of_fmap.
  setoid_rewrite list_elem_of_filter. naive_solver.
Qed.

Lemma placement_admits_true env placement_handle binding_handle :
  placement_admits env placement_handle binding_handle = true ↔
  ∃ placement, placements env !! placement_handle = Some placement ∧
    binding_handle ∈ pl_provider_bindings placement.
Proof.
  unfold placement_admits. destruct (placements env !! placement_handle) as [pl|].
  - rewrite bool_decide_eq_true. split; [by exists pl|]. by intros (? & [= ->] & ?).
  - split; [done|]. by intros (? & ? & ?).
Qed.

Lemma qualify_role_bare a r :
  contains_char ":" r = false → r ≠ PUBLIC → qualify_role r (Some a) = a +:+ "::" +:+ r.
Proof.
  intros Hr Hp. unfold qualify_role.
  by rewrite contains_str_no_char, Hr, bool_decide_false.
Qed.

(** The authority of a qualified role is what precedes the last two colons. *)
Lemma qualified_authority a r :
  contains_char ":" r = false →
  before_last ":" (a +:+ "::" +:+ r) ≫= before_last ":" = Some a.
Proof.
  intros Hr. replace (a +:+ "::" +:+ r) with ((a +:+ ":") +:+ String ":" r)
    by (by rewrite string_app_assoc).
  rewrite before_last_app by done. simpl. by apply before_last_app.
Qed.

(** ** Theorems *)

(** A small policy: a ledger for operators, an outbox and a credential endpoint
    with a custodian in between, and one grant of each kind. *)
Definition example_policy : Envelope := {|
  readers := {[ "file:/ledger" := both {[ "Operator" ]};
                "file:/outbox" := both {[ "Clerk" ]};
                "credential:acme/api" := both {[ "Operator" ]} ]};
  governed := {[ "file:/ledger"; "file:/outbox"; "credential:acme/api"; "acme/api" ]};
  authority := None; requires_authority := ∅; policy_lifetime := None;
  exposes := ∅; attachments := [];
  deleg := [("Admin", "Operator"); ("Operator", "Clerk"); ("provider:llm", "Clerk")];
  declassify := [("ledger", "Clerk")];
  integrity := {[ "file:/ledger" := both {[ "Operator" ]} ]};
  endorse := [("outbox", "Operator")];
  unwrap_grants := [mkUnwrap "api" "PatientRecord" "Operator"];
  request_scopes := {[ "acme/api" := ["POST https://api.acme.com/v1/*"] ]};
  sign_prefixes := {[ "acme/api" := ["eyJ"] ]};
  deliver_scopes := {[ "acme/api" := ["https://vault.acme.com/*"] ]};
  confined_egress := ∅; custodian_role := Some "Custodian";
  internal_signals := ∅; mcp_min_rung := None; credential_min_rung := None;
  custody_demand := ∅; require_verified := ∅; internal_workflows := ∅;
  principals := ∅;
  address_of := {[ "ledger" := "file:/ledger"; "outbox" := "file:/outbox";
                   "api" := "credential:acme/api" ]};
  party_of := ∅; guarantees := []; capabilities := ∅;
  provider_bindings := {[ "main" := mkProviderBinding "openai" "m1" "https://x" "acme/api" None ]};
  placements := {[ "local" := mkPlacement "local" {[ "main" ]} false ]};
|}.

(** C2: The leak decision is sound: when a flow is not refused, every party cleared
    for the sink's compartments is cleared for the source's, and so is the
    custodian that reads the payload on its way to a credential sink.  For a sink
    with one compartment and no custodian it is also exact: a flow is refused only
    when some party cleared for the sink is not cleared for the source. *)
Theorem leak_safe env src snk :
  (leaks env src snk = false →
   (∀ party, cleared (deleg env) party (reader_sink env snk) →
      cleared (deleg env) party (reader_set env src)) ∧
   (∀ c, custodian_reader_of env snk = Some c → cleared (deleg env) c (reader_set env src))) ∧
  (∀ a, reader_sink env snk = {[ a ]} → custodian_reader_of env snk = None →
     (∀ party, cleared (deleg env) party (reader_sink env snk) →
        cleared (deleg env) party (reader_set env src)) →
     leaks env src snk = false).
Proof.
  split.
  - intros [Hd Hc]%leaks_false. split; [|done]. intros party. by apply dominates_cleared.
  - intros a Ha Hn Hall. apply leaks_false. split; [|by rewrite Hn]. rewrite Ha in *.
    apply cleared_singleton. apply Hall. intros req ->%elem_of_singleton. apply acts_for_refl.
Qed.

Lemma leak_safe_witness :
  leaks example_policy "outbox" "ledger" = false ∧
  cleared (deleg example_policy) "Admin" (reader_set example_policy "outbox").
Proof.
  destruct (leak_safe example_policy "outbox" "ledger") as [Hs _].
  split; [vm_compute; reflexivity|].
  destruct Hs as [Hparty _]; [vm_compute; reflexivity|]. apply Hparty.
  apply cleared_singleton. vm_compute. reflexivity.
Defined.

(** C32: Confidentiality is lowered only at a marked crossing under a grant: a flow
    that leaks is let through only when it is carried by a marked release and a
    declassify grant over the same resource names an audience that is public or is
    covered both by the sink's readers and by the custodian the sink routes
    through. *)
Theorem release_needs_marked_grant env src snk marked :
  leaks env src snk = true →
  source_flow_leaks env src snk marked = false ↔
  marked = true ∧
  ∃ resource rl, (resource, rl) ∈ declassify env ∧ resolve env resource = resolve env src ∧
    (rl = PUBLIC ∨
     (∃ prov, prov ∈ reader_sink env snk ∧ acts_for (deleg env) prov rl) ∧
     ∀ c, custodian_reader_of env snk = Some c → acts_for (deleg env) c rl).
Proof.
  intros Hl. unfold source_flow_leaks. rewrite Hl, <- declassify_releases_true. simpl.
  by rewrite negb_false_iff, andb_true_iff.
Qed.

Lemma release_needs_marked_grant_witness :
  source_flow_leaks example_policy "ledger" "outbox" true = false ∧
  ∃ resource rl, (resource, rl) ∈ declassify example_policy ∧
    resolve example_policy resource = resolve example_policy "ledger".
Proof.
  assert (source_flow_leaks example_policy "ledger" "outbox" true = false) as H
    by (vm_compute; reflexivity).
  split; [exact H|].
  apply release_needs_marked_grant in H as [_ (resource & rl & Hin & Hr & _)];
    [|vm_compute; reflexivity].
  exists resource, rl. split; [exact Hin|exact Hr].
Defined.

(** Untrusted data drives a sink only under an endorsement: an uncarried flow
    whose source does not vouch for the sink's demand is let through only when it is
    marked, some endorse grant names the source, and the vouchers together with the
    endorsed roles cover every demand of the sink. *)
Theorem endorsement_needs_marked_grant env src snk marked :
  let read := default src (strip_prefix "output:" src) in
  dominates env (integrity_set env read) (integrity_sink env snk) = false →
  source_flow_injects env src snk None marked = false ↔
  marked = true ∧ endorsements env read ≠ [] ∧
  ∀ req, req ∈ integrity_sink env snk →
    ∃ prov, prov ∈ endorsed env read ∪ integrity_set env read ∧ acts_for (deleg env) prov req.
Proof.
  simpl. intros Hd. unfold source_flow_injects. rewrite Hd. simpl.
  by rewrite negb_false_iff, andb_true_iff, endorse_raises_true, dominates_spec.
Qed.

Lemma endorsement_needs_marked_grant_witness :
  source_flow_injects example_policy "output:outbox" "ledger" None true = false ∧
  endorsements example_policy "outbox" ≠ [].
Proof.
  assert (source_flow_injects example_policy "output:outbox" "ledger" None true = false) as H
    by (vm_compute; reflexivity).
  split; [exact H|].
  apply endorsement_needs_marked_grant in H as (_ & H & _); [exact H|vm_compute; reflexivity].
Defined.

(** Data is trusted only as much as its least trusted input: the meet of carried
    integrities is commutative, associative and idempotent with full trust as its
    unit, and a sink that refuses one input refuses every combination with it. *)
Theorem meet_integrity_sound env src snk marked :
  (∀ a b, meet_integrity a b = meet_integrity b a) ∧
  (∀ a b c, meet_integrity a (meet_integrity b c) = meet_integrity (meet_integrity a b) c) ∧
  (∀ a, meet_integrity a a = a) ∧ (∀ a, meet_integrity None a = a) ∧
  (∀ a b, source_flow_injects env src snk (Some a) marked = true →
     source_flow_injects env src snk (Some (meet_integrity a b)) marked = true).
Proof.
  split; [intros [a|] [b|]; simpl; f_equal; set_solver|].
  split; [intros [a|] [b|] [c|]; simpl; f_equal; set_solver|].
  split; [intros [a|]; simpl; f_equal; set_solver|]. split; [done|].
  intros [a|] [b|]; try done. simpl. rewrite !negb_true_iff, <- !not_true_iff_false.
  intros Hn Hd. apply Hn. eapply dominates_over_mono; [| |done|exact Hd]; set_solver.
Qed.

Lemma meet_integrity_sound_witness :
  source_flow_injects example_policy "s" "ledger"
    (Some (meet_integrity (Some {[ "Clerk" ]}) (Some {[ "Clerk"; "Operator" ]}))) false = true.
Proof.
  destruct (meet_integrity_sound example_policy "s" "ledger" false) as (_ & _ & _ & _ & H).
  apply H. vm_compute. reflexivity.
Defined.

(** An unwrap is authorised by an owned grant of exactly the asked type: in an
    envelope whose grants passed the ownership check, a role opens a payload type
    under a credential only when that type is listed for the credential, the role
    acts for the grantee of a grant of that very type, and the credential is bound
    by the envelope and is a credential address. *)
Theorem may_unwrap_authorised env cred ptype rl :
  check_unwrap_grants_are_owned env = Ok tt →
  may_unwrap env cred ptype rl = true →
  ptype ∈ unwrap_types_for env cred ∧ grants_any_unwrap env cred ptype = true ∧
  governs env cred = true ∧ starts_with (resolve env cred) "credential:" = true ∧
  ∃ grant, grant ∈ unwrap_grants env ∧ resolve env (credential grant) = resolve env cred ∧
    payload_type grant = ptype ∧ acts_for (deleg env) rl (role grant).
Proof.
  rewrite check_unwrap_grants_are_owned_ok, may_unwrap_true.
  intros Hown (g & Hin & Hr & Ht & Ha). destruct (Hown g Hin) as [Hgov Hcred].
  rewrite Hr in Hgov, Hcred. split; [apply elem_of_unwrap_types_for; eauto|].
  split; [|split; [by apply bool_decide_eq_true|]; split; [done|eauto]].
  unfold grants_any_unwrap. apply existsb_elem. exists g. split; [done|].
  by rewrite Hr, Ht, !bool_decide_true.
Qed.

Lemma may_unwrap_authorised_witness :
  "PatientRecord" ∈ unwrap_types_for example_policy "api" ∧
  may_unwrap example_policy "api" "Invoice" "Admin" = false.
Proof.
  split; [|vm_compute; reflexivity].
  apply (may_unwrap_authorised example_policy "api" "PatientRecord" "Admin");
    vm_compute; reflexivity.
Defined.

(** Admission under a managed credential fails closed: when governance binds a
    credential or an ancestor of it, a request (or a handoff) is admitted only if an
    allow-list of the credential's nearest listed ancestor names the target
    component by component, and a signature only if the payload begins with a
    granted prefix. *)
Theorem admission_fails_closed `{UrlLib} env cred method url payload :
  governs_any env cred = true →
  (admits_request env cred method url = Ok tt →
     ∃ entries target, request_scope env cred = Some entries ∧
       target_parse method url = Ok target ∧ named_by entries target) ∧
  (admits_deliver env cred method url = Ok tt →
     ∃ entries target, deliver_scope env cred = Some entries ∧
       target_parse method url = Ok target ∧ named_by entries target) ∧
  (admits_sign env cred payload = Ok tt →
     ∃ prefixes prefix rest, sign_bound env cred = Some prefixes ∧
       prefix ∈ prefixes ∧ payload = prefix +:+ rest).
Proof.
  intros Hg. unfold admits_request, admits_deliver, admits_sign. rewrite Hg. simpl.
  split; [|split].
  - destruct (request_scope env cred) as [entries|]; [|done].
    intros (t & ? & ?)%admits_entries_named. by exists entries, t.
  - destruct (deliver_scope env cred) as [entries|]; [|done].
    intros (t & ? & ?)%admits_entries_named. by exists entries, t.
  - destruct (sign_bound env cred) as [prefixes|]; [|done].
    destruct (prefix_admits prefixes payload) eqn:Hp; [|done]. intros _.
    apply prefix_admits_true in Hp as (p & r & ? & ?). by exists prefixes, p, r.
Qed.

(** A URL parser that knows one host, for the examples. *)
Definition example_url : UrlLib := λ url,
  match strip_prefix "https://api.acme.com" url with
  | Some path => Ok (mkUrlParts "https" (Some "api.acme.com") None path)
  | None => Err "relative URL without a base"
  end.

Lemma admission_fails_closed_witness :
  ∃ entries target, request_scope example_policy "acme/api/mint-1" = Some entries ∧
    @target_parse example_url "post" "https://api.acme.com/v1/refunds" = Ok target ∧
    named_by entries target.
Proof.
  destruct (@admission_fails_closed example_url example_policy "acme/api/mint-1" "post"
    "https://api.acme.com/v1/refunds" "eyJhbGc") as (Hr & _ & _); [vm_compute; reflexivity|].
  apply Hr. vm_compute. reflexivity.
Defined.

(** A minted credential reaches no further than its parent: a child that no
    allow-list names by itself is admitted to a request, a handoff or a signature
    only where its parent is. *)
Theorem mint_confined_by_parent `{UrlLib} env parent leaf method url payload :
  contains_char "/" leaf = false →
  let child := parent +:+ "/" +:+ leaf in
  (scope_at env (request_scopes env) child = None →
   admits_request env child method url = Ok tt →
   admits_request env parent method url = Ok tt) ∧
  (scope_at env (deliver_scopes env) child = None →
   admits_deliver env child method url = Ok tt →
   admits_deliver env parent method url = Ok tt) ∧
  (sign_prefixes env !! child = None →
   admits_sign env child payload = Ok tt → admits_sign env parent payload = Ok tt).
Proof.
  intros Hl child. unfold admits_request, admits_deliver, admits_sign,
    request_scope, deliver_scope, sign_bound.
  unfold child. rewrite !credential_ancestors_child by done. rewrite !find_map_cons.
  pose proof (governs_any_child env parent leaf Hl) as Hg.
  repeat split; intros ->; case_match.
  all: rewrite ?admits_entries_ok; try done.
  all: try (destruct (governs_any env (parent +:+ "/" +:+ leaf)); [done|];
            by rewrite Hg).
  by destruct (prefix_admits _ _).
Qed.

Lemma mint_confined_by_parent_witness :
  @admits_request example_url example_policy "acme/api" "POST" "https://api.acme.com/v1/x" = Ok tt.
Proof.
  destruct (@mint_confined_by_parent example_url example_policy "acme/api" "mint-a1" "POST"
    "https://api.acme.com/v1/x" "eyJ") as (Hr & _ & _); [reflexivity|].
  apply Hr; vm_compute; reflexivity.
Defined.

(** The two provider questions agree: once the authority declares a binding or a
    placement, a tuple is permitted exactly when resolving its binding, credential
    and placement handles yields a binding with that provider, model and URL. *)
Theorem provider_binding_agreement env binding_handle credential_ref provider model base_url
    placement_handle :
  provider_bindings env ≠ ∅ ∨ placements env ≠ ∅ →
  permits_provider_binding env binding_handle credential_ref provider model base_url
    placement_handle = true ↔
  ∃ binding, resolve_provider_binding env binding_handle credential_ref placement_handle
      = Some binding ∧
    pb_provider binding = provider ∧ pb_model binding = model ∧ pb_base_url binding = base_url.
Proof.
  intros Hne. unfold permits_provider_binding, resolve_provider_binding.
  assert (bool_decide (provider_bindings env = ∅) && bool_decide (placements env = ∅) = false)
    as -> by (apply andb_false_iff; rewrite !bool_decide_eq_false; done).
  destruct (provider_bindings env !! binding_handle) as [b|]; simpl;
    [|split; [done|by intros (? & ? & _)]].
  destruct (decide (pb_credential_ref b = credential_ref)) as [Hc|Hc];
    [rewrite (bool_decide_true _ Hc)|rewrite (bool_decide_false _ Hc)]; simpl;
    [|split; [done|by intros (? & ? & _)]].
  destruct (placement_admits env placement_handle binding_handle).
  - rewrite <- !negb_andb. split.
    + intros Hb. exists b. repeat case_bool_decide; done.
    + intros (b' & [= <-] & -> & -> & ->). by rewrite !bool_decide_true.
  - split; [by repeat case_bool_decide|by intros (? & ? & _)].
Qed.

Lemma provider_binding_agreement_witness :
  ∃ binding, resolve_provider_binding example_policy "main" "acme/api" "local" = Some binding ∧
    pb_provider binding = "openai" ∧ pb_model binding = "m1" ∧ pb_base_url binding = "https://x".
Proof.
  apply provider_binding_agreement; [left; intros H; vm_compute in H; discriminate|].
  vm_compute. reflexivity.
Defined.

(** Roles of different authorities never become one principal: qualification is
    injective on bare roles, in the authority and in the role, and a qualified role
    is never qualified again. *)
Theorem qualify_role_injective a1 a2 r1 r2 other :
  contains_char ":" r1 = false → contains_char ":" r2 = false →
  r1 ≠ PUBLIC → r2 ≠ PUBLIC →
  (qualify_role r1 (Some a1) = qualify_role r2 (Some a2) → a1 = a2 ∧ r1 = r2) ∧
  qualify_role (qualify_role r1 (Some a1)) other = qualify_role r1 (Some a1).
Proof.
  intros H1 H2 Hp1 Hp2. rewrite !qualify_role_bare by done. split.
  - intros H. assert (a1 = a2) as ->; [|by repeat apply string_app_inj_l in H].
    apply (f_equal (λ s, before_last ":" s ≫= before_last ":")) in H.
    by rewrite !qualified_authority in H by done; simplify_eq.
  - destruct other as [b|]; [|done]. unfold qualify_role.
    by rewrite contains_str_app, orb_true_r.
Qed.

Lemma qualify_role_injective_witness :
  qualify_role "Operator" (Some "acme") = "acme::Operator" ∧
  qualify_role "acme::Operator" (Some "beta") = "acme::Operator".
Proof.
  split; [reflexivity|].
  apply (qualify_role_injective "acme" "beta" "Operator" "Operator" (Some "beta"));
    first [reflexivity|discriminate].
Defined.
