(* ===== verification/Composition.v ===== *)
(** Runs governed by a set of signed envelopes (kernel/ifc.rs, [Composition]): the
    checks that admit a set, and its effective policy, the meet of the
    constituents.  The digest of a signed entry is SHA-256 over its JSON text, the
    work of two libraries, and is an interface here. *)
From S2P Require Import Prelude Walk RustStr ActsFor Egress Envelope.
Local Open Scope string_scope.

(** ** Data *)

(** kernel/gov.rs. *)
Record VerifiedAttestation := mkAttestation {
  va_envelope_hash : string;
  va_signer : string;
  va_key_id : option string;
  va_epoch : option N;
  va_authority : option string;
}.

Record VerifiedEnvelope := mkVerified {
  ve_envelope : Envelope;
  ve_attestation : option VerifiedAttestation;
}.

Record CompositionEntry := mkCompositionEntry {
  ce_authority : string;
  ce_envelope_hash : string;
  ce_epoch : N;
}.

Record Composition := mkComposition {
  constituents : list Envelope;
  record : list CompositionEntry;
}.

Record CompositionProjection := mkProjection {
  authorities : list string;
  own_resources : gset string;
}.

(** The JSON object an envelope's signature covers for one resource
    ([canonical_resource_entry]); absent members are omitted from the object. *)
Record SignedEntry := mkSignedEntry {
  se_reader : list string;
  se_writer : list string;
  se_reader_sink : option (list string);
  se_writer_sink : option (list string);
  se_principal : bool;
  se_internal : bool;
  se_provider_binding : option ProviderBindingPolicy;
}.

(** [hash_hex(&entry.to_string())]. *)
Class EntryDigest := entry_digest : SignedEntry → string.

Inductive compose_error :=
| AuthorityMismatch (declared signed : string)
| Unsigned
| NotV2
| RecordCount (authority : string) (times : nat)
| EpochMismatch (authority : string) (epoch cited : N)
| HashMismatch (authority : string)
| AuthorityTwice (authority : string)
| RecordWithoutEnvelope (authority : string)
| ForeignDowngrade (who resource : string)
| ContestedUnwrap (who address them : string)
| MissingAuthority (who required : string)
| UnresolvedAttachment (who authority exposure : string).

#[export] Instance CompositionEntry_eq_dec : EqDecision CompositionEntry.
Proof. solve_decision. Defined.

(** ** Admitting a signed envelope *)

(** The agreement [verify_signed_text_with] demands between the authority the
    signature covers and the one the text declares, once the attestation is
    verified and the text is parsed. *)
Definition admit_signed (attestation : VerifiedAttestation) (env : Envelope)
    : result compose_error VerifiedEnvelope :=
  match va_authority attestation, authority env with
  | Some signed, Some declared =>
      if bool_decide (signed = declared) then Ok (mkVerified env (Some attestation))
      else Err (AuthorityMismatch declared signed)
  | _, _ => Ok (mkVerified env (Some attestation))
  end.

Definition sink_when_dual (label : option DualLabel) : option (list string) :=
  label ← label;
  if bool_decide (source label = sink label) then None else Some (set_keys (sink label)).

Definition signed_entry (env : Envelope) (name : string) : SignedEntry := {|
  se_reader := set_keys (reader_set env name);
  se_writer := set_keys (integrity_set env name);
  se_reader_sink := sink_when_dual (readers env !! name);
  se_writer_sink := sink_when_dual (integrity env !! name);
  se_principal := bool_decide (name ∈ principals env);
  se_internal := bool_decide (name ∈ internal_signals env)
                 || bool_decide (name ∈ internal_workflows env);
  se_provider_binding := provider_bindings env !! name;
|}.

(** ** The checks of [compose] *)

(** The body of the loop over the envelopes, for one of them. *)
Definition admit_one (rec : list CompositionEntry) (present : gset string)
    (verified : VerifiedEnvelope) : result compose_error (Envelope * string) :=
  attestation ← ok_or Unsigned (ve_attestation verified);
  '(epoch, auth) ← ok_or NotV2
    (epoch ← va_epoch attestation; auth ← va_authority attestation; Some (epoch, auth));
  match filter (λ entry, ce_authority entry = auth) rec with
  | [entry] =>
      _ ← ensure (bool_decide (ce_epoch entry = epoch)) (EpochMismatch auth epoch (ce_epoch entry));
      _ ← ensure (bool_decide (ce_envelope_hash entry = va_envelope_hash attestation))
            (HashMismatch auth);
      _ ← ensure (negb (bool_decide (auth ∈ present))) (AuthorityTwice auth);
      Ok (ve_envelope verified, auth)
  | entries => Err (RecordCount auth (length entries))
  end.

Fixpoint admit_constituents (rec : list CompositionEntry) (envelopes : list VerifiedEnvelope)
    (present : gset string) : result compose_error (list Envelope * gset string) :=
  match envelopes with
  | [] => Ok ([], present)
  | verified :: rest =>
      '(env, auth) ← admit_one rec present verified;
      '(envs, present) ← admit_constituents rec rest ({[ auth ]} ∪ present);
      Ok (env :: envs, present)
  end.

Definition check_record_supplied (rec : list CompositionEntry) (present : gset string)
    : result compose_error unit :=
  check_all (λ entry, ensure (bool_decide (ce_authority entry ∈ present))
    (RecordWithoutEnvelope (ce_authority entry))) rec.

Definition labels (env : Envelope) (resource : string) : bool :=
  bool_decide (is_Some (readers env !! resolve env resource))
  || bool_decide (is_Some (integrity env !! resolve env resource)).

Definition check_grants_are_owned (c : Composition) : result compose_error unit :=
  check_all (λ env,
    check_all (λ '(resource, _),
      ensure (labels env resource) (ForeignDowngrade (who env) resource))
      (declassify env ++ endorse env)%list)
    (constituents c).

(** One pair of envelopes: [env] grants unwrap over [address], which [other] must
    not bind, unless the two go by the same name. *)
Definition check_uncontested (env : Envelope) (address : string) (other : Envelope)
    : result compose_error unit :=
  if bool_decide (who other = who env) then Ok tt
  else ensure (negb (bool_decide (address ∈ governed other)))
         (ContestedUnwrap (who env) address (who other)).

Definition check_unwrap_ownership_is_unambiguous (c : Composition) : result compose_error unit :=
  check_all (λ env,
    check_all (λ grant,
      check_all (check_uncontested env (resolve env (credential grant))) (constituents c))
      (unwrap_grants env))
    (constituents c).

Definition check_required_authorities (c : Composition) (present : gset string)
    : result compose_error unit :=
  check_all (λ env,
    check_all (λ required, ensure (bool_decide (required ∈ present))
      (MissingAuthority (who env) required)) (set_keys (requires_authority env)))
    (constituents c).

(** The address of the first handle, in key order, exposed under [exposure]. *)
Definition exposed_address (owner : Envelope) (exposure : string) : option string :=
  (λ found, resolve owner found.2.1) <$>
    list_find (λ entry : string * string, entry.2 = exposure) (map_entries (exposes owner)).

Definition resolve_attachment `{EntryDigest} (c : Composition) (attachment : Attachment)
    : option string :=
  owner ← snd <$> list_find (λ env, authority env = Some (att_authority attachment)) (constituents c);
  resource ← exposed_address owner (att_exposure attachment);
  if bool_decide (entry_digest (signed_entry owner resource) = att_digest attachment)
  then Some resource else None.

Definition check_attachments_resolve `{EntryDigest} (c : Composition) : result compose_error unit :=
  check_all (λ env,
    check_all (λ attachment,
      ensure (bool_decide (is_Some (resolve_attachment c attachment)))
        (UnresolvedAttachment (who env) (att_authority attachment) (att_exposure attachment)))
      (attachments env))
    (constituents c).

Definition compose `{EntryDigest} (envelopes : list VerifiedEnvelope)
    (rec : list CompositionEntry) : result compose_error Composition :=
  '(envs, present) ← admit_constituents rec envelopes ∅;
  _ ← check_record_supplied rec present;
  let composed := {| constituents := envs; record := rec |} in
  _ ← check_grants_are_owned composed;
  _ ← check_unwrap_ownership_is_unambiguous composed;
  _ ← check_required_authorities composed present;
  _ ← check_attachments_resolve composed;
  Ok composed.

(** ** The meet *)

Definition attached_readers `{EntryDigest} (c : Composition) (resource : string) : gset string :=
  ⋃ (att_readers <$> filter (λ att, resolve_attachment c att = Some resource)
       (constituents c ≫= attachments)).

(** [iter().filter_map(policy_lifetime).min()]. *)
Definition min_opt (a b : option N) : option N :=
  match a, b with
  | Some x, Some y => Some (N.min x y)
  | None, x | x, None => x
  end.
Definition composed_lifetime (c : Composition) : option N :=
  foldr min_opt None (policy_lifetime <$> constituents c).

Definition union_of (c : Composition) (get : Envelope → gset string) : gset string :=
  ⋃ (get <$> constituents c).

Definition intersection_of (c : Composition) (get : Envelope → gset string) : gset string :=
  match get <$> constituents c with
  | [] => ∅
  | first :: sets => foldl (∩) first sets
  end.

Definition composed_reader_source `{EntryDigest} (c : Composition) (resource : string) : gset string :=
  union_of c (λ env, reader_set env resource) ∪ attached_readers c resource.
Definition composed_reader_sink (c : Composition) (resource : string) : gset string :=
  intersection_of c (λ env, reader_sink env resource).
Definition composed_integrity_source (c : Composition) (resource : string) : gset string :=
  intersection_of c (λ env, integrity_set env resource).
Definition composed_integrity_sink (c : Composition) (resource : string) : gset string :=
  union_of c (λ env, integrity_sink env resource).

(** Edges compose by unanimity. *)
Definition composed_edges (c : Composition) : list (string * string) :=
  match constituents c with
  | [] => []
  | first :: _ =>
      filter (λ e, Forall (λ env, e ∈ deleg env) (constituents c)) (deleg first)
  end.

Definition composed_dominates (c : Composition) (provider required : gset string) : bool :=
  set_all (λ req, set_any (λ prov, acts_for_over (composed_edges c) prov req) provider) required.

Definition composed_uncleared_custodian `{EntryDigest} (c : Composition) (src snk : string)
    : option string :=
  let required := composed_reader_source c src in
  snd <$> list_find (λ custodian, composed_dominates c {[ custodian ]} required = false)
    (omap (λ env, custodian_reader_of env snk) (constituents c)).

Definition composed_leaks `{EntryDigest} (c : Composition) (src snk : string) : bool :=
  negb (composed_dominates c (composed_reader_sink c snk) (composed_reader_source c src))
  || bool_decide (is_Some (composed_uncleared_custodian c src snk)).

Definition composed_injects (c : Composition) (read write : string) : bool :=
  negb (composed_dominates c (composed_integrity_source c read) (composed_integrity_sink c write)).

Definition projection_for (c : Composition) (auth : string) : CompositionProjection := {|
  authorities := ce_authority <$> record c;
  own_resources := ⋃ (governed <$> filter (λ env, authority env = Some auth) (constituents c));
|}.

#[export] Instance composition_policy `{EntryDigest} : FlowPolicy Composition := {
  flow_edges := composed_edges;
  reader_source_of := composed_reader_source;
  reader_sink_of := composed_reader_sink;
  custodians_of c resource := omap (λ env, custodian_reader_of env resource) (constituents c);
  integrity_source_of := composed_integrity_source;
  integrity_sink_of := composed_integrity_sink;
}.

(** ** Lemmas *)

Section composition.
Context `{EntryDigest}.
Implicit Types (c : Composition) (env : Envelope) (rec : list CompositionEntry).

Lemma composed_leaks_policy c src snk : composed_leaks c src snk = policy_leaks c src snk.
Proof.
  unfold composed_leaks, policy_leaks. f_equal. apply bool_decide_iff_eq.
  rewrite bool_decide_eq_true, existsb_elem. unfold composed_uncleared_custodian. simpl.
  rewrite fmap_is_Some. unfold is_Some. split.
  - intros [[i cust] (Hi & Hd & _)%list_find_Some]. exists cust.
    split; [by eapply list_elem_of_lookup_2|]. by apply negb_true_iff.
  - intros (cust & Hin & Hd%negb_true_iff).
    apply (list_find_elem_of (λ x, composed_dominates c {[x]} _ = false) _ cust); done.
Qed.

Lemma composed_injects_policy c read write :
  composed_injects c read write = policy_injects c read write.
Proof. done. Qed.

Lemma elem_of_union_of c get x :
  x ∈ union_of c get ↔ ∃ env, env ∈ constituents c ∧ x ∈ get env.
Proof.
  unfold union_of. rewrite elem_of_union_list. setoid_rewrite list_elem_of_fmap. naive_solver.
Qed.

Lemma foldl_intersection (first : gset string) sets x :
  x ∈ foldl (∩) first sets ↔ x ∈ first ∧ ∀ s, s ∈ sets → x ∈ s.
Proof.
  revert first. induction sets as [|s sets IH]; intros first; simpl; [set_solver|].
  rewrite IH. set_solver.
Qed.

Lemma elem_of_intersection_of c get x :
  x ∈ intersection_of c get ↔
  constituents c ≠ [] ∧ ∀ env, env ∈ constituents c → x ∈ get env.
Proof.
  unfold intersection_of. destruct (constituents c) as [|env envs]; simpl; [set_solver|].
  rewrite foldl_intersection. setoid_rewrite list_elem_of_fmap. set_solver.
Qed.

Lemma elem_of_composed_edges c e :
  e ∈ composed_edges c ↔
  constituents c ≠ [] ∧ ∀ env, env ∈ constituents c → e ∈ deleg env.
Proof.
  unfold composed_edges. destruct (constituents c) as [|env envs]; [set_solver|].
  rewrite list_elem_of_filter, Forall_forall. set_solver.
Qed.

(** The composed policy is stricter than every constituent. *)
Lemma composed_stricter c env : env ∈ constituents c → stricter c env.
Proof.
  intros Hin. split; simpl; intros r.
  - intros He. by apply elem_of_composed_edges in He as [_ ?]; auto.
  - intros x Hx. apply elem_of_union. left. apply elem_of_union_of. eauto.
  - intros x [_ Hx]%elem_of_intersection_of. auto.
  - intros x Hx%elem_of_option_list. apply list_elem_of_omap. eauto.
  - intros x [_ Hx]%elem_of_intersection_of. auto.
  - intros x Hx. apply elem_of_union_of. eauto.
Qed.

Lemma elem_of_attached_readers c resource x :
  x ∈ attached_readers c resource ↔
  ∃ env att, env ∈ constituents c ∧ att ∈ attachments env ∧
    resolve_attachment c att = Some resource ∧ x ∈ att_readers att.
Proof.
  unfold attached_readers. rewrite elem_of_union_list.
  setoid_rewrite list_elem_of_fmap. setoid_rewrite list_elem_of_filter.
  setoid_rewrite list_elem_of_bind. naive_solver.
Qed.

(** What [compose] leaves checked. *)
Lemma compose_ok envelopes rec c :
  compose envelopes rec = Ok c →
  record c = rec ∧
  ∃ present, admit_constituents rec envelopes ∅ = Ok (constituents c, present) ∧
    check_record_supplied rec present = Ok tt ∧
    check_grants_are_owned c = Ok tt ∧
    check_unwrap_ownership_is_unambiguous c = Ok tt ∧
    check_required_authorities c present = Ok tt ∧
    check_attachments_resolve c = Ok tt.
Proof.
  unfold compose.
  intros ([envs present] & Ha & ([] & Hr & ([] & Hg & ([] & Hu & ([] & Hq & ([] & Ht & Hc)%bind_ok)
    %bind_ok)%bind_ok)%bind_ok)%bind_ok)%bind_ok.
  injection Hc as <-. simpl. split; [done|]. by exists present.
Qed.

Lemma attachments_resolve c :
  check_attachments_resolve c = Ok tt →
  ∀ env att, env ∈ constituents c → att ∈ attachments env →
    ∃ resource, resolve_attachment c att = Some resource.
Proof.
  unfold check_attachments_resolve. rewrite check_all_ok. intros Hall env att Henv Hatt.
  specialize (Hall env Henv). simpl in Hall. rewrite check_all_ok in Hall.
  by apply Hall, ensure_ok, bool_decide_eq_true in Hatt.
Qed.

Lemma uncontested c :
  check_unwrap_ownership_is_unambiguous c = Ok tt →
  ∀ env grant other, env ∈ constituents c → grant ∈ unwrap_grants env →
    other ∈ constituents c → who other ≠ who env →
    (resolve env (credential grant) ∉ governed other).
Proof.
  unfold check_unwrap_ownership_is_unambiguous. rewrite check_all_ok.
  intros Hall env grant other Henv Hgrant Hother Hwho.
  specialize (Hall env Henv). simpl in Hall. rewrite check_all_ok in Hall.
  specialize (Hall grant Hgrant). simpl in Hall. rewrite check_all_ok in Hall.
  specialize (Hall other Hother). unfold check_uncontested in Hall.
  rewrite bool_decide_false in Hall by done. apply ensure_ok in Hall. by reflect_bool.
Qed.

(** *** The record of a composed set *)

(** What an attested envelope contributes to the record. *)
Definition cited (verified : VerifiedEnvelope) : option CompositionEntry :=
  attestation ← ve_attestation verified;
  epoch ← va_epoch attestation;
  auth ← va_authority attestation;
  Some (mkCompositionEntry auth (va_envelope_hash attestation) epoch).

Lemma admit_one_ok rec present verified env auth :
  admit_one rec present verified = Ok (env, auth) →
  ∃ entry, cited verified = Some entry ∧ ce_authority entry = auth ∧
    env = ve_envelope verified ∧ (auth ∉ present) ∧
    filter (λ e, ce_authority e = auth) rec = [entry].
Proof.
  unfold admit_one, cited.
  intros (att & Hatt & ([ep au] & Hv2 & Hm)%bind_ok)%bind_ok.
  destruct (ve_attestation verified) as [att'|]; [|done]. simpl in Hatt. simplify_eq. simpl in *.
  destruct (va_epoch att) as [e'|]; [|done]. destruct (va_authority att) as [a'|]; [|done].
  simpl in Hv2. simplify_eq. simpl.
  destruct (filter _ rec) as [|entry [|? ?]] eqn:Hf; [done| |done].
  apply bind_ok in Hm as ([] & Hep%ensure_ok & ([] & Hha%ensure_ok & ([] & Hpr%ensure_ok & Hm)
    %bind_ok)%bind_ok). reflect_bool. simplify_eq.
  assert (entry ∈ filter (λ e, ce_authority e = auth) rec) as Hin by (rewrite Hf; left).
  apply list_elem_of_filter in Hin as [Hauth _].
  exists entry. split; [|done]. destruct entry; simpl in *. by simplify_eq.
Qed.

Lemma admit_constituents_ok rec envelopes present envs present' :
  admit_constituents rec envelopes present = Ok (envs, present') →
  ∃ entries, Forall2 (λ v e, cited v = Some e) envelopes entries ∧
    envs = ve_envelope <$> envelopes ∧
    NoDup (ce_authority <$> entries) ∧
    (∀ e, e ∈ entries → (ce_authority e ∉ present) ∧
       filter (λ x, ce_authority x = ce_authority e) rec = [e]) ∧
    present' = list_to_set (ce_authority <$> entries) ∪ present.
Proof.
  revert present envs present'.
  induction envelopes as [|v vs IH]; intros present envs present' Hadm; simpl in Hadm.
  - simplify_eq. exists []. split; [constructor|]. split; [done|]. split; [constructor|].
    split; set_solver.
  - apply bind_ok in Hadm as ([env auth] & Hone & ([envs' p'] & Hrest & Hok)%bind_ok).
    simplify_eq. apply admit_one_ok in Hone as (e & Hc & <- & -> & Hnin & Hf).
    destruct (IH _ _ _ Hrest) as (es & HF & -> & Hnd & Hes & ->).
    exists (e :: es). split; [by constructor|]. split; [done|]. simpl. split.
    { constructor; [|done]. rewrite list_elem_of_fmap. intros (e' & Heq & He').
      destruct (Hes e' He') as [Hn _]. apply Hn. rewrite <- Heq. set_solver. }
    split; [|set_solver]. intros e' [->|He']%elem_of_cons; [done|].
    destruct (Hes e' He'). set_solver.
Qed.

(** A list in which every element is alone among those that share its key has no
    duplicates. *)
Lemma NoDup_alone {A B} `{EqDecision B} (key : A → B) (l : list A) :
  (∀ x, x ∈ l → ∃ y, filter (λ z, key z = key x) l = [y]) → NoDup l.
Proof.
  assert ((∀ x, x ∈ l → length (filter (λ z, key z = key x) l) ≤ 1)%nat → NoDup l) as Hlen.
  { induction l as [|x l IH]; intros Hl; constructor.
    - intros Hin. specialize (Hl x (list_elem_of_here _ _)).
      rewrite filter_cons, decide_True in Hl by done. simpl in Hl.
      assert (x ∈ filter (λ z, key z = key x) l) as Hx by (by apply list_elem_of_filter).
      destruct (filter _ l); [by apply elem_of_nil in Hx|simpl in Hl; lia].
    - apply IH. intros y Hy. specialize (Hl y (list_elem_of_further _ _ _ Hy)).
      rewrite filter_cons in Hl. destruct (decide _); simpl in Hl; lia. }
  intros Hall. apply Hlen. intros x Hx. destruct (Hall x Hx) as [y ->]. done.
Qed.

Lemma record_cited envelopes rec envs present :
  admit_constituents rec envelopes ∅ = Ok (envs, present) →
  check_record_supplied rec present = Ok tt →
  ∃ entries, Forall2 (λ v e, cited v = Some e) envelopes entries ∧
    envs = ve_envelope <$> envelopes ∧ entries ≡ₚ rec ∧ NoDup (ce_authority <$> entries).
Proof.
  intros (es & HF & -> & Hnd & Hes & ->)%admit_constituents_ok Hsup.
  exists es. split; [done|]. split; [done|]. split; [|done].
  assert (∀ x, x ∈ rec → x ∈ es ∧ filter (λ z, ce_authority z = ce_authority x) rec = [x]) as Hrec.
  { intros x Hx. unfold check_record_supplied in Hsup. rewrite check_all_ok in Hsup.
    pose proof (Hsup x Hx) as Hin. apply ensure_ok in Hin. reflect_bool.
    rewrite union_empty_r_L, elem_of_list_to_set, list_elem_of_fmap in Hin.
    destruct Hin as (e & Heq & He). destruct (Hes e He) as [_ Hf]. rewrite <- Heq in Hf.
    assert (x ∈ [e]) as ->%list_elem_of_singleton by (rewrite <- Hf; by apply list_elem_of_filter).
    done. }
  apply NoDup_Permutation.
  - by eapply NoDup_fmap_1.
  - apply (NoDup_alone ce_authority). intros x Hx. exists x. by apply Hrec.
  - intros x. split; [|by intros [? _]%Hrec]. intros He. destruct (Hes x He) as [_ Hf].
    assert (x ∈ filter (λ z, ce_authority z = ce_authority x) rec) as Hin by (rewrite Hf; left).
    by apply list_elem_of_filter in Hin as [_ ?].
Qed.

Lemma min_opt_None os m : foldr min_opt None os = None → (Some m ∉ os).
Proof.
  induction os as [|o os IH]; simpl; [set_solver|].
  destruct o as [b|], (foldr min_opt None os); simpl; try done. set_solver.
Qed.

Lemma min_opt_spec os n :
  foldr min_opt None os = Some n ↔
  Some n ∈ os ∧ ∀ m, Some m ∈ os → (n <= m)%N.
Proof.
  revert n. induction os as [|o os IH]; intros n; simpl; [set_solver|].
  destruct (foldr min_opt None os) as [k|] eqn:Hk.
  - destruct (proj1 (IH k) eq_refl) as [Hin Hmin].
    destruct o as [a|]; simpl; [|rewrite IH; set_solver]. split.
    + intros [= <-]. split.
      { destruct (N.min_spec a k) as [[_ ->]|[_ ->]]; set_solver. }
      intros m [[= ->]|?%Hmin]%elem_of_cons; lia.
    + intros [Hn Hall]. f_equal.
      assert (n <= a)%N by (apply Hall; left). assert (n <= k)%N by (apply Hall; by right).
      apply elem_of_cons in Hn as [[= ->]|?%Hmin]; lia.
  - assert (∀ m, (Some m ∉ os)) as Hno by (intros m; by apply min_opt_None).
    destruct o as [a|]; simpl; split.
    + intros [= <-]. split; [left|].
      intros m [[= ->]|Hm]%elem_of_cons; [lia|]. by apply Hno in Hm.
    + intros [[[= ->]|Hm]%elem_of_cons _]; [done|]. by apply Hno in Hm.
    + done.
    + intros [[|Hm]%elem_of_cons _]; [done|]. by apply Hno in Hm.
Qed.

End composition.

(** ** Theorems *)

(** C1: The composed policy is a meet: a flow or an influence that any constituent
    refuses, the composition refuses, whatever edges, labels, custodians and
    attachments the other constituents bring. *)
Theorem composition_refuses `{EntryDigest} c env src snk :
  env ∈ constituents c →
  (leaks env src snk = true → composed_leaks c src snk = true) ∧
  (injects env src snk = true → composed_injects c src snk = true).
Proof.
  intros Hs%composed_stricter.
  rewrite leaks_policy, composed_leaks_policy, injects_policy, composed_injects_policy.
  pose proof (stricter_leaks c env src snk Hs). pose proof (stricter_injects c env src snk Hs).
  destruct (policy_leaks c src snk), (policy_injects c src snk); intuition congruence.
Qed.

(** Two authorities that compose: acme exposes its ledger, beta attaches a
    compartment to it; both bind the same credential. *)
Definition party_envelope (auth : option string) (labels : gmap string DualLabel)
    (bound req : gset string) (life : N) (exps : gmap string string)
    (atts : list Attachment) (unwraps : list UnwrapGrant) : Envelope := {|
  readers := labels; governed := bound; authority := auth; requires_authority := req;
  policy_lifetime := Some life; exposes := exps; attachments := atts;
  deleg := [("acme::Admin", "acme::Operator")]; declassify := [];
  integrity := ∅; endorse := []; unwrap_grants := unwraps; request_scopes := ∅;
  sign_prefixes := ∅; deliver_scopes := ∅; confined_egress := ∅; custodian_role := None;
  internal_signals := ∅; mcp_min_rung := None; credential_min_rung := None;
  custody_demand := ∅; require_verified := ∅; internal_workflows := ∅; principals := ∅;
  address_of := {[ "ledger" := "file:/ledger"; "key" := "credential:shared/key" ]};
  party_of := ∅; guarantees := []; capabilities := ∅;
  provider_bindings := ∅; placements := ∅ |}.

Definition acme (auth : option string) (unwraps : list UnwrapGrant) : Envelope :=
  party_envelope auth {[ "file:/ledger" := both {[ "acme::Operator" ]} ]}
    {[ "file:/ledger"; "credential:shared/key" ]} ∅ 60 {[ "ledger" := "x1" ]} [] unwraps.

Definition beta (auth : option string) (atts : list Attachment)
    (unwraps : list UnwrapGrant) : Envelope :=
  party_envelope auth ∅ {[ "credential:shared/key" ]} {[ "acme" ]} 30 ∅ atts unwraps.

Definition signed_by (auth : string) (env : Envelope) : VerifiedEnvelope :=
  mkVerified env (Some (mkAttestation ("h-" +:+ auth) "root" None (Some 7%N) (Some auth))).

Definition joint_record : list CompositionEntry :=
  [mkCompositionEntry "beta" "h-beta" 7; mkCompositionEntry "acme" "h-acme" 7].

(** A digest that keeps only the readers, for the examples. *)
Definition example_digest : EntryDigest := λ e, join "," (se_reader e).

Definition joint : Composition := {|
  constituents := [acme (Some "acme") [];
    beta (Some "beta") [mkAttachment "acme" "x1" "acme::Operator" {[ "beta::Auditor" ]}] []];
  record := joint_record |}.

Definition joint_envelopes : list VerifiedEnvelope :=
  [signed_by "acme" (acme (Some "acme") []);
   signed_by "beta" (beta (Some "beta")
     [mkAttachment "acme" "x1" "acme::Operator" {[ "beta::Auditor" ]}] [])].

Lemma joint_composes : @compose example_digest joint_envelopes joint_record = Ok joint.
Proof. vm_compute. reflexivity. Qed.

Lemma composition_refuses_witness :
  @composed_leaks example_digest joint "file:/ledger" "file:/pub" = true.
Proof.
  apply (@composition_refuses example_digest joint (acme (Some "acme") [])
    "file:/ledger" "file:/pub").
  - apply list_elem_of_here.
  - vm_compute. reflexivity.
Defined.

(** Composing one envelope that attaches to nothing changes nothing: the flow
    and influence decisions of the composition are the envelope's own. *)
Theorem composition_of_one `{EntryDigest} env rec src snk :
  attachments env = [] →
  composed_leaks (mkComposition [env] rec) src snk = leaks env src snk ∧
  composed_injects (mkComposition [env] rec) src snk = injects env src snk.
Proof.
  intros Hatt. set (c := mkComposition [env] rec).
  assert (stricter c env) as Hs by (apply composed_stricter; left).
  assert (∀ get, union_of c get = get env) as Hu by (intros get; unfold union_of; simpl; by rewrite union_empty_r_L).
  assert (stricter env c) as Hs'.
  { split; simpl; intros r.
    - intros He. apply elem_of_composed_edges. split; [done|].
      by intros env' ->%list_elem_of_singleton.
    - unfold composed_reader_source. rewrite Hu. intros x [?|Hx]%elem_of_union; [done|].
      apply elem_of_attached_readers in Hx as (env' & att & ->%list_elem_of_singleton & Hin & _).
      rewrite Hatt in Hin. by apply elem_of_nil in Hin.
    - intros x Hx. apply elem_of_intersection_of. split; [done|].
      by intros env' ->%list_elem_of_singleton.
    - destruct (custodian_reader_of env r); done.
    - intros x Hx. apply elem_of_intersection_of. split; [done|].
      by intros env' ->%list_elem_of_singleton.
    - unfold composed_integrity_sink. by rewrite Hu. }
  rewrite leaks_policy, composed_leaks_policy, injects_policy, composed_injects_policy.
  pose proof (stricter_leaks _ _ src snk Hs). pose proof (stricter_leaks _ _ src snk Hs').
  pose proof (stricter_injects _ _ src snk Hs). pose proof (stricter_injects _ _ src snk Hs').
  split; [destruct (policy_leaks env src snk), (policy_leaks c src snk)
         |destruct (policy_injects env src snk), (policy_injects c src snk)]; intuition congruence.
Qed.

Lemma composition_of_one_witness :
  @composed_leaks example_digest (mkComposition [acme None []] []) "ledger" "file:/pub" = true.
Proof.
  destruct (@composition_of_one example_digest (acme None []) [] "ledger" "file:/pub") as [H _];
    [reflexivity|].
  exact (eq_trans H eq_refl).
Defined.

(** The record of an admitted composition is exactly the set that was checked:
    its entries are, up to order, the authority, hash and epoch each constituent's
    signature covers, no authority appears twice, and the constituents are the
    envelopes given. *)
Theorem compose_record_exact `{EntryDigest} envelopes rec c :
  compose envelopes rec = Ok c →
  record c = rec ∧ constituents c = ve_envelope <$> envelopes ∧
  ∃ entries, Forall2 (λ v e, cited v = Some e) envelopes entries ∧
    entries ≡ₚ rec ∧ NoDup (ce_authority <$> rec).
Proof.
  intros (Hrec & present & Hadm & Hsup & _)%compose_ok. split; [done|].
  destruct (record_cited _ _ _ _ Hadm Hsup) as (es & HF & Hc & Hp & Hnd).
  split; [done|]. exists es. split; [done|]. split; [done|]. by rewrite <- Hp.
Qed.

Lemma compose_record_exact_witness :
  ∃ entries, Forall2 (λ v e, cited v = Some e) joint_envelopes entries ∧ entries ≡ₚ joint_record.
Proof.
  destruct (@compose_record_exact example_digest joint_envelopes joint_record joint joint_composes)
    as (_ & _ & entries & HF & Hp & _).
  exists entries. split; [exact HF|exact Hp].
Defined.

(** An attached compartment stands: in an admitted composition every attachment
    resolves to the owner's resource, and data of that resource reaches a sink only
    if the unanimous acts-for edges cover every compartment attached to it,
    whatever the owner declassifies. *)
Theorem attachment_stands `{EntryDigest} envelopes rec c env att :
  compose envelopes rec = Ok c → env ∈ constituents c → att ∈ attachments env →
  ∃ resource, resolve_attachment c att = Some resource ∧
    ∀ snk, composed_leaks c resource snk = false →
      ∀ compartment, compartment ∈ att_readers att →
        ∃ prov, prov ∈ composed_reader_sink c snk ∧
          acts_for (composed_edges c) prov compartment.
Proof.
  intros (_ & present & _ & _ & _ & _ & _ & Hatt)%compose_ok Henv Hin.
  destruct (attachments_resolve c Hatt env att Henv Hin) as [resource Hr].
  exists resource. split; [done|]. intros snk. rewrite composed_leaks_policy, policy_leaks_false.
  intros [Hd _] comp Hcomp. rewrite dominates_over_spec in Hd. apply Hd.
  simpl. unfold composed_reader_source. apply elem_of_union. right. apply elem_of_attached_readers. by exists env, att.
Qed.

Lemma attachment_stands_witness :
  ∃ resource, @resolve_attachment example_digest joint
    (mkAttachment "acme" "x1" "acme::Operator" {[ "beta::Auditor" ]}) = Some resource.
Proof.
  destruct (@attachment_stands example_digest joint_envelopes joint_record joint
    (beta (Some "beta") [mkAttachment "acme" "x1" "acme::Operator" {[ "beta::Auditor" ]}] [])
    (mkAttachment "acme" "x1" "acme::Operator" {[ "beta::Auditor" ]}) joint_composes)
    as (resource & Hr & _).
  - apply list_elem_of_further, list_elem_of_here.
  - apply list_elem_of_here.
  - exists resource. exact Hr.
Defined.

(** An attachment is looked up by the address it resolves to, while every other
    label also follows a handle: in an admitted composition a flow from the address
    is refused for want of the attached compartment, and the same flow named by a
    handle that both constituents bind to that address is let through. *)
Theorem attachment_missed_through_handle :
  ∃ envelopes rec c snk handle,
    @compose example_digest envelopes rec = Ok c ∧
    (∀ env, env ∈ constituents c → resolve env handle = "file:/ledger") ∧
    @composed_leaks example_digest c "file:/ledger" snk = true ∧
    @composed_leaks example_digest c handle snk = false.
Proof.
  set (b := party_envelope (Some "beta") {[ "file:/ledger" := both {[ "acme::Operator" ]} ]}
    {[ "credential:shared/key" ]} ∅ 30 ∅
    [mkAttachment "acme" "x1" "acme::Operator" {[ "beta::Auditor" ]}] []).
  exists [signed_by "acme" (acme (Some "acme") []); signed_by "beta" b], joint_record,
    (mkComposition [acme (Some "acme") []; b] joint_record), "ledger", "ledger".
  split; [vm_compute; reflexivity|]. split; [|split; vm_compute; reflexivity].
  intros env Hin. repeat (apply elem_of_cons in Hin as [->|Hin]; [vm_compute; reflexivity|]).
  by apply elem_of_nil in Hin.
Qed.

(** Ownership of a credential is not shared between authorities that declare
    their names: in an admitted composition, when one declared authority grants
    unwrap over a credential, no constituent of another declared authority binds
    it. *)
Theorem unwrap_owner_unique `{EntryDigest} envelopes rec c env other a b grant :
  compose envelopes rec = Ok c → env ∈ constituents c → other ∈ constituents c →
  authority env = Some a → authority other = Some b → a ≠ b →
  grant ∈ unwrap_grants env →
  (resolve env (credential grant) ∉ governed other).
Proof.
  intros (_ & present & _ & _ & _ & Hu & _)%compose_ok Henv Hother Ha Hb Hne Hg.
  eapply uncontested; [done..|]. unfold who. rewrite Ha, Hb. simpl. congruence.
Qed.

Definition sole_owner : list VerifiedEnvelope :=
  [signed_by "acme" (acme (Some "acme") [mkUnwrap "key" "Record" "acme::Operator"]);
   signed_by "beta" (party_envelope (Some "beta") ∅ ∅ ∅ 30 ∅ [] [])].

Lemma unwrap_owner_unique_witness : "credential:shared/key" ∉ governed
  (party_envelope (Some "beta") ∅ ∅ ∅ 30 ∅ [] []).
Proof.
  apply (@unwrap_owner_unique example_digest sole_owner joint_record
    (mkComposition (ve_envelope <$> sole_owner) joint_record)
    (acme (Some "acme") [mkUnwrap "key" "Record" "acme::Operator"])
    (party_envelope (Some "beta") ∅ ∅ ∅ 30 ∅ [] []) "acme" "beta"
    (mkUnwrap "key" "Record" "acme::Operator")).
  - vm_compute. reflexivity.
  - apply list_elem_of_here.
  - apply list_elem_of_further, list_elem_of_here.
  - reflexivity.
  - reflexivity.
  - discriminate.
  - apply list_elem_of_here.
Defined.

(** The ownership check compares display names, and an envelope whose text
    declares no authority is displayed as "an envelope".  Two envelopes signed for
    different authorities that declare none are admitted to one composition although
    both bind one credential and both grant unwrap over it. *)
Theorem contested_unwrap_admitted :
  ∃ envelopes c e1 e2 g1 g2,
    @compose example_digest envelopes joint_record = Ok c ∧
    (∃ p1 p2, cited <$> envelopes = [Some p1; Some p2] ∧ ce_authority p1 ≠ ce_authority p2) ∧
    constituents c = [e1; e2] ∧ g1 ∈ unwrap_grants e1 ∧ g2 ∈ unwrap_grants e2 ∧
    resolve e1 (credential g1) = resolve e2 (credential g2) ∧
    resolve e1 (credential g1) ∈ governed e1 ∧ resolve e1 (credential g1) ∈ governed e2.
Proof.
  set (g := mkUnwrap "key" "Record" "Operator").
  exists [signed_by "acme" (acme None [g]); signed_by "beta" (beta None [] [g])],
    (mkComposition [acme None [g]; beta None [] [g]] joint_record),
    (acme None [g]), (beta None [] [g]), g, g.
  split; [vm_compute; reflexivity|].
  split; [do 2 eexists; split; [reflexivity|discriminate]|].
  split; [done|]. split; [apply list_elem_of_here|]. split; [apply list_elem_of_here|].
  split; [done|]. split; vm_compute; reflexivity.
Qed.

(** A composition is relied on no longer than its most demanding constituent
    allows: its lifetime is the least bound any constituent states, and it is
    unbounded only when none states one. *)
Theorem composed_lifetime_strongest c :
  (∀ n, composed_lifetime c = Some n ↔
     (∃ env, env ∈ constituents c ∧ policy_lifetime env = Some n) ∧
     ∀ env m, env ∈ constituents c → policy_lifetime env = Some m → (n <= m)%N) ∧
  (composed_lifetime c = None ↔ ∀ env, env ∈ constituents c → policy_lifetime env = None).
Proof.
  unfold composed_lifetime. split.
  - intros n. rewrite min_opt_spec. setoid_rewrite list_elem_of_fmap. naive_solver.
  - induction (constituents c) as [|env envs IH]; simpl; [set_solver|].
    destruct (policy_lifetime env) eqn:He.
    + split; [by destruct (foldr _ _ _)|]. intros Hall.
      by rewrite (Hall env (list_elem_of_here _ _)) in He.
    + replace (min_opt None _) with (foldr min_opt None (policy_lifetime <$> envs))
        by (by destruct (foldr _ _ _)).
      rewrite IH. setoid_rewrite elem_of_cons. naive_solver.
Qed.
