(* ===== verification/Selection.v ===== *)
(** The selection algebra over recorded change-units (core/selection.rs):
    expressions, their evaluation, the stranding check of a selective undo, and
    the expansion of named regions. *)
From S2P Require Import Prelude RustStr Glob.

(** ** Data *)

Record DeclUnit := mkDeclUnit {
  identity : string;
  before_canon : option string;
  after_canon : option string;
}.

Record ChangeUnit := mkChangeUnit {
  seq_no : nat;
  cut_id : string;
  change_id : string;
  branch_id : string;
  path : string;
  before : option string;
  after : option string;
  origin : option string;
  actor : option string;
  intent : option string;
  recorded_at : string;
  decls : list DeclUnit;
}.

Inductive SelExpr :=
| SUnion (a b : SelExpr)
| SIntersect (a b : SelExpr)
| SDifference (a b : SelExpr)
| SAtom (atom : SelAtom)
with SelAtom :=
| APath (arg : string)
| AByEffect (arg : string)
| AByOrigin (arg : string)
| AByActor (arg : string)
| AByIntent (arg : string)
| ADecl (arg : string)
| AInBranch (arg : string)
| AChange (arg : string)
| ACut (arg : string)
| ASince (arg : string)
| AUntil (arg : string)
| ADependentsOf (inner : SelExpr)
| ARegion (arg : string).

Scheme SelExpr_mutind := Induction for SelExpr Sort Prop
with SelAtom_mutind := Induction for SelAtom Sort Prop.

(** The refusals of parsing and of region expansion. *)
Inductive sel_error :=
| TrailingInput (rest : string)
| NestedTooDeep
| ExpectedClose (rest : string)
| ExpectedAtom (rest : string)
| ExpectedOpen (name : string)
| Unterminated (name : string)
| UnknownAtom (name : string)
| NoSuchRegion (name : string)
| RegionsTooDeep.

(** ** Evaluation *)

(** The indices of the units that satisfy a predicate ([pick]). *)
Definition pick (predicate : ChangeUnit → bool) (universe : list ChangeUnit) : gset nat :=
  list_to_set (omap id
    (imap (λ index unit, if predicate unit then Some index else None) universe)).

Definition has_prefix (field : option string) (prefix : string) : bool :=
  match field with Some s => starts_with s prefix | None => false end.

(** A later unit on the path of [unit]. *)
Definition later_on_path (unit later : ChangeUnit) : bool :=
  bool_decide (path later = path unit) && bool_decide (seq_no unit < seq_no later).

(** The units that consume the output of the unit at [index]; indexing past the end
    of the universe does not occur, see [eval_in_range]. *)
Definition consumers (universe : list ChangeUnit) (index : nat) : gset nat :=
  match universe !! index with
  | Some unit => pick (later_on_path unit) universe
  | None => ∅
  end.

Fixpoint eval (expr : SelExpr) (universe : list ChangeUnit) : gset nat :=
  match expr with
  | SUnion a b => eval a universe ∪ eval b universe
  | SIntersect a b => eval a universe ∩ eval b universe
  | SDifference a b => eval a universe ∖ eval b universe
  | SAtom atom => eval_atom atom universe
  end
with eval_atom (atom : SelAtom) (universe : list ChangeUnit) : gset nat :=
  match atom with
  | APath glob => pick (λ unit, glob_matches glob (path unit)) universe
  | AByEffect prefix => pick (λ unit, starts_with (cut_id unit) prefix) universe
  | AByOrigin prefix => pick (λ unit, has_prefix (origin unit) prefix) universe
  | AByActor prefix => pick (λ unit, has_prefix (actor unit) prefix) universe
  | AByIntent prefix => pick (λ unit, has_prefix (intent unit) prefix) universe
  | ADecl glob =>
      pick (λ unit, existsb (λ decl, glob_matches glob (identity decl)) (decls unit)) universe
  | AInBranch branch => pick (λ unit, bool_decide (branch_id unit = branch)) universe
  | AChange change => pick (λ unit, bool_decide (change_id unit = change)) universe
  | ACut cut => pick (λ unit, bool_decide (cut_id unit = cut)) universe
  | ASince stamp => pick (λ unit, bool_decide (String.le stamp (recorded_at unit))) universe
  | AUntil stamp => pick (λ unit, bool_decide (String.le (recorded_at unit) stamp)) universe
  | ARegion _ => ∅
  | ADependentsOf inner =>
      let seeds := eval inner universe in
      seeds ∪ ⋃ (consumers universe <$> elements seeds)
  end.

(** [stranded_by_undo].  The function indexes the universe with every selected
    position; [None] is the panic of a position past the end. *)
Definition stranded_by_undo (selected : gset nat) (universe : list ChangeUnit) : option (gset nat) :=
  if set_all (λ chosen, bool_decide (chosen < length universe)) selected
  then Some (⋃ (consumers universe <$> elements selected) ∖ selected)
  else None.

(** ** Rendering *)

Section render.
Local Open Scope string_scope.

Definition call (name arg : string) : string := name +:+ "(" +:+ arg +:+ ")".

Fixpoint render (expr : SelExpr) : string :=
  match expr with
  | SUnion a b => "(" +:+ render a +:+ " | " +:+ render b +:+ ")"
  | SIntersect a b => "(" +:+ render a +:+ " & " +:+ render b +:+ ")"
  | SDifference a b => "(" +:+ render a +:+ " ~ " +:+ render b +:+ ")"
  | SAtom atom => render_atom atom
  end
with render_atom (atom : SelAtom) : string :=
  match atom with
  | APath arg => call "path" arg
  | AByEffect arg => call "by-effect" arg
  | AByOrigin arg => call "by-origin" arg
  | AByActor arg => call "by" arg
  | AByIntent arg => call "intent" arg
  | ADecl arg => call "decl" arg
  | AInBranch arg => call "in-branch" arg
  | AChange arg => call "change" arg
  | ACut arg => call "cut" arg
  | ASince arg => call "since" arg
  | AUntil arg => call "until" arg
  | ARegion arg => call "region" arg
  | ADependentsOf inner => call "dependents-of" (render inner)
  end.

(** The display name of an atom ([atom_display], freshness.rs; the same names are
    pushed by [region_position_violations]). *)
Definition atom_display (atom : SelAtom) : string :=
  match atom with
  | APath _ => "path"
  | ADecl _ => "decl"
  | AByEffect _ => "by-effect"
  | AByOrigin _ => "by-origin"
  | AByActor _ => "by"
  | AByIntent _ => "intent"
  | AInBranch _ => "in-branch"
  | AChange _ => "change"
  | ACut _ => "cut"
  | ASince _ => "since"
  | AUntil _ => "until"
  | ARegion _ => "region"
  | ADependentsOf _ => "dependents-of"
  end.

End render.

(** ** Regions *)

Fixpoint contains_region_atom (expr : SelExpr) : option string :=
  match expr with
  | SUnion a b | SIntersect a b | SDifference a b =>
      match contains_region_atom a with
      | Some name => Some name
      | None => contains_region_atom b
      end
  | SAtom (ARegion name) => Some name
  | SAtom (ADependentsOf inner) => contains_region_atom inner
  | SAtom _ => None
  end.

(** The walk of [expand_regions] at one depth; [deeper] is the walk of an expansion
    at the next depth. *)
Fixpoint expand_walk (lookup : string → option SelExpr)
    (deeper : SelExpr → result sel_error SelExpr) (expr : SelExpr) : result sel_error SelExpr :=
  match expr with
  | SUnion a b =>
      a' ← expand_walk lookup deeper a; b' ← expand_walk lookup deeper b; Ok (SUnion a' b')
  | SIntersect a b =>
      a' ← expand_walk lookup deeper a; b' ← expand_walk lookup deeper b; Ok (SIntersect a' b')
  | SDifference a b =>
      a' ← expand_walk lookup deeper a; b' ← expand_walk lookup deeper b; Ok (SDifference a' b')
  | SAtom (ARegion name) =>
      expansion ← ok_or (NoSuchRegion name) (lookup name); deeper expansion
  | SAtom (ADependentsOf inner) =>
      inner' ← expand_walk lookup deeper inner; Ok (SAtom (ADependentsOf inner'))
  | SAtom atom => Ok (SAtom atom)
  end.

(** [depths] counts the depths that are left; the walk refuses past the last. *)
Fixpoint expand_at (depths : nat) (lookup : string → option SelExpr) (expr : SelExpr)
    : result sel_error SelExpr :=
  match depths with
  | 0 => Err RegionsTooDeep
  | S depths' => expand_walk lookup (expand_at depths' lookup) expr
  end.

(** Depths 0 to 8 are walked, [depth > 8] is refused. *)
Definition expand_regions (expr : SelExpr) (lookup : string → option SelExpr)
    : result sel_error SelExpr := expand_at 9 lookup expr.

Fixpoint region_position_violations (expr : SelExpr) : list string :=
  match expr with
  | SUnion a b | SIntersect a b | SDifference a b =>
      region_position_violations a ++ region_position_violations b
  | SAtom (APath _) | SAtom (ADecl _) => []
  | SAtom atom => [atom_display atom]
  end.

(** ** Lemmas *)

Lemma elem_of_pick predicate universe i :
  i ∈ pick predicate universe ↔ ∃ unit, universe !! i = Some unit ∧ predicate unit = true.
Proof.
  unfold pick. rewrite elem_of_list_to_set, list_elem_of_omap.
  setoid_rewrite elem_of_lookup_imap. unfold id. split.
  - intros (? & (j & unit & -> & Hj) & Hsome). destruct (predicate unit) eqn:?; [|done].
    simplify_eq. eauto.
  - intros (unit & Hi & Hp). exists (Some i). split; [|done]. exists i, unit. by rewrite Hp.
Qed.

Lemma elem_of_consumers universe i j :
  j ∈ consumers universe i ↔
  ∃ u v, universe !! i = Some u ∧ universe !! j = Some v ∧ path v = path u ∧ seq_no u < seq_no v.
Proof.
  unfold consumers. destruct (universe !! i) as [u|].
  - rewrite elem_of_pick. unfold later_on_path.
    setoid_rewrite andb_true_iff. setoid_rewrite bool_decide_eq_true. naive_solver.
  - rewrite elem_of_empty. naive_solver.
Qed.

Lemma consumers_trans universe i j k :
  j ∈ consumers universe i → k ∈ consumers universe j → k ∈ consumers universe i.
Proof.
  rewrite !elem_of_consumers.
  intros (u & v & Hu & Hv & Hp & Hs) (v' & w & Hv' & Hw & Hp' & Hs').
  simplify_eq. exists u, w. repeat split; [done..|congruence|lia].
Qed.

Lemma elem_of_union_consumers universe (X : gset nat) j :
  j ∈ ⋃ (consumers universe <$> elements X) ↔ ∃ i, i ∈ X ∧ j ∈ consumers universe i.
Proof.
  rewrite elem_of_union_list. setoid_rewrite list_elem_of_fmap.
  setoid_rewrite elem_of_elements. naive_solver.
Qed.

Lemma elem_of_dependents inner universe j :
  j ∈ eval_atom (ADependentsOf inner) universe ↔
  j ∈ eval inner universe ∨ ∃ i, i ∈ eval inner universe ∧ j ∈ consumers universe i.
Proof. simpl. by rewrite elem_of_union, elem_of_union_consumers. Qed.

Lemma pick_in_range predicate universe i : i ∈ pick predicate universe → i < length universe.
Proof. intros (u & Hu & _)%elem_of_pick. by eapply lookup_lt_Some. Qed.

Lemma eval_in_range expr universe i : i ∈ eval expr universe → i < length universe.
Proof.
  revert expr. apply (SelExpr_mutind
    (λ expr, i ∈ eval expr universe → i < length universe)
    (λ atom, i ∈ eval_atom atom universe → i < length universe));
    try (intros arg; apply pick_in_range); simpl; try set_solver.
  intros inner IH. rewrite elem_of_union, elem_of_union_consumers.
  intros [?|(k & _ & (u & v & _ & Hv & _)%elem_of_consumers)]; [auto|].
  by eapply lookup_lt_Some.
Qed.

Lemma stranded_by_undo_in_range selected universe :
  (∀ i, i ∈ selected → i < length universe) →
  stranded_by_undo selected universe
  = Some (⋃ (consumers universe <$> elements selected) ∖ selected).
Proof.
  intros Hr. unfold stranded_by_undo.
  replace (set_all _ selected) with true; [done|].
  symmetry. apply set_all_true. intros i Hi. by apply bool_decide_eq_true, Hr.
Qed.

Lemma expand_walk_no_region lookup deeper expr expr' :
  (∀ e e', deeper e = Ok e' → contains_region_atom e' = None) →
  expand_walk lookup deeper expr = Ok expr' → contains_region_atom expr' = None.
Proof.
  intros Hdeep. revert expr'.
  assert (∀ (mk : SelExpr → SelExpr → SelExpr) a b expr',
    (∀ x y, contains_region_atom (mk x y) =
       match contains_region_atom x with Some n => Some n | None => contains_region_atom y end) →
    (∀ e, expand_walk lookup deeper a = Ok e → contains_region_atom e = None) →
    (∀ e, expand_walk lookup deeper b = Ok e → contains_region_atom e = None) →
    (a' ← expand_walk lookup deeper a; b' ← expand_walk lookup deeper b; Ok (mk a' b')) = Ok expr' →
    contains_region_atom expr' = None) as Hbin.
  { intros mk a b expr' Hmk IHa IHb (a' & Ha & (b' & Hb & Hok)%bind_ok)%bind_ok.
    simplify_eq. by rewrite Hmk, (IHa _ Ha), (IHb _ Hb). }
  revert expr. apply (SelExpr_mutind
    (λ expr, ∀ expr', expand_walk lookup deeper expr = Ok expr' → contains_region_atom expr' = None)
    (λ atom, ∀ expr', expand_walk lookup deeper (SAtom atom) = Ok expr' →
       contains_region_atom expr' = None));
    try (intros a IHa b IHb expr'; simpl; by eapply Hbin);
    try (intros arg expr' [= <-]; done).
  - intros atom IH. exact IH.
  - intros inner IH expr' (i' & Hi & [= <-])%bind_ok. simpl. by apply IH.
  - intros name expr' (e & _ & He)%bind_ok. by eapply Hdeep.
Qed.

Lemma expand_at_no_region depths lookup expr expr' :
  expand_at depths lookup expr = Ok expr' → contains_region_atom expr' = None.
Proof.
  revert expr expr'. induction depths as [|depths IH]; intros expr expr'; [done|].
  apply expand_walk_no_region, IH.
Qed.

Lemma expand_walk_id lookup deeper expr :
  contains_region_atom expr = None → expand_walk lookup deeper expr = Ok expr.
Proof.
  revert expr. apply (SelExpr_mutind
    (λ expr, contains_region_atom expr = None → expand_walk lookup deeper expr = Ok expr)
    (λ atom, contains_region_atom (SAtom atom) = None →
       expand_walk lookup deeper (SAtom atom) = Ok (SAtom atom)));
    try (intros a IHa b IHb; simpl; destruct (contains_region_atom a); [done|];
         intros Hb; by rewrite IHa, IHb);
    try done.
  intros inner IH Hi. simpl. by rewrite IH.
Qed.

(** A set of positions is closed when it holds every consumer of its members. *)
Definition closed (universe : list ChangeUnit) (X : gset nat) : Prop :=
  ∀ i j, i ∈ X → j ∈ consumers universe i → j ∈ X.

Lemma stranded_none selected universe :
  (∀ i, i ∈ selected → i < length universe) →
  stranded_by_undo selected universe = Some ∅ ↔ closed universe selected.
Proof.
  intros Hr. rewrite stranded_by_undo_in_range by done. split.
  - intros [= He] i j Hi Hj. destruct (decide (j ∈ selected)) as [|Hn]; [done|].
    assert (j ∈ (∅ : gset nat)) as Hj' by (rewrite <- He, elem_of_difference,
      elem_of_union_consumers; eauto).
    by apply elem_of_empty in Hj'.
  - intros Hc. f_equal. apply set_eq. intros j.
    rewrite elem_of_difference, elem_of_union_consumers, elem_of_empty.
    split; [|done]. intros [(i & Hi & Hj) Hn]. apply Hn. by eapply Hc.
Qed.

(** ** Theorems *)

(** Undoing a dependents-of selection strands nothing: what it selects is the
    least set that contains the seeds and every later unit on the path of a member,
    and the stranding check of that set is empty. *)
Theorem dependents_of_closes expr universe :
  let selected := eval (SAtom (ADependentsOf expr)) universe in
  stranded_by_undo selected universe = Some ∅ ∧
  eval expr universe ⊆ selected ∧ closed universe selected ∧
  ∀ X, eval expr universe ⊆ X → closed universe X → selected ⊆ X.
Proof.
  intros selected.
  assert (closed universe selected) as Hc.
  { intros i j. unfold selected. cbn [eval]. rewrite !elem_of_dependents.
    intros [Hi|(k & Hk & Hi)] Hj; right; eauto using consumers_trans. }
  split; [apply stranded_none; [apply eval_in_range|done]|].
  split; [intros i Hi; by apply elem_of_dependents; left|]. split; [done|].
  intros X Hsub HX i [Hi|(k & Hk & Hi)]%elem_of_dependents; [by apply Hsub|].
  eapply HX; [by apply Hsub|done].
Qed.

(** The stranding check is exact on every selection the algebra evaluates: it
    does not index past the universe, it reports precisely the retained units that
    are later than an undone unit on the same path, and it reports none exactly when
    the selection is closed under consumption. *)
Theorem stranded_exact expr universe :
  let selected := eval expr universe in
  (∃ stranded, stranded_by_undo selected universe = Some stranded ∧
     ∀ j, j ∈ stranded ↔ (j ∉ selected) ∧
       ∃ i u v, i ∈ selected ∧ universe !! i = Some u ∧ universe !! j = Some v ∧
         path v = path u ∧ seq_no u < seq_no v) ∧
  (stranded_by_undo selected universe = Some ∅ ↔ closed universe selected).
Proof.
  intros selected. split; [|apply stranded_none; apply eval_in_range].
  eexists. split; [apply stranded_by_undo_in_range, eval_in_range|].
  intros j. rewrite elem_of_difference, elem_of_union_consumers.
  setoid_rewrite elem_of_consumers. fold selected. naive_solver.
Qed.

(** Region expansion resolves every name or refuses: a successful expansion has
    no region atom left, so that evaluation never meets one, and an expression
    without region atoms is returned as it is. *)
Theorem expand_regions_resolves lookup expr :
  (∀ expr', expand_regions expr lookup = Ok expr' →
     contains_region_atom expr' = None ∧ expand_regions expr' lookup = Ok expr') ∧
  (contains_region_atom expr = None → expand_regions expr lookup = Ok expr).
Proof.
  split; [|apply expand_walk_id]. intros expr' He.
  apply expand_at_no_region in He. split; [done|]. by apply expand_walk_id.
Qed.

Lemma expand_regions_resolves_witness :
  contains_region_atom (SUnion (SAtom (APath "a")) (SAtom (ADecl "d"))) = None.
Proof.
  destruct (expand_regions_resolves
    (λ name, if bool_decide (name = "r"%string) then Some (SAtom (APath "a")) else None)
    (SUnion (SAtom (ARegion "r")) (SAtom (ADecl "d")))) as [H _].
  apply H. vm_compute. reflexivity.
Defined.
