(* ===== verification/SelectionParse.v ===== *)
(** The parser of the selection grammar (core/selection.rs, [parse] and [Parser]),
    and its round trip with the renderer. *)
From S2P Require Import Prelude RustStr Selection.

(** ** Definitions *)

(** What a parsing method returns: an expression and the text it leaves, or a
    refusal. *)
Abbreviation parsed := (result sel_error (SelExpr * string)).

Section definitions.
Local Open Scope string_scope.

(** [Parser::eat]: skip whitespace, and consume the token when it is next. *)
Definition eat (token : ascii) (rest : string) : bool * string :=
  let rest := trim_start rest in
  match strip_prefix (String token "") rest with
  | Some stripped => (true, stripped)
  | None => (false, rest)
  end.

(** [while self.eat(token) { right = operand()?; left = mk(left, right) }].  Every
    turn consumes the token, so the length of the text bounds the turns; [None] says
    that the bound was too small, see [chain_total]. *)
Fixpoint chain (fuel : nat) (token : ascii) (mk : SelExpr → SelExpr → SelExpr)
    (operand : string → option parsed) (lhs : SelExpr) (rest : string) : option parsed :=
  match fuel with
  | 0 => None
  | S fuel' =>
      match eat token rest with
      | (false, rest') => Some (Ok (lhs, rest'))
      | (true, rest') =>
          match operand rest' with
          | Some (Ok (rhs, rest'')) => chain fuel' token mk operand (mk lhs rhs) rest''
          | refusal => refusal
          end
      end
  end.

(** One precedence level: an operand, then the chain of its operator. *)
Definition level (token : ascii) (mk : SelExpr → SelExpr → SelExpr)
    (operand : string → option parsed) (rest : string) : option parsed :=
  match operand rest with
  | Some (Ok (lhs, rest')) => chain (S (String.length rest)) token mk operand lhs rest'
  | refusal => refusal
  end.

(** [Parser::inter], [Parser::diff] and [Parser::expr], over the primary parser. *)
Definition inter (prim : string → option parsed) : string → option parsed :=
  level "&" SIntersect prim.
Definition diff (prim : string → option parsed) : string → option parsed :=
  level "~" SDifference (inter prim).
Definition expr (prim : string → option parsed) : string → option parsed :=
  level "|" SUnion (diff prim).

Definition is_name_char (c : ascii) : bool :=
  is_ascii_alphanumeric c || Ascii.eqb c "-" || Ascii.eqb c "_".

(** The atom of a plain argument. *)
Definition plain_atom (name arg : string) : option SelAtom :=
  if bool_decide (name = "path") then Some (APath arg)
  else if bool_decide (name = "by-effect") then Some (AByEffect arg)
  else if bool_decide (name = "by-origin") then Some (AByOrigin arg)
  else if bool_decide (name = "by") then Some (AByActor arg)
  else if bool_decide (name = "intent") then Some (AByIntent arg)
  else if bool_decide (name = "decl") then Some (ADecl arg)
  else if bool_decide (name = "in-branch") then Some (AInBranch arg)
  else if bool_decide (name = "change") then Some (AChange arg)
  else if bool_decide (name = "cut") then Some (ACut arg)
  else if bool_decide (name = "since") then Some (ASince arg)
  else if bool_decide (name = "until") then Some (AUntil arg)
  else if bool_decide (name = "region") then Some (ARegion arg)
  else None.

(** An inner expression up to its closing parenthesis. *)
Definition enclosed (inner : string → option parsed) (mk : SelExpr → SelExpr) (rest : string)
    : option parsed :=
  match inner rest with
  | Some (Ok (e, rest')) =>
      match eat ")" rest' with
      | (true, rest'') => Some (Ok (mk e, rest''))
      | (false, rest'') => Some (Err (ExpectedClose rest''))
      end
  | refusal => refusal
  end.

(** The rest of [prim_inner] after the name and its opening parenthesis. *)
Definition atom_body (inner : string → option parsed) (name rest : string) : option parsed :=
  if bool_decide (name = "dependents-of")
  then enclosed inner (λ e, SAtom (ADependentsOf e)) rest
  else match split_once ")" rest with
  | None => Some (Err (Unterminated name))
  | Some (arg, rest') =>
      match plain_atom name (trim arg) with
      | Some atom => Some (Ok (SAtom atom, rest'))
      | None => Some (Err (UnknownAtom name))
      end
  end.

Definition prim_inner (inner : string → option parsed) (rest : string) : option parsed :=
  match eat "(" rest with
  | (true, rest') => enclosed inner id rest'
  | (false, rest') =>
      let '(name, rest'') := span is_name_char rest' in
      if bool_decide (name = "") then Some (Err (ExpectedAtom rest'))
      else match eat "(" rest'' with
      | (false, _) => Some (Err (ExpectedOpen name))
      | (true, body) => atom_body inner name body
      end
  end.

(** [Parser::prim]: [depths] counts the nesting levels that are left under
    [MAX_SELECTION_DEPTH]; the counter of the source is back at its old value when
    the method returns, so it is a parameter here. *)
Fixpoint prim (depths : nat) (rest : string) : option parsed :=
  match depths with
  | 0 => Some (Err NestedTooDeep)
  | S depths' => prim_inner (expr (prim depths')) rest
  end.

Definition MAX_SELECTION_DEPTH : nat := 256.

(** [parse]; the outer [None] does not occur, see [parse_total]. *)
Definition parse_option (input : string) : option (result sel_error SelExpr) :=
  match expr (prim MAX_SELECTION_DEPTH) (trim input) with
  | Some (Ok (e, rest)) =>
      Some (if bool_decide (rest = "") then Ok e else Err (TrailingInput rest))
  | Some (Err e) => Some (Err e)
  | None => None
  end.

Definition parse (input : string) : result sel_error SelExpr :=
  default (Err (TrailingInput input)) (parse_option input).

End definitions.

(** ** Totality *)

(** A parser that always answers and never returns more text than it was given. *)
Definition returns (p : string → option parsed) : Prop :=
  ∀ rest, ∃ r, p rest = Some r ∧
    ∀ e rest', r = Ok (e, rest') → String.length rest' ≤ String.length rest.

Lemma strip_one_length encodings s r :
  strip_one encodings s = Some r → String.length r ≤ String.length s.
Proof.
  unfold strip_one. induction encodings as [|w ws IH]; simpl; [done|].
  destruct (strip_prefix w s) as [r'|] eqn:Hw; simpl; [|done].
  intros [= <-]. apply strip_prefix_Some in Hw as ->. rewrite string_app_length. lia.
Qed.

Lemma trim_start_length s : String.length (trim_start s) ≤ String.length s.
Proof.
  unfold trim_start. generalize (String.length s) at 1 as fuel. intros fuel. revert s.
  induction fuel as [|fuel IH]; intros s; simpl; [done|].
  destruct (strip_one whitespace s) as [r|] eqn:Hr; [|done].
  etrans; [apply IH|]. by eapply strip_one_length.
Qed.

Lemma eat_length token rest b rest' :
  eat token rest = (b, rest') →
  (if b then S (String.length rest') else String.length rest') ≤ String.length rest.
Proof.
  unfold eat. pose proof (trim_start_length rest) as Ht.
  destruct (strip_prefix _ (trim_start rest)) as [r|] eqn:Hs; intros [= <- <-]; [|done].
  apply strip_prefix_Some in Hs. rewrite Hs in Ht. exact Ht.
Qed.

Lemma chain_total fuel token mk operand lhs rest :
  returns operand → String.length rest < fuel →
  ∃ r, chain fuel token mk operand lhs rest = Some r ∧
    ∀ e rest', r = Ok (e, rest') → String.length rest' ≤ String.length rest.
Proof.
  intros Hop. revert lhs rest. induction fuel as [|fuel IH]; intros lhs rest Hf; [lia|].
  simpl. destruct (eat token rest) as [[] rest1] eqn:He; apply eat_length in He.
  - destruct (Hop rest1) as ([[rhs rest2]|err] & -> & Hlen).
    + specialize (Hlen _ _ eq_refl).
      destruct (IH (mk lhs rhs) rest2) as (r & -> & Hr); [lia|].
      exists r. split; [done|]. intros e rest' ->. specialize (Hr _ _ eq_refl). lia.
    + eexists. split; [done|]. done.
  - eexists. split; [done|]. by intros e rest' [= _ <-].
Qed.

Lemma level_total token mk operand : returns operand → returns (level token mk operand).
Proof.
  intros Hop rest. unfold level. destruct (Hop rest) as ([[lhs rest1]|err] & -> & Hlen).
  - specialize (Hlen _ _ eq_refl).
    destruct (chain_total (S (String.length rest)) token mk operand lhs rest1)
      as (r & -> & Hr); [done|lia|].
    exists r. split; [done|]. intros e rest' ->. specialize (Hr _ _ eq_refl). lia.
  - eexists. split; [done|]. done.
Qed.

Lemma expr_total prim : returns prim → returns (expr prim).
Proof. intros. by repeat apply level_total. Qed.

Lemma enclosed_total inner mk : returns inner → returns (enclosed inner mk).
Proof.
  intros Hin rest. unfold enclosed. destruct (Hin rest) as ([[e rest1]|err] & -> & Hlen).
  - specialize (Hlen _ _ eq_refl).
    destruct (eat ")" rest1) as [[] rest2] eqn:He; apply eat_length in He;
      (eexists; split; [done|]); [|done].
    intros e' rest' [= _ <-]. lia.
  - eexists. split; [done|]. done.
Qed.

Lemma split_once_length c s l r :
  split_once c s = Some (l, r) → String.length r ≤ String.length s.
Proof.
  unfold split_once. destruct (span _ s) as [l' [|a r']] eqn:Hs; [done|]. intros [= _ <-].
  apply span_app in Hs as ->. rewrite string_app_length. simpl. lia.
Qed.

Lemma atom_body_total inner name : returns inner → returns (atom_body inner name).
Proof.
  intros Hin rest. unfold atom_body. case_bool_decide; [by apply enclosed_total|].
  destruct (split_once ")" rest) as [[arg rest1]|] eqn:Hs; [|by eexists].
  destruct (plain_atom name (trim arg)); eexists; (split; [done|]); [|done].
  intros e rest' [= _ <-]. by eapply split_once_length.
Qed.

Lemma prim_inner_total inner : returns inner → returns (prim_inner inner).
Proof.
  intros Hin rest. unfold prim_inner.
  destruct (eat "(" rest) as [[] rest1] eqn:He; apply eat_length in He.
  - destruct (enclosed_total inner id Hin rest1) as (r & -> & Hr).
    exists r. split; [done|]. intros e rest' ->. specialize (Hr _ _ eq_refl). lia.
  - destruct (span is_name_char rest1) as [name rest2] eqn:Hs. apply span_app in Hs as ->.
    rewrite string_app_length in He. case_bool_decide; [by eexists|].
    destruct (eat "(" rest2) as [[] rest3] eqn:He2; apply eat_length in He2; [|by eexists].
    destruct (atom_body_total inner name Hin rest3) as (r & -> & Hr).
    exists r. split; [done|]. intros e rest' ->. specialize (Hr _ _ eq_refl). lia.
Qed.

Lemma prim_total depths : returns (prim depths).
Proof.
  induction depths as [|depths IH]; intros rest; simpl; [by eexists|].
  by apply prim_inner_total, expr_total.
Qed.

Lemma parse_option_total input : is_Some (parse_option input).
Proof.
  unfold parse_option.
  destruct (expr_total _ (prim_total MAX_SELECTION_DEPTH) (trim input))
    as ([[e rest]|err] & -> & _); eauto.
Qed.

(** ** Round trip *)

(** An argument that survives the parser: trimmed, and without the parenthesis that
    ends it. *)
Definition plain_arg (arg : string) : bool :=
  bool_decide (trim arg = arg) && negb (contains_char ")" arg).

Fixpoint wf_expr (e : SelExpr) : bool :=
  match e with
  | SUnion a b | SIntersect a b | SDifference a b => wf_expr a && wf_expr b
  | SAtom atom => wf_atom atom
  end
with wf_atom (atom : SelAtom) : bool :=
  match atom with
  | APath arg | AByEffect arg | AByOrigin arg | AByActor arg | AByIntent arg | ADecl arg
  | AInBranch arg | AChange arg | ACut arg | ASince arg | AUntil arg | ARegion arg =>
      plain_arg arg
  | ADependentsOf inner => wf_expr inner
  end.

(** The nesting of the rendered text: every operator is parenthesised. *)
Fixpoint nesting (e : SelExpr) : nat :=
  match e with
  | SUnion a b | SIntersect a b | SDifference a b => S (nesting a `max` nesting b)
  | SAtom (ADependentsOf inner) => S (nesting inner)
  | SAtom _ => 1
  end.

(** A character that begins no whitespace. *)
Definition solid (c : ascii) : bool :=
  forallb (λ w, match w with String a _ => negb (Ascii.eqb a c) | EmptyString => false end)
    whitespace.

Lemma strip_one_solid encodings c s :
  forallb (λ w, match w with String a _ => negb (Ascii.eqb a c) | EmptyString => false end)
    encodings = true →
  strip_one encodings (String c s) = None.
Proof.
  unfold strip_one. induction encodings as [|w ws IH]; [done|]. simpl.
  destruct w as [|a w]; [done|]. intros [Ha Hws]%andb_true_iff. simpl.
  rewrite negb_true_iff in Ha. rewrite Ha. by apply IH.
Qed.

Lemma trim_start_solid c s : solid c = true → trim_start (String c s) = String c s.
Proof. intros Hc. by apply strip_many_None, strip_one_solid. Qed.

Lemma trim_start_space c s :
  solid c = true → trim_start (String " " (String c s)) = String c s.
Proof.
  intros Hc. unfold trim_start. cbn [String.length strip_many].
  replace (strip_one whitespace (String " " (String c s))) with (Some (String c s)) by done.
  by rewrite strip_one_solid.
Qed.

Lemma eat_next token rest r :
  trim_start rest = String token r → eat token rest = (true, r).
Proof. unfold eat. intros ->. simpl. by rewrite Ascii.eqb_refl. Qed.

Lemma eat_other token c rest r :
  trim_start rest = String c r → c ≠ token → eat token rest = (false, String c r).
Proof.
  unfold eat. intros -> Hne. simpl. destruct (Ascii.eqb_spec token c); [congruence|done].
Qed.

(** A level whose operator does not follow its first operand is that operand. *)
Lemma level_one token mk operand rest e r c r' :
  operand rest = Some (Ok (e, r)) → trim_start r = String c r' → c ≠ token →
  level token mk operand rest = Some (Ok (e, String c r')).
Proof.
  intros Hop Hr Hc. unfold level. rewrite Hop. simpl. by rewrite (eat_other _ _ _ _ Hr Hc).
Qed.

(** A level with one operator between two operands. *)
Lemma level_two token mk operand rest a r b r2 r3 c r4 :
  operand rest = Some (Ok (a, r)) → trim_start r = String token r2 →
  operand r2 = Some (Ok (b, r3)) → trim_start r3 = String c r4 → c ≠ token →
  0 < String.length rest →
  level token mk operand rest = Some (Ok (mk a b, String c r4)).
Proof.
  intros Ha Hr Hb Hr3 Hc Hlen. unfold level. rewrite Ha.
  destruct (String.length rest) as [|n]; [lia|]. cbn [chain].
  rewrite (eat_next _ _ _ Hr), Hb. by rewrite (eat_other _ _ _ _ Hr3 Hc).
Qed.

Section rendered.
Context (p : string → option parsed).

Definition op_token (e : SelExpr) : ascii :=
  match e with
  | SUnion _ _ => "|" | SDifference _ _ => "~" | _ => "&"
  end.

(** A pair of operands around one operator, up to a closing parenthesis. *)
Lemma expr_two rest a b r r2 r3 tail e :
  e = SUnion a b ∨ e = SIntersect a b ∨ e = SDifference a b →
  p rest = Some (Ok (a, r)) → trim_start r = String (op_token e) r2 →
  p r2 = Some (Ok (b, r3)) → trim_start r3 = String ")" tail →
  0 < String.length rest →
  expr p rest = Some (Ok (e, String ")" tail)).
Proof.
  intros He Ha Hr Hb Hr3 Hlen.
  assert (∀ c s, solid c = true → trim_start (String c s) = String c s) as Ht
    by apply trim_start_solid.
  destruct He as [->|[->| ->]]; unfold expr, diff, inter; cbn [op_token] in Hr.
  - eapply level_two; [| |..|exact Hlen].
    + eapply level_one; [eapply level_one; [exact Ha|exact Hr|done]|by apply Ht|done].
    + by apply Ht.
    + eapply level_one; [eapply level_one; [exact Hb|exact Hr3|done]|by apply Ht|done].
    + by apply Ht.
    + done.
  - eapply level_one; [eapply level_one; [eapply level_two; [exact Ha|exact Hr|exact Hb|exact Hr3|done|exact Hlen]
      |by apply Ht|done]|by apply Ht|done].
  - eapply level_one; [eapply level_two; [| |..|exact Hlen]|by apply Ht|done].
    + eapply level_one; [exact Ha|exact Hr|done].
    + by apply Ht.
    + eapply level_one; [exact Hb|exact Hr3|done].
    + by apply Ht.
    + done.
Qed.

Lemma expr_one rest a r tail :
  p rest = Some (Ok (a, r)) → trim_start r = String ")" tail →
  expr p rest = Some (Ok (a, String ")" tail)).
Proof.
  intros Ha Hr. unfold expr, diff, inter.
  eapply level_one; [eapply level_one; [eapply level_one; [exact Ha|exact Hr|done]|..]|..];
    try done; by apply trim_start_solid.
Qed.

End rendered.

Lemma span_all f s c r :
  forallb f (chars s) = true → f c = false → span f (s +:+ String c r) = (s, String c r).
Proof.
  intros Hs Hc. induction s as [|a s IH].
  - rewrite string_app_nil_l. simpl. by rewrite Hc.
  - simpl in Hs. apply andb_true_iff in Hs as [Ha Hs]. rewrite string_app_cons. simpl.
    by rewrite Ha, IH.
Qed.

Lemma split_once_app c s r :
  contains_char c s = false → split_once c (s +:+ String c r) = Some (s, r).
Proof.
  intros Hs. unfold split_once. rewrite span_all; [done| |by rewrite Ascii.eqb_refl].
  rewrite contains_char_false in Hs. apply forallb_elem. intros a Ha.
  destruct (Ascii.eqb_spec a c); [congruence|done].
Qed.

(** A named call reaches the body of its atom. *)
Lemma prim_inner_call inner c name rest body :
  solid c = true → c ≠ "("%char → forallb is_name_char (chars (String c name)) = true →
  trim_start rest = String c name +:+ String "(" body →
  prim_inner inner rest = atom_body inner (String c name) body.
Proof.
  intros Hsol Hne Hname Hr. unfold prim_inner.
  rewrite string_app_cons in Hr. rewrite (eat_other _ _ _ _ Hr Hne).
  rewrite <- string_app_cons, span_all by done.
  rewrite bool_decide_false by done.
  by rewrite (eat_next "(" (String "(" body) body).
Qed.

Lemma call_app name arg tail :
  call name arg +:+ tail = name +:+ String "(" (arg +:+ String ")" tail).
Proof. unfold call. by rewrite !string_app_assoc. Qed.

Lemma render_head e : ∃ c s, render e = String c s ∧ solid c = true.
Proof. destruct e as [| | |[]]; do 2 eexists; (split; [reflexivity|reflexivity]). Qed.

Lemma trim_rendered e s : trim_start (render e +:+ s) = render e +:+ s.
Proof.
  destruct (render_head e) as (c & r & -> & Hc). rewrite string_app_cons.
  by apply trim_start_solid.
Qed.

Lemma trim_space_rendered e s : trim_start (String " " (render e +:+ s)) = render e +:+ s.
Proof.
  destruct (render_head e) as (c & r & -> & Hc). rewrite string_app_cons.
  by apply trim_start_space.
Qed.

Definition parses (p : string → option parsed) (e : SelExpr) : Prop :=
  ∀ rest tail, trim_start rest = render e +:+ tail → p rest = Some (Ok (e, tail)).

(** An atom with a plain argument. *)
Lemma prim_plain n c name arg atom :
  solid c = true → c ≠ "("%char → forallb is_name_char (chars (String c name)) = true →
  String c name ≠ "dependents-of"%string →
  plain_arg arg = true → plain_atom (String c name) arg = Some atom →
  render_atom atom = call (String c name) arg → parses (prim (S n)) (SAtom atom).
Proof.
  intros Hsol Hne Hname Hdep [Harg Hcl]%andb_true_iff Hat Hren rest tail Hr.
  cbn [render] in Hr. rewrite Hren, call_app in Hr. cbn [prim].
  rewrite (prim_inner_call _ c name rest _ Hsol Hne Hname Hr). unfold atom_body.
  rewrite bool_decide_false by done.
  rewrite split_once_app by by apply negb_true_iff.
  reflect_bool. by rewrite Harg, Hat.
Qed.

(** Two operands in parentheses. *)
Lemma prim_binary n a b e :
  parses (prim n) a → parses (prim n) b →
  e = SUnion a b ∨ e = SIntersect a b ∨ e = SDifference a b → parses (prim (S n)) e.
Proof.
  intros Ha Hb He rest tail Hr.
  assert (render e +:+ tail = String "(" (render a +:+ String " " (String (op_token e)
    (String " " (render b +:+ String ")" tail))))) as Htext.
  { destruct He as [->|[->| ->]]; cbn [render op_token];
      by rewrite !string_app_assoc. }
  rewrite Htext in Hr. cbn [prim]. unfold prim_inner. rewrite (eat_next _ _ _ Hr).
  unfold enclosed.
  erewrite (expr_two (prim n) _ a b); [|exact He|apply Ha, trim_rendered
    |apply trim_start_space; by destruct He as [->|[->| ->]]
    |apply Hb, trim_space_rendered|by apply trim_start_solid|].
  - by rewrite (eat_next ")" (String ")" tail) tail).
  - destruct (render_head a) as (c & r & -> & _). rewrite string_app_cons. simpl. lia.
Qed.

Lemma prim_dependents n inner :
  parses (prim n) inner → parses (prim (S n)) (SAtom (ADependentsOf inner)).
Proof.
  intros Hin rest tail Hr. cbn [render render_atom] in Hr. rewrite call_app in Hr.
  cbn [prim]. rewrite (prim_inner_call _ "d" "ependents-of" rest _ eq_refl) by done.
  unfold atom_body. rewrite bool_decide_true by done. unfold enclosed.
  erewrite (expr_one (prim n)); [|apply Hin, trim_rendered|by apply trim_start_solid].
  by rewrite (eat_next ")" (String ")" tail) tail).
Qed.

Lemma prim_render e n : wf_expr e = true → nesting e ≤ n → parses (prim n) e.
Proof.
  revert e n. apply (SelExpr_mutind
    (λ e, ∀ n, wf_expr e = true → nesting e ≤ n → parses (prim n) e)
    (λ atom, ∀ n, wf_atom atom = true → nesting (SAtom atom) ≤ n → parses (prim n) (SAtom atom)));
    try (intros a IHa b IHb [|n] [Ha Hb]%andb_true_iff Hn; simpl in Hn; [lia|];
         apply (prim_binary n a b); [apply IHa; [done|lia]|apply IHb; [done|lia]|tauto]);
    try (intros arg [|n] Harg Hn; [simpl in Hn; lia|];
         eapply prim_plain; [| | | |exact Harg| |reflexivity]; done).
  - intros atom IH n. exact (IH n).
  - intros inner IH [|n] Hwf Hn; simpl in Hn; [lia|].
    apply prim_dependents, IH; [done|lia].
Qed.

(** *** What the parser builds *)

Definition builds_wf (p : string → option parsed) : Prop :=
  ∀ rest e r, p rest = Some (Ok (e, r)) → wf_expr e = true.

Lemma chain_wf fuel token mk operand lhs rest e r :
  (∀ a b, wf_expr (mk a b) = wf_expr a && wf_expr b) → builds_wf operand →
  wf_expr lhs = true → chain fuel token mk operand lhs rest = Some (Ok (e, r)) →
  wf_expr e = true.
Proof.
  intros Hmk Hop. revert lhs rest. induction fuel as [|fuel IH]; intros lhs rest Hl; [done|].
  simpl. destruct (eat token rest) as [[] rest1]; [|by intros [= <- _]].
  destruct (operand rest1) as [[[rhs rest2]|]|] eqn:Ho; [|done..].
  apply IH. by rewrite Hmk, Hl, (Hop _ _ _ Ho).
Qed.

Lemma level_wf token mk operand :
  (∀ a b, wf_expr (mk a b) = wf_expr a && wf_expr b) → builds_wf operand →
  builds_wf (level token mk operand).
Proof.
  intros Hmk Hop rest e r. unfold level.
  destruct (operand rest) as [[[lhs rest1]|]|] eqn:Ho; [|done..].
  apply chain_wf; [done..|]. by eapply Hop.
Qed.

Lemma expr_wf p : builds_wf p → builds_wf (expr p).
Proof. intros Hp. by repeat apply level_wf. Qed.

Lemma plain_atom_wf name arg atom :
  plain_atom name arg = Some atom → wf_atom atom = plain_arg arg.
Proof. unfold plain_atom. repeat case_bool_decide; by intros [= <-]. Qed.

Lemma span_excludes c s l r :
  span (λ a, negb (Ascii.eqb a c)) s = (l, r) → contains_char c l = false.
Proof.
  revert l. induction s as [|a s IH]; intros l; simpl; [by intros [= <- _]|].
  destruct (Ascii.eqb a c) eqn:Ha; simpl; [by intros [= <- _]|].
  destruct (span _ s) as [l' r']. intros [= <- ->]. simpl. rewrite Ha. by apply IH.
Qed.

Lemma atom_body_wf inner name : builds_wf inner → builds_wf (atom_body inner name).
Proof.
  intros Hin rest e r. unfold atom_body, enclosed. case_bool_decide.
  - destruct (inner rest) as [[[e' r']|]|] eqn:Hi; [|done..].
    destruct (eat ")" r') as [[] ?]; [|done]. intros [= <- _]. by apply Hin in Hi.
  - unfold split_once. destruct (span _ rest) as [arg [|a rest']] eqn:Hs; [done|].
    destruct (plain_atom name (trim arg)) as [atom|] eqn:Ha; [|done]. intros [= <- _].
    simpl. rewrite (plain_atom_wf _ _ _ Ha). unfold plain_arg.
    rewrite trim_idemp, bool_decide_true by done. apply negb_true_iff, contains_char_trim.
    by eapply span_excludes.
Qed.

Lemma prim_wf depths : builds_wf (prim depths).
Proof.
  induction depths as [|depths IH]; intros rest e r; simpl; [done|].
  apply expr_wf in IH. unfold prim_inner.
  destruct (eat "(" rest) as [[] rest1].
  - unfold enclosed. destruct (expr _ rest1) as [[[e' r']|]|] eqn:Hi; [|done..].
    destruct (eat ")" r') as [[] ?]; [|done]. intros [= <- _]. by apply IH in Hi.
  - destruct (span is_name_char rest1) as [name rest2]. case_bool_decide; [done|].
    destruct (eat "(" rest2) as [[] rest3]; [|done]. by apply atom_body_wf.
Qed.

Lemma parse_wf input e : parse input = Ok e → wf_expr e = true.
Proof.
  unfold parse, parse_option.
  destruct (expr _ (trim input)) as [[[e' r]|]|] eqn:He; simpl; [|done..].
  case_bool_decide; [|done]. intros [= <-]. by eapply expr_wf; [apply prim_wf|].
Qed.

(** *** The whole input *)

Lemma render_last e : ∃ s, render e = s +:+ String ")" "".
Proof.
  assert (∀ name arg, ∃ s, call name arg = s +:+ String ")" "") as Hcall.
  { intros name arg. exists (name +:+ String "(" arg). unfold call.
    by rewrite string_app_assoc. }
  destruct e as [a b|a b|a b|[]]; try apply Hcall;
    [exists ("(" +:+ (render a +:+ (" | " +:+ render b)))%string
    |exists ("(" +:+ (render a +:+ (" & " +:+ render b)))%string
    |exists ("(" +:+ (render a +:+ (" ~ " +:+ render b)))%string];
    by rewrite !string_app_assoc.
Qed.

Lemma trim_render e : trim (render e) = render e.
Proof.
  apply trim_id.
  - destruct (render_head e) as (c & s & -> & Hc). by apply strip_one_solid.
  - destruct (render_last e) as [s ->]. rewrite rev_snoc. by apply strip_one_solid.
Qed.

(** A primary that ends the input is the whole expression. *)
Lemma expr_end p rest a : p rest = Some (Ok (a, "")) → expr p rest = Some (Ok (a, "")).
Proof. intros Hp. unfold expr, diff, inter, level. by rewrite Hp. Qed.

Lemma parse_render_at e :
  wf_expr e = true → nesting e ≤ MAX_SELECTION_DEPTH → parse (render e) = Ok e.
Proof.
  intros Hwf Hn. unfold parse, parse_option. rewrite trim_render.
  rewrite (expr_end _ _ e); [done|].
  apply prim_render; [done..|]. pose proof (trim_rendered e "") as Ht.
  by rewrite string_app_nil_r in *.
Qed.

(** ** Theorems *)

(** C39: Rendering and parsing are inverse up to the nesting limit: an expression
    whose arguments are trimmed and hold no closing parenthesis is read back
    unchanged, and so is every expression the parser itself produced. *)
Theorem parse_render_roundtrip e :
  nesting e ≤ MAX_SELECTION_DEPTH →
  (wf_expr e = true → parse (render e) = Ok e) ∧
  (∀ input, parse input = Ok e → parse (render e) = Ok e).
Proof.
  intros Hn. split; [intros; by apply parse_render_at|].
  intros input Hp%parse_wf. by apply parse_render_at.
Qed.

Lemma parse_render_roundtrip_witness :
  let e := SDifference (SAtom (ADependentsOf (SAtom (APath "src/*"))))
             (SUnion (SAtom (AByActor "s:")) (SAtom (ADecl "rule close"))) in
  parse (render e) = Ok e.
Proof.
  intros e. destruct (parse_render_roundtrip e) as [H _]; [vm_compute; lia|].
  apply H. vm_compute. reflexivity.
Defined.

(** The parser answers on every input: the loops of the three precedence levels
    end within the length of the text, and the nesting limit bounds the recursion. *)
Theorem parse_total input :
  ∃ r, parse_option input = Some r ∧ parse input = r.
Proof.
  destruct (parse_option_total input) as [r Hr]. exists r. split; [done|].
  unfold parse. by rewrite Hr.
Qed.

(** A union of [n + 1] atoms without parentheses. *)
Definition flat_union (n : nat) : string :=
  join " | " (replicate (S n) "path(a)"%string).

(** The renderer promises text that reads back whatever the original spelling,
    but it nests every operator while the parser does not count a flat chain: a flat
    union of 257 atoms is accepted, and its own rendering is refused as nested too
    deeply. *)
Theorem flat_union_does_not_reparse :
  ∃ e, parse (flat_union 256) = Ok e ∧ parse (render e) = Err NestedTooDeep.
Proof. eexists. split; [vm_compute; reflexivity|vm_compute; reflexivity]. Qed.
