(* ===== verification/Freshness.v ===== *)
(** Content-identity freshness of evidence (core/freshness.rs): a basis is resolved
    to a fingerprint of the frontier's content, and a fingerprint is evaluated
    against a frontier. *)
From S2P Require Import Prelude RustStr Glob Selection.

(** ** Definitions *)

Record FrontierContent := mkFrontier {
  fc_decls : gmap string string;
  fc_decl_renames : gmap string string;
  fc_paths : gmap string string;
}.

Definition DECL_PREFIX : string := "decl:".
Definition PATH_PREFIX : string := "path:".
Definition DECL_RENAME_PREFIX : string := "decl-rename:".

(** A change-set atom where a basis wants a part of the artifact world. *)
Inductive basis_error := ChangeSetAtom (atom : string).

Abbreviation fingerprint := (gmap string string).

(** The entries of [m] whose name the glob matches, with their names prefixed. *)
Definition matching (prefix glob : string) (m : gmap string string) : fingerprint :=
  list_to_map (omap (λ '(name, hash),
    if glob_matches glob name then Some (prefix +:+ name, hash) else None)%string (map_entries m)).

Fixpoint resolve_basis (expr : SelExpr) (frontier : FrontierContent)
    : result basis_error fingerprint :=
  match expr with
  | SUnion a b =>
      lhs ← resolve_basis a frontier;
      rhs ← resolve_basis b frontier;
      Ok (rhs ∪ lhs)
  | SIntersect a b =>
      lhs ← resolve_basis a frontier;
      rhs ← resolve_basis b frontier;
      Ok (filter (λ kv, is_Some (rhs !! kv.1)) lhs)
  | SDifference a b =>
      lhs ← resolve_basis a frontier;
      rhs ← resolve_basis b frontier;
      Ok (filter (λ kv, ¬ is_Some (rhs !! kv.1)) lhs)
  | SAtom (ADecl glob) =>
      Ok (matching DECL_RENAME_PREFIX glob (fc_decl_renames frontier)
          ∪ matching DECL_PREFIX glob (fc_decls frontier))
  | SAtom (APath glob) => Ok (matching PATH_PREFIX glob (fc_paths frontier))
  | SAtom other => Err (ChangeSetAtom (atom_display other))
  end.

Inductive Freshness :=
| Fresh
| Stale (mismatched : list string) (moved : list (string * string)).

(** The frontier identities that carry the recorded rename hash of [ident], for the
    moved advisory of an absent declaration. *)
Definition moved_to (fp : fingerprint) (frontier : FrontierContent) (ident : string)
    : list (string * string) :=
  match fp !! (DECL_RENAME_PREFIX +:+ ident)%string with
  | Some recorded_rename =>
      omap (λ '(candidate, rename_hash),
        if bool_decide (rename_hash = recorded_rename)
           && negb (bool_decide (is_Some (fc_decls frontier !! ident)))
           && negb (bool_decide (candidate = ident))
        then Some (ident, candidate) else None) (map_entries (fc_decl_renames frontier))
  | None => []
  end.

(** One turn of the loop of [evaluate]: the mismatched keys and the moved pairs it
    pushes. *)
Definition evaluate_entry (fp : fingerprint) (frontier : FrontierContent)
    (key recorded : string) : list string * list (string * string) :=
  match strip_prefix DECL_RENAME_PREFIX key with
  | Some _ => ([], [])
  | None =>
      match strip_prefix DECL_PREFIX key with
      | Some ident =>
          match fc_decls frontier !! ident with
          | Some current => if bool_decide (current = recorded) then ([], []) else ([key], [])
          | None => ([key], moved_to fp frontier ident)
          end
      | None =>
          match strip_prefix PATH_PREFIX key with
          | Some p =>
              if bool_decide (fc_paths frontier !! p = Some recorded) then ([], []) else ([key], [])
          | None => ([key], [])
          end
      end
  end.

Definition evaluate (fp : fingerprint) (frontier : FrontierContent) : Freshness :=
  let turns := (λ '(key, recorded), evaluate_entry fp frontier key recorded) <$> map_entries fp in
  let mismatched := mjoin turns.*1 in
  if bool_decide (mismatched = []) then Fresh else Stale mismatched (mjoin turns.*2).

(** ** Lemmas *)

(** An entry is current when its recorded hash is the frontier's hash of what it
    names; companion entries are not content and are always current. *)
Definition current (frontier : FrontierContent) (key recorded : string) : Prop :=
  (∃ i, key = (DECL_RENAME_PREFIX +:+ i)%string) ∨
  (∃ i, key = (DECL_PREFIX +:+ i)%string ∧ fc_decls frontier !! i = Some recorded) ∨
  (∃ p, key = (PATH_PREFIX +:+ p)%string ∧ fc_paths frontier !! p = Some recorded).

Lemma strip_rename_none key :
  (∃ i, key = (DECL_PREFIX +:+ i)%string) ∨ (∃ p, key = (PATH_PREFIX +:+ p)%string) →
  strip_prefix DECL_RENAME_PREFIX key = None.
Proof. by intros [[i ->]|[p ->]]. Qed.

Lemma strip_decl_path p : strip_prefix DECL_PREFIX (PATH_PREFIX +:+ p)%string = None.
Proof. done. Qed.

Lemma evaluate_entry_fst fp frontier key recorded :
  (evaluate_entry fp frontier key recorded).1 = [] ∧ current frontier key recorded ∨
  (evaluate_entry fp frontier key recorded).1 = [key] ∧ ¬ current frontier key recorded.
Proof.
  unfold evaluate_entry, current.
  destruct (strip_prefix DECL_RENAME_PREFIX key) as [i|] eqn:Hren.
  { apply strip_prefix_Some in Hren. left. eauto. }
  assert (¬ ∃ i, key = (DECL_RENAME_PREFIX +:+ i)%string) as Hnren.
  { intros [i ->]. by rewrite strip_prefix_app in Hren. }
  destruct (strip_prefix DECL_PREFIX key) as [i|] eqn:Hdecl.
  - apply strip_prefix_Some in Hdecl as ->.
    assert (∀ i', (DECL_PREFIX +:+ i = DECL_PREFIX +:+ i')%string → i' = i) as Hinj.
    { intros i' Heq. by apply string_app_inj_l in Heq. }
    assert (¬ ∃ p, (DECL_PREFIX +:+ i = PATH_PREFIX +:+ p)%string) as Hnp by (by intros [p ?]).
    destruct (fc_decls frontier !! i) as [h|] eqn:Hi; [case_bool_decide as Hh|].
    + left. split; [done|]. right; left. exists i. by rewrite Hi, Hh.
    + right. split; [done|]. intros [?|[(i' & ->%Hinj & ?)|(p & ? & _)]]; [done|congruence|eauto].
    + right. split; [done|]. intros [?|[(i' & ->%Hinj & ?)|(p & ? & _)]]; [done|congruence|eauto].
  - assert (¬ ∃ i, key = (DECL_PREFIX +:+ i)%string) as Hnd.
    { intros [i ->]. by rewrite strip_prefix_app in Hdecl. }
    destruct (strip_prefix PATH_PREFIX key) as [p|] eqn:Hpath.
    + apply strip_prefix_Some in Hpath as ->. case_bool_decide as Hh.
      * left. split; [done|]. right; right. eauto.
      * right. split; [done|]. intros [?|[(? & ? & _)|(p' & Heq & ?)]]; [done|eauto|].
        by apply string_app_inj_l in Heq as ->.
    + right. split; [done|]. intros [?|[(? & ? & _)|(p & -> & _)]]; [done|eauto|].
      by rewrite strip_prefix_app in Hpath.
Qed.

Lemma mismatched_nil fp frontier :
  mjoin ((λ '(key, recorded), evaluate_entry fp frontier key recorded) <$> map_entries fp).*1 = [] ↔
  ∀ key recorded, fp !! key = Some recorded → current frontier key recorded.
Proof.
  setoid_rewrite <- elem_of_map_entries. induction (map_entries fp) as [|[k r] l IH]; simpl.
  - split; [|done]. by intros _ k r ?%elem_of_nil.
  - rewrite app_nil, IH. setoid_rewrite elem_of_cons.
    destruct (evaluate_entry_fst fp frontier k r) as [[-> Hc]|[-> Hc]].
    + split; [|by auto]. intros [_ Hl] key recorded [[= -> ->]|?]; auto.
    + split; [by intros [? _]|]. intros H. destruct Hc. apply H. by left.
Qed.

Lemma evaluate_fresh fp frontier :
  evaluate fp frontier = Fresh ↔
  ∀ key recorded, fp !! key = Some recorded → current frontier key recorded.
Proof.
  rewrite <- mismatched_nil. unfold evaluate. case_bool_decide; naive_solver.
Qed.

Lemma matching_Some prefix glob m key hash :
  matching prefix glob m !! key = Some hash →
  ∃ name, key = (prefix +:+ name)%string ∧ m !! name = Some hash ∧ glob_matches glob name = true.
Proof.
  intros Hl%elem_of_list_to_map_2. apply list_elem_of_omap in Hl as ([name h] & Hin & Hsome).
  apply elem_of_map_entries in Hin. destruct (glob_matches glob name) eqn:?; naive_solver.
Qed.

Lemma resolve_basis_current expr frontier fp :
  resolve_basis expr frontier = Ok fp →
  ∀ key recorded, fp !! key = Some recorded → current frontier key recorded.
Proof.
  revert fp. induction expr as [a IHa b IHb|a IHa b IHb|a IHa b IHb|atom]; intros fp; simpl.
  - intros (l & Hl & (r & Hr & [= <-])%bind_ok)%bind_ok key h.
    rewrite lookup_union_Some_raw. intros [?|[_ ?]]; eauto.
  - intros (l & Hl & (r & Hr & [= <-])%bind_ok)%bind_ok key h [? _]%map_lookup_filter_Some. eauto.
  - intros (l & Hl & (r & Hr & [= <-])%bind_ok)%bind_ok key h [? _]%map_lookup_filter_Some. eauto.
  - destruct atom; try done; intros [= <-] key h; unfold current.
    + intros (name & -> & ? & _)%matching_Some. eauto.
    + rewrite lookup_union_Some_raw.
      intros [(name & -> & ? & _)%matching_Some|[_ (name & -> & ? & _)%matching_Some]]; eauto.
Qed.

Lemma elem_of_moved_to fp frontier ident i c :
  (i, c) ∈ moved_to fp frontier ident ↔
  i = ident ∧ fc_decls frontier !! ident = None ∧ c ≠ ident ∧
  ∃ h, fp !! (DECL_RENAME_PREFIX +:+ ident)%string = Some h ∧ fc_decl_renames frontier !! c = Some h.
Proof.
  unfold moved_to. destruct (fp !! _) as [h|] eqn:Hfp.
  - rewrite list_elem_of_omap. split.
    + intros ([cand h'] & Hin%elem_of_map_entries & Hs).
      destruct (bool_decide _ && _ && _) eqn:Hb; [|done]. simplify_eq. reflect_bool. subst.
      split; [done|]. split; [by apply eq_None_not_Some|]. split; [done|]. eauto.
    + intros (-> & Hn & Hc & h' & [= ->] & Hr). exists (c, h'). rewrite elem_of_map_entries.
      split; [done|]. rewrite Hn. rewrite !(bool_decide_true (h' = h')), !bool_decide_false by
        first [done|by intros [? ?]]. done.
  - rewrite elem_of_nil. naive_solver.
Qed.

Lemma evaluate_entry_moved fp frontier key recorded i c :
  (i, c) ∈ (evaluate_entry fp frontier key recorded).2 →
  key = (DECL_PREFIX +:+ i)%string ∧ fc_decls frontier !! i = None ∧ c ≠ i ∧
  ∃ h, fp !! (DECL_RENAME_PREFIX +:+ i)%string = Some h ∧ fc_decl_renames frontier !! c = Some h.
Proof.
  unfold evaluate_entry. destruct (strip_prefix DECL_RENAME_PREFIX key); [by intros ?%elem_of_nil|].
  destruct (strip_prefix DECL_PREFIX key) as [i'|] eqn:Hd.
  - apply strip_prefix_Some in Hd as ->.
    destruct (fc_decls frontier !! i') eqn:?; [case_bool_decide; by intros ?%elem_of_nil|].
    simpl. intros (-> & ? & ? & ?)%elem_of_moved_to. eauto.
  - destruct (strip_prefix PATH_PREFIX key); [case_bool_decide|]; by intros ?%elem_of_nil.
Qed.

(** ** Theorems *)

(** Evidence is fresh where it was attested: the fingerprint of a basis at a
    frontier evaluates to fresh at that frontier, and at every other frontier that
    holds the same content under the recorded names. *)
Theorem attested_evidence_is_fresh expr frontier fp :
  resolve_basis expr frontier = Ok fp →
  evaluate fp frontier = Fresh ∧
  ∀ frontier',
    (∀ i h, fp !! (DECL_PREFIX +:+ i)%string = Some h → fc_decls frontier' !! i = Some h) →
    (∀ p h, fp !! (PATH_PREFIX +:+ p)%string = Some h → fc_paths frontier' !! p = Some h) →
    evaluate fp frontier' = Fresh.
Proof.
  intros Hfp. pose proof (resolve_basis_current _ _ _ Hfp) as Hcur.
  split; [by apply evaluate_fresh|]. intros frontier' Hd Hp. apply evaluate_fresh.
  intros key recorded Hk. destruct (Hcur key recorded Hk) as [?|[(i & -> & _)|(p & -> & _)]];
    unfold current; eauto 6.
Qed.

Lemma attested_evidence_is_fresh_witness :
  evaluate {[ "path:a.txt" := "p1" ]}
    (mkFrontier {[ "rule close" := "h1" ]} ∅ {[ "a.txt" := "p1"; "b.txt" := "p2" ]}) = Fresh.
Proof.
  refine (proj1 (attested_evidence_is_fresh
    (SDifference (SAtom (APath "*")) (SAtom (APath "b*")))
    (mkFrontier {[ "rule close" := "h1" ]} ∅ {[ "a.txt" := "p1"; "b.txt" := "p2" ]}) _ _)).
  vm_compute. reflexivity.
Defined.

(** A verdict of staleness is exact: evidence is fresh precisely when every entry
    other than a rename companion still matches the frontier; a stale verdict lists
    precisely the mismatched keys, at least one of them; and a rename is advised only
    for a declaration that is gone, towards another identity that carries the
    recorded name-neutral hash. *)
Theorem evaluate_exact fp frontier :
  (evaluate fp frontier = Fresh ↔
     ∀ key recorded, fp !! key = Some recorded → current frontier key recorded) ∧
  (∀ mismatched moved, evaluate fp frontier = Stale mismatched moved →
     mismatched ≠ [] ∧
     (∀ key, key ∈ mismatched ↔ ∃ recorded, fp !! key = Some recorded ∧ ¬ current frontier key recorded) ∧
     (∀ i c, (i, c) ∈ moved →
        (DECL_PREFIX +:+ i)%string ∈ mismatched ∧ fc_decls frontier !! i = None ∧ c ≠ i ∧
        ∃ h, fp !! (DECL_RENAME_PREFIX +:+ i)%string = Some h ∧
             fc_decl_renames frontier !! c = Some h)).
Proof.
  split; [apply evaluate_fresh|]. intros mismatched moved. unfold evaluate.
  case_bool_decide as Hne; [done|]. intros [= <- <-]. split; [done|].
  assert (∀ key, key ∈ mjoin ((λ '(key, recorded), evaluate_entry fp frontier key recorded)
      <$> map_entries fp).*1 ↔
    ∃ recorded, fp !! key = Some recorded ∧ ¬ current frontier key recorded) as Hmis.
  { intros key. rewrite list_elem_of_join. setoid_rewrite list_elem_of_fmap.
    setoid_rewrite list_elem_of_fmap. split.
    - intros (l & Hk & (t & -> & ([k r] & -> & Hin%elem_of_map_entries))).
      destruct (evaluate_entry_fst fp frontier k r) as [[Heq ?]|[Heq ?]]; rewrite Heq in Hk.
      + by apply elem_of_nil in Hk.
      + apply list_elem_of_singleton in Hk as ->. eauto.
    - intros (r & Hin & Hnc). exists [key]. split; [left|].
      exists (evaluate_entry fp frontier key r). split.
      + destruct (evaluate_entry_fst fp frontier key r) as [[Heq ?]|[Heq ?]]; done.
      + exists (key, r). split; [done|]. by apply elem_of_map_entries. }
  split; [exact Hmis|]. intros i c. rewrite list_elem_of_join.
  setoid_rewrite list_elem_of_fmap. setoid_rewrite list_elem_of_fmap.
  intros (l & Hl & (t & -> & ([k r] & -> & Hin%elem_of_map_entries))).
  apply evaluate_entry_moved in Hl as (-> & Hn & Hc & Hh).
  split; [|done]. apply Hmis. exists r. split; [done|].
  intros [(i' & ?)|[(i' & Heq & Hi)|(p & ? & _)]]; [done| |done].
  apply string_app_inj_l in Heq as <-. congruence.
Qed.

(** The door of a basis and the check of a region declaration draw one line: a
    basis resolves exactly when the expression has no atom that a region may not
    hold, and a refusal names the first such atom. *)
Theorem basis_and_region_agree expr frontier :
  match region_position_violations expr with
  | [] => ∃ fp, resolve_basis expr frontier = Ok fp
  | atom :: _ => resolve_basis expr frontier = Err (ChangeSetAtom atom)
  end.
Proof.
  induction expr as [a IHa b IHb|a IHa b IHb|a IHa b IHb|atom]; simpl.
  4: destruct atom; simpl; eauto.
  all: destruct (region_position_violations a) as [|va ?]; simpl; [|by rewrite IHa].
  all: destruct IHa as [fa ->]; simpl.
  all: destruct (region_position_violations b) as [|vb ?]; simpl; [|by rewrite IHb].
  all: destruct IHb as [fb ->]; simpl; eauto.
Qed.
