(* ===== verification/NormEvidence.v ===== *)
(** Report adequacy and bounded proof evaluation (core/norm_evidence.rs): one test
    report judged against its independently installed contract, and a proposition
    table evaluated under intersected premises.  The adapter's verifier is an
    interface; JSON values are a type with decidable equality. *)
From S2P Require Import Prelude RustStr.

(** ** Data *)

Record EvidenceVersion := mkVersion { ev_name : string; ev_version : string; ev_digest : string }.

Record EvidenceSubject := mkSubject {
  es_requirement : EvidenceVersion;
  es_method : EvidenceVersion;
  es_artifact : string;
}.

#[export] Instance evidence_version_eq_dec : EqDecision EvidenceVersion.
Proof. solve_decision. Defined.
#[export] Instance evidence_subject_eq_dec : EqDecision EvidenceSubject.
Proof. solve_decision. Defined.

Inductive ArtifactProvenance :=
| Interpreted (source_frontier interpreter environment : string)
| Built (source_frontier build toolchain environment : string).

Inductive ReportCompletion := Complete | Truncated | MissingRun.
Inductive ProcessTermination := Success | Failure | Crashed | UnknownEnd.

#[export] Instance completion_eq_dec : EqDecision ReportCompletion.
Proof. solve_decision. Defined.
#[export] Instance termination_eq_dec : EqDecision ProcessTermination.
Proof. solve_decision. Defined.

Inductive EvidenceDiagnostic :=
| InvalidIdentity
| EmptyFamily
| InvalidCase (id : string)
| DuplicateRequiredCase (id : string)
| RequirementMismatch
| MethodMismatch
| ArtifactMismatch
| MissingProvenance
| UnboundReport
| MissingReport
| TruncatedReport
| UnknownCase (id : string)
| DuplicateObservation (id : string)
| AssertionMismatch (id : string)
| UnverifiedExercise (id : string)
| MissingCase (id : string)
| InconsistentTermination.

#[export] Instance evidence_diagnostic_eq_dec : EqDecision EvidenceDiagnostic.
Proof. solve_decision. Defined.

Definition diagnostic_code (d : EvidenceDiagnostic) : nat * string :=
  match d with
  | InvalidIdentity => (0, "") | EmptyFamily => (1, "") | InvalidCase id => (2, id)
  | DuplicateRequiredCase id => (3, id) | RequirementMismatch => (4, "")
  | MethodMismatch => (5, "") | ArtifactMismatch => (6, "") | MissingProvenance => (7, "")
  | UnboundReport => (8, "") | MissingReport => (9, "") | TruncatedReport => (10, "")
  | UnknownCase id => (11, id) | DuplicateObservation id => (12, id)
  | AssertionMismatch id => (13, id) | UnverifiedExercise id => (14, id)
  | MissingCase id => (15, id) | InconsistentTermination => (16, "")
  end%string.

#[export] Instance diagnostic_code_inj : Inj (=) (=) diagnostic_code.
Proof. intros [] []; simpl; congruence. Qed.
#[export] Instance evidence_diagnostic_countable : Countable EvidenceDiagnostic :=
  inj_countable diagnostic_code
    (λ p, match p.1 with
     | 0 => Some InvalidIdentity | 1 => Some EmptyFamily | 2 => Some (InvalidCase p.2)
     | 3 => Some (DuplicateRequiredCase p.2) | 4 => Some RequirementMismatch
     | 5 => Some MethodMismatch | 6 => Some ArtifactMismatch | 7 => Some MissingProvenance
     | 8 => Some UnboundReport | 9 => Some MissingReport | 10 => Some TruncatedReport
     | 11 => Some (UnknownCase p.2) | 12 => Some (DuplicateObservation p.2)
     | 13 => Some (AssertionMismatch p.2) | 14 => Some (UnverifiedExercise p.2)
     | 15 => Some (MissingCase p.2) | 16 => Some InconsistentTermination | _ => None
     end) ltac:(by intros []).

Inductive TestOutcome := Pass | Fail | HarnessFailed.
#[export] Instance test_outcome_eq_dec : EqDecision TestOutcome.
Proof. solve_decision. Defined.

Section data.
Context {Value : Type}.

Record RequiredCase := mkCase { rc_id : string; rc_assertion : string; rc_expected : Value }.
Record ReportContract := mkContract { ct_subject : EvidenceSubject; ct_cases : list RequiredCase }.

Record AssertionObservation := mkObservation {
  ob_case : string;
  ob_assertion : string;
  ob_actual : Value;
  ob_witness : string;
}.

Record TestReport := mkReport {
  tr_subject : EvidenceSubject;
  tr_provenance : option ArtifactProvenance;
  tr_completion : ReportCompletion;
  tr_termination : ProcessTermination;
  tr_observations : list AssertionObservation;
}.

Record Counterexample := mkCounterexample {
  cx_case : string;
  cx_witness : string;
  cx_expected : Value;
  cx_actual : Value;
}.

Record TestJudgment := mkJudgment {
  tj_subject : EvidenceSubject;
  tj_reported_subject : EvidenceSubject;
  tj_outcome : TestOutcome;
  tj_required : gset string;
  tj_exercised : gset string;
  tj_counterexamples : list Counterexample;
  tj_diagnostics : gset EvidenceDiagnostic;
}.

(** The host-owned adapter boundary. *)
Class ReportVerifier := {
  verify_report_binding : TestReport → bool;
  verify_assertion_exercise : TestReport → AssertionObservation → bool;
}.

End data.
Arguments RequiredCase : clear implicits.
Arguments ReportContract : clear implicits.
Arguments AssertionObservation : clear implicits.
Arguments TestReport : clear implicits.
Arguments Counterexample : clear implicits.
Arguments TestJudgment : clear implicits.
Arguments ReportVerifier : clear implicits.

(** A diagnostic that is inserted when a test fails. *)
Definition unless {D} `{Countable D} (ok : bool) (d : D) : gset D := if ok then ∅ else {[ d ]}.

Definition version_valid (v : EvidenceVersion) : bool :=
  nonempty (ev_name v) && nonempty (ev_version v) && nonempty (ev_digest v).

Definition valid_subject (s : EvidenceSubject) : bool :=
  nonempty (es_artifact s) && (version_valid (es_requirement s) && version_valid (es_method s)).

Section report.
Context `{EqDecision Value, ReportVerifier Value}.

(** The loop over the contract's cases: the cases by identity, the identities that no
    observation can exercise, and what is wrong with the contract. *)
Record CaseTable := mkTable {
  cases : gmap string (RequiredCase Value);
  ambiguous : gset string;
  case_diagnostics : gset EvidenceDiagnostic;
}.

Definition case_step (t : CaseTable) (c : RequiredCase Value) : CaseTable :=
  let named := nonempty (rc_id c) && nonempty (rc_assertion c) in
  let repeated := bool_decide (is_Some (cases t !! rc_id c)) in
  mkTable (<[ rc_id c := c ]> (cases t))
    (ambiguous t ∪ (if named then ∅ else {[ rc_id c ]}) ∪ (if repeated then {[ rc_id c ]} else ∅))
    (case_diagnostics t ∪ unless named (InvalidCase (rc_id c))
       ∪ unless (negb repeated) (DuplicateRequiredCase (rc_id c))).

Definition case_table (l : list (RequiredCase Value)) : CaseTable :=
  foldl case_step (mkTable ∅ ∅ ∅) l.

(** The loop over the report's observations. *)
Record Exercise := mkExercise {
  seen : gset string;
  exercised : gset string;
  counterexamples : list (Counterexample Value);
  exercise_diagnostics : gset EvidenceDiagnostic;
}.

Definition observation_verified (report : TestReport Value) (o : AssertionObservation Value) : bool :=
  nonempty (ob_witness o) && verify_assertion_exercise report o.

Definition observation_step (t : CaseTable) (bound : bool) (report : TestReport Value)
    (x : Exercise) (o : AssertionObservation Value) : Exercise :=
  let repeated := bool_decide (ob_case o ∈ seen x) in
  let diagnostics := exercise_diagnostics x ∪ unless (negb repeated) (DuplicateObservation (ob_case o)) in
  let seen := {[ ob_case o ]} ∪ seen x in
  match cases t !! ob_case o with
  | None =>
      mkExercise seen (exercised x) (counterexamples x) (diagnostics ∪ {[ UnknownCase (ob_case o) ]})
  | Some c =>
      let assertion_matches := bool_decide (rc_assertion c = ob_assertion o) in
      let verified := observation_verified report o in
      let diagnostics := diagnostics ∪ unless assertion_matches (AssertionMismatch (ob_case o))
        ∪ unless verified (UnverifiedExercise (ob_case o)) in
      if bound && assertion_matches && verified && negb (bool_decide (ob_case o ∈ ambiguous t)) then
        mkExercise seen ({[ ob_case o ]} ∪ exercised x)
          (if bool_decide (ob_actual o = rc_expected c) then counterexamples x
           else counterexamples x ++
             [mkCounterexample (ob_case o) (ob_witness o) (rc_expected c) (ob_actual o)])
          diagnostics
      else mkExercise seen (exercised x) (counterexamples x) diagnostics
  end.

Definition exercise (t : CaseTable) (bound : bool) (report : TestReport Value) : Exercise :=
  foldl (observation_step t bound report) (mkExercise ∅ ∅ [] ∅) (tr_observations report).

Definition completion_diagnostics (c : ReportCompletion) : gset EvidenceDiagnostic :=
  match c with
  | Complete => ∅
  | Truncated => {[ TruncatedReport ]}
  | MissingRun => {[ MissingReport ]}
  end.

Definition termination_consistent (t : ProcessTermination) (no_counterexample : bool) : bool :=
  match t with
  | Success => no_counterexample
  | Failure => negb no_counterexample
  | Crashed | UnknownEnd => false
  end.

Definition evaluate_report (contract : ReportContract Value) (report : TestReport Value)
    : TestJudgment Value :=
  let cs := ct_subject contract in
  let rs := tr_subject report in
  let identities_valid := valid_subject cs && valid_subject rs in
  let t := case_table (ct_cases contract) in
  let requirement_matches := bool_decide (es_requirement cs = es_requirement rs) in
  let method_matches := bool_decide (es_method cs = es_method rs) in
  let artifact_matches := bool_decide (es_artifact cs = es_artifact rs) in
  let has_provenance := bool_decide (is_Some (tr_provenance report)) in
  let authenticated := verify_report_binding report in
  let bound := identities_valid && requirement_matches && method_matches && artifact_matches
               && has_provenance && authenticated in
  let x := exercise t bound report in
  let required := dom (cases t) in
  let consistent := termination_consistent (tr_termination report)
    (bool_decide (length (counterexamples x) = 0)) in
  let diagnostics :=
    unless identities_valid InvalidIdentity
    ∪ unless (negb (bool_decide (length (ct_cases contract) = 0))) EmptyFamily
    ∪ case_diagnostics t
    ∪ unless requirement_matches RequirementMismatch
    ∪ unless method_matches MethodMismatch
    ∪ unless artifact_matches ArtifactMismatch
    ∪ unless has_provenance MissingProvenance
    ∪ unless authenticated UnboundReport
    ∪ completion_diagnostics (tr_completion report)
    ∪ exercise_diagnostics x
    ∪ set_map MissingCase (required ∖ exercised x)
    ∪ unless consistent InconsistentTermination in
  let outcome :=
    if negb (bool_decide (diagnostics = ∅)) then HarnessFailed
    else if bool_decide (length (counterexamples x) = 0) then Pass else Fail in
  mkJudgment cs rs outcome required (exercised x) (counterexamples x) diagnostics.

End report.
Arguments CaseTable : clear implicits.
Arguments Exercise : clear implicits.

(** ** Bounded proofs *)

Record FiniteProofJudgment := mkProof {
  admitted_interpretations : gset string;
  countermodels : gset string;
  unknown_interpretations : gset string;
  established : bool;
}.

Definition evaluate_finite_proof (proposition : gmap string bool) (premises : list (gset string))
    : FiniteProofJudgment :=
  let universe := dom proposition in
  let '(admitted, unknown) := foldl (λ '(admitted, unknown) premise,
    (admitted ∩ premise, unknown ∪ (premise ∖ universe))) (universe, ∅) premises in
  let countermodels := filter (λ world, proposition !! world = Some false) admitted in
  mkProof admitted countermodels unknown
    (negb (bool_decide (admitted = ∅)) && bool_decide (unknown = ∅) && bool_decide (countermodels = ∅)).

(** ** Lemmas *)

Lemma unless_empty {D} `{Countable D} ok (d : D) : unless ok d = ∅ ↔ ok = true.
Proof. unfold unless. destruct ok; set_solver. Qed.

Lemma length_zero_nil {A} (l : list A) : bool_decide (length l = 0) = true ↔ l = [].
Proof. rewrite bool_decide_eq_true. split; [apply nil_length_inv|by intros ->]. Qed.

Lemma set_map_difference_empty {A B} `{Countable A, Countable B} (f : A → B) (X Y : gset A) :
  set_map (D := gset B) f (X ∖ Y) = ∅ ↔ X ⊆ Y.
Proof.
  split.
  - intros He y Hy. destruct (decide (y ∈ Y)) as [|Hn]; [done|]. exfalso.
    apply (not_elem_of_empty (C := gset B) (f y)). rewrite <- He.
    apply elem_of_map. exists y. by rewrite elem_of_difference.
  - intros Hsub. replace (X ∖ Y) with (∅ : gset A) by set_solver. apply set_map_empty.
Qed.

Lemma difference_empty_iff {A} `{Countable A} (X Y : gset A) : X ∖ Y = ∅ ↔ X ⊆ Y.
Proof.
  split; [|set_solver]. intros He y Hy. destruct (decide (y ∈ Y)); [done|]. set_solver.
Qed.

Section report_lemmas.
Context `{EqDecision Value, ReportVerifier Value}.
Implicit Types (c : RequiredCase Value) (o : AssertionObservation Value) (t : CaseTable Value).

Definition case_named c : bool := nonempty (rc_id c) && nonempty (rc_assertion c).

Lemma case_fold_diagnostics l t :
  case_diagnostics (foldl case_step t l) = ∅ ↔
  case_diagnostics t = ∅ ∧ NoDup (rc_id <$> l) ∧
  (∀ c, c ∈ l → case_named c = true ∧ cases t !! rc_id c = None).
Proof.
  revert t. induction l as [|c l IH]; intros t; simpl.
  { split; [intros ->|by intros [? _]]. split; [done|]. split; [apply NoDup_nil_2|].
    by intros c ?%elem_of_nil. }
  rewrite IH. simpl. rewrite !empty_union_L, !unless_empty, negb_true_iff, bool_decide_eq_false.
  rewrite NoDup_cons, list_elem_of_fmap. fold (case_named c).
  rewrite <- eq_None_not_Some. setoid_rewrite elem_of_cons. split.
  - intros ([[Hd Hn] Hfresh] & Hnd & Hl). split; [done|]. split; [split; [|done]|].
    + intros (c' & Heq & Hin). destruct (Hl c' Hin) as [_ Hlk]. by rewrite Heq, lookup_insert_eq in Hlk.
    + intros c' [->|Hin]; [done|]. destruct (Hl c' Hin) as [? Hlk]. split; [done|].
      destruct (decide (rc_id c = rc_id c')) as [Heq|Hne]; [by rewrite Heq, lookup_insert_eq in Hlk|].
      by rewrite lookup_insert_ne in Hlk.
  - intros (Hd & [Hni Hnd] & Hl). destruct (Hl c (or_introl eq_refl)) as [Hn Hf].
    split; [done|]. split; [done|]. intros c' Hin. destruct (Hl c' (or_intror Hin)) as [? Hlk].
    split; [done|]. rewrite lookup_insert_ne; [done|]. intros Heq. apply Hni. eauto.
Qed.

Lemma case_fold_dom l t :
  dom (cases (foldl case_step t l)) = dom (cases t) ∪ list_to_set (rc_id <$> l).
Proof.
  revert t. induction l as [|c l IH]; intros t; simpl; [set_solver|].
  rewrite IH. simpl. rewrite dom_insert_L. set_solver.
Qed.

Lemma case_fold_lookup l t id c :
  cases (foldl case_step t l) !! id = Some c →
  cases t !! id = Some c ∨ (c ∈ l ∧ rc_id c = id).
Proof.
  revert t. induction l as [|c' l IH]; intros t; simpl; [by left|].
  intros [Hlk|[Hin Hid]]%IH; [|set_solver]. simpl in Hlk.
  apply lookup_insert_Some in Hlk as [[<- <-]|[_ Hlk]]; [|by left]. set_solver.
Qed.

Lemma case_fold_ambiguous l t :
  case_diagnostics (foldl case_step t l) = ∅ → ambiguous (foldl case_step t l) = ambiguous t.
Proof.
  revert t. induction l as [|c l IH]; intros t; simpl; [done|]. intros Hd.
  rewrite IH by done. apply case_fold_diagnostics in Hd as (Hd & _). simpl in *.
  rewrite !empty_union_L, !unless_empty, negb_true_iff in Hd. destruct Hd as [[_ Hn] Hr].
  rewrite Hn, Hr. set_solver.
Qed.

(** An adequate contract is its own table. *)
Lemma case_table_lookup l id c :
  case_diagnostics (case_table l) = ∅ →
  cases (case_table l) !! id = Some c ↔ c ∈ l ∧ rc_id c = id.
Proof.
  intros Hd. split.
  - intros Hlk. apply case_fold_lookup in Hlk as [Hlk|?]; [|done]. by simpl in Hlk; rewrite lookup_empty in Hlk.
  - intros [Hin <-]. pose proof (case_fold_dom l (mkTable ∅ ∅ ∅)) as Hdom. fold (case_table l) in Hdom.
    assert (rc_id c ∈ dom (cases (case_table l))) as [c' Hlk]%elem_of_dom.
    { rewrite Hdom. apply elem_of_union_r, elem_of_list_to_set, list_elem_of_fmap. eauto. }
    rewrite Hlk. f_equal. apply case_fold_lookup in Hlk as [Hlk|[Hin' Hid]];
      [by simpl in Hlk; rewrite lookup_empty in Hlk|].
    apply case_fold_diagnostics in Hd as (_ & Hnd & _).
    by apply (NoDup_fmap_inj rc_id l).
Qed.

(** An observation that exercises its case. *)
Definition counts t (bound : bool) (report : TestReport Value) o c : Prop :=
  bound = true ∧ cases t !! ob_case o = Some c ∧ rc_assertion c = ob_assertion o ∧
  observation_verified report o = true ∧ (ob_case o ∉ ambiguous t).

Lemma observation_step_counts t bound report x o c :
  counts t bound report o c →
  let x' := observation_step t bound report x o in
  exercised x' = {[ ob_case o ]} ∪ exercised x ∧
  counterexamples x' = (if bool_decide (ob_actual o = rc_expected c) then counterexamples x
    else counterexamples x ++ [mkCounterexample (ob_case o) (ob_witness o) (rc_expected c) (ob_actual o)]).
Proof.
  intros (-> & Hc & Ha & Hv & Hn). unfold observation_step.
  rewrite Hc, Hv. rewrite (bool_decide_true (_ = _)) by done. by rewrite (bool_decide_false (_ ∈ _)).
Qed.

Lemma observation_step_skips t bound report x o :
  (∀ c, ¬ counts t bound report o c) →
  let x' := observation_step t bound report x o in
  exercised x' = exercised x ∧ counterexamples x' = counterexamples x.
Proof.
  intros Hn. unfold observation_step. destruct (cases t !! ob_case o) as [c|] eqn:Hc; [|done].
  case_match eqn:Hb; [|done]. exfalso. apply (Hn c). reflect_bool.
  by repeat split.
Qed.

Lemma counts_dec t bound report o : (∃ c, counts t bound report o c) ∨ (∀ c, ¬ counts t bound report o c).
Proof.
  unfold counts. destruct bound; [|right; naive_solver].
  destruct (cases t !! ob_case o) as [c|]; [|right; naive_solver].
  destruct (decide (rc_assertion c = ob_assertion o)); [|right; naive_solver].
  destruct (observation_verified report o); [|right; naive_solver].
  destruct (decide (ob_case o ∈ ambiguous t)); [right; naive_solver|left; eauto 10].
Qed.

Lemma observation_fold_exercised t bound report l x id :
  id ∈ exercised (foldl (observation_step t bound report) x l) ↔
  id ∈ exercised x ∨ ∃ o c, o ∈ l ∧ ob_case o = id ∧ counts t bound report o c.
Proof.
  revert x. induction l as [|o l IH]; intros x; simpl.
  { split; [by left|]. intros [?|(? & ? & ?%elem_of_nil & _)]; done. }
  rewrite IH. destruct (counts_dec t bound report o) as [[c Hc]|Hn].
  - destruct (observation_step_counts t bound report x o c Hc) as [-> _].
    rewrite elem_of_union, elem_of_singleton. setoid_rewrite elem_of_cons. split.
    + intros [[->|?]|(o' & c' & ? & ? & ?)]; [right; eauto 10|by left|right; eauto 10].
    + intros [?|(o' & c' & [->|?] & <- & ?)]; [by left; right|by left; left|right; eauto 10].
  - destruct (observation_step_skips t bound report x o Hn) as [-> _].
    setoid_rewrite elem_of_cons. split.
    + intros [?|(o' & c' & ? & ? & ?)]; [by left|right; eauto 10].
    + intros [?|(o' & c' & [->|?] & ? & Hc)]; [by left|by destruct (Hn _ Hc)|right; eauto 10].
Qed.

Lemma observation_fold_counterexamples t bound report l x cx :
  cx ∈ counterexamples (foldl (observation_step t bound report) x l) ↔
  cx ∈ counterexamples x ∨ ∃ o c, o ∈ l ∧ counts t bound report o c ∧ ob_actual o ≠ rc_expected c ∧
    cx = mkCounterexample (ob_case o) (ob_witness o) (rc_expected c) (ob_actual o).
Proof.
  revert x. induction l as [|o l IH]; intros x; simpl.
  { split; [by left|]. intros [?|(? & ? & ?%elem_of_nil & _)]; done. }
  rewrite IH. setoid_rewrite elem_of_cons. destruct (counts_dec t bound report o) as [[c Hc]|Hn].
  - destruct (observation_step_counts t bound report x o c Hc) as [_ ->].
    assert (∀ c', counts t bound report o c' → c' = c) as Huniq
      by (intros c' (_ & H1 & _); destruct Hc as (_ & H2 & _); congruence).
    case_bool_decide as Heq.
    + split; [intros [?|(o' & c' & ? & ? & ? & ?)]; [by left|right; eauto 10]|].
      intros [?|(o' & c' & [->|?] & Hc' & Hne & ->)]; [by left|by rewrite (Huniq _ Hc') in Hne|right; eauto 10].
    + rewrite elem_of_app, list_elem_of_singleton. split.
      * intros [[?| ->]|(o' & c' & ? & ? & ? & ?)]; [by left|right; eauto 10|right; eauto 10].
      * intros [?|(o' & c' & [->|?] & Hc' & Hne & ->)]; [by left; left| |right; eauto 10].
        left; right. by rewrite (Huniq _ Hc').
  - destruct (observation_step_skips t bound report x o Hn) as [_ ->]. split.
    + intros [?|(o' & c' & ? & ? & ? & ?)]; [by left|right; eauto 10].
    + intros [?|(o' & c' & [->|?] & Hc & ? & ?)]; [by left|by destruct (Hn _ Hc)|right; eauto 10].
Qed.

Lemma observation_fold_diagnostics t bound report l x :
  exercise_diagnostics (foldl (observation_step t bound report) x l) = ∅ ↔
  exercise_diagnostics x = ∅ ∧ NoDup (ob_case <$> l) ∧
  (∀ o, o ∈ l → (ob_case o ∉ seen x) ∧ ∃ c, cases t !! ob_case o = Some c ∧
     rc_assertion c = ob_assertion o ∧ observation_verified report o = true).
Proof.
  revert x. induction l as [|o l IH]; intros x; simpl.
  { split; [intros ->|by intros [? _]]. split; [done|]. split; [apply NoDup_nil_2|].
    by intros o ?%elem_of_nil. }
  assert (seen (observation_step t bound report x o) = {[ ob_case o ]} ∪ seen x) as Hseen
    by (unfold observation_step; repeat case_match; done).
  assert (exercise_diagnostics (observation_step t bound report x o) = ∅ ↔
    exercise_diagnostics x = ∅ ∧ (ob_case o ∉ seen x) ∧ ∃ c, cases t !! ob_case o = Some c ∧
      rc_assertion c = ob_assertion o ∧ observation_verified report o = true) as Hstep.
  { unfold observation_step. destruct (cases t !! ob_case o) as [c|] eqn:Hc.
    - case_match; simpl; rewrite !empty_union_L, !unless_empty, negb_true_iff, bool_decide_eq_false,
        bool_decide_eq_true; naive_solver.
    - simpl. rewrite empty_union_L. split; [|naive_solver]. intros [_ Hx]. set_solver. }
  rewrite IH, Hstep, Hseen, NoDup_cons, list_elem_of_fmap. setoid_rewrite elem_of_cons. split.
  - intros ((Hd & Hs & Hc) & Hnd & Hl). split; [done|]. split.
    + split; [|done]. intros (o' & Heq & Hin). destruct (Hl o' Hin) as [Hns _]. set_solver.
    + intros o' [->|Hin]; [done|]. destruct (Hl o' Hin) as [Hns ?]. split; [set_solver|done].
  - intros (Hd & [Hni Hnd] & Hl). split; [split; [done|]; by apply Hl; left|]. split; [done|].
    intros o' Hin. destruct (Hl o' (or_intror Hin)) as [Hns ?]. split; [|done].
    rewrite elem_of_union, elem_of_singleton. intros [Heq|?]; [|done]. apply Hni. eauto.
Qed.

End report_lemmas.

(** ** Theorems *)

(** When a report supports its requirement: the two subjects are one well-formed
    subject, the run is authenticated, complete and successful, the contract names each
    of its cases once, and the observations are those cases, each exercised once under
    the right assertion with the expected value. *)
Definition adequate `{ReportVerifier Value} (contract : ReportContract Value)
    (report : TestReport Value) : Prop :=
  ct_subject contract = tr_subject report ∧ valid_subject (ct_subject contract) = true ∧
  is_Some (tr_provenance report) ∧ verify_report_binding report = true ∧
  tr_completion report = Complete ∧ tr_termination report = Success ∧
  ct_cases contract ≠ [] ∧ NoDup (rc_id <$> ct_cases contract) ∧
  (∀ c, c ∈ ct_cases contract → case_named c = true) ∧
  ob_case <$> tr_observations report ≡ₚ rc_id <$> ct_cases contract ∧
  (∀ o c, o ∈ tr_observations report → c ∈ ct_cases contract → rc_id c = ob_case o →
     rc_assertion c = ob_assertion o ∧ ob_actual o = rc_expected c ∧
     nonempty (ob_witness o) = true ∧ verify_assertion_exercise report o = true).

(** The binding of a report, as one test. *)
Definition bound_to `{ReportVerifier Value} (contract : ReportContract Value) (report : TestReport Value)
    : bool :=
  valid_subject (ct_subject contract) && valid_subject (tr_subject report)
  && bool_decide (es_requirement (ct_subject contract) = es_requirement (tr_subject report))
  && bool_decide (es_method (ct_subject contract) = es_method (tr_subject report))
  && bool_decide (es_artifact (ct_subject contract) = es_artifact (tr_subject report))
  && bool_decide (is_Some (tr_provenance report)) && verify_report_binding report.

Lemma bound_to_true `{ReportVerifier Value} contract report :
  bound_to contract report = true ↔
  ct_subject contract = tr_subject report ∧ valid_subject (ct_subject contract) = true ∧
  is_Some (tr_provenance report) ∧ verify_report_binding report = true.
Proof.
  unfold bound_to. rewrite !andb_true_iff, !bool_decide_eq_true.
  destruct (ct_subject contract), (tr_subject report); simpl.
  split; [naive_solver|]. intros ([= -> -> ->] & ? & ? & ?). by repeat split.
Qed.

Lemma report_diagnostics_empty `{EqDecision Value, ReportVerifier Value} contract report :
  let t := case_table (ct_cases contract) in
  let x := exercise t (bound_to contract report) report in
  tj_diagnostics (evaluate_report contract report) = ∅ ↔
  bound_to contract report = true ∧ ct_cases contract ≠ [] ∧ case_diagnostics t = ∅ ∧
  tr_completion report = Complete ∧ exercise_diagnostics x = ∅ ∧ dom (cases t) ⊆ exercised x ∧
  termination_consistent (tr_termination report) (bool_decide (length (counterexamples x) = 0)) = true.
Proof.
  intros t x. unfold evaluate_report. cbn [tj_diagnostics].
  fold (bound_to contract report) t x.
  rewrite !empty_union_L, !unless_empty, negb_true_iff, bool_decide_eq_false.
  assert (completion_diagnostics (tr_completion report) = ∅ ↔ tr_completion report = Complete) as ->
    by (destruct (tr_completion report); simpl; set_solver).
  assert (set_map (D := gset EvidenceDiagnostic) MissingCase (dom (cases t) ∖ exercised x) = ∅
          ↔ dom (cases t) ⊆ exercised x) as -> by apply set_map_difference_empty.
  assert (length (ct_cases contract) ≠ 0 ↔ ct_cases contract ≠ []) as ->
    by (destruct (ct_cases contract); simpl; split; congruence).
  unfold bound_to at 1. rewrite !andb_true_iff. tauto.
Qed.

(** A report passes exactly when it is adequate: no malformed, foreign, truncated,
    partial, repeated, unverified or failing observation, no missing case and no
    inconsistent termination is ever judged a pass, and an adequate report always is. *)
Theorem report_passes_iff `{EqDecision Value, ReportVerifier Value} contract report :
  tj_outcome (evaluate_report contract report) = Pass ↔ adequate contract report.
Proof.
  pose proof (report_diagnostics_empty contract report) as Hdiag. cbv zeta in Hdiag.
  set (t := case_table (ct_cases contract)) in *.
  set (x := exercise t (bound_to contract report) report) in *.
  assert (tj_outcome (evaluate_report contract report) = Pass ↔
    tj_diagnostics (evaluate_report contract report) = ∅ ∧ counterexamples x = []) as ->.
  { rewrite <- length_zero_nil, bool_decide_eq_true. unfold evaluate_report at 1. cbn [tj_outcome].
    change (bool_decide (_ = ∅)) with
      (bool_decide (tj_diagnostics (evaluate_report contract report) = ∅)).
    fold (bound_to contract report) t x.
    repeat case_bool_decide; simpl; naive_solver. }
  rewrite Hdiag. unfold adequate. split.
  - intros [(Hb & Hne & Hcd & Hcomp & Hxd & Hall & Hterm) Hcx].
    pose proof Hcd as (_ & Hnd & Hnamed)%case_fold_diagnostics.
    pose proof Hxd as (_ & Hond & Hobs)%observation_fold_diagnostics.
    pose proof Hb as (Hs & Hv & Hp & Hver)%bound_to_true.
    split_and!; try done.
    + rewrite Hcx in Hterm. by destruct (tr_termination report).
    + intros c Hc. by apply Hnamed.
    + apply NoDup_Permutation; [done..|]. intros id. rewrite !list_elem_of_fmap. split.
      * intros (o & -> & Ho). destruct (Hobs o Ho) as (_ & c & Hc & _).
        apply case_table_lookup in Hc as [Hc <-]; [eauto|done].
      * intros (c & -> & Hc). assert (rc_id c ∈ dom (cases t)) as Hd.
        { apply elem_of_dom. exists c. by apply case_table_lookup. }
        apply Hall, observation_fold_exercised in Hd as [?%not_elem_of_empty|(o & c' & Ho & <- & _)];
          [done|eauto].
    + intros o c Ho Hc Hid. destruct (Hobs o Ho) as (_ & c' & Hc' & Ha & Hver').
      assert (c' = c) as ->.
      { apply case_table_lookup in Hc' as [Hin' Hid']; [|done].
        apply (NoDup_fmap_inj rc_id (ct_cases contract)); [done..|congruence]. }
      split; [done|]. split.
      * destruct (decide (ob_actual o = rc_expected c)); [done|]. exfalso.
        eapply not_elem_of_nil. rewrite <- Hcx. apply observation_fold_counterexamples. right.
        exists o, c. split; [done|]. split; [|by split]. split_and!; try done.
        unfold t, case_table. rewrite case_fold_ambiguous by done. set_solver.
      * unfold observation_verified in Hver'. by apply andb_true_iff in Hver'.
  - intros (Hs & Hv & Hp & Hver & Hcomp & Hterm & Hne & Hnd & Hnamed & Hperm & Hall).
    assert (bound_to contract report = true) as Hb by (by apply bound_to_true).
    assert (case_diagnostics t = ∅) as Hcd.
    { apply case_fold_diagnostics. split; [done|]. split; [done|].
      intros c Hc. split; [by apply Hnamed|done]. }
    assert (∀ o, o ∈ tr_observations report → ∃ c, cases t !! ob_case o = Some c ∧
      rc_assertion c = ob_assertion o ∧ observation_verified report o = true ∧ ob_actual o = rc_expected c)
      as Hobs.
    { intros o Ho. assert (ob_case o ∈ rc_id <$> ct_cases contract) as (c & Hid & Hc)%list_elem_of_fmap.
      { rewrite <- Hperm. apply list_elem_of_fmap. eauto. }
      destruct (Hall o c Ho Hc (eq_sym Hid)) as (? & ? & Hw & He).
      exists c. split; [by apply case_table_lookup|]. unfold observation_verified. by rewrite Hw, He. }
    assert (counterexamples x = []) as Hcx.
    { apply elem_of_nil_inv. intros cx [?%elem_of_nil|(o & c & Ho & (_ & Hc & _) & Hneq & _)]%
        observation_fold_counterexamples; [done|].
      destruct (Hobs o Ho) as (c' & Hc' & _ & _ & Heq). congruence. }
    split; [|done]. split_and!; try done.
    + apply observation_fold_diagnostics. split; [done|]. split; [by rewrite Hperm|].
      intros o Ho. split; [set_solver|]. destruct (Hobs o Ho) as (c & ? & ? & ? & _). eauto.
    + intros id Hid. apply observation_fold_exercised. right.
      unfold t, case_table in Hid. rewrite case_fold_dom in Hid.
      assert (id ∈ ob_case <$> tr_observations report) as (o & -> & Ho)%list_elem_of_fmap.
      { rewrite Hperm. set_solver. }
      destruct (Hobs o Ho) as (c & Hc & Ha & Hver' & _). exists o, c. do 2 (split; [done|]).
      split_and!; try done. unfold t, case_table. rewrite case_fold_ambiguous by done. set_solver.
    + by rewrite Hterm, Hcx.
Qed.

(** A verifier that authenticates everything, and an adequate report, for the
    examples. *)
Definition trusting : ReportVerifier string :=
  {| verify_report_binding _ := true; verify_assertion_exercise _ _ := true |}.
Definition example_version (n : string) : EvidenceVersion := mkVersion n "1" "sha".
Definition example_subject : EvidenceSubject :=
  mkSubject (example_version "req") (example_version "pytest") "artifact".
Definition example_contract : ReportContract string :=
  mkContract example_subject [mkCase "a" "adds" "4"; mkCase "b" "subtracts" "2"].
Definition example_report (b_actual : string) (termination : ProcessTermination) : TestReport string :=
  mkReport example_subject (Some (Interpreted "f" "py" "env")) Complete termination
    [mkObservation "b" "subtracts" b_actual "w2"; mkObservation "a" "adds" "4" "w1"].

Example adequate_report_passes :
  tj_outcome (evaluate_report (H := trusting) example_contract (example_report "2" Success)) = Pass.
Proof. vm_compute. reflexivity. Qed.

(** A counterexample is genuine and never lost: a judgment lists one exactly for an
    observation of a bound report that was verified under the assertion of an
    unambiguous case and differs from its expected value, whatever else of the report
    is missing, truncated or malformed. *)
Theorem counterexamples_exact `{EqDecision Value, ReportVerifier Value} contract report cx :
  cx ∈ tj_counterexamples (evaluate_report contract report) ↔
  bound_to contract report = true ∧
  ∃ o c, o ∈ tr_observations report ∧ cases (case_table (ct_cases contract)) !! ob_case o = Some c ∧
    (ob_case o ∉ ambiguous (case_table (ct_cases contract))) ∧
    rc_assertion c = ob_assertion o ∧ nonempty (ob_witness o) = true ∧
    verify_assertion_exercise report o = true ∧ ob_actual o ≠ rc_expected c ∧
    cx = mkCounterexample (ob_case o) (ob_witness o) (rc_expected c) (ob_actual o).
Proof.
  unfold evaluate_report. cbn [tj_counterexamples]. fold (bound_to contract report).
  unfold exercise. rewrite observation_fold_counterexamples. simpl. unfold counts, observation_verified.
  setoid_rewrite andb_true_iff. split.
  - intros [?%elem_of_nil|(o & c & Ho & (Hb & Hc & Ha & [Hw Hv] & Hamb) & Hne & ->)]; [done|].
    split; [done|]. exists o, c. by repeat (split; [done|]).
  - intros (Hb & o & c & Ho & Hc & Hamb & Ha & Hw & Hv & Hne & ->). right. exists o, c.
    split; [done|]. split; [|done]. by repeat (split; [done|]).
Qed.

(** A bounded proof is exact: it is established precisely when every premise talks
    about listed interpretations only, some interpretation satisfies all premises, and
    each one that does makes the proposition true. *)
Theorem finite_proof_exact proposition premises :
  let j := evaluate_finite_proof proposition premises in
  (∀ w, w ∈ admitted_interpretations j ↔
     w ∈ dom proposition ∧ ∀ premise, premise ∈ premises → w ∈ premise) ∧
  (established j = true ↔
     (∀ premise, premise ∈ premises → premise ⊆ dom proposition) ∧
     (∃ w, w ∈ admitted_interpretations j) ∧
     ∀ w, w ∈ admitted_interpretations j → proposition !! w = Some true).
Proof.
  unfold evaluate_finite_proof.
  assert (∀ A U, let '(A', U') := foldl (λ '(admitted, unknown) premise,
      (admitted ∩ premise, unknown ∪ (premise ∖ dom proposition))) (A, U) premises in
    (∀ w, w ∈ A' ↔ w ∈ A ∧ ∀ premise, premise ∈ premises → w ∈ premise) ∧
    (U' = ∅ ↔ U = ∅ ∧ ∀ premise, premise ∈ premises → premise ⊆ dom proposition)) as Hfold.
  { induction premises as [|p l IH]; intros A U; simpl.
    { split; [set_solver|]. split; [intros ->; set_solver|by intros [? _]]. }
    specialize (IH (A ∩ p) (U ∪ (p ∖ dom proposition))).
    destruct (foldl _ _ l) as [A' U']. destruct IH as [HA HU]. setoid_rewrite elem_of_cons. split.
    - intros w. rewrite HA, elem_of_intersection. set_solver.
    - rewrite HU, empty_union_L, difference_empty_iff. split.
      + intros [[HU0 Hp] Hl]. split; [done|]. intros q [->|Hq]; [done|by apply Hl].
      + intros [HU0 Hl]. split; [split; [done|by apply Hl; left]|]. intros q Hq. apply Hl. by right. }
  specialize (Hfold (dom proposition) ∅). destruct (foldl _ _ premises) as [A U].
  destruct Hfold as [HA HU]. simpl. split; [done|].
  rewrite !andb_true_iff, negb_true_iff, bool_decide_eq_false, !bool_decide_eq_true, HU.
  assert (filter (λ w, proposition !! w = Some false) A = ∅ ↔ ∀ w, w ∈ A → proposition !! w = Some true)
    as ->.
  { split.
    - intros He w Hw. destruct (proposition !! w) as [[]|] eqn:Hp; [done| |].
      + exfalso. apply (not_elem_of_empty (C := gset string) w). rewrite <- He.
        by apply elem_of_filter.
      + apply HA in Hw as [Hw _]. by apply elem_of_dom in Hw as [? ?]; congruence.
    - intros Ht. apply set_eq. intros w. rewrite elem_of_filter. split; [|set_solver].
      intros [Hf Hw%Ht]. congruence. }
  assert (A ≠ ∅ ↔ ∃ w, w ∈ A) as ->; [|tauto]. split; [apply set_choose_L|set_solver].
Qed.
