(* ===== verification/NormPreservation.v ===== *)
(** Deterministic preservation of a judgment from one artifact to another
    (core/norm_preservation.rs): a witness of observations at both artifacts is
    compared under an independently verified basis. *)
From S2P Require Import Prelude RustStr NormEvidence.

(** ** Data *)

Record PreservationContext := mkPContext {
  pc_requirement : EvidenceVersion;
  pc_method : EvidenceVersion;
  pc_policy : EvidenceVersion;
  pc_source_artifact : string;
  pc_target_artifact : string;
  pc_boundary : EvidenceVersion;
}.

Inductive ObservationAspect := Content | Metadata | Presence | Membership.

Record ObservationKey := mkKey { ok_resource : string; ok_aspect : ObservationAspect }.

Inductive ObservationValue := Absent | Present (digest : string).

Record DependencyObservation := mkDependencyObservation {
  do_key : ObservationKey;
  do_value : ObservationValue;
}.

Inductive PreservationBasis := CompleteExact | EnforcedCeiling | PartialTrace | UnknownBasis.
Inductive PreservationMode := Deterministic | Sampled | UnknownMode.

Record PreservationWitness := mkWitness {
  pw_id : string;
  pw_context : PreservationContext;
  pw_basis : PreservationBasis;
  pw_mode : PreservationMode;
  pw_source : list DependencyObservation;
  pw_target : list DependencyObservation;
  pw_gaps : gset string;
}.

Class PreservationVerifier := verify_preservation_basis : PreservationWitness → bool.

Inductive PreservationDiagnostic :=
| PInvalidIdentity
| ContextMismatch
| UnverifiedBasis
| IncompleteBasis
| Nondeterministic
| Gap (gap : string)
| InvalidObservation (key : ObservationKey)
| DuplicateSource (key : ObservationKey)
| DuplicateTarget (key : ObservationKey)
| MissingTarget (key : ObservationKey)
| UnexpectedTarget (key : ObservationKey)
| Changed (key : ObservationKey).

#[export] Instance pcontext_eq_dec : EqDecision PreservationContext.
Proof. solve_decision. Defined.
#[export] Instance aspect_eq_dec : EqDecision ObservationAspect.
Proof. solve_decision. Defined.
#[export] Instance observation_key_eq_dec : EqDecision ObservationKey.
Proof. solve_decision. Defined.
#[export] Instance observation_value_eq_dec : EqDecision ObservationValue.
Proof. solve_decision. Defined.
#[export] Instance dependency_observation_eq_dec : EqDecision DependencyObservation.
Proof. solve_decision. Defined.
#[export] Instance preservation_mode_eq_dec : EqDecision PreservationMode.
Proof. solve_decision. Defined.
#[export] Instance preservation_diagnostic_eq_dec : EqDecision PreservationDiagnostic.
Proof. solve_decision. Defined.

#[export] Instance aspect_countable : Countable ObservationAspect :=
  inj_countable (λ a, match a with Content => 0 | Metadata => 1 | Presence => 2 | Membership => 3 end)
    (λ n, match n with 0 => Some Content | 1 => Some Metadata | 2 => Some Presence | 3 => Some Membership
          | _ => None end) ltac:(by intros []).
#[export] Instance observation_key_countable : Countable ObservationKey :=
  inj_countable (λ k, (ok_resource k, ok_aspect k)) (λ p, Some (mkKey p.1 p.2)) ltac:(by intros []).
#[export] Instance preservation_diagnostic_countable : Countable PreservationDiagnostic :=
  inj_countable
    (λ d, match d with
     | PInvalidIdentity => (0, inl ""%string) | ContextMismatch => (1, inl ""%string)
     | UnverifiedBasis => (2, inl ""%string) | IncompleteBasis => (3, inl ""%string)
     | Nondeterministic => (4, inl ""%string) | Gap g => (5, inl g)
     | InvalidObservation k => (6, inr k) | DuplicateSource k => (7, inr k)
     | DuplicateTarget k => (8, inr k) | MissingTarget k => (9, inr k)
     | UnexpectedTarget k => (10, inr k) | Changed k => (11, inr k)
     end)
    (λ p, match p with
     | (0, inl _) => Some PInvalidIdentity | (1, inl _) => Some ContextMismatch
     | (2, inl _) => Some UnverifiedBasis | (3, inl _) => Some IncompleteBasis
     | (4, inl _) => Some Nondeterministic | (5, inl g) => Some (Gap g)
     | (6, inr k) => Some (InvalidObservation k) | (7, inr k) => Some (DuplicateSource k)
     | (8, inr k) => Some (DuplicateTarget k) | (9, inr k) => Some (MissingTarget k)
     | (10, inr k) => Some (UnexpectedTarget k) | (11, inr k) => Some (Changed k)
     | _ => None
     end) ltac:(by intros []).

Record PreservationJudgment := mkPJudgment {
  pj_context : PreservationContext;
  pj_witness : string;
  preserved : bool;
  pj_diagnostics : gset PreservationDiagnostic;
}.

(** ** Definitions *)

Definition named_version (v : EvidenceVersion) : bool :=
  nonempty (ev_name v) && nonempty (ev_version v) && nonempty (ev_digest v).

Definition valid_context (c : PreservationContext) : bool :=
  named_version (pc_requirement c) && named_version (pc_method c) && named_version (pc_policy c)
  && named_version (pc_boundary c) && nonempty (pc_source_artifact c) && nonempty (pc_target_artifact c).

Definition observation_valid (o : DependencyObservation) : bool :=
  nonempty (ok_resource (do_key o))
  && match do_value o with Present digest => nonempty digest | Absent => true end.

(** The loop of [observations]: the map of the last values, and the diagnostics. *)
Definition observe (source : bool)
    (acc : gmap ObservationKey ObservationValue * gset PreservationDiagnostic)
    (o : DependencyObservation) : gmap ObservationKey ObservationValue * gset PreservationDiagnostic :=
  let '(m, diagnostics) := acc in
  (<[ do_key o := do_value o ]> m,
   diagnostics ∪ unless (observation_valid o) (InvalidObservation (do_key o))
     ∪ unless (bool_decide (m !! do_key o = None))
         (if source then DuplicateSource (do_key o) else DuplicateTarget (do_key o))).

Definition observations (items : list DependencyObservation) (source : bool)
    : gmap ObservationKey ObservationValue * gset PreservationDiagnostic :=
  foldl (observe source) (∅, ∅) items.

Definition evaluate_preservation `{PreservationVerifier} (expected : PreservationContext)
    (w : PreservationWitness) : PreservationJudgment :=
  let '(source, source_diagnostics) := observations (pw_source w) true in
  let '(target, target_diagnostics) := observations (pw_target w) false in
  let compared := set_fold (λ key acc, acc ∪
      match target !! key with
      | None => {[ MissingTarget key ]}
      | Some current => unless (bool_decide (source !! key = Some current)) (Changed key)
      end) ∅ (dom source) in
  let unexpected := set_map UnexpectedTarget (dom target ∖ dom source) in
  let diagnostics :=
    unless (valid_context expected && valid_context (pw_context w) && nonempty (pw_id w)) PInvalidIdentity
    ∪ unless (bool_decide (pw_context w = expected)) ContextMismatch
    ∪ unless (verify_preservation_basis w) UnverifiedBasis
    ∪ unless (match pw_basis w with CompleteExact | EnforcedCeiling => true | _ => false end) IncompleteBasis
    ∪ unless (bool_decide (pw_mode w = Deterministic)) Nondeterministic
    ∪ set_map Gap (pw_gaps w)
    ∪ source_diagnostics ∪ target_diagnostics ∪ compared ∪ unexpected in
  mkPJudgment expected (pw_id w) (bool_decide (diagnostics = ∅)) diagnostics.

(** ** Lemmas *)

Lemma observe_fold items source m D :
  let '(m', D') := foldl (observe source) (m, D) items in
  (D' = ∅ ↔ D = ∅ ∧ NoDup (do_key <$> items) ∧
     ∀ o, o ∈ items → observation_valid o = true ∧ m !! do_key o = None) ∧
  (D' = ∅ → ∀ k v, m' !! k = Some v ↔ m !! k = Some v ∨ mkDependencyObservation k v ∈ items).
Proof.
  revert m D. induction items as [|o items IH]; intros m D; simpl.
  { split; [|intros _ k v; rewrite elem_of_nil; tauto].
    split; [intros ->|by intros [? _]]. split; [done|]. split; [apply NoDup_nil_2|].
    by intros o ?%elem_of_nil. }
  specialize (IH (<[ do_key o := do_value o ]> m)
    (D ∪ unless (observation_valid o) (InvalidObservation (do_key o))
       ∪ unless (bool_decide (m !! do_key o = None))
           (if source then DuplicateSource (do_key o) else DuplicateTarget (do_key o)))).
  destruct (foldl (observe source) _ items) as [m' D']. destruct IH as [HD Hm].
  rewrite !empty_union_L, !unless_empty, bool_decide_eq_true in HD.
  assert (D' = ∅ ↔ D = ∅ ∧ NoDup (do_key <$> o :: items) ∧
    ∀ o', o' ∈ o :: items → observation_valid o' = true ∧ m !! do_key o' = None) as HD'.
  { rewrite HD, fmap_cons, NoDup_cons, list_elem_of_fmap. setoid_rewrite elem_of_cons. split.
    - intros ([[? Hv] Hf] & Hnd & Hl). split; [done|]. split; [split; [|done]|].
      + intros (o' & Heq & Hin). destruct (Hl o' Hin) as [_ Hlk]. by rewrite Heq, lookup_insert_eq in Hlk.
      + intros o' [->|Hin]; [done|]. destruct (Hl o' Hin) as [? Hlk]. split; [done|].
        by apply lookup_insert_None in Hlk as [? _].
    - intros (? & [Hni Hnd] & Hl). destruct (Hl o (or_introl eq_refl)) as [Hv Hf].
      split; [done|]. split; [done|]. intros o' Hin. destruct (Hl o' (or_intror Hin)) as [? Hlk].
      split; [done|]. apply lookup_insert_None. split; [done|]. intros Heq. apply Hni. eauto. }
  split; [done|]. intros He k v. rewrite (Hm He), elem_of_cons.
  apply HD' in He as (_ & _ & Hl). destruct (Hl o ltac:(by left)) as [_ Hf].
  rewrite lookup_insert_Some. split.
  - intros [[[<- <-]|[_ ?]]|?]; [right; left; by destruct o|by left|by right; right].
  - intros [Hk|[<-|?]]; [|by left; left|by right].
    left; right. split; [|done]. intros <-. congruence.
Qed.

Lemma set_fold_union_empty {A B} `{Countable A, Countable B} (f : A → gset B) (X : gset A) :
  set_fold (λ k acc, acc ∪ f k) ∅ X = ∅ ↔ ∀ k, k ∈ X → f k = ∅.
Proof.
  unfold set_fold. simpl. setoid_rewrite <- elem_of_elements.
  induction (elements X) as [|k l IH]; simpl; [set_solver|].
  rewrite empty_union_L, IH. setoid_rewrite elem_of_cons. naive_solver.
Qed.

Lemma set_map_empty_iff {A B} `{Countable A, Countable B} (f : A → B) (X : gset A) :
  set_map (D := gset B) f X = ∅ ↔ X = ∅.
Proof.
  rewrite <- (difference_empty_L X) at 1. rewrite set_map_difference_empty. set_solver.
Qed.

(** The two comparing loops find nothing exactly when the maps are the same. *)
Lemma maps_agree (src tgt : gmap ObservationKey ObservationValue) :
  (∀ k v, tgt !! k = Some v ↔ src !! k = Some v) ↔
  (∀ k, k ∈ dom src → match tgt !! k with
     | None => {[ MissingTarget k ]}
     | Some current => unless (bool_decide (src !! k = Some current)) (Changed k)
     end = ∅) ∧ dom tgt ⊆ dom src.
Proof.
  split.
  - intros Heq. split.
    + intros k [v Hv]%elem_of_dom. rewrite (proj2 (Heq k v) Hv). by rewrite unless_empty, bool_decide_true.
    + intros k [v Hv]%elem_of_dom. apply elem_of_dom. exists v. by apply Heq.
  - intros [Hcmp Hun] k v. split; intros Hk.
    + assert (k ∈ dom src) as Hin by (apply Hun, elem_of_dom; eauto).
      specialize (Hcmp k Hin). rewrite Hk in Hcmp. by apply unless_empty, bool_decide_eq_true in Hcmp.
    + assert (k ∈ dom src) as Hin by (apply elem_of_dom; eauto).
      specialize (Hcmp k Hin). destruct (tgt !! k) as [c|]; [|set_solver].
      apply unless_empty, bool_decide_eq_true in Hcmp. congruence.
Qed.

(** ** Theorems *)

(** Preservation is equality of the observed dependencies: a witness preserves a
    judgment exactly when its context is the expected, well-formed one, its basis is
    complete and verified, it is deterministic and without gaps, its observations are
    well formed and name every key once, and the observations at the target artifact
    are, up to order, those at the source. *)
Theorem preserved_iff `{PreservationVerifier} expected w :
  preserved (evaluate_preservation expected w) = true ↔
  pw_context w = expected ∧ valid_context expected = true ∧ nonempty (pw_id w) = true ∧
  verify_preservation_basis w = true ∧ (pw_basis w = CompleteExact ∨ pw_basis w = EnforcedCeiling) ∧
  pw_mode w = Deterministic ∧ pw_gaps w = ∅ ∧
  NoDup (do_key <$> pw_source w) ∧ (∀ o, o ∈ pw_source w → observation_valid o = true) ∧
  pw_target w ≡ₚ pw_source w.
Proof.
  unfold evaluate_preservation, observations.
  pose proof (observe_fold (pw_source w) true ∅ ∅) as Hsrc.
  pose proof (observe_fold (pw_target w) false ∅ ∅) as Htgt.
  destruct (foldl _ _ (pw_source w)) as [src Ds]. destruct (foldl _ _ (pw_target w)) as [tgt Dt].
  destruct Hsrc as [HDs Hs], Htgt as [HDt Ht]. cbn [preserved].
  rewrite bool_decide_eq_true, !empty_union_L, !unless_empty, !andb_true_iff, !bool_decide_eq_true.
  rewrite set_fold_union_empty, set_map_empty_iff, set_map_difference_empty.
  assert (match pw_basis w with CompleteExact | EnforcedCeiling => true | _ => false end = true
          ↔ pw_basis w = CompleteExact ∨ pw_basis w = EnforcedCeiling) as ->
    by (destruct (pw_basis w); naive_solver).
  split.
  - intros (((((((((Hid & Hctx) & Hver) & Hbasis) & Hmode) & Hgaps) & HeDs) & HeDt) & Hcmp) & Hun).
    destruct Hid as [[Hve Hvc] Hpid]. pose proof HeDs as (_ & Hnds & Hvals)%HDs.
    pose proof HeDt as (_ & Hndt & _)%HDt.
    split_and!; try done; [intros o Ho; by apply Hvals|].
    apply NoDup_Permutation; [by eapply NoDup_fmap_1|by eapply NoDup_fmap_1|].
    assert (∀ k v, tgt !! k = Some v ↔ src !! k = Some v) as Hmaps by (by apply maps_agree).
    intros [k v]. specialize (Hs HeDs k v). specialize (Ht HeDt k v). specialize (Hmaps k v).
    rewrite lookup_empty in Hs, Ht. naive_solver.
  - intros (Hctx & Hve & Hpid & Hver & Hbasis & Hmode & Hgaps & Hnds & Hvals & Hperm).
    assert (Ds = ∅) as HeDs.
    { apply HDs. split; [done|]. split; [done|]. intros o Ho. split; [by apply Hvals|done]. }
    assert (Dt = ∅) as HeDt.
    { apply HDt. split; [done|]. split; [by rewrite Hperm|].
      intros o Ho. rewrite Hperm in Ho. split; [by apply Hvals|done]. }
    assert (∀ k v, tgt !! k = Some v ↔ src !! k = Some v) as Hmaps.
    { intros k v. rewrite (Hs HeDs), (Ht HeDt), !lookup_empty, Hperm. done. }
    apply maps_agree in Hmaps as [Hcmp Hun]. subst expected. by split_and!.
Qed.
