(* ===== verification/NormSelection.v ===== *)
(** Causal selection of test evidence (core/norm_selection.rs): the authenticated
    ancestors of a frontier, the judgments they carry, preservation acts that
    transport a judgment to the queried artifact, resolutions that retire evidence,
    and the conformance they leave.

    The host policy is the interface [SelectionVerifier].  The diagnostic of a rejected
    resolution keeps the four tests that its text prints. *)
From S2P Require Import Prelude RustStr NormEvidence NormPreservation.

(** ** Data *)

Record SelectionQuery := mkQuery {
  sq_requirement : EvidenceVersion;
  sq_artifact : string;
  sq_policy : EvidenceVersion;
  sq_time_basis : string;
  sq_frontier : gset string;
}.

Record EvidenceResolution := mkResolution {
  er_predecessor : string;
  er_replacement : string;
  er_requirement : EvidenceVersion;
  er_artifact : string;
  er_reason : string;
}.

Inductive SelectionPayload (Value : Type) :=
| PContext
| PObservation (contract : ReportContract Value) (report : TestReport Value)
| PResolution (resolution : EvidenceResolution)
| PPreservation (observation : string) (witness : PreservationWitness).
Arguments PContext {Value}.
Arguments PObservation {Value}.
Arguments PResolution {Value}.
Arguments PPreservation {Value}.

Record SelectionEvent (Value : Type) := mkEvent {
  se_id : string;
  se_parents : gset string;
  se_payload : SelectionPayload Value;
}.
Arguments mkEvent {Value}.
Arguments se_id {Value}.
Arguments se_parents {Value}.
Arguments se_payload {Value}.

Class SelectionVerifier (Value : Type) := {
  sv_report :: ReportVerifier Value;
  sv_preservation :: PreservationVerifier;
  verify_event : SelectionEvent Value → bool;
  accepts_contract : SelectionQuery → ReportContract Value → bool;
  authorize_resolution : SelectionQuery → SelectionEvent Value → bool;
  accepts_preservation : SelectionQuery → PreservationWitness → bool;
}.

Inductive Conformance := Satisfied | Violated | Conflicted | Stale | Unresolved.

Inductive ReuseDiagnostic :=
| UnknownObservation | UnsupportedObservation | WitnessIdentityMismatch
| MissingObservationAncestry | PolicyRejected.
#[export] Instance reuse_diagnostic_eq_dec : EqDecision ReuseDiagnostic.
Proof. solve_decision. Defined.
#[export] Instance reuse_diagnostic_countable : Countable ReuseDiagnostic :=
  inj_countable (λ d, match d with UnknownObservation => 0 | UnsupportedObservation => 1
      | WitnessIdentityMismatch => 2 | MissingObservationAncestry => 3 | PolicyRejected => 4 end)
    (λ n, match n with 0 => Some UnknownObservation | 1 => Some UnsupportedObservation
      | 2 => Some WitnessIdentityMismatch | 3 => Some MissingObservationAncestry
      | 4 => Some PolicyRejected | _ => None end) ltac:(by intros []).

Record ReuseEvaluation := mkReuse {
  ru_observation : string;
  ru_preservation : option PreservationJudgment;
  ru_diagnostics : gset ReuseDiagnostic;
  ru_applied : bool;
}.

(** The four tests a rejected resolution reports. *)
Record ResolutionDiagnostic := mkRejected {
  rd_scope : bool; rd_causal : bool; rd_grounded : bool; rd_authorized : bool;
}.

Record EvidenceSelection (Value : Type) := mkSelection {
  sl_query : SelectionQuery;
  sl_history : gmap string (SelectionEvent Value);
  sl_judgments : gmap string (TestJudgment Value);
  sl_positive : gset string;
  sl_counterevidence : gset string;
  sl_stale : gset string;
  sl_unresolved : gset string;
  sl_excluded : gset string;
  sl_retired_by : gmap string (gset string);
  sl_reused_by : gmap string (gset string);
  sl_reuse_evaluations : gmap string ReuseEvaluation;
  sl_resolution_diagnostics : gmap string ResolutionDiagnostic;
  sl_conformance : Conformance;
}.
Arguments mkSelection {Value}.
Arguments sl_query {Value}.
Arguments sl_history {Value}.
Arguments sl_judgments {Value}.
Arguments sl_positive {Value}.
Arguments sl_counterevidence {Value}.
Arguments sl_stale {Value}.
Arguments sl_unresolved {Value}.
Arguments sl_excluded {Value}.
Arguments sl_retired_by {Value}.
Arguments sl_reused_by {Value}.
Arguments sl_reuse_evaluations {Value}.
Arguments sl_resolution_diagnostics {Value}.
Arguments sl_conformance {Value}.

Inductive selection_error :=
| EmptyQueryIdentity
| AmbiguousHistory
| MissingEvent (id : string)
| UnauthenticatedEvent (id : string)
| CausalCycle.

Definition version_named (v : EvidenceVersion) : bool :=
  nonempty (ev_name v) && nonempty (ev_version v) && nonempty (ev_digest v).

Definition valid_query (q : SelectionQuery) : bool :=
  version_named (sq_requirement q) && version_named (sq_policy q)
  && nonempty (sq_artifact q) && nonempty (sq_time_basis q).

Section selection.
Context `{EqDecision Value, SelectionVerifier Value}.

(** ** The captured history *)

(** The loop that indexes the events, refusing empty and repeated identities. *)
Fixpoint index_events (events : list (SelectionEvent Value)) (all : gmap string (SelectionEvent Value))
    : result selection_error (gmap string (SelectionEvent Value)) :=
  match events with
  | [] => Ok all
  | e :: rest =>
      if negb (nonempty (se_id e)) || bool_decide (is_Some (all !! se_id e))
      then Err AmbiguousHistory
      else index_events rest (<[ se_id e := e ]> all)
  end.

(** [while let Some(id) = pending.pop()], with the top of the stack in front.  [None]
    says that the fuel ran out. *)
Fixpoint capture (fuel : nat) (all : gmap string (SelectionEvent Value)) (pending : list string)
    (history : gmap string (SelectionEvent Value))
    : option (result selection_error (gmap string (SelectionEvent Value))) :=
  match fuel with
  | 0 => None
  | S fuel' =>
      match pending with
      | [] => Some (Ok history)
      | id :: rest =>
          if bool_decide (is_Some (history !! id)) then capture fuel' all rest history
          else match all !! id with
          | None => Some (Err (MissingEvent id))
          | Some e =>
              if negb (verify_event e) then Some (Err (UnauthenticatedEvent id))
              else capture fuel' all (reverse (set_keys (se_parents e)) ++ rest) (<[ id := e ]> history)
          end
      end
  end.

(** Each event is captured once and pushes its parents. *)
Definition capture_fuel (frontier : gset string) (all : gmap string (SelectionEvent Value)) : nat :=
  S (size frontier + sum_list ((λ e, size (se_parents e.2)) <$> map_to_list all)).

(** One round of the closure: the events whose parents are all settled. *)
Definition ready (history : gmap string (SelectionEvent Value)) (ancestors : gmap string (gset string))
    : list (string * SelectionEvent Value) :=
  filter (λ e, ancestors !! e.1 = None ∧ set_Forall (λ p, is_Some (ancestors !! p)) (se_parents e.2))
    (map_entries history).

Definition closure (ancestors : gmap string (gset string)) (e : SelectionEvent Value) : gset string :=
  se_parents e ∪ ⋃ ((λ p, default ∅ (ancestors !! p)) <$> elements (se_parents e)).

Definition settle_round (history : gmap string (SelectionEvent Value))
    (ancestors : gmap string (gset string)) : gmap string (gset string) :=
  foldl (λ acc e, <[ e.1 := closure acc e.2 ]> acc) ancestors (ready history ancestors).

Fixpoint settle_ancestors (rounds : nat) (history : gmap string (SelectionEvent Value))
    (ancestors : gmap string (gset string)) : gmap string (gset string) :=
  match rounds with
  | 0 => ancestors
  | S rounds' =>
      if bool_decide (length (ready history ancestors) = 0) then ancestors
      else settle_ancestors rounds' history (settle_round history ancestors)
  end.

(** ** The evidence *)

Definition supports (j : TestJudgment Value) : bool := bool_decide (tj_outcome j = Pass).
Definition refutes (j : TestJudgment Value) : bool := negb (bool_decide (length (tj_counterexamples j) = 0)).

Definition empty_selection (q : SelectionQuery) (history : gmap string (SelectionEvent Value))
    : EvidenceSelection Value :=
  mkSelection q history ∅ ∅ ∅ ∅ ∅ ∅ ∅ ∅ ∅ ∅ Unresolved.

(** An identity that is inserted when a test holds. *)
Definition when_ (b : bool) (id : string) : gset string := if b then {[ id ]} else ∅.

(** The loop over the observations of the history; the second component is
    [eligible]. *)
Definition judge (q : SelectionQuery) (acc : EvidenceSelection Value * gset string)
    (entry : string * SelectionEvent Value) : EvidenceSelection Value * gset string :=
  let '(r, eligible) := acc in
  let '(id, e) := entry in
  match se_payload e with
  | PObservation contract report =>
      let j := evaluate_report contract report in
      let judgments := <[ id := j ]> (sl_judgments r) in
      let add (positive counter stale unresolved excluded : gset string) :=
        mkSelection (sl_query r) (sl_history r) judgments (sl_positive r ∪ positive)
          (sl_counterevidence r ∪ counter) (sl_stale r ∪ stale) (sl_unresolved r ∪ unresolved)
          (sl_excluded r ∪ excluded) (sl_retired_by r) (sl_reused_by r) (sl_reuse_evaluations r)
          (sl_resolution_diagnostics r) (sl_conformance r) in
      if negb (bool_decide (es_requirement (ct_subject contract) = sq_requirement q))
      then (add ∅ ∅ ∅ ∅ {[ id ]}, eligible)
      else if negb (accepts_contract q contract) then (add ∅ ∅ ∅ {[ id ]} ∅, eligible)
      else
        let eligible := {[ id ]} ∪ eligible in
        if negb (bool_decide (es_artifact (ct_subject contract) = sq_artifact q))
        then (if supports j || refutes j then add ∅ ∅ {[ id ]} ∅ ∅ else add ∅ ∅ ∅ {[ id ]} ∅, eligible)
        else (add (when_ (supports j) id) (when_ (refutes j) id) ∅
                (when_ (negb (bool_decide (tj_diagnostics j = ∅))) id) ∅, eligible)
  | _ => acc
  end.

(** The loop over the preservation acts. *)
Definition reuse (q : SelectionQuery) (ancestors : gmap string (gset string)) (eligible : gset string)
    (r : EvidenceSelection Value) (entry : string * SelectionEvent Value) : EvidenceSelection Value :=
  let '(id, e) := entry in
  match se_payload e with
  | PPreservation observation witness =>
      let judgment := sl_judgments r !! observation in
      let preservation := (λ j, evaluate_preservation
        (mkPContext (sq_requirement q) (es_method (tj_subject j)) (sq_policy q)
           (es_artifact (tj_subject j)) (sq_artifact q) (pc_boundary (pw_context witness))) witness)
        <$> judgment in
      let diagnostics :=
        unless (bool_decide (pw_id witness = id)) WitnessIdentityMismatch
        ∪ unless (bool_decide (observation ∈ default ∅ (ancestors !! id))) MissingObservationAncestry
        ∪ unless (accepts_preservation q witness) PolicyRejected
        ∪ match judgment with
          | Some j => unless (bool_decide (observation ∈ eligible) && (supports j || refutes j))
                        UnsupportedObservation
          | None => {[ UnknownObservation ]}
          end in
      let applied := bool_decide (diagnostics = ∅)
        && match preservation with Some p => preserved p | None => false end in
      let evaluations := <[ id := mkReuse observation preservation diagnostics applied ]>
        (sl_reuse_evaluations r) in
      match applied, judgment with
      | true, Some j =>
          mkSelection (sl_query r) (sl_history r) (sl_judgments r)
            (sl_positive r ∪ when_ (supports j) observation)
            (sl_counterevidence r ∪ when_ (refutes j) observation)
            (sl_stale r ∖ {[ observation ]})
            (sl_unresolved r ∪ when_ (negb (bool_decide (tj_diagnostics j = ∅))) observation)
            (sl_excluded r) (sl_retired_by r)
            (<[ observation := {[ id ]} ∪ default ∅ (sl_reused_by r !! observation) ]> (sl_reused_by r))
            evaluations (sl_resolution_diagnostics r) (sl_conformance r)
      | _, _ =>
          mkSelection (sl_query r) (sl_history r) (sl_judgments r) (sl_positive r)
            (sl_counterevidence r) (sl_stale r) (sl_unresolved r) (sl_excluded r) (sl_retired_by r)
            (sl_reused_by r) evaluations (sl_resolution_diagnostics r) (sl_conformance r)
      end
  | _ => r
  end.

(** The evidence a resolution names precedes it and applies to the queried artifact,
    by itself or through a preservation act that also precedes it. *)
Definition support_precedes (q : SelectionQuery) (before : gset string) (r : EvidenceSelection Value)
    (id : string) : bool :=
  bool_decide (id ∈ before)
  && match sl_judgments r !! id with
     | Some j =>
         bool_decide (es_artifact (tj_subject j) = sq_artifact q)
         || match sl_reused_by r !! id with
            | Some witnesses => set_any (λ w, bool_decide (w ∈ before)) witnesses
            | None => false
            end
     | None => false
     end.

Definition applicable (r : EvidenceSelection Value) (id : string) : bool :=
  bool_decide (id ∈ sl_positive r) || bool_decide (id ∈ sl_counterevidence r).

(** The loop over the resolutions. *)
Definition retire (q : SelectionQuery) (ancestors : gmap string (gset string))
    (r : EvidenceSelection Value) (entry : string * SelectionEvent Value) : EvidenceSelection Value :=
  let '(id, e) := entry in
  match se_payload e with
  | PResolution resolution =>
      let before := default ∅ (ancestors !! id) in
      let scoped := bool_decide (er_requirement resolution = sq_requirement q)
        && bool_decide (er_artifact resolution = sq_artifact q) in
      let causal := support_precedes q before r (er_predecessor resolution)
        && support_precedes q before r (er_replacement resolution) in
      let grounded := negb (bool_decide (er_predecessor resolution = er_replacement resolution))
        && applicable r (er_predecessor resolution) && applicable r (er_replacement resolution)
        && nonempty (er_reason resolution) in
      let authorized := authorize_resolution q e in
      let with_ retired diagnostics :=
        mkSelection (sl_query r) (sl_history r) (sl_judgments r) (sl_positive r) (sl_counterevidence r)
          (sl_stale r) (sl_unresolved r) (sl_excluded r) retired (sl_reused_by r)
          (sl_reuse_evaluations r) diagnostics (sl_conformance r) in
      if scoped && causal && grounded && authorized
      then with_ (<[ er_predecessor resolution :=
                      {[ id ]} ∪ default ∅ (sl_retired_by r !! er_predecessor resolution) ]> (sl_retired_by r))
             (sl_resolution_diagnostics r)
      else with_ (sl_retired_by r)
             (<[ id := mkRejected scoped causal grounded authorized ]> (sl_resolution_diagnostics r))
  | _ => r
  end.

(** What is left after the retirements. *)
Definition conclude (r : EvidenceSelection Value) : EvidenceSelection Value :=
  let positive := sl_positive r ∖ dom (sl_retired_by r) in
  let counter := sl_counterevidence r ∖ dom (sl_retired_by r) in
  let conformance :=
    match bool_decide (positive = ∅), bool_decide (counter = ∅) with
    | false, false => Conflicted
    | false, true => Satisfied
    | true, false => Violated
    | true, true => if negb (bool_decide (sl_stale r = ∅)) then Stale else Unresolved
    end in
  mkSelection (sl_query r) (sl_history r) (sl_judgments r) positive counter (sl_stale r)
    (sl_unresolved r) (sl_excluded r) (sl_retired_by r) (sl_reused_by r) (sl_reuse_evaluations r)
    (sl_resolution_diagnostics r) conformance.

Definition select_from (q : SelectionQuery) (history : gmap string (SelectionEvent Value))
    : result selection_error (EvidenceSelection Value) :=
  let ancestors := settle_ancestors (size history) history ∅ in
  if negb (bool_decide (size ancestors = size history)) then Err CausalCycle
  else
    let entries := map_entries history in
    let '(r, eligible) := foldl (judge q) (empty_selection q history, ∅) entries in
    let r := foldl (reuse q ancestors eligible) r entries in
    Ok (conclude (foldl (retire q ancestors) r entries)).

(** [None] says that the fuel of the capture ran out. *)
Definition select_evidence (q : SelectionQuery) (events : list (SelectionEvent Value))
    : option (result selection_error (EvidenceSelection Value)) :=
  if negb (valid_query q) then Some (Err EmptyQueryIdentity)
  else match index_events events ∅ with
  | Err e => Some (Err e)
  | Ok all =>
      (λ r, r ≫= select_from q)
      <$> capture (capture_fuel (sq_frontier q) all) all (reverse (set_keys (sq_frontier q))) ∅
  end.

End selection.

(** ** Lemmas: the captured history *)

Section lemmas.
Context `{EqDecision Value, SelectionVerifier Value}.
Abbreviation events_map := (gmap string (SelectionEvent Value)).
Implicit Types (q : SelectionQuery) (e : SelectionEvent Value) (all history : events_map).

(** The identities of a history that can be indexed. *)
Definition unambiguous (events : list (SelectionEvent Value)) : Prop :=
  NoDup (se_id <$> events) ∧ Forall (λ e, nonempty (se_id e) = true) events.

Abbreviation keyed events := ((λ e, (se_id e, e)) <$> events).

Lemma index_events_spec events all :
  index_events events all =
    if decide (unambiguous events ∧ Forall (λ e, all !! se_id e = None) events)
    then Ok (list_to_map (keyed events) ∪ all) else Err AmbiguousHistory.
Proof.
  revert all. induction events as [|e events IH]; intros all; cbn [index_events].
  { rewrite decide_True by (repeat split; constructor). simpl. by rewrite (left_id_L ∅ (∪)). }
  rewrite IH. destruct (nonempty (se_id e)) eqn:Hn; cbn [negb orb].
  2:{ rewrite decide_False; [done|]. intros [[_ Hf] _]. inversion Hf. congruence. }
  case_bool_decide as Hin.
  { rewrite decide_False; [done|]. intros [_ Hf]. inversion Hf as [|? ? Hnone]. rewrite Hnone in Hin.
    by destruct Hin. }
  apply eq_None_not_Some in Hin.
  match goal with |- context [decide ?P] => destruct (decide P) as [Hd|Hd] end;
    match goal with |- context [decide ?P] => destruct (decide P) as [Hd'|Hd'] end; try done.
  - f_equal. rewrite <- insert_union_r; [by rewrite insert_union_l|].
    apply not_elem_of_list_to_map_1. rewrite <- list_fmap_compose.
    destruct Hd' as [[Hnd _] _]. rewrite fmap_cons, NoDup_cons in Hnd. by destruct Hnd as [Hnd _].
  - exfalso. apply Hd'. destruct Hd as [[Hnd Hne] Hall]. split; [split|].
    + rewrite fmap_cons, NoDup_cons. split; [|done]. intros (e' & Heq & Hin')%list_elem_of_fmap.
      rewrite Forall_forall in Hall. specialize (Hall e' Hin').
      by rewrite <- Heq, lookup_insert_eq in Hall.
    + by constructor.
    + constructor; [done|]. eapply Forall_impl; [done|]. intros e' Hl. simpl in Hl.
      by apply lookup_insert_None in Hl as [? _].
  - exfalso. apply Hd. destruct Hd' as [[Hnd Hne] Hall]. rewrite fmap_cons, NoDup_cons in Hnd.
    destruct Hnd as [Hni Hnd]. apply Forall_cons in Hne as [_ Hne]. apply Forall_cons in Hall as [_ Hall].
    split; [by split|].
    apply Forall_forall. intros e' He'. apply lookup_insert_None. split.
    + rewrite Forall_forall in Hall. by apply Hall.
    + intros Heq. apply Hni. rewrite Heq. apply list_elem_of_fmap. eauto.
Qed.

Lemma index_events_empty events :
  index_events events ∅ =
    if decide (unambiguous events) then Ok (list_to_map (keyed events)) else Err AmbiguousHistory.
Proof.
  rewrite index_events_spec, (right_id_L ∅ (∪)).
  assert (Forall (λ e : SelectionEvent Value, (∅ : events_map) !! se_id e = None) events)
    by (apply Forall_forall; intros; apply lookup_empty).
  destruct (decide (unambiguous events)); [by rewrite decide_True|by rewrite decide_False by naive_solver].
Qed.

Lemma index_events_perm (events events' : list (SelectionEvent Value)) :
  events ≡ₚ events' → index_events events ∅ = index_events events' ∅.
Proof.
  intros Hp. rewrite !index_events_empty.
  assert (unambiguous events ↔ unambiguous events') as Hiff by (unfold unambiguous; by rewrite Hp).
  destruct (decide (unambiguous events)) as [Hu|]; [|by rewrite decide_False by naive_solver].
  rewrite decide_True by naive_solver. f_equal. apply list_to_map_proper; [|by rewrite Hp].
  rewrite <- list_fmap_compose. apply Hu.
Qed.

(** The edge from an event to its parents, among the indexed events. *)
Definition parent_of all (id p : string) : Prop := ∃ e, all !! id = Some e ∧ p ∈ se_parents e.

Lemma capture_ok fuel all pending history h :
  capture fuel all pending history = Some (Ok h) →
  (∀ id e, history !! id = Some e → all !! id = Some e ∧ verify_event e = true) →
  (∀ id e p, history !! id = Some e → p ∈ se_parents e → p ∈ dom history ∨ p ∈ pending) →
  (∀ id e, h !! id = Some e → all !! id = Some e ∧ verify_event e = true) ∧
  (∀ id e, h !! id = Some e → se_parents e ⊆ dom h) ∧
  dom history ⊆ dom h ∧ (∀ id, id ∈ pending → id ∈ dom h) ∧
  (∀ id, id ∈ dom h → id ∈ dom history ∨ ∃ f, f ∈ pending ∧ rtc (parent_of all) f id).
Proof.
  revert pending history. induction fuel as [|fuel IH]; intros pending history; simpl; [done|].
  destruct pending as [|id rest].
  { intros [= <-] Hall Hcl. split; [done|]. split.
    - intros id e He p Hp. destruct (Hcl id e p He Hp) as [?|?%elem_of_nil]; done.
    - split; [done|]. split; [by intros id ?%elem_of_nil|]. by left. }
  case_bool_decide as Hin.
  - intros Hc Hall Hcl. apply elem_of_dom in Hin.
    destruct (IH _ _ Hc Hall) as (H1 & H2 & H3 & H4 & H5).
    { intros id' e p He Hp. destruct (Hcl id' e p He Hp) as [?|[->|?]%elem_of_cons]; auto. }
    do 3 (split; [done|]). split.
    + intros id' [->|?]%elem_of_cons; [by apply H3|by apply H4].
    + intros id' Hid'. destruct (H5 id' Hid') as [?|(f & ? & ?)]; [by left|right; exists f; set_solver].
  - destruct (all !! id) as [e|] eqn:He; [|done]. destruct (verify_event e) eqn:Hv; [|done]. simpl.
    intros Hc Hall Hcl. apply IH in Hc as (H1 & H2 & H3 & H4 & H5).
    + do 2 (split; [done|]). rewrite dom_insert in H3. split; [set_solver|]. split.
      * intros id' [->|?]%elem_of_cons; [set_solver|]. apply H4, elem_of_app. by right.
      * intros id' Hid'. destruct (H5 id' Hid') as [Hd|(f & Hf & Hr)].
        { rewrite dom_insert, elem_of_union, elem_of_singleton in Hd. destruct Hd as [->|?]; [|by left].
          right. exists id. split; [by left|done]. }
        apply elem_of_app in Hf as [Hf|?]; [|right; exists f; set_solver].
        rewrite elem_of_reverse, elem_of_set_keys in Hf.
        right. exists id. split; [by left|]. eapply rtc_l; [|done]. by exists e.
    + intros id' e' [[<- <-]|[_ ?]]%lookup_insert_Some; [done|by apply Hall].
    + intros id' e' p [[<- <-]|[_ He']]%lookup_insert_Some Hp; rewrite dom_insert, elem_of_app.
      * right. left. by rewrite elem_of_reverse, elem_of_set_keys.
      * destruct (Hcl id' e' p He' Hp) as [?|[->|?]%elem_of_cons]; set_solver.
Qed.

(** What is left to push: the parents of the events that are not captured yet. *)
Definition uncaptured all history : nat :=
  sum_list ((λ x : string * SelectionEvent Value, size (se_parents x.2)) <$> map_to_list (all ∖ history)).

Lemma uncaptured_capture all history id e :
  all !! id = Some e → history !! id = None →
  uncaptured all history = size (se_parents e) + uncaptured all (<[ id := e ]> history).
Proof.
  intros He Hh. unfold uncaptured. rewrite <- (delete_difference _ _ _ e).
  assert ((all ∖ history) !! id = Some e) as Hd by by apply lookup_difference_Some.
  by rewrite <- (sum_list_fmap_perm _ _ _ (map_to_list_delete _ _ _ Hd)).
Qed.

Lemma capture_total fuel all pending history :
  length pending + uncaptured all history < fuel → is_Some (capture fuel all pending history).
Proof.
  revert pending history. induction fuel as [|fuel IH]; intros pending history Hf; [lia|].
  destruct pending as [|id rest]; simpl in *; [by eexists|].
  case_bool_decide as Hin; [apply IH; lia|].
  apply eq_None_not_Some in Hin. destruct (all !! id) as [e|] eqn:He; [|by eexists].
  destruct (verify_event e); [|by eexists]. simpl. apply IH.
  rewrite (uncaptured_capture _ _ _ _ He Hin) in Hf.
  rewrite length_app, length_reverse, length_set_keys. lia.
Qed.

Lemma capture_fuel_enough frontier all :
  is_Some (capture (capture_fuel frontier all) all (reverse (set_keys frontier)) ∅).
Proof.
  apply capture_total. unfold uncaptured, capture_fuel.
  rewrite length_reverse, length_set_keys, (right_id_L ∅ (∖)). lia.
Qed.

Lemma capture_more fuel fuel' all pending history r :
  capture fuel all pending history = Some r → fuel ≤ fuel' → capture fuel' all pending history = Some r.
Proof.
  revert fuel' pending history. induction fuel as [|fuel IH]; intros fuel' pending history; [done|].
  destruct fuel' as [|fuel']; intros Hc Hle; [lia|]. simpl in *.
  destruct pending as [|id rest]; [done|].
  case_bool_decide; [apply IH; [done|lia]|].
  destruct (all !! id) as [e|]; [|done]. destruct (verify_event e); [|done]. simpl in *. apply IH; [done|lia].
Qed.

Lemma capture_fun fuel fuel' all pending history r r' :
  capture fuel all pending history = Some r → capture fuel' all pending history = Some r' → r = r'.
Proof.
  intros Hr Hr'. apply (capture_more _ (fuel `max` fuel')) in Hr, Hr'; [congruence|lia..].
Qed.

Lemma capture_larger fuel all all' pending history h :
  capture fuel all pending history = Some (Ok h) → all ⊆ all' →
  capture fuel all' pending history = Some (Ok h).
Proof.
  intros Hc Hsub. revert pending history Hc. induction fuel as [|fuel IH]; intros pending history; [done|].
  simpl. destruct pending as [|id rest]; [done|]. case_bool_decide; [apply IH|].
  destruct (all !! id) as [e|] eqn:He; [|done].
  rewrite (lookup_weaken _ _ _ _ He Hsub). destruct (verify_event e); [|done]. apply IH.
Qed.

Lemma capture_err fuel all pending history x :
  capture fuel all pending history = Some (Err x) →
  ∃ f id, f ∈ pending ∧ rtc (parent_of all) f id ∧
    ((all !! id = None ∧ x = MissingEvent id) ∨
     ∃ e, all !! id = Some e ∧ verify_event e = false ∧ x = UnauthenticatedEvent id).
Proof.
  revert pending history. induction fuel as [|fuel IH]; intros pending history; [done|]. simpl.
  destruct pending as [|id rest]; [done|]. case_bool_decide.
  - intros (f & id' & ? & ?)%IH. exists f, id'. split; [by right|done].
  - destruct (all !! id) as [e|] eqn:He.
    + destruct (verify_event e) eqn:Hv; simpl.
      * intros (f & id' & Hf & Hr & Hx)%IH. rewrite elem_of_app, elem_of_reverse, elem_of_set_keys in Hf.
        destruct Hf as [Hf|Hf]; [|exists f, id'; split; [by right|done]].
        exists id, id'. split; [by left|]. split; [|done]. eapply rtc_l; [|done]. by exists e.
      * intros [= <-]. exists id, id. split; [by left|]. split; [done|]. right. by exists e.
    + intros [= <-]. exists id, id. split; [by left|]. split; [done|]. by left.
Qed.

(** *** The ancestors *)

(** What the ancestor table holds: for each settled event, all its ancestors, which
    are settled too, and not the event itself. *)
Definition settled history (anc : gmap string (gset string)) : Prop :=
  ∀ id A, anc !! id = Some A →
    id ∈ dom history ∧ (∀ p, p ∈ A ↔ tc (parent_of history) id p) ∧ A ⊆ dom anc ∧ id ∉ A.

Lemma elem_of_closure (anc : gmap string (gset string)) e p :
  p ∈ closure anc e ↔
    p ∈ se_parents e ∨ ∃ x A, x ∈ se_parents e ∧ anc !! x = Some A ∧ p ∈ A.
Proof.
  unfold closure. rewrite elem_of_union, elem_of_union_list. split.
  - intros [?|(X & (x & -> & Hx)%list_elem_of_fmap & Hp)]; [by left|]. rewrite elem_of_elements in Hx.
    destruct (anc !! x) as [A|] eqn:HA; simpl in Hp; [|by apply elem_of_empty in Hp]. right. eauto.
  - intros [?|(x & A & Hx & HA & Hp)]; [by left|]. right. exists A. split; [|done].
    apply list_elem_of_fmap. exists x. rewrite HA, elem_of_elements. done.
Qed.

Lemma settled_insert history anc id e :
  settled history anc → history !! id = Some e → anc !! id = None → se_parents e ⊆ dom anc →
  settled history (<[ id := closure anc e ]> anc).
Proof.
  intros Hs He Hn Hp. assert (closure anc e ⊆ dom anc) as Hsub.
  { intros p [?|(x & A & _ & HA & Hin)]%elem_of_closure; [by apply Hp|]. by apply (Hs x A HA). }
  intros id' A [[<- <-]|[_ HA]]%lookup_insert_Some.
  - split; [by apply elem_of_dom|]. split; [|split].
    + intros p. rewrite elem_of_closure. split.
      * intros [Hin|(x & A & Hx & HA & Hin)]; [by apply tc_once; exists e|].
        apply (tc_l _ _ x); [by exists e|]. by apply (Hs x A HA).
      * intros Ht. inversion Ht as [? ? (e' & He' & Hin)|? x ? (e' & He' & Hin) Ht'];
          simplify_eq/=; [by left|]. right.
        destruct (proj1 (elem_of_dom _ _) (Hp x Hin)) as [A HA]. exists x, A.
        split_and!; [done..|]. by apply (Hs x A HA).
    + rewrite dom_insert. set_solver.
    + intros Hin%Hsub%elem_of_dom. rewrite Hn in Hin. by destruct Hin.
  - destruct (Hs id' A HA) as (? & ? & ? & ?). rewrite dom_insert. split_and!; [done..|set_solver|done].
Qed.

Lemma elem_of_ready history anc id e :
  (id, e) ∈ ready history anc ↔
    history !! id = Some e ∧ anc !! id = None ∧ ∀ p, p ∈ se_parents e → is_Some (anc !! p).
Proof. unfold ready. rewrite list_elem_of_filter, elem_of_map_entries. simpl. unfold set_Forall. tauto. Qed.

Lemma NoDup_ready history anc : NoDup (ready history anc).*1.
Proof.
  unfold ready. eapply sublist_NoDup; [apply (NoDup_map_entries history)|].
  apply fmap_sublist, sublist_filter.
Qed.

(** A round settles each event that is ready. *)
Lemma settle_fold history (l : list (string * SelectionEvent Value)) anc :
  settled history anc → NoDup l.*1 →
  (∀ id e, (id, e) ∈ l → history !! id = Some e ∧ anc !! id = None ∧ se_parents e ⊆ dom anc) →
  let anc' := foldl (λ acc x, <[ x.1 := closure acc x.2 ]> acc) anc l in
  settled history anc' ∧ size anc' = size anc + length l.
Proof.
  revert anc. induction l as [|[id e] l IH]; intros anc Hs Hnd Hl; simpl; [split; [done|lia]|].
  destruct (Hl id e) as (He & Hn & Hp); [by left|].
  rewrite fmap_cons, NoDup_cons in Hnd. destruct Hnd as [Hni Hnd].
  destruct (IH (<[ id := closure anc e ]> anc)) as [Hs' Hz].
  - by apply settled_insert.
  - done.
  - intros id' e' Hin. destruct (Hl id' e') as (? & ? & ?); [by right|]. rewrite dom_insert.
    split_and!; [done| |set_solver]. apply lookup_insert_None. split; [done|]. intros <-. apply Hni.
    apply list_elem_of_fmap. by exists (id, e').
  - split; [done|]. rewrite Hz, map_size_insert_None by done. lia.
Qed.

Lemma settle_round_spec history anc :
  settled history anc →
  settled history (settle_round history anc) ∧
  size (settle_round history anc) = size anc + length (ready history anc).
Proof.
  intros Hs. apply settle_fold; [done|apply NoDup_ready|].
  intros id e (? & ? & Hp)%elem_of_ready. split_and!; [done..|]. intros p ?. by apply elem_of_dom, Hp.
Qed.

Lemma settled_dom history anc : settled history anc → dom anc ⊆ dom history.
Proof. intros Hs id [A HA]%elem_of_dom. by apply (Hs id A). Qed.

Lemma settled_size history anc : settled history anc → size anc ≤ size history.
Proof. intros Hs%settled_dom%subseteq_size. by rewrite !size_dom in Hs. Qed.

Lemma settle_ancestors_spec rounds history anc :
  settled history anc → size history ≤ size anc + rounds →
  let anc' := settle_ancestors rounds history anc in settled history anc' ∧ ready history anc' = [].
Proof.
  revert anc. induction rounds as [|rounds IH]; intros anc Hs Hz; cbn [settle_ancestors].
  - split; [done|]. destruct (settle_round_spec history anc Hs) as [Hs' Hz'].
    apply settled_size in Hs'. destruct (ready history anc); [done|]. simpl in *. lia.
  - case_bool_decide as Hr; [split; [done|by apply nil_length_inv]|].
    destruct (settle_round_spec history anc Hs) as [Hs' Hz']. apply IH; [done|lia].
Qed.

(** When no event is ready, the events that are not settled hold a cycle. *)
Lemma stuck_settled history anc :
  settled history anc → ready history anc = [] →
  (∀ id e, history !! id = Some e → se_parents e ⊆ dom history) →
  (∀ id, ~ tc (parent_of history) id id) →
  dom history ⊆ dom anc.
Proof.
  intros Hs Hr Hcl Hac id Hid.
  assert (∀ x y, tc (parent_of history) x y → y ∈ dom history) as Hdom.
  { intros x y. induction 1 as [x y (e & He & Hp)|]; [by apply (Hcl x e)|done]. }
  assert (sn (parent_of history) id) as Hsn.
  { apply tc_finite_sn; [exact Hac|]. exists (elements (dom history)). intros y Hy.
    rewrite elem_of_elements. by apply (Hdom id). }
  induction Hsn as [id _ IH]. apply elem_of_dom. destruct (anc !! id) eqn:Ha; [done|]. exfalso.
  apply elem_of_dom in Hid as [e He]. assert ((id, e) ∈ ready history anc) as Hin.
  { apply elem_of_ready. split_and!; [done..|]. intros p Hp. apply elem_of_dom, IH; [by exists e|].
    by apply (Hcl id e). }
  rewrite Hr in Hin. by apply elem_of_nil in Hin.
Qed.

(** The ancestor table of a closed history is complete exactly when it has no cycle,
    and then it is the ancestor relation. *)
Lemma ancestors_exact history (anc := settle_ancestors (size history) history ∅) :
  (∀ id e, history !! id = Some e → se_parents e ⊆ dom history) →
  (size anc = size history ↔ ∀ id, ~ tc (parent_of history) id id) ∧
  (size anc = size history → ∀ id p,
    p ∈ default ∅ (anc !! id) ↔ tc (parent_of history) id p).
Proof.
  intros Hcl. destruct (settle_ancestors_spec (size history) history ∅) as [Hs Hr]; [done|lia|].
  fold anc in Hs, Hr.
  assert (size anc = size history → dom history ⊆ dom anc) as Hfull.
  { intros Hz. apply settled_dom in Hs as Hsub. rewrite <- !size_dom in Hz.
    by rewrite (set_subseteq_size_eq (dom anc) (dom history)) by (done || lia). }
  split; [split|].
  - intros Hz id Ht. inversion Ht as [? ? (e & He & _)|? ? ? (e & He & _)];
      (apply elem_of_dom_2 in He; destruct (proj1 (elem_of_dom _ _) (Hfull Hz id He)) as [A HA];
       destruct (Hs id A HA) as (_ & Hex & _ & Hn); by apply Hn, Hex).
  - intros Hac. apply (stuck_settled _ _ Hs Hr Hcl) in Hac as Hsub. apply subseteq_size in Hsub.
    rewrite !size_dom in Hsub. apply settled_size in Hs. lia.
  - intros Hz id p. destruct (anc !! id) as [A|] eqn:HA; simpl; [by apply (Hs id A)|].
    split; [by intros ?%elem_of_empty|]. intros Ht. exfalso.
    apply not_elem_of_dom in HA. apply HA, Hfull; [done|].
    inversion Ht as [? ? (e & He & _)|? ? ? (e & He & _)]; by apply elem_of_dom_2 in He.
Qed.

End lemmas.
