(* ===== verification/NormConformance.v ===== *)
(** What a selection of evidence concludes (core/norm_selection.rs): the evidence of a
    history as a declarative relation over its events and their causal order, the three
    loops of [select_evidence] as the sets of that relation, and the theorems on the
    whole selection. *)
From S2P Require Import Prelude RustStr NormEvidence NormPreservation NormSelection.

Section conformance.
Context `{EqDecision Value, SelectionVerifier Value}.
Abbreviation events_map := (gmap string (SelectionEvent Value)).
Abbreviation keyed events := ((λ e, (se_id e, e)) <$> events).
Implicit Types (q : SelectionQuery) (e : SelectionEvent Value) (all history : events_map).

(** ** The evidence a history holds *)

(** [e] records a report that [j] judges, under a contract for the queried
    requirement that the policy accepts. *)
Definition accepts q e (j : TestJudgment Value) : Prop :=
  ∃ contract report, se_payload e = PObservation contract report ∧
    es_requirement (ct_subject contract) = sq_requirement q ∧
    accepts_contract q contract = true ∧ j = evaluate_report contract report.

Definition accepted q history (id : string) (j : TestJudgment Value) : Prop :=
  ∃ e, history !! id = Some e ∧ accepts q e j.

Definition weighs (j : TestJudgment Value) : Prop := supports j = true ∨ refutes j = true.

(** The context a preservation act must be established for. *)
Definition transport_context q (j : TestJudgment Value) (w : PreservationWitness) : PreservationContext :=
  mkPContext (sq_requirement q) (es_method (tj_subject j)) (sq_policy q)
    (es_artifact (tj_subject j)) (sq_artifact q) (pc_boundary (pw_context w)).

(** The act [w] carries the judgment [j] of [id] over to the queried artifact. *)
Definition transports q history (w id : string) (j : TestJudgment Value) : Prop :=
  ∃ e witness, history !! w = Some e ∧ se_payload e = PPreservation id witness ∧
    pw_id witness = w ∧ tc (parent_of history) w id ∧ accepts_preservation q witness = true ∧
    preserved (evaluate_preservation (transport_context q j witness) witness) = true.

(** [id] weighs on the query: an accepted report on the queried artifact, or one that
    an act among [P] carries over to it. *)
Definition bears q history (P : string → Prop) (id : string) (j : TestJudgment Value) : Prop :=
  accepted q history id j ∧ weighs j ∧
  (es_artifact (tj_subject j) = sq_artifact q ∨ ∃ w, P w ∧ transports q history w id j).

(** The evidence the event [rid] could see. *)
Definition bears_before q history (rid id : string) : Prop :=
  tc (parent_of history) rid id ∧ ∃ j, bears q history (tc (parent_of history) rid) id j.

(** [rid] is an authorised act on the query that replaces [id] by other evidence, both
    weighing on the query in the causal past of the act. *)
Definition retires q history (rid id : string) : Prop :=
  ∃ e resolution, history !! rid = Some e ∧ se_payload e = PResolution resolution ∧
    er_predecessor resolution = id ∧
    er_requirement resolution = sq_requirement q ∧ er_artifact resolution = sq_artifact q ∧
    er_predecessor resolution ≠ er_replacement resolution ∧
    bears_before q history rid (er_predecessor resolution) ∧
    bears_before q history rid (er_replacement resolution) ∧
    nonempty (er_reason resolution) = true ∧ authorize_resolution q e = true.

(** What stands: the evidence that weighs on the query and that no act retires. *)
Definition standing q history (id : string) (j : TestJudgment Value) : Prop :=
  bears q history (λ _, True) id j ∧ ¬ ∃ rid, retires q history rid id.

(** Accepted evidence on another artifact that no act carries over. *)
Definition outdated q history (id : string) : Prop :=
  ∃ j, accepted q history id j ∧ weighs j ∧ es_artifact (tj_subject j) ≠ sq_artifact q ∧
    ¬ ∃ w, transports q history w id j.

Lemma evaluate_report_subject (c : ReportContract Value) report :
  tj_subject (evaluate_report c report) = ct_subject c.
Proof. done. Qed.

Lemma elem_of_when b id x : x ∈ when_ b id ↔ b = true ∧ x = id.
Proof. unfold when_. destruct b; set_solver. Qed.

Lemma accepted_fun q history id j j' : accepted q history id j → accepted q history id j' → j = j'.
Proof. intros (e & He & c & t & Hp & _ & _ & ->) (e' & He' & c' & t' & Hp' & _ & _ & ->). congruence. Qed.

#[local] Opaque evaluate_report evaluate_preservation.

(** ** The loop over the observations *)

Lemma accepts_some q e (Q : TestJudgment Value → Prop) :
  (∃ j, accepts q e j ∧ Q j) ↔
    match se_payload e with
    | PObservation c t => es_requirement (ct_subject c) = sq_requirement q ∧
        accepts_contract q c = true ∧ Q (evaluate_report c t)
    | _ => False
    end.
Proof.
  unfold accepts. destruct (se_payload e) as [|c t|res|o w].
  2:{ split.
      - intros (j & (c' & t' & [= <- <-] & ? & ? & ->) & ?). done.
      - intros (? & ? & ?). eexists. split; [|done]. by exists c, t. }
  all: split; [|done]; intros (j & (c' & t' & ? & _) & _); done.
Qed.

Ltac judge_step :=
  match goal with |- context [judge _ ?acc ?b] => destruct acc, b end;
  cbn [fst snd]; rewrite accepts_some; unfold judge;
  lazymatch goal with |- context [se_payload ?e] => destruct (se_payload e) as [|c t|?|? ?] end;
  cbn [fst snd];
  try match goal with |- context [supports (evaluate_report ?c ?t)] =>
    rewrite ?evaluate_report_subject; destruct (accepts_contract _ c) eqn:?;
    destruct (supports (evaluate_report c t)) eqn:?, (refutes (evaluate_report c t)) eqn:? end;
  repeat case_bool_decide; cbn [negb orb fst snd sl_positive sl_counterevidence sl_stale];
  unfold weighs; rewrite ?elem_of_union, ?elem_of_when, ?elem_of_singleton, ?elem_of_empty;
  intuition congruence.

Lemma judge_positive q acc b x :
  x ∈ sl_positive (judge q acc b).1 ↔
    x ∈ sl_positive acc.1 ∨ (x = b.1 ∧ ∃ j, accepts q b.2 j ∧
      es_artifact (tj_subject j) = sq_artifact q ∧ supports j = true).
Proof. judge_step. Qed.

Lemma judge_counter q acc b x :
  x ∈ sl_counterevidence (judge q acc b).1 ↔
    x ∈ sl_counterevidence acc.1 ∨ (x = b.1 ∧ ∃ j, accepts q b.2 j ∧
      es_artifact (tj_subject j) = sq_artifact q ∧ refutes j = true).
Proof. judge_step. Qed.

Lemma judge_stale q acc b x :
  x ∈ sl_stale (judge q acc b).1 ↔
    x ∈ sl_stale acc.1 ∨ (x = b.1 ∧ ∃ j, accepts q b.2 j ∧
      es_artifact (tj_subject j) ≠ sq_artifact q ∧ weighs j).
Proof. judge_step. Qed.

Lemma judge_eligible q acc b x :
  x ∈ (judge q acc b).2 ↔ x ∈ acc.2 ∨ (x = b.1 ∧ ∃ j, accepts q b.2 j ∧ True).
Proof. judge_step. Qed.

Lemma judge_judgments q acc b :
  sl_judgments (judge q acc b).1 =
    match se_payload b.2 with
    | PObservation c t => <[ b.1 := evaluate_report c t ]> (sl_judgments acc.1)
    | _ => sl_judgments acc.1
    end.
Proof.
  destruct acc as [r el], b as [id e]. unfold judge. cbn [fst snd].
  destruct (se_payload e) as [|c t|res|o w]; [done| |done..].
  repeat (case_match || case_bool_decide); done.
Qed.

Lemma judge_others q acc b :
  let r := acc.1 in let r' := (judge q acc b).1 in
  sl_history r' = sl_history r ∧ sl_retired_by r' = sl_retired_by r ∧ sl_reused_by r' = sl_reused_by r.
Proof.
  destruct acc as [r el], b as [id e]. unfold judge. cbn [fst snd].
  destruct (se_payload e) as [|c t|res|o w]; [done| |done..].
  repeat (case_match || case_bool_decide); done.
Qed.

(** What the loop leaves, over the whole history. *)
Record judged q history (r : EvidenceSelection Value) (eligible : gset string) : Prop := {
  jd_history : sl_history r = history;
  jd_retired : sl_retired_by r = ∅;
  jd_reused : sl_reused_by r = ∅;
  jd_judgments : ∀ id j, sl_judgments r !! id = Some j ↔
    ∃ e c t, history !! id = Some e ∧ se_payload e = PObservation c t ∧ j = evaluate_report c t;
  jd_eligible : ∀ id, id ∈ eligible ↔ ∃ j, accepted q history id j;
  jd_positive : ∀ id, id ∈ sl_positive r ↔
    ∃ j, accepted q history id j ∧ es_artifact (tj_subject j) = sq_artifact q ∧ supports j = true;
  jd_counter : ∀ id, id ∈ sl_counterevidence r ↔
    ∃ j, accepted q history id j ∧ es_artifact (tj_subject j) = sq_artifact q ∧ refutes j = true;
  jd_stale : ∀ id, id ∈ sl_stale r ↔
    ∃ j, accepted q history id j ∧ es_artifact (tj_subject j) ≠ sq_artifact q ∧ weighs j;
}.

Lemma entries_accepted q history id (Q : TestJudgment Value → Prop) :
  (∃ b, b ∈ map_entries history ∧ (id = b.1 ∧ ∃ j, accepts q b.2 j ∧ Q j)) ↔
  ∃ j, accepted q history id j ∧ Q j.
Proof.
  split.
  - intros ([k e] & Hb & -> & j & Ha & HQ). apply elem_of_map_entries in Hb. exists j. split; [|done].
    by exists e.
  - intros (j & (e & He & Ha) & HQ). exists (id, e). rewrite elem_of_map_entries. eauto.
Qed.

Lemma judge_fold_judgments q history (l : list (string * SelectionEvent Value)) acc id j :
  (∀ k e, (k, e) ∈ l → history !! k = Some e) →
  (∀ k j, sl_judgments acc.1 !! k = Some j → ∃ e c t,
     history !! k = Some e ∧ se_payload e = PObservation c t ∧ j = evaluate_report c t) →
  sl_judgments (foldl (judge q) acc l).1 !! id = Some j ↔
    sl_judgments acc.1 !! id = Some j ∨
    ∃ e c t, (id, e) ∈ l ∧ se_payload e = PObservation c t ∧ j = evaluate_report c t.
Proof.
  revert acc. induction l as [|[k e] l IH]; intros acc Hl Hacc; simpl.
  { split; [by left|]. intros [?|(e & c & t & ?%elem_of_nil & _)]; done. }
  assert (history !! k = Some e) as He by (apply Hl; left).
  rewrite IH; [|intros; by apply Hl; right|].
  - rewrite judge_judgments. cbn [fst snd]. destruct (se_payload e) as [|c t|res|o w] eqn:Hp.
    2:{ rewrite lookup_insert_Some. split.
        - intros [[[<- <-]|[_ ?]]|(e' & c' & t' & Hin & Hr)]; [|by left|].
          + right. exists e, c, t. split; [left|done].
          + right. exists e', c', t'. split; [by right|done].
        - intros [Hj|(e' & c' & t' & [[= -> ->]|Hin]%elem_of_cons & Hp' & ->)].
          + destruct (decide (k = id)) as [<-|]; [|by left; right]. left. left. split; [done|].
            destruct (Hacc _ _ Hj) as (e' & c' & t' & He' & Hp' & ->). congruence.
          + left. left. split; [done|]. congruence.
          + right. eauto 10. }
    all: split; (intros [Hj|(e' & c' & t' & Hin & Hp' & ->)]; [by left|]);
      try (right; exists e', c', t'; split; [by right|done]);
      apply elem_of_cons in Hin as [[= -> ->]|Hin]; [congruence|right; eauto 10].
  - rewrite judge_judgments. cbn [fst snd]. destruct (se_payload e) as [|c t|res|o w] eqn:Hp; [done| |done..].
    intros k' j' [[<- <-]|[_ ?]]%lookup_insert_Some; [by exists e, c, t|by apply Hacc].
Qed.

Lemma judge_fold_spec q history r eligible :
  foldl (judge q) (empty_selection q history, ∅) (map_entries history) = (r, eligible) →
  judged q history r eligible.
Proof.
  intros Hf. set (acc0 := (empty_selection q history, ∅)) in Hf.
  assert (r = (foldl (judge q) acc0 (map_entries history)).1) as -> by by rewrite Hf.
  assert (eligible = (foldl (judge q) acc0 (map_entries history)).2) as -> by by rewrite Hf.
  clear Hf. set (Htriv := λ (_ : EvidenceSelection Value * gset string) (_ : string * SelectionEvent Value) (_ : True), I).
  assert (let r := (foldl (judge q) acc0 (map_entries history)).1 in
    sl_history r = history ∧ sl_retired_by r = ∅ ∧ sl_reused_by r = ∅) as (? & ? & ?).
  { apply (foldl_keeps (λ s : EvidenceSelection Value * gset string,
      sl_history s.1 = history ∧ sl_retired_by s.1 = ∅ ∧ sl_reused_by s.1 = ∅)); [|done].
    intros s b. destruct (judge_others q s b) as (-> & -> & ->). done. }
  split; [done..| | | | |].
  - intros id j. rewrite (judge_fold_judgments q history); [| |done].
    + split; [intros [?|(e & c & t & He & ?)]; [done|]|intros (e & c & t & He & ?); right];
        exists e, c, t; by apply elem_of_map_entries in He.
    + intros k e. apply elem_of_map_entries.
  - intros id. rewrite (foldl_grows (λ _, True) _ snd _ Htriv (λ s b x _, judge_eligible q s b x)) by done.
    rewrite entries_accepted. simpl. set_solver.
  - intros id.
    rewrite (foldl_grows (λ _, True) _ _ _ Htriv (λ s b x _, judge_positive q s b x)) by done.
    rewrite entries_accepted. simpl. set_solver.
  - intros id.
    rewrite (foldl_grows (λ _, True) _ _ _ Htriv (λ s b x _, judge_counter q s b x)) by done.
    rewrite entries_accepted. simpl. set_solver.
  - intros id.
    rewrite (foldl_grows (λ _, True) _ _ _ Htriv (λ s b x _, judge_stale q s b x)) by done.
    rewrite entries_accepted. simpl. set_solver.
Qed.

(** ** The loop over the preservation acts *)

(** The act of the entry [b] carries the judgment [j] of [obs] over. *)
Definition act_applies q (ancestors : gmap string (gset string)) (eligible : gset string)
    (judgments : gmap string (TestJudgment Value)) (b : string * SelectionEvent Value)
    (obs : string) (j : TestJudgment Value) : Prop :=
  ∃ w, se_payload b.2 = PPreservation obs w ∧ judgments !! obs = Some j ∧ pw_id w = b.1 ∧
    obs ∈ default ∅ (ancestors !! b.1) ∧ accepts_preservation q w = true ∧ obs ∈ eligible ∧ weighs j ∧
    preserved (evaluate_preservation (transport_context q j w) w) = true.

Lemma reuse_cases q ancestors eligible r b :
  let r' := reuse q ancestors eligible r b in
  sl_judgments r' = sl_judgments r ∧ sl_retired_by r' = sl_retired_by r ∧ sl_history r' = sl_history r ∧
  ((∃ obs j, act_applies q ancestors eligible (sl_judgments r) b obs j ∧
      sl_positive r' = sl_positive r ∪ when_ (supports j) obs ∧
      sl_counterevidence r' = sl_counterevidence r ∪ when_ (refutes j) obs ∧
      sl_stale r' = sl_stale r ∖ {[ obs ]} ∧
      sl_reused_by r' = <[ obs := {[ b.1 ]} ∪ default ∅ (sl_reused_by r !! obs) ]> (sl_reused_by r)) ∨
   ((∀ obs j, ¬ act_applies q ancestors eligible (sl_judgments r) b obs j) ∧
      sl_positive r' = sl_positive r ∧ sl_counterevidence r' = sl_counterevidence r ∧
      sl_stale r' = sl_stale r ∧ sl_reused_by r' = sl_reused_by r)).
Proof.
  destruct b as [id e]. unfold reuse, act_applies. cbn [fst snd].
  destruct (se_payload e) as [|c t|res|obs w];
    [do 3 (split; [done|]); right; (split; [by intros ? ? (? & ? & _)|done])..|].
  destruct (sl_judgments r !! obs) as [j|] eqn:Hj; cbn [fmap option_fmap option_map].
  2:{ rewrite andb_false_r. do 3 (split; [done|]). right. split; [|done].
      intros obs' j (w' & [= <- <-] & Hj' & _). congruence. }
  match goal with |- context [if ?a then _ else _] => destruct a eqn:Ha end;
    cbn [sl_judgments sl_retired_by sl_history sl_positive sl_counterevidence sl_stale sl_reused_by];
    do 3 (split; [done|]).
  - left. exists obs, j. split; [|done]. exists w. apply andb_true_iff in Ha as [Hd Hp].
    apply bool_decide_eq_true in Hd. rewrite !empty_union_L, !unless_empty, !bool_decide_eq_true in Hd.
    destruct Hd as [[[? ?] ?] Hs]. apply andb_true_iff in Hs as [Hs Hw].
    apply bool_decide_eq_true in Hs. apply orb_true_iff in Hw. done.
  - right. split; [|done]. intros obs' j' (w' & [= <- <-] & Hj' & ? & ? & Hac & ? & Hw & Hp).
    simplify_eq. unfold transport_context in Hp. rewrite Hp, andb_true_r in Ha.
    apply bool_decide_eq_false in Ha. apply Ha. rewrite !empty_union_L, !unless_empty, !bool_decide_eq_true.
    rewrite andb_true_iff, orb_true_iff, bool_decide_eq_true. done.
Qed.

Lemma act_applies_fun q ancestors eligible judgments b obs obs' j j' :
  act_applies q ancestors eligible judgments b obs j →
  act_applies q ancestors eligible judgments b obs' j' → obs = obs' ∧ j = j'.
Proof. intros (w & Hp & Hj & _) (w' & Hp' & Hj' & _). split; congruence. Qed.

(** One step of the loop, for each of the sets it changes. *)
Lemma reuse_step q ancestors eligible r b (acts := act_applies q ancestors eligible (sl_judgments r) b) :
  let r' := reuse q ancestors eligible r b in
  (∀ x, x ∈ sl_positive r' ↔ x ∈ sl_positive r ∨ ∃ j, acts x j ∧ supports j = true) ∧
  (∀ x, x ∈ sl_counterevidence r' ↔ x ∈ sl_counterevidence r ∨ ∃ j, acts x j ∧ refutes j = true) ∧
  (∀ x, x ∈ sl_stale r' ↔ x ∈ sl_stale r ∧ ¬ ∃ j, acts x j) ∧
  (∀ obs x, x ∈ default ∅ (sl_reused_by r' !! obs) ↔
     x ∈ default ∅ (sl_reused_by r !! obs) ∨ (x = b.1 ∧ ∃ j, acts obs j)).
Proof.
  cbv zeta. destruct (reuse_cases q ancestors eligible r b) as (_ & _ & _ & [(o & j & Ha & -> & -> & -> & ->)|
    (Hn & -> & -> & -> & ->)]); [change (acts o j) in Ha|].
  - assert (∀ x j', acts x j' ↔ x = o ∧ j' = j) as Hacts.
    { intros x j'. split; [|by intros [-> ->]]. intros Hx. by apply (act_applies_fun _ _ _ _ _ _ _ _ _ Hx Ha). }
    setoid_rewrite Hacts. split_and!.
    + intros x. rewrite elem_of_union, elem_of_when. split; [intros [?|[? ->]]; eauto 6|].
      intros [?|(? & [-> ->] & ?)]; auto.
    + intros x. rewrite elem_of_union, elem_of_when. split; [intros [?|[? ->]]; eauto 6|].
      intros [?|(? & [-> ->] & ?)]; auto.
    + intros x. rewrite elem_of_difference, elem_of_singleton. split; intros [? Hx]; (split; [done|]).
      * by intros (? & -> & _).
      * intros ->. apply Hx. eauto.
    + intros obs x. destruct (decide (o = obs)) as [<-|Hne].
      * rewrite lookup_insert_eq. simpl. rewrite elem_of_union, elem_of_singleton. naive_solver.
      * rewrite lookup_insert_ne by done. naive_solver.
  - split_and!; intros; split; try (by left); try (intros ?; split; [done|by intros [? ?%Hn]]).
    + intros [?|(j & ?%Hn & _)]; done.
    + intros [?|(j & ?%Hn & _)]; done.
    + by intros [? _].
    + intros [?|(_ & j & ?%Hn)]; done.
Qed.

(** What the loop over the acts leaves. *)
Record weighed q history (r : EvidenceSelection Value) : Prop := {
  wd_history : sl_history r = history;
  wd_retired : sl_retired_by r = ∅;
  wd_judgments : ∀ id j, accepted q history id j → sl_judgments r !! id = Some j;
  wd_reused : ∀ id w, w ∈ default ∅ (sl_reused_by r !! id) ↔
    ∃ j, accepted q history id j ∧ weighs j ∧ transports q history w id j;
  wd_positive : ∀ id, id ∈ sl_positive r ↔ ∃ j, bears q history (λ _, True) id j ∧ supports j = true;
  wd_counter : ∀ id, id ∈ sl_counterevidence r ↔
    ∃ j, bears q history (λ _, True) id j ∧ refutes j = true;
  wd_stale : ∀ id, id ∈ sl_stale r ↔ outdated q history id;
}.

Section reuse_loop.
Context q history (ancestors : gmap string (gset string)) (r : EvidenceSelection Value) (eligible : gset string).
Context (Hjd : judged q history r eligible).
Context (Hanc : ∀ id p, p ∈ default ∅ (ancestors !! id) ↔ tc (parent_of history) id p).

Lemma judged_accepted id j : accepted q history id j ↔ sl_judgments r !! id = Some j ∧ id ∈ eligible.
Proof.
  rewrite (jd_judgments _ _ _ _ Hjd), (jd_eligible _ _ _ _ Hjd). split.
  - intros Ha. split; [|by exists j]. destruct Ha as (e & He & c & t & Hp & _ & _ & ->). by exists e, c, t.
  - intros [(e & c & t & He & Hp & ->) (j' & e' & He' & c' & t' & Hp' & Hr & Hc & ->)].
    assert (e' = e) as -> by congruence. rewrite Hp in Hp'. injection Hp' as <- <-.
    exists e. split; [done|]. by exists c, t.
Qed.

Abbreviation acts := (act_applies q ancestors eligible (sl_judgments r)).

Lemma act_applies_iff w e id j :
  history !! w = Some e →
  acts (w, e) id j ↔ accepted q history id j ∧ weighs j ∧ transports q history w id j.
Proof.
  intros He. rewrite judged_accepted. unfold act_applies, transports. cbn [fst snd].
  setoid_rewrite Hanc. split.
  - intros (wit & ? & ? & ? & ? & ? & ? & ? & ?). split_and!; [done..|]. by exists e, wit.
  - intros ([? ?] & ? & e' & wit & He' & ? & ? & ? & ? & ?). simplify_eq. by exists wit.
Qed.

(** Some act of the history applies. *)
Lemma entries_transport id (Q : TestJudgment Value → Prop) :
  (∃ b, b ∈ map_entries history ∧ ∃ j, acts b id j ∧ Q j) ↔
  ∃ j, accepted q history id j ∧ weighs j ∧ Q j ∧ ∃ w, transports q history w id j.
Proof.
  split.
  - intros ([w e] & He & j & Ha & HQ). apply elem_of_map_entries in He.
    apply (act_applies_iff _ _ _ _ He) in Ha as (? & ? & ?). eauto 8.
  - intros (j & ? & ? & ? & w & Ht). pose proof Ht as (e & wit & He & _).
    exists (w, e). rewrite elem_of_map_entries. split; [done|]. exists j. by rewrite act_applies_iff.
Qed.

Lemma reuse_fold_weighed : weighed q history (foldl (reuse q ancestors eligible) r (map_entries history)).
Proof.
  set (Inv s := sl_judgments s = sl_judgments r ∧ sl_retired_by s = ∅ ∧ sl_history s = history).
  assert (∀ s b, Inv s → Inv (reuse q ancestors eligible s b)) as Hinv.
  { intros s b (? & ? & ?). destruct (reuse_cases q ancestors eligible s b) as (? & ? & ? & _).
    unfold Inv. split_and!; congruence. }
  assert (Inv r) as H0 by (split; [done|split; [apply Hjd|apply Hjd]]).
  destruct (foldl_keeps Inv (reuse q ancestors eligible) (map_entries history) r Hinv H0) as (HJ & HR & HH).
  split; [done..| | | | |].
  - intros id j Ha. rewrite HJ. by apply judged_accepted in Ha as [? _].
  - intros id w.
    rewrite (foldl_grows Inv _ (λ s, default ∅ (sl_reused_by s !! id))
      (λ b x, x = b.1 ∧ ∃ j, acts b id j) Hinv); [| |done].
    + rewrite (jd_reused _ _ _ _ Hjd), lookup_empty. simpl. split.
      * intros [?%elem_of_empty|([w' e] & He & -> & j & Ha)]; [done|]. apply elem_of_map_entries in He.
        apply (act_applies_iff _ _ _ _ He) in Ha. by exists j.
      * intros (j & ? & ? & Ht). right. pose proof Ht as (e & wit & He & _). exists (w, e).
        rewrite elem_of_map_entries. split_and!; [done..|]. exists j. by rewrite act_applies_iff.
    + intros s b x (<- & _). by apply reuse_step.
  - intros id.
    rewrite (foldl_grows Inv _ sl_positive (λ b x, ∃ j, acts b x j ∧ supports j = true) Hinv); [| |done].
    + rewrite (jd_positive _ _ _ _ Hjd), entries_transport. unfold bears, weighs. naive_solver.
    + intros s b x (<- & _). by apply reuse_step.
  - intros id.
    rewrite (foldl_grows Inv _ sl_counterevidence (λ b x, ∃ j, acts b x j ∧ refutes j = true) Hinv); [| |done].
    + rewrite (jd_counter _ _ _ _ Hjd), entries_transport. unfold bears, weighs. naive_solver.
    + intros s b x (<- & _). by apply reuse_step.
  - intros id.
    rewrite (foldl_shrinks Inv _ sl_stale (λ b x, ∃ j, acts b x j) Hinv); [| |done].
    + rewrite (jd_stale _ _ _ _ Hjd). unfold outdated.
      pose proof (entries_transport id (λ _, True)) as Het. split.
      * intros [(j & Ha & Hne & Hw) Hno]. exists j. split_and!; [done..|]. intros Ht. apply Hno.
        destruct Het as [_ (b & Hb & j' & ? & _)]; [by exists j|]. eauto.
      * intros (j & Ha & Hw & Hne & Hno). split; [eauto|]. intros (b & Hb & j' & Hj').
        destruct Het as [(j2 & Ha2 & _ & _ & Ht) _]; [by exists b; eauto|].
        by rewrite (accepted_fun _ _ _ _ _ Ha2 Ha) in Ht.
    + intros s b x (<- & _). by apply reuse_step.
Qed.
End reuse_loop.

(** ** The loop over the resolutions *)

Section retire_loop.
Context q history (ancestors : gmap string (gset string)) (r : EvidenceSelection Value).
Context (Hwd : weighed q history r).
Context (Hanc : ∀ id p, p ∈ default ∅ (ancestors !! id) ↔ tc (parent_of history) id p).

(** The evidence fields, which the loop does not change. *)
Definition same_evidence (s : EvidenceSelection Value) : Prop :=
  sl_history s = sl_history r ∧ sl_judgments s = sl_judgments r ∧ sl_positive s = sl_positive r ∧
  sl_counterevidence s = sl_counterevidence r ∧ sl_stale s = sl_stale r ∧ sl_reused_by s = sl_reused_by r.

Lemma bears_before_iff rid id :
  support_precedes q (default ∅ (ancestors !! rid)) r id = true ∧ applicable r id = true ↔
  bears_before q history rid id.
Proof.
  unfold support_precedes, applicable, bears_before.
  rewrite andb_true_iff, orb_true_iff, !bool_decide_eq_true, (wd_positive _ _ _ Hwd), (wd_counter _ _ _ Hwd).
  rewrite Hanc. split.
  - intros [[Ht Hs] Hb]. split; [done|].
    assert (∃ j, bears q history (λ _, True) id j) as (j & Ha & Hw & _) by naive_solver.
    exists j. split_and!; [done..|]. rewrite (wd_judgments _ _ _ Hwd _ _ Ha), orb_true_iff, bool_decide_eq_true in Hs.
    destruct Hs as [Hs|Hs]; [by left|right].
    destruct (sl_reused_by r !! id) as [W|] eqn:HW; [|done]. apply set_any_true in Hs as (w & Hin & Hb').
    rewrite bool_decide_eq_true, Hanc in Hb'. exists w. split; [done|].
    pose proof (wd_reused _ _ _ Hwd id w) as [(j' & Ha' & _ & Htr) _]; [by rewrite HW|].
    by rewrite (accepted_fun _ _ _ _ _ Ha Ha').
  - intros (Ht & j & Ha & Hw & Hor). rewrite (wd_judgments _ _ _ Hwd _ _ Ha), orb_true_iff, bool_decide_eq_true.
    assert (bears q history (λ _, True) id j) as Hb.
    { split_and!; [done..|]. destruct Hor as [?|(w & _ & ?)]; [by left|right; eauto]. }
    split; [split; [done|]|unfold weighs in Hw; naive_solver].
    destruct Hor as [?|(w & Hw' & Htr)]; [by left|right].
    assert (w ∈ default ∅ (sl_reused_by r !! id)) as Hin by (apply (wd_reused _ _ _ Hwd); eauto).
    destruct (sl_reused_by r !! id) as [W|]; simpl in Hin; [|by apply elem_of_empty in Hin].
    apply set_any_true. exists w. by rewrite bool_decide_eq_true, Hanc.
Qed.

Lemma retire_step s id e rid x :
  same_evidence s → history !! id = Some e →
  same_evidence (retire q ancestors s (id, e)) ∧
  (rid ∈ default ∅ (sl_retired_by (retire q ancestors s (id, e)) !! x) ↔
   rid ∈ default ∅ (sl_retired_by s !! x) ∨ (rid = id ∧ retires q history id x)).
Proof.
  intros (Hh & HJ & Hpos & Hcn & Hst & Hru) He. unfold retire.
  destruct (se_payload e) as [|c t|res|o w] eqn:Hp.
  3:{ assert (∀ id', support_precedes q (default ∅ (ancestors !! id)) s id' =
        support_precedes q (default ∅ (ancestors !! id)) r id') as Hsp
        by (intros; unfold support_precedes; by rewrite HJ, Hru).
      assert (∀ id', applicable s id' = applicable r id') as Hap
        by (intros; unfold applicable; by rewrite Hpos, Hcn).
      rewrite !Hsp, !Hap.
      match goal with |- context [if ?a then _ else _] => assert (a = true ↔ retires q history id (er_predecessor res)) as Hiff end.
      { unfold retires. rewrite !andb_true_iff, negb_true_iff, !bool_decide_eq_true, bool_decide_eq_false. split.
        - intros [[[[? ?] [? ?]] [[[? ?] ?] ?]] ?]. exists e, res. rewrite <- !bears_before_iff. done.
        - intros (e' & res' & He' & Hp' & _ & Hr). assert (e' = e) as -> by congruence.
          assert (res' = res) as -> by congruence. rewrite <- !bears_before_iff in Hr. tauto. }
      assert (∀ y, retires q history id y → y = er_predecessor res) as Hfun.
      { intros y (e' & res' & He' & Hp' & <- & _).
        assert (e' = e) as -> by congruence. congruence. }
      match goal with |- context [if ?a then _ else _] => destruct a end; (split; [done|]);
        cbn [sl_retired_by].
      - destruct (decide (x = er_predecessor res)) as [->|Hne].
        + rewrite lookup_insert_eq. simpl. rewrite elem_of_union, elem_of_singleton. naive_solver.
        + rewrite lookup_insert_ne by done. naive_solver.
      - split; [by left|]. intros [?|[-> Hr]]; [done|]. rewrite (Hfun _ Hr) in Hr. by apply Hiff in Hr. }
  all: split; [done|]; split; [by left|]; intros [?|[_ (e' & res & He' & Hp' & _)]]; [done|congruence].
Qed.

Lemma retire_fold (l : list (string * SelectionEvent Value)) s rid x :
  (∀ id e, (id, e) ∈ l → history !! id = Some e) → same_evidence s →
  same_evidence (foldl (retire q ancestors) s l) ∧
  (rid ∈ default ∅ (sl_retired_by (foldl (retire q ancestors) s l) !! x) ↔
   rid ∈ default ∅ (sl_retired_by s !! x) ∨ (∃ e, (rid, e) ∈ l) ∧ retires q history rid x).
Proof.
  revert s. induction l as [|[id e] l IH]; intros s Hl Hs; cbn [foldl].
  { split; [done|]. split; [by left|]. intros [?|[[? ?%elem_of_nil] _]]; done. }
  destruct (retire_step s id e rid x Hs) as [Hs' Hx]; [by apply Hl; left|].
  destruct (IH (retire q ancestors s (id, e))) as [? IHx]; [intros; apply Hl; by right|done|].
  split; [done|]. rewrite IHx, Hx. split.
  - intros [[?|[-> ?]]|[[e' ?] ?]]; [by left| |].
    + right. split; [exists e; by left|done].
    + right. split; [exists e'; by right|done].
  - intros [?|[[e' [[= -> ->]|?]%elem_of_cons] ?]]; [by left; left|by left; right|right; eauto].
Qed.

Lemma retire_fold_retires (r' := foldl (retire q ancestors) r (map_entries history)) :
  same_evidence r' ∧
  ∀ rid x, rid ∈ default ∅ (sl_retired_by r' !! x) ↔ retires q history rid x.
Proof.
  subst r'. assert (same_evidence r) as Hr by done.
  assert (∀ id e, (id, e) ∈ map_entries history → history !! id = Some e) as Hl
    by (intros id e; apply elem_of_map_entries).
  split; [exact (proj1 (retire_fold _ r "" "" Hl Hr))|].
  intros rid x. rewrite (proj2 (retire_fold _ r rid x Hl Hr)), (wd_retired _ _ _ Hwd), lookup_empty. simpl.
  split; [intros [?%elem_of_empty|[_ ?]]; done|]. intros Hre. right. split; [|done].
  destruct Hre as (e & res & He & _). exists e. by apply elem_of_map_entries.
Qed.

(** A key of the retirements has an act. *)
Lemma retire_keys x :
  x ∈ dom (sl_retired_by (foldl (retire q ancestors) r (map_entries history))) ↔
  ∃ rid, retires q history rid x.
Proof.
  assert (∀ y W, sl_retired_by (foldl (retire q ancestors) r (map_entries history)) !! y = Some W → W ≠ ∅)
    as Hne.
  { apply (foldl_keeps (λ s : EvidenceSelection Value, ∀ y W, sl_retired_by s !! y = Some W → W ≠ ∅)).
    - intros s [id e] Hs. unfold retire. destruct (se_payload e); try done.
      match goal with |- context [if ?a then _ else _] => destruct a end; cbn [sl_retired_by]; [|done].
      intros y W [[<- <-]|[_ ?]]%lookup_insert_Some; [set_solver|by apply (Hs y)].
    - intros y W. by rewrite (wd_retired _ _ _ Hwd), lookup_empty. }
  setoid_rewrite <- (proj2 retire_fold_retires). rewrite elem_of_dom. split.
  - intros [W HW]. destruct (set_choose_L W (Hne x W HW)) as [rid ?]. exists rid. by rewrite HW.
  - intros [rid Hin]. destruct (sl_retired_by _ !! x); [done|]. by apply elem_of_empty in Hin.
Qed.
End retire_loop.

(** ** The selection *)

Definition supported q history : Prop := ∃ id j, standing q history id j ∧ supports j = true.
Definition refuted q history : Prop := ∃ id j, standing q history id j ∧ refutes j = true.

(** What each conformance says of the history it was concluded from. *)
Definition conforms q history (c : Conformance) : Prop :=
  match c with
  | Satisfied => supported q history ∧ ¬ refuted q history
  | Violated => refuted q history ∧ ¬ supported q history
  | Conflicted => supported q history ∧ refuted q history
  | Stale => ¬ supported q history ∧ ¬ refuted q history ∧ ∃ id, outdated q history id
  | Unresolved => ¬ supported q history ∧ ¬ refuted q history ∧ ¬ ∃ id, outdated q history id
  end.

Definition closed_history history : Prop :=
  ∀ id e, history !! id = Some e → se_parents e ⊆ dom history.

Lemma standing_iff q history id (Q : TestJudgment Value → Prop) :
  (∃ j, standing q history id j ∧ Q j) ↔
  (∃ j, bears q history (λ _, True) id j ∧ Q j) ∧ ¬ ∃ rid, retires q history rid id.
Proof. unfold standing. naive_solver. Qed.

Lemma set_empty_iff (X : gset string) (P : string → Prop) :
  (∀ x, x ∈ X ↔ P x) → if bool_decide (X = ∅) then ¬ ∃ x, P x else ∃ x, P x.
Proof.
  intros HX. case_bool_decide as He.
  - intros (x & Hx%HX). rewrite He in Hx. by apply elem_of_empty in Hx.
  - apply set_choose_L in He as [x ?%HX]. by exists x.
Qed.

Lemma select_from_spec q history :
  closed_history history →
  ((∃ r, select_from q history = Ok r) ↔ ∀ id, ~ tc (parent_of history) id id) ∧
  ∀ r, select_from q history = Ok r →
    sl_history r = history ∧
    (∀ id, id ∈ sl_positive r ↔ ∃ j, standing q history id j ∧ supports j = true) ∧
    (∀ id, id ∈ sl_counterevidence r ↔ ∃ j, standing q history id j ∧ refutes j = true) ∧
    conforms q history (sl_conformance r).
Proof.
  intros Hcl. destruct (ancestors_exact history Hcl) as [Hac Hex]. unfold select_from.
  case_bool_decide as Hz; cbn [negb]; [|split; [|done]; rewrite <- Hac; split; [by intros []|done]].
  specialize (Hex Hz).
  destruct (foldl (judge q) _ _) as [r0 eligible] eqn:Hj. apply judge_fold_spec in Hj.
  pose proof (reuse_fold_weighed _ _ _ _ _ Hj Hex) as Hw.
  pose proof (retire_fold_retires _ _ _ _ Hw Hex) as [(Hh & _ & Hp & Hc & Hs & _) _].
  pose proof (retire_keys _ _ _ _ Hw Hex) as Hk.
  set (r1 := foldl (reuse _ _ _) _ _) in *. set (r2 := foldl (retire _ _) _ _) in *.
  assert (∀ id, id ∈ sl_positive r2 ∖ dom (sl_retired_by r2) ↔ ∃ j, standing q history id j ∧ supports j = true)
    as Hpos.
  { intros id. by rewrite elem_of_difference, Hk, Hp, (wd_positive _ _ _ Hw), standing_iff. }
  assert (∀ id, id ∈ sl_counterevidence r2 ∖ dom (sl_retired_by r2) ↔
    ∃ j, standing q history id j ∧ refutes j = true) as Hcn.
  { intros id. by rewrite elem_of_difference, Hk, Hc, (wd_counter _ _ _ Hw), standing_iff. }
  assert (∀ id, id ∈ sl_stale r2 ↔ outdated q history id) as Hst.
  { intros id. by rewrite Hs, (wd_stale _ _ _ Hw). }
  split; [rewrite <- Hac; split; [done|by eexists]|]. intros r [= <-]. unfold conclude.
  cbn [sl_history sl_positive sl_counterevidence sl_conformance].
  split; [by rewrite Hh, (wd_history _ _ _ Hw)|]. split; [done|]. split; [done|].
  apply set_empty_iff in Hpos, Hcn, Hst. unfold conforms, supported, refuted.
  destruct (bool_decide (sl_positive r2 ∖ _ = ∅)), (bool_decide (sl_counterevidence r2 ∖ _ = ∅)),
    (bool_decide (sl_stale r2 = ∅)); cbn [negb]; done.
Qed.

(** ** The whole selection *)

Definition indexed (events : list (SelectionEvent Value)) : events_map := list_to_map (keyed events).

Lemma indexed_lookup events id e :
  unambiguous events → indexed events !! id = Some e ↔ e ∈ events ∧ se_id e = id.
Proof.
  intros [Hnd _]. unfold indexed. rewrite <- elem_of_list_to_map by (by rewrite <- list_fmap_compose).
  rewrite list_elem_of_fmap. split; [by intros (e' & [= -> ->] & ?)|intros [? <-]; eauto].
Qed.

Definition reaches q events (id : string) : Prop :=
  ∃ f, f ∈ sq_frontier q ∧ rtc (parent_of (indexed events)) f id.

Lemma select_evidence_ok q events r :
  select_evidence q events = Some (Ok r) ↔
  valid_query q = true ∧ unambiguous events ∧ ∃ history,
    capture (capture_fuel (sq_frontier q) (indexed events)) (indexed events)
      (reverse (set_keys (sq_frontier q))) ∅ = Some (Ok history) ∧ select_from q history = Ok r.
Proof.
  unfold select_evidence. rewrite index_events_empty. fold (indexed events).
  destruct (valid_query q); [|naive_solver]. cbn [negb].
  destruct (decide (unambiguous events)); [|naive_solver].
  destruct (capture _ _ _ _) as [[h|x]|]; simpl; [|naive_solver..]. split.
  - intros [= ?]. eauto.
  - intros (_ & _ & h' & [= <-] & ->). done.
Qed.

(** The captured history: the events the frontier reaches, all authenticated. *)
Lemma captured fuel all (frontier : gset string) history :
  capture fuel all (reverse (set_keys frontier)) ∅ = Some (Ok history) →
  history ⊆ all ∧ closed_history history ∧
  (∀ id e, history !! id = Some e → verify_event e = true) ∧
  (∀ id, id ∈ dom history ↔ ∃ f, f ∈ frontier ∧ rtc (parent_of all) f id).
Proof.
  intros (H1 & H2 & _ & H4 & H5)%capture_ok; [|done..].
  split; [apply map_subseteq_spec; intros; by apply H1|]. split; [done|].
  split; [intros id e He; by apply (H1 id)|]. intros id. split.
  - intros [?%elem_of_dom|(f & Hf & ?)]%H5; [by rewrite lookup_empty in *; destruct H|].
    rewrite elem_of_reverse, elem_of_set_keys in Hf. eauto.
  - intros (f & Hf & Hr). assert (f ∈ dom history) as Hd by (apply H4; by rewrite elem_of_reverse, elem_of_set_keys).
    clear Hf. induction Hr as [|x y z (e & He & Hp) _ IH]; [done|]. apply IH.
    apply elem_of_dom in Hd as [e' He']. destruct (H1 _ _ He') as [? _]. simplify_eq. by apply (H2 x e).
Qed.

Lemma tc_parent_of all history id p :
  history ⊆ all → closed_history history → id ∈ dom history →
  tc (parent_of all) id p ↔ tc (parent_of history) id p.
Proof.
  intros Hsub Hcl Hid. assert (∀ x y, x ∈ dom history → parent_of all x y → parent_of history x y) as Hp.
  { intros x y [e He]%elem_of_dom (e' & He' & Hp). exists e. split; [done|].
    rewrite (lookup_weaken _ _ _ _ He Hsub) in He'. by simplify_eq. }
  split.
  - intros Ht. induction Ht as [x y Hxy|x y z Hxy _ IH]; [by apply tc_once, Hp|].
    apply (Hp _ _ Hid) in Hxy. apply (tc_l _ _ y); [done|]. apply IH.
    destruct Hxy as (e & He & Hy). by apply (Hcl x e).
  - clear Hid. induction 1 as [x y (e & He & Hy)|x y z (e & He & Hy) _ IH];
      [apply tc_once|apply (tc_l _ _ y); [|done]]; exists e; split; [|done| |done]; by eapply lookup_weaken.
Qed.

Lemma subseteq_indexed events events' :
  unambiguous events → unambiguous events' → (∀ e, e ∈ events → e ∈ events') →
  indexed events ⊆ indexed events'.
Proof.
  intros Hu Hu' Hsub. apply map_subseteq_spec. intros id e. rewrite !indexed_lookup by done.
  intros [? ?]. auto.
Qed.
End conformance.

Section theorems.
Context `{EqDecision Value, SelectionVerifier Value}.
Implicit Types (q : SelectionQuery) (events : list (SelectionEvent Value)).

(** Selection always returns: every history, ambiguous, incomplete or cyclic ones
    included, gives a selection or an error within the fuel of the capture. *)
Theorem select_evidence_returns q events : ∃ r, select_evidence q events = Some r.
Proof.
  unfold select_evidence. destruct (valid_query q); [|by eexists]. cbn [negb].
  destruct (index_events events ∅) as [all|x]; [|by eexists].
  destruct (capture_fuel_enough (sq_frontier q) all) as [r ->]. by eexists.
Qed.

(** Selection fails closed and for no other reason: it yields a selection exactly
    when the query names everything, the identities of the events are distinct and
    non-empty, every event that the frontier reaches through parents is present and
    authenticated, and none of them is its own ancestor. *)
Theorem selection_admits_iff q events :
  (∃ r, select_evidence q events = Some (Ok r)) ↔
  valid_query q = true ∧ unambiguous events ∧
  (∀ id, reaches q events id → ∃ e, e ∈ events ∧ se_id e = id ∧ verify_event e = true) ∧
  (∀ id, reaches q events id → ~ tc (parent_of (indexed events)) id id).
Proof.
  setoid_rewrite select_evidence_ok. split.
  - intros (r & Hv & Hu & h & Hc & Hs). split; [done|]. split; [done|].
    apply captured in Hc as (Hsub & Hcl & Hver & Hdom). split.
    + intros id [e He]%Hdom%elem_of_dom. exists e. split_and!; [..|by apply (Hver id)];
        apply (lookup_weaken _ _ _ _ He), indexed_lookup in Hsub; naive_solver.
    + intros id Hid%Hdom. rewrite (tc_parent_of _ h) by done.
      apply (proj1 (select_from_spec q h Hcl)). by exists r.
  - intros (Hv & Hu & Hall & Hac).
    destruct (capture_fuel_enough (sq_frontier q) (indexed events)) as [[h|x] Hc].
    + pose proof (captured _ _ _ _ Hc) as (Hsub & Hcl & Hver & Hdom).
      destruct (proj2 (proj1 (select_from_spec q h Hcl))) as [r Hr]; [|by exists r; eauto].
      intros id Ht. assert (id ∈ dom h) as Hid
        by (inversion Ht as [? ? (e & He & _)|? ? ? (e & He & _)]; by apply elem_of_dom_2 in He).
      apply (Hac id); [by apply Hdom|]. by rewrite (tc_parent_of _ h).
    + exfalso. apply capture_err in Hc as (f & id & Hf & Hr & Hx).
      rewrite elem_of_reverse, elem_of_set_keys in Hf. destruct (Hall id) as (e & He & Hid & Hve); [by exists f|].
      assert (indexed events !! id = Some e) as Hl by by apply indexed_lookup.
      destruct Hx as [[Hn _]|(e' & He' & Hv' & _)]; congruence.
Qed.

(** C33: A selection is exactly what its causal history supports.  The history holds the
    events the frontier reaches.  The positive evidence and the counterevidence are the
    accepted, adequate reports (those with a genuine counterexample) on the queried
    artifact or carried over to it by a verified preservation act, less those that an
    authorised resolution in scope retires in favour of other evidence it could see; and
    the conformance is the one these leave. *)
Theorem selection_exact q events r :
  select_evidence q events = Some (Ok r) →
  (∀ id e, sl_history r !! id = Some e ↔ e ∈ events ∧ se_id e = id ∧ reaches q events id) ∧
  (∀ id, id ∈ sl_positive r ↔ ∃ j, standing q (sl_history r) id j ∧ supports j = true) ∧
  (∀ id, id ∈ sl_counterevidence r ↔ ∃ j, standing q (sl_history r) id j ∧ refutes j = true) ∧
  conforms q (sl_history r) (sl_conformance r).
Proof.
  intros (Hv & Hu & h & Hc & Hs)%select_evidence_ok.
  apply captured in Hc as (Hsub & Hcl & Hver & Hdom).
  destruct (proj2 (select_from_spec q h Hcl) r Hs) as (-> & Hp & Hn & Hcf).
  split; [|done]. intros id e. pose proof (indexed_lookup events id e Hu) as Hix. split.
  - intros He. apply (lookup_weaken _ _ _ _ He), Hix in Hsub as [? ?]. apply elem_of_dom_2, Hdom in He. done.
  - intros (Hin & Hid & [e' He']%Hdom%elem_of_dom). rewrite He'. rewrite <- (proj2 Hix) by done.
    symmetry. by eapply lookup_weaken.
Qed.

(** Input order and events outside the captured past confer no priority: a history
    that holds the events of another one, in any order and with any further events
    beside them, gives the same selection. *)
Theorem selection_stable q events events' r :
  select_evidence q events = Some (Ok r) → unambiguous events' → (∀ e, e ∈ events → e ∈ events') →
  select_evidence q events' = Some (Ok r).
Proof.
  rewrite !select_evidence_ok. intros (Hv & Hu & h & Hc & Hs) Hu' Hsub.
  split; [done|]. split; [done|]. exists h. split; [|done].
  apply (subseteq_indexed _ _ Hu Hu') in Hsub. apply (capture_larger _ _ _ _ _ _ Hc) in Hsub as Hc'.
  destruct (capture_fuel_enough (sq_frontier q) (indexed events')) as [r' Hr'].
  rewrite Hr'. by rewrite (capture_fun _ _ _ _ _ _ _ Hr' Hc').
Qed.
End theorems.

(** ** An example

    A failing report [o] on the queried artifact, a passing one [p] on an older artifact
    that the act [w] carries over, and the resolution [r] of [o] in favour of [p]. *)

Definition trusting_selection : SelectionVerifier string :=
  {| sv_report := trusting; sv_preservation := λ _, true; verify_event _ := true;
     accepts_contract _ _ := true; authorize_resolution _ _ := true; accepts_preservation _ _ := true |}.

Definition example_query (frontier : gset string) : SelectionQuery :=
  mkQuery (example_version "req") "artifact" (example_version "policy") "now" frontier.

Definition older_subject : EvidenceSubject :=
  mkSubject (example_version "req") (example_version "pytest") "older".

Definition example_witness : PreservationWitness :=
  mkWitness "w" (mkPContext (example_version "req") (example_version "pytest") (example_version "policy")
    "older" "artifact" (example_version "boundary")) CompleteExact Deterministic [] [] ∅.

Definition example_history : list (SelectionEvent string) :=
  [ mkEvent "r" {[ "w"; "o" ]} (PResolution
      (mkResolution "o" "p" (example_version "req") "artifact" "flaky fixture"));
    mkEvent "w" {[ "p" ]} (PPreservation "p" example_witness);
    mkEvent "o" ∅ (PObservation example_contract (example_report "3" Failure));
    mkEvent "p" ∅ (PObservation (mkContract older_subject (ct_cases example_contract))
      (mkReport older_subject (Some (Interpreted "f" "py" "env")) Complete Success
        (tr_observations (example_report "2" Success)))) ].

Definition concluded (r : option (result selection_error (EvidenceSelection string))) : option Conformance :=
  match r with Some (Ok s) => Some (sl_conformance s) | _ => None end.

Example selection_by_frontier :
  concluded (select_evidence (H := trusting_selection) (example_query {[ "r" ]}) example_history)
    = Some Satisfied ∧
  concluded (select_evidence (H := trusting_selection) (example_query {[ "w"; "o" ]}) example_history)
    = Some Conflicted ∧
  concluded (select_evidence (H := trusting_selection) (example_query {[ "o" ]}) example_history)
    = Some Violated ∧
  concluded (select_evidence (H := trusting_selection) (example_query {[ "p" ]}) example_history)
    = Some Stale.
Proof. vm_compute. done. Qed.

(** The selection of the example, for the witnesses. *)
Definition example_selection : EvidenceSelection string :=
  match select_evidence (H := trusting_selection) (example_query {[ "r" ]}) example_history with
  | Some (Ok s) => s
  | _ => empty_selection (example_query ∅) ∅
  end.

Lemma example_selection_eq :
  select_evidence (H := trusting_selection) (example_query {[ "r" ]}) example_history
    = Some (Ok example_selection).
Proof. vm_compute. reflexivity. Qed.

Lemma selection_exact_witness :
  sl_conformance example_selection = Satisfied ∧
  conforms (H := trusting_selection) (example_query {[ "r" ]}) (sl_history example_selection) Satisfied.
Proof.
  assert (sl_conformance example_selection = Satisfied) as Heq by (vm_compute; reflexivity).
  split; [exact Heq|].
  pose proof (selection_exact (H := trusting_selection) (example_query {[ "r" ]}) example_history
    example_selection example_selection_eq) as (_ & _ & _ & Hc).
  rewrite Heq in Hc. exact Hc.
Defined.

Lemma selection_stable_witness :
  select_evidence (H := trusting_selection) (example_query {[ "r" ]})
    (mkEvent "later" {[ "r"; "unknown" ]} PContext :: reverse example_history)
    = Some (Ok example_selection).
Proof.
  refine (selection_stable (H := trusting_selection) (example_query {[ "r" ]}) example_history
    (mkEvent "later" {[ "r"; "unknown" ]} PContext :: reverse example_history)
    example_selection example_selection_eq _ _).
  - split; [apply (bool_decide_eq_true_1 _); vm_compute; reflexivity|repeat constructor].
  - intros e He. right. by apply elem_of_reverse.
Defined.
