(* ===== verification/NormCompatibility.v ===== *)
(** Joint compatibility of typed norms (core/norm_compatibility.rs): norms as
    conjunctions of comparisons over finite domains, their parser, the grouping of norms
    that share a variable, the bounded enumeration of assignments, and the deletion loop
    that shrinks an inconsistent group to a minimal core.

    [None] in the result of [holds], [model] and what calls them says that the code
    panics on an index out of range, or that the fuel ran out.  Texts of reasons and
    errors are constructors.  [UnicodeTable] says which characters beyond ASCII are
    alphanumeric. *)
From S2P Require Import Prelude RustStr MachineInt.

(** ** Data *)

Inductive Value := VBool (b : bool) | VInt (z : Z) | VText (s : string).
#[export] Instance value_eq_dec : EqDecision Value.
Proof. solve_decision. Defined.

Inductive Domain := DBool | DEnum (values : list string) | DInt (min max : Z).
#[export] Instance domain_eq_dec : EqDecision Domain.
Proof. solve_decision. Defined.

Definition values (d : Domain) : list Value :=
  match d with
  | DBool => [VBool false; VBool true]
  | DEnum vs => VText <$> vs
  | DInt min max => VInt <$> seqZ min (max - min + 1)
  end.

Definition domain_size (d : Domain) : Z :=
  match d with
  | DBool => 2
  | DEnum vs => Z.of_nat (length vs)
  | DInt min max => Z.max (max - min + 1) 0
  end.

(** The derived [Ord]: variants in their order of declaration, then contents. *)
Definition value_lt (x y : Value) : bool :=
  match x, y with
  | VBool a, VBool b => negb a && b
  | VBool _, _ => true
  | VInt _, VBool _ => false
  | VInt a, VInt b => (a <? b)%Z
  | VInt _, VText _ => true
  | VText a, VText b => bool_decide (String.le a b) && negb (bool_decide (a = b))
  | VText _, _ => false
  end.
Definition value_le (x y : Value) : bool := value_lt x y || bool_decide (x = y).

Inductive Comparison := CEq | CNe | CLt | CLe | CGt | CGe.

Inductive Operand := OVariable (name : string) | OLiteral (v : Value).

Record Atom := mkAtom { left_ : string; comparison : Comparison; right_ : Operand }.

Record TypedNorm := mkNorm { variables : gmap string Domain; atoms : list Atom }.

Inductive unresolved_reason :=
| BudgetExceeded (space budget : Z)
| DomainsDisagree (name : string).

Inductive Outcome :=
| Compatible (witness : gmap string Value)
| Incompatible (core : list string)
| UnresolvedOutcome (reason : unresolved_reason).

Record Component := mkComponent {
  cp_norms : list string;
  cp_variables : list string;
  cp_outcome : Outcome;
}.

(** ** The bounded check *)

Definition compares (c : Comparison) (x y : Value) : bool :=
  match c with
  | CEq => bool_decide (x = y)
  | CNe => negb (bool_decide (x = y))
  | CLt => value_lt x y
  | CLe => value_le x y
  | CGt => value_lt y x
  | CGe => value_le y x
  end.

Definition operand (assignment : gmap string Value) (o : Operand) : option Value :=
  match o with OVariable name => assignment !! name | OLiteral v => Some v end.

(** [iter().all] stops at the first atom that fails. *)
Fixpoint holds_atoms (l : list Atom) (assignment : gmap string Value) : option bool :=
  match l with
  | [] => Some true
  | a :: rest =>
      x ← assignment !! left_ a;
      y ← operand assignment (right_ a);
      if compares (comparison a) x y then holds_atoms rest assignment else Some false
  end.
Definition holds (n : TypedNorm) (assignment : gmap string Value) : option bool :=
  holds_atoms (atoms n) assignment.

Fixpoint all_hold (norms : list TypedNorm) (assignment : gmap string Value) : option bool :=
  match norms with
  | [] => Some true
  | n :: rest =>
      b ← holds n assignment;
      if (b : bool) then all_hold rest assignment else Some false
  end.

Definition u128_max : Z := 2 ^ 128 - 1.

Definition checked_mul_u128 (a b : Z) : option Z :=
  if (a * b <=? u128_max)%Z then Some (a * b)%Z else None.

(** The number of assignments, or the maximum when it overflows. *)
Definition space (vars : gmap string Domain) : Z :=
  default u128_max
    (foldl (λ acc d, acc ≫= λ s, checked_mul_u128 s (domain_size d)) (Some 1%Z) (map_entries vars).*2).

(** The inner loop, which advances the index; [None] when every position wraps. *)
Fixpoint advance (index : list nat) (domains : list (list Value)) : option (list nat) :=
  match index, domains with
  | i :: index', d :: domains' =>
      if S i <? length d then Some (S i :: index')
      else (λ r, 0 :: r) <$> advance index' domains'
  | _, _ => None
  end.

(** The values at an index, in step with the domains. *)
Fixpoint pick (index : list nat) (domains : list (list Value)) : option (list Value) :=
  match index, domains with
  | i :: index', d :: domains' => v ← d !! i; r ← pick index' domains'; Some (v :: r)
  | _, _ => Some []
  end.

Fixpoint enumerate (fuel : nat) (norms : list TypedNorm) (names : list string)
    (domains : list (list Value)) (index : list nat) : option (option (gmap string Value)) :=
  match fuel with
  | 0 => None
  | S fuel' =>
      vs ← pick index domains;
      let assignment : gmap string Value := list_to_map (zip names vs) in
      b ← all_hold norms assignment;
      if (b : bool) then Some (Some assignment)
      else match advance index domains with
      | None => Some None
      | Some index' => enumerate fuel' norms names domains index'
      end
  end.

Definition model (norms : list TypedNorm) (vars : gmap string Domain) (budget : Z)
    : option (result unresolved_reason (option (gmap string Value))) :=
  if (space vars >? budget)%Z then Some (Err (BudgetExceeded (space vars) budget))
  else
    let names := map_keys vars in
    let domains := (values ∘ snd) <$> map_entries vars in
    let fuel := foldr (λ d n, length d * n) 1 domains in
    Ok <$> enumerate fuel norms names domains (replicate (length names) 0).

(** ** The components *)

Section check.
Context (norms : gmap string TypedNorm) (comparable : string → string → bool).

Definition variables_of (id : string) : gmap string Domain :=
  match norms !! id with Some n => variables n | None => ∅ end.

Definition shared (a b : string) : bool :=
  comparable a b && existsb (λ name, bool_decide (is_Some (variables_of b !! name))) (map_keys (variables_of a)).

(** Every member of the group of [b] joins the group of [a]. *)
Definition relabel (group : gmap string nat) (a b : string) : gmap string nat :=
  let from := default 0 (group !! b) in
  let to := default 0 (group !! a) in
  (λ value, if bool_decide (value = from) then to else value) <$> group.

Fixpoint link (ids : list string) (group : gmap string nat) : gmap string nat :=
  match ids with
  | [] => group
  | a :: rest => link rest (foldl (λ g b, if shared a b then relabel g a b else g) group rest)
  end.

Definition initial_group (ids : list string) : gmap string nat :=
  list_to_map (imap (λ i id, (id, i)) ids).

(** The members of each group, in the order of the roots. *)
Definition by_root (group : gmap string nat) : gmap nat (list string) :=
  foldl (λ m e, <[ e.2 := default [] (m !! e.2) ++ [e.1] ]> m) ∅ (map_entries group).

Definition into_values (m : gmap nat (list string)) : list (list string) :=
  omap (λ root, m !! root) (merge_sort le (map_to_list m).*1).

Definition groups : list (list string) :=
  into_values (by_root (link (map_keys norms) (initial_group (map_keys norms)))).

(** The variables of a group, and the last name declared with two domains. *)
Definition declare (acc : gmap string Domain * option string) (e : string * Domain)
    : gmap string Domain * option string :=
  let '(vars, clash) := acc in
  match vars !! e.1 with
  | Some existing =>
      if bool_decide (existing = e.2) then (<[ e.1 := e.2 ]> vars, clash) else (vars, Some e.1)
  | None => (<[ e.1 := e.2 ]> vars, clash)
  end.

Definition collect_variables (members : list string) : gmap string Domain * option string :=
  foldl (λ acc m, foldl declare acc (map_entries (variables_of m))) (∅, None) members.

Definition norms_of (members : list string) : list TypedNorm := omap (λ m, norms !! m) members.

(** The loop that drops a norm whenever the rest stays inconsistent. *)
Fixpoint shrink (fuel : nat) (vars : gmap string Domain) (budget : Z) (at_ : nat) (core : list string)
    : option (list string) :=
  match fuel with
  | 0 => None
  | S fuel' =>
      if at_ <? length core then
        let rest := take at_ core ++ drop (S at_) core in
        let norms_rest := norms_of rest in
        let vars_rest := filter (λ e, existsb (λ n, bool_decide (is_Some (variables n !! e.1))) norms_rest = true)
          vars in
        m ← model norms_rest vars_rest budget;
        match m with
        | Ok None => shrink fuel' vars budget at_ rest
        | _ => shrink fuel' vars budget (S at_) core
        end
      else Some core
  end.

Definition check_component (budget : Z) (members : list string) : option Component :=
  let '(vars, clash) := collect_variables members in
  outcome ← match clash with
    | Some name => Some (UnresolvedOutcome (DomainsDisagree name))
    | None =>
        m ← model (norms_of members) vars budget;
        match m with
        | Err reason => Some (UnresolvedOutcome reason)
        | Ok (Some witness) => Some (Compatible witness)
        | Ok None => Incompatible <$> shrink (S (length members)) vars budget 0 members
        end
    end;
  Some (mkComponent members (map_keys vars) outcome).

Definition check_with (budget : Z) : option (list Component) := mapM (check_component budget) groups.
End check.

Definition check (norms : gmap string TypedNorm) (budget : Z) : option (list Component) :=
  check_with norms (λ _ _, true) budget.

(** ** The parser *)

Inductive parse_error :=
| NeedsNameType (declaration : string)
| NotIdentifier (name : string)
| EnumValues (name : string)
| IntForm (name : string)
| IntBound (name : string)
| EmptyRange (name : string)
| UnsupportedType (name kind : string)
| DeclaredTwice (name : string)
| NoComparison (atom : string)
| Undeclared (atom name : string)
| DifferentTypes (atom : string)
| OrdersNonInteger (atom : string).

Definition strip_suffix (p s : string) : option string :=
  String.rev <$> strip_prefix (String.rev p) (String.rev s).

(** [s.split(p)] for a non-empty string. *)
Fixpoint split_str (fuel : nat) (p s : string) : list string :=
  match fuel with
  | 0 => [s]
  | S fuel' =>
      match split_once_str p s with
      | Some (l, r) => l :: split_str fuel' p r
      | None => [s]
      end
  end.

Section parse.
Context `{UnicodeTable}.

Definition is_identifier (name : string) : bool :=
  negb (bool_decide (name = ""%string)) && forallb identifier_char (utf8_chars name).

(** The text between a prefix and a suffix. *)
Definition enclosed (p s kind : string) : option string := strip_prefix p kind ≫= strip_suffix s.

Definition parse_domain (name kind : string) : result parse_error Domain :=
  if bool_decide (kind = "bool"%string) then Ok DBool
  else match enclosed "enum(" ")" kind with
  | Some inner =>
      let vs := trim <$> split_char "," inner in
      if existsb (λ v, bool_decide (v = ""%string)) vs
         || negb (bool_decide (size (list_to_set vs : gset string) = length vs))
      then Err (EnumValues name) else Ok (DEnum vs)
  | None =>
      match enclosed "int(" ")" kind with
      | Some range =>
          '(lo, hi) ← ok_or (IntForm name) (split_once_str ".." range);
          min ← ok_or (IntBound name) (parse_i64 (trim lo));
          max ← ok_or (IntBound name) (parse_i64 (trim hi));
          if (min >? max)%Z then Err (EmptyRange name) else Ok (DInt min max)
      | None => Err (UnsupportedType name kind)
      end
  end.

Definition parse_declaration (vars : gmap string Domain) (declaration : string)
    : result parse_error (gmap string Domain) :=
  '(name, kind) ← ok_or (NeedsNameType declaration) (split_once ":" declaration);
  let name := trim name in
  if negb (is_identifier name) then Err (NotIdentifier name)
  else
    domain ← parse_domain name (trim kind);
    if bool_decide (is_Some (vars !! name)) then Err (DeclaredTwice name)
    else Ok (<[ name := domain ]> vars).

(** The first of the operators, in this order, that occurs in the atom. *)
Definition operators : list (string * Comparison) :=
  [("!=", CNe); ("<=", CLe); (">=", CGe); ("=", CEq); ("<", CLt); (">", CGt)]%string.

Definition split_atom (atom : string) : option (string * Comparison * string) :=
  head (omap (λ op, (λ lr, (trim lr.1, op.2, trim lr.2)) <$> split_once_str op.1 atom) operators).

Definition same_kind (d d' : Domain) : bool :=
  match d, d' with
  | DBool, DBool | DEnum _, DEnum _ | DInt _ _, DInt _ _ => true
  | _, _ => false
  end.

Definition parse_operand (vars : gmap string Domain) (atom : string) (domain : Domain) (right : string)
    : result parse_error Operand :=
  match enclosed (String "034" "") (String "034" "") right with
  | Some text => Ok (OLiteral (VText text))
  | None =>
      if bool_decide (right = "true"%string) || bool_decide (right = "false"%string)
      then Ok (OLiteral (VBool (bool_decide (right = "true"%string))))
      else match parse_i64 right with
      | Some number => Ok (OLiteral (VInt number))
      | None =>
          other ← ok_or (Undeclared atom right) (vars !! right);
          if same_kind other domain then Ok (OVariable right) else Err (DifferentTypes atom)
      end
  end.

Definition ordered (c : Comparison) : bool :=
  match c with CLt | CLe | CGt | CGe => true | CEq | CNe => false end.

Definition parse_atom (vars : gmap string Domain) (atom : string) : result parse_error Atom :=
  '(l, c, r) ← ok_or (NoComparison atom) (split_atom atom);
  domain ← ok_or (Undeclared atom l) (vars !! l);
  o ← parse_operand vars atom domain r;
  match ordered c, domain with
  | true, DBool | true, DEnum _ => Err (OrdersNonInteger atom)
  | _, _ => Ok (mkAtom l c o)
  end.

Fixpoint fold_result {E A B} (f : B → A → result E B) (acc : B) (l : list A) : result E B :=
  match l with
  | [] => Ok acc
  | x :: rest => f acc x ≫= λ acc', fold_result f acc' rest
  end.

Definition parse (declarations : list string) (formula : string) : result parse_error TypedNorm :=
  vars ← fold_result parse_declaration ∅ declarations;
  let parts := filter (λ a, a ≠ ""%string) (trim <$> split_str (String.length formula) " and " formula) in
  parsed ← fold_result (λ acc atom, (λ a, acc ++ [a]) <$> parse_atom vars atom) [] parts;
  Ok (mkNorm vars parsed).
End parse.

(** ** Examples *)

#[local] Instance ascii_only : UnicodeTable := λ _, false.

Definition norm_of (declarations : list string) (formula : string) : TypedNorm :=
  match parse declarations formula with Ok n => n | Err _ => mkNorm ∅ [] end.

(** The pairwise compatible and jointly inconsistent triple. *)
Definition triple : gmap string TypedNorm :=
  let bools := ["x: bool"; "y: bool"; "z: bool"]%string in
  <[ "a" := norm_of bools "x = y" ]> (<[ "b" := norm_of bools "y = z" ]> {[ "c" := norm_of bools "x != z" ]}).

Example triple_incompatible :
  option_map (map cp_outcome) (check triple 1024) = Some [Incompatible ["a"; "b"; "c"]]%string.
Proof. vm_compute. reflexivity. Qed.

Example pairs_compatible :
  forallb (λ id, match check (delete id triple) 1024 with
                 | Some [c] => match cp_outcome c with Compatible _ => true | _ => false end
                 | _ => false end) ["a"; "b"; "c"]%string = true.
Proof. vm_compute. reflexivity. Qed.

Definition limits : gmap string TypedNorm :=
  <[ "ceiling" := norm_of ["limit: int(0..10)"] "limit <= 5" ]>
  (<[ "ceiling-2" := norm_of ["limit: int(0..10)"] "limit <= 2" ]>
  (<[ "floor" := norm_of ["limit: int(0..10)"] "limit >= 3" ]>
  (<[ "separate" := norm_of ["on: bool"] "on = true" ]>
  {[ "strict" := norm_of ["mode: enum(strict, lax)"]
       (String.concat (String "034" "") ["mode = "; "strict"; ""]) ]}))).

Example limits_components :
  option_map (map (λ c, (cp_norms c, cp_outcome c))) (check limits 1024) = Some
    [(["ceiling"; "ceiling-2"; "floor"], Incompatible ["ceiling-2"; "floor"]);
     (["separate"], Compatible {[ "on" := VBool true ]});
     (["strict"], Compatible {[ "mode" := VText "strict" ]})]%string.
Proof. vm_compute. reflexivity. Qed.

Example wide_unresolved :
  option_map (map cp_outcome) (check {[ "a" := norm_of ["n: int(0..1000)"; "m: int(0..1000)"] "n = m" ]} 1024)
  = Some [UnresolvedOutcome (BudgetExceeded 1002001 1024)]%string.
Proof. vm_compute. reflexivity. Qed.

(** ** Lemmas: the enumeration *)

Definition in_range (index : list nat) (domains : list (list Value)) : Prop :=
  Forall2 (λ i d, i < length d) index domains.

(** The place of an index in the order of the enumeration. *)
Fixpoint rank (index : list nat) (domains : list (list Value)) : nat :=
  match index, domains with
  | i :: index', d :: domains' => i + length d * rank index' domains'
  | _, _ => 0
  end.

Abbreviation index_count domains := (foldr (λ (d : list Value) n, length d * n) 1 domains).

Lemma rank_lt index domains : in_range index domains → rank index domains < index_count domains.
Proof. induction 1; simpl; nia. Qed.

Lemma rank_inj index index' domains :
  in_range index domains → in_range index' domains → rank index domains = rank index' domains →
  index = index'.
Proof.
  intros Hi. revert index'. induction Hi as [|i d index domains Hlt Hi IH]; intros index' Hi' Hr.
  { by inversion Hi'. }
  inversion Hi' as [|i' ? index2 ? Hlt' Hi2]; subst. simpl in Hr.
  assert (rank index domains = rank index2 domains) as Hrest by nia.
  rewrite Hrest in Hr. f_equal; [lia|]. by apply IH.
Qed.

Lemma advance_some index domains index' :
  in_range index domains → advance index domains = Some index' →
  in_range index' domains ∧ rank index' domains = S (rank index domains).
Proof.
  intros Hi. revert index'. induction Hi as [|i d index domains Hlt Hi IH]; intros index'; cbn [advance]; [done|].
  destruct (S i <? length d) eqn:Hb.
  - intros [= <-]. apply Nat.ltb_lt in Hb. split; [by constructor|]. simpl. lia.
  - intros (r & Hr & ->)%fmap_Some. destruct (IH r Hr) as [Hin Heq]. apply Nat.ltb_ge in Hb.
    split; [constructor; [lia|done]|]. simpl. rewrite Heq. nia.
Qed.

Lemma advance_none index domains :
  in_range index domains → advance index domains = None → S (rank index domains) = index_count domains.
Proof.
  induction 1 as [|i d index domains Hlt Hi IH]; cbn [advance]; [done|].
  destruct (S i <? length d) eqn:Hb; [done|]. intros ?%fmap_None%IH. apply Nat.ltb_ge in Hb. simpl. nia.
Qed.

Lemma pick_some index domains :
  in_range index domains → ∃ vs, pick index domains = Some vs ∧ Forall2 (λ v d, v ∈ d) vs domains.
Proof.
  induction 1 as [|i d index domains Hlt Hi (vs & Hvs & Hf)]; cbn [pick]; [by exists []|].
  destruct (lookup_lt_is_Some_2 d i Hlt) as [v Hv]. rewrite Hv, Hvs. simpl. exists (v :: vs).
  split; [done|]. constructor; [|done]. by eapply list_elem_of_lookup_2.
Qed.

Lemma pick_all vs domains :
  Forall2 (λ v d, v ∈ d) vs domains → ∃ index, in_range index domains ∧ pick index domains = Some vs.
Proof.
  induction 1 as [|v d vs domains Hv Hf (index & Hi & Hp)]; [by exists []; repeat constructor|].
  apply list_elem_of_lookup_1 in Hv as [i Hi']. exists (i :: index). split.
  - constructor; [by eapply lookup_lt_Some|done].
  - cbn [pick]. by rewrite Hi', Hp.
Qed.

Definition assign (names : list string) (domains : list (list Value)) (index : list nat) : gmap string Value :=
  list_to_map (zip names (default [] (pick index domains))).

(** The loop visits every index, in the order of their ranks. *)
Lemma enumerate_spec fuel norms names domains index :
  in_range index domains → index_count domains ≤ rank index domains + fuel →
  (∀ i, in_range i domains → is_Some (all_hold norms (assign names domains i))) →
  (∀ i, in_range i domains → rank i domains < rank index domains →
     all_hold norms (assign names domains i) = Some false) →
  ∃ r, enumerate fuel norms names domains index = Some r ∧
    match r with
    | Some a => ∃ i, in_range i domains ∧ a = assign names domains i ∧ all_hold norms a = Some true
    | None => ∀ i, in_range i domains → all_hold norms (assign names domains i) = Some false
    end.
Proof.
  revert index. induction fuel as [|fuel IH]; intros index Hi Hf Htot Hseen.
  { apply rank_lt in Hi. lia. }
  cbn [enumerate]. destruct (pick_some _ _ Hi) as (vs & Hvs & _). rewrite Hvs. cbn [mbind option_bind].
  destruct (Htot index Hi) as [b Hb]. pose proof Hb as Hb'. unfold assign in Hb'. rewrite Hvs in Hb'. simpl in Hb'.
  rewrite Hb'. destruct b.
  { eexists. split; [done|]. exists index. unfold assign. by rewrite Hvs. }
  assert (∀ i, in_range i domains → rank i domains < S (rank index domains) →
    all_hold norms (assign names domains i) = Some false) as Hseen'.
  { intros i Hi' Hr. destruct (decide (rank i domains = rank index domains)) as [Heq|];
      [by rewrite (rank_inj _ _ _ Hi' Hi Heq)|apply Hseen; [done|lia]]. }
  destruct (advance index domains) as [index'|] eqn:Ha.
  - destruct (advance_some _ _ _ Hi Ha) as [Hi' Hr]. apply IH; [done|lia|done|by rewrite Hr].
  - exists None. split; [done|]. intros i Hi'. apply Hseen'; [done|].
    rewrite (advance_none _ _ Hi Ha). by apply rank_lt.
Qed.

(** ** Lemmas: assignments *)

(** [a] gives each variable a value of its domain. *)
Definition in_domains (vars : gmap string Domain) (a : gmap string Value) : Prop :=
  ∀ x d, vars !! x = Some d → ∃ v, a !! x = Some v ∧ v ∈ values d.

Definition mentions (at_ : Atom) (x : string) : Prop := x = left_ at_ ∨ right_ at_ = OVariable x.

(** A norm whose atoms use variables that are declared, in [vars]. *)
Definition declared_in (vars : gmap string Domain) (n : TypedNorm) : Prop :=
  ∀ at_ x, at_ ∈ atoms n → mentions at_ x → is_Some (vars !! x).

Definition inhabited_domains (vars : gmap string Domain) : Prop :=
  ∀ x d, vars !! x = Some d → values d ≠ [].

Definition wf_norm (n : TypedNorm) : Prop :=
  declared_in (variables n) n ∧ inhabited_domains (variables n).

Lemma holds_atoms_agree l (a a' : gmap string Value) :
  (∀ at_ x, at_ ∈ l → mentions at_ x → a !! x = a' !! x) → holds_atoms l a = holds_atoms l a'.
Proof.
  induction l as [|at_ l IH]; intros Hag; [done|]. cbn [holds_atoms].
  rewrite (Hag at_ (left_ at_)) by (by left). destruct (a' !! left_ at_) as [v|]; [|done]. cbn [mbind option_bind].
  assert (operand a (right_ at_) = operand a' (right_ at_)) as ->.
  { destruct (right_ at_) as [y|w] eqn:Hr; [|done]. simpl. apply (Hag at_); [by left|by right]. }
  destruct (operand a' (right_ at_)); [|done]. cbn [mbind option_bind].
  rewrite IH; [done|]. intros at' x ?. apply Hag. by right.
Qed.

Lemma holds_atoms_total l (a : gmap string Value) :
  (∀ at_ x, at_ ∈ l → mentions at_ x → is_Some (a !! x)) → is_Some (holds_atoms l a).
Proof.
  induction l as [|at_ l IH]; intros Hm; [by eexists|]. cbn [holds_atoms].
  destruct (Hm at_ (left_ at_)) as [v ->]; [by left|by left|]. cbn [mbind option_bind].
  assert (is_Some (operand a (right_ at_))) as [w ->].
  { destruct (right_ at_) as [y|w] eqn:Hr; [|by eexists]. apply (Hm at_); [by left|by right]. }
  cbn [mbind option_bind]. destruct (compares _ _ _); [|by eexists].
  apply IH. intros at' x ?. apply Hm. by right.
Qed.

Lemma holds_agree vars n a a' :
  declared_in vars n → (∀ x, is_Some (vars !! x) → a !! x = a' !! x) → holds n a = holds n a'.
Proof. intros Hd Hag. apply holds_atoms_agree. intros at_ x Hin Hm. by apply Hag, (Hd at_). Qed.

Lemma holds_total vars n a :
  declared_in vars n → (∀ x, is_Some (vars !! x) → is_Some (a !! x)) → is_Some (holds n a).
Proof. intros Hd Hs. apply holds_atoms_total. intros at_ x Hin Hm. by apply Hs, (Hd at_). Qed.

Lemma all_hold_spec norms a :
  Forall (λ n, is_Some (holds n a)) norms →
  is_Some (all_hold norms a) ∧
  (all_hold norms a = Some true ↔ ∀ n, n ∈ norms → holds n a = Some true).
Proof.
  induction 1 as [|n norms [b Hb] _ [IHs IHt]]; cbn [all_hold].
  { split; [by eexists|]. split; [by intros _ n ?%elem_of_nil|done]. }
  rewrite Hb. cbn [mbind option_bind]. destruct b.
  - split; [done|]. rewrite IHt. split.
    + intros Hall n' [->|?]%elem_of_cons; auto.
    + intros Hall n' ?. apply Hall. by right.
  - split; [by eexists|]. split; [done|]. intros Hall. rewrite (Hall n) in Hb by (by left). done.
Qed.

(** The indexes of the enumeration are the assignments of the variables. *)
Lemma zip_lookup {A B} (f : A → list B) (l : list (string * A)) (vs : list B) x :
  NoDup l.*1 → Forall2 (λ v d, v ∈ d) vs ((f ∘ snd) <$> l) →
  (∀ d, (x, d) ∈ l → ∃ v, (list_to_map (zip l.*1 vs) : gmap string B) !! x = Some v ∧ v ∈ f d) ∧
  (x ∉ l.*1 → (list_to_map (zip l.*1 vs) : gmap string B) !! x = None).
Proof.
  revert vs. induction l as [|[y d] l IH]; intros vs Hnd Hf.
  { split; [by intros d ?%elem_of_nil|done]. }
  rewrite fmap_cons in Hf. rewrite fmap_cons, NoDup_cons in Hnd. destruct Hnd as [Hni Hnd].
  inversion Hf as [|v ? vs' ? Hv Hf']; subst. destruct (IH vs' Hnd Hf') as [IH1 IH2].
  rewrite fmap_cons. simpl. split.
  - intros d' [[= -> ->]|Hin]%elem_of_cons; [exists v; by rewrite lookup_insert_eq|].
    rewrite lookup_insert_ne; [by apply IH1|]. intros <-. apply Hni, list_elem_of_fmap. by exists (y, d').
  - intros [Hne Hx]%not_elem_of_cons. rewrite lookup_insert_ne by congruence. by apply IH2.
Qed.

Section model.
Context (vars : gmap string Domain).
Abbreviation doms := ((values ∘ snd) <$> map_entries vars).
Abbreviation asg := (assign (map_keys vars) doms).

Lemma assign_in_domains i :
  in_range i doms → in_domains vars (asg i) ∧ dom (asg i) = dom vars.
Proof.
  intros Hi. destruct (pick_some _ _ Hi) as (vs & Hvs & Hf). unfold assign. rewrite Hvs. simpl.
  rewrite <- map_entries_keys. pose proof (λ x, zip_lookup values _ vs x (NoDup_map_entries vars) Hf) as Hz.
  split.
  - intros x d Hd. apply Hz. by apply elem_of_map_entries.
  - apply set_eq. intros x. rewrite !elem_of_dom. destruct (Hz x) as [H1 H2]. split.
    + intros Hs. destruct (decide (x ∈ (map_entries vars).*1)) as [Hin|Hni%H2].
      * rewrite map_entries_keys, elem_of_map_keys in Hin. done.
      * rewrite Hni in Hs. by destruct Hs.
    + intros [d Hd]. destruct (H1 d) as (v & -> & _); [by apply elem_of_map_entries|done].
Qed.

Lemma assign_complete a :
  in_domains vars a → ∃ i, in_range i doms ∧ ∀ x, is_Some (vars !! x) → asg i !! x = a !! x.
Proof.
  intros Ha. set (vs := (λ e, default (VBool false) (a !! e.1)) <$> map_entries vars).
  assert (Forall2 (λ v d, v ∈ d) vs doms) as Hf.
  { unfold vs. apply Forall2_fmap, Forall_Forall2_diag, Forall_forall. intros [x d] Hin%elem_of_map_entries.
    simpl. destruct (Ha x d Hin) as (v & -> & ?). done. }
  destruct (pick_all _ _ Hf) as (i & Hi & Hp). exists i. split; [done|]. intros x Hx.
  unfold assign. rewrite Hp. simpl. unfold vs. rewrite <- map_entries_keys.
  assert (∀ l : list (string * Domain), (∀ y d, (y, d) ∈ l → is_Some (a !! y)) → x ∈ l.*1 →
    (list_to_map (zip l.*1 ((λ e, default (VBool false) (a !! e.1)) <$> l)) : gmap string Value) !! x = a !! x)
    as Hgen.
  { induction l as [|[y d] l IH]; intros Hl Hin; [by apply elem_of_nil in Hin|]. simpl.
    destruct (Hl y d) as [v Hv]; [by left|]. rewrite Hv. simpl. destruct (decide (y = x)) as [<-|Hne].
    - by rewrite lookup_insert_eq.
    - rewrite lookup_insert_ne by done. apply IH; [intros; eapply Hl; by right|]. simpl in Hin.
      by apply elem_of_cons in Hin as [->|?]. }
  apply Hgen.
  - intros y d Hy%elem_of_map_entries. destruct (Ha y d Hy) as (v & ? & _). by eexists.
  - by rewrite map_entries_keys, elem_of_map_keys.
Qed.

(** The enumeration decides whether the norms have a common model. *)
Lemma model_spec norms budget :
  inhabited_domains vars → Forall (declared_in vars) norms →
  if (space vars >? budget)%Z
  then model norms vars budget = Some (Err (BudgetExceeded (space vars) budget))
  else ∃ r, model norms vars budget = Some (Ok r) ∧
    match r with
    | Some a => in_domains vars a ∧ dom a = dom vars ∧ ∀ n, n ∈ norms → holds n a = Some true
    | None => ∀ a, in_domains vars a → ¬ ∀ n, n ∈ norms → holds n a = Some true
    end.
Proof.
  intros Hinh Hdec. unfold model. destruct (space vars >? budget)%Z; [done|].
  assert (∀ i, in_range i doms → Forall (λ n, is_Some (holds n (asg i))) norms) as Hsome.
  { intros i Hi. eapply Forall_impl; [exact Hdec|]. intros n Hn. apply (holds_total vars); [done|].
    intros x Hx. apply elem_of_dom. destruct (assign_in_domains i Hi) as [_ ->]. by apply elem_of_dom. }
  destruct (enumerate_spec (index_count doms) norms (map_keys vars) doms (replicate (length (map_keys vars)) 0))
    as (r & Hr & Hspec).
  - unfold in_range. rewrite <- map_entries_keys, length_fmap. apply Forall2_fmap_r.
    apply Forall2_replicate_l; [done|]. apply Forall_forall. intros [x d] Hin%elem_of_map_entries. simpl.
    specialize (Hinh x d Hin). destruct (values d); simpl; [done|lia].
  - lia.
  - intros i Hi. by apply all_hold_spec, Hsome.
  - intros i Hi Hlt. exfalso. assert (rank (replicate (length (map_keys vars)) 0) doms = 0) as Hz; [|lia].
    clear. generalize (length (map_keys vars)). generalize doms. intros l. induction l as [|d l IH]; intros [|n]; simpl; auto.
    rewrite IH. lia.
  - rewrite Hr. simpl. exists r. split; [done|]. destruct r as [a|].
    + destruct Hspec as (i & Hi & -> & Hall). destruct (assign_in_domains i Hi). split_and!; [done..|].
      by apply all_hold_spec; [apply Hsome|].
    + intros a Ha Hall. destruct (assign_complete a Ha) as (i & Hi & Hag). specialize (Hspec i Hi).
      assert (all_hold norms (asg i) = Some true) as Ht; [|congruence].
      apply all_hold_spec; [by apply Hsome|]. intros n Hn. rewrite Forall_forall in Hdec.
      rewrite (holds_agree vars n _ a); [by apply Hall|by apply Hdec|done].
Qed.
End model.

(** ** Lemmas: the number of assignments *)

Abbreviation product l := (foldr (λ d s, domain_size d * s)%Z 1%Z l).

Lemma length_values d : Z.of_nat (length (values d)) = domain_size d.
Proof. destruct d as [|vs|min max]; simpl; rewrite ?length_fmap, ?length_seqZ; lia. Qed.

Lemma domain_size_pos d : values d ≠ [] → (1 <= domain_size d)%Z.
Proof. rewrite <- length_values. destruct (values d); simpl; [done|lia]. Qed.

Lemma product_pos l : Forall (λ d, 1 <= domain_size d)%Z l → (1 <= product l)%Z.
Proof. induction 1; simpl; lia. Qed.

Lemma space_fold l acc :
  Forall (λ d, 1 <= domain_size d)%Z l → (1 <= acc <= u128_max)%Z →
  default u128_max (foldl (λ acc d, acc ≫= λ s, checked_mul_u128 s (domain_size d)) (Some acc) l)
  = Z.min (acc * product l) u128_max.
Proof.
  intros Hl. revert acc. induction Hl as [|d l Hd Hl IH]; intros acc Hacc; cbn [foldl foldr].
  { simpl. lia. }
  cbn [mbind option_bind]. unfold checked_mul_u128 at 2. destruct (acc * domain_size d <=? u128_max)%Z eqn:Hb.
  - rewrite IH by lia. f_equal. lia.
  - assert (foldl (λ acc d, acc ≫= λ s, checked_mul_u128 s (domain_size d)) None l = None) as ->.
    { clear. by induction l. }
    simpl. apply product_pos in Hl. apply Z.leb_gt in Hb. nia.
Qed.

Lemma space_exact vars :
  inhabited_domains vars → space vars = Z.min (product (map_entries vars).*2) u128_max.
Proof.
  intros Hinh. unfold space. rewrite space_fold; [f_equal; lia| |unfold u128_max; lia].
  apply Forall_fmap, Forall_forall. intros [x d] Hin%elem_of_map_entries. apply domain_size_pos. by eapply Hinh.
Qed.

Lemma product_perm l l' : l ≡ₚ l' → product l = product l'.
Proof. induction 1; simpl; lia. Qed.

Lemma product_app l l' : product (l ++ l') = (product l * product l')%Z.
Proof. induction l as [|d l IH]; simpl; [lia|]. rewrite IH. lia. Qed.

(** A check of fewer variables is within the same budget. *)
Lemma space_mono vars vars' : inhabited_domains vars → vars' ⊆ vars → (space vars' <= space vars)%Z.
Proof.
  intros Hinh Hsub. assert (inhabited_domains vars') as Hinh'.
  { intros x d Hd. apply (Hinh x). by eapply lookup_weaken. }
  rewrite !space_exact by done.
  assert (map_entries vars' ⊆+ map_entries vars) as (rest & Hp)%submseteq_Permutation.
  { apply NoDup_submseteq; [apply (NoDup_fmap_1 fst), NoDup_map_entries|]. intros [x d].
    rewrite !elem_of_map_entries. intros ?. by eapply lookup_weaken. }
  assert (Forall (λ d, 1 <= domain_size d)%Z rest.*2) as Hrest%product_pos.
  { apply Forall_fmap, Forall_forall. intros [x d] Hin. apply domain_size_pos, (Hinh x).
    apply elem_of_map_entries. rewrite Hp. apply elem_of_app. by right. }
  assert (Forall (λ d, 1 <= domain_size d)%Z (map_entries vars').*2) as Hv%product_pos.
  { apply Forall_fmap, Forall_forall. intros [x d] Hin%elem_of_map_entries. by apply domain_size_pos, (Hinh' x). }
  rewrite (product_perm (map_entries vars).*2 ((map_entries vars').*2 ++ rest.*2)) by (by rewrite Hp, fmap_app).
  rewrite product_app. nia.
Qed.

(** ** Lemmas: one component *)

Section component.
Context (norms : gmap string TypedNorm).
Context (Hwf : ∀ id n, norms !! id = Some n → wf_norm n).
Implicit Types (members core : list string) (m : string) (vars : gmap string Domain).

(** [a] satisfies the norms named in [members], within their domains. *)
Definition satisfied_by members (a : gmap string Value) : Prop :=
  ∀ m n, m ∈ members → norms !! m = Some n → in_domains (variables n) a ∧ holds n a = Some true.

Definition consistent members : Prop := ∃ a, satisfied_by members a.

Lemma consistent_mono members members' :
  (∀ m, m ∈ members → m ∈ members') → consistent members' → consistent members.
Proof. intros Hsub [a Ha]. exists a. intros m n Hm. apply Ha. by apply Hsub. Qed.

Lemma variables_of_Some m n : norms !! m = Some n → variables_of norms m = variables n.
Proof. unfold variables_of. by intros ->. Qed.

Lemma declare_fold (l : list (string * Domain)) vars clash vars' clash' :
  foldl declare (vars, clash) l = (vars', clash') →
  vars ⊆ vars' ∧
  (∀ x d, vars' !! x = Some d → vars !! x = Some d ∨ (x, d) ∈ l) ∧
  (clash' = None → clash = None ∧ ∀ x d, (x, d) ∈ l → vars' !! x = Some d) ∧
  (∀ x, clash' = Some x → clash = Some x ∨ ∃ d d', (x, d) ∈ l ∧ vars' !! x = Some d' ∧ d ≠ d').
Proof.
  revert vars clash. induction l as [|[y dy] l IH]; intros vars clash; cbn [foldl].
  { intros [= <- <-]. split; [done|]. split; [by left|]. split; [|by left].
    intros Hc. split; [done|]. by intros x d ?%elem_of_nil. }
  unfold declare at 2. cbn [fst snd]. destruct (vars !! y) as [d0|] eqn:Hy; [case_bool_decide as Heq|].
  - subst d0. rewrite insert_id by done. intros (H1 & H2 & H3 & H4)%IH. split; [done|]. split; [|split].
    + intros x d [?|?]%H2; [by left|right; by right].
    + intros [? Hl]%H3. split; [done|]. intros x d [[= -> ->]|?]%elem_of_cons; [by eapply lookup_weaken|auto].
    + intros x [?|(d & d' & ? & ?)]%H4; [by left|]. right. exists d, d'. split; [by right|done].
  - intros (H1 & H2 & H3 & H4)%IH. split; [done|]. split; [|split].
    + intros x d [?|?]%H2; [by left|right; by right].
    + intros [? _]%H3. done.
    + intros x [[= <-]|(d & d' & ? & ?)]%H4.
      * right. exists dy, d0. split_and!; [by left|by eapply lookup_weaken|done].
      * right. exists d, d'. split; [by right|done].
  - intros (H1 & H2 & H3 & H4)%IH. split; [|split; [|split]].
    + etransitivity; [|done]. by apply insert_subseteq.
    + intros x d [[[<- <-]|[_ ?]]%lookup_insert_Some|?]%H2; [right; by left|by left|right; by right].
    + intros [? Hl]%H3. split; [done|]. intros x d [[= -> ->]|?]%elem_of_cons; [|auto].
      eapply lookup_weaken; [|done]. by rewrite lookup_insert_eq.
    + intros x [?|(d & d' & ? & ?)]%H4; [by left|]. right. exists d, d'. split; [by right|done].
Qed.

Lemma collect_flat members acc :
  foldl (λ acc m, foldl declare acc (map_entries (variables_of norms m))) acc members
  = foldl declare acc (members ≫= λ m, map_entries (variables_of norms m)).
Proof.
  revert acc. induction members as [|m members IH]; intros acc; [done|]. simpl. by rewrite IH, foldl_app.
Qed.

Lemma elem_of_declarations members x d :
  (x, d) ∈ (members ≫= λ m, map_entries (variables_of norms m)) ↔
  ∃ m, m ∈ members ∧ variables_of norms m !! x = Some d.
Proof. rewrite list_elem_of_bind. setoid_rewrite elem_of_map_entries. naive_solver. Qed.

(** [vars] is the declarations of [members], which agree. *)
Definition declares members vars : Prop :=
  ∀ x d, vars !! x = Some d ↔ ∃ m, m ∈ members ∧ variables_of norms m !! x = Some d.

Lemma collect_variables_spec members vars clash :
  collect_variables norms members = (vars, clash) →
  match clash with
  | None => declares members vars
  | Some x => ∃ m m' d d', m ∈ members ∧ m' ∈ members ∧ variables_of norms m !! x = Some d ∧
      variables_of norms m' !! x = Some d' ∧ d ≠ d'
  end.
Proof.
  unfold collect_variables. rewrite collect_flat. intros (_ & H2 & H3 & H4)%declare_fold.
  destruct clash as [x|].
  - destruct (H4 x eq_refl) as [?|(d & d' & Hin & Hx & Hne)]; [done|].
    destruct (H2 x d' Hx) as [?|Hin']; [by rewrite lookup_empty in *|].
    apply elem_of_declarations in Hin as (m & ? & ?), Hin' as (m' & ? & ?). by exists m, m', d, d'.
  - destruct (H3 eq_refl) as [_ Hl]. intros x d. rewrite <- elem_of_declarations. split; [|by apply Hl].
    intros [?|?]%H2; [by rewrite lookup_empty in *|done].
Qed.

Lemma declares_inhabited members vars : declares members vars → inhabited_domains vars.
Proof.
  intros Hd x d (m & Hm & Hx)%Hd. unfold variables_of in Hx. destruct (norms !! m) as [n|] eqn:Hn; [|done].
  by apply (proj2 (Hwf m n Hn) x).
Qed.

Lemma elem_of_norms_of members n : n ∈ norms_of norms members ↔ ∃ m, m ∈ members ∧ norms !! m = Some n.
Proof. unfold norms_of. apply list_elem_of_omap. Qed.

(** The enumeration over the declarations of a group decides its consistency. *)
Lemma model_members members vars budget :
  declares members vars → (space vars <= budget)%Z →
  ∃ r, model (norms_of norms members) vars budget = Some (Ok r) ∧
    match r with
    | Some a => satisfied_by members a ∧ dom a = dom vars
    | None => ¬ consistent members
    end.
Proof.
  intros Hd Hs.
  assert (Forall (declared_in vars) (norms_of norms members)) as Hdec.
  { apply Forall_forall. intros n (m & Hm & Hn)%elem_of_norms_of at_ x Hat Hx.
    destruct (proj1 (Hwf m n Hn) at_ x Hat Hx) as [d Hd']. exists d. apply Hd. exists m.
    by rewrite (variables_of_Some _ _ Hn). }
  pose proof (model_spec vars (norms_of norms members) budget (declares_inhabited _ _ Hd) Hdec) as Hm.
  destruct (space vars >? budget)%Z eqn:Hb; [lia|]. destruct Hm as (r & Hr & Hspec). exists r. split; [done|].
  destruct r as [a|].
  - destruct Hspec as (Hin & Hdom & Hall). split; [|done]. intros m n Hm Hn. split.
    + intros x d Hx. apply Hin, Hd. exists m. by rewrite (variables_of_Some _ _ Hn).
    + apply Hall, elem_of_norms_of. eauto.
  - intros [a Ha]. apply (Hspec a).
    + intros x d (m & Hm & Hx)%Hd. unfold variables_of in Hx. destruct (norms !! m) as [n|] eqn:Hn; [|done].
      by apply (Ha m n).
    + intros n (m & Hm & Hn)%elem_of_norms_of. by apply (Ha m n).
Qed.

Definition without m core : list string := filter (λ m', m' ≠ m) core.

(** A group of which no norm can be dropped. *)
Definition minimal_core core : Prop :=
  ¬ consistent core ∧ ∀ m, m ∈ core → consistent (without m core).

Abbreviation restrict vars rest :=
  (filter (λ e, existsb (λ n, bool_decide (is_Some (variables n !! e.1))) (norms_of norms rest) = true) vars
    : gmap string Domain).

Lemma declares_restrict members vars rest :
  declares members vars → (∀ m, m ∈ rest → m ∈ members) → declares rest (restrict vars rest).
Proof.
  intros Hd Hsub x d. rewrite map_lookup_filter_Some. simpl.
  setoid_rewrite existsb_elem. setoid_rewrite bool_decide_eq_true. split.
  - intros [Hx (n & (m & Hm & Hn)%elem_of_norms_of & [d' Hd'])]. exists m. split; [done|].
    rewrite (variables_of_Some _ _ Hn). assert (vars !! x = Some d') as Hx'.
    { apply Hd. exists m. split; [by apply Hsub|]. by rewrite (variables_of_Some _ _ Hn). }
    congruence.
  - intros (m & Hm & Hx). split; [apply Hd; exists m; auto|].
    unfold variables_of in Hx. destruct (norms !! m) as [n|] eqn:Hn; [|done].
    exists n. split; [|by eexists]. apply elem_of_norms_of. eauto.
Qed.

Lemma remove_at_without core i m :
  NoDup core → core !! i = Some m → take i core ++ drop (S i) core = without m core.
Proof.
  intros Hnd Hi. rewrite <- (take_drop_middle core i m Hi) in Hnd. rewrite <- (take_drop_middle core i m Hi) at 3.
  apply NoDup_app in Hnd as (_ & H1 & [H2 _]%NoDup_cons). unfold without.
  rewrite filter_app, filter_cons_False by auto. f_equal; symmetry; apply filter_id.
  - intros x Hx ->. apply (H1 m Hx). by left.
  - by intros x Hx ->.
Qed.

Lemma elem_of_without m core x : x ∈ without m core ↔ x ∈ core ∧ x ≠ m.
Proof. unfold without. rewrite list_elem_of_filter. tauto. Qed.

(** What the loop keeps, when it has passed the first [at_] norms of the core. *)
Lemma shrink_spec fuel members vars budget at_ core :
  declares members vars → (space vars <= budget)%Z → (∀ m, m ∈ core → m ∈ members) → NoDup core →
  ¬ consistent core → (∀ i m, i < at_ → core !! i = Some m → consistent (without m core)) →
  at_ ≤ length core → length core < fuel + at_ →
  ∃ core', shrink norms fuel vars budget at_ core = Some core' ∧
    (∀ m, m ∈ core' → m ∈ core) ∧ minimal_core core'.
Proof.
  intros Hd Hs. revert at_ core. induction fuel as [|fuel IH]; intros at_ core Hsub Hnd Hinc Hmin Hle Hf;
    cbn [shrink]; destruct (at_ <? length core) eqn:Hlt.
  1: apply Nat.ltb_lt in Hlt; lia.
  1: apply Nat.ltb_ge in Hlt; lia.
  2:{ apply Nat.ltb_ge in Hlt. exists core. do 2 (split; [done|]). split; [done|]. intros m Hm.
      apply list_elem_of_lookup_1 in Hm as [i Hi]. apply (Hmin i); [|done]. apply lookup_lt_Some in Hi. lia. }
  apply Nat.ltb_lt in Hlt. destruct (lookup_lt_is_Some_2 core at_ Hlt) as [m Hm].
  rewrite (remove_at_without core at_ m Hnd Hm).
  assert (∀ x, x ∈ without m core → x ∈ members) as Hsub'.
  { intros x [? _]%elem_of_without. auto. }
  pose proof (declares_restrict members vars _ Hd Hsub') as Hd'.
  destruct (model_members _ _ budget Hd') as (r & -> & Hr).
  { etransitivity; [|exact Hs]. apply space_mono; [by eapply declares_inhabited|]. apply map_filter_subseteq. }
  cbn [mbind option_bind]. destruct r as [a|].
  - apply IH; [done..| |lia|lia]. intros i m' Hi Hm'. destruct (decide (i = at_)) as [->|].
    + replace m' with m by congruence. by exists a; apply Hr.
    + apply (Hmin i); [lia|done].
  - destruct (IH at_ (without m core)) as (core' & Hc & Hsub2 & Hcore).
    + intros x [? _]%elem_of_without. auto.
    + by apply NoDup_filter.
    + done.
    + intros i m' Hi Hm'. assert (m' ∈ core) as (k & Hk)%list_elem_of_lookup_1.
      { apply list_elem_of_lookup_2, elem_of_without in Hm'. tauto. }
      rewrite <- (remove_at_without core at_ m Hnd Hm) in Hm'.
      rewrite lookup_app_l, lookup_take_lt in Hm' by (rewrite ?length_take; lia).
      apply (consistent_mono _ (without m' core)); [|by apply (Hmin i)].
      intros x. rewrite !elem_of_without. tauto.
    + rewrite <- (remove_at_without core at_ m Hnd Hm), length_app, length_take. lia.
    + rewrite <- (remove_at_without core at_ m Hnd Hm), length_app, length_take, length_drop. lia.
    + exists core'. split_and!; [done| |done]. intros x Hx%Hsub2. by apply elem_of_without in Hx as [? _].
Qed.

(** Two norms of the group declare one variable with different domains. *)
Definition clashes members (x : string) : Prop :=
  ∃ m m' d d', m ∈ members ∧ m' ∈ members ∧ variables_of norms m !! x = Some d ∧ variables_of norms m' !! x = Some d' ∧ d ≠ d'.

(** The norms of the group agree on their domains, and have [s] assignments together: the
    product of the sizes of the domains, counted up to the largest [u128]. *)
Definition assignments members (s : Z) : Prop :=
  ∃ vars, declares members vars ∧ s = Z.min (product (map_entries vars).*2) u128_max.

(** What a verdict says of the norms it is about.  It is decided within the budget and
    without a clash, and unresolved otherwise. *)
Definition verdict (budget : Z) members (o : Outcome) : Prop :=
  match o with
  | Compatible a => (∃ s, assignments members s ∧ (s <= budget)%Z) ∧ satisfied_by members a
  | Incompatible core => (∃ s, assignments members s ∧ (s <= budget)%Z) ∧ (∀ m, m ∈ core → m ∈ members) ∧ minimal_core core
  | UnresolvedOutcome (BudgetExceeded s b) => b = budget ∧ (budget < s)%Z ∧ assignments members s
  | UnresolvedOutcome (DomainsDisagree x) => clashes members x
  end.




Lemma check_component_spec budget members :
  NoDup members →
  ∃ c, check_component norms budget members = Some c ∧ cp_norms c = members ∧
    verdict budget members (cp_outcome c) ∧
    (∀ w, cp_outcome c = Compatible w → ∀ x, x ∈ dom w ↔ ∃ m, m ∈ members ∧ is_Some (variables_of norms m !! x)).
Proof.
  intros Hnd. unfold check_component. destruct (collect_variables norms members) as [vars clash] eqn:Hc.
  apply collect_variables_spec in Hc. destruct clash as [x|]; cbn [mbind option_bind].
  { eexists. split; [done|]. done. }
  destruct (decide (space vars <= budget)%Z) as [Hs|Hs].
  - assert (∃ s, assignments members s ∧ (s <= budget)%Z) as Hin.
    { exists (space vars). split; [|done]. exists vars. split; [done|]. by apply space_exact, (declares_inhabited members). }
    destruct (model_members members vars budget Hc Hs) as (r & -> & Hr). cbn [mbind option_bind].
    destruct r as [a|].
    + eexists. split; [done|]. cbn [cp_norms cp_outcome]. destruct Hr as [Hr Hdom]. split_and!; [done..|].
      intros w [= <-] x. rewrite Hdom, elem_of_dom. unfold is_Some. split.
      * intros [d (m & ? & ?)%Hc]. eauto.
      * intros (m & Hm & d & Hx). exists d. apply Hc. eauto.
    + destruct (shrink_spec (S (length members)) members vars budget 0 members) as (core & -> & Hsub & Hmin);
        [done..|lia|lia|lia|]. simpl. eexists. split; [done|]. done.
  - assert (Forall (declared_in vars) (norms_of norms members)) as Hdec.
    { apply Forall_forall. intros n (m & Hm & Hn)%elem_of_norms_of at_ x Hat Hx.
      destruct (proj1 (Hwf m n Hn) at_ x Hat Hx) as [d Hd']. exists d. apply Hc. exists m.
      by rewrite (variables_of_Some _ _ Hn). }
    pose proof (model_spec vars (norms_of norms members) budget (declares_inhabited _ _ Hc) Hdec) as Hm.
    destruct (space vars >? budget)%Z eqn:Hb; [|lia]. rewrite Hm. cbn [mbind option_bind].
    eexists. split; [done|]. cbn [cp_norms cp_outcome verdict]. split_and!; [done|done|lia| |done].
    exists vars. split; [done|]. by apply space_exact, (declares_inhabited members).
Qed.
End component.

(** ** Lemmas: the groups *)

Section groups.
Context (norms : gmap string TypedNorm) (comparable : string → string → bool).
Implicit Types (g : gmap string nat) (R : relation string).

Lemma shared_true a b :
  shared norms comparable a b = true ↔
  comparable a b = true ∧ ∃ x, is_Some (variables_of norms a !! x) ∧ is_Some (variables_of norms b !! x).
Proof.
  unfold shared. rewrite andb_true_iff, existsb_elem. setoid_rewrite bool_decide_eq_true.
  by setoid_rewrite elem_of_map_keys.
Qed.

(** The members of a group are connected. *)
Definition connected_groups R g : Prop :=
  ∀ a b n, g !! a = Some n → g !! b = Some n → rtsc R a b.

Lemma lookup_relabel g a b x :
  relabel g a b !! x =
    (λ v, if bool_decide (v = default 0 (g !! b)) then default 0 (g !! a) else v) <$> g !! x.
Proof. unfold relabel. by rewrite lookup_fmap. Qed.

Lemma relabel_keeps g a b u v : g !! u = g !! v → relabel g a b !! u = relabel g a b !! v.
Proof. intros Heq. by rewrite !lookup_relabel, Heq. Qed.

Lemma relabel_spec R g a b :
  is_Some (g !! a) → is_Some (g !! b) → R a b → connected_groups R g →
  relabel g a b !! a = relabel g a b !! b ∧ connected_groups R (relabel g a b) ∧
  dom (relabel g a b) = dom g.
Proof.
  intros [na Ha] [nb Hb] HR Hc. split; [|split].
  - rewrite !lookup_relabel, Ha, Hb. simpl. rewrite (bool_decide_eq_true_2 (nb = nb)) by done.
    by case_bool_decide.
  - assert (∀ x n, relabel g a b !! x = Some n →
      (g !! x = Some n ∨ (g !! x = Some nb ∧ n = na))) as Hinv.
    { intros x n. rewrite lookup_relabel, Ha, Hb. simpl. intros (k & Hk & ->)%fmap_Some.
      case_bool_decide; [right; by subst|by left]. }
    assert (rtsc R a b) as Hab by (apply rtc_once; by left).
    intros x y n [Hx|[Hx ->]]%Hinv [Hy|[Hy Heq]]%Hinv.
    + by apply (Hc x y n).
    + subst n. transitivity a; [by apply (Hc x a na)|]. transitivity b; [done|]. by apply (Hc b y nb).
    + transitivity b; [by apply (Hc x b nb)|]. transitivity a; [by symmetry|]. by apply (Hc a y na).
    + by apply (Hc x y nb).
  - unfold relabel. by rewrite dom_fmap_L.
Qed.

Lemma link_inner R a rest g (g' := foldl (λ g b, if shared norms comparable a b then relabel g a b else g) g rest) :
  is_Some (g !! a) → (∀ b, b ∈ rest → is_Some (g !! b)) →
  (∀ b, b ∈ rest → shared norms comparable a b = true → R a b) → connected_groups R g →
  (∀ u v, g !! u = g !! v → g' !! u = g' !! v) ∧ connected_groups R g' ∧ dom g' = dom g ∧
  ∀ b, b ∈ rest → shared norms comparable a b = true → g' !! a = g' !! b.
Proof.
  subst g'. revert g. induction rest as [|b rest IH]; intros g Ha Hrest HR Hc; cbn [foldl].
  { split_and!; [done..|]. by intros b ?%elem_of_nil. }
  destruct (shared norms comparable a b) eqn:Hs.
  - destruct (relabel_spec R g a b Ha) as (Hab & Hc' & Hdom); [apply Hrest; left|apply HR; [left|done]|done|].
    assert (∀ x, is_Some (g !! x) → is_Some (relabel g a b !! x)) as Hsome.
    { intros x. by rewrite <- !elem_of_dom, Hdom. }
    destruct (IH (relabel g a b)) as (H1 & H2 & H3 & H4); [auto|intros; apply Hsome, Hrest; by right|
      intros; apply HR; [by right|done]|done|].
    split_and!; [|done|congruence|].
    + intros u v ?. by apply H1, relabel_keeps.
    + intros b' [->|?]%elem_of_cons Hs'; auto.
  - destruct (IH g) as (H1 & H2 & H3 & H4); [done|intros; apply Hrest; by right|
      intros; apply HR; [by right|done]|done|].
    split_and!; [done..|]. intros b' [->|?]%elem_of_cons Hs'; [congruence|auto].
Qed.

Lemma link_spec R ids g :
  (∀ b, b ∈ ids → is_Some (g !! b)) →
  (∀ l1 a l2 b, ids = l1 ++ a :: l2 → b ∈ l2 → shared norms comparable a b = true → R a b) →
  connected_groups R g →
  let g' := link norms comparable ids g in
  (∀ u v, g !! u = g !! v → g' !! u = g' !! v) ∧ connected_groups R g' ∧ dom g' = dom g ∧
  ∀ l1 a l2 b, ids = l1 ++ a :: l2 → b ∈ l2 → shared norms comparable a b = true → g' !! a = g' !! b.
Proof.
  revert g. induction ids as [|a rest IH]; intros g Hids HR Hc; cbn [link].
  { split_and!; [done..|]. by intros [|??] ? ? ? ?. }
  destruct (link_inner R a rest g) as (K1 & K2 & K3 & K4); [apply Hids; left|intros; apply Hids; by right|
    intros b Hb Hs; by apply (HR [] a rest b)|done|].
  destruct (IH (foldl (λ g b, if shared norms comparable a b then relabel g a b else g) g rest))
    as (H1 & H2 & H3 & H4); [|intros l1 a' l2 b ->; by apply (HR (a :: l1) a' l2 b)|done|].
  { intros b Hb. rewrite <- elem_of_dom, K3, elem_of_dom. apply Hids. by right. }
  split_and!; [auto|done|congruence|].
  intros [|a' l1] a'' l2 b [= <- Heq] Hb Hs; [|by apply (H4 l1 a'' l2 b)].
  subst l2. by apply H1, K4.
Qed.

(** Two norms that are compared: in the order of their names, comparable, and with a
    variable in common. *)
Definition linked (a b : string) : Prop :=
  is_Some (norms !! a) ∧ is_Some (norms !! b) ∧ String.le a b ∧ a ≠ b ∧ shared norms comparable a b = true.

Abbreviation final_group := (link norms comparable (map_keys norms) (initial_group (map_keys norms))).

Lemma lookup_initial_group ids a n : NoDup ids → initial_group ids !! a = Some n ↔ ids !! n = Some a.
Proof.
  intros Hnd. unfold initial_group. rewrite <- elem_of_list_to_map.
  - rewrite elem_of_lookup_imap. naive_solver.
  - rewrite fmap_imap. unfold compose. simpl.
    replace (imap (λ (_ : nat) (y : string), y) ids) with ids; [done|]. clear.
    induction ids as [|x ids IH]; [done|]. simpl. f_equal. done.
Qed.

Lemma split_sorted a b :
  linked a b → ∃ l1 l2, map_keys norms = l1 ++ a :: l2 ∧ b ∈ l2.
Proof.
  intros (Ha & Hb & Hle & Hne & _). apply elem_of_map_keys in Ha, Hb.
  apply list_elem_of_split in Ha as (l1 & l2 & Heq). exists l1, l2. split; [done|].
  rewrite Heq, elem_of_app, elem_of_cons in Hb. destruct Hb as [Hb|[?|?]]; [|congruence|done]. exfalso.
  pose proof (sorted_strings_sorted (map_to_list norms).*1) as Hs. fold (map_keys norms) in Hs.
  rewrite Heq in Hs. apply Hne. apply (anti_symm String.le); [done|].
  eapply StronglySorted_app_1_elem_of; [exact Hs|done|left].
Qed.

Lemma elem_of_dom_initial x : x ∈ dom (initial_group (map_keys norms)) ↔ x ∈ map_keys norms.
Proof.
  rewrite elem_of_dom, list_elem_of_lookup. unfold is_Some.
  by setoid_rewrite (lookup_initial_group _ _ _ (NoDup_map_keys norms)).
Qed.

(** The edges the loop processes are the links. *)
Lemma processed_linked l1 a l2 b :
  map_keys norms = l1 ++ a :: l2 → b ∈ l2 → shared norms comparable a b = true → linked a b.
Proof.
  intros Heq Hb Hs. pose proof (NoDup_map_keys norms) as Hnd.
  assert (a ∈ map_keys norms ∧ b ∈ map_keys norms) as [Ha Hb'].
  { rewrite Heq. split; apply elem_of_app; right; [left|by right]. }
  rewrite elem_of_map_keys in Ha, Hb'. split_and!; [done..| | |done].
  - pose proof (sorted_strings_sorted (map_to_list norms).*1) as Hsort. fold (map_keys norms) in Hsort.
    rewrite Heq in Hsort. apply (StronglySorted_app_1_r _ l1) in Hsort.
    apply StronglySorted_inv in Hsort as [_ Hf]. rewrite Forall_forall in Hf. by apply Hf.
  - intros ->. rewrite Heq in Hnd. apply NoDup_app in Hnd as (_ & _ & [Hn _]%NoDup_cons). done.
Qed.

Lemma final_link_spec :
  connected_groups linked final_group ∧ dom final_group = dom (initial_group (map_keys norms)) ∧
  ∀ a b, linked a b → final_group !! a = final_group !! b.
Proof.
  pose proof (NoDup_map_keys norms) as Hnd.
  destruct (link_spec linked (map_keys norms) (initial_group (map_keys norms))) as (_ & Hc & Hdom & Hall).
  - intros b Hb. by apply elem_of_dom, elem_of_dom_initial.
  - intros l1 a l2 b. apply processed_linked.
  - intros x y k Hx Hy. apply (lookup_initial_group _ _ _ Hnd) in Hx, Hy. by replace y with x by congruence.
  - split_and!; [done..|]. intros a b Hl. destruct (split_sorted _ _ Hl) as (l1 & l2 & Heq & Hin).
    apply (Hall l1 _ l2); [done..|apply Hl].
Qed.

Lemma dom_final_group x : x ∈ dom final_group ↔ is_Some (norms !! x).
Proof.
  destruct final_link_spec as (_ & -> & _). by rewrite elem_of_dom_initial, elem_of_map_keys.
Qed.

Lemma final_group_spec a b n :
  final_group !! a = Some n → (final_group !! b = Some n ↔ is_Some (norms !! b) ∧ rtsc linked a b).
Proof.
  destruct final_link_spec as (Hc & _ & Hall). intros Ha. split.
  - intros Hb. split; [by apply dom_final_group, elem_of_dom; eexists|]. by apply (Hc a b n).
  - intros [_ Hr]. rewrite <- Ha. clear Ha. symmetry.
    induction Hr as [|x y z [Hl|Hl] _ IH]; [done|rewrite <- IH|rewrite <- IH; symmetry]; by apply Hall.
Qed.

Lemma by_root_fold (l : list (string * nat)) (m : gmap nat (list string)) n
    (ids := (filter (λ e, e.2 = n) l).*1) :
  foldl (λ m e, <[ e.2 := default [] (m !! e.2) ++ [e.1] ]> m) m l !! n =
    match ids with [] => m !! n | _ => Some (default [] (m !! n) ++ ids) end.
Proof.
  subst ids. revert m. induction l as [|[id k] l IH]; intros m; [done|]. cbn [foldl fst snd]. rewrite IH, filter_cons.
  cbn [fst snd]. destruct (decide (k = n)) as [<-|Hne].
  - rewrite lookup_insert_eq, fmap_cons. destruct (filter _ l).*1; [done|].
    simpl. by rewrite <- app_assoc.
  - by rewrite lookup_insert_ne.
Qed.

Definition members_of g (n : nat) : list string := (filter (λ e, e.2 = n) (map_entries g)).*1.

Lemma elem_of_members_of g n id : id ∈ members_of g n ↔ g !! id = Some n.
Proof.
  unfold members_of. rewrite list_elem_of_fmap. split.
  - intros ([k x] & -> & [<- Hin]%list_elem_of_filter). by apply elem_of_map_entries in Hin.
  - intros Hg. exists (id, n). by rewrite list_elem_of_filter, elem_of_map_entries.
Qed.

Lemma NoDup_members_of g n : NoDup (members_of g n).
Proof.
  unfold members_of. eapply sublist_NoDup; [apply (NoDup_map_entries g)|].
  apply fmap_sublist, sublist_filter.
Qed.

Lemma lookup_by_root g n l : by_root g !! n = Some l ↔ l = members_of g n ∧ l ≠ [].
Proof.
  unfold by_root. rewrite by_root_fold, lookup_empty. fold (members_of g n).
  destruct (members_of g n) eqn:Hm; simpl; naive_solver.
Qed.

(** The roots of the groups, in their order. *)
Definition roots g : list nat := merge_sort le (map_to_list (by_root g)).*1.

Lemma NoDup_roots g : NoDup (roots g).
Proof. unfold roots. rewrite merge_sort_Permutation. apply NoDup_fst_map_to_list. Qed.

Lemma elem_of_roots g n : n ∈ roots g ↔ members_of g n ≠ [].
Proof.
  unfold roots. rewrite merge_sort_Permutation, list_elem_of_fmap. split.
  - intros ([k l] & -> & Hl%elem_of_map_to_list). simpl. by apply lookup_by_root in Hl as [<- ?].
  - intros Hne. exists (n, members_of g n). by rewrite elem_of_map_to_list, lookup_by_root.
Qed.

Lemma into_values_by_root g : into_values (by_root g) = members_of g <$> roots g.
Proof.
  unfold into_values. fold (roots g). pose proof (λ n, proj1 (elem_of_roots g n)) as Hr.
  induction (roots g) as [|n l IH]; [done|]. cbn [omap list_omap fmap list_fmap].
  assert (by_root g !! n = Some (members_of g n)) as ->.
  { apply lookup_by_root. split; [done|]. apply Hr. by left. }
  f_equal. apply IH. intros k Hk. apply Hr. by right.
Qed.

Lemma groups_eq : groups norms comparable = members_of final_group <$> roots final_group.
Proof. apply into_values_by_root. Qed.

(** The groups hold each norm once, and the norms of a group are those connected. *)
Lemma groups_partition :
  mjoin (groups norms comparable) ≡ₚ map_keys norms ∧
  ∀ l a b, l ∈ groups norms comparable → a ∈ l → (b ∈ l ↔ is_Some (norms !! b) ∧ rtsc linked a b).
Proof.
  rewrite groups_eq. set (g := final_group). split.
  - apply NoDup_Permutation; [|apply NoDup_map_keys|].
    + pose proof (NoDup_roots g) as Hnd. induction (roots g) as [|n l IH]; [constructor|].
      apply NoDup_cons in Hnd as [Hn Hnd]. rewrite fmap_cons. cbn [mjoin list_join]. apply NoDup_app.
      split; [apply NoDup_members_of|]. split; [|by apply IH].
      intros x Hx (l' & Hx' & (k & -> & Hk)%list_elem_of_fmap)%list_elem_of_join.
      apply elem_of_members_of in Hx, Hx'. replace k with n in Hk by congruence. done.
    + intros x. rewrite list_elem_of_join, elem_of_map_keys.
      assert (is_Some (norms !! x) ↔ is_Some (g !! x)) as ->.
      { by rewrite <- (elem_of_dom g), <- dom_final_group. }
      split.
      * intros (l & Hx & (n & -> & _)%list_elem_of_fmap). apply elem_of_members_of in Hx. by eexists.
      * intros [n Hn%elem_of_members_of]. exists (members_of g n). split; [done|]. apply list_elem_of_fmap.
        exists n. split; [done|]. apply elem_of_roots. intros Heq. rewrite Heq in Hn. by apply elem_of_nil in Hn.
  - intros l a b (n & -> & _)%list_elem_of_fmap Ha%elem_of_members_of.
    rewrite elem_of_members_of. by apply final_group_spec.
Qed.
End groups.

(** ** Lemmas: the parser *)

(** What the parser promises of an atom: scopes, and the kinds of variables; a literal may be
    of any type. *)
Definition scoped_atom (vars : gmap string Domain) (a : Atom) : Prop :=
  ∃ d, vars !! left_ a = Some d ∧ (ordered (comparison a) = true → ∃ lo hi, d = DInt lo hi) ∧
    match right_ a with
    | OVariable y => ∃ d', vars !! y = Some d' ∧ same_kind d' d = true
    | OLiteral _ => True
    end.

Lemma fold_result_inv {E A B} (P : B → Prop) (f : B → A → result E B) l acc r :
  (∀ b x b', P b → f b x = Ok b' → P b') → P acc → fold_result f acc l = Ok r → P r.
Proof.
  intros Hf. revert acc. induction l as [|x l IH]; intros acc Hacc; cbn [fold_result]; [by intros [= <-]|].
  destruct (f acc x) as [b|e] eqn:Hx; [|done]. cbn [mbind result_bind]. apply IH. by eapply Hf.
Qed.

Section parser.
Context `{UnicodeTable}.

Lemma parse_domain_inhabited name kind d : parse_domain name kind = Ok d → values d ≠ [].
Proof.
  unfold parse_domain. case_bool_decide; [by intros [= <-]|].
  destruct (enclosed "enum(" ")" kind) as [inner|].
  - destruct (_ || _); [done|]. intros [= <-]. cbn [values]. destruct (split_char "," inner) eqn:Hs; [|done].
    destruct inner as [|a s]; [done|]. cbn [split_char] in Hs.
    destruct (Ascii.eqb a ","); [done|]. by destruct (split_char "," s).
  - destruct (enclosed "int(" ")" kind) as [range|]; [|done].
    destruct (split_once_str ".." range) as [[lo hi]|]; [|done]. cbn [mbind result_bind ok_or].
    destruct (parse_i64 (trim lo)) as [min|]; [|done]. cbn [mbind result_bind ok_or].
    destruct (parse_i64 (trim hi)) as [max|]; [|done]. cbn [mbind result_bind ok_or].
    destruct (min >? max)%Z eqn:Hgt; [done|]. intros [= <-]. cbn [values]. rewrite seqZ_cons by lia. done.
Qed.

Lemma parse_declaration_inhabited vars declaration vars' :
  inhabited_domains vars → parse_declaration vars declaration = Ok vars' → inhabited_domains vars'.
Proof.
  intros Hv. unfold parse_declaration. destruct (split_once ":" declaration) as [[name kind]|]; [|done].
  cbn [mbind result_bind ok_or]. destruct (is_identifier (trim name)); [|done]. cbn [negb].
  destruct (parse_domain (trim name) (trim kind)) as [d|] eqn:Hd; [|done]. cbn [mbind result_bind].
  case_bool_decide; [done|]. intros [= <-]. apply parse_domain_inhabited in Hd.
  intros x d' [[<- <-]|[_ ?]]%lookup_insert_Some; [done|by apply (Hv x)].
Qed.

Lemma parse_atom_scoped vars atom a : parse_atom vars atom = Ok a → scoped_atom vars a.
Proof.
  unfold parse_atom. destruct (split_atom atom) as [[[l c] r]|]; [|done]. cbn [mbind result_bind ok_or].
  destruct (vars !! l) as [d|] eqn:Hl; [|done]. cbn [mbind result_bind ok_or].
  destruct (parse_operand vars atom d r) as [o|] eqn:Ho; [|done]. cbn [mbind result_bind]. intros Ha.
  assert (a = mkAtom l c o ∧ (ordered c = true → ∃ lo hi, d = DInt lo hi)) as [-> Hord].
  { destruct (ordered c), d; try done; injection Ha as <-; (split; [done|]); intros Ho'; try done; eauto. }
  exists d. split; [done|]. split; [done|]. cbn [right_].
  unfold parse_operand in Ho. destruct (enclosed _ _ r); [by injection Ho as <-|].
  destruct (_ || _); [by injection Ho as <-|]. destruct (parse_i64 r); [by injection Ho as <-|].
  destruct (vars !! r) as [d'|] eqn:Hr; [|done]. cbn [mbind result_bind ok_or] in Ho.
  destruct (same_kind d' d) eqn:Hk; [|done]. injection Ho as <-. eauto.
Qed.

Lemma parse_ok declarations formula n :
  parse declarations formula = Ok n → inhabited_domains (variables n) ∧ Forall (scoped_atom (variables n)) (atoms n).
Proof.
  unfold parse. destruct (fold_result parse_declaration ∅ declarations) as [vars|] eqn:Hv; [|done].
  cbn [mbind result_bind]. destruct (fold_result _ [] _) as [l|] eqn:Hl; [|done]. cbn [mbind result_bind].
  intros [= <-]. cbn [variables atoms]. split.
  - eapply (fold_result_inv inhabited_domains); [|intros x d; by rewrite lookup_empty|exact Hv].
    intros b x b'. apply parse_declaration_inhabited.
  - eapply (fold_result_inv (Forall (scoped_atom vars))); [|by constructor|exact Hl].
    cbn beta. intros b x b' Hb. destruct (parse_atom vars x) as [a|] eqn:Ha; cbn [fmap result_fmap]; [|done].
    intros [= <-].
    apply Forall_app. split; [done|]. constructor; [|constructor]. by eapply parse_atom_scoped.
Qed.

Lemma scoped_wf n :
  inhabited_domains (variables n) → Forall (scoped_atom (variables n)) (atoms n) → wf_norm n.
Proof.
  intros Hi Ht. split; [|done]. rewrite Forall_forall in Ht. intros at_ x Hat Hx.
  destruct (Ht at_ Hat) as (d & Hd & _ & Hr). destruct Hx as [->|Hx]; [by eexists|].
  rewrite Hx in Hr. destruct Hr as (d' & ? & _). by eexists.
Qed.

End parser.

Lemma norm_of_wf declarations formula : wf_norm (norm_of declarations formula).
Proof.
  unfold norm_of. destruct (parse declarations formula) as [n|] eqn:Hp.
  - apply parse_ok in Hp as [? ?]. by apply scoped_wf.
  - split; [by intros ? ? ?%elem_of_nil|]. intros x d. simpl. by rewrite lookup_empty.
Qed.

(** ** Theorems *)

(** The union of the witnesses of components that share no variable. *)
Lemma union_list_lookup (ws : list (gmap string Value)) w x :
  w ∈ ws → x ∈ dom w → (∀ w', w' ∈ ws → x ∈ dom w' → w' = w) → (⋃ ws : gmap string Value) !! x = w !! x.
Proof.
  induction ws as [|w0 ws IH]; intros Hin Hx Huniq; [by apply elem_of_nil in Hin|]. cbn [union_list foldr].
  destruct (decide (x ∈ dom w0)) as [H0|H0].
  - assert (w0 = w) as -> by (apply Huniq; [left|done]). apply elem_of_dom in Hx as [v Hv].
    rewrite Hv. by apply lookup_union_Some_l.
  - rewrite lookup_union_r by (by apply not_elem_of_dom). apply elem_of_cons in Hin as [->|Hin]; [done|].
    apply IH; [done..|]. intros w' ? ?. apply Huniq; [by right|done].
Qed.

Lemma mapM_check norms comparable budget comps :
  check_with norms comparable budget = Some comps →
  Forall2 (λ l c, check_component norms budget l = Some c) (groups norms comparable) comps.
Proof. apply mapM_Some_1. Qed.

Section theorems.
Context (norms : gmap string TypedNorm).
Implicit Types (comps : list Component) (c : Component).


(** Each component comes from one group, and each group gives one. *)
Lemma component_of_group comparable budget comps c :
  (∀ id n, norms !! id = Some n → wf_norm n) → check_with norms comparable budget = Some comps → c ∈ comps →
  cp_norms c ∈ groups norms comparable ∧ check_component norms budget (cp_norms c) = Some c ∧
  verdict norms budget (cp_norms c) (cp_outcome c) ∧
  ∀ w, cp_outcome c = Compatible w →
    ∀ x, x ∈ dom w ↔ ∃ m, m ∈ cp_norms c ∧ is_Some (variables_of norms m !! x).
Proof.
  intros Hwf Hcheck%mapM_check Hin. apply list_elem_of_lookup_1 in Hin as [i Hi].
  destruct (Forall2_lookup_r _ _ _ _ _ Hcheck Hi) as (l & Hl%list_elem_of_lookup_2 & Hcl).
  assert (NoDup l) as Hnd.
  { rewrite groups_eq in Hl. apply list_elem_of_fmap in Hl as (n & -> & _). apply NoDup_members_of. }
  destruct (check_component_spec norms Hwf budget l Hnd) as (c' & Hc' & Hn & Hv & Hd).
  replace c' with c in * by congruence. by rewrite Hn.
Qed.

Lemma group_component comparable budget comps l :
  check_with norms comparable budget = Some comps → l ∈ groups norms comparable →
  ∃ c, c ∈ comps ∧ check_component norms budget l = Some c.
Proof.
  intros Hcheck%mapM_check Hin. apply list_elem_of_lookup_1 in Hin as [i Hi].
  destruct (Forall2_lookup_l _ _ _ _ _ Hcheck Hi) as (c & Hc%list_elem_of_lookup_2 & ?). eauto.
Qed.

Lemma group_unique comparable l l' m :
  l ∈ groups norms comparable → l' ∈ groups norms comparable → m ∈ l → m ∈ l' → l = l'.
Proof.
  rewrite groups_eq. intros (n & -> & _)%list_elem_of_fmap (n' & -> & _)%list_elem_of_fmap.
  rewrite !elem_of_members_of. intros. by replace n' with n by congruence.
Qed.

(** Norms with a variable in common are in one group of the check over all pairs. *)
Lemma same_variable_same_group l m m' x :
  l ∈ groups norms (λ _ _, true) → m ∈ l →
  is_Some (variables_of norms m !! x) → is_Some (variables_of norms m' !! x) → m' ∈ l.
Proof.
  intros Hl Hm Hx Hx'.
  assert (∀ k, is_Some (variables_of norms k !! x) → is_Some (norms !! k)) as Hn.
  { intros k. unfold variables_of. destruct (norms !! k); [done|]. rewrite lookup_empty. by intros []. }
  apply (proj2 (groups_partition norms (λ _ _, true)) l m m' Hl Hm). split; [by apply Hn|].
  destruct (decide (m = m')) as [<-|Hne]; [done|]. apply rtc_once.
  destruct (total String.le m m') as [?|?]; [left|right];
    (split_and!; [by apply Hn|by apply Hn|done|done|]; apply shared_true; eauto).
Qed.

(** The components decide the norms as a whole: when every component of the check
    over all pairs is compatible, one assignment satisfies all norms together, and when
    some component is incompatible, no assignment does. *)
Theorem check_joint budget comps :
  (∀ id n, norms !! id = Some n → wf_norm n) → check norms budget = Some comps →
  ((∀ c, c ∈ comps → ∃ w, cp_outcome c = Compatible w) → consistent norms (map_keys norms)) ∧
  (∀ c core, c ∈ comps → cp_outcome c = Incompatible core → ¬ consistent norms (map_keys norms)).
Proof.
  intros Hwf Hcheck. destruct (groups_partition norms (λ _ _, true)) as [Hperm _].
  pose proof (λ c, component_of_group _ budget comps c Hwf Hcheck) as Hcomp. split.
  - intros Hall. set (witness c := match cp_outcome c with Compatible w => w | _ => ∅ end).
    exists (⋃ (witness <$> comps)). intros m n Hm Hn.
    rewrite <- Hperm in Hm. apply list_elem_of_join in Hm as (l & Hm & Hl).
    destruct (group_component _ _ _ l Hcheck Hl) as (c & Hc & Hcl).
    destruct (Hcomp c Hc) as (Hg & Hcc & Hv & Hd). destruct (Hall c Hc) as [w Hw].
    assert (cp_norms c = l) as <-.
    { unfold check_component in Hcl. destruct (collect_variables norms l) as [vars clash].
      by apply bind_Some in Hcl as (o & _ & [= <-]). }
    rewrite Hw in Hv. destruct Hv as [_ Hv]. specialize (Hd w Hw). destruct (Hv m n Hm Hn) as [Hin Hh].
    assert (∀ x, is_Some (variables n !! x) → (⋃ (witness <$> comps)) !! x = w !! x) as Hag.
    { intros x Hx. rewrite <- (variables_of_Some _ _ _ Hn) in Hx. apply union_list_lookup.
      - apply list_elem_of_fmap. exists c. split; [|done]. unfold witness. by rewrite Hw.
      - apply Hd. eauto.
      - intros w' (c' & -> & Hc')%list_elem_of_fmap Hx'. destruct (Hall c' Hc') as [w2 Hw2].
        unfold witness in *. rewrite Hw2 in *. destruct (Hcomp c' Hc') as (Hg' & Hcc' & _ & Hd').
        apply (Hd' w2 Hw2) in Hx' as (m' & Hm' & Hx').
        assert (cp_norms c' = cp_norms c) as Heq.
        { apply (group_unique _ _ _ m' Hg' Hg); [done|]. by eapply same_variable_same_group. }
        congruence. }
    split.
    + intros x d Hx. rewrite Hag by (by eexists). by apply Hin.
    + rewrite (holds_agree (variables n) n _ w); [done|apply (Hwf m n Hn)|done].
  - intros c core Hc Ho Hcons. destruct (Hcomp c Hc) as (Hg & _ & Hv & _). rewrite Ho in Hv.
    destruct Hv as [_ [Hsub [Hinc _]]]. apply Hinc. eapply consistent_mono; [|exact Hcons].
    intros m Hm. rewrite <- Hperm. apply list_elem_of_join. eauto.
Qed.
End theorems.

(** A typed part that parses is well scoped: every domain has a value, every atom has a
    declared variable on its left, which is an integer when it is ordered, and on its right a
    declared variable of the same kind or a literal.  The type of a literal is not checked
    ([mistyped_literal_parses]). *)
Lemma parse_well_scoped `{UnicodeTable} declarations formula n :
  parse declarations formula = Ok n →
  inhabited_domains (variables n) ∧ Forall (scoped_atom (variables n)) (atoms n).
Proof. apply parse_ok. Qed.

Lemma triple_wf id n : triple !! id = Some n → wf_norm n.
Proof.
  unfold triple. rewrite !lookup_insert_Some, lookup_singleton_Some.
  intros [[_ <-]|[_ [[_ <-]|[_ [_ <-]]]]]; apply norm_of_wf.
Qed.




Lemma check_joint_witness : ¬ consistent triple ["a"; "b"; "c"]%string.
Proof.
  destruct (check triple 1024) as [comps|] eqn:Hc; [|exfalso; vm_compute in Hc; discriminate Hc].
  refine (proj2 (check_joint triple 1024 comps triple_wf Hc)
    (mkComponent ["a"; "b"; "c"] ["x"; "y"; "z"] (Incompatible ["a"; "b"; "c"]))%string
    ["a"; "b"; "c"]%string _ eq_refl).
  vm_compute in Hc. injection Hc as <-. left.
Defined.

(** A literal is not checked against the type of the variable: an integer variable
    ordered against a text parses, and the atom holds whatever the variable is. *)
Lemma mistyped_literal_holds (text : string) z lo hi :
  let vars : gmap string Domain := {[ "n"%string := DInt lo hi ]} in
  holds (mkNorm vars [mkAtom "n" CLt (OLiteral (VText text))]) {[ "n"%string := VInt z ]} = Some true.
Proof. reflexivity. Qed.

Example mistyped_literal_parses :
  parse ["n: int(0..3)"%string] (String.concat (String "034" "") ["n < "; "a"; ""]%string)
  = Ok (mkNorm {[ "n"%string := DInt 0 3 ]} [mkAtom "n" CLt (OLiteral (VText "a"))]).
Proof. vm_compute. reflexivity. Qed.
