(* ===== verification/Merge.v ===== *)
(** The blob-plane merge engine (store/merge.rs) and the reconciliation planner that
    runs on it (store/reconcile.rs). *)
From S2P Require Import Prelude.

(** ** merge.rs *)

Abbreviation manifest := (gmap string string).

Record MergeSide := mkSide { label : string; side_cut_id : option string }.

Record PathConflict := mkConflict {
  pc_path : string;
  pc_base : option string;
  pc_ours : option string;
  pc_theirs : option string;
  pc_ours_side : MergeSide;
  pc_theirs_side : MergeSide;
}.

Inductive MergeOutcome :=
| Clean (m : manifest)
| Conflicted (merged_remainder : manifest) (conflicts : list PathConflict).

(** The outcome of one path: the content taken, or [None] for a conflict. *)
Definition take (b o t : option string) : option (option string) :=
  if bool_decide (o = t) then Some o
  else if bool_decide (o = b) then Some t
  else if bool_decide (t = b) then Some o
  else None.

(** One turn of the loop over the paths. *)
Definition merge_step (base ours theirs : manifest) (ours_side theirs_side : MergeSide)
    (acc : manifest * list PathConflict) (path : string) : manifest * list PathConflict :=
  let '(merged, conflicts) := acc in
  let b := base !! path in
  let o := ours !! path in
  let t := theirs !! path in
  match take b o t with
  | Some (Some hash) => (<[ path := hash ]> merged, conflicts)
  | Some None => (merged, conflicts)
  | None => (merged, conflicts ++ [mkConflict path b o t ours_side theirs_side])
  end.

Definition merge_paths (base ours theirs : manifest) : list string :=
  set_keys (dom base ∪ dom ours ∪ dom theirs).

Definition merge_manifests (base ours theirs : manifest) (ours_side theirs_side : MergeSide)
    : MergeOutcome :=
  let '(merged, conflicts) :=
    foldl (merge_step base ours theirs ours_side theirs_side) (∅, []) (merge_paths base ours theirs) in
  match conflicts with
  | [] => Clean merged
  | _ => Conflicted merged conflicts
  end.

(** ** reconcile.rs *)

Inductive RebaseDownPlan :=
| UpToDate
| Silent (new_head_manifest : manifest)
| DeferredMidRun
| AskAtQuiescence (conflicts : list PathConflict) (merged_remainder : manifest).

Inductive MergeUpPlan :=
| NeedsLease
| NeedsQuiescence
| StaleBase (branch_point_cut_id target_head_cut_id : option string)
| Certified (merged_manifest : manifest).

Definition plan_rebase_down (branch_point branch_head target_head : manifest)
    (branch_side target_side : MergeSide) (quiescent : bool) : RebaseDownPlan :=
  if bool_decide (branch_point = target_head) then UpToDate
  else match merge_manifests branch_point branch_head target_head branch_side target_side with
  | Clean m => Silent m
  | Conflicted merged_remainder conflicts =>
      if quiescent then AskAtQuiescence conflicts merged_remainder else DeferredMidRun
  end.

Definition plan_merge_up (branch_head : manifest)
    (branch_point_cut_id target_head_cut_id : option string) (lease_held quiescent : bool)
    : MergeUpPlan :=
  if negb lease_held then NeedsLease
  else if negb quiescent then NeedsQuiescence
  else if negb (bool_decide (branch_point_cut_id = target_head_cut_id))
  then StaleBase branch_point_cut_id target_head_cut_id
  else Certified branch_head.

(** ** Specification *)

(** The merged content of an outcome, and its conflicts. *)
Definition merged_of (outcome : MergeOutcome) : manifest :=
  match outcome with Clean m => m | Conflicted m _ => m end.
Definition conflicts_of (outcome : MergeOutcome) : list PathConflict :=
  match outcome with Clean _ => [] | Conflicted _ cs => cs end.

(** A path is contested when both sides moved away from the base, apart. *)
Definition contested (base ours theirs : manifest) (path : string) : Prop :=
  ours !! path ≠ theirs !! path ∧ ours !! path ≠ base !! path ∧ theirs !! path ≠ base !! path.

(** ** Lemmas *)

#[export] Instance contested_dec base ours theirs path : Decision (contested base ours theirs path).
Proof. unfold contested. apply _. Defined.

Lemma take_None b o t : take b o t = None ↔ o ≠ t ∧ o ≠ b ∧ t ≠ b.
Proof. unfold take. repeat case_bool_decide; naive_solver. Qed.

Lemma take_Some b o t r :
  take b o t = Some r ↔ (o = t ∧ r = o) ∨ (o = b ∧ r = t) ∨ (t = b ∧ r = o).
Proof. unfold take. repeat case_bool_decide; naive_solver. Qed.

Lemma take_sym b o t : take b o t = take b t o.
Proof. unfold take. repeat case_bool_decide; naive_solver. Qed.

Section merge.
Context (base ours theirs : manifest) (ours_side theirs_side : MergeSide).

Abbreviation fold_paths := (foldl (merge_step base ours theirs ours_side theirs_side)).
Abbreviation taken path := (take (base !! path) (ours !! path) (theirs !! path)).

Definition conflict_at (path : string) : PathConflict :=
  mkConflict path (base !! path) (ours !! path) (theirs !! path) ours_side theirs_side.

Lemma fold_conflicts paths acc :
  (fold_paths acc paths).2
  = acc.2 ++ (conflict_at <$> filter (contested base ours theirs) paths).
Proof.
  revert acc. induction paths as [|p paths IH]; intros [m cs]; simpl; [by rewrite app_nil_r|].
  rewrite IH, filter_cons. destruct (taken p) as [[h|]|] eqn:Ht; simpl.
  - rewrite decide_False; [done|]. unfold contested. rewrite <- take_None. congruence.
  - rewrite decide_False; [done|]. unfold contested. rewrite <- take_None. congruence.
  - rewrite decide_True by (by apply take_None). simpl. by rewrite <- app_assoc.
Qed.

Lemma step_merged acc p path :
  (merge_step base ours theirs ours_side theirs_side acc p).1 !! path
  = match (if decide (path = p) then taken p else None) with
    | Some (Some h) => Some h
    | _ => acc.1 !! path
    end.
Proof.
  destruct acc as [m cs]. unfold merge_step.
  destruct (decide (path = p)) as [->|Hne]; destruct (taken p) as [[h|]|]; simpl; try done.
  - apply lookup_insert_eq.
  - by rewrite lookup_insert_ne.
Qed.

Lemma fold_merged paths acc path :
  NoDup paths →
  (fold_paths acc paths).1 !! path
  = match (if decide (path ∈ paths) then taken path else None) with
    | Some (Some h) => Some h
    | _ => acc.1 !! path
    end.
Proof.
  intros Hnd. revert acc. induction Hnd as [|p paths Hp Hnd IH]; intros acc.
  { by rewrite decide_False by apply not_elem_of_nil. }
  cbn [foldl]. rewrite IH, step_merged. destruct (decide (path = p)) as [->|Hne].
  - by rewrite (decide_False (P := p ∈ paths)), decide_True by set_solver.
  - destruct (decide (path ∈ paths)).
    + by rewrite decide_True by set_solver.
    + by rewrite decide_False by set_solver.
Qed.

Lemma elem_of_merge_paths path :
  path ∈ merge_paths base ours theirs ↔
  is_Some (base !! path) ∨ is_Some (ours !! path) ∨ is_Some (theirs !! path).
Proof.
  unfold merge_paths. rewrite elem_of_set_keys, !elem_of_union, !elem_of_dom. tauto.
Qed.

Abbreviation outcome := (merge_manifests base ours theirs ours_side theirs_side).

Lemma merge_conflicts :
  conflicts_of outcome = conflict_at <$> filter (contested base ours theirs) (merge_paths base ours theirs).
Proof.
  unfold merge_manifests. pose proof (fold_conflicts (merge_paths base ours theirs) (∅, [])) as Hc.
  destruct (fold_paths _ _) as [m cs]. simpl in Hc. rewrite <- Hc. by destruct cs.
Qed.

Lemma merge_merged path :
  merged_of outcome !! path = match taken path with Some (Some h) => Some h | _ => None end.
Proof.
  unfold merge_manifests.
  pose proof (fold_merged (merge_paths base ours theirs) (∅, []) path (NoDup_set_keys _)) as Hm.
  destruct (fold_paths _ _) as [m cs]. simpl in Hm.
  replace (merged_of _) with m by (by destruct cs). rewrite Hm, lookup_empty.
  case_decide as Hin; [done|]. rewrite elem_of_merge_paths in Hin.
  assert (base !! path = None ∧ ours !! path = None ∧ theirs !! path = None) as (-> & -> & ->)
    by (rewrite !eq_None_not_Some; tauto).
  done.
Qed.

Lemma elem_of_conflicts c :
  c ∈ conflicts_of outcome ↔ contested base ours theirs (pc_path c) ∧ c = conflict_at (pc_path c).
Proof.
  rewrite merge_conflicts, list_elem_of_fmap. setoid_rewrite list_elem_of_filter. split.
  - intros (p & -> & Hc & _). done.
  - intros [Hc ->]. exists (pc_path c). split; [done|]. split; [done|].
    apply elem_of_merge_paths. destruct Hc as (H1 & H2 & H3).
    destruct (base !! pc_path c), (ours !! pc_path c), (theirs !! pc_path c); naive_solver.
Qed.

Lemma merge_clean :
  (∃ m, outcome = Clean m) ↔ ∀ path, ¬ contested base ours theirs path.
Proof.
  split.
  - intros [m Hm] path Hc. assert (conflict_at path ∈ conflicts_of outcome) as Hin
      by (by apply elem_of_conflicts). rewrite Hm in Hin. by apply elem_of_nil in Hin.
  - intros Hn. destruct outcome as [m|m cs] eqn:Ho; [by exists m|].
    exfalso. pose proof merge_conflicts as Hcs.
    assert (filter (contested base ours theirs) (merge_paths base ours theirs) = []) as Hf.
    { destruct (filter _ _) as [|p l] eqn:Hf; [done|].
      assert (p ∈ filter (contested base ours theirs) (merge_paths base ours theirs)) as Hp
        by (rewrite Hf; left). by apply list_elem_of_filter in Hp as [?%Hn _]. }
    rewrite Hf, Ho in Hcs. simpl in Hcs. subst cs.
    unfold merge_manifests in Ho. destruct (fold_paths _ _) as [? []]; done.
Qed.

Lemma merge_nonempty m cs : outcome = Conflicted m cs → ∃ c, c ∈ cs.
Proof.
  unfold merge_manifests. destruct (fold_paths _ _) as [m' [|c cs']]; [done|].
  intros [= <- <-]. exists c. left.
Qed.

End merge.

(** Merges that cannot conflict. *)
Lemma merge_uncontested base ours theirs s1 s2 m :
  (∀ path, take (base !! path) (ours !! path) (theirs !! path) = Some (m !! path)) →
  merge_manifests base ours theirs s1 s2 = Clean m.
Proof.
  intros Ht. destruct (proj2 (merge_clean base ours theirs s1 s2)) as [m' Hm'].
  { intros path Hc%take_None. by rewrite Ht in Hc. }
  rewrite Hm'. f_equal. apply map_eq. intros path.
  pose proof (merge_merged base ours theirs s1 s2 path) as Hl. rewrite Hm', Ht in Hl.
  simpl in Hl. rewrite Hl. by destruct (m !! path).
Qed.

(** ** Theorems *)

(** C24: The merge is the three-way merge, path by path: a path that both sides moved
    away from the base, apart, is the one and only conflict of that path, carries the
    three contents, and is absent from the merged remainder; every other path takes
    the side that changed, deletions included; and the merge is clean exactly when
    no path is contested. *)
Theorem merge_manifests_spec base ours theirs s1 s2 :
  let outcome := merge_manifests base ours theirs s1 s2 in
  (∀ path, contested base ours theirs path →
     merged_of outcome !! path = None ∧
     mkConflict path (base !! path) (ours !! path) (theirs !! path) s1 s2 ∈ conflicts_of outcome) ∧
  (∀ path, ¬ contested base ours theirs path →
     merged_of outcome !! path
     = if decide (ours !! path = base !! path) then theirs !! path else ours !! path) ∧
  NoDup (pc_path <$> conflicts_of outcome) ∧
  (∀ c, c ∈ conflicts_of outcome → contested base ours theirs (pc_path c)) ∧
  ((∃ m, outcome = Clean m) ↔ ∀ path, ¬ contested base ours theirs path).
Proof.
  intros outcome. split; [|split; [|split; [|split]]].
  - intros path Hc. unfold outcome. rewrite merge_merged, (proj2 (take_None _ _ _)) by done.
    split; [done|]. by apply elem_of_conflicts.
  - intros path Hc. unfold outcome. rewrite merge_merged. unfold contested in Hc.
    destruct (take _ _ _) as [r|] eqn:Ht; [|by apply take_None in Ht].
    replace (match r with Some h => Some h | None => None end) with r by (by destruct r).
    apply take_Some in Ht as [[? ->]|[[? ->]|[? ->]]]; case_decide; congruence.
  - unfold outcome. rewrite merge_conflicts, <- list_fmap_compose.
    change (pc_path ∘ _) with (@id string). rewrite list_fmap_id.
    apply NoDup_filter, NoDup_set_keys.
  - intros c Hc. by apply (elem_of_conflicts base ours theirs s1 s2).
  - apply merge_clean.
Qed.

Lemma merge_manifests_spec_witness :
  contested {[ "a" := "0"; "b" := "0" ]} {[ "a" := "1" ]} {[ "a" := "2"; "b" := "0" ]} "a" ∧
  merge_manifests {[ "a" := "0"; "b" := "0" ]} {[ "a" := "1" ]} {[ "a" := "2"; "b" := "0" ]}
    (mkSide "x" None) (mkSide "y" None)
  = Conflicted ∅ [mkConflict "a" (Some "0") (Some "1") (Some "2") (mkSide "x" None) (mkSide "y" None)]%string.
Proof.
  assert (contested {[ "a" := "0"; "b" := "0" ]} {[ "a" := "1" ]} {[ "a" := "2"; "b" := "0" ]} "a")
    as Hc by (apply (bool_decide_unpack _); vm_compute; exact I).
  destruct (merge_manifests_spec {[ "a" := "0"; "b" := "0" ]} {[ "a" := "1" ]}
    {[ "a" := "2"; "b" := "0" ]} (mkSide "x" None) (mkSide "y" None)) as (H & _).
  destruct (H "a"%string Hc) as [_ _]. split; [exact Hc|vm_compute; reflexivity].
Defined.

(** The merge does not prefer a side: swapping the sides gives the same merged
    content and the same contested paths with the two contents exchanged. *)
Theorem merge_symmetric base ours theirs s1 s2 :
  let there := merge_manifests base ours theirs s1 s2 in
  let back := merge_manifests base theirs ours s2 s1 in
  merged_of there = merged_of back ∧
  conflicts_of back
  = (λ c, mkConflict (pc_path c) (pc_base c) (pc_theirs c) (pc_ours c)
       (pc_theirs_side c) (pc_ours_side c)) <$> conflicts_of there.
Proof.
  simpl. split.
  - apply map_eq. intros path. by rewrite !merge_merged, take_sym.
  - rewrite !merge_conflicts, <- list_fmap_compose.
    replace (merge_paths base theirs ours) with (merge_paths base ours theirs)
      by (unfold merge_paths; f_equal; set_solver).
    assert (∀ l, filter (contested base theirs ours) l = filter (contested base ours theirs) l) as ->.
    { intros l. apply list_filter_iff. unfold contested. naive_solver. }
    done.
Qed.

(** A side that did not move yields: merging an unchanged branch fast-forwards to
    the other side, and two identical sides merge to that content. *)
Theorem merge_fast_forward base m s1 s2 :
  merge_manifests base base m s1 s2 = Clean m ∧
  merge_manifests base m base s1 s2 = Clean m ∧
  merge_manifests base m m s1 s2 = Clean m.
Proof.
  repeat split; apply merge_uncontested; intros path; unfold take;
    repeat case_bool_decide; congruence.
Qed.

(** Rebasing down intrudes on no run and loses no change: a plan folds the target
    in silently exactly when the target moved and no path is contested, in any phase,
    and then keeps every change of the branch and of the target; a conflicting
    delta is deferred while the branch runs and becomes a question, with at least one
    conflict, when it is quiescent. *)
Theorem rebase_down_plan base head target s1 s2 quiescent :
  match plan_rebase_down base head target s1 s2 quiescent with
  | UpToDate => base = target
  | Silent m =>
      base ≠ target ∧ (∀ path, ¬ contested base head target path) ∧
      ∀ path, (head !! path ≠ base !! path → m !! path = head !! path) ∧
              (target !! path ≠ base !! path → m !! path = target !! path) ∧
              (head !! path = base !! path → m !! path = target !! path)
  | DeferredMidRun => quiescent = false ∧ ∃ path, contested base head target path
  | AskAtQuiescence conflicts m =>
      quiescent = true ∧ conflicts ≠ [] ∧
      ∀ path, contested base head target path ↔ ∃ c, c ∈ conflicts ∧ pc_path c = path
  end.
Proof.
  unfold plan_rebase_down. case_bool_decide as Heq; [done|].
  pose proof (merge_clean base head target s1 s2) as Hclean.
  pose proof (merge_merged base head target s1 s2) as Hmerged.
  pose proof (elem_of_conflicts base head target s1 s2) as Hconf.
  pose proof (merge_nonempty base head target s1 s2) as Hne.
  destruct (merge_manifests base head target s1 s2) as [m|m cs]; simpl in *.
  - assert (∀ path, ¬ contested base head target path) as Hn by (apply Hclean; eauto).
    split; [done|]. split; [done|]. intros path. specialize (Hmerged path).
    destruct (take _ _ _) as [r|] eqn:Ht; [|apply take_None in Ht; by destruct (Hn path)].
    replace (match r with Some h => Some h | None => None end) with r in Hmerged by (by destruct r).
    apply take_Some in Ht as [[? ->]|[[? ->]|[? ->]]]; repeat split; congruence.
  - destruct (Hne m cs eq_refl) as [c Hc]. destruct quiescent.
    + split; [done|]. split; [by intros ->; apply elem_of_nil in Hc|]. intros path. split.
      * intros Hp. exists (conflict_at base head target s1 s2 path).
        split; [by apply Hconf|done].
      * intros (c' & [Hc' _]%Hconf & <-). done.
    + split; [done|]. exists (pc_path c). by apply Hconf in Hc as [? _].
Qed.

(** Merging up advances the target only over certified content: a certificate is
    issued exactly under the lease, at quiescence and when the branch point is the
    target's current head; and whatever manifests the cuts stand for, the certified
    content is then the clean three-way merge of the branch into the target. *)
Theorem merge_up_certified head point target_cut lease quiescent m :
  (plan_merge_up head point target_cut lease quiescent = Certified m ↔
     lease = true ∧ quiescent = true ∧ point = target_cut ∧ m = head) ∧
  (plan_merge_up head point target_cut lease quiescent = Certified m →
   ∀ (content : option string → manifest) s1 s2,
     merge_manifests (content point) head (content target_cut) s1 s2 = Clean m).
Proof.
  assert (plan_merge_up head point target_cut lease quiescent = Certified m ↔
     lease = true ∧ quiescent = true ∧ point = target_cut ∧ m = head) as Hiff.
  { unfold plan_merge_up. destruct lease, quiescent; simpl; try naive_solver.
    case_bool_decide; naive_solver. }
  split; [done|]. intros (_ & _ & <- & ->)%Hiff content s1 s2.
  apply merge_uncontested. intros path. unfold take. repeat case_bool_decide; congruence.
Qed.

Lemma merge_up_certified_witness :
  merge_manifests {[ "a" := "0" ]} {[ "a" := "1" ]} {[ "a" := "0" ]}
    (mkSide "b" None) (mkSide "t" None) = Clean {[ "a" := "1" ]}%string.
Proof.
  exact (proj2 (merge_up_certified {[ "a" := "1" ]} (Some "c1") (Some "c1") true true {[ "a" := "1" ]})%string
    eq_refl (λ _, {[ "a" := "0" ]})%string (mkSide "b" None) (mkSide "t" None)).
Defined.
