(* ===== verification/DependencyGraph.v ===== *)
(** The effect-dependency graph: its cycle guard (store/dependency_graph.rs), the
    write path that runs the guard, and the pass that re-queues effects whose
    dependencies settled (store/lib.rs).  The two tables are the columns these
    statements read and write, with the constraints of the schema. *)
From S2P Require Import Prelude Walk.

(** ** The guard *)

(** The edges the walk follows: from a downstream effect up to the effect it waits
    for. *)
Definition upward (existing : list (string * string)) : list (string * string) :=
  (λ e, (e.2, e.1)) <$> existing.

(** [edge_closes_cycle]; [existing] holds (upstream, downstream) pairs. *)
Definition edge_closes_cycle (existing : list (string * string)) (upstream downstream : string) : bool :=
  if bool_decide (upstream = downstream) then true
  else reaches (upward existing) upstream downstream.

(** ** The tables *)

Record EffectRow := mkEffect { ef_instance : string; ef_status : string }.

Record DependencyRow := mkDependency {
  dependency_id : string;
  dep_instance : string;
  upstream_effect_id : string;
  downstream_effect_id : string;
  predicate : string;
  created_by_rule : string;
}.

Record EffectStore := mkEffectStore {
  effects : gmap string EffectRow;
  dependencies : list DependencyRow;
}.

Inductive dependency_error :=
| DependencyCycle (instance_id upstream downstream rule : string)
| ConstraintViolation.

(** [instance_dependency_edges]. *)
Definition instance_dependency_edges (s : EffectStore) (instance_id : string) : list (string * string) :=
  (λ d, (upstream_effect_id d, downstream_effect_id d)) <$>
    filter (λ d, dep_instance d = instance_id) (dependencies s).

(** The primary key, the unique index and the two references of the table. *)
Definition row_admissible (s : EffectStore) (row : DependencyRow) : bool :=
  forallb (λ d, negb (bool_decide (dependency_id d = dependency_id row))
    && negb (bool_decide (dep_instance d = dep_instance row)
             && bool_decide (upstream_effect_id d = upstream_effect_id row)
             && bool_decide (downstream_effect_id d = downstream_effect_id row)
             && bool_decide (predicate d = predicate row))) (dependencies s)
  && bool_decide (is_Some (effects s !! upstream_effect_id row))
  && bool_decide (is_Some (effects s !! downstream_effect_id row)).

(** [insert_effect_dependency]. *)
Definition insert_effect_dependency (s : EffectStore) (row : DependencyRow)
    : result dependency_error EffectStore :=
  if edge_closes_cycle (instance_dependency_edges s (dep_instance row))
       (upstream_effect_id row) (downstream_effect_id row)
  then Err (DependencyCycle (dep_instance row) (upstream_effect_id row)
              (downstream_effect_id row) (created_by_rule row))
  else if row_admissible s row
  then Ok (mkEffectStore (effects s) (dependencies s ++ [row]))
  else Err ConstraintViolation.

(** ** Settling *)

Section settling.
Local Open Scope string_scope.

Definition settled_statuses : list string := ["completed"; "failed"; "timed_out"; "cancelled"].

(** [DEPENDENCY_SATISFIED]. *)
Definition dependency_satisfied (pred upstream_status : string) : bool :=
  (bool_decide (pred = "succeeds") && bool_decide (upstream_status = "completed"))
  || (bool_decide (pred = "fails") && bool_decide (upstream_status = "failed"))
  || (bool_decide (pred = "timed_out") && bool_decide (upstream_status = "timed_out"))
  || (bool_decide (pred = "cancelled") && bool_decide (upstream_status = "cancelled"))
  || (bool_decide (pred = "completes") && bool_decide (upstream_status ∈ settled_statuses)).

Definition BLOCKED : string := "blocked_by_dependency".
Definition QUEUED : string := "queued".

(** The join of one dependency with its upstream effect is a row that is not
    satisfied. *)
Definition unsatisfied (s : EffectStore) (instance_id effect_id : string) (d : DependencyRow) : bool :=
  bool_decide (dep_instance d = instance_id)
  && bool_decide (downstream_effect_id d = effect_id)
  && match effects s !! upstream_effect_id d with
     | Some upstream =>
         bool_decide (ef_instance upstream = dep_instance d)
         && negb (dependency_satisfied (predicate d) (ef_status upstream))
     | None => false
     end.

(** The row the UPDATE of [satisfy_dependencies_on] touches. *)
Definition releasable (s : EffectStore) (instance_id effect_id : string) (e : EffectRow) : bool :=
  bool_decide (ef_instance e = instance_id) && bool_decide (ef_status e = BLOCKED)
  && negb (existsb (unsatisfied s instance_id effect_id) (dependencies s)).

(** [satisfy_dependencies_on]: the store after the update, and the rows changed. *)
Definition satisfy_dependencies_on (s : EffectStore) (instance_id : string) : EffectStore * nat :=
  (mkEffectStore
     (map_imap (λ id e, Some (if releasable s instance_id id e
                              then mkEffect (ef_instance e) QUEUED else e)) (effects s))
     (dependencies s),
   length (filter (λ '(id, e), releasable s instance_id id e = true) (map_entries (effects s)))).

End settling.

(** ** Specification *)

(** No effect waits for itself, through any chain of edges. *)
Definition acyclic (edges : list (string * string)) : Prop := ∀ x, ¬ tc (edge edges) x x.

Definition acyclic_store (s : EffectStore) : Prop :=
  ∀ instance_id, acyclic (instance_dependency_edges s instance_id).

(** ** Lemmas *)

Lemma edge_upward existing x y : edge (upward existing) x y ↔ edge existing y x.
Proof.
  unfold edge, upward. rewrite list_elem_of_fmap. split.
  - by intros ([a b] & [= -> ->] & ?).
  - intros Hin. by exists (y, x).
Qed.

Lemma rtc_flip {A} (R S : relation A) x y : (∀ a b, R a b → S b a) → rtc R x y → rtc S y x.
Proof. intros Hf. induction 1; [done|]. eapply rtc_r; [done|]. by apply Hf. Qed.

Lemma rtc_upward existing x y : rtc (edge (upward existing)) x y ↔ rtc (edge existing) y x.
Proof. split; apply rtc_flip; intros a b; apply edge_upward. Qed.

Lemma closes_cycle_spec existing u d :
  edge_closes_cycle existing u d = true ↔ rtc (edge existing) d u.
Proof.
  unfold edge_closes_cycle. case_bool_decide as Heq; [by subst|].
  by rewrite reaches_rtc, rtc_upward.
Qed.

Lemma acyclic_nil : acyclic [].
Proof. intros x Hx. inversion Hx as [? ? He|? ? ? He]; by apply elem_of_nil in He. Qed.

Section extended.
Context (existing : list (string * string)) (u d : string).
Abbreviation extended := (existing ++ [(u, d)]).

Lemma edge_snoc x y : edge extended x y ↔ edge existing x y ∨ (x = u ∧ y = d).
Proof. unfold edge. rewrite elem_of_app, list_elem_of_singleton. naive_solver. Qed.

(** A path in the extended graph either avoids the new edge or passes through it. *)
Lemma tc_snoc x y :
  tc (edge extended) x y →
  tc (edge existing) x y ∨ (rtc (edge existing) x u ∧ rtc (edge extended) d y).
Proof.
  induction 1 as [x y Hxy|x y z Hxy Hyz IH]; apply edge_snoc in Hxy as [Hxy|[-> ->]].
  - left. by apply tc_once.
  - by right.
  - destruct IH as [IH|[IH1 IH2]]; [left; by eapply tc_l|right; split; [by eapply rtc_l|done]].
  - right. split; [done|]. by apply tc_rtc.
Qed.

Lemma acyclic_snoc :
  acyclic existing → acyclic extended ↔ ¬ rtc (edge existing) d u.
Proof.
  intros Hac. split.
  - intros Hex Hdu. apply (Hex u). eapply tc_rtc_r; [apply tc_once, edge_snoc; auto|].
    eapply rtc_subrel; [|done]. intros a b ?. apply edge_snoc. by left.
  - intros Hdu x [Hx|[Hxu Hdx]]%tc_snoc; [by apply (Hac x)|].
    apply rtc_tc in Hdx as [->|[Hdx|[? _]]%tc_snoc]; [done| |done].
    apply Hdu. etrans; [by apply tc_rtc|done].
Qed.

End extended.

Lemma edges_of_insert s row instance_id :
  instance_dependency_edges (mkEffectStore (effects s) (dependencies s ++ [row])) instance_id
  = instance_dependency_edges s instance_id
    ++ (if decide (dep_instance row = instance_id)
        then [(upstream_effect_id row, downstream_effect_id row)] else []).
Proof.
  unfold instance_dependency_edges. simpl. rewrite filter_app, fmap_app. f_equal.
  rewrite filter_cons, filter_nil. by destruct (decide _).
Qed.

Lemma insert_acyclic s row s' :
  acyclic_store s → insert_effect_dependency s row = Ok s' → acyclic_store s'.
Proof.
  intros Hac. unfold insert_effect_dependency.
  destruct (edge_closes_cycle _ _ _) eqn:Hc; [done|].
  destruct (row_admissible s row); [|done]. intros [= <-] i. rewrite edges_of_insert.
  destruct (decide (dep_instance row = i)) as [<-|]; [|rewrite app_nil_r; apply Hac].
  apply acyclic_snoc; [apply Hac|]. rewrite <- closes_cycle_spec. by rewrite Hc.
Qed.

(** Neither a blocked nor a queued effect satisfies any edge. *)
Lemma pending_unsatisfied pred : dependency_satisfied pred BLOCKED = false ∧
  dependency_satisfied pred QUEUED = false.
Proof.
  unfold dependency_satisfied.
  repeat match goal with
  | |- context [bool_decide (pred = ?p)] => destruct (bool_decide (pred = p))
  end; split; reflexivity.
Qed.

Lemma satisfy_lookup s instance_id id :
  effects (satisfy_dependencies_on s instance_id).1 !! id
  = (λ e, if releasable s instance_id id e then mkEffect (ef_instance e) QUEUED else e)
      <$> effects s !! id.
Proof. simpl. rewrite map_lookup_imap. by destruct (effects s !! id). Qed.

Lemma unsatisfied_satisfy s instance_id i id d :
  unsatisfied (satisfy_dependencies_on s instance_id).1 i id d = unsatisfied s i id d.
Proof.
  unfold unsatisfied. rewrite satisfy_lookup. f_equal.
  destruct (effects s !! upstream_effect_id d) as [e|]; simpl; [|done].
  destruct (releasable s instance_id _ e) eqn:Hr; simpl; [|done].
  unfold releasable in Hr. reflect_bool.
  destruct (pending_unsatisfied (predicate d)) as [Hb Hq]. rewrite Hq.
  by replace (ef_status e) with BLOCKED; rewrite Hb.
Qed.

Lemma unsatisfied_true s instance_id id d :
  unsatisfied s instance_id id d = true ↔
  dep_instance d = instance_id ∧ downstream_effect_id d = id ∧
  ∃ up, effects s !! upstream_effect_id d = Some up ∧ ef_instance up = instance_id ∧
    dependency_satisfied (predicate d) (ef_status up) = false.
Proof.
  unfold unsatisfied. rewrite !andb_true_iff, !bool_decide_eq_true.
  destruct (effects s !! upstream_effect_id d) as [up|].
  - rewrite andb_true_iff, bool_decide_eq_true, negb_true_iff. split.
    + intros [[<- <-] [? ?]]. eauto 6.
    + intros (<- & <- & up' & [= <-] & ? & ?). done.
  - split; [by intros [_ ?]|]. by intros (_ & _ & ? & ? & _).
Qed.

Lemma releasable_true s instance_id id e :
  releasable s instance_id id e = true ↔
  ef_instance e = instance_id ∧ ef_status e = BLOCKED ∧
  ∀ d, d ∈ dependencies s → unsatisfied s instance_id id d = false.
Proof.
  unfold releasable. rewrite !andb_true_iff, !bool_decide_eq_true, negb_true_iff.
  rewrite <- not_true_iff_false, existsb_elem. setoid_rewrite <- not_true_iff_false. naive_solver.
Qed.

(** *** Acyclic graphs have a first element *)

#[export] Instance tc_edge_dec (E : list (string * string)) x y : Decision (tc (edge E) x y).
Proof.
  destruct (existsb (λ z, reaches E z y) (successors E x)) eqn:He.
  - left. apply existsb_elem in He as (z & Hz%elem_of_successors & Hr%reaches_rtc).
    eapply tc_rtc_r; [by apply tc_once|done].
  - right. intros Hxy. rewrite <- not_true_iff_false in He. apply He. apply existsb_elem.
    assert (∃ z, edge E x z ∧ rtc (edge E) z y) as (z & Hxz & Hzy).
    { destruct Hxy as [x y Hxy|x z y Hxz Hzy]; [by exists y|]. exists z. eauto using tc_rtc. }
    exists z. rewrite elem_of_successors, reaches_rtc. done.
Defined.

(** A non-empty set of effects has a member that waits for no other member. *)
Lemma acyclic_first (E : list (string * string)) (X : gset string) :
  acyclic E → X ≢ ∅ → ∃ x, x ∈ X ∧ ∀ y, y ∈ X → ¬ edge E y x.
Proof.
  intros Hac Hne. destruct (minimal_exists_elem_of (tc (edge E)) X Hne) as (x & Hx & Hmin).
  exists x. split; [done|]. intros y Hy Hyx. apply (Hac x).
  eapply tc_r; [|exact Hyx]. apply Hmin; [done|]. by apply tc_once.
Qed.

(** ** The store as a state machine *)

(** The steps that touch the two tables: a guarded edge, the pass over one instance,
    and any change of the effects that keeps the edges (an effect added, a run that
    settles). *)
Inductive store_step : EffectStore → EffectStore → Prop :=
| step_insert s row s' : insert_effect_dependency s row = Ok s' → store_step s s'
| step_satisfy s instance_id : store_step s (satisfy_dependencies_on s instance_id).1
| step_effects s effects' : store_step s (mkEffectStore effects' (dependencies s)).

Definition empty_store : EffectStore := mkEffectStore ∅ [].

Lemma step_acyclic s s' : store_step s s' → acyclic_store s → acyclic_store s'.
Proof. destruct 1; intros Hac; [by eapply insert_acyclic|done|done]. Qed.

(** ** Theorems *)

(** The guard is exact: over an acyclic graph it refuses an edge precisely when
    adding the edge would make some effect wait for itself; a self-edge included. *)
Theorem edge_closes_cycle_exact existing upstream downstream :
  acyclic existing →
  edge_closes_cycle existing upstream downstream = true ↔
  ¬ acyclic (existing ++ [(upstream, downstream)]).
Proof.
  intros Hac. rewrite closes_cycle_spec, acyclic_snoc by done.
  split; [tauto|]. intros Hnn.
  destruct (reaches existing downstream upstream) eqn:Hr; [by apply reaches_rtc|].
  apply reaches_false in Hr. tauto.
Qed.

Lemma edge_closes_cycle_exact_witness : ¬ acyclic [("a", "b"); ("b", "a")]%string.
Proof.
  assert (acyclic [("a", "b")]%string) as Hac.
  { apply (proj2 (acyclic_snoc [] "a" "b" acyclic_nil)).
    intros [?|(y & He & _)]%rtc_inv; [discriminate|by apply elem_of_nil in He]. }
  exact (proj1 (edge_closes_cycle_exact [("a", "b")]%string "b" "a" Hac) eq_refl).
Defined.

(** C31: Every store that the guarded writes can reach keeps every instance's
    dependency graph acyclic, whatever effects are added, settled or re-queued in
    between. *)
Theorem reachable_acyclic s :
  rtc store_step empty_store s → acyclic_store s.
Proof.
  intros Hr. assert (acyclic_store empty_store) as H0 by (intros i; apply acyclic_nil).
  revert H0. induction Hr as [|s1 s2 s3 Hs _ IH]; [done|]. intros H1.
  by apply IH, (step_acyclic s1).
Qed.

Lemma reachable_acyclic_witness :
  acyclic_store (mkEffectStore {[ "a" := mkEffect "i" "queued"; "b" := mkEffect "i" "queued" ]}
    [mkDependency "d1" "i" "a" "b" "succeeds" "r"]).
Proof.
  apply reachable_acyclic. eapply rtc_l; [|apply rtc_once].
  - apply (step_effects empty_store
      {[ "a" := mkEffect "i" "queued"; "b" := mkEffect "i" "queued" ]}%string).
  - apply (step_insert _ (mkDependency "d1" "i" "a" "b" "succeeds" "r")).
    vm_compute. reflexivity.
Defined.

(** One pass re-queues exactly the blocked effects of the instance whose every
    edge is satisfied, leaves every other effect as it was, and a second pass changes
    nothing. *)
Theorem satisfy_exact s instance_id :
  let s' := (satisfy_dependencies_on s instance_id).1 in
  (∀ id e, effects s !! id = Some e →
     effects s' !! id = Some (if releasable s instance_id id e
                              then mkEffect (ef_instance e) QUEUED else e)) ∧
  (∀ id e, releasable s instance_id id e = true ↔
     ef_instance e = instance_id ∧ ef_status e = BLOCKED ∧
     ∀ d up, d ∈ dependencies s → dep_instance d = instance_id → downstream_effect_id d = id →
       effects s !! upstream_effect_id d = Some up → ef_instance up = instance_id →
       dependency_satisfied (predicate d) (ef_status up) = true) ∧
  satisfy_dependencies_on s' instance_id = (s', 0).
Proof.
  intros s'. split; [|split].
  - intros id e He. unfold s'. by rewrite satisfy_lookup, He.
  - intros id e. rewrite releasable_true. f_equiv. f_equiv. split.
    + intros Hall d up Hd Hi Hdown Hup Hiup. specialize (Hall d Hd).
      destruct (dependency_satisfied _ _) eqn:Hs; [done|].
      rewrite <- not_true_iff_false, unsatisfied_true in Hall. destruct Hall. eauto 8.
    + intros Hall d Hd. rewrite <- not_true_iff_false, unsatisfied_true.
      intros (Hi & Hdown & up & Hup & Hiup & Hs). by rewrite (Hall d up) in Hs.
  - assert (∀ id e, effects s' !! id = Some e → releasable s' instance_id id e = false) as Hno.
    { intros id e. unfold s'. rewrite satisfy_lookup.
      destruct (effects s !! id) as [e0|]; [|done]. intros [= <-].
      rewrite <- not_true_iff_false, releasable_true. intros (Hi & Hb & Hall).
      destruct (releasable s instance_id id e0) eqn:Hr; [done|].
      rewrite <- not_true_iff_false, releasable_true in Hr. apply Hr.
      split; [done|]. split; [done|]. intros d Hd.
      rewrite <- (unsatisfied_satisfy s instance_id). by apply Hall. }
    unfold satisfy_dependencies_on at 1. f_equal.
    + destruct s' as [es ds]. simpl in *. f_equal. apply map_eq. intros id.
      rewrite map_lookup_imap. destruct (es !! id) as [e|] eqn:He; simpl; [|done].
      by rewrite (Hno id e He).
    + destruct (filter _ _) as [|[id e] l] eqn:Hf; [done|].
      assert ((id, e) ∈ filter (λ '(id, e), releasable s' instance_id id e = true)
        (map_entries (effects s'))) as Hin by (rewrite Hf; left).
      apply list_elem_of_filter in Hin as [Hr Hin%elem_of_map_entries].
      by rewrite (Hno id e Hin) in Hr.
Qed.

(** An acyclic instance is never silently stuck: when some effect of an instance
    is blocked, every other effect of it has settled, and its edges wait for
    completion, the next pass re-queues at least one effect. *)
Theorem blocked_instance_progresses s instance_id blocked row :
  acyclic_store s →
  effects s !! blocked = Some row → ef_instance row = instance_id → ef_status row = BLOCKED →
  (∀ id e, effects s !! id = Some e → ef_instance e = instance_id →
     ef_status e = BLOCKED ∨ ef_status e ∈ settled_statuses) →
  (∀ d, d ∈ dependencies s → dep_instance d = instance_id → predicate d = "completes"%string) →
  0 < (satisfy_dependencies_on s instance_id).2.
Proof.
  intros Hac Hrow Hi Hb Hall Hcomp.
  set (waiting := dom (filter (λ kv, ef_instance kv.2 = instance_id ∧ ef_status kv.2 = BLOCKED)
    (effects s))).
  assert (∀ id, id ∈ waiting ↔ ∃ e, effects s !! id = Some e ∧ ef_instance e = instance_id ∧
    ef_status e = BLOCKED) as Hw.
  { intros id. unfold waiting. rewrite elem_of_dom. unfold is_Some.
    setoid_rewrite map_lookup_filter_Some. naive_solver. }
  destruct (acyclic_first (instance_dependency_edges s instance_id) waiting (Hac instance_id))
    as (x & (e & He & Hei & Heb)%Hw & Hfirst).
  { assert (blocked ∈ waiting) by (apply Hw; eauto). set_solver. }
  assert (releasable s instance_id x e = true) as Hrel.
  { apply releasable_true. split; [done|]. split; [done|]. intros d Hd.
    rewrite <- not_true_iff_false, unsatisfied_true.
    intros (Hdi & Hdown & up & Hup & Hupi & Hs).
    destruct (Hall _ _ Hup Hupi) as [Hblk|Hset].
    - apply (Hfirst (upstream_effect_id d)); [by apply Hw; eauto|].
      unfold edge, instance_dependency_edges. apply list_elem_of_fmap. exists d.
      rewrite list_elem_of_filter, Hdown. done.
    - rewrite (Hcomp d Hd Hdi) in Hs. unfold dependency_satisfied in Hs.
      rewrite (bool_decide_true (_ ∈ _)) in Hs by done.
      rewrite (bool_decide_true ("completes" = "completes")%string) in Hs by done.
      by rewrite orb_true_r in Hs. }
  simpl. assert ((x, e) ∈ filter (λ '(id, e), releasable s instance_id id e = true)
    (map_entries (effects s))) as Hin
    by (apply list_elem_of_filter; rewrite elem_of_map_entries; done).
  revert Hin. generalize (filter (λ '(id, e), releasable s instance_id id e = true)
    (map_entries (effects s))). intros [|] Hin; [by apply elem_of_nil in Hin|simpl; lia].
Qed.

Lemma blocked_instance_progresses_witness :
  0 < (satisfy_dependencies_on
    (mkEffectStore {[ "a" := mkEffect "i" "failed"; "b" := mkEffect "i" "blocked_by_dependency" ]}
      [mkDependency "d1" "i" "a" "b" "completes" "r"]) "i").2.
Proof.
  apply (blocked_instance_progresses _ "i" "b" (mkEffect "i" "blocked_by_dependency")).
  - apply (insert_acyclic
      (mkEffectStore {[ "a" := mkEffect "i" "failed"; "b" := mkEffect "i" "blocked_by_dependency" ]} [])
      (mkDependency "d1" "i" "a" "b" "completes" "r")); [intros i; apply acyclic_nil|].
    vm_compute. reflexivity.
  - vm_compute. reflexivity.
  - reflexivity.
  - reflexivity.
  - intros id e He _. cbn [effects] in He.
    apply lookup_insert_Some in He as [[<- <-]|[_ [<- <-]%lookup_singleton_Some]].
    + right. apply (bool_decide_unpack _). vm_compute. exact I.
    + left. reflexivity.
  - intros d Hd _. apply list_elem_of_singleton in Hd as ->. reflexivity.
Defined.
