(* ===== verification/EventChain.v ===== *)
(** The hash chain of the event log (store/event_chain.rs): the injective encoding of
    an entry, the digest that commits an entry to its prefix, and the comparison of
    pinned heads.  The hash function is an interface: what is proved about digests is
    stated up to a collision of it. *)
From stdpp Require Import pretty.
From S2P Require Import Prelude RustStr.

(** [items::sha256_hex]. *)
Class Sha256 := sha256_hex : string → string.

(** ** Definitions *)

Section definitions.
Local Open Scope string_scope.

Definition CANONICAL_TAG : string := "whipplescript.event-chain.v1".

(** U+001E, one byte. *)
Definition FIELD_SEPARATOR : string := bytes [30%N].

Definition genesis_text (instance_id : string) : string :=
  CANONICAL_TAG +:+ FIELD_SEPARATOR +:+ "genesis" +:+ FIELD_SEPARATOR
  +:+ pretty (String.length instance_id) +:+ ":" +:+ instance_id.

Definition genesis_digest `{Sha256} (instance_id : string) : string :=
  sha256_hex (genesis_text instance_id).

Record ChainEntry := mkChainEntry {
  event_id : string;
  instance_id : string;
  sequence : Z;
  event_type : string;
  payload_json : string;
  occurred_at : string;
  ce_source : string;
  causation_id : option string;
  correlation_id : option string;
  idempotency_key : option string;
  format_version : option Z;
}.

(** [field]: a decimal byte length before the value, or a token no length begins
    with. *)
Definition field (value : option string) : string :=
  match value with
  | Some text => pretty (String.length text) +:+ ":" +:+ text
  | None => "-"
  end.

Definition entry_fields (entry : ChainEntry) : list (option string) :=
  [ Some CANONICAL_TAG;
    Some (event_id entry);
    Some (instance_id entry);
    Some (pretty (sequence entry));
    Some (event_type entry);
    Some (payload_json entry);
    Some (occurred_at entry);
    Some (ce_source entry);
    causation_id entry;
    correlation_id entry;
    idempotency_key entry;
    pretty <$> format_version entry ].

Definition canonical_entry (entry : ChainEntry) : string :=
  join FIELD_SEPARATOR (field <$> entry_fields entry).

Definition digest_text (prev_digest : string) (entry : ChainEntry) : string :=
  field (Some prev_digest) +:+ FIELD_SEPARATOR +:+ canonical_entry entry.

Definition entry_digest `{Sha256} (prev_digest : string) (entry : ChainEntry) : string :=
  sha256_hex (digest_text prev_digest entry).

Record ChainHead := mkHead { head_sequence : option Z; digest : string }.

#[export] Instance ChainHead_eq_dec : EqDecision ChainHead.
Proof. solve_decision. Defined.

(** [ChainHead::empty]. *)
Definition empty_head `{Sha256} (instance_id : string) : ChainHead :=
  mkHead None (genesis_digest instance_id).

(** One turn of the loop of [fold_prefix]. *)
Definition extend_head `{Sha256} (head : ChainHead) (entry : ChainEntry) : ChainHead :=
  mkHead (Some (sequence entry)) (entry_digest (digest head) entry).

Definition fold_prefix `{Sha256} (instance_id : string) (entries : list ChainEntry) : ChainHead :=
  foldl extend_head (empty_head instance_id) entries.

Record LogDivergence := mkDivergence {
  div_instance : string;
  div_pinned : ChainHead;
  div_found : option ChainHead;
}.

Inductive PinnedLogVerdict :=
| Intact
| Diverged (divergences : list LogDivergence).

Definition verify_pinned_logs (pinned current : gmap string ChainHead) : PinnedLogVerdict :=
  let diverged := omap (λ '(instance_id, head),
    let found := current !! instance_id in
    if bool_decide (found = Some head) then None
    else Some (mkDivergence instance_id head found)) (map_entries pinned) in
  match diverged with
  | [] => Intact
  | _ => Diverged diverged
  end.

(** Two different texts with one hash. *)
Definition collision `{Sha256} : Prop := ∃ a b, a ≠ b ∧ sha256_hex a = sha256_hex b.

End definitions.

(** ** Injectivity of the encoding *)

Definition digits (s : string) : Prop := ∀ c, c ∈ chars s → is_ascii_digit c = true.

Lemma pretty_N_char_digit n : is_ascii_digit (pretty_N_char n) = true.
Proof. unfold pretty_N_char. by repeat case_match. Qed.

Lemma digits_cons c s : is_ascii_digit c = true → digits s → digits (String c s).
Proof. intros Hc Hs d [->|Hd]%elem_of_cons; auto. Qed.

Lemma pretty_N_go_digits n s : digits s → digits (pretty_N_go n s).
Proof.
  revert s. induction (N.lt_wf_0 n) as [n _ IH]; intros s Hs.
  assert (n = 0 ∨ 0 < n)%N as [->|Hn] by lia; [by rewrite pretty_N_go_0|].
  rewrite pretty_N_go_step by done. apply IH; [apply N.div_lt; lia|].
  by apply digits_cons; [apply pretty_N_char_digit|].
Qed.

Lemma pretty_nat_digits (n : nat) : digits (pretty n).
Proof.
  unfold pretty, pretty_nat, pretty, pretty_N. case_decide.
  - by apply digits_cons; [|intros c ?%elem_of_nil].
  - apply pretty_N_go_digits. by intros c ?%elem_of_nil.
Qed.

Lemma digits_no_char s c : digits s → is_ascii_digit c = false → contains_char c s = false.
Proof. intros Hs Hc. apply contains_char_false. intros Hin%Hs. by rewrite Hc in Hin. Qed.

(** A text up to its first [c] is determined. *)
Lemma first_char_inj c s1 s2 r1 r2 :
  contains_char c s1 = false → contains_char c s2 = false →
  s1 +:+ String c r1 = s2 +:+ String c r2 → s1 = s2 ∧ r1 = r2.
Proof.
  revert s2. induction s1 as [|a s1 IH]; intros [|b s2] H1 H2 Heq;
    rewrite ?string_app_nil_l, ?string_app_cons in Heq; simpl in *.
  - by simplify_eq.
  - simplify_eq. by rewrite Ascii.eqb_refl in H2.
  - simplify_eq. by rewrite Ascii.eqb_refl in H1.
  - apply orb_false_iff in H1 as [_ H1]. apply orb_false_iff in H2 as [_ H2].
    injection Heq as -> Heq. by destruct (IH s2 H1 H2 Heq) as [-> ->].
Qed.

Lemma same_length_inj s1 s2 r1 r2 :
  String.length s1 = String.length s2 → s1 +:+ r1 = s2 +:+ r2 → s1 = s2 ∧ r1 = r2.
Proof.
  revert s2. induction s1 as [|a s1 IH]; intros [|b s2] Hl Heq; try done.
  rewrite !string_app_cons in Heq. injection Heq as -> Heq. injection Hl as Hl.
  by destruct (IH s2 Hl Heq) as [-> ->].
Qed.

Lemma field_Some_text text r :
  field (Some text) +:+ r = pretty (String.length text) +:+ String ":" (text +:+ r).
Proof. unfold field. by rewrite !string_app_assoc. Qed.

Lemma pretty_nat_head (n : nat) : ∃ c s, pretty n = String c s ∧ is_ascii_digit c = true.
Proof.
  pose proof (pretty_nat_digits n) as Hd. destruct (pretty n) as [|c s] eqn:Hp.
  - exfalso. unfold pretty, pretty_nat, pretty, pretty_N in Hp. case_decide; [done|].
    assert (∀ m s, s ≠ ""%string ∨ (0 < m)%N → pretty_N_go m s ≠ ""%string) as Hne.
    { intros m. induction (N.lt_wf_0 m) as [m _ IH]; intros s Hs.
      assert (m = 0 ∨ 0 < m)%N as [->|Hm] by lia.
      - rewrite pretty_N_go_0. destruct Hs; [done|lia].
      - rewrite pretty_N_go_step by done. apply IH; [apply N.div_lt; lia|]. by left. }
    eapply (Hne (N.of_nat n) ""%string); [right; lia|done].
  - exists c, s. split; [done|]. apply Hd. left.
Qed.

(** The encoding of a field is prefix-free. *)
Lemma field_inj v1 v2 r1 r2 : field v1 +:+ r1 = field v2 +:+ r2 → v1 = v2 ∧ r1 = r2.
Proof.
  assert (∀ text r r', field (Some text) +:+ r ≠ field None +:+ r') as Hdash.
  { intros text r r' Heq. rewrite field_Some_text in Heq.
    destruct (pretty_nat_head (String.length text)) as (c & s & Hp & Hc).
    rewrite Hp, string_app_cons in Heq. simpl in Heq. injection Heq as -> _. done. }
  destruct v1 as [t1|], v2 as [t2|]; intros Heq.
  - rewrite !field_Some_text in Heq.
    apply first_char_inj in Heq as [Hlen Heq];
      [|apply digits_no_char; [apply pretty_nat_digits|done]..].
    apply (inj pretty) in Hlen. by destruct (same_length_inj _ _ _ _ Hlen Heq) as [-> ->].
  - by apply Hdash in Heq.
  - symmetry in Heq. by apply Hdash in Heq.
  - by apply string_app_inj_l in Heq.
Qed.

Lemma join_cons2 sep x y l : join sep (x :: y :: l) = x +:+ sep +:+ join sep (y :: l).
Proof. done. Qed.

(** A list of fields is determined by its encoding and its length. *)
Lemma fields_inj l1 l2 :
  length l1 = length l2 →
  join FIELD_SEPARATOR (field <$> l1) = join FIELD_SEPARATOR (field <$> l2) → l1 = l2.
Proof.
  revert l2. induction l1 as [|v1 l1 IH]; intros [|v2 l2] Hlen Heq; try done.
  destruct l1 as [|w1 l1], l2 as [|w2 l2]; try done.
  - simpl in Heq. rewrite <- (string_app_nil_r (field v1)), <- (string_app_nil_r (field v2)) in Heq.
    by apply field_inj in Heq as [-> _].
  - cbn [fmap list_fmap] in Heq. rewrite !join_cons2 in Heq.
    apply field_inj in Heq as [-> Heq]. apply string_app_inj_l in Heq.
    f_equal. apply IH; [simpl in *; lia|done].
Qed.

Lemma canonical_entry_injective e1 e2 : canonical_entry e1 = canonical_entry e2 → e1 = e2.
Proof.
  intros Heq. apply fields_inj in Heq; [|done].
  destruct e1 as [? ? q1 ? ? ? ? ? ? ? f1], e2 as [? ? q2 ? ? ? ? ? ? ? f2].
  unfold entry_fields in Heq. cbn in Heq. injection Heq as <- <- Hq <- <- <- <- <- <- <- Hf.
  apply (inj pretty) in Hq as <-. f_equal.
  destruct f1, f2; simpl in Hf; simplify_eq; done.
Qed.

Lemma digest_text_injective d1 d2 e1 e2 :
  digest_text d1 e1 = digest_text d2 e2 → d1 = d2 ∧ e1 = e2.
Proof.
  unfold digest_text. intros Heq. apply field_inj in Heq as [[= ->] Heq].
  apply string_app_inj_l, canonical_entry_injective in Heq as ->. done.
Qed.

Lemma genesis_text_injective i1 i2 : genesis_text i1 = genesis_text i2 → i1 = i2.
Proof.
  unfold genesis_text. intros Heq. do 4 apply string_app_inj_l in Heq.
  change (field (Some i1) = field (Some i2)) in Heq.
  rewrite <- (string_app_nil_r (field _)), <- (string_app_nil_r (field (Some i2))) in Heq.
  by apply field_inj in Heq as [[= ->] _].
Qed.

(** A genesis text is no digest text: one begins with a letter, the other with a
    digit. *)
Lemma genesis_not_digest i d e : genesis_text i ≠ digest_text d e.
Proof.
  assert (∃ s, genesis_text i = String "w" s) as [t Ht] by (eexists; reflexivity).
  unfold digest_text. rewrite field_Some_text, Ht.
  destruct (pretty_nat_head (String.length d)) as (c & s & -> & Hc).
  rewrite string_app_cons. intros [= <- _]. done.
Qed.

Section chain.
Context `{Sha256}.

Lemma same_hash a b : sha256_hex a = sha256_hex b → a = b ∨ collision.
Proof. intros Heq. destruct (decide (a = b)); [by left|right]. by exists a, b. Qed.

Lemma fold_prefix_snoc i l e : fold_prefix i (l ++ [e]) = extend_head (fold_prefix i l) e.
Proof. unfold fold_prefix. by rewrite foldl_app. Qed.

(** Equal digests come from equal prefixes of one instance. *)
Lemma fold_prefix_binding i1 i2 l1 l2 :
  digest (fold_prefix i1 l1) = digest (fold_prefix i2 l2) →
  (i1 = i2 ∧ l1 = l2) ∨ collision.
Proof.
  revert l2. induction l1 as [|e1 l1 IH] using rev_ind; intros l2.
  - destruct l2 as [|e2 l2 _] using rev_ind.
    + intros [->%genesis_text_injective|?]%same_hash; auto.
    + rewrite fold_prefix_snoc. simpl. intros [Heq|?]%same_hash; [|auto].
      by apply genesis_not_digest in Heq.
  - destruct l2 as [|e2 l2 _] using rev_ind; rewrite !fold_prefix_snoc; simpl.
    + intros [Heq|?]%same_hash; [|auto]. symmetry in Heq. by apply genesis_not_digest in Heq.
    + intros [[Hd ->]%digest_text_injective|?]%same_hash; [|auto].
      destruct (IH l2 Hd) as [[-> ->]|?]; auto.
Qed.

Lemma verify_intact pinned current :
  verify_pinned_logs pinned current = Intact ↔ pinned ⊆ current.
Proof.
  rewrite map_subseteq_spec. unfold verify_pinned_logs.
  assert (omap (λ '(i, head), let found := current !! i in
      if bool_decide (found = Some head) then None
      else Some (mkDivergence i head found)) (map_entries pinned) = [] ↔
    ∀ i head, pinned !! i = Some head → current !! i = Some head) as Hnil.
  { setoid_rewrite <- elem_of_map_entries.
    induction (map_entries pinned) as [|[i head] l IH]; simpl.
    - split; [|done]. by intros _ ? ? ?%elem_of_nil.
    - setoid_rewrite elem_of_cons. case_bool_decide as Hf; simpl.
      + rewrite IH. split; [intros Hl i' h' [[= -> ->]|?]; [by apply elem_of_map_entries|auto]|].
        intros Hall i' h' ?. apply Hall. by right.
      + split; [done|]. intros Hall. destruct Hf. apply elem_of_map_entries, Hall. by left. }
  rewrite <- Hnil. by destruct (omap _ _).
Qed.

End chain.

(** ** Theorems *)

(** The canonical text of an entry determines the entry: no choice of payload,
    source or identifiers, separators included, makes two different entries encode
    alike, and an absent field is never read as an empty one. *)
Theorem canonical_entry_inj : Inj (=) (=) canonical_entry.
Proof. intros e1 e2. apply canonical_entry_injective. Qed.

(** A head commits to the whole prefix: two logs with the same head digest are
    the same log of the same instance, unless two different texts with one SHA-256
    hash have been found. *)
Theorem head_commits_to_prefix `{Sha256} i1 i2 l1 l2 :
  digest (fold_prefix i1 l1) = digest (fold_prefix i2 l2) →
  (i1 = i2 ∧ l1 = l2) ∨ ∃ a b, a ≠ b ∧ sha256_hex a = sha256_hex b.
Proof. apply fold_prefix_binding. Qed.

Definition example_entry (n : Z) (payload : string) : ChainEntry :=
  mkChainEntry "evt_one" "inst_a" n "fact.recorded" payload "2026-08-24" "worker"
    None None None (Some 2%Z).

(** A hash that is the identity, for the examples. *)
Definition example_sha : Sha256 := λ text, text.

Lemma head_commits_to_prefix_witness :
  [example_entry 1 "{}"] = [example_entry 1 "{}"] ∨
  ∃ a b, a ≠ b ∧ @sha256_hex example_sha a = @sha256_hex example_sha b.
Proof.
  destruct (@head_commits_to_prefix example_sha "inst_a" "inst_a"
    [example_entry 1 "{}"] [example_entry 1 "{}"]) as [[_ H]|H]; [reflexivity| |].
  - left. exact H.
  - right. exact H.
Defined.

(** A pinned cut that verifies is the world it pinned: the comparison answers
    intact exactly when every pinned head is the current head of its instance, and
    then the log behind a pinned head is the log the store holds now, unless two
    texts with one SHA-256 hash have been found. *)
Theorem pinned_logs_intact `{Sha256} (pinned_logs current_logs : gmap string (list ChainEntry)) :
  let heads := map_imap (λ i l, Some (fold_prefix i l)) in
  let verdict := verify_pinned_logs (heads pinned_logs) (heads current_logs) in
  (verdict = Intact ↔ heads pinned_logs ⊆ heads current_logs) ∧
  (verdict = Intact → ∀ i l, pinned_logs !! i = Some l →
     current_logs !! i = Some l ∨ ∃ a b, a ≠ b ∧ sha256_hex a = sha256_hex b).
Proof.
  simpl. rewrite verify_intact. split; [done|].
  rewrite map_subseteq_spec. setoid_rewrite map_lookup_imap. intros Hsub i l Hl.
  specialize (Hsub i (fold_prefix i l)). rewrite Hl in Hsub. specialize (Hsub eq_refl).
  destruct (current_logs !! i) as [l'|]; simpl in Hsub; [|done].
  injection Hsub as Hh. apply (f_equal digest) in Hh.
  destruct (fold_prefix_binding i i l' l Hh) as [[_ ->]|?]; auto.
Qed.

Lemma pinned_logs_intact_witness :
  @verify_pinned_logs
    (map_imap (λ i l, Some (@fold_prefix example_sha i l)) {[ "inst_a" := [example_entry 1 "{}"] ]}%string)
    (map_imap (λ i l, Some (@fold_prefix example_sha i l)) {[ "inst_a" := [example_entry 1 "{}"] ]}%string)
  = Intact.
Proof.
  apply (@pinned_logs_intact example_sha {[ "inst_a" := [example_entry 1 "{}"] ]}%string
    {[ "inst_a" := [example_entry 1 "{}"] ]}%string). reflexivity.
Defined.
