(* ===== verification/Chunking.v ===== *)
(** Content-defined chunking of large blobs (store/chunking.rs): the gear table, the
    masks, the ranges of FastCDC, and the two chunkers with the identities they mint.

    A blob is its list of bytes, offsets are [nat], and [u64] values are [Z] with their
    wrap-around.  SHA-256 is the parameter [Sha256].  [None] from [chunk_ranges] says
    that the fuel ran out. *)
From S2P Require Import Prelude RustStr MachineInt EventChain.

(** ** Data *)

Record ChunkingConfig := mkChunking {
  whole_blob_threshold : nat;
  min_size : nat;
  avg_size : nat;
  max_size : nat;
}.

Record ChunkRef := mkChunk { chunk_hash : string; chunk_offset : nat; chunk_len : nat }.

Record ChunkTree := mkTree { root_hash : string; tree_chunks : list ChunkRef }.

Definition is_whole_blob (t : ChunkTree) : bool := bool_decide (length (tree_chunks t) = 0).

Abbreviation text := String.string_of_list_ascii.

(** The first sixteen bytes of the digest, in hexadecimal. *)
Definition content_hash_hex `{Sha256} (data : list ascii) : string :=
  String.substring 0 32 (sha256_hex (text data)).

(** ** Boundaries *)

Definition xorshift (z : Z) (k : Z) : Z := Z.lxor z (Z.shiftr z k).

Definition splitmix64 (seed : Z) : Z :=
  let z := wrapping_add_u64 seed 0x9e3779b97f4a7c15 in
  let z := wrapping_mul_u64 (xorshift z 30) 0xbf58476d1ce4e5b9 in
  let z := wrapping_mul_u64 (xorshift z 27) 0x94d049bb133111eb in
  xorshift z 31.

Definition GEAR : list Z := (λ i, splitmix64 (Z.of_nat i)) <$> seq 0 256.

Definition gear (byte : ascii) : Z := default 0%Z (GEAR !! N.to_nat (N_of_ascii byte)).

(** The bits of [max(avg, 2) - 1], and the masks around the average point. *)
Definition masks (avg : nat) : Z * Z :=
  let bits := (Z.log2 (Z.of_nat (avg `max` 2) - 1) + 1)%Z in
  let hard := (bits + 2)%Z in
  let easy := Z.max (Z.max (bits - 2) 0) 1 in
  (2 ^ Z.min hard 63 - 1, 2 ^ Z.min easy 63 - 1)%Z.

(** The inner loop, over the bytes of [[position, end_cap)]: the cut, or [None] when no
    boundary is found. *)
Fixpoint scan (mask_hard mask_easy : Z) (min_size start normal_point : nat) (fingerprint : Z)
    (position : nat) (bytes : list ascii) : option nat :=
  match bytes with
  | [] => None
  | b :: rest =>
      let fingerprint := wrapping_add_u64 (as_u64 (Z.shiftl fingerprint 1)) (gear b) in
      if (min_size <=? position - start + 1)
         && (Z.land fingerprint (if (position <? normal_point)%nat then mask_hard else mask_easy) =? 0)%Z
      then Some (position + 1)
      else scan mask_hard mask_easy min_size start normal_point fingerprint (position + 1) rest
  end.

(** [data[i..j]]. *)
Definition slice (data : list ascii) (i j : nat) : list ascii := take (j - i) (drop i data).

(** The cut of the chunk that starts at [start], when more than [min_size] bytes
    remain. *)
Definition next_cut (data : list ascii) (config : ChunkingConfig) (start : nat) : nat :=
  let '(mask_hard, mask_easy) := masks (avg_size config) in
  let end_cap := (start + max_size config) `min` length data in
  let normal_point := (start + avg_size config) `min` end_cap in
  default end_cap
    (scan mask_hard mask_easy (min_size config) start normal_point 0 start (slice data start end_cap)).

Fixpoint ranges_from (fuel : nat) (data : list ascii) (config : ChunkingConfig) (start : nat)
    : option (list (nat * nat)) :=
  match fuel with
  | 0 => None
  | S fuel' =>
      if start <? length data then
        if length data - start <=? min_size config then Some [(start, length data)]
        else
          let cut := next_cut data config start in
          cons (start, cut) <$> ranges_from fuel' data config cut
      else Some []
  end.

Definition chunk_ranges (data : list ascii) (config : ChunkingConfig) : option (list (nat * nat)) :=
  ranges_from (S (length data)) data config 0.

(** ** Chunkers *)

Section chunkers.
Context `{Sha256}.

Definition chunk_at (data : list ascii) (start stop : nat) : ChunkRef :=
  mkChunk (content_hash_hex (slice data start stop)) start (stop - start).

(** The root over the ordered identities of the chunks. *)
Definition root_of (chunks : list ChunkRef) : string :=
  content_hash_hex (String.list_ascii_of_string (String.concat "" (chunk_hash <$> chunks))).

Definition whole_blob (data : list ascii) : ChunkTree := mkTree (content_hash_hex data) [].


(** [body.is_char_boundary(i)]: an end of the text, or a byte that starts a
    character. *)
Definition is_char_boundary (data : list ascii) (i : nat) : bool :=
  (i =? 0)
  || match data !! i with
     | Some b => negb ((128 <=? N_of_ascii b)%N && (N_of_ascii b <? 192)%N)
     | None => i =? length data
     end.

(** [while end < data.len() && !is_char_boundary(end) { end += 1 }] on the bytes from
    [end]. *)
Fixpoint snap (stop : nat) (bytes : list ascii) : nat :=
  match bytes with
  | b :: rest =>
      if (128 <=? N_of_ascii b)%N && (N_of_ascii b <? 192)%N then snap (S stop) rest else stop
  | [] => stop
  end.

Definition snapped (data : list ascii) (raw_end : nat) : nat :=
  let stop := raw_end `min` length data in snap stop (drop stop data).

(** The loop over the raw ranges; the second component is [start]. *)
Fixpoint snap_ranges (data : list ascii) (start : nat) (ranges : list (nat * nat)) : list (nat * nat) * nat :=
  match ranges with
  | [] => ([], start)
  | r :: rest =>
      let stop := snapped data r.2 in
      if stop <=? start then snap_ranges data start rest
      else let '(l, last) := snap_ranges data stop rest in ((start, stop) :: l, last)
  end.

Definition str_ranges (data : list ascii) (config : ChunkingConfig) : option (list (nat * nat)) :=
  ranges ← chunk_ranges data config;
  let '(l, start) := snap_ranges data 0 ranges in
  Some (if start <? length data then l ++ [(start, length data)] else l).

Definition chunk_str (data : list ascii) (config : ChunkingConfig) : option ChunkTree :=
  if length data <=? whole_blob_threshold config then Some (whole_blob data)
  else
    ranges ← str_ranges data config;
    let chunks := (λ r, chunk_at data r.1 r.2) <$> ranges in
    Some (mkTree (root_of chunks) chunks).
End chunkers.

Example gear_first : gear "000" = 0xe220a8397b1dcdaf%Z.
Proof. vm_compute. reflexivity. Qed.

(** ** Lemmas: slices and tilings *)

(** Consecutive non-empty ranges from [a] to [b]. *)
Fixpoint tiling (a : nat) (l : list (nat * nat)) (b : nat) : Prop :=
  match l with
  | [] => a = b
  | r :: l' => r.1 = a ∧ a < r.2 ∧ tiling r.2 l' b
  end.

Lemma tiling_le a l b : tiling a l b → a ≤ b.
Proof. revert a. induction l as [|[s e] l IH]; simpl; intros a; [lia|]. intros (-> & ? & ?%IH). lia. Qed.

Lemma tiling_app a l1 l2 b c : tiling a l1 b → tiling b l2 c → tiling a (l1 ++ l2) c.
Proof.
  revert a. induction l1 as [|[s e] l1 IH]; simpl; intros a; [by intros ->|].
  intros (-> & ? & ?) ?. eauto.
Qed.

Lemma tiling_split a l1 s e l2 b :
  tiling a (l1 ++ (s, e) :: l2) b → tiling a l1 s ∧ s < e ∧ tiling e l2 b.
Proof.
  revert a. induction l1 as [|[s' e'] l1 IH]; simpl; intros a; [by intros (-> & ? & ?)|].
  intros (-> & ? & Ht). destruct (IH _ Ht) as (? & ? & ?). done.
Qed.

Lemma slice_app data a b c : a ≤ b → b ≤ c → slice data a b ++ slice data b c = slice data a c.
Proof.
  intros Hab Hbc. unfold slice. replace b with (a + (b - a)) at 3 by lia.
  rewrite <- drop_drop, take_take_drop. f_equal. lia.
Qed.

Lemma slice_full data : slice data 0 (length data) = data.
Proof. unfold slice. rewrite Nat.sub_0_r, drop_0. by apply take_ge. Qed.

Lemma tiling_slices data a l b :
  tiling a l b → mjoin ((λ r, slice data r.1 r.2) <$> l) = slice data a b.
Proof.
  revert a. induction l as [|[s e] l IH]; intros a; cbn [tiling].
  - intros ->. unfold slice. by rewrite Nat.sub_diag.
  - intros (<- & Hlt & Ht). cbn [fst snd] in *. change (slice data s e ++ mjoin ((λ r, slice data r.1 r.2) <$> l) = slice data s b).
    rewrite (IH _ Ht). apply tiling_le in Ht. apply slice_app; lia.
Qed.

Definition shift (k : nat) (r : nat * nat) : nat * nat := (k + r.1, k + r.2).

Lemma shift_shift j k r : shift j (shift k r) = shift (j + k) r.
Proof. unfold shift. simpl. f_equal; lia. Qed.

(** ** Lemmas: the boundaries *)

Lemma scan_bounds mh me mn start np fp position data c :
  scan mh me mn start np fp position data = Some c → start ≤ position →
  position < c ≤ position + length data ∧ mn ≤ c - start.
Proof.
  revert fp position. induction data as [|b data IH]; intros fp position; cbn [scan]; [done|].
  destruct (_ && _) eqn:Hb.
  - intros [= <-] Hle. apply andb_true_iff in Hb as [Hb%Nat.leb_le _]. simpl. lia.
  - intros Hs Hle. destruct (IH _ _ Hs) as [? ?]; [lia|]. simpl. lia.
Qed.

Lemma scan_shift mh me mn start np fp position data k :
  start ≤ position →
  scan mh me mn (k + start) (k + np) fp (k + position) data
  = (λ c, k + c) <$> scan mh me mn start np fp position data.
Proof.
  revert fp position. induction data as [|b data IH]; intros fp position Hle; cbn [scan]; [done|].
  replace (k + position - (k + start)) with (position - start) by lia.
  assert ((k + position <? k + np) = (position <? np)) as ->.
  { destruct (Nat.ltb_spec position np), (Nat.ltb_spec (k + position) (k + np)); lia || done. }
  destruct (_ && _); [simpl; f_equal; lia|].
  replace (k + position + 1) with (k + (position + 1)) by lia. apply IH. lia.
Qed.

(** The scan looks at no byte behind the boundary it finds, and compares positions with
    the normal point only where it scans. *)
Lemma scan_more mh me mn start np np' fp position data more c :
  scan mh me mn start np fp position data = Some c →
  (∀ p, position ≤ p → p < position + length data → (p <? np) = (p <? np')) →
  scan mh me mn start np' fp position (data ++ more) = Some c.
Proof.
  revert fp position. induction data as [|b data IH]; intros fp position; cbn [scan app]; [done|].
  intros Hs Hnp. rewrite <- (Hnp position) by (simpl; lia). destruct (_ && _); [done|].
  apply IH; [done|]. intros p ? ?. apply Hnp; simpl; lia.
Qed.

Section boundaries.
Context (config : ChunkingConfig).
Implicit Types (data : list ascii).

Lemma next_cut_bounds data start :
  0 < max_size config → start < length data →
  let cut := next_cut data config start in
  start < cut ≤ length data ∧ cut ≤ start + max_size config ∧
  (min_size config ≤ max_size config → min_size config < length data - start → min_size config ≤ cut - start).
Proof.
  intros Hmax Hs. unfold next_cut. destruct (masks _) as [mh me].
  destruct (scan _ _ _ _ _ _ _ _) as [c|] eqn:Hc; cbn [default].
  - apply scan_bounds in Hc as [Hb Hm]; [|done]. unfold slice in Hb. rewrite length_take, length_drop in Hb.
    cbn [from_option id]. lia.
  - cbn [from_option id]. lia.
Qed.

Lemma slice_shift pre data s e :
  slice (pre ++ data) (length pre + s) (length pre + e) = slice data s e.
Proof.
  unfold slice. rewrite <- drop_drop, drop_app_length. f_equal. lia.
Qed.

Lemma next_cut_shift pre data start :
  next_cut (pre ++ data) config (length pre + start) = length pre + next_cut data config start.
Proof.
  unfold next_cut. destruct (masks _) as [mh me]. rewrite length_app.
  replace ((length pre + start + max_size config) `min` (length pre + length data))
    with (length pre + ((start + max_size config) `min` length data)) by lia.
  replace ((length pre + start + avg_size config) `min` (length pre + ((start + max_size config) `min` length data)))
    with (length pre + ((start + avg_size config) `min` ((start + max_size config) `min` length data))) by lia.
  rewrite slice_shift, scan_shift by lia. by destruct (scan _ _ _ _ _ _ _ _).
Qed.

Lemma ranges_from_shift fuel pre data start :
  ranges_from fuel (pre ++ data) config (length pre + start)
  = (λ l : list (nat * nat), shift (length pre) <$> l) <$> ranges_from fuel data config start.
Proof.
  revert start. induction fuel as [|fuel IH]; intros start; cbn [ranges_from]; [done|]. rewrite length_app.
  assert ((length pre + start <? length pre + length data) = (start <? length data)) as ->.
  { destruct (Nat.ltb_spec start (length data)), (Nat.ltb_spec (length pre + start) (length pre + length data));
      lia || done. }
  destruct (start <? length data); [|done].
  replace (length pre + length data - (length pre + start)) with (length data - start) by lia.
  destruct (length data - start <=? min_size config); [done|].
  rewrite next_cut_shift, IH. by destruct (ranges_from fuel data config _).
Qed.

Lemma ranges_from_more fuel fuel' data start l :
  ranges_from fuel data config start = Some l → fuel ≤ fuel' → ranges_from fuel' data config start = Some l.
Proof.
  revert fuel' start l. induction fuel as [|fuel IH]; intros fuel' start l; [done|].
  destruct fuel' as [|fuel']; [lia|]. cbn [ranges_from]. intros Hr Hle.
  destruct (start <? length data); [|done]. destruct (_ <=? _); [done|].
  apply fmap_Some in Hr as (l' & Hl' & ->). by rewrite (IH fuel' _ l') by (done || lia).
Qed.

(** The sizes of the ranges: none above the maximum, none but the last below the
    minimum. *)
Definition sized (l : list (nat * nat)) : Prop :=
  (∀ r, r ∈ l → r.2 - r.1 ≤ max_size config) ∧
  (∀ l' r, l = l' ++ [r] → ∀ r', r' ∈ l' → min_size config ≤ r'.2 - r'.1).

Lemma ranges_from_tile fuel data start :
  0 < max_size config → min_size config ≤ max_size config → start ≤ length data →
  length data - start < fuel →
  ∃ l, ranges_from fuel data config start = Some l ∧ tiling start l (length data) ∧ sized l.
Proof.
  intros Hmax Hmin. revert start. induction fuel as [|fuel IH]; intros start Hs Hf; [lia|]. cbn [ranges_from].
  destruct (Nat.ltb_spec start (length data)) as [Hlt|Hge].
  2:{ exists []. split; [done|]. split; [simpl; lia|]. split; [by intros r ?%elem_of_nil|].
      intros l' r Heq. by destruct l'. }
  destruct (Nat.leb_spec (length data - start) (min_size config)) as [Hle|Hgt].
  - eexists. split; [done|]. split; [simpl; lia|]. split.
    + intros r ->%list_elem_of_singleton. simpl. lia.
    + intros [|? [|??]] r Heq r'; simplify_eq/=. by intros ?%elem_of_nil.
  - destruct (next_cut_bounds data start Hmax Hlt) as (Hcut & Hcm & Hcmin). specialize (Hcmin Hmin Hgt).
    set (cut := next_cut data config start) in *.
    destruct (IH cut) as (l & -> & Ht & Hsz1 & Hsz2); [lia|lia|]. simpl. eexists. split; [done|].
    split; [simpl; split_and!; [done|lia|done]|]. split.
    + intros r [->|?]%elem_of_cons; [simpl; lia|auto].
    + intros [|r0 l'] r Heq r' Hr'; [by apply elem_of_nil in Hr'|]. simplify_eq/=.
      apply elem_of_cons in Hr' as [->|Hr']; [simpl; lia|]. by eapply Hsz2.
Qed.

Lemma chunk_ranges_tile data :
  0 < max_size config → min_size config ≤ max_size config →
  ∃ l, chunk_ranges data config = Some l ∧ tiling 0 l (length data) ∧ sized l.
Proof. intros Hmax Hmin. apply ranges_from_tile; lia. Qed.

(** *** What an append keeps *)

Lemma next_cut_append data more start :
  start < length data → next_cut data config start < length data →
  next_cut (data ++ more) config start = next_cut data config start.
Proof.
  unfold next_cut. destruct (masks _) as [mh me]. rewrite length_app. intros Hs.
  set (cap := (start + max_size config) `min` length data).
  set (cap' := (start + max_size config) `min` (length data + length more)).
  assert (slice (data ++ more) start cap' = slice data start cap ++ slice (data ++ more) cap cap') as Hsl.
  { rewrite <- (slice_app (data ++ more) start cap cap') by lia. f_equal. unfold slice.
    rewrite drop_app_le, take_app_le by (rewrite ?length_drop; lia). done. }
  destruct (scan _ _ _ _ _ _ _ (slice data start cap)) as [c|] eqn:Hc; cbn [default from_option id].
  - intros Hlt. rewrite Hsl. erewrite scan_more; [done|exact Hc|]. intros p Hp Hp'.
    unfold slice in Hp'. rewrite length_take, length_drop in Hp'.
    destruct (Nat.ltb_spec p ((start + avg_size config) `min` cap)),
      (Nat.ltb_spec p ((start + avg_size config) `min` cap')); lia || done.
  - intros Hlt. assert (cap' = cap) as -> by lia. rewrite Hsl. unfold slice at 2. rewrite Nat.sub_diag.
    by rewrite app_nil_r, Hc.
Qed.

Lemma ranges_from_append fuel fuel' data more start l r l' :
  start ≤ length data →
  ranges_from fuel data config start = Some (l ++ [r]) →
  ranges_from fuel' (data ++ more) config start = Some l' → ∃ l2, l' = l ++ l2.
Proof.
  revert fuel' start l l'. induction fuel as [|fuel IH]; intros fuel' start l l' Hs; cbn [ranges_from]; [done|].
  destruct (Nat.ltb_spec start (length data)) as [Hlt|Hge]; [|by intros [= [_ ?]%symmetry%app_nil]].
  destruct (Nat.leb_spec (length data - start) (min_size config)) as [Hle|Hgt].
  { intros [= Heq]. destruct l as [|? [|??]]; simplify_eq/=. intros _. by exists l'. }
  intros (l0 & Hl0 & Heq)%fmap_Some. destruct l as [|r0 l]; [intros _; by exists l'|]. simplify_eq/=.
  destruct fuel' as [|fuel']; [done|]. cbn [ranges_from]. rewrite length_app.
  destruct (Nat.ltb_spec start (length data + length more)) as [_|?]; [|lia].
  destruct (Nat.leb_spec (length data + length more - start) (min_size config)) as [?|_]; [lia|].
  assert (next_cut data config start < length data) as Hcut.
  { destruct fuel; [done|]. cbn [ranges_from] in Hl0. destruct (Nat.ltb_spec (next_cut data config start) (length data));
      [done|]. by injection Hl0 as [_ ?]%symmetry%app_nil. }
  rewrite next_cut_append by done. intros (l1 & Hl1 & ->)%fmap_Some.
  destruct (IH fuel' (next_cut data config start) l l1) as [l2 ->]; [lia|done|done|]. by exists l2.
Qed.

(** *** What a suffix keeps *)

Lemma ranges_from_suffix fuel data start l1 s e l2 :
  ranges_from fuel data config start = Some (l1 ++ (s, e) :: l2) →
  ranges_from fuel data config s = Some ((s, e) :: l2).
Proof.
  revert start l1. induction fuel as [|fuel IH]; intros start l1 Hr; [done|].
  destruct l1 as [|r l1].
  - pose proof Hr as Hr'. cbn [ranges_from] in Hr. destruct (start <? length data); [|done].
    destruct (_ <=? _); [by simplify_eq/=|]. apply fmap_Some in Hr as (l & _ & Heq). by simplify_eq/=.
  - cbn [ranges_from] in Hr. destruct (start <? length data); [|done].
    destruct (_ <=? _); [by destruct l1|]. apply fmap_Some in Hr as (l & Hl & Heq). injection Heq as _ <-.
    apply (ranges_from_more fuel); [|lia]. by eapply IH.
Qed.

Lemma chunk_ranges_suffix data l1 s e l2 :
  chunk_ranges data config = Some (l1 ++ (s, e) :: l2) → s ≤ length data →
  ∃ fuel l, ranges_from fuel (drop s data) config 0 = Some l ∧ (s, e) :: l2 = shift s <$> l.
Proof.
  intros Hr%ranges_from_suffix Hs.
  assert (length (take s data) = s) as Hlen by (rewrite length_take; lia).
  assert (ranges_from (S (length data)) (take s data ++ drop s data) config (length (take s data) + 0)
    = Some ((s, e) :: l2)) as Hr' by (by rewrite take_drop, Hlen, Nat.add_0_r).
  rewrite ranges_from_shift in Hr'. apply fmap_Some in Hr' as (l & Hl & Heq). rewrite Hlen in Heq. eauto.
Qed.
End boundaries.

(** ** Lemmas: character boundaries *)

Lemma is_char_boundary_ends data : is_char_boundary data 0 = true ∧ is_char_boundary data (length data) = true.
Proof.
  split; [done|]. unfold is_char_boundary. rewrite lookup_ge_None_2 by done. rewrite Nat.eqb_refl. apply orb_true_r.
Qed.

Lemma snap_spec data i :
  i ≤ length data → i ≤ snap i (drop i data) ≤ length data ∧ is_char_boundary data (snap i (drop i data)) = true.
Proof.
  intros Hi. remember (drop i data) as rest eqn:Hrest. revert i Hi Hrest.
  induction rest as [|b rest IH]; intros i Hi Hrest; cbn [snap].
  - split; [lia|]. assert (i = length data) as ->; [|apply is_char_boundary_ends].
    assert (length (drop i data) = 0) as Hl by (by rewrite <- Hrest). rewrite length_drop in Hl. lia.
  - assert (data !! i = Some b) as Hb.
    { rewrite <- (Nat.add_0_r i), <- lookup_drop, <- Hrest. done. }
    destruct (_ && _) eqn:Hc.
    + destruct (IH (S i)) as [? ?]; [apply lookup_lt_Some in Hb; lia| |split; [lia|done]].
      replace (S i) with (i + 1) by lia. rewrite <- drop_drop, <- Hrest. done.
    + split; [lia|]. unfold is_char_boundary. rewrite Hb, Hc. apply orb_true_r.
Qed.

Lemma snapped_spec data r :
  r `min` length data ≤ snapped data r ≤ length data ∧ is_char_boundary data (snapped data r) = true.
Proof. apply snap_spec. lia. Qed.

Definition at_boundaries data (l : list (nat * nat)) : Prop :=
  ∀ r, r ∈ l → is_char_boundary data r.1 = true ∧ is_char_boundary data r.2 = true.

Lemma snap_ranges_spec data start ranges l last :
  start ≤ length data → is_char_boundary data start = true →
  snap_ranges data start ranges = (l, last) →
  tiling start l last ∧ last ≤ length data ∧ is_char_boundary data last = true ∧ at_boundaries data l.
Proof.
  revert start l. induction ranges as [|r ranges IH]; intros start l Hs Hb; cbn [snap_ranges].
  { intros [= <- <-]. split_and!; [done..|]. by intros r ?%elem_of_nil. }
  destruct (snapped_spec data r.2) as [Hr Hrb].
  destruct (Nat.leb_spec (snapped data r.2) start) as [_|Hlt]; [by apply IH|].
  destruct (snap_ranges data (snapped data r.2) ranges) as [l' last'] eqn:Hl. intros [= <- <-].
  destruct (IH _ _ (proj2 Hr) Hrb Hl) as (Ht & Hle & Hlb & Hab). split; [by cbn [tiling fst snd]|].
  do 2 (split; [done|]). intros r' [->|?]%elem_of_cons; [by split|auto].
Qed.

Lemma str_ranges_tile config data :
  0 < max_size config → min_size config ≤ max_size config →
  ∃ l, str_ranges data config = Some l ∧ tiling 0 l (length data) ∧ at_boundaries data l.
Proof.
  intros Hmax Hmin. unfold str_ranges. destruct (chunk_ranges_tile config data Hmax Hmin) as (ranges & -> & _).
  cbn [mbind option_bind]. destruct (snap_ranges data 0 ranges) as [l last] eqn:Hl.
  destruct (is_char_boundary_ends data) as [H0 Hn].
  apply snap_ranges_spec in Hl as (Ht & Hle & Hlb & Hab); [|lia|done].
  destruct (Nat.ltb_spec last (length data)) as [Hlt|Hge]; eexists; (split; [done|]).
  - split; [eapply tiling_app; [exact Ht|]; simpl; lia|].
    intros r [?|Hr%list_elem_of_singleton]%elem_of_app; [auto|by subst r].
  - by replace (length data) with last by lia.
Qed.

(** ** The chunkers *)

Section trees.
Context `{Sha256}.

(** [t] describes [data]: it is whole and named by its content, or its chunks, each
    named by its content, follow each other from the start of the data to its end, and
    the root is over their names. *)
Definition describes (data : list ascii) (t : ChunkTree) : Prop :=
  match tree_chunks t with
  | [] => root_hash t = content_hash_hex data
  | chunks => root_hash t = root_of chunks ∧
      tiling 0 ((λ c, (chunk_offset c, chunk_offset c + chunk_len c)) <$> chunks) (length data) ∧
      Forall (λ c, chunk_hash c =
        content_hash_hex (slice data (chunk_offset c) (chunk_offset c + chunk_len c))) chunks
  end.

(** The bytes of the chunks, in their order. *)
Definition pieces (data : list ascii) (t : ChunkTree) : list (list ascii) :=
  (λ c, slice data (chunk_offset c) (chunk_offset c + chunk_len c)) <$> tree_chunks t.

Lemma describes_ranges data l :
  tiling 0 l (length data) → 0 < length data →
  let chunks := (λ r, chunk_at data r.1 r.2) <$> l in
  describes data (mkTree (root_of chunks) chunks) ∧
  (λ c, (chunk_offset c, chunk_offset c + chunk_len c)) <$> chunks = l.
Proof.
  intros Ht Hlen chunks.
  assert ((λ c, (chunk_offset c, chunk_offset c + chunk_len c)) <$> chunks = l) as Heq.
  { unfold chunks. clear chunks Hlen. generalize 0, Ht. clear Ht.
    induction l as [|[s e] l IH]; intros a; cbn [tiling]; [done|]. intros (<- & Hlt & Ht). cbn [fst snd] in *.
    rewrite !fmap_cons. f_equal; [simpl; f_equal; lia|]. by apply (IH e). }
  split; [|done]. unfold describes. cbn [tree_chunks root_hash].
  destruct chunks as [|c chunks'] eqn:Hc.
  { destruct l; [simpl in Ht; lia|done]. }
  rewrite <- Hc in *. split; [done|]. split; [by rewrite Heq|].
  unfold chunks. apply Forall_fmap, Forall_forall. intros [s e] Hin. simpl.
  assert (s < e) as Hlt.
  { apply list_elem_of_split in Hin as (l1 & l2 & ->). apply tiling_split in Ht. tauto. }
  do 2 f_equal. lia.
Qed.

Lemma describes_reassembles data t :
  describes data t → tree_chunks t ≠ [] → mjoin (pieces data t) = data.
Proof.
  unfold describes, pieces. destruct (tree_chunks t) as [|c chunks]; [done|]. intros (_ & Ht & _) _.
  apply (tiling_slices data) in Ht. rewrite slice_full in Ht.
  etransitivity; [|exact Ht]. by rewrite <- list_fmap_compose.
Qed.


Lemma chunk_str_describes config data :
  0 < max_size config → min_size config ≤ max_size config →
  ∃ t, chunk_str data config = Some t ∧ describes data t ∧
    (tree_chunks t = [] ↔ length data ≤ whole_blob_threshold config) ∧
    at_boundaries data ((λ c, (chunk_offset c, chunk_offset c + chunk_len c)) <$> tree_chunks t).
Proof.
  intros Hmax Hmin. unfold chunk_str.
  destruct (Nat.leb_spec (length data) (whole_blob_threshold config)) as [Hle|Hgt].
  { eexists. split; [done|]. split_and!; [done|done|]. by intros r ?%elem_of_nil. }
  destruct (str_ranges_tile config data Hmax Hmin) as (l & -> & Ht & Hsz). cbn [mbind option_bind].
  destruct (describes_ranges data l Ht ltac:(lia)) as [Hd Heq]. eexists. split; [done|]. split; [done|].
  cbn [tree_chunks]. rewrite Heq. split; [|done]. split; [|lia]. intros Hnil.
  destruct l; [simpl in Ht; lia|done].
Qed.
End trees.

(** ** Theorems *)

Section theorems.
Context `{Sha256}.
Implicit Types (data : list ascii) (config : ChunkingConfig).


(** An append keeps the chunks it does not touch: the boundaries of the longer blob
    begin with those of the shorter one, up to its last chunk. *)
Theorem append_keeps_chunks config data more l r :
  0 < max_size config → min_size config ≤ max_size config →
  chunk_ranges data config = Some (l ++ [r]) →
  ∃ l2, chunk_ranges (data ++ more) config = Some (l ++ l2).
Proof.
  intros Hmax Hmin Hr. destruct (chunk_ranges_tile config (data ++ more) Hmax Hmin) as (l' & Hl' & _).
  destruct (ranges_from_append config _ _ data more 0 l r l' ltac:(lia) Hr Hl') as [l2 ->]. eauto.
Qed.

(** Boundaries depend on content and not on offsets: blobs that share a suffix with a
    boundary at its start have the same chunks from there on. *)
Theorem suffix_keeps_chunks config pre pre' data l1 l2 l1' l2' e e' :
  chunk_ranges (pre ++ data) config = Some (l1 ++ (length pre, e) :: l2) →
  chunk_ranges (pre' ++ data) config = Some (l1' ++ (length pre', e') :: l2') →
  ∃ l, (length pre, e) :: l2 = shift (length pre) <$> l ∧ (length pre', e') :: l2' = shift (length pre') <$> l.
Proof.
  intros (f & l & Hl & Heq)%chunk_ranges_suffix (f' & l' & Hl' & Heq')%chunk_ranges_suffix.
  2,3: rewrite length_app; lia. rewrite drop_app_length in Hl, Hl'.
  apply (ranges_from_more config _ (f `max` f')) in Hl, Hl'; [|lia..].
  replace l' with l in Heq' by congruence. eauto.
Qed.

(** Two of the contents have the same truncated digest. *)
Definition collides (l : list (list ascii)) : Prop :=
  ∃ x y, x ∈ l ∧ y ∈ l ∧ x ≠ y ∧ content_hash_hex x = content_hash_hex y.

Lemma fmap_inj_or_collides (l l' : list (list ascii)) :
  content_hash_hex <$> l = content_hash_hex <$> l' → l = l' ∨ collides (l ++ l').
Proof.
  revert l'. induction l as [|x l IH]; intros [|y l']; simpl; try done; [by left|].
  intros [= Hxy Hl]. destruct (decide (x = y)) as [<-|Hne]; [|right; exists x, y; set_solver].
  destruct (IH l' Hl) as [<-|(x' & y' & ? & ? & ?)]; [by left|right]. exists x', y'. set_solver.
Qed.

(** The identities of the chunks of [t], as a text. *)
Definition id_text (t : ChunkTree) : list ascii :=
  String.list_ascii_of_string (String.concat "" (chunk_hash <$> tree_chunks t)).

(** What the tree of [data] hashes. *)
Definition hashed (data : list ascii) (t : ChunkTree) : list (list ascii) := id_text t :: pieces data t.

Lemma concat_cons (x : string) l : String.concat "" (x :: l) = x +:+ String.concat "" l.
Proof. destruct l; [by rewrite string_app_nil_r|done]. Qed.

Lemma concat_inj (k : nat) (l l' : list string) :
  0 < k → Forall (λ s, String.length s = k) l → Forall (λ s, String.length s = k) l' →
  String.concat "" l = String.concat "" l' → l = l'.
Proof.
  intros Hk Hl. revert l'. induction Hl as [|x l Hx Hl IH]; intros l' Hl' Heq; destruct Hl' as [|y l' Hy Hl']; [done| | |].
  - rewrite concat_cons in Heq. destruct y; simpl in *; [lia|done].
  - rewrite concat_cons in Heq. destruct x; simpl in *; [lia|done].
  - rewrite !concat_cons in Heq. apply same_length_inj in Heq as [-> Heq]; [|congruence]. f_equal. by apply IH.
Qed.

(** What the digest is documented to be: sixty-four hexadecimal digits. *)
Context (Hdigest : ∀ s, String.length (sha256_hex s) = 64).

Lemma substring_length n s : n ≤ String.length s → String.length (String.substring 0 n s) = n.
Proof. revert s. induction n as [|n IH]; intros [|a s]; simpl; try lia. intros. f_equal. apply IH. lia. Qed.

Lemma content_hash_length data : String.length (content_hash_hex data) = 32.
Proof. unfold content_hash_hex. apply substring_length. rewrite Hdigest. lia. Qed.

Lemma hashes_length data t : describes data t → Forall (λ s, String.length s = 32) (chunk_hash <$> tree_chunks t).
Proof.
  unfold describes. destruct (tree_chunks t) as [|c chunks]; [constructor|]. intros (_ & _ & Hf).
  apply Forall_fmap. eapply Forall_impl; [exact Hf|]. simpl. intros c' ->. apply content_hash_length.
Qed.

Lemma hashes_of_pieces data t :
  describes data t → tree_chunks t ≠ [] → chunk_hash <$> tree_chunks t = content_hash_hex <$> pieces data t.
Proof.
  unfold describes, pieces. destruct (tree_chunks t) as [|c chunks]; [done|]. intros (_ & _ & Hf) _.
  rewrite <- list_fmap_compose. induction Hf as [|x l Hx _ IH]; [done|]. rewrite !fmap_cons. by rewrite IH, Hx.
Qed.

(** The root identifies a chunked blob: two blobs above the threshold with the same
    root are the same bytes, or two of the pieces and identity texts that the two trees
    hash have the same truncated digest. *)
Theorem root_identifies config data data' t t' :
  0 < max_size config → min_size config ≤ max_size config →
  whole_blob_threshold config < length data → whole_blob_threshold config < length data' →
  chunk_str data config = Some t → chunk_str data' config = Some t' → root_hash t = root_hash t' →
  data = data' ∨ collides (hashed data t ++ hashed data' t').
Proof.
  intros Hmax Hmin Hlen Hlen' Ht Ht' Hroot.
  destruct (chunk_str_describes config data Hmax Hmin) as (t0 & Ht0 & Hd & Hw & _).
  destruct (chunk_str_describes config data' Hmax Hmin) as (t0' & Ht0' & Hd' & Hw' & _).
  replace t0 with t in * by congruence. replace t0' with t' in * by congruence.
  assert (tree_chunks t ≠ []) as Hne by (intros ?%Hw; lia).
  assert (tree_chunks t' ≠ []) as Hne' by (intros ?%Hw'; lia).
  assert (root_hash t = root_of (tree_chunks t) ∧ root_hash t' = root_of (tree_chunks t')) as [Hr Hr'].
  { clear - Hd Hd' Hne Hne'. unfold describes in *.
    destruct (tree_chunks t), (tree_chunks t'); try done. by destruct Hd as (-> & _), Hd' as (-> & _). }
  rewrite Hr, Hr' in Hroot. unfold root_of in Hroot.
  destruct (decide (String.concat "" (chunk_hash <$> tree_chunks t) = String.concat "" (chunk_hash <$> tree_chunks t')))
    as [Heq|Hdiff].
  - apply (concat_inj 32) in Heq; [|lia|by eapply hashes_length|by eapply hashes_length].
    rewrite (hashes_of_pieces data), (hashes_of_pieces data') in Heq by done.
    apply fmap_inj_or_collides in Heq as [Heq|(x & y & ? & ? & ?)]; [left|right; exists x, y; set_solver].
    rewrite <- (describes_reassembles data t), <- (describes_reassembles data' t') by done. by rewrite Heq.
  - right. exists (id_text t), (id_text t'). split; [set_solver|]. split; [set_solver|]. split; [|exact Hroot].
    intros Heq. apply Hdiff. by apply chars_inj.
Qed.

(** Whole and chunked blobs share one space of identities: the text that lists the
    chunk identities of a large blob is a different, whole blob with the same root, as
    long as it is within the threshold.  No collision of the digest is involved. *)
Theorem root_shared_with_id_text config data t :
  0 < max_size config → min_size config ≤ max_size config →
  whole_blob_threshold config < length data → chunk_str data config = Some t →
  length (id_text t) ≤ whole_blob_threshold config →
  id_text t ≠ data ∧ chunk_str (id_text t) config = Some (mkTree (root_hash t) []).
Proof.
  intros Hmax Hmin Hlen Ht Hids.
  destruct (chunk_str_describes config data Hmax Hmin) as (t0 & Ht0 & Hd & Hw & _).
  replace t0 with t in * by congruence.
  assert (tree_chunks t ≠ []) as Hne by (intros ?%Hw; lia).
  assert (root_hash t = root_of (tree_chunks t)) as Hr.
  { clear - Hd Hne. unfold describes in *. destruct (tree_chunks t); [done|]. by destruct Hd. }
  split; [intros Heq; rewrite Heq in Hids; lia|].
  unfold chunk_str. destruct (Nat.leb_spec (length (id_text t)) (whole_blob_threshold config)); [|lia].
  by rewrite Hr.
Qed.
End theorems.

(** ** Witnesses *)

Definition padded_sha : Sha256 := λ s, String.substring 0 64 (s +:+ text (replicate 64 "0"%char)).

Lemma padded_sha_length s : String.length (sha256_hex (Sha256 := padded_sha) s) = 64.
Proof.
  unfold sha256_hex, padded_sha. apply substring_length. rewrite string_app_length.
  assert (String.length (text (replicate 64 "0"%char)) = 64) as -> by reflexivity. lia.
Qed.

Definition small_config : ChunkingConfig := mkChunking 64 10 16 40.
Definition small_blob : list ascii := ascii_of_nat <$> seq 0 70.


Lemma append_keeps_chunks_witness :
  ∃ l2, chunk_ranges (small_blob ++ small_blob) small_config = Some ([(0, 19); (19, 40); (40, 59)] ++ l2).
Proof.
  apply (append_keeps_chunks small_config small_blob small_blob [(0, 19); (19, 40); (40, 59)] (59, 70));
    [apply Nat.ltb_lt; reflexivity|apply Nat.leb_le; reflexivity|vm_compute; reflexivity].
Defined.

Definition tree_of (data : list ascii) : ChunkTree :=
  default (mkTree "" []) (chunk_str (H := padded_sha) data (mkChunking 64 40 60 100)).

Definition long_blob : list ascii := replicate 70 "x"%char.

Lemma root_identifies_witness :
  long_blob = long_blob ∨
  collides (H := padded_sha) (hashed long_blob (tree_of long_blob) ++ hashed long_blob (tree_of long_blob)).
Proof.
  apply (root_identifies (H := padded_sha) padded_sha_length (mkChunking 64 40 60 100) long_blob long_blob
    (tree_of long_blob) (tree_of long_blob));
    try (vm_compute; reflexivity); try (apply Nat.leb_le; reflexivity); apply Nat.ltb_lt; reflexivity.
Defined.

Lemma root_shared_with_id_text_witness :
  chunk_str (H := padded_sha) (id_text (tree_of long_blob)) (mkChunking 64 40 60 100)
    = Some (mkTree (root_hash (tree_of long_blob)) []).
Proof.
  apply (root_shared_with_id_text (H := padded_sha) (mkChunking 64 40 60 100) long_blob (tree_of long_blob));
    try (vm_compute; reflexivity); try (apply Nat.leb_le; reflexivity); apply Nat.ltb_lt; reflexivity.
Defined.
