(* ===== verification/ErasureLedger.v ===== *)
(** The hash-chained ledger of erasures (store/erasure_ledger.rs). *)
From stdpp Require Import pretty.
From S2P Require Import Prelude RustStr EventChain.

Section definitions.
Local Open Scope string_scope.

Definition LEDGER_TAG : string := "whipplescript.erasure-ledger.v1".

Inductive ErasedKind := Blob | ChunkRoot.
#[export] Instance erased_kind_eq_dec : EqDecision ErasedKind.
Proof. solve_decision. Defined.

Definition kind_as_str (k : ErasedKind) : string :=
  match k with Blob => "blob" | ChunkRoot => "chunk-root" end.

Definition kind_parse (s : string) : option ErasedKind :=
  if bool_decide (s = "blob") then Some Blob
  else if bool_decide (s = "chunk-root") then Some ChunkRoot
  else None.

Record LedgerEntry := mkLedgerEntry {
  le_sequence : Z;
  le_id : string;
  le_kind : ErasedKind;
  le_byte_len : Z;
  le_erased_at : string;
}.

Definition ledger_genesis `{Sha256} : string := sha256_hex (LEDGER_TAG +:+ FIELD_SEPARATOR +:+ "genesis").

Definition ledger_fields (e : LedgerEntry) : list (option string) :=
  [ Some LEDGER_TAG; Some (pretty (le_sequence e)); Some (le_id e); Some (kind_as_str (le_kind e));
    Some (pretty (le_byte_len e)); Some (le_erased_at e) ].

Definition ledger_canonical (e : LedgerEntry) : string := join FIELD_SEPARATOR (field <$> ledger_fields e).

Definition ledger_text (prev_digest : string) (e : LedgerEntry) : string :=
  field (Some prev_digest) +:+ FIELD_SEPARATOR +:+ ledger_canonical e.

Definition ledger_digest `{Sha256} (prev_digest : string) (e : LedgerEntry) : string :=
  sha256_hex (ledger_text prev_digest e).

Definition ledger_fold `{Sha256} (entries : list LedgerEntry) : string :=
  foldl ledger_digest ledger_genesis entries.
End definitions.

(** ** Lemmas *)

Lemma kind_parse_as_str k : kind_parse (kind_as_str k) = Some k.
Proof. by destruct k. Qed.

Lemma ledger_canonical_inj e1 e2 : ledger_canonical e1 = ledger_canonical e2 → e1 = e2.
Proof.
  intros Heq%fields_inj; [|done]. destruct e1 as [s1 i1 k1 b1 t1], e2 as [s2 i2 k2 b2 t2]. unfold ledger_fields in Heq.
  simpl in Heq. injection Heq as Hs -> Hk Hb ->. apply (inj pretty) in Hs as ->, Hb as ->.
  apply (f_equal kind_parse) in Hk. rewrite !kind_parse_as_str in Hk. by injection Hk as ->.
Qed.

Lemma ledger_text_inj d1 d2 e1 e2 : ledger_text d1 e1 = ledger_text d2 e2 → d1 = d2 ∧ e1 = e2.
Proof.
  unfold ledger_text. intros [[= ->] Heq]%field_inj. split; [done|].
  apply string_app_inj_l in Heq. by apply ledger_canonical_inj.
Qed.

Lemma ledger_genesis_not_digest d e :
  (LEDGER_TAG +:+ FIELD_SEPARATOR +:+ "genesis")%string ≠ ledger_text d e.
Proof.
  unfold ledger_text. rewrite field_Some_text. destruct (pretty_nat_head (String.length d)) as (c & s & -> & Hc).
  rewrite string_app_cons. intros [= <- _]. done.
Qed.

Section ledger.
Context `{Sha256}.

Lemma ledger_fold_snoc l e : ledger_fold (l ++ [e]) = ledger_digest (ledger_fold l) e.
Proof. unfold ledger_fold. by rewrite foldl_app. Qed.

(** The head of a ledger commits to every entry before it, up to a collision of the
    hash. *)
Lemma ledger_fold_binding l1 l2 : ledger_fold l1 = ledger_fold l2 → l1 = l2 ∨ collision.
Proof.
  revert l2. induction l1 as [|e1 l1 IH] using rev_ind; intros l2;
    destruct l2 as [|e2 l2 _] using rev_ind; rewrite ?ledger_fold_snoc.
  - by left.
  - change (ledger_fold []) with ledger_genesis. unfold ledger_genesis, ledger_digest.
    intros [Heq|?]%same_hash; [|by right]. by apply ledger_genesis_not_digest in Heq.
  - change (ledger_fold []) with ledger_genesis. unfold ledger_genesis, ledger_digest.
    intros [Heq|?]%same_hash; [|by right]. symmetry in Heq. by apply ledger_genesis_not_digest in Heq.
  - unfold ledger_digest. intros [[Hd ->]%ledger_text_inj|?]%same_hash; [|by right]. destruct (IH l2 Hd) as [->|?]; auto.
Qed.
End ledger.
