(* ===== verification/ContentStore.v ===== *)
(** The content store (store/content.rs, content/preparation.rs, content/publication.rs):
    blobs by hash, chunk roots, packs, the ledger of erasures, and the operations on
    them, for a store without payload protection.

    The state is the store's tables.  [content_chunk_refs] holds for a root the chunk
    identities in the order of [seq], which is an initial segment since rows are only
    inserted by enumeration and never deleted.  A statement sequence is a computation of
    the monad [M], which keeps the writes before an error unless a [transaction] rolls
    them back.  Rows that SQL returns in no order are visited in the order of their
    keys.  The size ceiling of the environment is [cap].  Reads recurse through chunk
    roots with a depth; [None] says that the depth ran out. *)
From S2P Require Import Prelude RustStr MachineInt EventChain Chunking ErasureLedger.

(** ** Tables *)

Record LedgerRow := mkLedgerRow { lr_entry : LedgerEntry; lr_prev : string; lr_digest : string }.

Record PackEntry := mkPackEntry { pe_pack : string; pe_offset : Z; pe_len : Z }.

Record Tables := mkTables {
  content_blobs : gmap string (list ascii * Z);
  content_ledger : list LedgerRow;
  content_roots : gmap string Z;
  content_refs : gmap string (list string);
  content_packs : gmap string PackEntry;
}.

Definition with_blobs (t : Tables) b : Tables :=
  mkTables b (content_ledger t) (content_roots t) (content_refs t) (content_packs t).
Definition with_ledger (t : Tables) l : Tables :=
  mkTables (content_blobs t) l (content_roots t) (content_refs t) (content_packs t).
Definition with_roots (t : Tables) r f : Tables :=
  mkTables (content_blobs t) (content_ledger t) r f (content_packs t).
Definition with_packs (t : Tables) p : Tables :=
  mkTables (content_blobs t) (content_ledger t) (content_roots t) (content_refs t) p.

Inductive content_error :=
| ContentMismatch (id actual : string)
| PackOutOfBounds (pack_id chunk_id : string)
| BeyondCeiling (id : string)
| IdentityErased
| PreparedUnavailable (id : string).

Inductive BlobStatus := Live (byte_len : Z) | Erased (byte_len : Z) | Unknown.

Inductive EraseOutcome := ErasedNow (byte_len : Z) | AlreadyErased | UnknownBlob.

Record ChunkRootInfo := mkRootInfo {
  ri_root : string;
  ri_byte_len : Z;
  ri_chunks : list string;
  ri_erased : bool;
}.

(** ** The monad *)

Definition M (A : Type) : Type := Tables → Tables * result content_error A.

Definition m_ret {A} (a : A) : M A := λ t, (t, Ok a).
Definition m_bind {A B} (m : M A) (f : A → M B) : M B := λ t,
  match m t with (t', Ok a) => f a t' | (t', Err e) => (t', Err e) end.
Definition reads {A} (f : Tables → A) : M A := λ t, (t, Ok (f t)).
Definition tries {A} (f : Tables → result content_error A) : M A := λ t, (t, f t).
Definition modify (f : Tables → Tables) : M unit := λ t, (f t, Ok tt).
Definition transaction {A} (m : M A) : M A := λ t,
  match m t with (t', Ok a) => (t', Ok a) | (_, Err e) => (t, Err e) end.

Declare Scope content_scope.
Delimit Scope content_scope with content.
Notation "x <- m ; k" := (m_bind m (λ x, k)) (at level 100, m at next level, right associativity) : content_scope.
Notation "m ;; k" := (m_bind m (λ _, k)) (at level 100, right associativity) : content_scope.
Local Open Scope content_scope.

Fixpoint for_each {A} (f : A → M unit) (l : list A) : M unit :=
  match l with
  | [] => m_ret tt
  | x :: rest => f x ;; for_each f rest
  end.

(** ** Operations *)

Section store.
Context `{Sha256} (cap : Z).

Definition blob_id (body : list ascii) : string := content_hash_hex body.

Definition verify_body (id : string) (body : list ascii) : result content_error unit :=
  ensure (bool_decide (blob_id body = id)) (ContentMismatch id (blob_id body)).

Definition read_loose (t : Tables) (id : string) : option (list ascii) := fst <$> content_blobs t !! id.

Definition read_packed (t : Tables) (chunk_id : string) : result content_error (option (list ascii)) :=
  match content_packs t !! chunk_id with
  | None => Ok None
  | Some e =>
      match read_loose t (pe_pack e) with
      | None => Ok None
      | Some pack =>
          let start := as_u64 (pe_offset e) in
          let stop := as_u64 (pe_offset e + pe_len e) in
          if (stop >? Z.of_nat (length pack))%Z || (start >? stop)%Z
          then Err (PackOutOfBounds (pe_pack e) chunk_id)
          else Ok (Some (slice pack (Z.to_nat start) (Z.to_nat stop)))
      end
  end.

(** The first entry of the ledger about an identity. *)
Definition erased_byte_len (t : Tables) (id : string) : option Z :=
  head (omap (λ r, if bool_decide (le_id (lr_entry r) = id) then Some (le_byte_len (lr_entry r)) else None)
    (content_ledger t)).

Definition chunk_root_info (t : Tables) (root_id : string) : option ChunkRootInfo :=
  (λ byte_len, mkRootInfo root_id byte_len (default [] (content_refs t !! root_id))
     (bool_decide (is_Some (erased_byte_len t root_id)))) <$> content_roots t !! root_id.

Definition chunk_ids (t : Tables) (id : string) : option (list string) := ri_chunks <$> chunk_root_info t id.

(** [reassemble_root], over the read of a piece. *)
Fixpoint reassemble (read : string → option (result content_error (option (list ascii))))
    (id : string) (chunks : list string) (body : list ascii)
    : option (result content_error (option (list ascii))) :=
  match chunks with
  | [] => Some (Ok (Some body))
  | c :: rest =>
      match read c with
      | None => None
      | Some (Err e) => Some (Err e)
      | Some (Ok None) => Some (Ok None)
      | Some (Ok (Some piece)) =>
          let body := body ++ piece in
          if (Z.of_nat (length body) >? cap)%Z then Some (Err (BeyondCeiling id))
          else reassemble read id rest body
      end
  end.

Fixpoint get (depth : nat) (t : Tables) (id : string) : option (result content_error (option (list ascii))) :=
  match depth with
  | 0 => None
  | S depth' =>
      match read_loose t id with
      | Some body => Some (Ok (Some body))
      | None =>
          match read_packed t id with
          | Err e => Some (Err e)
          | Ok (Some body) => Some (Ok (Some body))
          | Ok None =>
              if bool_decide (is_Some (erased_byte_len t id)) then Some (Ok None)
              else match chunk_root_info t id with
              | None => Some (Ok None)
              | Some info =>
                  if ri_erased info then Some (Ok None)
                  else reassemble (get depth' t) id (ri_chunks info) []
              end
          end
      end
  end.

Definition status (t : Tables) (id : string) : BlobStatus :=
  match content_blobs t !! id with
  | Some (_, byte_len) => Live (as_u64 byte_len)
  | None =>
      match content_packs t !! id with
      | Some e => Live (as_u64 (pe_len e))
      | None =>
          match erased_byte_len t id with
          | Some byte_len => Erased (as_u64 byte_len)
          | None =>
              match chunk_root_info t id with
              | Some info =>
                  if ri_erased info then Erased (as_u64 (ri_byte_len info)) else Live (as_u64 (ri_byte_len info))
              | None => Unknown
              end
          end
      end
  end.

(** [INSERT OR IGNORE INTO content_blobs]. *)
Definition insert_blob (id : string) (body : list ascii) (t : Tables) : Tables :=
  match content_blobs t !! id with
  | Some _ => t
  | None => with_blobs t (<[ id := (body, Z.of_nat (length body)) ]> (content_blobs t))
  end.

Definition put (body : list ascii) : M string :=
  modify (insert_blob (blob_id body) body) ;; m_ret (blob_id body).

Definition put_unerased (body : list ascii) : M string :=
  transaction (
    tries (λ t, ensure (bool_decide (erased_byte_len t (blob_id body) = None)) IdentityErased) ;;
    put body).

Definition delete_blob (id : string) (t : Tables) : Tables := with_blobs t (delete id (content_blobs t)).

(** [INSERT OR IGNORE] of the root and of each of its rows. *)
Definition insert_root (root_id : string) (chunks : list string) (byte_len : Z) (t : Tables) : Tables :=
  let roots := match content_roots t !! root_id with
               | Some _ => content_roots t | None => <[ root_id := byte_len ]> (content_roots t) end in
  let old := default [] (content_refs t !! root_id) in
  let rows := old ++ drop (length old) chunks in
  with_roots t roots
    (if bool_decide (length rows = 0) then content_refs t else <[ root_id := rows ]> (content_refs t)).

Definition put_chunk_root (root_id : string) (chunks : list string) (byte_len : Z) : M unit :=
  modify (insert_root root_id chunks byte_len).

(** [None] when the ranges of the chunker ran out of fuel. *)
Definition put_chunked (body : list ascii) (config : ChunkingConfig) : option (M string) :=
  (λ tree,
     if is_whole_blob tree then put body
     else
       for_each (λ c, put (slice body (chunk_offset c) (chunk_offset c + chunk_len c)) ;; m_ret tt)
         (tree_chunks tree) ;;
       put_chunk_root (root_hash tree) (chunk_hash <$> tree_chunks tree) (Z.of_nat (length body)) ;;
       m_ret (root_hash tree)) <$> chunk_str body config.

Definition last_row (t : Tables) : option LedgerRow := last (content_ledger t).

Definition append_erasure_entry (id : string) (kind : ErasedKind) (byte_len : Z) (erased_at : string) : M unit :=
  modify (λ t,
    let '(sequence, prev) :=
      match last_row t with
      | Some r => ((le_sequence (lr_entry r) + 1)%Z, lr_digest r)
      | None => (1%Z, ledger_genesis)
      end in
    let entry := mkLedgerEntry sequence id kind byte_len erased_at in
    with_ledger t (content_ledger t ++ [mkLedgerRow entry prev (ledger_digest prev entry)])).

(** The rows of a pack. *)
Definition pack_members (t : Tables) (pack_id : string) : list string :=
  (filter (λ e, pe_pack e.2 = pack_id) (map_entries (content_packs t))).*1.

Definition drop_pack (pack_id : string) (t : Tables) : Tables :=
  delete_blob pack_id
    (with_packs t (filter (λ e, pe_pack e.2 ≠ pack_id) (content_packs t))).

(** The bodies of a pack that can be read, by identity. *)
Fixpoint packed_bodies (t : Tables) (members : list string)
    : result content_error (list (string * list ascii)) :=
  match members with
  | [] => Ok []
  | m :: rest =>
      b ← read_packed t m;
      l ← packed_bodies t rest;
      Ok (match b with Some body => (m, body) :: l | None => l end)
  end.

Definition restore (x : string * list ascii) : M unit :=
  tries (λ _, verify_body x.1 x.2) ;; put x.2 ;; m_ret tt.

Definition dissolve_pack_containing (id : string) : M bool :=
  entry <- reads (λ t, content_packs t !! id) ;
  match entry with
  | None => m_ret false
  | Some e =>
      bodies <- tries (λ t, packed_bodies t (pack_members t (pe_pack e))) ;
      for_each restore bodies ;;
      modify (drop_pack (pe_pack e)) ;;
      m_ret true
  end.

(** The offsets of bodies laid one after the other. *)
Fixpoint pack_layout (offset : nat) (loose : list (string * list ascii)) : list (string * nat * nat) :=
  match loose with
  | [] => []
  | (c, body) :: rest => (c, offset, length body) :: pack_layout (offset + length body) rest
  end.

(** The first occurrences of the chunks that are loose. *)
Fixpoint loose_chunks (t : Tables) (seen : gset string) (chunks : list string) : list (string * list ascii) :=
  match chunks with
  | [] => []
  | c :: rest =>
      if bool_decide (c ∈ seen) then loose_chunks t seen rest
      else match read_loose t c with
      | Some body => (c, body) :: loose_chunks t ({[ c ]} ∪ seen) rest
      | None => loose_chunks t ({[ c ]} ∪ seen) rest
      end
  end.

Definition insert_pack_entry (pack_id : string) (e : string * nat * nat) (t : Tables) : Tables :=
  let '(c, offset, len) := e in
  match content_packs t !! c with
  | Some _ => t
  | None => with_packs t (<[ c := mkPackEntry pack_id (Z.of_nat offset) (Z.of_nat len) ]> (content_packs t))
  end.

Definition pack_root (root_id : string) : M nat :=
  info <- reads (λ t, chunk_root_info t root_id) ;
  match info with
  | None => m_ret 0
  | Some info =>
      if ri_erased info then m_ret 0
      else
        loose <- reads (λ t, loose_chunks t ∅ (ri_chunks info)) ;
        if bool_decide (length loose = 0) then m_ret 0
        else
          pack_id <- put (mjoin loose.*2) ;
          let entries := pack_layout 0 loose in
          for_each (λ e, modify (insert_pack_entry pack_id e)) entries ;;
          for_each (λ e, modify (λ t, if bool_decide (e.1.1 = pack_id) then t else delete_blob e.1.1 t)) entries ;;
          m_ret (length entries)
  end.

(** The packs that hold a chunk of the root. *)
Definition packs_of_root (t : Tables) (root_id : string) : list string :=
  set_keys (list_to_set (omap (λ c, pe_pack <$> content_packs t !! c) (default [] (content_refs t !! root_id)))).

Definition unpack_one (pack_id : string) : M unit :=
  members <- reads (λ t, pack_members t pack_id) ;
  for_each (λ m,
    body <- tries (λ t, read_packed t m) ;
    match body with
    | Some b => restore (m, b)
    | None => m_ret tt
    end) members ;;
  modify (drop_pack pack_id).

Definition unpack_for_erasure (root_id : string) : M unit :=
  packs <- reads (λ t, packs_of_root t root_id) ;
  for_each unpack_one packs.

(** A chunk that another root refers to, which the ledger does not record. *)
Definition needed_elsewhere (t : Tables) (root_id chunk : string) : bool :=
  existsb (λ e, bool_decide (e.1 ≠ root_id) && bool_decide (chunk ∈ e.2)
                && bool_decide (erased_byte_len t e.1 = None)) (map_entries (content_refs t)).

Definition doomed (t : Tables) (root_id : string) : gset string :=
  list_to_set (filter (λ c, needed_elsewhere t root_id c = false) (default [] (content_refs t !! root_id))).

Definition erase_chunks (root_id at_ : string) : M nat :=
  transaction (
    unpack_for_erasure root_id ;;
    byte_len <- reads (λ t, default 0%Z (content_roots t !! root_id)) ;
    append_erasure_entry root_id ChunkRoot byte_len at_ ;;
    gone <- reads (λ t, filter (λ c, is_Some (content_blobs t !! c)) (elements (doomed t root_id))) ;
    for_each (λ c, modify (delete_blob c)) gone ;;
    m_ret (length gone)).

Definition erase (id at_ : string) : M EraseOutcome :=
  info <- reads (λ t, chunk_root_info t id) ;
  match info with
  | Some info =>
      if ri_erased info then m_ret AlreadyErased
      else erase_chunks id at_ ;; m_ret (ErasedNow (as_u64 (ri_byte_len info)))
  | None =>
      dissolve_pack_containing id ;;
      live <- reads (λ t, snd <$> content_blobs t !! id) ;
      match live with
      | None =>
          tombstoned <- reads (λ t, erased_byte_len t id) ;
          m_ret (match tombstoned with Some _ => AlreadyErased | None => UnknownBlob end)
      | Some byte_len =>
          append_erasure_entry id Blob byte_len at_ ;;
          modify (delete_blob id) ;;
          m_ret (ErasedNow (as_u64 byte_len))
      end
  end.

(** [purge_unreachable] with the roots that [load_roots] answers: the number of rows it
    reclaims. *)
Definition reachable (t : Tables) (roots : gset string) (id : string) : bool :=
  bool_decide (id ∈ roots)
  || existsb (λ e : string * list string, bool_decide (id ∈ e.2)) (map_to_list (content_refs t))
  || existsb (λ e, bool_decide (pe_pack e.2 = id)) (map_to_list (content_packs t)).

Definition purge_unreachable (roots : gset string) : M nat :=
  purged <- reads (λ t, size (filter (λ e, reachable t roots e.1 = false) (content_blobs t))) ;
  modify (λ t, with_blobs t (filter (λ e, reachable t roots e.1 = true) (content_blobs t))) ;;
  m_ret purged.

(** [verify_prepared]: every identity can be read. *)
Fixpoint verify_prepared (depth : nat) (t : Tables) (ids : list string) : option (result content_error unit) :=
  match ids with
  | [] => Some (Ok tt)
  | id :: rest =>
      match get depth t id with
      | None => None
      | Some (Err e) => Some (Err e)
      | Some (Ok None) => Some (Err (PreparedUnavailable id))
      | Some (Ok (Some _)) => verify_prepared depth t rest
      end
  end.

Definition cached_read_available (depth : nat) (t : Tables) (id : string) : option (result content_error bool) :=
  if bool_decide (is_Some (content_blobs t !! id)) then Some (Ok true)
  else match get depth t id with
  | None => None
  | Some (Err e) => Some (Err e)
  | Some (Ok None) => Some (Ok false)
  | Some (Ok (Some body)) => Some ((λ _, true) <$> verify_body id body)
  end.
End store.

(** ** Examples *)

(** A hash that is injective on short texts. *)
Definition tag_sha : Sha256 := λ s, String "#" s.

Definition empty_tables : Tables := mkTables ∅ [] ∅ ∅ ∅.

Definition bytes_of (s : string) : list ascii := String.list_ascii_of_string s.

(** A text of two chunks, and one that shares its first chunk. *)
Definition tiny : ChunkingConfig := mkChunking 4 4 4 4.

Definition run {A} (m : M A) (t : Tables) : Tables := (m t).1.

Definition stored (texts : list string) : Tables :=
  foldl (λ t s, match put_chunked (H := tag_sha) (bytes_of s) tiny with Some m => run m t | None => t end)
    empty_tables texts.

Definition root_of_text (s : string) : string :=
  match chunk_str (H := tag_sha) (bytes_of s) tiny with Some tree => root_hash tree | None => "" end.

Example round_trip :
  get 100 2 (stored ["abcdefgh"]) (root_of_text "abcdefgh")
  = Some (Ok (Some (bytes_of "abcdefgh"))).
Proof. vm_compute. reflexivity. Qed.
