(* ===== verification/ContentHistory.v ===== *)
(** Histories of the content store: what the operations of [ContentStore] keep and what
    a read, an erasure, a pack and a purge promise.

    The identity of a content is a truncated digest.  The theorems that need it to tell
    contents apart take a class [U] of contents without a collision and speak about the
    histories whose operations only hash contents of [U]. *)
From stdpp Require Import pretty.
From S2P Require Import Prelude RustStr MachineInt EventChain Chunking ErasureLedger ContentStore.

(** ** What a computation keeps *)

Definition keeps {A} (P : Tables → Prop) (m : M A) : Prop := ∀ t, P t → P (m t).1.

Create HintDb content.

Section keeps.
Context (P : Tables → Prop).

Lemma keeps_ret {A} (a : A) : keeps P (m_ret a).
Proof. by intros t. Qed.

Lemma keeps_reads {A} (f : Tables → A) : keeps P (reads f).
Proof. by intros t. Qed.

Lemma keeps_tries {A} (f : Tables → result content_error A) : keeps P (tries f).
Proof. by intros t. Qed.

Lemma keeps_bind {A B} (m : M A) (f : A → M B) : keeps P m → (∀ a, keeps P (f a)) → keeps P (m_bind m f).
Proof.
  intros Hm Hf t Ht. unfold m_bind. specialize (Hm t Ht). destruct (m t) as [t' [a|e]]; [by apply Hf|done].
Qed.

Lemma keeps_modify f : (∀ t, P t → P (f t)) → keeps P (modify f).
Proof. intros Hf t Ht. by apply Hf. Qed.

Lemma keeps_transaction {A} (m : M A) : keeps P m → keeps P (transaction m).
Proof. intros Hm t Ht. unfold transaction. specialize (Hm t Ht). by destruct (m t) as [t' [a|e]]. Qed.

Lemma keeps_for_each {A} (f : A → M unit) l : (∀ x, x ∈ l → keeps P (f x)) → keeps P (for_each f l).
Proof.
  induction l as [|x l IH]; intros Hf; cbn [for_each]; [apply keeps_ret|].
  apply keeps_bind; [apply Hf; set_solver|]. intros _. apply IH. set_solver.
Qed.

(** A read hands its result on. *)
Lemma keeps_reads_bind {A B} (f : Tables → A) (k : A → M B) :
  (∀ t, P t → P (k (f t) t).1) → keeps P (m_bind (reads f) k).
Proof. intros Hk t Ht. by apply Hk. Qed.

Lemma keeps_tries_bind {A B} (f : Tables → result content_error A) (k : A → M B) :
  (∀ t a, P t → f t = Ok a → P (k a t).1) → keeps P (m_bind (tries f) k).
Proof. intros Hk t Ht. unfold m_bind, tries. destruct (f t) as [a|e] eqn:Hf; [by apply Hk|done]. Qed.
End keeps.

#[export] Hint Resolve keeps_ret keeps_reads keeps_tries keeps_transaction : content.

(** The steps of a computation that only returns. *)
Lemma bind_Ok {A B} (m : M A) (f : A → M B) t t' b :
  m_bind m f t = (t', Ok b) → ∃ t1 a, m t = (t1, Ok a) ∧ f a t1 = (t', Ok b).
Proof. unfold m_bind. destruct (m t) as [t1 [a|e]]; [eauto|done]. Qed.

Lemma for_each_keeps_Ok {A} (P : Tables → Prop) (f : A → M unit) l t t' :
  (∀ x t t', x ∈ l → P t → f x t = (t', Ok tt) → P t') → P t → for_each f l t = (t', Ok tt) → P t'.
Proof.
  revert t. induction l as [|x l IH]; intros t Hf Ht; cbn [for_each]; [by intros [= <-]|].
  intros (t1 & [] & Hx & Hl)%bind_Ok. apply (IH t1); [|eapply Hf; [|done|done]; set_solver|done].
  intros y s s' Hy. apply Hf. set_solver.
Qed.

(** ** The ledger *)

Section invariants.
Context `{Sha256} (cap : Z).

(** Row [i] holds entry [i + 1] and the head of the chain before and after it. *)
Definition ledger_ok (t : Tables) : Prop :=
  ∀ i r, content_ledger t !! i = Some r →
    le_sequence (lr_entry r) = (Z.of_nat i + 1)%Z ∧
    lr_prev r = ledger_fold (lr_entry <$> take i (content_ledger t)) ∧
    lr_digest r = ledger_fold (lr_entry <$> take (S i) (content_ledger t)).

(** Rows are content addressed. *)
Definition addressed (t : Tables) : Prop :=
  map_Forall (λ id (row : list ascii * Z), id = blob_id row.1 ∧ row.2 = Z.of_nat (length row.1)) (content_blobs t).

(** The ledger of [t] extends [l]. *)
Definition recorded (l : list LedgerRow) (t : Tables) : Prop := l `prefix_of` content_ledger t.

Lemma insert_blob_ledger id body t : content_ledger (insert_blob id body t) = content_ledger t.
Proof. unfold insert_blob. by destruct (content_blobs t !! id). Qed.

Lemma insert_pack_entry_ledger p e t : content_ledger (insert_pack_entry p e t) = content_ledger t.
Proof. destruct e as [[c o] n]. unfold insert_pack_entry. by destruct (content_packs t !! c). Qed.

Lemma addressed_insert id body t : id = blob_id body → addressed t → addressed (insert_blob id body t).
Proof.
  intros -> Ha. unfold insert_blob. destruct (content_blobs t !! blob_id body); [done|].
  by apply map_Forall_insert_2.
Qed.

Lemma addressed_blobs t t' : content_blobs t' ⊆ content_blobs t → addressed t → addressed t'.
Proof. intros Hsub Ha id row Hrow. apply (Ha id row). by eapply lookup_weaken. Qed.

(** *** Which tables an operation leaves alone *)

(** A property that the writes of every operation keep. *)
Record store_property (P : Tables → Prop) : Prop := {
  sp_put : ∀ body t, P t → P (insert_blob (blob_id body) body t);
  sp_delete : ∀ id t, P t → P (delete_blob id t);
  sp_root : ∀ r chunks n t, P t → P (insert_root r chunks n t);
  sp_packs : ∀ p e t, P t → P (insert_pack_entry p e t);
  sp_drop : ∀ p t, P t → P (drop_pack p t);
  sp_append : ∀ id kind n at_, keeps P (append_erasure_entry id kind n at_);
  sp_purge : ∀ roots t, P t →
    P (with_blobs t (filter (λ e, reachable t roots e.1 = true) (content_blobs t)));
}.

(** The operations of the store. *)
Inductive op :=
| OPut (body : list ascii)
| OPutUnerased (body : list ascii)
| OPutChunked (body : list ascii) (config : ChunkingConfig)
| OPack (root_id : string)
| OErase (id at_ : string)
| OPurge (roots : gset string).

Definition perform (o : op) (t : Tables) : Tables :=
  match o with
  | OPut body => run (put body) t
  | OPutUnerased body => run (put_unerased body) t
  | OPutChunked body config => match put_chunked body config with Some m => run m t | None => t end
  | OPack root_id => run (pack_root root_id) t
  | OErase id at_ => run (erase id at_) t
  | OPurge roots => run (purge_unreachable roots) t
  end.

Lemma keeps_put P body : store_property P → keeps P (put body).
Proof. intros HP. apply keeps_bind; [|auto with content]. apply keeps_modify. intros t. by apply HP. Qed.

Lemma keeps_restore P x : store_property P → keeps P (restore x).
Proof.
  intros HP. apply keeps_bind; [auto with content|]. intros _. apply keeps_bind; [by apply keeps_put|].
  auto with content.
Qed.

Lemma keeps_dissolve P id : store_property P → keeps P (dissolve_pack_containing id).
Proof.
  intros HP. apply keeps_bind; [auto with content|]. intros [e|]; [|auto with content].
  apply keeps_bind; [auto with content|]. intros bodies.
  apply keeps_bind; [apply keeps_for_each; intros x _; by apply keeps_restore|]. intros _.
  apply keeps_bind; [|auto with content]. apply keeps_modify. intros t. by apply HP.
Qed.

Lemma keeps_unpack P pack_id : store_property P → keeps P (unpack_one pack_id).
Proof.
  intros HP. apply keeps_bind; [auto with content|]. intros members.
  apply keeps_bind; [|intros _; apply keeps_modify; intros t; by apply HP].
  apply keeps_for_each. intros m _. apply keeps_bind; [auto with content|].
  intros [b|]; [by apply keeps_restore|auto with content].
Qed.

Lemma keeps_erase P id at_ : store_property P → keeps P (erase id at_).
Proof.
  intros HP. apply keeps_bind; [auto with content|]. intros [info|].
  - destruct (ri_erased info); [auto with content|]. apply keeps_bind; [|auto with content].
    apply keeps_transaction. apply keeps_bind.
    { apply keeps_bind; [auto with content|]. intros packs. apply keeps_for_each. intros p _. by apply keeps_unpack. }
    intros _. apply keeps_bind; [auto with content|]. intros n. apply keeps_bind; [by apply HP|]. intros _.
    apply keeps_bind; [auto with content|]. intros gone. apply keeps_bind; [|auto with content].
    apply keeps_for_each. intros c _. apply keeps_modify. intros t. by apply HP.
  - apply keeps_bind; [by apply keeps_dissolve|]. intros _. apply keeps_bind; [auto with content|].
    intros [n|].
    + apply keeps_bind; [by apply HP|]. intros _. apply keeps_bind; [|auto with content].
      apply keeps_modify. intros t. by apply HP.
    + apply keeps_bind; auto with content.
Qed.

Lemma keeps_pack P root_id : store_property P → keeps P (pack_root root_id).
Proof.
  intros HP. apply keeps_bind; [auto with content|]. intros [info|]; [|auto with content].
  destruct (ri_erased info); [auto with content|]. apply keeps_bind; [auto with content|]. intros loose.
  destruct (bool_decide _); [auto with content|]. apply keeps_bind; [by apply keeps_put|]. intros pack_id.
  apply keeps_bind; [apply keeps_for_each; intros e _; apply keeps_modify; intros t; by apply HP|]. intros _.
  apply keeps_bind; [|auto with content]. apply keeps_for_each. intros e _. apply keeps_modify. intros t.
  destruct (bool_decide _); [done|]. by apply HP.
Qed.

Lemma keeps_put_chunked P body config m :
  store_property P → put_chunked body config = Some m → keeps P m.
Proof.
  intros HP (tree & _ & ->)%fmap_Some. destruct (is_whole_blob tree); [by apply keeps_put|].
  apply keeps_bind.
  { apply keeps_for_each. intros c _. apply keeps_bind; [by apply keeps_put|auto with content]. }
  intros _. apply keeps_bind; [|auto with content]. apply keeps_modify. intros t. by apply HP.
Qed.

Lemma perform_keeps P o t : store_property P → P t → P (perform o t).
Proof.
  intros HP. destruct o; cbn [perform]; [by apply keeps_put| | |by apply keeps_pack|by apply keeps_erase|].
  - apply keeps_transaction. apply keeps_bind; [auto with content|]. intros _. by apply keeps_put.
  - destruct (put_chunked body config) as [m|] eqn:Hm; [|done]. by eapply keeps_put_chunked.
  - apply keeps_bind; [auto with content|]. intros n. apply keeps_bind; [|auto with content].
    apply keeps_modify. intros s. by apply HP.
Qed.

(** *** The three properties *)

Lemma append_ledger id kind n at_ t :
  ∃ r, content_ledger (append_erasure_entry id kind n at_ t).1 = content_ledger t ++ [r] ∧
    le_id (lr_entry r) = id ∧ le_kind (lr_entry r) = kind ∧ le_byte_len (lr_entry r) = n ∧
    (ledger_ok t → le_sequence (lr_entry r) = (Z.of_nat (length (content_ledger t)) + 1)%Z ∧
      lr_prev r = ledger_fold (lr_entry <$> content_ledger t) ∧
      lr_digest r = ledger_digest (lr_prev r) (lr_entry r)).
Proof.
  unfold append_erasure_entry, modify, last_row. cbn [fst].
  destruct (last (content_ledger t)) as [r|] eqn:Hlast.
  2:{ apply last_None in Hlast as Hl. cbn. rewrite Hl. eexists. by split_and!. }
  apply last_Some in Hlast as (l & Hl). cbn [content_ledger with_ledger]. rewrite Hl. eexists. split; [done|].
  split_and!; [done..|]. intros Hok. cbn [lr_entry lr_prev lr_digest le_sequence].
  destruct (Hok (length l) r) as (Hs & _ & Hd). { rewrite Hl, lookup_app_r, Nat.sub_diag by lia. done. }
  rewrite Hs, length_app. simpl. split_and!; [lia| |done].
  rewrite Hd, Hl, take_ge by (rewrite length_app; simpl; lia). done.
Qed.

Lemma addressed_property : store_property addressed.
Proof.
  split.
  - intros. by apply addressed_insert.
  - intros id t. apply addressed_blobs. apply delete_subseteq.
  - intros r chunks n t Ha. exact Ha.
  - intros p [[c o] n] t Ha. unfold insert_pack_entry. by destruct (content_packs t !! c).
  - intros p t. apply addressed_blobs. apply delete_subseteq.
  - intros id kind n at_ t Ha. unfold append_erasure_entry, modify. cbn [fst]. by destruct (last_row t).
  - intros roots t. apply addressed_blobs. apply map_filter_subseteq.
Qed.

Lemma recorded_property l : store_property (recorded l).
Proof.
  split; unfold recorded; try done.
  - intros body t. by rewrite insert_blob_ledger.
  - intros p e t. by rewrite insert_pack_entry_ledger.
  - intros id kind n at_ t Hl. destruct (append_ledger id kind n at_ t) as (r & -> & _). by apply prefix_app_r.
Qed.

Lemma ledger_ok_same t t' : content_ledger t' = content_ledger t → ledger_ok t → ledger_ok t'.
Proof. unfold ledger_ok. by intros ->. Qed.

Lemma ledger_ok_property : store_property ledger_ok.
Proof.
  split.
  - intros body t. apply ledger_ok_same, insert_blob_ledger.
  - done.
  - done.
  - intros p e t. apply ledger_ok_same, insert_pack_entry_ledger.
  - done.
  - intros id kind n at_ t Hok. destruct (append_ledger id kind n at_ t) as (r & Hl & _ & _ & _ & Hr).
    destruct (Hr Hok) as (Hs & Hp & Hd). intros i r'. rewrite Hl.
    destruct (decide (i < length (content_ledger t))) as [Hi|Hi].
    + rewrite lookup_app_l by done. intros Hi'. destruct (Hok i r' Hi') as (? & ? & ?).
      by rewrite !take_app_le by lia.
    + rewrite lookup_app_r by lia. intros [Hz <-]%list_lookup_singleton_Some.
      assert (i = length (content_ledger t)) as -> by lia. split; [done|].
      rewrite take_app_length, (take_ge (_ ++ _)) by (rewrite length_app; simpl; lia).
      split; [done|]. by rewrite fmap_app, list_fmap_singleton, ledger_fold_snoc, Hd, Hp.
  - done.
Qed.
End invariants.

(** ** Contents told apart by their identities *)

(** The text that a root hashes. *)
Definition root_text (chunks : list string) : list ascii :=
  String.list_ascii_of_string (String.concat "" chunks).

Section contents.
Context `{Sha256} (cap : Z) (U : list ascii → Prop).
Context (U_free : ∀ a b, U a → U b → blob_id a = blob_id b → a = b).
Context (U_small : ∀ a, U a → (Z.of_nat (length a) < 2 ^ 63)%Z).
Context (digest_length : ∀ s, String.length (sha256_hex s) = 64).

(** The contents whose identities an operation computes to name something new. *)
Definition handles (o : op) (t : Tables) : list (list ascii) :=
  match o with
  | OPut body | OPutUnerased body => [body]
  | OPutChunked body config =>
      match chunk_str body config with
      | Some tree =>
          if is_whole_blob tree then [body]
          else root_text (chunk_hash <$> tree_chunks tree) :: pieces body tree
      | None => []
      end
  | OPack root_id => [mjoin (loose_chunks t ∅ (default [] (content_refs t !! root_id))).*2]
  | OErase _ _ | OPurge _ => []
  end.

Definition packed_piece (pack : list ascii) (e : PackEntry) : list ascii :=
  slice pack (Z.to_nat (pe_offset e)) (Z.to_nat (pe_offset e + pe_len e)).

(** Entry [e] places the content named [c] in the content named by its pack. *)
Definition entry_ok (c : string) (e : PackEntry) : Prop :=
  ∃ pack, U pack ∧ blob_id pack = pe_pack e ∧
    (0 ≤ pe_offset e)%Z ∧ (0 ≤ pe_len e)%Z ∧ (pe_offset e + pe_len e ≤ Z.of_nat (length pack))%Z ∧
    U (packed_piece pack e) ∧ blob_id (packed_piece pack e) = c.

Definition refs_ok (r : string) (chunks : list string) : Prop :=
  U (root_text chunks) ∧ r = blob_id (root_text chunks) ∧
  Forall (λ c, String.length c = 32) chunks ∧ chunks ≠ [].

Record sound (t : Tables) : Prop := {
  sound_addressed : addressed t;
  sound_bodies : map_Forall (λ _ row, U row.1) (content_blobs t);
  sound_packs : map_Forall entry_ok (content_packs t);
  sound_refs : map_Forall refs_ok (content_refs t);
  sound_roots : ∀ r, is_Some (content_roots t !! r) → is_Some (content_refs t !! r);
}.

Lemma read_loose_sound t id body : sound t → read_loose t id = Some body → U body ∧ blob_id body = id.
Proof.
  intros Hs ([b n] & Hrow & ->)%fmap_Some. split; [by apply (sound_bodies t Hs id (b, n))|].
  by destruct (sound_addressed t Hs id (b, n) Hrow) as [-> _].
Qed.

Lemma read_packed_sound t c body : sound t → read_packed t c = Ok (Some body) → U body ∧ blob_id body = c.
Proof.
  intros Hs. unfold read_packed. destruct (content_packs t !! c) as [e|] eqn:He; [|done].
  destruct (read_loose t (pe_pack e)) as [b|] eqn:Hb; [|done].
  destruct (sound_packs t Hs c e He) as (pack & Hpack & Hid & Ho & Hl & Hle & Hpiece & <-).
  destruct (read_loose_sound t _ b Hs Hb) as [Hub Hbid].
  assert (b = pack) as -> by (apply U_free; congruence). pose proof (U_small pack Hpack).
  unfold as_u64. rewrite !Z.mod_small by lia.
  destruct (_ || _); [done|]. by intros [= <-].
Qed.

Lemma read_packed_sound_ok t c e : sound t → read_packed t c ≠ Err e.
Proof.
  intros Hs. unfold read_packed. destruct (content_packs t !! c) as [en|] eqn:He; [|done].
  destruct (read_loose t (pe_pack en)) as [b|] eqn:Hb; [|done].
  destruct (sound_packs t Hs c en He) as (pack & Hpack & Hid & Ho & Hl & Hle & _).
  destruct (read_loose_sound t _ b Hs Hb) as [Hub Hbid].
  assert (b = pack) as -> by (apply U_free; congruence). pose proof (U_small pack Hpack).
  unfold as_u64. rewrite !Z.mod_small by lia.
  destruct (Z.gtb_spec (pe_offset en + pe_len en) (Z.of_nat (length pack))), (Z.gtb_spec (pe_offset en) (pe_offset en + pe_len en));
    (lia || done).
Qed.

(** *** The writes *)

Lemma sound_put body t : U body → sound t → sound (insert_blob (blob_id body) body t).
Proof.
  intros Hu Hs. unfold insert_blob. destruct (content_blobs t !! blob_id body) eqn:Hrow; [done|].
  destruct Hs. split; try done; by apply map_Forall_insert_2.
Qed.

Lemma sound_blobs t b : b ⊆ content_blobs t → sound t → sound (with_blobs t b).
Proof.
  intros Hsub []. split; try done.
  - by eapply addressed_blobs.
  - intros id row Hrow. eapply sound_bodies0. by eapply lookup_weaken.
Qed.

Lemma sound_ledger t l : sound t → sound (with_ledger t l).
Proof. intros []. by split. Qed.

Lemma sound_fewer_packs t p : p ⊆ content_packs t → sound t → sound (with_packs t p).
Proof.
  intros Hsub []. split; try done. intros c e He. eapply sound_packs0. by eapply lookup_weaken.
Qed.

Lemma sound_delete id t : sound t → sound (delete_blob id t).
Proof. apply sound_blobs, delete_subseteq. Qed.

Lemma sound_drop p t : sound t → sound (drop_pack p t).
Proof. intros Hs. apply sound_delete, sound_fewer_packs; [apply map_filter_subseteq|done]. Qed.

Lemma sound_append id kind n at_ : keeps sound (append_erasure_entry id kind n at_).
Proof.
  intros t Hs. unfold append_erasure_entry, modify. cbn [fst]. destruct (last_row t); by apply sound_ledger.
Qed.

Lemma sound_entry p c o n t :
  entry_ok c (mkPackEntry p (Z.of_nat o) (Z.of_nat n)) → sound t → sound (insert_pack_entry p (c, o, n) t).
Proof.
  intros He Hs. unfold insert_pack_entry. destruct (content_packs t !! c); [done|].
  destruct Hs. split; try done. by apply map_Forall_insert_2.
Qed.

(** A root keeps the rows it was first given. *)
Lemma root_rows t r chunks :
  sound t → refs_ok r chunks →
  let old := default [] (content_refs t !! r) in old ++ drop (length old) chunks = chunks.
Proof.
  intros Hs (Hu & Hr & Hlen & Hne). cbv zeta. destruct (content_refs t !! r) as [old|] eqn:Hold; simpl.
  - destruct (sound_refs t Hs r old Hold) as (Hu' & Hr' & Hlen' & _).
    assert (root_text old = root_text chunks) as Heq%chars_inj by (apply U_free; congruence).
    apply (concat_inj 32) in Heq as ->; [|lia|done..]. by rewrite drop_all, app_nil_r.
  - by rewrite drop_0.
Qed.

Lemma insert_root_refs t r chunks n :
  sound t → refs_ok r chunks → content_refs (insert_root r chunks n t) = <[ r := chunks ]> (content_refs t).
Proof.
  intros Hs Hr. unfold insert_root. cbn [content_refs with_roots]. rewrite (root_rows t r chunks Hs Hr).
  destruct Hr as (_ & _ & _ & Hne). destruct chunks; [done|]. by rewrite bool_decide_false.
Qed.

Lemma sound_root r chunks n t : refs_ok r chunks → sound t → sound (insert_root r chunks n t).
Proof.
  intros Hr Hs. pose proof (insert_root_refs t r chunks n Hs Hr) as Hrefs. destruct Hs. split; try done.
  - rewrite Hrefs. by apply map_Forall_insert_2.
  - intros r'. rewrite Hrefs. destruct (decide (r = r')) as [<-|Hne]; [rewrite lookup_insert_eq; eauto|].
    rewrite lookup_insert_ne by done. unfold insert_root. cbn [content_roots with_roots].
    destruct (content_roots t !! r); [apply sound_roots0|]. rewrite lookup_insert_ne by done. apply sound_roots0.
Qed.

(** *** The operations *)

Lemma keeps_sound_put body : U body → keeps sound (put body).
Proof.
  intros Hu. apply keeps_bind; [|auto with content]. apply keeps_modify. intros t. by apply sound_put.
Qed.

Lemma keeps_sound_restore x : U x.2 → keeps sound (restore x).
Proof.
  intros Hu. apply keeps_bind; [auto with content|]. intros _. apply keeps_bind; [by apply keeps_sound_put|].
  auto with content.
Qed.

Lemma packed_bodies_sound t members l :
  sound t → packed_bodies t members = Ok l → Forall (λ x, U x.2) l.
Proof.
  intros Hs. revert l. induction members as [|m members IH]; intros l; cbn [packed_bodies]; [by intros [= <-]|].
  intros (b & Hb & (l' & Hl' & [= <-])%bind_ok)%bind_ok. specialize (IH l' Hl').
  destruct b as [body|]; [|done]. constructor; [|done]. by apply (read_packed_sound t m).
Qed.

Lemma keeps_sound_dissolve id : keeps sound (dissolve_pack_containing id).
Proof.
  apply keeps_bind; [auto with content|]. intros [e|]; [|auto with content].
  apply keeps_tries_bind. intros t bodies Hs Hb. apply packed_bodies_sound in Hb; [|done].
  revert t Hs. apply keeps_bind.
  { apply keeps_for_each. intros x Hx. apply keeps_sound_restore. by eapply Forall_forall in Hb. }
  intros _. apply keeps_bind; [|auto with content]. apply keeps_modify. apply sound_drop.
Qed.

Lemma keeps_sound_unpack pack_id : keeps sound (unpack_one pack_id).
Proof.
  apply keeps_bind; [auto with content|]. intros members.
  apply keeps_bind; [|intros _; apply keeps_modify, sound_drop].
  apply keeps_for_each. intros m _. apply keeps_tries_bind. intros t [b|] Hs Hb; [|done].
  apply keeps_sound_restore; [|done]. by apply (read_packed_sound t m).
Qed.

Lemma keeps_sound_erase id at_ : keeps sound (erase id at_).
Proof.
  apply keeps_bind; [auto with content|]. intros [info|].
  - destruct (ri_erased info); [auto with content|]. apply keeps_bind; [|auto with content].
    apply keeps_transaction. apply keeps_bind.
    { apply keeps_bind; [auto with content|]. intros packs. apply keeps_for_each. intros p _. apply keeps_sound_unpack. }
    intros _. apply keeps_bind; [auto with content|]. intros n. apply keeps_bind; [apply sound_append|]. intros _.
    apply keeps_bind; [auto with content|]. intros gone. apply keeps_bind; [|auto with content].
    apply keeps_for_each. intros c _. apply keeps_modify, sound_delete.
  - apply keeps_bind; [apply keeps_sound_dissolve|]. intros _. apply keeps_bind; [auto with content|].
    intros [n|].
    + apply keeps_bind; [apply sound_append|]. intros _. apply keeps_bind; [|auto with content].
      apply keeps_modify, sound_delete.
    + apply keeps_bind; auto with content.
Qed.

Lemma loose_chunks_read t seen chunks c body :
  (c, body) ∈ loose_chunks t seen chunks → c ∈ chunks ∧ read_loose t c = Some body ∧ c ∉ seen.
Proof.
  revert seen. induction chunks as [|x chunks IH]; intros seen; cbn [loose_chunks]; [by intros ?%elem_of_nil|].
  destruct (bool_decide_reflect (x ∈ seen)) as [Hin|Hin].
  { intros (? & ? & ?)%IH. set_solver. }
  destruct (read_loose t x) as [b|] eqn:Hx.
  - intros [[= -> ->]|(? & ? & ?)%IH]%elem_of_cons; set_solver.
  - intros (? & ? & ?)%IH. set_solver.
Qed.

Lemma pack_layout_slice offset pre loose c o n :
  length pre = offset → (c, o, n) ∈ pack_layout offset loose →
  ∃ body, (c, body) ∈ loose ∧ slice (pre ++ mjoin loose.*2) o (o + n) = body ∧
    offset ≤ o ∧ o + n ≤ length (pre ++ mjoin loose.*2).
Proof.
  revert offset pre. induction loose as [|[c' b] loose IH]; intros offset pre Hpre; cbn [pack_layout].
  { by intros ?%elem_of_nil. }
  intros [[= -> -> ->]|Hin]%elem_of_cons.
  - exists b. split; [set_solver|]. cbn [fmap list_fmap mjoin list_join snd].
    rewrite <- Hpre at 1. rewrite <- Hpre at 1. rewrite <- (Nat.add_0_r (length pre)) at 1. rewrite slice_shift.
    unfold slice. rewrite Nat.sub_0_r, drop_0, take_app_length. split; [done|]. rewrite !length_app. lia.
  - destruct (IH (offset + length b) (pre ++ b)) as (body & Hb & Hs & Hle1 & Hle2);
      [rewrite length_app; lia|done|].
    exists body. rewrite <- app_assoc in Hs, Hle2. split; [set_solver|]. split; [exact Hs|]. split; [lia|exact Hle2].
Qed.

(** The entries that [pack_root] inserts are right. *)
Lemma pack_layout_ok t chunks c o n :
  sound t → let loose := loose_chunks t ∅ chunks in U (mjoin loose.*2) → (c, o, n) ∈ pack_layout 0 loose →
  entry_ok c (mkPackEntry (blob_id (mjoin loose.*2)) (Z.of_nat o) (Z.of_nat n)).
Proof.
  intros Hs loose Hu Hin. destruct (pack_layout_slice 0 [] loose c o n eq_refl Hin) as (body & Hb & Hsl & _ & Hle).
  apply loose_chunks_read in Hb as (_ & Hb & _). apply (read_loose_sound t) in Hb as [Hub Hid]; [|done].
  exists (mjoin loose.*2). unfold packed_piece. cbn [pe_pack pe_offset pe_len app] in *.
  rewrite <- Nat2Z.inj_add, !Nat2Z.id, Hsl. split_and!; (done || lia).
Qed.

Lemma root_info_chunks t root_id info :
  chunk_root_info t root_id = Some info → ri_chunks info = default [] (content_refs t !! root_id).
Proof. by intros (n & _ & ->)%fmap_Some. Qed.

Lemma pack_root_eq root_id t :
  pack_root root_id t =
  match chunk_root_info t root_id with
  | None => (t, Ok 0)
  | Some info =>
      let loose := loose_chunks t ∅ (ri_chunks info) in
      let pack_id := blob_id (mjoin loose.*2) in
      let entries := pack_layout 0 loose in
      if ri_erased info then (t, Ok 0)
      else if bool_decide (length loose = 0) then (t, Ok 0)
      else m_bind (for_each (λ e, modify (insert_pack_entry pack_id e)) entries) (λ _,
        m_bind (for_each (λ e, modify (λ t, if bool_decide (e.1.1 = pack_id) then t else delete_blob e.1.1 t)) entries)
          (λ _, m_ret (length entries)))
        (insert_blob pack_id (mjoin loose.*2) t)
  end.
Proof.
  unfold pack_root. unfold m_bind at 1, reads at 1. destruct (chunk_root_info t root_id) as [info|]; [|done].
  destruct (ri_erased info); [done|]. unfold m_bind at 1, reads at 1. by destruct (bool_decide _).
Qed.

Lemma sound_pack root_id t :
  Forall U (handles (OPack root_id) t) → sound t → sound (perform (OPack root_id) t).
Proof.
  intros Hu Hs. inversion_clear Hu as [|? ? Hj _]. cbn [perform]. unfold run. rewrite pack_root_eq.
  destruct (chunk_root_info t root_id) as [info|] eqn:Hinfo; [|done]. rewrite (root_info_chunks _ _ _ Hinfo).
  cbv zeta. destruct (ri_erased info); [done|]. set (loose := loose_chunks t ∅ _) in *.
  destruct (bool_decide _); [done|]. apply keeps_bind; [|intros _; apply keeps_bind; [|auto with content]|].
  - apply keeps_for_each. intros [[c o] n] Hin. apply keeps_modify. intros s. apply sound_entry.
    by eapply pack_layout_ok.
  - apply keeps_for_each. intros e _. apply keeps_modify. intros s. destruct (bool_decide _); [done|]. apply sound_delete.
  - by apply sound_put.
Qed.

(** The tree of a content that is cut. *)
Lemma chunk_str_refs body config tree :
  0 < max_size config → min_size config ≤ max_size config →
  chunk_str body config = Some tree → is_whole_blob tree = false →
  U (root_text (chunk_hash <$> tree_chunks tree)) →
  refs_ok (root_hash tree) (chunk_hash <$> tree_chunks tree) ∧
  chunk_hash <$> tree_chunks tree = blob_id <$> pieces body tree ∧ mjoin (pieces body tree) = body.
Proof.
  intros Hmax Hmin Htree Hw Hu. destruct (chunk_str_describes config body Hmax Hmin) as (t0 & Ht0 & Hd & _).
  replace t0 with tree in * by congruence. unfold is_whole_blob in Hw. apply bool_decide_eq_false in Hw.
  assert (tree_chunks tree ≠ []) as Hne by (by intros Heq; rewrite Heq in Hw).
  split_and!; [|by apply hashes_of_pieces|by apply describes_reassembles].
  split_and!; [done| |by eapply hashes_length|by intros ?%fmap_nil_inv].
  unfold describes in Hd. destruct (tree_chunks tree) as [|c l] eqn:Hl; [done|]. rewrite <- Hl in *. by destruct Hd as [-> _].
Qed.

Definition config_ok (o : op) : Prop :=
  match o with OPutChunked _ config => 0 < max_size config ∧ min_size config ≤ max_size config | _ => True end.

Lemma sound_put_chunked body config t :
  config_ok (OPutChunked body config) → Forall U (handles (OPutChunked body config) t) → sound t →
  sound (perform (OPutChunked body config) t).
Proof.
  intros [Hmax Hmin] Hu Hs. cbn [perform handles] in *. unfold put_chunked, run.
  destruct (chunk_str body config) as [tree|] eqn:Htree; [|done]. cbn [fmap option_fmap option_map].
  destruct (is_whole_blob tree) eqn:Hw.
  { inversion_clear Hu. by apply keeps_sound_put. }
  inversion_clear Hu as [|? ? Hr Hp].
  destruct (chunk_str_refs body config tree Hmax Hmin Htree Hw Hr) as (Hrefs & _ & _).
  apply keeps_bind; [|intros _; apply keeps_bind; [|auto with content]|done].
  - apply keeps_for_each. intros c Hc. apply keeps_bind; [|auto with content]. apply keeps_sound_put.
    eapply Forall_forall; [exact Hp|]. unfold pieces. apply list_elem_of_fmap. by exists c.
  - apply keeps_modify. intros s. by apply sound_root.
Qed.

Lemma sound_step o t : config_ok o → Forall U (handles o t) → sound t → sound (perform o t).
Proof.
  intros Hc Hu Hs. destruct o; cbn [perform]; unfold run.
  - inversion_clear Hu. by apply keeps_sound_put.
  - inversion_clear Hu. unfold put_unerased. apply keeps_transaction; [|done]. apply keeps_bind; [auto with content|]. intros _.
    by apply keeps_sound_put.
  - by apply (sound_put_chunked body config t).
  - by apply (sound_pack root_id t).
  - by apply keeps_sound_erase.
  - unfold purge_unreachable. apply keeps_bind; [auto with content| |done]. intros n. apply keeps_bind; [|auto with content].
    apply keeps_modify. intros s. apply sound_blobs, map_filter_subseteq.
Qed.

Inductive history : Tables → Prop :=
| history_empty : history empty_tables
| history_step t o : history t → config_ok o → Forall U (handles o t) → history (perform o t).

Lemma history_sound t : history t → sound t.
Proof.
  induction 1 as [|t o _ IH Hc Hu]; [|by apply sound_step]. split; try apply map_Forall_empty. by intros r [? ?].
Qed.

(** *** Reads *)

(** The content of an identity: the content it is the digest of, or the contents of the
    identities in the text it is the digest of, one after the other. *)
Inductive denotes : string → list ascii → Prop :=
| denotes_blob body : denotes (blob_id body) body
| denotes_root chunks bodies :
    Forall2 denotes chunks bodies → denotes (blob_id (root_text chunks)) (mjoin bodies).

Lemma reassemble_pieces (read : string → option (result content_error (option (list ascii)))) D id chunks acc body :
  (∀ c b, read c = Some (Ok (Some b)) → D c b) →
  reassemble cap read id chunks acc = Some (Ok (Some body)) →
  ∃ bodies, Forall2 D chunks bodies ∧ body = acc ++ mjoin bodies.
Proof.
  intros HD. revert acc. induction chunks as [|c chunks IH]; intros acc; cbn [reassemble].
  { intros [= ->]. exists []. split; [constructor|]. cbn. by rewrite app_nil_r. }
  destruct (read c) as [[[b|]|e]|] eqn:Hc; try done. destruct (_ >? _)%Z; [done|].
  intros (bodies & Hb & ->)%IH. exists (b :: bodies). split; [constructor; auto|]. cbn. by rewrite app_assoc.
Qed.

Lemma reassemble_read (read : string → option (result content_error (option (list ascii)))) id chunks bodies acc :
  Forall2 (λ c b, read c = Some (Ok (Some b))) chunks bodies →
  (Z.of_nat (length (acc ++ mjoin bodies)) ≤ cap)%Z →
  reassemble cap read id chunks acc = Some (Ok (Some (acc ++ mjoin bodies))).
Proof.
  intros Hb. revert acc. induction Hb as [|c b chunks bodies Hc Hb IH]; intros acc Hlen; cbn [reassemble].
  { change (mjoin []) with (@nil ascii). by rewrite app_nil_r. }
  rewrite Hc. change (mjoin (b :: bodies)) with (b ++ mjoin bodies) in *. rewrite app_assoc in *. rewrite !length_app in Hlen.
  destruct (Z.gtb_spec (Z.of_nat (length (acc ++ b))) cap) as [Hgt|_]; [rewrite length_app in Hgt; lia|].
  apply IH. rewrite !length_app. lia.
Qed.

Lemma reassemble_err (read : string → option (result content_error (option (list ascii)))) (E : content_error → Prop) id chunks acc e :
  (∀ c e, read c = Some (Err e) → E e) → E (BeyondCeiling id) →
  reassemble cap read id chunks acc = Some (Err e) → E e.
Proof.
  intros HE Hid. revert acc. induction chunks as [|c chunks IH]; intros acc; cbn [reassemble]; [done|].
  destruct (read c) as [[[b|]|e']|] eqn:Hc; try done; [|intros [= <-]; eauto].
  destruct (_ >? _)%Z; [by intros [= <-]|apply IH].
Qed.

(** **** A read that ends *)

(** A root lists an identity among its chunks. *)
Definition lists t (r c : string) : Prop := ∃ chunks, content_refs t !! r = Some chunks ∧ c ∈ chunks.

Lemma reassemble_open (read : string → option (result content_error (option (list ascii)))) id chunks acc :
  reassemble cap read id chunks acc = None → ∃ c, c ∈ chunks ∧ read c = None.
Proof.
  revert acc. induction chunks as [|c chunks IH]; intros acc; cbn [reassemble]; [done|].
  destruct (read c) as [[[b|]|e]|] eqn:Hc; [|done..|intros _; exists c; set_solver].
  destruct (_ >? _)%Z; [done|]. intros (c' & ? & ?)%IH. exists c'. set_solver.
Qed.

(** A read that runs out of depth went down a chain of that many roots. *)
Lemma get_open depth t id :
  get cap depth t id = None →
  ∃ path, length path = depth ∧ (∀ r, r ∈ path → is_Some (content_roots t !! r) ∧ rtc (lists t) id r) ∧
    ((∀ r, ¬ tc (lists t) r r) → NoDup path).
Proof.
  revert id. induction depth as [|depth IH]; intros id.
  { exists []. split_and!; [done|by intros r ?%elem_of_nil|constructor]. }
  cbn [get]. destruct (read_loose t id); [done|]. destruct (read_packed t id) as [[?|]|?]; [done| |done].
  destruct (bool_decide _); [done|]. destruct (chunk_root_info t id) as [info|] eqn:Hinfo; [|done].
  destruct (ri_erased info); [done|]. rewrite (root_info_chunks _ _ _ Hinfo). intros (c & Hc & Hn)%reassemble_open.
  destruct (IH c Hn) as (path & Hlen & Hall & Hnd). assert (lists t id c) as Hedge.
  { destruct (content_refs t !! id) as [chunks|] eqn:Hr; [|by apply elem_of_nil in Hc]. by exists chunks. }
  exists (id :: path). split_and!; [simpl; lia| |].
  - intros r [->|Hr]%elem_of_cons.
    + split; [|done]. unfold chunk_root_info in Hinfo. by destruct (content_roots t !! id).
    + destruct (Hall r Hr) as [? ?]. split; [done|]. by eapply rtc_l.
  - intros Hac. constructor; [|by apply Hnd]. intros Hin. destruct (Hall id Hin) as [_ Hback].
    apply (Hac id). eapply tc_rtc_r; [by apply tc_once|done].
Qed.

Lemma get_ends depth t id :
  (∀ r, ¬ tc (lists t) r r) → size (content_roots t) < depth → ∃ answer, get cap depth t id = Some answer.
Proof.
  intros Hac Hd. destruct (get cap depth t id) as [answer|] eqn:Hg; [eauto|]. exfalso.
  destruct (get_open depth t id Hg) as (path & Hlen & Hall & Hnd). specialize (Hnd Hac).
  assert (list_to_set path ⊆ dom (content_roots t)) as Hsub.
  { intros r Hr%elem_of_list_to_set. apply elem_of_dom. by apply Hall. }
  apply subseteq_size in Hsub. rewrite size_list_to_set, size_dom in Hsub by done. lia.
Qed.

Lemma reads_sound depth t id :
  sound t →
  (∀ body, get cap depth t id = Some (Ok (Some body)) → denotes id body) ∧
  (∀ e, get cap depth t id = Some (Err e) → ∃ r, e = BeyondCeiling r).
Proof.
  intros Hs. revert id. induction depth as [|depth IH]; intros id; [done|]. cbn [get].
  destruct (read_loose t id) as [b|] eqn:Hl.
  { destruct (read_loose_sound t id b Hs Hl) as [_ <-]. split; [|done]. intros body [= <-]. constructor. }
  destruct (read_packed t id) as [[b|]|e] eqn:Hp; [| |by apply read_packed_sound_ok in Hp].
  { destruct (read_packed_sound t id b Hs Hp) as [_ <-]. split; [|done]. intros body [= <-]. constructor. }
  destruct (bool_decide _); [done|]. destruct (chunk_root_info t id) as [info|] eqn:Hinfo; [|done].
  destruct (ri_erased info); [done|]. rewrite (root_info_chunks _ _ _ Hinfo).
  destruct (sound_roots t Hs id) as [chunks Hc]; [unfold chunk_root_info in Hinfo; by destruct (content_roots t !! id)|].
  rewrite Hc. simpl. destruct (sound_refs t Hs id chunks Hc) as (_ & Hid & _). split.
  - intros body Hb. apply (reassemble_pieces _ denotes) in Hb as (bodies & Hb & ->); [|intros c b; apply IH].
    rewrite Hid. by constructor.
  - intros e He. apply reassemble_err with (E := λ e, ∃ r, e = BeyondCeiling r) in He; [done|intros c; apply IH|eauto].
Qed.

(** C30: On every history whose contents have no collision, a body that a read returns is the
    content of the identity asked for: the content itself, or the contents of the chunks that
    the root's text lists; and a read that fails does so for the size ceiling.  When no root
    lists itself, directly or through other roots, every read ends with an answer, a body, an
    absence or the failure, from a depth above the number of roots on.  (A root that listed
    itself would be the digest of a text with that digest in it; the read of it would not
    end.) *)
Theorem reads_authentic depth t id :
  history t →
  (∀ body, get cap depth t id = Some (Ok (Some body)) → denotes id body) ∧
  (∀ e, get cap depth t id = Some (Err e) → ∃ r, e = BeyondCeiling r) ∧
  ((∀ r, ¬ tc (lists t) r r) → size (content_roots t) < depth → ∃ answer, get cap depth t id = Some answer).
Proof. intros Hs%history_sound. destruct (reads_sound depth t id Hs). split_and!; [done..|apply get_ends]. Qed.

Lemma put_reads body t : sound t → U body → read_loose (insert_blob (blob_id body) body t) (blob_id body) = Some body.
Proof.
  intros Hs Hu. unfold insert_blob. destruct (content_blobs t !! blob_id body) as [[b n]|] eqn:Hrow.
  - unfold read_loose. rewrite Hrow. simpl. f_equal. destruct (read_loose_sound t (blob_id body) b Hs) as [Hb Hid];
      [unfold read_loose; by rewrite Hrow|]. by apply U_free.
  - unfold read_loose. cbn. by rewrite lookup_insert_eq.
Qed.

Lemma insert_blob_keeps_row id body t i row :
  content_blobs t !! i = Some row → content_blobs (insert_blob id body t) !! i = Some row.
Proof.
  intros Hi. unfold insert_blob. destruct (content_blobs t !! id) eqn:Hid; [done|]. cbn.
  rewrite lookup_insert_ne by congruence. done.
Qed.

Lemma insert_blob_keeps_read id body t i b :
  read_loose t i = Some b → read_loose (insert_blob id body t) i = Some b.
Proof.
  unfold read_loose. intros ([b' n] & Hi & ->)%fmap_Some. by rewrite (insert_blob_keeps_row _ _ _ _ _ Hi).
Qed.

(** *** Total correctness of a computation *)

Definition triple {A} (P : Tables → Prop) (m : M A) (Q : A → Tables → Prop) : Prop :=
  ∀ t, P t → ∃ t' a, m t = (t', Ok a) ∧ Q a t'.

Lemma triple_ret {A} (P : Tables → Prop) (a : A) Q : (∀ t, P t → Q a t) → triple P (m_ret a) Q.
Proof. intros HQ t Ht. exists t, a. auto. Qed.

Lemma triple_reads {A} (P : Tables → Prop) (f : Tables → A) Q : (∀ t, P t → Q (f t) t) → triple P (reads f) Q.
Proof. intros HQ t Ht. exists t, (f t). auto. Qed.

Lemma triple_modify (P : Tables → Prop) f (Q : unit → Tables → Prop) : (∀ t, P t → Q tt (f t)) → triple P (modify f) Q.
Proof. intros HQ t Ht. exists (f t), tt. auto. Qed.

Lemma triple_bind {A B} P (m : M A) (f : A → M B) Q R :
  triple P m Q → (∀ a, triple (Q a) (f a) R) → triple P (m_bind m f) R.
Proof.
  intros Hm Hf t Ht. destruct (Hm t Ht) as (t1 & a & Ha & Hq). unfold m_bind. rewrite Ha. by apply Hf.
Qed.

Lemma triple_transaction {A} P (m : M A) Q : triple P m Q → triple P (transaction m) Q.
Proof. intros Hm t Ht. destruct (Hm t Ht) as (t' & a & Ha & Hq). unfold transaction. rewrite Ha. eauto. Qed.

Lemma triple_for_each {A} (I : list A → Tables → Prop) (f : A → M unit) l :
  (∀ seen x rest, l = seen ++ x :: rest → triple (I seen) (f x) (λ _, I (seen ++ [x]))) →
  triple (I []) (for_each f l) (λ _, I l).
Proof.
  intros Hf. assert (∀ rest seen, l = seen ++ rest → triple (I seen) (for_each f rest) (λ _, I l)) as Hgo; [|by apply (Hgo l [])].
  induction rest as [|x rest IH]; intros seen Hl; cbn [for_each].
  - apply triple_ret. intros t. by rewrite Hl, app_nil_r.
  - eapply triple_bind; [by apply (Hf seen x rest)|]. intros u. cbn beta. apply IH. by rewrite <- app_assoc.
Qed.

Lemma triple_put body Q P : (∀ t, P t → Q (blob_id body) (insert_blob (blob_id body) body t)) → triple P (put body) Q.
Proof. intros HQ t Ht. do 2 eexists. split; [reflexivity|]. auto. Qed.

Lemma triple_put_unit body P (Q : unit → Tables → Prop) :
  (∀ t, P t → Q tt (insert_blob (blob_id body) body t)) → triple P (m_bind (put body) (λ _, m_ret tt)) Q.
Proof. intros HQ t Ht. do 2 eexists. split; [reflexivity|]. auto. Qed.

(** *** Round trips *)

Lemma insert_blob_packs id body t : content_packs (insert_blob id body t) = content_packs t.
Proof. unfold insert_blob. by destruct (content_blobs t !! id). Qed.

Lemma insert_blob_ne id body t i : i ≠ id → content_blobs (insert_blob id body t) !! i = content_blobs t !! i.
Proof. intros Hne. unfold insert_blob. destruct (content_blobs t !! id); [done|]. cbn. by rewrite lookup_insert_ne. Qed.

(** The rows after the pieces of a content are written. *)
Lemma put_pieces (ps : list (list ascii)) (cs : list ChunkRef) f t :
  f <$> cs = ps → Forall U ps → sound t →
  ∃ t', for_each (λ c, m_bind (put (f c)) (λ _, m_ret tt)) cs t = (t', Ok tt) ∧ sound t' ∧
    (∀ p, p ∈ ps → read_loose t' (blob_id p) = Some p) ∧
    (∀ id, id ∉ (blob_id <$> ps) → content_blobs t' !! id = content_blobs t !! id) ∧
    content_ledger t' = content_ledger t ∧ content_packs t' = content_packs t.
Proof.
  intros <- Hu Hs. rewrite Forall_fmap in Hu.
  destruct (triple_for_each (λ seen s, sound s ∧ (∀ p, p ∈ f <$> seen → read_loose s (blob_id p) = Some p) ∧
    (∀ id, id ∉ (blob_id <$> (f <$> seen)) → content_blobs s !! id = content_blobs t !! id) ∧
    content_ledger s = content_ledger t ∧ content_packs s = content_packs t)
    (λ c, m_bind (put (f c)) (λ _, m_ret tt)) cs) with (t := t) as (t' & [] & Ht' & HQ).
  - intros seen c rest ->. apply Forall_app in Hu as [_ [Hc _]%Forall_cons].
    apply triple_put_unit. intros s (Hss & Hr & Hid & Hl & Hp). split; [by apply sound_put|].
    rewrite !fmap_app, !list_fmap_singleton. split.
    { intros p [Hin| ->%list_elem_of_singleton]%elem_of_app; [by apply insert_blob_keeps_read, Hr|by apply put_reads]. }
    split; [|by rewrite insert_blob_ledger, insert_blob_packs].
    intros id [Hn Hne]%not_elem_of_app. rewrite insert_blob_ne; [by apply Hid|set_solver].
  - split_and!; try done. by intros p ?%elem_of_nil.
  - exists t'. split; [done|]. exact HQ.
Qed.

Lemma Forall2_reads {A B} (P : A → B → Prop) (f : B → A) (ps : list B) :
  (∀ p, p ∈ ps → P (f p) p) → Forall2 P (f <$> ps) ps.
Proof.
  induction ps as [|p ps IH]; intros HP; [constructor|]. rewrite fmap_cons. constructor; [set_solver|].
  apply IH. set_solver.
Qed.

Lemma get_loose depth t id body : read_loose t id = Some body → get cap (S depth) t id = Some (Ok (Some body)).
Proof. intros Hb. cbn [get]. by rewrite Hb. Qed.

Lemma get_root depth t id n chunks bodies :
  content_blobs t !! id = None → content_packs t !! id = None → erased_byte_len t id = None →
  content_roots t !! id = Some n → content_refs t !! id = Some chunks →
  Forall2 (λ c b, get cap depth t c = Some (Ok (Some b))) chunks bodies →
  (Z.of_nat (length (mjoin bodies)) ≤ cap)%Z →
  get cap (S depth) t id = Some (Ok (Some (mjoin bodies))).
Proof.
  intros Hl Hp He Hn Hc Hb Hlen. cbn [get]. unfold read_loose, read_packed, chunk_root_info.
  rewrite Hl, Hp, He, Hn, Hc. cbn. by apply (reassemble_read _ id chunks bodies []).
Qed.

Section stored.
Context (t : Tables) (body : list ascii) (config : ChunkingConfig) (tree : ChunkTree).
Context (Hconfig : config_ok (OPutChunked body config)) (Htree : chunk_str body config = Some tree).
Context (Hcontents : Forall U (handles (OPutChunked body config) t)).
Context (Hrow : content_blobs t !! root_hash tree = None) (Hpack : content_packs t !! root_hash tree = None).
Context (Hlive : erased_byte_len t (root_hash tree) = None).
Context (Hfix : root_text (chunk_hash <$> tree_chunks tree) ∉ pieces body tree).

Lemma stored_whole depth :
  sound t → is_whole_blob tree = true →
  get cap (S depth) (perform (OPutChunked body config) t) (root_hash tree) = Some (Ok (Some body)).
Proof using All.
  intros Hs Hw. destruct Hconfig as [Hmax Hmin]. cbn [perform handles] in *. unfold put_chunked, run. rewrite Htree in *. cbn [fmap option_fmap option_map].
  rewrite Hw in *. inversion_clear Hcontents. assert (root_hash tree = blob_id body) as ->; [|by apply get_loose, put_reads].
  destruct (chunk_str_describes config body Hmax Hmin) as (t0 & Ht0 & Hd & _). replace t0 with tree in * by congruence.
  unfold is_whole_blob in Hw. apply bool_decide_eq_true, length_zero_iff_nil in Hw. unfold describes in Hd. by rewrite Hw in Hd.
Qed.

Lemma stored_cut depth :
  sound t → is_whole_blob tree = false → (Z.of_nat (length body) ≤ cap)%Z →
  let t' := perform (OPutChunked body config) t in
  content_blobs t' !! root_hash tree = None ∧
  get cap (S (S depth)) t' (root_hash tree) = Some (Ok (Some body)).
Proof using All.
  intros Hs Hw Hcap. destruct Hconfig as [Hmax Hmin]. cbn [perform handles] in *. unfold put_chunked, run. rewrite Htree in *.
  cbn [fmap option_fmap option_map]. rewrite Hw in *. inversion Hcontents as [|? ? Hr Hps Heq]. clear Heq.
  destruct (chunk_str_refs body config tree Hmax Hmin Htree Hw Hr) as (Hrefs & Hids & Hjoin).
  destruct (put_pieces (pieces body tree) (tree_chunks tree) _ t eq_refl Hps Hs) as (t1 & Ht1 & Hs1 & Hreads & Hrows & Hled & Hpk).
  unfold m_bind at 1. rewrite Ht1. cbn [put_chunk_root m_bind modify m_ret fst].
  pose proof (insert_root_refs t1 _ _ (Z.of_nat (length body)) Hs1 Hrefs) as Hrefs1. cbv zeta.
  assert (root_hash tree ∉ (blob_id <$> pieces body tree)) as Hnot.
  { intros (p & Heq & Hin)%list_elem_of_fmap. apply Hfix. destruct Hrefs as (_ & Hroot & _).
    rewrite Forall_forall in Hps. rewrite (U_free (root_text (chunk_hash <$> tree_chunks tree)) p); auto; congruence. }
  unfold m_bind at 1. rewrite Ht1. cbn [put_chunk_root m_bind modify m_ret fst].
  split; [cbn; by rewrite Hrows|]. rewrite <- Hjoin at 2.
  assert (is_Some (content_roots (insert_root (root_hash tree) (chunk_hash <$> tree_chunks tree) (Z.of_nat (length body)) t1)
    !! root_hash tree)) as [n Hn].
  { unfold insert_root. cbn. destruct (content_roots t1 !! root_hash tree) eqn:Hx; [by rewrite Hx|]. rewrite lookup_insert_eq. eauto. }
  eapply get_root; [| | |exact Hn|rewrite Hrefs1; apply lookup_insert_eq| |by rewrite Hjoin].
  - cbn. by rewrite Hrows.
  - cbn. by rewrite Hpk.
  - unfold erased_byte_len. cbn. by rewrite Hled.
  - rewrite Hids. apply Forall2_reads. intros p Hin. apply get_loose. by apply Hreads.
Qed.
End stored.

(** C37: What is stored reads back.  A content put whole is what a read of its identity
    returns.  A content cut into chunks is what a read of its root returns, provided
    that the root is recorded neither as a row, a packed chunk or an erasure, that no
    piece is the text the root hashes, and that the content is within the ceiling. *)
Theorem stored_reads_back depth t :
  history t →
  (∀ body, U body → get cap (S depth) (run (put body) t) (blob_id body) = Some (Ok (Some body))) ∧
  (∀ body config tree,
     config_ok (OPutChunked body config) → chunk_str body config = Some tree →
     Forall U (handles (OPutChunked body config) t) →
     content_blobs t !! root_hash tree = None → content_packs t !! root_hash tree = None →
     erased_byte_len t (root_hash tree) = None →
     root_text (chunk_hash <$> tree_chunks tree) ∉ pieces body tree →
     (Z.of_nat (length body) ≤ cap)%Z →
     get cap (S (S depth)) (perform (OPutChunked body config) t) (root_hash tree) = Some (Ok (Some body))).
Proof.
  intros Hs%history_sound. split; [intros body Hu; by apply get_loose, put_reads|].
  intros body config tree Hconfig Htree Hu Hl Hp He Hfix Hcap.
  destruct (is_whole_blob tree) eqn:Hw; [by apply stored_whole|by apply stored_cut].
Qed.

(** The availability check of a cached read fails on a live chunk root: it reads the
    whole content back and compares its digest with the identity, but the identity of a
    content that was cut is the digest of the identities of its chunks. *)
Theorem live_root_fails_availability depth t body config tree :
  history t → config_ok (OPutChunked body config) → chunk_str body config = Some tree → is_whole_blob tree = false →
  Forall U (handles (OPutChunked body config) t) → U body →
  content_blobs t !! root_hash tree = None → content_packs t !! root_hash tree = None →
  erased_byte_len t (root_hash tree) = None →
  root_text (chunk_hash <$> tree_chunks tree) ∉ body :: pieces body tree →
  (Z.of_nat (length body) ≤ cap)%Z →
  let t' := perform (OPutChunked body config) t in
  get cap (S (S depth)) t' (root_hash tree) = Some (Ok (Some body)) ∧
  cached_read_available cap (S (S depth)) t' (root_hash tree)
  = Some (Err (ContentMismatch (root_hash tree) (blob_id body))).
Proof.
  intros Hs%history_sound Hconfig Htree Hw Hu Hbody Hl Hp He [Hne Hfix]%not_elem_of_cons Hcap t'.
  destruct (stored_cut t body config tree Hconfig Htree Hu Hl Hp He Hfix depth Hs Hw Hcap) as [Hrow Hget].
  fold t' in Hrow, Hget. split; [done|]. unfold cached_read_available. rewrite Hrow, Hget. cbn [bool_decide].
  rewrite bool_decide_false by (by intros [? ?]). unfold verify_body. rewrite bool_decide_false; [done|].
  cbn [handles] in Hu. rewrite Htree, Hw in Hu. inversion_clear Hu as [|? ? Hr _].
  destruct Hconfig as [Hmax Hmin]. destruct (chunk_str_refs body config tree Hmax Hmin Htree Hw Hr) as ((_ & -> & _) & _ & _).
  intros Heq. apply Hne. symmetry. by apply U_free.
Qed.

(** *** Unpacking *)

(** A row, or a piece of a pack. *)
Definition held (t : Tables) (c : string) (body : list ascii) : Prop :=
  read_loose t c = Some body ∨ (read_loose t c = None ∧ read_packed t c = Ok (Some body)).

(** The tables that an operation on packs leaves alone. *)
Definition same_records (t t' : Tables) : Prop :=
  content_ledger t' = content_ledger t ∧ content_roots t' = content_roots t ∧ content_refs t' = content_refs t.

(** The row of [id] once the pieces of [seen] are restored. *)
Definition restored (t : Tables) (seen : list string) (id : string) : option (list ascii * Z) :=
  match content_blobs t !! id with
  | Some row => Some row
  | None =>
      if bool_decide (id ∈ seen) then
        match read_packed t id with
        | Ok (Some body) => Some (body, Z.of_nat (length body))
        | _ => None
        end
      else None
  end.

Lemma pack_members_spec t p m : m ∈ pack_members t p ↔ ∃ e, content_packs t !! m = Some e ∧ pe_pack e = p.
Proof.
  unfold pack_members. rewrite list_elem_of_fmap. split.
  - intros ([m' e] & -> & [He Hin]%list_elem_of_filter). apply elem_of_map_entries in Hin. eauto.
  - intros (e & He & Hp). exists (m, e). split; [done|]. apply list_elem_of_filter. split; [done|]. by apply elem_of_map_entries.
Qed.

(** Restoring the pieces of a pack does not touch what they are read from. *)
Lemma read_packed_restored t s p seen m :
  content_packs s = content_packs t → (∀ id, content_blobs s !! id = restored t seen id) →
  (∀ x, x ∈ seen → x ∈ pack_members t p) → m ∈ pack_members t p → read_packed s m = read_packed t m.
Proof.
  intros Hp Hb Hseen (e & He & Hep)%pack_members_spec. unfold read_packed at 1 2. rewrite Hp, He.
  assert (read_loose s (pe_pack e) = read_loose t (pe_pack e)) as ->; [|done].
  unfold read_loose. rewrite Hb, Hep. unfold restored. destruct (content_blobs t !! p) as [row|] eqn:Hrow; [done|].
  destruct (bool_decide_reflect (p ∈ seen)) as [Hin|_]; [|done].
  apply Hseen, pack_members_spec in Hin as (e' & He' & Hep'). unfold read_packed, read_loose. by rewrite He', Hep', Hrow.
Qed.

Definition unpacked (p : string) (t t' : Tables) : Prop :=
  sound t' ∧ same_records t t' ∧
  content_packs t' = filter (λ e, pe_pack e.2 ≠ p) (content_packs t) ∧
  (∀ id, content_blobs t' !! id = if bool_decide (id = p) then None else restored t (pack_members t p) id).

Lemma insert_blob_same_records id body t : same_records t (insert_blob id body t).
Proof. unfold insert_blob. by destruct (content_blobs t !! id). Qed.

Lemma same_records_trans t1 t2 t3 : same_records t1 t2 → same_records t2 t3 → same_records t1 t3.
Proof. intros (? & ? & ?) (? & ? & ?). split_and!; congruence. Qed.

Lemma restored_snoc_ne t seen m id : id ≠ m → restored t (seen ++ [m]) id = restored t seen id.
Proof.
  intros Hne. unfold restored. destruct (content_blobs t !! id); [done|].
  by rewrite (bool_decide_ext (id ∈ seen ++ [m]) (id ∈ seen)) by set_solver.
Qed.

(** One turn of the loop over the bodies of a pack. *)
Lemma restore_body t seen m b s :
  sound t → read_packed t m = Ok (Some b) →
  sound s → same_records t s → content_packs s = content_packs t → (∀ id, content_blobs s !! id = restored t seen id) →
  ∃ s', restore (m, b) s = (s', Ok tt) ∧
    sound s' ∧ same_records t s' ∧ content_packs s' = content_packs t ∧
    (∀ id, content_blobs s' !! id = restored t (seen ++ [m]) id).
Proof.
  intros Ht Hr Hs Hrec Hp Hb. destruct (read_packed_sound t m b Ht Hr) as [Hub Hid].
  exists (insert_blob m b s). unfold restore, m_bind, tries, verify_body, put, m_bind, modify. cbn [fst snd].
  rewrite Hid, bool_decide_true by done. split; [done|]. split; [rewrite <- Hid; by apply sound_put|].
  split; [eapply same_records_trans; [done|apply insert_blob_same_records]|]. split; [by rewrite insert_blob_packs|].
  intros id. destruct (decide (id = m)) as [->|Hne]; [|by rewrite insert_blob_ne, restored_snoc_ne].
  unfold insert_blob. assert (m ∈ seen ++ [m]) as Hin by set_solver.
  destruct (content_blobs s !! m) as [row|] eqn:Hrow.
  - rewrite Hrow. rewrite Hb in Hrow. rewrite <- Hrow. unfold restored in *. destruct (content_blobs t !! m); [done|].
    rewrite (bool_decide_true (m ∈ seen ++ [m])) by done. by destruct (bool_decide (m ∈ seen)).
  - cbn. rewrite lookup_insert_eq. rewrite Hb in Hrow. unfold restored in *. destruct (content_blobs t !! m); [done|].
    by rewrite bool_decide_true, Hr.
Qed.

(** One turn of the loop over the members of a pack. *)
Lemma restore_member t p seen m s :
  sound t → m ∈ pack_members t p → (∀ x, x ∈ seen → x ∈ pack_members t p) →
  sound s → same_records t s → content_packs s = content_packs t → (∀ id, content_blobs s !! id = restored t seen id) →
  ∃ s', (m_bind (tries (λ t, read_packed t m)) (λ body, match body with Some b => restore (m, b) | None => m_ret tt end)) s
      = (s', Ok tt) ∧
    sound s' ∧ same_records t s' ∧ content_packs s' = content_packs t ∧
    (∀ id, content_blobs s' !! id = restored t (seen ++ [m]) id).
Proof.
  intros Ht Hm Hseen Hs Hrec Hp Hb. unfold m_bind at 1, tries at 1.
  rewrite (read_packed_restored t s p seen m) by done.
  destruct (read_packed t m) as [[b|]|e] eqn:Hr; [by apply restore_body| |by apply read_packed_sound_ok in Hr].
  exists s. split_and!; try done; try apply Hrec. intros id. rewrite Hb.
  destruct (decide (id = m)) as [->|Hne]; [|by rewrite restored_snoc_ne].
  unfold restored. rewrite Hr. destruct (content_blobs t !! m); [done|]. by repeat case_bool_decide.
Qed.

Lemma unpack_one_spec t p : sound t → ∃ t', unpack_one p t = (t', Ok tt) ∧ unpacked p t t'.
Proof.
  intros Hs. destruct (triple_for_each (λ seen s, sound s ∧ same_records t s ∧ content_packs s = content_packs t ∧
      (∀ id, content_blobs s !! id = restored t seen id))
    (λ m, m_bind (tries (λ t, read_packed t m)) (λ body, match body with Some b => restore (m, b) | None => m_ret tt end))
    (pack_members t p)) with (t := t) as (s & [] & Hrun & Hss & Hrec & Hp & Hb).
  - intros seen m rest Heq s (Hss & Hrec & Hp & Hb).
    destruct (restore_member t p seen m s) as (s' & Hs' & HI); try done.
    + rewrite Heq. set_solver.
    + rewrite Heq. set_solver.
    + by exists s', tt.
  - split_and!; try done. intros id. unfold restored. by destruct (content_blobs t !! id).
  - exists (drop_pack p s). unfold unpack_one, m_bind at 1, reads at 1. unfold m_bind at 1. rewrite Hrun.
    split; [done|]. split; [by apply sound_drop|]. split; [done|]. split; [cbn; by rewrite Hp|]. intros id. cbn.
    case_bool_decide as Hid; [subst; apply lookup_delete_eq|]. by rewrite lookup_delete_ne.
Qed.

Lemma unpacked_held p t t' c body : unpacked p t t' → c ≠ p → held t c body → held t' c body.
Proof.
  intros (_ & _ & Hp & Hb) Hne. unfold held, read_loose. rewrite Hb, bool_decide_false by done. unfold restored at 1 2.
  intros [(row & Hrow & ->)%fmap_Some|[Hrow Hr]]; [rewrite Hrow; by left|]. apply fmap_None in Hrow. rewrite Hrow.
  case_bool_decide as Hin; [rewrite Hr; by left|]. right. split; [done|]. unfold read_packed in *. rewrite Hp.
  destruct (content_packs t !! c) as [e|] eqn:He; [|done].
  assert (pe_pack e ≠ p) as Hq by (intros Heq; apply Hin, pack_members_spec; eauto).
  rewrite (map_lookup_filter_Some_2 _ _ _ e) by done. unfold read_loose in *. rewrite Hb, bool_decide_false by done.
  unfold restored. by destruct (content_blobs t !! pe_pack e) as [row|].
Qed.

Lemma packs_of_root_spec t root p :
  p ∈ packs_of_root t root ↔
  ∃ c e, c ∈ default [] (content_refs t !! root) ∧ content_packs t !! c = Some e ∧ pe_pack e = p.
Proof.
  unfold packs_of_root. rewrite elem_of_set_keys, elem_of_list_to_set, list_elem_of_omap. split.
  - intros (c & Hc & (e & He & ->)%fmap_Some). eauto.
  - intros (c & e & Hc & He & <-). exists c. by rewrite He.
Qed.

Lemma unpack_for_erasure_spec t root :
  sound t →
  ∃ t', unpack_for_erasure root t = (t', Ok tt) ∧ sound t' ∧ same_records t t' ∧
    (∀ c e, content_packs t' !! c = Some e → content_packs t !! c = Some e ∧ pe_pack e ∉ packs_of_root t root) ∧
    (∀ c body, (c ∉ packs_of_root t root) → held t c body → held t' c body) ∧
    (∀ id, content_packs t !! id = None → content_blobs t !! id = None → content_blobs t' !! id = None).
Proof.
  intros Hs. destruct (triple_for_each (λ seen s, sound s ∧ same_records t s ∧
      (∀ c e, content_packs s !! c = Some e → content_packs t !! c = Some e ∧ pe_pack e ∉ seen) ∧
      (∀ c body, (c ∉ packs_of_root t root) → held t c body → held s c body) ∧
      (∀ id, content_packs t !! id = None → content_blobs t !! id = None → content_blobs s !! id = None))
    unpack_one (packs_of_root t root)) with (t := t) as (t' & [] & Hrun & HI).
  - intros seen p rest Heq s (Hss & Hrec & Hp & Hh & Hb).
    destruct (unpack_one_spec s p Hss) as (s' & Hs' & Hun). pose proof Hun as (Hss' & Hrec' & Hp' & Hb').
    exists s', tt. split; [done|]. split; [done|]. split; [by eapply same_records_trans|]. split_and!.
    + intros c e He. rewrite Hp' in He. apply map_lookup_filter_Some in He as [He Hne].
      destruct (Hp c e He) as [? ?]. split; [done|]. simpl in Hne. set_solver.
    + intros c body Hc Hh0. eapply unpacked_held; [done| |by apply Hh]. rewrite Heq in Hc. set_solver.
    + intros id Hpid Hbid. rewrite Hb'. case_bool_decide; [done|]. unfold restored. rewrite (Hb id) by done.
      case_bool_decide as Hin; [|done]. apply pack_members_spec in Hin as (e & He & _). apply Hp in He as [He _]. congruence.
  - split_and!; try done. intros c e He. split; [done|]. apply not_elem_of_nil.
  - by exists t'.
Qed.

(** *** Erasure *)

Lemma erased_append t r id :
  erased_byte_len (with_ledger t (content_ledger t ++ [r])) id =
  match erased_byte_len t id with
  | Some n => Some n
  | None => if bool_decide (le_id (lr_entry r) = id) then Some (le_byte_len (lr_entry r)) else None
  end.
Proof.
  unfold erased_byte_len. cbn [content_ledger with_ledger]. rewrite omap_app.
  destruct (omap _ (content_ledger t)) as [|n l]; [|done]. cbn. by case_bool_decide.
Qed.

Lemma append_eq id kind n at_ t :
  ∃ r, append_erasure_entry id kind n at_ t = (with_ledger t (content_ledger t ++ [r]), Ok tt) ∧
    le_id (lr_entry r) = id ∧ le_byte_len (lr_entry r) = n.
Proof. unfold append_erasure_entry, modify. destruct (last_row t); by eexists. Qed.

Lemma delete_all l t :
  ∃ b, for_each (λ c, modify (delete_blob c)) l t = (with_blobs t b, Ok tt) ∧
    ∀ id, b !! id = if bool_decide (id ∈ l) then None else content_blobs t !! id.
Proof.
  revert t. induction l as [|c l IH]; intros t; cbn [for_each].
  { exists (content_blobs t). split; [by destruct t|]. intros id. by rewrite bool_decide_false by apply not_elem_of_nil. }
  unfold m_bind, modify. destruct (IH (delete_blob c t)) as (b & Hb & Hl). exists b. split; [exact Hb|].
  intros id. rewrite Hl, (bool_decide_ext (id ∈ c :: l) (id = c ∨ id ∈ l)) by apply elem_of_cons. cbn.
  destruct (decide (id = c)) as [->|Hne].
  - rewrite lookup_delete_eq, (bool_decide_true (c = c ∨ _)) by auto. by case_bool_decide.
  - rewrite lookup_delete_ne by done. by rewrite (bool_decide_ext (id = c ∨ id ∈ l) (id ∈ l)) by tauto.
Qed.

(** Another live root refers to the chunk. *)
Lemma needed_elsewhere_spec t root c :
  needed_elsewhere t root c = true ↔
  ∃ r chunks, content_refs t !! r = Some chunks ∧ r ≠ root ∧ c ∈ chunks ∧ erased_byte_len t r = None.
Proof.
  unfold needed_elsewhere. rewrite existsb_exists. setoid_rewrite <- list_elem_of_In. split.
  - intros ([r chunks] & Hin & Hb). apply elem_of_map_entries in Hin. simpl in Hb.
    apply andb_true_iff in Hb as [[Hr Hc]%andb_true_iff He]. rewrite !bool_decide_eq_true in *. eauto 10.
  - intros (r & chunks & Hr & Hne & Hc & He). exists (r, chunks). split; [by apply elem_of_map_entries|].
    simpl. by rewrite !bool_decide_true.
Qed.

(** Another root, of which the ledger has no entry, lists the chunk. *)
Definition shared_live t (root c : string) : Prop :=
  ∃ other, other ≠ root ∧ lists t other c ∧ ∀ r, r ∈ content_ledger t → le_id (lr_entry r) ≠ other.

Lemma not_recorded t id : erased_byte_len t id = None ↔ ∀ r, r ∈ content_ledger t → le_id (lr_entry r) ≠ id.
Proof.
  unfold erased_byte_len. induction (content_ledger t) as [|r l IH]; cbn; [split; [by intros _ r ?%elem_of_nil|done]|].
  case_bool_decide as Heq; cbn.
  - split; [done|]. intros Hall. by destruct (Hall r ltac:(left)).
  - rewrite IH. split; [intros Hall x [->|?]%elem_of_cons; auto|intros Hall x Hx; apply Hall; by right].
Qed.

Lemma needed_shared t root c : needed_elsewhere t root c = true ↔ shared_live t root c.
Proof.
  rewrite needed_elsewhere_spec. unfold shared_live, lists. setoid_rewrite <- not_recorded. naive_solver.
Qed.

Lemma needed_elsewhere_append t t' root r c :
  content_refs t' = content_refs t → content_ledger t' = content_ledger t → le_id (lr_entry r) = root →
  needed_elsewhere (with_ledger t' (content_ledger t' ++ [r])) root c = needed_elsewhere t root c.
Proof.
  intros Hrefs Hl Hr. apply eq_true_iff_eq. rewrite !needed_elsewhere_spec. cbn [content_refs with_ledger]. rewrite Hrefs.
  assert (∀ x, x ≠ root → erased_byte_len (with_ledger t' (content_ledger t' ++ [r])) x = erased_byte_len t x) as He.
  { intros x Hx. rewrite erased_append. unfold erased_byte_len. rewrite Hl.
    rewrite bool_decide_false by congruence. by destruct (head _). }
  split; intros (x & chunks & ? & Hx & ? & Hn); exists x, chunks; rewrite (He x Hx) in *; done.
Qed.

Lemma doomed_spec t root c :
  c ∈ doomed t root ↔ c ∈ default [] (content_refs t !! root) ∧ needed_elsewhere t root c = false.
Proof. unfold doomed. rewrite elem_of_list_to_set, list_elem_of_filter. tauto. Qed.

(** What [erase_chunks] leaves: [u] is the store once the packs of the root are
    dissolved. *)
Lemma erase_chunks_spec t root at_ :
  sound t →
  ∃ u t' r gone, unpack_for_erasure root t = (u, Ok tt) ∧ erase_chunks root at_ t = (t', Ok gone) ∧
    le_id (lr_entry r) = root ∧ le_byte_len (lr_entry r) = default 0%Z (content_roots t !! root) ∧
    content_ledger t' = content_ledger t ++ [r] ∧ content_roots t' = content_roots t ∧
    content_refs t' = content_refs t ∧ content_packs t' = content_packs u ∧
    (∀ id, content_blobs t' !! id = if bool_decide (id ∈ doomed t root) then None else content_blobs u !! id).
Proof.
  intros Hs. destruct (unpack_for_erasure_spec t root Hs) as (u & Hu & _ & (Hl & Hro & Hre) & _).
  exists u. unfold erase_chunks, transaction, m_bind. rewrite Hu. unfold reads at 1.
  destruct (append_eq root ChunkRoot (default 0%Z (content_roots u !! root)) at_ u) as (r & -> & Hid & Hn).
  unfold reads at 1. set (w := with_ledger u (content_ledger u ++ [r])).
  assert (doomed w root = doomed t root) as Hd.
  { apply set_eq. intros c. rewrite !doomed_spec. unfold w. rewrite (needed_elsewhere_append t u) by done.
    cbn [content_refs with_ledger]. by rewrite Hre. }
  rewrite Hd. set (gone := filter _ _). destruct (delete_all gone w) as (b & -> & Hb).
  do 3 eexists. split; [done|]. split; [done|]. cbn. rewrite Hl, Hro, Hre in *. split_and!; try done.
  intros id. rewrite Hb. unfold gone. cbn. case_bool_decide as Hx; case_bool_decide as Hy; try done.
  - by apply list_elem_of_filter in Hx as [_ Hx%elem_of_elements].
  - rewrite list_elem_of_filter, elem_of_elements in Hx. apply eq_None_not_Some. tauto.
Qed.

(** No identity names both a pack and a chunk of a root. *)
Definition packs_apart (t : Tables) : Prop :=
  ∀ c e r chunks, content_packs t !! c = Some e → content_refs t !! r = Some chunks → pe_pack e ∉ chunks.

Lemma erased_get depth t id :
  content_blobs t !! id = None → content_packs t !! id = None → is_Some (erased_byte_len t id) →
  get cap (S depth) t id = Some (Ok None) ∧ ∃ n, status t id = Erased n.
Proof.
  intros Hb Hp [n Hn]. cbn [get]. unfold status, read_loose, read_packed. rewrite Hb, Hp, Hn. cbn. eauto.
Qed.

Lemma held_rows t t' c body :
  content_blobs t' !! c = content_blobs t !! c →
  content_packs t' !! c = content_packs t !! c →
  (∀ e, content_packs t !! c = Some e → content_blobs t' !! pe_pack e = content_blobs t !! pe_pack e) →
  held t c body → held t' c body.
Proof.
  intros Hb Hp Hq. unfold held, read_packed, read_loose. rewrite Hb, Hp.
  destruct (content_packs t !! c) as [e|]; [|done]. by rewrite Hq.
Qed.

(** C29: Erasing a live chunk root always succeeds: it reports the recorded length,
    appends one entry about the root to the ledger, removes every chunk of it that no other
    live root lists, loose or packed, and makes the root unreadable and reported as erased
    when no row or packed chunk bears its name.  A chunk that another live root lists stays
    held with its body, provided that no pack bears the name of a chunk.  A root is live when
    the ledger has no entry about it: a chunk shared with erased roots only is removed. *)
Theorem root_erasure_exact t root at_ info :
  history t → chunk_root_info t root = Some info → ri_erased info = false →
  ∃ t' r, erase root at_ t = (t', Ok (ErasedNow (as_u64 (ri_byte_len info)))) ∧
    content_ledger t' = content_ledger t ++ [r] ∧
    le_id (lr_entry r) = root ∧ le_byte_len (lr_entry r) = ri_byte_len info ∧
    (∀ c, c ∈ ri_chunks info → ¬ shared_live t root c →
       content_blobs t' !! c = None ∧ content_packs t' !! c = None) ∧
    (content_blobs t !! root = None → content_packs t !! root = None → ∀ depth,
       get cap (S depth) t' root = Some (Ok None) ∧ ∃ n, status t' root = Erased n) ∧
    (packs_apart t → ∀ c body, shared_live t root c → held t c body → held t' c body).
Proof.
  intros Hs%history_sound Hinfo Her.
  destruct (unpack_for_erasure_spec t root Hs) as (u & Hu & _ & (Hl & Hro & Hre) & Hp & Hh & Hn).
  destruct (erase_chunks_spec t root at_ Hs) as (u0 & t' & r & gone & Hu0 & Hrun & Hid & Hlen & Hl' & Hro' & Hre' & Hp' & Hb').
  replace u0 with u in * by congruence. clear u0 Hu0. pose proof (root_info_chunks _ _ _ Hinfo) as Hch.
  assert (default 0%Z (content_roots t !! root) = ri_byte_len info) as Hbl.
  { unfold chunk_root_info in Hinfo. apply fmap_Some in Hinfo as (n & -> & ->). done. }
  exists t', r. split.
  { unfold erase, m_bind, reads. rewrite Hinfo, Her. cbn beta. rewrite Hrun. done. }
  split_and!; try congruence.
  - intros c Hc Hne. rewrite <- needed_shared, not_true_iff_false in Hne. rewrite Hb', bool_decide_true by (apply doomed_spec; rewrite <- Hch; done). split; [done|].
    rewrite Hp'. apply eq_None_not_Some. intros [e He]. destruct (Hp c e He) as [He0 Hnot]. apply Hnot.
    apply packs_of_root_spec. rewrite <- Hch. eauto.
  - intros Hb0 Hp0 depth. apply erased_get.
    + rewrite Hb'. case_bool_decide; [done|]. by apply Hn.
    + rewrite Hp'. apply eq_None_not_Some. intros [e [He _]%Hp]. congruence.
    + replace (erased_byte_len t' root) with (erased_byte_len (with_ledger t (content_ledger t ++ [r])) root)
        by (unfold erased_byte_len; cbn; by rewrite Hl').
      rewrite erased_append, (bool_decide_true _ Hid). by destruct (erased_byte_len t root).
  - intros Hap c body Hne%needed_shared Hheld. pose proof Hne as Hne'. apply needed_elsewhere_spec in Hne' as (x & chunks & Hx & _ & Hcx & _).
    apply (held_rows u); [|by rewrite Hp'| |apply Hh; [|done]].
    + rewrite Hb', bool_decide_false; [done|]. rewrite doomed_spec. intros [_ ?]. congruence.
    + intros e He. rewrite Hb', bool_decide_false; [done|]. rewrite doomed_spec. intros [Hin _].
      apply Hp in He as [He _]. destruct (content_refs t !! root) as [l|] eqn:Hroot; [|by apply elem_of_nil in Hin].
      by apply (Hap c e root l).
    + rewrite packs_of_root_spec. intros (c0 & e & _ & He & Heq). apply (Hap c0 e x chunks); [done..|by rewrite Heq].
Qed.

Lemma packed_bodies_spec t members :
  sound t → ∃ l, packed_bodies t members = Ok l ∧
    ∀ m body, (m, body) ∈ l ↔ m ∈ members ∧ read_packed t m = Ok (Some body).
Proof.
  intros Hs. induction members as [|m members (l & Hl & IH)]; cbn [packed_bodies].
  { exists []. split; [done|]. intros m body. split; [by intros ?%elem_of_nil|by intros [?%elem_of_nil _]]. }
  destruct (read_packed t m) as [b|e] eqn:Hr; [|by apply read_packed_sound_ok in Hr]. cbn. rewrite Hl. cbn.
  eexists. split; [done|]. intros m' body. destruct b as [b|]; rewrite !elem_of_cons, IH; split.
  - intros [[= -> ->]|[? ?]]; auto.
  - intros [[->|?] ?]; [left; congruence|auto].
  - intros [? ?]. auto.
  - intros [[->|?] ?]; [congruence|auto].
Qed.

Lemma restored_same t l l' id :
  (∀ body, read_packed t id = Ok (Some body) → id ∈ l ↔ id ∈ l') → restored t l id = restored t l' id.
Proof.
  intros Hl. unfold restored. destruct (content_blobs t !! id); [done|].
  destruct (read_packed t id) as [[body|]|e]; [|by repeat case_bool_decide..].
  by rewrite (bool_decide_ext (id ∈ l) (id ∈ l')) by (by eapply Hl).
Qed.

Lemma dissolve_spec t id :
  sound t →
  ∃ t' b, dissolve_pack_containing id t = (t', Ok b) ∧
    match content_packs t !! id with Some e => unpacked (pe_pack e) t t' | None => t' = t end.
Proof.
  intros Hs. unfold dissolve_pack_containing, m_bind at 1, reads at 1.
  destruct (content_packs t !! id) as [e|] eqn:He; [|by eauto]. set (p := pe_pack e).
  destruct (packed_bodies_spec t (pack_members t p) Hs) as (l & Hl & Hin).
  unfold m_bind at 1, tries at 1. fold p. rewrite Hl.
  destruct (triple_for_each (λ seen s, sound s ∧ same_records t s ∧ content_packs s = content_packs t ∧
      (∀ id, content_blobs s !! id = restored t seen.*1 id)) restore l) with (t := t) as (s & [] & Hrun & Hss & Hrec & Hp & Hb).
  - intros seen [m b] rest Heq s (Hss & Hrec & Hp & Hb).
    destruct (restore_body t seen.*1 m b s) as (s' & Hs' & HI); try done.
    + apply Hin. rewrite Heq. set_solver.
    + exists s', tt. by rewrite fmap_app.
  - split_and!; try done. intros x. unfold restored. by destruct (content_blobs t !! x).
  - unfold m_bind at 1. rewrite Hrun. exists (drop_pack p s), true. split; [done|]. split; [by apply sound_drop|].
    split; [done|]. split; [cbn; by rewrite Hp|]. intros x. cbn.
    case_bool_decide as Hx; [subst x; apply lookup_delete_eq|]. rewrite lookup_delete_ne, Hb by done.
    apply restored_same. intros body Hr. split.
    + intros ([m b] & -> & Hm)%list_elem_of_fmap. by apply Hin in Hm as [? _].
    + intros Hm. apply list_elem_of_fmap. exists (x, body). split; [done|]. by apply Hin.
Qed.

(** What is held under an identity, once the pack it is in is dissolved. *)
Lemma dissolve_held t id :
  sound t →
  ∃ u b, dissolve_pack_containing id t = (u, Ok b) ∧
    sound u ∧ same_records t u ∧ content_packs u !! id = None ∧
    (∀ body, held t id body → (∀ e, content_packs t !! id = Some e → pe_pack e ≠ id) → read_loose u id = Some body) ∧
    ((∀ body, ¬ held t id body) → content_blobs u !! id = None).
Proof.
  intros Hs. destruct (dissolve_spec t id Hs) as (u & b & Hu & Hd). exists u, b. split; [done|].
  destruct (content_packs t !! id) as [e|] eqn:He.
  - pose proof Hd as (Hsu & Hrec & Hp & Hb). split; [done|]. split; [done|].
    assert (content_packs u !! id = None) as Hpu.
    { rewrite Hp. apply map_lookup_filter_None. right. intros e'. rewrite He. intros [= <-]. simpl. tauto. }
    split; [done|]. split.
    + intros body Hheld Hne. assert (pe_pack e ≠ id) as Hne' by (by apply Hne).
      destruct (unpacked_held _ _ _ id body Hd) as [?|[_ Hr]]; [congruence|done|done|].
      unfold read_packed in Hr. by rewrite Hpu in Hr.
    + intros Hno. rewrite Hb. case_bool_decide; [done|]. unfold restored, held, read_loose in *.
      destruct (content_blobs t !! id) as [row|]; [exfalso; apply (Hno row.1); by left|].
      case_bool_decide; [|done]. destruct (read_packed t id) as [[body|]|]; try done. exfalso. apply (Hno body). by right.
  - subst u. split_and!; try done.
    + intros body [?|[_ Hr]] _; [done|]. unfold read_packed in Hr. by rewrite He in Hr.
    + intros Hno. destruct (content_blobs t !! id) as [row|] eqn:Hrow; [|done]. exfalso. apply (Hno row.1). left.
      unfold read_loose. by rewrite Hrow.
Qed.

(** Erasing an identity that is not a chunk root always succeeds and leaves nothing
    to read under it.  When bytes were held under it, by a row or by a pack of another
    name, the outcome is their length, the ledger gains one entry about it, and it is
    reported as erased; when none were, the ledger is unchanged. *)
Theorem blob_erasure_exact t id at_ :
  history t → chunk_root_info t id = None →
  ∃ t' out, erase id at_ t = (t', Ok out) ∧
    (∀ depth, get cap (S depth) t' id = Some (Ok None)) ∧
    (∀ body, held t id body → (∀ e, content_packs t !! id = Some e → pe_pack e ≠ id) →
       out = ErasedNow (Z.of_nat (length body)) ∧
       (∃ r, content_ledger t' = content_ledger t ++ [r] ∧ le_id (lr_entry r) = id ∧
          le_byte_len (lr_entry r) = Z.of_nat (length body)) ∧
       ∃ n, status t' id = Erased n) ∧
    ((∀ body, ¬ held t id body) →
       content_ledger t' = content_ledger t ∧
       out = if bool_decide (is_Some (erased_byte_len t id)) then AlreadyErased else UnknownBlob).
Proof.
  intros Hs%history_sound Hinfo.
  destruct (dissolve_held t id Hs) as (u & b & Hu & Hsu & (Hl & Hro & Hre) & Hpu & Hh & Hn).
  assert (content_roots u !! id = None) as Hroot.
  { rewrite Hro. unfold chunk_root_info in Hinfo. by apply fmap_None in Hinfo. }
  unfold erase, m_bind, reads. rewrite Hinfo. cbn beta iota. rewrite Hu.
  destruct (content_blobs u !! id) as [[body n]|] eqn:Hrow.
  - cbn [fmap option_fmap option_map snd]. destruct (append_eq id Blob n at_ u) as (r & -> & Hid & Hlen).
    unfold modify, m_ret. do 2 eexists. split; [done|]. destruct (sound_addressed u Hsu id _ Hrow) as [Hbid Hbn]. simpl in Hbid, Hbn.
    assert (is_Some (erased_byte_len (delete_blob id (with_ledger u (content_ledger u ++ [r]))) id)) as Her.
    { change (erased_byte_len (delete_blob id ?x) id) with (erased_byte_len x id).
      rewrite erased_append, (bool_decide_true _ Hid). by destruct (erased_byte_len u id). }
    assert (∀ depth, get cap (S depth) (delete_blob id (with_ledger u (content_ledger u ++ [r]))) id = Some (Ok None) ∧
      ∃ n, status (delete_blob id (with_ledger u (content_ledger u ++ [r]))) id = Erased n) as Hget.
    { intros depth. apply erased_get; [cbn; apply lookup_delete_eq|done|done]. }
    split; [intros depth; apply Hget|]. split.
    + intros body' Hheld Hne. specialize (Hh body' Hheld Hne). unfold read_loose in Hh. rewrite Hrow in Hh. injection Hh as ->.
      pose proof (U_small body' ltac:(by apply (sound_bodies u Hsu id (body', n)))). split.
      { f_equal. rewrite Hbn. unfold as_u64. apply Z.mod_small. lia. }
      split; [|apply (Hget 0)]. exists r. cbn. rewrite Hl. split_and!; congruence.
    + intros Hno. specialize (Hn Hno). congruence.
  - cbn [fmap option_fmap option_map]. unfold m_ret. do 2 eexists. split; [done|]. split; [|split].
    + intros depth. cbn [get]. unfold read_loose, read_packed, chunk_root_info. rewrite Hrow, Hpu, Hroot. cbn. by destruct (bool_decide _).
    + intros body Hheld Hne. specialize (Hh body Hheld Hne). unfold read_loose in Hh. by rewrite Hrow in Hh.
    + intros _. split; [done|]. unfold erased_byte_len. rewrite Hl. by destruct (head _).
Qed.

(** *** Packing *)

Definition entry_key (e : string * nat * nat) : string := e.1.1.

Lemma pack_layout_keys offset loose : entry_key <$> pack_layout offset loose = loose.*1.
Proof.
  revert offset. induction loose as [|[c b] loose IH]; intros offset; [done|]. cbn [pack_layout].
  rewrite !fmap_cons. by rewrite IH.
Qed.

Lemma insert_entries p l t :
  ∃ pk, for_each (λ e, modify (insert_pack_entry p e)) l t = (with_packs t pk, Ok tt) ∧
    ∀ c, match content_packs t !! c, pk !! c with
         | Some e, e' => e' = Some e
         | None, Some e => ∃ o n, (c, o, n) ∈ l ∧ e = mkPackEntry p (Z.of_nat o) (Z.of_nat n)
         | None, None => c ∉ (entry_key <$> l)
         end.
Proof.
  revert t. induction l as [|[[k o] n] l IH]; intros t; cbn [for_each].
  { exists (content_packs t). split; [by destruct t|]. intros c. destruct (content_packs t !! c); [done|].
    apply not_elem_of_nil. }
  destruct (IH (insert_pack_entry p (k, o, n) t)) as (pk & Hpk & Hl). exists pk. split.
  { etransitivity; [exact Hpk|]. unfold insert_pack_entry. by destruct (content_packs t !! k). }
  unfold insert_pack_entry in Hl. rewrite fmap_cons. destruct (content_packs t !! k) as [e0|] eqn:Hk.
  - intros c. specialize (Hl c). destruct (content_packs t !! c) eqn:Hc; [done|].
    destruct (pk !! c); [destruct Hl as (? & ? & ? & ?); eauto using list_elem_of_further|].
    unfold entry_key at 1. cbn. intros [->|?]%elem_of_cons; [congruence|done].
  - intros c. specialize (Hl c). cbn in Hl. destruct (decide (c = k)) as [->|Hne].
    + rewrite Hk. rewrite lookup_insert_eq in Hl. rewrite Hl. exists o, n. split; [apply list_elem_of_here|done].
    + rewrite lookup_insert_ne in Hl by done. destruct (content_packs t !! c); [done|].
      destruct (pk !! c); [destruct Hl as (? & ? & ? & ?); eauto using list_elem_of_further|].
      unfold entry_key at 1. cbn. by intros [->|?]%elem_of_cons.
Qed.

Lemma delete_packed p (l : list (string * nat * nat)) t :
  ∃ b, for_each (λ e, modify (λ t, if bool_decide (e.1.1 = p) then t else delete_blob e.1.1 t)) l t = (with_blobs t b, Ok tt) ∧
    ∀ id, b !! id = if bool_decide (id ∈ (entry_key <$> l) ∧ id ≠ p) then None else content_blobs t !! id.
Proof.
  revert t. induction l as [|e l IH]; intros t; cbn [for_each].
  { exists (content_blobs t). split; [by destruct t|]. intros id.
    rewrite bool_decide_false; [done|]. by intros [?%elem_of_nil _]. }
  rewrite fmap_cons. destruct (IH (if bool_decide (e.1.1 = p) then t else delete_blob e.1.1 t)) as (b & Hb & Hl). exists b.
  split; [etransitivity; [exact Hb|]; by case_bool_decide|]. intros id. rewrite Hl.
  rewrite (bool_decide_ext (id ∈ entry_key e :: _ ∧ id ≠ p) ((id = e.1.1 ∨ id ∈ (entry_key <$> l)) ∧ id ≠ p))
    by (rewrite elem_of_cons; done).
  case_bool_decide as Hp; case_bool_decide as H1; case_bool_decide as H2; try done; try (exfalso; tauto).
  - exfalso. destruct H2 as [[->|?] ?]; tauto.
  - assert (id = e.1.1) as -> by tauto. cbn. apply lookup_delete_eq.
  - cbn. apply lookup_delete_ne. intros <-. tauto.
Qed.

(** The store after [pack_root]: the rows of the packed chunks are gone but for the
    pack, which is a row, and each of them has an entry. *)
Lemma pack_root_spec t root info :
  let loose := loose_chunks t ∅ (ri_chunks info) in
  let p := blob_id (mjoin loose.*2) in
  chunk_root_info t root = Some info → ri_erased info = false → loose ≠ [] →
  ∃ t', pack_root root t = (t', Ok (length loose)) ∧ same_records t t' ∧
    (∀ id, content_blobs t' !! id = if bool_decide (id ∈ loose.*1 ∧ id ≠ p) then None
             else content_blobs (insert_blob p (mjoin loose.*2) t) !! id) ∧
    (∀ c, match content_packs t !! c, content_packs t' !! c with
          | Some e, e' => e' = Some e
          | None, Some e => c ∈ loose.*1 ∧ pe_pack e = p
          | None, None => c ∉ loose.*1
          end).
Proof.
  intros loose p Hinfo Her Hne. rewrite pack_root_eq, Hinfo. cbv zeta. rewrite Her. fold loose. fold p.
  rewrite bool_decide_false by (by intros ?%length_zero_iff_nil).
  destruct (insert_entries p (pack_layout 0 loose) (insert_blob p (mjoin loose.*2) t)) as (pk & Hpk & Hp).
  destruct (delete_packed p (pack_layout 0 loose) (with_packs (insert_blob p (mjoin loose.*2) t) pk)) as (b & Hb & Hd).
  unfold m_bind. rewrite Hpk, Hb. rewrite pack_layout_keys in Hd. eexists. split.
  { unfold m_ret. do 2 f_equal. rewrite <- (length_fmap fst loose), <- (pack_layout_keys 0), length_fmap. done. }
  split; [apply (insert_blob_same_records p _ t)|]. split; [exact Hd|]. intros c. specialize (Hp c).
  rewrite insert_blob_packs in Hp. cbn. destruct (content_packs t !! c); [done|]. destruct (pk !! c) as [e|].
  - destruct Hp as (o & n & Hin & ->). split; [|done]. rewrite <- (pack_layout_keys 0 loose).
    apply list_elem_of_fmap. by exists (c, o, n).
  - by rewrite pack_layout_keys in Hp.
Qed.

(** Every pack that an entry names is a row. *)
Definition packs_present (t : Tables) : Prop :=
  ∀ c e, content_packs t !! c = Some e → is_Some (content_blobs t !! pe_pack e).

Lemma held_content t c body : sound t → held t c body → U body ∧ blob_id body = c.
Proof. intros Hs [Hr|[_ Hr]]; [by apply (read_loose_sound t)|by apply (read_packed_sound t)]. Qed.

Lemma read_packed_present t c e :
  sound t → content_packs t !! c = Some e → is_Some (content_blobs t !! pe_pack e) →
  ∃ body, read_packed t c = Ok (Some body).
Proof.
  intros Hs He [row Hrow]. destruct (read_packed t c) as [[body|]|err] eqn:Hr; [eauto| |by apply read_packed_sound_ok in Hr].
  unfold read_packed, read_loose in Hr. rewrite He, Hrow in Hr. cbn in Hr. by destruct (_ || _).
Qed.

(** An identity with a row, or with an entry whose pack is a row, is held. *)
Lemma held_present t c :
  sound t →
  is_Some (content_blobs t !! c) ∨ (∃ e, content_packs t !! c = Some e ∧ is_Some (content_blobs t !! pe_pack e)) →
  ∃ body, held t c body.
Proof.
  intros Hs Hor. unfold held, read_loose. destruct (content_blobs t !! c) as [row|]; [by exists row.1; left|].
  destruct Hor as [[? ?]|(e & He & Hrow)]; [done|]. destruct (read_packed_present t c e Hs He Hrow) as [body Hb]. eauto.
Qed.

Lemma held_unique t t' c body body' : sound t → sound t' → held t c body → held t' c body' → body' = body.
Proof.
  intros Hs Hs' [? ?]%held_content [? ?]%held_content; [|done..]. apply U_free; congruence.
Qed.

Lemma insert_blob_row id body t : is_Some (content_blobs (insert_blob id body t) !! id).
Proof.
  unfold insert_blob. destruct (content_blobs t !! id) eqn:Hid; [by rewrite Hid|]. cbn. by rewrite lookup_insert_eq.
Qed.

Lemma loose_chunks_keys t seen chunks c : c ∈ (loose_chunks t seen chunks).*1 → c ∈ chunks ∧ is_Some (content_blobs t !! c).
Proof.
  intros ([c' b] & -> & (Hin & Hr & _)%loose_chunks_read)%list_elem_of_fmap. split; [done|].
  unfold read_loose in Hr. cbn [fst]. by destruct (content_blobs t !! c').
Qed.

Section packing.
Context (t t' : Tables) (root : string) (info : ChunkRootInfo).
Abbreviation loose := (loose_chunks t ∅ (ri_chunks info)).
Abbreviation p := (blob_id (mjoin loose.*2)).
Context (Hs : sound t) (Hs' : sound t') (Hinfo : chunk_root_info t root = Some info).
Context (Hap : packs_apart t) (Hpr : packs_present t).
Context (Hblobs : ∀ id, content_blobs t' !! id = if bool_decide (id ∈ loose.*1 ∧ id ≠ p) then None
  else content_blobs (insert_blob p (mjoin loose.*2) t) !! id).
Context (Hpacks : ∀ c, match content_packs t !! c, content_packs t' !! c with
  | Some e, e' => e' = Some e
  | None, Some e => c ∈ loose.*1 ∧ pe_pack e = p
  | None, None => c ∉ loose.*1
  end).

Lemma pack_stays c e : content_packs t' !! c = Some e → is_Some (content_blobs t' !! pe_pack e).
Proof.
  intros He. specialize (Hpacks c). destruct (content_packs t !! c) as [e0|] eqn:He0.
  - assert (e0 = e) as -> by congruence. rewrite Hblobs, bool_decide_false.
    + destruct (Hpr c e He0) as [row Hrow]. rewrite (insert_blob_keeps_row _ _ _ _ _ Hrow). eauto.
    + intros [[Hin _]%loose_chunks_keys _]. rewrite (root_info_chunks _ _ _ Hinfo) in Hin.
      destruct (content_refs t !! root) as [chunks|] eqn:Hr; [|by apply elem_of_nil in Hin].
      by apply (Hap c e root chunks).
  - rewrite He in Hpacks. destruct Hpacks as [_ ->]. rewrite Hblobs, bool_decide_false by tauto. apply insert_blob_row.
Qed.

Lemma pack_keeps_held c body : held t c body → held t' c body.
Proof.
  intros Hh. destruct (held_present t' c Hs') as [body' Hb'].
  - pose proof (Hpacks c) as Hpc. pose proof (pack_stays c) as Hst. destruct (content_packs t' !! c) as [e|] eqn:He; [right; eauto|].
    left. rewrite Hblobs. destruct (content_packs t !! c) eqn:He0; [done|]. rewrite bool_decide_false by tauto.
    destruct Hh as [Hr|[_ Hr]]; [|unfold read_packed in Hr; by rewrite He0 in Hr].
    apply (insert_blob_keeps_read p (mjoin loose.*2)) in Hr. unfold read_loose in Hr.
    by destruct (content_blobs _ !! c).
  - by rewrite (held_unique t t' c body body' Hs Hs' Hh Hb') in Hb'.
Qed.

(** Nothing new is held but the pack. *)
Lemma pack_adds_nothing c :
  c ≠ p → read_loose t c = None → read_packed t c = Ok None →
  read_loose t' c = None ∧ read_packed t' c = Ok None.
Proof.
  intros Hne Hl Hr. unfold read_loose in Hl. apply fmap_None in Hl. split.
  - unfold read_loose. rewrite Hblobs. case_bool_decide; [done|]. by rewrite insert_blob_ne, Hl.
  - specialize (Hpacks c). unfold read_packed. destruct (content_packs t' !! c) as [e|] eqn:He; [|done].
    destruct (content_packs t !! c) as [e0|] eqn:He0.
    + destruct (read_packed_present t c e0 Hs He0 (Hpr c e0 He0)) as [? ?]. congruence.
    + destruct Hpacks as [[_ [? ?]]%loose_chunks_keys _]. congruence.
Qed.
End packing.

Lemma reassemble_mono (r r' : string → option (result content_error (option (list ascii)))) id chunks acc body :
  (∀ c b, r c = Some (Ok (Some b)) → r' c = Some (Ok (Some b))) →
  reassemble cap r id chunks acc = Some (Ok (Some body)) → reassemble cap r' id chunks acc = Some (Ok (Some body)).
Proof.
  intros Hr. revert acc. induction chunks as [|c chunks IH]; intros acc; cbn [reassemble]; [done|].
  destruct (r c) as [[[b|]|e]|] eqn:Hc; try done. rewrite (Hr c b Hc). destruct (_ >? _)%Z; [done|apply IH].
Qed.

Lemma get_held depth t id body : held t id body → get cap (S depth) t id = Some (Ok (Some body)).
Proof. intros [Hr|[Hl Hr]]; cbn [get]; [by rewrite Hr|by rewrite Hl, Hr]. Qed.

(** Packing the chunks of a root always succeeds, and every content that could be
    read before it can be read after it, unchanged, provided that no pack bears the name
    of a chunk, every pack is there, and the new pack does not bear the name of a
    root. *)
Theorem packing_transparent t root :
  history t → Forall U (handles (OPack root) t) → packs_apart t → packs_present t →
  content_roots t !! blob_id (mjoin (loose_chunks t ∅ (default [] (content_refs t !! root))).*2) = None →
  ∃ t' n, pack_root root t = (t', Ok n) ∧
    ∀ depth id body, get cap depth t id = Some (Ok (Some body)) → get cap depth t' id = Some (Ok (Some body)).
Proof.
  intros Hs%history_sound Hu Hap Hpr Hnew. pose proof (sound_pack root t Hu Hs) as Hs'. cbn [perform] in Hs'.
  destruct (chunk_root_info t root) as [info|] eqn:Hinfo; [|exists t, 0; rewrite pack_root_eq, Hinfo; done].
  rewrite <- (root_info_chunks _ _ _ Hinfo) in Hnew.
  destruct (ri_erased info) eqn:Her; [exists t, 0; rewrite pack_root_eq, Hinfo; cbv zeta; by rewrite Her|].
  destruct (decide (loose_chunks t ∅ (ri_chunks info) = [])) as [Hnil|Hne].
  { exists t, 0. rewrite pack_root_eq, Hinfo. cbv zeta. by rewrite Her, Hnil. }
  destruct (pack_root_spec t root info Hinfo Her Hne) as (t' & Hrun & (Hl & Hro & Hre) & Hb & Hp).
  exists t', (length (loose_chunks t ∅ (ri_chunks info))). split; [done|]. unfold run in Hs'. rewrite Hrun in Hs'. cbn [fst] in Hs'.
  induction depth as [|depth IH]; intros id body; [done|].
  destruct (read_loose t id) as [b|] eqn:Hrl; [|destruct (read_packed t id) as [[b|]|e] eqn:Hrp].
  - cbn [get]. rewrite Hrl. intros [= ->]. apply (get_held depth). refine (pack_keeps_held t t' root info Hs Hs' Hinfo Hap Hpr Hb Hp id _ _). by left.
  - cbn [get]. rewrite Hrl, Hrp. intros [= ->]. apply (get_held depth). refine (pack_keeps_held t t' root info Hs Hs' Hinfo Hap Hpr Hb Hp id _ _). by right.
  - assert (erased_byte_len t' id = erased_byte_len t id) as He by (unfold erased_byte_len; by rewrite Hl).
    assert (chunk_root_info t' id = chunk_root_info t id) as Hi by (unfold chunk_root_info; by rewrite Hro, Hre, He).
    cbn [get]. rewrite Hrl, Hrp. destruct (chunk_root_info t id) as [info'|] eqn:Hinfo'; [|by destruct (bool_decide _)].
    destruct (pack_adds_nothing t t' info Hs Hpr Hb Hp id) as [-> ->]; [|done..|].
    { intros ->. unfold chunk_root_info in Hinfo'. by rewrite Hnew in Hinfo'. }
    rewrite He, Hi. destruct (bool_decide _); [done|]. destruct (ri_erased info'); [done|].
    by apply reassemble_mono.
  - by apply read_packed_sound_ok in Hrp.
Qed.
End contents.

(** ** Purges and the ledger *)

Section records.
Context `{Sha256} (cap : Z).

Lemma reassemble_ext (r r' : string → option (result content_error (option (list ascii)))) id chunks acc :
  (∀ c, c ∈ chunks → r' c = r c) → reassemble cap r' id chunks acc = reassemble cap r id chunks acc.
Proof.
  revert acc. induction chunks as [|c chunks IH]; intros acc Hr; cbn [reassemble]; [done|].
  rewrite Hr by set_solver. destruct (r c) as [[[b|]|e]|]; try done. destruct (_ >? _)%Z; [done|]. apply IH. set_solver.
Qed.

Lemma reachable_chunk t roots id chunks c :
  content_refs t !! id = Some chunks → c ∈ chunks → reachable t roots c = true.
Proof.
  intros Hr Hc. unfold reachable. apply orb_true_iff. left. apply orb_true_iff. right. apply existsb_exists.
  exists (id, chunks). rewrite <- list_elem_of_In, elem_of_map_to_list. split; [done|]. by apply bool_decide_eq_true.
Qed.

Lemma reachable_pack t roots c e : content_packs t !! c = Some e → reachable t roots (pe_pack e) = true.
Proof.
  intros He. unfold reachable. apply orb_true_iff. right. apply existsb_exists.
  exists (c, e). rewrite <- list_elem_of_In, elem_of_map_to_list. split; [done|]. by apply bool_decide_eq_true.
Qed.

Lemma purge_rows t roots :
  purge_unreachable roots t =
  (with_blobs t (filter (λ e, reachable t roots e.1 = true) (content_blobs t)),
   Ok (size (filter (λ e, reachable t roots e.1 = false) (content_blobs t)))).
Proof. done. Qed.

Lemma purged_row t roots id :
  content_blobs (run (purge_unreachable roots) t) !! id
  = if reachable t roots id then content_blobs t !! id else None.
Proof.
  unfold run. rewrite purge_rows. cbn [fst content_blobs with_blobs]. destruct (content_blobs t !! id) as [row|] eqn:Hrow.
  - destruct (reachable t roots id) eqn:Hr; [by apply map_lookup_filter_Some_2|].
    apply map_lookup_filter_None. right. intros x _. simpl. congruence.
  - rewrite map_lookup_filter_None_2 by auto. by destruct (reachable t roots id).
Qed.

Lemma purge_keeps_get depth t roots id :
  reachable t roots id = true ∨ content_blobs t !! id = None →
  get cap depth (run (purge_unreachable roots) t) id = get cap depth t id.
Proof.
  revert id. induction depth as [|depth IH]; intros id Hid; [done|]. cbn [get].
  set (t' := run (purge_unreachable roots) t) in *.
  assert (read_loose t' id = read_loose t id) as ->.
  { unfold read_loose, t'. rewrite purged_row. destruct (reachable t roots id); [done|]. destruct Hid as [?|Hx]; [done|]. by rewrite Hx. }
  assert (read_packed t' id = read_packed t id) as ->.
  { unfold read_packed, read_loose. change (content_packs t') with (content_packs t).
    destruct (content_packs t !! id) as [e|] eqn:He; [|done]. unfold t'. by rewrite purged_row, (reachable_pack t roots id e). }
  change (erased_byte_len t' id) with (erased_byte_len t id). change (chunk_root_info t' id) with (chunk_root_info t id).
  destruct (read_loose t id); [done|]. destruct (read_packed t id) as [[?|]|?]; [done| |done].
  destruct (bool_decide _); [done|]. destruct (chunk_root_info t id) as [info|] eqn:Hinfo; [|done].
  destruct (ri_erased info); [done|]. apply reassemble_ext. intros c Hc. apply IH. left.
  rewrite (root_info_chunks _ _ _ Hinfo) in Hc. destruct (content_refs t !! id) as [chunks|] eqn:Hr; [|by apply elem_of_nil in Hc].
  by eapply reachable_chunk.
Qed.

(** A purge removes exactly the rows that are neither listed, nor a chunk of a
    root, nor a pack, reports their number, and changes no read of a listed identity or
    of an identity without a row, chunk roots included. *)
Theorem purge_exact depth t roots :
  let t' := run (purge_unreachable roots) t in
  (∀ id, content_blobs t' !! id = if reachable t roots id then content_blobs t !! id else None) ∧
  (∃ n, purge_unreachable roots t = (t', Ok n) ∧ size (content_blobs t) = size (content_blobs t') + n) ∧
  ∀ id, id ∈ roots ∨ content_blobs t !! id = None → get cap depth t' id = get cap depth t id.
Proof.
  cbv zeta. split; [apply purged_row|]. split.
  - eexists. split; [apply purge_rows|]. unfold run. rewrite purge_rows. cbn [fst content_blobs with_blobs].
    rewrite <- (map_filter_union_complement (λ e, reachable t roots e.1 = true) (content_blobs t)) at 1.
    rewrite map_size_disj_union by apply map_disjoint_filter_complement. f_equal. f_equal.
    apply map_filter_ext. intros i x _. simpl. by destruct (reachable t roots i).
  - intros id Hid. apply purge_keeps_get. destruct Hid as [Hid|?]; [left|by right].
    unfold reachable. by rewrite bool_decide_true.
Qed.

(** The tables after a sequence of operations. *)
Definition after (ops : list op) : Tables := foldl (λ t o, perform o t) empty_tables ops.

Lemma after_property P ops more : store_property P → P (after ops) → P (after (ops ++ more)).
Proof.
  intros HP H0. unfold after. rewrite foldl_app. fold (after ops). revert H0. generalize (after ops).
  induction more as [|o more IH]; intros t Ht; [done|]. simpl. apply IH. by apply perform_keeps.
Qed.

(** After any sequence of operations the rows of the ledger are numbered from one
    and chained by their digests from the genesis, and whatever operations follow, the
    ledger only grows at its end: an erasure that was recorded stays recorded with its
    length. *)
Theorem erasures_stay_recorded ops more :
  ledger_ok (after ops) ∧
  content_ledger (after ops) `prefix_of` content_ledger (after (ops ++ more)) ∧
  (∀ id n, erased_byte_len (after ops) id = Some n → erased_byte_len (after (ops ++ more)) id = Some n).
Proof.
  assert (content_ledger (after ops) `prefix_of` content_ledger (after (ops ++ more))) as Hpre.
  { apply (after_property (recorded (content_ledger (after ops)))); [apply recorded_property|]. by exists []; rewrite app_nil_r. }
  split_and!; [|done|].
  - apply (after_property ledger_ok [] ops); [apply ledger_ok_property|]. by intros [|i] r.
  - destruct Hpre as [l Hl]. intros id n. unfold erased_byte_len. rewrite Hl, omap_app.
    by destruct (omap _ (content_ledger (after ops))).
Qed.
End records.

(** ** Losses *)

(** The store of [texts], then operations on it, for a digest that is injective on short
    texts. *)
Definition tagged_run (texts : list string) (ops : list op) : Tables :=
  foldl (λ t o, perform (H := tag_sha) o t) (stored texts) ops.

Definition tagged_get (t : Tables) (s : string) := get 1000 3 t (root_of_text s).

(** Packing is not transparent on every history.  Three texts share chunks; the
    pack of the second root and then of the first leaves the last chunk of the first
    root in a pack of its own, whose name is the chunk's; packing the third root, which
    has that chunk, then deletes the row of that pack, and the contents of the first and
    of the third root are lost while the store reports both as live. *)
Theorem repacking_loses_contents :
  let texts := ["abcdefgh"; "abcdWXYZ"; "efghIJKL"] in
  let t := tagged_run texts [OPack (root_of_text "abcdWXYZ"); OPack (root_of_text "abcdefgh")] in
  let t' := perform (H := tag_sha) (OPack (root_of_text "efghIJKL")) t in
  tagged_get t "abcdefgh" = Some (Ok (Some (bytes_of "abcdefgh"))) ∧
  tagged_get t "efghIJKL" = Some (Ok (Some (bytes_of "efghIJKL"))) ∧
  tagged_get t' "abcdefgh" = Some (Ok None) ∧ tagged_get t' "efghIJKL" = Some (Ok None) ∧
  status t' (root_of_text "abcdefgh") = Live 8 ∧ status t' (root_of_text "efghIJKL") = Live 8.
Proof. vm_compute. done. Qed.

(** Erasing one root can lose the content of another live root.  The two roots share
    their first chunk; once the second chunk of the first root is erased, its pack holds
    the shared chunk alone and bears its name, and the erasure of the first root, which
    dissolves the pack, deletes the row it has just restored. *)
Theorem erasure_loses_shared_chunk :
  let t := tagged_run ["abcdefgh"; "abcdWXYZ"] [OErase "#efgh" "now"; OPack (root_of_text "abcdefgh")] in
  let t' := perform (H := tag_sha) (OErase (root_of_text "abcdefgh") "later") t in
  needed_elsewhere t (root_of_text "abcdefgh") "#abcd" = true ∧
  tagged_get t "abcdWXYZ" = Some (Ok (Some (bytes_of "abcdWXYZ"))) ∧
  tagged_get t' "abcdWXYZ" = Some (Ok None) ∧ status t' (root_of_text "abcdWXYZ") = Live 8.
Proof. vm_compute. done. Qed.

(** ** Witnesses *)

(** A digest of 64 characters: the value of the text in base 257, modulo a power of
    two. *)
Definition sized_sha : Sha256 := λ s,
  String.substring 0 64 (pretty (foldl (λ h c, (h * 257 + N_of_ascii c + 1) mod 2 ^ 64)%N 0%N (String.list_ascii_of_string s))
    +:+ text (replicate 64 "0"%char)).

Lemma sized_sha_length s : String.length (sha256_hex (Sha256 := sized_sha) s) = 64.
Proof.
  unfold sha256_hex, sized_sha. apply substring_length. rewrite !string_app_length.
  assert (String.length (text (replicate 64 "0"%char)) = 64) as -> by reflexivity. lia.
Qed.

Definition listed (l : list (list ascii)) (b : list ascii) : Prop := b ∈ l.

Lemma listed_free `{Sha256} l : NoDup (blob_id <$> l) → ∀ a b, listed l a → listed l b → blob_id a = blob_id b → a = b.
Proof.
  intros Hnd a b [i Hi]%list_elem_of_lookup [j Hj]%list_elem_of_lookup Heq.
  assert (i = j) as ->; [|congruence]. eapply NoDup_lookup; [exact Hnd|rewrite list_lookup_fmap, Hi; done|].
  rewrite list_lookup_fmap, Hj. simpl. by rewrite Heq.
Qed.

Lemma listed_small l : forallb (λ a, length a <=? 1000) l = true → ∀ a, listed l a → (Z.of_nat (length a) < 2 ^ 63)%Z.
Proof.
  intros Hl a Ha. rewrite forallb_forall in Hl. specialize (Hl a ltac:(by apply list_elem_of_In)).
  apply Nat.leb_le in Hl. lia.
Qed.

Definition two_texts : list op :=
  [OPutChunked (bytes_of "abcdefgh") tiny; OPutChunked (bytes_of "abcdWXYZ") tiny].

Definition tree_of_text (s : string) : ChunkTree :=
  default (mkTree "" []) (chunk_str (H := sized_sha) (bytes_of s) tiny).

Definition sized_root (s : string) : string := root_hash (tree_of_text s).

Definition two_contents : list (list ascii) :=
  [ bytes_of "abcd"; bytes_of "efgh"; bytes_of "WXYZ"; bytes_of "abcdefgh";
    root_text (chunk_hash <$> tree_chunks (tree_of_text "abcdefgh"));
    root_text (chunk_hash <$> tree_chunks (tree_of_text "abcdWXYZ")) ].

Definition sized_after (ops : list op) : Tables := after (H := sized_sha) ops.

Definition packed_ops : list op := two_texts ++ [OPack (sized_root "abcdefgh")].

Lemma two_free a b :
  listed two_contents a → listed two_contents b → blob_id (H := sized_sha) a = blob_id (H := sized_sha) b → a = b.
Proof. apply listed_free. apply (bool_decide_unpack (NoDup _)). vm_compute. exact I. Qed.

Lemma two_small a : listed two_contents a → (Z.of_nat (length a) < 2 ^ 63)%Z.
Proof. apply listed_small. vm_compute. reflexivity. Qed.

Lemma history_two : history (H := sized_sha) (listed two_contents) (sized_after two_texts).
Proof.
  unfold sized_after, after, two_texts. cbn [foldl].
  repeat (apply history_step; [|by split; apply Nat.leb_le|
    apply (bool_decide_unpack (Forall (λ b, b ∈ two_contents) _)); vm_compute; exact I]).
  apply history_empty.
Qed.

Lemma history_packed : history (H := sized_sha) (listed two_contents) (sized_after packed_ops).
Proof.
  apply history_step; [apply history_two|done|].
  apply (bool_decide_unpack (Forall (λ b, b ∈ two_contents) _)); vm_compute; exact I.
Qed.

(** No chunk of a root is a root, so that no root lists itself. *)
Lemma plain_chunks t :
  bool_decide (map_Forall (λ _ chunks, Forall (λ c, content_refs t !! c = None) chunks) (content_refs t)) = true → ∀ r, ¬ tc (lists t) r r.
Proof.
  intros Hm%bool_decide_eq_true r Hr.
  assert (∀ a b, lists t a b → content_refs t !! b = None) as Hleaf.
  { intros a b (chunks & Ha & Hb). specialize (Hm a chunks Ha). simpl in Hm. rewrite Forall_forall in Hm. by apply Hm. }
  assert (is_Some (content_refs t !! r)) as [x Hx] by (inversion Hr as [? ? (c & ? & ?)|? ? ? (c & ? & ?)]; eauto).
  assert (content_refs t !! r = None); [|congruence].
  clear Hx. remember r as r' eqn:Heq in Hr at 1. clear Heq. induction Hr as [a b Hab|a b c _ _ IH]; eauto.
Qed.

Lemma reads_authentic_witness :
  denotes (H := sized_sha) (sized_root "abcdefgh") (bytes_of "abcdefgh") ∧
  ∃ answer, get 100 3 (sized_after packed_ops) (sized_root "abcdefgh") = Some answer.
Proof.
  split.
  - apply (reads_authentic (H := sized_sha) 100 (listed two_contents) two_free two_small sized_sha_length
      2 (sized_after packed_ops) (sized_root "abcdefgh") history_packed).
    vm_compute. reflexivity.
  - apply (reads_authentic (H := sized_sha) 100 (listed two_contents) two_free two_small sized_sha_length
      3 (sized_after packed_ops) (sized_root "abcdefgh") history_packed).
    + apply plain_chunks. vm_compute. reflexivity.
    + apply Nat.ltb_lt. vm_compute. reflexivity.
Defined.

Lemma stored_reads_back_witness :
  get 100 2 (perform (H := sized_sha) (OPutChunked (bytes_of "abcdWXYZ") tiny)
    (sized_after [OPutChunked (bytes_of "abcdefgh") tiny])) (sized_root "abcdWXYZ") = Some (Ok (Some (bytes_of "abcdWXYZ"))).
Proof.
  assert (history (H := sized_sha) (listed two_contents) (sized_after [OPutChunked (bytes_of "abcdefgh") tiny])) as Hh.
  { apply history_step; [apply history_empty|by split; apply Nat.leb_le|].
    apply (bool_decide_unpack (Forall (λ b, b ∈ two_contents) _)); vm_compute; exact I. }
  destruct (stored_reads_back (H := sized_sha) 100 (listed two_contents) two_free two_small sized_sha_length 0
    (sized_after [OPutChunked (bytes_of "abcdefgh") tiny]) Hh) as [_ Hb].
  refine (Hb (bytes_of "abcdWXYZ") tiny (tree_of_text "abcdWXYZ") _ _ _ _ _ _ _ _).
  - by split; apply Nat.leb_le.
  - vm_compute. reflexivity.
  - apply (bool_decide_unpack (Forall (λ b, b ∈ two_contents) _)); vm_compute; exact I.
  - vm_compute. reflexivity.
  - vm_compute. reflexivity.
  - vm_compute. reflexivity.
  - apply (bool_decide_unpack (_ ∉ _)). vm_compute. exact I.
  - apply Z.leb_le. vm_compute. reflexivity.
Defined.

Lemma packs_apart_check t :
  bool_decide (map_Forall (λ _ e, map_Forall (λ _ chunks, pe_pack e ∉ chunks) (content_refs t)) (content_packs t)) = true →
  packs_apart t.
Proof. intros Hm%bool_decide_eq_true c e r chunks He Hr. by apply (Hm c e He r chunks). Qed.

Lemma packs_present_check t :
  bool_decide (map_Forall (λ _ e, is_Some (content_blobs t !! pe_pack e)) (content_packs t)) = true → packs_present t.
Proof. intros Hm%bool_decide_eq_true c e He. by apply (Hm c e He). Qed.

Abbreviation chunk_id s := (blob_id (H := sized_sha) (bytes_of s)).

(** After the erasure of the other root, nothing else lists the shared chunk. *)
Definition lone_ops : list op := packed_ops ++ [OErase (sized_root "abcdWXYZ") "before"].

Lemma history_lone : history (H := sized_sha) (listed two_contents) (sized_after lone_ops).
Proof.
  unfold sized_after, after, lone_ops. rewrite foldl_app. apply history_step; [apply history_packed|done|].
  apply (bool_decide_unpack (Forall (λ b, b ∈ two_contents) _)); vm_compute; exact I.
Qed.

Lemma root_erasure_exact_witness :
  (∃ t', erase (H := sized_sha) (sized_root "abcdefgh") "now" (sized_after packed_ops) = (t', Ok (ErasedNow 8)) ∧
    content_blobs t' !! chunk_id "efgh" = None ∧ held t' (chunk_id "abcd") (bytes_of "abcd")) ∧
  (∃ t', erase (H := sized_sha) (sized_root "abcdefgh") "now" (sized_after lone_ops) = (t', Ok (ErasedNow 8)) ∧
    is_Some (content_blobs (sized_after lone_ops) !! chunk_id "abcd") ∧ content_blobs t' !! chunk_id "abcd" = None).
Proof.
  assert (∀ t c, needed_elsewhere t (sized_root "abcdefgh") c = false → ¬ shared_live t (sized_root "abcdefgh") c) as Hfree.
  { intros t c Hn Hs%needed_shared. congruence. }
  split.
  - destruct (root_erasure_exact (H := sized_sha) 100 (listed two_contents) two_free two_small sized_sha_length
      (sized_after packed_ops) (sized_root "abcdefgh") "now"
      (mkRootInfo (sized_root "abcdefgh") 8 [chunk_id "abcd"; chunk_id "efgh"] false) history_packed)
      as (t' & r & Hrun & _ & _ & _ & Hgone & _ & Hkept); [vm_compute; reflexivity|reflexivity|].
    exists t'. split; [exact Hrun|]. split.
    + apply Hgone; [right; left|apply Hfree; vm_compute; reflexivity].
    + apply Hkept; [apply packs_apart_check; vm_compute; reflexivity|apply needed_shared; vm_compute; reflexivity|].
      right. split; vm_compute; reflexivity.
  - destruct (root_erasure_exact (H := sized_sha) 100 (listed two_contents) two_free two_small sized_sha_length
      (sized_after lone_ops) (sized_root "abcdefgh") "now"
      (mkRootInfo (sized_root "abcdefgh") 8 [chunk_id "abcd"; chunk_id "efgh"] false) history_lone)
      as (t' & r & Hrun & _ & _ & _ & Hgone & _); [vm_compute; reflexivity|reflexivity|].
    exists t'. split; [exact Hrun|]. split; [vm_compute; eauto|]. apply Hgone; [left|apply Hfree; vm_compute; reflexivity].
Defined.

Lemma blob_erasure_exact_witness :
  ∃ t', erase (H := sized_sha) (chunk_id "abcd") "now" (sized_after packed_ops) = (t', Ok (ErasedNow 4)) ∧
    get 100 1 t' (chunk_id "abcd") = Some (Ok None).
Proof.
  destruct (blob_erasure_exact (H := sized_sha) 100 (listed two_contents) two_free two_small sized_sha_length
    (sized_after packed_ops) (chunk_id "abcd") "now" history_packed) as (t' & out & Hrun & Hget & Hheld & _);
    [vm_compute; reflexivity|].
  exists t'. split; [|apply Hget]. destruct (Hheld (bytes_of "abcd")) as [Hout _].
  - right. split; vm_compute; reflexivity.
  - intros e He. vm_compute in He. injection He as <-. vm_compute. discriminate.
  - rewrite Hout in Hrun. exact Hrun.
Defined.

Lemma packing_transparent_witness :
  ∃ t' n, pack_root (H := sized_sha) (sized_root "abcdWXYZ") (sized_after (two_texts ++ [OPack (sized_root "abcdefgh")])) = (t', Ok n) ∧
    get 100 2 t' (sized_root "abcdWXYZ") = Some (Ok (Some (bytes_of "abcdWXYZ"))).
Proof.
  destruct (packing_transparent (H := sized_sha) 100 (listed two_contents) two_free two_small sized_sha_length
    (sized_after packed_ops) (sized_root "abcdWXYZ") history_packed) as (t' & n & Hrun & Hget).
  - apply (bool_decide_unpack (Forall (λ b, b ∈ two_contents) _)); vm_compute; exact I.
  - apply packs_apart_check. vm_compute. reflexivity.
  - apply packs_present_check. vm_compute. reflexivity.
  - vm_compute. reflexivity.
  - exists t', n. split; [exact Hrun|]. apply Hget. vm_compute. reflexivity.
Defined.

Lemma live_root_fails_availability_witness :
  cached_read_available (H := sized_sha) 100 2
    (perform (H := sized_sha) (OPutChunked (bytes_of "abcdefgh") tiny) empty_tables) (sized_root "abcdefgh")
  = Some (Err (ContentMismatch (sized_root "abcdefgh") (chunk_id "abcdefgh"))).
Proof.
  refine (proj2 (live_root_fails_availability (H := sized_sha) 100 (listed two_contents) two_free two_small sized_sha_length 0
    empty_tables (bytes_of "abcdefgh") tiny (tree_of_text "abcdefgh") (history_empty _) _ _ _ _ _ _ _ _ _ _)).
  - by split; apply Nat.leb_le.
  - vm_compute. reflexivity.
  - vm_compute. reflexivity.
  - apply (bool_decide_unpack (Forall (λ b, b ∈ two_contents) _)); vm_compute; exact I.
  - apply (bool_decide_unpack (_ ∈ two_contents)). vm_compute. exact I.
  - vm_compute. reflexivity.
  - vm_compute. reflexivity.
  - vm_compute. reflexivity.
  - apply (bool_decide_unpack (_ ∉ _)). vm_compute. exact I.
  - apply Z.leb_le. vm_compute. reflexivity.
Defined.
