(* ===== verification/Diff.v ===== *)
(** The review diff (store/diff.rs): Myers' greedy search for an edit script between the
    lines of two texts, the grouping of a script into hunks, the unified rendering, and
    the diff of two manifests.

    [isize] values are [Z]: the number of lines of two texts in memory is far from its
    bounds.  An index into a vector answers an option, [None] where the code would
    panic.  The loops run on fuel and answer [None] when it runs out; the theorems show
    that neither happens. *)
From stdpp Require Import pretty.
From S2P Require Import Prelude RustStr.

(** ** Data *)

Inductive DiffKind := KAdded | KRemoved | KModified.
Inductive LineTag := TContext | TRemoved | TAdded.

Record DiffLine := mkLine { tag : LineTag; line_text : string }.

Record DiffHunk := mkHunk {
  base_start : nat;
  base_len : nat;
  target_start : nat;
  target_len : nat;
  hunk_lines : list DiffLine;
}.

Record DiffEntry := mkEntry {
  entry_path : string;
  entry_kind : DiffKind;
  base_hash : option string;
  target_hash : option string;
  hunks : list DiffHunk;
  payload_unavailable : bool;
  binary : bool;
}.

(** What a content identity reads as ([TextBlob] of content.rs). *)
Inductive TextBlob := Missing | Text (text : string) | Binary (byte_len : Z).

Definition text_of (b : TextBlob) : option string := match b with Text s => Some s | _ => None end.

Inductive Edit := Keep (s : string) | Remove (s : string) | Add (s : string).
#[export] Instance edit_eq_dec : EqDecision Edit.
Proof. solve_decision. Defined.

(** ** Lines *)

(** [line.strip_suffix('\r')]. *)
Fixpoint strip_cr (s : string) : string :=
  match s with
  | EmptyString => ""
  | String c EmptyString => if Ascii.eqb c "013" then "" else s
  | String c s' => String c (strip_cr s')
  end.

(** [s.lines()]: the pieces before each line feed, less a carriage return at their end,
    and what follows the last line feed when it is not empty. *)
Definition lines (s : string) : list string :=
  match last (split_char "010" s) with
  | Some l =>
      (strip_cr <$> removelast (split_char "010" s)) ++ (if bool_decide (l = ""%string) then [] else [l])
  | None => []
  end.

(** ** Myers' search *)

(** [l[z as usize]]. *)
Definition index {A} (l : list A) (z : Z) : option A := if (z <? 0)%Z then None else l !! Z.to_nat z.

(** [l[z as usize] = x]. *)
Definition store {A} (l : list A) (z : Z) (x : A) : option (list A) :=
  if (z <? 0)%Z then None else if Z.to_nat z <? length l then Some (<[ Z.to_nat z := x ]> l) else None.

(** [l[i as usize..=j as usize].to_vec()]. *)
Definition copy_range {A} (l : list A) (i j : Z) : option (list A) :=
  if (i <? 0)%Z || (j <? i - 1)%Z || (Z.of_nat (length l) <=? j)%Z then None
  else Some (take (Z.to_nat (j + 1 - i)) (drop (Z.to_nat i) l)).

Section myers.
Context (a b : list string).
Let n : Z := Z.of_nat (length a).
Let m : Z := Z.of_nat (length b).

(** [while x < n && y < m && a[x] == b[y] { x += 1; y += 1 }]. *)
Fixpoint snake (fuel : nat) (x y : Z) : option (Z * Z) :=
  if (x <? n)%Z && (y <? m)%Z then
    la ← index a x;
    lb ← index b y;
    if bool_decide (la = lb) then
      match fuel with 0 => None | S fuel' => snake fuel' (x + 1) (y + 1) end
    else Some (x, y)
  else Some (x, y).

(** [k == -d || (k != d && v[idx - 1] < v[idx + 1])] with [idx = k + center]. *)
Definition goes_down (v : list Z) (center d k : Z) : option bool :=
  if (k =? - d)%Z then Some true
  else if (k =? d)%Z then Some false
  else
    l ← index v (k + center - 1);
    r ← index v (k + center + 1);
    Some (l <? r)%Z.

(** The loop over the diagonals of round [d]; the flag says that it left the outer
    loop. *)
Fixpoint round (fuel : nat) (offset d k : Z) (v : list Z) : option (list Z * bool) :=
  if (k <=? d)%Z then
    match fuel with
    | 0 => None
    | S fuel' =>
        down ← goes_down v offset d k;
        x0 ← (if down : bool then index v (k + offset + 1) else Z.succ <$> index v (k + offset - 1));
        '(x, y) ← snake (length a) x0 (x0 - k);
        v' ← store v (k + offset) x;
        if (n <=? x)%Z && (m <=? y)%Z then Some (v', true) else round fuel' offset d (k + 2) v'
    end
  else Some (v, false).

(** [for d in 0..=max]. *)
Fixpoint search (fuel : nat) (offset d : Z) (v : list Z) (trace : list (list Z)) : option (list (list Z)) :=
  if (d <=? n + m)%Z then
    match fuel with
    | 0 => None
    | S fuel' =>
        band ← copy_range v (offset - d) (offset + d);
        '(v', left_loop) ← round (S (Z.to_nat d)) offset d (- d) v;
        if left_loop : bool then Some (trace ++ [band]) else search fuel' offset (d + 1) v' (trace ++ [band])
    end
  else Some trace.

(** [while x > px && y > py { x -= 1; y -= 1; edits.push(Edit::Keep(a[x])) }].  The
    script is kept in the order that the final [reverse] gives it. *)
Fixpoint unsnake (fuel : nat) (x y px py : Z) (edits : list Edit) : option (Z * Z * list Edit) :=
  if (px <? x)%Z && (py <? y)%Z then
    match fuel with
    | 0 => None
    | S fuel' => l ← index a (x - 1); unsnake fuel' (x - 1) (y - 1) px py (Keep l :: edits)
    end
  else Some (x, y, edits).

(** [for d in (1..trace.len()).rev()], from round [d]. *)
Fixpoint backtrack (trace : list (list Z)) (d : nat) (x y : Z) (edits : list Edit) : option (Z * Z * list Edit) :=
  match d with
  | 0 => Some (x, y, edits)
  | S d' =>
      band ← trace !! d;
      let k := (x - y)%Z in
      let d_i := Z.of_nat d in
      down ← goes_down band d_i d_i k;
      let prev_k := (if down : bool then k + 1 else k - 1)%Z in
      prev_x ← index band (prev_k + d_i);
      let prev_y := (prev_x - prev_k)%Z in
      '(_, _, edits) ← unsnake (length a) x y prev_x prev_y edits;
      e ← (if (prev_k =? k + 1)%Z then Add <$> index b prev_y else Remove <$> index a prev_x);
      backtrack trace d' prev_x prev_y (e :: edits)
  end.

Definition myers_diff : option (list Edit) :=
  match a, b with
  | [], [] => Some []
  | [], _ => Some (Add <$> b)
  | _, [] => Some (Remove <$> a)
  | _, _ =>
      let offset := (n + m)%Z in
      trace ← search (S (length a + length b)) offset 0 (replicate (Z.to_nat (2 * offset + 1)) 0%Z) [];
      '(x, y, edits) ← backtrack trace (length trace - 1) n m [];
      '(_, _, edits) ← unsnake (length a) x y 0 0 edits;
      Some edits
  end.
End myers.

(** ** Hunks *)

Definition is_keep (e : Edit) : bool := match e with Keep _ => true | _ => false end.

(** The positions of the changes. *)
Definition change_positions (script : list Edit) : list nat :=
  (filter (λ p : nat * Edit, is_keep p.2 = false) (imap pair script)).*1.

(** One turn of the loop that merges the windows of the changes. *)
Definition add_window (len context : nat) (ranges : list (nat * nat)) (position : nat) : list (nat * nat) :=
  let start := position - context in
  let stop := (position + context + 1) `min` len in
  match last ranges with
  | Some (s, last_end) =>
      if start <=? last_end then removelast ranges ++ [(s, stop)] else ranges ++ [(start, stop)]
  | None => ranges ++ [(start, stop)]
  end.

Definition hunk_ranges (script : list Edit) (context : nat) : list (nat * nat) :=
  foldl (add_window (length script) context) [] (change_positions script).

(** The lines of a side that an edit consumes. *)
Definition old_of (e : Edit) : option string := match e with Keep s | Remove s => Some s | Add _ => None end.
Definition new_of (e : Edit) : option string := match e with Keep s | Add s => Some s | Remove _ => None end.

(** [base_line] and [target_line] after the edits of a part of the script. *)
Definition advance_base (line : nat) (part : list Edit) : nat :=
  foldl (λ n e, match e with Keep _ | Remove _ => n + 1 | Add _ => n end) line part.
Definition advance_target (line : nat) (part : list Edit) : nat :=
  foldl (λ n e, match e with Keep _ | Add _ => n + 1 | Remove _ => n end) line part.

Definition diff_line (e : Edit) : DiffLine :=
  match e with
  | Keep s => mkLine TContext s
  | Remove s => mkLine TRemoved s
  | Add s => mkLine TAdded s
  end.

Fixpoint walk_ranges (script : list Edit) (cursor base_line target_line : nat) (ranges : list (nat * nat))
    : list DiffHunk :=
  match ranges with
  | [] => []
  | (start, stop) :: rest =>
      let skipped := part script cursor start in
      let base_start := advance_base base_line skipped in
      let target_start := advance_target target_line skipped in
      let cursor := cursor `max` start in
      let shown := part script cursor stop in
      let base_line := advance_base base_start shown in
      let target_line := advance_target target_start shown in
      mkHunk base_start (base_line - base_start) target_start (target_line - target_start) (diff_line <$> shown)
        :: walk_ranges script (cursor `max` stop) base_line target_line rest
  end.

Definition build_hunks (script : list Edit) (context : nat) : list DiffHunk :=
  walk_ranges script 0 1 1 (hunk_ranges script context).

Definition hunks_between (base target : string) (context : nat) : option (list DiffHunk) :=
  (λ script, build_hunks script context) <$> myers_diff (lines base) (lines target).

(** ** Rendering *)

Section rendering.
Local Open Scope string_scope.
Definition newline : string := String "010" "".

Definition sigil (t : LineTag) : string := match t with TContext => " " | TRemoved => "-" | TAdded => "+" end.

Definition render_hunk (h : DiffHunk) : string :=
  "@@ -" +:+ pretty (base_start h) +:+ "," +:+ pretty (base_len h) +:+ " +" +:+ pretty (target_start h) +:+ "," +:+
  pretty (target_len h) +:+ " @@" +:+ newline +:+
  String.concat "" ((λ l, sigil (tag l) +:+ line_text l +:+ newline) <$> hunk_lines h).

Definition to_unified (e : DiffEntry) : string :=
  let '(from, to) := match entry_kind e with
    | KAdded => ("/dev/null", "b/" +:+ entry_path e)
    | KRemoved => ("a/" +:+ entry_path e, "/dev/null")
    | KModified => ("a/" +:+ entry_path e, "b/" +:+ entry_path e)
    end in
  "--- " +:+ from +:+ newline +:+ "+++ " +:+ to +:+ newline +:+
  (if payload_unavailable e then "(payload unavailable: hashes only)" +:+ newline
   else if binary e then "(binary file; content changed)" +:+ newline
   else String.concat "" (render_hunk <$> hunks e)).
End rendering.

(** ** Manifests *)

Section manifests.
Context {E : Type} (get_text : string → result E TextBlob).

Definition is_missing (b : TextBlob) : bool := match b with Missing => true | _ => false end.
Definition is_binary (b : TextBlob) : bool := match b with Binary _ => true | _ => false end.

(** The entry of one path; [None] when the script of its texts is not found. *)
Definition diff_bodies (context : nat) (path : string) (kind : DiffKind) (base target : option string)
    (base_body target_body : TextBlob) : option DiffEntry :=
  let unavailable := (bool_decide (is_Some base) && is_missing base_body)
                     || (bool_decide (is_Some target) && is_missing target_body) in
  let bin := is_binary base_body || is_binary target_body in
  hs ← (if unavailable || bin then Some []
        else hunks_between (default ""%string (text_of base_body)) (default ""%string (text_of target_body)) context);
  Some (mkEntry path kind base target hs unavailable bin).

Definition diff_path (base target : gmap string string) (context : nat) (path : string)
    : option (result E (option DiffEntry)) :=
  let entry kind bh th rb rt :=
    match (b ← rb; t ← rt; Ok (b, t)) with
    | Err e => Some (Err e)
    | Ok (b, t) => (λ e, Ok (Some e)) <$> diff_bodies context path kind bh th b t
    end in
  match base !! path, target !! path with
  | None, None => Some (Ok None)
  | None, Some t => entry KAdded None (Some t) (Ok Missing) (get_text t)
  | Some b, None => entry KRemoved (Some b) None (get_text b) (Ok Missing)
  | Some b, Some t =>
      if bool_decide (b = t) then Some (Ok None)
      else entry KModified (Some b) (Some t) (get_text b) (get_text t)
  end.

Fixpoint diff_paths (base target : gmap string string) (context : nat) (paths : list string)
    : option (result E (list DiffEntry)) :=
  match paths with
  | [] => Some (Ok [])
  | p :: rest =>
      match diff_path base target context p with
      | None => None
      | Some (Err e) => Some (Err e)
      | Some (Ok entry) =>
          (λ r : result E (list DiffEntry), (λ l, (match entry with Some e => e :: l | None => l end)) <$> r)
            <$> diff_paths base target context rest
      end
  end.

Definition diff_manifests (base target : gmap string string) (context : nat)
    : option (result E (list DiffEntry)) :=
  diff_paths base target context (set_keys (dom base ∪ dom target)).
End manifests.

(** ** Examples *)

Example lines_ends : lines (bytes [97; 13; 10; 10; 98; 13])%N = ["a"; ""; bytes [98; 13]%N].
Proof. reflexivity. Qed.

Example myers_abc :
  myers_diff ["a"; "b"; "c"; "a"; "b"; "b"; "a"] ["c"; "b"; "a"; "b"; "a"; "c"]
  = Some [Remove "a"; Remove "b"; Keep "c"; Add "b"; Keep "a"; Keep "b"; Remove "b"; Keep "a"; Add "c"].
Proof. vm_compute. reflexivity. Qed.

(** ** The edit graph *)

Section graph.
Context (a b : list string).
Abbreviation n := (Z.of_nat (length a)).
Abbreviation m := (Z.of_nat (length b)).

(** [path d x y script]: the script leads from the origin to line [x] of [a] and line
    [y] of [b] with [d] changes. *)
Inductive path : nat → Z → Z → list Edit → Prop :=
| path_nil : path 0 0 0 []
| path_keep d x y s l :
    path d x y s → index a x = Some l → index b y = Some l → path d (x + 1) (y + 1) (s ++ [Keep l])
| path_remove d x y s l :
    path d x y s → index a x = Some l → path (S d) (x + 1) y (s ++ [Remove l])
| path_add d x y s l :
    path d x y s → index b y = Some l → path (S d) x (y + 1) (s ++ [Add l]).

Fixpoint common (l l' : list string) : nat :=
  match l, l' with
  | x :: l, y :: l' => if bool_decide (x = y) then S (common l l') else 0
  | _, _ => 0
  end.

(** How far the shared lines reach from [(x, x - k)]. *)
Definition extend (k x : Z) : Z :=
  (x + Z.of_nat (common (drop (Z.to_nat x) a) (drop (Z.to_nat (x - k)) b)))%Z.

(** The furthest [x] on diagonal [k] after round [d]. *)
Definition moves_down (f : Z → Z) (d k : Z) : bool :=
  (k =? - d)%Z || negb (k =? d)%Z && (f (k - 1) <? f (k + 1))%Z.

Definition first_step (f : Z → Z) (d k : Z) : Z :=
  if moves_down f d k then f (k + 1)%Z else (f (k - 1) + 1)%Z.

Fixpoint furthest (d : nat) : Z → Z :=
  match d with
  | 0 => λ k, extend k 0
  | S d' => λ k, extend k (first_step (furthest d') (Z.of_nat d) k)
  end.

(** The diagonals of a round. *)
Definition diagonal (d : nat) (k : Z) : Prop :=
  ∃ i, (i ≤ d)%nat ∧ k = (2 * Z.of_nat i - Z.of_nat d)%Z.

Local Open Scope Z_scope.

Lemma index_Some {A} (l : list A) z x : index l z = Some x ↔ (0 ≤ z)%Z ∧ l !! Z.to_nat z = Some x.
Proof. unfold index. destruct (Z.ltb_spec z 0); [split; [done|lia]|]. split; [auto|tauto]. Qed.

Lemma index_lt {A} (l : list A) z x : index l z = Some x → (0 ≤ z < Z.of_nat (length l))%Z.
Proof. intros [? ?%lookup_lt_Some]%index_Some. lia. Qed.

Lemma index_is_Some {A} (l : list A) z : (0 ≤ z < Z.of_nat (length l))%Z → is_Some (index l z).
Proof.
  intros Hz. unfold index. destruct (Z.ltb_spec z 0); [lia|]. apply lookup_lt_is_Some. lia.
Qed.

Lemma drop_index {A} (l : list A) z x : index l z = Some x → drop (Z.to_nat z) l = x :: drop (Z.to_nat (z + 1)) l.
Proof.
  intros [Hz Hx]%index_Some. rewrite (drop_S l x) by done. by replace (Z.to_nat (z + 1)) with (S (Z.to_nat z)) by lia.
Qed.

Lemma drop_beyond {A} (l : list A) z : (Z.of_nat (length l) ≤ z)%Z → drop (Z.to_nat z) l = [].
Proof. intros Hz. apply drop_ge. lia. Qed.

(** *** The shared lines *)

Lemma extend_match k x l : index a x = Some l → index b (x - k) = Some l → extend k x = extend k (x + 1).
Proof.
  intros Ha Hb. unfold extend. rewrite (drop_index a x l Ha), (drop_index b (x - k) l Hb). cbn [common].
  rewrite bool_decide_true by done. replace (x + 1 - k)%Z with (x - k + 1)%Z by lia. lia.
Qed.

Lemma extend_stop k x :
  (0 ≤ x)%Z → (0 ≤ x - k)%Z →
  (∀ l, ¬ (index a x = Some l ∧ index b (x - k) = Some l)) → extend k x = x.
Proof.
  intros Hx Hy Hno. unfold extend. destruct (index a x) as [la|] eqn:Ha.
  - destruct (index b (x - k)) as [lb|] eqn:Hb.
    + rewrite (drop_index a x la Ha), (drop_index b _ lb Hb). cbn [common].
      rewrite bool_decide_false by (intros ->; by apply (Hno lb)). lia.
    + rewrite (drop_beyond b (x - k)); [destruct (drop _ a); simpl; lia|].
      apply Z.nlt_ge. intros Hlt. destruct (index_is_Some b (x - k)) as [? ?]; [lia|congruence].
  - rewrite (drop_beyond a x); [simpl; lia|]. apply Z.nlt_ge. intros Hlt.
    destruct (index_is_Some a x) as [? ?]; [lia|congruence].
Qed.

(** Induction along the shared lines. *)
Lemma extend_ind (P : Z → Z → Prop) k :
  (∀ x, (0 ≤ x)%Z → (0 ≤ x - k)%Z → (∀ l, ¬ (index a x = Some l ∧ index b (x - k) = Some l)) → P x x) →
  (∀ x x' l, (0 ≤ x)%Z → (0 ≤ x - k)%Z → index a x = Some l → index b (x - k) = Some l → P (x + 1) x' → P x x') →
  ∀ x, (0 ≤ x)%Z → (0 ≤ x - k)%Z → P x (extend k x).
Proof.
  intros Hstop Hstep x. remember (Z.to_nat (n - x)) as g eqn:Hg. revert x Hg.
  induction g as [g IH] using lt_wf_ind. intros x -> Hx Hy.
  destruct (index a x) as [la|] eqn:Ha; [destruct (index b (x - k)) as [lb|] eqn:Hb|].
  - destruct (decide (la = lb)) as [->|Hne].
    + rewrite (extend_match k x lb Ha Hb). apply (Hstep x _ lb); try done.
      apply index_lt in Ha. apply (IH (Z.to_nat (n - (x + 1)))); lia.
    + rewrite extend_stop by (done || (intros l [? ?]; congruence)). apply Hstop; try done. intros l [? ?]. congruence.
  - rewrite extend_stop by (done || (intros l [? ?]; congruence)). apply Hstop; try done. intros l [? ?]. congruence.
  - rewrite extend_stop by (done || (intros l [? ?]; congruence)). apply Hstop; try done. intros l [? ?]. congruence.
Qed.

Lemma extend_ge k x : (0 ≤ x)%Z → (0 ≤ x - k)%Z → (x ≤ extend k x)%Z.
Proof. unfold extend. lia. Qed.

(** Beyond a side nothing is shared; within both the end is within both. *)
Lemma extend_bounds k x :
  (0 ≤ x)%Z → (0 ≤ x - k)%Z → extend k x = x ∨ (extend k x ≤ n ∧ extend k x - k ≤ m)%Z.
Proof.
  intros Hx Hy. revert x Hx Hy. apply (extend_ind (λ x e, e = x ∨ (e ≤ n ∧ e - k ≤ m)%Z)); [auto|].
  intros x x' l Hx Hy ?%index_lt ?%index_lt [->|?]; right; lia.
Qed.

Lemma snake_extend fuel k x :
  (0 ≤ x)%Z → (0 ≤ x - k)%Z → (n - x ≤ Z.of_nat fuel)%Z →
  snake a b fuel x (x - k) = Some (extend k x, extend k x - k)%Z.
Proof.
  intros Hx Hy. revert x Hx Hy fuel. apply (extend_ind (λ x e, ∀ fuel, (n - x ≤ Z.of_nat fuel)%Z →
    snake a b fuel x (x - k) = Some (e, e - k)%Z)).
  - intros x Hx Hy Hno fuel Hf. destruct fuel as [|fuel]; cbn [snake];
      (destruct (Z.ltb_spec x n); [|done]; destruct (Z.ltb_spec (x - k) m); [|done]; cbn [andb];
       destruct (index_is_Some a x) as [la Ha]; [lia|]; destruct (index_is_Some b (x - k)) as [lb Hb]; [lia|];
       rewrite Ha, Hb; cbn; rewrite bool_decide_false; [done|]; intros ->; by apply (Hno lb)).
  - intros x x' l Hx Hy Ha Hb IH fuel Hf. pose proof (index_lt _ _ _ Ha). pose proof (index_lt _ _ _ Hb).
    destruct fuel as [|fuel]; [lia|]. cbn [snake].
    destruct (Z.ltb_spec x n), (Z.ltb_spec (x - k) m); try lia. cbn [andb]. rewrite Ha, Hb. cbn.
    rewrite bool_decide_true by done. replace (x - k + 1)%Z with (x + 1 - k)%Z by lia. apply IH. lia.
Qed.

(** *** The frontier *)

Lemma diagonal_bounds d k : diagonal d k → - Z.of_nat d ≤ k ≤ Z.of_nat d.
Proof. intros (i & ? & ->). lia. Qed.

Lemma diagonal_up d k : diagonal d k → diagonal (S d) (k + 1).
Proof. intros (i & ? & ->). exists (S i). lia. Qed.

Lemma diagonal_down d k : diagonal d k → diagonal (S d) (k - 1).
Proof. intros (i & ? & ->). exists i. lia. Qed.

Lemma diagonal_shift d k e :
  diagonal d k → - Z.of_nat d ≤ k + 2 * e ≤ Z.of_nat d → diagonal d (k + 2 * e).
Proof. intros (i & ? & ->) ?. exists (Z.to_nat (Z.of_nat i + e)). lia. Qed.

Lemma diagonal_pred d k :
  diagonal (S d) k →
  (k = - Z.of_nat (S d) ∧ diagonal d (k + 1)) ∨ (k = Z.of_nat (S d) ∧ diagonal d (k - 1)) ∨
  (k ≠ - Z.of_nat (S d) ∧ k ≠ Z.of_nat (S d) ∧ diagonal d (k + 1) ∧ diagonal d (k - 1)).
Proof.
  intros (i & Hi & ->). destruct (decide (i = 0%nat)) as [->|Hn0]; [left; split; [lia|exists 0%nat; lia]|].
  destruct (decide (i = S d)) as [->|Hnd]; [right; left; split; [lia|exists d; lia]|].
  right. right. split_and!; [lia|lia|exists i; lia|exists (i - 1)%nat; lia].
Qed.

Abbreviation F := furthest.

(** The first step of a round takes the further of the two neighbours. *)
Lemma first_step_spec f d k :
  diagonal (S d) k →
  let x := first_step f (Z.of_nat (S d)) k in
  ((diagonal d (k + 1) ∧ x = f (k + 1)) ∨ (diagonal d (k - 1) ∧ x = f (k - 1) + 1)) ∧
  (diagonal d (k + 1) → f (k + 1) ≤ x) ∧ (diagonal d (k - 1) → f (k - 1) + 1 ≤ x).
Proof.
  intros Hk. unfold first_step, moves_down.
  destruct (diagonal_pred d k Hk) as [[Heq Hd]|[[Heq Hd]|(Hne & Hne' & Hd & Hd')]]; cbv zeta.
  - rewrite (proj2 (Z.eqb_eq k _) Heq). cbn [orb]. split; [by left|]. split; [lia|].
    intros ?%diagonal_bounds. lia.
  - rewrite (proj2 (Z.eqb_neq k (- Z.of_nat (S d)))) by lia. rewrite (proj2 (Z.eqb_eq k (Z.of_nat (S d))) Heq). cbn [orb negb andb].
    split; [by right|]. split; [|lia]. intros ?%diagonal_bounds. lia.
  - rewrite (proj2 (Z.eqb_neq k (- Z.of_nat (S d)))), (proj2 (Z.eqb_neq k (Z.of_nat (S d)))) by lia. cbn [orb negb andb].
    destruct (Z.ltb_spec (f (k - 1)) (f (k + 1))); (split; [auto|lia]).
Qed.

Lemma furthest_nonneg d k : diagonal d k → 0 ≤ F d k ∧ 0 ≤ F d k - k.
Proof.
  revert k. induction d as [|d IH]; intros k Hk.
  - pose proof (diagonal_bounds _ _ Hk). simpl in *. assert (k = 0) as -> by lia. pose proof (extend_ge 0 0). lia.
  - cbn [F]. destruct (first_step_spec (F d) d k Hk) as [[[Hd ->]|[Hd ->]] _]; specialize (IH _ Hd).
    + pose proof (extend_ge k (F d (k + 1))). lia.
    + pose proof (extend_ge k (F d (k - 1) + 1)). lia.
Qed.

Lemma start_nonneg d k : diagonal (S d) k → let x := first_step (F d) (Z.of_nat (S d)) k in 0 ≤ x ∧ 0 ≤ x - k.
Proof.
  intros Hk. cbv zeta. destruct (first_step_spec (F d) d k Hk) as [[[Hd ->]|[Hd ->]] _]; pose proof (furthest_nonneg d _ Hd); lia.
Qed.

Lemma furthest_step d k :
  diagonal (S d) k →
  (diagonal d (k + 1) → F d (k + 1) ≤ F (S d) k) ∧ (diagonal d (k - 1) → F d (k - 1) + 1 ≤ F (S d) k).
Proof.
  intros Hk. destruct (first_step_spec (F d) d k Hk) as (_ & H1 & H2). destruct (start_nonneg d k Hk) as [Hx Hy].
  pose proof (extend_ge k _ Hx Hy). cbn [F]. split; intros Hd; [specialize (H1 Hd)|specialize (H2 Hd)]; lia.
Qed.

Lemma furthest_right d k : diagonal d k → diagonal (S d) (k + 1) ∧ F d k + 1 ≤ F (S d) (k + 1).
Proof.
  intros Hk. pose proof (diagonal_up d k Hk) as Hk'. split; [done|]. destruct (furthest_step d _ Hk') as [_ H2].
  replace (k + 1 - 1) with k in H2 by lia. by apply H2.
Qed.

Lemma furthest_down d k : diagonal d k → diagonal (S d) (k - 1) ∧ F d k ≤ F (S d) (k - 1).
Proof.
  intros Hk. pose proof (diagonal_down d k Hk) as Hk'. split; [done|]. destruct (furthest_step d _ Hk') as [H1 _].
  replace (k - 1 + 1) with k in H1 by lia. by apply H1.
Qed.

(** Every round advances. *)
Lemma furthest_low d k : diagonal d k → Z.of_nat d + k ≤ 2 * F d k.
Proof.
  revert k. induction d as [|d IH]; intros k Hk.
  - pose proof (diagonal_bounds _ _ Hk). pose proof (furthest_nonneg _ _ Hk). lia.
  - destruct (furthest_step d k Hk) as [H1 H2].
    destruct (diagonal_pred d k Hk) as [[Heq Hd]|[[Heq Hd]|(_ & _ & _ & Hd)]];
      [specialize (H1 Hd)|specialize (H2 Hd)|specialize (H2 Hd)]; specialize (IH _ Hd); lia.
Qed.

(** The predecessor of a point off the grid, which no shared line leads to. *)
Lemma furthest_off d k :
  diagonal (S d) k → (n < F (S d) k ∨ m < F (S d) k - k) →
  (diagonal d (k + 1) ∧ F (S d) k = F d (k + 1)) ∨ (diagonal d (k - 1) ∧ F (S d) k = F d (k - 1) + 1).
Proof.
  intros Hk Hoff. destruct (start_nonneg d k Hk) as [Hx Hy]. cbn [F] in *.
  destruct (extend_bounds k _ Hx Hy) as [Heq|?]; [|lia]. rewrite Heq in *. by apply first_step_spec.
Qed.

Lemma furthest_start k : diagonal 0 k → k = 0 ∧ F 0 k ≤ n ∧ F 0 k - k ≤ m.
Proof.
  intros Hk%diagonal_bounds. simpl in *. assert (k = 0) as -> by lia. split; [done|].
  destruct (extend_bounds 0 0) as [Heq|?]; lia.
Qed.

(** A point past the end of [b] mirrors a point that moved along [a] instead. *)
Lemma furthest_past_b d k e :
  diagonal d k → 0 < e → F d k - k = m + e → diagonal d (k + 2 * e) ∧ F d k + e ≤ F d (k + 2 * e).
Proof.
  revert k e. induction d as [|d IH]; intros k e Hk He Heq; [apply furthest_start in Hk; lia|].
  assert (∀ k', diagonal d k' → F (S d) k + e ≤ F d k' + 1 → k + 2 * e = k' + 1 →
    diagonal (S d) (k + 2 * e) ∧ F (S d) k + e ≤ F (S d) (k + 2 * e)) as Hmove.
  { intros k' Hd Hle ->. destruct (furthest_right d k' Hd) as [? ?]. split; [done|]. lia. }
  destruct (furthest_off d k Hk) as [[Hd Hst]|[Hd Hst]]; [lia| |].
  - destruct (Z.eq_dec e 1) as [->|Hne]; [apply (Hmove (k + 1)); [done|lia..]|].
    destruct (IH (k + 1) (e - 1) Hd) as [Hd' Hge]; [lia..|]. apply (Hmove (k + 1 + 2 * (e - 1))); [done|lia..].
  - destruct (IH (k - 1) e Hd) as [Hd' Hge]; [lia..|]. apply (Hmove (k - 1 + 2 * e)); [done|lia..].
Qed.

(** A point past the end of [a] mirrors a point that moved along [b] instead. *)
Lemma furthest_past_a d k e :
  diagonal d k → 0 < e → F d k = n + e → diagonal d (k - 2 * e) ∧ n ≤ F d (k - 2 * e).
Proof.
  revert k e. induction d as [|d IH]; intros k e Hk He Heq; [apply furthest_start in Hk; lia|].
  assert (∀ k', diagonal d k' → n ≤ F d k' → k - 2 * e = k' - 1 →
    diagonal (S d) (k - 2 * e) ∧ n ≤ F (S d) (k - 2 * e)) as Hmove.
  { intros k' Hd Hle ->. destruct (furthest_down d k' Hd) as [? ?]. split; [done|]. lia. }
  destruct (furthest_off d k Hk) as [[Hd Hst]|[Hd Hst]]; [lia| |].
  - destruct (IH (k + 1) e Hd) as [Hd' Hge]; [lia..|]. apply (Hmove (k + 1 - 2 * e)); [done|lia..].
  - destruct (Z.eq_dec e 1) as [->|Hne]; [apply (Hmove (k - 1)); [done|lia..]|].
    destruct (IH (k - 1) (e - 1) Hd) as [Hd' Hge]; [lia..|]. apply (Hmove (k - 1 - 2 * (e - 1))); [done|lia..].
Qed.

(** The point that ends the search. *)
Definition arrives (d : nat) (k : Z) : Prop := n ≤ F d k ∧ m ≤ F d k - k.

(** The first round that reaches the ends of both sides reaches exactly them. *)
Lemma arrival_exact d k :
  diagonal d k → arrives d k → (∀ d' k', (d' < d)%nat → diagonal d' k' → ¬ arrives d' k') →
  k = n - m ∧ F d k = n.
Proof.
  unfold arrives. intros Hk [Hn Hm] Hfirst. destruct d as [|d].
  { destruct (furthest_start k Hk) as (-> & ? & ?). lia. }
  destruct (Z.eq_dec (F (S d) k) n) as [He|He], (Z.eq_dec (F (S d) k - k) m) as [He'|He']; [lia| | |]; exfalso.
  all: destruct (furthest_off d k Hk) as [[Hd Hst]|[Hd Hst]]; [lia| |]; pose proof (Hfirst d _ ltac:(lia) Hd) as Hno.
  all: try lia.
  - destruct (furthest_past_b d (k - 1) (F d (k - 1) - (k - 1) - m) Hd) as [Hd' Hge]; [lia..|].
    apply (Hfirst d _ ltac:(lia) Hd'). lia.
  - destruct (furthest_past_a d (k + 1) (F d (k + 1) - n) Hd) as [Hd' Hge]; [lia..|].
    apply (Hfirst d _ ltac:(lia) Hd'). lia.
Qed.

(** The search arrives. *)
Lemma arrival_latest : arrives (length a + length b) (n - m).
Proof.
  assert (diagonal (length a + length b) (n - m)) as Hd by (exists (length a); lia).
  pose proof (furthest_low _ _ Hd). unfold arrives. lia.
Qed.

Lemma extend_end k x :
  0 ≤ x → 0 ≤ x - k → ∀ l, ¬ (index a (extend k x) = Some l ∧ index b (extend k x - k) = Some l).
Proof. intros Hx Hy. revert x Hx Hy. by apply (extend_ind (λ x e, ∀ l, ¬ (index a e = Some l ∧ index b (e - k) = Some l))). Qed.

Lemma furthest_end d k : diagonal d k → ∀ l, ¬ (index a (F d k) = Some l ∧ index b (F d k - k) = Some l).
Proof.
  intros Hk. destruct d as [|d]; cbn [F].
  - apply extend_end; [done|]. apply diagonal_bounds in Hk. lia.
  - by apply extend_end; apply start_nonneg.
Qed.

(** No script reaches further. *)
Lemma furthest_most d x y s : path d x y s → diagonal d (x - y) ∧ x ≤ F d (x - y).
Proof.
  induction 1 as [|d x y s l _ [Hd Hx] Ha Hb|d x y s l _ [Hd Hx] Ha|d x y s l _ [Hd Hx] Hb].
  - assert (diagonal 0 (0 - 0)) as Hd by (exists 0%nat; lia). split; [done|]. by apply furthest_nonneg.
  - replace (x + 1 - (y + 1)) with (x - y) by lia. split; [done|].
    destruct (Z.eq_dec x (F d (x - y))) as [Heq|?]; [|lia]. exfalso.
    apply (furthest_end d (x - y) Hd l). rewrite <- Heq. by replace (x - (x - y)) with y by lia.
  - replace (x + 1 - y) with (x - y + 1) by lia. destruct (furthest_right d _ Hd). split; [done|lia].
  - replace (x - (y + 1)) with (x - y - 1) by lia. destruct (furthest_down d _ Hd). split; [done|lia].
Qed.

Lemma extend_matches k x :
  0 ≤ x → 0 ≤ x - k → ∀ i, x ≤ i < extend k x → ∃ l, index a i = Some l ∧ index b (i - k) = Some l.
Proof.
  intros Hx Hy. revert x Hx Hy.
  apply (extend_ind (λ x e, ∀ i, x ≤ i < e → ∃ l, index a i = Some l ∧ index b (i - k) = Some l)); [lia|].
  intros x x' l Hx Hy Ha Hb IH i Hi. destruct (Z.eq_dec i x) as [->|?]; [eauto|apply IH; lia].
Qed.

(** *** The search computes the frontier *)

(** The vector holds the frontier of round [d]. *)
Definition frontier (v : list Z) (center : Z) (d : nat) : Prop :=
  ∀ k, diagonal d k → index v (k + center) = Some (F d k).

(** What round [d] reads. *)
Definition before_round (v : list Z) (center : Z) (d : nat) : Prop :=
  match d with
  | O => index v (center + 1) = Some 0
  | S d' => frontier v center d'
  end.

Lemma goes_down_spec v center d k :
  frontier v center d → diagonal (S d) k →
  goes_down v center (Z.of_nat (S d)) k = Some (moves_down (F d) (Z.of_nat (S d)) k).
Proof.
  intros Hv Hk. unfold goes_down, moves_down.
  destruct (diagonal_pred d k Hk) as [[Heq Hd]|[[Heq Hd]|(Hne & Hne' & Hd & Hd')]].
  - by rewrite (proj2 (Z.eqb_eq k _) Heq).
  - rewrite (proj2 (Z.eqb_neq k (- Z.of_nat (S d)))) by lia. by rewrite (proj2 (Z.eqb_eq k (Z.of_nat (S d))) Heq).
  - rewrite (proj2 (Z.eqb_neq k (- Z.of_nat (S d)))), (proj2 (Z.eqb_neq k (Z.of_nat (S d)))) by lia.
    replace (k + center - 1) with (k - 1 + center) by lia. replace (k + center + 1) with (k + 1 + center) by lia.
    by rewrite (Hv _ Hd), (Hv _ Hd').
Qed.

(** The neighbour that the first step of round [d + 1] leaves. *)
Lemma moves_down_diagonal d k :
  diagonal (S d) k → diagonal d (if moves_down (F d) (Z.of_nat (S d)) k then k + 1 else k - 1).
Proof.
  intros Hk. unfold moves_down. destruct (diagonal_pred d k Hk) as [[Heq Hd]|[[Heq Hd]|(Hne & Hne' & Hd & Hd')]].
  - by rewrite (proj2 (Z.eqb_eq k _) Heq).
  - rewrite (proj2 (Z.eqb_neq k (- Z.of_nat (S d)))) by lia. by rewrite (proj2 (Z.eqb_eq k (Z.of_nat (S d))) Heq).
  - rewrite (proj2 (Z.eqb_neq k (- Z.of_nat (S d)))), (proj2 (Z.eqb_neq k (Z.of_nat (S d)))) by lia. cbn.
    by destruct (_ <? _).
Qed.

(** The start of a snake, as the search reads it. *)
Lemma start_spec v center d k :
  before_round v center d → diagonal d k →
  ∃ down x0, goes_down v center (Z.of_nat d) k = Some down ∧
    (if down : bool then index v (k + center + 1) else Z.succ <$> index v (k + center - 1)) = Some x0 ∧
    0 ≤ x0 ∧ 0 ≤ x0 - k ∧ extend k x0 = F d k.
Proof.
  intros Hv Hk. destruct d as [|d].
  - apply diagonal_bounds in Hk. assert (k = 0) as -> by lia. exists true, 0. split_and!; (done || lia).
  - exists (moves_down (F d) (Z.of_nat (S d)) k), (first_step (F d) (Z.of_nat (S d)) k).
    destruct (start_nonneg d k Hk). pose proof (moves_down_diagonal d k Hk) as Hd.
    split; [by apply goes_down_spec|]. split; [|done]. unfold first_step. cbn in Hv.
    destruct (moves_down (F d) (Z.of_nat (S d)) k).
    + replace (k + center + 1) with (k + 1 + center) by lia. by apply Hv.
    + replace (k + center - 1) with (k - 1 + center) by lia. by rewrite (Hv _ Hd).
Qed.

Lemma index_store {A} (l l' : list A) i j x :
  store l i x = Some l' → index l' j = if (j =? i) then Some x else index l j.
Proof.
  unfold store, index. destruct (Z.ltb_spec i 0); [done|]. destruct (Nat.ltb_spec (Z.to_nat i) (length l)); [|done].
  intros [= <-]. destruct (Z.eqb_spec j i) as [->|Hne].
  - destruct (Z.ltb_spec i 0); [lia|]. by apply list_lookup_insert_eq.
  - destruct (Z.ltb_spec j 0); [done|]. apply list_lookup_insert_ne. lia.
Qed.

Lemma store_Some {A} (l : list A) i x :
  0 ≤ i < Z.of_nat (length l) → ∃ l', store l i x = Some l' ∧ length l' = length l.
Proof.
  intros Hi. unfold store. destruct (Z.ltb_spec i 0); [lia|]. destruct (Nat.ltb_spec (Z.to_nat i) (length l)); [|lia].
  eexists. split; [done|]. apply length_insert.
Qed.

(** A round does not overwrite what it reads. *)
Lemma before_round_store v v' center d k x :
  before_round v center d → diagonal d k → store v (k + center) x = Some v' → before_round v' center d.
Proof.
  intros Hv Hk Hst. destruct d as [|d]; cbn in *.
  - apply diagonal_bounds in Hk. rewrite (index_store _ _ _ _ _ Hst). by rewrite (proj2 (Z.eqb_neq _ _)) by lia.
  - intros k' Hk'. rewrite (index_store _ _ _ _ _ Hst). rewrite (proj2 (Z.eqb_neq _ _)); [by apply Hv|].
    destruct Hk as (i & _ & ->), Hk' as (i' & _ & ->). lia.
Qed.

(** The outcome of a round. *)
Definition round_done (v : list Z) (offset : Z) (d : nat) (left_loop : bool) : Prop :=
  if left_loop then ∃ k, diagonal d k ∧ arrives d k
  else frontier v offset d ∧ ∀ k, diagonal d k → ¬ arrives d k.

Lemma round_spec fuel offset d i (v : list Z) :
  Z.of_nat (length v) = 2 * offset + 1 → Z.of_nat d ≤ offset →
  (i ≤ S d)%nat → (S d ≤ fuel + i)%nat → before_round v offset d →
  (∀ j, (j < i)%nat → let k := 2 * Z.of_nat j - Z.of_nat d in index v (k + offset) = Some (F d k) ∧ ¬ arrives d k) →
  ∃ v' left_loop, round a b fuel offset (Z.of_nat d) (2 * Z.of_nat i - Z.of_nat d) v = Some (v', left_loop) ∧
    length v' = length v ∧ round_done v' offset d left_loop.
Proof.
  intros Hlen Hoff. revert i v Hlen. induction fuel as [|fuel IH]; intros i v Hlen Hi Hf Hv Hdone.
  - assert (i = S d) as -> by lia. cbn [round]. rewrite (proj2 (Z.leb_gt _ _)) by lia. do 2 eexists.
    split_and!; [done..|]. split; intros k (j & ? & ->); apply Hdone; lia.
  - cbn [round]. destruct (decide (i = S d)) as [->|Hne].
    { rewrite (proj2 (Z.leb_gt _ _)) by lia. do 2 eexists. split_and!; [done..|].
      split; intros k (j & ? & ->); apply Hdone; lia. }
    set (k := 2 * Z.of_nat i - Z.of_nat d) in *. assert (diagonal d k) as Hk by (exists i; lia).
    rewrite (proj2 (Z.leb_le _ _)) by lia.
    destruct (start_spec v offset d k Hv Hk) as (down & x0 & -> & Hst & Hx & Hy & Hext). cbn [mbind option_bind].
    rewrite Hst. cbn [mbind option_bind]. rewrite snake_extend by lia. cbn [mbind option_bind]. rewrite Hext.
    destruct (store_Some v (k + offset) (F d k)) as (v' & Hv' & Hlen'); [lia|]. rewrite Hv'. cbn [mbind option_bind].
    destruct ((n <=? F d k) && (m <=? F d k - k)) eqn:Harr.
    { apply andb_true_iff in Harr as [?%Z.leb_le ?%Z.leb_le]. do 2 eexists. split_and!; [done..|]. by exists k. }
    replace (k + 2) with (2 * Z.of_nat (S i) - Z.of_nat d) by lia.
    destruct (IH (S i) v') as (v2 & l2 & Hr & Hl2 & Hd2); [lia..|by eapply before_round_store| |].
    2:{ exists v2, l2. split; [done|]. split; [lia|done]. }
    intros j Hj. cbv zeta. rewrite (index_store _ _ _ _ _ Hv'). destruct (decide (j = i)) as [->|Hji].
    + fold k. rewrite Z.eqb_refl. split; [done|]. unfold arrives.
      intros [?%Z.leb_le ?%Z.leb_le]. rewrite andb_false_iff in Harr. destruct Harr; congruence.
    + rewrite (proj2 (Z.eqb_neq _ _)) by lia. apply Hdone. lia.
Qed.

(** The snapshot that round [d] takes. *)
Lemma copy_range_spec (v : list Z) offset d :
  Z.of_nat (length v) = 2 * offset + 1 → Z.of_nat d ≤ offset →
  ∃ band, copy_range v (offset - Z.of_nat d) (offset + Z.of_nat d) = Some band ∧
    ∀ k, - Z.of_nat d ≤ k ≤ Z.of_nat d → index band (k + Z.of_nat d) = index v (k + offset).
Proof.
  intros Hlen Hd. unfold copy_range.
  rewrite (proj2 (Z.ltb_ge _ _)), (proj2 (Z.ltb_ge _ _)), (proj2 (Z.leb_gt _ _)) by lia. eexists. split; [done|].
  intros k Hk. unfold index. rewrite !(proj2 (Z.ltb_ge _ _)) by lia.
  rewrite lookup_take_lt by lia. rewrite lookup_drop. f_equal. lia.
Qed.

(** The bands of a trace up to round [d] hold the frontiers of the rounds before. *)
Definition bands (trace : list (list Z)) (d : nat) : Prop :=
  ∀ d', (S d' < d)%nat → ∃ band, trace !! S d' = Some band ∧ frontier band (Z.of_nat (S d')) d'.

Definition first_arrival (d : nat) : Prop :=
  (∃ k, diagonal d k ∧ arrives d k) ∧ ∀ d' k, (d' < d)%nat → diagonal d' k → ¬ arrives d' k.

Lemma bands_snoc trace band d :
  length trace = d → bands trace d →
  (∀ d', d = S d' → frontier band (Z.of_nat d) d') → bands (trace ++ [band]) (S d).
Proof.
  intros Hlen Hb Hband d' Hd'. destruct (decide (S d' = d)) as [Heq|Hne].
  - exists band. split; [|rewrite Heq; by apply Hband]. by rewrite Heq, <- Hlen, lookup_app_r, Nat.sub_diag by lia.
  - destruct (Hb d') as (band' & Hl & Hf); [lia|]. exists band'. split; [|done]. by apply lookup_app_l_Some.
Qed.

Lemma frontier_band (v band : list Z) offset d :
  (∀ k, - Z.of_nat (S d) ≤ k ≤ Z.of_nat (S d) → index band (k + Z.of_nat (S d)) = index v (k + offset)) →
  frontier v offset d → frontier band (Z.of_nat (S d)) d.
Proof. intros Hb Hv k Hk. rewrite Hb; [by apply Hv|]. apply diagonal_bounds in Hk. lia. Qed.

Lemma search_spec fuel d (v : list Z) trace :
  let offset := n + m in
  Z.of_nat (length v) = 2 * offset + 1 → (length a + length b < fuel + d)%nat → (d ≤ length a + length b)%nat →
  before_round v offset d → length trace = d → bands trace d →
  (∀ d' k, (d' < d)%nat → diagonal d' k → ¬ arrives d' k) →
  ∃ trace' D, search a b fuel offset (Z.of_nat d) v trace = Some trace' ∧
    length trace' = S D ∧ bands trace' (S D) ∧ first_arrival D.
Proof.
  cbv zeta. revert d v trace. induction fuel as [|fuel IH]; intros d v trace Hlen Hf Hd Hv Ht Hb Hno; [lia|].
  cbn [search]. rewrite (proj2 (Z.leb_le _ _)) by lia.
  destruct (copy_range_spec v (n + m) d) as (band & -> & Hband); [lia..|]. cbn [mbind option_bind].
  destruct (round_spec (S (Z.to_nat (Z.of_nat d))) (n + m) d 0 v) as (v' & fl & Hr & Hlen' & Hdone); [lia..|done|lia|].
  replace (2 * Z.of_nat 0 - Z.of_nat d) with (- Z.of_nat d) in Hr by lia. rewrite Hr. cbn [mbind option_bind].
  assert (bands (trace ++ [band]) (S d)) as Hb'.
  { apply bands_snoc; [done..|]. intros d' ->. eapply frontier_band; [exact Hband|exact Hv]. }
  assert (length (trace ++ [band]) = S d) as Ht' by (rewrite length_app; simpl; lia).
  destruct fl; cbn in Hdone.
  - exists (trace ++ [band]), d. done.
  - destruct Hdone as [Hv' Hno']. replace (Z.of_nat d + 1) with (Z.of_nat (S d)) by lia.
    destruct (decide (d = (length a + length b)%nat)) as [Heq|Hne].
    { exfalso. apply (Hno' (n - m)); [exists (length a); lia|]. rewrite Heq. apply arrival_latest. }
    apply IH; try done; try lia. intros d' k Hd'. destruct (decide (d' = d)) as [->|?]; [apply Hno'|apply Hno; lia].
Qed.

(** *** The backtrack follows it *)

Lemma unsnake_spec fuel k x0 x px py edits :
  x0 ≤ x → x - x0 ≤ Z.of_nat fuel →
  (∀ i, x0 ≤ i < x → ∃ l, index a i = Some l ∧ index b (i - k) = Some l) →
  px ≤ x0 → py ≤ x0 - k → (px = x0 ∨ py = x0 - k) →
  ∃ keeps, unsnake a fuel x (x - k) px py edits = Some (x0, x0 - k, keeps ++ edits) ∧
    ∀ d s, path d x0 (x0 - k) s → path d x (x - k) (s ++ keeps).
Proof.
  intros Hle Hf Hm Hpx Hpy Hstop. revert x edits Hle Hf Hm. induction fuel as [|fuel IH]; intros x edits Hle Hf Hm.
  - assert (x = x0) as -> by lia. exists []. cbn [unsnake].
    split; [|intros d s; by rewrite app_nil_r].
    destruct (Z.ltb_spec px x0), (Z.ltb_spec py (x0 - k)); (lia || done).
  - destruct (Z.eq_dec x x0) as [->|Hne].
    { exists []. cbn [unsnake]. split; [|intros d s; by rewrite app_nil_r].
      destruct (Z.ltb_spec px x0), (Z.ltb_spec py (x0 - k)); (lia || done). }
    cbn [unsnake]. rewrite (proj2 (Z.ltb_lt _ _)), (proj2 (Z.ltb_lt _ _)) by lia. cbn [andb].
    destruct (Hm (x - 1)) as (l & Ha & Hb); [lia|]. rewrite Ha. cbn [mbind option_bind].
    replace (x - k - 1) with (x - 1 - k) by lia.
    destruct (IH (x - 1) (Keep l :: edits)) as (keeps & -> & Hp); [lia..|intros i ?; apply Hm; lia|].
    exists (keeps ++ [Keep l]). rewrite <- app_assoc. split; [done|]. intros d s Hs.
    pose proof (path_keep d _ _ _ l (Hp d s Hs) Ha Hb) as Hk. rewrite <- app_assoc in Hk.
    by replace (x - 1 + 1) with x in Hk by lia; replace (x - 1 - k + 1) with (x - k) in Hk by lia.
Qed.

Lemma backtrack_spec trace d k edits :
  bands trace (S d) → diagonal d k → F d k ≤ n → F d k - k ≤ m →
  ∃ x0 y0 es s, backtrack a b trace d (F d k) (F d k - k) edits = Some (x0, y0, es) ∧
    unsnake a (length a) x0 y0 0 0 es = Some (0, 0, s ++ edits) ∧ path d (F d k) (F d k - k) s.
Proof.
  revert k edits. induction d as [|d IH]; intros k edits Hb Hk Hx Hy.
  - destruct (furthest_start k Hk) as (-> & _ & _). cbn [backtrack]. do 3 eexists.
    destruct (unsnake_spec (length a) 0 0 (F 0 0) 0 0 edits) as (keeps & Hun & Hp); try lia.
    + by apply furthest_nonneg.
    + by apply extend_matches.
    + exists keeps. split; [done|]. split; [exact Hun|]. by apply (Hp 0%nat []), path_nil.
  - destruct (Hb d) as (band & Hband & Hfr); [lia|]. cbn [backtrack]. rewrite Hband. cbn [mbind option_bind].
    replace (F (S d) k - (F (S d) k - k)) with k by lia. rewrite goes_down_spec by done. cbn [mbind option_bind].
    pose proof (moves_down_diagonal d k Hk) as Hd. destruct (start_nonneg d k Hk) as [Hs0 Hs1].
    pose proof (extend_ge k _ Hs0 Hs1) as Hge. pose proof (extend_matches k _ Hs0 Hs1) as Hm.
    unfold first_step in Hs0, Hs1, Hge, Hm. cbn [F] in Hx, Hy |- *. unfold first_step in Hx, Hy |- *.
    assert (bands trace (S d)) as Hb' by (intros d' ?; apply Hb; lia).
    destruct (moves_down (F d) (Z.of_nat (S d)) k).
    all: rewrite (Hfr _ Hd); cbn [mbind option_bind].
    + destruct (furthest_nonneg d _ Hd) as [Hp0 Hp1].
      destruct (unsnake_spec (length a) k (F d (k + 1)) (extend k (F d (k + 1))) (F d (k + 1)) (F d (k + 1) - (k + 1)) edits)
        as (keeps & -> & Hp); [lia|lia|done|lia|lia|lia|]. cbn [mbind option_bind]. rewrite Z.eqb_refl.
      destruct (index_is_Some b (F d (k + 1) - (k + 1))) as [l Hl]; [lia|]. rewrite Hl. cbn [fmap option_fmap option_map mbind option_bind].
      destruct (IH (k + 1) (Add l :: keeps ++ edits) Hb' Hd) as (x0 & y0 & es & s & Hbt & Hun & Hpath); [lia..|].
      exists x0, y0, es, (s ++ [Add l] ++ keeps). split; [done|]. rewrite Hun. split; [by rewrite <- !app_assoc|].
      rewrite app_assoc. apply Hp. pose proof (path_add _ _ _ _ l Hpath Hl) as Hpa.
      by replace (F d (k + 1) - (k + 1) + 1) with (F d (k + 1) - k) in Hpa by lia.
    + destruct (furthest_nonneg d _ Hd) as [Hp0 Hp1].
      destruct (unsnake_spec (length a) k (F d (k - 1) + 1) (extend k (F d (k - 1) + 1)) (F d (k - 1)) (F d (k - 1) - (k - 1)) edits)
        as (keeps & -> & Hp); [lia|lia|done|lia|lia|lia|]. cbn [mbind option_bind]. rewrite (proj2 (Z.eqb_neq _ _)) by lia.
      destruct (index_is_Some a (F d (k - 1))) as [l Hl]; [lia|]. rewrite Hl. cbn [fmap option_fmap option_map mbind option_bind].
      destruct (IH (k - 1) (Remove l :: keeps ++ edits) Hb' Hd) as (x0 & y0 & es & s & Hbt & Hun & Hpath); [lia..|].
      exists x0, y0, es, (s ++ [Remove l] ++ keeps). split; [done|]. rewrite Hun. split; [by rewrite <- !app_assoc|].
      rewrite app_assoc. apply Hp. pose proof (path_remove _ _ _ _ l Hpath Hl) as Hpa.
      by replace (F d (k - 1) - (k - 1)) with (F d (k - 1) + 1 - k) in Hpa by lia.
Qed.

Lemma myers_path :
  a ≠ [] → b ≠ [] →
  ∃ script D, myers_diff a b = Some script ∧ path D n m script ∧ first_arrival D.
Proof.
  intros Ha Hb.
  assert (n ≠ 0 ∧ m ≠ 0) as [Hn Hm] by (destruct a, b; simpl; done || lia).
  destruct (search_spec (S (length a + length b)) 0 (replicate (Z.to_nat (2 * (n + m) + 1)) 0) [])
    as (trace & D & Hs & Ht & Hbands & Harr).
  - rewrite length_replicate. lia.
  - lia.
  - lia.
  - cbn. unfold index. rewrite (proj2 (Z.ltb_ge _ _)) by lia. apply lookup_replicate_2. lia.
  - done.
  - intros d ?. lia.
  - intros d' k ?. lia.
  - pose proof Harr as [(k & Hk & Hak) Hfirst]. destruct (arrival_exact D k Hk Hak Hfirst) as [Hkeq Hfn].
    destruct (backtrack_spec trace D k [] Hbands Hk) as (x0 & y0 & es & s & Hbt & Hun & Hp); [lia..|].
    rewrite Hfn in Hbt, Hp. replace (n - k) with m in Hbt, Hp by lia. exists s, D. split; [|done].
    unfold myers_diff. destruct a as [|la a']; [done|]. destruct b as [|lb b']; [done|].
    change (Z.of_nat 0) with 0 in Hs. rewrite Hs. cbn [mbind option_bind]. rewrite Ht. cbn [Nat.sub]. rewrite Nat.sub_0_r.
    rewrite Hbt. cbn [mbind option_bind]. rewrite Hun. cbn [mbind option_bind]. by rewrite app_nil_r.
Qed.
End graph.

(** ** Scripts *)

Definition old_lines (script : list Edit) : list string := omap old_of script.
Definition new_lines (script : list Edit) : list string := omap new_of script.
Definition changes (script : list Edit) : nat := length (filter (λ e, is_keep e = false) script).

Lemma old_lines_app s t : old_lines (s ++ t) = old_lines s ++ old_lines t.
Proof. apply omap_app. Qed.

Lemma new_lines_app s t : new_lines (s ++ t) = new_lines s ++ new_lines t.
Proof. apply omap_app. Qed.

Lemma changes_app s t : changes (s ++ t) = changes s + changes t.
Proof. unfold changes. by rewrite filter_app, length_app. Qed.

Lemma changes_cons e s : changes (e :: s) = (if is_keep e then 0 else 1) + changes s.
Proof. unfold changes. rewrite filter_cons. by destruct e. Qed.

Lemma old_lines_cons e s :
  old_lines (e :: s) = match e with Keep l | Remove l => l :: old_lines s | Add _ => old_lines s end.
Proof. by destruct e. Qed.

Lemma new_lines_cons e s :
  new_lines (e :: s) = match e with Keep l | Add l => l :: new_lines s | Remove _ => new_lines s end.
Proof. by destruct e. Qed.

Lemma take_index {A} (l : list A) z x : index l z = Some x → take (Z.to_nat (z + 1)) l = take (Z.to_nat z) l ++ [x].
Proof.
  intros [Hz Hx]%index_Some. replace (Z.to_nat (z + 1)) with (S (Z.to_nat z)) by lia. by apply take_S_r.
Qed.

Lemma path_lines a b d x y s :
  path a b d x y s →
  (0 ≤ x)%Z ∧ (0 ≤ y)%Z ∧ old_lines s = take (Z.to_nat x) a ∧ new_lines s = take (Z.to_nat y) b ∧ changes s = d.
Proof.
  induction 1 as [|d x y s l _ IH Ha Hb|d x y s l _ IH Ha|d x y s l _ IH Hb]; [done|..];
    destruct IH as (? & ? & Ho & Hn & Hc); rewrite old_lines_app, new_lines_app, changes_app, Ho, Hn, Hc.
  - rewrite (take_index a x l Ha), (take_index b y l Hb). split_and!; (done || lia || apply Nat.add_0_r).
  - rewrite (take_index a x l Ha). split_and!; try (done || lia); [apply app_nil_r|apply Nat.add_1_r].
  - rewrite (take_index b y l Hb). split_and!; try (done || lia); [apply app_nil_r|apply Nat.add_1_r].
Qed.

Lemma prefix_index {A} (l l' : list A) x : l ++ [x] `prefix_of` l' → index l' (Z.of_nat (length l)) = Some x.
Proof.
  intros [r ->]. apply index_Some. split; [lia|]. rewrite Nat2Z.id, <- app_assoc. by apply list_lookup_middle.
Qed.

Lemma script_path a b s :
  old_lines s `prefix_of` a → new_lines s `prefix_of` b →
  path a b (changes s) (Z.of_nat (length (old_lines s))) (Z.of_nat (length (new_lines s))) s.
Proof.
  induction s as [|e s IH] using rev_ind; intros Ha Hb; [constructor|].
  rewrite old_lines_app in *. rewrite new_lines_app in *. rewrite changes_app.
  assert (path a b (changes s) (Z.of_nat (length (old_lines s))) (Z.of_nat (length (new_lines s))) s) as Hp
    by (apply IH; eapply prefix_app_l; eauto).
  destruct e as [l|l|l]; cbn in *; rewrite ?app_nil_r, ?length_app, ?Nat.add_0_r, ?Nat.add_1_r in *; cbn [length] in *;
    rewrite ?Nat2Z.inj_succ; unfold Z.succ.
  - apply path_keep; [done|by apply prefix_index..].
  - apply path_remove; [done|by apply prefix_index].
  - apply path_add; [done|by apply prefix_index].
Qed.

Lemma changes_lengths s :
  length (new_lines s) ≤ length (old_lines s) + changes s ∧ length (old_lines s) ≤ length (new_lines s) + changes s.
Proof.
  induction s as [|[l|l|l] s [IH IH']]; [cbn; lia|..];
    rewrite ?changes_cons, ?old_lines_cons, ?new_lines_cons; cbn [length is_keep]; lia.
Qed.

Lemma adds_only b : old_lines (Add <$> b) = [] ∧ new_lines (Add <$> b) = b ∧ changes (Add <$> b) = length b.
Proof.
  induction b as [|l b (IH & IH' & IH'')]; [done|]. rewrite fmap_cons, changes_cons, old_lines_cons, new_lines_cons.
  by rewrite IH, IH', IH''.
Qed.

Lemma removes_only a : old_lines (Remove <$> a) = a ∧ new_lines (Remove <$> a) = [] ∧ changes (Remove <$> a) = length a.
Proof.
  induction a as [|l a (IH & IH' & IH'')]; [done|]. rewrite fmap_cons, changes_cons, old_lines_cons, new_lines_cons.
  by rewrite IH, IH', IH''.
Qed.

Lemma myers_script a b :
  ∃ script, myers_diff a b = Some script ∧ old_lines script = a ∧ new_lines script = b ∧
    ∀ other, old_lines other = a → new_lines other = b → changes script ≤ changes other.
Proof.
  destruct (decide (a = [])) as [->|Ha]; [|destruct (decide (b = [])) as [->|Hb]].
  - exists (Add <$> b). destruct (adds_only b) as (Ho & Hn & Hc). split; [by destruct b|]. split_and!; [done..|].
    intros s Hos Hns. pose proof (changes_lengths s). rewrite Hos, Hns, Hc in *. simpl in *. lia.
  - exists (Remove <$> a). destruct (removes_only a) as (Ho & Hn & Hc). split; [by destruct a|]. split_and!; [done..|].
    intros s Hos Hns. pose proof (changes_lengths s). rewrite Hos, Hns, Hc in *. simpl in *. lia.
  - destruct (myers_path a b Ha Hb) as (script & D & Hrun & Hp & _ & Hfirst). exists script. split; [done|].
    apply path_lines in Hp as (_ & _ & Ho & Hn & Hc). rewrite Nat2Z.id, firstn_all in Ho, Hn. split_and!; [done..|].
    intros s Hos Hns. rewrite Hc. apply Nat.nlt_ge. intros Hlt.
    pose proof (script_path a b s) as Hp. rewrite Hos, Hns in Hp. specialize (Hp ltac:(done) ltac:(done)).
    apply furthest_most in Hp as [Hd Hle]. apply (Hfirst (changes s) _ Hlt Hd). split; lia.
Qed.

(** C25: The line diff returns for every two texts, and its script is right and as short
    as can be: its kept and removed lines are the lines of the first text, its kept and
    added lines those of the second, and no script between the two texts has fewer
    changes. *)
Theorem myers_shortest a b :
  ∃ script, myers_diff a b = Some script ∧ old_lines script = a ∧ new_lines script = b ∧
    ∀ other, old_lines other = a → new_lines other = b → changes script ≤ changes other.
Proof. apply myers_script. Qed.

(** ** Applying hunks *)

Definition line_old (l : DiffLine) : option string :=
  match tag l with TContext | TRemoved => Some (line_text l) | TAdded => None end.
Definition line_new (l : DiffLine) : option string :=
  match tag l with TContext | TAdded => Some (line_text l) | TRemoved => None end.

(** Apply hunks to the lines of a text from its line [line], with [target_line] the
    number of the next line of the result: a hunk applies when its lines are where it
    says, of the lengths it says, on both sides. *)
Fixpoint patch (line target_line : nat) (hs : list DiffHunk) (text : list string) : option (list string) :=
  match hs with
  | [] => Some text
  | h :: rest =>
      let skip := base_start h - line in
      let old := omap line_old (hunk_lines h) in
      let new := omap line_new (hunk_lines h) in
      if bool_decide (line ≤ base_start h ∧ target_start h = target_line + skip
           ∧ length old = base_len h ∧ length new = target_len h
           ∧ take (base_len h) (drop skip text) = old)
      then (λ r, take skip text ++ new ++ r) <$>
             patch (base_start h + base_len h) (target_start h + target_len h) rest (drop (skip + base_len h) text)
      else None
  end.

(** The ranges lie one after the other, and what is between them is kept. *)
Fixpoint covering (script : list Edit) (cursor : nat) (ranges : list (nat * nat)) : Prop :=
  match ranges with
  | [] => Forall (λ e, is_keep e = true) (drop cursor script)
  | (s, e) :: rest =>
      cursor ≤ s ∧ s ≤ e ∧ e ≤ length script ∧
      Forall (λ e, is_keep e = true) (part script cursor s) ∧ covering script e rest
  end.

Lemma keep_lines s : Forall (λ e, is_keep e = true) s → new_lines s = old_lines s.
Proof. induction 1 as [|[l|l|l] s He _ IH]; [done|..]; try done. rewrite old_lines_cons, new_lines_cons. by rewrite IH. Qed.

Lemma advance_base_length line s : advance_base line s = line + length (old_lines s).
Proof.
  revert line. induction s as [|[l|l|l] s IH]; intros line; unfold advance_base in *; cbn [foldl]; [cbn; lia|..];
    rewrite IH, old_lines_cons; cbn [length]; lia.
Qed.

Lemma advance_target_length line s : advance_target line s = line + length (new_lines s).
Proof.
  revert line. induction s as [|[l|l|l] s IH]; intros line; unfold advance_target in *; cbn [foldl]; [cbn; lia|..];
    rewrite IH, new_lines_cons; cbn [length]; lia.
Qed.

Lemma diff_lines_old s : omap line_old (diff_line <$> s) = old_lines s.
Proof. induction s as [|[l|l|l] s IH]; [done|..]; rewrite fmap_cons, old_lines_cons, <- IH; done. Qed.

Lemma diff_lines_new s : omap line_new (diff_line <$> s) = new_lines s.
Proof. induction s as [|[l|l|l] s IH]; [done|..]; rewrite fmap_cons, new_lines_cons, <- IH; done. Qed.

Lemma walk_ranges_patch script cursor line target_line ranges :
  covering script cursor ranges →
  patch line target_line (walk_ranges script cursor line target_line ranges) (old_lines (drop cursor script))
  = Some (new_lines (drop cursor script)).
Proof.
  revert cursor line target_line. induction ranges as [|[s e] ranges IH]; intros cursor line target_line; cbn [covering walk_ranges patch].
  - intros Hk. by rewrite keep_lines.
  - intros (Hcs & Hse & Hlen & Hk & Hcov). replace (cursor `max` s) with s by lia. replace (s `max` e) with e by lia.
    specialize (IH e (advance_base (advance_base line (part script cursor s)) (part script s e))
      (advance_target (advance_target target_line (part script cursor s)) (part script s e)) Hcov).
    rewrite (part_drop script cursor s), (part_drop script s e) by lia.
    cbn [base_start base_len target_start target_len hunk_lines]. rewrite diff_lines_old, diff_lines_new, !old_lines_app, !new_lines_app.
    rewrite !advance_base_length, !advance_target_length in *. pose proof (keep_lines _ Hk) as Hkeep. rewrite Hkeep in *.
    set (k := old_lines (part script cursor s)) in *. set (o := old_lines (part script s e)) in *.
    set (w := new_lines (part script s e)) in *.
    replace (line + length k - line) with (length k) by lia.
    replace (line + length k + length o - (line + length k)) with (length o) by lia.
    replace (target_line + length k + length w - (target_line + length k)) with (length w) by lia.
    rewrite bool_decide_true.
    + rewrite take_app_length, <- drop_drop, !drop_app_length. by rewrite IH.
    + rewrite drop_app_length, take_app_length. split_and!; (done || lia).
Qed.

(** *** The ranges *)

Fixpoint positions_from (k : nat) (script : list Edit) : list nat :=
  match script with
  | [] => []
  | e :: rest => if is_keep e then positions_from (S k) rest else k :: positions_from (S k) rest
  end.

Lemma change_positions_from script : change_positions script = positions_from 0 script.
Proof.
  assert (∀ k, (filter (λ p : nat * Edit, is_keep p.2 = false) (imap (λ i, pair (k + i)) script)).*1 = positions_from k script) as Hk.
  { induction script as [|e script IH]; intros k; [done|]. cbn [imap positions_from]. rewrite filter_cons. cbn [snd].
    assert (imap ((λ i, pair (k + i)) ∘ S) script = imap (λ i, pair (S k + i)) script) as ->
      by (apply imap_ext; intros i x _; simpl; f_equal; lia).
    destruct (is_keep e) eqn:He; case_decide; try congruence; [apply IH|]. rewrite fmap_cons, IH. cbn [fst]. f_equal. lia. }
  apply (Hk 0).
Qed.

Lemma positions_from_spec k script q :
  q ∈ positions_from k script ↔ ∃ i e, script !! i = Some e ∧ is_keep e = false ∧ q = k + i.
Proof.
  revert k. induction script as [|e script IH]; intros k; cbn [positions_from].
  { split; [by intros ?%elem_of_nil|]. intros (i & e & ? & _). by destruct i. }
  assert (q ∈ positions_from (S k) script ↔ ∃ i x, (e :: script) !! S i = Some x ∧ is_keep x = false ∧ q = k + S i) as Hrest.
  { rewrite IH. split; intros (i & x & ? & ? & ->); exists i, x; split_and!; (done || lia). }
  destruct (is_keep e) eqn:He; [|rewrite elem_of_cons]; rewrite Hrest; split.
  - intros (i & x & ? & ? & ->). eauto.
  - intros ([|i] & x & Hx & ? & ->); [simplify_eq/=; congruence|eauto].
  - intros [->|(i & x & ? & ? & ->)]; [exists 0, e; split_and!; (done || lia)|eauto].
  - intros ([|i] & x & Hx & ? & ->); [left; lia|right; exists i, x; done].
Qed.

(** The ranges from [c] to [d], in order. *)
Fixpoint chain (c : nat) (ranges : list (nat * nat)) (d : nat) : Prop :=
  match ranges with
  | [] => c ≤ d
  | (s, e) :: rest => c ≤ s ∧ s ≤ e ∧ chain e rest d
  end.

Lemma chain_snoc c ranges s e d : chain c (ranges ++ [(s, e)]) d ↔ chain c ranges s ∧ s ≤ e ∧ e ≤ d.
Proof. revert c. induction ranges as [|[s' e'] ranges IH]; intros c; cbn [chain app]; [tauto|]. rewrite IH. tauto. Qed.

Lemma chain_le c ranges d d' : chain c ranges d → d ≤ d' → chain c ranges d'.
Proof. revert c. induction ranges as [|[s e] ranges IH]; intros c; cbn [chain]; [lia|]. intros (? & ? & ?) ?. eauto. Qed.

Definition within (ranges : list (nat * nat)) (q : nat) : Prop := ∃ s e, (s, e) ∈ ranges ∧ s ≤ q < e.

(** The state of the loop after the change at [q]. *)
Definition windows (len context : nat) (ranges : list (nat * nat)) (q : nat) : Prop :=
  ∃ l s, ranges = l ++ [(s, (q + context + 1) `min` len)] ∧ s ≤ q ∧ chain 0 ranges len.

Lemma add_window_first len context q :
  q < len → windows len context (add_window len context [] q) q ∧ within (add_window len context [] q) q.
Proof.
  intros Hq. unfold add_window. cbn [last app]. split; [|eexists _, _; split; [by left|lia]].
  exists [], (q - context). split_and!; [done|lia|cbn; lia].
Qed.

Lemma add_window_next len context ranges p q :
  windows len context ranges p → p ≤ q → q < len →
  windows len context (add_window len context ranges q) q ∧
  (∀ x, within ranges x ∨ x = q → within (add_window len context ranges q) x).
Proof.
  intros (l & s & -> & Hs & Hch) Hpq Hq. apply chain_snoc in Hch as (Hch & Hse & He).
  unfold add_window. rewrite last_snoc, removelast_last. destruct (Nat.leb_spec (q - context) ((p + context + 1) `min` len)) as [Hle|Hgt].
  - split.
    + exists l, s. split; [done|]. split; [lia|]. apply chain_snoc. split; [done|lia].
    + intros x [(s' & e' & [Hin|[= -> ->]%list_elem_of_singleton]%elem_of_app & Hx)| ->].
      * exists s', e'. split; [set_solver|done].
      * exists s, ((q + context + 1) `min` len). split; [set_solver|lia].
      * exists s, ((q + context + 1) `min` len). split; [set_solver|lia].
  - split.
    + eexists _, (q - context). split; [done|]. split; [lia|]. apply chain_snoc. split; [|lia].
      apply chain_snoc. split_and!; [done|lia|lia].
    + intros x [(s' & e' & Hin & Hx)| ->].
      * exists s', e'. split; [set_solver|done].
      * exists (q - context), ((q + context + 1) `min` len). split; [set_solver|lia].
Qed.

Lemma windows_changes len context k script :
  k + length script ≤ len →
  (∀ ranges p, windows len context ranges p → p ≤ k →
     let ranges' := foldl (add_window len context) ranges (positions_from k script) in
     chain 0 ranges' len ∧ (∀ x, within ranges x ∨ x ∈ positions_from k script → within ranges' x)) ∧
  (let ranges' := foldl (add_window len context) [] (positions_from k script) in
   chain 0 ranges' len ∧ (∀ x, x ∈ positions_from k script → within ranges' x)).
Proof.
  revert k. induction script as [|e script IH]; intros k Hlen; cbn [positions_from foldl].
  - split; [|split; [cbn; lia|by intros x ?%elem_of_nil]]. intros ranges p (l & s & -> & _ & Hch) _. split; [done|].
    by intros x [?|?%elem_of_nil].
  - simpl in Hlen. destruct (IH (S k)) as [IH1 IH2]; [lia|]. destruct (is_keep e).
    + split; [|done]. intros ranges p Hw Hp. apply (IH1 ranges p Hw). lia.
    + cbn [foldl]. split.
      * intros ranges p Hw Hp. destruct (add_window_next len context ranges p k Hw) as [Hw' Hin]; [lia..|].
        destruct (IH1 _ k Hw') as [Hch Hall]; [lia|]. split; [done|].
        intros x [Hx|[Hx|Hx]%elem_of_cons]; apply Hall; auto.
      * destruct (add_window_first len context k) as [Hw' Hin]; [lia|].
        destruct (IH1 _ k Hw') as [Hch Hall]; [lia|]. split; [done|].
        intros x [->|Hx]%elem_of_cons; apply Hall; auto.
Qed.

(** Ranges in order that hold every change leave only kept lines between them. *)
Lemma chain_covering script cursor ranges :
  chain cursor ranges (length script) →
  (∀ i e, cursor ≤ i → script !! i = Some e → is_keep e = false → within ranges i) → covering script cursor ranges.
Proof.
  revert cursor. induction ranges as [|[s e] ranges IH]; intros cursor; cbn [chain covering].
  - intros _ Hall. apply Forall_lookup. intros i x Hx. rewrite lookup_drop in Hx.
    destruct (is_keep x) eqn:Hk; [done|]. destruct (Hall (cursor + i) x) as (? & ? & ?%elem_of_nil & _); [lia|done..].
  - intros (Hcs & Hse & Hch) Hall.
    assert (∀ c l d s' e', chain c l d → (s', e') ∈ l → c ≤ s') as Hlater.
    { clear. intros c l. revert c. induction l as [|[s0 e0] l IH]; intros c d s' e'; cbn [chain]; [by intros _ ?%elem_of_nil|].
      intros (? & ? & Hch) [[= -> ->]|Hin]%elem_of_cons; [done|]. specialize (IH _ _ _ _ Hch Hin). lia. }
    assert (e ≤ length script) as Hlen.
    { clear - Hch. revert e Hch. induction ranges as [|[s0 e0] ranges IH]; intros e; cbn [chain]; [done|].
      intros (? & ? & ?%IH). lia. }
    split_and!; [done..| |apply IH; [done|]].
    + apply Forall_lookup. intros i x [Hx Hi]%lookup_take_Some. rewrite lookup_drop in Hx. destruct (is_keep x) eqn:Hk; [done|].
      destruct (Hall (cursor + i) x) as (s' & e' & [[= -> ->]|Hin]%elem_of_cons & ?); [lia|done|done|lia|].
      specialize (Hlater _ _ _ _ _ Hch Hin). lia.
    + intros i x Hi Hx Hk. destruct (Hall i x) as (s' & e' & [[= -> ->]|Hin]%elem_of_cons & ?); [lia|done|done|lia|].
      by exists s', e'.
Qed.

Lemma hunk_ranges_covering script context : covering script 0 (hunk_ranges script context).
Proof.
  unfold hunk_ranges. rewrite change_positions_from.
  destruct (windows_changes (length script) context 0 script) as [_ [Hch Hall]]; [lia|].
  apply chain_covering; [done|]. intros i e _ He Hk. apply Hall, positions_from_spec. eauto.
Qed.

(** The hunks of a script are a patch between its two sides, whatever the context:
    applied to the old lines, each where it says it starts and of the lengths it says,
    they give the new lines. *)
Theorem hunks_patch script context :
  patch 1 1 (build_hunks script context) (old_lines script) = Some (new_lines script).
Proof. apply (walk_ranges_patch script 0 1 1), hunk_ranges_covering. Qed.

Lemma hunks_between_patch base target context :
  ∃ hs, hunks_between base target context = Some hs ∧ patch 1 1 hs (lines base) = Some (lines target).
Proof.
  unfold hunks_between. destruct (myers_script (lines base) (lines target)) as (script & -> & Ho & Hn & _).
  eexists. split; [done|]. rewrite <- Ho, <- Hn. apply (walk_ranges_patch script 0 1 1), hunk_ranges_covering.
Qed.

(** ** The diff of two manifests *)

Section manifest_diff.
Context {E : Type} (get_text : string → result E TextBlob) (base target : gmap string string) (context : nat).

(** What a side of a path reads as. *)
Definition body_of (hash : option string) : result E TextBlob :=
  match hash with None => Ok Missing | Some h => get_text h end.

Definition kind_of (b t : option string) : DiffKind :=
  match b, t with None, _ => KAdded | _, None => KRemoved | _, _ => KModified end.

(** An entry reports the change of its path: the two hashes and how the path changed;
    that a payload is unavailable exactly when a side in its manifest reads as missing;
    that it is binary exactly when a side is; hunks that patch one text into the other
    otherwise, and none in those cases. *)
Definition entry_right (e : DiffEntry) : Prop :=
  let b := base !! entry_path e in
  let t := target !! entry_path e in
  b ≠ t ∧ base_hash e = b ∧ target_hash e = t ∧ entry_kind e = kind_of b t ∧
  ∃ bb tb, body_of b = Ok bb ∧ body_of t = Ok tb ∧
    (payload_unavailable e = true ↔ (is_Some b ∧ bb = Missing) ∨ (is_Some t ∧ tb = Missing)) ∧
    (binary e = true ↔ is_binary bb = true ∨ is_binary tb = true) ∧
    if payload_unavailable e || binary e then hunks e = []
    else patch 1 1 (hunks e) (lines (default ""%string (text_of bb))) = Some (lines (default ""%string (text_of tb))).

Lemma diff_bodies_right path bb tb :
  base !! path ≠ target !! path → body_of (base !! path) = Ok bb → body_of (target !! path) = Ok tb →
  ∃ e, diff_bodies context path (kind_of (base !! path) (target !! path)) (base !! path) (target !! path) bb tb = Some e ∧
    entry_path e = path ∧ entry_right e.
Proof.
  intros Hne Hb Ht. unfold diff_bodies.
  set (u := bool_decide (is_Some (base !! path)) && is_missing bb || bool_decide (is_Some (target !! path)) && is_missing tb).
  destruct (hunks_between_patch (default ""%string (text_of bb)) (default ""%string (text_of tb)) context) as (hs & Hhs & Hp).
  assert (∃ l, (if u || (is_binary bb || is_binary tb) then Some []
      else hunks_between (default ""%string (text_of bb)) (default ""%string (text_of tb)) context) = Some l ∧
    if u || (is_binary bb || is_binary tb) then l = [] else
      patch 1 1 l (lines (default ""%string (text_of bb))) = Some (lines (default ""%string (text_of tb)))) as (l & -> & Hl).
  { destruct (u || _); eauto. }
  eexists. split; [done|]. split; [done|]. unfold entry_right. cbn. split_and!; try done.
  exists bb, tb. split_and!; try done; [|by rewrite orb_true_iff].
  unfold u. rewrite orb_true_iff, !andb_true_iff, !bool_decide_eq_true.
  assert (∀ x, is_missing x = true ↔ x = Missing) as Hm by (by intros []). by rewrite !Hm.
Qed.

Lemma diff_path_spec path :
  ∃ r, diff_path get_text base target context path = Some r ∧
    match r with
    | Err e => base !! path ≠ target !! path ∧ ∃ h, (base !! path = Some h ∨ target !! path = Some h) ∧ get_text h = Err e
    | Ok None => base !! path = target !! path
    | Ok (Some e) => entry_path e = path ∧ entry_right e
    end.
Proof.
  assert (base !! path ≠ target !! path →
    ∃ r, match (b ← body_of (base !! path); t ← body_of (target !! path); Ok (b, t)) with
         | Err e => Some (Err e)
         | Ok (b, t) => (λ e, Ok (Some e)) <$>
             diff_bodies context path (kind_of (base !! path) (target !! path)) (base !! path) (target !! path) b t
         end = Some r ∧
      match r with
      | Err e => base !! path ≠ target !! path ∧ ∃ h, (base !! path = Some h ∨ target !! path = Some h) ∧ get_text h = Err e
      | Ok None => base !! path = target !! path
      | Ok (Some e) => entry_path e = path ∧ entry_right e
      end) as Hgen.
  { intros Hne. destruct (body_of (base !! path)) as [bb|e] eqn:Hb; cbn.
    - destruct (body_of (target !! path)) as [tb|e] eqn:Ht; cbn.
      + destruct (diff_bodies_right path bb tb Hne Hb Ht) as (e & -> & He). by eexists.
      + eexists. split; [done|]. split; [done|]. destruct (target !! path) as [h|]; [|done]. exists h. auto.
    - eexists. split; [done|]. split; [done|]. destruct (base !! path) as [h|]; [|done]. exists h. auto. }
  unfold diff_path. destruct (base !! path) as [hb|] eqn:Hb, (target !! path) as [ht|] eqn:Ht; cbn in Hgen.
  - case_bool_decide as Heq; [subst; eexists; split; [done|]; done|]. apply Hgen. congruence.
  - by apply Hgen.
  - by apply Hgen.
  - by eexists.
Qed.

Lemma diff_paths_spec paths :
  ∃ r, diff_paths get_text base target context paths = Some r ∧
    match r with
    | Err e => ∃ p h, base !! p ≠ target !! p ∧ (base !! p = Some h ∨ target !! p = Some h) ∧ get_text h = Err e
    | Ok entries => entry_path <$> entries = filter (λ p, base !! p ≠ target !! p) paths ∧ Forall entry_right entries
    end.
Proof.
  induction paths as [|p paths (r & Hr & IH)]; cbn [diff_paths]; [by eexists|].
  destruct (diff_path_spec p) as ([[e|]|err] & -> & Hp).
  - rewrite Hr. cbn [fmap option_fmap option_map]. eexists. split; [done|]. destruct r as [entries|err]; cbn [fmap result_fmap]; [|done].
    destruct IH as [IHp IHf]. destruct Hp as [He Hright]. rewrite filter_cons_True by (rewrite <- He; apply Hright).
    rewrite fmap_cons, IHp, He. split; [done|]. by constructor.
  - rewrite Hr. cbn [fmap option_fmap option_map]. eexists. split; [done|]. destruct r as [entries|err]; cbn [fmap result_fmap]; [|done].
    by rewrite filter_cons_False by (intros ?; congruence).
  - eexists. split; [done|]. destruct Hp as (? & h & ? & ?). eauto.
Qed.
End manifest_diff.

(** The diff of two manifests always returns.  Without a read error it has one entry
    for each path on which the manifests differ, in the order of the paths, and each
    entry is right: it never invents a body, and the hunks of two readable texts patch
    one into the other.  An error is the error of a read of one of those paths. *)
Theorem diff_manifests_exact {E} (get_text : string → result E TextBlob) base target context :
  ∃ r, diff_manifests get_text base target context = Some r ∧
    match r with
    | Err e => ∃ p h, base !! p ≠ target !! p ∧ (base !! p = Some h ∨ target !! p = Some h) ∧ get_text h = Err e
    | Ok entries =>
        entry_path <$> entries = filter (λ p, base !! p ≠ target !! p) (set_keys (dom base ∪ dom target)) ∧
        Forall (entry_right get_text base target) entries
    end.
Proof. apply diff_paths_spec. Qed.

(** A change of the line ends of a text alone is an entry without hunks. *)
Example newline_change_has_no_hunks :
  hunks_between (bytes [97; 13; 10])%N (bytes [97])%N 3 = Some [].
Proof. reflexivity. Qed.
