(* ===== verification/ManifestTree.v ===== *)
(** The manifest as a content-addressed prolly tree (store/manifest_tree.rs): boundaries
    from keys, the build of a tree, its incremental update, reads, reachability and
    diff.

    The content store is the interface [ContentBlobs]; a computation threads its state
    and stops at the first error, with the writes before it kept.  The text of a node is
    [NodeJson].  [u32] levels are [nat]: the depth of a tree is logarithmic.  A loop runs
    on fuel, and [OutOfFuel] says that it ran out; the theorems give fuel that is
    enough. *)
From stdpp Require Import pretty.
From S2P Require Import Prelude RustStr EventChain Chunking Diff.

(** ** The seam *)

Class ContentBlobs (S E : Type) := {
  put_text : S → string → S * result E string;
  get_text : S → string → result E TextBlob;
}.

(** An ordered run of [(key, id)] entries. *)
Abbreviation Group := (list (string * string)).

Record Node := mkNode { node_tag : string; node_level : nat; node_entries : Group }.

(** [serde_json] on nodes. *)
Class NodeJson := {
  node_text : Node → string;
  node_of_text : string → option Node;
}.

Inductive tree_error (E : Type) :=
| Backend (e : E)
| NodeAbsent (id : string)
| NodeMismatch (id actual : string)
| NodeMalformed (id : string)
| NodeForeign (id tag : string)
| OutOfFuel.
Arguments Backend {E}. Arguments NodeAbsent {E}. Arguments NodeMismatch {E}. Arguments NodeMalformed {E}.
Arguments NodeForeign {E}. Arguments OutOfFuel {E}.

(** ** Computations *)

Section monad.
Context {S E : Type}.
Definition T (A : Type) : Type := S → S * result (tree_error E) A.
Definition t_ret {A} (a : A) : T A := λ s, (s, Ok a).
Definition t_fail {A} (e : tree_error E) : T A := λ s, (s, Err e).
Definition t_bind {A B} (m : T A) (f : A → T B) : T B := λ s,
  match m s with (s', Ok a) => f a s' | (s', Err e) => (s', Err e) end.
End monad.
Arguments T : clear implicits.

Declare Scope tree_scope.
Delimit Scope tree_scope with tree.
Notation "x <- m ; k" := (t_bind m (λ x, k)) (at level 100, m at next level, right associativity) : tree_scope.
Local Open Scope tree_scope.

(** ** Boundaries *)

Definition NODE_TAG : string := "whipplescript.manifest-tree.v2".
Definition LEGACY_NODE_TAGS : list string := ["whipplescript.manifest-tree.v1"%string].
Definition is_known_tag (tag : string) : bool := bool_decide (tag = NODE_TAG) || bool_decide (tag ∈ LEGACY_NODE_TAGS).

Definition TARGET_FANOUT : Z := 16.
Definition MIN_ENTRIES : nat := 4.
Definition MAX_ENTRIES : nat := 64.

(** The value of a hexadecimal digit of a digest. *)
Definition digest_digit (c : ascii) : Z :=
  let n := Z.of_N (N_of_ascii c) in if (n <? 58)%Z then (n - 48)%Z else (n - 87)%Z.

(** The first two bytes of a digest. *)
Definition digest_window (digest : string) : Z :=
  foldl (λ w c, (16 * w + digest_digit c)%Z) 0%Z (take 4 (String.list_ascii_of_string digest)).

Definition record_separator : string := String "030"%char EmptyString.

Definition is_boundary `{Sha256} (key : string) : bool :=
  (digest_window (sha256_hex (NODE_TAG +:+ record_separator +:+ "boundary" +:+ record_separator +:+ key)) mod TARGET_FANOUT =? 0)%Z.

(** The scan with an open run. *)
Fixpoint split_from `{Sha256} (current : Group) (entries : Group) : list Group * Group :=
  match entries with
  | [] => ([], current)
  | entry :: rest =>
      let current := current ++ [entry] in
      if (MAX_ENTRIES <=? length current) || (is_boundary entry.1 && (MIN_ENTRIES <=? length current))
      then let '(nodes, carry) := split_from [] rest in (current :: nodes, carry)
      else split_from current rest
  end.

Definition split_with_carry `{Sha256} (entries : Group) : list Group * Group := split_from [] entries.

Definition split `{Sha256} (entries : Group) : list Group :=
  let '(nodes, carry) := split_with_carry entries in
  if bool_decide (carry = []) then nodes else nodes ++ [carry].

(** *** The merge of changes into a leaf *)

Abbreviation Change := (string * option string)%type.

Definition set_entry (c : Change) : Group := match c.2 with Some id => [(c.1, id)] | None => [] end.

Fixpoint merge_into_leaf (entries : Group) : list Change → Group :=
  fix merge_changes (changes : list Change) : Group :=
    match entries, changes with
    | e :: entries', c :: changes' =>
        if bool_decide (e.1 = c.1) then set_entry c ++ merge_into_leaf entries' changes'
        else if bool_decide (String.le e.1 c.1) then e :: merge_into_leaf entries' changes
        else set_entry c ++ merge_changes changes'
    | _, [] => entries
    | [], c :: changes' => set_entry c ++ merge_changes changes'
    end.

(** [rest.partition_point(|(path, _)| path <= last_key)]. *)
Fixpoint changes_up_to (last_key : string) (changes : list Change) : nat :=
  match changes with
  | c :: rest => if bool_decide (String.le c.1 last_key) then Datatypes.S (changes_up_to last_key rest) else 0
  | [] => 0
  end.

Section tree.
Context {S E : Type} `{ContentBlobs S E} `{NodeJson} `{Sha256}.

(** ** Nodes *)

Definition parse_node (body : string) : option Node :=
  node ← node_of_text body; if is_known_tag (node_tag node) then Some node else None.

Definition is_node (body : string) : bool := bool_decide (is_Some (parse_node body)).

Definition body_id (body : string) : string := content_hash_hex (String.list_ascii_of_string body).

Definition put_body (body : string) : T S E string := λ s,
  match put_text s body with (s', Ok id) => (s', Ok id) | (s', Err e) => (s', Err (Backend e)) end.

Definition last_key (entries : Group) : string := default ""%string (fst <$> last entries).

Definition store_node (level : nat) (entries : Group) : T S E (string * string) :=
  id <- put_body (node_text (mkNode NODE_TAG level entries)) ; t_ret (last_key entries, id).

Definition read_node (s : S) (id : string) : result (tree_error E) Node :=
  match get_text s id with
  | Err e => Err (Backend e)
  | Ok blob =>
      match text_of blob with
      | None => Err (NodeAbsent id)
      | Some body =>
          if bool_decide (body_id body = id) then
            match node_of_text body with
            | None => Err (NodeMalformed id)
            | Some node => if is_known_tag (node_tag node) then Ok node else Err (NodeForeign id (node_tag node))
            end
          else Err (NodeMismatch id (body_id body))
      end
  end.

Definition load_node (id : string) : T S E Node := λ s, (s, read_node s id).

Fixpoint store_nodes (level : nat) (groups : list Group) : T S E Group :=
  match groups with
  | [] => t_ret []
  | g :: rest => parent <- store_node level g ; parents <- store_nodes level rest ; t_ret (parent :: parents)
  end.

(** ** Build *)

(** The levels of [build], from the entries of a level. *)
Fixpoint build_levels (fuel : nat) (level : nat) (current : Group) : T S E string :=
  match fuel with
  | 0 => t_fail OutOfFuel
  | Datatypes.S fuel' =>
      parents <- store_nodes level (split current) ;
      match parents with
      | [(_, id)] => t_ret id
      | _ => build_levels fuel' (level + 1) parents
      end
  end.

Definition build (manifest : gmap string string) : T S E string :=
  let entries := map_entries manifest in
  if bool_decide (entries = []) then node <- store_node 0 [] ; t_ret node.2
  else build_levels (length entries) 0 entries.

(** ** Incremental update *)

(** The children of a node under the changes that are left for them; [None] when one of
    them is not locally updatable. *)
Fixpoint rebuild_children (rebuild : Node → list Change → bool → T S E (option Group)) (is_rightmost : bool)
    (kids : Group) (rest : list Change) (merged : Group) : T S E (option Group) :=
  match kids with
  | [] => t_ret (Some merged)
  | (key, child_id) :: kids' =>
      let is_last := bool_decide (kids' = []) in
      let n := if is_last then length rest else changes_up_to key rest in
      let mine := take n rest in
      let tail := drop n rest in
      if bool_decide (mine = []) then rebuild_children rebuild is_rightmost kids' tail (merged ++ [(key, child_id)])
      else
        child <- load_node child_id ;
        replacement <- rebuild child mine (is_rightmost && is_last) ;
        match replacement with
        | None => t_ret None
        | Some entries => rebuild_children rebuild is_rightmost kids' tail (merged ++ entries)
        end
  end.

Fixpoint rebuild_range (fuel : nat) (node : Node) (changes : list Change) (is_rightmost : bool) : T S E (option Group) :=
  match fuel with
  | 0 => t_fail OutOfFuel
  | Datatypes.S fuel' =>
      entries <- (if node_level node =? 0 then t_ret (Some (merge_into_leaf (node_entries node) changes))
                  else rebuild_children (rebuild_range fuel') is_rightmost (node_entries node) changes []) ;
      match entries with
      | None => t_ret None
      | Some entries =>
          let '(groups, carry) := split_with_carry entries in
          if bool_decide (carry = []) then out <- store_nodes (node_level node) groups ; t_ret (Some out)
          else if is_rightmost then out <- store_nodes (node_level node) (groups ++ [carry]) ; t_ret (Some out)
          else t_ret None
      end
  end.

(** The levels above an updated root. *)
Fixpoint grow_levels (fuel : nat) (level : nat) (current : Group) : T S E string :=
  match current with
  | [(_, id)] => t_ret id
  | _ =>
      match fuel with
      | 0 => t_fail OutOfFuel
      | Datatypes.S fuel' =>
          parents <- store_nodes (level + 1) (split current) ; grow_levels fuel' (level + 1) parents
      end
  end.

Definition apply_locally (fuel : nat) (root : string) (ordered : list Change) : T S E (option string) :=
  root_node <- load_node root ;
  updated <- rebuild_range fuel root_node ordered true ;
  match updated with
  | None => t_ret None
  | Some entries =>
      if bool_decide (entries = []) then node <- store_node 0 [] ; t_ret (Some node.2)
      else id <- grow_levels (length entries) (node_level root_node) entries ; t_ret (Some id)
  end.

(** ** Reads *)

(** The walk of [load_from]: the head of the list is the top of the stack. *)
Fixpoint load_walk (fuel : nat) (s : S) (node : Node) (stack : list string) (out : gmap string string)
    : result (tree_error E) (gmap string string) :=
  match fuel with
  | 0 => Err OutOfFuel
  | Datatypes.S fuel' =>
      let '(stack, out) :=
        if node_level node =? 0 then (stack, foldl (λ m e, <[ e.1 := e.2 ]> m) out (node_entries node))
        else (reverse (node_entries node).*2 ++ stack, out) in
      match stack with
      | [] => Ok out
      | id :: stack' => node ← read_node s id; load_walk fuel' s node stack' out
      end
  end.

Definition load_from (fuel : nat) (s : S) (root : Node) : result (tree_error E) (gmap string string) :=
  load_walk fuel s root [] ∅.

Definition load (fuel : nat) (s : S) (root : string) : result (tree_error E) (gmap string string) :=
  node ← read_node s root; load_from fuel s node.

Fixpoint get (fuel : nat) (s : S) (id path : string) : result (tree_error E) (option string) :=
  match fuel with
  | 0 => Err OutOfFuel
  | Datatypes.S fuel' =>
      node ← read_node s id;
      if node_level node =? 0 then Ok (snd <$> List.find (λ e, bool_decide (e.1 = path)) (node_entries node))
      else match List.find (λ e, bool_decide (String.le path e.1)) (node_entries node) with
      | None => Ok None
      | Some (_, child) => get fuel' s child path
      end
  end.

Fixpoint reach_walk (fuel : nat) (s : S) (stack : list string) (ids : gset string) : result (tree_error E) (gset string) :=
  match stack with
  | [] => Ok ids
  | id :: stack' =>
      match fuel with
      | 0 => Err OutOfFuel
      | Datatypes.S fuel' =>
          if bool_decide (id ∈ ids) then reach_walk fuel' s stack' ids
          else
            node ← read_node s id;
            if node_level node =? 0 then reach_walk fuel' s stack' (list_to_set (node_entries node).*2 ∪ ({[ id ]} ∪ ids))
            else reach_walk fuel' s (reverse (node_entries node).*2 ++ stack') ({[ id ]} ∪ ids)
      end
  end.

Definition reachable_ids (fuel : nat) (s : S) (root : string) : result (tree_error E) (gset string) :=
  reach_walk fuel s [root] ∅.

Definition apply (fuel : nat) (root : string) (changes : gmap string (option string)) : T S E string :=
  if bool_decide (changes = ∅) then t_ret root
  else
    id <- apply_locally fuel root (map_entries changes) ;
    match id with
    | Some id => t_ret id
    | None =>
        manifest <- (λ s, (s, load fuel s root)) ;
        build (foldl (λ m c, match c.2 with Some id => <[ c.1 := id ]> m | None => delete c.1 m end)
          manifest (map_entries changes))
    end.

(** ** Diff *)

Record ManifestChange := mkChange { change_path : string; change_before : option string; change_after : option string }.

Fixpoint expand_frontier (s : S) (frontier : list string) (leaves : gmap string string)
    : result (tree_error E) (list string * gmap string string) :=
  match frontier with
  | [] => Ok ([], leaves)
  | id :: rest =>
      node ← read_node s id;
      if node_level node =? 0
      then expand_frontier s rest (foldl (λ m e, <[ e.1 := e.2 ]> m) leaves (node_entries node))
      else '(next, leaves) ← expand_frontier s rest leaves; Ok ((node_entries node).*2 ++ next, leaves)
  end.

Fixpoint diff_frontiers (fuel : nat) (s : S) (before_frontier after_frontier : list string) (before after : gmap string string)
    : result (tree_error E) (gmap string string * gmap string string) :=
  match before_frontier, after_frontier with
  | [], [] => Ok (before, after)
  | _, _ =>
      match fuel with
      | 0 => Err OutOfFuel
      | Datatypes.S fuel' =>
          let shared := filter (λ id, id ∈ after_frontier) before_frontier in
          '(before_frontier, before) ← expand_frontier s (filter (λ id, id ∉ shared) before_frontier) before;
          '(after_frontier, after) ← expand_frontier s (filter (λ id, id ∉ shared) after_frontier) after;
          diff_frontiers fuel' s before_frontier after_frontier before after
      end
  end.

Definition changes_to (before after : gmap string string) : list ManifestChange :=
  omap (λ e, if bool_decide (before !! e.1 = Some e.2) then None else Some (mkChange e.1 (before !! e.1) (Some e.2))) (map_entries after).
Definition changes_from (before after : gmap string string) : list ManifestChange :=
  omap (λ e, if bool_decide (is_Some (after !! e.1)) then None else Some (mkChange e.1 (Some e.2) None)) (map_entries before).

Definition change_le (c c' : ManifestChange) : Prop := String.le (change_path c) (change_path c').
#[export] Instance change_le_dec c c' : Decision (change_le c c').
Proof. unfold change_le. apply _. Defined.

Definition diff (fuel : nat) (s : S) (before_root after_root : string) : result (tree_error E) (list ManifestChange) :=
  if bool_decide (before_root = after_root) then Ok []
  else
    '(before, after) ← diff_frontiers fuel s [before_root] [after_root] ∅ ∅;
    Ok (merge_sort change_le (changes_to before after ++ changes_from before after)).
End tree.

(** ** What a content store promises

    [wrote] is the bodies that were put.  A put answers the identity of its body and
    keeps what reads. *)
Class ContentBlobsLaws (S E : Type) `{ContentBlobs S E} `{Sha256} := {
  wrote : S → list string;
  put_answers : ∀ s body, ∃ s', put_text s body = (s', Ok (body_id body));
  put_wrote : ∀ s body s' r, put_text s body = (s', r) → wrote s' = body :: wrote s;
  put_keeps : ∀ s body s' r id t, put_text s body = (s', r) → get_text s id = Ok (Text t) → get_text s' id = Ok (Text t);
}.

(** Every body that was put reads back: no two of them had one identity. *)
Definition faithful {S E} `{ContentBlobsLaws S E} (s : S) : Prop :=
  ∀ body, body ∈ wrote s → get_text s (body_id body) = Ok (Text body).

Definition extends {S E} `{ContentBlobsLaws S E} (s s' : S) : Prop :=
  (∀ id t, get_text s id = Ok (Text t) → get_text s' id = Ok (Text t)) ∧ (∀ body, body ∈ wrote s → body ∈ wrote s').

#[export] Instance extends_preorder {S E} `{ContentBlobsLaws S E} : PreOrder extends.
Proof. split; [by split|]. intros s1 s2 s3 [? ?] [? ?]. split; eauto. Qed.

(** ** Scans *)

Section scans.
Context `{Sha256}.

Lemma split_from_app current entries entries' :
  split_from current (entries ++ entries') =
    let '(nodes, carry) := split_from current entries in
    let '(nodes', carry') := split_from carry entries' in (nodes ++ nodes', carry').
Proof.
  revert current. induction entries as [|e entries IH]; intros current; cbn [split_from app].
  { by destruct (split_from current entries'). }
  destruct (_ || _); rewrite IH; [|done]. destruct (split_from [] entries) as [nodes carry].
  by destruct (split_from carry entries').
Qed.

(** The scan loses nothing; a closed group is not empty. *)
Lemma split_from_mjoin current entries :
  let '(nodes, carry) := split_from current entries in
  current ++ entries = mjoin nodes ++ carry ∧ Forall (λ g, g ≠ []) nodes.
Proof.
  revert current. induction entries as [|e entries IH]; intros current; cbn [split_from].
  { split; [by rewrite app_nil_r|constructor]. }
  destruct (_ || _).
  - specialize (IH []). destruct (split_from [] entries) as [nodes carry]. destruct IH as [IH1 IH2]. split.
    + rewrite mjoin_cons, <- !app_assoc. cbn in *. by rewrite IH1.
    + constructor; [by destruct current|done].
  - specialize (IH (current ++ [e])). destruct (split_from _ entries) as [nodes carry]. by rewrite <- app_assoc in IH.
Qed.

Lemma split_mjoin entries : mjoin (split entries) = entries ∧ Forall (λ g, g ≠ []) (split entries).
Proof.
  unfold split, split_with_carry. pose proof (split_from_mjoin [] entries) as Hs. destruct (split_from [] entries) as [nodes carry].
  destruct Hs as [Hs Hne]. cbn in Hs. case_bool_decide as Hc; [subst carry; by rewrite Hs, app_nil_r|].
  split; [rewrite join_app; cbn; by rewrite app_nil_r|]. apply Forall_app. split; [done|]. by constructor.
Qed.

(** What ends at a cut is scanned on its own. *)
Definition closed (entries : Group) : Prop := (split_with_carry entries).2 = [].

Lemma split_closed_app entries entries' : closed entries → split (entries ++ entries') = split entries ++ split entries'.
Proof.
  unfold closed, split, split_with_carry. intros Hc. rewrite split_from_app. destruct (split_from [] entries) as [nodes carry]. cbn in Hc. subst carry.
  destruct (split_from [] entries') as [nodes' carry']. cbn. destruct (bool_decide (carry' = [])); [done|]. by rewrite app_assoc.
Qed.

Lemma closed_app entries entries' : closed entries → closed entries' → closed (entries ++ entries').
Proof.
  unfold closed, split_with_carry. intros Hc Hc'. rewrite split_from_app. destruct (split_from [] entries) as [nodes carry]. cbn in Hc. subst carry.
  by destruct (split_from [] entries').
Qed.

(** A level is shorter than the one below it. *)
Lemma split_from_length current entries :
  let '(nodes, carry) := split_from current entries in 4 * length nodes + length carry ≤ length current + length entries.
Proof.
  revert current. induction entries as [|e entries IH]; intros current; cbn [split_from length]; [lia|].
  destruct (_ || _) eqn:Hc.
  - specialize (IH []). destruct (split_from [] entries) as [nodes carry]. cbn [length] in *.
    assert (4 ≤ length (current ++ [e])) as Hl.
    { apply orb_true_iff in Hc as [Hc%Nat.leb_le|[_ Hc%Nat.leb_le]%andb_true_iff]; unfold MAX_ENTRIES, MIN_ENTRIES in Hc; lia. }
    rewrite length_app in Hl. cbn [length] in Hl. lia.
  - specialize (IH (current ++ [e])). destruct (split_from _ entries) as [nodes carry]. rewrite length_app in IH. cbn [length] in IH. lia.
Qed.

Lemma split_length entries : 2 ≤ length entries → length (split entries) < length entries.
Proof.
  intros Hl. unfold split, split_with_carry. pose proof (split_from_length [] entries) as Hs. destruct (split_from [] entries) as [nodes carry].
  cbn [length] in Hs. case_bool_decide; [lia|]. rewrite length_app. cbn [length]. destruct carry; [done|]. cbn [length] in Hs. lia.
Qed.

Lemma split_length_le entries : length (split entries) ≤ length entries.
Proof.
  unfold split, split_with_carry. pose proof (split_from_length [] entries) as Hs. destruct (split_from [] entries) as [nodes carry].
  cbn [length] in Hs. case_bool_decide; [lia|]. rewrite length_app. destruct carry; [done|]. cbn [length] in *. lia.
Qed.

Lemma split_nil entries : split entries = [] → entries = [].
Proof. intros Hs. destruct (split_mjoin entries) as [Hj _]. by rewrite Hs in Hj. Qed.
End scans.

(** ** A store in memory

    Bodies by identity, and the log of the writes; a body that is there is kept. *)

Record MemoryBlobs := mkMemory { blob_bodies : gmap string string; blob_writes : list string }.

Section memory.
Context `{Sha256}.

#[export] Instance memory_blobs : ContentBlobs MemoryBlobs Empty_set := {
  put_text s body :=
    (mkMemory (match blob_bodies s !! body_id body with Some _ => blob_bodies s | None => <[ body_id body := body ]> (blob_bodies s) end)
       (body :: blob_writes s), Ok (body_id body));
  get_text s id := Ok (match blob_bodies s !! id with Some body => Text body | None => Missing end);
}.

#[export] Program Instance memory_laws : ContentBlobsLaws MemoryBlobs Empty_set := {| wrote := blob_writes |}.
Next Obligation. intros s body. eexists. reflexivity. Qed.
Next Obligation. by intros s body s' r [= <- _]. Qed.
Next Obligation.
  intros s body s' r id t [= <- _] Hg. cbn [get_text memory_blobs blob_bodies] in *. destruct (blob_bodies s !! body_id body) eqn:Hb; [done|].
  destruct (decide (id = body_id body)) as [->|Hne]; [by rewrite Hb in Hg|]. by rewrite lookup_insert_ne by done.
Qed.

(** A memory is faithful when a scan of its log says so. *)
Lemma memory_faithful (s : MemoryBlobs) :
  forallb (λ body, bool_decide (blob_bodies s !! body_id body = Some body)) (blob_writes s) = true → faithful s.
Proof.
  intros Hall body Hb. rewrite forallb_forall in Hall. specialize (Hall body). rewrite <- list_elem_of_In in Hall.
  apply Hall, bool_decide_eq_true in Hb. cbn [get_text memory_blobs]. by rewrite Hb.
Qed.
End memory.

(** Nodes as binary numerals. *)
#[export] Instance node_eq_dec : EqDecision Node.
Proof. solve_decision. Defined.
#[export] Instance node_countable : Countable Node :=
  inj_countable' (λ n, (node_tag n, node_level n, node_entries n)) (λ p, mkNode p.1.1 p.1.2 p.2) (λ n, match n with mkNode _ _ _ => eq_refl end).

Fixpoint bits_of (p : positive) : string :=
  match p with xH => "." | xO p' => String "0" (bits_of p') | xI p' => String "1" (bits_of p') end.
Fixpoint of_bits (s : string) : option positive :=
  match s with
  | String "." EmptyString => Some xH
  | String "0" s' => xO <$> of_bits s'
  | String "1" s' => xI <$> of_bits s'
  | _ => None
  end.

Lemma of_bits_of p : of_bits (bits_of p) = Some p.
Proof. induction p as [p IH|p IH|]; cbn; [by rewrite IH|by rewrite IH|done]. Qed.

Definition bits_json : NodeJson := {|
  node_text n := bits_of (encode n);
  node_of_text s := p ← of_bits s; decode p;
|}.

(** A digest in which the keys that end in [0] are boundaries. *)
Definition sample_sha : Sha256 := λ s,
  if String.prefix NODE_TAG s then
    match last (String.list_ascii_of_string s) with Some "0"%char => "0000"%string | _ => "0001"%string end
  else pretty (foldl (λ h c, N.land (h * 257 + N_of_ascii c + 1) 18446744073709551615)%N 0%N (String.list_ascii_of_string s)).

Definition sample_manifest : gmap string string :=
  list_to_map [("a1", "w"); ("a2", "x"); ("a3", "y"); ("a40", "z"); ("b1", "v")]%string.


Lemma bits_json_law n : @node_of_text bits_json (@node_text bits_json n) = Some n.
Proof. cbn [node_of_text node_text bits_json]. rewrite of_bits_of. cbn. by rewrite decode_encode. Qed.
