(* ===== verification/TreeReads.v ===== *)
(** Manifest trees in a content store (store/manifest_tree.rs): what a store holds under a
    root, the build of a tree, and that reads, reachability and diffs of a tree that is
    there are exact. *)
From S2P Require Import Prelude RustStr EventChain Chunking Diff ManifestTree.

(** ** Entries in the order of their keys *)

Definition key_lt (k k' : string) : Prop := String.le k k' ∧ k ≠ k'.
Abbreviation ordered es := (StronglySorted key_lt (fst <$> es)).

Lemma key_lt_le k k' : ¬ String.le k k' → key_lt k' k.
Proof. intros Hn. destruct (total String.le k k') as [?|Hle]; [done|]. split; [done|]. by intros ->. Qed.

Lemma key_lt_not_le k k' : key_lt k k' → ¬ String.le k' k.
Proof. intros [Hle Hne] Hle'. by apply Hne, (anti_symm String.le). Qed.

Lemma key_lt_trans_le k1 k2 k3 : key_lt k1 k2 → String.le k2 k3 → key_lt k1 k3.
Proof. intros Hlt Hle. apply key_lt_le. intros Hle'. apply (key_lt_not_le _ _ Hlt). by transitivity k3. Qed.

Lemma key_le_lt_trans k1 k2 k3 : String.le k1 k2 → key_lt k2 k3 → key_lt k1 k3.
Proof. intros Hle Hlt. apply key_lt_le. intros Hle'. apply (key_lt_not_le _ _ Hlt). by transitivity k1. Qed.

Lemma ordered_NoDup {A} (es : list (string * A)) : ordered es → NoDup es.*1.
Proof.
  induction 1 as [|k ks Hs IH HF]; constructor; [|done]. intros Hin. rewrite Forall_forall in HF. by destruct (HF k Hin).
Qed.

Lemma map_entries_ordered {A} (m : gmap string A) : ordered (map_entries m).
Proof.
  rewrite map_entries_keys. pose proof (NoDup_map_keys m) as Hn. unfold map_keys in *. pose proof (sorted_strings_sorted (map_to_list m).*1) as Hs.
  induction Hs as [|k ks Hs IH HF]; [constructor|]. apply NoDup_cons in Hn as [Hk Hn]. constructor; [by apply IH|].
  apply Forall_forall. intros k' Hk'. rewrite Forall_forall in HF. split; [by apply HF|]. by intros ->.
Qed.

Lemma ordered_app {A} (es es' : list (string * A)) :
  ordered (es ++ es') ↔ ordered es ∧ ordered es' ∧ ∀ k k', k ∈ es.*1 → k' ∈ es'.*1 → key_lt k k'.
Proof.
  rewrite fmap_app. induction es.*1 as [|k ks IH]; cbn.
  - split; [intros Hs; split_and!; [constructor|done|]; by intros ? ? ?%elem_of_nil|tauto].
  - split.
    + intros [Hs [HF HF']%Forall_app]%StronglySorted_inv. apply IH in Hs as (H1 & H2 & H3). split_and!; [by constructor|done|].
      intros k1 k2 [->|?]%elem_of_cons ?; [|by apply H3]. rewrite Forall_forall in HF'. by apply HF'.
    + intros ([Hs HF]%StronglySorted_inv & H2 & H3). constructor.
      * apply IH. split_and!; [done..|]. intros k1 k2 ? ?. apply H3; [by apply elem_of_cons; right|done].
      * apply Forall_app. split; [done|]. apply Forall_forall. intros k' Hk'. apply H3; [by apply elem_of_cons; left|done].
Qed.

(** The last key is the greatest. *)
Lemma ordered_last es k : ordered es → k ∈ es.*1 → String.le k (last_key es).
Proof.
  induction es as [|e es _] using rev_ind; [by intros _ ?%elem_of_nil|]. intros (_ & _ & Hlt)%ordered_app Hk.
  unfold last_key. rewrite last_snoc. cbn [fmap option_fmap option_map default]. rewrite fmap_app in Hk.
  apply elem_of_app in Hk as [Hk|Hk]; [apply Hlt; [done|by left]|]. by apply list_elem_of_singleton in Hk as ->.
Qed.

Lemma last_key_elem es : es ≠ [] → last_key es ∈ es.*1.
Proof.
  induction es as [|e es _] using rev_ind; [done|]. intros _. unfold last_key. rewrite last_snoc, fmap_app. apply elem_of_app. right. by left.
Qed.

Abbreviation entry_map es := (list_to_map es : gmap string string).

Lemma map_entries_map (m : gmap string string) : entry_map (map_entries m) = m.
Proof.
  apply map_eq. intros k. apply option_eq. intros v. rewrite <- elem_of_list_to_map by apply NoDup_map_entries. apply elem_of_map_entries.
Qed.

Lemma foldl_insert_map (es : Group) (out : gmap string string) :
  NoDup es.*1 → foldl (λ m e, <[ e.1 := e.2 ]> m) out es = entry_map es ∪ out.
Proof.
  revert out. induction es as [|[k v] es IH]; intros out Hn; cbn [foldl]; [cbn; by rewrite map_empty_union|].
  rewrite fmap_cons in Hn. apply NoDup_cons in Hn as [Hk Hn]. rewrite IH by done. cbn [list_to_map foldr uncurry fst snd].
  change (foldr _ _ es) with (entry_map es). apply not_elem_of_list_to_map_1 in Hk.
  rewrite <- insert_union_r by done. by rewrite insert_union_l.
Qed.

Lemma find_entry es path : snd <$> List.find (λ e : string * string, bool_decide (e.1 = path)) es = entry_map es !! path.
Proof.
  induction es as [|[k v] es IH]; cbn [List.find]; [by cbn; rewrite lookup_empty|]. cbn [list_to_map foldr uncurry fst snd].
  case_bool_decide as Hk; [cbn in Hk; subst k; by rewrite lookup_insert_eq|]. cbn in Hk. by rewrite lookup_insert_ne.
Qed.

Lemma keys_disjoint (es es' : Group) : NoDup (es ++ es').*1 → entry_map es ##ₘ entry_map es'.
Proof.
  rewrite fmap_app. intros (_ & Hd & _)%NoDup_app. apply map_disjoint_spec. intros k v v' Hk Hk'.
  apply (Hd k); [apply elem_of_list_to_map_2 in Hk|apply elem_of_list_to_map_2 in Hk']; [by apply (list_elem_of_fmap_2 fst _ (k, v))|by apply (list_elem_of_fmap_2 fst _ (k, v'))].
Qed.

(** Entries with the same elements make the same map. *)
Lemma entry_map_ext (es es' : Group) : NoDup es.*1 → NoDup es'.*1 → (∀ e, e ∈ es ↔ e ∈ es') → entry_map es = entry_map es'.
Proof.
  intros Hn Hn' He. apply map_eq. intros k. apply option_eq. intros v. by rewrite <- !elem_of_list_to_map, He.
Qed.

(** A side of a diff: what is dropped, what waits and what was read. *)
Lemma diff_side_step (es D N L : Group) (before c b : gmap string string) :
  es ≡ₚ D ++ N ++ L → NoDup es.*1 → entry_map es ##ₘ before →
  c ∪ b = entry_map N ∪ (entry_map L ∪ before) → c ##ₘ b →
  (entry_map D ∪ c) ∪ b = entry_map es ∪ before ∧ (entry_map D ∪ c) ##ₘ b.
Proof.
  intros Hp Hn Hd Hc Hcb. rewrite (list_to_map_proper es _ Hn Hp) in *. rewrite Hp in Hn. pose proof (keys_disjoint _ _ Hn) as HDN.
  rewrite !list_to_map_app in *. rewrite <- (assoc_L (∪) _ c), Hc. split; [by rewrite !(assoc_L (∪))|].
  apply map_disjoint_union_l. split; [|done]. assert (entry_map D ##ₘ c ∪ b) as Hdis.
  { rewrite Hc, (assoc_L (∪)). apply map_disjoint_union_r. split; [done|]. by apply map_disjoint_union_l in Hd as [? _]. }
  by apply map_disjoint_union_r in Hdis as [_ ?].
Qed.

(** ** Trees in a store *)

Section trees.
Context {S E : Type} `{ContentBlobsLaws S E} `{NodeJson}.

(** The entries of the references, from the entries of each child. *)
Fixpoint forest (tree : string → Group → nat → Prop) (refs : Group) (es : Group) (n : nat) : Prop :=
  match refs with
  | [] => es = [] ∧ n = 0
  | (key, id) :: refs' => ∃ es1 es2 n1 n2, es = es1 ++ es2 ∧ n = n1 + n2 ∧
      tree id es1 n1 ∧ es1 ≠ [] ∧ last_key es1 = key ∧ forest tree refs' es2 n2
  end.

(** The store holds under [id] a tree of [level] with the entries [es] in [n] nodes. *)
Fixpoint subtree (s : S) (level : nat) (id : string) (es : Group) (n : nat) : Prop :=
  ∃ node, read_node s id = Ok node ∧ node_level node = level ∧
    match level with
    | 0 => node_entries node = es ∧ n = 1
    | Datatypes.S level' => ∃ n', n = Datatypes.S n' ∧ forest (subtree s level') (node_entries node) es n'
    end.

Definition node_id (level : nat) (entries : Group) : string := body_id (node_text (mkNode NODE_TAG level entries)).
Definition node_ref (level : nat) (entries : Group) : string * string := (last_key entries, node_id level entries).

(** The references of a level over entries: nodes of [level - 1], or the entries. *)
Fixpoint refs (level : nat) (es : Group) : Group :=
  match level with 0 => es | Datatypes.S level' => node_ref level' <$> split (refs level' es) end.

Lemma read_node_extends s s' id node : extends s s' → read_node s id = Ok node → read_node s' id = Ok node.
Proof.
  intros [Hx _]. unfold read_node. destruct (get_text s id) as [[|t|]|] eqn:Hg; cbn [text_of]; try done. by rewrite (Hx id t Hg).
Qed.

Definition reads (s : S) (level : nat) (gs : list Group) : Prop :=
  ∀ g, g ∈ gs → read_node s (node_id level g) = Ok (mkNode NODE_TAG level g).

Lemma reads_extends s s' level gs : extends s s' → reads s level gs → reads s' level gs.
Proof. intros Hx Hr g Hg. by eapply read_node_extends, Hr. Qed.

Lemma forest_impl (P Q : string → Group → nat → Prop) rs es n :
  (∀ id es n, P id es n → Q id es n) → forest P rs es n → forest Q rs es n.
Proof.
  intros HPQ. revert es n. induction rs as [|[k id] rs IH]; intros es n; cbn [forest]; [done|].
  intros (es1 & es2 & n1 & n2 & ? & ? & ? & ? & ? & ?). exists es1, es2, n1, n2. split_and!; auto.
Qed.

Lemma subtree_extends s s' level id es n : extends s s' → subtree s level id es n → subtree s' level id es n.
Proof.
  intros Hx. revert id es n. induction level as [|level IH]; intros id es n; cbn [subtree];
    intros (node & Hr & Hl & Hrest); exists node; (split; [by eapply read_node_extends|]); (split; [done|]); [done|].
  destruct Hrest as (n' & -> & Hf). exists n'. split; [done|]. eapply forest_impl; [|exact Hf]. auto.
Qed.

Lemma forest_app P rs rs' es n :
  forest P (rs ++ rs') es n ↔ ∃ es1 es2 n1 n2, es = es1 ++ es2 ∧ n = n1 + n2 ∧ forest P rs es1 n1 ∧ forest P rs' es2 n2.
Proof.
  revert es n. induction rs as [|[k id] rs IH]; intros es n; cbn [forest app].
  - split; [intros Hf; by exists [], es, 0, n|]. by intros (? & es2 & ? & n2 & -> & -> & [-> ->] & ?).
  - split.
    + intros (es1 & es2 & n1 & n2 & -> & -> & ? & ? & ? & (es3 & es4 & n3 & n4 & -> & -> & ? & ?)%IH).
      exists (es1 ++ es3), es4, (n1 + n3), n4. split_and!; [by rewrite app_assoc|lia|by exists es1, es3, n1, n3|done].
    + intros (es1 & es2 & n1 & n2 & -> & -> & (es3 & es4 & n3 & n4 & -> & -> & ? & ? & ? & ?) & ?).
      exists es3, (es4 ++ es2), n3, (n4 + n2). split_and!; [by rewrite app_assoc|lia|done..|]. apply IH. by exists es4, es2, n4, n2.
Qed.

Lemma last_key_app es es' : es' ≠ [] → last_key (es ++ es') = last_key es'.
Proof. intros Hne. unfold last_key. rewrite last_app. by destruct (last es') eqn:Hl; [|apply last_None in Hl]. Qed.

(** The last reference has the last key. *)
Lemma forest_last P rs es n : forest P rs es n → rs ≠ [] → es ≠ [] ∧ last_key es = last_key rs.
Proof.
  revert es n. induction rs as [|[k id] rs IH]; intros es n; [done|]. cbn [forest].
  intros (es1 & es2 & n1 & n2 & -> & _ & _ & Hne & Hk & Hf) _. split; [by destruct es1|].
  destruct rs as [|r rs]; [destruct Hf as [-> _]; by rewrite app_nil_r|].
  destruct (IH _ _ Hf) as [Hne2 Hk2]; [done|]. rewrite last_key_app by done. by rewrite Hk2.
Qed.

Lemma forest_nil P rs n : forest P rs [] n → rs = [].
Proof. intros Hf. destruct rs; [done|]. by destruct (forest_last _ _ _ _ Hf). Qed.

(** A level whose nodes are written over a level that is there. *)
Lemma forest_up s level rs es n :
  reads s (Datatypes.S level) (split rs) → forest (subtree s level) rs es n → ∃ n', forest (subtree s (Datatypes.S level)) (node_ref (Datatypes.S level) <$> split rs) es n'.
Proof.
  intros Hw Hfor. destruct (split_mjoin rs) as [Hj Hne]. rewrite <- Hj in Hfor. clear Hj. revert es n Hw Hfor Hne.
  induction (split rs) as [|g gs IH]; intros es n Hw Hfor Hne; [exists n; exact Hfor|].
  rewrite mjoin_cons in Hfor. apply forest_app in Hfor as (es1 & es2 & n1 & n2 & -> & -> & Hg & Hgs). apply Forall_cons in Hne as [Hgne Hne].
  destruct (IH es2 n2) as [n' Hn']; [intros g' ?; apply Hw; by apply elem_of_cons; right|done|done|].
  exists (Datatypes.S n1 + n'). rewrite fmap_cons. cbn [forest node_ref]. exists es1, es2, (Datatypes.S n1), n'.
  destruct (forest_last _ _ _ _ Hg Hgne) as [Hes Hk]. split_and!; [done..| |done|by rewrite Hk|done].
  cbn [subtree]. eexists. split; [apply Hw; by apply elem_of_cons; left|]. split; [done|]. by exists n1.
Qed.

Lemma forest_leaves s es :
  reads s 0 (split es) → ∃ n, forest (subtree s 0) (node_ref 0 <$> split es) es n.
Proof.
  intros Hw. destruct (split_mjoin es) as [Hj Hne]. revert Hj. generalize es at 2 4 as es'. intros es' <-.
  induction (split es) as [|g gs IH]; [by exists 0|]. apply Forall_cons in Hne as [Hgne Hne].
  destruct IH as [n Hn]; [intros g' ?; apply Hw; by apply elem_of_cons; right|done|]. exists (1 + n).
  rewrite fmap_cons, mjoin_cons. cbn [forest node_ref]. exists g, (mjoin gs), 1, n. split_and!; try done.
  cbn [subtree]. eexists. split; [apply Hw; by apply elem_of_cons; left|]. done.
Qed.

(** ** Writes *)

Definition wrote_nodes (s : S) (level : nat) (gs : list Group) : Prop :=
  ∀ g, g ∈ gs → node_text (mkNode NODE_TAG level g) ∈ wrote s.

Lemma wrote_reads (Hjson : ∀ n, node_of_text (node_text n) = Some n) s s' level gs : wrote_nodes s level gs → extends s s' → faithful s' → reads s' level gs.
Proof.
  intros Hw [_ Hx] Hf g Hg. unfold read_node, node_id. rewrite (Hf _ (Hx _ (Hw g Hg))). cbn [text_of].
  by rewrite bool_decide_eq_true_2, Hjson by done.
Qed.

Lemma put_body_spec s body :
  ∃ s', put_body body s = (s', Ok (body_id body)) ∧ extends s s' ∧ body ∈ wrote s'.
Proof.
  destruct (put_answers s body) as [s' Hp]. exists s'. unfold put_body. rewrite Hp. split_and!; [done| |].
  - split; [intros id t; by eapply put_keeps|]. intros b Hb. rewrite (put_wrote _ _ _ _ Hp). by apply elem_of_cons; right.
  - rewrite (put_wrote _ _ _ _ Hp). by apply elem_of_cons; left.
Qed.

Lemma store_node_spec s level g :
  ∃ s', store_node level g s = (s', Ok (node_ref level g)) ∧ extends s s' ∧ wrote_nodes s' level [g].
Proof.
  destruct (put_body_spec s (node_text (mkNode NODE_TAG level g))) as (s' & Hp & Hx & Hw). exists s'.
  unfold store_node, t_bind. rewrite Hp. split_and!; [done|done|]. by intros g' ->%list_elem_of_singleton.
Qed.

Lemma store_nodes_spec s level gs :
  ∃ s', store_nodes level gs s = (s', Ok (node_ref level <$> gs)) ∧ extends s s' ∧ wrote_nodes s' level gs.
Proof.
  revert s. induction gs as [|g gs IH]; intros s; cbn [store_nodes].
  { exists s. split_and!; [done|done|]. by intros g ?%elem_of_nil. }
  destruct (store_node_spec s level g) as (s1 & Hs1 & Hx1 & Hw1). destruct (IH s1) as (s2 & Hs2 & Hx2 & Hw2).
  exists s2. unfold t_bind. rewrite Hs1, Hs2. split_and!; [done|by etransitivity|].
  intros g' [->|?]%elem_of_cons; [apply Hx2, Hw1; by apply list_elem_of_singleton|by apply Hw2].
Qed.

(** ** Levels over entries *)

(** Every node of the levels up to [level] over [es] is there. *)
Definition stored (s : S) (level : nat) (es : Group) : Prop := ∀ j, j ≤ level → reads s j (split (refs j es)).

Lemma stored_extends s s' level es : extends s s' → stored s level es → stored s' level es.
Proof. intros Hx Hs j Hj. by eapply reads_extends, Hs. Qed.

Lemma stored_forest s level es : stored s level es → ∃ n, forest (subtree s level) (refs (Datatypes.S level) es) es n.
Proof.
  induction level as [|level IH]; intros Hs; [apply forest_leaves, (Hs 0); lia|].
  destruct IH as [n Hn]; [intros j Hj; apply Hs; lia|]. apply (forest_up s level _ _ n); [|exact Hn]. by apply (Hs (Datatypes.S level)).
Qed.

(** [k] is the first level from [level] on with one node, and [root] its identity. *)
Definition tops (level : nat) (es : Group) (k : nat) (root : string) : Prop :=
  level ≤ k ∧ (∃ key, refs (Datatypes.S k) es = [(key, root)]) ∧ ∀ j, level ≤ j → j < k → length (refs (Datatypes.S j) es) ≠ 1.

Lemma tops_unique level es k root k' root' : tops level es k root → tops level es k' root' → k = k' ∧ root = root'.
Proof.
  intros (Hk & [key Hr] & Hmin) (Hk' & [key' Hr'] & Hmin').
  assert (k = k') as <-; [|split; [done|congruence]].
  destruct (Nat.lt_trichotomy k k') as [Hlt|[?|Hlt]]; [|done|]; exfalso.
  - by apply (Hmin' k Hk Hlt); rewrite Hr.
  - by apply (Hmin k' Hk' Hlt); rewrite Hr'.
Qed.

Lemma refs_nonempty level es : es ≠ [] → refs level es ≠ [].
Proof. intros Hes. induction level as [|level IH]; [done|]. cbn [refs]. intros Hs%fmap_nil_inv%split_nil. done. Qed.

Lemma grow_levels_spec fuel level es s :
  es ≠ [] → length (refs (Datatypes.S level) es) ≤ Datatypes.S fuel →
  ∃ k root s', tops level es k root ∧ grow_levels fuel level (refs (Datatypes.S level) es) s = (s', Ok root) ∧ extends s s' ∧
    ∀ j, level < j → j ≤ k → wrote_nodes s' j (split (refs j es)).
Proof.
  intros Hes. revert level s. induction fuel as [|fuel IH]; intros level s Hlen;
    pose proof (refs_nonempty (Datatypes.S level) es Hes) as Hne;
    (destruct (decide (length (refs (Datatypes.S level) es) = 1)) as [Hone|Hmany];
      [destruct (refs (Datatypes.S level) es) as [|[key root] [|]] eqn:Hr; try discriminate Hone;
       exists level, root, s; split_and!; [|done|done|intros; lia]; split_and!; [lia|by exists key|intros; lia]|]).
  - destruct (refs (Datatypes.S level) es) as [|? [|]]; cbn [length] in *; [done|done|lia].
  - destruct (store_nodes_spec s (level + 1) (split (refs (Datatypes.S level) es))) as (s1 & Hs1 & Hx1 & Hw1).
    assert (node_ref (level + 1) <$> split (refs (Datatypes.S level) es) = refs (Datatypes.S (level + 1)) es) as Hup.
    { by rewrite Nat.add_1_r. }
    rewrite Hup in Hs1.
    destruct (IH (level + 1) s1) as (k & root & s' & (Hk & Hkey & Hmin) & Hg & Hx & Hw).
    { rewrite <- Hup, length_fmap. pose proof (split_length (refs (Datatypes.S level) es)) as Hs.
      destruct (refs (Datatypes.S level) es) as [|? [|]]; cbn [length] in *; [done|done|lia]. }
    exists k, root, s'. split_and!.
    + split_and!; [lia|done|]. intros j Hj1 Hj2. destruct (decide (j = level)) as [->|]; [done|]. apply Hmin; lia.
    + cbn [grow_levels]. destruct (refs (Datatypes.S level) es) as [|[key r] [|e es']] eqn:Hr; [done|done|].
      unfold t_bind. by rewrite Hs1.
    + by etransitivity.
    + intros j Hj1 Hj2. destruct (decide (j = level + 1)) as [->|]; [|apply Hw; lia].
      intros g Hg'. apply Hx, Hw1. by rewrite Nat.add_1_r in Hg'.
Qed.

Lemma build_levels_S fuel level current :
  build_levels (Datatypes.S fuel) level current =
    t_bind (store_nodes level (split current)) (λ parents, match parents with [(_, id)] => t_ret id | _ => build_levels fuel (level + 1) parents end).
Proof. reflexivity. Qed.

(** [build]'s loop is a level and what grows over it. *)
Lemma build_levels_grow fuel level current s :
  build_levels (Datatypes.S fuel) level current s = t_bind (store_nodes level (split current)) (grow_levels fuel level) s.
Proof.
  revert level current s. induction fuel as [|fuel IH]; intros level current s;
    [cbn [build_levels grow_levels]|rewrite build_levels_S; cbn [grow_levels]]; unfold t_bind at 1 2;
    destruct (store_nodes level (split current) s) as [s1 [[|[key id] [|]]|e]]; try done; by rewrite <- IH.
Qed.

(** A tree of [level] over [es] with its levels below. *)
Definition tree (s : S) (level : nat) (root : string) (es : Group) : Prop :=
  stored s level es ∧ if bool_decide (es = []) then level = 0 ∧ root = node_id 0 [] ∧ reads s 0 [[]]
    else ∃ key, refs (Datatypes.S level) es = [(key, root)].

Lemma tree_extends s s' level root es : extends s s' → tree s level root es → tree s' level root es.
Proof.
  intros Hx [Hs Hr]. split; [by eapply stored_extends|]. case_bool_decide; [|done].
  destruct Hr as (? & ? & ?). split_and!; [done..|by eapply reads_extends].
Qed.

Lemma tree_subtree s level root es : tree s level root es → ∃ n, subtree s level root es n.
Proof.
  intros [Hs Hr]. case_bool_decide as Hes.
  - destruct Hr as (-> & -> & Hr). exists 1. exists (mkNode NODE_TAG 0 []). subst es. split_and!; [|done..]. apply Hr. by left.
  - destruct Hr as [key Hr]. destruct (stored_forest s level es Hs) as [n Hn]. rewrite Hr in Hn.
    destruct Hn as (es1 & es2 & n1 & n2 & -> & -> & Ht & _ & _ & [-> ->]). exists n1. by rewrite app_nil_r.
Qed.

(** The levels of a tree, from what was written. *)
Lemma build_spec (Hjson : ∀ n, node_of_text (node_text n) = Some n) s m :
  ∃ k root s', build m s = (s', Ok root) ∧ extends s s' ∧
    (if bool_decide (map_entries m = []) then k = 0 ∧ root = node_id 0 [] else tops 0 (map_entries m) k root) ∧
    ∀ s2, extends s' s2 → faithful s2 → tree s2 k root (map_entries m).
Proof.
  unfold build, tree. generalize (map_entries m) as es. intros es. case_bool_decide as Hes.
  - destruct (store_node_spec s 0 []) as (s' & Hs & Hx & Hw). exists 0, (node_id 0 []), s'. unfold t_bind. rewrite Hs.
    split_and!; [done..|]. intros s2 Hx2 Hf. subst es. split_and!; [|done|done|by eapply (wrote_reads Hjson)].
    intros j Hj g Hg. assert (j = 0) as -> by lia. by apply elem_of_nil in Hg.
  - destruct (store_nodes_spec s 0 (split es)) as (s1 & Hs1 & Hx1 & Hw1).
    destruct (grow_levels_spec (length es - 1) 0 es s1) as (k & root & s' & Ht & Hg & Hx & Hw); [done| |].
    { cbn [refs]. rewrite length_fmap. pose proof (split_length_le es). destruct es; [done|]. cbn [length] in *. lia. }
    exists k, root, s'. split_and!; [|by etransitivity|done|].
    + assert (length es = Datatypes.S (length es - 1)) as -> by (destruct es; [done|cbn; lia]).
      rewrite build_levels_grow. unfold t_bind. by rewrite Hs1.
    + intros s2 Hx2 Hf. split; [|by destruct Ht as (_ & ? & _)].
      intros [|j] Hj; [apply (wrote_reads Hjson s1)|apply (wrote_reads Hjson s')]; try done; [by etransitivity|]. apply Hw; lia.
Qed.

(** ** Reads of a tree *)

Lemma subtree_node s level id es n :
  subtree s level id es n → ∃ node, read_node s id = Ok node ∧ node_level node = level ∧ 1 ≤ n ∧
    match level with 0 => node_entries node = es ∧ n = 1 | Datatypes.S l => ∃ n', n = Datatypes.S n' ∧ forest (subtree s l) (node_entries node) es n' end.
Proof.
  destruct level as [|l]; intros (node & Hr & Hl & Hx); exists node; (split; [done|]); (split; [done|]); (split; [|done]).
  - destruct Hx as [_ ->]. lia.
  - destruct Hx as (? & -> & _). lia.
Qed.

(** A store holds one tree under an identity. *)
Lemma forest_det (P : string → Group → nat → Prop) rs es n es' n' :
  (∀ id es n es' n', P id es n → P id es' n' → es = es' ∧ n = n') → forest P rs es n → forest P rs es' n' → es = es' ∧ n = n'.
Proof.
  intros HP. revert es n es' n'. induction rs as [|[k id] rs IH]; intros es n es' n'; cbn [forest]; [by intros [-> ->] [-> ->]|].
  intros (es1 & es2 & n1 & n2 & -> & -> & Ht & _ & _ & Hf) (es3 & es4 & n3 & n4 & -> & -> & Ht' & _ & _ & Hf').
  by destruct (HP _ _ _ _ _ Ht Ht') as [-> ->], (IH _ _ _ _ Hf Hf') as [-> ->].
Qed.

Lemma subtree_det s l l' id es n es' n' : subtree s l id es n → subtree s l' id es' n' → es = es' ∧ n = n'.
Proof.
  revert l' id es n es' n'. induction l as [|l IH]; intros l' id es n es' n'; cbn [subtree]; intros (node & Hr & Hl & Hx) (node' & Hr' & Hl' & Hx')%subtree_node;
    rewrite Hr in Hr'; injection Hr' as <-; rewrite Hl in Hl'; subst l'.
  - destruct Hx as [<- ->], Hx' as (_ & <- & ->). done.
  - destruct Hx as (n1 & -> & Hf), Hx' as (_ & n2 & -> & Hf'). destruct (forest_det _ _ _ _ _ _ (IH l) Hf Hf') as [-> ->]. done.
Qed.

(** The trees under the identities of a stack, up to their order. *)
Fixpoint pile (s : S) (ids : list string) (es : Group) (n : nat) : Prop :=
  match ids with
  | [] => es = [] ∧ n = 0
  | id :: ids' => ∃ level es1 es2 n1 n2, es ≡ₚ es1 ++ es2 ∧ n = n1 + n2 ∧ subtree s level id es1 n1 ∧ pile s ids' es2 n2
  end.

Lemma pile_app s ids ids' es es' n n' : pile s ids es n → pile s ids' es' n' → pile s (ids ++ ids') (es ++ es') (n + n').
Proof.
  revert es n. induction ids as [|id ids IH]; intros es n; cbn [pile app]; [by intros [-> ->]|].
  intros (l & es1 & es2 & n1 & n2 & Hp & -> & Ht & Hpile) Hp'. exists l, es1, (es2 ++ es'), n1, (n2 + n'). split_and!; [|lia|done|by apply IH].
  by rewrite Hp, app_assoc.
Qed.

Lemma pile_perm s ids es es' n : es ≡ₚ es' → pile s ids es n → pile s ids es' n.
Proof.
  intros Hp. destruct ids as [|id ids]; cbn [pile]; [intros [-> ->]; by apply Permutation_nil_l in Hp as ->|].
  intros (l & es1 & es2 & n1 & n2 & Hp' & ?). exists l, es1, es2, n1, n2. split; [by rewrite <- Hp|done].
Qed.

Lemma pile_one s level id es n : subtree s level id es n → pile s [id] es n.
Proof. intros Ht. exists level, es, [], n, 0. split_and!; [by rewrite app_nil_r|lia|done..]. Qed.

Lemma pile_reverse s ids es n : pile s ids es n → pile s (reverse ids) es n.
Proof.
  revert es n. induction ids as [|id ids IH]; intros es n; [done|]. cbn [pile].
  intros (l & es1 & es2 & n1 & n2 & Hp & -> & Ht & Hpile). rewrite reverse_cons, Nat.add_comm.
  apply (pile_perm _ _ (es2 ++ es1)); [by rewrite Hp, (comm (++))|]. apply pile_app; [by apply IH|]. by eapply pile_one.
Qed.

(** The children of a node, last first. *)
Lemma forest_pile s level rs es n : forest (subtree s level) rs es n → pile s (reverse rs.*2) es n.
Proof.
  revert es n. induction rs as [|[k id] rs IH]; intros es n; [done|]. cbn [forest].
  intros (es1 & es2 & n1 & n2 & -> & -> & Ht & _ & _ & Hf). rewrite fmap_cons, reverse_cons. rewrite Nat.add_comm.
  apply (pile_perm _ _ (es2 ++ es1)); [by rewrite (comm (++))|]. apply pile_app; [by apply IH|]. by eapply pile_one.
Qed.

Lemma load_walk_spec s fuel node es n stack es' n' out :
  (match node_level node with 0 => node_entries node = es ∧ n = 1 | Datatypes.S l => ∃ n', n = Datatypes.S n' ∧ forest (subtree s l) (node_entries node) es n' end) →
  pile s stack es' n' → n + n' ≤ fuel → NoDup (es ++ es').*1 →
  load_walk fuel s node stack out = Ok (entry_map (es ++ es') ∪ out).
Proof.
  revert node es n stack es' n' out. induction fuel as [|fuel IH]; intros node es n stack es' n' out Hnode Hpile Hfuel Hn.
  { destruct (node_level node); [lia|]. destruct Hnode as (? & ? & _). lia. }
  assert (∃ stack' es1 n1 out', (if node_level node =? 0 then (stack, foldl (λ m e, <[ e.1 := e.2 ]> m) out (node_entries node))
    else (reverse (node_entries node).*2 ++ stack, out)) = (stack', out') ∧ pile s stack' es1 n1 ∧ n1 ≤ fuel ∧ NoDup es1.*1 ∧
    entry_map es1 ∪ out' = entry_map (es ++ es') ∪ out) as (stack' & es1 & n1 & out' & Hst & Hpile' & Hfuel' & Hn' & Hmap).
  { destruct (node_level node) as [|l]; cbn [Nat.eqb].
    - destruct Hnode as [-> ->]. rewrite fmap_app in Hn. apply NoDup_app in Hn as (Hn1 & Hd & Hn2). eexists _, es', n', _. split_and!; [done|done|lia|done|].
      rewrite foldl_insert_map by done. rewrite (assoc_L (∪)), list_to_map_app. f_equal. apply map_union_comm, map_disjoint_list_to_map_l.
      apply Forall_forall. intros [k v] Hin. apply not_elem_of_list_to_map_1. intros Hk. apply (Hd k); [done|]. by apply (list_elem_of_fmap_2 fst _ (k, v)).
    - destruct Hnode as (n2 & -> & Hf%forest_pile). eexists _, (es ++ es'), (n2 + n'), out. split_and!; [done|by apply pile_app|lia|done|done]. }
  cbn [load_walk]. rewrite Hst, <- Hmap. destruct stack' as [|id stack'']; cbn [pile] in Hpile'.
  { destruct Hpile' as [-> _]. f_equal. cbn. by rewrite map_empty_union. }
  destruct Hpile' as (l & es2 & es3 & n2 & n3 & Hp & -> & Ht & Hpile2). destruct (subtree_node _ _ _ _ _ Ht) as (node' & Hr & Hl & _ & Hbody).
  rewrite Hr. cbn [mbind result_bind]. rewrite Hp in Hn'. rewrite (IH node' es2 n2 stack'' es3 n3 out'); [|by rewrite Hl|done|lia|done].
  by rewrite (list_to_map_proper es1 (es2 ++ es3)) by (rewrite ?Hp; done).
Qed.

Lemma load_spec s level root es n fuel :
  subtree s level root es n → ordered es → n ≤ fuel → load fuel s root = Ok (entry_map es).
Proof.
  intros Ht Ho Hfuel. destruct (subtree_node _ _ _ _ _ Ht) as (node & Hr & Hl & _ & Hbody). unfold load, load_from. rewrite Hr. cbn.
  rewrite (load_walk_spec s fuel node es n [] [] 0 ∅); [|by rewrite Hl|done|lia|rewrite app_nil_r; by apply ordered_NoDup].
  by rewrite app_nil_r, map_union_empty.
Qed.

(** The first child whose greatest key is not before the path is where the path is, if
    it is anywhere. *)
Lemma forest_find P rs es n path :
  forest P rs es n → ordered es →
  match List.find (λ e, bool_decide (String.le path e.1)) rs with
  | Some (_, child) => ∃ es1 n1, P child es1 n1 ∧ ordered es1 ∧ entry_map es1 !! path = entry_map es !! path
  | None => entry_map es !! path = None
  end.
Proof.
  revert es n. induction rs as [|[key child] rs IH]; intros es n; cbn [forest List.find fst].
  { intros [-> _] _. by cbn; rewrite lookup_empty. }
  intros (es1 & es2 & n1 & n2 & -> & _ & HP & Hne & <- & Hf) Ho. pose proof Ho as (Ho1 & Ho2 & Hlt)%ordered_app.
  case_bool_decide as Hle.
  - exists es1, n1. split_and!; [done|done|]. rewrite list_to_map_app, lookup_union_l; [done|].
    apply not_elem_of_list_to_map_1. intros Hin. apply (key_lt_not_le (last_key es1) path); [|done].
    by apply Hlt; [apply last_key_elem|].
  - specialize (IH es2 n2 Hf Ho2). rewrite list_to_map_app, lookup_union_r; [done|].
    apply not_elem_of_list_to_map_1. intros Hin. by apply Hle, ordered_last.
Qed.

Lemma get_spec fuel s level root es n path :
  subtree s level root es n → ordered es → level < fuel → get fuel s root path = Ok (entry_map es !! path).
Proof.
  revert level root es n. induction fuel as [|fuel IH]; intros level root es n Ht Ho Hfuel; [lia|].
  destruct (subtree_node _ _ _ _ _ Ht) as (node & Hr & Hl & _ & Hbody). cbn [get]. rewrite Hr. cbn [mbind result_bind]. rewrite Hl.
  destruct level as [|l]; cbn [Nat.eqb].
  - destruct Hbody as [-> _]. by rewrite find_entry.
  - destruct Hbody as (n' & -> & Hf). pose proof (forest_find _ _ _ _ path Hf Ho) as Hfind.
    destruct (List.find _ _) as [[key child]|]; [|by rewrite Hfind]. destruct Hfind as (es1 & n1 & Ht1 & Ho1 & <-).
    by apply (IH l child es1 n1); [| |lia].
Qed.

(** ** Reachability *)

Definition node_child (s : S) (id c : string) : Prop := ∃ node, read_node s id = Ok node ∧ node_level node ≠ 0 ∧ c ∈ (node_entries node).*2.
Definition node_blob (s : S) (id b : string) : Prop := ∃ node, read_node s id = Ok node ∧ node_level node = 0 ∧ b ∈ (node_entries node).*2.

(** The nodes of the tree under [root], and the blobs its leaves name. *)
Definition tree_node (s : S) (root x : string) : Prop := rtc (node_child s) root x.
Definition tree_blob (s : S) (root b : string) : Prop := ∃ x, tree_node s root x ∧ node_blob s x b.

(** What the walk keeps: it saw only what the tree has, and what a seen node names was
    seen or waits. *)
Definition walked (s : S) (root : string) (stack : list string) (ids : gset string) : Prop :=
  (∀ x, x ∈ stack → tree_node s root x) ∧ (∀ x, x ∈ ids → tree_node s root x ∨ tree_blob s root x) ∧ (root ∈ ids ∨ root ∈ stack) ∧
  ∀ x, x ∈ ids → tree_node s root x → (∀ y, node_child s x y → y ∈ ids ∨ y ∈ stack) ∧ (∀ b, node_blob s x b → b ∈ ids).

Lemma walked_seen s root id stack ids : id ∈ ids → walked s root (id :: stack) ids → walked s root stack ids.
Proof. unfold walked. intros Hid (Hst & Hids & Hroot & Hcl). set_solver. Qed.

Lemma walked_leaf s root id node stack ids :
  read_node s id = Ok node → node_level node = 0 → (∀ x, tree_node s root x → ¬ tree_blob s root x) →
  walked s root (id :: stack) ids → walked s root stack (list_to_set (node_entries node).*2 ∪ ({[ id ]} ∪ ids)).
Proof.
  intros Hr Hl Hsep (Hst & Hids & Hroot & Hcl). assert (tree_node s root id) as Hid by (apply Hst; by left).
  assert (∀ b, b ∈ (node_entries node).*2 → tree_blob s root b) as Hb by (intros b Hb; exists id; split; [done|]; by exists node).
  split_and!; [set_solver|set_solver|set_solver|].
  intros x Hx Hnode. apply elem_of_union in Hx as [Hx|[->%elem_of_singleton|Hx]%elem_of_union].
  - apply elem_of_list_to_set in Hx. by destruct (Hsep x Hnode); apply Hb.
  - split; [intros y (node' & Hr' & Hl' & _); congruence|]. intros b (node' & Hr' & _ & Hin). rewrite Hr in Hr'. injection Hr' as <-. set_solver.
  - destruct (Hcl x Hx Hnode) as [Hc Hbl]. split; [|set_solver]. intros y Hy. destruct (Hc y Hy); set_solver.
Qed.

Lemma walked_interior s root id node stack ids :
  read_node s id = Ok node → node_level node ≠ 0 →
  walked s root (id :: stack) ids → walked s root (reverse (node_entries node).*2 ++ stack) ({[ id ]} ∪ ids).
Proof.
  intros Hr Hl (Hst & Hids & Hroot & Hcl). assert (tree_node s root id) as Hid by (apply Hst; by left).
  split_and!; [|set_solver|set_solver|].
  - intros x [Hx|Hx]%elem_of_app; [|apply Hst; by right]. rewrite elem_of_reverse in Hx. apply (rtc_r _ id _ Hid). by exists node.
  - intros x [->%elem_of_singleton|Hx]%elem_of_union Hnode.
    + split; [|intros b (node' & Hr' & Hl' & _); congruence]. intros y (node' & Hr' & _ & Hy). rewrite Hr in Hr'. injection Hr' as <-.
      right. apply elem_of_app. left. by rewrite elem_of_reverse.
    + destruct (Hcl x Hx Hnode) as [Hc Hbl]. split; [|set_solver]. intros y Hy. destruct (Hc y Hy); set_solver.
Qed.

Lemma walked_done s root ids x : walked s root [] ids → x ∈ ids ↔ tree_node s root x ∨ tree_blob s root x.
Proof.
  intros (_ & Hids & Hroot & Hcl). assert (∀ y, tree_node s root y → y ∈ ids) as Hn.
  { apply (rtc_ind_r (λ y, y ∈ ids) root); [by destruct Hroot as [?|?%elem_of_nil]|]. intros y z Hy Hc IH.
    destruct (Hcl y IH Hy) as [Hch _]. by destruct (Hch z Hc) as [?|?%elem_of_nil]. }
  split; [apply Hids|]. intros [Hx|(y & Hy & Hb)]; [by apply Hn|]. by apply (Hcl y (Hn y Hy) Hy).
Qed.

Lemma reach_walk_spec s root fuel stack es n ids :
  pile s stack es n → n ≤ fuel → (∀ x, tree_node s root x → ¬ tree_blob s root x) → walked s root stack ids →
  ∃ ids', reach_walk fuel s stack ids = Ok ids' ∧ walked s root [] ids'.
Proof.
  intros Hpile Hfuel Hsep. revert stack es n ids Hpile Hfuel.
  induction fuel as [|fuel IH]; intros [|id stack] es n ids Hpile Hfuel Hw; cbn [reach_walk]; [by exists ids| |by exists ids|];
    destruct Hpile as (l & es1 & es2 & n1 & n2 & Hp & -> & Ht & Hpile); destruct (subtree_node _ _ _ _ _ Ht) as (node & Hr & Hl & Hn & Hbody); [lia|].
  case_bool_decide as Hin; [apply (IH stack es2 n2); [done|lia|by apply (walked_seen s root id)]|].
  rewrite Hr. cbn [mbind result_bind]. rewrite Hl. destruct l as [|l]; cbn [Nat.eqb].
  - apply (IH stack es2 n2); [done|lia|]. by apply walked_leaf.
  - destruct Hbody as (n' & -> & Hf%forest_pile). apply (IH _ (es1 ++ es2) (n' + n2)); [by apply pile_app|lia|]. apply walked_interior; [done|lia|done].
Qed.

(** ** Diff *)

Lemma pile_filter (P : string → Prop) `{!∀ x, Decision (P x)} s ids es n :
  pile s ids es n → ∃ es1 es2 n1 n2, pile s (filter P ids) es1 n1 ∧ pile s (filter (λ x, ¬ P x) ids) es2 n2 ∧ es ≡ₚ es1 ++ es2 ∧ n = n1 + n2.
Proof.
  revert es n. induction ids as [|id ids IH]; intros es n; cbn [pile]; [intros [-> ->]; by exists [], [], 0, 0|].
  intros (l & es1 & es2 & n1 & n2 & Hp & -> & Ht & Hpile). destruct (IH _ _ Hpile) as (es3 & es4 & n3 & n4 & Hf3 & Hf4 & Hp2 & ->).
  rewrite !filter_cons. destruct (decide (P id)) as [HP|HP]; [rewrite (decide_False (P := ¬ P id)) by tauto|rewrite (decide_True (P := ¬ P id)) by tauto].
  - exists (es1 ++ es3), es4, (n1 + n3), n4. split_and!; [by exists l, es1, es3, n1, n3|done|by rewrite Hp, Hp2, app_assoc|lia].
  - exists es3, (es1 ++ es4), n3, (n1 + n4). split_and!; [done|by exists l, es1, es4, n1, n4| |lia].
    rewrite Hp, Hp2, !app_assoc. by rewrite (comm (++) es1 es3).
Qed.

Lemma pile_elem s ids es n e : pile s ids es n → e ∈ es ↔ ∃ id l es1 n1, id ∈ ids ∧ subtree s l id es1 n1 ∧ e ∈ es1.
Proof.
  revert es n. induction ids as [|id ids IH]; intros es n; cbn [pile].
  { intros [-> _]. split; [by intros ?%elem_of_nil|]. by intros (? & _ & _ & _ & ?%elem_of_nil & _). }
  intros (l & es1 & es2 & n1 & n2 & Hp & -> & Ht & Hpile). rewrite Hp, elem_of_app, (IH _ _ Hpile). split.
  - intros [He|(id' & l' & es' & n' & Hin & ?)]; [by exists id, l, es1, n1; split; [left|]|]. exists id', l', es', n'. by split; [right|].
  - intros (id' & l' & es' & n' & [->|Hin]%elem_of_cons & Ht' & He); [|right; by exists id', l', es', n'].
    left. by destruct (subtree_det _ _ _ _ _ _ _ _ Ht Ht') as [-> _].
Qed.

Lemma pile_size s ids es n : pile s ids es n → length ids ≤ n.
Proof.
  revert es n. induction ids as [|id ids IH]; intros es n; cbn [pile length]; [lia|].
  intros (l & es1 & es2 & n1 & n2 & _ & -> & Ht & Hpile). apply IH in Hpile. apply subtree_node in Ht as (_ & _ & _ & ? & _). lia.
Qed.

(** The expansion of a frontier: the leaves' entries go to the map, the rest waits. *)
Lemma expand_frontier_spec s ids es n leaves :
  pile s ids es n → NoDup es.*1 →
  ∃ next es1 es2 n', expand_frontier s ids leaves = Ok (next, entry_map es2 ∪ leaves) ∧
    pile s next es1 n' ∧ es ≡ₚ es1 ++ es2 ∧ n' + length ids ≤ n.
Proof.
  revert es n leaves. induction ids as [|id ids IH]; intros es n leaves; cbn [pile expand_frontier].
  { intros [-> ->] _. exists [], [], [], 0. split_and!; [|done..]. cbn. by rewrite map_empty_union. }
  intros (l & es1 & es2 & n1 & n2 & Hp & -> & Ht & Hpile) Hn. rewrite Hp in Hn. pose proof Hn as Hn'. rewrite fmap_app in Hn'. apply NoDup_app in Hn' as (Hn1 & Hd & Hn2).
  destruct (subtree_node _ _ _ _ _ Ht) as (node & Hr & Hl & _ & Hbody). rewrite Hr. cbn [mbind result_bind]. rewrite Hl.
  destruct l as [|l]; cbn [Nat.eqb].
  - destruct Hbody as [-> ->]. rewrite foldl_insert_map by done.
    destruct (IH es2 n2 (entry_map es1 ∪ leaves) Hpile Hn2) as (next & es3 & es4 & n' & Hx & Hp3 & Hp4 & Hle). exists next, es3, (es4 ++ es1), n'.
    split_and!; [|done|by rewrite Hp, Hp4, (comm (++) es1), <- app_assoc|cbn [length]; lia].
    rewrite Hx, list_to_map_app. by rewrite (assoc_L (∪)).
  - destruct Hbody as (n' & -> & Hf%forest_pile). destruct (IH es2 n2 leaves Hpile Hn2) as (next & es3 & es4 & n4 & Hx & Hp3 & Hp4 & Hle).
    rewrite Hx. cbn [mbind result_bind]. eexists _, (es1 ++ es3), es4, (n' + n4). split_and!; [done| |by rewrite Hp, Hp4, app_assoc|cbn [length]; lia].
    apply pile_app; [|done]. apply pile_reverse in Hf. by rewrite reverse_involutive in Hf.
Qed.

Lemma diff_frontiers_S fuel s F G before after :
  F ++ G ≠ [] →
  diff_frontiers (Datatypes.S fuel) s F G before after =
    let shared := filter (λ id, id ∈ G) F in
    '(F', before) ← expand_frontier s (filter (λ id, id ∉ shared) F) before;
    '(G', after) ← expand_frontier s (filter (λ id, id ∉ shared) G) after;
    diff_frontiers fuel s F' G' before after.
Proof. destruct F, G; done. Qed.

(** The entries that the two sides share, which neither reads. *)
Lemma shared_entries s F G es es' n n' :
  pile s (filter (λ id, id ∈ filter (λ id, id ∈ G) F) F) es n → pile s (filter (λ id, id ∈ filter (λ id, id ∈ G) F) G) es' n' →
  NoDup es.*1 → NoDup es'.*1 → entry_map es = entry_map es'.
Proof.
  intros Hp Hp' Hn Hn'. apply entry_map_ext; [done..|]. intros e. rewrite (pile_elem _ _ _ _ _ Hp), (pile_elem _ _ _ _ _ Hp').
  repeat setoid_rewrite list_elem_of_filter. naive_solver.
Qed.

(** One side of a round: [D] is dropped, [N] waits, [L] was read. *)
Lemma expand_side (P : string → Prop) `{!∀ x, Decision (P x)} s F es n before :
  pile s F es n → NoDup es.*1 →
  ∃ F' D N L m n', expand_frontier s (filter (λ x, ¬ P x) F) before = Ok (F', entry_map L ∪ before) ∧
    pile s (filter P F) D m ∧ pile s F' N n' ∧ es ≡ₚ D ++ N ++ L ∧ n' + length F ≤ n.
Proof.
  intros HF Hn. pose proof (Permutation_length (filter_app_complement P F)) as Hc. rewrite length_app in Hc.
  destruct (pile_filter P _ _ _ _ HF) as (D & K & m & m2 & HD & HK & Hp & ->). pose proof (pile_size _ _ _ _ HD) as Hs.
  rewrite Hp, fmap_app in Hn. apply NoDup_app in Hn as (_ & _ & HnK).
  destruct (expand_frontier_spec s _ _ _ before HK HnK) as (F' & N & L & n' & Hx & HF' & Hp' & Hl).
  exists F', D, N, L, m, n'. split_and!; [done|done|done|by rewrite Hp, Hp'|lia].
Qed.

Lemma side_NoDup {A} (es D N L : list (string * A)) : es ≡ₚ D ++ N ++ L → NoDup es.*1 → NoDup D.*1 ∧ NoDup N.*1.
Proof. intros Hp Hn. rewrite Hp, !fmap_app in Hn. apply NoDup_app in Hn as (? & _ & (? & _ & _)%NoDup_app). done. Qed.

Lemma side_waits (es D N L : Group) (before : gmap string string) :
  es ≡ₚ D ++ N ++ L → NoDup es.*1 → entry_map es ##ₘ before → entry_map N ##ₘ entry_map L ∪ before.
Proof.
  intros Hp Hn Hd. rewrite (list_to_map_proper es _ Hn Hp) in Hd. rewrite Hp, fmap_app in Hn. apply NoDup_app in Hn as (_ & _ & Hn%keys_disjoint).
  rewrite !list_to_map_app in Hd. apply map_disjoint_union_l in Hd as [_ [? _]%map_disjoint_union_l]. by apply map_disjoint_union_r.
Qed.

Lemma diff_frontiers_spec fuel s F G EF EG nF nG before after :
  pile s F EF nF → pile s G EG nG → nF + nG ≤ fuel → NoDup EF.*1 → NoDup EG.*1 → entry_map EF ##ₘ before → entry_map EG ##ₘ after →
  ∃ b a c, diff_frontiers fuel s F G before after = Ok (b, a) ∧
    c ∪ b = entry_map EF ∪ before ∧ c ##ₘ b ∧ c ∪ a = entry_map EG ∪ after ∧ c ##ₘ a.
Proof.
  revert F G EF EG nF nG before after. induction fuel as [|fuel IH]; intros F G EF EG nF nG before after HF HG Hfuel HnF HnG HdF HdG;
    pose proof (pile_size _ _ _ _ HF) as HlF; pose proof (pile_size _ _ _ _ HG) as HlG;
    (destruct (decide (F ++ G = [])) as [[-> ->]%app_eq_nil|Hne];
      [destruct HF as [-> _], HG as [-> _]; exists before, after, ∅; cbn; rewrite !map_empty_union; split_and!; try done; apply map_disjoint_empty_l|]).
  { destruct F, G; cbn [length] in *; [done|lia..]. }
  rewrite (diff_frontiers_S _ _ _ _ _ _ Hne). cbn zeta.
  destruct (expand_side (λ id, id ∈ filter (λ id, id ∈ G) F) s F EF nF before HF HnF) as (F' & DF & NF & LF & mF & n1 & -> & HDF & HF' & HpF & Hn1).
  destruct (expand_side (λ id, id ∈ filter (λ id, id ∈ G) F) s G EG nG after HG HnG) as (G' & DG & NG & LG & mG & n2 & -> & HDG & HG' & HpG & Hn2).
  cbn [mbind result_bind]. destruct (side_NoDup _ _ _ _ HpF HnF) as [HnDF HnNF]. destruct (side_NoDup _ _ _ _ HpG HnG) as [HnDG HnNG].
  destruct (IH F' G' NF NG n1 n2 (entry_map LF ∪ before) (entry_map LG ∪ after)) as (b & a & c & -> & Hb & Hcb & Ha & Hca);
    [done|done|destruct F, G; cbn [length] in *; [done|lia..]|done|done|by eapply side_waits|by eapply side_waits|].
  destruct (diff_side_step EF DF NF LF before c b) as [Hb' Hcb']; [done..|]. destruct (diff_side_step EG DG NG LG after c a) as [Ha' Hca']; [done..|].
  exists b, a, (entry_map DF ∪ c). split_and!; [done|done|done| |]; rewrite (shared_entries _ _ _ _ _ _ _ HDF HDG HnDF HnDG); done.
Qed.

End trees.

(** ** Changes between maps *)

Definition change_between (b a : gmap string string) (x : ManifestChange) : Prop :=
  change_before x = b !! change_path x ∧ change_after x = a !! change_path x ∧ b !! change_path x ≠ a !! change_path x.

Lemma elem_of_changes_to b a x : x ∈ changes_to b a ↔ change_between b a x ∧ is_Some (a !! change_path x).
Proof.
  unfold changes_to, change_between. rewrite list_elem_of_omap. destruct x as [p xb xa]. cbn [change_path change_before change_after]. split.
  - intros ([k v] & Hin%elem_of_map_entries & Hx). cbn in Hx. case_bool_decide as Hb; [done|]. injection Hx as <- <- <-. rewrite Hin. naive_solver.
  - intros ((-> & -> & Hne) & [v Hv]). exists (p, v). rewrite elem_of_map_entries. split; [done|]. cbn. rewrite bool_decide_eq_false_2 by congruence. by rewrite Hv.
Qed.

Lemma elem_of_changes_from b a x : x ∈ changes_from b a ↔ change_between b a x ∧ a !! change_path x = None.
Proof.
  unfold changes_from, change_between. rewrite list_elem_of_omap. destruct x as [p xb xa]. cbn [change_path change_before change_after]. split.
  - intros ([k v] & Hin%elem_of_map_entries & Hx). cbn in Hx. case_bool_decide as Hb; [done|]. injection Hx as <- <- <-. rewrite Hin.
    apply eq_None_not_Some in Hb. rewrite Hb. naive_solver.
  - intros ((-> & -> & Hne) & Ha). destruct (b !! p) as [v|] eqn:Hb; [|congruence]. exists (p, v). rewrite elem_of_map_entries. split; [done|].
    cbn. by rewrite bool_decide_eq_false_2, Ha by (by rewrite Ha; intros [? ?]).
Qed.

Lemma elem_of_changes b a x : x ∈ changes_to b a ++ changes_from b a ↔ change_between b a x.
Proof.
  rewrite elem_of_app, elem_of_changes_to, elem_of_changes_from. destruct (a !! change_path x) eqn:Ha; naive_solver.
Qed.

(** A part that the two maps share shows in no change. *)
Lemma change_between_common (b a c : gmap string string) x : c ##ₘ b → c ##ₘ a → change_between b a x ↔ change_between (c ∪ b) (c ∪ a) x.
Proof.
  intros Hb Ha. unfold change_between. destruct (c !! change_path x) as [v|] eqn:Hc.
  - rewrite !(lookup_union_Some_l _ _ _ _ Hc), (map_disjoint_Some_l _ _ _ _ Hb Hc), (map_disjoint_Some_l _ _ _ _ Ha Hc). naive_solver.
  - by rewrite !lookup_union_r by done.
Qed.

Lemma omap_paths {A} (f : string * A → option ManifestChange) (es : list (string * A)) :
  (∀ e x, f e = Some x → change_path x = e.1) → NoDup es.*1 → NoDup (change_path <$> omap f es).
Proof.
  intros Hf. induction es as [|e es IH]; cbn; [constructor|]. intros [He Hn]%NoDup_cons. destruct (f e) as [x|] eqn:Hx; [|by apply IH].
  cbn. constructor; [|by apply IH]. rewrite (Hf _ _ Hx). intros (y & Hy & Hin)%list_elem_of_fmap. apply He.
  apply list_elem_of_omap in Hin as (e' & Hin & Hy'). rewrite Hy, (Hf _ _ Hy'). by apply list_elem_of_fmap_2.
Qed.

Lemma changes_paths b a : NoDup (change_path <$> changes_to b a ++ changes_from b a).
Proof.
  rewrite fmap_app. apply NoDup_app. split_and!.
  - apply omap_paths; [|apply NoDup_map_entries]. intros [k v] x. cbn. case_bool_decide; [done|]. by intros [= <-].
  - intros p (x & -> & [_ [v Hv]]%elem_of_changes_to)%list_elem_of_fmap (y & Hp & [_ Hn]%elem_of_changes_from)%list_elem_of_fmap. congruence.
  - apply omap_paths; [|apply NoDup_map_entries]. intros [k v] x. cbn. case_bool_decide; [done|]. by intros [= <-].
Qed.

#[export] Instance change_le_total : Total change_le.
Proof. intros c c'. apply (total String.le). Qed.
#[export] Instance change_le_trans : Transitive change_le.
Proof. intros c1 c2 c3. unfold change_le. apply (transitivity (R := String.le)). Qed.

(** The report of a diff: in the order of the paths, each once. *)
Lemma sorted_changes b a : StronglySorted key_lt (change_path <$> merge_sort change_le (changes_to b a ++ changes_from b a)).
Proof.
  assert (NoDup (change_path <$> merge_sort change_le (changes_to b a ++ changes_from b a))) as Hn.
  { rewrite merge_sort_Permutation. apply changes_paths. }
  pose proof (StronglySorted_merge_sort change_le (changes_to b a ++ changes_from b a)) as Hs.
  induction Hs as [|x xs Hs IH HF]; [constructor|]. rewrite fmap_cons in *. apply NoDup_cons in Hn as [Hx Hn]. constructor; [by apply IH|].
  apply Forall_forall. intros p Hp. pose proof Hp as (y & -> & Hy)%list_elem_of_fmap. rewrite Forall_forall in HF. split; [by apply HF|]. by intros Heq; rewrite Heq in Hx.
Qed.

(** ** What a tree that is there promises *)

Section promises.
Context {S E : Type} `{ContentBlobsLaws S E} `{NodeJson}.

(** The store holds under [root] a tree of the manifest; a tree without entries is a leaf. *)
Definition holds_tree (s : S) (root : string) (m : gmap string string) : Prop :=
  ∃ level n, subtree s level root (map_entries m) n ∧ (map_entries m = [] → level = 0).

(** The blobs that the leaves of a tree name are the values of its entries. *)
Lemma subtree_blobs s level id es n b : subtree s level id es n → tree_blob s id b ↔ b ∈ es.*2.
Proof.
  revert id es n. induction level as [|level IH]; intros id es n Ht; destruct (subtree_node _ _ _ _ _ Ht) as (node & Hr & Hl & _ & Hbody).
  - destruct Hbody as [<- _]. split.
    + intros (x & Hx & node' & Hr' & Hl' & Hb). destruct Hx as [x|x y z (node2 & Hr2 & Hl2 & _) _]; congruence.
    + intros Hb. exists id. split; [apply rtc_refl|]. by exists node.
  - destruct Hbody as (n' & -> & Hf). assert (tree_blob s id b ↔ ∃ c, c ∈ (node_entries node).*2 ∧ tree_blob s c b) as ->.
    { split.
      - intros (x & Hx & Hb). destruct Hx as [x|x y z (node2 & Hr2 & _ & Hy) Hyz]; [destruct Hb as (node2 & ? & ? & _); congruence|].
        rewrite Hr in Hr2. injection Hr2 as <-. exists y. split; [done|]. by exists z.
      - intros (c & Hc & x & Hx & Hb). exists x. split; [|done]. apply (rtc_l _ _ c); [|done]. exists node. split_and!; [done|lia|done]. }
    clear Ht Hr Hl. revert es n' Hf. induction (node_entries node) as [|[k c] rs IHr]; intros es n'; cbn [forest].
    + intros [-> _]. split; [by intros (? & ?%elem_of_nil & _)|by intros ?%elem_of_nil].
    + intros (es1 & es2 & n1 & n2 & -> & -> & Ht & _ & _ & Hf). rewrite fmap_app, elem_of_app, <- (IH c es1 n1 Ht), <- (IHr es2 n2 Hf).
      rewrite fmap_cons. setoid_rewrite elem_of_cons. naive_solver.
Qed.

Context (Hjson : ∀ n, node_of_text (node_text n) = Some n).

(** The root of a manifest does not depend on the store. *)
Lemma build_root m (s s2 : S) root : (build m s).2 = Ok root → (build m s2).2 = Ok root.
Proof.
  destruct (build_spec Hjson s m) as (k & r & s' & -> & _ & Ht & _). destruct (build_spec Hjson s2 m) as (k2 & r2 & s2' & -> & _ & Ht2 & _).
  cbn. intros [= <-]. case_bool_decide; [by destruct Ht as [_ ->], Ht2 as [_ ->]|]. by destruct (tops_unique _ _ _ _ _ _ Ht Ht2) as [_ ->].
Qed.

Lemma build_holds m (s : S) :
  ∃ s' root, build m s = (s', Ok root) ∧ extends s s' ∧ ∀ s2, extends s' s2 → faithful s2 → holds_tree s2 root m.
Proof.
  destruct (build_spec Hjson s m) as (k & root & s' & Hb & Hx & _ & Ht). exists s', root. split_and!; [done|done|]. intros s2 Hx2 Hf.
  destruct (tree_subtree s2 k root (map_entries m)) as [n Hn]; [by apply Ht|]. exists k, n. split; [done|].
  intros He. destruct (Ht s2 Hx2 Hf) as [_ Hr]. rewrite bool_decide_eq_true_2 in Hr by done. by destruct Hr.
Qed.

Lemma holds_reads s root m :
  holds_tree s root m → ∃ bound, ∀ fuel, bound ≤ fuel → load fuel s root = Ok m ∧ ∀ path, get fuel s root path = Ok (m !! path).
Proof.
  intros (level & n & Ht & _). exists (n + Datatypes.S level). intros fuel Hfuel. rewrite <- (map_entries_map m) at 1.
  split; [apply (load_spec s level root (map_entries m) n); [done|apply map_entries_ordered|lia]|].
  intros path. rewrite <- (map_entries_map m) at 1. apply (get_spec fuel s level root _ n); [done|apply map_entries_ordered|lia].
Qed.
End promises.

(** C28: [build] answers a root that depends on the manifest alone, whatever the store held;
    and from a store in which every body that was put reads back, [load] from that root
    gives the manifest and [get] gives each path's entry, for every fuel from a bound on:
    the walks end. *)
Theorem build_reads_back {S E} `{ContentBlobsLaws S E} `{NodeJson} (Hjson : ∀ n, node_of_text (node_text n) = Some n) (m : gmap string string) (s : S) :
  ∃ s' root, build m s = (s', Ok root) ∧ (∀ s2, (build m s2).2 = Ok root) ∧
    (faithful s' → ∃ bound, ∀ fuel, bound ≤ fuel →
      load fuel s' root = Ok m ∧ ∀ path, get fuel s' root path = Ok (m !! path)).
Proof.
  destruct (build_holds Hjson m s) as (s' & root & Hb & _ & Hh). exists s', root. split_and!; [done| |].
  - intros s2. apply (build_root Hjson m s). by rewrite Hb.
  - intros Hf. by apply holds_reads, Hh.
Qed.

(** C27: the diff of two trees that the store holds is exact: for every fuel from a bound on
    it reports, in the order of the paths and each path once, precisely the paths at which
    the two manifests differ, with what each has there. *)
Theorem tree_diff_exact {S E} `{ContentBlobsLaws S E} `{NodeJson} (s : S) root root' m m' :
  holds_tree s root m → holds_tree s root' m' →
  ∃ bound, ∀ fuel, bound ≤ fuel → ∃ changes, diff fuel s root root' = Ok changes ∧
    StronglySorted key_lt (change_path <$> changes) ∧ ∀ x, x ∈ changes ↔ change_between m m' x.
Proof.
  intros (l & n & Ht & _) (l' & n' & Ht' & _). exists (n + n'). intros fuel Hfuel. unfold diff. case_bool_decide as Heq.
  - subst root'. exists []. destruct (subtree_det _ _ _ _ _ _ _ _ Ht Ht') as [He _]. apply (f_equal (λ es, entry_map es)) in He.
    rewrite !map_entries_map in He. subst m'. split_and!; [done|constructor|]. intros x. split; [by intros ?%elem_of_nil|]. by intros (_ & _ & ?).
  - destruct (diff_frontiers_spec fuel s [root] [root'] (map_entries m) (map_entries m') n n' ∅ ∅) as (b & a & c & -> & Hb & Hcb & Ha & Hca);
      [by eapply pile_one|by eapply pile_one|done|apply NoDup_map_entries|apply NoDup_map_entries|apply map_disjoint_empty_r|apply map_disjoint_empty_r|].
    cbn [mbind result_bind]. eexists. split_and!; [done|apply sorted_changes|]. rewrite map_union_empty, map_entries_map in Hb, Ha.
    intros x. by rewrite merge_sort_Permutation, elem_of_changes, (change_between_common b a c), Hb, Ha.
Qed.

(** [reachable_ids] keeps, for every fuel from a bound on, precisely the nodes of the
    tree and the blobs its leaves name, and these blobs are the manifest's, as long as no
    leaf names a node of the tree as a blob. *)
Theorem reachable_ids_exact {S E} `{ContentBlobsLaws S E} `{NodeJson} (s : S) root m :
  holds_tree s root m → (∀ x, tree_node s root x → ¬ ∃ path, m !! path = Some x) →
  ∃ bound, ∀ fuel, bound ≤ fuel → ∃ ids, reachable_ids fuel s root = Ok ids ∧
    ∀ x, x ∈ ids ↔ tree_node s root x ∨ ∃ path, m !! path = Some x.
Proof.
  intros (l & n & Ht & _) Hsep. exists n. intros fuel Hfuel.
  assert (∀ b, tree_blob s root b ↔ ∃ path, m !! path = Some b) as Hblob.
  { intros b. rewrite (subtree_blobs _ _ _ _ _ b Ht), list_elem_of_fmap. setoid_rewrite <- elem_of_map_entries. split.
    - intros ([k v] & -> & Hin). by exists k.
    - intros [k Hin]. by exists (k, b). }
  destruct (reach_walk_spec s root fuel [root] (map_entries m) n ∅) as (ids & Hr & Hw); [by eapply pile_one|done| | |].
  - intros x Hx Hb. by apply (Hsep x Hx), Hblob.
  - split_and!; [intros x ->%list_elem_of_singleton; apply rtc_refl|by intros x ?%elem_of_empty|right; by left|by intros x ?%elem_of_empty].
  - exists ids. split; [done|]. intros x. by rewrite (walked_done _ _ _ x Hw), Hblob.
Qed.

(** ** Trees of a sample *)

(** The nodes of a tree are in a list that has the root and what its members name. *)
Lemma tree_nodes_in {S E} `{ContentBlobs S E} `{NodeJson} `{Sha256} (s : S) root (ids : list string) x :
  root ∈ ids → forallb (λ id, match read_node s id with
    | Ok node => (node_level node =? 0) || forallb (λ c, bool_decide (c ∈ ids)) (node_entries node).*2 | Err _ => true end) ids = true →
  rtc (node_child s) root x → x ∈ ids.
Proof.
  intros Hroot Hall. apply (rtc_ind_r (λ y, y ∈ ids) root); [done|]. intros y z _ (node & Hr & Hl & Hz) Hy.
  rewrite forallb_forall in Hall. specialize (Hall y). rewrite <- list_elem_of_In, Hr in Hall. apply Hall, orb_true_iff in Hy as [Hy%Nat.eqb_eq|Hy]; [done|].
  rewrite forallb_forall in Hy. apply (bool_decide_eq_true (z ∈ ids)), Hy. by rewrite <- list_elem_of_In.
Qed.

Module Samples.
#[export] Existing Instance sample_sha.
#[export] Existing Instance bits_json.

Definition no_blobs : MemoryBlobs := mkMemory ∅ [].
Definition built (m : gmap string string) (s : MemoryBlobs) : MemoryBlobs := (build m s).1.
Definition root_in (m : gmap string string) (s : MemoryBlobs) : string := match (build m s).2 with Ok root => root | Err _ => ""%string end.

Lemma built_holds m s s2 : extends (built m s) s2 → faithful s2 → holds_tree s2 (root_in m s) m.
Proof.
  unfold built, root_in. destruct (build_holds bits_json_law m s) as (s' & root & -> & _ & Hh). apply Hh.
Qed.
Lemma built_extends m s : extends s (built m s).
Proof. unfold built. by destruct (build_holds bits_json_law m s) as (s' & root & -> & Hx & _). Qed.

(** The sample's tree, and a store with the tree of an edited sample too. *)
Definition sample_store : MemoryBlobs := built sample_manifest no_blobs.
Definition sample_root : string := root_in sample_manifest no_blobs.
Definition edited_manifest : gmap string string := <[ "c1"%string := "u"%string ]> (delete "a2"%string sample_manifest).
Definition edited_store : MemoryBlobs := built edited_manifest sample_store.
Definition edited_root : string := root_in edited_manifest sample_store.

Lemma sample_faithful : faithful sample_store.
Proof. apply memory_faithful. vm_compute. reflexivity. Qed.
Lemma edited_faithful : faithful edited_store.
Proof. apply memory_faithful. vm_compute. reflexivity. Qed.
Lemma edited_holds_sample : holds_tree edited_store sample_root sample_manifest.
Proof. apply built_holds; [apply built_extends|apply edited_faithful]. Qed.
Lemma edited_holds : holds_tree edited_store edited_root edited_manifest.
Proof. apply built_holds; [done|apply edited_faithful]. Qed.

(** The sample with a path whose blob is the text of the sample's first leaf. *)
Definition trap_manifest : gmap string string :=
  <[ "b1"%string := node_id 0 (take 4 (map_entries sample_manifest)) ]> sample_manifest.
Definition trap_store : MemoryBlobs := built trap_manifest no_blobs.
Definition trap_root : string := root_in trap_manifest no_blobs.

Lemma trap_holds : holds_tree trap_store trap_root trap_manifest.
Proof. apply built_holds; [done|]. apply memory_faithful. vm_compute. reflexivity. Qed.
End Samples.
Import Samples.

Lemma build_reads_back_witness :
  faithful sample_store ∧ ∃ root bound, ∀ fuel, bound ≤ fuel → load fuel sample_store root = Ok sample_manifest.
Proof.
  split; [exact sample_faithful|]. unfold sample_store, built. destruct (build_reads_back bits_json_law sample_manifest no_blobs) as (s2 & root & Hb & _ & Hr).
  assert (s2 = sample_store) as Hs by (unfold sample_store, built; by rewrite Hb). rewrite Hb. cbn [fst].
  destruct Hr as [bound Hr]; [rewrite Hs; exact sample_faithful|]. exists root, bound. intros fuel Hf. apply Hr, Hf.
Defined.

Lemma tree_diff_exact_witness :
  ∃ bound changes, diff bound edited_store sample_root edited_root = Ok changes ∧
    ∀ x, x ∈ changes ↔ change_between sample_manifest edited_manifest x.
Proof.
  destruct (tree_diff_exact _ _ _ _ _ edited_holds_sample edited_holds) as [bound Hd].
  destruct (Hd bound (Nat.le_refl _)) as (changes & Hc & _ & Hx). exact (ex_intro _ bound (ex_intro _ changes (conj Hc Hx))).
Defined.

(** Run on the two trees of the sample. *)
Example sample_diff : diff 6 edited_store sample_root edited_root =
  Ok [mkChange "a2" (Some "x"%string) None; mkChange "c1" None (Some "u"%string)].
Proof. vm_compute. reflexivity. Qed.

Lemma reachable_ids_exact_witness :
  ∃ bound ids, reachable_ids bound edited_store sample_root = Ok ids ∧
    ∀ x, x ∈ ids ↔ tree_node edited_store sample_root x ∨ ∃ path, sample_manifest !! path = Some x.
Proof.
  destruct (reachable_ids_exact _ _ _ edited_holds_sample) as [bound Hd].
  - intros x Hx [path Hp].
    apply (tree_nodes_in edited_store sample_root (sample_root :: match read_node edited_store sample_root with Ok node => (node_entries node).*2 | Err _ => [] end)) in Hx;
      [|by left|vm_compute; reflexivity].
    assert (forallb (λ id, forallb (λ e, bool_decide (e.2 ≠ id)) (map_entries sample_manifest))
      (sample_root :: match read_node edited_store sample_root with Ok node => (node_entries node).*2 | Err _ => [] end) = true) as Hall by (vm_compute; reflexivity).
    rewrite forallb_forall in Hall. apply list_elem_of_In, Hall in Hx. rewrite forallb_forall in Hx. specialize (Hx (path, x)).
    rewrite <- list_elem_of_In, elem_of_map_entries in Hx. apply Hx, bool_decide_eq_true in Hp. by cbn in Hp.
  - destruct (Hd bound (Nat.le_refl _)) as (ids & Hi & Hx). exact (ex_intro _ bound (ex_intro _ ids (conj Hi Hx))).
Defined.

(** the premise of exactness is needed.  When a path's blob is the text of a node of the
    same tree, the walk takes the node for seen and skips what is under it: the sample tree
    has the path [a1] with the blob [w], and [reachable_ids] answers without [w], so a sweep
    would delete it. *)
Theorem reachable_ids_misses :
  holds_tree trap_store trap_root trap_manifest ∧ trap_manifest !! "a1"%string = Some "w"%string ∧
  match reachable_ids 10 trap_store trap_root with Ok ids => "w"%string ∉ ids | Err _ => False end.
Proof.
  split_and!; [exact trap_holds|vm_compute; reflexivity|].
  assert (match reachable_ids 10 trap_store trap_root with Ok ids => bool_decide ("w"%string ∉ ids) | Err _ => false end = true) as Hw by (vm_compute; reflexivity).
  by destruct (reachable_ids 10 trap_store trap_root); [apply bool_decide_eq_true in Hw|].
Qed.
