(* ===== verification/TreeUpdates.v ===== *)
(** The incremental update of a manifest tree (store/manifest_tree.rs): [apply] over a tree
    that the store holds leaves a tree of the updated manifest, and answers the root that
    [build] gives the updated manifest unless the tree has become lower. *)
From S2P Require Import Prelude RustStr EventChain Chunking Diff ManifestTree TreeReads.

(** ** The merge of changes into entries *)

Lemma merge_nil_r es : merge_into_leaf es [] = es.
Proof. by destruct es. Qed.

Lemma merge_nil_l cs : merge_into_leaf [] cs = mjoin (set_entry <$> cs).
Proof. induction cs as [|c cs IH]; [done|]. rewrite fmap_cons, mjoin_cons, <- IH. done. Qed.

Lemma merge_cons e es c cs :
  merge_into_leaf (e :: es) (c :: cs) =
    if bool_decide (e.1 = c.1) then set_entry c ++ merge_into_leaf es cs
    else if bool_decide (String.le e.1 c.1) then e :: merge_into_leaf es (c :: cs)
    else set_entry c ++ merge_into_leaf (e :: es) cs.
Proof. reflexivity. Qed.

(** A change before every entry, and an entry before every change. *)
Lemma merge_change_first es c cs :
  (∀ k, k ∈ es.*1 → key_lt c.1 k) → merge_into_leaf es (c :: cs) = set_entry c ++ merge_into_leaf es cs.
Proof.
  intros Hlt. destruct es as [|e es]; [done|]. rewrite merge_cons. destruct (Hlt e.1) as [Hle Hne]; [by left|].
  rewrite bool_decide_eq_false_2 by congruence. rewrite bool_decide_eq_false_2; [done|]. by apply key_lt_not_le.
Qed.

Lemma merge_entry_first e es cs :
  (∀ k, k ∈ cs.*1 → key_lt e.1 k) → merge_into_leaf (e :: es) cs = e :: merge_into_leaf es cs.
Proof.
  intros Hlt. destruct cs as [|c cs]; [by rewrite !merge_nil_r|]. rewrite merge_cons. destruct (Hlt c.1) as [Hle Hne]; [by left|].
  by rewrite bool_decide_eq_false_2, bool_decide_eq_true_2 by done.
Qed.

(** Ranges that do not meet are merged on their own. *)
Lemma merge_app es1 es2 cs1 cs2 :
  (∀ k k', k ∈ es1.*1 → k' ∈ cs2.*1 → key_lt k k') → (∀ k k', k ∈ cs1.*1 → k' ∈ es2.*1 → key_lt k k') →
  merge_into_leaf (es1 ++ es2) (cs1 ++ cs2) = merge_into_leaf es1 cs1 ++ merge_into_leaf es2 cs2.
Proof.
  revert cs1. induction es1 as [|e es1 IHe]; intros cs1.
  - intros _ Hlt. induction cs1 as [|c cs1 IH]; [done|]. cbn [app].
    rewrite merge_change_first by (intros k Hk; apply Hlt; [by left|done]). cbn [app] in IH.
    rewrite IH by (intros k k' ? ?; apply Hlt; [by right|done]). by rewrite !merge_nil_l, fmap_cons, mjoin_cons, app_assoc.
  - intros Hlt1 Hlt2. induction cs1 as [|c cs1 IHc].
    + cbn [app]. rewrite merge_entry_first by (intros k Hk; apply Hlt1; [by left|done]). rewrite merge_nil_r.
      specialize (IHe []). cbn [app] in IHe. rewrite IHe; [by rewrite merge_nil_r| |].
      * intros k k' ? ?. apply Hlt1; [by right|done].
      * by intros k k' ?%elem_of_nil.
    + cbn [app]. change (e :: es1 ++ es2) with ((e :: es1) ++ es2). cbn [app]. rewrite !merge_cons.
      case_bool_decide; [|case_bool_decide].
      * rewrite IHe, app_assoc; [done|intros k k' ? ?; apply Hlt1; [by right|done]|intros k k' ? ?; apply Hlt2; [by right|done]].
      * change (c :: cs1 ++ cs2) with ((c :: cs1) ++ cs2). rewrite IHe; [done|intros k k' ? ?; apply Hlt1; [by right|done]|done].
      * cbn [app] in IHc. rewrite IHc, app_assoc; [done|]. intros k k' ? ?. apply Hlt2; [by right|done].
Qed.

Lemma elem_of_set_entry c k v : (k, v) ∈ set_entry c ↔ (k, Some v) = c.
Proof. destruct c as [k' [v'|]]; cbn; rewrite ?list_elem_of_singleton; [naive_solver|]. split; [by intros ?%elem_of_nil|done]. Qed.

(** What the merge has: the values that are set, and the entries that no change names. *)
Lemma elem_of_merge es cs k v :
  ordered es → ordered cs → (k, v) ∈ merge_into_leaf es cs ↔ (k, Some v) ∈ cs ∨ ((k, v) ∈ es ∧ k ∉ cs.*1).
Proof.
  intros Hes. revert cs. induction es as [|e es IHe]; intros cs Hcs.
  { rewrite merge_nil_l. clear Hcs. induction cs as [|c cs IH]; [split; [by intros ?%elem_of_nil|by intros [?%elem_of_nil|[?%elem_of_nil _]]]|].
    rewrite fmap_cons, mjoin_cons, elem_of_app, elem_of_set_entry, IH, elem_of_cons.
    split; [intros [<-|[?|[?%elem_of_nil _]]]|intros [[<-|?]|[?%elem_of_nil _]]]; auto; done. }
  rewrite fmap_cons in Hes. apply StronglySorted_inv in Hes as [Hes HFe].
  induction cs as [|c cs IHc]; [rewrite merge_nil_r; split; [intros ?; right; split; [done|by intros ?%elem_of_nil]|by intros [?%elem_of_nil|[? _]]]|].
  pose proof Hcs as Hcs'. rewrite fmap_cons in Hcs'. apply StronglySorted_inv in Hcs' as [Hcs' HFc]. rewrite Forall_forall in HFe, HFc.
  assert (∀ k v, (k, v) ∈ es → key_lt e.1 k) as He by (intros k' v' Hin; apply HFe; by apply (list_elem_of_fmap_2 fst _ (k', v'))).
  assert (∀ k v, (k, v) ∈ cs → key_lt c.1 k) as Hc by (intros k' v' Hin; apply HFc; by apply (list_elem_of_fmap_2 fst _ (k', v'))).
  rewrite merge_cons. rewrite fmap_cons, !elem_of_cons. case_bool_decide as Heq; [|case_bool_decide as Hle].
  - rewrite elem_of_app, elem_of_set_entry, (IHe Hes cs Hcs'). split.
    + intros [<-|[?|[Hin ?]]]; [by left; left|by left; right|]. right. split; [by right|]. intros [->|?]; [|done]. destruct (He _ _ Hin). by rewrite Heq in *.
    + intros [[?|?]|[[<-|?] Hk]]; [by left|by right; left| |right; right; tauto]. cbn in Heq. tauto.
  - rewrite elem_of_cons, (IHe Hes (c :: cs) Hcs), fmap_cons, !elem_of_cons. split; [|tauto]. intros [<-|?]; [|tauto]. right. split; [by left|].
    cbn in Heq, Hle. intros [->|Hin]; [done|]. destruct (key_lt_not_le c.1 k); [|done]. by apply HFc.
  - rewrite elem_of_app, elem_of_set_entry, (IHc Hcs'), elem_of_cons. apply key_lt_le in Hle. split; [|tauto].
    intros [<-|[?|[Hin ?]]]; [by left; left|by left; right|]. right. split; [done|]. intros [->|?]; [|done].
    destruct Hin as [<-|Hin]; [by destruct Hle|]. destruct (key_lt_not_le _ _ (He _ _ Hin)). by destruct Hle.
Qed.

Lemma merge_keys es cs k : k ∈ (merge_into_leaf es cs).*1 → k ∈ es.*1 ∨ k ∈ cs.*1.
Proof.
  revert cs. induction es as [|e es IHe]; intros cs.
  { rewrite merge_nil_l. induction cs as [|[k' [v|]] cs IH]; [by intros ?%elem_of_nil| |]; rewrite fmap_cons, mjoin_cons; cbn; rewrite ?elem_of_cons; tauto. }
  induction cs as [|c cs IHc]; [by rewrite merge_nil_r; left|]. rewrite merge_cons, !fmap_cons, !elem_of_cons.
  assert (k ∈ (set_entry c).*1 → k = c.1) as Hs by (destruct c as [k' [v|]]; cbn; [by intros ->%list_elem_of_singleton|by intros ?%elem_of_nil]).
  case_bool_decide; [|case_bool_decide].
  - rewrite fmap_app, elem_of_app. intros [?|?%IHe]; tauto.
  - rewrite fmap_cons, elem_of_cons. intros [->|Hk%IHe]; [tauto|]. rewrite fmap_cons, elem_of_cons in Hk. tauto.
  - rewrite fmap_app, elem_of_app. rewrite fmap_cons, elem_of_cons in IHc. tauto.
Qed.

Lemma ordered_cons {A} (e : string * A) es : ordered (e :: es) ↔ ordered es ∧ ∀ k, k ∈ es.*1 → key_lt e.1 k.
Proof.
  rewrite fmap_cons. split; [intros [Hs HF]%StronglySorted_inv; by rewrite Forall_forall in HF|]. intros [Hs HF]. constructor; [done|]. by apply Forall_forall.
Qed.

Lemma ordered_set_entry c es : ordered es → (∀ k, k ∈ es.*1 → key_lt c.1 k) → ordered (set_entry c ++ es).
Proof. destruct c as [k [v|]]; [|done]. cbn [set_entry fst snd app]. intros Hs Hk. by apply ordered_cons. Qed.

Lemma merge_ordered es cs : ordered es → ordered cs → ordered (merge_into_leaf es cs).
Proof.
  intros Hes. revert cs. induction es as [|e es IHe]; intros cs Hcs.
  { rewrite merge_nil_l. induction cs as [|c cs IH]; [constructor|]. rewrite fmap_cons, mjoin_cons. apply ordered_cons in Hcs as [Hcs Hlt].
    apply ordered_set_entry; [by apply IH|]. intros k Hk. rewrite <- merge_nil_l in Hk. apply merge_keys in Hk as [?%elem_of_nil|?]; auto. done. }
  pose proof Hes as [Hes' Hlte]%ordered_cons. induction cs as [|c cs IHc]; [by rewrite merge_nil_r|]. pose proof Hcs as [Hcs' Hltc]%ordered_cons.
  rewrite merge_cons. case_bool_decide as Heq; [|case_bool_decide as Hle].
  - apply ordered_set_entry; [by apply IHe|]. intros k [?|?]%merge_keys; [rewrite <- Heq|]; auto.
  - apply ordered_cons. split; [by apply IHe|]. intros k [?|Hk]%merge_keys; [by apply Hlte|]. rewrite fmap_cons, elem_of_cons in Hk.
    destruct Hk as [->|Hk]; [done|]. apply (key_le_lt_trans _ c.1); [done|]. by apply Hltc.
  - apply ordered_set_entry; [by apply IHc|]. apply key_lt_le in Hle. intros k [Hk|?]%merge_keys; [|by apply Hltc].
    rewrite fmap_cons, elem_of_cons in Hk. destruct Hk as [->|Hk]; [done|]. destruct Hle as [Hle _]. apply (key_le_lt_trans _ e.1); [done|]. by apply Hlte.
Qed.

(** The changes of a child's range. *)
Lemma changes_up_to_spec key cs :
  ordered cs → (∀ k, k ∈ (take (changes_up_to key cs) cs).*1 → String.le k key) ∧ (∀ k, k ∈ (drop (changes_up_to key cs) cs).*1 → key_lt key k).
Proof.
  induction cs as [|c cs IH]; [intros _; split; by intros k ?%elem_of_nil|]. intros [Hcs Hlt]%ordered_cons. cbn [changes_up_to]. case_bool_decide as Hle.
  - cbn [take drop]. destruct (IH Hcs) as [IH1 IH2]. split; [|done]. intros k. rewrite fmap_cons, elem_of_cons. intros [->|?]; [done|by apply IH1].
  - cbn [take drop]. split; [by intros k ?%elem_of_nil|]. apply key_lt_le in Hle. intros k. rewrite fmap_cons, elem_of_cons. intros [->|Hk]; [done|].
    destruct (Hlt k Hk) as [? _]. apply (key_lt_trans_le _ c.1); done.
Qed.

(** The merge, range by range. *)
Lemma merge_range es1 es2 cs :
  ordered (es1 ++ es2) → es1 ≠ [] → ordered cs →
  merge_into_leaf (es1 ++ es2) cs =
    merge_into_leaf es1 (take (changes_up_to (last_key es1) cs) cs) ++ merge_into_leaf es2 (drop (changes_up_to (last_key es1) cs) cs).
Proof.
  intros (Ho1 & Ho2 & Hlt)%ordered_app Hne Hcs. destruct (changes_up_to_spec (last_key es1) cs Hcs) as [Ht Hd].
  rewrite <- (take_drop (changes_up_to (last_key es1) cs) cs) at 1. apply merge_app.
  - intros k k' Hk Hk'. apply (key_le_lt_trans _ (last_key es1)); [by apply ordered_last|by apply Hd].
  - intros k k' Hk Hk'. apply (key_le_lt_trans _ (last_key es1)); [by apply Ht|]. apply Hlt; [by apply last_key_elem|done].
Qed.

Lemma ordered_take_drop {A} n (cs : list (string * A)) : ordered cs → ordered (take n cs) ∧ ordered (drop n cs).
Proof. intros Hcs. rewrite <- (take_drop n cs) in Hcs. by apply ordered_app in Hcs as (? & ? & _). Qed.

(** The manifest under changes, as [apply] falls back on it. *)
Definition with_changes (m : gmap string string) (changes : gmap string (option string)) : gmap string string :=
  foldl (λ m c, match c.2 with Some id => <[ c.1 := id ]> m | None => delete c.1 m end) m (map_entries changes).

Lemma with_changes_lookup (cs : list Change) (m : gmap string string) k v :
  NoDup cs.*1 →
  foldl (λ m c, match c.2 with Some id => <[ c.1 := id ]> m | None => delete c.1 m end) m cs !! k = Some v ↔
    (k, Some v) ∈ cs ∨ (m !! k = Some v ∧ k ∉ cs.*1).
Proof.
  revert m. induction cs as [|[k' o] cs IH]; intros m Hn; cbn [foldl fst snd].
  { split; [intros ?; right; split; [done|by intros ?%elem_of_nil]|by intros [?%elem_of_nil|[? _]]]. }
  rewrite fmap_cons in *. apply NoDup_cons in Hn as [Hk Hn]. cbn [fst] in *. rewrite (IH _ Hn), !elem_of_cons.
  assert ((k', Some v) ∈ cs → False) as Hcs by (intros Hin; apply Hk; by apply (list_elem_of_fmap_2 fst _ (k', Some v))).
  destruct (decide (k = k')) as [->|Hne].
  - destruct o as [v'|]; [rewrite lookup_insert_eq|rewrite lookup_delete_eq]; naive_solver.
  - destruct o as [v'|]; [rewrite lookup_insert_ne by done|rewrite lookup_delete_ne by done]; naive_solver.
Qed.

(** Entries in order are the entries of their map. *)
Lemma ordered_unique (es es' : Group) : ordered es → ordered es' → (∀ e, e ∈ es ↔ e ∈ es') → es = es'.
Proof.
  revert es'. induction es as [|e es IH]; intros [|e' es'] Ho Ho' He; [done| | |].
  - by pose proof (proj2 (He e') (list_elem_of_here _ _)) as ?%elem_of_nil.
  - by pose proof (proj1 (He e) (list_elem_of_here _ _)) as ?%elem_of_nil.
  - apply ordered_cons in Ho as [Ho Hlt]. apply ordered_cons in Ho' as [Ho' Hlt']. assert (e = e') as <-.
    { pose proof (proj1 (He e) (list_elem_of_here _ _)) as [->|Hin]%elem_of_cons; [done|]. pose proof (proj2 (He e') (list_elem_of_here _ _)) as [->|Hin']%elem_of_cons; [done|].
      destruct (key_lt_not_le e.1 e'.1); [by apply Hlt, list_elem_of_fmap_2|]. by destruct (Hlt' e.1); [by apply list_elem_of_fmap_2|]. }
    f_equal. apply IH; [done..|]. intros x. specialize (He x). rewrite !elem_of_cons in He. split; intros Hx.
    + destruct (proj1 He (or_intror Hx)) as [->|?]; [|done]. by destruct (Hlt e.1); [by apply list_elem_of_fmap_2|].
    + destruct (proj2 He (or_intror Hx)) as [->|?]; [|done]. by destruct (Hlt' e.1); [by apply list_elem_of_fmap_2|].
Qed.

Lemma merge_entries (m : gmap string string) (changes : gmap string (option string)) :
  merge_into_leaf (map_entries m) (map_entries changes) = map_entries (with_changes m changes).
Proof.
  apply ordered_unique; [apply merge_ordered; apply map_entries_ordered|apply map_entries_ordered|]. intros [k v].
  rewrite elem_of_merge by apply map_entries_ordered. rewrite (elem_of_map_entries (with_changes m changes)). unfold with_changes.
  rewrite with_changes_lookup by apply NoDup_map_entries. by rewrite (elem_of_map_entries m).
Qed.

(** ** Ranges that end at cuts *)

Section cuts.
Context `{Sha256} `{NodeJson}.

(** The entries of a range end at a cut in every level up to [level]. *)
Definition cuts (level : nat) (es : Group) : Prop := ∀ j, j ≤ level → closed (refs j es).

Lemma cuts_down level es : cuts (Datatypes.S level) es → cuts level es.
Proof. intros Hc j Hj. apply Hc. lia. Qed.

Lemma cuts_up level es : cuts level es → closed (refs (Datatypes.S level) es) → cuts (Datatypes.S level) es.
Proof. intros Hc Hcl j Hj. destruct (decide (j = Datatypes.S level)) as [->|]; [done|]. apply Hc. lia. Qed.

Lemma refs_app level p q : cuts level p → refs (Datatypes.S level) (p ++ q) = refs (Datatypes.S level) p ++ refs (Datatypes.S level) q.
Proof.
  induction level as [|level IH]; intros Hc.
  - cbn [refs]. rewrite split_closed_app by apply (Hc 0 (Nat.le_refl _)). by rewrite fmap_app.
  - change (node_ref (Datatypes.S level) <$> split (refs (Datatypes.S level) (p ++ q)) =
      (node_ref (Datatypes.S level) <$> split (refs (Datatypes.S level) p)) ++ (node_ref (Datatypes.S level) <$> split (refs (Datatypes.S level) q))).
    rewrite IH by by apply cuts_down. rewrite split_closed_app by apply (Hc (Datatypes.S level) (Nat.le_refl _)). by rewrite fmap_app.
Qed.

Lemma level_groups_app level p q j : cuts level p → j ≤ level → split (refs j (p ++ q)) = split (refs j p) ++ split (refs j q).
Proof.
  intros Hc Hj. destruct j as [|j]; [by apply split_closed_app, (Hc 0)|].
  rewrite refs_app by (intros i Hi; apply Hc; lia). by apply split_closed_app, Hc.
Qed.

Lemma closed_app_inv es es' : closed es → closed (es ++ es') → closed es'.
Proof.
  unfold closed, split_with_carry. intros Hc. rewrite split_from_app. destruct (split_from [] es) as [nodes carry]. cbn in Hc. subst carry.
  by destruct (split_from [] es').
Qed.

Lemma cuts_app level p q : cuts level p → cuts level q → cuts level (p ++ q).
Proof.
  intros Hp Hq j Hj. destruct j as [|j]; [apply closed_app; [by apply (Hp 0)|by apply (Hq 0)]|].
  rewrite refs_app by (intros i Hi; apply Hp; lia). apply closed_app; [by apply Hp|by apply Hq].
Qed.

Lemma cuts_app_inv level p q : cuts level p → cuts level (p ++ q) → cuts level q.
Proof.
  intros Hp Hpq j Hj. specialize (Hpq j Hj). destruct j as [|j]; [by apply (closed_app_inv p); [apply (Hp 0)|]|].
  rewrite refs_app in Hpq by (intros i Hi; apply Hp; lia). apply (closed_app_inv (refs (Datatypes.S j) p)); [by apply Hp|done].
Qed.

(** The first group of a scan, when the scan closed it. *)
Lemma split_from_first current entries g gs carry :
  split_from current entries = (g :: gs, carry) →
  ∃ a b, entries = a ++ b ∧ g = current ++ a ∧ split_from current a = ([g], []) ∧ split_from [] b = (gs, carry).
Proof.
  revert current. induction entries as [|e entries IH]; intros current; cbn [split_from]; [done|]. destruct (_ || _) eqn:Hc.
  - destruct (split_from [] entries) as [nodes carry'] eqn:Hs. intros [= <- <- <-]. exists [e], entries. split_and!; [done|done| |done].
    cbn [split_from]. by rewrite Hc.
  - intros (a & b & -> & -> & Ha & Hb)%IH. exists (e :: a), b. split_and!; [done|by rewrite <- app_assoc| |done]. cbn [split_from]. by rewrite Hc.
Qed.

Lemma split_first es g gs : split es = g :: gs → es = g ++ mjoin gs ∧ split g = [g] ∧ split (mjoin gs) = gs ∧ (gs ≠ [] → closed g).
Proof.
  intros Hs. destruct (split_mjoin es) as [Hj _]. rewrite Hs, mjoin_cons in Hj. split; [done|]. unfold split, split_with_carry in Hs.
  destruct (split_from [] es) as [[|g' nodes] carry] eqn:Hf.
  - case_bool_decide as Hc; [done|]. injection Hs as -> <-. split_and!; [|done|done]. cbn in Hj. rewrite app_nil_r in Hj. subst es.
    unfold split, split_with_carry. by rewrite Hf, bool_decide_eq_false_2.
  - apply split_from_first in Hf as (a & b & -> & -> & Ha & Hb). cbn [app] in *.
    assert (g = a ∧ gs = split b) as [-> ->].
    { unfold split, split_with_carry. rewrite Hb. case_bool_decide; by injection Hs as <- <-. }
    assert (closed a) as Hcl by (unfold closed, split_with_carry; by rewrite Ha). split_and!; [| |done].
    + unfold split, split_with_carry. by rewrite Ha.
    + by destruct (split_mjoin b) as [-> _].
Qed.

(** The first groups of a scan are the groups of their own entries. *)
Lemma split_prefix es gs1 gs2 :
  split es = gs1 ++ gs2 → split (mjoin gs1) = gs1 ∧ split (mjoin gs2) = gs2 ∧ (gs2 ≠ [] → closed (mjoin gs1)).
Proof.
  revert es. induction gs1 as [|g gs1 IH]; intros es Hs.
  - cbn [app] in Hs. split_and!; [done| |done]. destruct (split_mjoin es) as [Hj _]. by rewrite <- Hs, Hj.
  - cbn [app] in Hs. apply split_first in Hs as (_ & Hg & Hgs & Hcl). destruct (IH _ Hgs) as (H1 & H2 & H3). rewrite mjoin_cons.
    destruct (decide (gs1 ++ gs2 = [])) as [[-> ->]%app_eq_nil|Hne]; [cbn; rewrite app_nil_r; split_and!; try done|].
    specialize (Hcl Hne). split_and!; [by rewrite split_closed_app, Hg, H1|done|]. intros Hne2. by apply closed_app; [|apply H3].
Qed.

(** A range of groups of a level is the groups of a range of the entries. *)
Lemma refs_prefix level es gs1 gs2 :
  split (refs level es) = gs1 ++ gs2 →
  ∃ p q, es = p ++ q ∧ split (refs level p) = gs1 ∧ split (refs level q) = gs2 ∧ (gs2 ≠ [] → cuts level p).
Proof.
  revert gs1 gs2. induction level as [|level IH]; intros gs1 gs2 Hs; pose proof (split_prefix _ _ _ Hs) as (H1 & H2 & H3);
    match type of Hs with split ?l = _ => destruct (split_mjoin l) as [Hj Hne] end; rewrite Hs, join_app in Hj.
  - exists (mjoin gs1), (mjoin gs2). split_and!; [done|done|done|]. intros Hg j Hj'. assert (j = 0) as -> by lia. by apply H3.
  - symmetry in Hj; cbn [refs] in Hj; apply fmap_app_inv in Hj as (hs1 & hs2 & Ha & Hb & Hhs).
    destruct (IH hs1 hs2 Hhs) as (p & q & -> & Hp & Hq & Hc). exists p, q.
    assert (refs (Datatypes.S level) p = mjoin gs1) as Hrp by (cbn [refs]; by rewrite Hp).
    assert (refs (Datatypes.S level) q = mjoin gs2) as Hrq by (cbn [refs]; by rewrite Hq).
    rewrite Hrp, Hrq. split_and!; [done|done|done|]. intros Hg. apply cuts_up; [|by rewrite Hrp; apply H3]. apply Hc. intros ->.
    rewrite Hs in Hne. apply Forall_app in Hne as [_ Hne]. destruct gs2 as [|g gs2]; [done|]. apply Forall_cons in Hne as [Hne _].
    rewrite mjoin_cons in Hb. by destruct g.
Qed.
End cuts.

(** ** The rebuild of a range *)

Section updates.
Context {S E : Type} `{ContentBlobsLaws S E} `{NodeJson}.

Definition node_holds (s : S) (node : Node) (es : Group) (n : nat) : Prop :=
  match node_level node with
  | 0 => node_entries node = es ∧ n = 1
  | Datatypes.S l => ∃ n', n = Datatypes.S n' ∧ forest (subtree s l) (node_entries node) es n'
  end.

(** A node as [build] has it over a range of entries, with the levels below it. *)
Definition canonical (s : S) (node : Node) (es : Group) (rightmost : bool) : Prop :=
  node_entries node = refs (node_level node) es ∧ (∀ j, j < node_level node → reads s j (split (refs j es))) ∧
  (rightmost = false → cuts (node_level node) es).

(** The references [out] are nodes of [level] over [es], and those of [build] when [C]. *)
Definition updated (C : Prop) (s : S) (level : nat) (rightmost : bool) (es out : Group) : Prop :=
  (∀ s2, extends s s2 → faithful s2 → (∃ n, forest (subtree s2 level) out es n) ∧ (C → stored s2 level es)) ∧
  (C → out = refs (Datatypes.S level) es ∧ (rightmost = false → cuts level es)).

Lemma refs_nil level : refs level [] = [].
Proof. induction level as [|level IH]; [done|]. cbn [refs]. by rewrite IH. Qed.

Lemma refs_nil_inv level es : refs level es = [] → es = [].
Proof. intros Hr. destruct (decide (es = [])) as [->|Hne]; [done|]. by destruct (refs_nonempty level es Hne). Qed.

Lemma cuts_nil level : cuts level [].
Proof. intros j _. by rewrite refs_nil. Qed.

Lemma stored_nil (s : S) level : stored s level [].
Proof. intros j _ g. rewrite refs_nil. by intros ?%elem_of_nil. Qed.

Lemma stored_app (s : S) level p q : cuts level p → stored s level (p ++ q) ↔ stored s level p ∧ stored s level q.
Proof.
  intros Hc. split.
  - intros Hs. split; intros j Hj g Hg; apply (Hs j Hj); rewrite (level_groups_app level p q j Hc Hj); apply elem_of_app; tauto.
  - intros [Hp Hq] j Hj g. rewrite (level_groups_app level p q j Hc Hj), elem_of_app. intros [?|?]; [by apply Hp|by apply Hq].
Qed.

Lemma updated_nil C (s : S) level rightmost : updated C s level rightmost [] [].
Proof.
  split; [intros s2 _ _; split; [by exists 0|intros _; apply stored_nil]|]. intros _. rewrite refs_nil. split; [done|]. intros _. apply cuts_nil.
Qed.

(** The first child of a node and the others. *)
Lemma updated_app C (s1 s2 : S) level rightmost is_last es1 es2 out1 out2 :
  updated C s1 level (rightmost && is_last) es1 out1 → extends s1 s2 → updated C s2 level rightmost es2 out2 → (is_last = true → es2 = []) →
  updated C s2 level rightmost (es1 ++ es2) (out1 ++ out2).
Proof.
  intros [Hf1 Hc1] Hx [Hf2 Hc2] Hlast.
  assert (C → cuts level es1 ∨ es2 = []) as Hcut.
  { intros HC. destruct is_last; [right; by apply Hlast|]. left. apply Hc1; [done|]. by rewrite andb_false_r. }
  split.
  - intros s3 Hx3 Hf. destruct (Hf1 s3) as [[n1 Hn1] Hst1]; [by etransitivity|done|]. destruct (Hf2 s3 Hx3 Hf) as [[n2 Hn2] Hst2]. split.
    + exists (n1 + n2). apply forest_app. by exists es1, es2, n1, n2.
    + intros HC. destruct (Hcut HC) as [Hcut1| ->]; [|rewrite app_nil_r; by apply Hst1]. apply stored_app; auto.
  - intros HC. destruct (Hc1 HC) as [-> Hcuts1], (Hc2 HC) as [-> Hcuts2]. destruct (Hcut HC) as [Hcut1| ->].
    + rewrite refs_app by done. split; [done|]. intros Hr. apply cuts_app; auto.
    + rewrite refs_nil, !app_nil_r. split; [done|]. intros ->. by apply Hcuts1.
Qed.

(** The first child of a canonical node is canonical over its range. *)
Lemma canonical_child (s : S) level key id kids es1 es2 n1 :
  (key, id) :: kids = refs (Datatypes.S level) (es1 ++ es2) → stored s level (es1 ++ es2) → subtree s level id es1 n1 →
  read_node s id = Ok (mkNode NODE_TAG level (refs level es1)) ∧ kids = refs (Datatypes.S level) es2 ∧ (key, id) = node_ref level (refs level es1) ∧
  split (refs level es1) = [refs level es1] ∧ stored s level es1 ∧ stored s level es2 ∧ (kids ≠ [] → cuts level es1) ∧ (kids = [] → es2 = []).
Proof.
  intros Hk Hs Ht. symmetry in Hk. apply fmap_cons_inv in Hk as (g & gs & Hid & Hkids & Hg).
  destruct (refs_prefix level _ [g] gs Hg) as (p & q & Hpq & Hp & Hq & Hcut).
  assert (refs level p = g) as Hrp by (destruct (split_mjoin (refs level p)) as [<- _]; rewrite Hp; cbn; by rewrite app_nil_r).
  assert (stored s level p ∧ stored s level q ∧ (gs = [] → q = [])) as (Hsp & Hsq & Hlast).
  { rewrite Hpq in Hs. destruct (decide (gs = [])) as [->|Hne].
    - apply split_nil, refs_nil_inv in Hq as ->. rewrite app_nil_r in Hs. split_and!; [done|apply stored_nil|done].
    - apply stored_app in Hs as [? ?]; [done|by apply Hcut]. }
  destruct (stored_forest s level p Hsp) as [n Hn]. cbn [refs] in Hn. rewrite Hp in Hn.
  destruct Hn as (es3 & es4 & n3 & n4 & -> & _ & Ht' & _ & _ & [-> _]). rewrite app_nil_r in *. injection Hid as -> ->.
  destruct (subtree_det _ _ _ _ _ _ _ _ Ht Ht') as [-> _]. apply app_inv_head in Hpq as <-. rewrite Hrp in Hp |- *. split_and!; try done.
  - apply (Hsp level); [lia|]. rewrite Hrp, Hp. by apply list_elem_of_singleton.
  - cbn [refs]. by rewrite Hq.
  - intros Hne. apply Hcut. intros ->. by rewrite Hkids in Hne.
  - intros ->. apply Hlast. symmetry in Hkids. by apply fmap_nil_inv in Hkids.
Qed.

(** What the rebuild of a node's range promises. *)
Definition rebuilds (C : Prop) (level : nat) (rebuild : Node → list Change → bool → T S E (option Group)) : Prop :=
  ∀ s child es n cs rightmost, node_level child = level → node_holds s child es n → es ≠ [] → ordered es → ordered cs →
    (C → canonical s child es rightmost) →
    ∃ s' r, rebuild child cs rightmost s = (s', Ok r) ∧ extends s s' ∧
      ∀ out, r = Some out → updated C s' level rightmost (merge_into_leaf es cs) out.

(** A child under its changes. *)
Definition rebuild_child (rebuild : Node → list Change → bool → T S E (option Group)) (key id : string) (mine : list Change) (rightmost : bool) : T S E (option Group) :=
  if bool_decide (mine = []) then t_ret (Some [(key, id)]) else t_bind (load_node id) (λ child, rebuild child mine rightmost).

Lemma rebuild_children_cons rebuild rightmost key id kids rest merged s :
  rebuild_children rebuild rightmost ((key, id) :: kids) rest merged s =
    let n := if bool_decide (kids = []) then length rest else changes_up_to key rest in
    t_bind (rebuild_child rebuild key id (take n rest) (rightmost && bool_decide (kids = [])))
      (λ r, match r with None => t_ret None | Some entries => rebuild_children rebuild rightmost kids (drop n rest) (merged ++ entries) end) s.
Proof.
  cbn [rebuild_children]. unfold rebuild_child. cbn zeta. destruct (bool_decide (take _ _ = [])); [done|].
  unfold t_bind. by destruct (load_node id s) as [s1 [child|e]].
Qed.

Lemma subtree_holds s level id es n : subtree s level id es n → ∃ node, read_node s id = Ok node ∧ node_level node = level ∧ node_holds s node es n.
Proof. intros (node & Hr & Hl & _ & Hb)%subtree_node. exists node. split_and!; [done|done|]. unfold node_holds. by rewrite Hl. Qed.

Lemma rebuild_child_spec C level rebuild s key id es n mine rightmost :
  rebuilds C level rebuild → subtree s level id es n → es ≠ [] → last_key es = key → ordered es → ordered mine →
  (C → read_node s id = Ok (mkNode NODE_TAG level (refs level es)) ∧ [(key, id)] = refs (Datatypes.S level) es ∧ stored s level es ∧
    (rightmost = false → cuts level es)) →
  ∃ s' r, rebuild_child rebuild key id mine rightmost s = (s', Ok r) ∧ extends s s' ∧
    ∀ out, r = Some out → updated C s' level rightmost (merge_into_leaf es mine) out.
Proof.
  intros Hreb Ht Hne Hkey Ho Hm HC. unfold rebuild_child. case_bool_decide as Hmine.
  - exists s, (Some [(key, id)]). split_and!; [done|done|]. subst mine. rewrite merge_nil_r. intros out [= <-]. split.
    + intros s2 Hx Hf. split; [|intros HC'; destruct (HC HC') as (_ & _ & Hst & _); by eapply stored_extends].
      exists (n + 0). exists es, [], n, 0. split_and!; try done; [by rewrite app_nil_r|]. by eapply subtree_extends.
    + intros HC'. by destruct (HC HC') as (_ & ? & _ & ?).
  - destruct (subtree_holds _ _ _ _ _ Ht) as (node & Hr & Hl & Hh). unfold t_bind, load_node. rewrite Hr.
    apply (Hreb s node es n); try done. intros HC'. destruct (HC HC') as (Hr' & _ & Hst & Hcut). rewrite Hr in Hr'. injection Hr' as ->.
    split_and!; [done| |done]. cbn [node_level]. intros j Hj. apply Hst. lia.
Qed.

Lemma rebuild_children_spec C level rebuild rightmost kids s es n rest merged :
  rebuilds C level rebuild → forest (subtree s level) kids es n → ordered es → ordered rest → (kids = [] → rest = []) →
  (C → kids = refs (Datatypes.S level) es ∧ stored s level es ∧ (rightmost = false → cuts level es)) →
  ∃ s' r, rebuild_children rebuild rightmost kids rest merged s = (s', Ok r) ∧ extends s s' ∧
    ∀ out, r = Some out → ∃ out', out = merged ++ out' ∧ updated C s' level rightmost (merge_into_leaf es rest) out'.
Proof.
  intros Hreb. revert s es n rest merged. induction kids as [|[key id] kids IH]; intros s es n rest merged Hfor Ho Hrest Hempty HC.
  { destruct Hfor as [-> ->]. rewrite Hempty by done. exists s, (Some merged). split_and!; [done|done|]. intros out [= <-]. exists [].
    rewrite app_nil_r. split; [done|]. apply updated_nil. }
  destruct Hfor as (es1 & es2 & n1 & n2 & -> & -> & Ht & Hne & Hkey & Hf). pose proof Ho as (Ho1 & Ho2 & _)%ordered_app.
  rewrite rebuild_children_cons. cbn zeta. set (is_last := bool_decide (kids = [])).
  set (k := if is_last then length rest else changes_up_to key rest). destruct (ordered_take_drop k rest Hrest) as [Hmine Htail].
  assert (is_last = true → kids = [] ∧ es2 = []) as Hlast.
  { unfold is_last. intros ->%bool_decide_eq_true. split; [done|]. by destruct Hf as [-> _]. }
  assert (merge_into_leaf (es1 ++ es2) rest = merge_into_leaf es1 (take k rest) ++ merge_into_leaf es2 (drop k rest)) as ->.
  { unfold k. destruct is_last eqn:Hl; [|subst key; by apply merge_range]. destruct (Hlast eq_refl) as [_ ->].
    rewrite take_ge, drop_ge by lia. cbn. by rewrite !app_nil_r. }
  destruct (rebuild_child_spec C level rebuild s key id es1 n1 (take k rest) (rightmost && is_last) Hreb Ht Hne Hkey Ho1 Hmine) as (s1 & r1 & Hr1 & Hx1 & Hu1).
  { intros HC'. destruct (HC HC') as (Hk & Hst & Hcut). destruct (canonical_child _ _ _ _ _ _ _ _ Hk Hst Ht) as (Hread & _ & Hid & Hone & Hst1 & _ & Hc1 & He2).
    split_and!; [done|cbn [refs]; by rewrite Hone, Hid|done|]. intros Hr. destruct (decide (kids = [])) as [Hk'|Hk']; [|by apply Hc1].
    rewrite (He2 Hk'), app_nil_r in Hcut. apply Hcut. unfold is_last in Hr. by rewrite bool_decide_eq_true_2, andb_true_r in Hr. }
  unfold t_bind. rewrite Hr1. destruct r1 as [out1|]; [|exists s1, None; split_and!; [done|done|by intros out [=]]].
  destruct (IH s1 es2 n2 (drop k rest) (merged ++ out1)) as (s2 & r2 & Hr2 & Hx2 & Hu2); [|done|done| | |].
  - eapply forest_impl; [|exact Hf]. intros ? ? ?. by apply subtree_extends.
  - intros Hk. unfold k, is_last. by rewrite bool_decide_eq_true_2, drop_all by done.
  - intros HC'. destruct (HC HC') as (Hk & Hst & Hcut). destruct (canonical_child _ _ _ _ _ _ _ _ Hk Hst Ht) as (_ & Hkids & _ & _ & Hst1 & Hst2 & Hc1 & He2).
    split_and!; [done|by eapply stored_extends|]. intros Hr. destruct (decide (kids = [])) as [Hk'|Hk']; [rewrite (He2 Hk'); apply cuts_nil|].
    apply (cuts_app_inv level es1); auto.
  - exists s2, r2. split_and!; [done|by etransitivity|]. intros out Hout. destruct (Hu2 out Hout) as (out2 & -> & Hu). exists (out1 ++ out2).
    split; [by rewrite app_assoc|]. apply (updated_app C s1 s2 level rightmost is_last); [by apply Hu1|done|done|].
    intros Hl. destruct (Hlast Hl) as [_ ->]. rewrite merge_nil_l. unfold k. by rewrite Hl, drop_all.
Qed.

(** The nodes over the entries of a range. *)
Definition store_range (level : nat) (rightmost : bool) (entries : Group) : T S E (option Group) :=
  let '(groups, carry) := split_with_carry entries in
  if bool_decide (carry = []) then t_bind (store_nodes level groups) (λ out, t_ret (Some out))
  else if rightmost then t_bind (store_nodes level (groups ++ [carry])) (λ out, t_ret (Some out))
  else t_ret None.

Lemma store_range_spec level rightmost entries s :
  ∃ s' r, store_range level rightmost entries s = (s', Ok r) ∧ extends s s' ∧
    ∀ out, r = Some out → out = node_ref level <$> split entries ∧ wrote_nodes s' level (split entries) ∧ (rightmost = false → closed entries).
Proof.
  destruct (store_nodes_spec s level (split entries)) as (s' & Hs & Hx & Hw). unfold store_range.
  assert (closed entries ∨ rightmost = true ∨ rightmost = false ∧ (split_with_carry entries).2 ≠ []) as Hcases.
  { unfold closed. destruct ((split_with_carry entries).2), rightmost; auto. }
  unfold closed, split in *. destruct (split_with_carry entries) as [groups carry]. cbn [snd] in *.
  case_bool_decide as Hc; [|destruct rightmost].
  - exists s', (Some (node_ref level <$> groups)). unfold t_bind. rewrite Hs. split_and!; [done|done|]. by intros out [= <-].
  - eexists s', _. unfold t_bind. rewrite Hs. split_and!; [done|done|]. by intros out [= <-].
  - exists s, None. split_and!; [done|done|]. by intros out [=].
Qed.

Lemma rebuild_range_S fuel node cs rightmost s :
  rebuild_range (Datatypes.S fuel) node cs rightmost s =
    t_bind (if node_level node =? 0 then t_ret (Some (merge_into_leaf (node_entries node) cs))
            else rebuild_children (rebuild_range fuel) rightmost (node_entries node) cs [])
      (λ r, match r with None => t_ret None | Some entries => store_range (node_level node) rightmost entries end) s.
Proof. reflexivity. Qed.

Lemma rebuild_range_spec (Hjson : ∀ n, node_of_text (node_text n) = Some n) C fuel s node es n cs rightmost :
  node_level node < fuel → node_holds s node es n → (es = [] → node_level node = 0) → ordered es → ordered cs →
  (C → canonical s node es rightmost) →
  ∃ s' r, rebuild_range fuel node cs rightmost s = (s', Ok r) ∧ extends s s' ∧
    ∀ out, r = Some out → updated C s' (node_level node) rightmost (merge_into_leaf es cs) out.
Proof.
  revert s node es n cs rightmost. induction fuel as [|fuel IH]; intros s node es n cs rightmost Hfuel Hh Hempty Ho Hcs HC; [lia|].
  rewrite rebuild_range_S. unfold t_bind. unfold node_holds in Hh. unfold canonical in HC. destruct (node_level node) as [|level] eqn:Hlevel; cbn [Nat.eqb].
  - destruct Hh as [-> _]. unfold t_ret at 1. destruct (store_range_spec 0 rightmost (merge_into_leaf es cs) s) as (s' & r & -> & Hx & Hr).
    exists s', r. split_and!; [done|done|]. intros out (-> & Hw & Hc)%Hr. split.
    + intros s2 Hx2 Hf. pose proof (wrote_reads Hjson _ _ _ _ Hw Hx2 Hf) as Hreads. split; [by apply forest_leaves|].
      intros _ j Hj. assert (j = 0) as -> by lia. exact Hreads.
    + intros _. split; [done|]. intros Hr' j Hj. assert (j = 0) as -> by lia. by apply Hc.
  - destruct Hh as (n' & -> & Hfor).
    destruct (rebuild_children_spec C level (rebuild_range fuel) rightmost (node_entries node) s es n' cs []) as (s1 & r1 & -> & Hx1 & Hr1);
      [|done|done|done| | |].
    + intros s0 child es0 n0 cs0 rm0 Hl Hh0 Hne Ho0 Hcs0 HC0. rewrite <- Hl. apply (IH s0 child es0 n0); try done. lia.
    + intros Hk. rewrite Hk in Hfor. destruct Hfor as [-> _]. by specialize (Hempty eq_refl).
    + intros HC'. destruct (HC HC') as (Hk & Hst & Hcut). split_and!; [done|intros j Hj; apply Hst; lia|]. intros Hr. by apply cuts_down, Hcut.
    + destruct r1 as [entries|]; [|exists s1, None; split_and!; [done|done|by intros out [=]]].
      destruct (Hr1 entries eq_refl) as (out' & -> & Hf1 & Hc1). cbn [app].
      destruct (store_range_spec (Datatypes.S level) rightmost out' s1) as (s' & r & -> & Hx & Hr). exists s', r. split_and!; [done|by etransitivity|].
      intros out (-> & Hw & Hc)%Hr. split.
      * intros s2 Hx2 Hf. pose proof (wrote_reads Hjson _ _ _ _ Hw Hx2 Hf) as Hreads. destruct (Hf1 s2) as [[n2 Hn2] Hst]; [by etransitivity|done|].
        split; [by eapply forest_up|]. intros HC' j Hj. destruct (Hc1 HC') as [Hout _].
        destruct (decide (j = Datatypes.S level)) as [->|]; [by rewrite <- Hout|]. apply (Hst HC'). lia.
      * intros HC'. destruct (Hc1 HC') as [-> Hcut]. split; [done|]. intros Hr'. apply cuts_up; auto.
Qed.

(** ** The update of a tree *)

Lemma subtree_level (s : S) l l' id es n es' n' : subtree s l id es n → subtree s l' id es' n' → l = l'.
Proof. intros (node & Hr & Hl & _)%subtree_node (node' & Hr' & Hl' & _)%subtree_node. congruence. Qed.

(** The levels above references that will be nodes over [es]. *)
Lemma grow_levels_forest (Hjson : ∀ n, node_of_text (node_text n) = Some n) fuel level rs s :
  rs ≠ [] → length rs ≤ Datatypes.S fuel →
  ∃ s' root k, grow_levels fuel level rs s = (s', Ok root) ∧ extends s s' ∧
    ∀ es s2, extends s' s2 → faithful s2 → (∃ n, forest (subtree s2 level) rs es n) → ∃ n, subtree s2 k root es n.
Proof.
  revert level rs s. induction fuel as [|fuel IH]; intros level rs s Hne Hlen;
    (destruct rs as [|[key root] rs]; [done|]; destruct (decide (rs = [])) as [->|Hmany];
      [exists s, root, level; split_and!; [done|done|]; intros es s2 _ _ (n & es1 & es2 & n1 & n2 & -> & _ & Ht & _ & _ & [-> _]); exists n1; by rewrite app_nil_r|]).
  { destruct rs; [done|cbn [length] in Hlen; lia]. }
  destruct (store_nodes_spec s (level + 1) (split ((key, root) :: rs))) as (s1 & Hs1 & Hx1 & Hw1).
  destruct (IH (level + 1) (node_ref (level + 1) <$> split ((key, root) :: rs)) s1) as (s' & root' & k & Hg & Hx & Ht).
  { by intros ?%fmap_nil_inv%split_nil. }
  { rewrite length_fmap. pose proof (split_length ((key, root) :: rs)) as Hl. destruct rs; [done|]. cbn [length] in *. lia. }
  exists s', root', k. split_and!; [|by etransitivity|].
  - cbn [grow_levels]. destruct rs as [|r rs]; [done|]. unfold t_bind. by rewrite Hs1.
  - intros es s2 Hx2 Hf [n Hn]. apply Ht; [done|done|]. rewrite Nat.add_1_r in *. apply (forest_up s2 level _ es n); [|done].
    apply (wrote_reads Hjson s1); [done|by etransitivity|done].
Qed.

Lemma tree_root (s : S) level root es : tree s level root es → read_node s root = Ok (mkNode NODE_TAG level (refs level es)).
Proof.
  intros [Hs Hr]. case_bool_decide as He.
  - subst es. destruct Hr as (-> & -> & Hr). apply Hr. by left.
  - destruct Hr as [key Hr]. cbn [refs] in Hr. apply fmap_cons_inv in Hr as (g & gs & Hid & Hgs & Hsplit). symmetry in Hgs. apply fmap_nil_inv in Hgs as ->.
    injection Hid as _ ->. assert (refs level es = g) as Hg by (destruct (split_mjoin (refs level es)) as [<- _]; rewrite Hsplit; cbn; by rewrite app_nil_r).
    rewrite Hg. apply (Hs level); [lia|]. rewrite Hsplit. by apply list_elem_of_singleton.
Qed.

(** What an update leaves for the entries [es]: a tree of them, and when [C] the tree of
    their levels, from the level of the updated root on. *)
Definition replaced (C : Prop) (s : S) (level : nat) (root : string) (es : Group) : Prop :=
  ∃ k, (∀ s2, extends s s2 → faithful s2 → (∃ n, subtree s2 k root es n) ∧ (C → tree s2 k root es)) ∧ (es = [] → k = 0) ∧
    (C → if bool_decide (es = []) then root = node_id 0 [] else tops level es k root).

Lemma replaced_nil (Hjson : ∀ n, node_of_text (node_text n) = Some n) C (s : S) level :
  wrote_nodes s 0 [[]] → replaced C s level (node_id 0 []) [].
Proof.
  intros Hw. exists 0. split_and!; [|done|done]. intros s2 Hx Hf. pose proof (wrote_reads Hjson _ _ _ _ Hw Hx Hf) as Hr.
  assert (tree s2 0 (node_id 0 []) []) as Ht by (split; [apply stored_nil|done]). split; [by eapply tree_subtree|done].
Qed.

Lemma updated_nonempty C (s : S) level rightmost es out :
  updated C s level rightmost es out → (∃ s2, extends s s2 ∧ faithful s2) → out = [] ↔ es = [].
Proof.
  intros [Hf _] (s2 & Hx & Hfa). destruct (Hf s2 Hx Hfa) as [[n Hn] _]. split; [intros ->; by destruct Hn as [-> _]|].
  intros ->. by apply forest_nil in Hn.
Qed.

Lemma replaced_grown (Hjson : ∀ n, node_of_text (node_text n) = Some n) C (s1 s' : S) level root k es out s3 :
  updated C s1 level true es out → es ≠ [] → grow_levels (length out) level out s1 = (s', Ok root) → extends s1 s' →
  (∀ es s2, extends s' s2 → faithful s2 → (∃ n, forest (subtree s2 level) out es n) → ∃ n, subtree s2 k root es n) →
  extends s' s3 → faithful s3 → replaced C s' level root es.
Proof.
  intros [Hf Hc] Hne Hg Hx Hgrow Hx3 Hf3.
  assert (C → tops level es k root ∧ ∀ s2, extends s' s2 → faithful s2 → tree s2 k root es) as HC.
  { intros HC. destruct (Hc HC) as [-> _]. destruct (grow_levels_spec (length (refs (Datatypes.S level) es)) level es s1) as (k' & root' & s'' & Htop & Hg' & _ & Hw); [done|lia|].
    rewrite Hg in Hg'. injection Hg' as <- <-.
    assert (∀ s2, extends s' s2 → faithful s2 → tree s2 k' root es) as Htree.
    { intros s2 Hx2 Hf2. split; [|rewrite bool_decide_eq_false_2 by done; by destruct Htop as (_ & ? & _)]. intros j Hj.
      destruct (decide (j ≤ level)) as [Hle|Hgt]; [destruct (Hf s2) as [_ Hst]; [by etransitivity|done|]; by apply (Hst HC)|].
      apply (wrote_reads Hjson s'); [apply Hw; lia|done|done]. }
    assert (k = k') as <-; [|done]. destruct (tree_subtree _ _ _ _ (Htree s3 Hx3 Hf3)) as [n Hn].
    destruct (Hgrow es s3 Hx3 Hf3) as [n' Hn']; [apply Hf; [by etransitivity|done]|]. by eapply subtree_level. }
  exists k. split_and!; [|done|intros HC'; rewrite bool_decide_eq_false_2 by done; by apply HC].
  intros s2 Hx2 Hf2. split; [|intros HC'; by apply HC]. apply Hgrow; [done|done|]. apply Hf; [by etransitivity|done].
Qed.

Lemma apply_locally_spec (Hjson : ∀ n, node_of_text (node_text n) = Some n) (C : Prop) fuel s level root es n cs :
  subtree s level root es n → (es = [] → level = 0) → (C → tree s level root es) → level < fuel → ordered es → ordered cs →
  ∃ s' r, apply_locally fuel root cs s = (s', Ok r) ∧ extends s s' ∧
    ∀ root', r = Some root' → (∃ s2, extends s' s2 ∧ faithful s2) → replaced C s' level root' (merge_into_leaf es cs).
Proof.
  intros Ht Hempty HC Hfuel Ho Hcs. destruct (subtree_holds _ _ _ _ _ Ht) as (node & Hr & Hl & Hh). unfold apply_locally, t_bind, load_node. rewrite Hr.
  destruct (rebuild_range_spec Hjson C fuel s node es n cs true) as (s1 & r1 & -> & Hx1 & Hr1); [lia|done|by rewrite Hl|done|done| |].
  { intros HC'. destruct (HC HC') as [Hst _]. pose proof (tree_root _ _ _ _ (HC HC')) as Hr'. rewrite Hr in Hr'. injection Hr' as ->.
    split_and!; [done| |done]. cbn [node_level]. intros j Hj. apply Hst. lia. }
  destruct r1 as [out|]; [|exists s1, None; split_and!; [done|done|by intros ? [=]]]. specialize (Hr1 out eq_refl). rewrite Hl in *.
  case_bool_decide as Hout.
  - destruct (store_node_spec s1 0 []) as (s' & -> & Hx & Hw). exists s', (Some (node_id 0 [])). split_and!; [done|by etransitivity|].
    intros root' [= <-] (s2 & Hx2 & Hf). assert (merge_into_leaf es cs = []) as ->; [|by apply replaced_nil].
    apply (updated_nonempty C s1 level true _ out); [done| |done]. exists s2. split; [by etransitivity|done].
  - destruct (grow_levels_forest Hjson (length out) level out s1) as (s' & root' & k & Hg & Hx & Hgrow); [done|lia|]. rewrite Hg.
    exists s', (Some root'). split_and!; [done|by etransitivity|]. intros ? [= <-] (s2 & Hx2 & Hf).
    assert (merge_into_leaf es cs ≠ []) as Hne.
    { intros He. apply Hout. apply (updated_nonempty C s1 level true (merge_into_leaf es cs)); [done| |done]. exists s2. split; [by etransitivity|done]. }
    by apply (replaced_grown Hjson C s1 s' level root' k _ out s2).
Qed.

Lemma tops_build (Hjson : ∀ n, node_of_text (node_text n) = Some n) m (s : S) k root :
  (if bool_decide (map_entries m = []) then k = 0 ∧ root = node_id 0 [] else tops 0 (map_entries m) k root) → (build m s).2 = Ok root.
Proof.
  destruct (build_spec Hjson s m) as (k' & root' & s' & -> & _ & Ht & _). cbn. case_bool_decide.
  - by intros [_ ->]; destruct Ht as [_ ->].
  - intros Ht'. by destruct (tops_unique _ _ _ _ _ _ Ht Ht') as [_ ->].
Qed.

Lemma with_changes_spec (m : gmap string string) (changes : gmap string (option string)) path :
  with_changes m changes !! path = match changes !! path with Some v => v | None => m !! path end.
Proof.
  apply option_eq. intros v. unfold with_changes. rewrite with_changes_lookup by apply NoDup_map_entries.
  rewrite elem_of_map_entries, map_entries_keys, elem_of_map_keys. destruct (changes !! path) as [[w|]|] eqn:Hc; naive_solver.
Qed.

Lemma with_changes_empty m : with_changes m ∅ = m.
Proof. apply map_eq. intros k. by rewrite with_changes_spec, lookup_empty. Qed.

(** [apply] over a tree, wherever the fuel is enough for its walks; [C] as above. *)
Lemma apply_spec (Hjson : ∀ n, node_of_text (node_text n) = Some n) (C : Prop) fuel s level root m n changes :
  subtree s level root (map_entries m) n → (map_entries m = [] → level = 0) → (C → tree s level root (map_entries m)) → level < fuel → n ≤ fuel →
  ∃ s' root', apply fuel root changes s = (s', Ok root') ∧ extends s s' ∧
    (faithful s' → ∃ k, (∃ n', subtree s' k root' (map_entries (with_changes m changes)) n') ∧ (map_entries (with_changes m changes) = [] → k = 0) ∧
      (C → tree s' k root' (map_entries (with_changes m changes)) ∧
        ((∀ j, j < level → length (refs (Datatypes.S j) (map_entries (with_changes m changes))) ≠ 1) → (build (with_changes m changes) s).2 = Ok root'))).
Proof.
  intros Ht Hempty HC Hl Hn. unfold apply. case_bool_decide as Hch.
  { subst changes. rewrite with_changes_empty. exists s, root. split_and!; [done|done|]. intros Hf. exists level. split_and!; [by exists n|done|].
    intros HC'. split; [by apply HC|]. intros Hmin. destruct (HC HC') as [_ Hr].
    apply (tops_build Hjson m s level). case_bool_decide; [by destruct Hr as (? & ? & _)|]. split_and!; [lia|done|]. intros j _. apply Hmin. }
  destruct (apply_locally_spec Hjson C fuel s level root (map_entries m) n (map_entries changes)) as (s1 & r & Ha & Hx & Hr);
    [done|done|done|done|apply map_entries_ordered|apply map_entries_ordered|]. unfold t_bind at 1. rewrite Ha. rewrite merge_entries in Hr.
  destruct r as [root'|].
  - exists s1, root'. split_and!; [done|done|]. intros Hf. destruct (Hr root' eq_refl) as (k & Hk & Hk0 & Htop); [by exists s1|].
    destruct (Hk s1) as [Hsub Htree]; [done|done|]. exists k. split_and!; [done|done|]. intros HC'. split; [by apply Htree|].
    intros Hmin. apply (tops_build Hjson _ s k). specialize (Htop HC'). case_bool_decide as He; [by split; [apply Hk0|]|].
    destruct Htop as (Hle & Hkey & Hm). split_and!; [lia|done|]. intros j _ Hj. destruct (decide (j < level)); [by apply Hmin|]. apply Hm; lia.
  - unfold t_bind. rewrite (load_spec s1 level root (map_entries m) n fuel); [|by eapply subtree_extends|apply map_entries_ordered|done].
    rewrite map_entries_map. fold (with_changes m changes).
    destruct (build_spec Hjson s1 (with_changes m changes)) as (k & root' & s' & Hb & Hx' & Htop & Htree). rewrite Hb. exists s', root'.
    split_and!; [done|by etransitivity|]. intros Hf. specialize (Htree s' (reflexivity _) Hf). exists k. split_and!; [by apply tree_subtree| |].
    + intros He. destruct Htree as [_ Hr']. rewrite bool_decide_eq_true_2 in Hr' by done. by destruct Hr'.
    + intros _. split; [done|]. intros _. apply (build_root Hjson _ s1). by rewrite Hb.
Qed.
End updates.

(** C26: [apply] over a tree that the store holds, of this version's nodes or of the older
    one's, ends with an answer for every fuel from a bound on; and when every body that was
    put reads back, the store then holds under the answered root a tree of the manifest in
    which each changed path has its new blob or is gone and every other path is as it was. *)
Theorem apply_updates {S E} `{ContentBlobsLaws S E} `{NodeJson} (Hjson : ∀ n, node_of_text (node_text n) = Some n) (s : S) root m changes :
  holds_tree s root m →
  ∃ bound, ∀ fuel, bound ≤ fuel → ∃ s' root', apply fuel root changes s = (s', Ok root') ∧
    (faithful s' → ∃ m', holds_tree s' root' m' ∧
      ∀ path, m' !! path = match changes !! path with Some v => v | None => m !! path end).
Proof.
  intros (level & n & Ht & Hempty). exists (n + Datatypes.S level). intros fuel Hfuel.
  destruct (apply_spec Hjson False fuel s level root m n changes) as (s' & root' & Ha & _ & Hs); [done|done|done|lia|lia|].
  exists s', root'. split; [done|]. intros Hf. destruct (Hs Hf) as (k & [n' Hn'] & Hk & _). exists (with_changes m changes).
  split; [by exists k, n'|]. intros path. apply with_changes_spec.
Qed.

(** over a tree of [build]'s nodes, the update answers the very root that [build] gives
    the updated manifest and leaves [build]'s nodes, wherever it kept a tree that must not
    become lower: no level below the old root's would hold the updated manifest in one
    node. *)
Theorem apply_agrees_with_build {S E} `{ContentBlobsLaws S E} `{NodeJson} (Hjson : ∀ n, node_of_text (node_text n) = Some n)
    (s : S) level root m changes :
  tree s level root (map_entries m) →
  (∀ j, j < level → length (refs (Datatypes.S j) (map_entries (with_changes m changes))) ≠ 1) →
  ∃ bound, ∀ fuel, bound ≤ fuel → ∃ s' root', apply fuel root changes s = (s', Ok root') ∧
    (faithful s' → (build (with_changes m changes) s).2 = Ok root' ∧ ∃ k, tree s' k root' (map_entries (with_changes m changes))).
Proof.
  intros Htree Hmin. destruct (tree_subtree _ _ _ _ Htree) as [n Ht]. exists (n + Datatypes.S level). intros fuel Hfuel.
  destruct (apply_spec Hjson True fuel s level root m n changes) as (s' & root' & Ha & _ & Hs); [done| |done|lia|lia|].
  { intros He. destruct Htree as [_ Hr]. rewrite bool_decide_eq_true_2 in Hr by done. by destruct Hr. }
  exists s', root'. split; [done|]. intros Hf. destruct (Hs Hf) as (k & _ & _ & Hc). destruct (Hc I) as [Hk Hb]. split; [by apply Hb|by exists k].
Qed.

(** ** Updates of the sample *)

Import Samples.

Lemma sample_tree : tree sample_store 1 sample_root (map_entries sample_manifest).
Proof.
  pose proof sample_faithful as Hf. unfold sample_store, sample_root, built, root_in in *.
  destruct (build_spec bits_json_law no_blobs sample_manifest) as (k & root & s' & Hb & _ & Ht & Htree). rewrite Hb in *. cbn [fst snd] in *.
  assert (bool_decide (map_entries sample_manifest = []) = false) as He by (vm_compute; reflexivity). rewrite He in Ht.
  assert (∃ key id, refs 2 (map_entries sample_manifest) = [(key, id)]) as (key & id & Hr) by (vm_compute; eexists _, _; reflexivity).
  assert (tops 0 (map_entries sample_manifest) 1 id) as Ht'.
  { split_and!; [lia|by exists key|]. intros j _ Hj. assert (j = 0) as -> by lia. vm_compute. discriminate. }
  destruct (tops_unique _ _ _ _ _ _ Ht Ht') as [-> _]. by apply Htree.
Qed.

Definition edit : gmap string (option string) := {[ "a2"%string := Some "x2"%string ]}.
Definition removal : gmap string (option string) := {[ "b1"%string := None ]}.

Lemma apply_updates_witness :
  ∃ bound s' root', apply bound sample_root removal edited_store = (s', Ok root') ∧ (faithful s' → ∃ m', holds_tree s' root' m').
Proof.
  destruct (apply_updates bits_json_law edited_store sample_root sample_manifest removal edited_holds_sample) as [bound Ha].
  destruct (Ha bound (Nat.le_refl _)) as (s' & root' & Hr & Hs). exists bound, s', root'. split; [exact Hr|].
  intros Hf. destruct (Hs Hf) as (m' & Hm & _). exists m'. exact Hm.
Defined.

Lemma apply_agrees_with_build_witness :
  ∃ bound s' root', apply bound sample_root edit sample_store = (s', Ok root') ∧
    (faithful s' → (build (with_changes sample_manifest edit) sample_store).2 = Ok root').
Proof.
  destruct (apply_agrees_with_build bits_json_law sample_store 1 sample_root sample_manifest edit sample_tree) as [bound Ha].
  - intros j Hj. assert (j = 0) as -> by lia. vm_compute. discriminate.
  - destruct (Ha bound (Nat.le_refl _)) as (s' & root' & Hr & Hs). exists bound, s', root'. split; [exact Hr|]. intros Hf. apply Hs, Hf.
Defined.

(** the condition is needed, and [apply] is not always the rebuild it says it is: over
    the sample's tree of two leaves, removing the one path of the second leaves one leaf
    under a root of its own, where [build] answers the leaf itself, so the two roots of one
    manifest differ. *)
Theorem apply_not_canonical :
  tree sample_store 1 sample_root (map_entries sample_manifest) ∧
  match (apply 10 sample_root removal sample_store).2, (build (with_changes sample_manifest removal) sample_store).2 with
  | Ok applied, Ok rebuilt => applied ≠ rebuilt
  | _, _ => False
  end.
Proof.
  split; [exact sample_tree|].
  assert (match (apply 10 sample_root removal sample_store).2, (build (with_changes sample_manifest removal) sample_store).2 with
    Ok applied, Ok rebuilt => bool_decide (applied ≠ rebuilt) | _, _ => false end = true) as Hb by (vm_compute; reflexivity).
  destruct (apply 10 sample_root removal sample_store).2, (build (with_changes sample_manifest removal) sample_store).2; try done.
  by apply bool_decide_eq_true in Hb.
Qed.
