(* ===== verification/TextDiff.v ===== *)
(** The alignment half of the token-level text merge (store/text_merge.rs): tokens,
    anchor segments, patience diff and the edit script of a side against its base.

    A text is its UTF-8 bytes.  A token keeps its byte offsets.  A slice of a vector out
    of its range, which panics in the code, answers [None].  The identifiers that a table
    interns are [u32] values, taken from the size of the table with the cast of the
    code.  The maps of positions are visited in the order of the identifiers: the pairs
    that a visit collects are sorted before they are used. *)
From stdpp Require Import sorting.
From S2P Require Import Prelude RustStr MachineInt Chunking.

(** ** Configuration *)

Record TextMergeConfig := mkTextConfig {
  proximity_gap : nat;
  max_bytes : nat;
  segment_min : nat;
  segment_avg_bits : nat;
  segment_max : nat;
}.

Definition default_config : TextMergeConfig := mkTextConfig 2 (8 * 1024 * 1024) 16 6 512.

Definition within_size (config : TextMergeConfig) (base ours theirs : list ascii) : bool :=
  (length base <=? max_bytes config) && (length ours <=? max_bytes config) && (length theirs <=? max_bytes config).

(** ** Tokens *)

Inductive TokenClass := Word | Space | Other.
#[export] Instance token_class_eq_dec : EqDecision TokenClass.
Proof. solve_decision. Defined.

Record Token := mkToken { tok_start : nat; tok_end : nat; tok_class : TokenClass }.

(** A byte that continues a character. *)
Definition continues (b : ascii) : bool := (128 <=? N_of_ascii b)%N && (N_of_ascii b <? 192)%N.

(** [text.chars()]. *)
Fixpoint char_split (bs : list ascii) : list (list ascii) :=
  match bs with
  | [] => []
  | b :: rest =>
      match char_split rest, rest with
      | c :: cs, b' :: _ => if continues b' then (b :: c) :: cs else [b] :: c :: cs
      | cs, _ => [b] :: cs
      end
  end.

Section tokens.
Context `{UnicodeTable}.

Definition class_of (c : list ascii) : TokenClass :=
  if identifier_char (text c) then Word
  else if bool_decide (text c ∈ whitespace) then Space
  else Other.

(** The end of a run of characters of one class, and the characters after it. *)
Fixpoint run_end (class : TokenClass) (stop : nat) (cs : list (list ascii)) : nat * list (list ascii) :=
  match cs with
  | c :: rest => if bool_decide (class_of c = class) then run_end class (stop + length c) rest else (stop, cs)
  | [] => (stop, [])
  end.

Fixpoint tokens_from (fuel : nat) (start : nat) (cs : list (list ascii)) : list Token :=
  match fuel, cs with
  | S fuel', c :: rest =>
      let class := class_of c in
      let '(stop, rest') :=
        if bool_decide (class = Other) then (start + length c, rest) else run_end class (start + length c) rest in
      mkToken start stop class :: tokens_from fuel' stop rest'
  | _, _ => []
  end.

Definition tokenize (body : list ascii) : list Token :=
  tokens_from (length (char_split body)) 0 (char_split body).

Definition token_bytes (body : list ascii) (t : Token) : list ascii := part body (tok_start t) (tok_end t).

Definition token_text (body : list ascii) (tokens : list Token) (range : nat * nat) : option (list ascii) :=
  if range.2 <=? range.1 then Some []
  else
    first ← tokens !! range.1;
    last ← tokens !! (range.2 - 1);
    Some (part body (tok_start first) (tok_end last)).

(** ** Segments *)

Definition fnv1a (bytes : list ascii) : Z :=
  foldl (λ hash b, wrapping_mul_u64 (Z.lxor hash (Z.of_N (N_of_ascii b))) 1099511628211) 14695981039346656037%Z bytes.

(** The loop over the tokens from [index], with a segment open since [start]. *)
Fixpoint segments_from (body : list ascii) (config : TextMergeConfig) (start index : nat) (tokens : list Token)
    : list (nat * nat) :=
  match tokens with
  | [] => if start <? index then [(start, index)] else []
  | t :: rest =>
      let len := index + 1 - start in
      let mask := (2 ^ Z.of_nat (segment_avg_bits config `min` 63) - 1)%Z in
      let hash := fnv1a (token_bytes body t) in
      if (segment_min config <=? len) && (Z.land hash mask =? 0)%Z || (segment_max config <=? len)
      then (start, index + 1) :: segments_from body config (index + 1) (index + 1) rest
      else segments_from body config start (index + 1) rest
  end.

Definition segment_ranges (body : list ascii) (tokens : list Token) (config : TextMergeConfig) : list (nat * nat) :=
  segments_from body config 0 0 tokens.
End tokens.

(** ** Patience diff *)

Record RawOp := mkRaw { a_start : nat; a_end : nat; b_start : nat; b_end : nat }.

(** [table.len() as u32]. *)
Definition as_u32 (n : nat) : Z := (Z.of_nat n mod 4294967296)%Z.

Fixpoint intern (table : gmap (list ascii) Z) (slices : list (list ascii)) : gmap (list ascii) Z * list Z :=
  match slices with
  | [] => (table, [])
  | s :: rest =>
      match table !! s with
      | Some id => let '(table', ids) := intern table rest in (table', id :: ids)
      | None =>
          let id := as_u32 (size table) in
          let '(table', ids) := intern (<[ s := id ]> table) rest in (table', id :: ids)
      end
  end.

(** [pile_tops.partition_point(|&top| values[top] < value)]: the tops that satisfy the
    predicate come first. *)
Fixpoint partition_point (values : list nat) (value : nat) (tops : list nat) : nat :=
  match tops with
  | [] => 0
  | top :: rest => if default 0 (values !! top) <? value then S (partition_point values value rest) else 0
  end.

(** The loop over the values, from [index]: the tops of the piles and the back
    pointers. *)
Fixpoint piles (values : list nat) (index : nat) (rest : list nat) (tops : list nat) (back : list (option nat))
    : list nat * list (option nat) :=
  match rest with
  | [] => (tops, back)
  | value :: rest' =>
      let pile := partition_point values value tops in
      let back := back ++ [if pile =? 0 then None else tops !! (pile - 1)] in
      let tops := if pile =? length tops then tops ++ [index] else <[ pile := index ]> tops in
      piles values (S index) rest' tops back
  end.

(** [while let Some(index) = cursor], in the order that the final [reverse] gives. *)
Fixpoint follow (fuel : nat) (back : list (option nat)) (cursor : option nat) (chain : list nat) : list nat :=
  match fuel, cursor with
  | S fuel', Some index => follow fuel' back (default None (back !! index)) (index :: chain)
  | _, _ => chain
  end.

Definition lis_indexes (values : list nat) : list nat :=
  let '(tops, back) := piles values 0 values [] [] in follow (length values) back (last tops) [].

Fixpoint trim_front (fuel : nat) (a b : list Z) (a0 a1 b0 b1 : nat) : nat * nat :=
  match fuel with
  | 0 => (a0, b0)
  | S fuel' =>
      if (a0 <? a1) && (b0 <? b1) && bool_decide (a !! a0 = b !! b0)
      then trim_front fuel' a b (S a0) a1 (S b0) b1 else (a0, b0)
  end.

Fixpoint trim_back (fuel : nat) (a b : list Z) (a0 a1 b0 b1 : nat) : nat * nat :=
  match fuel with
  | 0 => (a1, b1)
  | S fuel' =>
      if (a0 <? a1) && (b0 <? b1) && bool_decide (a !! (a1 - 1) = b !! (b1 - 1))
      then trim_back fuel' a b a0 (a1 - 1) b0 (b1 - 1) else (a1, b1)
  end.

(** The positions of each identifier in a range. *)
Definition positions (l : list Z) (i j : nat) : gmap Z (list nat) :=
  foldl (λ m k, match l !! k with Some id => <[ id := default [] (m !! id) ++ [k] ]> m | None => m end)
    ∅ (seq i (j - i)).

(** The occurrences of an identifier that has [k] of them on both sides, paired. *)
Definition pair_up (k : nat) (positions_b : gmap Z (list nat)) (e : Z * list nat) : list (nat * nat) :=
  if length e.2 =? k then
    match positions_b !! e.1 with
    | Some qs => if length qs =? k then zip e.2 qs else []
    | None => []
    end
  else [].

Definition pairs_at (positions_a positions_b : gmap Z (list nat)) (k : nat) : list (nat * nat) :=
  mjoin (pair_up k positions_b <$> map_to_list positions_a).

Definition MAX_ANCHOR_MULTIPLICITY : nat := 8.

(** [for multiplicity in ..], up to the first that pairs anything. *)
Fixpoint first_pairs (positions_a positions_b : gmap Z (list nat)) (ks : list nat) : list (nat * nat) :=
  match ks with
  | [] => []
  | k :: rest =>
      match pairs_at positions_a positions_b k with
      | [] => first_pairs positions_a positions_b rest
      | pairs => pairs
      end
  end.

Definition pair_le (p q : nat * nat) : Prop := p.1 < q.1 ∨ (p.1 = q.1 ∧ p.2 ≤ q.2).
#[export] Instance pair_le_dec p q : Decision (pair_le p q).
Proof. unfold pair_le. apply _. Defined.

(** The common anchors of the trimmed ranges. *)
Definition anchor_pairs (a b : list Z) (a0 a1 b0 b1 : nat) : list (nat * nat) :=
  first_pairs (positions a a0 a1) (positions b b0 b1) (seq 1 MAX_ANCHOR_MULTIPLICITY).

(** The chain of anchors that climbs on both sides. *)
Definition chain_of (found : list (nat * nat)) : list (nat * nat) :=
  let pairs := merge_sort pair_le found in omap (λ i, pairs !! i) (lis_indexes pairs.*2).

Definition frame : Type := nat * nat * nat * nat.

(** The gaps around the chain, in the order of the pushes. *)
Fixpoint gaps (prev : nat * nat) (chain : list (nat * nat)) (a1 b1 : nat) : list frame :=
  match chain with
  | [] => [(prev.1, a1, prev.2, b1)]
  | (x, y) :: rest => (prev.1, x, prev.2, y) :: gaps (S x, S y) rest a1 b1
  end.

(** [while let Some(..) = stack.pop()]: the head of the list is the top of the stack. *)
Fixpoint work (fuel : nat) (a b : list Z) (stack : list frame) (ops : list RawOp) : option (list RawOp) :=
  match stack with
  | [] => Some ops
  | (a0, a1, b0, b1) :: rest =>
      match fuel with
      | 0 => None
      | S fuel' =>
          let '(a0, b0) := trim_front (a1 - a0) a b a0 a1 b0 b1 in
          let '(a1, b1) := trim_back (a1 - a0) a b a0 a1 b0 b1 in
          if (a0 =? a1) && (b0 =? b1) then work fuel' a b rest ops
          else if (a0 =? a1) || (b0 =? b1) then work fuel' a b rest (ops ++ [mkRaw a0 a1 b0 b1])
          else match anchor_pairs a b a0 a1 b0 b1 with
          | [] => work fuel' a b rest (ops ++ [mkRaw a0 a1 b0 b1])
          | pairs => work fuel' a b (reverse (gaps (a0, b0) (chain_of pairs) a1 b1) ++ rest) ops
          end
      end
  end.

Definition raw_key_le (o o' : RawOp) : Prop := pair_le (a_start o, a_end o) (a_start o', a_end o').
#[export] Instance raw_key_le_dec o o' : Decision (raw_key_le o o').
Proof. unfold raw_key_le. apply _. Defined.

Definition patience_diff (a b : list Z) : option (list RawOp) :=
  merge_sort raw_key_le <$> work (2 * (length a + length b) + 2) a b [(0, length a, 0, length b)] [].

(** ** Edit scripts *)

Record EditOp := mkEdit { base_start : nat; base_end : nat; repl_start : nat; repl_end : nat }.

Definition token_span (segments : list (nat * nat)) (seg_start seg_end token_len : nat) : nat * nat :=
  let start := from_option fst token_len (segments !! seg_start) in
  let stop := if seg_end =? 0 then start else from_option snd token_len (segments !! (seg_end - 1)) in
  (start, stop `max` start).

Definition edit_key_le (o o' : EditOp) : Prop := pair_le (base_start o, base_end o) (base_start o', base_end o').
#[export] Instance edit_key_le_dec o o' : Decision (edit_key_le o o').
Proof. unfold edit_key_le. apply _. Defined.

Fixpoint coalesce_onto (out : list EditOp) (script : list EditOp) : list EditOp :=
  match script with
  | [] => out
  | op :: rest =>
      match last out with
      | Some l =>
          if (base_end l =? base_start op) && (repl_end l =? repl_start op)
          then coalesce_onto (removelast out ++ [mkEdit (base_start l) (base_end op) (repl_start l) (repl_end op)]) rest
          else coalesce_onto (out ++ [op]) rest
      | None => coalesce_onto (out ++ [op]) rest
      end
  end.

Definition coalesce (script : list EditOp) : list EditOp := coalesce_onto [] script.

Definition shift_op (base_from side_from : nat) (op : RawOp) : EditOp :=
  mkEdit (base_from + a_start op) (base_from + a_end op) (side_from + b_start op) (side_from + b_end op).

(** The token tier inside a changed run of segments. *)
Definition run_script (base side : list ascii) (base_tokens side_tokens : list Token) (base_range side_range : nat * nat)
    : option (list EditOp) :=
  let '(table, base_ids) := intern ∅ (token_bytes base <$> part base_tokens base_range.1 base_range.2) in
  let '(_, side_ids) := intern table (token_bytes side <$> part side_tokens side_range.1 side_range.2) in
  (λ ops : list RawOp, shift_op base_range.1 side_range.1 <$> ops) <$> patience_diff base_ids side_ids.

Definition build_script (base : list ascii) (base_tokens : list Token) (side : list ascii) (side_tokens : list Token)
    (config : TextMergeConfig) : option (list EditOp) :=
  let base_segments := segment_ranges base base_tokens config in
  let side_segments := segment_ranges side side_tokens config in
  base_slices ← mapM (token_text base base_tokens) base_segments;
  side_slices ← mapM (token_text side side_tokens) side_segments;
  let '(table, base_seg_ids) := intern ∅ base_slices in
  let '(_, side_seg_ids) := intern table side_slices in
  seg_ops ← patience_diff base_seg_ids side_seg_ids;
  runs ← mapM (λ op,
    run_script base side base_tokens side_tokens
      (token_span base_segments (a_start op) (a_end op) (length base_tokens))
      (token_span side_segments (b_start op) (b_end op) (length side_tokens))) seg_ops;
  Some (coalesce (merge_sort edit_key_le (mjoin runs))).
(** ** Examples *)

Definition ascii_only : UnicodeTable := λ _, false.
Definition utf8 (s : string) : list ascii := String.list_ascii_of_string s.

Example lis_example : lis_indexes [3; 1; 4; 1; 5; 9; 2; 6] = [1; 2; 4; 7].
Proof. vm_compute. reflexivity. Qed.

Example script_example :
  build_script (utf8 "one two three four") (tokenize (H := ascii_only) (utf8 "one two three four"))
    (utf8 "one 2 three four five") (tokenize (H := ascii_only) (utf8 "one 2 three four five")) default_config
  = Some [mkEdit 2 3 2 3; mkEdit 7 7 7 9].
Proof. vm_compute. reflexivity. Qed.

(** ** Alignments *)

Section aligned.
Context {A : Type} (a b : list A).

(** The replacements lead from [(x, y)] to [(x', y')]: what is between them is the same
    on both sides. *)
Fixpoint aligned (x y : nat) (ops : list RawOp) (x' y' : nat) : Prop :=
  match ops with
  | [] => x ≤ x' ∧ y ≤ y' ∧ part a x x' = part b y y'
  | op :: rest =>
      x ≤ a_start op ∧ a_start op ≤ a_end op ∧ y ≤ b_start op ∧ b_start op ≤ b_end op ∧
      part a x (a_start op) = part b y (b_start op) ∧ aligned (a_end op) (b_end op) rest x' y'
  end.

(** Something is kept between two replacements. *)
Definition separated (ops : list RawOp) : Prop := StronglySorted (λ o o', a_end o < a_start o') ops.

Lemma aligned_le x y ops x' y' : aligned x y ops x' y' → x ≤ x' ∧ y ≤ y'.
Proof.
  revert x y. induction ops as [|op ops IH]; intros x y; cbn [aligned]; [tauto|].
  intros (? & ? & ? & ? & _ & [? ?]%IH). lia.
Qed.

Lemma aligned_in x y ops x' y' op :
  aligned x y ops x' y' → op ∈ ops →
  x ≤ a_start op ∧ a_start op ≤ a_end op ∧ a_end op ≤ x' ∧ y ≤ b_start op ∧ b_start op ≤ b_end op ∧ b_end op ≤ y'.
Proof.
  revert x y. induction ops as [|o ops IH]; intros x y; cbn [aligned]; [by intros _ ?%elem_of_nil|].
  intros (? & ? & ? & ? & _ & Hal) [->|Hin]%elem_of_cons.
  - apply aligned_le in Hal. lia.
  - specialize (IH _ _ Hal Hin). lia.
Qed.

Lemma aligned_keep x y x1 y1 ops x' y' :
  x ≤ x1 → y ≤ y1 → part a x x1 = part b y y1 → aligned x1 y1 ops x' y' → aligned x y ops x' y'.
Proof.
  intros Hx Hy Heq. destruct ops as [|op ops]; cbn [aligned].
  - intros (? & ? & Heq'). split_and!; [lia..|]. rewrite <- (part_app a x x1 x'), <- (part_app b y y1 y') by lia. congruence.
  - intros (? & ? & ? & ? & Heq' & ?). split_and!; try (done || lia).
    rewrite <- (part_app a x x1 (a_start op)), <- (part_app b y y1 (b_start op)) by lia. congruence.
Qed.

Lemma aligned_app x y ops1 x1 y1 ops2 x' y' :
  aligned x y ops1 x1 y1 → aligned x1 y1 ops2 x' y' → aligned x y (ops1 ++ ops2) x' y'.
Proof.
  revert x y. induction ops1 as [|op ops1 IH]; intros x y; cbn [aligned app].
  - intros (? & ? & ?). by apply aligned_keep.
  - intros (? & ? & ? & ? & ? & Hal) Hal2. split_and!; auto.
Qed.

Lemma aligned_match x y c : a !! x = Some c → b !! y = Some c → aligned x y [] (S x) (S y).
Proof.
  intros Ha Hb. cbn [aligned]. split_and!; [lia..|]. by rewrite (part_one a x c Ha), (part_one b y c Hb).
Qed.

Lemma aligned_op x y x' y' : x ≤ x' → y ≤ y' → aligned x y [mkRaw x x' y y'] x' y'.
Proof. intros. cbn [aligned a_start a_end b_start b_end]. rewrite !part_same. split_and!; (done || lia). Qed.

(** Two lists of separated replacements around a shared element. *)
Lemma separated_app ops1 ops2 x x' y y' :
  aligned x y ops1 x' y' → separated ops1 → separated ops2 → (∀ o, o ∈ ops2 → x' < a_start o) → separated (ops1 ++ ops2).
Proof.
  intros Hal H1 H2 Hlt. apply StronglySorted_app. split_and!; [|done..].
  intros o o' Ho Ho'. destruct (aligned_in _ _ _ _ _ _ Hal Ho) as (_ & _ & ? & _). specialize (Hlt o' Ho'). lia.
Qed.
End aligned.

(** ** Tables *)

(** Distinct slices have distinct identifiers, below the size of the table. *)
Definition injective_table (table : gmap (list ascii) Z) : Prop :=
  (∀ s id, table !! s = Some id → (0 ≤ id < Z.of_nat (size table))%Z) ∧
  (∀ s s' id, table !! s = Some id → table !! s' = Some id → s = s').

Lemma intern_spec table slices table' ids :
  injective_table table → (Z.of_nat (size table + length slices) ≤ 4294967296)%Z →
  intern table slices = (table', ids) →
  injective_table table' ∧ table ⊆ table' ∧ size table' ≤ size table + length slices ∧
  Forall2 (λ s id, table' !! s = Some id) slices ids.
Proof.
  revert table table' ids. induction slices as [|s slices IH]; intros table table' ids Hinj Hlen; cbn [intern].
  { intros [= <- <-]. split_and!; [apply Hinj..|done|simpl; lia|constructor]. }
  simpl in Hlen. destruct (table !! s) as [id|] eqn:Hs.
  - destruct (intern table slices) as [t l] eqn:Hi. intros [= <- <-].
    destruct (IH _ _ _ Hinj ltac:(lia) Hi) as (? & Hsub & ? & ?). split_and!; try (done || simpl; lia).
    constructor; [|done]. by eapply lookup_weaken.
  - set (id := as_u32 (size table)). assert (id = Z.of_nat (size table)) as Hid by (apply Z.mod_small; lia).
    destruct (intern (<[s:=id]> table) slices) as [t l] eqn:Hi. intros [= <- <-].
    assert (size (<[s:=id]> table) = S (size table)) as Hsz by (by apply map_size_insert_None).
    assert (injective_table (<[s:=id]> table)) as Hinj'.
    { destruct Hinj as [Hb Hi']. split.
      - intros s' id' [[-> <-]|[_ Hs']]%lookup_insert_Some; [lia|]. specialize (Hb s' id' Hs'). lia.
      - intros s1 s2 id' [[-> <-]|[Hn1 H1]]%lookup_insert_Some [[-> He]|[Hn2 H2]]%lookup_insert_Some; try done.
        + specialize (Hb _ _ H2). lia.
        + specialize (Hb _ _ H1). lia.
        + by apply (Hi' s1 s2 id'). }
    destruct (IH _ _ _ Hinj' ltac:(lia) Hi) as (? & Hsub & ? & ?).
    assert (table ⊆ <[s:=id]> table) by (by apply insert_subseteq).
    split_and!; [done|by etransitivity|simpl; lia|]. constructor; [|done].
    eapply lookup_weaken; [|done]. apply lookup_insert_eq.
Qed.

Lemma injective_empty : injective_table ∅.
Proof. split; intros s; by rewrite lookup_empty. Qed.

(** Parts of interned lists are equal when the slices are. *)
Lemma interned_part table l l' ids ids' i j i' j' :
  injective_table table → Forall2 (λ s id, table !! s = Some id) l ids → Forall2 (λ s id, table !! s = Some id) l' ids' →
  part ids i j = part ids' i' j' → part l i j = part l' i' j'.
Proof.
  intros [_ Hinj] Hl Hl' Heq.
  assert (∀ x x' y, Forall2 (λ s id, table !! s = Some id) x y → Forall2 (λ s id, table !! s = Some id) x' y → x = x') as Hgo.
  { induction x as [|s x IH]; intros x' y H1 H2; inversion H1; subst; inversion H2; subst; [done|]. f_equal; eauto. }
  apply (Hgo _ _ (part ids i j)).
  - unfold part. by apply Forall2_take, Forall2_drop.
  - rewrite Heq. unfold part. by apply Forall2_take, Forall2_drop.
Qed.

(** ** Increasing subsequences *)

Section lis.
Context (values : list nat).
Abbreviation val i := (default 0 (values !! i)).

(** An earlier position with a smaller value. *)
Definition climbs (i j : nat) : Prop := i < j ∧ val i < val j.

Lemma partition_point_spec value tops :
  let p := partition_point values value tops in
  p ≤ length tops ∧ (∀ q t, q < p → tops !! q = Some t → val t < value) ∧
  (∀ t, tops !! p = Some t → value ≤ val t).
Proof.
  induction tops as [|t tops (IH1 & IH2 & IH3)]; cbn [partition_point]; [by split_and!|].
  destruct (Nat.ltb_spec (val t) value) as [Hlt|Hge]; cbv zeta.
  - split_and!; [simpl; lia| |done]. intros [|q] t' Hq Ht; [by simplify_eq/=|]. apply (IH2 q t'); [lia|done].
  - split_and!; [lia|lia|]. by intros t' [= <-].
Qed.

(** The state of the loop after [i] values: the tops are positions before [i] with
    increasing values, so that the tops below a value come first, and each back pointer
    climbs. *)
Record piles_ok (i : nat) (tops : list nat) (back : list (option nat)) : Prop := {
  po_tops : Forall (λ t, t < i) tops;
  po_some : 0 < i → tops ≠ [];
  po_sorted : ∀ p q s t, p < q → tops !! p = Some s → tops !! q = Some t → val s < val t;
  po_len : length back = i;
  po_back : ∀ k j, back !! k = Some (Some j) → climbs j k;
}.

Lemma piles_step i value tops back :
  values !! i = Some value → piles_ok i tops back →
  let pile := partition_point values value tops in
  piles_ok (S i) (if pile =? length tops then tops ++ [i] else <[ pile := i ]> tops)
    (back ++ [if pile =? 0 then None else tops !! (pile - 1)]).
Proof.
  intros Hv [Ht Hs Hsort Hlen Hback]. destruct (partition_point_spec value tops) as (Hle & Hbelow & Habove).
  set (pile := partition_point values value tops) in *. cbv zeta.
  assert (val i = value) as Hval by (by rewrite Hv).
  split.
  - destruct (Nat.eqb_spec pile (length tops)).
    + apply Forall_app. split; [eapply Forall_impl; [exact Ht|simpl; lia]|]. constructor; [lia|constructor].
    + apply Forall_insert; [eapply Forall_impl; [exact Ht|simpl; lia]|lia].
  - intros _. destruct (Nat.eqb_spec pile (length tops)); [by destruct tops|]. intros Hn%(f_equal length).
    rewrite length_insert in Hn. simpl in Hn. lia.
  - intros p q s t Hpq. destruct (Nat.eqb_spec pile (length tops)) as [Heq|Hne].
    + intros Hp Hq. apply lookup_snoc_Some in Hp as [[? Hp]|[-> <-]]; apply lookup_snoc_Some in Hq as [[? Hq]|[-> <-]]; try lia.
      * by apply (Hsort p q).
      * rewrite Hval. apply (Hbelow p s); [lia|done].
    + intros Hp Hq. apply list_lookup_insert_Some in Hp as [(<- & <- & ?)|[? Hp]];
        apply list_lookup_insert_Some in Hq as [(<- & <- & ?)|[? Hq]]; try lia.
      * destruct (lookup_lt_is_Some_2 tops pile) as [u Hu]; [lia|]. specialize (Habove u Hu).
        specialize (Hsort pile q u t Hpq Hu Hq). lia.
      * rewrite Hval. apply (Hbelow p s); [lia|done].
      * by apply (Hsort p q).
  - rewrite length_app. simpl. lia.
  - intros k j Hk. apply lookup_snoc_Some in Hk as [[_ Hk]|[-> Hk]]; [by apply Hback|].
    destruct (Nat.eqb_spec pile 0); [done|]. rewrite Hlen. split.
    + by apply (Forall_lookup_1 _ _ _ _ Ht) in Hk.
    + rewrite Hval. apply (Hbelow (pile - 1)); [lia|done].
Qed.

Lemma piles_spec i rest tops back :
  rest = drop i values → i + length rest = length values → piles_ok i tops back →
  let '(tops', back') := piles values i rest tops back in piles_ok (length values) tops' back'.
Proof.
  revert i tops back. induction rest as [|value rest IH]; intros i tops back Hrest Hlen Hok; cbn [piles].
  { simpl in Hlen. by replace (length values) with i by lia. }
  assert (values !! i = Some value) as Hv.
  { rewrite <- (Nat.add_0_r i), <- lookup_drop, <- Hrest. done. }
  apply IH; [|simpl in Hlen; lia|by apply piles_step].
  rewrite (drop_S values value i Hv) in Hrest. by injection Hrest.
Qed.

Lemma climbs_trans i j k : climbs i j → climbs j k → climbs i k.
Proof. unfold climbs. lia. Qed.

Lemma follow_spec fuel back k chain :
  (∀ k j, back !! k = Some (Some j) → climbs j k) → k < fuel → StronglySorted climbs (k :: chain) →
  StronglySorted climbs (follow fuel back (Some k) chain) ∧ follow fuel back (Some k) chain ≠ [] ∧
  (∀ x, x ∈ follow fuel back (Some k) chain → x ∈ chain ∨ x ≤ k).
Proof.
  intros Hback. revert k chain. induction fuel as [|fuel IH]; intros k chain Hk Hs; [lia|]. cbn [follow].
  destruct (back !! k) as [[j|]|] eqn:Hj; cbn [default].
  - pose proof (Hback k j Hj) as Hc. destruct (IH j (k :: chain)) as (? & ? & Hin); [unfold climbs in Hc; lia| |].
    + constructor; [done|]. constructor; [done|]. apply StronglySorted_inv in Hs as [_ Hs].
      eapply Forall_impl; [exact Hs|]. intros x. by apply climbs_trans.
    + split_and!; [done..|]. intros x [[->|?]%elem_of_cons|?]%Hin; [right; lia|by left|right; unfold climbs in Hc; lia].
  - destruct fuel; cbn [follow]; split_and!; try done; intros x [->|?]%elem_of_cons; auto.
  - destruct fuel; cbn [follow]; split_and!; try done; intros x [->|?]%elem_of_cons; auto.
Qed.

(** The positions that the code selects climb, and there is one when there are values. *)
Lemma lis_spec :
  StronglySorted climbs (lis_indexes values) ∧ (values ≠ [] → lis_indexes values ≠ []) ∧
  (∀ x, x ∈ lis_indexes values → x < length values).
Proof.
  unfold lis_indexes. pose proof (piles_spec 0 values [] [] ltac:(by rewrite drop_0) ltac:(lia)) as Hp.
  destruct (piles values 0 values [] []) as [tops back].
  destruct Hp as [Ht Hsome _ _ Hback]; [split; [done|lia|by intros ? ? ? ? ? ?|done|by intros [|?] ?]|].
  destruct (last tops) as [k|] eqn:Hl.
  - apply last_Some in Hl as (l & ->). apply Forall_app in Ht as [_ [Hk _]%Forall_cons].
    destruct (follow_spec (length values) back k []) as (? & ? & Hin); [done..|by repeat constructor|].
    split_and!; [done..|]. intros x [?%elem_of_nil|?]%Hin; [done|lia].
  - apply last_None in Hl as ->. destruct (decide (0 < length values)) as [Hlt|Hge]; [by destruct (Hsome Hlt)|].
    destruct values; [|simpl in Hge; lia]. split_and!; [constructor|done|by intros x ?%elem_of_nil].
Qed.
End lis.

(** ** Anchors *)

Lemma positions_spec l i j id ps :
  positions l i j !! id = Some ps → NoDup ps ∧ Forall (λ k, i ≤ k < j ∧ l !! k = Some id) ps.
Proof.
  unfold positions. assert (NoDup (seq i (j - i))) as Hnd by apply NoDup_seq.
  assert (∀ k, k ∈ seq i (j - i) → i ≤ k < j) as Hin by (intros k ?%elem_of_seq; lia).
  assert (∀ id ps, foldl (λ m k, match l !! k with Some id => <[ id := default [] (m !! id) ++ [k] ]> m | None => m end)
    (∅ : gmap Z (list nat)) (seq i (j - i)) !! id = Some ps → NoDup ps ∧ Forall (λ k, k ∈ seq i (j - i) ∧ l !! k = Some id) ps) as Hgo.
  { clear Hin id ps. revert Hnd. generalize (seq i (j - i)). intros ks. induction ks as [|k ks IH] using rev_ind; intros Hnd id ps; [done|].
    apply NoDup_app in Hnd as (Hks & Hk & _). specialize (IH Hks). rewrite foldl_app. cbn [foldl].
    assert (∀ id ps, foldl (λ m k, match l !! k with Some id => <[ id := default [] (m !! id) ++ [k] ]> m | None => m end)
      (∅ : gmap Z (list nat)) ks !! id = Some ps → NoDup ps ∧ Forall (λ k', k' ∈ ks ++ [k] ∧ l !! k' = Some id) ps) as IH'.
    { intros id' ps' [? HF]%IH. split; [done|]. eapply Forall_impl; [exact HF|]. set_solver. }
    set (m := foldl _ ∅ ks) in *. destruct (l !! k) as [id0|] eqn:Hlk; [|apply IH'].
    intros [[-> <-]|[_ Hps]]%lookup_insert_Some; [|by apply IH'].
    destruct (m !! id) as [ps0|] eqn:Hps0; simpl.
    - destruct (IH _ _ Hps0) as [Hnd0 HF]. destruct (IH' _ _ Hps0) as [_ HF']. split.
      + apply NoDup_app. split_and!; [done| |apply NoDup_singleton].
        intros x Hx ->%list_elem_of_singleton. rewrite Forall_forall in HF. destruct (HF k Hx) as [Hin _]. apply (Hk k Hin). set_solver.
      + apply Forall_app. split; [done|]. constructor; [set_solver|constructor].
    - split; [apply NoDup_singleton|]. constructor; [set_solver|constructor]. }
  intros [? HF]%Hgo. split; [done|]. eapply Forall_impl; [exact HF|]. intros k [?%Hin ?]. done.
Qed.

Section anchors.
Context (a b : list Z) (a0 a1 b0 b1 : nat).
Abbreviation pa := (positions a a0 a1).
Abbreviation pb := (positions b b0 b1).

(** A pair of positions of the ranges with one identifier. *)
Definition anchor (p : nat * nat) : Prop :=
  a0 ≤ p.1 < a1 ∧ b0 ≤ p.2 < b1 ∧ ∃ id, a !! p.1 = Some id ∧ b !! p.2 = Some id.

Lemma pair_up_spec k e :
  pa !! e.1 = Some e.2 →
  Forall anchor (pair_up k pb e) ∧ NoDup (pair_up k pb e).*1 ∧ Forall (λ p, a !! p.1 = Some e.1) (pair_up k pb e).
Proof.
  intros [Hnd HF]%positions_spec. unfold pair_up. destruct (Nat.eqb_spec (length e.2) k) as [Hk|]; [|split_and!; constructor].
  destruct (pb !! e.1) as [qs|] eqn:Hq; [|split_and!; constructor].
  destruct (Nat.eqb_spec (length qs) k) as [Hk'|]; [|split_and!; constructor]. apply positions_spec in Hq as [_ HF'].
  rewrite Forall_forall in HF, HF'. split_and!.
  - apply Forall_forall. intros [x y] Hin. apply elem_of_zip_l in Hin as Hx. apply elem_of_zip_r in Hin as Hy.
    specialize (HF x Hx). specialize (HF' y Hy). split_and!; try (simpl; lia). exists e.1. simpl. tauto.
  - by rewrite fst_zip by lia.
  - apply Forall_forall. intros [x y] Hin. apply elem_of_zip_l in Hin as Hx. by apply HF.
Qed.

Lemma pairs_at_spec k : Forall anchor (pairs_at pa pb k) ∧ NoDup (pairs_at pa pb k).*1.
Proof.
  unfold pairs_at. assert (Forall (λ e, pa !! e.1 = Some e.2) (map_to_list pa)) as Hl.
  { apply Forall_forall. by intros [id ps] ?%elem_of_map_to_list. }
  pose proof (NoDup_fst_map_to_list pa) as Hids. revert Hl Hids. generalize (map_to_list pa).
  induction l as [|e l IH]; intros Hl Hids; [split; constructor|].
  apply Forall_cons in Hl as [He Hl]. rewrite fmap_cons in Hids. apply NoDup_cons in Hids as [Hid Hids].
  destruct (IH Hl Hids) as [IH1 IH2]. destruct (pair_up_spec k e He) as (H1 & H2 & H3). rewrite fmap_cons. cbn [mjoin list_join].
  split; [by apply Forall_app|]. rewrite fmap_app. apply NoDup_app. split_and!; [done| |done].
  intros x (p & -> & Hp)%list_elem_of_fmap (p' & Heq & Hp')%list_elem_of_fmap.
  apply list_elem_of_join in Hp' as (ps & Hps & (e' & -> & He')%list_elem_of_fmap).
  rewrite Forall_forall in Hl. destruct (pair_up_spec k e' (Hl e' He')) as (_ & _ & H3').
  rewrite Forall_forall in H3, H3'. specialize (H3 p Hp). specialize (H3' p' Hps). rewrite <- Heq, H3 in H3'. injection H3' as Hee.
  apply Hid, list_elem_of_fmap. exists e'. done.
Qed.

Lemma first_pairs_spec ks : Forall anchor (first_pairs pa pb ks) ∧ NoDup (first_pairs pa pb ks).*1.
Proof.
  induction ks as [|k ks IH]; cbn [first_pairs]; [split; constructor|]. pose proof (pairs_at_spec k).
  by destruct (pairs_at pa pb k).
Qed.

#[local] Instance pair_le_total : Total pair_le.
Proof. intros [x y] [x' y']. unfold pair_le. simpl. lia. Qed.
#[local] Instance pair_le_trans : Transitive pair_le.
Proof. intros [x y] [x' y'] [x'' y'']. unfold pair_le. simpl. lia. Qed.

(** The chain climbs on both sides. *)
Definition before (p q : nat * nat) : Prop := p.1 < q.1 ∧ p.2 < q.2.

Lemma anchors_spec :
  StronglySorted before (chain_of (anchor_pairs a b a0 a1 b0 b1)) ∧ Forall anchor (chain_of (anchor_pairs a b a0 a1 b0 b1)) ∧
  (anchor_pairs a b a0 a1 b0 b1 ≠ [] → chain_of (anchor_pairs a b a0 a1 b0 b1) ≠ []).
Proof.
  unfold chain_of, anchor_pairs. destruct (first_pairs_spec (seq 1 MAX_ANCHOR_MULTIPLICITY)) as [HF Hnd].
  set (found := first_pairs pa pb _) in *. set (pairs := merge_sort pair_le found).
  assert (pairs ≡ₚ found) as Hperm by apply merge_sort_Permutation.
  assert (StronglySorted pair_le pairs) as Hsort by apply (StronglySorted_merge_sort pair_le).
  assert (NoDup pairs.*1) as Hnd' by (by rewrite Hperm). assert (Forall anchor pairs) as HF' by (by rewrite Hperm).
  destruct (lis_spec pairs.*2) as (Hlis & Hsome & Hlt). split_and!.
  - assert (∀ i j p q, i < j → pairs !! i = Some p → pairs !! j = Some q → p.1 < q.1) as Hfst.
    { intros i j p q Hij Hp Hq. destruct (sorted_lookup _ _ i j p q Hsort Hij Hp Hq) as [?|[Heq _]]; [done|].
      exfalso. assert (i = j); [|lia]. eapply NoDup_lookup; [exact Hnd'|rewrite list_lookup_fmap, Hp; done|].
      rewrite list_lookup_fmap, Hq. simpl. congruence. }
    revert Hlis Hlt. generalize (lis_indexes pairs.*2). induction l as [|i l IH]; intros Hs Hlt; [constructor|].
    apply StronglySorted_inv in Hs as [Hs Hi]. cbn [omap list_omap].
    destruct (lookup_lt_is_Some_2 pairs i) as [p Hp]; [rewrite <- (length_fmap snd); apply Hlt; set_solver|]. rewrite Hp.
    constructor; [apply IH; [done|]; intros; apply Hlt; set_solver|]. apply Forall_forall.
    intros q (j & Hj & Hq)%list_elem_of_omap. rewrite Forall_forall in Hi. destruct (Hi j Hj) as [Hij Hval].
    split; [by apply (Hfst i j)|]. rewrite !list_lookup_fmap, Hp, Hq in Hval. exact Hval.
  - apply Forall_forall. intros p (i & _ & Hp)%list_elem_of_omap. by eapply Forall_lookup_1.
  - intros Hne. destruct (lis_indexes pairs.*2) as [|i l].
    + destruct Hsome; [|done]. intros Hnil%fmap_nil_inv. rewrite Hnil in Hperm. apply Hne. symmetry. by apply Permutation_nil_l.
    + cbn [omap list_omap]. destruct (lookup_lt_is_Some_2 pairs i) as [p ->]; [|done].
      rewrite <- (length_fmap snd). apply Hlt. by apply elem_of_cons; left.
Qed.
End anchors.

(** ** Patience diff *)

Section patience.
Context (a b : list Z).

Definition frame_ok (f : frame) : Prop :=
  let '(a0, a1, b0, b1) := f in a0 ≤ a1 ∧ a1 ≤ length a ∧ b0 ≤ b1 ∧ b1 ≤ length b.

Definition solves (f : frame) (ops : list RawOp) : Prop :=
  let '(a0, a1, b0, b1) := f in aligned a b a0 b0 ops a1 b1 ∧ separated ops.

Definition weight (f : frame) : nat := let '(a0, a1, b0, b1) := f in 2 * ((a1 - a0) + (b1 - b0)) + 1.

Lemma trim_front_spec fuel a0 a1 b0 b1 :
  a0 ≤ a1 → a1 ≤ length a → b0 ≤ b1 → b1 ≤ length b →
  let '(x, y) := trim_front fuel a b a0 a1 b0 b1 in
  a0 ≤ x ∧ x ≤ a1 ∧ b0 ≤ y ∧ y ≤ b1 ∧ part a a0 x = part b b0 y.
Proof.
  revert a0 b0. induction fuel as [|fuel IH]; intros a0 b0 Ha Hla Hb Hlb; cbn [trim_front].
  { rewrite !part_same. split_and!; (done || lia). }
  destruct (_ && _) eqn:Hc; [|rewrite !part_same; split_and!; (done || lia)].
  apply andb_true_iff in Hc as [[Hx%Nat.ltb_lt Hy%Nat.ltb_lt]%andb_true_iff Heq%bool_decide_eq_true].
  destruct (lookup_lt_is_Some_2 a a0) as [c Hc]; [lia|]. rewrite Hc in Heq. symmetry in Heq.
  specialize (IH (S a0) (S b0) ltac:(lia) Hla ltac:(lia) Hlb). destruct (trim_front fuel a b (S a0) a1 (S b0) b1) as [x y].
  destruct IH as (? & ? & ? & ? & IH). split_and!; try lia.
  rewrite <- (part_app a a0 (S a0) x), <- (part_app b b0 (S b0) y), (part_one a a0 c), (part_one b b0 c) by (done || lia). by rewrite IH.
Qed.

Lemma trim_back_spec fuel a0 a1 b0 b1 :
  a0 ≤ a1 → a1 ≤ length a → b0 ≤ b1 → b1 ≤ length b →
  let '(x, y) := trim_back fuel a b a0 a1 b0 b1 in
  a0 ≤ x ∧ x ≤ a1 ∧ b0 ≤ y ∧ y ≤ b1 ∧ part a x a1 = part b y b1.
Proof.
  revert a1 b1. induction fuel as [|fuel IH]; intros a1 b1 Ha Hla Hb Hlb; cbn [trim_back].
  { rewrite !part_same. split_and!; (done || lia). }
  destruct (_ && _) eqn:Hc; [|rewrite !part_same; split_and!; (done || lia)].
  apply andb_true_iff in Hc as [[Hx%Nat.ltb_lt Hy%Nat.ltb_lt]%andb_true_iff Heq%bool_decide_eq_true].
  destruct (lookup_lt_is_Some_2 a (a1 - 1)) as [c Hc]; [lia|]. rewrite Hc in Heq. symmetry in Heq.
  specialize (IH (a1 - 1) (b1 - 1) ltac:(lia) ltac:(lia) ltac:(lia) ltac:(lia)).
  destruct (trim_back fuel a b a0 (a1 - 1) b0 (b1 - 1)) as [x y]. destruct IH as (? & ? & ? & ? & IH). split_and!; try lia.
  rewrite <- (part_app a x (a1 - 1) a1), <- (part_app b y (b1 - 1) b1) by lia. rewrite IH. f_equal.
  apply part_one in Hc, Heq. replace (S (a1 - 1)) with a1 in Hc by lia. replace (S (b1 - 1)) with b1 in Heq by lia. congruence.
Qed.

(** The frames around a chain: they are in range, lighter than the whole, and their
    solutions in order solve the whole. *)
Lemma gaps_spec px py chain a1 b1 :
  px ≤ a1 → a1 ≤ length a → py ≤ b1 → b1 ≤ length b →
  StronglySorted before chain → Forall (anchor a b px a1 py b1) chain →
  Forall frame_ok (gaps (px, py) chain a1 b1) ∧
  sum_list_with weight (gaps (px, py) chain a1 b1) + 3 * length chain = 2 * ((a1 - px) + (b1 - py)) + 1 ∧
  ∀ sols, Forall2 solves (gaps (px, py) chain a1 b1) sols → aligned a b px py (mjoin sols) a1 b1 ∧ separated (mjoin sols).
Proof.
  intros Ha Hla Hb Hlb Hs. revert px py Ha Hb. induction Hs as [|[x y] chain Hs IH Hbefore]; intros px py Ha Hb HF; cbn [gaps fst snd].
  - split_and!; [by repeat constructor| |].
    + simpl. lia.
    + intros sols Hsol. inversion Hsol as [|? ops ? l Hop Hl]; subst. inversion Hl; subst. cbn [mjoin list_join]. by rewrite app_nil_r.
  - apply Forall_cons in HF as [(Hx & Hy & id & Hax & Hby) HF]. cbn [fst snd] in *.
    destruct (IH (S x) (S y)) as (IH1 & IH2 & IH3); [lia|lia| |].
    { apply Forall_forall. intros p Hp. rewrite Forall_forall in HF, Hbefore. destruct (HF p Hp) as (? & ? & ?), (Hbefore p Hp). simpl in *.
      split_and!; (done || lia). }
    split_and!.
    + constructor; [simpl; lia|done].
    + cbn [sum_list_with length weight] in *. lia.
    + intros sols Hsol. inversion Hsol as [|? ops ? l Hop Hl]; subst. destruct Hop as [Hal Hsep]. cbn [mjoin list_join].
      destruct (IH3 l Hl) as [Hal' Hsep']. split.
      * eapply aligned_app; [exact Hal|]. eapply aligned_keep; [| | |exact Hal']; [lia..|].
        by rewrite (part_one a x id), (part_one b y id).
      * eapply separated_app; [exact Hal|done|done|]. intros o Ho. destruct (aligned_in _ _ _ _ _ _ _ o Hal' Ho). lia.
Qed.

Lemma work_spec fuel stack ops :
  Forall frame_ok stack → sum_list_with weight stack ≤ fuel →
  ∃ sols result, work fuel a b stack ops = Some result ∧ Forall2 solves stack sols ∧ result ≡ₚ ops ++ mjoin sols.
Proof.
  revert stack ops. induction fuel as [|fuel IH]; intros stack ops Hok Hf.
  { destruct stack as [|[[[a0 a1] b0] b1] stack]; [|simpl in Hf; lia].
    exists [], ops. split_and!; [done|constructor|]. cbn. by rewrite app_nil_r. }
  destruct stack as [|[[[a0 a1] b0] b1] stack].
  { exists [], ops. split_and!; [done|constructor|]. cbn. by rewrite app_nil_r. }
  apply Forall_cons in Hok as [(Ha & Hla & Hb & Hlb) Hok]. cbn [work].
  pose proof (trim_front_spec (a1 - a0) a0 a1 b0 b1 Ha Hla Hb Hlb) as Ht. destruct (trim_front (a1 - a0) a b a0 a1 b0 b1) as [x y].
  destruct Ht as (Hx0 & Hx1 & Hy0 & Hy1 & Hpre).
  pose proof (trim_back_spec (a1 - x) x a1 y b1 Hx1 Hla Hy1 Hlb) as Ht. destruct (trim_back (a1 - x) a b x a1 y b1) as [x' y'].
  destruct Ht as (Hxx & Hx' & Hyy & Hy' & Hpost).
  assert (∀ o, aligned a b x y o x' y' → aligned a b a0 b0 o a1 b1) as Htrim.
  { intros o Ho. eapply aligned_keep; [exact Hx0|exact Hy0|done|]. rewrite <- (app_nil_r o). eapply aligned_app; [exact Ho|]. cbn. done. }
  assert (sum_list_with weight stack ≤ fuel) as Hf' by (simpl in Hf; lia).
  assert (∀ more o, aligned a b x y o x' y' → separated o → more = o →
    ∃ sols result, work fuel a b stack (ops ++ more) = Some result ∧
      Forall2 solves ((a0, a1, b0, b1) :: stack) sols ∧ result ≡ₚ ops ++ mjoin sols) as Hdone.
  { intros more o Hal Hsep ->. destruct (IH stack (ops ++ o) Hok Hf') as (sols & result & Hr & Hsol & Hperm).
    exists (o :: sols), result. split_and!; [done|constructor; [split; auto|done]|]. by rewrite Hperm, <- app_assoc. }
  destruct (Nat.eqb_spec x x') as [->|Hnx]; [destruct (Nat.eqb_spec y y') as [->|Hny]|]; cbn [andb orb].
  - destruct (Hdone [] []) as (sols & result & Hr & ?); [cbn [aligned]; rewrite !part_same; split_and!; (done || lia)|constructor|done|].
    rewrite app_nil_r in Hr. eauto.
  - apply (Hdone _ _ (aligned_op a b x' y x' y' ltac:(lia) Hyy)); [repeat constructor|done].
  - destruct (Nat.eqb_spec y y') as [->|Hny]; cbn [andb orb].
    { apply (Hdone _ _ (aligned_op a b x y' x' y' Hxx ltac:(lia))); [repeat constructor|done]. }
    destruct (anchors_spec a b x x' y y') as (Hsorted & Hanch & Hsome).
    destruct (anchor_pairs a b x x' y y') as [|p found].
    { apply (Hdone _ _ (aligned_op a b x y x' y' Hxx Hyy)); [repeat constructor|done]. }
    specialize (Hsome ltac:(done)). set (chain := chain_of (p :: found)) in *.
    assert (0 < length chain) as Hlong by (destruct chain; [done|simpl; lia]).
    destruct (gaps_spec x y chain x' y') as (Hgok & Hgw & Hgs); [lia..|done|done|].
    set (g := gaps (x, y) chain x' y') in *.
    assert (sum_list_with weight (reverse g) = sum_list_with weight g) as Hrev by apply sum_list_with_reverse.
    destruct (IH (reverse g ++ stack) ops) as (sols & result & Hr & Hsol & Hperm).
    + apply Forall_app. split; [by apply Forall_reverse|done].
    + rewrite sum_list_with_app, Hrev. simpl in Hf, Hgw. lia.
    + apply Forall2_app_inv_l in Hsol as (sg & ss & Hsg & Hss & ->). apply Forall2_reverse in Hsg. rewrite reverse_involutive in Hsg.
      destruct (Hgs _ Hsg) as [Hal Hsep]. exists (mjoin (reverse sg) :: ss), result.
      split_and!; [done|constructor; [split; auto|done]|]. rewrite Hperm. cbn [mjoin list_join]. rewrite join_app.
      apply Permutation_app_head, Permutation_app_tail, join_Permutation. symmetry. apply reverse_Permutation.
Qed.

#[export] Instance raw_key_le_total : Total raw_key_le.
Proof. intros o o'. unfold raw_key_le, pair_le. simpl. lia. Qed.
#[export] Instance raw_key_le_trans : Transitive raw_key_le.
Proof. intros o o' o''. unfold raw_key_le, pair_le. simpl. lia. Qed.

(** The diff always returns, and what it returns leads from one list to the other with
    something kept between two replacements. *)
Lemma patience_diff_spec :
  ∃ ops, patience_diff a b = Some ops ∧ aligned a b 0 0 ops (length a) (length b) ∧ separated ops.
Proof.
  destruct (work_spec (2 * (length a + length b) + 2) [(0, length a, 0, length b)] []) as (sols & result & Hr & Hsol & Hperm).
  { constructor; [simpl; lia|constructor]. }
  { simpl. lia. }
  inversion Hsol as [|? ops ? l Hop Hl]; subst. inversion Hl; subst. destruct Hop as [Hal Hsep].
  simpl in Hperm. rewrite app_nil_r in Hperm. exists ops. split_and!; [|done..].
  unfold patience_diff. rewrite Hr. cbn. f_equal. apply (sort_permuted _ (λ o o', a_end o < a_start o')); [|done..].
  intros o o' Ho Ho'. destruct (aligned_in _ _ _ _ _ _ _ o Hal Ho), (aligned_in _ _ _ _ _ _ _ o' Hal Ho').
  unfold raw_key_le, pair_le. simpl. lia.
Qed.
End patience.

(** ** Groupings *)

Section chop.
Context {A : Type} (glue : A → A → bool).

(** The list cut between the neighbours that are not glued. *)
Fixpoint chop (l : list A) : list (list A) :=
  match l with
  | [] => []
  | x :: rest =>
      match chop rest, rest with
      | g :: gs, y :: _ => if glue x y then (x :: g) :: gs else [x] :: g :: gs
      | gs, _ => [x] :: gs
      end
  end.

Fixpoint within (g : list A) : Prop :=
  match g with
  | x :: (y :: _) as rest => glue x y = true ∧ within rest
  | _ => True
  end.

Definition parted (g : list A) (gs : list (list A)) : Prop :=
  match gs with g' :: _ => ∀ x y, last g = Some x → head g' = Some y → glue x y = false | [] => True end.

Fixpoint grouped (gs : list (list A)) : Prop :=
  match gs with [] => True | g :: rest => g ≠ [] ∧ within g ∧ parted g rest ∧ grouped rest end.

Lemma chop_groups l : grouped (chop l) ∧ mjoin (chop l) = l ∧ (∀ x r, l = x :: r → ∃ g gs, chop l = (x :: g) :: gs).
Proof.
  induction l as [|x l (IH1 & IH2 & IH3)]; cbn [chop]; [split_and!; done|].
  destruct l as [|y l]; [split_and!; try done; intros; simplify_eq; eauto|].
  destruct (IH3 y l eq_refl) as (g & gs & Hg). rewrite Hg in IH1, IH2 |- *. destruct IH1 as (? & Hw & Hp & Hgs).
  destruct (glue x y) eqn:Hxy.
  - split_and!; [|cbn in *; by f_equal|intros; simplify_eq; eauto].
    cbn [grouped within]. by split_and!.
  - split_and!; [|cbn in *; by f_equal|intros; simplify_eq; eauto].
    cbn [grouped within parted]. split_and!; try done. intros ? ? [= <-] [= <-]. done.
Qed.

Lemma chop_mjoin gs : grouped gs → chop (mjoin gs) = gs.
Proof.
  induction gs as [|g gs IH]; cbn [grouped]; [done|]. intros (Hne & Hw & Hp & Hgs). specialize (IH Hgs).
  change (mjoin (g :: gs)) with (g ++ mjoin gs). destruct g as [|x g]; [done|]. clear Hne. revert x Hw Hp.
  induction g as [|y g IHg]; intros x Hw Hp.
  - cbn [app chop]. rewrite IH. destruct gs as [|g' gs]; [done|]. destruct Hgs as (Hne & _).
    destruct g' as [|y g']; [done|]. cbn [mjoin list_join app]. by rewrite (Hp x y eq_refl eq_refl).
  - destruct Hw as [Hxy Hw]. rewrite <- app_comm_cons. cbn [chop].
    rewrite (IHg y Hw); [cbn [app]; by rewrite Hxy|]. destruct gs; [done|]. cbn [parted] in *. by rewrite last_cons_cons in Hp.
Qed.

Lemma groups_app gs gs' : grouped (gs ++ gs') → grouped gs ∧ grouped gs'.
Proof.
  induction gs as [|g gs IH]; cbn [grouped app]; [done|]. intros (? & ? & Hp & [? ?]%IH). split_and!; try done.
  destruct gs; [done|exact Hp].
Qed.

Lemma groups_part gs i j : grouped gs → grouped (part gs i j).
Proof.
  intros Hg. unfold part. rewrite <- (take_drop i gs) in Hg. apply groups_app in Hg as [_ Hg].
  rewrite <- (take_drop (j - i) (drop i gs)) in Hg. by apply groups_app in Hg as [? _].
Qed.

(** A grouping is known from the list it grouped. *)
Lemma groups_unique gs gs' : grouped gs → grouped gs' → mjoin gs = mjoin gs' → gs = gs'.
Proof. intros H1 H2 Heq. by rewrite <- (chop_mjoin gs H1), <- (chop_mjoin gs' H2), Heq. Qed.
End chop.

Lemma mjoin_mjoin {A} (l : list (list (list A))) : mjoin (mjoin <$> l) = mjoin (mjoin l).
Proof.
  induction l as [|x l IH]; [done|]. change (mjoin (mjoin <$> x :: l)) with (mjoin x ++ mjoin (mjoin <$> l)).
  change (mjoin (x :: l)) with (x ++ mjoin l). by rewrite join_app, IH.
Qed.

(** The elements of a part of a grouping are a part of the list. *)
Lemma mjoin_part {A} (ws : list (list A)) i j :
  i ≤ j → mjoin (part ws i j) = part (mjoin ws) (length (mjoin (take i ws))) (length (mjoin (take j ws))).
Proof.
  intros Hij. assert (take j ws = take i ws ++ part ws i j) as Ht.
  { unfold part. rewrite <- (take_drop i ws) at 1. rewrite take_app, take_take, Nat.min_r by lia. f_equal.
    destruct (decide (i ≤ length ws)); [rewrite length_take, Nat.min_l by lia; done|].
    rewrite drop_ge by lia. by rewrite !take_nil. }
  assert (mjoin ws = mjoin (take i ws) ++ mjoin (part ws i j) ++ mjoin (drop j ws)) as Hj.
  { by rewrite app_assoc, <- !join_app, <- Ht, take_drop. }
  rewrite Ht, join_app, length_app, Hj. unfold part at 2. rewrite drop_app_length, take_app_length'; [done|lia].
Qed.

(** ** Tokens tile their text *)

Section words.
Context `{UnicodeTable}.

Definition glued_bytes (_ b : ascii) : bool := continues b.
Definition glued_chars (c c' : list ascii) : bool :=
  bool_decide (class_of c' = class_of c) && negb (bool_decide (class_of c = Other)).

(** The tokens of a text, as characters and as bytes. *)
Definition char_words (body : list ascii) : list (list (list ascii)) := chop glued_chars (char_split body).
Definition words (body : list ascii) : list (list ascii) := (λ w : list (list ascii), mjoin w) <$> char_words body.

Lemma char_split_chop bs : char_split bs = chop glued_bytes bs.
Proof. induction bs as [|b bs IH]; [done|]. cbn [char_split chop]. by rewrite IH. Qed.

Fixpoint layout (start : nat) (ws : list (list (list ascii))) : list Token :=
  match ws with
  | [] => []
  | w :: rest =>
      let stop := start + length (mjoin w) in
      mkToken start stop (from_option class_of Other (head w)) :: layout stop rest
  end.

Lemma run_end_chop c rest stop :
  class_of c ≠ Other →
  ∃ g rest', run_end (class_of c) stop rest = (stop + length (mjoin g), rest') ∧
    chop glued_chars (c :: rest) = (c :: g) :: chop glued_chars rest' ∧ length rest' ≤ length rest.
Proof.
  intros Hc. revert c stop Hc. induction rest as [|c' rest IH]; intros c stop Hc.
  { exists [], []. cbn. split_and!; [f_equal; lia|done|lia]. }
  cbn [run_end]. destruct (bool_decide_reflect (class_of c' = class_of c)) as [Heq|Hne].
  - destruct (IH c' (stop + length c') ltac:(congruence)) as (g & rest' & Hr & Hch & Hl). exists (c' :: g), rest'. rewrite Heq in Hr.
    split_and!; [| |simpl; lia].
    + rewrite Hr. f_equal. change (mjoin (c' :: g)) with (c' ++ mjoin g). rewrite length_app. lia.
    + change (chop glued_chars (c :: c' :: rest)) with
        (match chop glued_chars (c' :: rest) with g :: gs => if glued_chars c c' then (c :: g) :: gs else [c] :: g :: gs | [] => [[c]] end).
      rewrite Hch. unfold glued_chars. by rewrite bool_decide_eq_true_2, bool_decide_eq_false_2.
  - exists [], (c' :: rest). split_and!; [cbn; f_equal; lia| |done].
    destruct (chop_groups glued_chars (c' :: rest)) as (_ & _ & Hhead). destruct (Hhead c' rest eq_refl) as (g & gs & Hch).
    change (chop glued_chars (c :: c' :: rest)) with
      (match chop glued_chars (c' :: rest) with g :: gs => if glued_chars c c' then (c :: g) :: gs else [c] :: g :: gs | [] => [[c]] end).
    rewrite Hch. unfold glued_chars. by rewrite bool_decide_eq_false_2.
Qed.

Lemma other_chop c rest : class_of c = Other → chop glued_chars (c :: rest) = [c] :: chop glued_chars rest.
Proof.
  intros Hc. destruct rest as [|c' rest]; [done|].
  destruct (chop_groups glued_chars (c' :: rest)) as (_ & _ & Hhead). destruct (Hhead c' rest eq_refl) as (g & gs & Hch).
  change (chop glued_chars (c :: c' :: rest)) with
    (match chop glued_chars (c' :: rest) with g :: gs => if glued_chars c c' then (c :: g) :: gs else [c] :: g :: gs | [] => [[c]] end).
  rewrite Hch. unfold glued_chars. rewrite (bool_decide_eq_true_2 (class_of c = Other)) by done. by rewrite andb_false_r.
Qed.

Lemma tokens_from_layout fuel start cs :
  length cs ≤ fuel → tokens_from fuel start cs = layout start (chop glued_chars cs).
Proof.
  revert start cs. induction fuel as [|fuel IH]; intros start [|c rest] Hl; simpl in Hl; try lia; [done..|].
  cbn [tokens_from]. destruct (bool_decide_reflect (class_of c = Other)) as [Ho|Hn].
  - rewrite (other_chop c rest Ho). cbn [layout head from_option]. cbn. rewrite app_nil_r. by rewrite IH by lia.
  - destruct (run_end_chop c rest (start + length c) Hn) as (g & rest' & Hr & Hch & Hle). rewrite Hr, Hch. cbn [layout head from_option].
    change (mjoin (c :: g)) with (c ++ mjoin g). rewrite length_app, Nat.add_assoc. by rewrite IH by lia.
Qed.

Lemma tokenize_layout body : tokenize body = layout 0 (char_words body).
Proof. by apply tokens_from_layout. Qed.

Lemma layout_lookup start ws i :
  layout start ws !! i =
    (λ w, mkToken (start + length (mjoin (mjoin (take i ws)))) (start + length (mjoin (mjoin (take (S i) ws))))
      (from_option class_of Other (head w))) <$> ws !! i.
Proof.
  revert start i. induction ws as [|w ws IH]; intros start i; [done|]. destruct i as [|i]; cbn [layout lookup list_lookup].
  - cbn. by rewrite app_nil_r, Nat.add_0_r.
  - rewrite IH. destruct (ws !! i); [|done]. cbn [fmap option_fmap option_map take].
    cbn [mjoin list_join]. by rewrite !join_app, !length_app, !Nat.add_assoc.
Qed.

Lemma length_tokenize body : length (tokenize body) = length (words body).
Proof.
  rewrite tokenize_layout. unfold words. rewrite length_fmap. generalize 0. induction (char_words body) as [|w ws IH]; intros n; [done|].
  cbn [layout length]. by rewrite IH.
Qed.

Lemma words_mjoin body : mjoin (words body) = body.
Proof.
  unfold words. rewrite mjoin_mjoin. unfold char_words. destruct (chop_groups glued_chars (char_split body)) as (_ & -> & _).
  rewrite char_split_chop. apply chop_groups.
Qed.

(** Where a token stands. *)
Definition offset (body : list ascii) (i : nat) : nat := length (mjoin (take i (words body))).

Lemma token_lookup body i w :
  words body !! i = Some w → ∃ t, tokenize body !! i = Some t ∧ tok_start t = offset body i ∧ tok_end t = offset body (S i).
Proof.
  intros Hw. unfold words in Hw. apply list_lookup_fmap_Some in Hw as (cw & -> & Hcw).
  rewrite tokenize_layout, layout_lookup, Hcw. eexists. split; [done|]. cbn [tok_start tok_end]. unfold offset, words.
  by rewrite <- !fmap_take, !mjoin_mjoin, !Nat.add_0_l.
Qed.

Lemma token_lookup_inv body i t :
  tokenize body !! i = Some t → tok_start t = offset body i ∧ tok_end t = offset body (S i) ∧ i < length (words body).
Proof.
  intros Ht. assert (i < length (words body)) as Hi by (rewrite <- length_tokenize; by eapply lookup_lt_Some).
  destruct (lookup_lt_is_Some_2 _ _ Hi) as [w Hw]. destruct (token_lookup _ _ _ Hw) as (t' & Ht' & ? & ?). by simplify_eq.
Qed.

Lemma offset_part body i j : i ≤ j → part body (offset body i) (offset body j) = mjoin (part (words body) i j).
Proof. intros Hij. rewrite (mjoin_part (words body) i j Hij), words_mjoin. done. Qed.

Lemma token_bytes_word body i t : tokenize body !! i = Some t → words body !! i = Some (token_bytes body t).
Proof.
  intros (Hs & He & Hi)%token_lookup_inv. destruct (lookup_lt_is_Some_2 _ _ Hi) as [w Hw]. rewrite Hw. f_equal.
  unfold token_bytes. rewrite Hs, He, offset_part by lia. rewrite (part_one _ _ _ Hw). cbn. by rewrite app_nil_r.
Qed.

Lemma words_tokens body : token_bytes body <$> tokenize body = words body.
Proof.
  apply list_eq. intros i. rewrite list_lookup_fmap. destruct (tokenize body !! i) as [t|] eqn:Ht.
  - by rewrite (token_bytes_word _ _ _ Ht).
  - symmetry. apply lookup_ge_None. rewrite <- length_tokenize. by apply lookup_ge_None.
Qed.

(** The text of a range of tokens is its tokens, one after the other. *)
Lemma token_text_words body i j :
  j ≤ length (words body) → token_text body (tokenize body) (i, j) = Some (mjoin (part (words body) i j)).
Proof.
  intros Hj. unfold token_text. cbn [fst snd]. destruct (Nat.leb_spec j i) as [Hji|Hij].
  { unfold part. replace (j - i) with 0 by lia. done. }
  destruct (lookup_lt_is_Some_2 (words body) i) as [w Hw]; [lia|]. destruct (token_lookup _ _ _ Hw) as (t & Ht & Hs & _).
  destruct (lookup_lt_is_Some_2 (words body) (j - 1)) as [w' Hw']; [lia|]. destruct (token_lookup _ _ _ Hw') as (t' & Ht' & _ & He).
  rewrite Ht, Ht'. cbn. f_equal. rewrite Hs, He. replace (S (j - 1)) with j by lia. apply offset_part. lia.
Qed.

(** Equal texts of ranges have equal tokens: no token depends on what is around its
    range. *)
Lemma words_local body body' i j i' j' :
  mjoin (part (words body) i j) = mjoin (part (words body') i' j') → part (words body) i j = part (words body') i' j'.
Proof.
  assert (∀ body i j, grouped glued_chars (part (char_words body) i j) ∧ grouped glued_bytes (mjoin (part (char_words body) i j))) as Hg.
  { clear. intros body i j. split; [by apply groups_part, chop_groups|].
    destruct (decide (i ≤ j)) as [Hij|Hij]; [|unfold part; by replace (j - i) with 0 by lia].
    rewrite (mjoin_part _ i j Hij). apply groups_part. unfold char_words.
    destruct (chop_groups glued_chars (char_split body)) as (_ & -> & _). rewrite char_split_chop. apply chop_groups. }
  unfold words. rewrite <- !fmap_part, !mjoin_mjoin. intros Heq. f_equal.
  destruct (Hg body i j) as [H1 H2], (Hg body' i' j') as [H1' H2'].
  apply (groups_unique glued_chars); [done..|]. by apply (groups_unique glued_bytes).
Qed.
End words.

(** ** Segments tile the tokens *)

Fixpoint tiles (x : nat) (segs : list (nat * nat)) (n : nat) : Prop :=
  match segs with
  | [] => x = n
  | (s, e) :: rest => s = x ∧ s < e ∧ tiles e rest n
  end.

Lemma segments_from_tiles `{UnicodeTable} body config start index tokens :
  start ≤ index → tiles start (segments_from body config start index tokens) (index + length tokens).
Proof.
  revert start index. induction tokens as [|t tokens IH]; intros start index Hle; cbn [segments_from length].
  - destruct (Nat.ltb_spec start index); cbn [tiles]; lia.
  - destruct (_ || _); cbn [tiles].
    + split_and!; [done|lia|]. replace (index + S (length tokens)) with (index + 1 + length tokens) by lia. by apply IH.
    + replace (index + S (length tokens)) with (index + 1 + length tokens) by lia. apply IH. lia.
Qed.

(** The first token of a segment, or the end. *)
Definition bound (segs : list (nat * nat)) (n i : nat) : nat := from_option fst n (segs !! i).

Section bounds.
Context (segs : list (nat * nat)) (n : nat) (Htiles : tiles 0 segs n).

Lemma tiles_lookup x l i p : tiles x l n → l !! i = Some p → p = (bound l n i, bound l n (S i)) ∧ p.1 < p.2.
Proof.
  revert x i. induction l as [|[s e] l IH]; intros x i Ht Hi; [done|]. destruct Ht as (-> & Hlt & Ht).
  destruct i as [|i]; cbn in Hi.
  - injection Hi as <-. split; [|done]. f_equal. destruct l as [|[s' e'] l]; [done|]. by destruct Ht as [-> _].
  - by apply (IH e).
Qed.

Lemma bound_0 : bound segs n 0 = 0.
Proof. destruct segs as [|[s e] l]; [done|]. by destruct Htiles as [-> _]. Qed.

Lemma bound_end i : length segs ≤ i → bound segs n i = n.
Proof. intros Hi. unfold bound. by rewrite lookup_ge_None_2. Qed.

Lemma bound_S i : i < length segs → segs !! i = Some (bound segs n i, bound segs n (S i)) ∧ bound segs n i < bound segs n (S i).
Proof. intros [p Hp]%lookup_lt_is_Some_2. destruct (tiles_lookup 0 segs i p Htiles Hp) as [-> ?]. done. Qed.

Lemma bound_lt i j : i < j → j ≤ length segs → bound segs n i < bound segs n j.
Proof.
  intros Hij. induction Hij as [|j Hij IH]; intros Hj; [apply bound_S; lia|].
  etransitivity; [apply IH; lia|apply bound_S; lia].
Qed.

Lemma bound_le i j : i ≤ j → j ≤ length segs → bound segs n i ≤ bound segs n j.
Proof. intros Hij Hj. destruct (decide (i = j)) as [->|]; [done|]. apply Nat.lt_le_incl, bound_lt; lia. Qed.

Lemma token_span_bounds i j : i ≤ j → j ≤ length segs → token_span segs i j n = (bound segs n i, bound segs n j).
Proof.
  intros Hij Hj. unfold token_span. fold (bound segs n i). pose proof (bound_le i j Hij Hj). f_equal.
  destruct (Nat.eqb_spec j 0) as [->|Hn].
  - replace i with 0 by lia. lia.
  - destruct (bound_S (j - 1)) as [-> _]; [lia|]. cbn. replace (S (j - 1)) with j by lia. lia.
Qed.

(** The texts of the segments, from the words they hold. *)
Lemma segment_words {A} (ws : list (list A)) i j :
  i ≤ j → j ≤ length segs →
  mjoin (part ((λ r : nat * nat, mjoin (part ws r.1 r.2)) <$> segs) i j) = mjoin (part ws (bound segs n i) (bound segs n j)).
Proof.
  intros Hij. induction Hij as [|j Hij IH]; intros Hj; [by rewrite !part_same|].
  destruct (bound_S j) as [Hs Hlt]; [lia|]. rewrite <- (part_app _ i j (S j)) by lia.
  rewrite (part_one _ j (mjoin (part ws (bound segs n j) (bound segs n (S j))))) by (by rewrite list_lookup_fmap, Hs).
  rewrite join_app, IH by lia. rewrite <- (part_app ws (bound segs n i) (bound segs n j) (bound segs n (S j))).
  - rewrite join_app. f_equal. cbn. by rewrite app_nil_r.
  - by apply bound_le; lia.
  - lia.
Qed.
End bounds.

(** ** The script of a side *)

Definition raw_of (op : EditOp) : RawOp := mkRaw (base_start op) (base_end op) (repl_start op) (repl_end op).

Lemma part_part {A} (l : list A) s e i j : i ≤ j → s + j ≤ e → part (part l s e) i j = part l (s + i) (s + j).
Proof.
  intros Hij He. unfold part. rewrite skipn_firstn_comm, drop_drop, take_take. f_equal. lia.
Qed.

Lemma aligned_shift {A} (a b : list A) s e s' e' x y ops x' y' :
  s + x' ≤ e → s' + y' ≤ e' → aligned (part a s e) (part b s' e') x y ops x' y' →
  aligned a b (s + x) (s' + y) (raw_of <$> (shift_op s s' <$> ops)) (s + x') (s' + y').
Proof.
  intros He He'. revert x y. induction ops as [|op ops IH]; intros x y; cbn [fmap list_fmap aligned].
  - intros (? & ? & Heq). rewrite !part_part in Heq by lia. split_and!; [lia..|done].
  - intros (? & ? & ? & ? & Heq & Hal). apply aligned_le in Hal as Hle. rewrite !part_part in Heq by lia.
    cbn [raw_of shift_op a_start a_end b_start b_end base_start base_end repl_start repl_end].
    split_and!; try (done || lia). by apply IH.
Qed.

Lemma separated_shift s s' ops : separated ops → separated (raw_of <$> (shift_op s s' <$> ops)).
Proof.
  intros Hs. induction Hs as [|op ops Hs IH HF]; [constructor|]. rewrite !fmap_cons. constructor; [done|].
  rewrite !Forall_fmap. eapply Forall_impl; [exact HF|]. intros o Ho. unfold compose. cbn [raw_of shift_op a_end a_start base_end base_start] in *. lia.
Qed.

Lemma aligned_interned {A} (l l' : list A) (ids ids' : list Z) x y ops x' y' :
  (∀ i j i' j', part ids i j = part ids' i' j' → part l i j = part l' i' j') →
  aligned ids ids' x y ops x' y' → aligned l l' x y ops x' y'.
Proof.
  intros Heq. revert x y. induction ops as [|op ops IH]; intros x y; cbn [aligned].
  - intros (? & ? & ?). eauto.
  - intros (? & ? & ? & ? & ? & ?). split_and!; eauto.
Qed.

(** Interning two lists of slices in turn and aligning the identifiers aligns the
    slices. *)
Lemma intern_aligned (l l' : list (list ascii)) :
  (Z.of_nat (length l + length l') ≤ 4294967296)%Z →
  ∃ table ids table' ids' ops, intern ∅ l = (table, ids) ∧ intern table l' = (table', ids') ∧
    patience_diff ids ids' = Some ops ∧ aligned l l' 0 0 ops (length l) (length l') ∧ separated ops.
Proof.
  intros Hlen. destruct (intern ∅ l) as [table ids] eqn:H1. destruct (intern table l') as [table' ids'] eqn:H2.
  destruct (intern_spec ∅ l table ids injective_empty ltac:(rewrite map_size_empty; lia) H1) as (Hinj & _ & Hsz & HF).
  rewrite map_size_empty in Hsz. destruct (intern_spec table l' table' ids' Hinj ltac:(lia) H2) as (Hinj' & Hsub & _ & HF').
  destruct (patience_diff_spec ids ids') as (ops & Hp & Hal & Hsep). exists table, ids, table', ids', ops. split_and!; [done..| |done].
  rewrite <- (Forall2_length _ _ _ HF), <- (Forall2_length _ _ _ HF') in Hal. eapply aligned_interned; [|exact Hal].
  intros i j i' j'. apply (interned_part table'); [done| |done]. eapply Forall2_impl; [exact HF|]. intros s id Hs. exact (lookup_weaken _ _ _ _ Hs Hsub).
Qed.

Lemma groups_length {A} (glue : A → A → bool) gs : grouped glue gs → length gs ≤ length (mjoin gs).
Proof.
  induction gs as [|g gs IH]; [done|]. intros (Hne & _ & _ & ?%IH). change (mjoin (g :: gs)) with (g ++ mjoin gs).
  rewrite length_app. destruct g; [done|]. simpl in *. lia.
Qed.

Lemma tiles_length x segs n : tiles x segs n → x + length segs ≤ n.
Proof.
  revert x. induction segs as [|[s e] segs IH]; intros x; cbn [tiles length]; [lia|]. intros (-> & ? & ?%IH). lia.
Qed.

Lemma length_words `{UnicodeTable} body : length (words body) ≤ length body.
Proof.
  unfold words, char_words. rewrite length_fmap. destruct (chop_groups glued_chars (char_split body)) as (Hg & Hj & _).
  apply groups_length in Hg. rewrite Hj in Hg. destruct (chop_groups glued_bytes body) as (Hg' & Hj' & _).
  apply groups_length in Hg'. rewrite Hj', <- char_split_chop in Hg'. lia.
Qed.

Lemma segments_tile `{UnicodeTable} config body : tiles 0 (segment_ranges body (tokenize body) config) (length (words body)).
Proof. rewrite <- length_tokenize. by apply segments_from_tiles. Qed.

Lemma segment_texts `{UnicodeTable} config body :
  mapM (token_text body (tokenize body)) (segment_ranges body (tokenize body) config)
  = Some ((λ r : nat * nat, mjoin (part (words body) r.1 r.2)) <$> segment_ranges body (tokenize body) config).
Proof.
  pose proof (segments_tile config body) as Ht. revert Ht. generalize 0.
  induction (segment_ranges body (tokenize body) config) as [|[s e] segs IH]; intros x Ht; [done|].
  destruct Ht as (-> & Hlt & Ht). pose proof (tiles_length _ _ _ Ht). cbn [mapM]. rewrite token_text_words by lia. cbn.
  by rewrite (IH e Ht).
Qed.

Section build.
Context `{UnicodeTable} (base side : list ascii) (config : TextMergeConfig).
Context (Hsmall : (Z.of_nat (length base + length side) ≤ 4294967296)%Z).
Abbreviation bw := (words base).
Abbreviation sw := (words side).
Abbreviation bsegs := (segment_ranges base (tokenize base) config).
Abbreviation ssegs := (segment_ranges side (tokenize side) config).
Abbreviation bb := (bound bsegs (length bw)).
Abbreviation sb := (bound ssegs (length sw)).

Lemma run_script_spec s e s' e' :
  s ≤ e → e ≤ length bw → s' ≤ e' → e' ≤ length sw →
  ∃ run, run_script base side (tokenize base) (tokenize side) (s, e) (s', e') = Some run ∧
    aligned bw sw s s' (raw_of <$> run) e e' ∧ separated (raw_of <$> run).
Proof.
  intros Hse He Hse' He'. pose proof (length_words base) as Hl. pose proof (length_words side) as Hl'.
  destruct (intern_aligned (part bw s e) (part sw s' e')) as (table & ids & table' & ids' & ops & H1 & H2 & Hp & Hal & Hsep).
  { rewrite !length_part by done. lia. }
  unfold run_script. cbn [fst snd]. rewrite !fmap_part, !words_tokens, H1, H2, Hp. cbn [fmap option_fmap option_map].
  eexists. split_and!; [done| |by apply separated_shift]. rewrite !length_part in Hal by done.
  pose proof (aligned_shift bw sw s e s' e' 0 0 ops (e - s) (e' - s') ltac:(lia) ltac:(lia) Hal) as Hs.
  by replace (s + 0) with s in Hs by lia; replace (s' + 0) with s' in Hs by lia; replace (s + (e - s)) with e in Hs by lia;
    replace (s' + (e' - s')) with e' in Hs by lia.
Qed.

(** The token tiers of the segment replacements, one after the other, align the
    tokens. *)
Lemma two_tiers x y seg_ops x' y' runs :
  x' ≤ length bsegs → y' ≤ length ssegs →
  aligned ((λ r : nat * nat, mjoin (part bw r.1 r.2)) <$> bsegs) ((λ r : nat * nat, mjoin (part sw r.1 r.2)) <$> ssegs) x y seg_ops x' y' →
  separated seg_ops →
  Forall2 (λ op run, aligned bw sw (bb (a_start op)) (sb (b_start op)) (raw_of <$> run) (bb (a_end op)) (sb (b_end op)) ∧
    separated (raw_of <$> run)) seg_ops runs →
  aligned bw sw (bb x) (sb y) (raw_of <$> mjoin runs) (bb x') (sb y') ∧ separated (raw_of <$> mjoin runs).
Proof.
  intros Hx' Hy'. pose proof (segments_tile config base) as Hb. pose proof (segments_tile config side) as Hs.
  assert (∀ x y x1 y1, x ≤ x1 → x1 ≤ length bsegs → y ≤ y1 → y1 ≤ length ssegs →
    part ((λ r : nat * nat, mjoin (part bw r.1 r.2)) <$> bsegs) x x1 = part ((λ r : nat * nat, mjoin (part sw r.1 r.2)) <$> ssegs) y y1 →
    part bw (bb x) (bb x1) = part sw (sb y) (sb y1)) as Hkeep.
  { intros x0 y0 x1 y1 ? ? ? ? Heq. apply words_local. rewrite <- !segment_words by done. by rewrite Heq. }
  intros Hal Hsep HF. revert x y Hal. induction HF as [|op run seg_ops runs [Hrun Hrsep] HF IH]; intros x y; cbn [aligned].
  - intros (? & ? & Heq). cbn [mjoin list_join fmap list_fmap aligned].
    split; [split_and!; [by apply bound_le..|by apply Hkeep]|constructor].
  - intros (? & ? & ? & ? & Heq & Hal). apply StronglySorted_inv in Hsep as [Hsep Hlt]. apply aligned_le in Hal as Hle.
    destruct (IH Hsep _ _ Hal) as [IH1 IH2]. change (mjoin (run :: runs)) with (run ++ mjoin runs). rewrite fmap_app. split.
    + apply (aligned_keep _ _ _ _ (bb (a_start op)) (sb (b_start op))).
      * apply (bound_le _ _ Hb); lia.
      * apply (bound_le _ _ Hs); lia.
      * apply Hkeep; (done || lia).
      * eapply aligned_app; [exact Hrun|done].
    + eapply separated_app; [exact Hrun|done|done|]. intros o (o' & -> & Ho)%list_elem_of_fmap.
      apply list_elem_of_join in Ho as (run' & Ho & Hrun').
      apply list_elem_of_lookup in Hrun' as [k Hk]. destruct (Forall2_lookup_r _ _ _ _ _ HF Hk) as (op' & Hop' & Hal' & _).
      destruct (aligned_in _ _ _ _ _ _ _ (raw_of o') Hal') as [Hin _]; [by apply list_elem_of_fmap_2|].
      eapply Nat.lt_le_trans; [|exact Hin]. apply (bound_lt _ _ Hb).
      * by eapply (Forall_lookup_1 _ _ _ _ Hlt) in Hop'.
      * destruct (aligned_in _ _ _ _ _ _ _ op' Hal) as (_ & ? & ? & _); [by eapply list_elem_of_lookup_2|]. lia.
Qed.

Lemma runs_spec seg_ops x y x' y' :
  x' ≤ length bsegs → y' ≤ length ssegs →
  aligned ((λ r : nat * nat, mjoin (part bw r.1 r.2)) <$> bsegs) ((λ r : nat * nat, mjoin (part sw r.1 r.2)) <$> ssegs) x y seg_ops x' y' →
  ∃ runs,
    mapM (λ op, run_script base side (tokenize base) (tokenize side)
      (token_span bsegs (a_start op) (a_end op) (length (tokenize base)))
      (token_span ssegs (b_start op) (b_end op) (length (tokenize side)))) seg_ops = Some runs ∧
    Forall2 (λ op run, aligned bw sw (bb (a_start op)) (sb (b_start op)) (raw_of <$> run) (bb (a_end op)) (sb (b_end op)) ∧
      separated (raw_of <$> run)) seg_ops runs.
Proof.
  intros Hx' Hy'. pose proof (segments_tile config base) as Hb. pose proof (segments_tile config side) as Hs. rewrite !length_tokenize.
  revert x y. induction seg_ops as [|op seg_ops IH]; intros x y; cbn [aligned]; [intros _; by exists []|].
  intros (? & ? & ? & ? & _ & Hal). apply aligned_le in Hal as Hle. destruct (IH _ _ Hal) as (runs & Hruns & HF).
  destruct (run_script_spec (bb (a_start op)) (bb (a_end op)) (sb (b_start op)) (sb (b_end op))) as (run & Hrun & Hrest).
  - apply (bound_le _ _ Hb); lia.
  - rewrite <- (bound_end bsegs (length bw) (length bsegs)) at 2 by done. apply (bound_le _ _ Hb); lia.
  - apply (bound_le _ _ Hs); lia.
  - rewrite <- (bound_end ssegs (length sw) (length ssegs)) at 2 by done. apply (bound_le _ _ Hs); lia.
  - exists (run :: runs). split; [|by constructor]. cbn [mapM].
    rewrite (token_span_bounds _ _ Hb), (token_span_bounds _ _ Hs) by lia. rewrite Hrun. cbn. by rewrite Hruns.
Qed.

#[local] Instance edit_key_le_total : Total edit_key_le.
Proof. intros o o'. unfold edit_key_le, pair_le. simpl. lia. Qed.
#[local] Instance edit_key_le_trans : Transitive edit_key_le.
Proof. intros o o' o''. unfold edit_key_le, pair_le. simpl. lia. Qed.

Lemma separated_fmap script :
  separated (raw_of <$> script) ↔ StronglySorted (λ o o', base_end o < base_start o') script.
Proof.
  induction script as [|op script IH]; [split; constructor|]. rewrite fmap_cons. unfold separated in *. split.
  - intros [Hs HF]%StronglySorted_inv. rewrite Forall_fmap in HF. constructor; [by apply IH|exact HF].
  - intros [Hs HF]%StronglySorted_inv. constructor; [by apply IH|]. rewrite Forall_fmap. exact HF.
Qed.

(** Nothing touches in what the two tiers find. *)
Lemma coalesce_separated out script : separated (raw_of <$> out ++ script) → coalesce_onto out script = out ++ script.
Proof.
  revert out. induction script as [|op script IH]; intros out Hs; cbn [coalesce_onto]; [by rewrite app_nil_r|].
  assert (coalesce_onto (out ++ [op]) script = out ++ op :: script) as Hgo.
  { rewrite IH by (by rewrite <- app_assoc). by rewrite <- app_assoc. }
  destruct (last out) as [l|] eqn:Hl; [|done]. apply last_Some in Hl as (out' & ->).
  apply separated_fmap in Hs.
  destruct (Nat.eqb_spec (base_end l) (base_start op)) as [Heq|]; [|done]. exfalso.
  assert (base_end l < base_start op); [|lia].
  eapply (sorted_lookup (λ o o', base_end o < base_start o') _ (length out') (S (length out'))); [exact Hs|lia| |].
  - rewrite <- app_assoc. cbn [app]. by apply list_lookup_middle.
  - apply list_lookup_middle. rewrite length_app. simpl. lia.
Qed.

(** The script always exists, its replacements are apart, and between them the side is
    its base. *)
Lemma build_script_spec :
  ∃ script, build_script base (tokenize base) side (tokenize side) config = Some script ∧
    aligned bw sw 0 0 (raw_of <$> script) (length bw) (length sw) ∧ separated (raw_of <$> script).
Proof.
  pose proof (length_words base) as Hl. pose proof (length_words side) as Hl'.
  pose proof (segments_tile config base) as Hb. pose proof (segments_tile config side) as Hs.
  apply tiles_length in Hb as Hbl, Hs as Hsl.
  unfold build_script. rewrite !segment_texts. cbn [mbind option_bind].
  set (bt := _ <$> bsegs). set (st := _ <$> ssegs). cbv zeta.
  destruct (intern_aligned bt st) as (table & ids & table' & ids' & ops & H1 & H2 & Hp & Hal & Hsep).
  { subst bt st. rewrite !length_fmap. lia. }
  rewrite H1, H2, Hp. subst bt st. rewrite !length_fmap in Hal. cbn [mbind option_bind].
  destruct (runs_spec ops 0 0 _ _ ltac:(reflexivity) ltac:(reflexivity) Hal) as (runs & Hruns & HF). rewrite Hruns. cbn [mbind option_bind].
  destruct (two_tiers _ _ _ _ _ _ ltac:(reflexivity) ltac:(reflexivity) Hal Hsep HF) as [Hal' Hsep'].
  rewrite (bound_0 _ _ Hb), (bound_0 _ _ Hs), !bound_end in Hal' by done.
  exists (mjoin runs). split_and!; [|done..]. f_equal.
  rewrite (sort_permuted _ (λ o o', base_end o < base_start o') (mjoin runs)); [by apply (coalesce_separated [])| |by apply separated_fmap|done].
  intros o o' Ho Ho'. destruct (aligned_in _ _ _ _ _ _ _ (raw_of o) Hal') as (_ & Hle & _); [by apply list_elem_of_fmap_2|].
  destruct (aligned_in _ _ _ _ _ _ _ (raw_of o') Hal') as (_ & Hle' & _); [by apply list_elem_of_fmap_2|].
  cbn in Hle, Hle'. unfold edit_key_le, pair_le. simpl. lia.
Qed.
End build.

(** ** A side that is its base *)

Lemma trim_front_same fuel a x n :
  x ≤ n → n ≤ length a → n - x ≤ fuel → trim_front fuel a a x n x n = (n, n).
Proof.
  revert x. induction fuel as [|fuel IH]; intros x Hx Hn Hf; cbn [trim_front]; [f_equal; lia|].
  destruct (Nat.ltb_spec x n); cbn [andb]; [|f_equal; lia]. rewrite bool_decide_eq_true_2 by done. apply IH; lia.
Qed.

Lemma patience_diff_same a : patience_diff a a = Some [].
Proof.
  unfold patience_diff. replace (2 * (length a + length a) + 2) with (S (2 * (length a + length a) + 1)) by lia. cbn [work].
  rewrite trim_front_same by lia. rewrite Nat.sub_diag. cbn [trim_back]. rewrite Nat.eqb_refl. cbn [andb].
  by destruct (2 * (length a + length a) + 1).
Qed.

Lemma intern_again table l ids : Forall2 (λ s id, table !! s = Some id) l ids → intern table l = (table, ids).
Proof. induction 1 as [|s id l ids Hs _ IH]; [done|]. cbn [intern]. by rewrite Hs, IH. Qed.

Lemma build_script_same `{UnicodeTable} base config :
  (Z.of_nat (length base + length base) ≤ 4294967296)%Z → build_script base (tokenize base) base (tokenize base) config = Some [].
Proof.
  intros Hsmall. pose proof (length_words base). pose proof (tiles_length _ _ _ (segments_tile config base)).
  unfold build_script. rewrite (segment_texts config base). cbn [mbind option_bind].
  set (l := _ <$> segment_ranges _ _ _). cbv zeta. destruct (intern ∅ l) as [table ids] eqn:Hi.
  destruct (intern_spec ∅ l table ids injective_empty) as (_ & _ & _ & HF); [|done|].
  { rewrite map_size_empty. subst l. rewrite length_fmap. lia. }
  rewrite (intern_again _ _ _ HF), patience_diff_same. done.
Qed.
