(* ===== verification/TextMerge.v ===== *)
(** The composition half of the token-level text merge (store/text_merge.rs): items,
    conflicts, regions and pieces.

    A [HashMap] keyed by the roots of groups is visited in an order of its own for each
    map, taken from [HashOrder].  An index out of the range of a vector, which panics in
    the code, answers [None], and so does [expect] on [None]. *)
From S2P Require Import Prelude RustStr MachineInt TextDiff.

(** ** Outcomes *)

Inductive Provenance := FromBase | FromOurs | FromTheirs | FromBoth | FromResolved.

Inductive MergePiece :=
| Merged (text : list ascii) (provenance : Provenance)
| ConflictPiece (base_text ours_text theirs_text : list ascii).

Inductive TextMergeOutcome :=
| Clean (pieces : list MergePiece) (merged : list ascii)
| ConflictedText (pieces : list MergePiece).

Definition outcome_pieces (o : TextMergeOutcome) : list MergePiece :=
  match o with Clean pieces _ => pieces | ConflictedText pieces => pieces end.

Definition is_conflict (p : MergePiece) : bool := match p with ConflictPiece _ _ _ => true | Merged _ _ => false end.

(** The text of a piece; [unreachable!] on a conflict. *)
Definition piece_text (p : MergePiece) : option (list ascii) :=
  match p with Merged text _ => Some text | ConflictPiece _ _ _ => None end.

Definition clean_outcome (pieces : list MergePiece) : option TextMergeOutcome :=
  texts ← mapM piece_text pieces; Some (Clean pieces (mjoin texts)).

Definition from_pieces (pieces : list MergePiece) : option TextMergeOutcome :=
  if existsb is_conflict pieces then Some (ConflictedText pieces) else clean_outcome pieces.

(** ** Items *)

Inductive ItemSide := OursSide | TheirsSide | BothSides.
#[export] Instance item_side_eq_dec : EqDecision ItemSide.
Proof. solve_decision. Defined.

Record Item := mkItem { side : ItemSide; op : EditOp }.

Class HashOrder := {
  visit : nat → ∀ V : Type, gmap nat V → list (nat * V);
  visit_all : ∀ seed V (m : gmap nat V), visit seed V m ≡ₚ map_to_list m;
}.

(** A fold that stops where a step panics. *)
Fixpoint fold_steps {S X} (step : S → X → option S) (s : S) (l : list X) : option S :=
  match l with [] => Some s | x :: rest => s' ← step s x; fold_steps step s' rest end.

Section compose.
Context `{UnicodeTable}.

(** *** Separation in the base *)

Definition newlines (bytes : list ascii) : nat := length (filter (λ b, b = "010"%char) bytes).

Definition is_word (t : Token) : bool := bool_decide (tok_class t = Word).
Definition is_break (base : list ascii) (t : Token) : bool :=
  bool_decide (tok_class t = Space) && (2 <=? newlines (token_bytes base t)).

(** The prefix counts, from the count [n] before the tokens. *)
Fixpoint prefix_counts (f : Token → bool) (n : nat) (tokens : list Token) : list nat :=
  match tokens with
  | [] => [n]
  | t :: rest => n :: prefix_counts f (n + Nat.b2n (f t)) rest
  end.

Definition gap_count (prefix : list nat) (left_end right_start : nat) : option nat :=
  r ← prefix !! (right_start `max` left_end); l ← prefix !! left_end; Some (r - l).

Definition is_point (o : EditOp) : bool := base_start o =? base_end o.

Definition conflicting (config : TextMergeConfig) (word_prefix paragraph_prefix : list nat) (a b : Item) : option bool :=
  if bool_decide (side a = BothSides) || bool_decide (side b = BothSides) || bool_decide (side a = side b) then Some false
  else
    let '(first, second) := if base_start (op a) <=? base_start (op b) then (op a, op b) else (op b, op a) in
    if (base_start first <? base_end second) && (base_start second <? base_end first) then Some true
    else if is_point (op a) && is_point (op b) then Some (base_start (op a) =? base_start (op b))
    else if is_point (op a) && (base_start (op b) <=? base_start (op a)) && (base_start (op a) <=? base_end (op b)) then Some true
    else if is_point (op b) && (base_start (op a) <=? base_start (op b)) && (base_start (op b) <=? base_end (op a)) then Some true
    else if base_end first <=? base_start second then
      breaks ← gap_count paragraph_prefix (base_end first) (base_start second);
      if 0 <? breaks then Some false
      else
        gap ← gap_count word_prefix (base_end first) (base_start second);
        Some (gap <? proximity_gap config)
    else Some false.

(** *** Convergent pairs *)

Section items.
Context (ours : list ascii) (ours_tokens : list Token) (theirs : list ascii) (theirs_tokens : list Token).

Fixpoint find_convergent (used : list bool) (ours_op : EditOp) (index : nat) (script : list EditOp) : option (option nat) :=
  match script with
  | [] => Some None
  | theirs_op :: rest =>
      taken ← used !! index;
      if negb taken && (base_start theirs_op =? base_start ours_op) && (base_end theirs_op =? base_end ours_op) then
        theirs_text ← token_text theirs theirs_tokens (repl_start theirs_op, repl_end theirs_op);
        ours_text ← token_text ours ours_tokens (repl_start ours_op, repl_end ours_op);
        if bool_decide (theirs_text = ours_text) then Some (Some index)
        else find_convergent used ours_op (S index) rest
      else find_convergent used ours_op (S index) rest
  end.

Definition collapse_step (theirs_script : list EditOp) (s : list bool * list Item) (ours_op : EditOp)
    : option (list bool * list Item) :=
  let '(used, items) := s in
  convergent ← find_convergent used ours_op 0 theirs_script;
  match convergent with
  | Some index => Some (<[ index := true ]> used, items ++ [mkItem BothSides ours_op])
  | None => Some (used, items ++ [mkItem OursSide ours_op])
  end.

Definition unused (used : list bool) (theirs_script : list EditOp) : list Item :=
  mjoin (zip_with (λ (u : bool) o, if u then [] else [mkItem TheirsSide o]) used theirs_script).

Definition item_key_le (a b : Item) : Prop := edit_key_le (op a) (op b).
#[export] Instance item_key_le_dec a b : Decision (item_key_le a b).
Proof. unfold item_key_le. apply _. Defined.

Definition build_items (ours_script theirs_script : list EditOp) : option (list Item) :=
  '(used, items) ← fold_steps (collapse_step theirs_script) (replicate (length theirs_script) false, []) ours_script;
  Some (merge_sort item_key_le (items ++ unused used theirs_script)).
End items.

(** *** Groups *)

(** Path halving: the table after the walk, and the root. *)
Fixpoint root (fuel : nat) (parent : list nat) (cursor : nat) : option (list nat * nat) :=
  match fuel with
  | 0 => None
  | S fuel' =>
      p ← parent !! cursor;
      if p =? cursor then Some (parent, cursor)
      else g ← parent !! p; root fuel' (<[ cursor := g ]> parent) g
  end.

Definition find_root (parent : list nat) (index : nat) : option (list nat * nat) := root (S index) parent index.

Definition unite (parent : list nat) (x y : nat) : list nat := <[ x `max` y := x `min` y ]> parent.

(** [for a in 0..n { for b in (a + 1)..n { .. } }]. *)
Definition index_pairs (n : nat) : list (nat * nat) := a ← seq 0 n; (λ b, (a, b)) <$> seq (S a) (n - S a).

Definition link_step (clash : Item → Item → option bool) (items : list Item) (s : list nat * bool) (pair : nat * nat)
    : option (list nat * bool) :=
  let '(parent, any_conflict) := s in
  a ← items !! pair.1;
  b ← items !! pair.2;
  c ← clash a b;
  if (c : bool) then
    '(parent, ra) ← find_root parent pair.1;
    '(parent, rb) ← find_root parent pair.2;
    Some (unite parent ra rb, true)
  else Some (parent, any_conflict).

Record Span := mkSpan { span_start : nat; span_end : nat; members : nat }.

(** [entry.or_insert((usize::MAX, 0, 0))] and the update: [usize::MAX] is above every
    start. *)
Definition widen (o : option Span) (item : Item) : Span :=
  match o with
  | Some s => mkSpan (span_start s `min` base_start (op item)) (span_end s `max` base_end (op item)) (S (members s))
  | None => mkSpan (base_start (op item)) (base_end (op item)) 1
  end.

Definition span_step (s : list nat * gmap nat Span) (entry : nat * Item) : option (list nat * gmap nat Span) :=
  let '(parent, spans) := s in
  '(parent, group) ← find_root parent entry.1;
  Some (parent, <[ group := widen (spans !! group) entry.2 ]> spans).

Definition touches_span (item : Item) (s : Span) : bool :=
  (base_start (op item) <=? span_end s) && (span_start s <=? base_end (op item)).

Definition absorb_step (index : nat) (item : Item) (group : nat) (s : list nat * bool) (entry : nat * Span)
    : option (list nat * bool) :=
  let '(parent, changed) := s in
  if (entry.1 =? group) || (members entry.2 <? 2) then Some (parent, changed)
  else if touches_span item entry.2 then
    '(parent, ra) ← find_root parent index;
    Some (unite parent ra entry.1, true)
  else Some (parent, changed).

Definition absorb_item (spans : list (nat * Span)) (s : list nat * bool) (entry : nat * Item) : option (list nat * bool) :=
  let '(parent, changed) := s in
  '(parent, group) ← find_root parent entry.1;
  fold_steps (absorb_step entry.1 entry.2 group) (parent, changed) spans.

Context `{HashOrder}.

Definition indexed (items : list Item) : list (nat * Item) := imap pair items.

Definition absorb_pass (seed : nat) (items : list Item) (parent : list nat) : option (list nat * bool) :=
  '(parent, spans) ← fold_steps span_step (parent, ∅) (indexed items);
  fold_steps (absorb_item (visit seed Span spans)) (parent, false) (indexed items).

Fixpoint absorb (fuel : nat) (items : list Item) (parent : list nat) : option (list nat) :=
  match fuel with
  | 0 => None
  | S fuel' =>
      '(parent, changed) ← absorb_pass fuel' items parent;
      if (changed : bool) then absorb fuel' items parent else Some parent
  end.

Definition regroup (clash : Item → Item → option bool) (items : list Item) : option (list nat) :=
  '(parent, any_conflict) ←
    fold_steps (link_step clash items) (seq 0 (length items), false) (index_pairs (length items));
  if (any_conflict : bool) then absorb (S (length items)) items parent else Some parent.

Definition group_step (s : list nat * gmap nat (list nat)) (index : nat) : option (list nat * gmap nat (list nat)) :=
  let '(parent, groups) := s in
  '(parent, group) ← find_root parent index;
  Some (parent, <[ group := default [] (groups !! group) ++ [index] ]> groups).

(** *** Emission *)

Inductive Emit :=
| EmitOp (item : Item)
| EmitRegion (region_start region_end : nat).

Definition emit_range (e : Emit) : nat * nat :=
  match e with
  | EmitOp item => (base_start (op item), base_end (op item))
  | EmitRegion s t => (s, t)
  end.

Definition emit_key_le (a b : Emit) : Prop := pair_le (emit_range a) (emit_range b).
#[export] Instance emit_key_le_dec a b : Decision (emit_key_le a b).
Proof. unfold emit_key_le. apply _. Defined.

Definition min_of (l : list nat) : option nat := match l with [] => None | x :: rest => Some (foldl min x rest) end.
Definition max_of (l : list nat) : option nat := match l with [] => None | x :: rest => Some (foldl max x rest) end.

Definition emit_group (items : list Item) (member_indexes : list nat) : option Emit :=
  group ← mapM (λ index, items !! index) member_indexes;
  match group with
  | [item] => Some (EmitOp item)
  | _ =>
      s ← min_of ((λ item, base_start (op item)) <$> group);
      e ← max_of ((λ item, base_end (op item)) <$> group);
      Some (EmitRegion s e)
  end.

Definition build_emits (items : list Item) (parent : list nat) : option (list Emit) :=
  '(_, groups) ← fold_steps group_step (parent, ∅) (seq 0 (length items));
  emits ← mapM (λ entry : nat * list nat, emit_group items entry.2) (visit 0 (list nat) groups);
  Some (merge_sort emit_key_le emits).

(** [x as usize]. *)
Definition as_usize (z : Z) : nat := Z.to_nat (z mod 18446744073709551616).

Definition delta (o : EditOp) : Z :=
  Z.of_nat (repl_end o - repl_start o) - Z.of_nat (base_end o - base_start o).

Definition delta_step (s e : nat) (acc : Z * Z) (o : EditOp) : Z * Z :=
  let '(start_delta, inner_delta) := acc in
  if (base_end o <=? s) && ((base_start o <? s) || (0 <? base_end o - base_start o)) then (start_delta + delta o, inner_delta)%Z
  else if (s <=? base_start o) && (base_end o <=? e) then (start_delta, inner_delta + delta o)%Z
  else (start_delta, inner_delta).

Definition side_span (script : list EditOp) (s e : nat) : nat * nat :=
  let '(start_delta, inner_delta) := foldl (delta_step s e) (0, 0)%Z script in
  (as_usize (Z.of_nat s + start_delta), as_usize (Z.of_nat e + start_delta + inner_delta)).

Definition push_merged (pieces : list MergePiece) (text : list ascii) (provenance : Provenance) : list MergePiece :=
  if bool_decide (text = []) then pieces else pieces ++ [Merged text provenance].

Section pieces.
Context (base ours theirs : list ascii) (base_tokens ours_tokens theirs_tokens : list Token).
Context (ours_script theirs_script : list EditOp).

Definition emit_step (s : list MergePiece * nat * bool) (e : Emit) : option (list MergePiece * nat * bool) :=
  let '(pieces, cursor, conflicted) := s in
  let '(start, stop) := emit_range e in
  between ← token_text base base_tokens (cursor, start);
  let pieces := push_merged pieces between FromBase in
  match e with
  | EmitOp item =>
      let '(body, tokens, provenance) :=
        match side item with
        | OursSide => (ours, ours_tokens, FromOurs)
        | BothSides => (ours, ours_tokens, FromBoth)
        | TheirsSide => (theirs, theirs_tokens, FromTheirs)
        end in
      text ← token_text body tokens (repl_start (op item), repl_end (op item));
      Some (push_merged pieces text provenance, stop `max` cursor, conflicted)
  | EmitRegion s e =>
      ours_text ← token_text ours ours_tokens (side_span ours_script s e);
      theirs_text ← token_text theirs theirs_tokens (side_span theirs_script s e);
      if bool_decide (ours_text = theirs_text)
      then Some (push_merged pieces ours_text FromBoth, stop `max` cursor, conflicted)
      else
        base_text ← token_text base base_tokens (s, e);
        Some (pieces ++ [ConflictPiece base_text ours_text theirs_text], stop `max` cursor, true)
  end.

Definition build_pieces (emits : list Emit) : option (list MergePiece * bool) :=
  '(pieces, cursor, conflicted) ← fold_steps emit_step ([], 0, false) emits;
  tail ← token_text base base_tokens (cursor, length base_tokens);
  Some (push_merged pieces tail FromBase, conflicted).
End pieces.

Definition text_merge (base ours theirs : list ascii) (config : TextMergeConfig) : option TextMergeOutcome :=
  let base_tokens := tokenize base in
  let ours_tokens := tokenize ours in
  let theirs_tokens := tokenize theirs in
  ours_script ← build_script base base_tokens ours ours_tokens config;
  theirs_script ← build_script base base_tokens theirs theirs_tokens config;
  let word_prefix := prefix_counts is_word 0 base_tokens in
  let paragraph_prefix := prefix_counts (is_break base) 0 base_tokens in
  items ← build_items ours ours_tokens theirs theirs_tokens ours_script theirs_script;
  parent ← regroup (conflicting config word_prefix paragraph_prefix) items;
  emits ← build_emits items parent;
  '(pieces, conflicted) ← build_pieces base ours theirs base_tokens ours_tokens theirs_tokens ours_script theirs_script emits;
  if (conflicted : bool) then Some (ConflictedText pieces) else clean_outcome pieces.
End compose.

(** ** Examples *)

Definition by_key : HashOrder := {| visit := λ _ V m, map_to_list m; visit_all := λ _ V m, reflexivity _ |}.

Definition merge_example (base ours theirs : string) : option TextMergeOutcome :=
  text_merge (H := ascii_only) (H0 := by_key) (utf8 base) (utf8 ours) (utf8 theirs) default_config.

Example apart_edits_compose :
  match merge_example "one two three four five six" "1 two three four five six" "one two three four five 6" with
  | Some (Clean _ merged) => bool_decide (merged = utf8 "1 two three four five 6")
  | _ => false
  end = true.
Proof. vm_compute. reflexivity. Qed.

Example overlapping_edits_conflict :
  merge_example "one two three" "one 2 three" "one ii three"
  = Some (ConflictedText [Merged (utf8 "one ") FromBase; ConflictPiece (utf8 "two") (utf8 "2") (utf8 "ii"); Merged (utf8 " three") FromBase]).
Proof. vm_compute. reflexivity. Qed.

(** ** Union-find *)

(** No parent is above its child. *)
Definition downward (parent : list nat) : Prop := ∀ i p, parent !! i = Some p → p ≤ i.

Definition is_root (parent : list nat) (i : nat) : Prop := parent !! i = Some i.

Inductive rooted (parent : list nat) : nat → nat → Prop :=
| rooted_self i : parent !! i = Some i → rooted parent i i
| rooted_up i p r : parent !! i = Some p → p ≠ i → rooted parent p r → rooted parent i r.

Lemma rooted_root parent i r : rooted parent i r → is_root parent r.
Proof. induction 1; auto. Qed.

Lemma rooted_fun parent i r r' : rooted parent i r → rooted parent i r' → r = r'.
Proof. intros H1. revert r'. induction H1; intros r' H2; inversion H2; simplify_eq; auto. Qed.

Lemma rooted_le parent i r : downward parent → rooted parent i r → r ≤ i.
Proof. intros Hd. induction 1 as [|i p r Hp Hne _ IH]; [done|]. apply Hd in Hp. lia. Qed.

Lemma rooted_total parent i : downward parent → i < length parent → ∃ r, rooted parent i r.
Proof.
  intros Hd. induction (lt_wf i) as [i _ IH]. intros [p Hp]%lookup_lt_is_Some_2. apply Hd in Hp as Hle.
  destruct (decide (p = i)) as [->|Hne]; [exists i; by constructor|].
  destruct (IH p ltac:(lia)) as [r Hr]; [|exists r; by econstructor].
  apply lookup_lt_Some in Hp. lia.
Qed.

(** One table regroups another: what is no root stays none. *)
Definition regroups (parent parent' : list nat) : Prop :=
  downward parent' ∧ length parent' = length parent ∧ ∀ i, is_root parent' i → is_root parent i.

(** The same groups. *)
Definition same_groups (parent parent' : list nat) : Prop :=
  downward parent' ∧ length parent' = length parent ∧ ∀ i r, rooted parent i r → rooted parent' i r.

#[export] Instance regroups_trans : Transitive regroups.
Proof. intros p q r (? & ? & ?) (? & ? & ?). split_and!; [done|congruence|auto]. Qed.
#[export] Instance same_groups_trans : Transitive same_groups.
Proof. intros p q r (? & ? & ?) (? & ? & ?). split_and!; [done|congruence|auto]. Qed.

Lemma same_groups_refl parent : downward parent → same_groups parent parent.
Proof. intros. by split_and!. Qed.

Lemma regroups_refl parent : downward parent → regroups parent parent.
Proof. intros. by split_and!. Qed.

Lemma same_groups_inv parent parent' i r :
  downward parent → same_groups parent parent' → rooted parent' i r → rooted parent i r.
Proof.
  intros Hd (Hd' & Hl & Hr) Hi. assert (i < length parent) as Hlt.
  { rewrite <- Hl. inversion Hi; eauto using lookup_lt_Some. }
  destruct (rooted_total parent i Hd Hlt) as [r' Hr']. by rewrite (rooted_fun _ _ _ _ Hi (Hr _ _ Hr')).
Qed.

Lemma is_root_rooted parent i : downward parent → is_root parent i ↔ rooted parent i i.
Proof.
  intros Hd. split; [by constructor|]. inversion 1 as [|? p ? Hp Hne Hup]; subst; [done|].
  apply rooted_le in Hup; [|done]. apply Hd in Hp. lia.
Qed.

Lemma same_groups_regroups parent parent' : downward parent → same_groups parent parent' → regroups parent parent'.
Proof.
  intros Hd Hs. destruct Hs as (Hd' & Hl & Hr) eqn:E. split_and!; [done..|]. intros i Hi.
  apply is_root_rooted; [done|]. apply (same_groups_inv parent parent'); [done|done|]. by apply is_root_rooted.
Qed.

Lemma halve_same parent c p g :
  downward parent → parent !! c = Some p → p ≠ c → parent !! p = Some g → same_groups parent (<[ c := g ]> parent).
Proof.
  intros Hd Hc Hne Hp. pose proof (Hd _ _ Hc). pose proof (Hd _ _ Hp). split_and!.
  - intros i q [(<- & <- & _)|[_ Hq]]%list_lookup_insert_Some; [lia|by apply Hd].
  - apply length_insert.
  - assert (<[c:=g]> parent !! c = Some g) as Hcg by (apply list_lookup_insert_eq; by eapply lookup_lt_Some).
    intros i r Hi. induction Hi as [i Hi|i q r Hi Hq Hup IH].
    + apply rooted_self. rewrite list_lookup_insert_ne by congruence. done.
    + destruct (decide (i = c)) as [->|Hic].
      * replace q with p in * by congruence. inversion IH as [? Hs|? g' ? Hg' Hne' Hup' ]; subst.
        -- rewrite list_lookup_insert_ne in Hs by done. simplify_eq. eapply rooted_up; [exact Hcg|done|]. done.
        -- rewrite list_lookup_insert_ne in Hg' by done. simplify_eq. eapply rooted_up; [exact Hcg|lia|done].
      * eapply rooted_up; [|done|exact IH]. by rewrite list_lookup_insert_ne.
Qed.

Lemma root_spec fuel parent i :
  downward parent → i < length parent → i < fuel →
  ∃ parent' r, root fuel parent i = Some (parent', r) ∧ rooted parent i r ∧ same_groups parent parent'.
Proof.
  revert parent i. induction fuel as [|fuel IH]; intros parent i Hd Hl Hf; [lia|]. cbn [root].
  destruct (lookup_lt_is_Some_2 _ _ Hl) as [p Hp]. rewrite Hp. cbn [mbind option_bind]. pose proof (Hd _ _ Hp).
  destruct (Nat.eqb_spec p i) as [->|Hne].
  { exists parent, i. split_and!; [done|by constructor|done..]. }
  destruct (lookup_lt_is_Some_2 parent p) as [g Hg]; [lia|]. rewrite Hg. cbn [mbind option_bind]. pose proof (Hd _ _ Hg).
  pose proof (halve_same parent i p g Hd Hp Hne Hg) as Hh. destruct Hh as (Hd' & Hl' & Hr') eqn:E. clear E.
  destruct (IH (<[i:=g]> parent) g Hd') as (parent' & r & Heq & Hr & Hs); [lia|lia|].
  exists parent', r. split_and!; [done| |by etransitivity|..]; [|by apply (halve_same parent i p g)..].
  apply (same_groups_inv _ _ _ _ Hd Hh). eapply rooted_up; [|..|exact Hr]; [by apply list_lookup_insert_eq|lia].
Qed.

Lemma find_root_spec parent i :
  downward parent → i < length parent →
  ∃ parent' r, find_root parent i = Some (parent', r) ∧ rooted parent i r ∧ same_groups parent parent'.
Proof. intros. apply root_spec; [done..|lia]. Qed.

(** A union over a root. *)
Lemma unite_spec parent x y :
  downward parent → is_root parent x → y < length parent →
  regroups parent (unite parent x y) ∧ (is_root parent y → x ≠ y → ∃ z, is_root parent z ∧ ¬ is_root (unite parent x y) z) ∧
  (x ≠ y → ¬ is_root (unite parent x y) (x `max` y)).
Proof.
  intros Hd Hx Hy. assert (x < length parent) as Hxl by (by eapply lookup_lt_Some).
  assert (∀ i p, unite parent x y !! i = Some p → (i = x `max` y ∧ p = x `min` y) ∨ (i ≠ x `max` y ∧ parent !! i = Some p)) as Hu.
  { intros i p [(<- & <- & _)|[Hne Hp]]%list_lookup_insert_Some; [by left|right; split; [lia|done]]. }
  assert (x ≠ y → ¬ is_root (unite parent x y) (x `max` y)) as Hmax.
  { intros Hne [[_ ?]|[? _]]%Hu; lia. }
  split_and!.
  - split_and!.
    + intros i p [[-> ->]|[_ Hp]]%Hu; [lia|by apply Hd].
    + apply length_insert.
    + intros i [[-> Hi]|[_ Hi]]%Hu; [|done]. assert (x = y) as -> by lia. by rewrite Nat.max_id.
  - intros Hyr Hne. exists (x `max` y). split; [|by apply Hmax]. by destruct (Nat.max_spec x y) as [[_ ->]|[_ ->]].
  - done.
Qed.

Lemma fold_steps_app {S X} (step : S → X → option S) s l l' :
  fold_steps step s (l ++ l') = (s' ← fold_steps step s l; fold_steps step s' l').
Proof. revert s. induction l as [|x l IH]; intros s; cbn [fold_steps app]; [done|]. destruct (step s x); cbn; [by rewrite IH|done]. Qed.

(** A fold keeps an invariant that its steps keep; the invariant may speak of what is
    done already. *)
Lemma fold_steps_inv {S X} (step : S → X → option S) (I : list X → S → Prop) (l : list X) s :
  I [] s → (∀ done x rest s, l = done ++ x :: rest → I done s → ∃ s', step s x = Some s' ∧ I (done ++ [x]) s') →
  ∃ s', fold_steps step s l = Some s' ∧ I l s'.
Proof.
  intros Hs Hstep. assert (∀ done s, I done s → ∀ rest, l = done ++ rest → ∃ s', fold_steps step s rest = Some s' ∧ I l s') as Hgo.
  { intros dn s0 Hdn rest. revert dn s0 Hdn. induction rest as [|x rest IH]; intros dn s0 Hdn Hl; cbn [fold_steps].
    - rewrite app_nil_r in Hl. subst. eauto.
    - destruct (Hstep dn x rest s0 Hl Hdn) as (s1 & Hs1 & HI). rewrite Hs1. cbn. apply (IH (dn ++ [x])); [done|].
      by rewrite <- app_assoc. }
  by apply (Hgo [] s Hs).
Qed.

(** ** Linking *)

Lemma elem_of_index_pairs n i j : (i, j) ∈ index_pairs n ↔ i < j ∧ j < n.
Proof.
  unfold index_pairs. rewrite list_elem_of_bind. split.
  - intros (x & (y & [= <- <-] & Hy)%list_elem_of_fmap & Hx). apply elem_of_seq in Hx, Hy. lia.
  - intros []. exists i. split; [|apply elem_of_seq; lia]. apply list_elem_of_fmap. exists j. split; [done|]. apply elem_of_seq. lia.
Qed.

Section linking.
Context (clash : Item → Item → option bool) (items : list Item).
Context (Hclash : ∀ a b, a ∈ items → b ∈ items → is_Some (clash a b)).

Definition clashes (i j : nat) : Prop := ∃ a b, items !! i = Some a ∧ items !! j = Some b ∧ clash a b = Some true.

Lemma linking_spec :
  ∃ parent any, fold_steps (link_step clash items) (seq 0 (length items), false) (index_pairs (length items)) = Some (parent, any) ∧
    downward parent ∧ length parent = length items ∧
    (∀ i j, i < j → clashes i j → any = true ∧ ¬ is_root parent j) ∧
    (any = false → parent = seq 0 (length items)) ∧ (any = true → ∃ i j, i < j ∧ clashes i j).
Proof.
  destruct (fold_steps_inv (link_step clash items) (λ dn s, downward s.1 ∧ length s.1 = length items ∧
    (∀ i j, (i, j) ∈ dn → clashes i j → s.2 = true ∧ ¬ is_root s.1 j) ∧ (s.2 = false → s.1 = seq 0 (length items)) ∧
    (s.2 = true → ∃ i j, i < j ∧ clashes i j))
    (index_pairs (length items)) (seq 0 (length items), false)) as ([parent any] & Hf & Hd & Hl & Hc & Hn & Hw).
  - cbn [fst snd]. split_and!; [|apply length_seq|by intros ? ? ?%elem_of_nil|done|done].
    intros i p [? ?]%lookup_seq. lia.
  - intros dn [i j] rest [parent any] Hl (Hd & Hlen & Hc & Hn & Hw). cbn [fst snd] in *.
    assert (i < j ∧ j < length items) as [Hij Hj].
    { apply elem_of_index_pairs. rewrite Hl. apply elem_of_app. right. by apply elem_of_cons; left. }
    destruct (lookup_lt_is_Some_2 items i) as [a Ha]; [lia|]. destruct (lookup_lt_is_Some_2 items j) as [b Hb]; [lia|].
    destruct (Hclash a b) as [c Hcl]; [by eapply list_elem_of_lookup_2..|].
    unfold link_step. cbn [fst snd]. rewrite Ha, Hb. cbn [mbind option_bind]. rewrite Hcl. cbn [mbind option_bind]. destruct c.
    + destruct (find_root_spec parent i Hd) as (p1 & ra & Hr1 & Hra & Hs1); [lia|]. rewrite Hr1. cbn [mbind option_bind].
      destruct Hs1 as (Hd1 & Hl1 & Hg1) eqn:E1. destruct (find_root_spec p1 j Hd1) as (p2 & rb & Hr2 & Hrb & Hs2); [lia|].
      rewrite Hr2. cbn [mbind option_bind]. eexists. split; [done|]. cbn [fst snd].
      pose proof Hs2 as (Hd2 & Hl2 & Hg2). assert (is_root p2 ra) as Hroot by (by eapply rooted_root, Hg2, Hg1).
      assert (rb < length p2) as Hrbl by (eapply lookup_lt_Some, (rooted_root p2); by apply Hg2).
      destruct (unite_spec p2 ra rb Hd2 Hroot Hrbl) as (Hu & _ & Humax).
      assert (regroups parent (unite p2 ra rb)) as Hre.
      { etransitivity; [by apply same_groups_regroups|]. etransitivity; [by apply same_groups_regroups|done]. }
      destruct Hre as (Hdu & Hlu & Hru). split_and!; [done|lia| |done|by exists i, j; split; [|exists a, b]].
      intros i' j' Hin Hcl'. split; [done|]. apply elem_of_app in Hin as [Hin|Hin].
      * intros Hroot'. destruct (Hc i' j' Hin Hcl') as [_ Hnr]. by apply Hnr, Hru.
      * apply list_elem_of_singleton in Hin as [= -> ->]. intros Hroot'.
        assert (is_root p2 j) as Hj2 by (by apply Hu). apply is_root_rooted in Hj2; [|done].
        assert (rb = j) as -> by (by eapply rooted_fun; [apply Hg2|]). apply rooted_le in Hra; [|done].
        apply Humax; [lia|]. by replace (ra `max` j) with j by lia.
    + eexists. split; [done|]. cbn [fst snd]. split_and!; [done..| |done|done].
      intros i' j' [Hin|[= -> ->]%list_elem_of_singleton]%elem_of_app Hcl'; [by apply (Hc i')|].
      destruct Hcl' as (? & ? & ? & ? & ?). simplify_eq.
  - exists parent, any. cbn [fst snd] in *. split_and!; [done..| |done|done].
    intros i j Hij Hcl. apply (Hc i j); [|done]. apply elem_of_index_pairs. split; [done|].
    destruct Hcl as (? & ? & _ & ? & _). by eapply lookup_lt_Some.
Qed.
End linking.

(** ** Absorption *)

Section absorption.
Context `{HashOrder} (items : list Item).

Lemma elem_of_indexed i item : (i, item) ∈ indexed items ↔ items !! i = Some item.
Proof.
  unfold indexed. rewrite elem_of_lookup_imap. split.
  - intros (j & x & [= -> ->] & ?). done.
  - intros ?. by exists i, item.
Qed.

Lemma indexed_split dn i item rest : indexed items = dn ++ (i, item) :: rest → (i, item) ∉ dn.
Proof.
  intros Heq Hin. apply list_elem_of_lookup in Hin as [k Hk].
  assert (∀ k p, indexed items !! k = Some p → p.1 = k) as Hidx.
  { intros k' p. unfold indexed. rewrite list_lookup_imap. destruct (items !! k'); [|done]. by intros [= <-]. }
  assert (indexed items !! k = Some (i, item)) as H1 by (rewrite Heq; by apply lookup_app_l_Some).
  assert (indexed items !! length dn = Some (i, item)) as H2 by (rewrite Heq; by apply list_lookup_middle).
  apply Hidx in H1, H2. apply lookup_lt_Some in Hk. simpl in *. lia.
Qed.

(** A group of a table covers the items it group_members. *)
Definition covers (parent : list nat) (dn : list (nat * Item)) (spans : gmap nat Span) : Prop :=
  (∀ r s, spans !! r = Some s → is_root parent r ∧ ∃ i item, (i, item) ∈ dn ∧ rooted parent i r) ∧
  (∀ i item r, (i, item) ∈ dn → rooted parent i r →
    ∃ s, spans !! r = Some s ∧ 1 ≤ members s ∧ span_start s ≤ base_start (op item) ∧ base_end (op item) ≤ span_end s) ∧
  (∀ i j item item' r s, (i, item) ∈ dn → (j, item') ∈ dn → i ≠ j → rooted parent i r → rooted parent j r →
    spans !! r = Some s → 2 ≤ members s).

Lemma spans_spec parent :
  downward parent → length parent = length items →
  ∃ parent' spans, fold_steps span_step (parent, ∅) (indexed items) = Some (parent', spans) ∧
    same_groups parent parent' ∧ covers parent (indexed items) spans.
Proof.
  intros Hd Hl. destruct (fold_steps_inv span_step (λ dn s, same_groups parent s.1 ∧ covers parent dn s.2)
    (indexed items) (parent, ∅)) as ([parent' spans] & Hf & Hs & Hc); [| |by eauto].
  - cbn [fst snd]. split; [by apply same_groups_refl|]. split_and!.
    + intros r s. by rewrite lookup_empty.
    + by intros ? ? ? ?%elem_of_nil.
    + by intros ? ? ? ? ? ? ?%elem_of_nil.
  - intros dn [i item] rest [parent' spans] Heq [Hs (Hc1 & Hc2 & Hc3)]. cbn [fst snd] in *.
    pose proof (indexed_split _ _ _ _ Heq) as Hnew.
    assert (items !! i = Some item) as Hi by (apply elem_of_indexed; rewrite Heq; apply elem_of_app; right; by apply elem_of_cons; left).
    destruct Hs as (Hd' & Hl' & Hg) eqn:E. clear E. destruct (find_root_spec parent' i Hd') as (p & r & Hr & Hroot & Hs').
    { apply lookup_lt_Some in Hi. lia. }
    unfold span_step. cbn [fst snd]. rewrite Hr. cbn [mbind option_bind]. eexists. split; [done|]. cbn [fst snd].
    assert (same_groups parent p) by (by etransitivity). split; [done|].
    apply (same_groups_inv _ _ _ _ Hd Hs) in Hroot.
    split_and!.
    + intros r' s [[<- _]|[_ Hr']]%lookup_insert_Some.
      * split; [by eapply rooted_root|]. exists i, item. split; [|done]. apply elem_of_app. right. by apply list_elem_of_singleton.
      * destruct (Hc1 r' s Hr') as (? & j & it & ? & ?). split; [done|]. exists j, it. split; [|done]. apply elem_of_app. by left.
    + intros j it r' [Hj|[= -> ->]%list_elem_of_singleton]%elem_of_app Hjr.
      * destruct (Hc2 j it r' Hj Hjr) as (s & Hsp & ? & ? & ?). destruct (decide (r' = r)) as [->|Hne].
        -- rewrite lookup_insert_eq, Hsp. eexists. split; [done|]. cbn. lia.
        -- rewrite lookup_insert_ne by done. eauto.
      * rewrite (rooted_fun _ _ _ _ Hjr Hroot). rewrite lookup_insert_eq. eexists. split; [done|].
        destruct (spans !! r); cbn; lia.
    + assert (∀ j it r' s, (j, it) ∈ dn → rooted parent j r' → rooted parent i r' →
        <[r:=widen (spans !! r) item]> spans !! r' = Some s → 2 ≤ members s) as Hpair.
      { intros j it r' s Hj Hjr Hir. rewrite (rooted_fun _ _ _ _ Hir Hroot), lookup_insert_eq.
        destruct (Hc2 j it r Hj) as (s' & -> & ? & _); [by rewrite (rooted_fun _ _ _ _ Hir Hroot) in Hjr|]. intros [= <-]. cbn. lia. }
      intros j k it it' r' s [Hj|[= -> ->]%list_elem_of_singleton]%elem_of_app [Hk|[= -> ->]%list_elem_of_singleton]%elem_of_app Hne Hjr Hkr Hsp.
      * destruct (decide (r' = r)) as [->|Hner].
        -- rewrite lookup_insert_eq in Hsp. injection Hsp as <-. destruct (Hc2 j it r Hj Hjr) as (s' & Hsp' & _). rewrite Hsp'. cbn.
           pose proof (Hc3 j k it it' r s' Hj Hk Hne Hjr Hkr Hsp'). lia.
        -- rewrite lookup_insert_ne in Hsp by done. by apply (Hc3 j k it it' r').
      * by apply (Hpair j it r').
      * by apply (Hpair k it' r').
      * done.
Qed.

(** What a pass may have done to the table it started from. *)
Definition progressed (parent : list nat) (s : list nat * bool) : Prop :=
  regroups parent s.1 ∧ (s.2 = false → same_groups parent s.1) ∧
  (s.2 = true → ∃ z, is_root parent z ∧ ¬ is_root s.1 z).

(** The item and the group do not meet. *)
Definition misses (item : Item) (group : nat) (entry : nat * Span) : Prop :=
  entry.1 = group ∨ members entry.2 < 2 ∨ touches_span item entry.2 = false.

Section pass.
Context (parent : list nat) (Hd : downward parent) (Hl : length parent = length items).

Lemma progressed_same s parent' : progressed parent s → same_groups s.1 parent' → progressed parent (parent', s.2).
Proof.
  intros (Hr & Hf & Ht) Hs. assert (regroups s.1 parent') as Hr' by (apply same_groups_regroups; [apply Hr|done]).
  split_and!; cbn [fst snd]; [by etransitivity|intros ?; etransitivity; [by apply Hf|done]|].
  intros [z [Hz Hnz]]%Ht. exists z. split; [done|]. intros ?. by apply Hnz, Hr'.
Qed.

Lemma absorb_step_spec index item group s entry :
  items !! index = Some item → rooted parent index group ∨ s.2 = true → is_root parent entry.1 → progressed parent s →
  ∃ s', absorb_step index item group s entry = Some s' ∧ progressed parent s' ∧
    (s'.2 = false → s.2 = false ∧ misses item group entry).
Proof.
  intros Hi Hg Hroot Hs. destruct s as [p changed], entry as [other sp]. unfold absorb_step, misses. cbn [fst snd] in *.
  destruct (Nat.eqb_spec other group) as [->|Hne]; cbn [orb]; [eexists; split_and!; eauto|].
  destruct (Nat.ltb_spec (members sp) 2); [eexists; split_and!; eauto|].
  destruct (touches_span item sp) eqn:Ht; [|eexists; split_and!; eauto].
  pose proof Hs as ((Hdp & Hlp & Hrp) & Hsame & Hwit). cbn [fst snd] in *.
  destruct (find_root_spec p index Hdp) as (p' & ra & Hr & Hra & Hsg); [apply lookup_lt_Some in Hi; lia|]. rewrite Hr. cbn [mbind option_bind].
  eexists. split; [done|]. cbn [fst snd]. split; [|done].
  pose proof (progressed_same _ p' Hs Hsg) as (Hre & _ & Hwit'). cbn [fst snd] in *. pose proof Hsg as (Hdp' & Hlp' & Hgp').
  assert (is_root p' ra) as Hrr by (eapply rooted_root, Hgp', Hra).
  assert (other < length p') as Hol by (apply lookup_lt_Some in Hroot; lia).
  destruct (unite_spec p' ra other Hdp' Hrr Hol) as (Hu & Hnew & _).
  split_and!; cbn [fst snd]; [by etransitivity|done|]. intros _. destruct changed.
  - destruct Hwit' as (z & Hz & Hnz); [done|]. exists z. split; [done|]. intros ?. by apply Hnz, Hu.
  - destruct Hg as [Hg|?]; [|done]. specialize (Hsame eq_refl).
    assert (same_groups parent p') as Hpp by (by etransitivity). assert (ra = group) as ->.
    { eapply rooted_fun; [|exact Hg]. by apply (same_groups_inv parent p index ra Hd Hsame). }
    destruct Hnew as (z & Hz & Hnz); [|done|exists z; split; [by apply Hre|done]].
    destruct Hpp as (_ & _ & Hpp). apply is_root_rooted, Hpp, is_root_rooted in Hroot; done.
Qed.

Lemma absorb_item_spec spans s entry :
  items !! entry.1 = Some entry.2 → (∀ e, e ∈ spans → is_root parent e.1) → progressed parent s →
  ∃ s', absorb_item spans s entry = Some s' ∧ progressed parent s' ∧
    (s'.2 = false → s.2 = false ∧ ∀ e group, e ∈ spans → rooted parent entry.1 group → misses entry.2 group e).
Proof.
  intros Hi Hsp Hs. destruct s as [p changed], entry as [index item]. unfold absorb_item. cbn [fst snd] in *.
  pose proof Hs as ((Hdp & Hlp & _) & Hsame & _). cbn [fst snd] in *.
  destruct (find_root_spec p index Hdp) as (p' & group & Hr & Hgr & Hsg); [apply lookup_lt_Some in Hi; lia|].
  rewrite Hr. cbn [mbind option_bind]. pose proof (progressed_same _ p' Hs Hsg) as Hs'. cbn [snd] in Hs'.
  assert (changed = false → rooted parent index group) as Hroot.
  { intros ->. by apply (same_groups_inv parent p index group Hd (Hsame eq_refl)). }
  destruct (fold_steps_inv (absorb_step index item group)
    (λ dn s', progressed parent s' ∧ (changed = true → s'.2 = true) ∧ (s'.2 = false → ∀ e, e ∈ dn → misses item group e))
    spans (p', changed)) as (s' & Hf & Hp & Hc & Hm).
  - split_and!; [done|done|]. by intros _ e ?%elem_of_nil.
  - intros dn e rest s0 Heq (Hp & Hc & Hm). destruct (absorb_step_spec index item group s0 e) as (s1 & Hs1 & Hp1 & Hm1); [done| |..|done|].
    + destruct changed; [right; by apply Hc|left; by apply Hroot].
    + apply Hsp. rewrite Heq. apply elem_of_app. right. by apply elem_of_cons; left.
    + exists s1. split_and!; [done..| |].
      * intros Hch. destruct (s1.2) eqn:E; [done|]. destruct (Hm1 eq_refl) as [Hf0 _]. rewrite (Hc Hch) in Hf0. done.
      * intros Hf1 e' [He'| ->%list_elem_of_singleton]%elem_of_app; destruct (Hm1 Hf1) as [Hf0 ?]; [by apply (Hm Hf0)|done].
  - exists s'. split_and!; [done..|]. intros Hf'. assert (changed = false) as Hch by (destruct changed; [by rewrite Hc in Hf'|done]).
    split; [done|]. intros e g He Hg. rewrite (rooted_fun _ _ _ _ Hg (Hroot Hch)). by apply Hm.
Qed.
End pass.

(** Nothing meets a group of several items but its members. *)
Definition settled (parent : list nat) : Prop :=
  ∀ r c d a b i x y item, c ≠ d → c < length items → d < length items → rooted parent c r → rooted parent d r →
    items !! a = Some x → items !! b = Some y → items !! i = Some item → rooted parent a r → rooted parent b r →
    base_start (op item) ≤ base_end (op x) → base_start (op y) ≤ base_end (op item) → rooted parent i r.

Lemma absorb_pass_spec seed parent :
  downward parent → length parent = length items →
  ∃ s, absorb_pass seed items parent = Some s ∧ progressed parent s ∧ (s.2 = false → settled parent).
Proof.
  intros Hd Hl. unfold absorb_pass. destruct (spans_spec parent Hd Hl) as (p & spans & Hf & Hs & Hc1 & Hc2 & Hc3). rewrite Hf.
  cbn [mbind option_bind]. pose proof (visit_all seed Span spans) as Hv.
  assert (∀ r s, (r, s) ∈ visit seed Span spans ↔ spans !! r = Some s) as Hvis by (intros; rewrite Hv; apply elem_of_map_to_list).
  destruct (fold_steps_inv (absorb_item (visit seed Span spans))
    (λ dn s, progressed parent s ∧ (s.2 = false → ∀ entry e group, entry ∈ dn → e ∈ visit seed Span spans →
      rooted parent entry.1 group → misses entry.2 group e)) (indexed items) (p, false)) as (s & Hfs & Hp & Hm).
  - split; [|by intros _ ? ? ? ?%elem_of_nil]. split_and!; cbn [fst snd]; [by apply same_groups_regroups|done|done].
  - intros dn [i item] rest s0 Heq [Hp Hm].
    assert (items !! i = Some item) as Hi by (apply elem_of_indexed; rewrite Heq; apply elem_of_app; right; by apply elem_of_cons; left).
    destruct (absorb_item_spec parent Hd Hl (visit seed Span spans) s0 (i, item)) as (s1 & Hs1 & Hp1 & Hm1); [done| |done|].
    { intros [r sp] He%Hvis. by apply (Hc1 r sp). }
    exists s1. split_and!; [done..|]. intros Hf1 entry e g [He| ->%list_elem_of_singleton]%elem_of_app Hev Hg.
    + by apply (Hm (proj1 (Hm1 Hf1)) entry e g).
    + by apply (proj2 (Hm1 Hf1)).
  - exists s. split_and!; [done..|]. intros Hfalse r c d a b i x y item Hcd Hc Hd' Hcr Hdr Ha Hb Hi Har Hbr Hle1 Hle2.
    destruct (rooted_total parent i Hd) as [g Hg]; [rewrite Hl; by eapply lookup_lt_Some|].
    destruct (decide (g = r)) as [->|Hne]; [done|]. exfalso.
    destruct (Hc2 a x r) as (sp & Hsp & _ & _ & Hend); [by apply elem_of_indexed|done|].
    destruct (Hc2 b y r) as (sp' & Hsp' & _ & Hstart & _); [by apply elem_of_indexed|done|]. simplify_eq.
    destruct (lookup_lt_is_Some_2 _ _ Hc) as [xc Hxc], (lookup_lt_is_Some_2 _ _ Hd') as [xd Hxd].
    pose proof (Hc3 c d xc xd r sp ltac:(by apply elem_of_indexed) ltac:(by apply elem_of_indexed) Hcd Hcr Hdr Hsp) as Hmem.
    destruct (Hm Hfalse (i, item) (r, sp) g) as [Heq|[Hlt|Ht]]; [by apply elem_of_indexed|by apply Hvis|done|..]; cbn [fst snd] in *; [done|lia|].
    unfold touches_span in Ht. apply andb_false_iff in Ht as [?%Nat.leb_gt|?%Nat.leb_gt]; lia.
Qed.

Definition root_count (parent : list nat) : nat := length (filter (λ i, parent !! i = Some i) (seq 0 (length parent))).

Lemma filter_length_lt {A} (P Q : A → Prop) `{∀ x, Decision (P x), ∀ x, Decision (Q x)} (l : list A) z :
  (∀ x, P x → Q x) → z ∈ l → Q z → ¬ P z → length (filter P l) < length (filter Q l).
Proof.
  intros HPQ Hz HQ HP. assert (∀ k, length (filter P k) ≤ length (filter Q k)) as Hle.
  { induction k as [|x k IH]; [done|]. rewrite !filter_cons. pose proof (HPQ x). repeat case_decide; simpl; try lia. tauto. }
  apply list_elem_of_split in Hz as (l1 & l2 & ->). rewrite !filter_app, !length_app, !filter_cons.
  rewrite (decide_False (P := P z)), (decide_True (P := Q z)) by done. simpl. pose proof (Hle l1). pose proof (Hle l2). lia.
Qed.

Lemma settled_same parent parent' : downward parent → same_groups parent parent' → settled parent → settled parent'.
Proof.
  intros Hd Hs Hset. assert (∀ i r, rooted parent' i r → rooted parent i r) as Hinv by (intros i r; by apply same_groups_inv).
  intros r c d a b i x y item Hcd Hc Hd' Hcr Hdr Ha Hb Hi Har Hbr Hle1 Hle2. apply Hs.
  apply (Hset r c d a b i x y item); auto.
Qed.

(** Each pass that changes something leaves fewer roots, so the loop ends, and it ends
    settled. *)
Lemma absorb_spec fuel parent :
  downward parent → length parent = length items → root_count parent < fuel →
  ∃ parent', absorb fuel items parent = Some parent' ∧ regroups parent parent' ∧ settled parent'.
Proof.
  revert parent. induction fuel as [|fuel IH]; intros parent Hd Hl Hf; [lia|]. cbn [absorb].
  destruct (absorb_pass_spec fuel parent Hd Hl) as ([p changed] & Hp & (Hre & Hsame & Hwit) & Hset). rewrite Hp.
  cbn [mbind option_bind fst snd] in *. destruct changed.
  - destruct (Hwit eq_refl) as (z & Hz & Hnz). pose proof Hre as (Hdp & Hlp & Hrp).
    destruct (IH p) as (p' & Hp' & Hre' & Hset'); [done|congruence| |exists p'; split_and!; [done|by etransitivity|done]].
    unfold root_count. rewrite Hlp. eapply Nat.lt_le_trans; [|apply (proj1 (Nat.lt_succ_r _ _) Hf)].
    apply (filter_length_lt _ _ _ z); [apply Hrp| |done..]. apply elem_of_seq. apply lookup_lt_Some in Hz. lia.
  - exists p. split_and!; [done..|]. apply (settled_same parent); auto.
Qed.

Lemma downward_seq n : downward (seq 0 n).
Proof. intros i p [? ?]%lookup_seq. lia. Qed.

Lemma rooted_seq n i r : rooted (seq 0 n) i r → i = r.
Proof. inversion 1 as [|? p ? Hp]; [done|]. apply lookup_seq in Hp as [? ?]. lia. Qed.

Lemma regroup_spec (clash : Item → Item → option bool) :
  (∀ a b, a ∈ items → b ∈ items → is_Some (clash a b)) →
  ∃ parent, regroup clash items = Some parent ∧ downward parent ∧ length parent = length items ∧ settled parent ∧
    (∀ i j, i < j → clashes clash items i j → ¬ is_root parent j) ∧
    ((∀ i j, i < j → ¬ clashes clash items i j) → parent = seq 0 (length items)).
Proof.
  intros Hcl. destruct (linking_spec clash items Hcl) as (parent & any & Hf & Hd & Hl & Hc & Hn & Hw).
  unfold regroup. rewrite Hf. cbn [mbind option_bind]. destruct any.
  - destruct (absorb_spec (S (length items)) parent Hd Hl) as (p & Hp & (Hdp & Hlp & Hrp) & Hset).
    { unfold root_count. rewrite <- Hl. apply Nat.lt_succ_r. rewrite <- (length_seq (length parent) 0) at 2. apply length_filter. }
    exists p. split_and!; [done..|congruence|done| |].
    + intros i j Hij Hcl' Hr. by destruct (Hc i j Hij Hcl') as [_ []]; apply Hrp.
    + intros Hno. destruct (Hw eq_refl) as (i & j & ? & ?). by destruct (Hno i j).
  - exists parent. split_and!; [done..| | |by intros _; apply Hn].
    + rewrite (Hn eq_refl). intros r c d a b i x y item Hcd _ _ Hcr Hdr. apply rooted_seq in Hcr, Hdr. congruence.
    + intros i j Hij Hcl'. by destruct (Hc i j Hij Hcl').
Qed.
End absorption.

(** ** Groups and their ranges *)

Lemma min_of_spec l : l ≠ [] → ∃ m, min_of l = Some m ∧ m ∈ l ∧ ∀ x, x ∈ l → m ≤ x.
Proof.
  destruct l as [|x l]; [done|]. intros _. cbn [min_of]. exists (foldl min x l). split; [done|]. revert x.
  induction l as [|y l IH]; intros x; cbn [foldl].
  - split; [by apply elem_of_cons; left|]. by intros z ->%list_elem_of_singleton.
  - destruct (IH (x `min` y)) as [Hin Hle]. split.
    + apply elem_of_cons in Hin as [Heq|Hin]; [|apply elem_of_cons; right; by apply elem_of_cons; right].
      rewrite Heq. destruct (Nat.min_spec x y) as [[_ ->]|[_ ->]]; apply elem_of_cons; [by left|right; by apply elem_of_cons; left].
    + assert (foldl min (x `min` y) l ≤ x `min` y) as Hm by (apply Hle; by apply elem_of_cons; left).
      intros z [->|[->|Hz]%elem_of_cons]%elem_of_cons; [lia|lia|]. apply Hle. by apply elem_of_cons; right.
Qed.

Lemma max_of_spec l : l ≠ [] → ∃ m, max_of l = Some m ∧ m ∈ l ∧ ∀ x, x ∈ l → x ≤ m.
Proof.
  destruct l as [|x l]; [done|]. intros _. cbn [max_of]. exists (foldl max x l). split; [done|]. revert x.
  induction l as [|y l IH]; intros x; cbn [foldl].
  - split; [by apply elem_of_cons; left|]. by intros z ->%list_elem_of_singleton.
  - destruct (IH (x `max` y)) as [Hin Hle]. split.
    + apply elem_of_cons in Hin as [Heq|Hin]; [|apply elem_of_cons; right; by apply elem_of_cons; right].
      rewrite Heq. destruct (Nat.max_spec x y) as [[_ ->]|[_ ->]]; apply elem_of_cons; [right; by apply elem_of_cons; left|by left].
    + assert (x `max` y ≤ foldl max (x `max` y) l) as Hm by (apply Hle; by apply elem_of_cons; left).
      intros z [->|[->|Hz]%elem_of_cons]%elem_of_cons; [lia|lia|]. apply Hle. by apply elem_of_cons; right.
Qed.

Section grouping.
Context `{HashOrder} (items : list Item).

(** The members of the group of a root. *)
Definition group_members (parent : list nat) (r : nat) (ms : list nat) : Prop :=
  ms ≠ [] ∧ NoDup ms ∧ ∀ i, i ∈ ms ↔ i < length items ∧ rooted parent i r.

Lemma groups_spec parent :
  downward parent → length parent = length items →
  ∃ parent' groups, fold_steps group_step (parent, ∅) (seq 0 (length items)) = Some (parent', groups) ∧
    (∀ r ms, groups !! r = Some ms → group_members parent r ms) ∧
    (∀ i r, i < length items → rooted parent i r → is_Some (groups !! r)).
Proof.
  intros Hd Hl. destruct (fold_steps_inv group_step (λ dn s, same_groups parent s.1 ∧
    (∀ r ms, s.2 !! r = Some ms → ms ≠ [] ∧ NoDup ms ∧ ∀ i, i ∈ ms ↔ i ∈ dn ∧ rooted parent i r) ∧
    (∀ i r, i ∈ dn → rooted parent i r → is_Some (s.2 !! r))) (seq 0 (length items)) (parent, ∅)) as ([p groups] & Hf & Hs & H1 & H2).
  - cbn [fst snd]. split_and!; [by apply same_groups_refl|intros ? ?; by rewrite lookup_empty|by intros ? ? ?%elem_of_nil].
  - intros dn i rest [p groups] Heq (Hs & H1 & H2). cbn [fst snd] in *.
    assert (NoDup (dn ++ i :: rest)) as Hnd by (rewrite <- Heq; apply NoDup_seq).
    assert (i < length items) as Hi.
    { assert (i ∈ seq 0 (length items)) as Hin%elem_of_seq; [|lia]. rewrite Heq. apply elem_of_app. right. by apply elem_of_cons; left. }
    assert (i ∉ dn) as Hnew by (apply NoDup_app in Hnd as (_ & Hnd & _); intros Hin; apply (Hnd i Hin); by apply elem_of_cons; left).
    pose proof Hs as (Hdp & Hlp & _). destruct (find_root_spec p i Hdp) as (p' & r & Hr & Hroot & Hs'); [lia|].
    apply (same_groups_inv parent p i r Hd Hs) in Hroot.
    unfold group_step. rewrite Hr. cbn [mbind option_bind]. eexists. split; [done|]. cbn [fst snd].
    split_and!; [by etransitivity| |].
    + intros r' ms [[<- <-]|[Hne Hms]]%lookup_insert_Some.
      * destruct (groups !! r) as [ms|] eqn:Hg; cbn [default].
        -- destruct (H1 r ms Hg) as (_ & Hnd' & Hms). split_and!.
           ++ by destruct ms.
           ++ apply NoDup_app. split_and!; [done| |apply NoDup_singleton]. intros x Hx ->%list_elem_of_singleton. by apply Hms in Hx as [? _].
           ++ intros j. rewrite !elem_of_app, Hms, !list_elem_of_singleton. split; [|tauto]. intros [?| ->]; tauto.
        -- split_and!; [done|apply NoDup_singleton|]. intros j. cbn [app]. rewrite elem_of_app, !list_elem_of_singleton. split.
           ++ intros ->. auto.
           ++ intros [[Hj|?] Hjr]; [|done]. destruct (H2 j r Hj Hjr) as [? ?]. congruence.
      * destruct (H1 r' ms Hms) as (? & ? & Hin). split_and!; [done..|]. intros j. rewrite Hin, elem_of_app, list_elem_of_singleton.
        split; [tauto|]. intros [[?| ->] Hjr]; [done|]. by rewrite (rooted_fun _ _ _ _ Hjr Hroot) in Hne.
    + intros j r' [Hj|Hj]%elem_of_app Hjr; apply lookup_insert_is_Some'.
      * right. by apply (H2 j).
      * apply list_elem_of_singleton in Hj as ->. left. by eapply rooted_fun.
  - cbn [fst snd] in *. exists p, groups. split_and!; [done| |].
    + intros r ms (? & ? & Hin)%H1. split_and!; [done..|]. intros i. rewrite Hin, elem_of_seq. split; intros []; (split; [lia|done]).
    + intros i r Hi. apply H2, elem_of_seq. lia.
Qed.

(** The range of a group is the hull of its items. *)
Definition emits (ms : list nat) (e : Emit) : Prop :=
  (∃ i item, ms = [i] ∧ items !! i = Some item ∧ e = EmitOp item) ∨
  (∃ s t, 2 ≤ length ms ∧ e = EmitRegion s t ∧
    (∀ i item, i ∈ ms → items !! i = Some item → s ≤ base_start (op item) ∧ base_end (op item) ≤ t) ∧
    (∃ i item, i ∈ ms ∧ items !! i = Some item ∧ base_start (op item) = s) ∧
    (∃ i item, i ∈ ms ∧ items !! i = Some item ∧ base_end (op item) = t)).

Lemma emit_group_spec ms :
  ms ≠ [] → (∀ i, i ∈ ms → i < length items) → ∃ e, emit_group items ms = Some e ∧ emits ms e.
Proof.
  intros Hne Hin. unfold emit_group.
  assert (∃ group, mapM (λ index, items !! index) ms = Some group ∧ Forall2 (λ i item, items !! i = Some item) ms group) as (group & Hm & HF).
  { destruct (mapM_is_Some_2 (λ index, items !! index) ms) as [group Hm].
    - apply Forall_forall. intros i Hi. by apply lookup_lt_is_Some_2, Hin.
    - exists group. split; [done|]. by apply mapM_Some_1. }
  rewrite Hm. cbn [mbind option_bind].
  assert (group ≠ []) as Hng by (intros ->; inversion HF; congruence).
  destruct (min_of_spec ((λ item, base_start (op item)) <$> group)) as (s & Hs & (x & -> & Hx)%list_elem_of_fmap & Hsle); [by intros ?%fmap_nil_inv|].
  destruct (max_of_spec ((λ item, base_end (op item)) <$> group)) as (t & Ht & (y & -> & Hy)%list_elem_of_fmap & Htle); [by intros ?%fmap_nil_inv|].
  assert (∀ item, item ∈ group → ∃ i, i ∈ ms ∧ items !! i = Some item) as Hback.
  { intros item [k Hk]%list_elem_of_lookup. destruct (Forall2_lookup_r _ _ _ _ _ HF Hk) as (i & Hi & ?). exists i.
    split; [by eapply list_elem_of_lookup_2|done]. }
  assert (2 ≤ length ms → ∃ e, Some (EmitRegion (base_start (op x)) (base_end (op y))) = Some e ∧ emits ms e) as Hregion.
  { intros Hlen. eexists. split; [done|]. right. do 2 eexists. split_and!; [done..| | |].
    - intros i item [k Hk]%list_elem_of_lookup Hi. destruct (Forall2_lookup_l _ _ _ _ _ HF Hk) as (item' & Hk' & ?). simplify_eq.
      split; [apply Hsle|apply Htle]; apply list_elem_of_fmap; exists item; (split; [done|]); by eapply list_elem_of_lookup_2.
    - destruct (Hback x Hx) as (i & ? & ?). eauto.
    - destruct (Hback y Hy) as (i & ? & ?). eauto. }
  pose proof (Forall2_length _ _ _ HF) as Hlen. destruct group as [|item [|item' group]]; [done| |].
  - destruct ms as [|i [|]]; simpl in Hlen; try lia. eexists. split; [done|]. left. inversion HF; subst. eauto.
  - rewrite Hs, Ht. cbn [mbind option_bind]. apply Hregion. rewrite Hlen. simpl. lia.
Qed.
End grouping.

(** ** Ranges apart *)

Definition shares (x y : Item) : Prop := side x = BothSides ∨ side y = BothSides ∨ side x = side y.

Definition range (x : Item) : nat * nat := (base_start (op x), base_end (op x)).

(** One range ends before the other starts. *)
Definition strictly_apart (p q : nat * nat) : Prop := p.2 < q.1 ∨ q.2 < p.1.

(** They may also meet end to end, where neither is a point. *)
Definition abut (p q : nat * nat) : Prop := p.1 < p.2 ∧ q.1 < q.2 ∧ (p.2 = q.1 ∨ q.2 = p.1).

Definition apart (p q : nat * nat) : Prop := strictly_apart p q ∨ abut p q.

(** Cross-side items that do not conflict are apart. *)
Lemma conflicting_apart `{UnicodeTable} config words breaks x y :
  ¬ shares x y → base_start (op x) ≤ base_end (op x) → base_start (op y) ≤ base_end (op y) →
  conflicting config words breaks x y = Some false → apart (range x) (range y).
Proof.
  intros Hsh Hx Hy. unfold conflicting, apart, strictly_apart, abut, is_point, range, shares in *. cbn [fst snd].
  rewrite !bool_decide_eq_false_2 by tauto. cbn [orb].
  destruct (op x) as [s t rs rt], (op y) as [s' t' rs' rt']. cbn [base_start base_end] in *.
  destruct (Nat.leb_spec s s'); cbn [base_start base_end];
    repeat first [progress cbn [andb] | match goal with
      | |- context [(?a <? ?b)] => destruct (Nat.ltb_spec a b)
      | |- context [(?a <=? ?b)] => destruct (Nat.leb_spec a b)
      | |- context [(?a =? ?b)] => destruct (Nat.eqb_spec a b) end]; intros; simplify_eq; try lia.
Qed.

Section apart.
Context `{HashOrder} (items : list Item) (clash : Item → Item → option bool) (parent : list nat).
Context (Hd : downward parent) (Hl : length parent = length items) (Hset : settled items parent).
Context (Hroots : ∀ i j, i < j → clashes clash items i j → ¬ is_root parent j).
Context (Hclash : ∀ x y, x ∈ items → y ∈ items → ¬ shares x y → apart (range x) (range y) ∨ clash x y = Some true).
Context (Hwf : ∀ x, x ∈ items → base_start (op x) ≤ base_end (op x)).
Context (Hsides : ∀ i j x y, items !! i = Some x → items !! j = Some y → i ≠ j → shares x y → strictly_apart (range x) (range y)).

Lemma apart_sym p q : apart p q → apart q p.
Proof. unfold apart, strictly_apart, abut. lia. Qed.

Lemma settled_multi r ms i x a b xa xb :
  group_members items parent r ms → 2 ≤ length ms → items !! i = Some x → a ∈ ms → b ∈ ms → items !! a = Some xa → items !! b = Some xb →
  base_start (op x) ≤ base_end (op xa) → base_start (op xb) ≤ base_end (op x) → i ∈ ms.
Proof.
  intros (Hne & Hnd & Hin) Hlen Hi Ha Hb Hxa Hxb H1 H2. apply Hin. split; [by eapply lookup_lt_Some|].
  destruct ms as [|c [|d ms]]; simpl in Hlen; try lia.
  assert (c ≠ d) as Hcd by (apply NoDup_cons in Hnd as [Hc _]; intros ->; apply Hc; by apply elem_of_cons; left).
  assert (c ∈ c :: d :: ms) as [Hcl Hcr]%Hin by (by apply elem_of_cons; left).
  assert (d ∈ c :: d :: ms) as [Hdl Hdr]%Hin by (apply elem_of_cons; right; by apply elem_of_cons; left).
  apply Hin in Ha as [_ Ha], Hb as [_ Hb]. apply (Hset r c d a b i xa xb x); done.
Qed.

(** Single items of different groups. *)
Lemma singles_apart i j x y :
  items !! i = Some x → items !! j = Some y → i ≠ j → is_root parent i → is_root parent j →
  (shares x y ∧ strictly_apart (range x) (range y)) ∨ (¬ shares x y ∧ apart (range x) (range y)).
Proof.
  intros Hi Hj Hne Hri Hrj. destruct (decide (shares x y)) as [Hs|Hs]; [left; split; [done|by apply (Hsides i j)]|].
  right. split; [done|]. assert (x ∈ items) as Hx by (by eapply list_elem_of_lookup_2).
  assert (y ∈ items) as Hy by (by eapply list_elem_of_lookup_2). destruct (decide (i < j)).
  - destruct (Hclash x y Hx Hy Hs) as [|Hc]; [done|]. exfalso. apply (Hroots i j); [done| |done]. by exists x, y.
  - destruct (Hclash y x Hy Hx) as [?|Hc]; [unfold shares in *; intuition congruence|by apply apart_sym|].
    exfalso. apply (Hroots j i); [lia| |done]. by exists y, x.
Qed.

Lemma single_root r i : group_members items parent r [i] → is_root parent i.
Proof.
  intros (_ & _ & Hin). assert (i ∈ [i]) as [Hi Hr]%Hin by (by apply list_elem_of_singleton).
  assert (r ∈ [i]) as ->%list_elem_of_singleton; [|by eapply rooted_root].
  apply Hin. pose proof (rooted_le _ _ _ Hd Hr). split; [lia|]. apply is_root_rooted; [done|]. by eapply rooted_root.
Qed.

Lemma holds_disjoint r r' ms ms' i : r ≠ r' → group_members items parent r ms → group_members items parent r' ms' → i ∈ ms → i ∈ ms' → False.
Proof. intros Hne (_ & _ & H1) (_ & _ & H2) [_ Hi]%H1 [_ Hi']%H2. by rewrite (rooted_fun _ _ _ _ Hi Hi') in Hne. Qed.

Lemma region_apart r r' ms ms' s t e' :
  r ≠ r' → group_members items parent r ms → group_members items parent r' ms' → emits items ms (EmitRegion s t) → emits items ms' e' →
  strictly_apart (s, t) (emit_range e').
Proof.
  intros Hne Hh Hh' [(? & ? & _ & _ & [=])|(? & ? & Hlen & [= <- <-] & Hall & (b & xb & Hb & Hxb & Hs) & (a & xa & Ha & Hxa & Ht))] He'.
  destruct He' as [(i & x & -> & Hi & ->)|(s' & t' & Hlen' & -> & Hall' & (b' & xb' & Hb' & Hxb' & Hs') & (a' & xa' & Ha' & Hxa' & Ht'))];
    unfold strictly_apart; cbn [emit_range fst snd].
  - destruct (decide (t < base_start (op x) ∨ base_end (op x) < s)) as [|Hn]; [done|]. exfalso.
    apply (holds_disjoint r r' ms [i] i); [done..| |by apply list_elem_of_singleton].
    apply (settled_multi r ms i x a b xa xb); (done || lia).
  - destruct (decide (t < s' ∨ t' < s)) as [|Hn]; [done|]. exfalso. destruct (decide (s ≤ s')).
    + pose proof (Hwf xb' ltac:(by eapply list_elem_of_lookup_2)). apply (holds_disjoint r r' ms ms' b'); [done..| |done].
      apply (settled_multi r ms b' xb' a b xa xb); (done || lia).
    + pose proof (Hwf xb ltac:(by eapply list_elem_of_lookup_2)). apply (holds_disjoint r r' ms ms' b); [done..|].
      apply (settled_multi r' ms' b xb a' b' xa' xb'); (done || lia).
Qed.

(** The ranges of two groups are apart, and strictly so unless both hold one item. *)
Lemma emits_apart r r' ms ms' e e' :
  r ≠ r' → group_members items parent r ms → group_members items parent r' ms' → emits items ms e → emits items ms' e' →
  apart (emit_range e) (emit_range e').
Proof.
  intros Hne Hh Hh' He He'. destruct e as [x|s t].
  - destruct e' as [y|s' t'].
    + destruct He as [(i & ? & -> & Hi & [= <-])|(? & ? & _ & [=] & _)], He' as [(j & ? & -> & Hj & [= <-])|(? & ? & _ & [=] & _)].
      destruct (decide (i = j)) as [->|Hij].
      { destruct (holds_disjoint r r' [j] [j] j); [done..|by apply list_elem_of_singleton|by apply list_elem_of_singleton]. }
      destruct (singles_apart i j x y) as [[_ ?]|[_ ?]]; [done..|by eapply single_root|by eapply single_root|by left|done].
    + apply apart_sym. left. by apply (region_apart r' r ms' ms).
  - left. by apply (region_apart r r' ms ms').
Qed.

Definition inside (p q : nat * nat) : Prop := q.1 ≤ p.1 ∧ p.2 ≤ q.2.
#[export] Instance inside_dec p q : Decision (inside p q).
Proof. unfold inside. apply _. Defined.

Lemma member_inside ms e i x : emits items ms e → i ∈ ms → items !! i = Some x → inside (range x) (emit_range e).
Proof.
  intros [(j & y & -> & Hj & ->)|(s & t & _ & -> & Hall & _)] Hi Hx; unfold inside.
  - apply list_elem_of_singleton in Hi as ->. by simplify_eq.
  - by apply (Hall i x).
Qed.

(** An item is inside the range of its own group only. *)
Lemma inside_own r r' ms ms' e e' i x :
  group_members items parent r ms → group_members items parent r' ms' → emits items ms e → emits items ms' e' →
  i ∈ ms → items !! i = Some x → inside (range x) (emit_range e') → r = r'.
Proof.
  intros Hh Hh' He He' Hi Hx Hin. destruct (decide (r = r')) as [|Hne]; [done|]. exfalso.
  pose proof (member_inside ms e i x He Hi Hx) as Hown. pose proof (Hwf x ltac:(by eapply list_elem_of_lookup_2)) as Hwfx.
  destruct (emits_apart r r' ms ms' e e' Hne Hh Hh' He He') as [Hs|Ha].
  - unfold strictly_apart, inside, range in *. cbn [fst snd] in *. lia.
  - destruct e as [y|s t].
    + destruct He as [(j & ? & -> & Hj & [= <-])|(? & ? & _ & [=] & _)]. apply list_elem_of_singleton in Hi as ->. simplify_eq.
      unfold abut, inside, range in *. cbn [fst snd emit_range] in *. lia.
    + pose proof (region_apart r r' ms ms' s t e' Hne Hh Hh' He He'). unfold strictly_apart, inside, range in *. cbn [fst snd emit_range] in *. lia.
Qed.

Definition exclusive (e e' : Emit) : Prop :=
  apart (emit_range e) (emit_range e') ∧
  ∀ i x, items !! i = Some x → inside (range x) (emit_range e) → inside (range x) (emit_range e') → False.

#[local] Instance exclusive_sym : Symmetric exclusive.
Proof. intros e e' [Ha Hx]. split; [by apply apart_sym|]. intros i x Hi H1 H2. by apply (Hx i x). Qed.

Definition follows (e e' : Emit) : Prop :=
  (emit_range e).2 ≤ (emit_range e').1 ∧
  ∀ i x, items !! i = Some x → inside (range x) (emit_range e) → inside (range x) (emit_range e') → False.

#[local] Instance emit_key_le_total : Total emit_key_le.
Proof. intros o o'. unfold emit_key_le, pair_le. lia. Qed.
#[local] Instance emit_key_le_trans : Transitive emit_key_le.
Proof. intros o o' o''. unfold emit_key_le, pair_le. lia. Qed.

Definition visited_ok (vs : list (nat * list nat)) : Prop :=
  NoDup vs.*1 ∧ (∀ v, v ∈ vs → group_members items parent v.1 v.2) ∧
  (∀ i, i < length items → ∃ v, v ∈ vs ∧ i ∈ v.2).

Lemma visited_exclusive vs es :
  visited_ok vs → Forall2 (λ v e, emits items v.2 e) vs es → StronglySorted exclusive es.
Proof.
  intros (Hnd & Hh & Hall) HF.
  assert (∀ i x, items !! i = Some x → ∃ v e, v ∈ vs ∧ i ∈ v.2 ∧ emits items v.2 e) as Hof.
  { intros i x Hi%lookup_lt_Some. destruct (Hall i Hi) as (v & Hv & Hin). apply list_elem_of_lookup in Hv as Hk. destruct Hk as [k Hk].
    destruct (Forall2_lookup_l _ _ _ _ _ HF Hk) as (e & _ & He). by exists v, e. }
  clear Hall. assert (∀ v, v ∈ vs → v ∈ vs) as Hsub by done. revert Hsub Hnd. 
  assert (∀ vs' es', Forall2 (λ v e, emits items v.2 e) vs' es' → (∀ v, v ∈ vs' → v ∈ vs) → NoDup vs'.*1 → StronglySorted exclusive es') as Hgo;
    [|by eauto].
  clear HF. induction 1 as [|v e vs' es' He HF IH]; intros Hsub Hnd; constructor.
  - apply IH; [intros w Hw; apply Hsub; by apply elem_of_cons; right|]. rewrite fmap_cons in Hnd. by apply NoDup_cons in Hnd as [_ ?].
  - apply Forall_forall. intros e' [k Hk]%list_elem_of_lookup. destruct (Forall2_lookup_r _ _ _ _ _ HF Hk) as (v' & Hk' & He').
    apply list_elem_of_lookup_2 in Hk'. rewrite fmap_cons in Hnd. apply NoDup_cons in Hnd as [Hv _].
    assert (v.1 ≠ v'.1) as Hne by (intros Heq; apply Hv; rewrite Heq; by apply list_elem_of_fmap_2).
    assert (group_members items parent v.1 v.2) by (apply Hh, Hsub; by apply elem_of_cons; left).
    assert (group_members items parent v'.1 v'.2) by (apply Hh, Hsub; by apply elem_of_cons; right).
    split; [by apply (emits_apart v.1 v'.1 v.2 v'.2)|]. intros i x Hi Hin1 Hin2. destruct (Hof i x Hi) as (w & f & Hw & Hiw & Hf).
    apply Hne. transitivity w.1.
    + symmetry. apply (inside_own w.1 v.1 w.2 v.2 f e i x); auto.
    + apply (inside_own w.1 v'.1 w.2 v'.2 f e' i x); auto.
Qed.

Lemma exclusive_follows e e' : (emit_range e').1 ≤ (emit_range e').2 → emit_key_le e e' → exclusive e e' → follows e e'.
Proof.
  intros Hw Hk [Ha Hx]. split; [|done]. unfold emit_key_le, pair_le, apart, strictly_apart, abut in *. lia.
Qed.

Lemma emits_wf ms e :
  emits items ms e →
  (∃ i x, items !! i = Some x ∧ base_start (op x) = (emit_range e).1) ∧
  (∃ i x, items !! i = Some x ∧ base_end (op x) = (emit_range e).2) ∧ (emit_range e).1 ≤ (emit_range e).2.
Proof.
  intros [(j & y & -> & Hj & ->)|(s & t & _ & -> & Hall & (b & xb & Hb & Hxb & Hs) & (a & xa & Ha & Hxa & Ht))]; cbn [emit_range fst snd].
  - split_and!; [eauto..|]. apply Hwf. by eapply list_elem_of_lookup_2.
  - split_and!; [eauto..|]. destruct (Hall b xb Hb Hxb). pose proof (Hwf xb ltac:(by eapply list_elem_of_lookup_2)). lia.
Qed.

(** The emission: in order, each item in one range, and a single item alone in its
    own. *)
Lemma build_emits_spec :
  ∃ es, build_emits items parent = Some es ∧ StronglySorted follows es ∧
    (∀ i x, items !! i = Some x → ∃ e, e ∈ es ∧ inside (range x) (emit_range e)) ∧
    (∀ e, e ∈ es → ∃ ms, emits items ms e) ∧
    (∀ x, EmitOp x ∈ es → ∃ i, items !! i = Some x ∧ ∀ j y, items !! j = Some y → inside (range y) (range x) → j = i) ∧
    (parent = seq 0 (length items) → ∀ e, e ∈ es → ∃ x, e = EmitOp x).
Proof.
  destruct (groups_spec items parent Hd Hl) as (p & groups & Hf & Hg1 & Hg2). unfold build_emits. rewrite Hf. cbn [mbind option_bind].
  pose proof (visit_all 0 (list nat) groups) as Hv. set (vs := visit 0 (list nat) groups) in *.
  assert (∀ r ms, (r, ms) ∈ vs ↔ groups !! r = Some ms) as Hvs by (intros; rewrite Hv; apply elem_of_map_to_list).
  assert (visited_ok vs) as Hok.
  { split_and!; [rewrite Hv; apply NoDup_fst_map_to_list|by intros [r ms] ?%Hvs%Hg1|]. intros i Hi.
    destruct (rooted_total parent i Hd) as [r Hr]; [lia|]. destruct (Hg2 i r Hi Hr) as [ms Hms]. exists (r, ms).
    split; [by apply Hvs|]. destruct (Hg1 r ms Hms) as (_ & _ & Hin). by apply Hin. }
  destruct (mapM_is_Some_2 (λ entry : nat * list nat, emit_group items entry.2) vs) as [es Hes].
  { apply Forall_forall. intros v Hin. destruct Hok as (_ & Hh & _). destruct (Hh v Hin) as (Hne & _ & Hms).
    destruct (emit_group_spec items v.2 Hne) as (e & ? & _); [by intros i [? _]%Hms|by exists e]. }
  rewrite Hes. cbn [mbind option_bind]. eexists. split; [done|].
  assert (Forall2 (λ v e, emits items v.2 e) vs es) as HF.
  { apply mapM_Some_1 in Hes. apply Forall2_same_length_lookup. split; [by eapply Forall2_length|].
    intros k v e Hk Hk'. destruct Hok as (_ & Hh & _). destruct (Hh v ltac:(by eapply list_elem_of_lookup_2)) as (Hne & _ & Hms).
    destruct (emit_group_spec items v.2 Hne) as (e' & He' & ?); [by intros i [? _]%Hms|].
    pose proof (Forall2_lookup_lr _ _ _ _ _ _ Hes Hk Hk') as Heq. simpl in Heq. by simplify_eq. }
  assert (∀ e, e ∈ merge_sort emit_key_le es ↔ e ∈ es) as Hsort by (intros; by rewrite merge_sort_Permutation).
  assert (∀ e, e ∈ es → ∃ v, v ∈ vs ∧ emits items v.2 e) as Hback.
  { intros e [k Hk]%list_elem_of_lookup. destruct (Forall2_lookup_r _ _ _ _ _ HF Hk) as (v & Hv' & ?). exists v.
    split; [by eapply list_elem_of_lookup_2|done]. }
  assert (∀ i x, items !! i = Some x → ∃ v e, v ∈ vs ∧ i ∈ v.2 ∧ e ∈ es ∧ emits items v.2 e) as Hof.
  { intros i x Hi%lookup_lt_Some. destruct Hok as (_ & _ & Hall). destruct (Hall i Hi) as (v & Hv' & Hin).
    apply list_elem_of_lookup in Hv' as Hk. destruct Hk as [k Hk].
    destruct (Forall2_lookup_l _ _ _ _ _ HF Hk) as (e & He & ?). exists v, e. split_and!; [done..| |done]. by eapply list_elem_of_lookup_2. }
  split_and!.
  - eapply (sorted_both emit_key_le exclusive); [|by apply (StronglySorted_merge_sort emit_key_le)|].
    + intros e e' _ (v & _ & He)%Hsort%Hback. apply exclusive_follows. by destruct (emits_wf _ _ He) as (_ & _ & ?).
    + eapply pairwise_permutation; [apply _|symmetry; apply merge_sort_Permutation|by apply (visited_exclusive vs)].
  - intros i x Hi. destruct (Hof i x Hi) as (v & e & _ & Hin & He & Hem). exists e. split; [by apply Hsort|]. by apply (member_inside v.2 e i).
  - intros e (v & _ & He)%Hsort%Hback. eauto.
  - intros x (v & Hv' & He)%Hsort%Hback. pose proof He as [(i & ? & Hms & Hi & [= <-])|(? & ? & _ & [=] & _)]. exists i. split; [done|].
    intros j y Hj Hin. destruct (Hof j y Hj) as (w & f & Hw & Hjw & _ & Hf'). destruct Hok as (_ & Hh & _).
    assert (w.1 = v.1) as Heq by (by apply (inside_own w.1 v.1 w.2 v.2 f (EmitOp x) j y); auto).
    pose proof (Hh w Hw) as (_ & _ & Hhw). pose proof (Hh v Hv') as (_ & _ & Hhv). rewrite Heq in Hhw.
    apply Hhw, Hhv in Hjw. rewrite Hms in Hjw. by apply list_elem_of_singleton in Hjw.
  - intros Hpar e (v & Hv' & He)%Hsort%Hback. destruct He as [(i & x & _ & _ & ->)|(s & t & Hlen & _)]; [by exists x|].
    destruct Hok as (_ & Hh & _). destruct (Hh v Hv') as (_ & Hnd & Hin). exfalso. destruct v as [r [|c [|d ms]]]; simpl in Hlen; try lia.
    cbn [fst snd] in *. assert (c = d); [|subst; apply NoDup_cons in Hnd as [Hc _]; apply Hc; by apply elem_of_cons; left].
    rewrite Hpar in Hin. transitivity r; [|symmetry]; apply (rooted_seq (length items)); apply Hin; [by apply elem_of_cons; left|].
    apply elem_of_cons; right; by apply elem_of_cons; left.
Qed.
End apart.

(** ** Items of two scripts *)

Definition op_range (o : EditOp) : nat * nat := (base_start o, base_end o).

Section collapse.
Context (ours : list ascii) (ours_tokens : list Token) (theirs : list ascii) (theirs_tokens : list Token).
Context (ours_script theirs_script : list EditOp).
Abbreviation ours_text o := (token_text ours ours_tokens (repl_start o, repl_end o)).
Abbreviation theirs_text o := (token_text theirs theirs_tokens (repl_start o, repl_end o)).
Context (Hours : ∀ o, o ∈ ours_script → is_Some (ours_text o)).
Context (Htheirs : ∀ o, o ∈ theirs_script → is_Some (theirs_text o)).

(** The same change on both sides. *)
Definition converges (o t : EditOp) : Prop := op_range t = op_range o ∧ theirs_text t = ours_text o.

Lemma find_convergent_spec used o index script :
  o ∈ ours_script → script = drop index theirs_script → length used = length theirs_script →
  ∃ found, find_convergent ours ours_tokens theirs theirs_tokens used o index script = Some found ∧
    match found with
    | Some k => ∃ t, theirs_script !! k = Some t ∧ used !! k = Some false ∧ converges o t
    | None => ∀ k t, index ≤ k → theirs_script !! k = Some t → used !! k = Some false → ¬ converges o t
    end.
Proof.
  intros Ho. revert index. induction script as [|t script IH]; intros index Hdrop Hlen; cbn [find_convergent].
  { exists None. split; [done|]. intros k t Hk Ht. symmetry in Hdrop. apply (f_equal length) in Hdrop. rewrite length_drop in Hdrop.
    apply lookup_lt_Some in Ht. simpl in Hdrop. lia. }
  assert (theirs_script !! index = Some t) as Ht by (rewrite <- (Nat.add_0_r index), <- lookup_drop, <- Hdrop; done).
  assert (script = drop (S index) theirs_script) as Hdrop' by (rewrite (drop_S _ t index Ht) in Hdrop; by injection Hdrop).
  destruct (lookup_lt_is_Some_2 used index) as [u Hu]; [rewrite Hlen; by eapply lookup_lt_Some|]. rewrite Hu. cbn [mbind option_bind].
  destruct (IH (S index) Hdrop' Hlen) as (found & Hf & Hspec).
  assert ((used !! index = Some false → ¬ converges o t) →
    ∃ found0, find_convergent ours ours_tokens theirs theirs_tokens used o (S index) script = Some found0 ∧
    match found0 with
    | Some k => ∃ t, theirs_script !! k = Some t ∧ used !! k = Some false ∧ converges o t
    | None => ∀ k t, index ≤ k → theirs_script !! k = Some t → used !! k = Some false → ¬ converges o t
    end) as Hskip.
  { intros Hno. exists found. split; [done|]. destruct found as [k|]; [done|]. intros k t' Hk Ht' Hu'.
    destruct (decide (k = index)) as [->|]; [simplify_eq; by apply Hno|]. apply (Hspec k); [lia|done..]. }
  destruct u; cbn [negb andb]; [apply Hskip; congruence|].
  destruct (Nat.eqb_spec (base_start t) (base_start o)) as [Hs|Hs]; cbn [andb]; [|apply Hskip; intros _ [Hr _]; by injection Hr].
  destruct (Nat.eqb_spec (base_end t) (base_end o)) as [He|He]; cbn [andb]; [|apply Hskip; intros _ [Hr _]; by injection Hr].
  destruct (Htheirs t) as [tt Htt]; [by eapply list_elem_of_lookup_2|]. destruct (Hours o Ho) as [ot Hot]. rewrite Htt, Hot. cbn [mbind option_bind].
  destruct (bool_decide_reflect (tt = ot)) as [->|Hne].
  - exists (Some index). split; [done|]. exists t. split_and!; [done..|]. split; [unfold op_range; congruence|congruence].
  - apply Hskip. intros _ [_ Hc]. congruence.
Qed.

Definition taken (used : list bool) (script : list EditOp) : list EditOp :=
  mjoin (zip_with (λ (u : bool) o, if u then [o] else []) used script).

Lemma taken_insert used script k t :
  script !! k = Some t → used !! k = Some false → taken (<[ k := true ]> used) script ≡ₚ t :: taken used script.
Proof.
  revert used k. induction script as [|o script IH]; intros [|u used] [|k] Ht Hu; simplify_eq/=; [done|].
  unfold taken in *. cbn [zip_with mjoin list_join]. destruct u; cbn [app].
  - rewrite perm_swap. apply perm_skip. by apply (IH used k).
  - by apply (IH used k).
Qed.

Lemma taken_unused used script :
  length used = length script → taken used script ++ (op <$> unused used script) ≡ₚ script.
Proof.
  revert used. induction script as [|o script IH]; intros [|u used] Hl; simplify_eq/=; [done|].
  unfold taken, unused in *. cbn [zip_with mjoin list_join]. destruct u; cbn [app].
  - apply perm_skip. by apply IH.
  - rewrite fmap_cons. cbn [op]. rewrite <- Permutation_middle. apply perm_skip. by apply IH.
Qed.

Record collapsed (dn : list EditOp) (used : list bool) (its : list Item) : Prop := {
  co_ops : op <$> its = dn;
  co_sides : Forall (λ it, side it ≠ TheirsSide) its;
  co_used : length used = length theirs_script;
  co_taken : op_range <$> (op <$> filter (λ it, side it = BothSides) its) ≡ₚ op_range <$> taken used theirs_script;
  co_both : ∀ it, it ∈ its → side it = BothSides →
    ∃ k t, theirs_script !! k = Some t ∧ used !! k = Some true ∧ converges (op it) t;
  co_partner : ∀ k t, theirs_script !! k = Some t → used !! k = Some true →
    ∃ it, it ∈ its ∧ side it = BothSides ∧ converges (op it) t;
  co_ours : NoDup (op_range <$> dn) → ∀ it, it ∈ its → side it = OursSide → ∀ t, t ∈ theirs_script → ¬ converges (op it) t;
}.

Lemma collapse_step_spec dn o used its :
  o ∈ ours_script → collapsed dn used its →
  ∃ used' its', collapse_step ours ours_tokens theirs theirs_tokens theirs_script (used, its) o = Some (used', its') ∧
    collapsed (dn ++ [o]) used' its'.
Proof.
  intros Ho [Hops Hsides Hused Htaken Hboth Hpart Hno]. unfold collapse_step.
  destruct (find_convergent_spec used o 0 theirs_script Ho ltac:(by rewrite drop_0) Hused) as (found & Hf & Hspec). rewrite Hf. cbn [mbind option_bind].
  destruct found as [k|].
  - destruct Hspec as (t & Ht & Hu & Hc). do 2 eexists. split; [done|]. split.
    + rewrite fmap_app, Hops. done.
    + apply Forall_app. split; [done|]. by constructor.
    + by rewrite length_insert.
    + rewrite filter_app, !fmap_app, Htaken, (taken_insert _ _ k t Ht Hu), fmap_cons. rewrite filter_cons_True by done.
      rewrite filter_nil. cbn. destruct Hc as [-> _]. symmetry. apply Permutation_cons_append.
    + intros it [Hit| ->%list_elem_of_singleton]%elem_of_app Hs.
      * destruct (Hboth it Hit Hs) as (k' & t' & ? & ? & ?). exists k', t'. split_and!; [done| |done].
        destruct (decide (k' = k)) as [->|]; [congruence|]. by rewrite list_lookup_insert_ne.
      * exists k, t. split_and!; [done| |done]. apply list_lookup_insert_eq. by eapply lookup_lt_Some.
    + intros k' t' Ht' [(<- & _)|[_ Hu']]%list_lookup_insert_Some.
      * simplify_eq. exists (mkItem BothSides o). split_and!; [|done..]. apply elem_of_app. right. by apply list_elem_of_singleton.
      * destruct (Hpart k' t' Ht' Hu') as (it & ? & ? & ?). exists it. split_and!; [|done..]. apply elem_of_app. by left.
    + intros Hnd it [Hit| ->%list_elem_of_singleton]%elem_of_app Hs; [|done]. apply Hno; [|done..].
      rewrite fmap_app in Hnd. by apply NoDup_app in Hnd as [? _].
  - do 2 eexists. split; [done|]. split; try done.
    + rewrite fmap_app, Hops. done.
    + apply Forall_app. split; [done|]. by constructor.
    + rewrite filter_app, fmap_app, filter_cons_False by done. by rewrite filter_nil, app_nil_r.
    + intros it [Hit| ->%list_elem_of_singleton]%elem_of_app Hs; [by apply Hboth|done].
    + intros k t Ht Hu. destruct (Hpart k t Ht Hu) as (it & ? & ? & ?). exists it. split_and!; [|done..]. apply elem_of_app. by left.
    + intros Hnd it Hin Hs. rewrite fmap_app in Hnd. pose proof Hnd as (Hnd' & Hnew & _)%NoDup_app.
      apply elem_of_app in Hin as [Hit| ->%list_elem_of_singleton]; [by apply Hno|].
      intros t [k Ht]%list_elem_of_lookup Hc. cbn [op] in Hc.
      destruct (lookup_lt_is_Some_2 used k) as [u Hu]; [rewrite Hused; by eapply lookup_lt_Some|]. destruct u.
      * destruct (Hpart k t Ht Hu) as (it & Hit & _ & [Hr _]). destruct Hc as [Hr' _]. apply (Hnew (op_range o)).
        -- rewrite <- Hr', Hr, <- Hops. by apply list_elem_of_fmap_2, list_elem_of_fmap_2.
        -- cbn. by apply list_elem_of_singleton.
      * apply (Hspec k t); [lia|done..].
Qed.

Lemma build_items_spec :
  ∃ used its items, build_items ours ours_tokens theirs theirs_tokens ours_script theirs_script = Some items ∧
    items ≡ₚ its ++ unused used theirs_script ∧ collapsed ours_script used its.
Proof.
  destruct (fold_steps_inv (collapse_step ours ours_tokens theirs theirs_tokens theirs_script)
    (λ dn s, collapsed dn s.1 s.2) ours_script (replicate (length theirs_script) false, [])) as ([used its] & Hf & Hc).
  - split; try done.
    + apply length_replicate.
    + cbn [fst snd]. assert (∀ l, taken (replicate (length l) false) l = []) as Hnone by (induction l; done). by rewrite Hnone.
    + by intros it ?%elem_of_nil.
    + intros k t _ [? _]%lookup_replicate. done.
    + by intros _ it ?%elem_of_nil.
  - intros dn o rest [used its] Heq Hc. cbn [fst snd] in *. destruct (collapse_step_spec dn o used its) as (u & i & ? & ?); [|done|].
    + rewrite Heq. apply elem_of_app. right. by apply elem_of_cons; left.
    + by exists (u, i).
  - unfold build_items. rewrite Hf. cbn [mbind option_bind fst snd] in *. exists used, its. eexists. split_and!; [done| |done].
    apply merge_sort_Permutation.
Qed.
End collapse.

(** A script in order: its ranges are strictly apart. *)
Definition in_order (script : list EditOp) : Prop :=
  StronglySorted (λ o o', base_end o < base_start o') script ∧ ∀ o, o ∈ script → base_start o ≤ base_end o.

Lemma in_order_ranges script :
  in_order script → NoDup (op_range <$> script) ∧
  ∀ p q, p ∈ op_range <$> script → q ∈ op_range <$> script → p ≠ q → strictly_apart p q.
Proof.
  intros [Hs Hwf]. split.
  - induction Hs as [|o script Hs IH HF]; [constructor|]. rewrite fmap_cons. constructor.
    + intros (o' & Heq & Ho')%list_elem_of_fmap. rewrite Forall_forall in HF. specialize (HF o' Ho'). injection Heq as He1 He2.
      pose proof (Hwf o ltac:(by apply elem_of_cons; left)). lia.
    + apply IH. intros o' Ho'. apply Hwf. by apply elem_of_cons; right.
  - intros p q (o & -> & Ho)%list_elem_of_fmap (o' & -> & Ho')%list_elem_of_fmap Hne.
    apply list_elem_of_lookup in Ho as [i Hi], Ho' as [j Hj]. destruct (lt_eq_lt_dec i j) as [[Hlt| ->]|Hlt]; [left|congruence|right].
    + by apply (sorted_lookup _ _ _ _ _ _ Hs Hlt Hi Hj).
    + by apply (sorted_lookup _ _ _ _ _ _ Hs Hlt Hj Hi).
Qed.

Lemma filter_distinct {A B} (f : A → B) (P : A → Prop) `{∀ x, Decision (P x)} (l : list A) i j x y :
  NoDup (f <$> filter P l) → l !! i = Some x → l !! j = Some y → i ≠ j → P x → P y → f x ≠ f y.
Proof.
  assert (∀ l j z w, NoDup (f <$> filter P (z :: l)) → l !! j = Some w → P z → P w → f z ≠ f w) as Hhead.
  { clear. intros l j z w Hnd Hj Hz Hw Heq. rewrite filter_cons_True, fmap_cons in Hnd by done. apply NoDup_cons in Hnd as [Hnew _].
    apply Hnew. rewrite Heq. apply list_elem_of_fmap_2, list_elem_of_filter. split; [done|]. by eapply list_elem_of_lookup_2. }
  revert i j. induction l as [|z l IH]; intros i j Hnd Hi Hj Hne Hx Hy; [done|].
  destruct i as [|i], j as [|j]; cbn in Hi, Hj; simplify_eq.
  - by apply (Hhead l j).
  - intros Heq. symmetry in Heq. revert Heq. by apply (Hhead l i).
  - apply (IH i j); [|done..|lia|done|done]. rewrite filter_cons in Hnd. case_decide; [|done]. rewrite fmap_cons in Hnd.
    by apply NoDup_cons in Hnd as [_ ?].
Qed.

Section item_facts.
Context (ours : list ascii) (ours_tokens : list Token) (theirs : list ascii) (theirs_tokens : list Token).
Context (ours_script theirs_script : list EditOp) (Ho : in_order ours_script) (Ht : in_order theirs_script).

Record items_ok (items : list Item) : Prop := {
  io_ours : ∀ o, o ∈ ours_script → ∃ i it, items !! i = Some it ∧ op it = o ∧ side it ≠ TheirsSide;
  io_theirs : ∀ t, t ∈ theirs_script → ∃ i it, items !! i = Some it ∧ range it = op_range t ∧
    ((side it = TheirsSide ∧ op it = t) ∨ (side it = BothSides ∧ converges ours ours_tokens theirs theirs_tokens (op it) t));
  io_from_ours : ∀ it, it ∈ items → side it ≠ TheirsSide → op it ∈ ours_script;
  io_from_theirs : ∀ it, it ∈ items → side it = TheirsSide → op it ∈ theirs_script;
  io_both : ∀ it, it ∈ items → side it = BothSides →
    ∃ t, t ∈ theirs_script ∧ converges ours ours_tokens theirs theirs_tokens (op it) t;
  io_sides : ∀ i j x y, items !! i = Some x → items !! j = Some y → i ≠ j → shares x y → strictly_apart (range x) (range y);
}.

Lemma elem_of_unused used script it :
  it ∈ unused used script ↔ side it = TheirsSide ∧ ∃ k, used !! k = Some false ∧ script !! k = Some (op it).
Proof.
  unfold unused. rewrite list_elem_of_join. split.
  - intros (l & Hin & [k Hk]%list_elem_of_lookup). apply lookup_zip_with_Some in Hk as (u & o & -> & Hu & Hs).
    destruct u; [by apply elem_of_nil in Hin|]. apply list_elem_of_singleton in Hin as ->. eauto.
  - intros (Hs & k & Hu & Hk). destruct it as [s o]. cbn in *. subst. exists [mkItem TheirsSide o].
    split; [by apply list_elem_of_singleton|]. apply (list_elem_of_lookup_2 _ k). rewrite lookup_zip_with, Hu. cbn. by rewrite Hk.
Qed.

Lemma build_items_ok used its items :
  items ≡ₚ its ++ unused used theirs_script →
  collapsed ours ours_tokens theirs theirs_tokens theirs_script ours_script used its → items_ok items.
Proof.
  intros Hp [Hops Hsides Hused Htaken Hboth Hpart _]. rewrite Forall_forall in Hsides.
  assert (∀ it, it ∈ items ↔ it ∈ its ∨ it ∈ unused used theirs_script) as Hin by (intros; rewrite Hp; apply elem_of_app).
  assert (∀ it, it ∈ its → op it ∈ ours_script) as Hits by (intros it ?; rewrite <- Hops; by apply list_elem_of_fmap_2).
  assert (∀ it, it ∈ items → ∃ i, items !! i = Some it) as Hpos by (intros it; by apply list_elem_of_lookup).
  split.
  - intros o Hino. rewrite <- Hops in Hino. apply list_elem_of_fmap in Hino as (it & -> & Hit).
    destruct (Hpos it) as [i Hi]; [apply Hin; by left|]. exists i, it. split_and!; [done..|by apply Hsides].
  - intros t [k Hk]%list_elem_of_lookup. destruct (lookup_lt_is_Some_2 used k) as [u Hu]; [rewrite Hused; by eapply lookup_lt_Some|]. destruct u.
    + destruct (Hpart k t Hk Hu) as (it & Hit & Hs & Hc). destruct (Hpos it) as [i Hi]; [apply Hin; by left|]. exists i, it.
      split_and!; [done|by destruct Hc as [-> _]|by right].
    + destruct (Hpos (mkItem TheirsSide t)) as [i Hi]; [apply Hin; right; apply elem_of_unused; eauto|]. exists i. eexists.
      split_and!; [exact Hi|done|by left].
  - intros it [Hit|[Hs _]%elem_of_unused]%Hin Hne; [by apply Hits|done].
  - intros it [Hit|(_ & k & _ & Hk)%elem_of_unused]%Hin Hs; [by apply Hsides in Hit|]. by eapply list_elem_of_lookup_2.
  - intros it [Hit|[Hs' _]%elem_of_unused]%Hin Hs; [|congruence]. destruct (Hboth it Hit Hs) as (k & t & Hk & _ & Hc). exists t.
    split; [by eapply list_elem_of_lookup_2|done].
  - assert (∀ (P : Item → Prop) `{∀ x, Decision (P x)} script, in_order script →
      range <$> filter P items ≡ₚ op_range <$> script →
      ∀ i j x y, items !! i = Some x → items !! j = Some y → i ≠ j → P x → P y → strictly_apart (range x) (range y)) as Hside.
    { intros P ? script [Hnd Hap]%in_order_ranges Hr i j x y Hi Hj Hne Hx Hy. apply Hap.
      - rewrite <- Hr. apply list_elem_of_fmap_2, list_elem_of_filter. split; [done|]. by eapply list_elem_of_lookup_2.
      - rewrite <- Hr. apply list_elem_of_fmap_2, list_elem_of_filter. split; [done|]. by eapply list_elem_of_lookup_2.
      - apply (filter_distinct range P items i j); [by rewrite Hr|done..]. }
    intros i j x y Hi Hj Hne Hsh.
    assert ((side x ≠ TheirsSide ∧ side y ≠ TheirsSide) ∨ (side x ≠ OursSide ∧ side y ≠ OursSide)) as [[Hx Hy]|[Hx Hy]].
    { unfold shares in Hsh. destruct (side x), (side y); intuition congruence. }
    + apply (Hside (λ it, side it ≠ TheirsSide) _ ours_script Ho) with (i := i) (j := j); [|done..].
      rewrite Hp, filter_app, (filter_id _ its) by auto. rewrite (filter_none _ (unused _ _)) by (intros it [? _]%elem_of_unused; tauto).
      rewrite app_nil_r. rewrite <- Hops, <- list_fmap_compose. done.
    + apply (Hside (λ it, side it ≠ OursSide) _ theirs_script Ht) with (i := i) (j := j); [|done..].
      rewrite Hp, filter_app, fmap_app.
      rewrite (filter_ext_in _ (λ it, side it = BothSides) its).
      2:{ intros it Hit%Hsides. destruct (side it); intuition congruence. }
      rewrite (filter_id _ (unused _ _)) by (intros it [Hs _]%elem_of_unused; congruence).
      rewrite <- (taken_unused used theirs_script Hused) at 2. rewrite fmap_app, <- Htaken, <- !list_fmap_compose. done.
Qed.
End item_facts.

(** ** One side along the emission *)

Definition deltas (ops : list EditOp) : Z := foldr (λ o z, (delta o + z)%Z) 0%Z ops.

Lemma deltas_app ops ops' : deltas (ops ++ ops') = (deltas ops + deltas ops')%Z.
Proof. induction ops as [|o ops IH]; cbn [deltas foldr app]; [done|]. fold (deltas (ops ++ ops')) (deltas ops). lia. Qed.

Section one_side.
Context {A : Type} (a b : list A).

Lemma part_split c n c' m s :
  part a c n = part b c' m → n ≤ length a → m ≤ length b → c ≤ s → s ≤ n → c' ≤ m →
  c' + (s - c) ≤ m ∧ part a c s = part b c' (c' + (s - c)) ∧ part a s n = part b (c' + (s - c)) m.
Proof.
  intros Heq Hn Hm Hcs Hsn Hc'. apply (f_equal length) in Heq as Hl. rewrite !length_part in Hl by done.
  split; [lia|]. rewrite <- (part_app a c s n), <- (part_app b c' (c' + (s - c)) m) in Heq by lia.
  apply app_inj_1 in Heq; [done|]. rewrite !length_part by lia. lia.
Qed.

Lemma aligned_advance c c' ops n m s :
  aligned a b c c' (raw_of <$> ops) n m → n ≤ length a → m ≤ length b → c ≤ s → s ≤ n → (∀ o, o ∈ ops → s ≤ base_start o) →
  part a c s = part b c' (c' + (s - c)) ∧ aligned a b s (c' + (s - c)) (raw_of <$> ops) n m.
Proof.
  intros Hal Hn Hm Hcs Hsn Hops. destruct ops as [|o ops]; cbn [fmap list_fmap aligned] in *.
  - destruct Hal as (? & ? & Heq). destruct (part_split c n c' m s Heq) as (? & ? & ?); [done..|]. split_and!; (done || lia).
  - destruct Hal as (? & ? & ? & ? & Heq & Hal). apply aligned_le in Hal as Hle. cbn [raw_of a_start a_end b_start b_end] in *.
    specialize (Hops o ltac:(by apply elem_of_cons; left)).
    destruct (part_split c (base_start o) c' (repl_start o) s Heq) as (? & ? & ?); [lia..|]. split_and!; (done || lia).
Qed.

Lemma aligned_pass s s' ins aft n m t :
  aligned a b s s' (raw_of <$> ins ++ aft) n m → n ≤ length a → m ≤ length b → s ≤ t → t ≤ n →
  (∀ o, o ∈ ins → base_end o ≤ t) → (∀ o, o ∈ aft → t ≤ base_start o) →
  ∃ t', aligned a b s s' (raw_of <$> ins) t t' ∧ aligned a b t t' (raw_of <$> aft) n m ∧
    Z.of_nat t' = (Z.of_nat s' + Z.of_nat (t - s) + deltas ins)%Z.
Proof.
  revert s s'. induction ins as [|o ins IH]; intros s s' Hal Hn Hm Hst Htn Hins Haft.
  - cbn [app] in Hal. destruct (aligned_advance s s' aft n m t Hal Hn Hm Hst Htn Haft) as [Hp Hal'].
    exists (s' + (t - s)). split_and!; [|done|cbn; lia]. cbn [fmap list_fmap aligned]. split_and!; (done || lia).
  - cbn [app fmap list_fmap aligned] in Hal |- *. destruct Hal as (? & ? & ? & ? & Heq & Hal). cbn [raw_of a_start a_end b_start b_end] in *.
    pose proof (Hins o ltac:(by apply elem_of_cons; left)).
    destruct (IH (base_end o) (repl_end o)) as (t' & Hi1 & Hi2 & Hi3); [done..|intros o' ?; apply Hins; by apply elem_of_cons; right|done|].
    exists t'. split_and!; try done. rewrite Hi3. cbn [deltas foldr]. fold (deltas ins). unfold delta.
    assert (base_start o - s = repl_start o - s'); [|lia].
    apply (f_equal length) in Heq. apply aligned_le in Hi1, Hi2. rewrite !length_part in Heq by lia. done.
Qed.

Definition before_range (o : EditOp) (p : nat * nat) : Prop := base_end o ≤ p.1 ∧ base_start o < p.1.
Definition after_range (o : EditOp) (p : nat * nat) : Prop := p.2 ≤ base_start o ∧ p.2 < base_end o.

Lemma side_span_spec pre ins aft s t :
  s ≤ t → (∀ o, o ∈ pre → before_range o (s, t)) → (∀ o, o ∈ ins → inside (op_range o) (s, t) ∧ base_start o ≤ base_end o) →
  (∀ o, o ∈ aft → after_range o (s, t)) →
  foldl (delta_step s t) (0, 0)%Z (pre ++ ins ++ aft) = (deltas pre, deltas ins).
Proof.
  intros Hst Hpre Hins Haft. unfold before_range, after_range, inside, op_range in *. cbn [fst snd] in *.
  assert (∀ z, foldl (delta_step s t) z pre = (z.1 + deltas pre, z.2)%Z) as H1.
  { clear Hins Haft. induction pre as [|o pre IH]; intros [x y]; cbn [foldl deltas foldr fst snd]; [f_equal; lia|].
    destruct (Hpre o) as [? ?]; [by apply elem_of_cons; left|]. rewrite IH by (intros; apply Hpre; by apply elem_of_cons; right).
    unfold delta_step. rewrite (proj2 (Nat.leb_le _ _)) by done. rewrite (proj2 (Nat.ltb_lt (base_start o) s)) by done.
    cbn [andb orb fst snd]. fold (deltas pre). f_equal. lia. }
  assert (∀ z, foldl (delta_step s t) z ins = (z.1, z.2 + deltas ins)%Z) as H2.
  { clear Hpre Haft H1. induction ins as [|o ins IH]; intros [x y]; cbn [foldl deltas foldr fst snd]; [f_equal; lia|].
    destruct (Hins o) as [[? ?] ?]; [by apply elem_of_cons; left|]. rewrite IH by (intros; apply Hins; by apply elem_of_cons; right).
    unfold delta_step. rewrite (proj2 (Nat.ltb_ge (base_start o) s)) by done. cbn [orb].
    replace ((base_end o <=? s) && (0 <? base_end o - base_start o)) with false.
    2:{ symmetry. apply andb_false_iff. rewrite Nat.leb_gt, Nat.ltb_ge. lia. }
    rewrite (proj2 (Nat.leb_le s (base_start o))), (proj2 (Nat.leb_le (base_end o) t)) by done.
    cbn [andb fst snd]. fold (deltas ins). f_equal. lia. }
  assert (∀ z, foldl (delta_step s t) z aft = z) as H3.
  { clear Hpre Hins H1 H2. induction aft as [|o aft IH]; intros [x y]; cbn [foldl]; [done|].
    destruct (Haft o) as [? ?]; [by apply elem_of_cons; left|]. rewrite IH by (intros; apply Haft; by apply elem_of_cons; right).
    unfold delta_step. rewrite (proj2 (Nat.leb_gt (base_end o) s)) by lia. cbn [andb].
    rewrite (proj2 (Nat.leb_gt (base_end o) t)) by done. by rewrite andb_false_r. }
  rewrite !foldl_app, H1, H2, H3. cbn [fst snd]. f_equal; lia.
Qed.

Context (script : list EditOp) (Horder : in_order script).
Context (Hsmall : (Z.of_nat (length a) < 18446744073709551616)%Z ∧ (Z.of_nat (length b) < 18446744073709551616)%Z).

Definition follow_in (e e' : Emit) : Prop :=
  (emit_range e).2 ≤ (emit_range e').1 ∧
  ∀ o, o ∈ script → inside (op_range o) (emit_range e) → inside (op_range o) (emit_range e') → False.

(** The side before the emissions [es], at [c] of the base and [c'] of the side. *)
Record side_inv (pre rest : list EditOp) (c c' : nat) (es : list Emit) : Prop := {
  si_split : script = pre ++ rest;
  si_aligned : aligned a b c c' (raw_of <$> rest) (length a) (length b);
  si_pos : Z.of_nat c' = (Z.of_nat c + deltas pre)%Z;
  si_cursor : ∀ e, e ∈ es → c ≤ (emit_range e).1;
  si_range : ∀ e, e ∈ es → (emit_range e).1 ≤ (emit_range e).2 ∧ (emit_range e).2 ≤ length a;
  si_sorted : StronglySorted follow_in es;
  si_pre : ∀ o e, o ∈ pre → e ∈ es → before_range o (emit_range e);
  si_rest : ∀ o, o ∈ rest → ∃ e, e ∈ es ∧ inside (op_range o) (emit_range e);
}.

(** A list in order splits where its elements leave a range. *)
Lemma filter_prefix p (l : list EditOp) :
  StronglySorted (λ o o', base_end o < base_start o') l → (∀ o, o ∈ l → base_start o ≤ base_end o) →
  (∀ o, o ∈ l → inside (op_range o) p ∨ p.2 ≤ base_start o) →
  l = filter (λ o, inside (op_range o) p) l ++ filter (λ o, ¬ inside (op_range o) p) l.
Proof.
  intros Hs Hwf Hor. induction Hs as [|o l Hs IH HF]; [done|].
  rewrite !filter_cons. destruct (decide (inside (op_range o) p)) as [Hin|Hout].
  - rewrite decide_False by tauto. cbn [app]. f_equal. apply IH; intros; [apply Hwf|apply Hor]; by apply elem_of_cons; right.
  - rewrite decide_True by done. rewrite (filter_none (λ o, inside (op_range o) p)).
    + cbn [app]. f_equal. symmetry. apply filter_id. intros o' Ho' Hin'. rewrite Forall_forall in HF. specialize (HF o' Ho').
      destruct (Hor o) as [?|Hp]; [by apply elem_of_cons; left|done|]. unfold inside, op_range in *. cbn [fst snd] in *.
      pose proof (Hwf o ltac:(by apply elem_of_cons; left)). pose proof (Hwf o' ltac:(by apply elem_of_cons; right)). lia.
    + intros o' Ho' Hin'. rewrite Forall_forall in HF. specialize (HF o' Ho').
      destruct (Hor o) as [?|Hp]; [by apply elem_of_cons; left|done|]. unfold inside, op_range in *. cbn [fst snd] in *.
      pose proof (Hwf o ltac:(by apply elem_of_cons; left)). pose proof (Hwf o' ltac:(by apply elem_of_cons; right)). lia.
Qed.

Lemma as_usize_small n : n ≤ length b → as_usize (Z.of_nat n) = n.
Proof. intros Hn. unfold as_usize. rewrite Z.mod_small by lia. apply Nat2Z.id. Qed.

Lemma side_step pre rest c c' e es :
  side_inv pre rest c c' (e :: es) →
  ∃ ins aft s' t', let '(s, t) := emit_range e in
    (∀ o, o ∈ ins ↔ o ∈ script ∧ inside (op_range o) (s, t)) ∧ NoDup ins ∧ c' ≤ s' ∧ s' ≤ t' ∧ t' ≤ length b ∧
    part a c s = part b c' s' ∧ aligned a b s s' (raw_of <$> ins) t t' ∧ side_span script s t = (s', t') ∧
    side_inv (pre ++ ins) aft t t' es.
Proof.
  intros [Hsplit Hal Hpos Hcur Hrange Hsort Hpre Hrest]. destruct (emit_range e) as [s t] eqn:He.
  destruct Horder as [Hs Hwf]. pose proof (aligned_le _ _ _ _ _ _ _ Hal) as Hcle.
  assert (e ∈ e :: es) as Hein by (by apply elem_of_cons; left).
  destruct (Hrange e Hein) as [Hst Htl]. pose proof (Hcur e Hein) as Hcs. rewrite He in *. cbn [fst snd] in *.
  apply StronglySorted_inv in Hsort as [Hsort HF]. rewrite Forall_forall in HF.
  assert (∀ o, o ∈ rest → o ∈ script) as Hsub by (intros o Ho; rewrite Hsplit; apply elem_of_app; by right).
  assert (∀ o, o ∈ rest → inside (op_range o) (s, t) ∨ (t ≤ base_start o ∧ ∃ e', e' ∈ es ∧ inside (op_range o) (emit_range e'))) as Hor.
  { intros o Ho. destruct (Hrest o Ho) as (e' & [->|He']%elem_of_cons & Hin); [rewrite He in Hin; by left|]. right.
    destruct (HF e' He') as [Hle _]. rewrite He in Hle. unfold inside in Hin. cbn [fst snd op_range] in *. split; [lia|]. by exists e'. }
  assert (StronglySorted (λ o o', base_end o < base_start o') rest) as Hrs by (rewrite Hsplit in Hs; by eapply StronglySorted_app_1_r).
  pose proof (filter_prefix (s, t) rest Hrs ltac:(auto)) as Hsp.
  set (ins := filter (λ o, inside (op_range o) (s, t)) rest) in *. set (aft := filter (λ o, ¬ inside (op_range o) (s, t)) rest) in *.
  assert (rest = ins ++ aft) as Hrest' by (apply Hsp; intros o [?|[? _]]%Hor; auto). clear Hsp.
  assert (∀ o, o ∈ ins ↔ o ∈ rest ∧ inside (op_range o) (s, t)) as Hins by (intros o; unfold ins; rewrite list_elem_of_filter; tauto).
  assert (∀ o, o ∈ aft → o ∈ rest ∧ after_range o (s, t) ∧ ∃ e', e' ∈ es ∧ inside (op_range o) (emit_range e')) as Haft.
  { intros o [Hn Ho]%list_elem_of_filter. destruct (Hor o Ho) as [?|(Hle & e' & ? & ?)]; [done|]. split_and!; [done| |by exists e'].
    split; cbn [fst snd]; [done|]. pose proof (Hwf o (Hsub o Ho)). unfold inside, op_range in Hn. cbn [fst snd] in Hn. lia. }
  rewrite Hrest' in Hal.
  destruct (aligned_advance c c' (ins ++ aft) (length a) (length b) s Hal) as [Hgap Hal1]; [lia..| |].
  { intros o [Ho|Ho]%elem_of_app; [apply Hins in Ho as [_ [? _]]; done|]. destruct (Haft o Ho) as (_ & [? _] & _). cbn [fst snd] in *. lia. }
  destruct (aligned_pass s (c' + (s - c)) ins aft (length a) (length b) t Hal1) as (t' & Hal2 & Hal3 & Hpos'); [lia..| | |].
  { intros o [_ [_ ?]]%Hins. done. }
  { intros o (_ & [? _] & _)%Haft. done. }
  exists ins, aft, (c' + (s - c)), t'. pose proof (aligned_le _ _ _ _ _ _ _ Hal2). pose proof (aligned_le _ _ _ _ _ _ _ Hal3). split_and!; try (done || lia).
  - intros o. rewrite Hins. split; intros [Ho Hin]; (split; [|done]); [by apply Hsub|].
    rewrite Hsplit in Ho. apply elem_of_app in Ho as [Ho|Ho]; [|done]. exfalso. destruct (Hpre o e Ho Hein) as [H1 H2].
    rewrite He in H1, H2. unfold inside, op_range in Hin. cbn [fst snd] in *. lia.
  - unfold ins. apply NoDup_filter. eapply NoDup_fmap_1. destruct (in_order_ranges script Horder) as [Hnd _].
    rewrite Hsplit, fmap_app in Hnd. by apply NoDup_app in Hnd as (_ & _ & ?).
  - unfold side_span. rewrite Hsplit, Hrest'. rewrite (side_span_spec pre ins aft s t Hst).
    + f_equal; rewrite <- as_usize_small by lia; f_equal; lia.
    + intros o Ho. specialize (Hpre o e Ho Hein). by rewrite He in Hpre.
    + intros o [Ho Hin]%Hins. split; [done|]. by apply Hwf, Hsub.
    + by intros o (_ & ? & _)%Haft.
  - split.
    + by rewrite Hsplit, Hrest', app_assoc.
    + done.
    + rewrite deltas_app. lia.
    + intros e' He'. destruct (HF e' He') as [Hle _]. by rewrite He in Hle.
    + intros e' He'. apply Hrange. by apply elem_of_cons; right.
    + done.
    + intros o e' Ho He'. apply elem_of_app in Ho as [Ho|Ho]; [apply Hpre; [done|by apply elem_of_cons; right]|].
      apply Hins in Ho as [Ho Hin]. destruct (HF e' He') as [Hle Hex]. rewrite He in Hle, Hex. cbn [fst snd] in Hle.
      pose proof (Hex o (Hsub o Ho) Hin) as Hno. destruct (Hrange e') as [Hr' _]; [by apply elem_of_cons; right|].
      pose proof (Hwf o (Hsub o Ho)). unfold before_range, inside, op_range in *. cbn [fst snd] in *. split; [lia|].
      destruct (decide (base_start o < (emit_range e').1)); [done|]. exfalso. apply Hno. lia.
    + intros o (_ & _ & ?)%Haft. done.
Qed.

Lemma side_start es :
  aligned a b 0 0 (raw_of <$> script) (length a) (length b) →
  (∀ e, e ∈ es → (emit_range e).1 ≤ (emit_range e).2 ∧ (emit_range e).2 ≤ length a) → StronglySorted follow_in es →
  (∀ o, o ∈ script → ∃ e, e ∈ es ∧ inside (op_range o) (emit_range e)) → side_inv [] script 0 0 es.
Proof. intros. split; try done; [intros; lia|by intros ? ? ?%elem_of_nil]. Qed.

Lemma side_end pre rest c c' : side_inv pre rest c c' [] → part a c (length a) = part b c' (length b).
Proof.
  intros [_ Hal _ _ _ _ _ Hrest]. destruct rest as [|o rest]; [by destruct Hal as (_ & _ & ?)|].
  destruct (Hrest o) as (e & ?%elem_of_nil & _); [by apply elem_of_cons; left|done].
Qed.
End one_side.

(** ** Rows

    A row is a stretch of the merged document with what the three texts hold there. *)
Inductive Row :=
| KeptRow (text : list ascii)
| OursRow (base_text text : list ascii)
| TheirsRow (base_text text : list ascii)
| BothRow (base_text text : list ascii)
| ConflictRow (base_text ours_text theirs_text : list ascii).

Definition row_base (r : Row) : list ascii :=
  match r with KeptRow t => t | OursRow b _ | TheirsRow b _ | BothRow b _ | ConflictRow b _ _ => b end.
Definition row_ours (r : Row) : list ascii :=
  match r with KeptRow t | OursRow _ t | BothRow _ t => t | TheirsRow b _ => b | ConflictRow _ o _ => o end.
Definition row_theirs (r : Row) : list ascii :=
  match r with KeptRow t | TheirsRow _ t | BothRow _ t => t | OursRow b _ => b | ConflictRow _ _ t => t end.

Definition merged_piece (text : list ascii) (p : Provenance) : list MergePiece :=
  if bool_decide (text = []) then [] else [Merged text p].

(** The piece of a row: nothing for an empty text. *)
Definition row_pieces (r : Row) : list MergePiece :=
  match r with
  | KeptRow t => merged_piece t FromBase
  | OursRow _ t => merged_piece t FromOurs
  | TheirsRow _ t => merged_piece t FromTheirs
  | BothRow _ t => merged_piece t FromBoth
  | ConflictRow b o t => [ConflictPiece b o t]
  end.

Definition row_conflict (r : Row) : bool := match r with ConflictRow _ _ _ => true | _ => false end.

(** A conflict is where the sides differ. *)
Definition row_ok (r : Row) : Prop := match r with ConflictRow _ o t => o ≠ t | _ => True end.

Lemma push_merged_app pieces text p : push_merged pieces text p = pieces ++ merged_piece text p.
Proof. unfold push_merged, merged_piece. case_bool_decide; [by rewrite app_nil_r|done]. Qed.

Lemma singleton_list {A} (l : list A) x : NoDup l → (∀ y, y ∈ l ↔ y = x) → l = [x].
Proof.
  intros Hnd Hl. destruct l as [|y [|z l]].
  - pose proof (proj2 (Hl x) eq_refl) as Hx. by apply elem_of_nil in Hx.
  - f_equal. apply Hl. by apply elem_of_cons; left.
  - assert (y = x) as -> by (apply Hl; by apply elem_of_cons; left).
    assert (z = x) as -> by (apply Hl; apply elem_of_cons; right; by apply elem_of_cons; left).
    apply NoDup_cons in Hnd as [[] _]. by apply elem_of_cons; left.
Qed.

Section rows.
Context `{UnicodeTable} (base ours theirs : list ascii) (ours_script theirs_script : list EditOp).
Abbreviation B := (words base).
Abbreviation O := (words ours).
Abbreviation T := (words theirs).
Abbreviation step := (emit_step base ours theirs (tokenize base) (tokenize ours) (tokenize theirs) ours_script theirs_script).
Context (Ho : in_order ours_script) (Ht : in_order theirs_script).
Context (Hos : (Z.of_nat (length B) < 18446744073709551616)%Z ∧ (Z.of_nat (length O) < 18446744073709551616)%Z).
Context (Hts : (Z.of_nat (length B) < 18446744073709551616)%Z ∧ (Z.of_nat (length T) < 18446744073709551616)%Z).

(** What a script has inside the range of an item. *)
Definition only (script : list EditOp) (x : Item) (o : EditOp) : Prop :=
  op_range o = range x ∧ ∀ o', o' ∈ script ∧ inside (op_range o') (range x) ↔ o' = o.
Definition none (script : list EditOp) (x : Item) : Prop := ∀ o, o ∈ script → ¬ inside (op_range o) (range x).

Definition emit_ok (e : Emit) : Prop :=
  match e with
  | EmitRegion _ _ => True
  | EmitOp x =>
      match side x with
      | OursSide => only ours_script x (op x) ∧ none theirs_script x
      | TheirsSide => none ours_script x ∧ only theirs_script x (op x)
      | BothSides => only ours_script x (op x) ∧
          ∃ t, only theirs_script x t ∧ converges ours (tokenize ours) theirs (tokenize theirs) (op x) t
      end
  end.

(** The only replacement in a range fills it. *)
Lemma only_text body script x o ins s' t' :
  only script x o → NoDup ins → (∀ o', o' ∈ ins ↔ o' ∈ script ∧ inside (op_range o') (range x)) → t' ≤ length (words body) → s' ≤ t' →
  aligned B (words body) (base_start (op x)) s' (raw_of <$> ins) (base_end (op x)) t' →
  token_text body (tokenize body) (repl_start o, repl_end o) = Some (mjoin (part (words body) s' t')).
Proof.
  intros [Hr Honly] Hnd Hins Hlen Hst Hal. rewrite (singleton_list ins o Hnd) in Hal by (intros; rewrite Hins; apply Honly).
  cbn [fmap list_fmap aligned raw_of a_start a_end b_start b_end] in Hal. destruct Hal as (? & ? & ? & ? & H1 & ? & ? & H2).
  injection Hr as Hs He. rewrite Hs, part_same in H1. rewrite He, part_same in H2.
  apply (f_equal length) in H1, H2. rewrite length_part in H1, H2 by lia. simpl in H1, H2.
  replace (repl_start o) with s' by lia. replace (repl_end o) with t' by lia. by apply token_text_words.
Qed.

Lemma none_text body script x ins s' t' :
  none script x → (∀ o', o' ∈ ins ↔ o' ∈ script ∧ inside (op_range o') (range x)) →
  aligned B (words body) (base_start (op x)) s' (raw_of <$> ins) (base_end (op x)) t' →
  part (words body) s' t' = part B (base_start (op x)) (base_end (op x)).
Proof.
  intros Hnone Hins Hal. destruct ins as [|o ins]; [by destruct Hal as (_ & _ & ->)|].
  destruct (proj1 (Hins o)) as [Hin Hi]; [by apply elem_of_cons; left|]. by destruct (Hnone o Hin).
Qed.

Lemma emit_step_spec pieces conflicted e es pre1 rest1 c1 pre2 rest2 c2 c :
  emit_ok e → side_inv B O ours_script pre1 rest1 c c1 (e :: es) → side_inv B T theirs_script pre2 rest2 c c2 (e :: es) →
  ∃ row pre1' rest1' s1' c1' pre2' rest2' s2' c2', let '(s, t) := emit_range e in
    step (pieces, c, conflicted) e
      = Some (pieces ++ row_pieces (KeptRow (mjoin (part B c s))) ++ row_pieces row, t, conflicted || row_conflict row) ∧
    row_ok row ∧ c ≤ s ∧ s ≤ t ∧ c1 ≤ s1' ∧ s1' ≤ c1' ∧ c2 ≤ s2' ∧ s2' ≤ c2' ∧
    part O c1 s1' = part B c s ∧ part T c2 s2' = part B c s ∧
    row_base row = mjoin (part B s t) ∧ row_ours row = mjoin (part O s1' c1') ∧ row_theirs row = mjoin (part T s2' c2') ∧
    side_inv B O ours_script pre1' rest1' t c1' es ∧ side_inv B T theirs_script pre2' rest2' t c2' es ∧
    (∀ x, e = EmitOp x → row_conflict row = false ∧
      (side x = OursSide → ∃ b t, row = OursRow b t) ∧ (side x = TheirsSide → ∃ b t, row = TheirsRow b t) ∧
      (side x = BothSides → ∃ b t, row = BothRow b t)).
Proof.
  intros Hok H1 H2. pose proof (side_step B O ours_script Ho Hos _ _ _ _ _ _ H1) as Hs1.
  pose proof (side_step B T theirs_script Ht Hts _ _ _ _ _ _ H2) as Hs2.
  assert (e ∈ e :: es) as Hein by (by apply elem_of_cons; left).
  pose proof (si_cursor _ _ _ _ _ _ _ _ H1 e Hein) as Hcs. destruct (si_range _ _ _ _ _ _ _ _ H1 e Hein) as [Hst Htl].
  destruct (emit_range e) as [s t] eqn:He.
  destruct Hs1 as (ins1 & aft1 & s1 & t1 & Hin1 & Hnd1 & Hc1 & Hst1 & Htl1 & Hgap1 & Hal1 & Hsp1 & Hinv1).
  destruct Hs2 as (ins2 & aft2 & s2 & t2 & Hin2 & Hnd2 & Hc2 & Hst2 & Htl2 & Hgap2 & Hal2 & Hsp2 & Hinv2).
  cbn [fst snd] in *. unfold emit_step. rewrite He. cbv zeta. rewrite token_text_words by lia. cbn [mbind option_bind].
  rewrite (Nat.max_l t c) by lia. destruct e as [x|s0 t0].
  - injection He as <- <-. cbn [emit_ok] in Hok. destruct (side x) eqn:Hside.
    + destruct Hok as [Honly Hnone]. rewrite (only_text ours ours_script x (op x) ins1 s1 t1); [|done..]. cbn [mbind option_bind].
      exists (OursRow (mjoin (part B (base_start (op x)) (base_end (op x)))) (mjoin (part O s1 t1))).
      exists (pre1 ++ ins1), aft1, s1, t1, (pre2 ++ ins2), aft2, s2, t2. cbn [row_pieces row_conflict row_base row_ours row_theirs].
      rewrite orb_false_r, !push_merged_app, <- !app_assoc. rewrite (none_text theirs theirs_script x ins2 s2 t2 Hnone Hin2 Hal2).
      split_and!; try done; intros ? [= <-]; split_and!; try congruence; eauto.
    + destruct Hok as [Hnone Honly]. rewrite (only_text theirs theirs_script x (op x) ins2 s2 t2); [|done..]. cbn [mbind option_bind].
      exists (TheirsRow (mjoin (part B (base_start (op x)) (base_end (op x)))) (mjoin (part T s2 t2))).
      exists (pre1 ++ ins1), aft1, s1, t1, (pre2 ++ ins2), aft2, s2, t2. cbn [row_pieces row_conflict row_base row_ours row_theirs].
      rewrite orb_false_r, !push_merged_app, <- !app_assoc. rewrite (none_text ours ours_script x ins1 s1 t1 Hnone Hin1 Hal1).
      split_and!; try done; intros ? [= <-]; split_and!; try congruence; eauto.
    + destruct Hok as (Honly & o & Hothers & _ & Hconv). pose proof (only_text ours ours_script x (op x) ins1 s1 t1 Honly Hnd1 Hin1 Htl1 Hst1 Hal1) as Hx1.
      pose proof (only_text theirs theirs_script x o ins2 s2 t2 Hothers Hnd2 Hin2 Htl2 Hst2 Hal2) as Hx2.
      rewrite Hx1. cbn [mbind option_bind]. rewrite Hx1, Hx2 in Hconv. injection Hconv as Hconv.
      exists (BothRow (mjoin (part B (base_start (op x)) (base_end (op x)))) (mjoin (part O s1 t1))).
      exists (pre1 ++ ins1), aft1, s1, t1, (pre2 ++ ins2), aft2, s2, t2. cbn [row_pieces row_conflict row_base row_ours row_theirs].
      rewrite orb_false_r, !push_merged_app, <- !app_assoc. split_and!; try done; intros ? [= <-]; split_and!; try congruence; eauto.
  - injection He as -> ->. rewrite Hsp1, Hsp2, !token_text_words by lia. cbn [mbind option_bind].
    destruct (bool_decide_reflect (mjoin (part O s1 t1) = mjoin (part T s2 t2))) as [Heq|Hne].
    + exists (BothRow (mjoin (part B s t)) (mjoin (part O s1 t1))). exists (pre1 ++ ins1), aft1, s1, t1, (pre2 ++ ins2), aft2, s2, t2.
      cbn [row_pieces row_conflict row_base row_ours row_theirs]. rewrite orb_false_r, !push_merged_app, <- !app_assoc. by split_and!.
    + exists (ConflictRow (mjoin (part B s t)) (mjoin (part O s1 t1)) (mjoin (part T s2 t2))).
      exists (pre1 ++ ins1), aft1, s1, t1, (pre2 ++ ins2), aft2, s2, t2.
      cbn [row_pieces row_conflict row_base row_ours row_theirs]. rewrite orb_true_r, !push_merged_app, <- !app_assoc. by split_and!.
Qed.

Definition row_text (r : Row) : list ascii :=
  match r with KeptRow t | OursRow _ t | TheirsRow _ t | BothRow _ t => t | ConflictRow _ _ _ => [] end.

(** What kind of rows an emission gives. *)
Definition kinds (es : list Emit) (rows : list Row) : Prop :=
  ((∀ e, e ∈ es → ∃ x, e = EmitOp x) → existsb row_conflict rows = false) ∧
  ((∀ e, e ∈ es → ∃ x, e = EmitOp x ∧ side x = OursSide) → ∀ r, r ∈ rows → row_text r = row_ours r) ∧
  ((∀ e, e ∈ es → ∃ x, e = EmitOp x ∧ side x = TheirsSide) → ∀ r, r ∈ rows → row_text r = row_theirs r) ∧
  ((∀ e, e ∈ es → ∃ x, e = EmitOp x ∧ side x = BothSides) → ∀ r, r ∈ rows → row_text r = row_theirs r).

Lemma rows_spec pieces conflicted es pre1 rest1 c1 pre2 rest2 c2 c :
  Forall emit_ok es → side_inv B O ours_script pre1 rest1 c c1 es → side_inv B T theirs_script pre2 rest2 c c2 es →
  ∃ rows cursor, fold_steps step (pieces, c, conflicted) es = Some (pieces ++ mjoin (row_pieces <$> rows), cursor, conflicted || existsb row_conflict rows) ∧
    Forall row_ok rows ∧ kinds es rows ∧ cursor ≤ length B ∧
    mjoin (row_base <$> rows) ++ mjoin (part B cursor (length B)) = mjoin (part B c (length B)) ∧
    mjoin (row_ours <$> rows) ++ mjoin (part B cursor (length B)) = mjoin (part O c1 (length O)) ∧
    mjoin (row_theirs <$> rows) ++ mjoin (part B cursor (length B)) = mjoin (part T c2 (length T)).
Proof.
  revert pieces conflicted pre1 rest1 c1 pre2 rest2 c2 c. induction es as [|e es IH]; intros pieces conflicted pre1 rest1 c1 pre2 rest2 c2 c Hok H1 H2.
  - exists [], c. cbn [fold_steps existsb fmap list_fmap mjoin list_join app]. rewrite app_nil_r, orb_false_r. split_and!; try done.
    + split_and!; [done|..]; by intros _ ? ?%elem_of_nil.
    + by apply (aligned_le _ _ _ _ _ _ _ (si_aligned _ _ _ _ _ _ _ _ H1)).
    + by rewrite (side_end _ _ _ _ _ _ _ H1).
    + by rewrite (side_end _ _ _ _ _ _ _ H2).
  - apply Forall_cons in Hok as [Hoke Hok].
    destruct (emit_step_spec pieces conflicted e es pre1 rest1 c1 pre2 rest2 c2 c Hoke H1 H2)
      as (row & pre1' & rest1' & s1 & c1' & pre2' & rest2' & s2 & c2' & Hstep).
    destruct (si_range _ _ _ _ _ _ _ _ H1 e ltac:(by apply elem_of_cons; left)) as [_ Htl].
    destruct (emit_range e) as [s t] eqn:He.
    destruct Hstep as (Hstep & Hrow & Hcs & Hst & Hcs1 & Hst1 & Hcs2 & Hst2 & Hg1 & Hg2 & Hrb & Hro & Hrt & Hi1 & Hi2 & Hkind).
    destruct (IH (pieces ++ row_pieces (KeptRow (mjoin (part B c s))) ++ row_pieces row) (conflicted || row_conflict row) _ _ _ _ _ _ _ Hok Hi1 Hi2)
      as (rows & cursor & Hf & Hrows & Hk & Hcur & Hb & Hoo & Htt).
    pose proof (aligned_le _ _ _ _ _ _ _ (si_aligned _ _ _ _ _ _ _ _ Hi1)) as [_ Hle1].
    pose proof (aligned_le _ _ _ _ _ _ _ (si_aligned _ _ _ _ _ _ _ _ Hi2)) as [_ Hle2].
    exists (KeptRow (mjoin (part B c s)) :: row :: rows), cursor. cbn [fold_steps]. rewrite Hstep. cbn [mbind option_bind]. rewrite Hf.
    cbn [snd] in *. rewrite !fmap_cons, !mjoin_cons. cbn [existsb row_conflict row_base row_ours row_theirs orb].
    split_and!; try done.
    + by rewrite <- !app_assoc, orb_assoc.
    + by repeat constructor.
    + destruct Hk as (K1 & K0 & K2 & K3).
      assert (∀ P : Emit → Prop, (∀ e', e' ∈ e :: es → P e') → P e ∧ ∀ e', e' ∈ es → P e') as Hcons.
      { intros P HP. split; [apply HP; by apply elem_of_cons; left|]. intros e' ?. apply HP. by apply elem_of_cons; right. }
      split_and!.
      * intros [[x Hx] Hes]%Hcons. cbn [existsb row_conflict orb]. rewrite (K1 Hes). by destruct (Hkind x Hx) as [-> _].
      * intros [(x & Hx & Hs) Hes]%Hcons r [->|[->|Hr]%elem_of_cons]%elem_of_cons; [done| |by apply K0].
        destruct (Hkind x Hx) as (_ & Hth & _ & _). by destruct (Hth Hs) as (? & ? & ->).
      * intros [(x & Hx & Hs) Hes]%Hcons r [->|[->|Hr]%elem_of_cons]%elem_of_cons; [done| |by apply K2].
        destruct (Hkind x Hx) as (_ & _ & Hth & _). by destruct (Hth Hs) as (? & ? & ->).
      * intros [(x & Hx & Hs) Hes]%Hcons r [->|[->|Hr]%elem_of_cons]%elem_of_cons; [done| |by apply K3].
        destruct (Hkind x Hx) as (_ & _ & _ & Hth). by destruct (Hth Hs) as (? & ? & ->).
    + rewrite <- (part_app B c s (length B)), <- (part_app B s t (length B)), !join_app by lia. rewrite <- !app_assoc. by rewrite Hb, Hrb.
    + rewrite <- (part_app O c1 s1 (length O)), <- (part_app O s1 c1' (length O)), !join_app by lia. rewrite <- !app_assoc. by rewrite Hoo, Hro, Hg1.
    + rewrite <- (part_app T c2 s2 (length T)), <- (part_app T s2 c2' (length T)), !join_app by lia. rewrite <- !app_assoc. by rewrite Htt, Hrt, Hg2.
Qed.

(** The pieces of an emission are the pieces of rows that hold the three texts. *)
Lemma build_pieces_spec es :
  Forall emit_ok es → side_inv B O ours_script [] ours_script 0 0 es → side_inv B T theirs_script [] theirs_script 0 0 es →
  ∃ rows, build_pieces base ours theirs (tokenize base) (tokenize ours) (tokenize theirs) ours_script theirs_script es
      = Some (mjoin (row_pieces <$> rows), existsb row_conflict rows) ∧
    Forall row_ok rows ∧ kinds es rows ∧
    mjoin (row_base <$> rows) = base ∧ mjoin (row_ours <$> rows) = ours ∧ mjoin (row_theirs <$> rows) = theirs.
Proof.
  intros Hok H1 H2. destruct (rows_spec [] false es [] ours_script 0 [] theirs_script 0 0 Hok H1 H2) as (rows & cursor & Hf & Hrows & Hk & Hcur & Hb & Hoo & Htt).
  rewrite !part_full, !words_mjoin in Hb, Hoo, Htt. exists (rows ++ [KeptRow (mjoin (part B cursor (length B)))]).
  unfold build_pieces. rewrite Hf. cbn [mbind option_bind app orb]. rewrite length_tokenize, token_text_words by lia. cbn [mbind option_bind].
  rewrite push_merged_app, !fmap_app, !join_app, existsb_app. cbn [existsb row_conflict orb fmap list_fmap mjoin list_join row_pieces row_base row_ours row_theirs].
  rewrite orb_false_r, !app_nil_r. split_and!; try done.
  - apply Forall_app. split; [done|]. by repeat constructor.
  - destruct Hk as (K1 & K0 & K2 & K3). split_and!.
    + intros Hes. rewrite existsb_app, (K1 Hes). done.
    + intros Hes r [Hr| ->%list_elem_of_singleton]%elem_of_app; [by apply K0|done].
    + intros Hes r [Hr| ->%list_elem_of_singleton]%elem_of_app; [by apply K2|done].
    + intros Hes r [Hr| ->%list_elem_of_singleton]%elem_of_app; [by apply K3|done].
Qed.
End rows.

Lemma clean_rows rows :
  existsb row_conflict rows = false →
  clean_outcome (mjoin (row_pieces <$> rows)) = Some (Clean (mjoin (row_pieces <$> rows)) (mjoin (row_text <$> rows))).
Proof.
  intros Hno. unfold clean_outcome.
  assert (∃ texts, mapM piece_text (mjoin (row_pieces <$> rows)) = Some texts ∧ mjoin texts = mjoin (row_text <$> rows)) as (texts & -> & <-); [|done].
  induction rows as [|r rows IH]; [by exists []|]. cbn [existsb] in Hno. apply orb_false_iff in Hno as [Hr Hno].
  destruct (IH Hno) as (texts & Hm & Hj).
  assert (∀ t p, ∃ ts, mapM piece_text (merged_piece t p ++ mjoin (row_pieces <$> rows)) = Some ts ∧ mjoin ts = t ++ mjoin (row_text <$> rows)) as Hgo.
  { intros t p. unfold merged_piece. case_bool_decide as Ht; [subst; by exists texts|]. exists (t :: texts). cbn. rewrite Hm. split; [done|].
    cbn. by rewrite <- Hj. }
  rewrite !fmap_cons, !mjoin_cons. destruct r; try done; apply Hgo.
Qed.

Lemma conflict_rows rows : existsb is_conflict (mjoin (row_pieces <$> rows)) = existsb row_conflict rows.
Proof.
  induction rows as [|r rows IH]; [done|]. rewrite fmap_cons, mjoin_cons. cbn [existsb]. rewrite existsb_app, IH. f_equal.
  destruct r; cbn [row_pieces row_conflict]; try done; unfold merged_piece; by case_bool_decide.
Qed.

(** ** The merge *)

Section merge.
Context `{UnicodeTable}.

Lemma aligned_in_order base side script :
  aligned (words base) (words side) 0 0 (raw_of <$> script) (length (words base)) (length (words side)) → separated (raw_of <$> script) →
  in_order script ∧ ∀ o, o ∈ script → base_end o ≤ length (words base) ∧ repl_end o ≤ length (words side).
Proof.
  intros Hal Hsep. assert (∀ o, o ∈ script → _) as Hin by (intros o Ho; exact (aligned_in _ _ _ _ _ _ _ (raw_of o) Hal (list_elem_of_fmap_2 raw_of _ _ Ho))).
  split; [split; [by apply separated_fmap|]|]; intros o (? & ? & ? & ? & ? & ?)%Hin; cbn in *; lia.
Qed.

Lemma length_prefix_counts f n tokens : length (prefix_counts f n tokens) = S (length tokens).
Proof. revert n. induction tokens as [|t tokens IH]; intros n; cbn [prefix_counts length]; [done|]. by rewrite IH. Qed.

Lemma gap_count_total f tokens l r : l ≤ length tokens → r ≤ length tokens → is_Some (gap_count (prefix_counts f 0 tokens) l r).
Proof.
  intros Hl Hr. unfold gap_count.
  destruct (lookup_lt_is_Some_2 (prefix_counts f 0 tokens) (r `max` l)) as [x Hx]; [rewrite length_prefix_counts; lia|]. rewrite Hx. cbn.
  destruct (lookup_lt_is_Some_2 (prefix_counts f 0 tokens) l) as [y Hy]; [rewrite length_prefix_counts; lia|]. rewrite Hy. by eexists.
Qed.

Lemma conflicting_total config f g tokens x y :
  base_start (op x) ≤ base_end (op x) → base_end (op x) ≤ length tokens →
  base_start (op y) ≤ base_end (op y) → base_end (op y) ≤ length tokens →
  is_Some (conflicting config (prefix_counts f 0 tokens) (prefix_counts g 0 tokens) x y).
Proof.
  intros. unfold conflicting. destruct (_ || _); [by eexists|].
  destruct (base_start (op x) <=? base_start (op y)); repeat (case_match; [by eexists|]);
    (case_match; [|by eexists]);
    match goal with |- is_Some (b ← gap_count (prefix_counts ?g 0 tokens) ?l ?r; _) =>
      destruct (gap_count_total g tokens l r) as [n ->]; [lia..|]; cbn; case_match; [by eexists|];
      destruct (gap_count_total f tokens l r) as [m ->]; [lia..|]; by eexists end.
Qed.

Section emission.
Context (ours theirs : list ascii) (ours_script theirs_script : list EditOp) (items : list Item) (es : list Emit).
Context (Ho : in_order ours_script) (Ht : in_order theirs_script).
Context (Hitems : items_ok ours (tokenize ours) theirs (tokenize theirs) ours_script theirs_script items).
Context (Halone : ∀ x, EmitOp x ∈ es → ∃ i, items !! i = Some x ∧ ∀ j y, items !! j = Some y → inside (range y) (range x) → j = i).

Lemma inside_refl p : inside p p.
Proof. by split. Qed.

(** A single item is emitted for what it is. *)
Lemma emits_ok : Forall (emit_ok ours theirs ours_script theirs_script) es.
Proof.
  destruct Hitems as [Hio Hit Hfo Hft Hb _]. apply Forall_forall. intros [x|s t] Hx; [|done].
  destruct (Halone x Hx) as (i & Hi & Huniq). assert (x ∈ items) as Hxin by (by eapply list_elem_of_lookup_2).
  assert (∀ o, o ∈ ours_script → inside (op_range o) (range x) → op x = o ∧ side x ≠ TheirsSide) as Hours.
  { intros o Hin Hins. destruct (Hio o Hin) as (j & it & Hj & <- & Hs). rewrite (Huniq j it Hj Hins) in Hj. by simplify_eq. }
  assert (∀ t, t ∈ theirs_script → inside (op_range t) (range x) →
    (side x = TheirsSide ∧ op x = t) ∨ (side x = BothSides ∧ converges ours (tokenize ours) theirs (tokenize theirs) (op x) t)) as Htheirs.
  { intros t Hin Hins. destruct (Hit t Hin) as (j & it & Hj & Hr & Hc). rewrite <- Hr in Hins. rewrite (Huniq j it Hj Hins) in Hj. by simplify_eq. }
  assert (side x ≠ TheirsSide → only ours_script x (op x)) as Honly.
  { intros Hs. split; [done|]. intros o. split; [intros [Hin Hins]; symmetry; by apply (Hours o)|]. intros ->.
    split; [by apply Hfo|apply inside_refl]. }
  cbn [emit_ok]. destruct (side x) eqn:Hs.
  - split; [by apply Honly|]. intros t Hin Hins. destruct (Htheirs t Hin Hins) as [[? _]|[? _]]; done.
  - split.
    + intros o Hin Hins. by destruct (Hours o Hin Hins) as [_ []].
    + split; [done|]. intros o. split; [intros [Hin Hins]; by destruct (Htheirs o Hin Hins) as [[_ ?]|[? _]]|]. intros ->.
      split; [by apply Hft|apply inside_refl].
  - split; [by apply Honly|]. destruct (Hb x Hxin Hs) as (t & Htin & Hc). exists t. split; [|done].
    assert (op_range t = range x) as Hr by (by destruct Hc as [-> _]). split; [done|]. intros o. split.
    + intros [Hin Hins]. destruct (Htheirs o Hin Hins) as [[? _]|[_ [Hr' _]]]; [done|].
      destruct (in_order_ranges theirs_script Ht) as [Hnd _]. apply list_elem_of_lookup in Hin as [k Hk], Htin as [k' Hk'].
      assert (k = k') as ->; [|by simplify_eq]. eapply NoDup_lookup; [exact Hnd|rewrite list_lookup_fmap, Hk; done|].
      rewrite list_lookup_fmap, Hk'. cbn. f_equal. rewrite Hr'. exact Hr.
    + intros ->. split; [done|]. rewrite Hr. apply inside_refl.
Qed.

Context (Hsorted : StronglySorted (follows items) es).
Context (Hcover : ∀ i x, items !! i = Some x → ∃ e, e ∈ es ∧ inside (range x) (emit_range e)).

Lemma script_items script :
  script = ours_script ∨ script = theirs_script → ∀ o, o ∈ script → ∃ i x, items !! i = Some x ∧ range x = op_range o.
Proof.
  intros [->| ->] o Hin.
  - destruct (io_ours _ _ _ _ _ _ _ Hitems o Hin) as (i & x & ? & <- & _). by exists i, x.
  - destruct (io_theirs _ _ _ _ _ _ _ Hitems o Hin) as (i & x & ? & ? & _). by exists i, x.
Qed.

Lemma script_follow script : script = ours_script ∨ script = theirs_script → StronglySorted (follow_in script) es.
Proof.
  intros Hs. apply (sorted_both (follows items) (follows items)); [|done..]. intros e e' _ _ [Hle Hx] _. split; [done|].
  intros o Hin H1 H2. destruct (script_items script Hs o Hin) as (i & x & Hi & Hr). rewrite <- Hr in H1, H2. by apply (Hx i x).
Qed.

Lemma script_cover script :
  script = ours_script ∨ script = theirs_script → ∀ o, o ∈ script → ∃ e, e ∈ es ∧ inside (op_range o) (emit_range e).
Proof. intros Hs o Hin. destruct (script_items script Hs o Hin) as (i & x & Hi & <-). by apply (Hcover i). Qed.
End emission.

Context `{HashOrder}.

(** What a merge computes, step by step. *)
Lemma text_merge_core base ours theirs config :
  (Z.of_nat (length base + length ours) ≤ 4294967296)%Z → (Z.of_nat (length base + length theirs) ≤ 4294967296)%Z →
  ∃ ours_script theirs_script used its items es rows,
    build_script base (tokenize base) ours (tokenize ours) config = Some ours_script ∧
    build_script base (tokenize base) theirs (tokenize theirs) config = Some theirs_script ∧
    in_order ours_script ∧ in_order theirs_script ∧
    items ≡ₚ its ++ unused used theirs_script ∧
    collapsed ours (tokenize ours) theirs (tokenize theirs) theirs_script ours_script used its ∧
    (∀ x, EmitOp x ∈ es → x ∈ items) ∧
    ((∀ x y, x ∈ items → y ∈ items → shares x y) → ∀ e, e ∈ es → ∃ x, e = EmitOp x) ∧
    text_merge base ours theirs config =
      Some (if existsb row_conflict rows then ConflictedText (mjoin (row_pieces <$> rows))
            else Clean (mjoin (row_pieces <$> rows)) (mjoin (row_text <$> rows))) ∧
    Forall row_ok rows ∧ kinds es rows ∧
    mjoin (row_base <$> rows) = base ∧ mjoin (row_ours <$> rows) = ours ∧ mjoin (row_theirs <$> rows) = theirs.
Proof.
  intros Hso Hst. destruct (build_script_spec base ours config Hso) as (s1 & Hs1 & Hal1 & Hsep1).
  destruct (build_script_spec base theirs config Hst) as (s2 & Hs2 & Hal2 & Hsep2).
  destruct (aligned_in_order _ _ _ Hal1 Hsep1) as [Ho1 Hb1]. destruct (aligned_in_order _ _ _ Hal2 Hsep2) as [Ho2 Hb2].
  pose proof (length_words base). pose proof (length_words ours). pose proof (length_words theirs).
  destruct (build_items_spec ours (tokenize ours) theirs (tokenize theirs) s1 s2) as (used & its & items & Hit & Hp & Hc).
  { intros o Ho. rewrite token_text_words by (by apply Hb1). by eexists. }
  { intros o Ho. rewrite token_text_words by (by apply Hb2). by eexists. }
  pose proof (build_items_ok _ _ _ _ s1 s2 Ho1 Ho2 used its items Hp Hc) as Hok.
  assert (∀ x, x ∈ items → base_start (op x) ≤ base_end (op x) ∧ base_end (op x) ≤ length (words base)) as Hwf.
  { intros x Hx. destruct (decide (side x = TheirsSide)) as [Hs|Hs].
    - apply (io_from_theirs _ _ _ _ _ _ _ Hok x Hx) in Hs. split; [by apply Ho2|by apply Hb2].
    - apply (io_from_ours _ _ _ _ _ _ _ Hok x Hx) in Hs. split; [by apply Ho1|by apply Hb1]. }
  set (clash := conflicting config (prefix_counts is_word 0 (tokenize base)) (prefix_counts (is_break base) 0 (tokenize base))).
  assert (∀ x y, x ∈ items → y ∈ items → is_Some (clash x y)) as Htotal.
  { intros x y Hx Hy. destruct (Hwf x Hx), (Hwf y Hy). apply conflicting_total; rewrite ?length_tokenize; done. }
  destruct (regroup_spec items clash Htotal) as (parent & Hreg & Hd & Hl & Hset & Hroots & Hquiet).
  destruct (build_emits_spec items clash parent Hd Hl Hset Hroots) as (es & Hes & Hsort & Hcover & Hem & Halone & Hflat).
  { intros x y Hx Hy Hsh. destruct (Htotal x y Hx Hy) as [[|] Hcl]; [by right|left].
    destruct (Hwf x Hx), (Hwf y Hy). by eapply conflicting_apart. }
  { intros x Hx. by apply Hwf. }
  { apply Hok. }
  assert (∀ e, e ∈ es → (emit_range e).1 ≤ (emit_range e).2 ∧ (emit_range e).2 ≤ length (words base)) as Hrange.
  { intros e [ms He]%Hem. destruct (emits_wf items parent Hl) with (ms := ms) (e := e) as (_ & (i & x & Hi & <-) & Hle); [intros; by apply Hwf|done|].
    split; [done|]. apply Hwf. by eapply list_elem_of_lookup_2. }
  destruct (build_pieces_spec (H := H) base ours theirs s1 s2 Ho1 Ho2 ltac:(lia) ltac:(lia) es) as (rows & Hpieces & Hrows & Hkinds & Htb & Hto & Htt).
  { by apply (emits_ok ours theirs s1 s2 items). }
  { apply side_start; [done..| |]; [by apply (script_follow ours theirs s1 s2 items); auto|by apply (script_cover ours theirs s1 s2 items); auto]. }
  { apply side_start; [done..| |]; [by apply (script_follow ours theirs s1 s2 items); auto|by apply (script_cover ours theirs s1 s2 items); auto]. }
  exists s1, s2, used, its, items, es, rows. split_and!; try done.
  - intros x (i & Hi & _)%Halone. by eapply list_elem_of_lookup_2.
  - intros Hall. apply Hflat, Hquiet. intros i j _ (x & y & Hx & Hy & Hcl). apply list_elem_of_lookup_2 in Hx, Hy.
    pose proof (Hall x y Hx Hy) as Hsh. subst clash. unfold conflicting in Hcl.
    destruct (bool_decide_reflect (side x = BothSides)); [done|]. destruct (bool_decide_reflect (side y = BothSides)); [done|].
    destruct (bool_decide_reflect (side x = side y)); [done|]. unfold shares in Hsh. tauto.
  - unfold text_merge. rewrite Hs1. cbn [mbind option_bind]. rewrite Hs2. cbn [mbind option_bind]. rewrite Hit. cbn [mbind option_bind].
    fold clash. rewrite Hreg. cbn [mbind option_bind]. rewrite Hes. cbn [mbind option_bind]. rewrite Hpieces. cbn [mbind option_bind].
    destruct (existsb row_conflict rows) eqn:Hconf; [done|]. by apply clean_rows.
Qed.

(** C23: the three-way merge of texts that the [u32] identifiers can number always
    returns, whatever the configuration, the classes of characters and the order of the
    hash maps.  Its pieces are those of rows that tile the three inputs: a kept row is
    the same in all of them, where a row takes one side the other side is the base, where
    it takes both they are the same, and a conflict carries the three texts, with sides
    that differ.  The outcome is clean when no row conflicts, and its text is then the
    rows' own. *)
Theorem text_merge_accounts base ours theirs config :
  (Z.of_nat (length base + length ours) ≤ 4294967296)%Z → (Z.of_nat (length base + length theirs) ≤ 4294967296)%Z →
  ∃ rows,
    text_merge base ours theirs config =
      Some (if existsb row_conflict rows then ConflictedText (mjoin (row_pieces <$> rows))
            else Clean (mjoin (row_pieces <$> rows)) (mjoin (row_text <$> rows))) ∧
    mjoin (row_base <$> rows) = base ∧ mjoin (row_ours <$> rows) = ours ∧ mjoin (row_theirs <$> rows) = theirs ∧
    Forall row_ok rows.
Proof.
  intros Ho Ht. destruct (text_merge_core base ours theirs config Ho Ht) as (? & ? & ? & ? & ? & ? & rows & ?). exists rows. tauto.
Qed.

Lemma mjoin_ext (f g : Row → list ascii) rows : (∀ r, r ∈ rows → f r = g r) → mjoin (f <$> rows) = mjoin (g <$> rows).
Proof.
  induction rows as [|r rows IH]; intros Hfg; [done|]. rewrite !fmap_cons, !mjoin_cons. rewrite (Hfg r) by (by apply elem_of_cons; left).
  by rewrite IH by (intros; apply Hfg; by apply elem_of_cons; right).
Qed.

(** Items of one side only compose. *)
Lemma one_sided (items : list Item) (es : list Emit) s :
  (∀ x, x ∈ items → side x = s) → (∀ x, EmitOp x ∈ es → x ∈ items) →
  ((∀ x y, x ∈ items → y ∈ items → shares x y) → ∀ e, e ∈ es → ∃ x, e = EmitOp x) →
  ∀ e, e ∈ es → ∃ x, e = EmitOp x ∧ side x = s.
Proof.
  intros Hs Hin Hall e He. destruct (Hall ltac:(intros x y Hx Hy; right; right; by rewrite (Hs x), (Hs y)) e He) as [x ->].
  exists x. split; [done|]. by apply Hs, Hin.
Qed.

Lemma same_scripts script used its x :
  in_order script → collapsed x (tokenize x) x (tokenize x) script script used its →
  ∀ it, it ∈ its ++ unused used script → side it = BothSides.
Proof.
  intros [Hnd _]%in_order_ranges [Hops Hsides Hused _ Hboth _ Hno] it [Hit|(_ & k & Hu & Hk)%elem_of_unused]%elem_of_app.
  - destruct (side it) eqn:Hs; [|by rewrite Forall_forall in Hsides; apply Hsides in Hit|done]. exfalso.
    apply (Hno Hnd it Hit Hs (op it)); [|done]. rewrite <- Hops. by apply list_elem_of_fmap_2.
  - exfalso. assert (op it ∈ script) as Hin by (by eapply list_elem_of_lookup_2). rewrite <- Hops in Hin.
    apply list_elem_of_fmap in Hin as (it' & Heq & Hit'). destruct (side it') eqn:Hs.
    + apply (Hno Hnd it' Hit' Hs (op it')); [|done]. rewrite <- Hops. by apply list_elem_of_fmap_2.
    + rewrite Forall_forall in Hsides. by apply Hsides in Hit'.
    + destruct (Hboth it' Hit' Hs) as (k' & t & Hk' & Hu' & Hr & _). assert (k = k') as ->; [|congruence].
      eapply NoDup_lookup; [exact Hnd|rewrite list_lookup_fmap, Hk; done|]. rewrite list_lookup_fmap, Hk'. cbn. f_equal. by rewrite Hr, Heq.
Qed.

(** a merge in which one side is the base is clean and gives the other side, and a
    merge of one text with itself is clean and gives that text. *)
Theorem text_merge_trivial base x config :
  (Z.of_nat (length base + length x) ≤ 4294967296)%Z → (Z.of_nat (length base + length base) ≤ 4294967296)%Z →
  (∃ pieces, text_merge base base x config = Some (Clean pieces x)) ∧
  (∃ pieces, text_merge base x base config = Some (Clean pieces x)) ∧
  (∃ pieces, text_merge base x x config = Some (Clean pieces x)).
Proof.
  intros Hx Hb. pose proof (build_script_same base config Hb) as Hnil. split_and!.
  - destruct (text_merge_core base base x config Hb Hx)
      as (s1 & s2 & used & its & items & es & rows & Hs1 & _ & _ & _ & Hp & Hc & Hin & Hall & Hm & _ & (K1 & K0 & K2 & K3) & _ & _ & Htt).
    replace s1 with ([] : list EditOp) in * by congruence. destruct Hc as [Hops _ _ _ _ _ _]. apply fmap_nil_inv in Hops as ->.
    pose proof (one_sided items es TheirsSide) as Hone.
    assert (∀ e, e ∈ es → ∃ x, e = EmitOp x ∧ side x = TheirsSide) as Hes.
    { apply Hone; [|done..]. intros y. rewrite Hp. cbn [app]. by intros [? _]%elem_of_unused. }
    rewrite K1 in Hm by (intros e (y & -> & _)%Hes; eauto). rewrite (mjoin_ext _ row_theirs _ (K2 Hes)), Htt in Hm. eauto.
  - destruct (text_merge_core base x base config Hx Hb)
      as (s1 & s2 & used & its & items & es & rows & _ & Hs2 & _ & _ & Hp & Hc & Hin & Hall & Hm & _ & (K1 & K0 & K2 & K3) & _ & Hto & _).
    replace s2 with ([] : list EditOp) in * by congruence. destruct Hc as [_ Hsides Hused _ Hboth _ _]. destruct used; [|done].
    assert (∀ e, e ∈ es → ∃ x, e = EmitOp x ∧ side x = OursSide) as Hes.
    { apply (one_sided items); [|done..]. intros y. rewrite Hp. cbn. rewrite app_nil_r. intros Hy. rewrite Forall_forall in Hsides.
      destruct (side y) eqn:Hs; [done|by apply Hsides in Hy|]. by destruct (Hboth y Hy Hs) as (? & ? & ? & _). }
    rewrite K1 in Hm by (intros e (y & -> & _)%Hes; eauto). rewrite (mjoin_ext _ row_ours _ (K0 Hes)), Hto in Hm. eauto.
  - destruct (text_merge_core base x x config Hx Hx)
      as (s1 & s2 & used & its & items & es & rows & Hs1 & Hs2 & Ho & _ & Hp & Hc & Hin & Hall & Hm & _ & (K1 & K0 & K2 & K3) & _ & _ & Htt).
    replace s2 with s1 in * by congruence.
    assert (∀ e, e ∈ es → ∃ x, e = EmitOp x ∧ side x = BothSides) as Hes.
    { apply (one_sided items); [|done..]. intros y. rewrite Hp. by apply (same_scripts s1 used its x). }
    rewrite K1 in Hm by (intros e (y & -> & _)%Hes; eauto). rewrite (mjoin_ext _ row_theirs _ (K3 Hes)), Htt in Hm. eauto.
Qed.
End merge.

(** Two edits of the base that are far apart. *)
Definition sample_base : list ascii := utf8 "one two three four five six".

Lemma text_merge_accounts_witness :
  (Z.of_nat (length sample_base + length (utf8 "1 two three four five six")) ≤ 4294967296)%Z ∧
  ∃ rows,
    text_merge (H := ascii_only) (H0 := by_key) sample_base (utf8 "1 two three four five six") (utf8 "one two three four five 6") default_config =
      Some (if existsb row_conflict rows then ConflictedText (mjoin (row_pieces <$> rows))
            else Clean (mjoin (row_pieces <$> rows)) (mjoin (row_text <$> rows))) ∧
    mjoin (row_base <$> rows) = sample_base.
Proof.
  split; [vm_compute; discriminate|].
  destruct (text_merge_accounts (H := ascii_only) (H0 := by_key) sample_base (utf8 "1 two three four five six")
    (utf8 "one two three four five 6") default_config ltac:(vm_compute; discriminate) ltac:(vm_compute; discriminate)) as (rows & Hm & Hb & _).
  exists rows. exact (conj Hm Hb).
Defined.

Lemma text_merge_trivial_witness :
  (Z.of_nat (length sample_base + length (utf8 "one 2")) ≤ 4294967296)%Z ∧
  ∃ pieces, text_merge (H := ascii_only) (H0 := by_key) sample_base sample_base (utf8 "one 2") default_config = Some (Clean pieces (utf8 "one 2")).
Proof.
  split; [vm_compute; discriminate|].
  exact (proj1 (text_merge_trivial (H := ascii_only) (H0 := by_key) sample_base (utf8 "one 2") default_config
    ltac:(vm_compute; discriminate) ltac:(vm_compute; discriminate))).
Defined.
