(* ===== verification/EventLog.v ===== *)
(** The append surface of the event log: the shared trait (store/log_append.rs) as an
    interface with its laws, and the SQLite implementation of it (store/lib.rs) that
    discharges them.  Rows are in insertion order; the payload column is the opened
    payload.  The identifier and the timestamp that the database draws for an event
    are arguments.  Sequence numbers and epochs are unbounded integers. *)
From S2P Require Import Prelude RustStr EventChain.

(** ** Data *)

Record NewEvent := mkNewEvent {
  ne_instance_id : string;
  ne_event_type : string;
  ne_payload_json : string;
  ne_source : string;
  ne_causation_id : option string;
  ne_correlation_id : option string;
  ne_idempotency_key : option string;
}.

Record StoredEvent := mkStored { st_event_id : string; st_sequence : Z }.

(** What the database draws for one event. *)
Record Drawn := mkDrawn { drawn_event_id : string; drawn_occurred_at : string }.

Inductive log_error :=
| OwnershipFence (instance_id : string) (claimed current : Z)
| CompareAndSet (instance_id expected found : string)
| UnchainedEvent (instance_id : string) (at_sequence : Z)
| NoSuchInstance (instance_id : string)
| SequenceTaken (instance_id : string) (at_sequence : Z)
| DuplicateKey (event_type : string) (key : option string)
| DuplicateEventId (event_id : string).

Record EventRow := mkRow {
  row_entry : ChainEntry;
  row_prev_digest : option string;
  row_entry_digest : option string;
}.

Record EventStore := mkEventStore {
  owner_epochs : gmap string Z;
  rows : list EventRow;
}.

Definition SUPPORTED_EVENT_FORMAT_VERSION : Z := 2.

(** ** The interface (log_append.rs) *)

Class LogAppend (L : Type) := {
  chain_head : L → string → result log_error ChainHead;
  instance_owner_epoch : L → string → Z;
  claim_instance_ownership : L → string → result log_error (L * Z);
  append_event_fenced : L → Z → string → Drawn → NewEvent → result log_error (L * StoredEvent);
  chain_prefix : L → string → list ChainEntry;
}.

(** The promises of an append surface, over the states that satisfy [valid]: the
    recorded head is the fold of the stored prefix, an append is admitted only at
    the current epoch and head and extends the prefix of its instance by one entry,
    and a claim moves the epoch and nothing else. *)
Class LogAppendLaws (L : Type) `{Sha256, LogAppend L} (valid : L → Prop) := {
  head_is_fold s i :
    valid s → chain_head s i = Ok (fold_prefix i (chain_prefix s i));
  append_ok s epoch expected drawn event s' stored :
    valid s → append_event_fenced s epoch expected drawn event = Ok (s', stored) →
    let i := ne_instance_id event in
    valid s' ∧ epoch = instance_owner_epoch s i ∧
    expected = digest (fold_prefix i (chain_prefix s i)) ∧
    (∃ entry, instance_id entry = i ∧ sequence entry = st_sequence stored ∧
       event_id entry = st_event_id stored ∧
       sequence entry = (Z.of_nat (length (chain_prefix s i)) + 1)%Z ∧
       chain_prefix s' i = chain_prefix s i ++ [entry]) ∧
    (∀ j, j ≠ i → chain_prefix s' j = chain_prefix s j) ∧
    (∀ j, instance_owner_epoch s' j = instance_owner_epoch s j);
  claim_ok s i s' epoch :
    valid s → claim_instance_ownership s i = Ok (s', epoch) →
    valid s' ∧ epoch = (instance_owner_epoch s i + 1)%Z ∧
    (∀ j, instance_owner_epoch s' j = if decide (j = i) then epoch else instance_owner_epoch s j) ∧
    (∀ j, chain_prefix s' j = chain_prefix s j);
}.

(** ** The SQLite store *)

Definition rows_of (s : EventStore) (i : string) : list EventRow :=
  filter (λ r, instance_id (row_entry r) = i) (rows s).

(** [ORDER BY sequence DESC LIMIT 1]. *)
Definition last_row (rs : list EventRow) : option EventRow :=
  foldl (λ acc r, match acc with
    | None => Some r
    | Some m => if (sequence (row_entry m) <? sequence (row_entry r))%Z then Some r else acc
    end) None rs.

(** [chain_head_on]. *)
Definition chain_head_on `{Sha256} (s : EventStore) (i : string) : result log_error ChainHead :=
  match last_row (rows_of s i) with
  | Some r =>
      match row_entry_digest r with
      | Some d => Ok (mkHead (Some (sequence (row_entry r))) d)
      | None => Err (UnchainedEvent i (sequence (row_entry r)))
      end
  | None => Ok (empty_head i)
  end.

Definition instance_owner_epoch_on (s : EventStore) (i : string) : Z :=
  default 0%Z (owner_epochs s !! i).

Definition claim_instance_ownership_on (s : EventStore) (i : string)
    : result log_error (EventStore * Z) :=
  match owner_epochs s !! i with
  | Some epoch =>
      Ok (mkEventStore (<[ i := (epoch + 1)%Z ]> (owner_epochs s)) (rows s), (epoch + 1)%Z)
  | None => Err (NoSuchInstance i)
  end.

(** The constraints of the table: the primary key and the two unique indexes. *)
Definition insert_row (s : EventStore) (r : EventRow) : result log_error EventStore :=
  let e := row_entry r in
  let same := rows_of s (instance_id e) in
  if existsb (λ r', bool_decide (event_id (row_entry r') = event_id e)) (rows s)
  then Err (DuplicateEventId (event_id e))
  else if existsb (λ r', bool_decide (sequence (row_entry r') = sequence e)) same
  then Err (SequenceTaken (instance_id e) (sequence e))
  else if existsb (λ r', bool_decide (is_Some (idempotency_key e))
                         && bool_decide (idempotency_key (row_entry r') = idempotency_key e)) same
  then Err (DuplicateKey (event_type e) (idempotency_key e))
  else Ok (mkEventStore (owner_epochs s) (rows s ++ [r])).

Definition new_entry (head : ChainHead) (drawn : Drawn) (event : NewEvent) : ChainEntry := {|
  event_id := drawn_event_id drawn;
  instance_id := ne_instance_id event;
  sequence := (default 0 (head_sequence head) + 1)%Z;
  event_type := ne_event_type event;
  payload_json := ne_payload_json event;
  occurred_at := drawn_occurred_at drawn;
  ce_source := ne_source event;
  causation_id := ne_causation_id event;
  correlation_id := ne_correlation_id event;
  idempotency_key := ne_idempotency_key event;
  format_version := Some SUPPORTED_EVENT_FORMAT_VERSION;
|}.

(** [append_event_chained_on], the one append path. *)
Definition append_event_chained_on `{Sha256} (s : EventStore) (expected_head : option string)
    (owner_epoch : option Z) (drawn : Drawn) (event : NewEvent)
    : result log_error (EventStore * StoredEvent) :=
  let i := ne_instance_id event in
  let current := instance_owner_epoch_on s i in
  _ ← match owner_epoch with
      | Some claimed => ensure (bool_decide (claimed = current)) (OwnershipFence i claimed current)
      | None => Ok tt
      end;
  head ← chain_head_on s i;
  _ ← match expected_head with
      | Some expected =>
          ensure (bool_decide (expected = digest head)) (CompareAndSet i expected (digest head))
      | None => Ok tt
      end;
  let entry := new_entry head drawn event in
  s' ← insert_row s (mkRow entry (Some (digest head)) (Some (entry_digest (digest head) entry)));
  Ok (s', mkStored (event_id entry) (sequence entry)).

(** The three guarded forms. *)
Definition append_event_on `{Sha256} s drawn event := append_event_chained_on s None None drawn event.
Definition append_event_cas_on `{Sha256} s expected drawn event :=
  append_event_chained_on s (Some expected) None drawn event.
Definition append_event_fenced_on `{Sha256} s epoch expected drawn event :=
  append_event_chained_on s (Some expected) (Some epoch) drawn event.

(** [append_event_idempotent_on]. *)
Definition append_event_idempotent_on `{Sha256} (s : EventStore) (drawn : Drawn) (event : NewEvent)
    : result log_error (EventStore * StoredEvent) :=
  let recorded key := list_find (λ r, idempotency_key (row_entry r) = Some key)
    (rows_of s (ne_instance_id event)) in
  match ne_idempotency_key event ≫= recorded with
  | Some (_, r) => Ok (s, mkStored (event_id (row_entry r)) (sequence (row_entry r)))
  | None => append_event_on s drawn event
  end.

(** [ORDER BY sequence ASC]. *)
Definition by_sequence (r1 r2 : EventRow) : Prop :=
  (sequence (row_entry r1) <= sequence (row_entry r2))%Z.
#[export] Instance by_sequence_dec r1 r2 : Decision (by_sequence r1 r2).
Proof. unfold by_sequence. apply _. Defined.

Definition chain_prefix_on (s : EventStore) (i : string) : list ChainEntry :=
  row_entry <$> merge_sort by_sequence (rows_of s i).

(** The walk of the backfill over one instance's rows, in sequence order. *)
Fixpoint backfill_rows `{Sha256} (prev : string) (rs : list EventRow) : list EventRow :=
  match rs with
  | [] => []
  | r :: rs' =>
      let d := entry_digest prev (row_entry r) in
      mkRow (row_entry r) (Some prev) (Some d) :: backfill_rows d rs'
  end.

Definition backfill_instance `{Sha256} (s : EventStore) (i : string) : list EventRow :=
  backfill_rows (genesis_digest i) (merge_sort by_sequence (rows_of s i)).

#[export] Instance sqlite_log `{Sha256} : LogAppend EventStore := {
  chain_head := chain_head_on;
  instance_owner_epoch := instance_owner_epoch_on;
  claim_instance_ownership := claim_instance_ownership_on;
  append_event_fenced := append_event_fenced_on;
  chain_prefix := chain_prefix_on;
}.

(** ** The invariant *)

(** The rows of one instance continue the chain from [head]: consecutive sequence
    numbers, and both digest columns as the chain has them. *)
Fixpoint chained `{Sha256} (head : ChainHead) (rs : list EventRow) : Prop :=
  match rs with
  | [] => True
  | r :: rs' =>
      sequence (row_entry r) = (default 0 (head_sequence head) + 1)%Z ∧
      row_prev_digest r = Some (digest head) ∧
      row_entry_digest r = Some (entry_digest (digest head) (row_entry r)) ∧
      chained (extend_head head (row_entry r)) rs'
  end.

Definition valid_log `{Sha256} (s : EventStore) : Prop := ∀ i, chained (empty_head i) (rows_of s i).

Section log.
Context `{Sha256}.
Implicit Types (s : EventStore) (r : EventRow) (rs : list EventRow) (head : ChainHead).

Abbreviation fold_rows head rs := (foldl extend_head head (row_entry <$> rs)).

Lemma chained_snoc head rs r :
  chained head (rs ++ [r]) ↔ chained head rs ∧ chained (fold_rows head rs) [r].
Proof.
  revert head. induction rs as [|r' rs IH]; intros head; [split; [done|by intros [_ ?]]|].
  specialize (IH (extend_head head (row_entry r'))). simpl in *. tauto.
Qed.

Lemma fold_rows_sequence head rs :
  head_sequence (fold_rows head rs)
  = match last rs with Some r => Some (sequence (row_entry r)) | None => head_sequence head end.
Proof.
  induction rs as [|r rs _] using rev_ind; [done|].
  by rewrite fmap_app, foldl_app, last_snoc.
Qed.

Lemma last_row_snoc rs r :
  last_row (rs ++ [r])
  = match last_row rs with
    | None => Some r
    | Some m => if (sequence (row_entry m) <? sequence (row_entry r))%Z then Some r else Some m
    end.
Proof. unfold last_row. rewrite foldl_app. simpl. by destruct (foldl _ _ _). Qed.

Lemma chained_last head rs : chained head rs → last_row rs = last rs.
Proof.
  induction rs as [|r rs IH] using rev_ind; [done|].
  intros [Hrs (Hseq & _)]%chained_snoc. rewrite last_row_snoc, last_snoc, IH by done.
  rewrite fold_rows_sequence in Hseq. destruct (last rs) as [m|]; [|done].
  simpl in Hseq. destruct (Z.ltb_spec (sequence (row_entry m)) (sequence (row_entry r))); [done|lia].
Qed.

Lemma chained_head head rs r :
  chained head (rs ++ [r]) → row_entry_digest r = Some (digest (fold_rows head (rs ++ [r]))).
Proof.
  intros [_ (_ & _ & Hd & _)]%chained_snoc. by rewrite fmap_app, foldl_app.
Qed.

Lemma chain_head_fold s i :
  valid_log s → chain_head_on s i = Ok (fold_prefix i (row_entry <$> rows_of s i)).
Proof.
  intros Hv. specialize (Hv i). unfold chain_head_on, fold_prefix.
  rewrite (chained_last _ _ Hv).
  destruct (rows_of s i) as [|r rs _] using rev_ind; [done|].
  rewrite last_snoc, (chained_head _ _ _ Hv), !fmap_app, !foldl_app. done.
Qed.

Lemma chained_sequence head rs k r :
  chained head rs → rs !! k = Some r →
  sequence (row_entry r) = (default 0 (head_sequence head) + Z.of_nat k + 1)%Z.
Proof.
  revert head k. induction rs as [|r' rs IH]; intros head k; [done|].
  intros (Hseq & _ & _ & Hrs) Hk. destruct k as [|k]; simpl in Hk; simplify_eq.
  - rewrite Hseq. lia.
  - rewrite (IH _ _ Hrs Hk). simpl. rewrite Hseq. lia.
Qed.

Lemma chained_sorted head rs : chained head rs → StronglySorted by_sequence rs.
Proof.
  revert head. induction rs as [|r rs IH]; intros head Hc; constructor.
  - destruct Hc as (_ & _ & _ & Hrs). by eapply IH.
  - apply Forall_lookup. intros k r' Hk. unfold by_sequence.
    rewrite (chained_sequence head (r :: rs) 0 r Hc eq_refl).
    rewrite (chained_sequence head (r :: rs) (S k) r' Hc Hk). lia.
Qed.

#[local] Instance by_sequence_total : Total by_sequence.
Proof. intros r1 r2. unfold by_sequence. lia. Qed.
#[local] Instance by_sequence_trans : Transitive by_sequence.
Proof. intros r1 r2 r3. unfold by_sequence. lia. Qed.

(** The rows of a valid log come back in the order they were written. *)
Lemma chained_merge_sort head rs : chained head rs → merge_sort by_sequence rs = rs.
Proof.
  intros Hc. eapply (StronglySorted_unique_strong by_sequence).
  - intros x1 x2 H1 H2 H12 H21. rewrite merge_sort_Permutation in H1.
    apply list_elem_of_lookup in H1 as [k1 H1]. apply list_elem_of_lookup in H2 as [k2 H2].
    pose proof (chained_sequence _ _ _ _ Hc H1). pose proof (chained_sequence _ _ _ _ Hc H2).
    unfold by_sequence in *. assert (k1 = k2) as -> by lia. congruence.
  - apply StronglySorted_merge_sort; apply _.
  - by eapply chained_sorted.
  - apply merge_sort_Permutation.
Qed.

Lemma chain_prefix_rows s i : valid_log s → chain_prefix_on s i = row_entry <$> rows_of s i.
Proof. intros Hv. unfold chain_prefix_on. by erewrite chained_merge_sort by apply Hv. Qed.

Lemma fold_prefix_sequence s i :
  valid_log s →
  default 0%Z (head_sequence (fold_prefix i (row_entry <$> rows_of s i)))
  = Z.of_nat (length (rows_of s i)).
Proof.
  intros Hv. unfold fold_prefix. rewrite fold_rows_sequence.
  destruct (last (rows_of s i)) as [r|] eqn:Hl; [|by apply last_None in Hl as ->].
  rewrite last_lookup in Hl. pose proof (lookup_lt_Some _ _ _ Hl).
  simpl. rewrite (chained_sequence _ _ _ _ (Hv i) Hl). simpl. lia.
Qed.

Lemma insert_row_ok s r s' :
  insert_row s r = Ok s' → owner_epochs s' = owner_epochs s ∧ rows s' = rows s ++ [r].
Proof. unfold insert_row. repeat case_match; try done. by intros [= <-]. Qed.

Lemma rows_of_snoc s s' r i :
  rows s' = rows s ++ [r] →
  rows_of s' i = if decide (instance_id (row_entry r) = i) then rows_of s i ++ [r] else rows_of s i.
Proof.
  intros Hr. unfold rows_of. rewrite Hr, filter_app, filter_cons, filter_nil.
  destruct (decide _); [done|]. apply app_nil_r.
Qed.

Lemma append_chained_ok s expected epoch drawn event s' stored :
  valid_log s → append_event_chained_on s expected epoch drawn event = Ok (s', stored) →
  let i := ne_instance_id event in
  let head := fold_prefix i (row_entry <$> rows_of s i) in
  let entry := new_entry head drawn event in
  (∀ e, epoch = Some e → e = instance_owner_epoch_on s i) ∧
  (∀ d, expected = Some d → d = digest head) ∧
  owner_epochs s' = owner_epochs s ∧
  rows s' = rows s ++ [mkRow entry (Some (digest head)) (Some (entry_digest (digest head) entry))] ∧
  stored = mkStored (event_id entry) (sequence entry).
Proof.
  intros Hv. unfold append_event_chained_on. rewrite (chain_head_fold _ _ Hv).
  intros ([] & Hep & (head & Hh & ([] & Hex & (s1 & Hins & Hok)%bind_ok)%bind_ok)%bind_ok)%bind_ok.
  simplify_eq. apply insert_row_ok in Hins as [Hown Hrows].
  split; [|split]; [| |done].
  - intros e ->. by apply ensure_ok, bool_decide_eq_true in Hep.
  - intros d ->. by apply ensure_ok, bool_decide_eq_true in Hex.
Qed.

Lemma append_chained_valid s expected epoch drawn event s' stored :
  valid_log s → append_event_chained_on s expected epoch drawn event = Ok (s', stored) →
  valid_log s'.
Proof.
  intros Hv Happ. apply append_chained_ok in Happ as (_ & _ & _ & Hrows & _); [|done].
  intros j. rewrite (rows_of_snoc s s' _ j Hrows). simpl.
  destruct (decide (ne_instance_id event = j)) as [<-|]; [|apply Hv].
  apply chained_snoc. split; [apply Hv|]. done.
Qed.

Lemma rows_of_owner (o : gmap string Z) s i : rows_of (mkEventStore o (rows s)) i = rows_of s i.
Proof. done. Qed.

#[export] Instance sqlite_log_laws : LogAppendLaws EventStore valid_log.
Proof.
  split; simpl.
  - intros s i Hv. by rewrite chain_prefix_rows, chain_head_fold.
  - intros s epoch expected drawn event s' stored Hv Happ.
    unfold append_event_fenced_on in Happ.
    pose proof (append_chained_valid _ _ _ _ _ _ _ Hv Happ) as Hv'.
    apply append_chained_ok in Happ as (Hep & Hex & Hown & Hrows & Hst); [|done].
    split; [done|]. rewrite !chain_prefix_rows by done.
    split; [by apply Hep|]. split; [by apply Hex|]. split; [|split].
    + eexists (new_entry _ drawn event). rewrite Hst. do 3 (split; [reflexivity|]).
      split.
      * simpl. rewrite fold_prefix_sequence, length_fmap by done. lia.
      * rewrite (rows_of_snoc s s' _ _ Hrows). simpl. rewrite decide_True by done.
        by rewrite fmap_app.
    + intros j Hj. rewrite !chain_prefix_rows by done. rewrite (rows_of_snoc s s' _ _ Hrows). simpl.
      by rewrite decide_False.
    + intros j. unfold instance_owner_epoch_on. by rewrite Hown.
  - intros s i s' epoch Hv. unfold claim_instance_ownership_on, instance_owner_epoch_on.
    destruct (owner_epochs s !! i) as [e|] eqn:He; [|done]. intros [= <- <-].
    split; [done|]. split; [done|]. split; [|done]. intros j. simpl.
    destruct (decide (j = i)) as [->|]; [by rewrite lookup_insert_eq|by rewrite lookup_insert_ne].
Qed.

(** What the backfill writes is what the chain holds. *)
Lemma backfill_rows_chained head rs :
  chained head rs → backfill_rows (digest head) rs = rs.
Proof.
  revert head. induction rs as [|[e p d] rs IH]; intros head; simpl; [done|].
  intros (_ & -> & -> & Hrs). f_equal. by apply IH in Hrs.
Qed.

(** Rows that are only numbered consecutively become chained. *)
Lemma backfill_rows_chains head rs :
  (∀ k r, rs !! k = Some r →
     sequence (row_entry r) = (default 0 (head_sequence head) + Z.of_nat k + 1)%Z) →
  chained head (backfill_rows (digest head) rs).
Proof.
  revert head. induction rs as [|r rs IH]; intros head Hseq; simpl; [done|].
  pose proof (Hseq 0 r eq_refl) as H0. split; [rewrite H0; lia|].
  do 2 (split; [done|]). apply (IH (extend_head head (row_entry r))).
  intros k r' Hk. rewrite (Hseq (S k) r' Hk). simpl. rewrite H0. lia.
Qed.

Lemma backfill_rows_entries prev rs : row_entry <$> backfill_rows prev rs = row_entry <$> rs.
Proof. revert prev. induction rs as [|r rs IH]; intros prev; simpl; [done|]. by rewrite IH. Qed.

End log.

(** ** Clients of the interface *)

Section clients.
Context `{Sha256, LogAppend L, !LogAppendLaws L valid}.
Implicit Types s : L.

(** A head is used up by the append that lands on it: where the prefix of that append
    is still in place, a second append at the same head exhibits a collision. *)
Lemma head_used_once s s1 s2 s3 e1 e2 expected d1 d2 event1 event2 st1 st2 :
  valid s → append_event_fenced s e1 expected d1 event1 = Ok (s1, st1) →
  valid s2 → chain_prefix s1 (ne_instance_id event1) `prefix_of` chain_prefix s2 (ne_instance_id event1) →
  ne_instance_id event1 = ne_instance_id event2 →
  append_event_fenced s2 e2 expected d2 event2 = Ok (s3, st2) → collision.
Proof.
  intros Hv Ha Hv2 [k Hk] Hi Hb.
  destruct (append_ok _ _ _ _ _ _ _ Hv Ha) as (_ & _ & Hex1 & (e & _ & _ & _ & _ & Hp1) & _).
  destruct (append_ok _ _ _ _ _ _ _ Hv2 Hb) as (_ & _ & Hex2 & _).
  rewrite <- Hi in Hex2. rewrite Hex1 in Hex2.
  apply fold_prefix_binding in Hex2 as [[_ Heq]|?]; [|done]. exfalso.
  rewrite Hp1, <- Heq in Hk. apply (f_equal length) in Hk. rewrite !length_app in Hk. simpl in Hk. lia.
Qed.

End clients.

(** ** The writes of the store *)

(** Every write of the surface, by any owner: a claim, an append under any combination
    of the two guards, and the idempotent append. *)
Inductive store_write `{Sha256} : EventStore → EventStore → Prop :=
| write_claim s i s' epoch :
    claim_instance_ownership_on s i = Ok (s', epoch) → store_write s s'
| write_append s expected epoch drawn event s' stored :
    append_event_chained_on s expected epoch drawn event = Ok (s', stored) → store_write s s'
| write_idempotent s drawn event s' stored :
    append_event_idempotent_on s drawn event = Ok (s', stored) → store_write s s'.

Section writes.
Context `{Sha256}.
Implicit Types s : EventStore.

(** What one write keeps: validity, every stored prefix, and the order of epochs. *)
Definition grows s s' : Prop :=
  valid_log s' ∧
  (∀ i, rows_of s i `prefix_of` rows_of s' i) ∧
  (∀ i, (instance_owner_epoch_on s i <= instance_owner_epoch_on s' i)%Z).

Lemma append_grows s expected epoch drawn event s' stored :
  valid_log s → append_event_chained_on s expected epoch drawn event = Ok (s', stored) → grows s s'.
Proof.
  intros Hv Ha. pose proof (append_chained_valid _ _ _ _ _ _ _ Hv Ha) as Hv'.
  apply append_chained_ok in Ha as (_ & _ & Hown & Hrows & _); [|done].
  split; [done|]. split.
  - intros i. rewrite (rows_of_snoc s s' _ i Hrows). destruct (decide _); [by apply prefix_app_r|done].
  - intros i. unfold instance_owner_epoch_on. rewrite Hown. lia.
Qed.

Lemma claim_grows s i s' epoch :
  valid_log s → claim_instance_ownership_on s i = Ok (s', epoch) →
  grows s s' ∧ (instance_owner_epoch_on s i < instance_owner_epoch_on s' i)%Z.
Proof.
  intros Hv. unfold claim_instance_ownership_on, grows, instance_owner_epoch_on.
  destruct (owner_epochs s !! i) as [e|] eqn:He; [|done]. intros [= <- <-]. simpl.
  split; [|rewrite lookup_insert_eq; simpl; lia].
  split; [done|]. split; [done|]. intros j.
  destruct (decide (j = i)) as [->|]; [rewrite lookup_insert_eq, He; simpl; lia|].
  rewrite lookup_insert_ne by done. lia.
Qed.

Lemma write_grows s s' : valid_log s → store_write s s' → grows s s'.
Proof.
  intros Hv Hw. revert Hv. destruct Hw as [? ? ? ? Hc|? ? ? ? ? ? ? Ha|s drawn event s' stored Ha];
    intros Hv; [by destruct (claim_grows _ _ _ _ Hv Hc)|exact (append_grows _ _ _ _ _ _ _ Hv Ha)|].
  unfold append_event_idempotent_on in Ha. case_match; [|exact (append_grows s None None drawn event s' stored Hv Ha)].
  case_match. simplify_eq. split; [done|]. split; [done|]. intros; lia.
Qed.

Lemma writes_grow s s' : valid_log s → rtc store_write s s' → grows s s'.
Proof.
  intros Hv Hr. revert Hv. induction Hr as [s|s1 s2 s3 H12 _ IH]; intros Hv.
  { split; [done|]. split; [done|]. intros; lia. }
  destruct (write_grows _ _ Hv H12) as (Hv2 & Hp & He). destruct (IH Hv2) as (Hv3 & Hp' & He').
  split; [done|]. split; intros i; [exact (transitivity (Hp i) (Hp' i))|]. specialize (He i). specialize (He' i). lia.
Qed.

End writes.

(** ** Theorems *)

(** One instance with an empty log, and an event for it; a hash that is constant, and
    so has collisions. *)
Definition example_log : EventStore := mkEventStore {[ "i" := 0%Z ]} [].
Definition example_event (key : option string) : NewEvent :=
  mkNewEvent "i" "rule.fired" "{}" "owner-a" None None key.
Definition constant_sha : Sha256 := λ _, "h"%string.

Lemma example_log_valid `{Sha256} : valid_log example_log.
Proof. intros i. done. Qed.

(** C5: A superseded owner cannot append: once another claim of the instance has been
    granted, every append under an epoch held before that claim is refused by the
    ownership fence, however many writes follow and whatever head the old owner has
    re-read. *)
Theorem superseded_owner_refused `{Sha256} s s1 s2 i epoch new_epoch expected drawn event :
  valid_log s → (epoch <= instance_owner_epoch_on s i)%Z →
  claim_instance_ownership_on s i = Ok (s1, new_epoch) → rtc store_write s1 s2 →
  ne_instance_id event = i →
  append_event_fenced_on s2 epoch expected drawn event
  = Err (OwnershipFence i epoch (instance_owner_epoch_on s2 i)).
Proof.
  intros Hv Hle Hclaim Hr Hi. destruct (claim_grows _ _ _ _ Hv Hclaim) as [(Hv1 & _) Hlt].
  destruct (writes_grow _ _ Hv1 Hr) as (_ & _ & Hmono). specialize (Hmono i).
  unfold append_event_fenced_on, append_event_chained_on. rewrite Hi.
  rewrite bool_decide_false by lia. done.
Qed.

Lemma superseded_owner_refused_witness :
  @append_event_fenced_on example_sha (mkEventStore {[ "i" := 1%Z ]} []) 0
    (@genesis_digest example_sha "i") (mkDrawn "evt_1" "t") (example_event None)
  = Err (OwnershipFence "i" 0
           (instance_owner_epoch_on (mkEventStore {[ "i" := 1%Z ]} []) "i")).
Proof.
  apply (@superseded_owner_refused example_sha example_log (mkEventStore {[ "i" := 1%Z ]} [])
    (mkEventStore {[ "i" := 1%Z ]} []) "i" 0 1).
  - apply example_log_valid.
  - vm_compute. discriminate.
  - vm_compute. reflexivity.
  - apply rtc_refl.
  - reflexivity.
Defined.

(** C6: The log only grows, and its head is honest: from a valid state, any sequence
    of claims and appends leaves every instance's old prefix in place, and the head it
    reports is the fold of the prefix it stores. *)
Theorem log_append_only `{Sha256} s s' i :
  valid_log s → rtc store_write s s' →
  chain_prefix_on s i `prefix_of` chain_prefix_on s' i ∧
  chain_head_on s' i = Ok (fold_prefix i (chain_prefix_on s' i)).
Proof.
  intros Hv Hr. destruct (writes_grow _ _ Hv Hr) as (Hv' & Hp & _). destruct (Hp i) as [k Hk].
  split; [|exact (@head_is_fold EventStore _ sqlite_log valid_log sqlite_log_laws s' i Hv')].
  rewrite !chain_prefix_rows, Hk, fmap_app by done. by apply prefix_app_r.
Qed.

Lemma log_append_only_witness :
  @chain_head_on example_sha (mkEventStore {[ "i" := 1%Z ]} []) "i"
  = Ok (@fold_prefix example_sha "i" []).
Proof.
  apply (@log_append_only example_sha example_log (mkEventStore {[ "i" := 1%Z ]} []) "i").
  - apply example_log_valid.
  - apply rtc_once, (write_claim _ "i" _ 1). vm_compute. reflexivity.
Defined.

(** One writer wins a head: when a fenced append lands at an expected head, no
    later fenced append at the same expected head of that instance lands, whatever
    writes come between, unless two texts with one SHA-256 hash have been found. *)
Theorem one_append_per_head `{Sha256} s s1 s2 s3 e1 e2 expected d1 d2 event1 event2 st1 st2 :
  valid_log s → append_event_fenced_on s e1 expected d1 event1 = Ok (s1, st1) →
  rtc store_write s1 s2 → ne_instance_id event1 = ne_instance_id event2 →
  append_event_fenced_on s2 e2 expected d2 event2 = Ok (s3, st2) →
  ∃ a b, a ≠ b ∧ sha256_hex a = sha256_hex b.
Proof.
  intros Hv Ha Hr Hi Hb. destruct (append_grows s (Some expected) (Some e1) d1 event1 s1 st1 Hv Ha) as (Hv1 & _).
  destruct (writes_grow _ _ Hv1 Hr) as (Hv2 & Hp & _).
  eapply (@head_used_once _ EventStore sqlite_log valid_log _ s s1 s2 s3); try done. simpl.
  rewrite !chain_prefix_rows by done. destruct (Hp (ne_instance_id event1)) as [k ->].
  rewrite fmap_app. by apply prefix_app_r.
Qed.

Definition after_one : EventStore :=
  match @append_event_fenced_on constant_sha example_log 0 "h" (mkDrawn "evt_1" "t")
    (example_event None) with Ok (s, _) => s | Err _ => example_log end.
Definition after_two : EventStore :=
  match @append_event_fenced_on constant_sha after_one 0 "h" (mkDrawn "evt_2" "t")
    (example_event None) with Ok (s, _) => s | Err _ => example_log end.

Lemma one_append_per_head_witness :
  ∃ a b, a ≠ b ∧ @sha256_hex constant_sha a = @sha256_hex constant_sha b.
Proof.
  apply (@one_append_per_head constant_sha example_log after_one after_one after_two 0 0 "h"
    (mkDrawn "evt_1" "t") (mkDrawn "evt_2" "t") (example_event None) (example_event None)
    (mkStored "evt_1" 1) (mkStored "evt_2" 2)).
  - apply example_log_valid.
  - vm_compute. reflexivity.
  - apply rtc_refl.
  - reflexivity.
  - vm_compute. reflexivity.
Defined.

(** An idempotent append records a keyed event once: repeating it under the same
    key returns the event that is stored and leaves the store as it is. *)
Theorem idempotent_append_once `{Sha256} s drawn drawn' event s' stored key :
  valid_log s → ne_idempotency_key event = Some key →
  append_event_idempotent_on s drawn event = Ok (s', stored) →
  append_event_idempotent_on s' drawn' event = Ok (s', stored).
Proof.
  intros Hv Hkey. unfold append_event_idempotent_on. rewrite Hkey. simpl.
  destruct (list_find _ (rows_of s _)) as [[k r]|] eqn:Hf.
  - intros [= <- <-]. by rewrite Hf.
  - unfold append_event_on. intros Ha. apply append_chained_ok in Ha as (_ & _ & _ & Hrows & ->); [|done].
    rewrite (rows_of_snoc s s' _ _ Hrows). simpl. rewrite decide_True by done.
    rewrite list_find_app_r by done. simpl. rewrite decide_True by done. done.
Qed.

Lemma idempotent_append_once_witness :
  ∃ s stored, @append_event_idempotent_on constant_sha s (mkDrawn "evt_2" "t")
    (example_event (Some "k")) = Ok (s, stored).
Proof.
  do 2 eexists. eapply (@idempotent_append_once constant_sha example_log (mkDrawn "evt_1" "t") _ _ _ _ "k").
  - apply example_log_valid.
  - reflexivity.
  - vm_compute. reflexivity.
Defined.

(** The backfill rewrites nothing that was recorded: over a chained log it writes
    the digests that are already there, and over rows that carry no digests but are
    numbered consecutively it leaves every entry as it was and makes them a chain. *)
Theorem backfill_sound `{Sha256} s i :
  (valid_log s → backfill_instance s i = rows_of s i) ∧
  (∀ rs, (∀ k r, rs !! k = Some r → sequence (row_entry r) = (Z.of_nat k + 1)%Z) →
     chained (empty_head i) (backfill_rows (genesis_digest i) rs) ∧
     row_entry <$> backfill_rows (genesis_digest i) rs = row_entry <$> rs).
Proof.
  split.
  - intros Hv. unfold backfill_instance. erewrite chained_merge_sort by apply Hv.
    apply (backfill_rows_chained (empty_head i)), Hv.
  - intros rs Hseq. split; [|apply backfill_rows_entries].
    apply (backfill_rows_chains (empty_head i)). intros k r Hk. by rewrite (Hseq k r Hk).
Qed.

Lemma backfill_sound_witness :
  @backfill_instance constant_sha after_two "i" = rows_of after_two "i".
Proof.
  apply (@backfill_sound constant_sha after_two "i").
  apply (@append_chained_valid constant_sha after_one (Some "h"%string) (Some 0%Z)
    (mkDrawn "evt_2" "t") (example_event None) _ (mkStored "evt_2" 2)).
  - apply (@append_chained_valid constant_sha example_log (Some "h"%string) (Some 0%Z)
      (mkDrawn "evt_1" "t") (example_event None) _ (mkStored "evt_1" 1)).
    + apply example_log_valid.
    + vm_compute. reflexivity.
  - vm_compute. reflexivity.
Defined.
