(* ===== verification/RefAuthority.v ===== *)
(** The authority for mutable names (store/ref_authority.rs): the trait as an
    interface, the abstract authority that is nothing but the list of committed
    advances, the native implementation and the durable-object one
    (host-do/do_refs.rs), each a refinement of it, and the conformance driver that
    ships with the trait.

    The position column is an integer that the code casts to [u64]; the laws ask for
    fewer than 2^63 advances, where the cast changes nothing. *)
From S2P Require Import Prelude RustStr MachineInt.
From stdpp Require Import pretty.

(** ** The trait *)

Record RefRead := mkRefRead { rr_value : option string; rr_position : Z }.

Inductive AdvanceOutcome :=
| Advanced (position : Z)
| Rejected (current : option string) (position : Z).

(** A query that finds no row of [ref_position]. *)
Inductive ref_error := MissingPosition.

Class RefAuthority (R : Type) := {
  ref_read : R → string → result ref_error RefRead;
  ref_advance : R → string → option string → string → result ref_error (R * AdvanceOutcome);
  changes_since : R → string → Z → result ref_error (option RefRead);
}.

Definition advanced (outcome : AdvanceOutcome) : bool :=
  match outcome with Advanced _ => true | Rejected _ _ => false end.

#[export] Instance ref_read_eq_dec : EqDecision RefRead.
Proof. solve_decision. Defined.
#[export] Instance advance_outcome_eq_dec : EqDecision AdvanceOutcome.
Proof. solve_decision. Defined.

(** ** The tables *)

Record RefTables := mkRefTables {
  refs : gmap string (string * Z);
  ref_position : option Z;
}.

(** [UPDATE ref_position SET position = position + 1 WHERE id = 0]. *)
Definition bump_position (t : RefTables) : RefTables :=
  mkRefTables (refs t) ((λ p, p + 1)%Z <$> ref_position t).

(** [INSERT INTO refs ... ON CONFLICT(name) DO UPDATE]. *)
Definition upsert_ref (t : RefTables) (name value : string) (position : Z) : RefTables :=
  mkRefTables (<[ name := (value, position) ]> (refs t)) (ref_position t).

(** [ensure_schema] on a new file. *)
Definition empty_tables : RefTables := mkRefTables ∅ (Some 0%Z).

(** ** The native authority *)

Record SqliteRefAuthority := mkSqlite { tables : RefTables }.

(** One statement: the position row joined with the name's row. *)
Definition sqlite_read (r : SqliteRefAuthority) (name : string) : result ref_error RefRead :=
  position ← ok_or MissingPosition (ref_position (tables r));
  Ok (mkRefRead (fst <$> refs (tables r) !! name) (as_u64 position)).

(** One transaction; a rejection returns without committing. *)
Definition sqlite_advance (r : SqliteRefAuthority) (name : string) (expected : option string) (next : string)
    : result ref_error (SqliteRefAuthority * AdvanceOutcome) :=
  let current := fst <$> refs (tables r) !! name in
  if bool_decide (current ≠ expected) then
    position ← ok_or MissingPosition (ref_position (tables r));
    Ok (r, Rejected current (as_u64 position))
  else
    let t := bump_position (tables r) in
    position ← ok_or MissingPosition (ref_position t);
    Ok (mkSqlite (upsert_ref t name next position), Advanced (as_u64 position)).

Definition sqlite_changes_since (r : SqliteRefAuthority) (name : string) (position : Z)
    : result ref_error (option RefRead) :=
  overall ← ok_or MissingPosition (ref_position (tables r));
  match refs (tables r) !! name with
  | None => Ok None
  | Some (value, moved_at) =>
      if (as_u64 moved_at <=? position)%Z then Ok None
      else Ok (Some (mkRefRead (Some value) (as_u64 overall)))
  end.

#[export] Instance sqlite_refs : RefAuthority SqliteRefAuthority := {
  ref_read := sqlite_read;
  ref_advance := sqlite_advance;
  changes_since := sqlite_changes_since;
}.

(** ** The durable-object authority *)

Record DoRefAuthority := mkDo { sql : RefTables }.

Definition do_position (r : DoRefAuthority) : result ref_error Z :=
  row ← ok_or MissingPosition (ref_position (sql r));
  Ok (as_u64 row).

Definition do_current (r : DoRefAuthority) (name : string) : option string :=
  fst <$> refs (sql r) !! name.

(** Two queries, with no writer between them. *)
Definition do_read (r : DoRefAuthority) (name : string) : result ref_error RefRead :=
  let value := do_current r name in
  position ← do_position r;
  Ok (mkRefRead value position).

(** The statements one after the other, without a transaction. *)
Definition do_advance (r : DoRefAuthority) (name : string) (expected : option string) (next : string)
    : result ref_error (DoRefAuthority * AdvanceOutcome) :=
  let current := do_current r name in
  if bool_decide (current ≠ expected) then
    position ← do_position r;
    Ok (r, Rejected current position)
  else
    let r := mkDo (bump_position (sql r)) in
    position ← do_position r;
    Ok (mkDo (upsert_ref (sql r) name next (wrap_i64 position)), Advanced position).

Definition do_changes_since (r : DoRefAuthority) (name : string) (since : Z)
    : result ref_error (option RefRead) :=
  match refs (sql r) !! name with
  | None => Ok None
  | Some (value, moved_at) =>
      if (as_u64 moved_at <=? since)%Z then Ok None
      else
        position ← do_position r;
        Ok (Some (mkRefRead (Some value) position))
  end.

#[export] Instance do_refs : RefAuthority DoRefAuthority := {
  ref_read := do_read;
  ref_advance := do_advance;
  changes_since := do_changes_since;
}.

(** ** The abstract authority *)

(** The committed advances, oldest first. *)
Abbreviation history := (list (string * string)).

Definition spec_value (h : history) (name : string) : option string :=
  snd <$> last (filter (λ e, e.1 = name) h).

Definition spec_read (h : history) (name : string) : RefRead :=
  mkRefRead (spec_value h name) (Z.of_nat (length h)).

Definition spec_advance (h : history) (name : string) (expected : option string) (next : string)
    : history * AdvanceOutcome :=
  if decide (spec_value h name = expected)
  then (h ++ [(name, next)], Advanced (Z.of_nat (length h) + 1))
  else (h, Rejected (spec_value h name) (Z.of_nat (length h))).

(** Whether the name moved after the first [pos] advances. *)
Definition spec_changes (h : history) (name : string) (pos : nat) : option RefRead :=
  if decide (name ∈ (drop pos h).*1) then Some (spec_read h name) else None.

Definition bounded (n : nat) : Prop := (Z.of_nat n < 9223372036854775808)%Z.

(** What an implementation owes: over the states that stand for a history, each
    operation is the abstract one. *)
Class RefAuthorityLaws (R : Type) `{RefAuthority R} (repr : R → history → Prop) := {
  read_law r h name :
    repr r h → bounded (length h) → ref_read r name = Ok (spec_read h name);
  advance_law r h name expected next :
    repr r h → bounded (S (length h)) →
    ∃ r', ref_advance r name expected next = Ok (r', (spec_advance h name expected next).2) ∧
      repr r' (spec_advance h name expected next).1;
  changes_law r h name pos :
    repr r h → bounded (length h) →
    changes_since r name (Z.of_nat pos) = Ok (spec_changes h name pos);
}.

(** The tables that a history leaves behind. *)
Definition move (t : RefTables) (e : string * string) : RefTables :=
  let t := bump_position t in upsert_ref t e.1 e.2 (default 0%Z (ref_position t)).
Definition tables_of (h : history) : RefTables := foldl move empty_tables h.

(** ** The conformance driver *)

(** splitmix64. *)
Definition next_random (state : Z) : Z * Z :=
  let state := wrapping_add_u64 state 0x9e3779b97f4a7c15 in
  let z := wrapping_mul_u64 (Z.lxor state (Z.shiftr state 30)) 0xbf58476d1ce4e5b9 in
  let z := wrapping_mul_u64 (Z.lxor z (Z.shiftr z 27)) 0x94d049bb133111eb in
  (state, Z.lxor z (Z.shiftr z 31)).

(** A violated assertion of the driver, or a store failure. *)
Inductive violation :=
| LostUpdate (seed : Z)
| PositionNotForward (seed : Z)
| RejectionNeverCommitted (seed : Z)
| RejectionConsumedPosition (seed : Z)
| ValueDiverged (seed : Z)
| EveryAdvanceRejected
| StoreFailure (e : ref_error).

Definition store {A} (m : result ref_error A) : result violation A :=
  match m with Ok a => Ok a | Err e => Err (StoreFailure e) end.

(** The locals of the loop; [believed] is indexed by the client. *)
Record Contention (R : Type) := mkContention {
  authority : R;
  believed : bool → option string;
  last_committed : option string;
  last_position : Z;
  committed : nat;
  rng : Z;
}.
Arguments mkContention {R}.
Arguments authority {R}.
Arguments believed {R}.
Arguments last_committed {R}.
Arguments last_position {R}.
Arguments committed {R}.
Arguments rng {R}.

Section driver.
Context `{RefAuthority R}.

Definition believe (who : bool) (value : option string) (believed : bool → option string)
    : bool → option string := λ w, if Bool.eqb w who then value else believed w.

(** One turn of [for step in 0..steps]. *)
Definition contention_step (name : string) (seed : Z) (step : nat) (c : Contention R)
    : result violation (Contention R) :=
  let '(state, roll) := next_random (rng c) in
  let who := Z.testbit (Z.shiftr roll 8) 0 in
  if (roll mod 3 =? 0)%Z then
    read ← store (ref_read (authority c) name);
    Ok (mkContention (authority c) (believe who (rr_value read) (believed c)) (last_committed c)
          (last_position c) (committed c) state)
  else
    let next := ("cut-" +:+ (if who then "1" else "0") +:+ "-" +:+ pretty step)%string in
    '(r, outcome) ← store (ref_advance (authority c) name (believed c who) next);
    read ← store (ref_read r name);
    c' ← match outcome with
         | Advanced position =>
             _ ← ensure (bool_decide (believed c who = last_committed c)) (LostUpdate seed);
             _ ← ensure (bool_decide (last_position c < position)%Z) (PositionNotForward seed);
             Ok (mkContention r (believe who (Some next) (believed c)) (Some next) position
                   (S (committed c)) state)
         | Rejected current position =>
             _ ← ensure (bool_decide (current = last_committed c)) (RejectionNeverCommitted seed);
             _ ← ensure (bool_decide (position = last_position c)) (RejectionConsumedPosition seed);
             Ok (mkContention r (believed c) (last_committed c) (last_position c) (committed c) state)
         end;
    _ ← ensure (bool_decide (rr_value read = last_committed c')) (ValueDiverged seed);
    Ok c'.

Fixpoint contention_loop (name : string) (seed : Z) (step todo : nat) (c : Contention R)
    : result violation (Contention R) :=
  match todo with
  | 0 => Ok c
  | S todo' => contention_step name seed step c ≫= contention_loop name seed (S step) todo'
  end.

Definition run_contention (r : R) (name : string) (seed : Z) (steps : nat) : result violation (R * nat) :=
  c ← contention_loop name seed 0 steps (mkContention r (λ _, None) None 0 0 seed);
  Ok (authority c, committed c).

Definition run_suite (make : R) (seeds : list Z) : result violation nat :=
  counts ← collect (λ seed, snd <$> run_contention make "mainline" seed 24) seeds;
  let total := sum_list counts in
  _ ← ensure (bool_decide (0 < total)) EveryAdvanceRejected;
  Ok total.

End driver.

(** ** Lemmas *)

Lemma tables_of_snoc h e : tables_of (h ++ [e]) = move (tables_of h) e.
Proof. unfold tables_of. by rewrite foldl_app. Qed.

Lemma spec_value_snoc h e name :
  spec_value (h ++ [e]) name = if decide (e.1 = name) then Some e.2 else spec_value h name.
Proof.
  unfold spec_value. rewrite filter_app, filter_cons, filter_nil.
  destruct (decide (e.1 = name)); [by rewrite last_snoc|by rewrite app_nil_r].
Qed.

Lemma tables_of_position h : ref_position (tables_of h) = Some (Z.of_nat (length h)).
Proof.
  induction h as [|e h IH] using rev_ind; [done|].
  rewrite tables_of_snoc, length_app. simpl. rewrite IH. simpl. f_equal. lia.
Qed.

Lemma move_refs h e :
  refs (tables_of (h ++ [e])) = <[ e.1 := (e.2, Z.of_nat (length h) + 1)%Z ]> (refs (tables_of h)).
Proof. rewrite tables_of_snoc. simpl. by rewrite tables_of_position. Qed.

Lemma tables_of_value h name : fst <$> refs (tables_of h) !! name = spec_value h name.
Proof.
  induction h as [|e h IH] using rev_ind; [done|].
  rewrite move_refs, spec_value_snoc. destruct (decide (e.1 = name)) as [<-|Hne].
  - by rewrite lookup_insert_eq.
  - by rewrite lookup_insert_ne.
Qed.

(** The recorded position of a name tells whether it moved since. *)
Lemma tables_of_moved h name pos :
  match refs (tables_of h) !! name with
  | Some (v, p) => (1 <= p <= Z.of_nat (length h))%Z ∧ ((p <= Z.of_nat pos)%Z ↔ (name ∉ (drop pos h).*1))
  | None => name ∉ (drop pos h).*1
  end.
Proof.
  induction h as [|e h IH] using rev_ind.
  { rewrite drop_nil. apply not_elem_of_nil. }
  rewrite move_refs, length_app. simpl.
  assert ((drop pos (h ++ [e])).*1 = (drop pos h).*1 ++ (if decide (pos <= length h) then [e.1] else []))
    as ->.
  { rewrite drop_app, fmap_app. f_equal. destruct (decide (pos <= length h)).
    - by replace (pos - length h) with 0 by lia.
    - by rewrite (drop_ge [e]) by (simpl; lia). }
  destruct (decide (e.1 = name)) as [<-|Hne].
  - rewrite lookup_insert_eq. split; [lia|]. rewrite elem_of_app.
    destruct (decide (pos <= length h)).
    + split; [lia|]. intros Hn. exfalso. apply Hn. right. by apply list_elem_of_singleton.
    + split; [|lia]. intros _ [Hin|?%elem_of_nil]; [|done].
      rewrite drop_ge in Hin by lia. by apply elem_of_nil in Hin.
  - rewrite lookup_insert_ne by done.
    assert (name ∉ (drop pos h).*1 ++ (if decide (pos <= length h) then [e.1] else [])
            ↔ (name ∉ (drop pos h).*1)) as Hiff.
    { rewrite elem_of_app. split; [tauto|]. intros Hn [?|Hin]; [done|].
      case_decide; [|by apply elem_of_nil in Hin]. apply list_elem_of_singleton in Hin. congruence. }
    destruct (refs (tables_of h) !! name) as [[v p]|]; [|by apply Hiff].
    split; [lia|]. rewrite Hiff. apply IH.
Qed.

Lemma bounded_as_u64 z n : bounded n → (0 <= z <= Z.of_nat n)%Z → as_u64 z = z.
Proof. unfold bounded. intros. apply as_u64_id. lia. Qed.

Lemma bounded_le m n : m ≤ n → bounded n → bounded m.
Proof. unfold bounded. lia. Qed.

(** What both implementations compute, over the tables of a history. *)
Lemma moved_check h name pos :
  bounded (length h) →
  match refs (tables_of h) !! name with
  | Some (v, p) =>
      (as_u64 p <=? Z.of_nat pos)%Z = negb (bool_decide (name ∈ (drop pos h).*1)) ∧
      spec_value h name = Some v
  | None => spec_changes h name pos = None
  end.
Proof.
  intros Hb. pose proof (tables_of_moved h name pos) as Hm. pose proof (tables_of_value h name) as Hv.
  destruct (refs (tables_of h) !! name) as [[v p]|]; simpl in *.
  - destruct Hm as [Hp Hm]. split; [|done]. rewrite (bounded_as_u64 _ (length h)) by (done || lia).
    destruct (Z.leb_spec p (Z.of_nat pos)) as [Hle|Hlt]; case_bool_decide as Hin; try done; exfalso.
    + exact (proj1 Hm Hle Hin).
    + assert (p <= Z.of_nat pos)%Z by (by apply Hm). lia.
  - unfold spec_changes. by rewrite decide_False.
Qed.

Lemma spec_changes_decide h name pos :
  spec_changes h name pos
  = if bool_decide (name ∈ (drop pos h).*1) then Some (spec_read h name) else None.
Proof. unfold spec_changes. by case_decide; case_bool_decide. Qed.

#[export] Instance sqlite_laws :
  RefAuthorityLaws SqliteRefAuthority (λ r h, tables r = tables_of h).
Proof.
  split; simpl.
  - intros r h name Hr Hb. unfold sqlite_read. rewrite Hr, tables_of_position. simpl.
    by rewrite tables_of_value, (bounded_as_u64 _ (length h)) by (done || lia).
  - intros r h name expected next Hr Hb. unfold sqlite_advance, spec_advance.
    rewrite Hr, tables_of_value.
    destruct (decide (spec_value h name = expected)) as [Heq|Hne].
    + rewrite bool_decide_false by (intros []; done). simpl. rewrite tables_of_position. simpl.
      rewrite (bounded_as_u64 _ (S (length h))) by (done || lia).
      eexists. split; [done|]. rewrite tables_of_snoc. unfold move. simpl. by rewrite tables_of_position.
    + rewrite bool_decide_true by done. rewrite tables_of_position. simpl.
      rewrite (bounded_as_u64 _ (S (length h))) by (done || lia). eauto.
  - intros r h name pos Hr Hb. unfold sqlite_changes_since. rewrite Hr, tables_of_position. simpl.
    pose proof (moved_check h name pos Hb) as Hm.
    destruct (refs (tables_of h) !! name) as [[v p]|]; [|by rewrite Hm].
    destruct Hm as [-> Hv]. rewrite spec_changes_decide. case_bool_decide; [|done]. simpl.
    unfold spec_read. by rewrite Hv, (bounded_as_u64 _ (length h)) by (done || lia).
Qed.

#[export] Instance do_laws :
  RefAuthorityLaws DoRefAuthority (λ r h, sql r = tables_of h).
Proof.
  assert (∀ r h, sql r = tables_of h → bounded (length h) →
    do_position r = Ok (Z.of_nat (length h))) as Hpos.
  { intros r h Hr Hb. unfold do_position. rewrite Hr, tables_of_position. simpl.
    by rewrite (bounded_as_u64 _ (length h)) by (done || lia). }
  split; simpl.
  - intros r h name Hr Hb. unfold do_read, do_current. by rewrite (Hpos r h), Hr, tables_of_value.
  - intros r h name expected next Hr Hb. unfold do_advance, spec_advance, do_current.
    rewrite Hr, tables_of_value.
    destruct (decide (spec_value h name = expected)) as [Heq|Hne].
    + rewrite bool_decide_false by (intros []; done). unfold do_position. simpl.
      rewrite tables_of_position. simpl.
      rewrite (bounded_as_u64 _ (S (length h))) by (done || lia).
      eexists. split; [done|]. simpl. rewrite tables_of_snoc. unfold move. simpl. rewrite tables_of_position.
      simpl. rewrite wrap_i64_id; [done|]. unfold bounded, in_i64, i64_min, i64_max in *. lia.
    + rewrite bool_decide_true by done. rewrite (Hpos r h) by (done || by eapply bounded_le; [|done]; lia).
      simpl. eauto.
  - intros r h name pos Hr Hb. unfold do_changes_since. rewrite Hr, (Hpos r h) by done.
    pose proof (moved_check h name pos Hb) as Hm.
    destruct (refs (tables_of h) !! name) as [[v p]|]; [|by rewrite Hm].
    destruct Hm as [-> Hv]. rewrite spec_changes_decide. case_bool_decide; [|done]. simpl.
    unfold spec_read. by rewrite Hv.
Qed.

(** ** Clients *)

(** Attempted advances, one after the other, by any number of writers. *)
Record Attempt := mkAttempt { at_name : string; at_expected : option string; at_next : string }.

Section clients.
Context `{RefAuthority R, !RefAuthorityLaws R repr}.
Implicit Types (r : R) (h : history).

Fixpoint run_attempts r (attempts : list Attempt) : result ref_error (R * list AdvanceOutcome) :=
  match attempts with
  | [] => Ok (r, [])
  | a :: rest =>
      '(r, outcome) ← ref_advance r (at_name a) (at_expected a) (at_next a);
      '(r, outcomes) ← run_attempts r rest;
      Ok (r, outcome :: outcomes)
  end.

(** The attempts that landed. *)
Definition landed (attempts : list Attempt) (outcomes : list AdvanceOutcome) : history :=
  omap (λ p, if advanced p.2 then Some (at_name p.1, at_next p.1) else None) (zip attempts outcomes).

Lemma spec_advance_length h name expected next :
  length (spec_advance h name expected next).1 ≤ S (length h).
Proof. unfold spec_advance. case_decide; simpl; [rewrite length_app; simpl|]; lia. Qed.

Lemma run_attempts_repr r h attempts :
  repr r h → bounded (length h + length attempts) →
  ∃ r' outcomes, run_attempts r attempts = Ok (r', outcomes) ∧ repr r' (h ++ landed attempts outcomes).
Proof.
  revert r h. induction attempts as [|a rest IH]; intros r h Hr Hb; simpl.
  { exists r, []. by rewrite app_nil_r. }
  simpl in Hb. destruct (advance_law r h (at_name a) (at_expected a) (at_next a) Hr) as (r1 & Ha & Hr1).
  { eapply bounded_le; [|done]. lia. }
  pose proof (spec_advance_length h (at_name a) (at_expected a) (at_next a)) as Hlen.
  destruct (IH r1 _ Hr1) as (r2 & outcomes & Hrun & Hr2); [eapply bounded_le; [|done]; lia|].
  rewrite Ha. simpl. rewrite Hrun. simpl. do 2 eexists. split; [done|].
  unfold landed in *. simpl. unfold spec_advance in *. case_decide; simpl in *; [|done].
  by rewrite <- app_assoc in Hr2.
Qed.

Lemma landed_length attempts outcomes : length (landed attempts outcomes) ≤ length attempts.
Proof.
  unfold landed. revert outcomes.
  induction attempts as [|a rest IH]; intros [|o outcomes]; simpl; try lia.
  specialize (IH outcomes). unfold omap in *. case_match; simpl in *; lia.
Qed.

Lemma spec_value_app h k name : (name ∉ k.*1) → spec_value (h ++ k) name = spec_value h name.
Proof.
  induction k as [|e k IH] using rev_ind; intros Hn; [by rewrite app_nil_r|].
  rewrite fmap_app in Hn. rewrite app_assoc, spec_value_snoc, decide_False by set_solver.
  apply IH. set_solver.
Qed.

(** The invariant of the driver: the locals are the authority's own value and
    position, and a client believes nothing that was not read or written. *)
Definition contention_inv (name : string) (c : Contention R) : Prop :=
  ∃ h, repr (authority c) h ∧ last_committed c = spec_value h name ∧
    last_position c = Z.of_nat (length h) ∧ committed c = length h.

Lemma contention_step_ok name seed step c :
  contention_inv name c → bounded (S (committed c)) →
  ∃ c', contention_step name seed step c = Ok c' ∧ contention_inv name c' ∧
    committed c' ≤ S (committed c).
Proof.
  intros (h & Hr & Hlc & Hlp & Hc) Hb. rewrite Hc in Hb. unfold contention_step.
  destruct (next_random (rng c)) as [state roll]. case_match.
  - rewrite (read_law _ h) by (done || by eapply bounded_le; [|done]; lia).
    eexists. split; [done|]. simpl. split; [by exists h|lia].
  - set (who := Z.testbit _ 0). set (next := (_ +:+ _)%string).
    destruct (advance_law _ h name (believed c who) next Hr Hb) as (r' & -> & Hr'). simpl.
    pose proof (spec_advance_length h name (believed c who) next) as Hlen.
    rewrite (read_law _ _ _ Hr') by (by eapply bounded_le).
    unfold spec_advance in *. simpl. case_decide as Heq; simpl in *.
    + rewrite !bool_decide_true by (done || lia || congruence). simpl.
      rewrite spec_value_snoc, decide_True by done. rewrite bool_decide_true by done.
      eexists. split; [done|]. split; [|simpl; lia]. exists (h ++ [(name, next)]).
      rewrite spec_value_snoc, decide_True, length_app by done. simpl. by repeat split; [|lia|lia].
    + rewrite !bool_decide_true by (done || congruence). simpl.
      rewrite !bool_decide_true by done. eexists. split; [done|].
      split; [by exists h|simpl; lia].
Qed.

Lemma contention_loop_ok name seed step todo c :
  contention_inv name c → bounded (committed c + todo) →
  ∃ c', contention_loop name seed step todo c = Ok c' ∧ contention_inv name c'.
Proof.
  revert step c. induction todo as [|todo IH]; intros step c Hi Hb; simpl; [eauto|].
  destruct (contention_step_ok name seed step c Hi) as (c1 & -> & Hi1 & Hle).
  { eapply bounded_le; [|done]. lia. }
  apply IH; [done|]. eapply bounded_le; [|done]. lia.
Qed.

End clients.

(** ** Theorems *)

(** C11: Both authorities are the list of committed advances: from the tables that a
    history leaves behind, a read discloses the last value written under the name
    with the number of advances as its position, an advance lands exactly when the
    name holds what the writer expected and otherwise reports what it does hold, and
    a poll answers exactly when the name moved after the caller's position; the
    native and the durable-object implementations give the same answers. *)
Theorem refs_refine_history h name expected next pos :
  bounded (S (length h)) →
  let '(h', outcome) := spec_advance h name expected next in
  sqlite_read (mkSqlite (tables_of h)) name = Ok (spec_read h name) ∧
  do_read (mkDo (tables_of h)) name = Ok (spec_read h name) ∧
  sqlite_advance (mkSqlite (tables_of h)) name expected next
    = Ok (mkSqlite (tables_of h'), outcome) ∧
  do_advance (mkDo (tables_of h)) name expected next = Ok (mkDo (tables_of h'), outcome) ∧
  sqlite_changes_since (mkSqlite (tables_of h)) name (Z.of_nat pos) = Ok (spec_changes h name pos) ∧
  do_changes_since (mkDo (tables_of h)) name (Z.of_nat pos) = Ok (spec_changes h name pos).
Proof.
  intros Hb. assert (bounded (length h)) as Hb' by (by eapply bounded_le; [|done]; lia).
  pose proof (advance_law (mkSqlite (tables_of h)) h name expected next eq_refl Hb) as Hs.
  pose proof (advance_law (mkDo (tables_of h)) h name expected next eq_refl Hb) as Hd.
  destruct (spec_advance h name expected next) as [h' outcome].
  destruct Hs as ([ts] & Hs & Hts), Hd as ([td] & Hd & Htd). simpl in *. subst ts td.
  split; [exact (read_law (R := SqliteRefAuthority) (mkSqlite (tables_of h)) h name eq_refl Hb')|].
  split; [exact (read_law (R := DoRefAuthority) (mkDo (tables_of h)) h name eq_refl Hb')|].
  do 2 (split; [done|]).
  split; [exact (changes_law (R := SqliteRefAuthority) (mkSqlite (tables_of h)) h name pos eq_refl Hb')|].
  exact (changes_law (R := DoRefAuthority) (mkDo (tables_of h)) h name pos eq_refl Hb').
Qed.

Lemma refs_refine_history_witness :
  sqlite_advance (mkSqlite (tables_of [("main", "a")])) "main" (Some "a") "b"
  = Ok (mkSqlite (tables_of [("main", "a"); ("main", "b")]), Advanced 2).
Proof.
  destruct (refs_refine_history [("main", "a")] "main" (Some "a") "b" 0) as (_ & _ & Hs & _).
  - vm_compute. reflexivity.
  - exact Hs.
Defined.

(** A poll never misses a change: from a read of a name, after any sequence of
    advances by any writers, the change feed polled at the position the read
    disclosed answers nothing exactly when none of those advances of the name landed,
    and then the value read is still current; when it answers, it answers what a
    fresh read would, so that the next poll may start from there. *)
Theorem changes_never_missed `{RefAuthority R, !RefAuthorityLaws R repr} r h name attempts :
  repr r h → bounded (length h + length attempts) →
  ∃ seen r' outcomes report current,
    ref_read r name = Ok seen ∧ run_attempts r attempts = Ok (r', outcomes) ∧
    changes_since r' name (rr_position seen) = Ok report ∧ ref_read r' name = Ok current ∧
    (report = None ↔ (name ∉ (landed attempts outcomes).*1)) ∧
    match report with
    | None => rr_value current = rr_value seen
    | Some now => now = current
    end.
Proof.
  intros Hr Hb. destruct (run_attempts_repr r h attempts Hr Hb) as (r' & outcomes & Hrun & Hr').
  pose proof (landed_length attempts outcomes) as Hl.
  assert (bounded (length (h ++ landed attempts outcomes))) as Hb'
    by (eapply bounded_le; [|done]; rewrite length_app; lia).
  exists (spec_read h name), r', outcomes. do 2 eexists.
  split; [apply read_law; [done|eapply bounded_le; [|exact Hb]; lia]|]. split; [done|].
  split; [by apply (changes_law _ (h ++ landed attempts outcomes))|].
  split; [by apply (read_law _ (h ++ landed attempts outcomes))|].
  unfold spec_changes. rewrite drop_app_length. case_decide as Hin; [by split|].
  split; [done|]. simpl. by rewrite spec_value_app.
Qed.

Lemma changes_never_missed_witness :
  ∃ seen r' outcomes report current,
    sqlite_read (mkSqlite (tables_of [("main", "a")])) "main" = Ok seen ∧
    run_attempts (mkSqlite (tables_of [("main", "a")]))
      [mkAttempt "main" None "x"; mkAttempt "dev" None "d"] = Ok (r', outcomes) ∧
    sqlite_changes_since r' "main" (rr_position seen) = Ok report ∧ sqlite_read r' "main" = Ok current ∧
    (report = None ↔ ("main" ∉ (landed [mkAttempt "main" None "x"; mkAttempt "dev" None "d"] outcomes).*1)) ∧
    match report with None => rr_value current = rr_value seen | Some now => now = current end.
Proof.
  apply (@changes_never_missed SqliteRefAuthority sqlite_refs _ sqlite_laws
    (mkSqlite (tables_of [("main", "a")])) [("main", "a")] "main"
    [mkAttempt "main" None "x"; mkAttempt "dev" None "d"]).
  - reflexivity.
  - vm_compute. reflexivity.
Defined.

(** The conformance driver finds no fault: on a fresh authority that refines the
    history, no seed and no number of steps makes any of its assertions fail, and it
    counts exactly the advances the authority recorded. *)
Theorem contention_passes `{RefAuthority R, !RefAuthorityLaws R repr} r name seed steps :
  repr r [] → bounded steps →
  ∃ r' h, run_contention r name seed steps = Ok (r', length h) ∧ repr r' h.
Proof.
  intros Hr Hb. unfold run_contention.
  destruct (contention_loop_ok name seed 0 steps (mkContention r (λ _, None) None 0 0 seed))
    as (c & -> & (h & Hrc & _ & _ & Hc)); [by exists []|done|].
  exists (authority c), h. simpl. by rewrite Hc.
Qed.

Lemma contention_passes_witness :
  ∃ r' h, run_contention (mkDo empty_tables) "mainline" 42 24 = Ok (r', length h) ∧
    sql r' = tables_of h.
Proof.
  apply (@contention_passes DoRefAuthority do_refs _ do_laws (mkDo empty_tables) "mainline" 42 24).
  - reflexivity.
  - vm_compute. reflexivity.
Defined.
