(* ===== verification/Coordination.v ===== *)
(** Coordination resources (store/coordination.rs): leases with slots and expiry,
    ledgers with minted sequence numbers, and counters with a cap and a lazily reset
    period, as the native store keeps them in its own database.

    A timestamp is a number of seconds, and the clock is read once per statement, so
    an operation takes the readings its statements make.  [datetime('now', '+n seconds')]
    is SQLite's: it is the parameter [Datetime], and is [None] (NULL) where SQLite
    rejects the modifier.  The equality index of a key ([key_index]) is modelled for
    both modes of the store; the payload columns hold the opened payloads. *)
From S2P Require Import Prelude RustStr MachineInt EventChain.
From stdpp Require Import pretty.

(** ** Data *)

Inductive AcquireOutcome := Held | Contended (holders : list string).

Inductive ConsumeOutcome := CounterOk (remaining : Z) | CounterOver (remaining : Z).

Record LeaseRow := mkLease {
  le_owner : string;
  le_resource : string;
  le_key : string;
  le_holder : string;
  le_acquired_at : Z;
  le_expires_at : Z;
  le_key_payload : string;
}.

Record LedgerEntry := mkLedgerEntry {
  en_owner : string;
  en_ledger : string;
  en_partition : string;
  en_seq : Z;
  en_payload_json : string;
  en_appended_by : string;
  en_appended_at : Z;
  en_partition_payload : string;
}.

Record CounterRow := mkCounter { co_consumed : Z; co_period : string; co_key_payload : string }.

Record CoordinationStore := mkCoordination {
  leases : list LeaseRow;
  ledger_entries : list LedgerEntry;
  ledger_seq : gmap (string * string) Z;
  counters : gmap (string * string * string) CounterRow;
  coord_applied : gmap (string * string) string;
}.

(** [Conflict] for a marker that does not read back, and the constraints of the
    tables. *)
Inductive coord_error :=
| CorruptOutcome (effect_id recorded : string)
| NullExpiry
| DuplicateEntry (ledger : string) (seq : Z)
| KeyMismatch (index : string).

(** [datetime(t, '+n seconds')] and [datetime(t, '-n seconds')] of SQLite: the text of
    the shifted instant, or NULL. *)
Class Datetime := { plus_seconds : Z → Z → option Z; minus_seconds : Z → Z → option Z }.

(** [serde_json::to_vec] of a tuple of strings. *)
Class JsonStrings := json_strings : list string → string.

#[export] Instance lease_row_eq_dec : EqDecision LeaseRow.
Proof. solve_decision. Defined.
#[export] Instance acquire_outcome_eq_dec : EqDecision AcquireOutcome.
Proof. solve_decision. Defined.
#[export] Instance consume_outcome_eq_dec : EqDecision ConsumeOutcome.
Proof. solve_decision. Defined.

Section coordination.
Context `{Sha256, Datetime, JsonStrings}.
(** The domain of the host codec, [None] for a plain store. *)
Context (protection : option string).
Local Open Scope string_scope.

Definition DEFAULT_COORDINATION_OWNER : string := "shared".

Definition normalized_owner (owner : string) : string :=
  if nonempty owner then owner else DEFAULT_COORDINATION_OWNER.

Definition key_index (plane owner resource key : string) : string :=
  match protection with
  | None => key
  | Some domain =>
      "coord-key:" +:+ sha256_hex (json_strings
        ["whipplescript.coordination-key.v1"; domain; plane; owner; resource; key])
  end.

(** [open_key]: the opened key must be the one its index was made from. *)
Definition open_key (plane owner resource index payload : string) : result coord_error string :=
  if bool_decide (key_index plane owner resource payload = index) then Ok payload
  else Err (KeyMismatch index).

Definition format_consume_outcome (outcome : ConsumeOutcome) : string :=
  match outcome with
  | CounterOk remaining => "Ok:" +:+ pretty remaining
  | CounterOver remaining => "Over:" +:+ pretty remaining
  end.

Definition parse_consume_outcome (recorded : string) : option ConsumeOutcome :=
  '(variant, remaining) ← split_once ":" recorded;
  remaining ← parse_i64 remaining;
  if bool_decide (variant = "Ok") then Some (CounterOk remaining)
  else if bool_decide (variant = "Over") then Some (CounterOver remaining)
  else None.

(** ** Leases *)

(** The rows of one lease: [WHERE owner = ?1 AND resource = ?2 AND key = ?3]. *)
Definition on_lease (owner resource key : string) (r : LeaseRow) : Prop :=
  le_owner r = owner ∧ le_resource r = resource ∧ le_key r = key.
#[global] Instance on_lease_dec owner resource key r : Decision (on_lease owner resource key r).
Proof. unfold on_lease. apply _. Defined.

Definition set_leases (s : CoordinationStore) (rows : list LeaseRow) : CoordinationStore :=
  mkCoordination rows (ledger_entries s) (ledger_seq s) (counters s) (coord_applied s).

(** [ORDER BY acquired_at]. *)
Definition by_acquired (r1 r2 : LeaseRow) : Prop := (le_acquired_at r1 <= le_acquired_at r2)%Z.
#[global] Instance by_acquired_dec r1 r2 : Decision (by_acquired r1 r2).
Proof. unfold by_acquired. apply _. Defined.

(** [now] is the clock of the expiry, [later] that of the insertion. *)
Definition try_acquire_for_owner (s : CoordinationStore) (now later : Z)
    (owner resource key : string) (slots ttl_seconds : Z) (holder : string)
    : result coord_error (CoordinationStore * AcquireOutcome) :=
  let owner := normalized_owner owner in
  let key_payload := key in
  let key := key_index "coord.lease.key" owner resource key in
  let live := filter (λ r, ¬ (on_lease owner resource key r ∧ (le_expires_at r <= now)%Z)) (leases s) in
  let rows := filter (on_lease owner resource key) live in
  if existsb (λ r, bool_decide (le_holder r = holder)) rows then Ok (set_leases s live, Held)
  else if (Z.of_nat (length rows) <? slots)%Z
  then
    expires_at ← ok_or NullExpiry (plus_seconds later ttl_seconds);
    Ok (set_leases s (live ++ [mkLease owner resource key holder later expires_at key_payload]), Held)
  else Ok (set_leases s live, Contended (le_holder <$> merge_sort by_acquired rows)).

Definition release_for_owner (s : CoordinationStore) (owner resource key holder : string)
    : CoordinationStore * bool :=
  let owner := normalized_owner owner in
  let key := key_index "coord.lease.key" owner resource key in
  let matched r := on_lease owner resource key r ∧ le_holder r = holder in
  (set_leases s (filter (λ r, ¬ matched r) (leases s)),
   bool_decide (filter matched (leases s) ≠ [])).

Definition renew_row (owner resource key holder : string) (now expires_at : Z) (r : LeaseRow) : LeaseRow :=
  if bool_decide (on_lease owner resource key r ∧ le_holder r = holder ∧ (now < le_expires_at r)%Z)
  then mkLease (le_owner r) (le_resource r) (le_key r) (le_holder r) (le_acquired_at r) expires_at
         (le_key_payload r)
  else r.

(** The update matches at most one row, by the primary key. *)
Definition renew_lease_for_owner (s : CoordinationStore) (now : Z)
    (owner resource key : string) (ttl_seconds : Z) (holder : string)
    : result coord_error (CoordinationStore * option Z) :=
  let owner := normalized_owner owner in
  let key := key_index "coord.lease.key" owner resource key in
  let matched r := bool_decide (on_lease owner resource key r ∧ le_holder r = holder
                                ∧ (now < le_expires_at r)%Z) in
  if existsb matched (leases s) then
    expires_at ← ok_or NullExpiry (plus_seconds now ttl_seconds);
    Ok (set_leases s (renew_row owner resource key holder now expires_at <$> leases s), Some expires_at)
  else Ok (s, None).

Definition release_all_for_holder (s : CoordinationStore) (holder : string) : CoordinationStore * nat :=
  (set_leases s (filter (λ r, le_holder r ≠ holder) (leases s)),
   length (filter (λ r, le_holder r = holder) (leases s))).

(** ** Ledgers *)

Definition on_ledger (owner ledger : string) (e : LedgerEntry) : Prop :=
  en_owner e = owner ∧ en_ledger e = ledger.
#[global] Instance on_ledger_dec owner ledger e : Decision (on_ledger owner ledger e).
Proof. unfold on_ledger. apply _. Defined.

(** [appended_at <= cutoff], which a NULL cutoff never satisfies. *)
Definition past (cutoff : option Z) (e : LedgerEntry) : Prop :=
  match cutoff with Some t => (en_appended_at e <= t)%Z | None => False end.
#[global] Instance past_dec cutoff e : Decision (past cutoff e).
Proof. unfold past. destruct cutoff; apply _. Defined.

Definition append_for_owner_marked (s : CoordinationStore) (now later : Z)
    (owner ledger partition payload_json appended_by : string) (retain_seconds : Z)
    (effect_id : option string) : result coord_error (CoordinationStore * Z) :=
  let owner := normalized_owner owner in
  let partition_index := key_index "coord.ledger.partition" owner ledger partition in
  match effect_id ≫= λ e, pair e <$> coord_applied s !! (owner, e) with
  | Some (e, recorded) =>
      seq ← ok_or (CorruptOutcome e recorded) (parse_i64 recorded);
      Ok (s, seq)
  | None =>
      let seq := default 1%Z (ledger_seq s !! (owner, ledger)) in
      _ ← ensure (bool_decide (Forall (λ e, ¬ (on_ledger owner ledger e ∧ en_seq e = seq))
                    (ledger_entries s))) (DuplicateEntry ledger seq);
      let entry := mkLedgerEntry owner ledger partition_index seq payload_json appended_by now
                     partition in
      let cutoff := minus_seconds later retain_seconds in
      Ok (mkCoordination (leases s)
            (filter (λ e, ¬ (on_ledger owner ledger e ∧ past cutoff e)) (ledger_entries s ++ [entry])%list)
            (<[ (owner, ledger) := (seq + 1)%Z ]> (ledger_seq s))
            (counters s)
            (match effect_id with
             | Some e => <[ (owner, e) := pretty seq ]> (coord_applied s)
             | None => coord_applied s
             end), seq)
  end.

Definition append_for_owner (s : CoordinationStore) (now later : Z)
    (owner ledger partition payload_json appended_by : string) (retain_seconds : Z) :=
  append_for_owner_marked s now later owner ledger partition payload_json appended_by retain_seconds None.
Definition append_for_owner_idempotent (s : CoordinationStore) (now later : Z)
    (owner ledger partition payload_json appended_by : string) (retain_seconds : Z)
    (effect_id : string) :=
  append_for_owner_marked s now later owner ledger partition payload_json appended_by retain_seconds
    (Some effect_id).

(** ** Counters *)

(** The row after [INSERT OR IGNORE] and the reset of a rolled period. *)
Definition rolled (row : option CounterRow) (period key_payload : string) : CounterRow :=
  match row with
  | Some c => if bool_decide (co_period c = period) then c else mkCounter 0 period (co_key_payload c)
  | None => mkCounter 0 period key_payload
  end.

(** The charge itself: [None] when the amount is refused. *)
Definition charge (consumed amount cap : Z) : option Z :=
  match checked_add_i64 consumed amount with
  | Some total => if (0 <=? amount)%Z && (total <=? cap)%Z then Some total else None
  | None => None
  end.

Definition consume_for_owner_marked (s : CoordinationStore) (owner counter key : string)
    (amount cap : Z) (period : string) (effect_id : option string)
    : result coord_error (CoordinationStore * ConsumeOutcome) :=
  let owner := normalized_owner owner in
  let key_payload := key in
  let key := key_index "coord.counter.key" owner counter key in
  match effect_id ≫= λ e, pair e <$> coord_applied s !! (owner, e) with
  | Some (e, recorded) =>
      outcome ← ok_or (CorruptOutcome e recorded) (parse_consume_outcome recorded);
      Ok (s, outcome)
  | None =>
      let row := rolled (counters s !! (owner, counter, key)) period key_payload in
      let consumed := co_consumed row in
      let '(row, outcome) :=
        match charge consumed amount cap with
        | Some total => (mkCounter (consumed + amount) period (co_key_payload row), CounterOk (wrap_i64 (cap - total)))
        | None => (row, CounterOver (Z.max (wrap_i64 (cap - consumed)) 0))
        end in
      Ok (mkCoordination (leases s) (ledger_entries s) (ledger_seq s)
            (<[ (owner, counter, key) := row ]> (counters s))
            (match effect_id with
             | Some e => <[ (owner, e) := format_consume_outcome outcome ]> (coord_applied s)
             | None => coord_applied s
             end), outcome)
  end.

Definition consume_for_owner (s : CoordinationStore) (owner counter key : string)
    (amount cap : Z) (period : string) :=
  consume_for_owner_marked s owner counter key amount cap period None.
Definition consume_for_owner_idempotent (s : CoordinationStore) (owner counter key : string)
    (amount cap : Z) (period effect_id : string) :=
  consume_for_owner_marked s owner counter key amount cap period (Some effect_id).

(** ** The shared owner *)

Definition try_acquire (s : CoordinationStore) (now later : Z) (resource key : string)
    (slots ttl_seconds : Z) (holder : string) :=
  try_acquire_for_owner s now later DEFAULT_COORDINATION_OWNER resource key slots ttl_seconds holder.
Definition release (s : CoordinationStore) (resource key holder : string) :=
  release_for_owner s DEFAULT_COORDINATION_OWNER resource key holder.
Definition append (s : CoordinationStore) (now later : Z)
    (ledger partition payload_json appended_by : string) (retain_seconds : Z) :=
  append_for_owner s now later DEFAULT_COORDINATION_OWNER ledger partition payload_json appended_by
    retain_seconds.
Definition consume (s : CoordinationStore) (counter key : string) (amount cap : Z) (period : string) :=
  consume_for_owner s DEFAULT_COORDINATION_OWNER counter key amount cap period.

(** ** Listings *)

(** [Ordering::then]. *)
Definition then_cmp (a b : comparison) : comparison := match a with Eq => b | _ => a end.
Definition not_after {A} (cmp : A → A → comparison) (x y : A) : Prop := cmp x y ≠ Gt.
#[global] Instance not_after_dec {A} (cmp : A → A → comparison) x y : Decision (not_after cmp x y).
Proof. unfold not_after. destruct (cmp x y); apply _. Defined.

Definition lease_cmp (a b : LeaseRow) : comparison :=
  then_cmp (String.compare (le_owner a) (le_owner b))
    (then_cmp (String.compare (le_resource a) (le_resource b))
      (then_cmp (String.compare (le_key a) (le_key b))
        (Z.compare (le_acquired_at a) (le_acquired_at b)))).

(** [?1 IS NULL OR column = ?1]. *)
Definition selects (wanted : option string) (value : string) : bool :=
  match wanted with Some w => bool_decide (value = w) | None => true end.

Definition list_leases_for_owner (s : CoordinationStore) (owner resource : option string)
    : result coord_error (list LeaseRow) :=
  let owner := normalized_owner <$> owner in
  rows ← collect (λ r,
    key ← open_key "coord.lease.key" (le_owner r) (le_resource r) (le_key r) (le_key_payload r);
    Ok (mkLease (le_owner r) (le_resource r) key (le_holder r) (le_acquired_at r) (le_expires_at r)
          (le_key_payload r)))
    (filter (λ r, selects owner (le_owner r) && selects resource (le_resource r)) (leases s));
  Ok (merge_sort (not_after lease_cmp) rows).

Definition entry_cmp (a b : LedgerEntry) : comparison :=
  then_cmp (String.compare (en_owner a) (en_owner b))
    (then_cmp (String.compare (en_ledger a) (en_ledger b)) (Z.compare (en_seq a) (en_seq b))).

Definition list_entries_for_owner (s : CoordinationStore) (owner ledger partition : option string)
    : result coord_error (list LedgerEntry) :=
  let owner := normalized_owner <$> owner in
  let wanted e := match partition with
    | Some p => bool_decide (key_index "coord.ledger.partition" (en_owner e) (en_ledger e) p
                             = en_partition e)
    | None => true
    end in
  collect (λ e,
    partition ← open_key "coord.ledger.partition" (en_owner e) (en_ledger e) (en_partition e)
      (en_partition_payload e);
    Ok (mkLedgerEntry (en_owner e) (en_ledger e) partition (en_seq e) (en_payload_json e)
          (en_appended_by e) (en_appended_at e) (en_partition_payload e)))
    (filter wanted (merge_sort (not_after entry_cmp)
      (filter (λ e, selects owner (en_owner e) && selects ledger (en_ledger e)) (ledger_entries s)))).

(** [ledger_positions_impl]: the column [next_seq] of a ledger. *)
Definition ledger_positions (s : CoordinationStore) (owner ledger : string) : option Z :=
  ledger_seq s !! (owner, ledger).

(** ** The operations as steps *)

(** A write with the arguments of a workflow: amounts and caps are [i64]s, and the
    slots of a resource are those its declaration fixes. *)
Inductive coord_step (slots_of : string → string → Z) : CoordinationStore → CoordinationStore → Prop :=
| step_acquire s now later owner resource key ttl holder s' outcome :
    try_acquire_for_owner s now later owner resource key
      (slots_of (normalized_owner owner) resource) ttl holder = Ok (s', outcome) →
    coord_step slots_of s s'
| step_release s owner resource key holder :
    coord_step slots_of s (release_for_owner s owner resource key holder).1
| step_renew s now owner resource key ttl holder s' expires :
    renew_lease_for_owner s now owner resource key ttl holder = Ok (s', expires) →
    coord_step slots_of s s'
| step_release_all s holder : coord_step slots_of s (release_all_for_holder s holder).1
| step_append s now later owner ledger partition payload by_ retain effect s' seq :
    append_for_owner_marked s now later owner ledger partition payload by_ retain effect = Ok (s', seq) →
    coord_step slots_of s s'
| step_consume s owner counter key amount cap period effect s' outcome :
    in_i64 amount → in_i64 cap →
    consume_for_owner_marked s owner counter key amount cap period effect = Ok (s', outcome) →
    coord_step slots_of s s'.

Definition empty_coordination : CoordinationStore := mkCoordination [] [] ∅ ∅ ∅.

End coordination.

(** ** Leases: lemmas *)

(** Who holds one lease, expired rows included. *)
Definition holders_of (rows : list LeaseRow) (owner resource key : string) : list string :=
  le_holder <$> filter (on_lease owner resource key) rows.

Definition lease_inv (slots_of : string → string → Z) (rows : list LeaseRow) : Prop :=
  ∀ o r k, NoDup (holders_of rows o r k) ∧
    (Z.of_nat (length (holders_of rows o r k)) <= Z.max 0 (slots_of o r))%Z.

Lemma holders_of_sublist rows rows' o r k :
  rows' `sublist_of` rows → holders_of rows' o r k `sublist_of` holders_of rows o r k.
Proof. intros Hs. unfold holders_of. by apply fmap_sublist, filter_sublist. Qed.

Lemma lease_inv_sublist slots_of rows rows' :
  rows' `sublist_of` rows → lease_inv slots_of rows → lease_inv slots_of rows'.
Proof.
  intros Hs Hi o r k. destruct (Hi o r k) as [Hn Hl].
  pose proof (holders_of_sublist rows rows' o r k Hs) as Hh.
  split; [by eapply sublist_NoDup|]. apply sublist_length in Hh. lia.
Qed.

Lemma holders_of_snoc rows row o r k :
  holders_of (rows ++ [row]) o r k
  = holders_of rows o r k ++ (if decide (on_lease o r k row) then [le_holder row] else []).
Proof.
  unfold holders_of. rewrite filter_app, fmap_app, filter_cons, filter_nil.
  by destruct (decide _).
Qed.

Lemma lease_inv_snoc slots_of rows row :
  lease_inv slots_of rows →
  let hs := holders_of rows (le_owner row) (le_resource row) (le_key row) in
  (le_holder row ∉ hs) → (Z.of_nat (length hs) < slots_of (le_owner row) (le_resource row))%Z →
  lease_inv slots_of (rows ++ [row]).
Proof.
  intros Hi hs Hn Hl o r k. rewrite holders_of_snoc. destruct (Hi o r k) as [Hd Hb].
  destruct (decide (on_lease o r k row)) as [(<- & <- & <-)|]; [|by rewrite app_nil_r].
  split.
  - apply NoDup_app. split; [done|]. split; [|apply NoDup_singleton]. set_solver.
  - rewrite length_app. simpl. unfold hs in Hl. lia.
Qed.

Lemma renew_row_fields o r k h now e row :
  let row' := renew_row o r k h now e row in
  le_owner row' = le_owner row ∧ le_resource row' = le_resource row ∧ le_key row' = le_key row
  ∧ le_holder row' = le_holder row ∧ le_key_payload row' = le_key_payload row.
Proof. unfold renew_row. by case_bool_decide. Qed.

Lemma holders_of_renew o r k h now e rows o' r' k' :
  holders_of (renew_row o r k h now e <$> rows) o' r' k' = holders_of rows o' r' k'.
Proof.
  unfold holders_of. induction rows as [|row rows IH]; [done|].
  rewrite fmap_cons, !filter_cons.
  destruct (renew_row_fields o r k h now e row) as (Ho & Hr & Hk & Hh & _).
  destruct (decide (on_lease o' r' k' row)) as [Hon|Hon];
    destruct (decide (on_lease o' r' k' (renew_row o r k h now e row))) as [Hon'|Hon'];
    unfold on_lease in Hon, Hon'; rewrite ?Ho, ?Hr, ?Hk in Hon'; try (exfalso; tauto); [|done].
  rewrite !fmap_cons, Hh. by f_equal.
Qed.

Section lemmas.
Context `{Sha256, Datetime, JsonStrings} (protection : option string).
Implicit Types s : CoordinationStore.

(** What an attempt does, before the order of the holders is looked at. *)
Lemma try_acquire_cases s now later owner resource key slots ttl holder s' outcome :
  try_acquire_for_owner protection s now later owner resource key slots ttl holder
    = Ok (s', outcome) →
  let o := normalized_owner owner in
  let k := key_index protection "coord.lease.key" o resource key in
  let live := filter (λ r, ¬ (on_lease o resource k r ∧ (le_expires_at r <= now)%Z)) (leases s) in
  let hs := holders_of live o resource k in
  (outcome = Held ∧ s' = set_leases s live ∧ holder ∈ hs) ∨
  (∃ expires, outcome = Held ∧ (holder ∉ hs) ∧ (Z.of_nat (length hs) < slots)%Z ∧
     plus_seconds later ttl = Some expires ∧
     s' = set_leases s (live ++ [mkLease o resource k holder later expires key])) ∨
  (∃ holders, outcome = Contended holders ∧ holders ≡ₚ hs ∧ (holder ∉ hs) ∧
     (slots <= Z.of_nat (length hs))%Z ∧ s' = set_leases s live).
Proof.
  intros Ha o k live hs. unfold try_acquire_for_owner in Ha.
  fold o in Ha. fold k in Ha. fold live in Ha.
  assert (existsb (λ r, bool_decide (le_holder r = holder)) (filter (on_lease o resource k) live) = true
          ↔ holder ∈ hs) as Hex.
  { rewrite existsb_elem. unfold hs, holders_of. rewrite list_elem_of_fmap.
    split; intros (r & Hr1 & Hr2); exists r; [by reflect_bool|]. by rewrite bool_decide_true. }
  assert (length (filter (on_lease o resource k) live) = length hs) as Hlen
    by (unfold hs, holders_of; by rewrite length_fmap).
  rewrite Hlen in Ha. destruct (existsb _ _).
  { left. injection Ha as <- <-. split; [done|]. split; [done|]. by apply Hex. }
  assert (holder ∉ hs) as Hnot by (rewrite <- Hex; done).
  right. destruct (Z.ltb_spec (Z.of_nat (length hs)) slots).
  - left. destruct (plus_seconds later ttl) as [e|]; [|done]. simpl in Ha. simplify_eq. eauto 10.
  - right. simplify_eq. eexists. split; [done|].
    split; [|done]. unfold hs, holders_of. by rewrite merge_sort_Permutation.
Qed.

Lemma try_acquire_lease_inv slots_of s now later owner resource key ttl holder s' outcome :
  lease_inv slots_of (leases s) →
  try_acquire_for_owner protection s now later owner resource key
    (slots_of (normalized_owner owner) resource) ttl holder = Ok (s', outcome) →
  lease_inv slots_of (leases s').
Proof.
  intros Hi Ha. apply try_acquire_cases in Ha.
  set (live := filter _ (leases s)) in Ha.
  assert (lease_inv slots_of live) as Hlive by (eapply lease_inv_sublist; [apply sublist_filter|done]).
  destruct Ha as [(_ & -> & _)|[(e & _ & Hn & Hl & _ & ->)|(hs & _ & _ & _ & _ & ->)]];
    [done| |done].
  by apply lease_inv_snoc.
Qed.

(** *** Ledgers *)

Definition entry_key (e : LedgerEntry) : string * string * Z := (en_owner e, en_ledger e, en_seq e).

Definition ledger_inv s : Prop :=
  NoDup (entry_key <$> ledger_entries s) ∧
  (∀ e, e ∈ ledger_entries s →
     ∃ next, ledger_seq s !! (en_owner e, en_ledger e) = Some next ∧ (en_seq e < next)%Z).

Lemma append_marked_cases s now later owner ledger partition payload by_ retain effect s' seq :
  append_for_owner_marked protection s now later owner ledger partition payload by_ retain effect
    = Ok (s', seq) →
  let o := normalized_owner owner in
  (∃ e recorded, effect = Some e ∧ coord_applied s !! (o, e) = Some recorded ∧
     parse_i64 recorded = Some seq ∧ s' = s) ∨
  ((∀ e, effect = Some e → coord_applied s !! (o, e) = None) ∧
   seq = default 1%Z (ledger_seq s !! (o, ledger)) ∧
   leases s' = leases s ∧ counters s' = counters s ∧
   ledger_seq s' = <[ (o, ledger) := (seq + 1)%Z ]> (ledger_seq s) ∧
   ledger_entries s' `sublist_of` ledger_entries s ++
     [mkLedgerEntry o ledger (key_index protection "coord.ledger.partition" o ledger partition) seq
        payload by_ now partition] ∧
   coord_applied s' = match effect with
                      | Some e => <[ (o, e) := pretty seq ]> (coord_applied s)
                      | None => coord_applied s
                      end).
Proof.
  intros Ha o. unfold append_for_owner_marked in Ha. fold o in Ha.
  destruct (effect ≫= _) as [[e recorded]|] eqn:He.
  - left. apply bind_Some in He as (e' & -> & He). apply fmap_Some in He as (x & Hx & [= <- <-]).
    destruct (parse_i64 recorded) eqn:Hp; [|done]. simpl in Ha. simplify_eq. eauto 10.
  - right. apply bind_ok in Ha as ([] & _ & Ha). simplify_eq. simpl.
    split; [|split_and!; try done; apply sublist_filter].
    intros e ->. simpl in He. by apply fmap_None in He.
Qed.

Lemma append_ledger_inv s now later owner ledger partition payload by_ retain effect s' seq :
  ledger_inv s →
  append_for_owner_marked protection s now later owner ledger partition payload by_ retain effect
    = Ok (s', seq) →
  ledger_inv s'.
Proof.
  intros [Hd Hb] Ha. apply append_marked_cases in Ha
    as [(e & rec & _ & _ & _ & ->)|(_ & Hseq & _ & _ & Hnext & Hsub & _)]; [done|].
  set (o := normalized_owner owner) in *. split.
  - eapply sublist_NoDup; [|by apply fmap_sublist]. rewrite fmap_app. apply NoDup_app.
    split; [done|]. split; [|apply NoDup_singleton].
    intros k (e & -> & He)%list_elem_of_fmap Hk%list_elem_of_singleton.
    destruct (Hb e He) as (next & Hn & Hlt). unfold entry_key in Hk. simpl in Hk.
    injection Hk as Ho Hl Hs. rewrite Ho, Hl in Hn. rewrite Hn in Hseq. simpl in Hseq. lia.
  - intros e He. rewrite Hnext.
    assert (e ∈ ledger_entries s ++ [mkLedgerEntry o ledger
      (key_index protection "coord.ledger.partition" o ledger partition) seq payload by_ now partition])
      as [He'|He'%list_elem_of_singleton]%elem_of_app by (by eapply elem_of_sublist).
    + destruct (Hb e He') as (next & Hn & Hlt).
      destruct (decide ((en_owner e, en_ledger e) = (o, ledger))) as [[= Ho Hl]|Hne].
      * rewrite Ho, Hl in *. rewrite lookup_insert_eq. eexists. split; [done|].
        rewrite Hn in Hseq. simpl in Hseq. lia.
      * rewrite lookup_insert_ne by congruence. eauto.
    + subst e. simpl. rewrite lookup_insert_eq. eexists. split; [done|lia].
Qed.

(** The next number of a ledger is free, so an append that is not a replay never
    meets the primary key. *)
Lemma append_never_duplicates s now later owner ledger partition payload by_ retain :
  ledger_inv s →
  ∃ s' seq, append_for_owner_marked protection s now later owner ledger partition payload by_ retain None
    = Ok (s', seq).
Proof.
  intros [_ Hb]. unfold append_for_owner_marked. simpl.
  rewrite bool_decide_true; [simpl; eauto|].
  apply Forall_forall. intros e He [[Ho Hl] Hs].
  destruct (Hb e He) as (next & Hn & Hlt). rewrite Ho, Hl in Hn. rewrite Hn in Hs. simpl in Hs. lia.
Qed.

(** *** Counters *)

Definition counter_inv s : Prop :=
  ∀ k c, counters s !! k = Some c → (0 <= co_consumed c)%Z ∧ in_i64 (co_consumed c).

(** What a counter has consumed in a period. *)
Definition used s (owner counter key period : string) : Z :=
  let o := normalized_owner owner in
  co_consumed (rolled (counters s !! (o, counter, key_index protection "coord.counter.key" o counter key))
    period key).

Lemma rolled_bounds s k period payload :
  counter_inv s →
  let c := rolled (counters s !! k) period payload in
  (0 <= co_consumed c)%Z ∧ in_i64 (co_consumed c).
Proof.
  intros Hi. unfold rolled. destruct (counters s !! k) as [c|] eqn:Hc; [|by vm_compute].
  case_bool_decide; [by apply (Hi k)|by vm_compute].
Qed.

Lemma used_bounds s owner counter key period :
  counter_inv s → (0 <= used s owner counter key period)%Z ∧ in_i64 (used s owner counter key period).
Proof. intros Hi. by apply rolled_bounds. Qed.

Lemma charge_Some consumed amount cap total :
  in_i64 cap → (0 <= consumed)%Z →
  charge consumed amount cap = Some total ↔
  (0 <= amount)%Z ∧ (consumed + amount <= cap)%Z ∧ total = (consumed + amount)%Z.
Proof.
  intros Hcap Hc. unfold charge. destruct (checked_add_i64 consumed amount) as [t|] eqn:Ht.
  - apply checked_add_i64_Some in Ht as [_ ->].
    destruct (Z.leb_spec 0 amount), (Z.leb_spec (consumed + amount) cap); simpl;
      (split; [intros [= <-]; done || lia | intros (? & ? & ->); done || (exfalso; lia)]).
  - split; [done|]. intros (Ha & Hle & _). unfold checked_add_i64 in Ht.
    case_bool_decide as Hn; [done|]. exfalso. apply Hn.
    unfold in_i64, i64_min, i64_max in *. lia.
Qed.

Lemma parse_format_consume_outcome outcome :
  match outcome with CounterOk r | CounterOver r => in_i64 r end →
  parse_consume_outcome (format_consume_outcome outcome) = Some outcome.
Proof.
  intros Hr. destruct outcome as [r|r]; unfold parse_consume_outcome, format_consume_outcome.
  - change (split_once ":" ("Ok:" +:+ pretty r)) with (Some ("Ok"%string, pretty r)).
    simpl. by rewrite parse_i64_pretty.
  - change (split_once ":" ("Over:" +:+ pretty r)) with (Some ("Over"%string, pretty r)).
    simpl. by rewrite parse_i64_pretty.
Qed.

(** A consume that is not a replay: the charge is exact in unbounded arithmetic. *)
Lemma consume_marked_cases s owner counter key amount cap period effect s' outcome :
  counter_inv s → in_i64 cap →
  consume_for_owner_marked protection s owner counter key amount cap period effect = Ok (s', outcome) →
  let o := normalized_owner owner in
  let k := (o, counter, key_index protection "coord.counter.key" o counter key) in
  let u := used s owner counter key period in
  (∃ e recorded, effect = Some e ∧ coord_applied s !! (o, e) = Some recorded ∧
     parse_consume_outcome recorded = Some outcome ∧ s' = s) ∨
  ((∀ e, effect = Some e → coord_applied s !! (o, e) = None) ∧
   leases s' = leases s ∧ ledger_entries s' = ledger_entries s ∧ ledger_seq s' = ledger_seq s ∧
   (∃ payload, counters s' = <[ k := mkCounter (used s' owner counter key period) period payload ]> (counters s)
      ∧ co_key_payload (rolled (counters s !! k) period key) = payload) ∧
   ((0 <= amount)%Z ∧ (u + amount <= cap)%Z ∧ used s' owner counter key period = (u + amount)%Z ∧
      outcome = CounterOk (cap - (u + amount))
    ∨ ((amount < 0)%Z ∨ (cap < u + amount)%Z) ∧ used s' owner counter key period = u ∧
      outcome = CounterOver (Z.max (wrap_i64 (cap - u)) 0)) ∧
   coord_applied s' = match effect with
                      | Some e => <[ (o, e) := format_consume_outcome outcome ]> (coord_applied s)
                      | None => coord_applied s
                      end).
Proof.
  intros Hi Hcap Ha o k u. unfold consume_for_owner_marked in Ha. fold o k in Ha.
  destruct (effect ≫= _) as [[e recorded]|] eqn:He.
  - left. apply bind_Some in He as (e' & -> & He). apply fmap_Some in He as (x & Hx & [= <- <-]).
    destruct (parse_consume_outcome recorded) eqn:Hp; [|done]. simpl in Ha. simplify_eq. eauto 10.
  - right. destruct (used_bounds s owner counter key period Hi) as [Hu0 Hu]. fold u in Hu0, Hu.
    change (co_consumed (rolled (counters s !! k) period key)) with u in Ha.
    split; [intros e ->; simpl in He; by apply fmap_None in He|].
    pose proof (charge_Some u amount cap) as Hch.
    destruct (charge u amount cap) as [total|].
    + destruct (proj1 (Hch total Hcap Hu0) eq_refl) as (Ha0 & Hle & ->).
      simplify_eq. unfold used. simpl. fold o k. rewrite lookup_insert_eq. simpl.
      rewrite bool_decide_true by done. simpl.
      split_and!; eauto. left. rewrite wrap_i64_id; [done|].
      unfold in_i64, i64_min, i64_max in *. lia.
    + assert ((amount < 0)%Z ∨ (cap < u + amount)%Z) as Hno.
      { destruct (decide (0 <= amount)%Z); [|lia]. destruct (decide (u + amount <= cap)%Z); [|lia].
        exfalso. by assert (None = Some (u + amount)%Z) by (by apply Hch). }
      simplify_eq. unfold used. simpl. fold o k. rewrite lookup_insert_eq. simpl.
      rewrite bool_decide_true.
      2:{ unfold rolled. destruct (counters s !! k); [case_bool_decide|]; done. }
      split_and!; eauto. eexists. split; [|done].
      f_equal. unfold rolled. destruct (counters s !! k) as [[]|]; [case_bool_decide|]; simpl in *; by subst.
Qed.

Lemma consume_counter_inv s owner counter key amount cap period effect s' outcome :
  counter_inv s → in_i64 cap →
  consume_for_owner_marked protection s owner counter key amount cap period effect = Ok (s', outcome) →
  counter_inv s'.
Proof.
  intros Hi Hcap Ha. destruct (used_bounds s owner counter key period Hi) as [Hu0 Hu].
  apply consume_marked_cases in Ha
    as [(? & ? & _ & _ & _ & ->)|(_ & _ & _ & _ & (p & Hc & _) & Hcase & _)]; [done| |done|done].
  intros k c. rewrite Hc. rewrite lookup_insert_Some. intros [[_ <-]|[_ Hk]]; [|by apply (Hi k)].
  simpl. unfold in_i64, i64_min, i64_max in *.
  destruct Hcase as [(? & ? & -> & _)|(_ & -> & _)]; lia.
Qed.

(** *** The invariant of the store *)

(** The index column of every row is the index of the key the row opens to. *)
Definition index_inv s : Prop :=
  Forall (λ r, le_key r = key_index protection "coord.lease.key" (le_owner r) (le_resource r)
                            (le_key_payload r)) (leases s) ∧
  Forall (λ e, en_partition e = key_index protection "coord.ledger.partition" (en_owner e) (en_ledger e)
                                  (en_partition_payload e)) (ledger_entries s).

Record coord_inv (slots_of : string → string → Z) s : Prop := {
  inv_leases : lease_inv slots_of (leases s);
  inv_ledgers : ledger_inv s;
  inv_counters : counter_inv s;
  inv_index : index_inv s;
}.

Lemma coord_inv_leases slots_of s rows :
  coord_inv slots_of s → lease_inv slots_of rows →
  Forall (λ r, le_key r = key_index protection "coord.lease.key" (le_owner r) (le_resource r)
                            (le_key_payload r)) rows →
  coord_inv slots_of (set_leases s rows).
Proof. intros [? ? ? [_ ?]] ? ?. by split. Qed.

Lemma coord_inv_filter slots_of s P `{∀ r, Decision (P r)} :
  coord_inv slots_of s → coord_inv slots_of (set_leases s (filter P (leases s))).
Proof.
  intros Hi. apply coord_inv_leases; [done| |].
  - eapply lease_inv_sublist; [apply sublist_filter|apply Hi].
  - eapply sublist_Forall; [apply sublist_filter|apply Hi].
Qed.

Lemma coord_step_inv slots_of s s' :
  coord_inv slots_of s → coord_step protection slots_of s s' → coord_inv slots_of s'.
Proof.
  intros Hi Hs. revert Hi. destruct Hs as
    [s now later owner resource key ttl holder s' outcome Ha|s owner resource key holder
    |s now owner resource key ttl holder s' expires Ha|s holder
    |s now later owner ledger partition payload by_ retain effect s' seq Ha
    |s owner counter key amount cap period effect s' outcome _ Hcap Ha]; intros Hi.
  - pose proof (try_acquire_lease_inv _ _ _ _ _ _ _ _ _ _ _ (inv_leases _ _ Hi) Ha) as Hl.
    apply try_acquire_cases in Ha as [(_ & -> & _)|[(e & _ & _ & _ & _ & ->)|(hs & _ & _ & _ & _ & ->)]];
      [by apply coord_inv_filter| |by apply coord_inv_filter].
    apply coord_inv_leases; [done|done|]. apply Forall_app. split; [|by repeat constructor].
    eapply sublist_Forall; [apply sublist_filter|apply Hi].
  - by apply coord_inv_filter.
  - unfold renew_lease_for_owner in Ha. case_match; [|by simplify_eq].
    apply bind_ok in Ha as (e & _ & Ha). simplify_eq. apply coord_inv_leases; [done| |].
    + intros o r k. rewrite holders_of_renew. apply (inv_leases _ _ Hi).
    + apply Forall_fmap. eapply Forall_impl; [apply Hi|]. intros row Hrow. simpl.
      destruct (renew_row_fields (normalized_owner owner) resource
        (key_index protection "coord.lease.key" (normalized_owner owner) resource key) holder now e row)
        as (-> & -> & -> & _ & ->). done.
  - by apply coord_inv_filter.
  - pose proof (append_ledger_inv _ _ _ _ _ _ _ _ _ _ _ _ (inv_ledgers _ _ Hi) Ha) as Hl.
    apply append_marked_cases in Ha as [(? & ? & _ & _ & _ & ->)|(_ & _ & Hle & Hco & _ & Hsub & _)]; [done|].
    split; [by rewrite Hle; apply Hi|done|by unfold counter_inv; rewrite Hco; apply Hi|].
    split; [rewrite Hle; apply Hi|]. eapply sublist_Forall; [done|].
    apply Forall_app. split; [apply Hi|by repeat constructor].
  - pose proof (consume_counter_inv _ _ _ _ _ _ _ _ _ _ (inv_counters _ _ Hi) Hcap Ha) as Hc.
    apply consume_marked_cases in Ha
      as [(? & ? & _ & _ & _ & ->)|(_ & Hle & Hen & Hse & _)]; [done| |apply Hi|done].
    split; [by rewrite Hle; apply Hi| |done|].
    + unfold ledger_inv. rewrite Hen, Hse. apply Hi.
    + unfold index_inv. rewrite Hle, Hen. apply Hi.
Qed.

Lemma empty_coordination_inv slots_of : coord_inv slots_of empty_coordination.
Proof.
  split.
  - intros o r k. split; [apply NoDup_nil_2|simpl; lia].
  - split; [apply NoDup_nil_2|by intros e ?%elem_of_nil].
  - intros k c. simpl. by rewrite lookup_empty.
  - by split; constructor.
Qed.

Lemma coord_steps_inv slots_of s s' :
  coord_inv slots_of s → rtc (coord_step protection slots_of) s s' → coord_inv slots_of s'.
Proof. intros Hi. induction 1; eauto using coord_step_inv. Qed.

Lemma coord_reachable_inv slots_of s :
  rtc (coord_step protection slots_of) empty_coordination s → coord_inv slots_of s.
Proof. apply coord_steps_inv, empty_coordination_inv. Qed.

(** A marker stays: no operation removes or rewrites one. *)
Lemma coord_step_applied slots_of s s' :
  coord_inv slots_of s → coord_step protection slots_of s s' → coord_applied s ⊆ coord_applied s'.
Proof.
  intros Hi Hs. revert Hi. destruct Hs as
    [s now later owner resource key ttl holder s' outcome Ha|s owner resource key holder
    |s now owner resource key ttl holder s' expires Ha|s holder
    |s now later owner ledger partition payload by_ retain effect s' seq Ha
    |s owner counter key amount cap period effect s' outcome _ Hcap Ha]; intros Hi; try done.
  - by apply try_acquire_cases in Ha as [(_ & -> & _)|[(e & _ & _ & _ & _ & ->)|(hs & _ & _ & _ & _ & ->)]].
  - unfold renew_lease_for_owner in Ha. case_match; [|by simplify_eq].
    apply bind_ok in Ha as (e & _ & Ha). by simplify_eq.
  - apply append_marked_cases in Ha as [(? & ? & _ & _ & _ & ->)|(Hn & _ & _ & _ & _ & _ & ->)]; [done|].
    destruct effect as [e|]; [|done]. by apply insert_subseteq, Hn.
  - apply consume_marked_cases in Ha
      as [(? & ? & _ & _ & _ & ->)|(Hn & _ & _ & _ & _ & _ & ->)]; [done| |apply Hi|done].
    destruct effect as [e|]; [|done]. by apply insert_subseteq, Hn.
Qed.

Lemma coord_steps_applied slots_of s s' :
  coord_inv slots_of s → rtc (coord_step protection slots_of) s s' → coord_applied s ⊆ coord_applied s'.
Proof.
  intros Hi Hr. revert Hi. induction Hr as [|s1 s2 s3 H12 _ IH]; intros Hi; [done|].
  etrans; [by eapply coord_step_applied|]. apply IH. by eapply coord_step_inv.
Qed.

Lemma consume_outcome_range s owner counter key amount cap period s' outcome effect :
  counter_inv s → in_i64 cap → (∀ e, effect = Some e → coord_applied s !! (normalized_owner owner, e) = None) →
  consume_for_owner_marked protection s owner counter key amount cap period effect = Ok (s', outcome) →
  match outcome with CounterOk r | CounterOver r => in_i64 r end.
Proof.
  intros Hi Hcap Hn Ha. destruct (used_bounds s owner counter key period Hi) as [Hu0 Hu].
  apply consume_marked_cases in Ha
    as [(e & ? & -> & Hs & _)|(_ & _ & _ & _ & _ & Hcase & _)]; [| |done|done].
  { by rewrite (Hn e eq_refl) in Hs. }
  destruct Hcase as [(? & ? & _ & ->)|(_ & _ & ->)].
  - unfold in_i64, i64_min, i64_max in *. lia.
  - pose proof (wrap_i64_range (cap - used s owner counter key period)).
    unfold in_i64, i64_min, i64_max in *. lia.
Qed.

(** After an idempotent operation, its marker reads back as its outcome. *)
Lemma consume_marker s owner counter key amount cap period effect s' outcome :
  counter_inv s → in_i64 cap →
  consume_for_owner_idempotent protection s owner counter key amount cap period effect = Ok (s', outcome) →
  ∃ recorded, coord_applied s' !! (normalized_owner owner, effect) = Some recorded ∧
    parse_consume_outcome recorded = Some outcome.
Proof.
  intros Hi Hcap Ha. unfold consume_for_owner_idempotent in Ha.
  pose proof (consume_outcome_range s owner counter key amount cap period s' outcome (Some effect) Hi Hcap) as Hr.
  destruct (coord_applied s !! (normalized_owner owner, effect)) as [rec|] eqn:Hrec.
  - apply consume_marked_cases in Ha
      as [(e & recorded & [= <-] & Hs & Hp & ->)|(Hn & _)]; [eauto| |done|done].
    by rewrite (Hn _ eq_refl) in Hrec.
  - assert (match outcome with CounterOk r | CounterOver r => in_i64 r end) as Hrange
      by (apply Hr; [naive_solver|done]).
    apply consume_marked_cases in Ha
      as [(e & recorded & [= <-] & Hs & Hp & ->)|(_ & _ & _ & _ & _ & _ & ->)]; [eauto| |done|done].
    exists (format_consume_outcome outcome). rewrite lookup_insert_eq.
    split; [done|]. by apply parse_format_consume_outcome.
Qed.

Lemma append_marker s now later owner ledger partition payload by_ retain effect s' seq :
  in_i64 seq →
  append_for_owner_idempotent protection s now later owner ledger partition payload by_ retain effect
    = Ok (s', seq) →
  ∃ recorded, coord_applied s' !! (normalized_owner owner, effect) = Some recorded ∧
    parse_i64 recorded = Some seq.
Proof.
  intros Hseq Ha. apply append_marked_cases in Ha
    as [(e & recorded & [= <-] & Hs & Hp & ->)|(_ & _ & _ & _ & _ & _ & ->)]; [eauto|].
  exists (pretty seq). rewrite lookup_insert_eq. split; [done|]. by apply parse_i64_pretty.
Qed.

(** A marker answers a repeated operation by itself. *)
Lemma consume_replays s owner counter key amount cap period effect recorded outcome :
  coord_applied s !! (normalized_owner owner, effect) = Some recorded →
  parse_consume_outcome recorded = Some outcome →
  consume_for_owner_idempotent protection s owner counter key amount cap period effect = Ok (s, outcome).
Proof.
  intros Hs Hp. unfold consume_for_owner_idempotent, consume_for_owner_marked. simpl.
  rewrite Hs. simpl. by rewrite Hp.
Qed.

Lemma append_replays s now later owner ledger partition payload by_ retain effect recorded seq :
  coord_applied s !! (normalized_owner owner, effect) = Some recorded → parse_i64 recorded = Some seq →
  append_for_owner_idempotent protection s now later owner ledger partition payload by_ retain effect
    = Ok (s, seq).
Proof.
  intros Hs Hp. unfold append_for_owner_idempotent, append_for_owner_marked. simpl.
  rewrite Hs. simpl. by rewrite Hp.
Qed.

End lemmas.

(** ** Theorems *)

(** A clock that never overflows, an encoding of string lists, and a resource with one
    slot, for the examples. *)
Definition example_datetime : Datetime :=
  {| plus_seconds t n := Some (t + n)%Z; minus_seconds t n := Some (t - n)%Z |}.
Definition example_json : JsonStrings := λ l, String.concat "" ((λ x, field (Some x)) <$> l).

(** C12: Leases exclude: in every store the operations can reach, no lease is held by
    more parties than its resource has slots, expired rows included, and no party
    holds it twice; acquisitions, renewals, releases and the other resources may be
    interleaved in any order, at any clock readings. *)
Theorem lease_exclusion `{Sha256, Datetime, JsonStrings} protection slots_of s owner resource key :
  rtc (coord_step protection slots_of) empty_coordination s →
  let holders := holders_of (leases s) owner resource
    (key_index protection "coord.lease.key" owner resource key) in
  NoDup holders ∧ (Z.of_nat (length holders) <= Z.max 0 (slots_of owner resource))%Z.
Proof. intros Hr. apply (inv_leases _ _ _ (coord_reachable_inv _ _ _ Hr)). Qed.

Definition one_slot : string → string → Z := λ _ _, 1%Z.
Definition held_by_a : CoordinationStore :=
  mkCoordination [mkLease "shared" "deploy" "prod" "a" 100 160 "prod"] [] ∅ ∅ ∅.

Lemma held_by_a_reachable :
  rtc (@coord_step example_sha example_datetime example_json None one_slot) empty_coordination held_by_a.
Proof.
  apply rtc_once, (step_acquire _ _ _ 99 100 "shared" "deploy" "prod" 60 "a" _ Held).
  vm_compute. reflexivity.
Qed.

Lemma lease_exclusion_witness :
  (Z.of_nat (length (holders_of (leases held_by_a) "shared" "deploy" "prod")) <= 1)%Z.
Proof.
  apply (@lease_exclusion example_sha example_datetime example_json None one_slot held_by_a
    "shared" "deploy" "prod" held_by_a_reachable).
Defined.

(** An attempt to acquire is answered truthfully: held means that the party has a
    row that had not expired, or that it has just been given one under the slot limit
    with the requested expiry; contended means that the unexpired holders are exactly
    the ones reported, fill the slots, and do not include the party.  In every case
    the rows of other leases stay as they were. *)
Theorem try_acquire_exact `{Sha256, Datetime, JsonStrings} protection s now later owner resource key
    slots ttl holder s' outcome :
  try_acquire_for_owner protection s now later owner resource key slots ttl holder = Ok (s', outcome) →
  let o := normalized_owner owner in
  let k := key_index protection "coord.lease.key" o resource key in
  let live := filter (λ r, (now < le_expires_at r)%Z) (filter (on_lease o resource k) (leases s)) in
  match outcome with
  | Held =>
      (∃ r, r ∈ live ∧ r ∈ leases s' ∧ le_holder r = holder) ∨
      (∃ r, r ∈ leases s' ∧ on_lease o resource k r ∧ le_holder r = holder ∧
         plus_seconds later ttl = Some (le_expires_at r) ∧ (Z.of_nat (length live) < slots)%Z)
  | Contended holders =>
      holders ≡ₚ le_holder <$> live ∧ (slots <= Z.of_nat (length holders))%Z ∧ (holder ∉ holders)
  end ∧
  filter (λ r, ¬ on_lease o resource k r) (leases s')
  = filter (λ r, ¬ on_lease o resource k r) (leases s).
Proof.
  intros Ha o k live. apply try_acquire_cases in Ha. fold o k in Ha.
  set (kept := filter _ (leases s)) in Ha.
  assert (filter (on_lease o resource k) kept = live) as Hlive.
  { unfold kept, live. rewrite !list_filter_filter. apply list_filter_iff. intros r.
    split.
    - intros [Hon Hn]. split; [|done]. destruct (decide (le_expires_at r <= now)%Z); [|lia].
      exfalso. by apply Hn.
    - intros [Hlt Hon]. split; [done|]. intros [_ ?]. lia. }
  assert (filter (λ r, ¬ on_lease o resource k r) kept = filter (λ r, ¬ on_lease o resource k r) (leases s))
    as Hframe.
  { unfold kept. rewrite list_filter_filter. apply list_filter_iff. naive_solver. }
  unfold holders_of in Ha. rewrite Hlive in Ha.
  destruct Ha as [(-> & -> & Hin)|[(e & -> & Hn & Hl & He & ->)|(hs & -> & Hp & Hn & Hl & ->)]].
  - split; [|done]. left. apply list_elem_of_fmap in Hin as (r & -> & Hr). exists r.
    split; [done|]. split; [|done]. simpl. rewrite <- Hlive in Hr. by apply list_elem_of_filter in Hr as [_ ?].
  - split.
    + right. eexists. split; [apply elem_of_app; right; by apply list_elem_of_singleton|].
      rewrite length_fmap in Hl. by repeat split.
    + simpl. rewrite filter_app, Hframe, filter_cons_False, filter_nil, app_nil_r; [done|].
      intros Hno. by apply Hno.
  - split; [|done]. split; [done|]. rewrite Hp. split; [done|]. done.
Qed.

Lemma try_acquire_exact_witness :
  ["a"] ≡ₚ le_holder <$> leases held_by_a ∧ (1 <= 1)%Z ∧ ("b" ∉ ["a"]).
Proof.
  refine (proj1 (@try_acquire_exact example_sha example_datetime example_json None held_by_a 120 121
    "shared" "deploy" "prod" 1 60 "b" held_by_a (Contended ["a"]) _)).
  vm_compute. reflexivity.
Defined.

(** C35: An effect is applied at most once: once an idempotent charge or append of an
    effect has been answered, every later one under the same owner and effect, with
    whatever arguments and after whatever operations, returns the recorded answer
    and leaves the store as it is. *)
Theorem effect_applied_once `{Sha256, Datetime, JsonStrings} protection slots_of s owner effect :
  rtc (coord_step protection slots_of) empty_coordination s →
  (∀ counter key amount cap period s1 outcome s2 counter' key' amount' cap' period',
     in_i64 cap →
     consume_for_owner_idempotent protection s owner counter key amount cap period effect
       = Ok (s1, outcome) →
     in_i64 amount → rtc (coord_step protection slots_of) s1 s2 →
     consume_for_owner_idempotent protection s2 owner counter' key' amount' cap' period' effect
       = Ok (s2, outcome)) ∧
  (∀ now later ledger partition payload by_ retain s1 seq s2 now' later' ledger' partition' payload'
     by_' retain',
     append_for_owner_idempotent protection s now later owner ledger partition payload by_ retain effect
       = Ok (s1, seq) →
     in_i64 seq → rtc (coord_step protection slots_of) s1 s2 →
     append_for_owner_idempotent protection s2 now' later' owner ledger' partition' payload' by_' retain'
       effect = Ok (s2, seq)).
Proof.
  intros Hr. pose proof (coord_reachable_inv _ _ _ Hr) as Hi. split.
  - intros counter key amount cap period s1 outcome s2 ? ? ? ? ? Hcap Ha Ham Hsteps.
    destruct (consume_marker _ _ _ _ _ _ _ _ _ _ _ (inv_counters _ _ _ Hi) Hcap Ha) as (rec & Hs1 & Hp).
    eapply consume_replays; [|done]. eapply lookup_weaken; [done|].
    eapply coord_steps_applied; [|done]. eapply coord_step_inv; [done|].
    by eapply (step_consume _ _ s owner counter key amount cap period (Some effect)).
  - intros now later ledger partition payload by_ retain s1 seq s2 ? ? ? ? ? ? ? Ha Hseq Hsteps.
    destruct (append_marker _ _ _ _ _ _ _ _ _ _ _ _ _ Hseq Ha) as (rec & Hs1 & Hp).
    eapply append_replays; [|done]. eapply lookup_weaken; [done|].
    eapply coord_steps_applied; [|done]. eapply coord_step_inv; [done|].
    by eapply (step_append _ _ s now later owner ledger partition payload by_ retain (Some effect)).
Qed.

Definition charged_once : CoordinationStore :=
  mkCoordination [] [] ∅ {[ ("shared", "tokens", "day") := mkCounter 7 "2026-07" "day" ]}
    {[ ("shared", "eff_1") := "Ok:3" ]}.

Lemma effect_applied_once_witness :
  @consume_for_owner_idempotent example_sha example_json None charged_once "" "tokens" "day" 7 10 "2026-08" "eff_1"
  = Ok (charged_once, CounterOk 3).
Proof.
  destruct (@effect_applied_once example_sha example_datetime example_json None one_slot
    empty_coordination "" "eff_1" (rtc_refl _ _)) as [Hc _].
  refine (Hc "tokens" "day" 7%Z 10%Z "2026-07" charged_once (CounterOk 3) charged_once _ _ _ _ _ _ _ _
    (rtc_refl _ _)).
  - vm_compute. split; discriminate.
  - vm_compute. reflexivity.
  - vm_compute. split; discriminate.
Defined.

(** A counter charges exactly within its cap: from a reachable store and for [i64]
    arguments, a charge is granted precisely when the amount is not negative and the
    period's use plus the amount is at most the cap, in unbounded arithmetic, so that
    no overflow lets one through; the remainder is exact; a refused charge leaves the
    use as it is; a rolled period starts from zero; and no other counter moves. *)
Theorem consume_exact `{Sha256, Datetime, JsonStrings} protection slots_of s owner counter key amount cap
    period :
  rtc (coord_step protection slots_of) empty_coordination s → in_i64 amount → in_i64 cap →
  ∃ s' outcome,
    consume_for_owner protection s owner counter key amount cap period = Ok (s', outcome) ∧
    (let u := used protection s owner counter key period in
     if decide (0 <= amount ∧ u + amount <= cap)%Z
     then outcome = CounterOk (cap - u - amount) ∧
          used protection s' owner counter key period = (u + amount)%Z
     else (0 <= cap → outcome = CounterOver (Z.max 0 (cap - u)))%Z ∧
          (∃ r, outcome = CounterOver r) ∧
          used protection s' owner counter key period = u) ∧
    (∀ o c k, (o, c, k) ≠ (normalized_owner owner, counter,
        key_index protection "coord.counter.key" (normalized_owner owner) counter key) →
       counters s' !! (o, c, k) = counters s !! (o, c, k)).
Proof.
  intros Hr Ham Hcap. pose proof (inv_counters _ _ _ (coord_reachable_inv _ _ _ Hr)) as Hi.
  destruct (used_bounds protection s owner counter key period Hi) as [Hu0 Hu].
  assert (∃ s' outcome, consume_for_owner protection s owner counter key amount cap period
            = Ok (s', outcome)) as (s' & outcome & Ha).
  { unfold consume_for_owner, consume_for_owner_marked. simpl. case_match; eauto. }
  exists s', outcome. split; [done|].
  apply consume_marked_cases in Ha
    as [(? & ? & ? & _)|(_ & _ & _ & _ & (p & Hc & _) & Hcase & _)]; [done| |done|done].
  set (u := used protection s owner counter key period) in *. split.
  - simpl. destruct Hcase as [(H1' & H2' & -> & ->)|(Hno & -> & ->)].
    + rewrite decide_True by done. split; [|done]. f_equal. lia.
    + rewrite decide_False by lia. split; [|eauto]. intros Hc0. f_equal.
      rewrite wrap_i64_id; [lia|]. unfold in_i64, i64_min, i64_max in *. lia.
  - intros o c k Hne. by rewrite Hc, lookup_insert_ne.
Qed.

Lemma consume_exact_witness :
  ∃ s' outcome,
    @consume_for_owner example_sha example_json None empty_coordination "" "tokens" "day"
      i64_max 10 "2026-07" = Ok (s', outcome) ∧ ∃ r, outcome = CounterOver r.
Proof.
  destruct (@consume_exact example_sha example_datetime example_json None one_slot empty_coordination
    "" "tokens" "day" i64_max 10 "2026-07" (rtc_refl _ _)) as (s' & outcome & Ha & Hcase & _).
  - vm_compute. split; discriminate.
  - vm_compute. split; discriminate.
  - exists s', outcome. split; [exact Ha|]. simpl in Hcase.
    rewrite decide_False in Hcase; [apply Hcase|]. vm_compute. intros [_ Hle]. by apply Hle.
Defined.

(** A ledger never reuses a number: from a reachable store an append is never
    refused by the primary key, its number is above every number the ledger holds,
    pruned entries notwithstanding, numbers stay distinct, and the reported position
    of the ledger is the number after the last one minted. *)
Theorem ledger_numbers `{Sha256, Datetime, JsonStrings} protection slots_of s now later owner ledger
    partition payload by_ retain :
  rtc (coord_step protection slots_of) empty_coordination s →
  let o := normalized_owner owner in
  ∃ s' seq,
    append_for_owner protection s now later owner ledger partition payload by_ retain = Ok (s', seq) ∧
    seq = default 1%Z (ledger_positions s o ledger) ∧
    ledger_positions s' o ledger = Some (seq + 1)%Z ∧
    (∀ e, e ∈ ledger_entries s → on_ledger o ledger e → (en_seq e < seq)%Z) ∧
    NoDup (entry_key <$> ledger_entries s').
Proof.
  intros Hr o. pose proof (inv_ledgers _ _ _ (coord_reachable_inv _ _ _ Hr)) as Hi.
  destruct (append_never_duplicates protection s now later owner ledger partition payload by_ retain Hi)
    as (s' & seq & Ha). exists s', seq. split; [done|].
  destruct (append_ledger_inv _ _ _ _ _ _ _ _ _ _ _ _ _ Hi Ha) as [Hd _].
  apply append_marked_cases in Ha as [(? & ? & ? & _)|(_ & -> & _ & _ & Hnext & _)]; [done|].
  split; [done|]. split; [unfold ledger_positions; by rewrite Hnext, lookup_insert_eq|].
  split; [|done]. intros e He [Ho Hl]. destruct Hi as [_ Hb].
  destruct (Hb e He) as (next & Hn & Hlt). rewrite Ho, Hl in Hn. fold o. by rewrite Hn.
Qed.

Lemma ledger_numbers_witness :
  ∃ s' seq, @append_for_owner example_sha example_datetime example_json None empty_coordination 5 5
    "" "audit" "p" "{}" "w" 3600 = Ok (s', seq) ∧ ledger_positions s' "shared" "audit" = Some (seq + 1)%Z.
Proof.
  destruct (@ledger_numbers example_sha example_datetime example_json None one_slot empty_coordination 5 5
    "" "audit" "p" "{}" "w" 3600 (rtc_refl _ _)) as (s' & seq & Ha & _ & Hp & _).
  exists s', seq. split; [exact Ha|exact Hp].
Defined.

(** A listing opens: over a reachable store, protected or plain, the listings of
    leases and of ledger entries succeed, every selected row is reported under the
    key it was written with, and nothing else is reported. *)
Theorem listings_open `{Sha256, Datetime, JsonStrings} protection slots_of s owner resource ledger :
  rtc (coord_step protection slots_of) empty_coordination s →
  let mine o := selects (normalized_owner <$> owner) o in
  (∃ rows, list_leases_for_owner protection s owner resource = Ok rows ∧
     rows ≡ₚ (λ r, mkLease (le_owner r) (le_resource r) (le_key_payload r) (le_holder r)
                     (le_acquired_at r) (le_expires_at r) (le_key_payload r))
             <$> filter (λ r, mine (le_owner r) && selects resource (le_resource r)) (leases s)) ∧
  (∃ entries, list_entries_for_owner protection s owner ledger None = Ok entries ∧
     entries ≡ₚ (λ e, mkLedgerEntry (en_owner e) (en_ledger e) (en_partition_payload e) (en_seq e)
                        (en_payload_json e) (en_appended_by e) (en_appended_at e) (en_partition_payload e))
             <$> filter (λ e, mine (en_owner e) && selects ledger (en_ledger e)) (ledger_entries s)).
Proof.
  intros Hr mine. destruct (inv_index _ _ _ (coord_reachable_inv _ _ _ Hr)) as [Hl He].
  split.
  - unfold list_leases_for_owner. erewrite collect_fmap; [simpl|].
    + eexists. split; [done|]. by rewrite merge_sort_Permutation.
    + intros r [_ Hin]%list_elem_of_filter. rewrite Forall_forall in Hl. rewrite (Hl r Hin).
      unfold open_key. by rewrite bool_decide_true.
  - unfold list_entries_for_owner. erewrite collect_fmap.
    + eexists. split; [done|]. apply fmap_Permutation.
      rewrite filter_all by done. by rewrite merge_sort_Permutation.
    + intros e [_ Hin]%list_elem_of_filter. rewrite merge_sort_Permutation in Hin.
      apply list_elem_of_filter in Hin as [_ Hin]. rewrite Forall_forall in He. rewrite (He e Hin).
      unfold open_key. by rewrite bool_decide_true.
Qed.

Lemma listings_open_witness :
  ∃ rows, @list_leases_for_owner example_sha example_json None held_by_a None None = Ok rows.
Proof.
  destruct (@listings_open example_sha example_datetime example_json None one_slot held_by_a None None None
    held_by_a_reachable) as [(rows & Hrows & _) _].
  exists rows. exact Hrows.
Defined.
