(* ===== verification/InstanceMachine.v ===== *)
(** The sans-IO scheduler of one workflow instance (kernel/instance_machine.rs) over
    the step-machine vocabulary (kernel/sansio.rs): a machine that runs rule passes and
    ready effects to a fixpoint, suspends on an HTTP round and resumes the suspended
    effect, and the native host loop that runs it to completion.

    The rule pass and the effects are the driver's, behind the interface
    [InstanceDriver], and the transport is the host's, behind [HostDriver].  The
    scheduler's loop has no bound in the source, and whether it ends is up to the driver:
    here it takes fuel, and [None] says that the fuel ran out.  JSON values and store
    errors are parameters. *)
From S2P Require Import Prelude RustStr EventLog.

(** ** The vocabulary (sansio.rs) *)

Record ModelContentProvenance := mkProvenance {
  source_handles : list string;
  complete : bool;
}.

(** [ModelContentProvenance::derived_from]. *)
Definition derived_from (parts : list ModelContentProvenance) : ModelContentProvenance :=
  let '(handles, complete) := foldl (λ '(handles, all) part,
    (handles ∪ list_to_set (source_handles part), all && complete part)) (∅ : gset string, true) parts in
  mkProvenance (set_keys handles) complete.

Inductive ModelWireInputFormat :=
| AnthropicMessages | OpenAiResponses | OpenAiChatCompat | CoercedTools.

Record ModelWireInputProvenance := mkWire {
  wire_format : ModelWireInputFormat;
  wire_items : list ModelContentProvenance;
  wire_system : option ModelContentProvenance;
}.

Record ModelRequestProvenance := mkRequestProvenance {
  pv_messages : list ModelContentProvenance;
  pv_tools : ModelContentProvenance;
  pv_wire : option ModelWireInputProvenance;
}.

Inductive TransportError :=
| Timeout
| Transport (message : string)
| RetryBudgetExhausted (message : string).

Section vocabulary.
Context {Value : Type}.

Record HttpRequest := mkHttpRequest {
  rq_url : string;
  rq_headers : list (string * string);
  rq_body : Value;
  rq_model_provenance : option ModelRequestProvenance;
}.

Record HttpResponse := mkHttpResponse { rs_status : N; rs_body : Value }.

Inductive IoRequest := ReqHttp (request : HttpRequest).
Inductive IoResult := ResHttp (response : result TransportError HttpResponse).

Inductive Outcome (T : Type) := NeedsIo (request : IoRequest) | Settle (output : T).

End vocabulary.
Arguments HttpRequest : clear implicits.
Arguments HttpResponse : clear implicits.
Arguments IoRequest : clear implicits.
Arguments IoResult : clear implicits.
Arguments Outcome : clear implicits.
Arguments NeedsIo {Value T}.
Arguments Settle {Value T}.

(** ** The scheduler (instance_machine.rs) *)

Record ClaimableEffect := mkClaimable {
  cl_attempt_admission_event_id : option string;
  cl_effect_id : string;
  cl_kind : string;
  cl_target : option string;
  cl_profile : option string;
  cl_input_json : string;
  cl_required_capabilities_json : string;
  cl_declared_profiles_json : string;
}.
#[export] Instance claimable_eq_dec : EqDecision ClaimableEffect.
Proof. solve_decision. Defined.

Inductive EffectStep (Value : Type) :=
| StepDone (event : StoredEvent)
| StepDeferred (event : StoredEvent)
| StepNeedsHttp (request : HttpRequest Value)
| StepParked.
Arguments StepDone {Value}.
Arguments StepDeferred {Value}.
Arguments StepNeedsHttp {Value}.
Arguments StepParked {Value}.

Inductive InstanceOutcome (StoreError : Type) :=
| Terminal
| Parked
| Failed (error : StoreError).
Arguments Terminal {StoreError}.
Arguments Parked {StoreError}.
Arguments Failed {StoreError}.

(** A method of [&mut self] returns the driver as it left it, also when it fails. *)
Class InstanceDriver (Value StoreError D : Type) := {
  advance_rules : D → D * result StoreError bool;
  next_ready_effect : D → D * result StoreError (option ClaimableEffect);
  run_effect : D → ClaimableEffect → option (result TransportError (HttpResponse Value)) →
               D * result StoreError (EffectStep Value);
}.

(** The host that performs a request (sansio.rs, [HostDriver]).  [fulfill] takes [&self] and
    talks to the world: equal requests may be answered differently, so that it returns the
    host with its next state. *)
Class HostDriver (Value H : Type) := {
  fulfill : H → IoRequest Value → H * IoResult Value;
}.

Record InstanceStepMachine (D : Type) := mkMachine {
  driver : D;
  in_flight : option ClaimableEffect;
}.
Arguments mkMachine {D}.
Arguments driver {D}.
Arguments in_flight {D}.

Section machine.
Context `{InstanceDriver Value StoreError D}.

Definition new (d : D) : InstanceStepMachine D := mkMachine d None.
Definition into_driver (m : InstanceStepMachine D) : D := driver m.

(** What running an effect means for the machine: [None] falls through into the
    fixpoint. *)
Definition after_effect (d : D) (effect : ClaimableEffect) (r : result StoreError (EffectStep Value))
    : InstanceStepMachine D * option (Outcome Value (InstanceOutcome StoreError)) :=
  match r with
  | Ok (StepDone _) | Ok (StepDeferred _) => (mkMachine d None, None)
  | Ok (StepNeedsHttp request) =>
      (mkMachine d (Some effect), Some (NeedsIo (ReqHttp request)))
  | Ok StepParked => (mkMachine d None, Some (Settle Parked))
  | Err error => (mkMachine d None, Some (Settle (Failed error)))
  end.

(** The loop of [step]. *)
Fixpoint fixpoint_loop (fuel : nat) (d : D)
    : option (InstanceStepMachine D * Outcome Value (InstanceOutcome StoreError)) :=
  match fuel with
  | 0 => None
  | S fuel' =>
      let '(d, rules) := advance_rules d in
      match rules with
      | Ok true => Some (mkMachine d None, Settle Terminal)
      | Err error => Some (mkMachine d None, Settle (Failed error))
      | Ok false =>
          let '(d, ready) := next_ready_effect d in
          match ready with
          | Ok None => Some (mkMachine d None, Settle Parked)
          | Err error => Some (mkMachine d None, Settle (Failed error))
          | Ok (Some effect) =>
              let '(d, r) := run_effect d effect None in
              match after_effect d effect r with
              | (m, Some outcome) => Some (m, outcome)
              | (m, None) => fixpoint_loop fuel' (driver m)
              end
          end
      end
  end.

Definition step (fuel : nat) (m : InstanceStepMachine D) (incoming : option (IoResult Value))
    : option (InstanceStepMachine D * Outcome Value (InstanceOutcome StoreError)) :=
  match in_flight m with
  | Some effect =>
      let response := (λ '(ResHttp result), result) <$> incoming in
      let '(d, r) := run_effect (driver m) effect response in
      match after_effect d effect r with
      | (m, Some outcome) => Some (m, outcome)
      | (m, None) => fixpoint_loop fuel (driver m)
      end
  | None => fixpoint_loop fuel (driver m)
  end.

(** [run_to_completion], over at most [rounds] HTTP rounds. *)
Fixpoint run_to_completion `{HostDriver Value W} (rounds fuel : nat) (host : W)
    (m : InstanceStepMachine D) (incoming : option (IoResult Value))
    : option (InstanceStepMachine D * W * InstanceOutcome StoreError) :=
  match rounds with
  | 0 => None
  | S rounds' =>
      match step fuel m incoming with
      | Some (m, NeedsIo request) =>
          let '(host, answer) := fulfill host request in run_to_completion rounds' fuel host m (Some answer)
      | Some (m, Settle output) => Some (m, host, output)
      | None => None
      end
  end.

End machine.

(** ** The lifecycle *)

(** The calls a driver receives, with its answers. *)
Inductive call (Value StoreError : Type) :=
| CallRules (answer : result StoreError bool)
| CallReady (answer : result StoreError (option ClaimableEffect))
| CallRun (effect : ClaimableEffect) (incoming : option (result TransportError (HttpResponse Value)))
    (answer : result StoreError (EffectStep Value)).
Arguments CallRules {Value StoreError}.
Arguments CallReady {Value StoreError}.
Arguments CallRun {Value StoreError}.

(** A driver that records its calls. *)
#[export] Instance traced `{InstanceDriver Value StoreError D} :
    InstanceDriver Value StoreError (D * list (call Value StoreError)) := {
  advance_rules s := let '(d, r) := advance_rules s.1 in ((d, s.2 ++ [CallRules r]), r);
  next_ready_effect s := let '(d, r) := next_ready_effect s.1 in ((d, s.2 ++ [CallReady r]), r);
  run_effect s e i := let '(d, r) := run_effect s.1 e i in ((d, s.2 ++ [CallRun e i r]), r);
}.

(** A host that records what it performed. *)
#[export] Instance traced_host `{HostDriver Value W} : HostDriver Value (W * list (IoRequest Value * IoResult Value)) := {
  fulfill s request := let '(h, answer) := fulfill s.1 request in ((h, s.2 ++ [(request, answer)]), answer);
}.

Section lifecycle.
Context {Value StoreError : Type}.

(** The requests that a sequence of calls asks for, and the answers it hands over. *)
Definition requests (calls : list (call Value StoreError)) : list (IoRequest Value) :=
  omap (λ c, match c with CallRun _ _ (Ok (StepNeedsHttp request)) => Some (ReqHttp request) | _ => None end) calls.
Definition responses (calls : list (call Value StoreError)) : list (IoResult Value) :=
  omap (λ c, match c with CallRun _ (Some r) _ => Some (ResHttp r) | _ => None end) calls.

(** Where an instance stands between two calls. *)
Inductive phase :=
| AtRules
| AtReady
| AtRun (effect : ClaimableEffect)
| Waiting (effect : ClaimableEffect) (request : HttpRequest Value)
| Settled (outcome : InstanceOutcome StoreError).

Definition after_run (e : ClaimableEffect) (r : result StoreError (EffectStep Value)) : phase :=
  match r with
  | Ok (StepDone _) | Ok (StepDeferred _) => AtRules
  | Ok (StepNeedsHttp request) => Waiting e request
  | Ok StepParked => Settled Parked
  | Err error => Settled (Failed error)
  end.

(** The fixpoint of the module's documentation; [answers] relates a request to what
    the resumed effect is given. *)
Inductive lifecycle
    (answers : HttpRequest Value → option (result TransportError (HttpResponse Value)) → Prop)
    : phase → call Value StoreError → phase → Prop :=
| lc_terminal : lifecycle answers AtRules (CallRules (Ok true)) (Settled Terminal)
| lc_quiescent : lifecycle answers AtRules (CallRules (Ok false)) AtReady
| lc_rules_failed e : lifecycle answers AtRules (CallRules (Err e)) (Settled (Failed e))
| lc_ready e : lifecycle answers AtReady (CallReady (Ok (Some e))) (AtRun e)
| lc_parked : lifecycle answers AtReady (CallReady (Ok None)) (Settled Parked)
| lc_ready_failed e : lifecycle answers AtReady (CallReady (Err e)) (Settled (Failed e))
| lc_run e r : lifecycle answers (AtRun e) (CallRun e None r) (after_run e r)
| lc_resume e request incoming r :
    answers request incoming →
    lifecycle answers (Waiting e request) (CallRun e incoming r) (after_run e r).

Inductive path answers : phase → list (call Value StoreError) → phase → Prop :=
| path_nil p : path answers p [] p
| path_snoc p q r calls c :
    path answers p calls q → lifecycle answers q c r → path answers p (calls ++ [c]) r.

Lemma path_one answers p c q : lifecycle answers p c q → path answers p [c] q.
Proof. intros Hl. apply (path_snoc answers p p q [] c); [constructor|done]. Qed.

Lemma path_app answers p q r l1 l2 :
  path answers p l1 q → path answers q l2 r → path answers p (l1 ++ l2) r.
Proof.
  intros H1. induction 1 as [|q q' r calls c _ IH Hl]; [by rewrite app_nil_r|].
  rewrite app_assoc. by econstructor; [apply IH|].
Qed.

(** A round trip is contiguous: the call after a request is the resumption of the
    same effect with an answer to that request, and an effect is resumed only there. *)
Lemma path_round_trips answers p calls q pre c1 c2 post :
  path answers p calls q → calls = pre ++ c1 :: c2 :: post →
  match c1, c2 with
  | CallRun e _ (Ok (StepNeedsHttp request)), CallRun e' incoming _ => e' = e ∧ answers request incoming
  | CallRun _ _ (Ok (StepNeedsHttp _)), _ => False
  | _, CallRun _ incoming _ => incoming = None
  | _, _ => True
  end.
Proof.
  intros Hp. revert pre c1 c2 post.
  assert (∀ pre c1 q' c2 r, path answers p (pre ++ [c1]) q' → lifecycle answers q' c2 r →
    match c1, c2 with
    | CallRun e _ (Ok (StepNeedsHttp request)), CallRun e' incoming _ => e' = e ∧ answers request incoming
    | CallRun _ _ (Ok (StepNeedsHttp _)), _ => False
    | _, CallRun _ incoming _ => incoming = None
    | _, _ => True
    end) as Hlast.
  { intros pre c1 q' c2 r H1 H2. inversion H1 as [|? q0 ? calls0 c0 _ H0 Heq]; [by destruct pre|].
    simplify_list_eq.
    inversion H0; subst; inversion H2; subst; try done;
      repeat (match goal with
        | a : result _ (EffectStep _) |- _ => destruct a as [[]|]; simpl in *; simplify_eq
        end); done. }
  induction Hp as [|p q r calls c Hp IH Hl]; intros pre c1 c2 post Heq; [by destruct pre|].
  destruct post as [|c3 post _] using rev_ind.
  - replace (pre ++ [c1; c2]) with ((pre ++ [c1]) ++ [c2]) in Heq by by rewrite <- app_assoc.
    apply app_inj_tail in Heq as [-> ->]. by eapply Hlast.
  - rewrite !app_comm_cons, app_assoc in Heq. apply app_inj_tail in Heq as [-> _]. by eapply IH.
Qed.

End lifecycle.
Arguments phase : clear implicits.

(** ** Lemmas *)

Section following.
Context `{InstanceDriver Value StoreError D}.
Abbreviation trace := (list (call Value StoreError)).
Implicit Types (d : D) (tr : trace).

(** The phase that a returned outcome stands for. *)
Definition ends (m : InstanceStepMachine (D * trace)) (o : Outcome Value (InstanceOutcome StoreError))
    (p : phase Value StoreError) : Prop :=
  match o with
  | NeedsIo (ReqHttp request) => ∃ e, in_flight m = Some e ∧ p = Waiting e request
  | Settle out => in_flight m = None ∧ p = Settled out
  end.

Lemma after_effect_phase (s : D * trace) e r m o :
  after_effect s e r = (m, o) →
  driver m = s ∧
  match o with
  | Some o => ends m o (after_run e r)
  | None => after_run e r = AtRules ∧ in_flight m = None
  end.
Proof.
  destruct r as [[ev|ev|rq|]|err]; simpl; intros [= <- <-]; (split; [done|]); simpl; eauto.
Qed.

Lemma loop_path answers fuel d tr m o :
  fixpoint_loop (D := D * trace) fuel (d, tr) = Some (m, o) →
  ∃ calls p, (driver m).2 = tr ++ calls ∧ path answers AtRules calls p ∧ ends m o p.
Proof.
  revert d tr. induction fuel as [|fuel IH]; intros d tr; [done|]. simpl.
  destruct (advance_rules d) as [d1 [[]|err]]; simpl.
  1,3: intros [= <- <-]; do 2 eexists; split; [done|]; split; [apply path_one; constructor|done].
  destruct (next_ready_effect d1) as [d2 [[e|]|err]]; simpl.
  2,3: intros [= <- <-]; eexists [CallRules (Ok false); CallReady _], _;
    (split; [by rewrite <- app_assoc|]);
    (split; [|done]); apply (path_app _ _ AtReady _ [_] [_]); apply path_one; constructor.
  destruct (run_effect d2 e None) as [d3 r] eqn:Hrun. simpl.
  assert (path answers AtRules [CallRules (Ok false); CallReady (Ok (Some e)); CallRun e None r]
            (after_run e r)) as Hpath.
  { apply (path_app _ _ AtReady _ [_] [_; _]); [apply path_one; constructor|].
    apply (path_app _ _ (AtRun e) _ [_] [_]); apply path_one; constructor. }
  destruct (after_effect _ e r) as [m1 [o1|]] eqn:Hae;
    apply after_effect_phase in Hae as [Hd He].
  - intros [= <- <-]. rewrite Hd. simpl. do 2 eexists. split; [by rewrite <- !app_assoc|]. by split.
  - destruct He as [Hat _]. rewrite Hd. intros (calls & p & Htr & Hp & Hends)%IH.
    do 2 eexists. split; [rewrite Htr, <- !app_assoc; done|]. split; [|done].
    eapply (path_app _ _ _ _ [_; _; _]); [done|]. by rewrite Hat.
Qed.

Lemma step_path answers fuel d tr flight incoming m o :
  step (D := D * trace) fuel (mkMachine (d, tr) flight) incoming = Some (m, o) →
  ∃ calls p, (driver m).2 = tr ++ calls ∧ ends m o p ∧
    match flight with
    | Some e => ∀ request, answers request ((λ '(ResHttp r), r) <$> incoming) →
        path answers (Waiting e request) calls p ∧
        ∃ r rest, calls = CallRun e ((λ '(ResHttp r), r) <$> incoming) r :: rest
    | None => path answers AtRules calls p
    end.
Proof.
  unfold step. simpl. destruct flight as [e|].
  2:{ intros (calls & p & ? & ? & ?)%(loop_path answers). eauto 10. }
  set (resp := _ <$> incoming). destruct (run_effect d e resp) as [d1 r].
  destruct (after_effect _ e r) as [m1 [o1|]] eqn:Hae; apply after_effect_phase in Hae as [Hd He].
  - intros [= <- <-]. rewrite Hd. do 2 eexists. split; [done|]. split; [done|].
    intros request Ha. split; [apply path_one; by constructor|eauto].
  - destruct He as [Hat _]. rewrite Hd. intros (calls & p & Htr & Hp & Hends)%(loop_path answers).
    do 2 eexists. split; [rewrite Htr, <- app_assoc; done|]. split; [done|].
    intros request Ha. split; [|eauto].
    eapply (path_app _ _ _ _ [_]); [apply path_one; by constructor|]. by rewrite Hat.
Qed.

(** What the calls of one pass ask for and hand over. *)
Definition asked (o : Outcome Value (InstanceOutcome StoreError)) : list (IoRequest Value) :=
  match o with NeedsIo request => [request] | Settle _ => [] end.

Lemma after_effect_asks (s : D * trace) e i r m o :
  after_effect s e r = (m, o) → requests [CallRun e i r] = from_option asked [] o.
Proof. destruct r as [[ev|ev|rq|]|err]; by intros [= <- <-]. Qed.

Lemma loop_asks fuel d tr m o :
  fixpoint_loop (D := D * trace) fuel (d, tr) = Some (m, o) →
  ∃ calls, (driver m).2 = tr ++ calls ∧ requests calls = asked o ∧ responses calls = [].
Proof.
  revert d tr. induction fuel as [|fuel IH]; intros d tr; [done|]. simpl.
  destruct (advance_rules d) as [d1 [[]|err]]; simpl; [by intros [= <- <-]; eexists| |by intros [= <- <-]; eexists].
  destruct (next_ready_effect d1) as [d2 [[e|]|err]]; simpl;
    [|by intros [= <- <-]; eexists [_; _]; rewrite <- app_assoc..].
  destruct (run_effect d2 e None) as [d3 r]. simpl.
  destruct (after_effect _ e r) as [m1 o1] eqn:Hae. pose proof (after_effect_asks _ _ None _ _ _ Hae) as Hreq.
  apply after_effect_phase in Hae as [Hd _]. destruct o1 as [o1|].
  - intros [= <- <-]. rewrite Hd. eexists [_; _; CallRun e None r]. simpl. rewrite <- !app_assoc. done.
  - rewrite Hd. intros (calls & Htr & Hq & Hr)%IH. exists ([CallRules (Ok false); CallReady (Ok (Some e)); CallRun e None r] ++ calls).
    split; [rewrite Htr, <- !app_assoc; done|]. unfold requests, responses in *. rewrite !omap_app, Hq, Hr. simpl in *. rewrite Hreq. done.
Qed.

Lemma step_asks fuel d tr flight incoming m o :
  step (D := D * trace) fuel (mkMachine (d, tr) flight) incoming = Some (m, o) →
  ∃ calls, (driver m).2 = tr ++ calls ∧ requests calls = asked o ∧
    responses calls = match flight with Some _ => option_list incoming | None => [] end.
Proof.
  unfold step. simpl. destruct flight as [e|]; [|apply loop_asks].
  destruct (run_effect d e _) as [d1 r]. destruct (after_effect _ e r) as [m1 o1] eqn:Hae.
  pose proof (after_effect_asks _ _ ((λ '(ResHttp r), r) <$> incoming) _ _ _ Hae) as Hreq.
  apply after_effect_phase in Hae as [Hd _]. destruct o1 as [o1|].
  - intros [= <- <-]. rewrite Hd. eexists. split; [done|]. split; [done|]. by destruct incoming as [[]|].
  - rewrite Hd. intros (calls & Htr & Hq & Hr)%loop_asks. exists (CallRun e ((λ '(ResHttp r), r) <$> incoming) r :: calls).
    split; [rewrite Htr, <- app_assoc; done|]. change (CallRun e ?i r :: calls) with ([CallRun e i r] ++ calls).
    unfold requests, responses in *. rewrite !omap_app, Hq, Hr, app_nil_r. rewrite Hreq. split; [done|]. by destruct incoming as [[]|].
Qed.

Lemma completion_path `{HostDriver Value W} rounds fuel (h : W) log d tr flight incoming m h' log' out :
  let answers request i := ∃ r, i = Some r ∧ (ReqHttp request, ResHttp r) ∈ log' in
  run_to_completion (D := D * trace) (W := W * list (IoRequest Value * IoResult Value)) rounds fuel (h, log)
    (mkMachine (d, tr) flight) incoming = Some (m, (h', log'), out) →
  ∀ start,
  match flight with
  | Some e => ∃ request r, start = Waiting e request ∧ incoming = Some (ResHttp r) ∧ (ReqHttp request, ResHttp r) ∈ log
  | None => start = AtRules
  end →
  ∃ calls new, (driver m).2 = tr ++ calls ∧ in_flight m = None ∧ log' = log ++ new ∧ path answers start calls (Settled out) ∧
    requests calls = new.*1 ∧ responses calls = match flight with Some _ => option_list incoming | None => [] end ++ new.*2.
Proof.
  intros answers. revert h log d tr flight incoming.
  induction rounds as [|rounds IH]; intros h log d tr flight incoming; simpl; [done|].
  intros Hrun start Hstart.
  destruct (step fuel _ incoming) as [[[[d1 tr1] fl1] o]|] eqn:Hstep; [|done].
  pose proof (step_asks _ _ _ _ _ _ _ Hstep) as (calls0 & Htr0 & Hreq & Hres).
  apply (step_path answers) in Hstep as (calls & p & Htr & Hends & Hp). simpl in *.
  assert (calls0 = calls) as -> by (rewrite Htr in Htr0; by apply app_inv_head in Htr0).
  assert (log `prefix_of` log' → path answers start calls p) as Hp'.
  { intros [rest Hrest]. destruct flight as [e|]; [|by subst]. destruct Hstart as (rq & r & -> & -> & Hin).
    apply Hp. exists r. split; [done|]. rewrite Hrest. set_solver. }
  destruct o as [[rq]|out'].
  - destruct Hends as (e & Hfl & ->). simpl in Hfl. subst fl1. destruct (fulfill h (ReqHttp rq)) as [h1 [answer]] eqn:Hful.
    destruct (IH h1 (log ++ [(ReqHttp rq, ResHttp answer)]) d1 tr1 (Some e) (Some (ResHttp answer)) Hrun (Waiting e rq))
      as (calls' & new & Htr' & Hfl & Hlog & Hpath & Hreq' & Hres').
    { exists rq, answer. split_and!; [done..|set_solver]. }
    rewrite <- app_assoc in Hlog. exists (calls ++ calls'), ((ReqHttp rq, ResHttp answer) :: new).
    rewrite Htr', Htr, app_assoc. split_and!; [done..| | |].
    + eapply path_app; [apply Hp'; by eexists|done].
    + unfold requests in *. rewrite omap_app, Hreq, Hreq'. done.
    + unfold responses in *. rewrite omap_app, Hres, Hres'. done.
  - destruct Hends as [Hfl ->]. simplify_eq. simpl in *. exists calls, []. rewrite !app_nil_r. split_and!; [done..|by apply Hp'|done|done].
Qed.

End following.

(** The scripted driver of the source's tests: effects are queued, one of kind "http"
    needs a round, and the instance is terminal when none is left. *)
Definition example_request : HttpRequest string := mkHttpRequest "https://provider/settle" [] "{}" None.
#[export] Instance scripted : InstanceDriver string string (list ClaimableEffect) := {
  advance_rules ready := (ready, Ok (bool_decide (ready = [])));
  next_ready_effect ready := (ready, Ok (head ready));
  run_effect ready e incoming :=
    if bool_decide (cl_kind e = "http" ∧ incoming = None)
    then (ready, Ok (StepNeedsHttp example_request))
    else match ready with
         | [] => ([], Err "nothing is ready"%string)
         | _ :: rest => (rest, Ok (StepDone (mkStored (cl_effect_id e) 1)))
         end;
}.
Definition example_effect (id kind : string) : ClaimableEffect :=
  mkClaimable None id kind None None "{}" "[]" "[]".

(** A host that answers its first request with a timeout, and the others with a response. *)
#[export] Instance flaky_host : HostDriver string nat := {
  fulfill n _ := (S n, ResHttp (if bool_decide (n = 0) then Err Timeout else Ok (mkHttpResponse 200 "{}")));
}.

(** ** Theorems *)

(** The scheduler follows its lifecycle: whatever the driver answers, the calls of
    one step are a path of the documented fixpoint, rule pass, then readiness, then one
    effect, repeated; it ends where the path ends, terminal, parked or failed with
    nothing in flight, or suspended on a request with exactly the effect that asked for
    it in flight; and a step of a suspended machine first resumes that effect with the
    host's answer. *)
Theorem step_follows_lifecycle `{InstanceDriver Value StoreError D} fuel (d : D)
    (tr : list (call Value StoreError)) flight incoming m outcome :
  step (D := D * list (call Value StoreError)) fuel (mkMachine (d, tr) flight) incoming
    = Some (m, outcome) →
  ∃ calls p, (driver m).2 = tr ++ calls ∧ ends m outcome p ∧
    match flight with
    | Some e => ∀ request, path (λ _ _, True) (Waiting e request) calls p ∧
        ∃ r rest, calls = CallRun e ((λ '(ResHttp r), r) <$> incoming) r :: rest
    | None => path (λ _ _, True) AtRules calls p
    end.
Proof.
  intros Hs. apply (step_path (λ _ _, True)) in Hs as (calls & p & Htr & He & Hp).
  exists calls, p. split; [done|]. split; [done|]. destruct flight; [|done].
  intros request. by apply Hp.
Qed.

Lemma step_follows_lifecycle_witness :
  ∃ calls p, (driver (mkMachine ([example_effect "h1" "http"],
      [CallRules (Ok false); CallReady (Ok (Some (example_effect "h1" "http")));
       CallRun (example_effect "h1" "http") None (Ok (StepNeedsHttp example_request))])
      (Some (example_effect "h1" "http")))).2 = [] ++ calls ∧
    path (StoreError := string) (λ _ _, True) AtRules calls p.
Proof.
  destruct (@step_follows_lifecycle string string _ scripted 1 [example_effect "h1" "http"] [] None None
    (mkMachine ([example_effect "h1" "http"],
      [CallRules (Ok false); CallReady (Ok (Some (example_effect "h1" "http")));
       CallRun (example_effect "h1" "http") None (Ok (StepNeedsHttp example_request))])
      (Some (example_effect "h1" "http"))) (NeedsIo (ReqHttp example_request)))
    as (calls & p & Htr & _ & Hp).
  - vm_compute. reflexivity.
  - exists calls, p. split; [exact Htr|exact Hp].
Defined.

(** C34: The native host delivers exactly once: when it runs an instance to completion,
    nothing is left in flight, and the calls are a path of the lifecycle to the outcome it
    returns.  The host performs the requests of the effects, in their order and each once,
    and its answers, equal or not for equal requests, are handed over in that order and each
    once: every request is answered by the very next call, a resumption of the effect that
    asked with what the host returned for that request, and no effect is resumed
    otherwise. *)
Theorem native_exactly_once `{InstanceDriver Value StoreError D} `{HostDriver Value W} rounds fuel (h : W) (d : D) m h' log outcome :
  run_to_completion (D := D * list (call Value StoreError)) (W := W * list (IoRequest Value * IoResult Value))
    rounds fuel (h, []) (new (d, [])) None = Some (m, (h', log), outcome) →
  let answers request i := ∃ r, i = Some r ∧ (ReqHttp request, ResHttp r) ∈ log in
  let calls := (driver m).2 in
  in_flight m = None ∧ path answers AtRules calls (Settled outcome) ∧
  requests calls = log.*1 ∧ responses calls = log.*2 ∧
  ∀ pre c1 c2 post, calls = pre ++ c1 :: c2 :: post →
    match c1, c2 with
    | CallRun e _ (Ok (StepNeedsHttp request)), CallRun e' incoming _ => e' = e ∧ answers request incoming
    | CallRun _ _ (Ok (StepNeedsHttp _)), _ => False
    | _, CallRun _ incoming _ => incoming = None
    | _, _ => True
    end.
Proof.
  intros Hrun answers. destruct (completion_path _ _ _ _ _ _ _ _ _ _ _ _ Hrun AtRules eq_refl)
    as (calls & new & Htr & Hfl & -> & Hp & Hq & Hr). simpl in Htr. cbv zeta. rewrite Htr.
  split_and!; [done..|]. intros pre c1 c2 post Heq. by eapply path_round_trips.
Qed.

(** Two requests that are equal, answered differently. *)
Lemma native_exactly_once_witness :
  ∃ m h log, run_to_completion (D := list ClaimableEffect * list (call string string)) (W := nat * list (IoRequest string * IoResult string))
      3 3 (0, []) (new ([example_effect "h1" "http"; example_effect "h2" "http"], [])) None = Some (m, (h, log), Terminal) ∧
    in_flight m = None ∧ log.*1 = [ReqHttp example_request; ReqHttp example_request] ∧
    responses (driver m).2 = [ResHttp (Err Timeout); ResHttp (Ok (mkHttpResponse 200 "{}"))].
Proof.
  destruct (run_to_completion (D := list ClaimableEffect * list (call string string)) (W := nat * list (IoRequest string * IoResult string))
      3 3 (0, []) (new ([example_effect "h1" "http"; example_effect "h2" "http"], [])) None) as [[[m [h log]] out]|] eqn:Hrun;
    [|vm_compute in Hrun; discriminate Hrun].
  destruct (@native_exactly_once string string _ scripted nat flaky_host 3 3 0 [example_effect "h1" "http"; example_effect "h2" "http"]
    m h log out Hrun) as (Hfl & _ & _ & Hr & _).
  exists m, h, log. rewrite Hr. vm_compute in Hrun. injection Hrun as <- <- <- <-. split_and!; [reflexivity|exact Hfl|reflexivity..].
Defined.

(** Provenance is contagious: what is derived is complete only when every part is, its
    handles are those of the parts, and deriving again from the same parts, in any
    order or repetition, gives the same authority question. *)
Theorem derived_from_exact parts :
  let derived := derived_from parts in
  (complete derived = true ↔ ∀ part, part ∈ parts → complete part = true) ∧
  (∀ handle, handle ∈ source_handles derived ↔ ∃ part, part ∈ parts ∧ handle ∈ source_handles part) ∧
  NoDup (source_handles derived).
Proof.
  unfold derived_from.
  assert (∀ (X : gset string) b, let '(Y, c) := foldl (λ '(handles, all) part,
      (handles ∪ list_to_set (source_handles part), all && complete part)) (X, b) parts in
    (c = true ↔ b = true ∧ ∀ part, part ∈ parts → complete part = true) ∧
    (∀ h : string, h ∈ Y ↔ h ∈ X ∨ ∃ part, part ∈ parts ∧ h ∈ source_handles part)) as Hfold.
  { induction parts as [|part parts IH]; intros X b; simpl; [set_solver|].
    specialize (IH (X ∪ list_to_set (source_handles part)) (b && complete part)).
    destruct (foldl _ _ parts) as [Y c]. destruct IH as [Hc Hh]. split.
    - rewrite Hc, andb_true_iff. set_solver.
    - intros h. rewrite Hh. set_solver. }
  specialize (Hfold ∅ true). destruct (foldl _ _ parts) as [Y c]. destruct Hfold as [Hc Hh]. simpl.
  split; [rewrite Hc; naive_solver|]. split; [|apply NoDup_set_keys].
  intros h. rewrite elem_of_set_keys, Hh. set_solver.
Qed.
