(* ===== verification/ExecInvocation.v ===== *)
(** Executor invocations (kernel/exec_invocation.rs, exec_placement.rs): the identity of one
    attempt, the envelope bound to it, the provider's receipt and the placement that is kept
    before a delivery.

    The functions of the source take and give JSON text.  A JSON argument is here the value
    it decodes to, so what is said is about texts that decode; the JSON values inside an
    envelope or a response are a type [V] with [ExecValue].  Errors are constructors. *)
From stdpp Require Import pretty.
From S2P Require Import Prelude RustStr EventChain.
Local Open Scope string_scope.

(** ** Keys (kernel/lib.rs) *)

Definition key_part (p : string) : string := pretty (String.length p) +:+ ":" +:+ p +:+ ";".
Definition key_input (parts : list string) : string := foldr (λ p text, key_part p +:+ text) "" parts.
Definition idempotency_key `{Sha256} (parts : list string) : string :=
  "key_" +:+ String.substring 0 32 (sha256_hex (key_input parts)).

Definition attempt_parts (instance effect : string) (admission : option string) (purpose : string) : list string :=
  match admission with None => [instance; effect; purpose] | Some event => [instance; effect; purpose; "admission"; event] end.
Definition execution_attempt_key `{Sha256} (instance effect : string) (admission : option string) (purpose : string) : string :=
  idempotency_key (attempt_parts instance effect admission purpose).

Definition execution_run_key `{Sha256} (instance effect run : string) (suffix : list string) : string :=
  idempotency_key ([instance; effect] ++ suffix ++
    (if bool_decide (run = execution_attempt_key instance effect None "exec-run") then [] else ["run"; run]))%list.

(** ** Errors *)

Inductive exec_error :=
| InvocationEmpty | EnvelopeDiffers | DispatchDiffers | DispatchReplaced | ResponseReplaced
| PlacementIdentity | PlacementReplaced | PlacementUnclaimed | PlacementVersion
| IncarnationEmpty | FenceEmpty | BarrierIdEmpty | CompletionFenceEmpty | CompletionBarrierEmpty
| RecordDiffers | AdmissionChanged | FenceReplaced | CompletionFenceReplaced
| CompletionUnadmitted | CompletionTerminated | CompletionIncarnation | CompletionReplaced
| ReplyDiffers | ReplyGrants
| BarrierInvalid | BarrierTarget | BarrierOwnerEmpty | InventoryInvalid | GenerationGone | GenerationExhausted
| BarrierAbsent | BarrierIdentity | AdmissionEscaped | TargetGone | TargetPlacement | TargetFence | TargetLifecycle
| EnsureRequired | PlacementExists | ClaimUnguarded | LifetimePlacement | LifetimeDiffers | IntentEmpty | IntentReplaced
| ViewDiffers | ViewContradicts
| LifetimeReplaced | LifetimeContradicts | NonAdmissionEmpty | TerminationEmpty
| NativeOwnerDiffers | NativeReplaced | NativeOwnerLost | NativePlacement | NativeReceiptLost | NativeCompletionLost
| NativeUpdates | NativeInvocation | NativeOwnerReplaced | NativeBinding | NativeContainer | NativeUnbegun
| NativeHistory | NativeUnreadable | NativeTip | NativeRevision | NativeDelivery | NativeUnbound.
#[export] Instance exec_error_eq_dec : EqDecision exec_error.
Proof. solve_decision. Defined.

(** ** JSON values *)

(** [value.get(name).and_then(Value::as_str)]. *)
Class ExecValue (V : Type) := {
  value_eq_dec :: EqDecision V;
  value_field : V → string → option string;
}.

Record Invocation := mkInvocation {
  inv_instance : string;
  inv_effect : string;
  inv_attempt : option string;
}.
#[export] Instance invocation_eq_dec : EqDecision Invocation.
Proof. solve_decision. Defined.

Definition invocation_run_id `{Sha256} (i : Invocation) : string :=
  execution_attempt_key (inv_instance i) (inv_effect i) (inv_attempt i) "exec-run".

Definition invocation_validate (i : Invocation) : result exec_error unit :=
  if bool_decide (inv_instance i = "") || bool_decide (inv_effect i = "") || bool_decide (inv_attempt i = Some "")
  then Err InvocationEmpty else Ok tt.

Definition INVOCATION_PROTOCOL : string := "whipplescript.exec.invocation/v1".
Definition EXECUTOR_PROTOCOL : string := "whip-executor/1".
Definition PLACEMENT_PROTOCOL : string := "whipplescript.exec.placement/v1".
Definition CONTROLLER_PLACEMENT : string := "whipplescript.exec.placement/v2".

Section invocations.
Context {V : Type} `{ExecValue V, Sha256}.

Record ExecEnvelope := mkExecEnvelope {
  env_protocol : string;
  env_invocation : Invocation;
  env_run_id : string;
  env_dispatch : V;
}.
#[export] Instance exec_envelope_eq_dec : EqDecision ExecEnvelope.
Proof. solve_decision. Defined.

Definition envelope_validate (e : ExecEnvelope) (selected : Invocation) : result exec_error unit :=
  invocation_validate (env_invocation e);;
  (if bool_decide (env_protocol e = INVOCATION_PROTOCOL) && bool_decide (env_invocation e = selected)
      && bool_decide (env_run_id e = invocation_run_id selected) then Ok tt else Err EnvelopeDiffers);;
  if bool_decide (value_field (env_dispatch e) "protocol" = Some EXECUTOR_PROTOCOL)
     && bool_decide (value_field (env_dispatch e) "effect_id" = Some (inv_effect selected)) then Ok tt else Err DispatchDiffers.

Definition envelope_new (i : Invocation) (dispatch : V) : result exec_error ExecEnvelope :=
  let envelope := mkExecEnvelope INVOCATION_PROTOCOL i (invocation_run_id i) dispatch in
  envelope_validate envelope (env_invocation envelope);; Ok envelope.

Definition verify_replay (e requested : ExecEnvelope) (selected : Invocation) : result exec_error unit :=
  envelope_validate e selected;; envelope_validate requested selected;;
  if bool_decide (e = requested) then Ok tt else Err DispatchReplaced.

Definition envelope_dispatch (e : ExecEnvelope) (selected : Invocation) : result exec_error V :=
  envelope_validate e selected;; Ok (env_dispatch e).

(** ** Receipts *)

Inductive Receipt :=
| RStarted (envelope : ExecEnvelope) (placement_required : bool)
| RCompleted (envelope : ExecEnvelope) (status : Z) (body : V).
#[export] Instance receipt_eq_dec : EqDecision Receipt.
Proof. solve_decision. Defined.

Inductive Claim :=
| ClaimDispatch (receipt : Receipt)
| ClaimPending
| ClaimReplay (status : Z) (body : V).
#[export] Instance claim_eq_dec : EqDecision Claim.
Proof. solve_decision. Defined.

Definition receipt_claim (stored : option Receipt) (requested : ExecEnvelope) (selected : Invocation) : result exec_error Claim :=
  envelope_validate requested selected;;
  match stored with
  | None => Ok (ClaimDispatch (RStarted requested true))
  | Some (RStarted envelope _) => verify_replay envelope requested selected;; Ok ClaimPending
  | Some (RCompleted envelope status body) => verify_replay envelope requested selected;; Ok (ClaimReplay status body)
  end.

Definition receipt_envelope (r : Receipt) : ExecEnvelope := match r with RStarted e _ | RCompleted e _ _ => e end.
Definition is_completed (r : Receipt) : bool := match r with RCompleted _ _ _ => true | _ => false end.

Definition receipt_complete (r : Receipt) (requested : ExecEnvelope) (selected : Invocation) (status : Z) (body : V) : result exec_error Receipt :=
  let envelope := receipt_envelope r in
  verify_replay envelope requested selected;;
  let completed := RCompleted envelope status body in
  if is_completed r && negb (bool_decide (r = completed)) then Err ResponseReplaced else Ok completed.

(** ** Placements *)

Record Placement := mkPlacement {
  pl_protocol : string;
  pl_selected : Invocation;
  pl_envelope : ExecEnvelope;
  pl_container : string;
  pl_dispatch : string;
}.
#[export] Instance placement_eq_dec : EqDecision Placement.
Proof. solve_decision. Defined.

Definition bind_with_protocol (protocol : string) (selected : Invocation) (envelope : ExecEnvelope) (receipt : Receipt)
    (stored : option Placement) (container_id dispatch_id : string) : result exec_error Placement :=
  claim ← receipt_claim (Some receipt) envelope selected;
  (if bool_decide (container_id = "") || bool_decide (dispatch_id = "") then Err PlacementIdentity else Ok tt);;
  let requested := mkPlacement protocol selected envelope container_id dispatch_id in
  match stored with
  | Some stored => if bool_decide (stored = requested) then Ok requested else Err PlacementReplaced
  | None => if bool_decide (claim = ClaimPending) then Ok requested else Err PlacementUnclaimed
  end.

Definition bind_placement := bind_with_protocol PLACEMENT_PROTOCOL.
Definition bind_controller := bind_with_protocol CONTROLLER_PLACEMENT.

Definition validate_controller (p : Placement) (container_id : string) : result exec_error unit :=
  envelope_validate (pl_envelope p) (pl_selected p);;
  if bool_decide (pl_protocol p = CONTROLLER_PLACEMENT) && bool_decide (pl_container p = container_id)
     && negb (bool_decide (container_id = "")) && negb (bool_decide (pl_dispatch p = "")) then Ok tt else Err PlacementVersion.

Definition placement_dispatch (p : Placement) : result exec_error V :=
  validate_controller p (pl_container p);; envelope_dispatch (pl_envelope p) (pl_selected p).

Inductive ControllerTarget := LegacyPending | TargetQuery (container_id : string) (placement : Placement).

Definition controller_target (selected : Invocation) (requested : ExecEnvelope) (receipt : Receipt) (stored : Placement) : result exec_error ControllerTarget :=
  original ← bind_with_protocol (pl_protocol stored) selected requested receipt (Some stored) (pl_container stored) (pl_dispatch stored);
  if bool_decide (pl_protocol stored = PLACEMENT_PROTOCOL) then Ok LegacyPending
  else validate_controller stored (pl_container stored);; Ok (TargetQuery (pl_container stored) original).
End invocations.
Arguments ExecEnvelope : clear implicits. Arguments Receipt : clear implicits. Arguments Claim : clear implicits.
Arguments Placement : clear implicits. Arguments ControllerTarget : clear implicits.

(** ** Keys tell attempts apart *)

Lemma key_part_text p r : key_part p +:+ r = field (Some p) +:+ (";" +:+ r).
Proof. unfold key_part, field. by rewrite !string_app_assoc. Qed.

Lemma key_input_inj ps qs : key_input ps = key_input qs → ps = qs.
Proof.
  assert (∀ p ps, key_input (p :: ps) ≠ "") as Hne.
  { intros p ps0. cbn. rewrite key_part_text, field_Some_text. destruct (pretty_nat_head (String.length p)) as (c & s & -> & _). done. }
  revert qs. induction ps as [|p ps IH]; intros [|q qs]; [done| | |].
  - intros Heq. symmetry in Heq. by apply Hne in Heq.
  - intros Heq. by apply Hne in Heq.
  - cbn. rewrite !key_part_text. intros [[= ->] Heq]%field_inj. apply string_app_inj_l in Heq. f_equal. by apply IH.
Qed.

(** Two texts with one key. *)
Definition key_collision `{Sha256} : Prop :=
  ∃ a b, a ≠ b ∧ String.substring 0 32 (sha256_hex a) = String.substring 0 32 (sha256_hex b).

(** A run identity belongs to one attempt, up to a collision of the truncated digest. *)
Lemma run_id_inj `{Sha256} i j : invocation_run_id i = invocation_run_id j → i = j ∨ key_collision.
Proof.
  unfold invocation_run_id, execution_attempt_key, idempotency_key. intros Heq%string_app_inj_l.
  destruct (decide (key_input (attempt_parts (inv_instance i) (inv_effect i) (inv_attempt i) "exec-run") =
    key_input (attempt_parts (inv_instance j) (inv_effect j) (inv_attempt j) "exec-run"))) as [Hk|Hk]; [left|right; by eexists _, _].
  apply key_input_inj in Hk. destruct i as [ii ie [ia|]], j as [ji je [ja|]]; cbn in Hk; by simplify_eq.
Qed.

Section receipts.
Context {V : Type} `{ExecValue V, Sha256}.

(** ** Receipts are kept *)

Lemma envelope_validate_ok (e : ExecEnvelope V) selected :
  envelope_validate e selected = Ok tt ↔
    env_invocation e = selected ∧ env_protocol e = INVOCATION_PROTOCOL ∧ env_run_id e = invocation_run_id selected ∧
    inv_instance selected ≠ "" ∧ inv_effect selected ≠ "" ∧ inv_attempt selected ≠ Some "" ∧
    value_field (env_dispatch e) "protocol" = Some EXECUTOR_PROTOCOL ∧ value_field (env_dispatch e) "effect_id" = Some (inv_effect selected).
Proof.
  unfold envelope_validate, invocation_validate. repeat case_bool_decide; cbn; naive_solver.
Qed.

Lemma verify_replay_ok (e requested : ExecEnvelope V) selected :
  verify_replay e requested selected = Ok tt ↔ e = requested ∧ envelope_validate e selected = Ok tt.
Proof.
  unfold verify_replay. rewrite bind_ok. split.
  - intros ([] & He & Hr). apply bind_ok in Hr as ([] & _ & Hr). by case_bool_decide.
  - intros [-> He]. exists tt. split; [done|]. rewrite He. cbn. by rewrite bool_decide_eq_true_2.
Qed.
End receipts.

(** A dispatch is granted where no receipt is stored; a stored receipt answers its own
    envelope only, as pending or with its result; and a completed receipt is kept. *)
Lemma claim_exact {V} `{ExecValue V, Sha256} requested selected :
  envelope_validate requested selected = Ok tt →
  receipt_claim None requested selected = Ok (ClaimDispatch (RStarted (V := V) requested true)) ∧
  (∀ r c, receipt_claim (Some r) requested selected = Ok c ↔
    receipt_envelope r = requested ∧ c = match r with RStarted _ _ => ClaimPending | RCompleted _ status body => ClaimReplay status body end) ∧
  (∀ e status body status' body' r,
    receipt_complete (RCompleted e status body) requested selected status' body' = Ok r → r = RCompleted e status body ∧ status' = status ∧ body' = body).
Proof.
  intros Hv. unfold receipt_claim. rewrite Hv. cbn [mbind result_bind]. split_and!; [done| |].
  - intros r c. assert (∀ e, verify_replay e requested selected = Ok tt ↔ e = requested) as Hr by (intros e; rewrite verify_replay_ok; naive_solver).
    destruct r as [e required|e status body]; cbn [receipt_envelope]; rewrite bind_ok; setoid_rewrite <- Hr; split;
      [intros ([] & ? & [= <-])|intros [? ->]; by exists tt|intros ([] & ? & [= <-])|intros [? ->]; by exists tt]; done.
  - intros e status body status' body' r Hc. unfold receipt_complete in Hc. apply bind_ok in Hc as ([] & _ & Hc). cbn in Hc. case_bool_decide as Hr; [|done].
    injection Hc as <-. by injection Hr as -> ->.
Qed.
