(* ===== verification/ExecController.v ===== *)
(** The executor's controller (kernel/exec_controller.rs) and the barrier that drains an owner
    (kernel/exec_barrier.rs): admission of a delivery, fences, completions, and the
    termination of every admitted delivery of an owner.

    As in [ExecInvocation], a JSON argument is the value it decodes to.  The text of the
    JSON arrays that name a barrier and the place of a record is [ExecText]. *)
From stdpp Require Import pretty.
From S2P Require Import Prelude RustStr MachineInt EventChain ExecInvocation.
Local Open Scope string_scope.

(** [json!([protocol, owner, generation]).to_string()] and
    [json!([protocol, container_id, selected]).to_string()]. *)
Class ExecText := {
  barrier_text : string → string → string → string;
  place_text : string → string → Invocation → string;
}.

Definition CONTROLLER_PROTOCOL : string := "whipplescript.exec.controller/v1".
Definition RESPONSE_PROTOCOL : string := "whipplescript.exec.controller.response/v1".
Definition BARRIER_PROTOCOL : string := "whipplescript.exec.barrier/v1".

(** [text.parse::<u64>().ok()]. *)
Definition parse_u64 (s : string) : option N :=
  n ← match s with String "+"%char s' => parse_magnitude s' | _ => parse_magnitude s end;
  if (n <? 18446744073709551616)%N then Some n else None.

Inductive CompletionFence :=
| CFencing (fence_id : string)
| CTerminated (fence_id barrier_id : string).
#[export] Instance completion_fence_eq_dec : EqDecision CompletionFence.
Proof. solve_decision. Defined.

Record Termination := mkTermination { tm_incarnation : string; tm_fence : string; tm_barrier : string }.
#[export] Instance termination_eq_dec : EqDecision Termination.
Proof. solve_decision. Defined.

Section controller.
Context {V : Type} `{ExecValue V, Sha256, ExecText}.

(** ** Records *)

Inductive ExecState :=
| StAdmitted (incarnation : string)
| Fencing (incarnation fence_id : string)
| NotAdmitted (fence_id : string)
| Terminated (incarnation fence_id barrier_id : string)
| Completed (incarnation : string) (status : Z) (body : V) (fence : option CompletionFence).
#[export] Instance exec_state_eq_dec : EqDecision ExecState.
Proof. solve_decision. Defined.

Record ExecRecord := mkExecRecord {
  rec_protocol : string;
  rec_placement : Placement V;
  rec_state : ExecState;
}.
#[export] Instance exec_record_eq_dec : EqDecision ExecRecord.
Proof. solve_decision. Defined.

Inductive ExecOperation :=
| OpRead
| OpAdmit (incarnation : string)
| OpFence (fence_id : string)
| OpEnsureFence (fence_id : string)
| OpComplete (incarnation : string) (status : Z) (body : V).

Inductive ExecAction :=
| AAbsent
| ABlocked (barrier_id : string)
| ATerminated (incarnation fence_id barrier_id : string)
| AExecute (incarnation : string)
| APending (incarnation : string)
| AFenceRequired (incarnation fence_id : string)
| ANotAdmitted (fence_id : string)
| AReplay (status : Z) (body : V) (termination : option Termination).

Definition state_incarnation (s : ExecState) : option string :=
  match s with
  | StAdmitted i | Fencing i _ | Completed i _ _ _ | Terminated i _ _ => Some i
  | NotAdmitted _ => None
  end.

Definition state_fence (s : ExecState) : option string :=
  match s with Fencing _ f | NotAdmitted f | Terminated _ f _ => Some f | _ => None end.

Definition completion_validate (fence : option CompletionFence) : result exec_error unit :=
  match fence with
  | Some (CFencing f) => if bool_decide (f = "") then Err CompletionFenceEmpty else Ok tt
  | Some (CTerminated f b) => if bool_decide (f = "") then Err CompletionFenceEmpty else if bool_decide (b = "") then Err CompletionBarrierEmpty else Ok tt
  | None => Ok tt
  end.

Definition state_validate (s : ExecState) : result exec_error unit :=
  (if bool_decide (state_incarnation s = Some "") then Err IncarnationEmpty else Ok tt);;
  (if bool_decide (state_fence s = Some "") then Err FenceEmpty else Ok tt);;
  (match s with Terminated _ _ b => if bool_decide (b = "") then Err BarrierIdEmpty else Ok tt | _ => Ok tt end);;
  match s with Completed _ _ _ fence => completion_validate fence | _ => Ok tt end.

Definition pending_fence (s : ExecState) : option (string * string) :=
  match s with
  | Fencing i f | Completed i _ _ (Some (CFencing f)) => Some (i, f)
  | _ => None
  end.

Definition state_read (s : ExecState) : ExecAction :=
  match s with
  | StAdmitted i => APending i
  | Fencing i f => AFenceRequired i f
  | NotAdmitted f => ANotAdmitted f
  | Terminated i f b => ATerminated i f b
  | Completed i status body fence =>
      AReplay status body (match fence with Some (CTerminated f b) => Some (mkTermination i f b) | _ => None end)
  end.

(** ** The barrier *)

Record Target := mkTarget { tg_placement : Placement V; tg_incarnation : string; tg_fence : string }.
#[export] Instance target_eq_dec : EqDecision Target.
Proof. solve_decision. Defined.

Record Barrier := mkBarrier {
  br_protocol : string;
  br_owner : string;
  br_generation : string;
  br_id : string;
  br_closing : bool;
  br_targets : list Target;
}.
#[export] Instance barrier_eq_dec : EqDecision Barrier.
Proof. solve_decision. Defined.

Definition place_key (p : Placement V) : string := place_text CONTROLLER_PROTOCOL (pl_container p) (pl_selected p).

Definition barrier_binding (owner : string) (b : Barrier) : result exec_error unit :=
  match parse_u64 (br_generation b) with
  | None => Err BarrierInvalid
  | Some n =>
      if bool_decide (owner = "") || negb (bool_decide (br_protocol b = BARRIER_PROTOCOL)) || negb (bool_decide (br_owner b = owner))
         || (n =? 0)%N || negb (bool_decide (pretty n = br_generation b))
         || negb (bool_decide (br_id b = barrier_text BARRIER_PROTOCOL owner (br_generation b)))
         || bool_decide (length (br_targets b) = 0) then Err BarrierInvalid else Ok tt
  end.

(** The loop over the targets, with the keys that were seen. *)
Fixpoint targets_valid (owner : string) (seen : gset string) (targets : list Target) : result exec_error unit :=
  match targets with
  | [] => Ok tt
  | t :: rest =>
      validate_controller (tg_placement t) owner;;
      (if bool_decide (tg_incarnation t = "") || bool_decide (tg_fence t = "") || bool_decide (place_key (tg_placement t) ∈ seen)
       then Err BarrierTarget else Ok tt);;
      targets_valid owner ({[ place_key (tg_placement t) ]} ∪ seen) rest
  end.

Definition barrier_read (owner : string) (stored : option Barrier) : result exec_error (option Barrier) :=
  match stored with
  | Some b => barrier_binding owner b;; targets_valid owner ∅ (br_targets b);; Ok (Some b)
  | None => if bool_decide (owner = "") then Err BarrierOwnerEmpty else Ok None
  end.

Fixpoint records_from (owner : string) (inventory : list ExecRecord) (acc : gmap string ExecRecord) : result exec_error (gmap string ExecRecord) :=
  match inventory with
  | [] => Ok acc
  | r :: rest =>
      validate_controller (rec_placement r) owner;; state_validate (rec_state r);;
      if negb (bool_decide (rec_protocol r = CONTROLLER_PROTOCOL)) || bool_decide (is_Some (acc !! place_key (rec_placement r)))
      then Err InventoryInvalid else records_from owner rest (<[ place_key (rec_placement r) := r ]> acc)
  end.
Definition records (owner : string) (inventory : list ExecRecord) := records_from owner inventory ∅.

Record Inspection := mkInspection { in_generation : string; in_closing : bool; in_barrier : option string }.

Definition inspect (owner : string) (stored : option Barrier) : result exec_error Inspection :=
  barrier ← barrier_read owner stored;
  Ok (match barrier with None => mkInspection "0" false None | Some b => mkInspection (br_generation b) (br_closing b) (Some (br_id b)) end).

Definition blocks_admission (owner : string) (stored : option Barrier) (observed : string) : result exec_error (option string) :=
  barrier ← barrier_read owner stored;
  let generation := match barrier with Some b => br_generation b | None => "0" end in
  if negb (bool_decide (observed = generation)) || match barrier with Some b => br_closing b | None => false end
  then match barrier with Some b => Ok (Some (br_id b)) | None => Err GenerationGone end
  else Ok None.

Record BarrierReply := mkBarrierReply {
  bar_barrier : option Barrier;
  bar_updates : list (string * ExecRecord);
  bar_closing : bool;
}.

(** The fence that a barrier puts on a state. *)
Definition begin_state (barrier_id : string) (s : ExecState) : ExecState :=
  match s with
  | StAdmitted i => Fencing i barrier_id
  | Completed i status body None => Completed i status body (Some (CFencing barrier_id))
  | _ => s
  end.

Definition with_state (r : ExecRecord) (s : ExecState) : ExecRecord := mkExecRecord (rec_protocol r) (rec_placement r) s.

Definition begin_record (barrier_id : string) (r : ExecRecord) : ExecRecord := with_state r (begin_state barrier_id (rec_state r)).

Definition begin_updates (barrier_id : string) (entries : list (string * ExecRecord)) : list (string * ExecRecord) :=
  omap (λ e, if bool_decide (begin_state barrier_id (rec_state e.2) = rec_state e.2) then None else Some (e.1, begin_record barrier_id e.2)) entries.

Definition begin_targets (barrier_id : string) (entries : list (string * ExecRecord)) : list Target :=
  omap (λ e, match pending_fence (begin_state barrier_id (rec_state e.2)) with
             | Some (i, f) => Some (mkTarget (rec_placement e.2) i f) | None => None end) entries.

Definition next_generation (prior : option Barrier) : result exec_error string :=
  match match prior with Some b => parse_u64 (br_generation b) | None => Some 0%N end with
  | None => Err BarrierInvalid
  | Some n => if (n + 1 <? 18446744073709551616)%N then Ok (pretty (n + 1)%N) else Err GenerationExhausted
  end.

Definition barrier_begin (owner : string) (stored : option Barrier) (inventory : list ExecRecord) : result exec_error BarrierReply :=
  prior ← barrier_read owner stored;
  recs ← records owner inventory;
  if match prior with Some b => br_closing b | None => false end then Ok (mkBarrierReply prior [] true)
  else
    generation ← next_generation prior;
    let barrier_id := barrier_text BARRIER_PROTOCOL owner generation in
    let entries := map_entries recs in
    let targets := begin_targets barrier_id entries in
    if bool_decide (length targets = 0) then Ok (mkBarrierReply prior [] false)
    else Ok (mkBarrierReply (Some (mkBarrier BARRIER_PROTOCOL owner generation barrier_id true targets)) (begin_updates barrier_id entries) true).

(** What the end of a barrier makes of the record of a target: a new state, or none when it
    is there already. *)
Definition finish_state (b : Barrier) (t : Target) (s : ExecState) : result exec_error (option ExecState) :=
  let done i status body := Ok (Some (Completed i status body (Some (CTerminated (tg_fence t) (br_id b))))) in
  match s with
  | Completed i status body fence =>
      if bool_decide (i = tg_incarnation t) then
        match fence, br_closing b with
        | None, true => done i status body
        | Some (CFencing f), true => if bool_decide (f = tg_fence t) then done i status body else Err TargetFence
        | Some (CTerminated f id), false => if bool_decide (f = tg_fence t) && bool_decide (id = br_id b) then Ok None else Err TargetFence
        | _, _ => Err TargetFence
        end
      else Err TargetLifecycle
  | Fencing i f =>
      if br_closing b && bool_decide (i = tg_incarnation t) && bool_decide (f = tg_fence t)
      then Ok (Some (Terminated i f (br_id b))) else Err TargetLifecycle
  | Terminated i f id =>
      if negb (br_closing b) && bool_decide (i = tg_incarnation t) && bool_decide (f = tg_fence t) && bool_decide (id = br_id b)
      then Ok None else Err TargetLifecycle
  | _ => Err TargetLifecycle
  end.

Fixpoint finish_targets (b : Barrier) (recs : gmap string ExecRecord) (targets : list (string * Target)) : result exec_error (list (string * ExecRecord)) :=
  match targets with
  | [] => Ok []
  | (key, t) :: rest =>
      r ← ok_or TargetGone (recs !! key);
      (if bool_decide (rec_placement r = tg_placement t) then Ok tt else Err TargetPlacement);;
      next ← finish_state b t (rec_state r);
      updates ← finish_targets b recs rest;
      Ok (match next with Some s => (key, with_state r s) :: updates | None => updates end)
  end.

Definition target_map (targets : list Target) : gmap string Target :=
  foldl (λ m t, <[ place_key (tg_placement t) := t ]> m) ∅ targets.

Definition is_live (s : ExecState) : bool := match s with StAdmitted _ | Fencing _ _ => true | _ => false end.

Definition barrier_finish (owner : string) (stored : Barrier) (inventory : list ExecRecord) (completed_id : string) : result exec_error BarrierReply :=
  barrier ← barrier_read owner (Some stored);
  b ← ok_or BarrierAbsent barrier;
  (if bool_decide (br_id b = completed_id) then Ok tt else Err BarrierIdentity);;
  recs ← records owner inventory;
  let targets := target_map (br_targets b) in
  check_all (λ e, if is_live (rec_state e.2) && bool_decide (targets !! e.1 = None) then Err AdmissionEscaped else Ok tt) (map_entries recs);;
  updates ← finish_targets b recs (map_entries targets);
  Ok (mkBarrierReply (Some (mkBarrier (br_protocol b) (br_owner b) (br_generation b) (br_id b) false (br_targets b))) updates false).

(** ** The controller *)

Record ControllerReply := mkControllerReply { cr_key : string; cr_record : option ExecRecord; cr_action : ExecAction }.

(** The next state of a fence. *)
Definition fence_state (ensure_fence : bool) (fence_id : string) (state : option ExecState) : result exec_error ExecState :=
  match state with
  | None => Ok (NotAdmitted fence_id)
  | Some (StAdmitted i) => Ok (Fencing i fence_id)
  | Some ((Fencing _ original | NotAdmitted original) as s) =>
      if negb ensure_fence && negb (bool_decide (original = fence_id)) then Err FenceReplaced else Ok s
  | Some (Completed i status body fence) =>
      next ← match fence with
             | None => Ok (Some (CFencing fence_id))
             | Some (CFencing original) =>
                 if negb ensure_fence && negb (bool_decide (original = fence_id)) then Err CompletionFenceReplaced else Ok fence
             | Some (CTerminated _ _) => Ok fence
             end;
      Ok (Completed i status body next)
  | Some ((Terminated _ _ _) as s) => Ok s
  end.

Definition fence_action (s : ExecState) : ExecAction :=
  match pending_fence s with Some (i, f) => AFenceRequired i f | None => state_read s end.

Definition complete_state (incarnation : string) (status : Z) (body : V) (state : option ExecState) : result exec_error ExecState :=
  match state with
  | None => Err CompletionUnadmitted
  | Some s =>
      (match s with Terminated _ _ _ => Err CompletionTerminated | _ => Ok tt end);;
      (if bool_decide (state_incarnation s = Some incarnation) then Ok tt else Err CompletionIncarnation);;
      let fence := match s with Fencing _ f => Some (CFencing f) | Completed _ _ _ fence => fence | _ => None end in
      let completed := Completed incarnation status body fence in
      match s with
      | Completed _ _ _ _ => if bool_decide (s = completed) then Ok completed else Err CompletionReplaced
      | _ => Ok completed
      end
  end.

(** The decision on a state: the state to keep, if it changes, and the answer. *)
Definition decide_operation (container_id : string) (state : option ExecState) (op : ExecOperation)
    (barrier : option Barrier) (observed : string) : result exec_error (option ExecState * ExecAction) :=
  match op with
  | OpRead => Ok (None, match state with Some s => state_read s | None => AAbsent end)
  | OpAdmit incarnation =>
      (if bool_decide (incarnation = "") || match state ≫= state_incarnation with Some original => negb (bool_decide (original = incarnation)) | None => false end
       then Err AdmissionChanged else Ok tt);;
      match state with
      | Some s => Ok (None, state_read s)
      | None =>
          blocked ← blocks_admission container_id barrier observed;
          match blocked with
          | Some barrier_id => Ok (None, ABlocked barrier_id)
          | None => Ok (Some (StAdmitted incarnation), AExecute incarnation)
          end
      end
  | OpFence fence_id | OpEnsureFence fence_id =>
      (if bool_decide (fence_id = "") then Err FenceEmpty else Ok tt);;
      next ← fence_state (match op with OpEnsureFence _ => true | _ => false end) fence_id state;
      Ok (Some next, fence_action next)
  | OpComplete incarnation status body =>
      completed ← complete_state incarnation status body state;
      Ok (Some completed, state_read completed)
  end.

Definition stored_valid (placement : Placement V) (stored : option ExecRecord) : result exec_error unit :=
  match stored with
  | Some r =>
      (if bool_decide (rec_protocol r = CONTROLLER_PROTOCOL) && bool_decide (rec_placement r = placement) then Ok tt else Err RecordDiffers);;
      state_validate (rec_state r)
  | None => Ok tt
  end.

Definition transition_with_gate (container_id : string) (placement : Placement V) (stored : option ExecRecord) (op : ExecOperation)
    (barrier : option Barrier) (observed : string) : result exec_error ControllerReply :=
  validate_controller placement container_id;;
  stored_valid placement stored;;
  '(replacement, action) ← decide_operation container_id (rec_state <$> stored) op barrier observed;
  let record := match replacement with Some s => Some (mkExecRecord CONTROLLER_PROTOCOL placement s) | None => stored end in
  Ok (mkControllerReply (place_text CONTROLLER_PROTOCOL container_id (pl_selected placement)) record action).

Definition transition (container_id : string) (placement : Placement V) (stored : option ExecRecord) (op : ExecOperation) :=
  transition_with_gate container_id placement stored op None "0".

(** ** Replies to the broker *)

Record ControllerResponse := mkResponse { rs_protocol : string; rs_placement : Placement V; rs_action : ExecAction }.

Definition response_action (placement : Placement V) (response : ControllerResponse) : result exec_error ExecAction :=
  validate_controller placement (pl_container placement);;
  if bool_decide (rs_protocol response = RESPONSE_PROTOCOL) && bool_decide (rs_placement response = placement)
  then Ok (rs_action response) else Err ReplyDiffers.

Inductive BrokerResult := BrokerReplay (status : Z) (body : V) | BrokerPending.

Definition controller_result (placement : Placement V) (response : ControllerResponse) : result exec_error BrokerResult :=
  action ← response_action placement response;
  match action with
  | AReplay status body _ => Ok (BrokerReplay status body)
  | AExecute _ => Err ReplyGrants
  | _ => Ok BrokerPending
  end.
End controller.
Arguments ExecState : clear implicits. Arguments ExecRecord : clear implicits. Arguments ExecOperation : clear implicits.
Arguments ExecAction : clear implicits. Arguments Target : clear implicits. Arguments Barrier : clear implicits.
Arguments BarrierReply : clear implicits. Arguments ControllerReply : clear implicits. Arguments ControllerResponse : clear implicits.
Arguments BrokerResult : clear implicits.
