(* ===== verification/ExecOwner.v ===== *)
(** An owner of executor deliveries: the records of its controller and its barrier, as the
    host commits what [transition_with_gate], [barrier_begin] and [barrier_finish] answer.
    Deliveries are executed at most once and never after they were refused, what was
    answered stays, and a barrier drains whatever was admitted before it. *)
From stdpp Require Import pretty.
From S2P Require Import Prelude RustStr MachineInt EventChain ExecInvocation ExecController.
Local Open Scope string_scope.

(** The text of a JSON array is not empty. *)
Class ExecTextLaws `{ExecText} := barrier_text_nonempty : ∀ p o g, barrier_text p o g ≠ "".

(** ** Progress of a state *)

Section states.
Context {V : Type} `{ExecValue V, Sha256, ExecText}.

Inductive fence_le : option CompletionFence → option CompletionFence → Prop :=
| fence_le_refl f : fence_le f f
| fence_le_none f : fence_le None f
| fence_le_terminated f id : fence_le (Some (CFencing f)) (Some (CTerminated f id)).

Definition state_le (s s' : option (ExecState V)) : Prop :=
  match s, s' with
  | None, _ => True
  | Some _, None => False
  | Some (StAdmitted i), Some s' => state_incarnation s' = Some i
  | Some (Fencing i f), Some (Fencing i' f') => i' = i ∧ f' = f
  | Some (Fencing i f), Some (Terminated i' f' _) => i' = i ∧ f' = f
  | Some (Fencing i f), Some (Completed i' _ _ fence) => i' = i ∧ fence_le (Some (CFencing f)) fence
  | Some (Completed i st b fence), Some (Completed i' st' b' fence') => i' = i ∧ st' = st ∧ b' = b ∧ fence_le fence fence'
  | Some s, Some s' => s' = s
  end.

#[export] Instance fence_le_preorder : PreOrder fence_le.
Proof.
  split; [intros f; constructor|]. intros f1 f2 f3 Hf Hg. destruct Hf; [done|constructor|]. inversion Hg; subst; constructor.
Qed.

#[export] Instance state_le_preorder : PreOrder state_le.
Proof.
  split.
  - intros [[]|]; cbn; naive_solver (constructor).
  - intros [[]|] [[]|] [[]|]; cbn; try done; try naive_solver; intros; destruct_and?; subst; split_and?; try done; try (by etransitivity).
    all: try congruence.
Qed.

(** An answer tells the state that is kept with it. *)
Definition reflects (action : ExecAction V) (s : option (ExecState V)) : Prop :=
  match action with
  | AAbsent | ABlocked _ => s = None
  | AExecute i | APending i => s = Some (StAdmitted i)
  | AFenceRequired i f => s ≫= pending_fence = Some (i, f)
  | ANotAdmitted f => s = Some (NotAdmitted f)
  | ATerminated i f b => s = Some (Terminated i f b)
  | AReplay status body termination => ∃ i fence, s = Some (Completed i status body fence) ∧
      termination = match fence with Some (CTerminated f b) => Some (mkTermination i f b) | _ => None end
  end.

Lemma read_reflects s : reflects (state_read s) (Some s).
Proof. destruct s; cbn; eauto. Qed.

Lemma fence_action_reflects s : reflects (fence_action s) (Some s).
Proof. unfold fence_action. destruct (pending_fence s) as [[i f]|] eqn:Hp; [exact Hp|apply read_reflects]. Qed.

Lemma fence_state_le ensure f st s : fence_state ensure f st = Ok s → state_le st (Some s).
Proof.
  destruct st as [[i|i g|g|i g b|i status body [[g|g b]|]]|]; cbn; try (destruct (_ && _)); cbn; try (by intros [= <-]); try done;
    intros [= <-]; cbn; split_and?; try done; constructor.
Qed.

Lemma complete_state_le i status body st s : complete_state i status body st = Ok s → state_le st (Some s) ∧ ∃ fence, s = Completed i status body fence.
Proof.
  destruct st as [[j|j g|g|j g b|j status' body' fence]|]; cbn; try done; repeat case_bool_decide; cbn; try done; intros [= <-]; simplify_eq; split; eauto.
  all: cbn; split_and?; try done; constructor.
Qed.

(** What the controller decides: the state only moves forward, the answer tells it, and an
    execution is granted only where there was no record and the barrier lets it. *)
Lemma decide_spec c st op br obs repl action :
  decide_operation c st op br obs = Ok (repl, action) →
  let st' := match repl with Some s => Some s | None => st end in
  state_le st st' ∧ reflects action st' ∧
  (∀ i, action = AExecute i → st = None ∧ blocks_admission c br obs = Ok None).
Proof.
  destruct op as [|i|f|f|i status body]; unfold decide_operation.
  - intros [= <- <-]. split; [reflexivity|]. destruct st as [[]|]; cbn; split_and?; eauto; done.
  - destruct (_ || _); [done|]. cbn [mbind result_bind]. destruct st as [s|].
    + intros [= <- <-]. split_and!; [reflexivity|apply read_reflects|]. by destruct s.
    + destruct (blocks_admission c br obs) as [[id|]|]; cbn; [by intros [= <- <-]| |done]. intros [= <- <-]. by split_and!.
  - case_bool_decide; [done|]. cbn. destruct (fence_state false f st) as [s|] eqn:Hf; [|done]. intros [= <- <-].
    split_and!; [by eapply fence_state_le|apply fence_action_reflects|]. intros i. unfold fence_action. by destruct s as [| | | |? ? ? [[]|]].
  - case_bool_decide; [done|]. cbn. destruct (fence_state true f st) as [s|] eqn:Hf; [|done]. intros [= <- <-].
    split_and!; [by eapply fence_state_le|apply fence_action_reflects|]. intros i. unfold fence_action. by destruct s as [| | | |? ? ? [[]|]].
  - destruct (complete_state i status body st) as [s|] eqn:Hc; [|done]. intros [= <- <-]. destruct (complete_state_le _ _ _ _ _ Hc) as [Hle [fence ->]].
    split_and!; [done|apply read_reflects|done].
Qed.

Lemma begin_state_le id s : state_le (Some s) (Some (begin_state id s)).
Proof. destruct s as [| | | |? ? ? [[]|]]; cbn; split_and?; try done; constructor. Qed.

Lemma finish_state_le b t s s' : finish_state b t s = Ok (Some s') → state_le (Some s) (Some s').
Proof.
  destruct s as [i|i f|f|i f id|i status body [[f|f id]|]]; cbn; try done; repeat (case_match; try done); reflect_bool; intros [= <-]; cbn; subst;
    split_and?; try done; constructor.
Qed.

(** What an operation makes of a state that a barrier holds. *)
Definition holds_fence (s s' : ExecState V) : Prop :=
  match s with
  | Fencing i f => s' = s ∨ ∃ status body, s' = Completed i status body (Some (CFencing f))
  | Completed i status body (Some _) => s' = s
  | Completed i status body None => ∃ fence, s' = Completed i status body fence
  | NotAdmitted _ | Terminated _ _ _ => s' = s
  | StAdmitted _ => True
  end.

Lemma decide_holds_fence c s op br obs s' action : decide_operation c (Some s) op br obs = Ok (Some s', action) → holds_fence s s'.
Proof.
  assert (∀ ensure f, fence_state ensure f (Some s) = Ok s' → holds_fence s s') as Hfence.
  { intros ensure f. destruct s as [i|i g|g|i g b|i status body [[g|g b]|]]; cbn; try (destruct (_ && _)); cbn; try done; intros [= <-]; eauto. }
  destruct op as [|i|f|f|i status body]; unfold decide_operation; [done| | | |].
  - destruct (_ || _); [done|]. done.
  - case_bool_decide; [done|]. cbn [mbind result_bind]. destruct (fence_state false f (Some s)) eqn:Hf; [|done]. intros [= -> _]. by eapply Hfence.
  - case_bool_decide; [done|]. cbn [mbind result_bind]. destruct (fence_state true f (Some s)) eqn:Hf; [|done]. intros [= -> _]. by eapply Hfence.
  - destruct (complete_state i status body (Some s)) eqn:Hc; [|done]. intros [= -> _]. revert Hc.
    destruct s as [j|j g|g|j g b|j status' body' fence]; cbn; try done; repeat case_bool_decide; cbn; try done; intros [= <-]; simplify_eq; eauto. destruct fence; eauto.
Qed.

Lemma decide_fresh c op br obs s action :
  decide_operation c None op br obs = Ok (Some s, action) → (∃ i, s = StAdmitted i ∧ action = AExecute i ∧ blocks_admission c br obs = Ok None) ∨ ∃ f, s = NotAdmitted f.
Proof.
  destruct op as [|i|f|f|i status body]; unfold decide_operation; [done| | | |done].
  - destruct (_ || _); [done|]. cbn [mbind result_bind]. destruct (blocks_admission c br obs) as [[id|]|]; cbn; [done| |done]. intros [= <- <-]. left. by exists i.
  - case_bool_decide; [done|]. cbn. intros [= <- _]. right. by exists f.
  - case_bool_decide; [done|]. cbn. intros [= <- _]. right. by exists f.
Qed.

(** ** Valid states *)

Definition state_ok (s : ExecState V) : Prop := state_validate s = Ok tt.

Lemma state_ok_iff s : state_ok s ↔
  state_incarnation s ≠ Some "" ∧ state_fence s ≠ Some "" ∧
  match s with
  | Terminated _ _ b => b ≠ ""
  | Completed _ _ _ (Some (CFencing f)) => f ≠ ""
  | Completed _ _ _ (Some (CTerminated f b)) => f ≠ "" ∧ b ≠ ""
  | _ => True
  end.
Proof.
  unfold state_ok, state_validate. destruct s as [i|i f|f|i f id|i status body [[f|f id]|]]; cbn; repeat case_bool_decide; cbn; naive_solver.
Qed.

Definition kept_ok (st : option (ExecState V)) : Prop := match st with Some s => state_ok s | None => True end.

Lemma fence_state_ok ensure f st s : f ≠ "" → kept_ok st → fence_state ensure f st = Ok s → state_ok s.
Proof.
  intros Hf. destruct st as [s0|]; cbn [kept_ok]; rewrite ?state_ok_iff; [|intros _ [= <-]; cbn; naive_solver].
  destruct s0 as [i|i g|g|i g b|i status body [[g|g b]|]]; cbn; try (destruct (_ && _)); cbn; intros Hok; try done; intros [= <-]; cbn; naive_solver.
Qed.

Lemma complete_state_ok i status body st s : kept_ok st → complete_state i status body st = Ok s → state_ok s.
Proof.
  destruct st as [s0|]; [|done]. cbn [kept_ok]. rewrite !state_ok_iff.
  destruct s0 as [j|j g|g|j g b|j status' body' fence]; cbn; intros Hok; try done; repeat case_bool_decide; cbn; try done; intros [= <-]; simplify_eq; cbn in *; try naive_solver.
Qed.

Lemma decide_ok c st op br obs s action :
  kept_ok st → decide_operation c st op br obs = Ok (Some s, action) → state_ok s.
Proof.
  intros Hst. destruct op as [|i|f|f|i status body]; unfold decide_operation; [done| | | |].
  - destruct (bool_decide (i = "")) eqn:Hi; [done|]. destruct (_ || _); [done|]. cbn [mbind result_bind]. destruct st; [done|].
    destruct (blocks_admission c br obs) as [[id|]|]; cbn; [done| |done]. intros [= <- _]. apply state_ok_iff. apply bool_decide_eq_false in Hi. cbn. naive_solver.
  - case_bool_decide; [done|]. cbn. destruct (fence_state false f st) eqn:Hf; [|done]. intros [= <- _]. by eapply fence_state_ok.
  - case_bool_decide; [done|]. cbn. destruct (fence_state true f st) eqn:Hf; [|done]. intros [= <- _]. by eapply fence_state_ok.
  - destruct (complete_state i status body st) eqn:Hc; [|done]. intros [= <- _]. by eapply complete_state_ok.
Qed.

Lemma begin_state_ok id s : id ≠ "" → state_ok s → state_ok (begin_state id s).
Proof. rewrite !state_ok_iff. destruct s as [| | | |? ? ? [[]|]]; cbn; naive_solver. Qed.

Lemma finish_state_ok b t s s' : br_id b ≠ "" → tg_fence t ≠ "" → state_ok s → finish_state b t s = Ok (Some s') → state_ok s'.
Proof.
  intros Hb Ht. rewrite !state_ok_iff. destruct s as [i|i f|f|i f id|i status body [[f|f id]|]]; cbn; try done; repeat (case_match; try done); reflect_bool;
    intros Hok [= <-]; cbn; naive_solver.
Qed.
End states.

(** ** Maps from lists of entries *)

Lemma foldl_insert_union {A} (es : list (string * A)) (m : gmap string A) :
  NoDup es.*1 → foldl (λ m e, <[ e.1 := e.2 ]> m) m es = list_to_map es ∪ m.
Proof.
  revert m. induction es as [|[k v] es IH]; intros m Hn; cbn [foldl]; [cbn; by rewrite map_empty_union|].
  rewrite fmap_cons in Hn. apply NoDup_cons in Hn as [Hk Hn]. rewrite IH by done. cbn. apply not_elem_of_list_to_map_1 in Hk.
  rewrite <- insert_union_r by done. by rewrite insert_union_l.
Qed.

Lemma list_to_map_entries {A} (m : gmap string A) : list_to_map (map_entries m) = m.
Proof.
  apply map_eq. intros k. apply option_eq. intros v. rewrite <- elem_of_list_to_map by apply NoDup_map_entries. apply elem_of_map_entries.
Qed.

(** ** Owners *)

Section owners.
Context {V : Type} `{ExecValue V, Sha256, ExecTextLaws}.

Record Owner := mkOwner { ow_barrier : option (Barrier V); ow_records : gmap string (ExecRecord V) }.

Definition inventory (o : Owner) : list (ExecRecord V) := (map_entries (ow_records o)).*2.

(** The host commits what was answered before it acts on it. *)
Definition commit_reply (o : Owner) (reply : ControllerReply V) : Owner :=
  mkOwner (ow_barrier o) (match cr_record reply with Some r => <[ cr_key reply := r ]> (ow_records o) | None => ow_records o end).
Definition commit_barrier (o : Owner) (reply : BarrierReply V) : Owner :=
  mkOwner (bar_barrier reply) (foldl (λ m e, <[ e.1 := e.2 ]> m) (ow_records o) (bar_updates reply)).

Inductive event :=
| EvAction (key : string) (observed : string) (action : ExecAction V)
| EvBegin
| EvFinish.

Inductive owner_step (c : string) : Owner → event → Owner → Prop :=
| owner_transition o p op observed reply :
    transition_with_gate c p (ow_records o !! place_key p) op (ow_barrier o) observed = Ok reply →
    owner_step c o (EvAction (place_key p) observed (cr_action reply)) (commit_reply o reply)
| owner_begin o reply :
    barrier_begin c (ow_barrier o) (inventory o) = Ok reply → owner_step c o EvBegin (commit_barrier o reply)
| owner_finish o b id reply :
    ow_barrier o = Some b → barrier_finish c b (inventory o) id = Ok reply → owner_step c o EvFinish (commit_barrier o reply).

Inductive owner_run (c : string) : Owner → list event → Owner → Prop :=
| run_nil o : owner_run c o [] o
| run_snoc o evs o1 ev o2 : owner_run c o evs o1 → owner_step c o1 ev o2 → owner_run c o (evs ++ [ev]) o2.

Definition no_owner : Owner := mkOwner None ∅.

Definition state_at (o : Owner) (k : string) : option (ExecState V) := rec_state <$> ow_records o !! k.

Definition closing (o : Owner) : bool := match ow_barrier o with Some b => br_closing b | None => false end.

(** ** The invariant *)

Definition record_ok (c : string) (k : string) (r : ExecRecord V) : Prop :=
  place_key (rec_placement r) = k ∧ rec_protocol r = CONTROLLER_PROTOCOL ∧ validate_controller (rec_placement r) c = Ok tt ∧ state_ok (rec_state r).

(** While a barrier is closing nothing is admitted, what is fenced is a target, and a target
    is fenced or has completed under its fence. *)
Definition draining (o : Owner) (targets : gmap string (Target V)) : Prop :=
  (∀ k r, ow_records o !! k = Some r →
    match rec_state r with
    | StAdmitted _ => False
    | Fencing i f => targets !! k = Some (mkTarget (rec_placement r) i f)
    | _ => True
    end) ∧
  (∀ k t, targets !! k = Some t → ∃ r, ow_records o !! k = Some r ∧ rec_placement r = tg_placement t ∧
    (rec_state r = Fencing (tg_incarnation t) (tg_fence t) ∨
     ∃ status body, rec_state r = Completed (tg_incarnation t) status body (Some (CFencing (tg_fence t))))).

Definition owner_ok (c : string) (o : Owner) : Prop :=
  map_Forall (record_ok c) (ow_records o) ∧ barrier_read c (ow_barrier o) = Ok (ow_barrier o) ∧
  ∀ b, ow_barrier o = Some b → br_closing b = true → draining o (target_map (br_targets b)).

Lemma no_owner_ok c : c ≠ "" → owner_ok c no_owner.
Proof. intros Hc. split_and!; [apply map_Forall_empty|cbn; by case_bool_decide|done]. Qed.

(** *** Inventories *)

Lemma records_from_spec c es acc :
  NoDup es.*1 → (∀ k r, (k, r) ∈ es → record_ok c k r ∧ acc !! k = None) →
  records_from c es.*2 acc = Ok (foldl (λ m e, <[ e.1 := e.2 ]> m) acc es).
Proof.
  revert acc. induction es as [|[k r] es IH]; intros acc Hn Hok; [done|]. rewrite fmap_cons in Hn. apply NoDup_cons in Hn as [Hk Hn].
  destruct (Hok k r) as [(Hkey & Hp & Hv & Hs) Hacc]; [by left|]. cbn [fmap list_fmap records_from snd]. rewrite Hv. cbn [mbind result_bind].
  unfold state_ok in Hs. rewrite Hs. cbn [mbind result_bind]. rewrite Hkey, Hp, Hacc. rewrite bool_decide_eq_true_2 by done.
  rewrite bool_decide_eq_false_2 by (intros [? [=]]). cbn. apply IH; [done|]. intros k' r' Hin. destruct (Hok k' r') as [? ?]; [by right|].
  split; [done|]. rewrite lookup_insert_ne; [done|]. intros ->. apply Hk. by apply (list_elem_of_fmap_2 fst _ (k', r')).
Qed.

Lemma inventory_records c o : map_Forall (record_ok c) (ow_records o) → records c (inventory o) = Ok (ow_records o).
Proof.
  intros Hok. unfold records, inventory. rewrite records_from_spec; [|apply NoDup_map_entries|].
  - rewrite foldl_insert_union by apply NoDup_map_entries. by rewrite list_to_map_entries, map_union_empty.
  - intros k r Hin%elem_of_map_entries. split; [by apply Hok|done].
Qed.

(** *** Updates *)

(** Changes of states under the keys of a map. *)
Lemma committed_lookup (m : gmap string (ExecRecord V)) updates k :
  NoDup updates.*1 →
  foldl (λ m e, <[ e.1 := e.2 ]> m) m updates !! k =
    match list_to_map (M := gmap string (ExecRecord V)) updates !! k with Some r => Some r | None => m !! k end.
Proof.
  intros Hn. rewrite foldl_insert_union by done. rewrite lookup_union. destruct (list_to_map updates !! k) eqn:Hl; cbn; by destruct (m !! k).
Qed.

Lemma begin_updates_NoDup id (m : gmap string (ExecRecord V)) : NoDup (begin_updates id (map_entries m)).*1.
Proof.
  pose proof (NoDup_map_entries m) as Hn. unfold begin_updates. induction (map_entries m) as [|[k r] es IH]; [constructor|].
  rewrite fmap_cons in Hn. apply NoDup_cons in Hn as [Hk Hn]. cbn. case_bool_decide; [by apply IH|]. cbn. constructor; [|by apply IH].
  intros ([k' r'] & -> & ([k2 r2] & Hin & Hx)%list_elem_of_omap)%list_elem_of_fmap. cbn in Hx. case_bool_decide; [done|]. injection Hx as -> _.
  apply Hk. by apply (list_elem_of_fmap_2 fst _ (k', r2)).
Qed.

Lemma begin_lookup id (m : gmap string (ExecRecord V)) k :
  foldl (λ m e, <[ e.1 := e.2 ]> m) m (begin_updates id (map_entries m)) !! k = begin_record id <$> m !! k.
Proof.
  rewrite committed_lookup by apply begin_updates_NoDup. destruct (list_to_map _ !! k) as [r'|] eqn:Hl.
  - apply elem_of_list_to_map_2 in Hl. apply list_elem_of_omap in Hl as ([k2 r2] & Hin%elem_of_map_entries & Hx). cbn in Hx. case_bool_decide; [done|].
    injection Hx as -> <-. by rewrite Hin.
  - destruct (m !! k) as [r|] eqn:Hm; [|done]. cbn. f_equal. unfold begin_record.
    destruct (decide (begin_state id (rec_state r) = rec_state r)) as [He|Hne]; [rewrite He; by destruct r|]. exfalso.
    apply not_elem_of_list_to_map_2 in Hl. apply Hl. apply (list_elem_of_fmap_2 fst _ (k, begin_record id r)).
    apply list_elem_of_omap. exists (k, r). split; [by apply elem_of_map_entries|]. cbn. by rewrite bool_decide_eq_false_2.
Qed.

(** *** Targets *)

Abbreviation target_key t := (place_key (tg_placement t)).

Lemma target_map_lookup (ts : list (Target V)) k t :
  NoDup ((λ t, target_key t) <$> ts) → target_map ts !! k = Some t ↔ t ∈ ts ∧ target_key t = k.
Proof.
  intros Hn. assert (target_map ts = list_to_map ((λ t, (target_key t, t)) <$> ts)) as ->.
  { assert (((λ t, (target_key t, t)) <$> ts).*1 = (λ t, target_key t) <$> ts) as Hk by (rewrite <- list_fmap_compose; done).
    rewrite <- (map_union_empty (list_to_map _)), <- foldl_insert_union by (by rewrite Hk). unfold target_map. clear Hn Hk. generalize (∅ : gmap string (Target V)).
    induction ts as [|t0 ts IH]; intros m; [done|]. cbn. by rewrite IH. }
  rewrite <- elem_of_list_to_map, list_elem_of_fmap by (rewrite <- list_fmap_compose; exact Hn). naive_solver.
Qed.

Lemma targets_valid_iff c seen ts :
  targets_valid c seen ts = Ok tt ↔
    NoDup ((λ t, target_key t) <$> ts) ∧
    ∀ t, t ∈ ts → validate_controller (tg_placement t) c = Ok tt ∧ tg_incarnation t ≠ "" ∧ tg_fence t ≠ "" ∧ target_key t ∉ seen.
Proof.
  revert seen. induction ts as [|t ts IH]; intros seen; cbn [targets_valid].
  { split; [|done]. intros _. split; [constructor|]. by intros t ?%elem_of_nil. }
  rewrite fmap_cons, NoDup_cons, bind_ok. split.
  - intros ([] & Hv & Hr). apply bind_ok in Hr as ([] & Hg & Hr). destruct (_ || _) eqn:Hc; [done|]. reflect_bool. apply IH in Hr as [Hn Hall]. split_and!.
    + intros (t' & Hk & Ht')%list_elem_of_fmap. destruct (Hall t' Ht') as (_ & _ & _ & Hs). rewrite <- Hk in Hs. set_solver.
    + done.
    + intros t' [->|Ht']%elem_of_cons; [done|]. destruct (Hall t' Ht') as (? & ? & ? & Hs). split_and!; [done..|]. set_solver.
  - intros [[Hk Hn] Hall]. destruct (Hall t) as (Hv & Hi & Hf & Hs); [by left|]. exists tt. split; [done|].
    rewrite !bool_decide_eq_false_2 by done. cbn. apply IH. split; [done|]. intros t' Ht'. destruct (Hall t') as (? & ? & ? & ?); [by right|].
    split_and!; [done..|]. intros [Heq%elem_of_singleton|?]%elem_of_union; [|done]. apply Hk. rewrite <- Heq. by apply (list_elem_of_fmap_2 (λ t, target_key t)).
Qed.

Lemma elem_of_begin_targets id (m : gmap string (ExecRecord V)) t :
  t ∈ begin_targets id (map_entries m) ↔
    ∃ k r i f, m !! k = Some r ∧ pending_fence (begin_state id (rec_state r)) = Some (i, f) ∧ t = mkTarget (rec_placement r) i f.
Proof.
  unfold begin_targets. rewrite list_elem_of_omap. split.
  - intros ([k r] & Hin%elem_of_map_entries & Ht). cbn in Ht. destruct (pending_fence _) as [[i f]|] eqn:Hp; [|done]. injection Ht as <-. by exists k, r, i, f.
  - intros (k & r & i & f & Hm & Hp & ->). exists (k, r). split; [by apply elem_of_map_entries|]. cbn. by rewrite Hp.
Qed.

Lemma begin_targets_NoDup c id (m : gmap string (ExecRecord V)) :
  map_Forall (record_ok c) m → NoDup ((λ t, target_key t) <$> begin_targets id (map_entries m)).
Proof.
  intros Hok. pose proof (NoDup_map_entries m) as Hn.
  assert (∀ k r, (k, r) ∈ map_entries m → place_key (rec_placement r) = k) as Hk by (intros k r Hin%elem_of_map_entries; by apply Hok in Hin as (? & _)).
  unfold begin_targets. induction (map_entries m) as [|[k r] es IH]; [constructor|]. rewrite fmap_cons in Hn. apply NoDup_cons in Hn as [Hkn Hn]. cbn.
  specialize (IH Hn (λ k r Hin, Hk k r (list_elem_of_further _ _ _ Hin))).
  destruct (pending_fence _) as [[i f]|]; [|done]. cbn. constructor; [|done].
  intros (t & Ht & ([k2 r2] & Hin & Hx)%list_elem_of_omap)%list_elem_of_fmap. cbn in Hx. destruct (pending_fence _) as [[i2 f2]|]; [|done]. injection Hx as <-.
  cbn in Ht. rewrite (Hk k r), (Hk k2 r2) in Ht; [|by right|by left]. subst k2. apply Hkn. by apply (list_elem_of_fmap_2 fst _ (k, r2)).
Qed.

Lemma begin_target_lookup c id (m : gmap string (ExecRecord V)) k t :
  map_Forall (record_ok c) m →
  target_map (begin_targets id (map_entries m)) !! k = Some t ↔
    ∃ r i f, m !! k = Some r ∧ pending_fence (begin_state id (rec_state r)) = Some (i, f) ∧ t = mkTarget (rec_placement r) i f.
Proof.
  intros Hok. rewrite target_map_lookup by by eapply begin_targets_NoDup. rewrite elem_of_begin_targets. split.
  - intros [(k' & r & i & f & Hm & Hp & ->) Hk]. cbn in Hk. pose proof Hm as Hm'. apply Hok in Hm' as (Hk' & _). rewrite Hk in Hk'. subst k'. by exists r, i, f.
  - intros (r & i & f & Hm & Hp & ->). split; [by exists k, r, i, f|]. cbn. by apply Hok in Hm as (? & _).
Qed.

(** *** Generations *)

Lemma parse_u64_pretty (n : N) : (n < 18446744073709551616)%N → parse_u64 (pretty n) = Some n.
Proof.
  intros Hn. unfold parse_u64. pose proof (parse_magnitude_pretty n) as Hp.
  assert (match pretty n with String "+"%char s' => parse_magnitude s' | _ => parse_magnitude (pretty n) end = Some n) as ->.
  { destruct (pretty n) as [|c s] eqn:He; [done|]. destruct (decide (c = "+"%char)) as [->|Hne]; [|by repeat case_match; congruence]. done. }
  cbn. by apply N.ltb_lt in Hn as ->.
Qed.

(** A barrier that reads. *)
Definition barrier_ok (c : string) (b : Barrier V) : Prop :=
  (∃ n : N, (0 < n < 18446744073709551616)%N ∧ br_generation b = pretty n) ∧ c ≠ "" ∧ br_protocol b = BARRIER_PROTOCOL ∧ br_owner b = c ∧
  br_id b = barrier_text BARRIER_PROTOCOL c (br_generation b) ∧ br_targets b ≠ [] ∧ targets_valid c ∅ (br_targets b) = Ok tt.

Lemma barrier_read_iff c b r : barrier_read c (Some b) = Ok r ↔ barrier_ok c b ∧ r = Some b.
Proof.
  unfold barrier_read, barrier_ok. rewrite bind_ok. split.
  - intros ([] & Hb & Hr). apply bind_ok in Hr as ([] & Ht & [= <-]). split; [|done]. unfold barrier_binding in Hb.
    destruct (parse_u64 (br_generation b)) as [n|] eqn:Hn; [|done]. destruct (_ || _) eqn:Hc; [done|]. reflect_bool.
    split_and!; try done; [|by intros He; match goal with Hl : length _ ≠ 0 |- _ => by rewrite He in Hl end].
    exists n. split; [|by symmetry]. match goal with Hz : (n =? 0)%N = false |- _ => apply N.eqb_neq in Hz end. unfold parse_u64 in Hn. destruct (match br_generation b with EmptyString => _ | _ => _ end); [|done].
    cbn in Hn. destruct (_ <? _)%N eqn:Hlt in Hn; [|done]. injection Hn as <-. apply N.ltb_lt in Hlt. lia.
  - intros [((n & Hn & Hg) & Hc & Hp & Ho & Hid & Hts & Ht) ->]. exists tt. split; [|rewrite Ht; done]. unfold barrier_binding.
    assert (parse_u64 (br_generation b) = Some n) as -> by (rewrite Hg; apply parse_u64_pretty; lia).
    rewrite (bool_decide_eq_false_2 (c = "") Hc), (bool_decide_eq_true_2 _ Hp), (bool_decide_eq_true_2 _ Ho), (bool_decide_eq_true_2 _ Hid), (bool_decide_eq_true_2 _ (eq_sym Hg)).
    rewrite bool_decide_eq_false_2 by (by intros ?%length_zero_iff_nil). assert ((n =? 0)%N = false) as -> by (apply N.eqb_neq; lia). done.
Qed.

Lemma barrier_read_same c stored r : barrier_read c stored = Ok r → r = stored.
Proof. destruct stored as [b|]; [rewrite barrier_read_iff; by intros [_ ->]|]. cbn. case_bool_decide; [done|]. by intros [= <-]. Qed.

Lemma next_generation_spec (prior : option (Barrier V)) c g :
  barrier_read c prior = Ok prior → next_generation prior = Ok g →
  ∃ n : N, (n + 1 < 18446744073709551616)%N ∧ g = pretty (n + 1)%N ∧
    match prior with Some b => br_generation b = pretty n | None => n = 0%N end.
Proof.
  unfold next_generation. destruct prior as [b|]; [rewrite barrier_read_iff; intros [((n & Hn & Hg) & _) _]; rewrite Hg, parse_u64_pretty by lia|intros _; cbn].
  - destruct (_ <? _)%N eqn:Hlt; [|done]. intros [= <-]. apply N.ltb_lt in Hlt. by exists n.
  - intros [= <-]. by exists 0%N.
Qed.

(** ** Steps *)

(** The states of an owner only move forward. *)
Definition moves (o o' : Owner) : Prop := ∀ k, state_le (state_at o k) (state_at o' k).

#[export] Instance moves_preorder : PreOrder moves.
Proof. split; [intros o k; reflexivity|]. intros o1 o2 o3 Ha Hb k. etransitivity; [apply Ha|apply Hb]. Qed.

Lemma moves_same o b : moves o (mkOwner b (ow_records o)).
Proof. intros k. reflexivity. Qed.

(** A new barrier: its records, its targets and its name. *)
Lemma begin_new c o g :
  owner_ok c o → closing o = false → next_generation (ow_barrier o) = Ok g →
  let id := barrier_text BARRIER_PROTOCOL c g in
  let b := mkBarrier BARRIER_PROTOCOL c g id true (begin_targets id (map_entries (ow_records o))) in
  let o' := mkOwner (Some b) (foldl (λ m e, <[ e.1 := e.2 ]> m) (ow_records o) (begin_updates id (map_entries (ow_records o)))) in
  br_targets b ≠ [] → c ≠ "" → owner_ok c o' ∧ moves o o'.
Proof.
  intros (Hrec & Hread & _) Hcl Hg id b o' Hts Hc. assert (id ≠ "") as Hid by apply barrier_text_nonempty. split.
  - split_and!.
    + intros k r. cbn [ow_records o']. rewrite begin_lookup. destruct (ow_records o !! k) as [r0|] eqn:Hm; [|done]. intros [= <-].
      destruct (Hrec k r0 Hm) as (? & ? & ? & ?). split_and!; [done..|]. by apply begin_state_ok.
    + apply barrier_read_iff. split; [|done]. destruct (next_generation_spec _ _ _ Hread Hg) as (n & Hn & -> & _). split_and!; try done; [exists (n + 1)%N; split; [lia|done]|].
      apply targets_valid_iff. split; [by eapply begin_targets_NoDup|]. intros t (k & r & i & f & Hm & Hp & ->)%elem_of_begin_targets. cbn.
      destruct (Hrec k r Hm) as (_ & _ & Hv & Hok). apply (begin_state_ok id) in Hok; [|done]. apply state_ok_iff in Hok as (Hi & Hf & Hrest).
      split_and!; [done| | |set_solver]; destruct (begin_state id (rec_state r)) as [| | | |? ? ? [[]|]]; cbn in *; naive_solver.
    + intros b' [= <-] _. split.
      * intros k r. cbn [ow_records o']. rewrite begin_lookup. destruct (ow_records o !! k) as [r0|] eqn:Hm; [|done]. intros [= <-]. cbn.
        destruct (begin_state id (rec_state r0)) as [i|i f| | |] eqn:Hs; try done; [by destruct (rec_state r0) as [| | | |? ? ? [[]|]]|].
        apply (begin_target_lookup c); [done|]. exists r0, i, f. split_and!; [done| |done]. by rewrite Hs.
      * intros k t (r & i & f & Hm & Hp & ->)%(begin_target_lookup c); [|done]. exists (begin_record id r). cbn [ow_records o']. rewrite begin_lookup, Hm.
        split_and!; [done|done|]. cbn. destruct (begin_state id (rec_state r)) as [| | | |? ? ? [[]|]]; cbn in Hp; simplify_eq; eauto.
  - intros k. unfold state_at. cbn [ow_records o']. rewrite begin_lookup. destruct (ow_records o !! k) as [r|]; [|done]. cbn. apply begin_state_le.
Qed.

Lemma owner_nonempty c o : owner_ok c o → c ≠ "".
Proof.
  intros (_ & Hread & _). destruct (ow_barrier o) as [b|]; [apply barrier_read_iff in Hread as [(_ & ? & _) _]; done|]. cbn in Hread. by case_bool_decide.
Qed.

Lemma begin_step c o reply :
  owner_ok c o → barrier_begin c (ow_barrier o) (inventory o) = Ok reply → owner_ok c (commit_barrier o reply) ∧ moves o (commit_barrier o reply).
Proof.
  intros Hok. pose proof Hok as (Hrec & Hread & _). unfold barrier_begin. rewrite Hread. cbn [mbind result_bind]. rewrite (inventory_records c o Hrec). cbn [mbind result_bind].
  fold (closing o). destruct (closing o) eqn:Hcl; [intros [= <-]; by destruct o|].
  destruct (next_generation (ow_barrier o)) as [g|] eqn:Hg; [|done]. cbn [mbind result_bind]. case_bool_decide as Hts; intros [= <-]; [by destruct o|].
  apply begin_new; [done..| |by eapply owner_nonempty]. cbn. by intros He; rewrite He in Hts.
Qed.

(** *** Finish *)

Lemma finish_targets_ok b (recs : gmap string (ExecRecord V)) es updates :
  NoDup es.*1 → finish_targets b recs es = Ok updates →
  NoDup updates.*1 ∧
  (∀ k r', (k, r') ∈ updates → ∃ t r s, (k, t) ∈ es ∧ recs !! k = Some r ∧ finish_state b t (rec_state r) = Ok (Some s) ∧ r' = with_state r s) ∧
  (∀ k t, (k, t) ∈ es → ∃ r next, recs !! k = Some r ∧ finish_state b t (rec_state r) = Ok next ∧ ∀ s, next = Some s → (k, with_state r s) ∈ updates).
Proof.
  revert updates. induction es as [|[k t] es IH]; intros updates Hn; cbn [finish_targets].
  { intros [= <-]. split_and!; [constructor|by intros ? ? ?%elem_of_nil|by intros ? ? ?%elem_of_nil]. }
  rewrite fmap_cons in Hn. apply NoDup_cons in Hn as [Hk Hn]. destruct (recs !! k) as [r|] eqn:Hr; [|done]. cbn [ok_or mbind result_bind].
  case_bool_decide; [|done]. cbn [mbind result_bind]. destruct (finish_state b t (rec_state r)) as [next|] eqn:Hs; [|done]. cbn [mbind result_bind].
  destruct (finish_targets b recs es) as [us|] eqn:Hf; [|done]. cbn [mbind result_bind]. intros [= <-]. destruct (IH us Hn eq_refl) as (Hnu & Hu & Ht).
  assert (∀ r', (k, r') ∉ us) as Hku by (intros r' (t' & _ & _ & Hin & _)%Hu; apply Hk; by apply (list_elem_of_fmap_2 fst _ (k, t'))).
  split_and!.
  - destruct next; [|done]. cbn. constructor; [|done]. intros ([k' r'] & -> & Hin)%list_elem_of_fmap. by apply (Hku r').
  - intros k' r' Hin. destruct next as [s|]; [apply elem_of_cons in Hin as [[= -> ->]|Hin]|].
    + exists t, r, s. split_and!; [by left|done..].
    + destruct (Hu _ _ Hin) as (t' & r2 & s' & ? & ?). exists t', r2, s'. split; [by right|done].
    + destruct (Hu _ _ Hin) as (t' & r2 & s' & ? & ?). exists t', r2, s'. split; [by right|done].
  - intros k' t' [[= -> ->]|Hin]%elem_of_cons.
    + exists r, next. split_and!; [done..|]. intros s ->. by left.
    + destruct (Ht _ _ Hin) as (r2 & next2 & ? & ? & Hin2). exists r2, next2. split_and!; [done..|]. intros s Hs2. destruct next; [right|]; by apply Hin2.
Qed.

Lemma barrier_targets_valid c b t : barrier_ok c b → t ∈ br_targets b → tg_fence t ≠ "".
Proof. intros (_ & _ & _ & _ & _ & _ & Ht) Hin. apply targets_valid_iff in Ht as [_ Ht]. by destruct (Ht t Hin) as (_ & _ & ? & _). Qed.

Lemma barrier_target_lookup c b k t : barrier_ok c b → target_map (br_targets b) !! k = Some t ↔ t ∈ br_targets b ∧ target_key t = k.
Proof. intros (_ & _ & _ & _ & _ & _ & Ht). apply target_map_lookup. by apply targets_valid_iff in Ht as [? _]. Qed.

Definition finished (b : Barrier V) : Barrier V := mkBarrier (br_protocol b) (br_owner b) (br_generation b) (br_id b) false (br_targets b).

(** The parts of a finish that answers. *)
Lemma finish_parts c o b id reply :
  owner_ok c o → ow_barrier o = Some b → barrier_finish c b (inventory o) id = Ok reply →
  br_id b = id ∧ bar_barrier reply = Some (finished b) ∧
  (∀ k r, ow_records o !! k = Some r → is_live (rec_state r) = true → is_Some (target_map (br_targets b) !! k)) ∧
  finish_targets b (ow_records o) (map_entries (target_map (br_targets b))) = Ok (bar_updates reply).
Proof.
  intros (Hrec & Hread & _) Hb. rewrite Hb in Hread. unfold barrier_finish. rewrite Hread. cbn [mbind result_bind ok_or]. case_bool_decide as Hid; [|done].
  cbn [mbind result_bind]. rewrite (inventory_records c o Hrec). cbn [mbind result_bind]. destruct (check_all _ _) as [[]|] eqn:Hc; [|done]. cbn [mbind result_bind].
  destruct (finish_targets _ _ _) as [updates|] eqn:Hf; [|done]. intros [= <-]. split_and!; [done|done| |done].
  intros k r Hk Hl. rewrite check_all_ok in Hc. specialize (Hc (k, r)). rewrite elem_of_map_entries in Hc. specialize (Hc Hk). cbn in Hc. rewrite Hl in Hc. cbn in Hc.
  case_bool_decide as Hn; [done|]. by apply not_eq_None_Some.
Qed.

(** A target's record after the end. *)
Lemma finish_lookup c o b id reply k :
  owner_ok c o → ow_barrier o = Some b → barrier_finish c b (inventory o) id = Ok reply →
  match ow_records o !! k, target_map (br_targets b) !! k with
  | Some r, Some t => ∃ next, finish_state b t (rec_state r) = Ok next ∧
      ow_records (commit_barrier o reply) !! k = Some (match next with Some s => with_state r s | None => r end)
  | m, None => ow_records (commit_barrier o reply) !! k = m
  | None, Some _ => False
  end.
Proof.
  intros Hok Hb Hf. destruct (finish_parts _ _ _ _ _ Hok Hb Hf) as (_ & _ & _ & Ht).
  destruct (finish_targets_ok _ _ _ _ (NoDup_map_entries _) Ht) as (Hn & Hu & Hall). cbn [commit_barrier ow_records]. rewrite committed_lookup by done.
  assert (∀ r', list_to_map (M := gmap string (ExecRecord V)) (bar_updates reply) !! k = Some r' ↔ (k, r') ∈ bar_updates reply) as Hl.
  { intros r'. by rewrite elem_of_list_to_map. }
  assert (∀ t, target_map (br_targets b) !! k = Some t → ∃ r next, ow_records o !! k = Some r ∧ finish_state b t (rec_state r) = Ok next ∧ ∀ s, next = Some s → (k, with_state r s) ∈ bar_updates reply) as Hk.
  { intros t Hkt. by apply Hall, elem_of_map_entries. }
  destruct (list_to_map (bar_updates reply) !! k) as [r'|] eqn:Hlk.
  - pose proof (proj1 (Hl r') eq_refl) as Hin. destruct (Hu _ _ Hin) as (t & r & s & Hkt%elem_of_map_entries & Hr & Hs & ->). rewrite Hr, Hkt. by exists (Some s).
  - destruct (target_map (br_targets b) !! k) as [t|] eqn:Hkt; [|by destruct (ow_records o !! k)].
    destruct (Hk t eq_refl) as (r & next & -> & Hs & Hin). exists next. split; [done|]. destruct next as [s|]; [|done]. specialize (Hin s eq_refl). by apply Hl in Hin.
Qed.

Lemma finish_step c o b id reply :
  owner_ok c o → ow_barrier o = Some b → barrier_finish c b (inventory o) id = Ok reply →
  owner_ok c (commit_barrier o reply) ∧ moves o (commit_barrier o reply).
Proof.
  intros Hok Hb Hf. pose proof Hok as (Hrec & Hread & _). destruct (finish_parts _ _ _ _ _ Hok Hb Hf) as (_ & Hbar & _ & _).
  rewrite Hb in Hread. apply barrier_read_iff in Hread as [Hbok _].
  assert (br_id b ≠ "") as Hid by (destruct Hbok as (_ & _ & _ & _ & -> & _); apply barrier_text_nonempty).
  assert (∀ k, match ow_records o !! k with None => ow_records (commit_barrier o reply) !! k = None
    | Some r => ∃ s, ow_records (commit_barrier o reply) !! k = Some (with_state r s) ∧ state_le (Some (rec_state r)) (Some s) ∧ (state_ok (rec_state r) → state_ok s) end) as Hk.
  { intros k. pose proof (finish_lookup _ _ _ _ _ k Hok Hb Hf) as Hl. destruct (ow_records o !! k) as [r|], (target_map (br_targets b) !! k) as [t|] eqn:Ht; try done.
    - destruct Hl as (next & Hs & ->). apply (barrier_target_lookup c) in Ht as [Hin _]; [|done]. destruct next as [s|].
      + exists s. split_and!; [done|by eapply finish_state_le|]. intros ?. eapply finish_state_ok; [done| |done|done]. by eapply barrier_targets_valid.
      + exists (rec_state r). split_and!; [by destruct r|reflexivity|done].
    - exists (rec_state r). split_and!; [by destruct r|reflexivity|done]. }
  split.
  - split_and!.
    + intros k r' Hr'. specialize (Hk k). destruct (ow_records o !! k) as [r|] eqn:Hr; [|congruence]. destruct Hk as (s & Hs & _ & Hsok). rewrite Hs in Hr'.
      injection Hr' as <-. destruct (Hrec k r Hr) as (? & ? & ? & ?). split_and!; auto.
    + cbn [commit_barrier ow_barrier]. rewrite Hbar. apply barrier_read_iff. split; [|done]. destruct Hbok as (? & ? & ? & ? & ? & ? & ?). by split_and!.
    + cbn [commit_barrier ow_barrier]. rewrite Hbar. by intros b' [= <-].
  - intros k. unfold state_at. specialize (Hk k). destruct (ow_records o !! k) as [r|]; [|done]. by destruct Hk as (s & -> & ? & _).
Qed.

(** After the end no record is live. *)
Lemma finish_drained c o b id reply k r :
  owner_ok c o → ow_barrier o = Some b → barrier_finish c b (inventory o) id = Ok reply →
  ow_records (commit_barrier o reply) !! k = Some r → is_live (rec_state r) = false.
Proof.
  intros Hok Hb Hf Hr. pose proof (finish_lookup _ _ _ _ _ k Hok Hb Hf) as Hl. destruct (finish_parts _ _ _ _ _ Hok Hb Hf) as (_ & _ & Hlive & _).
  destruct (ow_records o !! k) as [r0|] eqn:Hr0, (target_map (br_targets b) !! k) as [t|] eqn:Ht; try done; [|rewrite Hl in Hr; injection Hr as <-|congruence].
  - destruct Hl as (next & Hs & Hl). rewrite Hl in Hr. injection Hr as <-.
    destruct (rec_state r0) as [i|i f|f|i f b'|i st bd [[f|f b']|]] eqn:Hst; cbn in Hs; repeat (case_match; try done); simplify_eq; cbn; try done; by rewrite Hst.
  - destruct (is_live (rec_state r0)) eqn:Hlv; [|done]. destruct (Hlive k r0 Hr0 Hlv) as [t Hx]. congruence.
Qed.

Lemma finish_targets_draining b (recs : gmap string (ExecRecord V)) es :
  br_closing b = true →
  (∀ k t, (k, t) ∈ es → ∃ r, recs !! k = Some r ∧ rec_placement r = tg_placement t ∧
    (rec_state r = Fencing (tg_incarnation t) (tg_fence t) ∨ ∃ status body, rec_state r = Completed (tg_incarnation t) status body (Some (CFencing (tg_fence t))))) →
  ∃ updates, finish_targets b recs es = Ok updates.
Proof.
  intros Hcl. induction es as [|[k t] es IH]; intros Hall; cbn [finish_targets]; [by eexists|].
  destruct IH as [updates Hu]; [intros k' t' Hin; apply Hall; by right|]. destruct (Hall k t) as (r & -> & Hp & Hs); [by left|]. cbn [ok_or mbind result_bind].
  rewrite bool_decide_eq_true_2 by done. cbn [mbind result_bind]. rewrite Hu.
  destruct Hs as [->|(status & body & ->)]; cbn; rewrite Hcl, !bool_decide_eq_true_2 by done; cbn; eauto.
Qed.

(** While a barrier is closing, its end answers. *)
Lemma finish_succeeds c o b :
  owner_ok c o → ow_barrier o = Some b → br_closing b = true → ∃ reply, barrier_finish c b (inventory o) (br_id b) = Ok reply.
Proof.
  intros (Hrec & Hread & Hdr) Hb Hcl. specialize (Hdr b Hb Hcl) as [Hd1 Hd2]. rewrite Hb in Hread. unfold barrier_finish. rewrite Hread. cbn [mbind result_bind ok_or].
  rewrite bool_decide_eq_true_2 by done. cbn [mbind result_bind]. rewrite (inventory_records c o Hrec). cbn [mbind result_bind].
  assert (check_all (λ e, if is_live (rec_state e.2) && bool_decide (target_map (br_targets b) !! e.1 = None) then Err AdmissionEscaped else Ok tt) (map_entries (ow_records o)) = Ok tt) as ->.
  { apply check_all_ok. intros [k r] Hin%elem_of_map_entries. cbn. specialize (Hd1 k r Hin). destruct (rec_state r); cbn; try done. by rewrite Hd1. }
  cbn [mbind result_bind]. destruct (finish_targets_draining b (ow_records o) (map_entries (target_map (br_targets b))) Hcl) as [updates ->]; [|by eexists].
  intros k t Hin%elem_of_map_entries. by apply Hd2.
Qed.

(** *** Transitions *)

Definition generation (o : Owner) : string := match ow_barrier o with Some b => br_generation b | None => "0" end.

(** The record of a placement, before and after. *)
Lemma transition_parts c o p op obs reply :
  owner_ok c o → transition_with_gate c p (ow_records o !! place_key p) op (ow_barrier o) obs = Ok reply →
  ∃ repl, decide_operation c (state_at o (place_key p)) op (ow_barrier o) obs = Ok (repl, cr_action reply) ∧
    validate_controller p c = Ok tt ∧ (∀ r, ow_records o !! place_key p = Some r → rec_placement r = p) ∧
    ow_records (commit_reply o reply) = match repl with
      | Some s => <[ place_key p := mkExecRecord CONTROLLER_PROTOCOL p s ]> (ow_records o) | None => ow_records o end.
Proof.
  intros Hok. unfold transition_with_gate, state_at. rewrite bind_ok. intros ([] & Hv & Hr). apply bind_ok in Hr as ([] & Hs & Hr). apply bind_ok in Hr as ([repl action] & Hd & [= <-]).
  exists repl. cbn [cr_action]. split_and!; [done|done| |].
  - intros r Hrec. rewrite Hrec in Hs. cbn in Hs. apply bind_ok in Hs as ([] & Hs & _). destruct (_ && _) eqn:Hc; [|done]. by reflect_bool.
  - assert (place_text CONTROLLER_PROTOCOL c (pl_selected p) = place_key p) as Hk.
    { unfold place_key. f_equal. unfold validate_controller in Hv. apply bind_ok in Hv as ([] & _ & Hv). destruct (_ && _) eqn:Hc; [|done]. by reflect_bool. }
    unfold commit_reply. cbn [ow_records cr_record cr_key]. rewrite Hk. destruct repl as [s|]; [done|].
    destruct (ow_records o !! place_key p) as [r|] eqn:Hrec; [|done]. by rewrite insert_id.
Qed.

Lemma blocks_none c o obs : owner_ok c o → blocks_admission c (ow_barrier o) obs = Ok None → closing o = false ∧ obs = generation o.
Proof.
  intros (_ & Hread & _). unfold blocks_admission, closing, generation. rewrite Hread. cbn [mbind result_bind]. destruct (ow_barrier o) as [b|].
  - destruct (br_closing b); [rewrite orb_true_r; done|]. rewrite orb_false_r. by case_bool_decide.
  - by case_bool_decide.
Qed.

(** A barrier keeps draining under an operation on one record. *)
Lemma draining_insert o o' targets p s :
  draining o targets → ow_records o' = <[ place_key p := mkExecRecord CONTROLLER_PROTOCOL p s ]> (ow_records o) →
  (∀ r, ow_records o !! place_key p = Some r → rec_placement r = p) →
  match ow_records o !! place_key p with Some r => holds_fence (rec_state r) s | None => is_live s = false end →
  draining o' targets.
Proof.
  intros [Hd1 Hd2] Ho' Hp Hs. unfold draining. rewrite Ho'. split.
  - intros k r. destruct (decide (k = place_key p)) as [->|Hne]; [|rewrite lookup_insert_ne by done; apply Hd1]. rewrite lookup_insert_eq. intros [= <-]. cbn.
    destruct (ow_records o !! place_key p) as [r0|] eqn:Hr0; [|by destruct s]. specialize (Hd1 _ _ Hr0). specialize (Hp _ eq_refl). subst p.
    destruct (rec_state r0) as [i|i f|f|i f b|i st bd [fence|]]; cbn in Hs; try done; [|by subst s..|by destruct Hs as [? ->]].
    destruct Hs as [->|(st & bd & ->)]; done.
  - intros k t Ht. destruct (Hd2 k t Ht) as (r & Hr & Hpl & Hst). destruct (decide (k = place_key p)) as [->|Hne]; [|exists r; by rewrite lookup_insert_ne].
    rewrite lookup_insert_eq. rewrite Hr in Hs. eexists. split_and!; [done|cbn; by rewrite <- Hpl, (Hp r Hr)|]. cbn.
    destruct Hst as [Hst|(st & bd & Hst)]; rewrite Hst in Hs; cbn in Hs; [|subst s; eauto]. destruct Hs as [->|(st & bd & ->)]; eauto.
Qed.

Lemma transition_step c o p op obs reply :
  owner_ok c o → transition_with_gate c p (ow_records o !! place_key p) op (ow_barrier o) obs = Ok reply →
  owner_ok c (commit_reply o reply) ∧ moves o (commit_reply o reply) ∧
  reflects (cr_action reply) (state_at (commit_reply o reply) (place_key p)) ∧
  (∀ i, cr_action reply = AExecute i → state_at o (place_key p) = None ∧ closing o = false ∧ obs = generation o).
Proof.
  intros Hok Ht. destruct (transition_parts _ _ _ _ _ _ Hok Ht) as (repl & Hd & Hv & Hp & Hrecs). pose proof Hok as (Hrec & Hread & Hdr).
  destruct (decide_spec _ _ _ _ _ _ _ Hd) as (Hle & Href & Hex).
  assert (state_at (commit_reply o reply) (place_key p) = match repl with Some s => Some s | None => state_at o (place_key p) end) as Hat.
  { unfold state_at. rewrite Hrecs. destruct repl; [by rewrite lookup_insert_eq|done]. }
  split_and!.
  - split_and!.
    + rewrite Hrecs. destruct repl as [s|]; [|done]. apply map_Forall_insert_2; [|done]. split_and!; [done..|]. cbn. eapply decide_ok; [|exact Hd].
      unfold state_at. destruct (ow_records o !! place_key p) as [r|] eqn:Hr; [|done]. by apply Hrec in Hr as (_ & _ & _ & ?).
    + done.
    + intros b Hb Hcl. cbn [commit_reply ow_barrier] in Hb. destruct (Hdr b Hb Hcl) as [Hd1 Hd2].
      destruct repl as [s|]; [|unfold draining; by rewrite Hrecs].
      apply (draining_insert o (commit_reply o reply) _ p s); [by split|by rewrite Hrecs|done|]. unfold state_at in Hd.
      destruct (ow_records o !! place_key p) as [r|]; [by eapply decide_holds_fence|].
      destruct (decide_fresh _ _ _ _ _ _ Hd) as [(i & _ & _ & Hbl)|[f ->]]; [|done].
      apply (blocks_none c o) in Hbl as [Hbl _]; [|done]. unfold closing in Hbl. by rewrite Hb, Hcl in Hbl.
  - intros k. unfold state_at at 2. destruct (decide (k = place_key p)) as [->|Hne]; [fold (state_at (commit_reply o reply) (place_key p)); by rewrite Hat|].
    rewrite Hrecs. destruct repl; [rewrite lookup_insert_ne by done|]; reflexivity.
  - by rewrite Hat.
  - intros i Hi. destruct (Hex i Hi) as [Hn Hb]. destruct (blocks_none _ _ _ Hok Hb). done.
Qed.

(** ** Runs *)

Definition gen_of (o : Owner) : N := match ow_barrier o with Some b => default 0%N (parse_u64 (br_generation b)) | None => 0%N end.

Lemma generation_of c o : owner_ok c o → generation o = pretty (gen_of o).
Proof.
  intros (_ & Hread & _). unfold generation, gen_of. destruct (ow_barrier o) as [b|]; [|done].
  apply barrier_read_iff in Hread as [((n & Hn & Hg) & _) _]. by rewrite Hg, parse_u64_pretty by lia.
Qed.

Definition executes (k : string) (ev : event) : bool :=
  match ev with EvAction k' _ (AExecute _) => bool_decide (k' = k) | _ => false end.

(** What an event tells of the owner around it. *)
Definition tells (o : Owner) (ev : event) (o' : Owner) : Prop :=
  match ev with
  | EvAction k obs action => reflects action (state_at o' k) ∧ gen_of o' = gen_of o ∧
      ∀ i, action = AExecute i → state_at o k = None ∧ closing o = false ∧ obs = generation o
  | EvBegin => (closing o = false → closing o' = true → gen_of o' = (gen_of o + 1)%N) ∧ (gen_of o <= gen_of o')%N
  | EvFinish => gen_of o' = gen_of o
  end.

Lemma begin_generation c o reply :
  owner_ok c o → barrier_begin c (ow_barrier o) (inventory o) = Ok reply →
  (closing o = false → closing (commit_barrier o reply) = true → gen_of (commit_barrier o reply) = (gen_of o + 1)%N) ∧ (gen_of o <= gen_of (commit_barrier o reply))%N.
Proof.
  intros (Hrec & Hread & _). unfold barrier_begin. rewrite Hread. cbn [mbind result_bind]. rewrite (inventory_records c o Hrec). cbn [mbind result_bind].
  fold (closing o). destruct (closing o) eqn:Hcl; [intros [= <-]; split; [done|]; unfold gen_of; cbn; lia|].
  destruct (next_generation (ow_barrier o)) as [g|] eqn:Hg; [|done]. cbn [mbind result_bind].
  case_bool_decide; intros [= <-]; [split; [intros _; unfold closing in *; cbn; congruence|unfold gen_of; cbn; lia]|].
  destruct (next_generation_spec _ _ _ Hread Hg) as (n & Hn & -> & Hprior). unfold gen_of. cbn [commit_barrier ow_barrier bar_barrier br_generation].
  rewrite parse_u64_pretty by lia. cbn. destruct (ow_barrier o) as [b|]; [rewrite Hprior, parse_u64_pretty by lia|subst n]; cbn; split; [done|lia|done|lia].
Qed.

Lemma owner_step_spec c o ev o' : owner_ok c o → owner_step c o ev o' → owner_ok c o' ∧ moves o o' ∧ tells o ev o'.
Proof.
  intros Hok Hstep. destruct Hstep as [o p op obs reply Ht|o reply Hb|o b id reply Hb Hf].
  - destruct (transition_step _ _ _ _ _ _ Hok Ht) as (? & ? & ? & ?). by split_and!.
  - destruct (begin_step _ _ _ Hok Hb). split_and!; [done|done|]. by eapply begin_generation.
  - destruct (finish_step _ _ _ _ _ Hok Hb Hf). split_and!; [done|done|]. destruct (finish_parts _ _ _ _ _ Hok Hb Hf) as (_ & Hbar & _).
    unfold tells, gen_of. cbn [commit_barrier ow_barrier]. by rewrite Hbar, Hb.
Qed.

Lemma owner_run_spec c o evs o' : owner_ok c o → owner_run c o evs o' → owner_ok c o' ∧ moves o o' ∧ (gen_of o <= gen_of o')%N.
Proof.
  intros Hok Hrun. induction Hrun as [o|o evs o1 ev o2 Hrun IH Hstep]; [split_and!; [done|reflexivity|lia]|].
  destruct (IH Hok) as (Hok1 & Hm1 & Hg1). destruct (owner_step_spec _ _ _ _ Hok1 Hstep) as (Hok2 & Hm2 & Ht). split_and!; [done|by etransitivity|].
  destruct ev; cbn in Ht; [destruct Ht as (_ & -> & _)|destruct Ht as [_ ?]|rewrite Ht]; lia.
Qed.

Lemma owner_run_app c o evs1 o1 evs2 o2 : owner_run c o evs1 o1 → owner_run c o1 evs2 o2 → owner_run c o (evs1 ++ evs2) o2.
Proof.
  intros H1r H2r. induction H2r as [o1|o1 evs o3 ev o4 H2r IH Hstep]; [by rewrite app_nil_r|]. rewrite app_assoc. by eapply run_snoc, Hstep; auto.
Qed.

(** An event of a run, with the owners around it. *)
Lemma owner_run_event c o evs o' ev :
  owner_run c o evs o' → ev ∈ evs → ∃ evs1 o1 o2 evs2, evs = (evs1 ++ ev :: evs2)%list ∧ owner_run c o evs1 o1 ∧ owner_step c o1 ev o2 ∧ owner_run c o2 evs2 o'.
Proof.
  intros Hrun. induction Hrun as [o|o evs o1 ev' o2 Hrun IH Hstep]; [by intros ?%elem_of_nil|]. intros [Hin| ->%list_elem_of_singleton]%elem_of_app.
  - destruct (IH Hin) as (evs1 & o3 & o4 & evs2 & -> & ? & ? & ?). exists evs1, o3, o4, (evs2 ++ [ev'])%list. split_and!; [by rewrite <- app_assoc|done|done|by eapply run_snoc].
  - exists evs, o1, o2, []. split_and!; [done|done|done|constructor].
Qed.

Definition has_run (s : option (ExecState V)) : bool := match s ≫= state_incarnation with Some _ => true | None => false end.

Lemma has_run_le s s' : state_le s s' → has_run s = true → has_run s' = true.
Proof. destruct s as [[]|], s' as [[]|]; cbn; unfold has_run; cbn; try done; naive_solver. Qed.

(** A record that runs began with an execution. *)
Lemma step_fresh c o ev o' k :
  owner_ok c o → owner_step c o ev o' → state_at o k = None → has_run (state_at o' k) = true → executes k ev = true.
Proof.
  intros Hok Hstep Hn Hr. destruct Hstep as [o p op obs reply Ht|o reply Hb|o b id reply Hb Hf].
  - destruct (transition_parts _ _ _ _ _ _ Hok Ht) as (repl & Hd & _ & _ & Hrecs). unfold state_at in Hr. rewrite Hrecs in Hr.
    destruct (decide (k = place_key p)) as [->|Hne]; [|destruct repl; [rewrite lookup_insert_ne in Hr by done|]; unfold state_at in Hn; by rewrite Hn in Hr].
    destruct repl as [s|]; [|unfold state_at in Hn; by rewrite Hn in Hr]. rewrite lookup_insert_eq in Hr. cbn in Hr. rewrite Hn in Hd.
    destruct (decide_fresh _ _ _ _ _ _ Hd) as [(i & _ & Ha & _)|[f ->]]; [|done]. cbn. rewrite Ha. by apply bool_decide_eq_true.
  - exfalso. assert (state_at (commit_barrier o reply) k = None) as Hk; [|by rewrite Hk in Hr]. revert Hb. destruct Hok as (Hrec & Hread & _).
    unfold barrier_begin. rewrite Hread. cbn [mbind result_bind]. rewrite (inventory_records c o Hrec). cbn [mbind result_bind].
    destruct (match ow_barrier o with Some b => br_closing b | None => false end); [by intros [= <-]|].
    destruct (next_generation (ow_barrier o)) as [g|]; [|done]. cbn [mbind result_bind]. case_bool_decide; intros [= <-]; [done|].
    unfold state_at in *. cbn [commit_barrier ow_records bar_updates]. rewrite begin_lookup. apply fmap_None in Hn as ->. done.
  - exfalso. pose proof (finish_lookup _ _ _ _ _ k Hok Hb Hf) as Hl. unfold state_at in *. apply fmap_None in Hn. rewrite Hn in Hl.
    destruct (target_map (br_targets b) !! k); [done|]. by rewrite Hl in Hr.
Qed.

(** The executions that a run granted under a key are as many as the record shows. *)
Lemma run_executions c evs o k :
  c ≠ "" → owner_run c no_owner evs o → length (filter (λ ev, executes k ev = true) evs) = if has_run (state_at o k) then 1 else 0.
Proof.
  intros Hc Hrun. remember no_owner as o0 eqn:Ho0. induction Hrun as [o|o evs o1 ev o2 Hrun IH Hstep]; [by subst o|]. specialize (IH Ho0).
  destruct (owner_run_spec c o evs o1) as (Hok1 & _); [subst o; by apply no_owner_ok|done|]. destruct (owner_step_spec _ _ _ _ Hok1 Hstep) as (_ & Hm & Ht).
  rewrite filter_app, length_app, IH. cbn. specialize (Hm k).
  destruct (executes k ev) eqn:He.
  - rewrite decide_True by done. destruct ev as [k' obs [| | |i| | | |]| |]; try done. cbn in He. apply bool_decide_eq_true in He as ->.
    destruct Ht as (Href & _ & Hex). destruct (Hex i eq_refl) as (-> & _). cbn in Href. rewrite Href. done.
  - rewrite decide_False by congruence. cbn. rewrite Nat.add_0_r. destruct (has_run (state_at o1 k)) eqn:Hr; [by rewrite (has_run_le _ _ Hm Hr)|].
    destruct (has_run (state_at o2 k)) eqn:Hr2; [|done]. exfalso.
    destruct (state_at o1 k) as [s|] eqn:Hs; [|by rewrite (step_fresh _ _ _ _ k Hok1 Hstep Hs Hr2) in He].
    destruct s; try done. cbn in Hm. destruct (state_at o2 k); [|done]. by subst.
Qed.
End owners.

(** ** What the owner promises *)

Section promises.
Context {V : Type} `{ExecValue V, Sha256, ExecTextLaws}.

(** An answer of a run is behind its last owner. *)
Lemma run_answer c evs (o : Owner (V := V)) k obs action :
  c ≠ "" → owner_run c no_owner evs o → EvAction k obs action ∈ evs → ∃ s, reflects action s ∧ state_le s (state_at o k).
Proof.
  intros Hc Hrun Hin. destruct (owner_run_event _ _ _ _ _ Hrun Hin) as (evs1 & o1 & o2 & evs2 & -> & Hr1 & Hstep & Hr2).
  destruct (owner_run_spec _ _ _ _ (no_owner_ok c Hc) Hr1) as (Hok1 & _). destruct (owner_step_spec _ _ _ _ Hok1 Hstep) as (Hok2 & _ & Ht).
  destruct (owner_run_spec _ _ _ _ Hok2 Hr2) as (_ & Hm & _). destruct Ht as (Href & _). by exists (state_at o2 k).
Qed.

(** An answer of a run is ahead of the owner that the run began with. *)
Lemma later_answer c (o : Owner (V := V)) evs o2 k obs action :
  owner_ok c o → owner_run c o evs o2 → EvAction k obs action ∈ evs → ∃ s, reflects action s ∧ state_le (state_at o k) s.
Proof.
  intros Hok Hrun Hin. destruct (owner_run_event _ _ _ _ _ Hrun Hin) as (evs1 & o1 & o1' & evs2 & -> & Hr1 & Hstep & _).
  destruct (owner_run_spec _ _ _ _ Hok Hr1) as (Hok1 & Hm1 & _). destruct (owner_step_spec _ _ _ _ Hok1 Hstep) as (_ & Hm & Ht).
  destruct Ht as (Href & _). exists (state_at o1' k). split; [done|]. etransitivity; [apply Hm1|apply Hm].
Qed.

Lemma run_not_admitted c evs (o : Owner (V := V)) k obs f :
  c ≠ "" → owner_run c no_owner evs o → EvAction k obs (ANotAdmitted f) ∈ evs → state_at o k = Some (NotAdmitted f).
Proof.
  intros Hc Hrun Hin. destruct (run_answer _ _ _ _ _ _ Hc Hrun Hin) as (s & -> & Hle). cbn in Hle. destruct (state_at o k); [by subst|done].
Qed.

Lemma run_replay c evs (o : Owner (V := V)) k obs status body t :
  c ≠ "" → owner_run c no_owner evs o → EvAction k obs (AReplay status body t) ∈ evs → ∃ i fence, state_at o k = Some (Completed i status body fence).
Proof.
  intros Hc Hrun Hin. destruct (run_answer _ _ _ _ _ _ Hc Hrun Hin) as (s & (i & fence & -> & _) & Hle). cbn in Hle.
  destruct (state_at o k) as [[]|]; try done. destruct Hle as (-> & -> & -> & _). eauto.
Qed.

Lemma run_never_executed c evs (o : Owner (V := V)) k ev :
  c ≠ "" → owner_run c no_owner evs o → has_run (state_at o k) = false → ev ∈ evs → executes k ev = false.
Proof.
  intros Hc Hrun Hr Hin. destruct (executes k ev) eqn:He; [|done]. exfalso. pose proof (run_executions _ _ _ k Hc Hrun) as Hlen. rewrite Hr in Hlen.
  apply length_zero_iff_nil in Hlen. assert (ev ∈ filter (λ ev, executes k ev = true) evs) as Hf by by apply list_elem_of_filter.
  rewrite Hlen in Hf. by apply elem_of_nil in Hf.
Qed.
End promises.

(** C13: over every run of an owner, whatever the interleaving of deliveries, fences,
    completions and barriers: a placement is executed at most once; a placement that was
    ever answered as not admitted is never executed, before or after; and all replays of a
    placement give one status and one body. *)
Theorem delivery_executed_once {V} `{ExecValue V, Sha256, ExecTextLaws} c (evs : list (event (V := V))) o k :
  c ≠ "" → owner_run c no_owner evs o →
  (length (filter (λ ev, executes k ev = true) evs) ≤ 1)%nat ∧
  (∀ obs f, EvAction k obs (ANotAdmitted f) ∈ evs → ∀ ev, ev ∈ evs → executes k ev = false) ∧
  (∀ obs obs' status status' body body' t t',
    EvAction k obs (AReplay status body t) ∈ evs → EvAction k obs' (AReplay status' body' t') ∈ evs → status = status' ∧ body = body').
Proof.
  intros Hc Hrun. split_and!.
  - rewrite (run_executions _ _ _ _ Hc Hrun). destruct (has_run _); lia.
  - intros obs f Hin ev. apply (run_never_executed c evs o); [done..|]. by rewrite (run_not_admitted _ _ _ _ _ _ Hc Hrun Hin).
  - intros obs obs' status status' body body' t t' Hr Hr'. destruct (run_replay _ _ _ _ _ _ _ _ Hc Hrun Hr) as (i & f & Hs).
    destruct (run_replay _ _ _ _ _ _ _ _ Hc Hrun Hr') as (i' & f' & Hs'). rewrite Hs in Hs'. by injection Hs' as <- <- <- <-.
Qed.

(** C17: a closing barrier drains its owner.  In every reachable state with a closing barrier
    no step executes a delivery; its finish answers; and after the finish no delivery is
    admitted or fenced, and each target is terminated by this barrier, alone or with the
    completion that came before. *)
Theorem barrier_drains {V} `{ExecValue V, Sha256, ExecTextLaws} c (evs : list (event (V := V))) o b :
  c ≠ "" → owner_run c no_owner evs o → ow_barrier o = Some b → br_closing b = true →
  (∀ ev o' k, owner_step c o ev o' → executes k ev = false) ∧
  ∃ reply, barrier_finish c b (inventory o) (br_id b) = Ok reply ∧
    (∀ k r, ow_records (commit_barrier o reply) !! k = Some r → is_live (rec_state r) = false) ∧
    (∀ t, t ∈ br_targets b → ∃ r, ow_records (commit_barrier o reply) !! place_key (tg_placement t) = Some r ∧
      (rec_state r = Terminated (tg_incarnation t) (tg_fence t) (br_id b) ∨
       ∃ status body, rec_state r = Completed (tg_incarnation t) status body (Some (CTerminated (tg_fence t) (br_id b))))).
Proof.
  intros Hc Hrun Hb Hcl. destruct (owner_run_spec _ _ _ _ (no_owner_ok c Hc) Hrun) as (Hok & _). split.
  - intros ev o' k Hstep. destruct (owner_step_spec _ _ _ _ Hok Hstep) as (_ & _ & Ht). destruct ev as [k' obs [| | |i| | | |]| |]; try done.
    destruct Ht as (_ & _ & Hex). destruct (Hex i eq_refl) as (_ & Hn & _). unfold closing in Hn. by rewrite Hb, Hcl in Hn.
  - destruct (finish_succeeds c o b Hok Hb Hcl) as [reply Hf]. exists reply. split_and!; [done|intros k r; by eapply finish_drained|].
    intros t Ht. pose proof (finish_lookup _ _ _ _ _ (place_key (tg_placement t)) Hok Hb Hf) as Hl. pose proof Hok as (_ & Hread & Hdr).
    rewrite Hb in Hread. apply barrier_read_iff in Hread as [Hbok _].
    assert (target_map (br_targets b) !! place_key (tg_placement t) = Some t) as Hkt by by apply (barrier_target_lookup c).
    destruct (Hdr b Hb Hcl) as [_ Hd]. destruct (Hd _ _ Hkt) as (r & Hr & _ & Hst). rewrite Hr, Hkt in Hl. destruct Hl as (next & Hs & ->).
    destruct Hst as [Hst|(status & body & Hst)]; rewrite Hst in Hs; cbn in Hs; rewrite Hcl, !bool_decide_eq_true_2 in Hs by done; injection Hs as <-; eexists; split; [done| |done|]; cbn; eauto.
Qed.

(** a delivery that observed the owner's generation before a barrier began is not
    executed afterwards, not even once the barrier has finished and admissions are open
    again. *)
Theorem stale_delivery_blocked {V} `{ExecValue V, Sha256, ExecTextLaws} c (evs0 evs1 evs2 : list (event (V := V))) o0 o1 reply o2 k action :
  c ≠ "" → owner_run c no_owner evs0 o0 → owner_run c o0 evs1 o1 →
  barrier_begin c (ow_barrier o1) (inventory o1) = Ok reply → closing o1 = false → closing (commit_barrier o1 reply) = true →
  owner_run c (commit_barrier o1 reply) evs2 o2 →
  EvAction k (generation o0) action ∈ evs2 → ∀ i, action ≠ AExecute i.
Proof.
  intros Hc Hr0 Hr1 Hb Hcl Hcl' Hr2 Hin i ->. destruct (owner_run_spec _ _ _ _ (no_owner_ok c Hc) Hr0) as (Hok0 & _).
  destruct (owner_run_spec _ _ _ _ Hok0 Hr1) as (Hok1 & _ & Hg1). destruct (begin_step _ _ _ Hok1 Hb) as [Hok' _].
  destruct (begin_generation _ _ _ Hok1 Hb) as [Hg _]. specialize (Hg Hcl Hcl').
  destruct (owner_run_event _ _ _ _ _ Hr2 Hin) as (evs3 & o3 & o4 & evs4 & _ & Hr3 & Hstep & _). destruct (owner_run_spec _ _ _ _ Hok' Hr3) as (Hok3 & _ & Hg3).
  destruct (owner_step_spec _ _ _ _ Hok3 Hstep) as (_ & _ & (_ & _ & Hex)). destruct (Hex i eq_refl) as (_ & _ & Hobs).
  rewrite (generation_of c o0 Hok0), (generation_of c o3 Hok3) in Hobs. apply (inj pretty) in Hobs. lia.
Qed.

(** ** Runs of a sample *)

Section drive.
Context {V : Type} `{ExecValue V, Sha256, ExecTextLaws}.

Inductive owner_op := DoTransition (p : Placement V) (op : ExecOperation V) (observed : string) | DoBegin | DoFinish (id : string).

(** An operation that is refused changes nothing. *)
Definition drive_op (c : string) (run : list (event (V := V)) * Owner (V := V)) (op : owner_op) : list (event (V := V)) * Owner (V := V) :=
  let '(evs, o) := run in
  match op with
  | DoTransition p op observed =>
      match transition_with_gate c p (ow_records o !! place_key p) op (ow_barrier o) observed with
      | Ok reply => ((evs ++ [EvAction (place_key p) observed (cr_action reply)])%list, commit_reply o reply) | Err _ => run end
  | DoBegin => match barrier_begin c (ow_barrier o) (inventory o) with Ok reply => ((evs ++ [EvBegin])%list, commit_barrier o reply) | Err _ => run end
  | DoFinish id =>
      match ow_barrier o with
      | Some b => match barrier_finish c b (inventory o) id with Ok reply => ((evs ++ [EvFinish])%list, commit_barrier o reply) | Err _ => run end
      | None => run
      end
  end.
Definition drive (c : string) (o : Owner (V := V)) (ops : list owner_op) := foldl (drive_op c) ([], o) ops.

Lemma drive_run c o ops : owner_run c o (drive c o ops).1 (drive c o ops).2.
Proof.
  unfold drive. assert (∀ evs o1, owner_run c o evs o1 → owner_run c o (foldl (drive_op c) (evs, o1) ops).1 (foldl (drive_op c) (evs, o1) ops).2) as Hd; [|apply Hd; constructor].
  induction ops as [|op ops IH]; intros evs o1 Hrun; [done|]. cbn [foldl].
  destruct op as [p op obs| |id]; cbn [drive_op].
  - destruct (transition_with_gate _ _ _ _ _ _) eqn:Ht; apply IH; [|done]. eapply run_snoc; [done|]. by eapply owner_transition.
  - destruct (barrier_begin _ _ _) eqn:Ht; apply IH; [|done]. eapply run_snoc; [done|]. by eapply owner_begin.
  - destruct (ow_barrier o1) as [b|] eqn:Hb; [|by apply IH]. destruct (barrier_finish _ _ _ _) eqn:Ht; apply IH; [|done]. eapply run_snoc; [done|]. by eapply owner_finish.
Qed.
End drive.

Module ExecSamples.
(** Values with text fields. *)
#[export] Instance fields_value : ExecValue (list (string * string)) := {|
  value_field v name := (list_to_map v : gmap string string) !! name;
|}.
#[export] Existing Instance example_sha.
#[export] Instance plain_text : ExecText := {|
  barrier_text p o g := "b|" +:+ p +:+ "|" +:+ o +:+ "|" +:+ g;
  place_text p c i := p +:+ "|" +:+ c +:+ "|" +:+ inv_instance i +:+ "|" +:+ inv_effect i;
|}.
#[export] Instance plain_laws : ExecTextLaws.
Proof. done. Defined.

Definition invocation (effect : string) : Invocation := mkInvocation "i" effect None.
Definition envelope (effect : string) : ExecEnvelope (list (string * string)) :=
  mkExecEnvelope INVOCATION_PROTOCOL (invocation effect) (invocation_run_id (invocation effect)) [("protocol", EXECUTOR_PROTOCOL); ("effect_id", effect)].
Definition placed (effect : string) : Placement (list (string * string)) :=
  mkPlacement CONTROLLER_PLACEMENT (invocation effect) (envelope effect) "owner" effect.


Abbreviation delivery e := (place_key (placed e)).

(** A delivery is admitted under generation 0, then a barrier begins. *)
Definition admitted_run := drive "owner" no_owner [DoTransition (placed "e") (OpAdmit "m1") "0"].
Definition closing_run := drive "owner" no_owner [DoTransition (placed "e") (OpAdmit "m1") "0"; DoBegin].
Definition closing_reply : BarrierReply (list (string * string)) :=
  match barrier_begin "owner" (ow_barrier admitted_run.2) (inventory admitted_run.2) with Ok reply => reply | Err _ => mkBarrierReply None [] false end.

(** The barrier ends, and a delivery that observed generation 0 arrives. *)
Definition late_run := drive "owner" (commit_barrier admitted_run.2 closing_reply)
  [DoFinish (barrier_text BARRIER_PROTOCOL "owner" "1"); DoTransition (placed "d") (OpAdmit "m2") "0"].
End ExecSamples.
Import ExecSamples.

Lemma delivery_executed_once_witness :
  length (filter (λ ev, executes (delivery "e") ev = true) closing_run.1) = 1 ∧
  (length (filter (λ ev, executes (delivery "e") ev = true) closing_run.1) ≤ 1)%nat.
Proof. exact (conj (eq_refl 1) (proj1 (delivery_executed_once "owner" closing_run.1 closing_run.2 (delivery "e") ltac:(discriminate) (drive_run "owner" no_owner _)))). Defined.

Lemma barrier_drains_witness :
  ∃ b reply, ow_barrier closing_run.2 = Some b ∧ barrier_finish "owner" b (inventory closing_run.2) (br_id b) = Ok reply.
Proof.
  destruct (ow_barrier closing_run.2) as [b|] eqn:Hb; [|vm_compute in Hb; discriminate Hb].
  assert (br_closing b = true) as Hcl by (change (match Some b with Some b => br_closing b | None => false end = true); rewrite <- Hb; vm_compute; reflexivity).
  destruct (barrier_drains "owner" closing_run.1 closing_run.2 b ltac:(discriminate) (drive_run "owner" no_owner _) Hb Hcl) as [_ (reply & Hf & _)].
  exact (ex_intro _ b (ex_intro _ reply (conj eq_refl Hf))).
Defined.

Lemma stale_delivery_blocked_witness :
  ∃ action, EvAction (delivery "d") "0" action ∈ late_run.1 ∧ ∀ i, action ≠ AExecute i.
Proof.
  exists (ABlocked (barrier_text BARRIER_PROTOCOL "owner" "1")).
  assert (EvAction (delivery "d") "0" (ABlocked (barrier_text BARRIER_PROTOCOL "owner" "1")) ∈ late_run.1) as Hin by (vm_compute; right; left).
  split; [exact Hin|].
  refine (stale_delivery_blocked "owner" [] admitted_run.1 late_run.1 no_owner admitted_run.2 closing_reply late_run.2 (delivery "d") _
    ltac:(discriminate) (run_nil _ _) (drive_run "owner" no_owner _) _ _ _ (drive_run "owner" _ _) Hin); vm_compute; reflexivity.
Defined.
