(* ===== verification/ExecResolution.v ===== *)
(** The provider's resolution of a delivery (kernel/exec_resolution.rs): the fence it asks
    for, the lifetime evidence it keeps apart from the result receipt, and the outcome it
    shows.  Over every run of a broker and an owner, what it shows is true of the owner and
    stays true. *)
From S2P Require Import Prelude RustStr MachineInt EventChain ExecInvocation ExecController ExecOwner.
Local Open Scope string_scope.

Definition RESOLUTION_PROTOCOL : string := "whipplescript.exec.resolution/v1".

(** [LifetimeEvidence] (store/exec_lifetime.rs). *)
Inductive LifetimeEvidence :=
| LPending
| LNotAdmitted (fence_id : string)
| LTerminated (incarnation fence_id barrier_id : string).
#[export] Instance lifetime_eq_dec : EqDecision LifetimeEvidence.
Proof. solve_decision. Defined.

Definition lifetime_validate (l : LifetimeEvidence) : result exec_error unit :=
  match l with
  | LNotAdmitted f => if bool_decide (f = "") then Err NonAdmissionEmpty else Ok tt
  | LTerminated i f b => if bool_decide (i = "") || bool_decide (f = "") || bool_decide (b = "") then Err TerminationEmpty else Ok tt
  | LPending => Ok tt
  end.

Section resolution.
Context {V : Type} `{ExecValue V, Sha256, ExecText}.

Record ResolutionRecord := mkResolution {
  rr_protocol : string;
  rr_placement : Placement V;
  rr_fence : option string;
  rr_lifetime : LifetimeEvidence;
}.

Inductive ResolutionOp :=
| RoRead
| RoFence (fence_id : string)
| RoEnsureFence (fence_id : string)
| RoObserve (response : ControllerResponse V).

Inductive Query := QRead | QFence (fence_id : string).
Inductive ExecOutcome := OPending | ONotExecuted | OUncertain | OCompleted (status : Z) (body : V).

Record ResolutionReply := mkResolutionReply {
  rp_record : ResolutionRecord;
  rp_receipt : Receipt V;
  rp_query : option Query;
  rp_outcome : ExecOutcome;
}.

Definition is_guarded (r : Receipt V) : bool := match r with RStarted _ true => true | _ => false end.

Definition prepare_fence (selected : Invocation) (requested : ExecEnvelope V) (receipt : option (Receipt V)) (placement : option (Placement V))
    (container dispatch : string) (op : ResolutionOp) : result exec_error (Receipt V * Placement V) :=
  (match op with RoEnsureFence f => if bool_decide (f = "") then Err EnsureRequired else Ok tt | _ => Err EnsureRequired end);;
  (match placement with Some _ => Err PlacementExists | None => Ok tt end);;
  receipt ← match receipt with
            | Some r => Ok r
            | None => claim ← receipt_claim None requested selected;
                      match claim with ClaimDispatch r => Ok r | _ => Err ClaimUnguarded end
            end;
  _ ← receipt_claim (Some receipt) requested selected;
  (if is_guarded receipt then Ok tt else Err ClaimUnguarded);;
  placement ← bind_controller selected requested receipt None container dispatch;
  Ok (receipt, placement).

Definition resolution_outcome (r : Receipt V) (l : LifetimeEvidence) : ExecOutcome :=
  match r with
  | RStarted _ _ => match l with LPending => OPending | LNotAdmitted _ => ONotExecuted | LTerminated _ _ _ => OUncertain end
  | RCompleted _ status body => OCompleted status body
  end.

(** What an observed answer says: the receipt and the lifetime it shows. *)
Definition observe_answer (selected : Invocation) (requested : ExecEnvelope V) (receipt : Receipt V) (action : ExecAction V)
    : result exec_error (Receipt V * LifetimeEvidence) :=
  match action with
  | AReplay status body termination =>
      receipt ← receipt_complete receipt requested selected status body;
      Ok (receipt, match termination with Some t => LTerminated (tm_incarnation t) (tm_fence t) (tm_barrier t) | None => LPending end)
  | ANotAdmitted f => Ok (receipt, LNotAdmitted f)
  | ATerminated i f b => Ok (receipt, LTerminated i f b)
  | AExecute _ => Err ReplyGrants
  | AAbsent | ABlocked _ | APending _ | AFenceRequired _ _ => Ok (receipt, LPending)
  end.

(** The operation on a record: the record, the receipt and the question for the controller. *)
Definition resolve_operation (selected : Invocation) (requested : ExecEnvelope V) (receipt : Receipt V) (placement : Placement V)
    (record : ResolutionRecord) (op : ResolutionOp) : result exec_error (ResolutionRecord * Receipt V * option Query) :=
  match op with
  | RoRead => Ok (record, receipt, if bool_decide (rr_lifetime record = LPending) then Some QRead else None)
  | RoFence fence_id | RoEnsureFence fence_id =>
      (if bool_decide (fence_id = "") then Err IntentEmpty else Ok tt);;
      if bool_decide (rr_lifetime record = LPending) then
        (if negb (match op with RoEnsureFence _ => true | _ => false end)
            && match rr_fence record with Some old => negb (bool_decide (old = fence_id)) | None => false end
         then Err IntentReplaced else Ok tt);;
        let retained := default fence_id (rr_fence record) in
        Ok (mkResolution (rr_protocol record) (rr_placement record) (Some retained) (rr_lifetime record), receipt, Some (QFence retained))
      else Ok (record, receipt, None)
  | RoObserve response =>
      action ← response_action placement response;
      '(receipt, observed) ← observe_answer selected requested receipt action;
      lifetime_validate observed;;
      if bool_decide (observed = LPending) then Ok (record, receipt, None)
      else if negb (bool_decide (rr_lifetime record = LPending)) && negb (bool_decide (rr_lifetime record = observed)) then Err LifetimeReplaced
      else Ok (mkResolution (rr_protocol record) (rr_placement record) (rr_fence record) observed, receipt, None)
  end.

Definition provider_resolve (selected : Invocation) (requested : ExecEnvelope V) (receipt : Receipt V) (placement : Placement V)
    (stored : option ResolutionRecord) (op : ResolutionOp) : result exec_error ResolutionReply :=
  target ← controller_target selected requested receipt placement;
  (match target with TargetQuery _ _ => Ok tt | LegacyPending => Err LifetimePlacement end);;
  let record := default (mkResolution RESOLUTION_PROTOCOL placement None LPending) stored in
  (if bool_decide (rr_protocol record = RESOLUTION_PROTOCOL) && bool_decide (rr_placement record = placement) then Ok tt else Err LifetimeDiffers);;
  (if bool_decide (rr_fence record = Some "") then Err IntentEmpty else Ok tt);;
  lifetime_validate (rr_lifetime record);;
  '(record, receipt, query) ← resolve_operation selected requested receipt placement record op;
  (match rr_lifetime record with LNotAdmitted _ => if is_completed receipt then Err LifetimeContradicts else Ok tt | _ => Ok tt end);;
  Ok (mkResolutionReply record receipt query (resolution_outcome receipt (rr_lifetime record))).

(** ** The view of the broker *)

Record View := mkView {
  vw_protocol : string;
  vw_selected : Invocation;
  vw_placement : Placement V;
  vw_lifetime : LifetimeEvidence;
  vw_outcome : ExecOutcome;
}.

Definition reply_view (selected : Invocation) (placement : Placement V) (reply : ResolutionReply) : View :=
  mkView RESOLUTION_PROTOCOL selected placement (rr_lifetime (rp_record reply)) (rp_outcome reply).

Definition view_receipt (requested : ExecEnvelope V) (outcome : ExecOutcome) : Receipt V :=
  match outcome with OCompleted status body => RCompleted requested status body | _ => RStarted requested false end.

Definition view_agrees (lifetime : LifetimeEvidence) (outcome : ExecOutcome) : bool :=
  match lifetime, outcome with
  | LPending, (OPending | OCompleted _ _) | LNotAdmitted _, ONotExecuted | LTerminated _ _ _, (OUncertain | OCompleted _ _) => true
  | _, _ => false
  end.

Definition validated_view (selected : Invocation) (requested : ExecEnvelope V) (view : View) : result exec_error View :=
  envelope_validate requested selected;;
  (if bool_decide (vw_protocol view = RESOLUTION_PROTOCOL) && bool_decide (vw_selected view = selected) then Ok tt else Err ViewDiffers);;
  lifetime_validate (vw_lifetime view);;
  target ← controller_target selected requested (view_receipt requested (vw_outcome view)) (vw_placement view);
  (match target with TargetQuery _ _ => Ok tt | LegacyPending => Err LifetimePlacement end);;
  if view_agrees (vw_lifetime view) (vw_outcome view) then Ok view else Err ViewContradicts.

(** The physical closure, and the result, of a view. *)
Definition view_closure (selected : Invocation) (requested : ExecEnvelope V) (view : View) : result exec_error (option (Placement V * LifetimeEvidence)) :=
  view ← validated_view selected requested view;
  Ok (if bool_decide (vw_lifetime view = LPending) then None else Some (vw_placement view, vw_lifetime view)).
Definition view_outcome (selected : Invocation) (requested : ExecEnvelope V) (view : View) : result exec_error (option (Placement V * ExecOutcome)) :=
  view ← validated_view selected requested view;
  Ok (match vw_outcome view with OPending => None | outcome => Some (vw_placement view, outcome) end).
End resolution.
Arguments View : clear implicits.
Arguments ResolutionRecord : clear implicits. Arguments ResolutionOp : clear implicits. Arguments ExecOutcome : clear implicits.
Arguments ResolutionReply : clear implicits.

(** ** Views are accepted *)

Section views.
Context {V : Type} `{ExecValue V, Sha256, ExecText}.

Lemma resolve_operation_lifetime selected requested receipt placement (record : ResolutionRecord V) op record' receipt' query :
  resolve_operation selected requested receipt placement record op = Ok (record', receipt', query) →
  lifetime_validate (rr_lifetime record) = Ok tt → lifetime_validate (rr_lifetime record') = Ok tt.
Proof.
  intros Hop Hl. destruct op as [|f|f|response]; unfold resolve_operation in Hop.
  - by injection Hop as <- _ _.
  - apply bind_ok in Hop as ([] & _ & Hop). case_bool_decide; [|by injection Hop as <- _ _]. apply bind_ok in Hop as ([] & _ & Hop). by injection Hop as <- _ _.
  - apply bind_ok in Hop as ([] & _ & Hop). case_bool_decide; [|by injection Hop as <- _ _]. apply bind_ok in Hop as ([] & _ & Hop). by injection Hop as <- _ _.
  - apply bind_ok in Hop as (action & _ & Hop). apply bind_ok in Hop as ([r l] & _ & Hop). apply bind_ok in Hop as ([] & Hv & Hop).
    case_bool_decide; [by injection Hop as <- _ _|]. destruct (_ && _); [done|]. by injection Hop as <- _ _.
Qed.

(** The target of a placement does not depend on how far the receipt of the envelope is. *)
Lemma target_of_envelope selected requested (receipt receipt' : Receipt V) placement target :
  receipt_envelope receipt' = requested → controller_target selected requested receipt placement = Ok target →
  controller_target selected requested receipt' placement = Ok target.
Proof.
  unfold controller_target, bind_with_protocol. intros He Ht. apply bind_ok in Ht as (original & Hb & Ht). apply bind_ok in Hb as (claim & Hc & Hb).
  assert (envelope_validate requested selected = Ok tt) as Hv by (unfold receipt_claim in Hc; apply bind_ok in Hc as ([] & Hv & _); done).
  assert (∃ c, receipt_claim (Some receipt') requested selected = Ok c) as [c ->].
  { unfold receipt_claim, verify_replay. rewrite Hv. cbn [mbind result_bind]. destruct receipt' as [e b|e st bd]; cbn in He; subst e; rewrite Hv; cbn [mbind result_bind];
      rewrite bool_decide_eq_true_2 by done; by eexists. }
  cbn [mbind result_bind]. rewrite Hb. cbn [mbind result_bind]. done.
Qed.

(** The view of an answer of the provider passes the checks of the one who reads it, which
    takes from it the lifetime and the outcome that are kept. *)
Lemma view_accepted selected requested (receipt : Receipt V) placement stored op reply :
  provider_resolve selected requested receipt placement stored op = Ok reply →
  let view := reply_view selected placement reply in
  validated_view selected requested view = Ok view ∧
  (rp_outcome reply ≠ OPending → view_outcome selected requested view = Ok (Some (placement, rp_outcome reply))).
Proof.
  intros Hres view. assert (validated_view selected requested view = Ok view) as Hview; [|split; [done|]].
  2: { intros Ho. unfold view_outcome. rewrite Hview. cbn. by destruct (rp_outcome reply). }
  unfold provider_resolve in Hres. apply bind_ok in Hres as (target & Ht & Hres). apply bind_ok in Hres as ([] & Hq & Hres). apply bind_ok in Hres as ([] & _ & Hres).
  apply bind_ok in Hres as ([] & _ & Hres). apply bind_ok in Hres as ([] & Hl & Hres). apply bind_ok in Hres as ([[rec' r'] q] & Hop & Hres).
  apply bind_ok in Hres as ([] & Hcon & [= <-]). apply resolve_operation_lifetime in Hop as Hl'; [|done].
  unfold validated_view, view. cbn [vw_protocol vw_selected vw_placement vw_lifetime vw_outcome reply_view rp_record rp_outcome].
  assert (envelope_validate requested selected = Ok tt) as ->.
  { unfold controller_target, bind_with_protocol, receipt_claim in Ht. apply bind_ok in Ht as (o & Ho & _). apply bind_ok in Ho as (c & Hc & _).
    apply bind_ok in Hc as ([] & Hv & _). done. }
  cbn [mbind result_bind]. rewrite !bool_decide_eq_true_2 by done. cbn [andb mbind result_bind]. rewrite Hl'. cbn [mbind result_bind].
  rewrite (target_of_envelope _ _ receipt (view_receipt requested (resolution_outcome r' (rr_lifetime rec'))) placement target);
    [|by destruct (resolution_outcome r' (rr_lifetime rec'))|done].
  cbn [mbind result_bind]. destruct target; [done|]. cbn [mbind result_bind].
  assert (view_agrees (rr_lifetime rec') (resolution_outcome r' (rr_lifetime rec')) = true) as ->; [|done].
  destruct r', (rr_lifetime rec'); done.
Qed.
End views.

(** ** A broker and an owner *)

Section system.
Context {V : Type} `{ExecValue V, Sha256, ExecTextLaws}.
Context (selected : Invocation) (requested : ExecEnvelope V) (p : Placement V).

Abbreviation container := (pl_container p).
Abbreviation place := (place_key p).

(** An answer that reaches the broker is one that the owner gave, at whatever time. *)
Definition answered (evs : list (event (V := V))) (action : ExecAction V) : Prop := ∃ obs, EvAction place obs action ∈ evs.
Definition carries (evs : list (event (V := V))) (op : ResolutionOp V) : Prop :=
  match op with RoObserve response => answered evs (rs_action response) | _ => True end.

Inductive broker_run : list (event (V := V)) → Owner (V := V) → Receipt V → option (ResolutionRecord V) → Prop :=
| broker_starts required : broker_run [] no_owner (RStarted requested required) None
| broker_owner evs o receipt record ev o' :
    broker_run evs o receipt record → owner_step container o ev o' → broker_run (evs ++ [ev]) o' receipt record
| broker_resolves evs o receipt record op reply :
    broker_run evs o receipt record → carries evs op → provider_resolve selected requested receipt p record op = Ok reply →
    broker_run evs o (rp_receipt reply) (Some (rp_record reply))
| broker_retains evs o receipt record response status body receipt' :
    broker_run evs o receipt record → answered evs (rs_action response) → controller_result p response = Ok (BrokerReplay status body) →
    receipt_complete receipt requested selected status body = Ok receipt' → broker_run evs o receipt' record.

(** What a receipt and a lifetime say of the controller's state. *)
Definition receipt_true (s : option (ExecState V)) (receipt : Receipt V) : Prop :=
  match receipt with RStarted _ _ => True | RCompleted _ status body => ∃ i fence, s = Some (Completed i status body fence) end.
Definition lifetime_true (s : option (ExecState V)) (receipt : Receipt V) (l : LifetimeEvidence) : Prop :=
  match l with
  | LPending => True
  | LNotAdmitted f => s = Some (NotAdmitted f)
  | LTerminated i f b => s = Some (Terminated i f b) ∨ is_completed receipt = true
  end.

Lemma receipt_true_le s s' receipt : state_le s s' → receipt_true s receipt → receipt_true s' receipt.
Proof.
  intros Hle. destruct receipt as [|e status body]; [done|]. intros (i & fence & ->). destruct s' as [[]|]; cbn in Hle; try done. destruct Hle as (-> & -> & -> & _). cbn. eauto.
Qed.

Lemma lifetime_true_le s s' receipt l : state_le s s' → lifetime_true s receipt l → lifetime_true s' receipt l.
Proof.
  intros Hle. destruct l as [|f|i f b]; [done|intros ->|intros [->|?]; [left|by right]]; cbn in Hle; destruct s' as [s'|]; try done; by subst.
Qed.

Lemma receipt_complete_true s receipt status body receipt' :
  (∃ i fence, s = Some (Completed i status body fence)) → receipt_complete receipt requested selected status body = Ok receipt' →
  receipt_true s receipt' ∧ is_completed receipt' = true.
Proof.
  intros Hs. unfold receipt_complete. rewrite bind_ok. intros ([] & _ & Hr). destruct (_ && _); [done|]. by injection Hr as <-.
Qed.

Lemma observe_true s0 s receipt action receipt' l :
  reflects action s0 → state_le s0 s → receipt_true s receipt → observe_answer selected requested receipt action = Ok (receipt', l) →
  receipt_true s receipt' ∧ lifetime_true s receipt' l ∧ (is_completed receipt = true → is_completed receipt' = true).
Proof.
  intros Href Hle Hr. destruct action as [|id|i f b|i|i|i f|f|status body t]; cbn; try done; try (by intros [= <- <-]).
  - intros [= <- <-]. cbn in Href. subst s0. cbn in Hle. destruct s as [s|]; [|done]. subst s. by split_and!; [|left|].
  - intros [= <- <-]. cbn in Href. subst s0. cbn in Hle. destruct s as [s|]; [|done]. by subst s.
  - destruct (receipt_complete receipt requested selected status body) as [r|] eqn:Hc; [|done]. intros [= <- <-]. destruct Href as (i & fence & -> & ->).
    cbn in Hle. destruct s as [[| | | |i' st' bd' fence']|]; try done. destruct Hle as (-> & -> & -> & _).
    destruct (receipt_complete_true (Some (Completed i status body fence')) receipt status body r) as [Ht Hdone]; [eauto|done|].
    split_and!; [done| |done]. destruct fence as [[]|]; cbn; auto.
Qed.

Lemma lifetime_completes s receipt receipt' l :
  (is_completed receipt = true → is_completed receipt' = true) → lifetime_true s receipt l → lifetime_true s receipt' l.
Proof. destruct l; cbn; tauto. Qed.

Lemma resolve_true evs o receipt record op reply :
  container ≠ "" → owner_run container no_owner evs o → carries evs op → provider_resolve selected requested receipt p record op = Ok reply →
  receipt_true (state_at o place) receipt → (∀ rec, record = Some rec → lifetime_true (state_at o place) receipt (rr_lifetime rec)) →
  receipt_true (state_at o place) (rp_receipt reply) ∧ lifetime_true (state_at o place) (rp_receipt reply) (rr_lifetime (rp_record reply)).
Proof.
  intros Hc Hrun Hcar Hres Hr Hl. unfold provider_resolve in Hres. apply bind_ok in Hres as (target & _ & Hres). apply bind_ok in Hres as ([] & _ & Hres).
  set (rec := default _ record) in Hres. apply bind_ok in Hres as ([] & _ & Hres). apply bind_ok in Hres as ([] & _ & Hres). apply bind_ok in Hres as ([] & _ & Hres).
  apply bind_ok in Hres as ([[rec' r'] q] & Hop & Hres). apply bind_ok in Hres as ([] & _ & [= <-]). cbn [rp_receipt rp_record].
  assert (lifetime_true (state_at o place) receipt (rr_lifetime rec)) as Hlife by (unfold rec; destruct record as [rec0|]; [by apply Hl|done]).
  destruct op as [|f|f|response]; unfold resolve_operation in Hop.
  - by injection Hop as <- <- _.
  - apply bind_ok in Hop as ([] & _ & Hop). case_bool_decide; [|by injection Hop as <- <- _]. apply bind_ok in Hop as ([] & _ & Hop). by injection Hop as <- <- _.
  - apply bind_ok in Hop as ([] & _ & Hop). case_bool_decide; [|by injection Hop as <- <- _]. apply bind_ok in Hop as ([] & _ & Hop). by injection Hop as <- <- _.
  - apply bind_ok in Hop as (action & Ha & Hop). apply bind_ok in Hop as ([r2 l2] & Hob & Hop). apply bind_ok in Hop as ([] & _ & Hop).
    assert (rs_action response = action) as Hact by (unfold response_action in Ha; apply bind_ok in Ha as ([] & _ & Ha); destruct (_ && _); [by injection Ha|done]).
    destruct Hcar as [obs Hin]. rewrite Hact in Hin. destruct (run_answer _ _ _ _ _ _ Hc Hrun Hin) as (s0 & Href & Hle).
    destruct (observe_true _ _ _ _ _ _ Href Hle Hr Hob) as (Hr2 & Hl2 & Hmono).
    case_bool_decide; [injection Hop as <- <- _; split; [done|by eapply lifetime_completes]|]. destruct (_ && _); [done|]. by injection Hop as <- <- _.
Qed.

Lemma broker_run_true evs o receipt record :
  container ≠ "" → broker_run evs o receipt record →
  owner_run container no_owner evs o ∧ receipt_true (state_at o place) receipt ∧
  ∀ rec, record = Some rec → lifetime_true (state_at o place) receipt (rr_lifetime rec).
Proof.
  intros Hc Hrun. induction Hrun as [required|evs o receipt record ev o' Hrun IH Hstep|evs o receipt record op reply Hrun IH Hcar Hres|
    evs o receipt record response status body receipt' Hrun IH [obs Hin] Hres Hcomp].
  - split_and!; [constructor|done|done].
  - destruct IH as (Ho & Hr & Hl). destruct (owner_run_spec _ _ _ _ (no_owner_ok _ Hc) Ho) as (Hok & _). destruct (owner_step_spec _ _ _ _ Hok Hstep) as (_ & Hm & _).
    split_and!; [by eapply run_snoc|eapply receipt_true_le; [apply Hm|done]|]. intros rec Hrec. eapply lifetime_true_le; [apply Hm|by apply Hl].
  - destruct IH as (Ho & Hr & Hl). destruct (resolve_true _ _ _ _ _ _ Hc Ho Hcar Hres Hr Hl) as [? ?]. split_and!; [done|done|]. by intros rec [= <-].
  - destruct IH as (Ho & Hr & Hl). unfold controller_result in Hres. apply bind_ok in Hres as (action & Ha & Hres).
    assert (rs_action response = action) as Hact by (unfold response_action in Ha; apply bind_ok in Ha as ([] & _ & Ha); destruct (_ && _); [by injection Ha|done]).
    destruct action as [| | | | | | |st bd t]; try done. injection Hres as -> ->. rewrite Hact in Hin. pose proof (run_replay _ _ _ _ _ _ _ _ Hc Ho Hin) as Hst.
    destruct (receipt_complete_true _ _ _ _ _ Hst Hcomp) as [Ht Hdone]. split_and!; [done|done|]. intros rec Hrec. by eapply lifetime_completes, Hl.
Qed.

(** ** Answers that come after *)

Lemma not_admitted_answers (action : ExecAction V) f :
  (∃ s, reflects action s ∧ state_le (Some (NotAdmitted f)) s) → action = ANotAdmitted f.
Proof. intros ([s|] & Ha & Hle); cbn in Hle; [subst s|done]. destruct action; cbn in Ha; naive_solver. Qed.

Lemma terminated_answers (action : ExecAction V) i f b :
  (∃ s, reflects action s ∧ state_le (Some (Terminated i f b)) s) → action = ATerminated i f b.
Proof. intros ([s|] & Ha & Hle); cbn in Hle; [subst s|done]. destruct action; cbn in Ha; naive_solver. Qed.

Lemma completed_answers (action : ExecAction V) i status body fence :
  (∃ s, reflects action s ∧ state_le (Some (Completed i status body fence)) s) →
  (∃ t, action = AReplay status body t) ∨ ∃ j f, action = AFenceRequired j f.
Proof.
  intros ([[| | | |i' st bd fence']|] & Ha & Hle); cbn in Hle; try done. destruct Hle as (-> & -> & -> & _).
  destruct action; cbn in Ha; naive_solver.
Qed.
End system.

(** C16: what the provider shows of a delivery is true and stays true, over every run of its
    broker and the owner, with answers that arrive late, twice or out of order.  A delivery
    shown as not executed was not executed and never will be, and every later answer of the
    controller says that it was not admitted.  A completed one was executed exactly once,
    every replay that the controller answered or will answer gives the shown result, and
    every later answer is such a replay or asks for a fence.  An uncertain one was executed
    exactly once, no answer before or after gives a result, and every later answer says that
    it was terminated. *)
Theorem resolution_sound {V} `{ExecValue V, Sha256, ExecTextLaws} selected requested (p : Placement V) evs o receipt record evs2 o2 :
  pl_container p ≠ "" → broker_run selected requested p evs o receipt (Some record) → owner_run (pl_container p) o evs2 o2 →
  match resolution_outcome receipt (rr_lifetime record) with
  | OPending => True
  | ONotExecuted =>
      (∀ ev, ev ∈ (evs ++ evs2)%list → executes (place_key p) ev = false) ∧
      ∃ f, ∀ obs action, EvAction (place_key p) obs action ∈ evs2 → action = ANotAdmitted f
  | OCompleted status body =>
      length (filter (λ ev, executes (place_key p) ev = true) (evs ++ evs2)%list) = 1 ∧
      (∀ obs status' body' t, EvAction (place_key p) obs (AReplay status' body' t) ∈ (evs ++ evs2)%list → status' = status ∧ body' = body) ∧
      ∀ obs action, EvAction (place_key p) obs action ∈ evs2 → (∃ t, action = AReplay status body t) ∨ ∃ i f, action = AFenceRequired i f
  | OUncertain =>
      length (filter (λ ev, executes (place_key p) ev = true) (evs ++ evs2)%list) = 1 ∧
      (∀ obs status' body' t, EvAction (place_key p) obs (AReplay status' body' t) ∉ (evs ++ evs2)%list) ∧
      ∃ i f b, ∀ obs action, EvAction (place_key p) obs action ∈ evs2 → action = ATerminated i f b
  end.
Proof.
  intros Hc Hb Hr2. destruct (broker_run_true _ _ _ _ _ _ _ Hc Hb) as (Hr1 & Hrec & Hlife). specialize (Hlife record eq_refl).
  pose proof (owner_run_app _ _ _ _ _ _ Hr1 Hr2) as Hrun. destruct (owner_run_spec _ _ _ _ (no_owner_ok _ Hc) Hr1) as (Hok & _).
  pose proof (λ obs action, later_answer _ _ _ _ (place_key p) obs action Hok Hr2) as Hans.
  destruct (owner_run_spec _ _ _ _ Hok Hr2) as (_ & Hm & _). specialize (Hm (place_key p)).
  pose proof (run_executions _ _ _ (place_key p) Hc Hrun) as Hlen.
  destruct receipt as [e required|e status body]; cbn in Hrec |- *.
  - destruct (rr_lifetime record) as [|f|i f b]; [done| |]; cbn in Hlife.
    + rewrite Hlife in Hm, Hans. cbn in Hm. destruct (state_at o2 (place_key p)) as [s|] eqn:Hs; [|done]. subst s. split.
      * intros ev Hev. apply (run_never_executed _ _ _ _ _ Hc Hrun); [by rewrite Hs|done].
      * exists f. intros obs action Hin. by apply (not_admitted_answers _ _ (Hans obs action Hin)).
    + destruct Hlife as [Hlife|?]; [|done]. rewrite Hlife in Hm, Hans. cbn in Hm. destruct (state_at o2 (place_key p)) as [s|] eqn:Hs; [|done]. subst s.
      split_and!; [done| |].
      * intros obs st bd t Hin. destruct (run_replay _ _ _ _ _ _ _ _ Hc Hrun Hin) as (j & fence & Hj). congruence.
      * exists i, f, b. intros obs action Hin. by apply (terminated_answers _ _ _ _ (Hans obs action Hin)).
  - destruct Hrec as (i & fence & Hst). rewrite Hst in Hm, Hans. cbn in Hm. destruct (state_at o2 (place_key p)) as [[| | | |i' st' bd' fence']|] eqn:Hs; try done.
    destruct Hm as (-> & -> & -> & _). split_and!; [done| |].
    + intros obs st bd t Hin. destruct (run_replay _ _ _ _ _ _ _ _ Hc Hrun Hin) as (j & fence2 & Hj). rewrite Hs in Hj. by injection Hj as _ -> -> _.
    + intros obs action Hin. by apply (completed_answers _ _ _ _ _ (Hans obs action Hin)).
Qed.

(** ** A run of a sample *)

Section drive_broker.
Context {V : Type} `{ExecValue V, Sha256, ExecTextLaws}.

Lemma broker_run_owner selected requested (p : Placement V) evs o receipt record evs2 o2 :
  broker_run selected requested p evs o receipt record → owner_run (pl_container p) o evs2 o2 → broker_run selected requested p (evs ++ evs2)%list o2 receipt record.
Proof.
  intros Hb Hrun. induction Hrun as [o|o evs3 o1 ev o2 Hrun IH Hstep]; [by rewrite app_nil_r|]. rewrite app_assoc. by eapply broker_owner; [apply IH|].
Qed.
End drive_broker.

Import ExecSamples.

(** The owner is asked to fence a delivery that never arrived, and answers that it was not
    admitted. *)
Definition refused_run := drive "owner" no_owner [DoTransition (placed "e") (OpFence "f") "0"].
Definition refused_reply : result exec_error (ResolutionReply (list (string * string))) :=
  provider_resolve (invocation "e") (envelope "e") (RStarted (envelope "e") true) (placed "e") None
    (RoObserve (mkResponse RESPONSE_PROTOCOL (placed "e") (ANotAdmitted "f"))).

(** A delivery that arrives afterwards. *)
Definition late_delivery := drive "owner" refused_run.2 [DoTransition (placed "e") (OpAdmit "i1") "0"].

Lemma resolution_sound_witness :
  match refused_reply with
  | Ok reply => resolution_outcome (rp_receipt reply) (rr_lifetime (rp_record reply)) = ONotExecuted ∧
      (∀ ev, ev ∈ (refused_run.1 ++ late_delivery.1)%list → executes (place_key (placed "e")) ev = false) ∧
      (length late_delivery.1 = 1 ∧ ∃ f, ∀ obs action, EvAction (place_key (placed "e")) obs action ∈ late_delivery.1 → action = ANotAdmitted f)
  | Err _ => False
  end.
Proof.
  destruct refused_reply as [reply|e] eqn:Hr; [|vm_compute in Hr; discriminate Hr].
  assert (resolution_outcome (rp_receipt reply) (rr_lifetime (rp_record reply)) = ONotExecuted) as Ho by (vm_compute in Hr; injection Hr as <-; reflexivity).
  split; [exact Ho|].
  assert (broker_run (invocation "e") (envelope "e") (placed "e") refused_run.1 refused_run.2 (rp_receipt reply) (Some (rp_record reply))) as Hb.
  { assert (owner_run "owner" no_owner refused_run.1 refused_run.2) as Hrun by exact (drive_run "owner" no_owner [DoTransition (placed "e") (OpFence "f") "0"]).
    refine (broker_resolves _ _ _ _ _ (RStarted (envelope "e") true) None
      (RoObserve (mkResponse RESPONSE_PROTOCOL (placed "e") (ANotAdmitted "f"))) reply _ _ Hr); [|exists "0"; vm_compute; left].
    exact (broker_run_owner (invocation "e") (envelope "e") (placed "e") [] no_owner _ None refused_run.1 refused_run.2 (broker_starts _ _ _ true) Hrun). }
  pose proof (resolution_sound (invocation "e") (envelope "e") (placed "e") refused_run.1 refused_run.2 (rp_receipt reply) (rp_record reply) late_delivery.1 late_delivery.2
    ltac:(discriminate) Hb (drive_run "owner" refused_run.2 [DoTransition (placed "e") (OpAdmit "i1") "0"])) as Hs.
  rewrite Ho in Hs. destruct Hs as [Hnone Hlater]. split_and!; [exact Hnone|vm_compute; reflexivity|exact Hlater].
Defined.
