(* ===== verification/NativeController.v ===== *)
(** The native controller (cli/native_controller.rs): the authority over one physical
    invocation, kept as a chain of states in a table of its own, and the receiver that
    executes under it.  The authority implements the owner of [ExecOwner] for one placement.

    JSON values are decoded values as in [ExecInvocation]; the text of a stored state and of
    a row of the chain is [NativeText].  Transactions are atomic: one that fails leaves the
    tables as they were. *)
From stdpp Require Import pretty.
From S2P Require Import Prelude RustStr MachineInt EventChain ExecInvocation ExecController ExecOwner ExecResolution.
Local Open Scope string_scope.

Definition NATIVE_PROTOCOL : string := "whipplescript.exec.native-controller/v1".
Definition NATIVE_OWNER_PROTOCOL : string := "whipplescript.exec.native-owner/v1".

(** [Owner] (store/exec_native_owner.rs). *)
Record NativeOwner := mkNativeOwner {
  no_protocol : string;
  no_instance : string;
  no_effect : string;
  no_run : string;
  no_tracking : string;
  no_daemon : string;
  no_image : string;
  no_id : string;
}.
#[export] Instance native_owner_eq_dec : EqDecision NativeOwner.
Proof. solve_decision. Defined.

Section native.
Context {V : Type} `{ExecValue V, Sha256, ExecText}.

Record Identity := mkIdentity { id_selected : Invocation; id_envelope : ExecEnvelope V }.
#[export] Instance identity_eq_dec : EqDecision Identity.
Proof. solve_decision. Defined.

Definition controller_id (id : Identity) : string := "whip-controller-" +:+ invocation_run_id (id_selected id).
Definition identity_validate (id : Identity) : result exec_error unit := _ ← envelope_dispatch (id_envelope id) (id_selected id); Ok tt.

Record NativeState := mkNative {
  ns_protocol : string;
  ns_identity : Identity;
  ns_owner : option NativeOwner;
  ns_container : option string;
  ns_receipt : Receipt V;
  ns_placement : Placement V;
  ns_controller : option (ExecRecord V);
  ns_barrier : option (Barrier V);
}.
#[export] Instance native_state_eq_dec : EqDecision NativeState.
Proof. solve_decision. Defined.

Inductive NativeCommand :=
| NcRead
| NcClaim (owner : NativeOwner)
| NcBind (owner : NativeOwner) (container_id : string)
| NcFence (fence_id : string)
| NcFinish (container_id barrier_id : string).

Record NativeReply := mkNativeReply {
  nr_create : bool;
  nr_decision : option (ExecAction V);
  nr_state : NativeState;
  nr_response : ControllerResponse V;
}.

(** ** One state *)

Definition native_new (id : Identity) : result exec_error NativeState :=
  identity_validate id;;
  claim ← receipt_claim None (id_envelope id) (id_selected id);
  receipt ← match claim with ClaimDispatch receipt => Ok receipt | _ => Err PlacementUnclaimed end;
  placement ← bind_controller (id_selected id) (id_envelope id) receipt None (controller_id id) (invocation_run_id (id_selected id));
  Ok (mkNative NATIVE_PROTOCOL id None None receipt placement None None).

Definition check_owner (s : NativeState) (owner : NativeOwner) : result exec_error unit :=
  let selected := id_selected (ns_identity s) in
  if negb (bool_decide (no_protocol owner = NATIVE_OWNER_PROTOCOL)) || negb (bool_decide (no_instance owner = inv_instance selected))
     || negb (bool_decide (no_effect owner = inv_effect selected)) || negb (bool_decide (no_run owner = invocation_run_id selected))
     || bool_decide (no_id owner = "") || bool_decide (no_tracking owner = "") then Err NativeOwnerDiffers else Ok tt.

Definition with_controller (s : NativeState) (r : option (ExecRecord V)) : NativeState :=
  mkNative (ns_protocol s) (ns_identity s) (ns_owner s) (ns_container s) (ns_receipt s) (ns_placement s) r (ns_barrier s).
Definition with_barrier (s : NativeState) (b : option (Barrier V)) : NativeState :=
  mkNative (ns_protocol s) (ns_identity s) (ns_owner s) (ns_container s) (ns_receipt s) (ns_placement s) (ns_controller s) b.
Definition with_owner (s : NativeState) (o : NativeOwner) : NativeState :=
  mkNative (ns_protocol s) (ns_identity s) (Some o) (ns_container s) (ns_receipt s) (ns_placement s) (ns_controller s) (ns_barrier s).
Definition with_container (s : NativeState) (c : string) : NativeState :=
  mkNative (ns_protocol s) (ns_identity s) (ns_owner s) (Some c) (ns_receipt s) (ns_placement s) (ns_controller s) (ns_barrier s).
Definition with_receipt (s : NativeState) (r : Receipt V) : NativeState :=
  mkNative (ns_protocol s) (ns_identity s) (ns_owner s) (ns_container s) r (ns_placement s) (ns_controller s) (ns_barrier s).

Definition native_transition (s : NativeState) (op : ExecOperation V) : result exec_error (NativeState * ExecAction V) :=
  let owner := controller_id (ns_identity s) in
  gate ← inspect owner (ns_barrier s);
  reply ← transition_with_gate owner (ns_placement s) (ns_controller s) op (ns_barrier s) (in_generation gate);
  Ok (with_controller s (cr_record reply), cr_action reply).

Definition native_read (s : NativeState) : result exec_error (ExecAction V) := '(_, action) ← native_transition s OpRead; Ok action.

Definition native_validate (s : NativeState) (id : Identity) : result exec_error unit :=
  identity_validate id;;
  (if bool_decide (ns_protocol s = NATIVE_PROTOCOL) && bool_decide (ns_identity s = id) then Ok tt else Err NativeReplaced);;
  (match ns_owner s with Some owner => check_owner s owner | None => Ok tt end);;
  (match ns_container s, ns_owner s with Some _, None => Err NativeOwnerLost | _, _ => Ok tt end);;
  (if bool_decide (pl_container (ns_placement s) = controller_id id) && bool_decide (pl_dispatch (ns_placement s) = invocation_run_id (id_selected id))
   then Ok tt else Err NativePlacement);;
  _ ← controller_target (id_selected id) (id_envelope id) (ns_receipt s) (ns_placement s);
  _ ← inspect (controller_id id) (ns_barrier s);
  action ← native_read s;
  match action with
  | AReplay status body _ =>
      completed ← receipt_complete (ns_receipt s) (id_envelope id) (id_selected id) status body;
      if bool_decide (completed = ns_receipt s) then Ok tt else Err NativeReceiptLost
  | _ => if is_completed (ns_receipt s) then Err NativeCompletionLost else Ok tt
  end.

Definition native_inventory (s : NativeState) : list (ExecRecord V) := match ns_controller s with Some r => [r] | None => [] end.

(** The loop over the updates of a barrier. *)
Fixpoint update_records (s : NativeState) (updates : list (string * ExecRecord V)) : result exec_error NativeState :=
  match updates with
  | [] => Ok s
  | (_, r) :: rest =>
      if bool_decide (rec_placement r = ns_placement s) then update_records (with_controller s (Some r)) rest else Err NativeInvocation
  end.

Definition update_barrier (s : NativeState) (reply : BarrierReply V) : result exec_error NativeState :=
  (if bool_decide (length (bar_updates reply) ≤ 1)%nat then Ok tt else Err NativeUpdates);;
  s ← update_records s (bar_updates reply);
  Ok (with_barrier s (bar_barrier reply)).

Definition is_hex_digit (c : Ascii.ascii) : bool :=
  let n := Ascii.nat_of_ascii c in ((48 <=? n) && (n <=? 57) || (97 <=? n) && (n <=? 102))%nat.
Definition is_container_id (c : string) : bool :=
  (String.length c =? 64)%nat && forallb is_hex_digit (String.list_ascii_of_string c).

Definition native_apply (s : NativeState) (command : NativeCommand) : result exec_error (NativeState * bool) :=
  match command with
  | NcRead => Ok (s, false)
  | NcClaim owner =>
      check_owner s owner;;
      match ns_owner s with
      | Some original => if bool_decide (original = owner) then Ok (s, false) else Err NativeOwnerReplaced
      | None => match ns_controller s with None => Ok (with_owner s owner, true) | Some _ => Ok (s, false) end
      end
  | NcBind owner container_id =>
      check_owner s owner;;
      if negb (bool_decide (ns_owner s = Some owner)) || negb (is_container_id container_id)
         || match ns_container s with Some c => negb (bool_decide (c = container_id)) | None => false end then Err NativeBinding
      else Ok (with_container s container_id, false)
  | NcFence fence_id =>
      '(s, _) ← native_transition s (OpEnsureFence fence_id);
      reply ← barrier_begin (controller_id (ns_identity s)) (ns_barrier s) (native_inventory s);
      s ← update_barrier s reply;
      Ok (s, false)
  | NcFinish container_id barrier_id =>
      (if bool_decide (ns_container s = Some container_id) then Ok tt else Err NativeContainer);;
      barrier ← ok_or NativeUnbegun (ns_barrier s);
      reply ← barrier_finish (controller_id (ns_identity s)) barrier (native_inventory s) barrier_id;
      s ← update_barrier s reply;
      Ok (s, false)
  end.

Definition native_reply (s : NativeState) (create : bool) (decision : option (ExecAction V)) : result exec_error NativeReply :=
  action ← native_read s;
  Ok (mkNativeReply create decision s (mkResponse RESPONSE_PROTOCOL (ns_placement s) action)).

(** [resolution_view]: what the state shows through the provider's protocol. *)
Definition native_view (s : NativeState) : result exec_error (View V) :=
  native_validate s (ns_identity s);;
  reply ← native_reply s false None;
  resolved ← provider_resolve (id_selected (ns_identity s)) (id_envelope (ns_identity s)) (ns_receipt s) (ns_placement s) None (RoObserve (nr_response reply));
  Ok (reply_view (id_selected (ns_identity s)) (ns_placement s) resolved).
End native.
Arguments Identity : clear implicits. Arguments NativeState : clear implicits. Arguments NativeReply : clear implicits.

(** ** The authority *)

(** The texts that the column [state_json] keeps: of a state, read back, and inside
    [json!([PROTOCOL, previous, n, payload])]. *)
Class NativeText (V : Type) := {
  payload : Type;
  state_text : NativeState V → payload;
  parse_state : payload → option (NativeState V);
  row_text : string → string → Z → payload → string;
}.

Section authority.
Context {V : Type} `{ExecValue V, Sha256, ExecText, !NativeText V}.

(** The tables: the tip, and the rows in the order of their sequence. *)
Record Authority := mkAuthority {
  au_tip : option (Z * string);
  au_rows : list (Z * payload * string);
}.

Definition row_digest (previous : string) (n : Z) (text : payload) : string := sha256_hex (row_text NATIVE_PROTOCOL previous n text).

(** The walk over the rows: the last state, its sequence and its digest. *)
Fixpoint load_rows (id : Identity V) (last : option (NativeState V)) (sequence : Z) (previous : string) (rows : list (Z * payload * string))
    : result exec_error (option (NativeState V) * Z * string) :=
  match rows with
  | [] => Ok (last, sequence, previous)
  | (n, text, hash) :: rest =>
      if negb (bool_decide (n = (sequence + 1)%Z)) || negb (bool_decide (hash = row_digest previous n text)) then Err NativeHistory
      else
        state ← ok_or NativeUnreadable (parse_state text);
        native_validate state id;;
        load_rows id (Some state) n hash rest
  end.

Definition load_authority (id : Identity V) (db : Authority) : result exec_error (option (NativeState V) * Z * string) :=
  '(last, sequence, previous) ← load_rows id None 0 (sha256_hex NATIVE_PROTOCOL) (au_rows db);
  (if bool_decide (au_tip db = if (0 <? sequence)%Z then Some (sequence, previous) else None) then Ok tt else Err NativeTip);;
  Ok (last, sequence, previous).

(** [sequence.checked_add(1)] and the two inserts. *)
Definition append_state (db : Authority) (sequence : Z) (previous : string) (s : NativeState V) : result exec_error Authority :=
  if (sequence <? 9223372036854775807)%Z then
    let n := (sequence + 1)%Z in
    let hash := row_digest previous n (state_text s) in
    Ok (mkAuthority (Some (n, hash)) (au_rows db ++ [(n, state_text s, hash)])%list)
  else Err NativeRevision.

Definition transact (id : Identity V) (change : NativeState V → result exec_error (NativeState V * bool * option (ExecAction V))) (db : Authority)
    : result exec_error (Authority * NativeReply V) :=
  '(last, sequence, previous) ← load_authority id db;
  state ← match last with Some s => Ok s | None => native_new id end;
  '(state, create, decision) ← change state;
  native_validate state id;;
  db ← if bool_decide (last = Some state) then Ok db else append_state db sequence previous state;
  reply ← native_reply state create decision;
  Ok (db, reply).

Definition authority_apply (id : Identity V) (command : NativeCommand) (db : Authority) : result exec_error (Authority * NativeReply V) :=
  transact id (λ s, '(s, create) ← native_apply s command; Ok (s, create, None)) db.

(** The first transaction of [execute], up to the admission. *)
Definition execute_admit (id : Identity V) (owner container incarnation : string) (dispatch : V) (db : Authority)
    : result exec_error (Authority * NativeReply V) :=
  retained ← envelope_dispatch (id_envelope id) (id_selected id);
  (if bool_decide (retained = dispatch) then Ok tt else Err NativeDelivery);;
  transact id (λ s,
    (if bool_decide (no_id <$> ns_owner s = Some owner) && bool_decide (ns_container s = Some container) then Ok tt else Err NativeUnbound);;
    '(s, decision) ← native_transition s (OpAdmit incarnation);
    Ok (s, false, Some decision)) db.

(** The second, with what the execution gave. *)
Definition execute_complete (id : Identity V) (incarnation : string) (status : Z) (body : V) (db : Authority)
    : result exec_error (Authority * NativeReply V) :=
  transact id (λ s,
    '(s, _) ← native_transition s (OpComplete incarnation status body);
    receipt ← receipt_complete (ns_receipt s) (id_envelope id) (id_selected id) status body;
    Ok (with_receipt s receipt, false, None)) db.

Definition grants (reply : NativeReply V) : bool := match nr_decision reply with Some (AExecute _) => true | _ => false end.

(** [execute]: the tables afterwards, and the answer; [run] is what the execution gives. *)
Definition execute (id : Identity V) (owner container incarnation : string) (dispatch : V) (run : result exec_error (Z * V)) (db : Authority)
    : Authority * result exec_error (NativeReply V) :=
  match execute_admit id owner container incarnation dispatch db with
  | Err e => (db, Err e)
  | Ok (db1, admitted) =>
      if grants admitted then
        match run with
        | Err e => (db1, Err e)
        | Ok (status, body) =>
            match execute_complete id incarnation status body db1 with Ok (db2, reply) => (db2, Ok reply) | Err e => (db1, Err e) end
        end
      else (db1, Ok admitted)
  end.
End authority.
