(* ===== verification/NativeRuns.v ===== *)
(** Runs of the native controller: its authority implements the owner of [ExecOwner] for one
    placement, the receiver executes at most once over crashes and restarts, and a result
    that the receiver has is kept. *)
From stdpp Require Import pretty.
From S2P Require Import Prelude RustStr MachineInt EventChain ExecInvocation ExecController ExecOwner ExecResolution NativeController.
Local Open Scope string_scope.

(** What is stored is read back. *)
Class NativeTextLaws (V : Type) `{!NativeText V} := parse_state_text : ∀ s : NativeState V, parse_state (state_text s) = Some s.

(** ** Results of a record *)

Section results.
Context {V : Type} `{ExecValue V, Sha256, ExecText}.

Definition result_of (st : option (ExecState V)) : option (Z * V) :=
  match st with Some (Completed _ status body _) => Some (status, body) | _ => None end.

(** Running under an incarnation: admitted, or under a fence. *)
Definition live (i : string) (st : option (ExecState V)) : Prop := st = Some (StAdmitted i) ∨ ∃ f, st = Some (Fencing i f).

Lemma result_of_le st st' status body : state_le st st' → result_of st = Some (status, body) → result_of st' = Some (status, body).
Proof. destruct st as [[]|], st' as [[]|]; cbn; try done; naive_solver. Qed.

Definition after (st repl : option (ExecState V)) : option (ExecState V) := match repl with Some s => Some s | None => st end.

Lemma fence_state_keeps ensure f st s :
  fence_state ensure f st = Ok s → result_of (Some s) = result_of st ∧ ∀ i, live i st → live i (Some s).
Proof.
  unfold live. destruct st as [[i|i f'|f'|i f' b|i status body [[f'|f' b]|]]|]; cbn; intros Hs; repeat case_match; simplify_eq/=; (split; [done|naive_solver]).
Qed.

(** Only a completion makes a result, and only one ends a life. *)
Lemma decide_keeps c st op br obs repl action :
  (∀ i status body, op ≠ OpComplete i status body) → decide_operation c st op br obs = Ok (repl, action) →
  result_of (after st repl) = result_of st ∧ ∀ i, live i st → live i (after st repl).
Proof.
  intros Hop Hd. destruct op as [|i|f|f|i status body]; [| | | |by destruct (Hop i status body)]; cbn [decide_operation] in Hd.
  - by injection Hd as <- <-.
  - apply bind_ok in Hd as ([] & _ & Hd). destruct st as [s|]; [by injection Hd as <- <-|]. apply bind_ok in Hd as (blocked & _ & Hd).
    destruct blocked; injection Hd as <- <-; (split; [done|]); intros j [|[? ?]]; done.
  - apply bind_ok in Hd as ([] & _ & Hd). apply bind_ok in Hd as (s & Hs & [= <- <-]). by eapply fence_state_keeps.
  - apply bind_ok in Hd as ([] & _ & Hd). apply bind_ok in Hd as (s & Hs & [= <- <-]). by eapply fence_state_keeps.
Qed.

Lemma begin_state_keeps id s : result_of (Some (begin_state id s)) = result_of (Some s) ∧ ∀ i, live i (Some s) → live i (Some (begin_state id s)).
Proof. split; [by destruct s as [| | | |? ? ? [|]]|]. unfold live. intros i [[= ->]|[f [= ->]]]; cbn; eauto. Qed.

Lemma finish_state_keeps b t s s' : finish_state b t s = Ok (Some s') → result_of (Some s') = result_of (Some s).
Proof. destruct s as [i|i f|f|i f b'|i status body [[f|f b']|]]; cbn; intros Hs; repeat (case_match; try done); by simplify_eq. Qed.

(** A completion of what is live succeeds, and carries the fence. *)
Lemma complete_live i status body st : live i st → ∃ fence, complete_state i status body st = Ok (Completed i status body fence) ∧
  ∀ f b, fence ≠ Some (CTerminated f b).
Proof.
  intros [->|[f ->]]; cbn; rewrite bool_decide_eq_true_2 by done; cbn; eexists; split; [done|done|done|done].
Qed.
End results.

(** ** States as owners *)

Section refinement.
Context {V : Type} `{ExecValue V, Sha256, ExecTextLaws}.
Context (id : Identity V).

Definition native_placement : Placement V :=
  mkPlacement CONTROLLER_PLACEMENT (id_selected id) (id_envelope id) (controller_id id) (invocation_run_id (id_selected id)).
Abbreviation c := (controller_id id).
Abbreviation k := (place_key native_placement).

Definition as_owner (s : NativeState V) : Owner (V := V) :=
  mkOwner (ns_barrier s) (match ns_controller s with Some r => {[ k := r ]} | None => ∅ end).
Definition state_of (s : NativeState V) : option (ExecState V) := rec_state <$> ns_controller s.

Definition receipt_matches (s : NativeState V) : Prop :=
  match ns_receipt s with
  | RStarted e required => e = id_envelope id ∧ required = true ∧ result_of (state_of s) = None
  | RCompleted e status body => e = id_envelope id ∧ result_of (state_of s) = Some (status, body)
  end.

Record native_ok (s : NativeState V) : Prop := mkNativeOk {
  nok_protocol : ns_protocol s = NATIVE_PROTOCOL;
  nok_identity : ns_identity s = id;
  nok_envelope : envelope_validate (id_envelope id) (id_selected id) = Ok tt;
  nok_owner : match ns_owner s with Some o => check_owner s o = Ok tt | None => ns_container s = None end;
  nok_placement : ns_placement s = native_placement;
  nok_record : ∀ r, ns_controller s = Some r → rec_placement r = native_placement;
  nok_receipt : receipt_matches s;
  nok_as_owner : owner_ok c (as_owner s);
}.

Lemma as_owner_lookup s : ow_records (as_owner s) !! k = ns_controller s.
Proof. cbn. destruct (ns_controller s); [by rewrite lookup_singleton_eq|done]. Qed.
Lemma as_owner_state s : state_at (as_owner s) k = state_of s.
Proof. unfold state_at, state_of. by rewrite as_owner_lookup. Qed.

Lemma as_owner_records s k' r : ow_records (as_owner s) !! k' = Some r → k' = k ∧ ns_controller s = Some r.
Proof. cbn. destruct (ns_controller s); [|done]. intros [-> ->]%lookup_singleton_Some. done. Qed.

Lemma native_inventory_owner s : native_inventory s = inventory (as_owner s).
Proof.
  unfold native_inventory, inventory. cbn [as_owner ow_records]. destruct (ns_controller s) as [r|].
  - assert (map_entries ({[ k := r ]} : gmap string (ExecRecord V)) = [(k, r)]) as ->; [|done].
    assert (map_entries ({[ k := r ]} : gmap string (ExecRecord V)) ≡ₚ [(k, r)]) as Hp; [|by apply Permutation_singleton_r in Hp].
    apply NoDup_Permutation; [by eapply NoDup_fmap_1, NoDup_map_entries|apply NoDup_singleton|]. intros [k' r'].
    rewrite elem_of_map_entries, lookup_singleton_Some, list_elem_of_singleton. naive_solver.
  - destruct (map_entries (∅ : gmap string (ExecRecord V))) as [|[k' r'] es] eqn:He; [done|]. exfalso.
    assert ((k', r') ∈ map_entries (∅ : gmap string (ExecRecord V))) as Hin by (rewrite He; left). by apply elem_of_map_entries in Hin.
Qed.

Lemma native_inspect s : native_ok s → inspect c (ns_barrier s) = Ok (mkInspection (generation (as_owner s)) (closing (as_owner s)) (br_id <$> ns_barrier s)).
Proof.
  intros Hok. destruct (nok_as_owner _ Hok) as (_ & Hread & _). cbn in Hread. unfold inspect. rewrite Hread. cbn. unfold generation, closing. cbn. by destruct (ns_barrier s).
Qed.

(** *** Transitions *)

Lemma native_transition_step s op s' action :
  native_ok s → native_transition s op = Ok (s', action) →
  s' = with_controller s (ns_controller s') ∧
  owner_step c (as_owner s) (EvAction k (generation (as_owner s)) action) (as_owner s') ∧
  ∃ repl, decide_operation c (state_of s) op (ns_barrier s) (generation (as_owner s)) = Ok (repl, action) ∧
    ns_controller s' = match repl with Some st => Some (mkExecRecord CONTROLLER_PROTOCOL native_placement st) | None => ns_controller s end.
Proof.
  intros Hok. unfold native_transition. rewrite (nok_identity _ Hok), (native_inspect _ Hok). cbn [mbind result_bind in_generation]. rewrite (nok_placement _ Hok).
  intros (reply & Ht & [= <- <-])%bind_ok. split; [done|].
  assert (transition_with_gate c native_placement (ow_records (as_owner s) !! k) op (ow_barrier (as_owner s)) (generation (as_owner s)) = Ok reply) as Ht'
    by (by rewrite as_owner_lookup).
  assert (as_owner (with_controller s (cr_record reply)) = commit_reply (as_owner s) reply) as ->.
  { unfold commit_reply, as_owner. cbn. f_equal. unfold transition_with_gate in Ht. apply bind_ok in Ht as ([] & _ & Ht). apply bind_ok in Ht as ([] & _ & Ht).
    apply bind_ok in Ht as ([repl action] & _ & [= <-]). cbn. assert (place_text CONTROLLER_PROTOCOL c (id_selected id) = k) as -> by done.
    destruct repl as [st|], (ns_controller s); cbn; try done; by rewrite ?insert_singleton_eq, ?insert_empty. }
  split; [by eapply (owner_transition c)|]. unfold transition_with_gate in Ht. apply bind_ok in Ht as ([] & _ & Ht). apply bind_ok in Ht as ([] & _ & Ht).
  apply bind_ok in Ht as ([repl action] & Hd & [= <-]). exists repl. split; [done|]. by destruct repl.
Qed.

Lemma native_transition_ok s op s' action :
  native_ok s → native_transition s op = Ok (s', action) → (∀ i status body, op ≠ OpComplete i status body) →
  native_ok s' ∧ ∀ i, live i (state_of s) → live i (state_of s').
Proof.
  intros Hok Ht Hop. destruct (native_transition_step _ _ _ _ Hok Ht) as (Hs' & Hstep & repl & Hd & Hrec).
  destruct (owner_step_spec _ _ _ _ (nok_as_owner _ Hok) Hstep) as (Hown & _). destruct (decide_keeps _ _ _ _ _ _ _ Hop Hd) as [Hres Hlive].
  assert (state_of s' = after (state_of s) repl) as Hst by (unfold state_of; rewrite Hrec; by destruct repl).
  split; [|by rewrite Hst]. destruct Hok as [Hp Hi He Ho Hpl Hr Hrc _]. rewrite Hs'. split; try done.
  - intros r. rewrite Hrec. destruct repl; [by intros [= <-]|apply Hr].
  - unfold receipt_matches in *. rewrite <- Hs', Hst, Hres. by rewrite Hs'.
  - by rewrite <- Hs'.
Qed.

Lemma native_placement_valid : envelope_validate (id_envelope id) (id_selected id) = Ok tt → validate_controller native_placement c = Ok tt.
Proof. intros He. unfold validate_controller. cbn [pl_envelope pl_selected native_placement]. rewrite He. cbn. by rewrite !bool_decide_eq_true_2 by done. Qed.

(** A decision on the state is a transition. *)
Lemma native_transition_decides s op repl action :
  native_ok s → decide_operation c (state_of s) op (ns_barrier s) (generation (as_owner s)) = Ok (repl, action) →
  ∃ s', native_transition s op = Ok (s', action).
Proof.
  intros Hok Hd. unfold native_transition. rewrite (nok_identity _ Hok), (native_inspect _ Hok). cbn [mbind result_bind in_generation]. rewrite (nok_placement _ Hok).
  unfold transition_with_gate. rewrite (native_placement_valid (nok_envelope _ Hok)). cbn [mbind result_bind].
  assert (stored_valid native_placement (ns_controller s) = Ok tt) as ->.
  { destruct (ns_controller s) as [r|] eqn:Hr; [|done]. destruct (nok_as_owner _ Hok) as (Hrec & _). destruct (Hrec k r) as (_ & Hp & _ & Hs); [by rewrite as_owner_lookup|].
    cbn. rewrite !bool_decide_eq_true_2; [exact Hs|by apply (nok_record _ Hok)|done]. }
  cbn [mbind result_bind]. unfold state_of in Hd. rewrite Hd. cbn. by eexists.
Qed.

Definition shown (s : NativeState V) : ExecAction V := match state_of s with Some st => state_read st | None => AAbsent end.

Lemma native_read_shown s : native_ok s → native_read s = Ok (shown s).
Proof. intros Hok. unfold native_read. destruct (native_transition_decides s OpRead None (shown s) Hok eq_refl) as [s' ->]. done. Qed.

Lemma receipt_target s :
  native_ok s → receipt_envelope (ns_receipt s) = id_envelope id → ∃ target, controller_target (id_selected id) (id_envelope id) (ns_receipt s) native_placement = Ok target.
Proof.
  intros Hok Hr. unfold controller_target, bind_with_protocol. cbn [pl_protocol pl_container pl_dispatch native_placement].
  assert (∃ cl, receipt_claim (Some (ns_receipt s)) (id_envelope id) (id_selected id) = Ok cl) as [cl ->].
  { unfold receipt_claim, verify_replay. rewrite (nok_envelope _ Hok). cbn [mbind result_bind].
    destruct (ns_receipt s); cbn in Hr; subst; rewrite (nok_envelope _ Hok); cbn [mbind result_bind]; rewrite bool_decide_eq_true_2 by done; by eexists. }
  cbn [mbind result_bind]. rewrite (bool_decide_eq_false_2 (c = "")), (bool_decide_eq_false_2 (_ = "")) by done. cbn [orb mbind result_bind].
  rewrite (bool_decide_eq_true_2 (native_placement = _)) by done. cbn [mbind result_bind]. rewrite bool_decide_eq_false_2 by done.
  rewrite (native_placement_valid (nok_envelope _ Hok)). by eexists.
Qed.

Lemma receipt_complete_same s status body :
  native_ok s → receipt_envelope (ns_receipt s) = id_envelope id →
  (is_completed (ns_receipt s) = true → ns_receipt s = RCompleted (id_envelope id) status body) →
  receipt_complete (ns_receipt s) (id_envelope id) (id_selected id) status body = Ok (RCompleted (id_envelope id) status body).
Proof.
  intros Hok Hr Hc. unfold receipt_complete, verify_replay. rewrite Hr, (nok_envelope _ Hok). cbn [mbind result_bind].
  rewrite (bool_decide_eq_true_2 (id_envelope id = id_envelope id)) by done. cbn [mbind result_bind].
  destruct (is_completed (ns_receipt s)); [|done]. rewrite (Hc eq_refl), bool_decide_eq_true_2 by done. done.
Qed.

Lemma receipt_of s : native_ok s → receipt_envelope (ns_receipt s) = id_envelope id.
Proof. intros Hok. pose proof (nok_receipt _ Hok) as Hr. unfold receipt_matches in Hr. by destruct (ns_receipt s); destruct Hr as [-> _]. Qed.

(** The checks of a state hold of every state that is kept. *)
Lemma native_validate_ok s : native_ok s → native_validate s id = Ok tt.
Proof.
  intros Hok. pose proof (receipt_of _ Hok) as Henv. pose proof (nok_owner _ Hok) as Ho. pose proof (nok_receipt _ Hok) as Hr.
  unfold native_validate, identity_validate, envelope_dispatch. rewrite (nok_envelope _ Hok). cbn [mbind result_bind].
  rewrite (nok_protocol _ Hok), (nok_identity _ Hok), (bool_decide_eq_true_2 (NATIVE_PROTOCOL = _)), (bool_decide_eq_true_2 (id = id)) by done. cbn [andb mbind result_bind].
  assert (match ns_owner s with Some o => check_owner s o | None => Ok tt end = Ok tt) as -> by by destruct (ns_owner s). cbn [mbind result_bind].
  assert ((match ns_container s, ns_owner s with Some _, None => Err NativeOwnerLost | _, _ => Ok tt end) = Ok tt) as ->
    by (destruct (ns_owner s); [by destruct (ns_container s)|by rewrite Ho]). cbn [mbind result_bind].
  rewrite (nok_placement _ Hok). cbn [pl_container pl_dispatch native_placement].
  rewrite (bool_decide_eq_true_2 (c = c)), (bool_decide_eq_true_2 (invocation_run_id _ = _)) by done. cbn [andb mbind result_bind].
  destruct (receipt_target s Hok Henv) as [target ->]. cbn [mbind result_bind]. rewrite (native_inspect _ Hok), (native_read_shown _ Hok). cbn [mbind result_bind].
  unfold shown. unfold receipt_matches in Hr. destruct (state_of s) as [[i|i f|f|i f b|i status body fence]|] eqn:Hst; cbn in Hr |- *;
    try (destruct (ns_receipt s); [done|]; destruct Hr; done).
  rewrite (receipt_complete_same _ _ _ Hok Henv).
  - cbn. destruct (ns_receipt s) as [|e st bd]; [by destruct Hr as (_ & _ & ?)|]. destruct Hr as [-> [= <- <-]]. by rewrite bool_decide_eq_true_2.
  - destruct (ns_receipt s) as [|e st bd]; [done|]. by destruct Hr as [-> [= <- <-]].
Qed.

(** *** Completions *)

Lemma native_complete_ok s i status body s1 action receipt :
  native_ok s → native_transition s (OpComplete i status body) = Ok (s1, action) →
  receipt_complete (ns_receipt s1) (id_envelope id) (id_selected id) status body = Ok receipt →
  native_ok (with_receipt s1 receipt) ∧ result_of (state_of s1) = Some (status, body).
Proof.
  intros Hok Ht Hc. destruct (native_transition_step _ _ _ _ Hok Ht) as (Hs1 & Hstep & repl & Hd & Hrec).
  destruct (owner_step_spec _ _ _ _ (nok_as_owner _ Hok) Hstep) as (Hown & _). cbn in Hd. apply bind_ok in Hd as (st & Hst & [= <- <-]).
  destruct (complete_state_le _ _ _ _ _ Hst) as (_ & fence & ->).
  assert (state_of s1 = Some (Completed i status body fence)) as Hs by (unfold state_of; by rewrite Hrec). rewrite Hs. split; [|done].
  assert (receipt = RCompleted (id_envelope id) status body) as ->.
  { pose proof (receipt_of _ Hok) as Henv. unfold receipt_complete in Hc. rewrite Hs1 in Hc. cbn in Hc. rewrite Henv in Hc. apply bind_ok in Hc as ([] & _ & Hc).
    destruct (_ && _); [done|]. by injection Hc as <-. }
  destruct Hok as [Hp Hi He Ho Hpl Hr Hrc _]. rewrite Hs1. split; try done.
  - intros r. cbn. rewrite Hrec. by intros [= <-].
  - unfold receipt_matches. cbn. unfold state_of in *. cbn. by rewrite Hs.
  - unfold as_owner. cbn. rewrite Hs1 in Hown. exact Hown.
Qed.

(** *** Barriers *)

Lemma begin_updates_known (o : Owner (V := V)) reply k' r :
  owner_ok c o → barrier_begin c (ow_barrier o) (inventory o) = Ok reply → (k', r) ∈ bar_updates reply →
  ∃ r0 bid, ow_records o !! k' = Some r0 ∧ r = begin_record bid r0.
Proof.
  intros (Hrec & Hread & _). unfold barrier_begin. rewrite Hread. cbn [mbind result_bind]. rewrite (inventory_records c o Hrec). cbn [mbind result_bind].
  destruct (match ow_barrier o with Some b => br_closing b | None => false end); [by intros [= <-] ?%elem_of_nil|].
  destruct (next_generation (ow_barrier o)) as [g|]; [|done]. cbn [mbind result_bind]. case_bool_decide; intros [= <-]; [by intros ?%elem_of_nil|].
  cbn. intros ([k2 r2] & Hin%elem_of_map_entries & Hx)%list_elem_of_omap. cbn in Hx. case_bool_decide; [done|]. injection Hx as -> <-. eauto.
Qed.

Lemma update_barrier_ok s reply s' :
  native_ok s → update_barrier s reply = Ok s' → owner_ok c (commit_barrier (as_owner s) reply) →
  (∀ k' r, (k', r) ∈ bar_updates reply → ∃ r0, ow_records (as_owner s) !! k' = Some r0 ∧ result_of (Some (rec_state r)) = result_of (Some (rec_state r0))) →
  as_owner s' = commit_barrier (as_owner s) reply ∧ native_ok s' ∧ s' = with_barrier (with_controller s (ns_controller s')) (ns_barrier s').
Proof.
  intros Hok Hu Hown Hkeys. unfold update_barrier in Hu. apply bind_ok in Hu as ([] & Hlen & Hu). case_bool_decide as Hl; [|done]. apply bind_ok in Hu as (s1 & Hu & [= <-]).
  assert (s1 = with_controller s (ns_controller s1) ∧ as_owner (with_barrier s1 (bar_barrier reply)) = commit_barrier (as_owner s) reply ∧
    (∀ r, ns_controller s1 = Some r → rec_placement r = native_placement) ∧ result_of (state_of s1) = result_of (state_of s)) as (Hs1 & Hco & Hpl & Hres).
  { unfold commit_barrier. destruct (bar_updates reply) as [|[k' r] [|? ?]]; cbn in Hl; [| |lia].
    - injection Hu as <-. split_and!; [by destruct s|done|apply (nok_record _ Hok)|done].
    - cbn in Hu. case_bool_decide as Hp; [|done]. injection Hu as <-. destruct (Hkeys k' r) as (r0 & Hr0 & Hres); [by left|].
      apply as_owner_records in Hr0 as [-> Hr0]. split_and!; [done| | |].
      + unfold as_owner. cbn. by rewrite Hr0, insert_singleton_eq.
      + intros r' [= <-]. by rewrite Hp, (nok_placement _ Hok).
      + unfold state_of. cbn. rewrite Hr0. exact Hres. }
  split_and!; [done| |by rewrite Hs1]. destruct Hok as [Hp Hi He Ho Hpl0 Hr Hrc _]. split; [by rewrite Hs1|by rewrite Hs1|done|by rewrite Hs1|by rewrite Hs1|exact Hpl| |by rewrite Hco].
  unfold receipt_matches in *. assert (state_of (with_barrier s1 (bar_barrier reply)) = state_of s1) as -> by done. rewrite Hres. by rewrite Hs1.
Qed.

Lemma native_begin_ok s reply s' :
  native_ok s → barrier_begin c (ns_barrier s) (native_inventory s) = Ok reply → update_barrier s reply = Ok s' →
  native_ok s' ∧ owner_step c (as_owner s) EvBegin (as_owner s') ∧ s' = with_barrier (with_controller s (ns_controller s')) (ns_barrier s') ∧
  ∀ i, live i (state_of s) → live i (state_of s').
Proof.
  intros Hok Hb Hu. rewrite native_inventory_owner in Hb. change (ns_barrier s) with (ow_barrier (as_owner s)) in Hb.
  destruct (begin_step _ _ _ (nok_as_owner _ Hok) Hb) as [Hown _]. destruct (update_barrier_ok _ _ _ Hok Hu Hown) as (Hco & Hok' & Hs').
  { intros k' r Hin. destruct (begin_updates_known _ _ _ _ (nok_as_owner _ Hok) Hb Hin) as (r0 & bid & Hr0 & ->). exists r0. split; [done|]. apply begin_state_keeps. }
  split_and!; [done|rewrite Hco; by apply (owner_begin c)|done|]. intros i Hl.
  unfold update_barrier in Hu. apply bind_ok in Hu as ([] & Hlen & Hu). case_bool_decide as Hle; [|done]. apply bind_ok in Hu as (s1 & Hu & [= <-]).
  destruct (bar_updates reply) as [|[k' r] [|? ?]] eqn:Hupd; cbn in Hle; [by injection Hu as <-| |lia]. cbn in Hu. case_bool_decide; [|done]. injection Hu as <-.
  destruct (begin_updates_known _ _ k' r (nok_as_owner _ Hok) Hb) as (r0 & bid & Hr0 & ->); [rewrite Hupd; by left|].
  apply as_owner_records in Hr0 as [_ Hr0]. unfold state_of in *. rewrite Hr0 in Hl. cbn in Hl |- *. by apply begin_state_keeps.
Qed.

Lemma native_finish_ok s b bid reply s' :
  native_ok s → ns_barrier s = Some b → barrier_finish c b (native_inventory s) bid = Ok reply → update_barrier s reply = Ok s' →
  native_ok s' ∧ owner_step c (as_owner s) EvFinish (as_owner s') ∧ s' = with_barrier (with_controller s (ns_controller s')) (ns_barrier s').
Proof.
  intros Hok Hb Hf Hu. rewrite native_inventory_owner in Hf. change (ns_barrier s) with (ow_barrier (as_owner s)) in Hb.
  destruct (finish_step _ _ _ _ _ (nok_as_owner _ Hok) Hb Hf) as [Hown _]. destruct (finish_parts _ _ _ _ _ (nok_as_owner _ Hok) Hb Hf) as (_ & _ & _ & Ht).
  destruct (finish_targets_ok _ _ _ _ (NoDup_map_entries _) Ht) as (_ & Hin & _).
  destruct (update_barrier_ok _ _ _ Hok Hu Hown) as (Hco & Hok' & Hs').
  { intros k' r (t & r0 & st & _ & Hr0 & Hst & ->)%Hin. exists r0. split; [done|]. by eapply finish_state_keeps. }
  split_and!; [done|rewrite Hco; by eapply (owner_finish c)|done].
Qed.

(** *** Commands *)

Definition keeps_owner (s s' : NativeState V) : Prop := ∀ o, ns_owner s = Some o → ns_owner s' = Some o.
Definition finishes (command : NativeCommand) : bool := match command with NcFinish _ _ => true | _ => false end.
Abbreviation granted evs := (length (filter (λ ev, executes k ev = true) evs)).

Lemma native_apply_ok s command s' create :
  native_ok s → native_apply s command = Ok (s', create) →
  native_ok s' ∧ keeps_owner s s' ∧ (create = true → ns_owner s = None ∧ is_Some (ns_owner s')) ∧
  (finishes command = false → ∀ i, live i (state_of s) → live i (state_of s')) ∧
  ∃ evs, owner_run c (as_owner s) evs (as_owner s') ∧ granted evs = 0.
Proof.
  intros Hok Ha. pose proof (nok_identity _ Hok) as Hid. destruct command as [|o|o cid|f|cid bid]; unfold native_apply in Ha.
  - injection Ha as <- <-. split_and!; [done|by intros ?|done|done|]. exists []. split; [constructor|done].
  - apply bind_ok in Ha as ([] & Hc & Ha). destruct (ns_owner s) as [o'|] eqn:Ho.
    { case_bool_decide; [|done]. injection Ha as <- <-. split_and!; [done|by intros ?|done|done|]. exists []. split; [constructor|done]. }
    destruct (ns_controller s) eqn:Hr; injection Ha as <- <-; (split_and!; [|by intros ?; rewrite Ho|done|done|exists []; split; [constructor|done]]); [done|].
    destruct Hok as [Hp Hi He Hown Hpl Hrec Hrc Hao]. by split.
  - apply bind_ok in Ha as ([] & Hc & Ha). destruct (_ || _) eqn:Hx; [done|]. injection Ha as <- <-.
    split_and!; [|by intros ?|done|done|exists []; split; [constructor|done]].
    destruct Hok as [Hp Hi He Hown Hpl Hrec Hrc Hao]. split; try done. cbn. destruct (ns_owner s) as [o'|] eqn:Ho; [done|].
    by rewrite bool_decide_eq_false_2 in Hx.
  - apply bind_ok in Ha as ([s1 a] & Ht & Ha). destruct (native_transition_ok _ _ _ _ Hok Ht) as [Hok1 Hl1]; [done|].
    destruct (native_transition_step _ _ _ _ Hok Ht) as (Hs1 & Hstep1 & repl & Hd & _). apply bind_ok in Ha as (reply & Hb & Ha). apply bind_ok in Ha as (s2 & Hu & [= <- <-]).
    rewrite (nok_identity _ Hok1) in Hb. destruct (native_begin_ok _ _ _ Hok1 Hb Hu) as (Hok2 & Hstep2 & Hs2 & Hl2).
    split_and!; [done|intros o Ho; rewrite Hs2, Hs1; done|done|auto|].
    exists ([EvAction k (generation (as_owner s)) a] ++ [EvBegin])%list. split; [eapply run_snoc; [|done]; eapply (run_snoc _ _ []); [constructor|done]|].
    assert (∀ i, a ≠ AExecute i) as Hne.
    { intros i ->. cbn in Hd. apply bind_ok in Hd as ([] & _ & Hd). apply bind_ok in Hd as (st & _ & [= _ Hd]). unfold fence_action in Hd.
      destruct st as [| | | |? ? ? [[]|]]; cbn in Hd; done. }
    cbn. destruct a as [| | |i| | | |]; try done. by destruct (Hne i).
  - apply bind_ok in Ha as ([] & Hc & Ha). apply bind_ok in Ha as (b & Hb & Ha). apply bind_ok in Ha as (reply & Hf & Ha). apply bind_ok in Ha as (s1 & Hu & [= <- <-]).
    destruct (ns_barrier s) as [b'|] eqn:Hbar; [|done]. injection Hb as ->. rewrite Hid in Hf. destruct (native_finish_ok _ _ _ _ _ Hok Hbar Hf Hu) as (Hok1 & Hstep & Hs1).
    split_and!; [done|intros o Ho; by rewrite Hs1|done|done|]. exists [EvFinish]. split; [|done]. eapply (run_snoc _ _ []); [constructor|done].
Qed.
End refinement.

(** ** The chain of states *)

Section chain.
Context {V : Type} `{ExecValue V, Sha256, ExecTextLaws, !NativeText V, !NativeTextLaws V}.
Context (id : Identity V).

Lemma load_rows_app last n prev rows rows' :
  load_rows id last n prev (rows ++ rows')%list = '(last, n, prev) ← load_rows id last n prev rows; load_rows id last n prev rows'.
Proof.
  revert last n prev. induction rows as [|[[m text] hash] rows IH]; intros last n prev; [done|]. cbn [app load_rows]. destruct (_ || _); [done|].
  destruct (parse_state text) as [s|]; [|done]. cbn [ok_or mbind result_bind]. destruct (native_validate s id); [|done]. cbn [mbind result_bind]. apply IH.
Qed.

Lemma load_rows_sequence last n prev rows last' n' prev' :
  load_rows id last n prev rows = Ok (last', n', prev') → n' = (n + Z.of_nat (length rows))%Z.
Proof.
  revert last n prev. induction rows as [|[[m text] hash] rows IH]; intros last n prev; cbn [load_rows length]; [intros [= _ <- _]; lia|].
  destruct (_ || _) eqn:Hc; [done|]. destruct (parse_state text); [|done]. cbn [ok_or mbind result_bind]. destruct (native_validate _ id); [|done]. cbn [mbind result_bind].
  intros ->%IH. apply orb_false_iff in Hc as [Hc _]. apply negb_false_iff, bool_decide_eq_true in Hc. lia.
Qed.

Lemma load_authority_rows db last n prev :
  load_authority id db = Ok (last, n, prev) ↔
  load_rows id None 0 (sha256_hex NATIVE_PROTOCOL) (au_rows db) = Ok (last, n, prev) ∧ au_tip db = (if (0 <? n)%Z then Some (n, prev) else None).
Proof.
  unfold load_authority. split.
  - intros ([[l m] p] & Hl & Hr)%bind_ok. apply bind_ok in Hr as ([] & Ht & [= -> -> ->]). by case_bool_decide.
  - intros [-> Ht]. cbn [mbind result_bind]. by rewrite bool_decide_eq_true_2.
Qed.

(** The state that an authority keeps. *)
Definition authority_holds (db : Authority) (s : NativeState V) : Prop :=
  ∃ last prev, load_authority id db = Ok (last, Z.of_nat (length (au_rows db)), prev) ∧
    match last with Some s' => s' = s | None => native_new id = Ok s end.

Lemma append_holds db last prev s db' :
  load_authority id db = Ok (last, Z.of_nat (length (au_rows db)), prev) → native_validate s id = Ok tt →
  append_state db (Z.of_nat (length (au_rows db))) prev s = Ok db' → authority_holds db' s.
Proof.
  intros [Hl _]%load_authority_rows Hv. unfold append_state. destruct (_ <? _)%Z; [|done]. intros [= <-].
  exists (Some s), (row_digest prev (Z.of_nat (length (au_rows db)) + 1) (state_text s)). split; [|done]. apply load_authority_rows. cbn [au_rows au_tip].
  rewrite load_rows_app, Hl. cbn [mbind result_bind load_rows]. rewrite !bool_decide_eq_true_2 by done. cbn [negb orb]. rewrite parse_state_text. cbn [ok_or mbind result_bind].
  rewrite Hv, length_app. cbn [mbind result_bind length]. rewrite Nat2Z.inj_add. split; [done|]. by rewrite (proj2 (Z.ltb_lt _ _)) by lia.
Qed.

(** A transaction works on the state that is kept, and keeps what it shows. *)
Lemma transact_holds db s change db' reply :
  authority_holds db s → transact id change db = Ok (db', reply) →
  ∃ s', change s = Ok (s', nr_create reply, nr_decision reply) ∧ authority_holds db' s' ∧ native_read s' = Ok (rs_action (nr_response reply)).
Proof.
  intros (last & prev & Hl & Hs) Ht. unfold transact in Ht. rewrite Hl in Ht. cbn [mbind result_bind] in Ht.
  assert (match last with Some s0 => Ok s0 | None => native_new id end = Ok s) as He by (destruct last; by subst). rewrite He in Ht. cbn [mbind result_bind] in Ht.
  apply bind_ok in Ht as ([[s' create] decision] & Hc & Ht). apply bind_ok in Ht as ([] & Hv & Ht). apply bind_ok in Ht as (db1 & Hdb & Ht).
  apply bind_ok in Ht as (reply1 & Hr & [= -> ->]). apply bind_ok in Hr as (action & Hr & [= <-]). exists s'. split_and!; [done| |done].
  case_bool_decide as Hsame; [|by eapply append_holds]. injection Hdb as ->. subst last. by exists (Some s'), prev.
Qed.

Lemma transact_succeeds db s change s' create decision :
  authority_holds db s → (Z.of_nat (length (au_rows db)) < 9223372036854775807)%Z → change s = Ok (s', create, decision) → native_ok id s' →
  ∃ db' reply, transact id change db = Ok (db', reply).
Proof.
  intros (last & prev & Hl & Hs) Hlen Hc Hok. unfold transact. rewrite Hl. cbn [mbind result_bind].
  assert (match last with Some s0 => Ok s0 | None => native_new id end = Ok s) as -> by (destruct last; by subst). cbn [mbind result_bind]. rewrite Hc. cbn [mbind result_bind].
  rewrite (native_validate_ok _ _ Hok). cbn [mbind result_bind]. unfold native_reply. rewrite (native_read_shown _ _ Hok). cbn [mbind result_bind].
  case_bool_decide; [by eexists _, _|]. unfold append_state. rewrite (proj2 (Z.ltb_lt _ _)) by done. cbn. by eexists _, _.
Qed.

Definition no_authority : Authority := mkAuthority None [].

Lemma native_new_ok : identity_validate id = Ok tt → ∃ s, native_new id = Ok s ∧ native_ok id s ∧ as_owner id s = no_owner ∧ ns_owner s = None.
Proof.
  intros Hv. pose proof Hv as Hi. unfold identity_validate, envelope_dispatch in Hv. apply bind_ok in Hv as (d & Hv & _). apply bind_ok in Hv as ([] & Hv & _).
  unfold native_new. rewrite Hi. unfold bind_controller, bind_with_protocol, receipt_claim, verify_replay. rewrite Hv. cbn [mbind result_bind].
  rewrite Hv. cbn [mbind result_bind]. rewrite (bool_decide_eq_true_2 (id_envelope id = _)) by done.
  cbn [mbind result_bind]. rewrite (bool_decide_eq_false_2 (controller_id id = "")), (bool_decide_eq_false_2 (_ = "")) by done. cbn [orb mbind result_bind].
  rewrite bool_decide_eq_true_2 by done. cbn [mbind result_bind]. eexists. split; [done|]. split; [|done].
  by split.
Qed.

Lemma no_authority_holds s : native_new id = Ok s → authority_holds no_authority s.
Proof. intros Hn. exists None, (sha256_hex NATIVE_PROTOCOL). split; [|done]. by apply load_authority_rows. Qed.
End chain.

(** ** Runs *)

Section runs.
Context {V : Type} `{ExecValue V, Sha256, ExecTextLaws, !NativeText V, !NativeTextLaws V}.
Context (id : Identity V).
Abbreviation c := (controller_id id).
Abbreviation k := (place_key (native_placement id)).

(** The tables, and the receiver that authority_holds the lock while it executes. *)
Record System := mkSystem { sy_db : Authority; sy_running : option string }.

Inductive native_event :=
| NeCommand (reply : NativeReply V)
| NeDelivery (reply : NativeReply V)
| NeResult (reply : NativeReply V)
| NeLost.

(** A finish waits for the lock, and so does a delivery.  The receiver may be lost between
    the two transactions of a delivery, by a crash or a failure of the execution. *)
Inductive native_step : System → native_event → System → Prop :=
| native_command db db' running command reply :
    finishes command = false → authority_apply id command db = Ok (db', reply) →
    native_step (mkSystem db running) (NeCommand reply) (mkSystem db' running)
| native_finish db db' command reply :
    finishes command = true → authority_apply id command db = Ok (db', reply) →
    native_step (mkSystem db None) (NeCommand reply) (mkSystem db' None)
| native_delivery db db' owner container incarnation dispatch reply :
    execute_admit id owner container incarnation dispatch db = Ok (db', reply) →
    native_step (mkSystem db None) (NeDelivery reply) (mkSystem db' (if grants reply then Some incarnation else None))
| native_result db db' incarnation status body reply :
    execute_complete id incarnation status body db = Ok (db', reply) →
    native_step (mkSystem db (Some incarnation)) (NeResult reply) (mkSystem db' None)
| native_lost db incarnation : native_step (mkSystem db (Some incarnation)) NeLost (mkSystem db None).

Inductive native_run : System → list native_event → System → Prop :=
| nrun_nil sys : native_run sys [] sys
| nrun_snoc sys evs sys1 ev sys2 : native_run sys evs sys1 → native_step sys1 ev sys2 → native_run sys (evs ++ [ev]) sys2.

Definition event_reply (ev : native_event) : option (NativeReply V) :=
  match ev with NeCommand r | NeDelivery r | NeResult r => Some r | NeLost => None end.
Definition event_grants (ev : native_event) : bool := match ev with NeDelivery r => grants r | _ => false end.
Definition event_creates (ev : native_event) : bool := match event_reply ev with Some r => nr_create r | None => false end.

(** The system keeps a state; while the receiver runs, its delivery is live. *)
Definition keeps (sys : System) (s : NativeState V) : Prop :=
  authority_holds id (sy_db sys) s ∧ native_ok id s ∧ ∀ i, sy_running sys = Some i → live i (state_of s).

Abbreviation granted evs := (length (filter (λ ev, executes k ev = true) evs)).

Lemma admit_step s i s' action :
  native_ok id s → native_transition s (OpAdmit i) = Ok (s', action) →
  match action with AExecute i' => i' = i ∧ state_of s' = Some (StAdmitted i) | _ => True end ∧
  granted [EvAction k (generation (as_owner id s)) action] = match action with AExecute _ => 1 | _ => 0 end.
Proof.
  intros Hok Ht. destruct (native_transition_step _ _ _ _ _ Hok Ht) as (_ & _ & repl & Hd & Hrec). cbn in Hd. apply bind_ok in Hd as ([] & _ & Hd). split.
  - unfold state_of in *. destruct (ns_controller s) as [r|]; cbn in Hd; [injection Hd as <- <-; by destruct (rec_state r)|].
    apply bind_ok in Hd as (blocked & _ & Hd). destruct blocked; injection Hd as <- <-; [done|]. by rewrite Hrec.
  - cbn. destruct action; cbn; try done. rewrite bool_decide_eq_true_2 by done. done.
Qed.

(** A step of the system: what it does to the state, as a run of the owner. *)
Lemma native_step_spec sys ev sys' s :
  keeps sys s → native_step sys ev sys' →
  ∃ s' evs, keeps sys' s' ∧ owner_run c (as_owner id s) evs (as_owner id s') ∧ granted evs = (if event_grants ev then 1 else 0) ∧
    keeps_owner s s' ∧ (event_creates ev = true → ns_owner s = None ∧ is_Some (ns_owner s')) ∧
    ∀ reply, event_reply ev = Some reply → rs_action (nr_response reply) = shown s'.
Proof.
  intros (Hh & Hok & Hrun) Hstep.
  assert (∀ (s' : NativeState V) reply, native_ok id s' → native_read s' = Ok (rs_action (nr_response reply)) → rs_action (nr_response reply) = shown s') as Hshown.
  { intros s' reply Hok' Hr. rewrite (native_read_shown id _ Hok') in Hr. by injection Hr. }
  destruct Hstep as [db db' running command reply Hf Ha|db db' command reply Hf Ha|db db' owner container i dispatch reply Ha|db db' i status body reply Ha|db i]; cbn in Hrun.
  - destruct (transact_holds _ _ _ _ _ _ Hh Ha) as (s' & Hc & Hh' & Hr). apply bind_ok in Hc as ([s1 create] & Hc & [= -> Hcr Hde]).
    destruct (native_apply_ok _ _ _ _ _ Hok Hc) as (Hok' & Hown & Hcreate & Hlive & evs & Hr' & Hg). exists s', evs. split_and!; try done.
    + split_and!; [done|done|]. intros i Hi. apply Hlive; auto.
    + cbn. by rewrite <- Hcr.
    + intros r [= <-]. by apply Hshown.
  - destruct (transact_holds _ _ _ _ _ _ Hh Ha) as (s' & Hc & Hh' & Hr). apply bind_ok in Hc as ([s1 create] & Hc & [= -> Hcr Hde]).
    destruct (native_apply_ok _ _ _ _ _ Hok Hc) as (Hok' & Hown & Hcreate & Hlive & evs & Hr' & Hg). exists s', evs. split_and!; try done.
    + cbn. by rewrite <- Hcr.
    + intros r [= <-]. by apply Hshown.
  - unfold execute_admit in Ha. apply bind_ok in Ha as (d & _ & Ha). apply bind_ok in Ha as ([] & _ & Ha).
    destruct (transact_holds _ _ _ _ _ _ Hh Ha) as (s' & Hc & Hh' & Hr). apply bind_ok in Hc as ([] & _ & Hc). apply bind_ok in Hc as ([s1 action] & Ht & [= -> Hcr Hde]).
    destruct (native_transition_ok _ _ _ _ _ Hok Ht) as [Hok' _]; [done|]. destruct (native_transition_step _ _ _ _ _ Hok Ht) as (Hs' & Hstep & _).
    destruct (admit_step _ _ _ _ Hok Ht) as [Hadm Hg]. exists s', [EvAction k (generation (as_owner id s)) action]. split_and!.
    + split_and!; [done|done|]. cbn. unfold grants. rewrite <- Hde. intros j Hj. destruct action as [| | |i'| | | |]; try done. injection Hj as <-. left. by destruct Hadm.
    + eapply (run_snoc _ _ []); [constructor|done].
    + rewrite Hg. unfold event_grants, grants. rewrite <- Hde. by destruct action.
    + intros o Ho. by rewrite Hs'.
    + cbn. by rewrite <- Hcr.
    + intros r [= <-]. by apply Hshown.
  - destruct (transact_holds _ _ _ _ _ _ Hh Ha) as (s' & Hc & Hh' & Hr). apply bind_ok in Hc as ([s1 action] & Ht & Hc). apply bind_ok in Hc as (receipt & Hrc & [= <- Hcr Hde]).
    destruct (native_complete_ok _ _ _ _ _ _ _ _ Hok Ht Hrc) as [Hok' _]. destruct (native_transition_step _ _ _ _ _ Hok Ht) as (Hs' & Hstep & repl & Hd & _).
    exists (with_receipt s1 receipt), [EvAction k (generation (as_owner id s)) action]. split_and!.
    + by split_and!.
    + eapply (run_snoc _ _ []); [constructor|]. exact Hstep.
    + cbn in Hd. apply bind_ok in Hd as (st & Hst & [= _ <-]). destruct (complete_state_le _ _ _ _ _ Hst) as (_ & fence & ->). done.
    + intros o Ho. by rewrite Hs'.
    + cbn. by rewrite <- Hcr.
    + intros r [= <-]. by apply Hshown.
  - exists s, []. split_and!; try done; [constructor|by intros ?].
Qed.

(** A run: the owner's run that it is, and what it answered on the way. *)
Lemma native_run_spec sys evs sys' s :
  keeps sys s → native_run sys evs sys' →
  ∃ s' oevs, keeps sys' s' ∧ owner_run c (as_owner id s) oevs (as_owner id s') ∧ granted oevs = length (filter (λ ev, event_grants ev = true) evs) ∧
    ((length (filter (λ ev, event_creates ev = true) evs) ≤ 1)%nat ∧ (0 < length (filter (λ ev, event_creates ev = true) evs) → is_Some (ns_owner s'))%nat) ∧
    ∀ ev reply, ev ∈ evs → event_reply ev = Some reply →
      ∃ s1, rs_action (nr_response reply) = shown s1 ∧ state_le (state_of s) (state_of s1) ∧ state_le (state_of s1) (state_of s').
Proof.
  intros Hk Hrun. induction Hrun as [sys|sys evs sys1 ev sys2 Hrun IH Hstep].
  { exists s, []. split_and!; [done|constructor|done|cbn; lia|cbn; lia|]. by intros ? ? ?%elem_of_nil. }
  destruct (IH Hk) as (s1 & oevs & Hk1 & Hr1 & Hg1 & (Hc1 & Hc1') & Ha1). destruct (native_step_spec _ _ _ _ Hk1 Hstep) as (s2 & oevs2 & Hk2 & Hr2 & Hg2 & Ho & Hc2 & Ha2).
  destruct Hk as (_ & Hok & _). pose proof Hk1 as (_ & Hok1 & _).
  destruct (owner_run_spec _ _ _ _ (nok_as_owner _ _ Hok) Hr1) as (_ & Hm1 & _). destruct (owner_run_spec _ _ _ _ (nok_as_owner _ _ Hok1) Hr2) as (_ & Hm2 & _).
  specialize (Hm1 k). specialize (Hm2 k). rewrite !as_owner_state in Hm1, Hm2.
  exists s2, (oevs ++ oevs2)%list. split_and!; [done|by eapply owner_run_app| | | |].
  - rewrite !filter_app, !length_app, Hg1, Hg2. cbn. destruct (event_grants ev); [by rewrite decide_True|by rewrite decide_False].
  - rewrite filter_app, length_app. cbn. destruct (event_creates ev) eqn:He; [|rewrite decide_False by congruence; cbn; lia]. rewrite decide_True by done. cbn.
    destruct (Hc2 eq_refl) as [Hn _]. destruct (decide (0 < length (filter (λ ev, event_creates ev = true) evs))%nat) as [Hlt|]; [|lia].
    destruct (Hc1' Hlt) as [o Hs]. congruence.
  - rewrite filter_app, length_app. cbn. destruct (event_creates ev) eqn:He; [by intros _; apply Hc2|]. rewrite decide_False by congruence. cbn. rewrite Nat.add_0_r.
    intros Hlt. destruct (Hc1' Hlt) as [o Hs]. exists o. by apply Ho.
  - intros ev' reply [Hin| ->%list_elem_of_singleton]%elem_of_app Hre.
    + destruct (Ha1 _ _ Hin Hre) as (s3 & -> & ? & ?). exists s3. split_and!; [done|done|by etransitivity].
    + exists s2. split_and!; [by apply Ha2|by etransitivity|reflexivity].
Qed.

Definition no_system : System := mkSystem no_authority None.

Lemma no_system_keeps : identity_validate id = Ok tt → ∃ s, keeps no_system s ∧ as_owner id s = no_owner ∧ state_of s = None.
Proof.
  intros Hv. destruct (native_new_ok id Hv) as (s & Hn & Hok & Hao & _). exists s. split_and!; [|done|].
  - split_and!; [by apply no_authority_holds|done|done].
  - by rewrite <- (as_owner_state id), Hao.
Qed.

Lemma shown_result (s : NativeState V) status body : result_of (state_of s) = Some (status, body) → ∃ t, shown s = AReplay status body t.
Proof. unfold shown. destruct (state_of s) as [[]|]; try done. cbn. intros [= -> ->]. eauto. Qed.
End runs.

(** C18: the native controller implements the owner for its one placement.  Every run of the
    authority, with any interleaving of commands, deliveries, losses of the receiver and
    results, is a run of the owner to the state that the authority's verified history ends
    in; the owner's executions are the deliveries that were granted. *)
Theorem native_refines_owner {V} `{ExecValue V, Sha256, ExecTextLaws, !NativeText V, !NativeTextLaws V} (id : Identity V) evs sys :
  identity_validate id = Ok tt → native_run id no_system evs sys →
  ∃ s oevs, authority_holds id (sy_db sys) s ∧ native_validate s id = Ok tt ∧ owner_run (controller_id id) no_owner oevs (as_owner id s) ∧
    length (filter (λ ev, executes (place_key (native_placement id)) ev = true) oevs) = length (filter (λ ev, event_grants ev = true) evs).
Proof.
  intros Hv Hrun. destruct (no_system_keeps id Hv) as (s0 & Hk & Hao & _). destruct (native_run_spec id _ _ _ _ Hk Hrun) as (s & oevs & (Hh & Hok & _) & Hr & Hg & _).
  rewrite Hao in Hr. exists s, oevs. split_and!; [done|by apply native_validate_ok|done|done].
Qed.

(** C14: over every run from an empty authority, with crashes of the receiver at any point,
    at most one delivery is executed and at most one claim is told to create the container;
    and once an answer said that the invocation was not admitted, no delivery of the run is
    ever executed, before or after. *)
Theorem native_executed_once {V} `{ExecValue V, Sha256, ExecTextLaws, !NativeText V, !NativeTextLaws V} (id : Identity V) evs sys :
  identity_validate id = Ok tt → native_run id no_system evs sys →
  (length (filter (λ ev, event_grants ev = true) evs) ≤ 1)%nat ∧
  (length (filter (λ ev, event_creates ev = true) evs) ≤ 1)%nat ∧
  (∀ ev reply f, ev ∈ evs → event_reply ev = Some reply → rs_action (nr_response reply) = ANotAdmitted f → ∀ ev', ev' ∈ evs → event_grants ev' = false).
Proof.
  intros Hv Hrun. destruct (no_system_keeps id Hv) as (s0 & Hk & Hao & _). destruct (native_run_spec id _ _ _ _ Hk Hrun) as (s & oevs & _ & Hr & Hg & (Hc & _) & Ha).
  rewrite Hao in Hr. pose proof (run_executions (controller_id id) _ _ (place_key (native_placement id)) ltac:(done) Hr) as Hx. rewrite Hg, as_owner_state in Hx.
  split_and!; [rewrite Hx; destruct (has_run _); lia|done|]. intros ev reply f Hin Hre Hact ev' Hin'. destruct (Ha _ _ Hin Hre) as (s1 & Hsh & _ & Hle). rewrite Hact in Hsh.
  unfold shown in Hsh. destruct (state_of s1) as [[]|]; try done. injection Hsh as <-. cbn in Hle. destruct (state_of s) as [st|]; [|done]. subst st.
  cbn in Hx. apply length_zero_iff_nil in Hx. destruct (event_grants ev') eqn:He; [|done].
  assert (ev' ∈ filter (λ ev, event_grants ev = true) evs) as Hf by by apply list_elem_of_filter. rewrite Hx in Hf. by apply elem_of_nil in Hf.
Qed.

(** C15: a result that the receiver has is kept.  Whenever the receiver authority_holds the lock after a
    granted delivery, whatever fences came meanwhile, the transaction with its result
    succeeds (unless the history has used up its numbers), answers with that result, and
    every answer of every later run gives the same result. *)
Theorem native_result_kept {V} `{ExecValue V, Sha256, ExecTextLaws, !NativeText V, !NativeTextLaws V} (id : Identity V) evs db incarnation status body :
  identity_validate id = Ok tt → native_run id no_system evs (mkSystem db (Some incarnation)) → (Z.of_nat (length (au_rows db)) < 9223372036854775807)%Z →
  ∃ db' reply, execute_complete id incarnation status body db = Ok (db', reply) ∧ rs_action (nr_response reply) = AReplay status body None ∧
    ∀ evs' sys', native_run id (mkSystem db' None) evs' sys' →
      ∀ ev reply', ev ∈ evs' → event_reply ev = Some reply' → ∃ t, rs_action (nr_response reply') = AReplay status body t.
Proof.
  intros Hv Hrun Hlen. destruct (no_system_keeps id Hv) as (s0 & Hk & _). destruct (native_run_spec id _ _ _ _ Hk Hrun) as (s & oevs & (Hh & Hok & Hl) & _).
  specialize (Hl incarnation eq_refl). destruct (complete_live incarnation status body _ Hl) as (fence & Hcs & Hfence).
  destruct (native_transition_decides id s (OpComplete incarnation status body) (Some (Completed incarnation status body fence)) (state_read (Completed incarnation status body fence)))
    as [s1 Ht]; [done|cbn; by rewrite Hcs|].
  destruct (native_transition_step _ _ _ _ _ Hok Ht) as (Hs1 & _ & repl & Hd & Hrec). cbn in Hd. rewrite Hcs in Hd. injection Hd as <-.
  assert (state_of s1 = Some (Completed incarnation status body fence)) as Hst by (unfold state_of; by rewrite Hrec).
  assert (receipt_complete (ns_receipt s1) (id_envelope id) (id_selected id) status body = Ok (RCompleted (id_envelope id) status body)) as Hrc.
  { rewrite Hs1. cbn. apply (receipt_complete_same id s); [done|by apply receipt_of|]. pose proof (nok_receipt _ _ Hok) as Hm. unfold receipt_matches in Hm.
    destruct (ns_receipt s); [done|]. destruct Hm as [_ Hm]. by destruct Hl as [Hl|[f Hl]]; rewrite Hl in Hm. }
  destruct (native_complete_ok _ _ _ _ _ _ _ _ Hok Ht Hrc) as [Hok1 Hres].
  destruct (transact_succeeds id db s (λ s, '(s, _) ← native_transition s (OpComplete incarnation status body);
    receipt ← receipt_complete (ns_receipt s) (id_envelope id) (id_selected id) status body; Ok (with_receipt s receipt, false, None))
    (with_receipt s1 (RCompleted (id_envelope id) status body)) false None) as (db' & reply & Hex); [done|done|rewrite Ht; cbn [mbind result_bind]; by rewrite Hrc|done|].
  exists db', reply. split; [exact Hex|]. destruct (transact_holds id _ _ _ _ _ Hh Hex) as (s2 & Hc & Hh2 & Hread). rewrite Ht in Hc. cbn [mbind result_bind] in Hc.
  rewrite Hrc in Hc. injection Hc as <- _ _. rewrite (native_read_shown id _ Hok1) in Hread. injection Hread as <-. split.
  - unfold shown. change (state_of (with_receipt s1 _)) with (state_of s1). rewrite Hst. cbn. destruct fence as [[f|f b]|]; [done|by destruct (Hfence f b)|done].
  - intros evs' sys' Hrun' ev reply' Hin Hre.
    destruct (native_run_spec id (mkSystem db' None) evs' sys' (with_receipt s1 (RCompleted (id_envelope id) status body))) as (s3 & _ & _ & _ & _ & _ & Ha); [by split_and!|done|].
    destruct (Ha _ _ Hin Hre) as (s4 & -> & Hle & _). apply shown_result. eapply result_of_le; [exact Hle|done].
Qed.

(** ** A run of a sample *)

Section drive_native.
Context {V : Type} `{ExecValue V, Sha256, ExecTextLaws, !NativeText V, !NativeTextLaws V}.
Context (id : Identity V).

Inductive native_op :=
| DoCommand (command : NativeCommand)
| DoDeliver (owner container incarnation : string) (dispatch : V)
| DoResult (status : Z) (body : V)
| DoLose.

(** What is refused, or waits for the lock, changes nothing. *)
Definition native_drive_op (run : list (native_event (V := V)) * System) (op : native_op) : list (native_event (V := V)) * System :=
  let '(evs, mkSystem db running) := run in
  match op, running with
  | DoCommand command, _ =>
      if finishes command && bool_decide (is_Some running) then run else
      match authority_apply id command db with Ok (db', reply) => ((evs ++ [NeCommand reply])%list, mkSystem db' running) | Err _ => run end
  | DoDeliver owner container i dispatch, None =>
      match execute_admit id owner container i dispatch db with
      | Ok (db', reply) => ((evs ++ [NeDelivery reply])%list, mkSystem db' (if grants reply then Some i else None)) | Err _ => run end
  | DoResult status body, Some i =>
      match execute_complete id i status body db with Ok (db', reply) => ((evs ++ [NeResult reply])%list, mkSystem db' None) | Err _ => run end
  | DoLose, Some i => ((evs ++ [NeLost])%list, mkSystem db None)
  | _, _ => run
  end.
Definition native_drive (ops : list native_op) := foldl native_drive_op ([], no_system) ops.

Lemma native_drive_run ops : native_run id no_system (native_drive ops).1 (native_drive ops).2.
Proof.
  unfold native_drive.
  assert (∀ run, native_run id no_system run.1 run.2 → native_run id no_system (foldl native_drive_op run ops).1 (foldl native_drive_op run ops).2) as Hd; [|apply Hd; constructor].
  induction ops as [|op ops IH]; intros run Hrun; [done|]. cbn [foldl]. apply IH. destruct run as [evs [db running]]. cbn in Hrun. destruct op as [command|o ct i d|status body|], running as [j|]; cbn; try done.
  - destruct (finishes command) eqn:Hf; [done|]. cbn. destruct (authority_apply _ _ _) as [[db' reply]|] eqn:Ha; [|done].
    eapply nrun_snoc; [done|]. by eapply native_command.
  - rewrite andb_false_r. destruct (authority_apply _ _ _) as [[db' reply]|] eqn:Ha; [|done]. eapply nrun_snoc; [done|].
    destruct (finishes command) eqn:Hf; [by eapply native_finish|by eapply native_command].
  - destruct (execute_admit _ _ _ _ _ _) as [[db' reply]|] eqn:Ha; [|done]. eapply nrun_snoc; [done|]. by eapply native_delivery.
  - destruct (execute_complete _ _ _ _ _) as [[db' reply]|] eqn:Ha; [|done]. eapply nrun_snoc; [done|]. by eapply native_result.
  - eapply nrun_snoc; [done|]. apply native_lost.
Qed.
End drive_native.

Module NativeSamples.
Import ExecSamples.
Abbreviation Val := (list (string * string)).
(** A column that keeps its states as they are. *)
#[export] Instance plain_native : NativeText Val := {|
  payload := NativeState Val;
  state_text s := s;
  parse_state s := Some s;
  row_text p previous n s := p +:+ "|" +:+ previous +:+ "|" +:+ pretty n;
|}.
#[export] Instance plain_native_laws : NativeTextLaws Val.
Proof. intros s. reflexivity. Defined.

Definition native_id : Identity Val := mkIdentity (invocation "e") (envelope "e").
Definition native_owner : NativeOwner :=
  mkNativeOwner NATIVE_OWNER_PROTOCOL "i" "e" (invocation_run_id (invocation "e")) "track" "daemon" "image" "me".
Definition native_container : string := String.concat "" (repeat "b" 64).
Definition native_dispatch : Val := [("protocol", EXECUTOR_PROTOCOL); ("effect_id", "e")].

(** The owner is claimed and bound, a delivery is granted, and a fence comes while the
    receiver runs; a second claim and a second delivery change nothing. *)
Definition native_ops : list (native_op (V := Val)) :=
  [DoCommand (NcClaim native_owner); DoCommand (NcClaim native_owner); DoCommand (NcBind native_owner native_container);
   DoDeliver "me" native_container "m1" native_dispatch; DoCommand (NcFence "f"); DoDeliver "me" native_container "m2" native_dispatch].
Definition native_sample := native_drive native_id native_ops.
Lemma native_id_valid : identity_validate native_id = Ok tt.
Proof. vm_compute. reflexivity. Defined.
End NativeSamples.
Import ExecSamples NativeSamples.

Lemma native_refines_owner_witness :
  length (filter (λ ev, event_grants ev = true) native_sample.1) = 1 ∧ ∃ s, authority_holds native_id (sy_db native_sample.2) s ∧ native_validate s native_id = Ok tt.
Proof.
  split; [vm_compute; reflexivity|].
  destruct (native_refines_owner native_id native_sample.1 native_sample.2 native_id_valid (native_drive_run native_id native_ops)) as (s & oevs & Hh & Hv & _).
  exact (ex_intro _ s (conj Hh Hv)).
Defined.

Lemma native_executed_once_witness :
  length (filter (λ ev, event_grants ev = true) native_sample.1) = 1 ∧ length (filter (λ ev, event_creates ev = true) native_sample.1) = 1 ∧
  (length (filter (λ ev, event_grants ev = true) native_sample.1) ≤ 1)%nat.
Proof.
  split; [vm_compute; reflexivity|]. split; [vm_compute; reflexivity|].
  exact (proj1 (native_executed_once native_id native_sample.1 native_sample.2 native_id_valid (native_drive_run native_id native_ops))).
Defined.

Lemma native_result_kept_witness :
  sy_running native_sample.2 = Some "m1" ∧
  ∃ db' reply, execute_complete native_id "m1" 200 [("out", "ok")] (sy_db native_sample.2) = Ok (db', reply) ∧ rs_action (nr_response reply) = AReplay 200 [("out", "ok")] None.
Proof.
  split; [vm_compute; reflexivity|].
  assert (native_run native_id no_system native_sample.1 (mkSystem (sy_db native_sample.2) (Some "m1"))) as Hrun.
  { refine (eq_rect native_sample.2 (native_run native_id no_system native_sample.1) (native_drive_run native_id native_ops) _ _). vm_compute. reflexivity. }
  assert (Z.of_nat (length (au_rows (sy_db native_sample.2))) < 9223372036854775807)%Z as Hlen by (vm_compute; reflexivity).
  destruct (native_result_kept native_id native_sample.1 (sy_db native_sample.2) "m1" 200 [("out", "ok")] native_id_valid Hrun Hlen)
    as (db' & reply & He & Hr & _).
  exact (ex_intro _ db' (ex_intro _ reply (conj He Hr))).
Defined.
