(* ===== verification/EffectRecovery.v ===== *)
(** Durable knowledge of an external operation (store/effect_recovery.rs): the fold of
    an instance's log into the attempts of one effect, what is known of each attempt at
    its target, and the guard that a new dispatch has to pass.  An event is its source
    and the part of its payload that the fold reads. *)
From S2P Require Import Prelude.
Local Open Scope string_scope.

(** ** Data *)

Inductive ExternalDisposition := NotDispatched | Unknown | Applied | NotApplied.

Inductive RecoveryCeiling := RepeatableRead | Transactional | Deduplicated | Reconcilable | Unverifiable.

(** host_actions.rs: the pin of the command that an instance was admitted under. *)
Record ActionAdmissionBinding := mkAdmissionBinding {
  ab_fingerprint : string;
  ab_sequence : Z;
  ab_head_digest : string;
}.

Record DispatchFrame := mkFrame {
  fr_protocol : string;
  fr_instance : string;
  fr_effect : string;
  fr_run : string;
  fr_key : string;
  fr_kind : string;
  fr_target : option string;
  fr_provider : string;
  fr_input_fingerprint : string;
  fr_execution_fingerprint : string;
  fr_admission : option ActionAdmissionBinding;
}.

Record DispatchMarker := mkMarker { mk_frame : DispatchFrame; mk_ceiling : RecoveryCeiling }.

Inductive EvidenceDisposition := EvidenceApplied | EvidenceNotApplied.

Record DispositionEvidence := mkEvidence {
  ev_frame : DispatchFrame;
  ev_disposition : EvidenceDisposition;
  ev_ref : string;
  ev_digest : string;
  ev_authority : string;
}.

Record AttemptDisposition := mkAttempt {
  at_run : string;
  at_dispatch : option DispatchMarker;
  at_terminal_status : option string;
  at_disposition : ExternalDisposition;
  at_evidence : list DispositionEvidence;
  at_disputed : bool;
  at_observed : bool;
}.

#[export] Instance disposition_eq_dec : EqDecision ExternalDisposition.
Proof. solve_decision. Defined.
#[export] Instance ceiling_eq_dec : EqDecision RecoveryCeiling.
Proof. solve_decision. Defined.
#[export] Instance admission_binding_eq_dec : EqDecision ActionAdmissionBinding.
Proof. solve_decision. Defined.
#[export] Instance frame_eq_dec : EqDecision DispatchFrame.
Proof. solve_decision. Defined.
#[export] Instance marker_eq_dec : EqDecision DispatchMarker.
Proof. solve_decision. Defined.
#[export] Instance evidence_disposition_eq_dec : EqDecision EvidenceDisposition.
Proof. solve_decision. Defined.
#[export] Instance evidence_eq_dec : EqDecision DispositionEvidence.
Proof. solve_decision. Defined.
#[export] Instance attempt_eq_dec : EqDecision AttemptDisposition.
Proof. solve_decision. Defined.

Definition EFFECT_RECOVERY_PROTOCOL : string := "whipplescript.effect-recovery.v1".

(** [From<EvidenceDisposition> for ExternalDisposition]. *)
Definition external_of (d : EvidenceDisposition) : ExternalDisposition :=
  match d with EvidenceApplied => Applied | EvidenceNotApplied => NotApplied end.

(** The events the fold reads; a JSON field that is absent or not a string is [None],
    [Unreadable] is text that is not JSON, or evidence that is not the record its type
    names, and [Malformed] a start or a proof whose record does not decode. *)
Inductive recovery_event :=
| RunStarted (effect_id run_id : option string) (dispatch : option DispatchMarker)
| EffectTerminal (effect_id run_id status : option string)
| LeaseExpired (effect_id run_id : option string)
| DispositionRecorded (evidence : DispositionEvidence)
| SettlementRetained (effect_id run_id executor_state : option string)
| FenceProved (effect_id run_id : string) (not_admitted : bool)
| Malformed (effect_id : option string)
| Unreadable
| OtherEvent.

Inductive recovery_error := RecoveryConflict (message : string) | RecoveryJson.

#[export] Instance recovery_error_eq_dec : EqDecision recovery_error.
Proof. solve_decision. Defined.

Section fold.
Context (instance_id effect_id : string).

(** [unverified_dispatch_marker], over the digests of the input and of the execution. *)
Definition unverified_dispatch_marker (run_id key kind : string) (target : option string)
    (provider input_fingerprint execution_fingerprint : string) : DispatchMarker :=
  mkMarker (mkFrame EFFECT_RECOVERY_PROTOCOL instance_id effect_id run_id key kind target provider
              input_fingerprint execution_fingerprint None) Unverifiable.

(** [iter_mut().find(...)] followed by a write: the first attempt of that run. *)
Fixpoint update_attempt (run : string) (f : AttemptDisposition → AttemptDisposition)
    (l : list AttemptDisposition) : list AttemptDisposition :=
  match l with
  | [] => []
  | a :: l => if bool_decide (at_run a = run) then f a :: l else a :: update_attempt run f l
  end.

Definition find_attempt (run : string) (l : list AttemptDisposition) : option AttemptDisposition :=
  snd <$> list_find (λ a, at_run a = run) l.

(** Knowledge of the target: the first statement sets it, a different one disputes it. *)
Definition learn (outcome : ExternalDisposition) (a : AttemptDisposition) : AttemptDisposition :=
  if bool_decide (at_disposition a = Unknown)
  then mkAttempt (at_run a) (at_dispatch a) (at_terminal_status a) outcome (at_evidence a) (at_disputed a) (at_observed a)
  else if bool_decide (at_disposition a = outcome) then a
  else mkAttempt (at_run a) (at_dispatch a) (at_terminal_status a) (at_disposition a) (at_evidence a) true (at_observed a).

Definition push_evidence (e : DispositionEvidence) (a : AttemptDisposition) : AttemptDisposition :=
  mkAttempt (at_run a) (at_dispatch a) (at_terminal_status a) (at_disposition a) (at_evidence a ++ [e])%list
    (at_disputed a) (at_observed a).

Definition add_evidence (e : DispositionEvidence) (a : AttemptDisposition) : AttemptDisposition :=
  if bool_decide (e ∈ at_evidence a) then a
  else push_evidence e (learn (external_of (ev_disposition e)) a).

Definition observe (a : AttemptDisposition) : AttemptDisposition :=
  mkAttempt (at_run a) (at_dispatch a) (at_terminal_status a) (at_disposition a) (at_evidence a) (at_disputed a) true.

Definition set_terminal (s : option string) (a : AttemptDisposition) : AttemptDisposition :=
  mkAttempt (at_run a) (at_dispatch a) s (at_disposition a) (at_evidence a) (at_disputed a) (at_observed a).

Definition fresh_attempt (run : string) (dispatch : option DispatchMarker) (status : option string) : AttemptDisposition :=
  mkAttempt run dispatch status Unknown [] false false.

(** The guard of [effect.run_started]. *)
Definition dispatch_mismatch (run : string) (d : DispatchMarker) : bool :=
  negb (bool_decide (fr_protocol (mk_frame d) = EFFECT_RECOVERY_PROTOCOL)
        && bool_decide (fr_instance (mk_frame d) = instance_id)
        && bool_decide (fr_effect (mk_frame d) = effect_id)
        && bool_decide (fr_run (mk_frame d) = run)).

Definition start_attempt (run : string) (dispatch : option DispatchMarker) (attempts : list AttemptDisposition)
    : result recovery_error (list AttemptDisposition) :=
  if bool_decide (run = "") || from_option (dispatch_mismatch run) false dispatch
     || bool_decide (is_Some (find_attempt run attempts))
  then Err (RecoveryConflict "invalid or duplicate external dispatch identity")
  else Ok (attempts ++ [fresh_attempt run dispatch None])%list.

Definition end_attempt (run : string) (status : option string) (attempts : list AttemptDisposition)
    : list AttemptDisposition :=
  match find_attempt run attempts with
  | Some _ => update_attempt run (set_terminal status) attempts
  | None => (attempts ++ [fresh_attempt run None status])%list
  end.

Definition record_evidence (e : DispositionEvidence) (attempts : list AttemptDisposition)
    : result recovery_error (list AttemptDisposition) :=
  match find_attempt (fr_run (ev_frame e)) attempts with
  | Some a =>
      if bool_decide (mk_frame <$> at_dispatch a = Some (ev_frame e))
      then Ok (update_attempt (fr_run (ev_frame e)) (add_evidence e) attempts)
      else Err (RecoveryConflict "external evidence does not bind a recorded dispatch")
  | None => Err (RecoveryConflict "external evidence does not bind a recorded dispatch")
  end.

Definition run_or_empty (run : option string) : string := default "" run.

(** One iteration of the loop of [fold_attempts]. *)
Definition fold_event (attempts : list AttemptDisposition) (event : string * recovery_event)
    : result recovery_error (list AttemptDisposition) :=
  let '(source, payload) := event in
  if negb (bool_decide (source = "kernel")) then Ok attempts
  else match payload with
  | OtherEvent => Ok attempts
  | Unreadable => Err RecoveryJson
  | Malformed e => if bool_decide (e = Some effect_id) then Err RecoveryJson else Ok attempts
  | DispositionRecorded e =>
      if bool_decide (fr_effect (ev_frame e) = effect_id) then record_evidence e attempts else Ok attempts
  | SettlementRetained e run state =>
      if bool_decide (e = Some effect_id) && negb (bool_decide (state = Some "uncertain"))
      then Ok (update_attempt (run_or_empty run) observe attempts) else Ok attempts
  | FenceProved e run not_admitted =>
      if bool_decide (e = effect_id) && not_admitted
      then Ok (update_attempt run (learn NotDispatched) attempts) else Ok attempts
  | RunStarted e run dispatch =>
      if bool_decide (e = Some effect_id) then start_attempt (run_or_empty run) dispatch attempts else Ok attempts
  | EffectTerminal e run status =>
      if bool_decide (e = Some effect_id) then Ok (end_attempt (run_or_empty run) status attempts) else Ok attempts
  | LeaseExpired e run =>
      if bool_decide (e = Some effect_id) then Ok (end_attempt (run_or_empty run) (Some "lease_expired") attempts) else Ok attempts
  end.

Fixpoint fold_events (attempts : list AttemptDisposition) (events : list (string * recovery_event))
    : result recovery_error (list AttemptDisposition) :=
  match events with
  | [] => Ok attempts
  | event :: events => attempts' ← fold_event attempts event; fold_events attempts' events
  end.

(** [fold_attempts]. *)
Definition fold_attempts (events : list (string * recovery_event))
    : result recovery_error (list AttemptDisposition) := fold_events [] events.

End fold.

(** [require_proved_absence]: the attempts that stand in the way. *)
Definition unproved (a : AttemptDisposition) : bool :=
  if at_disputed a then true
  else match at_disposition a with
  | NotApplied | NotDispatched => false
  | d => negb (bool_decide (d = Unknown)) || negb (at_observed a)
  end.

Definition require_proved_absence (attempts : list AttemptDisposition) : result recovery_error unit :=
  if existsb unproved attempts
  then Err (RecoveryConflict "external outcome does not prove safe resubmission")
  else Ok tt.

(** ** Specification

    What a log says about one run, without the attempts: the statements of the target's
    fate, whether the executor's own answer was retained, and the events that make the
    run a recorded attempt. *)

Section spec.
Context (instance_id effect_id : string).

Definition kernel_payload (event : string * recovery_event) : option recovery_event :=
  if bool_decide (event.1 = "kernel") then Some event.2 else None.

Definition statement_of (run : string) (event : string * recovery_event) : option ExternalDisposition :=
  match kernel_payload event with
  | Some (DispositionRecorded e) =>
      if bool_decide (fr_effect (ev_frame e) = effect_id) && bool_decide (fr_run (ev_frame e) = run)
      then Some (external_of (ev_disposition e)) else None
  | Some (FenceProved e r true) =>
      if bool_decide (e = effect_id) && bool_decide (r = run) then Some NotDispatched else None
  | _ => None
  end.

Definition statements (run : string) (events : list (string * recovery_event)) : list ExternalDisposition :=
  omap (statement_of run) events.

Definition answers (run : string) (event : string * recovery_event) : bool :=
  match kernel_payload event with
  | Some (SettlementRetained e r state) =>
      bool_decide (e = Some effect_id) && bool_decide (run_or_empty r = run)
      && negb (bool_decide (state = Some "uncertain"))
  | _ => false
  end.

(** The run an event puts on record as an attempt of the effect. *)
Definition mentioned_run (event : string * recovery_event) : option string :=
  match kernel_payload event with
  | Some (RunStarted e r _) | Some (EffectTerminal e r _) | Some (LeaseExpired e r) =>
      if bool_decide (e = Some effect_id) then Some (run_or_empty r) else None
  | _ => None
  end.

(** What follows an attempt clears it: the target's fate is stated, without
    contradiction, as not applied, or nothing is stated and the executor answered. *)
Definition cleared (run : string) (post : list (string * recovery_event)) : Prop :=
  match statements run post with
  | [] => ∃ event, event ∈ post ∧ answers run event = true
  | d :: ds => d ≠ Applied ∧ Forall (eq d) ds
  end.

(** The effect of one event on the attempt of one run. *)
Definition change_attempt (run : string) (a : AttemptDisposition) (event : string * recovery_event) : AttemptDisposition :=
  match kernel_payload event with
  | Some (DispositionRecorded e) =>
      if bool_decide (fr_effect (ev_frame e) = effect_id) && bool_decide (fr_run (ev_frame e) = run)
      then add_evidence e a else a
  | Some (FenceProved e r true) =>
      if bool_decide (e = effect_id) && bool_decide (r = run) then learn NotDispatched a else a
  | Some (SettlementRetained _ _ _) => if answers run event then observe a else a
  | Some (EffectTerminal e r status) =>
      if bool_decide (e = Some effect_id) && bool_decide (run_or_empty r = run) then set_terminal status a else a
  | Some (LeaseExpired e r) =>
      if bool_decide (e = Some effect_id) && bool_decide (run_or_empty r = run)
      then set_terminal (Some "lease_expired") a else a
  | _ => a
  end.

Definition open_attempt (run : string) (event : string * recovery_event) : option AttemptDisposition :=
  if bool_decide (mentioned_run event = Some run)
  then match event.2 with
       | RunStarted _ _ dispatch => Some (fresh_attempt run dispatch None)
       | EffectTerminal _ _ status => Some (fresh_attempt run None status)
       | _ => Some (fresh_attempt run None (Some "lease_expired"))
       end
  else None.

Definition step_attempt (run : string) (o : option AttemptDisposition) (event : string * recovery_event)
    : option AttemptDisposition :=
  match o with Some a => Some (change_attempt run a event) | None => open_attempt run event end.

(** *** Attempts of a list *)

Lemma find_attempt_cons run a l :
  find_attempt run (a :: l) = if bool_decide (at_run a = run) then Some a else find_attempt run l.
Proof.
  unfold find_attempt. simpl. case_bool_decide; [by rewrite decide_True|].
  rewrite decide_False by done. by destruct (list_find _ l) as [[]|].
Qed.

Lemma find_attempt_app run l a :
  find_attempt run (l ++ [a]) = match find_attempt run l with
    | Some b => Some b | None => if bool_decide (at_run a = run) then Some a else None end.
Proof.
  induction l as [|b l IH]; simpl; [by rewrite find_attempt_cons|].
  rewrite !find_attempt_cons, IH. by destruct (bool_decide (at_run b = run)).
Qed.

Lemma find_attempt_update run run' f l :
  (∀ a, at_run (f a) = at_run a) →
  find_attempt run (update_attempt run' f l)
  = if bool_decide (run' = run) then f <$> find_attempt run l else find_attempt run l.
Proof.
  intros Hf. induction l as [|a l IH]; simpl; [by case_bool_decide|].
  repeat case_bool_decide; subst; rewrite !find_attempt_cons, ?Hf;
    repeat case_bool_decide; subst; simpl in *; congruence.
Qed.

Lemma find_attempt_run run l a : find_attempt run l = Some a → at_run a = run ∧ a ∈ l.
Proof.
  induction l as [|b l IH]; [done|]. rewrite find_attempt_cons, elem_of_cons. case_bool_decide.
  - intros [= ->]. auto.
  - intros [? ?]%IH. auto.
Qed.

Lemma learn_run d a : at_run (learn d a) = at_run a.
Proof. unfold learn. by repeat case_bool_decide. Qed.

Lemma add_evidence_run e a : at_run (add_evidence e a) = at_run a.
Proof. unfold add_evidence, push_evidence. case_bool_decide; [done|]. apply learn_run. Qed.

(** The attempts are of different runs. *)
Lemma find_attempt_None run l : find_attempt run l = None ↔ run ∉ at_run <$> l.
Proof.
  induction l as [|a l IH]; simpl; [split; [intros _ ?%elem_of_nil|]; done|].
  rewrite find_attempt_cons, not_elem_of_cons, <- IH. case_bool_decide; naive_solver.
Qed.

Lemma find_attempt_distinct l a :
  NoDup (at_run <$> l) → a ∈ l → find_attempt (at_run a) l = Some a.
Proof.
  induction l as [|b l IH]; simpl; [by intros _ ?%elem_of_nil|].
  intros [Hb Hl]%NoDup_cons [->|Ha]%elem_of_cons; rewrite find_attempt_cons; [by rewrite bool_decide_eq_true_2|].
  rewrite bool_decide_eq_false_2; [by apply IH|]. intros Heq. apply Hb. rewrite Heq. by apply list_elem_of_fmap_2.
Qed.

Lemma update_runs run f l :
  (∀ a, at_run (f a) = at_run a) → at_run <$> update_attempt run f l = at_run <$> l.
Proof.
  intros Hf. induction l as [|a l IH]; csimpl; [done|]. case_bool_decide; csimpl; by rewrite ?Hf, ?IH.
Qed.

Lemma snoc_runs l a :
  NoDup (at_run <$> l) → find_attempt (at_run a) l = None → NoDup (at_run <$> (l ++ [a])%list).
Proof.
  intros Hl Hn%find_attempt_None. rewrite fmap_app. apply NoDup_app. split_and!; [done| |apply NoDup_singleton].
  intros x Hx ->%list_elem_of_singleton. done.
Qed.

(** *** One step *)

Create Rewrite HintDb attempts.
Hint Rewrite learn_run add_evidence_run : attempts.

Lemma fold_event_runs l event l' :
  NoDup (at_run <$> l) → fold_event instance_id effect_id l event = Ok l' → NoDup (at_run <$> l').
Proof.
  intros Hl. unfold fold_event, start_attempt, end_attempt, record_evidence. destruct event as [source payload].
  repeat (case_match; simplify_eq/=; try done); intros [= <-]; try done;
    try (rewrite update_runs by (intros; autorewrite with attempts; done); done).
  - apply snoc_runs; [done|]. simpl. apply eq_None_not_Some.
    repeat match goal with H : (_ || _) = false |- _ => apply orb_false_iff in H as [? ?] end.
    by case_bool_decide.
  - by apply snoc_runs.
  - by apply snoc_runs.
Qed.

(** The fold seen from one run. *)
Lemma find_fold_event run l event l' :
  fold_event instance_id effect_id l event = Ok l' →
  find_attempt run l' = step_attempt run (find_attempt run l) event.
Proof.
  unfold fold_event, start_attempt, end_attempt, record_evidence, step_attempt, change_attempt,
    open_attempt, mentioned_run, answers, kernel_payload.
  destruct event as [source payload]. simpl.
  case_bool_decide; simpl; [|intros [= <-]; by destruct (find_attempt run l)].
  destruct payload; simpl; repeat (case_match; simplify_eq/=; try done); intros [= <-];
    rewrite ?find_attempt_update, ?find_attempt_app by (intros; autorewrite with attempts; done);
    repeat (case_bool_decide || case_match); simplify_eq/=; try done;
    by match goal with H : find_attempt _ _ = _ |- _ => rewrite H end.
Qed.

Lemma fold_events_app l events1 events2 :
  fold_events instance_id effect_id l (events1 ++ events2)
  = (l' ← fold_events instance_id effect_id l events1; fold_events instance_id effect_id l' events2).
Proof.
  revert l. induction events1 as [|event events1 IH]; intros l; simpl; [done|].
  by destruct (fold_event _ _ l event); simpl.
Qed.

Lemma fold_events_runs l events l' :
  NoDup (at_run <$> l) → fold_events instance_id effect_id l events = Ok l' → NoDup (at_run <$> l').
Proof.
  revert l. induction events as [|event events IH]; intros l Hl; simpl; [by intros [= <-]|].
  intros (l1 & H1 & H2)%bind_ok. eauto using fold_event_runs.
Qed.

Lemma find_fold_events run l events l' :
  fold_events instance_id effect_id l events = Ok l' →
  find_attempt run l' = foldl (step_attempt run) (find_attempt run l) events.
Proof.
  revert l. induction events as [|event events IH]; intros l; simpl; [by intros [= <-]|].
  intros (l1 & H1 & H2)%bind_ok. rewrite (IH _ H2). by rewrite (find_fold_event _ _ _ _ H1).
Qed.

Lemma step_attempt_some run a events :
  foldl (step_attempt run) (Some a) events = Some (foldl (change_attempt run) a events).
Proof. revert a. induction events as [|event events IH]; intros a; simpl; [done|]. apply IH. Qed.

Lemma open_mentioned run event a :
  open_attempt run event = Some a →
  mentioned_run event = Some run ∧ at_disposition a = Unknown ∧ at_evidence a = [] ∧
  at_disputed a = false ∧ at_observed a = false ∧ at_run a = run.
Proof. unfold open_attempt. case_bool_decide; [|done]. destruct event.2; intros [= <-]; done. Qed.

Lemma open_none run event : mentioned_run event ≠ Some run → open_attempt run event = None.
Proof. unfold open_attempt. intros. by rewrite bool_decide_eq_false_2. Qed.

(** An attempt is on record from the first event that mentions its run. *)
Lemma steps_from_none run events a :
  foldl (step_attempt run) None events = Some a →
  ∃ pre event post opened, events = (pre ++ event :: post)%list ∧ open_attempt run event = Some opened ∧
    a = foldl (change_attempt run) opened post ∧ Forall (λ e, mentioned_run e ≠ Some run) pre.
Proof.
  induction events as [|event events IH]; simpl; [done|].
  destruct (open_attempt run event) as [opened|] eqn:Ho.
  - rewrite step_attempt_some. intros [= <-]. by exists [], event, events, opened.
  - intros (pre & ev & post & opened & -> & Hev & -> & Hpre)%IH. exists (event :: pre), ev, post, opened.
    split_and!; [done..|]. constructor; [|done]. intros Hm. unfold open_attempt in Ho.
    rewrite bool_decide_eq_true_2 in Ho by done. by destruct event.2.
Qed.

Lemma steps_to_first run pre event post opened :
  Forall (λ e, mentioned_run e ≠ Some run) pre → open_attempt run event = Some opened →
  foldl (step_attempt run) None (pre ++ event :: post) = Some (foldl (change_attempt run) opened post).
Proof.
  induction 1 as [|e pre He Hpre IH]; intros Ho; simpl; [by rewrite Ho, step_attempt_some|].
  rewrite (open_none run e He). by apply IH.
Qed.

(** *** What the statements add up to *)

(** Every piece of evidence on record agrees with what is known, or there is a dispute. *)
Definition weighed_evidence (a : AttemptDisposition) : Prop :=
  (∀ e, e ∈ at_evidence a → external_of (ev_disposition e) = at_disposition a ∨ at_disputed a = true) ∧
  (at_disputed a = true → at_disposition a ≠ Unknown).

Lemma external_known d : external_of d ≠ Unknown.
Proof. by destruct d. Qed.

Lemma statement_known run event d : statement_of run event = Some d → d ≠ Unknown.
Proof.
  unfold statement_of. repeat (case_match; try done); intros [= <-]; auto using external_known.
Qed.

(** Learning a statement that is not [Unknown]. *)
Lemma learn_state d a :
  d ≠ Unknown →
  at_disposition (learn d a) = (if bool_decide (at_disposition a = Unknown) then d else at_disposition a) ∧
  at_disputed (learn d a) = at_disputed a || negb (bool_decide (at_disposition (learn d a) = d)) ∧
  at_observed (learn d a) = at_observed a ∧ at_evidence (learn d a) = at_evidence a.
Proof.
  intros Hd. unfold learn. repeat case_bool_decide; simpl in *; subst; rewrite ?orb_true_r, ?orb_false_r; try done.
Qed.

(** What an event says of the run, added to what is known. *)
Definition weigh (a a' : AttemptDisposition) (said : list ExternalDisposition) : Prop :=
  at_disposition a' = (if bool_decide (at_disposition a = Unknown) then default Unknown (head said) else at_disposition a) ∧
  at_disputed a' = at_disputed a || existsb (λ d, negb (bool_decide (at_disposition a' = d))) said.

Lemma weigh_learn d a :
  d ≠ Unknown → weighed_evidence a → weigh a (learn d a) [d] ∧ weighed_evidence (learn d a).
Proof.
  intros Hd [Hev Hdis]. destruct (learn_state d a Hd) as (H1 & H2 & H3 & H4). split; [split|split].
  - done.
  - simpl. by rewrite orb_false_r.
  - intros e. rewrite H4. intros He. rewrite H2, H1. destruct (Hev e He) as [Hx|Hx].
    + left. rewrite bool_decide_eq_false_2; [done|]. rewrite <- Hx. apply external_known.
    + rewrite Hx. by right.
  - intros _. rewrite H1. clear -Hd. by case_bool_decide.
Qed.

Lemma weigh_evidence e a :
  weighed_evidence a →
  weigh a (add_evidence e a) [external_of (ev_disposition e)] ∧ weighed_evidence (add_evidence e a) ∧
  at_observed (add_evidence e a) = at_observed a.
Proof.
  intros Hw. unfold add_evidence. case_bool_decide as Hin.
  - destruct Hw as [Hev Hdis]. split_and!; [|done..]. destruct (Hev e Hin) as [Hx|Hx]; split; simpl.
    + rewrite bool_decide_eq_false_2; [done|]. rewrite <- Hx. apply external_known.
    + rewrite bool_decide_eq_true_2 by done. by rewrite orb_false_r.
    + rewrite bool_decide_eq_false_2; auto.
    + by rewrite Hx.
  - destruct (weigh_learn _ a (external_known (ev_disposition e)) Hw) as [Hl [Hev Hdis]].
    destruct (learn_state _ a (external_known (ev_disposition e))) as (H1 & H2 & H3 & H4).
    split_and!; [exact Hl| |exact H3]. split; [|exact Hdis]. simpl. intros e' [He'| ->%list_elem_of_singleton]%elem_of_app; [by apply Hev|].
    destruct (decide (at_disposition (learn (external_of (ev_disposition e)) a) = external_of (ev_disposition e))); [by left|].
    right. rewrite H2, bool_decide_eq_false_2 by done. apply orb_true_r.
Qed.

Lemma weigh_none a a' :
  at_disposition a' = at_disposition a → at_disputed a' = at_disputed a → weigh a a' [].
Proof. intros H1 H2. split; [rewrite H1; by case_bool_decide|]. simpl. by rewrite orb_false_r. Qed.

Lemma change_attempt_state run a event :
  weighed_evidence a →
  weigh a (change_attempt run a event) (option_list (statement_of run event)) ∧
  weighed_evidence (change_attempt run a event) ∧
  at_observed (change_attempt run a event) = at_observed a || answers run event.
Proof.
  intros Hw. unfold change_attempt, statement_of, answers.
  destruct (kernel_payload event) as [payload|]; [|rewrite orb_false_r; split; [by apply weigh_none|done]].
  destruct payload as [e r d|e r st|e r|e|e r st|e r [|]|e| |]; simpl;
    try (rewrite orb_false_r; split; [by apply weigh_none|done]);
    (destruct (_ && _); simpl; [|rewrite orb_false_r; split; [by apply weigh_none|done]]).
  - rewrite orb_false_r. split; [by apply weigh_none|done].
  - rewrite orb_false_r. split; [by apply weigh_none|done].
  - rewrite orb_false_r. by apply weigh_evidence.
  - rewrite orb_true_r. split; [by apply weigh_none|done].
  - rewrite orb_false_r. destruct (weigh_learn NotDispatched a) as [? ?]; [done..|]. split_and!; [done..|].
    by apply learn_state.
Qed.

Lemma weigh_one a a1 a2 o said :
  weigh a a1 (option_list o) → weigh a1 a2 said → (∀ d, o = Some d → d ≠ Unknown) →
  weigh a a2 (option_list o ++ said).
Proof.
  intros [H1 H2] [H3 H4] Ho. destruct o as [d|]; simpl in *.
  - specialize (Ho d eq_refl).
    assert (at_disposition a2 = at_disposition a1) as Heq.
    { rewrite H3, bool_decide_eq_false_2; [done|]. rewrite H1. clear -Ho. by case_bool_decide. }
    split; simpl; [by rewrite Heq, H1|]. rewrite H4, H2, Heq, orb_false_r, <- orb_assoc. done.
  - assert (at_disposition a1 = at_disposition a) as Heq by (rewrite H1; clear; by case_bool_decide).
    split; [by rewrite H3, Heq|]. rewrite H4, H2, orb_false_r. done.
Qed.

Lemma statements_cons run event events :
  statements run (event :: events) = (option_list (statement_of run event) ++ statements run events)%list.
Proof. unfold statements. simpl. by destruct (statement_of run event). Qed.

Lemma change_attempts_state run a events :
  weighed_evidence a →
  weigh a (foldl (change_attempt run) a events) (statements run events) ∧
  at_observed (foldl (change_attempt run) a events) = at_observed a || existsb (answers run) events.
Proof.
  revert a. induction events as [|event events IH]; intros a Hw.
  - simpl. rewrite orb_false_r. split; [by apply weigh_none|done].
  - destruct (change_attempt_state run a event Hw) as (H1 & H2 & H3).
    destruct (IH _ H2) as [H4 H5]. rewrite statements_cons. simpl. split.
    + eapply weigh_one; eauto using statement_known.
    + by rewrite H5, H3, orb_assoc.
Qed.

Lemma statements_known run events d : d ∈ statements run events → d ≠ Unknown.
Proof. unfold statements. intros (event & _ & He)%list_elem_of_omap. eauto using statement_known. Qed.

(** The guard's verdict on an attempt is decided by what the log says after it. *)
Lemma unproved_cleared run event opened post :
  open_attempt run event = Some opened →
  unproved (foldl (change_attempt run) opened post) = false ↔ cleared run post.
Proof.
  intros (_ & Hd & He & Hp & Ho & _)%open_mentioned.
  destruct (change_attempts_state run opened post) as [[H1 H2] H3].
  { split; [rewrite He; by intros ? ?%elem_of_nil|congruence]. }
  rewrite Hd, bool_decide_eq_true_2 in H1 by done. rewrite Hp in H2. rewrite Ho in H3. simpl in *.
  unfold unproved, cleared. rewrite H2, H1, H3.
  pose proof (statements_known run post) as Hk. destruct (statements run post) as [|d ds]; simpl.
  - rewrite negb_false_iff. apply existsb_elem.
  - rewrite (bool_decide_eq_true_2 (d = d)) by done. simpl.
    assert (d ≠ Unknown) as Hdk by (apply Hk; left).
    destruct (existsb _ ds) eqn:Hex.
    + split; [done|]. intros [_ Hall]. apply existsb_elem in Hex as (x & Hx & Hxd).
      rewrite Forall_forall in Hall. rewrite <- (Hall x Hx), bool_decide_eq_true_2 in Hxd; done.
    + assert (Forall (eq d) ds) as Hall.
      { apply Forall_forall. intros x Hx. destruct (decide (d = x)); [done|].
        rewrite (proj2 (existsb_elem _ _)) in Hex; [done|]. exists x. split; [done|]. by rewrite bool_decide_eq_false_2. }
      destruct d; simpl; naive_solver.
Qed.

End spec.

(** ** The guard is exact *)

Section guard.
Context (instance_id effect_id : string) (events : list (string * recovery_event)) (attempts : list AttemptDisposition).
Hypothesis Hfold : fold_attempts instance_id effect_id events = Ok attempts.

Lemma attempt_iff run a :
  find_attempt run attempts = Some a ↔
  ∃ pre event post opened, events = (pre ++ event :: post)%list ∧ open_attempt effect_id run event = Some opened ∧
    a = foldl (change_attempt effect_id run) opened post ∧ Forall (λ e, mentioned_run effect_id e ≠ Some run) pre.
Proof.
  rewrite (find_fold_events _ _ run _ _ _ Hfold). change (find_attempt run []) with (@None AttemptDisposition). split.
  - apply steps_from_none.
  - intros (pre & event & post & opened & -> & Ho & -> & Hpre). by apply steps_to_first.
Qed.

Lemma attempts_distinct : NoDup (at_run <$> attempts).
Proof. eapply fold_events_runs; [|exact Hfold]. apply NoDup_nil_2. Qed.

Lemma absence_iff :
  require_proved_absence attempts = Ok tt ↔
  ∀ run pre event post, events = (pre ++ event :: post)%list → mentioned_run effect_id event = Some run →
    Forall (λ e, mentioned_run effect_id e ≠ Some run) pre → cleared effect_id run post.
Proof.
  unfold require_proved_absence. split.
  - destruct (existsb unproved attempts) eqn:Hex; [done|]. intros _ run pre event post Hev Hm Hpre.
    destruct (open_attempt effect_id run event) as [opened|] eqn:Ho.
    2:{ unfold open_attempt in Ho. rewrite bool_decide_eq_true_2 in Ho by done. by destruct event.2. }
    apply (unproved_cleared effect_id run event opened post Ho).
    destruct (unproved _) eqn:Hu; [|done].
    rewrite (proj2 (existsb_elem _ _)) in Hex; [done|]. eexists. split; [|exact Hu].
    apply (find_attempt_run run). apply attempt_iff. eauto 10.
  - intros Hall. destruct (existsb unproved attempts) eqn:Hex; [|done].
    apply existsb_elem in Hex as (a & Ha & Hu).
    assert (find_attempt (at_run a) attempts = Some a) as Hf.
    { apply find_attempt_distinct; [apply attempts_distinct|done]. }
    generalize dependent (at_run a). intros run Hf.
    apply attempt_iff in Hf as (pre & event & post & opened & He & Ho & -> & Hpre).
    pose proof (open_mentioned _ _ _ _ Ho) as [Hm _].
    by rewrite (proj2 (unproved_cleared effect_id run event opened post Ho) (Hall run pre event post He Hm Hpre)) in Hu.
Qed.

(** A recorded start is the first event that mentions its run. *)
Lemma start_first pre run dispatch post :
  events = (pre ++ ("kernel", RunStarted (Some effect_id) (Some run) dispatch) :: post)%list →
  Forall (λ e, mentioned_run effect_id e ≠ Some run) pre.
Proof.
  intros He. generalize Hfold. rewrite He. unfold fold_attempts. rewrite fold_events_app.
  intros (l1 & H1 & H2)%bind_ok. simpl in H2. apply bind_ok in H2 as (l2 & H2 & _).
  rewrite !bool_decide_eq_true_2 in H2 by done. simpl in H2. unfold start_attempt in H2.
  destruct (_ || _) eqn:Hg in H2; [done|]. apply orb_false_iff in Hg as [_ Hn]. apply bool_decide_eq_false in Hn.
  rewrite <- eq_None_not_Some, (find_fold_events _ _ run _ _ _ H1) in Hn.
  clear -Hn. change (find_attempt run []) with (@None AttemptDisposition) in Hn.
  induction pre as [|e pre IH]; [constructor|]. simpl in Hn.
  destruct (open_attempt effect_id run e) as [a|] eqn:Ho; [by rewrite step_attempt_some in Hn|].
  constructor; [|by apply IH]. intros Hm. unfold open_attempt in Ho.
  rewrite bool_decide_eq_true_2 in Ho by done. by destruct e.2.
Qed.

End guard.

(** the guard of a resubmission is exact.  Over a log that folds, it lets a new
    dispatch through exactly when every run the log mentions for the effect is followed
    by a statement of its target that it was not applied, contradicted by none, or, when
    nothing is stated of the target, by the executor's own definite answer. *)
Theorem resubmission_exact instance_id effect_id events attempts :
  fold_attempts instance_id effect_id events = Ok attempts →
  require_proved_absence attempts = Ok tt ↔
  ∀ run pre event post, events = (pre ++ event :: post)%list → mentioned_run effect_id event = Some run →
    Forall (λ e, mentioned_run effect_id e ≠ Some run) pre → cleared effect_id run post.
Proof. apply absence_iff. Qed.

Definition recovery_example : list (string * recovery_event) :=
  [("kernel", RunStarted (Some "e") (Some "r1") None);
   ("kernel", EffectTerminal (Some "e") (Some "r1") (Some "failed"));
   ("worker", SettlementRetained (Some "e") (Some "r1") None);
   ("kernel", FenceProved "e" "r1" true)].

Lemma resubmission_exact_witness :
  require_proved_absence [mkAttempt "r1" None (Some "failed") NotDispatched [] false false] = Ok tt ↔
  ∀ run pre event post, recovery_example = (pre ++ event :: post)%list → mentioned_run "e" event = Some run →
    Forall (λ e, mentioned_run "e" e ≠ Some run) pre → cleared "e" run post.
Proof. apply (resubmission_exact "i"). vm_compute. reflexivity. Defined.
