(* ===== verification/AttemptAdmission.v ===== *)
(** The live part of a restored journal and the selection of an attempt from it
    (store/attempt_admission.rs, and the restore-marker fold of store/lib.rs).  A
    [context.restored] marker drops every event after its target; what later markers
    leave is the live journal. *)
From S2P Require Import Prelude.


(** ** The fold over restore markers *)

Section live.
Context {A : Type} (sequence : A → Z) (marker : A → option (option Z)) (keep : A → bool).

(** One event of the loop: [marker] is the target of a [context.restored] event, [None]
    inside for a malformed one; [keep] tells the events the loop pushes. *)
Definition live_step (live : list A) (event : A) : list A :=
  let live := match marker event with
              | Some (Some target) => filter (λ held, (sequence held ≤ target)%Z) live
              | _ => live
              end in
  if keep event then live ++ [event] else live.

Definition live_fold (events : list A) : list A := foldl live_step [] events.

(** An event that no later marker drops. *)
Definition survives (event : A) (later : list A) : Prop :=
  ∀ m target, m ∈ later → marker m = Some (Some target) → (sequence event ≤ target)%Z.

Lemma survives_nil event : survives event [].
Proof. by intros m target ?%elem_of_nil. Qed.

Lemma survives_snoc event later m :
  survives event (later ++ [m]) ↔
  survives event later ∧ ∀ target, marker m = Some (Some target) → (sequence event ≤ target)%Z.
Proof.
  unfold survives. setoid_rewrite elem_of_app. setoid_rewrite list_elem_of_singleton. naive_solver.
Qed.

Lemma live_fold_snoc events event : live_fold (events ++ [event]) = live_step (live_fold events) event.
Proof. unfold live_fold. by rewrite foldl_app. Qed.

Lemma live_step_elem live event held :
  held ∈ live_step live event ↔
  (held ∈ live ∧ ∀ target, marker event = Some (Some target) → (sequence held ≤ target)%Z)
  ∨ (held = event ∧ keep event = true).
Proof.
  unfold live_step. destruct (marker event) as [[target|]|], (keep event);
    rewrite ?elem_of_app, ?list_elem_of_singleton, ?list_elem_of_filter; naive_solver.
Qed.

(** The live journal is exactly the events that survive what follows them. *)
Lemma live_fold_elem events held :
  held ∈ live_fold events ↔
  ∃ pre post, events = pre ++ held :: post ∧ keep held = true ∧ survives held post.
Proof.
  induction events as [|event events IH] using rev_ind.
  - split; [by intros ?%elem_of_nil|]. intros (pre & post & He & _). by destruct pre.
  - rewrite live_fold_snoc, live_step_elem, IH. split.
    + intros [[(pre & post & -> & Hk & Hs) Hm]|[-> Hk]].
      * exists pre, (post ++ [event]). rewrite survives_snoc, <- app_assoc. naive_solver.
      * exists events, []. split_and!; [done..|apply survives_nil].
    + intros (pre & post & He & Hk & Hs). destruct post as [|m post _] using rev_ind.
      * apply app_inj_tail in He as [-> ->]. by right.
      * left. rewrite app_comm_cons, app_assoc in He. apply app_inj_tail in He as [-> ->].
        apply survives_snoc in Hs as [Hs Hm]. split; [|done]. eauto.
Qed.

Lemma live_step_sublist live events event :
  sublist live events → sublist (live_step live event) (events ++ [event]).
Proof.
  intros Hs. unfold live_step.
  set (live' := match marker event with Some (Some t) => filter (λ held, (sequence held ≤ t)%Z) live | _ => live end).
  assert (sublist live' events) as Hl.
  { transitivity live; [|done]. unfold live'. destruct (marker event) as [[t|]|]; [apply sublist_filter|done..]. }
  destruct (keep event); [by apply sublist_app|by apply sublist_inserts_r].
Qed.

Lemma live_fold_sublist events : sublist (live_fold events) events.
Proof.
  induction events as [|event events IH] using rev_ind; [done|].
  rewrite live_fold_snoc. by apply live_step_sublist.
Qed.

(** Events without markers are live as a whole. *)
Lemma live_fold_app events later :
  Forall (λ e, marker e = None) later → live_fold (events ++ later) = live_fold events ++ filter (λ e, keep e = true) later.
Proof.
  induction later as [|event later IH] using rev_ind; [by rewrite !app_nil_r|].
  rewrite Forall_app, Forall_singleton, app_assoc, live_fold_snoc, filter_app, filter_cons, filter_nil.
  intros [H1 H2]. rewrite IH by done. unfold live_step. rewrite H2.
  destruct (keep event); [by rewrite decide_True, app_assoc|by rewrite decide_False, app_nil_r].
Qed.

Lemma live_fold_unmarked events :
  Forall (λ e, marker e = None) events → live_fold events = filter (λ e, keep e = true) events.
Proof. apply (live_fold_app []). Qed.

(** Restoring cuts the journal back to its target. *)
Lemma live_fold_restore events m target :
  marker m = Some (Some target) → keep m = false →
  live_fold (events ++ [m]) = filter (λ e, (sequence e ≤ target)%Z) (live_fold events).
Proof. intros H1 H2. rewrite live_fold_snoc. unfold live_step. by rewrite H1, H2. Qed.

End live.

(** ** Selection *)

Inductive journal_kind :=
| Restored (target : option Z)
| Retried (effect_id : option string)
| Expired (effect_id : option string)
| Terminated (effect_id : option string)
| OtherKind.

Record JournalEvent := mkJournal { je_id : string; je_sequence : Z; je_kind : journal_kind }.

Inductive admission_error := JournalUnordered.

Definition restored_target (e : JournalEvent) : option (option Z) :=
  match je_kind e with Restored target => Some target | _ => None end.

(** [live_events]: every event, markers included, in strictly ascending order. *)
Definition live_journal (events : list JournalEvent) : list JournalEvent :=
  live_fold je_sequence restored_target (λ _, true) events.

Fixpoint ordered (previous : option Z) (events : list JournalEvent) : bool :=
  match events with
  | [] => true
  | e :: events =>
      from_option (λ s, bool_decide (s < je_sequence e)%Z) true previous && ordered (Some (je_sequence e)) events
  end.

Definition live_events (events : list JournalEvent) : result admission_error (list JournalEvent) :=
  if ordered None events then Ok (live_journal events) else Err JournalUnordered.

(** The effect an event admits a new attempt of. *)
Definition admits (e : JournalEvent) : option string :=
  match je_kind e with Retried effect | Expired effect => effect | _ => None end.

Definition select_event (selected : gmap string string) (e : JournalEvent) : gmap string string :=
  match admits e with Some effect => <[effect := je_id e]> selected | None => selected end.

(** [selections]. *)
Definition selections (events : list JournalEvent) : result admission_error (gmap string string) :=
  live ← live_events events;
  Ok (foldl select_event ∅ live).

(** [select]. *)
Definition select (events : list JournalEvent) (effect_id : string) : result admission_error (option string) :=
  selected ← selections events; Ok (selected !! effect_id).

(** [terminal]: the loop over the reversed live journal. *)
Fixpoint first_terminal (effect_id : string) (events : list JournalEvent) : option string :=
  match events with
  | [] => None
  | e :: events =>
      match je_kind e with
      | Terminated (Some effect) =>
          if bool_decide (effect = effect_id) then Some (je_id e) else first_terminal effect_id events
      | _ => first_terminal effect_id events
      end
  end.

Definition terminal (events : list JournalEvent) (effect_id : string) : result admission_error (option string) :=
  live ← live_events events; Ok (first_terminal effect_id (reverse live)).

(** ** The latest live admission *)

Definition last_admission (effect_id : string) (live : list JournalEvent) (e : JournalEvent) : Prop :=
  ∃ pre post, live = (pre ++ e :: post)%list ∧ admits e = Some effect_id ∧ Forall (λ x, admits x ≠ Some effect_id) post.

Lemma selected_lookup effect_id live :
  foldl select_event ∅ live !! effect_id
  = je_id <$> last (filter (λ e, admits e = Some effect_id) live).
Proof.
  induction live as [|e live IH] using rev_ind; [done|].
  rewrite foldl_app, filter_app, filter_cons, filter_nil. simpl. unfold select_event at 1.
  destruct (admits e) as [effect|] eqn:He; [|by rewrite decide_False, app_nil_r].
  destruct (decide (effect = effect_id)) as [->|Hne].
  - rewrite decide_True, last_snoc by done. by rewrite lookup_insert_eq.
  - rewrite decide_False by congruence. by rewrite app_nil_r, lookup_insert_ne.
Qed.

Lemma last_filter_iff (effect_id : string) live e :
  last (filter (λ e, admits e = Some effect_id) live) = Some e ↔ last_admission effect_id live e.
Proof.
  unfold last_admission. induction live as [|x live IH] using rev_ind.
  - split; [done|]. intros (pre & post & He & _). by destruct pre.
  - rewrite filter_app, filter_cons, filter_nil. split.
    + destruct (decide (admits x = Some effect_id)).
      * rewrite last_snoc. intros [= ->]. by exists live, [].
      * rewrite app_nil_r, IH. intros (pre & post & -> & Ha & Hp). exists pre, (post ++ [x])%list.
        rewrite <- app_assoc, Forall_app, Forall_singleton. naive_solver.
    + intros (pre & post & He & Ha & Hp). destruct post as [|y post _] using rev_ind.
      * apply app_inj_tail in He as [-> ->]. rewrite decide_True by done. by rewrite last_snoc.
      * rewrite app_comm_cons, app_assoc in He. apply app_inj_tail in He as [-> ->].
        rewrite Forall_app, Forall_singleton in Hp. destruct Hp as [Hp Hx]. rewrite decide_False, app_nil_r by done.
        apply IH. eauto.
Qed.

Theorem select_exact events effect_id selected :
  select events effect_id = Ok selected →
  ∀ id, selected = Some id ↔
    ∃ e, je_id e = id ∧ last_admission effect_id (live_journal events) e ∧
      ∃ pre post, events = (pre ++ e :: post)%list ∧ survives je_sequence restored_target e post.
Proof.
  unfold select, selections, live_events. destruct (ordered None events); [|done].
  simpl. intros [= <-] id. rewrite selected_lookup, fmap_Some. split.
  - intros (e & He & ->). exists e. split; [done|]. apply last_filter_iff in He as Hl. split; [done|].
    destruct Hl as (pre & post & Hl & _). assert (e ∈ live_journal events) as Hin.
    { rewrite Hl. set_solver. }
    apply live_fold_elem in Hin as (p & q & ? & _ & ?). eauto.
  - intros (e & <- & Hl & _). exists e. split; [|done]. by apply last_filter_iff.
Qed.
