(* ===== verification/RuntimeTables.v ===== *)
(** The runtime store of one instance (store/lib.rs and its schema): the typed payloads
    of its log, its projection tables, and the statements that the operations and the
    replay share.  The tables hold the rows of the instance.  A JSON text is the value it
    decodes to; a timestamp column that a statement sets to the current time is recorded
    as present or absent, and columns nothing reads ([created_at] and [updated_at] where
    they default to the current time, [released_at]) are left out. *)
From S2P Require Import Prelude ExecResolution DependencyGraph EffectRecovery.
Local Open Scope string_scope.

(** ** JSON values *)

(** What the store asks of a decoded value. *)
Class RuntimeJson (V : Type) := {
  null_value : V;
  empty_object : V;
  is_array : V → bool;
  (** [Value::get], [Value::as_str], and the length of [Value::as_object]. *)
  member : V → string → option V;
  as_text : V → option string;
  object_size : V → option nat;
  (** The values that [json!] builds. *)
  object_of : list (string * V) → V;
  array_of : list V → V;
  text_of : string → V;
  number_of : Z → V;
  bool_of : bool → V;
}.

(** [payload.pointer("/metadata/recovery")] as a string. *)
Definition metadata_recovery `{RuntimeJson V} (metadata : V) : option string := member metadata "recovery" ≫= as_text.

(** ** Payloads *)

Section data.
Context {V : Type}.

Record NewFact := mkNewFact {
  nf_id : string; nf_name : string; nf_key : string; nf_value : V;
  nf_schema : option string; nf_provenance : string; nf_correlation : option string;
  nf_span : option V; nf_validity : option V;
}.

Record NewEffect := mkNewEffect {
  ne_id : string; ne_kind : string; ne_target : option string; ne_input : V; ne_status : string;
  ne_key : string; ne_capabilities : V; ne_profile : option string; ne_correlation : option string;
  ne_timeout : option Z; ne_span : option V;
}.

Record NewEffectDependency := mkNewDependency {
  nd_id : string; nd_upstream : string; nd_downstream : string; nd_predicate : string;
}.

Inductive TerminalKind := WorkflowCompleted | WorkflowFailed.

Record WorkflowTerminal := mkWorkflowTerminal {
  wt_kind : TerminalKind; wt_name : string; wt_payload : V; wt_validity : option V;
}.

Record CreatedInstance := mkCreated {
  ci_program : string; ci_version : string; ci_epoch : Z; ci_principal : string;
  ci_authority : string; ci_input : string; ci_created_at : string;
  ci_started_at : option string; ci_status : string;
}.

(** [rule_commit_payload]. *)
Record RuleRecord := mkRule {
  rr_rule : string; rr_version : option string; rr_epoch : Z;
  rr_facts : list NewFact; rr_consumed : list string; rr_effects : list NewEffect;
  rr_dependencies : list NewEffectDependency; rr_terminal : option WorkflowTerminal; rr_context : V;
}.

(** [run_start_payload]. *)
Record RunRecord := mkRunRecord {
  sr_effect : string; sr_run : string; sr_provider : string; sr_worker : string; sr_lease : string;
  sr_expires_at : string; sr_metadata : V; sr_dispatch : DispatchMarker;
}.

(** [effect.terminal]: the payload of a completion, and of the two forms without a run. *)
Record TerminalRecord := mkTerminal {
  tr_effect : string; tr_run : option string; tr_provider : option string; tr_worker : option string;
  tr_status : string; tr_run_status : option string; tr_exit : option Z; tr_summary : option string;
  tr_metadata : option V; tr_reason : option string;
}.

Record RequestRecord := mkRequestRecord {
  qr_id : string; qr_effect : string; qr_revision : option string; qr_reason : option string; qr_by : string;
}.

Record RevisionRecord := mkRevisionRecord {
  vr_id : string; vr_from : string; vr_to : string; vr_epoch : Z; vr_policy : V;
  vr_cancellation : string; vr_carries : V; vr_correspondence : V;
  vr_cancelled : list string; vr_requested : list string;
}.

(** The journal of an execution's lifetime (store/exec_lifetime.rs): what is tracked, the
    fence that is asked for, and the proof that closes it.  The protocol and the instance,
    which every record repeats, are left out. *)
Record Tracking := mkTracking {
  tk_effect : string; tk_run : string; tk_input : V; tk_invocation : V; tk_url : string;
}.

Inductive FenceReason := FenceDeadline | FenceCancellation | FenceRetry | FenceRecovery.

Record FenceRecord := mkFence {
  fn_effect : string; fn_run : string; fn_tracking : string; fn_id : string; fn_reason : FenceReason;
}.

Record Closure := mkClosure { co_placement : V; co_lifetime : LifetimeEvidence }.

Record ProofRecord := mkProof {
  pf_effect : string; pf_run : string; pf_tracking : string; pf_fence : string; pf_closure : Closure;
}.

(** What the broker observed of an execution (store/exec_outcome.rs), the settlement that is
    retained (store/exec_settlement.rs), and a wake (store/exec_reconciliation.rs). *)
Inductive Outcome := OutcomeCompleted (status : Z) (body : V) | OutcomeNotExecuted | OutcomeUncertain.

Record OutcomeRecord := mkOutcome {
  oc_effect : string; oc_run : string; oc_tracking : string; oc_fence : string; oc_proof : option string;
  oc_placement : V; oc_outcome : Outcome;
}.

Record SettlementRecord := mkSettlement { sl_effect : string; sl_run : string; sl_input : V; sl_settlement : V }.

Record WakeRecord := mkWake {
  wk_effect : string; wk_run : string; wk_now : Z; wk_due : Z; wk_input : V; wk_invocation : V;
}.

(** The events with a payload of their own, by type; [POther] is an event of another type.  Of
    a reconciliation (kernel/host_protocol/recovery.rs) the fold of attempts reads the
    evidence of its command; the rest of the command is a value. *)
Inductive Payload :=
| PInstanceCreated (c : CreatedInstance)
| PRuleCommitted (r : RuleRecord)
| PMarkReached (mark site committed_event : string)
| PFactDerived (f : NewFact)
| PWorkflowTerminal (t : WorkflowTerminal) (rule : string)
| PInstanceTransitioned (status : string) (reason : option string)
| PRevisionActivated (r : RevisionRecord)
| PRunStarted (r : RunRecord)
| PEffectTerminal (t : TerminalRecord)
| PTerminalRefused (run effect attempted_status reason : string)
| PEffectRetried (effect : string) (retry_after terminal_event : option string)
| PEffectCancelled (effect : string)
| PCancellationRequested (r : RequestRecord)
| PLeaseRenewed (lease run new_expires_at : string)
| PLeaseExpired (execution : bool) (lease run effect expired_at : string)
| PEffectBlocked (effect status : string) (category : option string) (reason : string)
| PRestored (cut : string) (target : Z)
| PTracked (t : Tracking)
| PFenceRequested (f : FenceRecord)
| PFenceProved (p : ProofRecord)
| POutcomeObserved (o : OutcomeRecord)
| PSettlementRetained (s : SettlementRecord)
| PWakeScheduled (w : WakeRecord)
| PDispositionRecorded (evidence : DispositionEvidence)
| PDispositionReconciled (command : V) (evidence : DispositionEvidence) (diagnosed : bool)
| POther (event_type : string) (payload : V).

Record Event := mkEvent {
  e_id : string; e_sequence : Z; e_payload : Payload; e_at : string; e_source : string;
  e_causation : option string; e_correlation : option string; e_key : option string;
  e_format : option Z;
}.

(** ** Tables *)

Record RtInstance := mkInstance {
  in_program : string; in_version : string; in_epoch : Z; in_principal : string; in_authority : string;
  in_status : string; in_input : string; in_last_event : option string; in_last_error : option string;
  in_created_at : string; in_started_at : option string; in_completed : bool;
}.

Record RtFact := mkFact {
  ft_id : string; ft_version : option string; ft_epoch : Z; ft_value : V; ft_event : string; ft_rule : string;
  ft_schema : option string; ft_provenance : string; ft_correlation : option string; ft_span : option V;
  ft_validity : option V; ft_consumed : bool;
}.

Record RtEffect := mkRtEffect {
  re_kind : string; re_target : option string; re_input : V; re_status : string; re_rule : string;
  re_event : string; re_version : option string; re_epoch : Z; re_correlation : option string; re_key : string;
  re_capabilities : V; re_profile : option string; re_timeout : option Z; re_created_at : string;
  re_block_reason : option string; re_block_category : option string;
}.

Record RtRun := mkRun {
  ru_effect : string; ru_provider : string; ru_worker : string; ru_status : string; ru_metadata : V;
  ru_started_at : string; ru_completed_at : option string; ru_exit : option Z; ru_summary : option string;
}.

Record RtLease := mkLease {
  le_run : string; le_effect : string; le_worker : string; le_status : string; le_expires_at : string;
}.

Record RtRequest := mkRequest {
  rq_effect : string; rq_revision : option string; rq_reason : option string; rq_by : string;
  rq_causation : option string; rq_status : string; rq_key : option string; rq_resolved_by : option string;
}.

Record RtRevision := mkRevision {
  rv_epoch : Z; rv_from : string; rv_to : string; rv_event : string; rv_policy : V;
  rv_cancellation : string; rv_carries : V; rv_key : option string;
}.

Record Tables := mkTables {
  t_instance : option RtInstance;
  t_facts : gmap (string * string) RtFact;
  t_effects : gmap string RtEffect;
  t_dependencies : list DependencyRow;
  t_runs : gmap string RtRun;
  t_leases : gmap string RtLease;
  t_requests : gmap string RtRequest;
  t_revisions : gmap string RtRevision;
  (** The runs that the evidence of a cancellation request names. *)
  t_request_runs : gmap string (list string);
}.

Record Runtime := mkRuntime { rt_log : list Event; rt_tables : Tables }.

End data.
Arguments NewFact : clear implicits.
Arguments NewEffect : clear implicits.
Arguments WorkflowTerminal : clear implicits.
Arguments RuleRecord : clear implicits.
Arguments RunRecord : clear implicits.
Arguments TerminalRecord : clear implicits.
Arguments RevisionRecord : clear implicits.
Arguments Tracking : clear implicits.
Arguments Closure : clear implicits.
Arguments ProofRecord : clear implicits.
Arguments Outcome : clear implicits.
Arguments OutcomeRecord : clear implicits.
Arguments SettlementRecord : clear implicits.
Arguments WakeRecord : clear implicits.
Arguments Payload : clear implicits.
Arguments Event : clear implicits.
Arguments RtFact : clear implicits.
Arguments RtEffect : clear implicits.
Arguments RtRun : clear implicits.
Arguments RtRevision : clear implicits.
Arguments Tables : clear implicits.
Arguments Runtime : clear implicits.

#[export] Instance terminal_kind_eq_dec : EqDecision TerminalKind.
Proof. solve_decision. Defined.
#[export] Instance new_fact_eq_dec {V} `{EqDecision V} : EqDecision (NewFact V).
Proof. solve_decision. Defined.
#[export] Instance new_effect_eq_dec {V} `{EqDecision V} : EqDecision (NewEffect V).
Proof. solve_decision. Defined.
#[export] Instance new_dependency_eq_dec : EqDecision NewEffectDependency.
Proof. solve_decision. Defined.
#[export] Instance workflow_terminal_eq_dec {V} `{EqDecision V} : EqDecision (WorkflowTerminal V).
Proof. solve_decision. Defined.
#[export] Instance created_eq_dec : EqDecision CreatedInstance.
Proof. solve_decision. Defined.
#[export] Instance rule_record_eq_dec {V} `{EqDecision V} : EqDecision (RuleRecord V).
Proof. solve_decision. Defined.
#[export] Instance run_record_eq_dec {V} `{EqDecision V} : EqDecision (RunRecord V).
Proof. solve_decision. Defined.
#[export] Instance terminal_record_eq_dec {V} `{EqDecision V} : EqDecision (TerminalRecord V).
Proof. solve_decision. Defined.
#[export] Instance request_record_eq_dec : EqDecision RequestRecord.
Proof. solve_decision. Defined.
#[export] Instance revision_record_eq_dec {V} `{EqDecision V} : EqDecision (RevisionRecord V).
Proof. solve_decision. Defined.
#[export] Instance tracking_eq_dec {V} `{EqDecision V} : EqDecision (Tracking V).
Proof. solve_decision. Defined.
#[export] Instance fence_reason_eq_dec : EqDecision FenceReason.
Proof. solve_decision. Defined.
#[export] Instance fence_record_eq_dec : EqDecision FenceRecord.
Proof. solve_decision. Defined.
#[export] Instance closure_eq_dec {V} `{EqDecision V} : EqDecision (Closure V).
Proof. solve_decision. Defined.
#[export] Instance proof_record_eq_dec {V} `{EqDecision V} : EqDecision (ProofRecord V).
Proof. solve_decision. Defined.
#[export] Instance outcome_eq_dec {V} `{EqDecision V} : EqDecision (Outcome V).
Proof. solve_decision. Defined.
#[export] Instance outcome_record_eq_dec {V} `{EqDecision V} : EqDecision (OutcomeRecord V).
Proof. solve_decision. Defined.
#[export] Instance settlement_record_eq_dec {V} `{EqDecision V} : EqDecision (SettlementRecord V).
Proof. solve_decision. Defined.
#[export] Instance wake_record_eq_dec {V} `{EqDecision V} : EqDecision (WakeRecord V).
Proof. solve_decision. Defined.
#[export] Instance payload_eq_dec {V} `{EqDecision V} : EqDecision (Payload V).
Proof. solve_decision. Defined.

(** The lifetime of a closure says that the provider never admitted the invocation. *)
Definition not_admitted {V} (c : Closure V) : bool := match co_lifetime c with LNotAdmitted _ => true | _ => false end.

(** ** Errors *)

Inductive runtime_error :=
| Conflict (message : string)
| ConstraintFailed
| CycleRefused (e : dependency_error)
| PolicyBlocked (effect_id reason : string)
| CapacityBlocked (effect_id reason : string)
| StaleFrontier (evaluated head : Z)
| HeadMoved (expected found : string)
| UnsupportedVersion (event_id : string) (found : Z)
| RecoveryRefused (e : recovery_error)
| JournalRefused
| JsonRefused
| NoRow.

#[export] Instance dependency_error_eq_dec : EqDecision dependency_error.
Proof. solve_decision. Defined.
#[export] Instance runtime_error_eq_dec : EqDecision runtime_error.
Proof. solve_decision. Defined.

(** ** Statements *)

Section statements.
Context {V : Type}.
Implicit Types (T : Tables V).

Definition with_instance (i : option RtInstance) T :=
  mkTables i (t_facts T) (t_effects T) (t_dependencies T) (t_runs T) (t_leases T) (t_requests T) (t_revisions T) (t_request_runs T).
Definition with_facts (f : gmap (string * string) (RtFact V)) T :=
  mkTables (t_instance T) f (t_effects T) (t_dependencies T) (t_runs T) (t_leases T) (t_requests T) (t_revisions T) (t_request_runs T).
Definition with_effects (e : gmap string (RtEffect V)) T :=
  mkTables (t_instance T) (t_facts T) e (t_dependencies T) (t_runs T) (t_leases T) (t_requests T) (t_revisions T) (t_request_runs T).
Definition with_dependencies (d : list DependencyRow) T :=
  mkTables (t_instance T) (t_facts T) (t_effects T) d (t_runs T) (t_leases T) (t_requests T) (t_revisions T) (t_request_runs T).
Definition with_runs (r : gmap string (RtRun V)) T :=
  mkTables (t_instance T) (t_facts T) (t_effects T) (t_dependencies T) r (t_leases T) (t_requests T) (t_revisions T) (t_request_runs T).
Definition with_leases (l : gmap string RtLease) T :=
  mkTables (t_instance T) (t_facts T) (t_effects T) (t_dependencies T) (t_runs T) l (t_requests T) (t_revisions T) (t_request_runs T).
Definition with_requests (q : gmap string RtRequest) T :=
  mkTables (t_instance T) (t_facts T) (t_effects T) (t_dependencies T) (t_runs T) (t_leases T) q (t_revisions T) (t_request_runs T).
Definition with_revisions (r : gmap string (RtRevision V)) T :=
  mkTables (t_instance T) (t_facts T) (t_effects T) (t_dependencies T) (t_runs T) (t_leases T) (t_requests T) r (t_request_runs T).
Definition with_request_runs (r : gmap string (list string)) T :=
  mkTables (t_instance T) (t_facts T) (t_effects T) (t_dependencies T) (t_runs T) (t_leases T) (t_requests T) (t_revisions T) r.

Definition set_status (s : string) (e : RtEffect V) : RtEffect V :=
  mkRtEffect (re_kind e) (re_target e) (re_input e) s (re_rule e) (re_event e) (re_version e) (re_epoch e)
    (re_correlation e) (re_key e) (re_capabilities e) (re_profile e) (re_timeout e) (re_created_at e)
    (re_block_reason e) (re_block_category e).
Definition set_block (reason category : option string) (e : RtEffect V) : RtEffect V :=
  mkRtEffect (re_kind e) (re_target e) (re_input e) (re_status e) (re_rule e) (re_event e) (re_version e) (re_epoch e)
    (re_correlation e) (re_key e) (re_capabilities e) (re_profile e) (re_timeout e) (re_created_at e)
    reason category.
Definition set_consumed (b : bool) (f : RtFact V) : RtFact V :=
  mkFact (ft_id f) (ft_version f) (ft_epoch f) (ft_value f) (ft_event f) (ft_rule f) (ft_schema f)
    (ft_provenance f) (ft_correlation f) (ft_span f) (ft_validity f) b.
Definition set_lease_status (s : string) (l : RtLease) : RtLease :=
  mkLease (le_run l) (le_effect l) (le_worker l) s (le_expires_at l).
Definition set_lease_expiry (x : string) (l : RtLease) : RtLease :=
  mkLease (le_run l) (le_effect l) (le_worker l) (le_status l) x.

(** An [UPDATE] of the row with a given primary key, where a condition holds, and the
    number of rows it changed. *)
Definition update_where {R} (id : string) (P : R → bool) (f : R → R) (m : gmap string R) : gmap string R * nat :=
  match m !! id with
  | Some r => if P r then (<[id := f r]> m, 1) else (m, 0)
  | None => (m, 0)
  end.

(** An [UPDATE] of every row where a condition holds. *)
Definition update_every {K R} `{Countable K} (P : R → bool) (f : R → R) (m : gmap K R) : gmap K R :=
  (λ r, if P r then f r else r) <$> m.

Definition count_rows {K R} `{Countable K} (P : R → bool) (m : gmap K R) : nat :=
  length (filter (λ kr, P kr.2 = true) (map_to_list m)).

(** *** Statuses *)

(** [PENDING_EFFECT_STATUSES]. *)
Definition PENDING_EFFECT_STATUSES : list string :=
  ["queued"; "blocked"; "blocked_by_admission"; "blocked_by_dependency"; "blocked_by_capacity";
   "blocked_by_capability"; "blocked_by_profile"].

Definition pending (s : string) : bool := bool_decide (s ∈ PENDING_EFFECT_STATUSES).

(** [status NOT IN ('completed', 'failed', 'timed_out', 'cancelled')]. *)
Definition unsettled (s : string) : bool := negb (bool_decide (s ∈ settled_statuses)).

(** [INSTANCE_TRANSITIONS] and [instance_transition_allowed]. *)
Definition INSTANCE_TRANSITIONS : list (string * string) :=
  [("running", "paused"); ("paused", "running"); ("running", "cancelled"); ("paused", "cancelled");
   ("blocked", "cancelled"); ("running", "failed"); ("paused", "failed"); ("blocked", "failed")].

Definition instance_transition_allowed (current next : string) : bool :=
  bool_decide ((current, next) ∈ INSTANCE_TRANSITIONS).

(** *** The instance row *)

(** [active_revision_on]. *)
Definition active_revision_on T : option string * Z :=
  match t_instance T with Some i => (Some (in_version i), in_epoch i) | None => (None, 0%Z) end.

(** [instance_status_on]. *)
Definition instance_status_on T : option string := in_status <$> t_instance T.

(** The [UPDATE] of [apply_instance_transitioned]. *)
Definition apply_transition (event_id status : string) (reason : option string) T : Tables V :=
  if bool_decide (status = "") then T
  else with_instance ((λ i, mkInstance (in_program i) (in_version i) (in_epoch i) (in_principal i) (in_authority i)
    status (in_input i) (Some event_id) reason (in_created_at i) (in_started_at i)
    (bool_decide (status ∈ ["completed"; "cancelled"; "failed"]) || in_completed i)) <$> t_instance T) T.

(** The [UPDATE] that a workflow terminal makes. *)
Definition close_instance (event_id status name : string) T : Tables V :=
  with_instance ((λ i, mkInstance (in_program i) (in_version i) (in_epoch i) (in_principal i) (in_authority i)
    status (in_input i) (Some event_id) (if bool_decide (status = "failed") then Some name else in_last_error i)
    (in_created_at i) (in_started_at i) true) <$> t_instance T) T.

(** The [UPDATE] of a revision activation. *)
Definition move_revision (event_id version : string) (epoch : Z) T : Tables V :=
  with_instance ((λ i, mkInstance (in_program i) version epoch (in_principal i) (in_authority i)
    (in_status i) (in_input i) (Some event_id) (in_last_error i) (in_created_at i) (in_started_at i)
    (in_completed i)) <$> t_instance T) T.

Definition terminal_status (k : TerminalKind) : string :=
  match k with WorkflowCompleted => "completed" | WorkflowFailed => "failed" end.

(** *** Facts *)

Definition fact_row (rule event_id : string) (version : option string) (epoch : Z) (f : NewFact V)
    : RtFact V :=
  mkFact (nf_id f) version epoch (nf_value f) event_id rule (nf_schema f) (nf_provenance f) (nf_correlation f)
    (nf_span f) (nf_validity f) false.

(** [DO UPDATE SET ...] of [insert_fact]: a consumed row that is recorded again. *)
Definition revive_row (old new : RtFact V) : RtFact V :=
  mkFact (ft_id new) (ft_version new) (ft_epoch new) (ft_value new) (ft_event new) (ft_rule new) (ft_schema old)
    (ft_provenance old) (ft_correlation old) (ft_span old) (ft_validity new) false.

(** The primary key [fact_id] is held by another row. *)
Definition fact_id_taken (place : string * string) (id : string) (m : gmap (string * string) (RtFact V)) : bool :=
  existsb (λ kr, negb (bool_decide (kr.1 = place)) && bool_decide (ft_id kr.2 = id)) (map_to_list m).

(** [insert_fact]. *)
Definition insert_fact `{RuntimeJson V} (rule event_id : string) (version : option string) (epoch : Z)
    (f : NewFact V) T : result runtime_error (Tables V) :=
  if from_option (λ v, negb (is_array v)) false (nf_validity f)
  then Err (Conflict "fact validity must be a JSON array")
  else
    let place := (nf_name f, nf_key f) in
    let new := fact_row rule event_id version epoch f in
    match t_facts T !! place with
    | Some old =>
        if ft_consumed old
        then if fact_id_taken place (nf_id f) (t_facts T) then Err ConstraintFailed
             else Ok (with_facts (<[place := revive_row old new]> (t_facts T)) T)
        else Ok T
    | None =>
        if fact_id_taken place (nf_id f) (t_facts T) then Err ConstraintFailed
        else Ok (with_facts (<[place := new]> (t_facts T)) T)
    end.

(** One iteration of [consume_facts]. *)
Definition consumable (id : string) (f : RtFact V) : bool := bool_decide (ft_id f = id) && negb (ft_consumed f).

Definition consume_fact (id : string) T : result runtime_error (Tables V) :=
  if bool_decide (count_rows (consumable id) (t_facts T) = 1)
  then Ok (with_facts (update_every (consumable id) (set_consumed true) (t_facts T)) T)
  else Err (Conflict ("fact `" ++ id ++ "` is not active and cannot be consumed")).

(** The loops of a commit. *)
Fixpoint each {A} (step : A → Tables V → result runtime_error (Tables V)) (l : list A) T
    : result runtime_error (Tables V) :=
  match l with
  | [] => Ok T
  | x :: l => T' ← step x T; each step l T'
  end.

(** [consume_facts]. *)
Definition consume_facts (ids : list string) T : result runtime_error (Tables V) := each consume_fact ids T.

(** *** Effects *)

(** [insert_effect], with the unique index on the idempotency key. *)
Definition insert_effect (rule event_id at_ : string) (version : option string) (epoch : Z) (e : NewEffect V) T
    : result runtime_error (Tables V) :=
  if bool_decide (is_Some (t_effects T !! ne_id e))
     || bool_decide (0 < count_rows (λ r : RtEffect V, bool_decide (re_key r = ne_key e)) (t_effects T))
  then Err ConstraintFailed
  else Ok (with_effects (<[ne_id e := mkRtEffect (ne_kind e) (ne_target e) (ne_input e) (ne_status e) rule event_id
    version epoch (ne_correlation e) (ne_key e) (ne_capabilities e) (ne_profile e) (ne_timeout e) at_ None None]>
    (t_effects T)) T).

(** The rows the dependency statements read. *)
Definition effect_store (instance_id : string) T : EffectStore :=
  mkEffectStore ((λ e, mkEffect instance_id (re_status e)) <$> t_effects T) (t_dependencies T).

(** [insert_effect_dependency] of the store. *)
Definition insert_dependency (instance_id rule : string) (d : NewEffectDependency) T
    : result runtime_error (Tables V) :=
  match insert_effect_dependency (effect_store instance_id T)
    (mkDependency (nd_id d) instance_id (nd_upstream d) (nd_downstream d) (nd_predicate d) rule) with
  | Ok s => Ok (with_dependencies (dependencies s) T)
  | Err (DependencyCycle a b c d) => Err (CycleRefused (DependencyCycle a b c d))
  | Err ConstraintViolation => Err ConstraintFailed
  end.

(** [satisfy_dependencies_on] of the store. *)
Definition satisfy_dependencies (instance_id : string) T : Tables V :=
  let s := (satisfy_dependencies_on (effect_store instance_id T) instance_id).1 in
  with_effects (map_imap (λ id e, Some (match effects s !! id with
    | Some r => set_status (ef_status r) e | None => e end)) (t_effects T)) T.

(** The status update of the row of one effect. *)
Definition update_effect (id : string) (P : RtEffect V → bool) (f : RtEffect V → RtEffect V) T : Tables V * nat :=
  let r := update_where id P f (t_effects T) in (with_effects r.1 T, r.2).

(** *** Requests, runs, leases *)

(** [mark_cancellation_requests_terminal_on]. *)
Definition open_request (effect : string) (r : RtRequest) : bool :=
  bool_decide (rq_effect r = effect) && bool_decide (rq_status r = "requested").

Definition mark_requests_terminal (effect event_id : string) T : Tables V :=
  with_requests (update_every (open_request effect) (λ r, mkRequest (rq_effect r) (rq_revision r) (rq_reason r)
    (rq_by r) (rq_causation r) "terminal" (rq_key r) (Some event_id)) (t_requests T)) T.

(** [effect_has_open_cancellation_request_on]. *)
Definition has_open_request (effect : string) T : bool :=
  bool_decide (0 < count_rows (open_request effect) (t_requests T)).

(** The release of a run's lease. *)
Definition held_lease (run effect : string) (l : RtLease) : bool :=
  bool_decide (le_run l = run) && bool_decide (le_effect l = effect) && bool_decide (le_status l = "active").

Definition release_leases (run effect : string) T : Tables V :=
  with_leases (update_every (held_lease run effect) (set_lease_status "released") (t_leases T)) T.

(** The [UPDATE runs] of a terminal. *)
Definition finish_run (status at_ : string) (exit_code : option Z) (summary : option string) (metadata : V)
    (r : RtRun V) : RtRun V :=
  mkRun (ru_effect r) (ru_provider r) (ru_worker r) status metadata (ru_started_at r) (Some at_) exit_code summary.

(** The [UPDATE runs] of an expired lease. *)
Definition expire_run (at_ : string) (r : RtRun V) : RtRun V :=
  mkRun (ru_effect r) (ru_provider r) (ru_worker r) "lease_expired" (ru_metadata r) (ru_started_at r) (Some at_)
    (ru_exit r) (ru_summary r).

End statements.

#[global] Arguments update_effect : simpl never.
#[global] Arguments satisfy_dependencies : simpl never.
#[global] Arguments mark_requests_terminal : simpl never.
#[global] Arguments release_leases : simpl never.
