(* ===== verification/ExecLifetime.v ===== *)
(** The lifetime journal of executions (store/exec_lifetime.rs): the request that is tracked,
    the fence that is asked for once, the proof that closes the run, and the check of every
    tracked run before an effect is tried again. *)
From S2P Require Import Prelude ExecInvocation ExecResolution RuntimeTables.
Local Open Scope string_scope.

Definition EVENT_TYPE : string := "exec.lifetime.tracked".
Definition FENCE_EVENT : string := "exec.fence.requested".
Definition PROOF_EVENT : string := "exec.fence.proved".

(** [journal_key] is the text of the JSON array of an event type and a run. *)
Section lifetime.
Context {V : Type} `{!EqDecision V, !RuntimeJson V} (journal_key : string → string → string) (instance_id : string).
Implicit Types (t : Tracking V) (f : FenceRecord) (c : Closure V) (p : ProofRecord V) (e : Event V).

(** [value["k"]]: a missing member is null. *)
Definition index (v : V) (k : string) : V := default null_value (member v k).

(** The comparison of a value with a text. *)
Definition text_is (v : V) (s : string) : bool := bool_decide (as_text v = Some s).

Definition has_text (v : V) : bool := from_option (λ s, negb (bool_decide (s = ""))) false (as_text v).

(** [Track::payload]: the envelope names the run that is tracked. *)
Definition track_payload t : result runtime_error unit :=
  let invocation := tk_invocation t in
  ensure (negb (bool_decide (instance_id = "") || bool_decide (tk_effect t = "") || bool_decide (tk_run t = "")
                || bool_decide (tk_url t = ""))
          && text_is (index invocation "protocol") "whipplescript.exec.invocation/v1"
          && text_is (index (index invocation "invocation") "instance_id") instance_id
          && text_is (index (index invocation "invocation") "effect_id") (tk_effect t)
          && text_is (index invocation "run_id") (tk_run t))
    (Conflict "exec lifetime request identity differs").

(** [Track::verify_replay]. *)
Definition verify_tracked e t : result runtime_error unit :=
  ensure (bool_decide (e_payload e = PTracked t) && bool_decide (e_source e = "kernel"))
    (Conflict "exec lifetime request cannot be replaced").

(** [Fence::validate]. *)
Definition fence_validate (run : string) : result runtime_error unit :=
  ensure (negb (bool_decide (instance_id = "") || bool_decide (run = ""))) (Conflict "exec fence request identity is invalid").

(** [Fence::payload], from the tracking event. *)
Definition fence_payload (run : string) (reason : FenceReason) (tracking : Event V) : result runtime_error FenceRecord :=
  _ ← fence_validate run;
  match e_payload tracking with
  | PTracked t =>
      _ ← ensure (negb (bool_decide (e_id tracking = "")) && bool_decide (e_source tracking = "kernel") && bool_decide (tk_run t = run))
            (Conflict "exec fence requires its original tracking record");
      _ ← track_payload t;
      Ok (mkFence (tk_effect t) run (e_id tracking) (journal_key FENCE_EVENT run) reason)
  | _ => Err (Conflict "exec fence requires its original tracking record")
  end.

(** [Fence::verify_existing]: the reason of the first request stands. *)
Definition verify_existing e (requested : FenceRecord) : result runtime_error unit :=
  match e_payload e with
  | PFenceRequested f =>
      ensure (bool_decide (e_source e = "kernel") && bool_decide (fn_effect f = fn_effect requested)
              && bool_decide (fn_run f = fn_run requested) && bool_decide (fn_tracking f = fn_tracking requested)
              && bool_decide (fn_id f = fn_id requested))
        (Conflict "exec fence intent cannot be replaced")
  | _ => Err JsonRefused
  end.

(** [verify_controller_placement]. *)
Definition verify_controller_placement (placement : V) t : result runtime_error unit :=
  ensure (bool_decide (object_size placement = Some 5)
          && text_is (index placement "protocol") "whipplescript.exec.placement/v2"
          && bool_decide (index placement "envelope" = tk_invocation t)
          && bool_decide (index placement "selected" = index (tk_invocation t) "invocation")
          && has_text (index placement "container_id") && has_text (index placement "dispatch_id"))
    (Conflict "exec closure differs from its original controller request").

(** [Closure::verify]. *)
Definition closure_verify c t : result runtime_error unit :=
  _ ← match lifetime_validate (co_lifetime c) with
      | Ok _ => Ok tt
      | Err NonAdmissionEmpty => Err (Conflict "provider non-admission fence identity is empty")
      | Err _ => Err (Conflict "provider termination binding is empty")
      end;
  _ ← ensure (negb (bool_decide (co_lifetime c = LPending))) (Conflict "pending lifetime is not closure");
  verify_controller_placement (co_placement c) t.

(** [Proof::payload], from the two events it refers to. *)
Definition proof_payload (run : string) c (tracking fence : Event V) : result runtime_error (ProofRecord V) :=
  match e_payload fence with
  | PFenceRequested f =>
      expected ← fence_payload run (fn_reason f) tracking;
      _ ← verify_existing fence expected;
      t ← match e_payload tracking with PTracked t => Ok t | _ => Err JsonRefused end;
      _ ← closure_verify c t;
      _ ← ensure (negb (bool_decide (e_id fence = ""))) (Conflict "exec closure fence event identity is empty");
      Ok (mkProof (fn_effect f) run (e_id tracking) (e_id fence) c)
  | _ => Err JsonRefused
  end.

(** [Proof::verify_replay]. *)
Definition verify_proved e p : result runtime_error unit :=
  ensure (bool_decide (e_payload e = PFenceProved p) && bool_decide (e_source e = "kernel"))
    (Conflict "exec closure proof cannot be replaced").

(** [verify_retry_closure]: one run of the effect, and all of them. *)
Definition verify_run_closure (effect : string) (read : string → option (Event V)) (run : string * bool)
    : result runtime_error unit :=
  match read (journal_key EVENT_TYPE run.1) with
  | None => ensure (negb run.2) (Conflict "executor retry tracking journal identity changed")
  | Some tracking =>
      fence ← ok_or (Conflict "executor retry requires retained fence intent") (read (journal_key FENCE_EVENT run.1));
      held ← ok_or (Conflict "executor retry awaits lifetime closure") (read (journal_key PROOF_EVENT run.1));
      match e_payload held with
      | PFenceProved p =>
          expected ← proof_payload run.1 (pf_closure p) tracking fence;
          _ ← verify_proved held expected;
          ensure (negb (bool_decide (e_id held = "")) && bool_decide (pf_effect p = effect))
            (Conflict "executor retry closure differs from its effect")
      | _ => Err JsonRefused
      end
  end.

Definition verify_retry_closure (effect : string) (runs : list (string * bool)) (read : string → option (Event V))
    : result runtime_error unit := check_all (verify_run_closure effect read) runs.

(** ** What a closure says *)

(** A run is closed: the kernel tracked it for the effect and recorded a proof about that
    record, the provider's answer is conclusive, and it is about the tracked invocation. *)
Record closed_run (effect run : string) (tracking held : Event V) t p : Prop := mkClosed {
  cr_tracked : e_payload tracking = PTracked t ∧ e_source tracking = "kernel";
  cr_request : tk_run t = run ∧ tk_effect t = effect ∧ track_payload t = Ok tt;
  cr_proved : e_payload held = PFenceProved p ∧ e_source held = "kernel";
  cr_record : pf_run p = run ∧ pf_effect p = effect ∧ pf_tracking p = e_id tracking;
  cr_conclusive : co_lifetime (pf_closure p) ≠ LPending ∧ lifetime_validate (co_lifetime (pf_closure p)) = Ok tt;
  cr_bound : index (co_placement (pf_closure p)) "envelope" = tk_invocation t;
}.

Lemma fence_payload_spec run reason tracking f :
  fence_payload run reason tracking = Ok f →
  ∃ t, e_payload tracking = PTracked t ∧ e_source tracking = "kernel" ∧ tk_run t = run ∧ track_payload t = Ok tt ∧
    f = mkFence (tk_effect t) run (e_id tracking) (journal_key FENCE_EVENT run) reason.
Proof.
  unfold fence_payload. intros ([] & _ & H)%bind_ok. destruct (e_payload tracking) as [| | | | | | | | | | | | | | | | |t| | | | | | | |] eqn:Hp; try done.
  apply bind_ok in H as ([] & Hc%ensure_ok & H). apply bind_ok in H as ([] & Ht & [= <-]).
  rewrite !andb_true_iff, !bool_decide_eq_true in Hc. naive_solver.
Qed.

Lemma closure_verify_spec c t :
  closure_verify c t = Ok tt →
  co_lifetime c ≠ LPending ∧ lifetime_validate (co_lifetime c) = Ok tt ∧ index (co_placement c) "envelope" = tk_invocation t.
Proof.
  unfold closure_verify. intros ([] & Hv & H)%bind_ok. apply bind_ok in H as ([] & Hl%ensure_ok & Hp%ensure_ok).
  apply negb_true_iff, bool_decide_eq_false in Hl. rewrite !andb_true_iff, !bool_decide_eq_true in Hp.
  destruct (lifetime_validate _) as [[]|[]]; naive_solver.
Qed.

Lemma proof_payload_spec run c tracking fence p :
  proof_payload run c tracking fence = Ok p →
  ∃ t, e_payload tracking = PTracked t ∧ e_source tracking = "kernel" ∧ tk_run t = run ∧ track_payload t = Ok tt ∧
    closure_verify c t = Ok tt ∧ p = mkProof (tk_effect t) run (e_id tracking) (e_id fence) c.
Proof.
  unfold proof_payload. destruct (e_payload fence) as [| | | | | | | | | | | | | | | | | |f| | | | | | |] eqn:Hf; try done.
  intros (expected & Hx & H)%bind_ok. apply fence_payload_spec in Hx as (t & Ht & Hs & Hr & Hp & ->).
  apply bind_ok in H as ([] & He & H). rewrite Ht in H. apply bind_ok in H as (t' & [= <-] & H).
  apply bind_ok in H as ([] & Hc & H). apply bind_ok in H as ([] & _ & [= <-]).
  unfold verify_existing in He. rewrite Hf, ensure_ok, !andb_true_iff, !bool_decide_eq_true in He. simpl in He.
  exists t. destruct He as ((((_ & ->) & _) & _) & _). done.
Qed.

(** A run that passes the check before a retry was never tracked, or it is closed. *)
Lemma run_closure_spec effect read run tracked :
  verify_run_closure effect read (run, tracked) = Ok tt →
  (tracked = false ∧ read (journal_key EVENT_TYPE run) = None) ∨
  ∃ tracking held t p, read (journal_key EVENT_TYPE run) = Some tracking ∧ read (journal_key PROOF_EVENT run) = Some held ∧
    closed_run effect run tracking held t p.
Proof.
  unfold verify_run_closure. simpl. destruct (read (journal_key EVENT_TYPE run)) as [tracking|].
  - intros (fence & _ & H)%bind_ok. apply bind_ok in H as (held & Hh & H). destruct (read (journal_key PROOF_EVENT run)) as [held'|]; [|done].
    injection Hh as ->. destruct (e_payload held) as [| | | | | | | | | | | | | | | | | | |p| | | | | |] eqn:Hp; try done.
    apply bind_ok in H as (expected & Hx & H). apply bind_ok in H as ([] & Hv%ensure_ok & He%ensure_ok).
    apply proof_payload_spec in Hx as (t & Ht & Hs & Hr & Hok & Hc & ->). apply closure_verify_spec in Hc as (H1 & H2 & H3).
    apply andb_true_iff in Hv as [Hv%bool_decide_eq_true Hk%bool_decide_eq_true], He as [_ He%bool_decide_eq_true].
    rewrite Hp in Hv. injection Hv as Hv. right. exists tracking, held, t, p.
    assert (pf_run p = run ∧ pf_effect p = tk_effect t ∧ pf_tracking p = e_id tracking) as (Hpr & Hpe & Hpt) by by rewrite Hv.
    split_and!; [done..|]. split; [done| |done..]. split_and!; congruence.
  - intros H%ensure_ok. left. split; [by destruct tracked|done].
Qed.

End lifetime.
