(* ===== verification/ExecOutcome.v ===== *)
(** What becomes of an execution (store/exec_outcome.rs, exec_settlement.rs and
    exec_reconciliation.rs): the outcome the broker observed, bound to the lifetime journal,
    the settlement that is retained before it is projected, the status a completion may
    record for it, and the wake of an unresolved invocation. *)
From S2P Require Import Prelude ExecInvocation ExecResolution RuntimeTables ExecLifetime.
Local Open Scope string_scope.

Definition OUTCOME_EVENT : string := "exec.outcome.observed".

Record EffectCompletion (V : Type) := mkCompletion {
  ec_effect : string; ec_run : string; ec_provider : string; ec_worker : string; ec_status : string;
  ec_exit : option Z; ec_summary : option string; ec_metadata : V; ec_key : option string;
}.
Arguments mkCompletion {V}. Arguments ec_effect {V}. Arguments ec_run {V}. Arguments ec_provider {V}.
Arguments ec_worker {V}. Arguments ec_status {V}. Arguments ec_exit {V}. Arguments ec_summary {V}.
Arguments ec_metadata {V}. Arguments ec_key {V}.

(** [render] is the text of a value and [sha256_hex] the digest of a text. *)
Section outcome.
Context {V : Type} `{!EqDecision V, !RuntimeJson V}.
Context (journal_key : string → string → string) (render : V → string) (sha256_hex : string → string) (instance_id : string).
Implicit Types (t : Tracking V) (e : Event V) (c : EffectCompletion V).

(** ** Observed outcomes *)

(** [Retention::needs_proof]: only a result stands without a proof of closure. *)
Definition needs_proof (o : Outcome V) : bool := match o with OutcomeCompleted _ _ => false | _ => true end.

(** The closure that an outcome without a result needs. *)
Definition outcome_matches (o : Outcome V) (l : LifetimeEvidence) : bool :=
  match o, l with
  | OutcomeNotExecuted, LNotAdmitted _ | OutcomeUncertain, LTerminated _ _ _ => true
  | _, _ => false
  end.

(** The proof event that [Retention::payload] binds. *)
Definition outcome_proof (run : string) (placement : V) (o : Outcome V) (tracking fence : Event V) (proof : option (Event V))
    : result runtime_error (option string) :=
  if negb (needs_proof o) then Ok None
  else
    journal ← ok_or (Conflict "exec non-result requires retained closure proof") proof;
    match e_payload journal with
    | PFenceProved p =>
        expected ← proof_payload journal_key instance_id run (pf_closure p) tracking fence;
        _ ← verify_proved journal expected;
        _ ← ensure (negb (bool_decide (e_id journal = "")) && bool_decide (co_placement (pf_closure p) = placement)
                    && outcome_matches o (co_lifetime (pf_closure p)))
              (Conflict "exec outcome contradicts its closure proof");
        Ok (Some (e_id journal))
    | _ => Err JsonRefused
    end.

(** [Retention::payload] of exec_outcome.rs. *)
Definition outcome_payload (run : string) (placement : V) (o : Outcome V) (tracking fence : Event V) (proof : option (Event V))
    : result runtime_error (OutcomeRecord V) :=
  match e_payload fence with
  | PFenceRequested f =>
      expected ← fence_payload journal_key instance_id run (fn_reason f) tracking;
      _ ← verify_existing fence expected;
      _ ← ensure (negb (bool_decide (e_id fence = ""))) (Conflict "exec outcome fence identity is empty");
      t ← match e_payload tracking with PTracked t => Ok t | _ => Err JsonRefused end;
      _ ← verify_controller_placement placement t;
      proof_id ← outcome_proof run placement o tracking fence proof;
      Ok (mkOutcome (fn_effect f) run (e_id tracking) (e_id fence) proof_id placement o)
  | _ => Err JsonRefused
  end.

(** [Retention::verify_replay] of exec_outcome.rs. *)
Definition verify_observed e (o : OutcomeRecord V) : result runtime_error unit :=
  ensure (bool_decide (e_payload e = POutcomeObserved o) && bool_decide (e_source e = "kernel"))
    (Conflict "exec observed outcome cannot be replaced").

(** ** The status of a completion *)

(** The statuses of the effect and of the run when nothing was executed. *)
Definition not_executed_status (reason : FenceReason) : string * string :=
  match reason with
  | FenceCancellation => ("cancelled", "cancelled")
  | FenceDeadline => ("timed_out", "timed_out")
  | _ => ("failed", "failed")
  end.

(** The statuses that an observed outcome allows. *)
Definition outcome_statuses c (has_cache : bool) (o : Outcome V) (fence : Event V) : result runtime_error (string * string) :=
  match o with
  | OutcomeCompleted status body =>
      _ ← ensure (bool_decide (ec_status c ∈ ["completed"; "failed"])
                  && bool_decide (index (ec_metadata c) "executor_response" = object_of [("status", number_of status); ("body", body)]))
            (Conflict "exec settlement changed its observed response");
      Ok (ec_status c, ec_status c)
  | _ =>
      _ ← ensure (negb has_cache && bool_decide (ec_exit c = None)) (Conflict "exec non-result cannot supply cache or exit status");
      match o, e_payload fence with
      | OutcomeUncertain, _ => Ok ("failed", "uncertain")
      | _, PFenceRequested f => Ok (not_executed_status (fn_reason f))
      | _, _ => Err JsonRefused
      end
  end.

(** [projection_run_status]: a completion that refers to an observed outcome records the
    status that the outcome allows. *)
Definition projection_run_status c (default_run_status : string) (has_cache : bool) (read : string → option (Event V))
    : result runtime_error string :=
  match member (ec_metadata c) "executor_outcome_event_id" with
  | None => Ok default_run_status
  | Some reference =>
      reference ← ok_or (Conflict "exec settlement outcome reference is invalid")
                    (as_text reference ≫= λ s, if bool_decide (s = "") then None else Some s);
      row ← ok_or (Conflict "exec settlement observed outcome is missing") (read (journal_key OUTCOME_EVENT (ec_run c)));
      match e_payload row with
      | POutcomeObserved o =>
          tracking ← ok_or (Conflict "exec settlement tracking is missing") (read (journal_key EVENT_TYPE (ec_run c)));
          fence ← ok_or (Conflict "exec settlement fence is missing") (read (journal_key FENCE_EVENT (ec_run c)));
          let proof := if needs_proof (oc_outcome o) then read (journal_key PROOF_EVENT (ec_run c)) else None in
          expected ← outcome_payload (ec_run c) (oc_placement o) (oc_outcome o) tracking fence proof;
          _ ← verify_observed row expected;
          _ ← ensure (bool_decide (e_id row = reference) && bool_decide (oc_effect o = ec_effect c))
                (Conflict "exec settlement selects another observed outcome");
          '(effect_status, run_status) ← outcome_statuses c has_cache (oc_outcome o) fence;
          _ ← ensure (bool_decide (ec_status c = effect_status)) (Conflict "exec settlement status contradicts its observed outcome");
          Ok run_status
      | _ => Err JsonRefused
      end
  end.

(** ** Retained settlements *)

(** [retention_key]. *)
Definition retention_key (run : string) : string := "exec-settlement-retained:" ++ run.

(** [Retention::verify_input]. *)
Definition verify_input (stored : V) (s : SettlementRecord V) : result runtime_error unit :=
  ensure (bool_decide (stored = sl_input s)) (Conflict "exec settlement differs from the run's stored input").

(** [verify_replay] of exec_settlement.rs. *)
Definition verify_retained e (s : SettlementRecord V) : result runtime_error unit :=
  ensure (bool_decide (e_payload e = PSettlementRetained s) && bool_decide (e_source e = "kernel"))
    (Conflict "exec settlement receipt cannot be replaced").

(** The projections and the material of a settlement; [cache] is the key and the text of a
    result that is kept. *)
Definition projection_value (fk : NewFact V * string) : V :=
  let '(f, key) := fk in
  object_of [("name", text_of (nf_name f)); ("key", text_of (nf_key f)); ("value", text_of (render (nf_value f)));
             ("ingest", bool_of (bool_decide (nf_provenance f = "ingest"))); ("event_key", text_of key)].

Definition settlement_material c (facts : list (NewFact V * string)) (cache : option (string * string)) : V :=
  object_of [("status", text_of (ec_status c)); ("exit_code", from_option number_of null_value (ec_exit c));
             ("summary", from_option text_of null_value (ec_summary c)); ("metadata", ec_metadata c);
             ("projections", array_of (projection_value <$> facts));
             ("cache", from_option (λ kr, array_of [text_of kr.1; text_of kr.2]) null_value cache)].

(** [verify_settlement]: the projection is the one that was retained. *)
Definition verify_settlement e (input : V) c (facts : list (NewFact V * string)) (cache : option (string * string))
    : result runtime_error unit :=
  ensure (match e_payload e with
          | PSettlementRetained s =>
              bool_decide (e_source e = "kernel") && bool_decide (sl_effect s = ec_effect c) && bool_decide (sl_run s = ec_run c)
              && bool_decide (sl_input s = input) && bool_decide (sl_settlement s = settlement_material c facts cache)
          | _ => false end)
    (Conflict "exec projection batch differs from its retained receipt").

(** The executor's own verdict in a settlement. *)
Definition executor_state (s : SettlementRecord V) : option string :=
  metadata ← member (sl_settlement s) "metadata"; outcome ← member metadata "executor_outcome";
  state ← member outcome "state"; as_text state.

(** ** The dispatch that was retained *)

(** [verify_retained_dispatch]. *)
Definition verify_retained_dispatch (requested_input invocation input metadata : V) : result runtime_error unit :=
  let plan := index metadata "executor_dispatch" in
  ensure (text_is (index plan "protocol") "whipplescript.exec.dispatch/v1"
          && text_is (index plan "input_sha256") (sha256_hex (render input))
          && text_is (index plan "request_body_sha256") (sha256_hex (render (index invocation "dispatch")))
          && bool_decide (is_Some (object_size invocation))
          && bool_decide (member metadata "executor_invocation" = Some invocation)
          && bool_decide (input = requested_input))
    (Conflict "exec reconciliation differs from the original invocation").

(** [Track::verify_binding]. *)
Definition verify_binding t (input metadata : V) : result runtime_error unit :=
  _ ← verify_retained_dispatch (tk_input t) (tk_invocation t) input metadata;
  ensure (text_is (index metadata "executor_url") (tk_url t)
          && text_is (index (index metadata "executor_dispatch") "request_sha256")
               (sha256_hex (render (array_of [text_of (tk_url t); index (tk_invocation t) "dispatch"]))))
    (Conflict "exec lifetime target differs from retained dispatch").

(** [Schedule::payload]: a wake lies in the future. *)
Definition wake_payload (w : WakeRecord V) : result runtime_error unit :=
  ensure (wk_now w <? wk_due w)%Z (Conflict "exec reconciliation wake must be in the future").

(** [Schedule::verify_replay]. *)
Definition verify_wake e (w : WakeRecord V) : result runtime_error unit :=
  ensure (bool_decide (e_payload e = PWakeScheduled w) && bool_decide (e_source e = "kernel"))
    (Conflict "exec reconciliation wake cannot be replaced").

(** ** What a settled status says *)

(** The run is closed by a proof, held by the kernel, whose evidence satisfies [P]. *)
Definition proved_closed (effect run : string) (read : string → option (Event V)) (P : LifetimeEvidence → Prop) : Prop :=
  ∃ held p, read (journal_key PROOF_EVENT run) = Some held ∧ e_payload held = PFenceProved p ∧ e_source held = "kernel" ∧
    pf_run p = run ∧ pf_effect p = effect ∧ P (co_lifetime (pf_closure p)).

(** The status [s] of the run follows from the outcome: a result is the response that the
    broker returned; nothing is called not executed unless the provider never admitted it;
    a run that ended without a result is uncertain, behind a proof that it ended. *)
Definition settled_as c (s : string) (o : Outcome V) (read : string → option (Event V)) : Prop :=
  match o with
  | OutcomeCompleted status body =>
      ec_status c ∈ ["completed"; "failed"] ∧ s = ec_status c ∧
      index (ec_metadata c) "executor_response" = object_of [("status", number_of status); ("body", body)]
  | OutcomeUncertain =>
      ec_status c = "failed" ∧ s = "uncertain" ∧ ec_exit c = None ∧
      proved_closed (ec_effect c) (ec_run c) read (λ l, ∃ i f b, l = LTerminated i f b)
  | OutcomeNotExecuted =>
      ec_exit c = None ∧ proved_closed (ec_effect c) (ec_run c) read (λ l, ∃ f, l = LNotAdmitted f) ∧
      ∃ fence f, read (journal_key FENCE_EVENT (ec_run c)) = Some fence ∧ e_payload fence = PFenceRequested f ∧
        (ec_status c, s) = not_executed_status (fn_reason f)
  end.

Lemma outcome_payload_spec run placement o tracking fence proof record :
  outcome_payload run placement o tracking fence proof = Ok record →
  oc_run record = run ∧ oc_outcome record = o ∧
  (needs_proof o = true → ∃ held p, proof = Some held ∧ e_payload held = PFenceProved p ∧ e_source held = "kernel" ∧
     pf_run p = run ∧ pf_effect p = oc_effect record ∧ outcome_matches o (co_lifetime (pf_closure p)) = true).
Proof.
  clear render sha256_hex.
  unfold outcome_payload. destruct (e_payload fence) as [| | | | | | | | | | | | | | | | | |f| | | | | | |] eqn:Hf; try done.
  intros (expected & Hx & H)%bind_ok. apply fence_payload_spec in Hx as (t & Ht & _ & _ & _ & ->).
  apply bind_ok in H as ([] & He & H). apply bind_ok in H as ([] & _ & H). apply bind_ok in H as (t' & _ & H).
  apply bind_ok in H as ([] & _ & H). apply bind_ok in H as (proof_id & Hp & [= <-]). split_and!; [done..|]. intros Hn.
  unfold outcome_proof in Hp. rewrite Hn in Hp. simpl in Hp. apply bind_ok in Hp as (held & Hh & Hp).
  destruct proof as [held'|]; [|done]. injection Hh as ->.
  destruct (e_payload held) as [| | | | | | | | | | | | | | | | | | |p| | | | | |] eqn:Hpay; try done.
  apply bind_ok in Hp as (expected & Hx & Hp). apply proof_payload_spec in Hx as (t1 & Ht1 & _ & _ & _ & _ & ->).
  apply bind_ok in Hp as ([] & Hv%ensure_ok & Hp). apply bind_ok in Hp as ([] & Hm%ensure_ok & _).
  apply andb_true_iff in Hv as [Hv%bool_decide_eq_true Hk%bool_decide_eq_true], Hm as [_ Hm]. rewrite Hpay in Hv. injection Hv as Hv.
  unfold verify_existing in He. rewrite Hf, ensure_ok, !andb_true_iff, !bool_decide_eq_true in He. simpl in He.
  rewrite Ht in Ht1. injection Ht1 as <-. exists held, p. split_and!; [done..| | |done]; rewrite Hv; simpl; [done|]. by destruct He as ((((_ & ->) & _) & _) & _).
Qed.

(** A completion that refers to an outcome records what the outcome says. *)
Lemma projection_spec c status has_cache read s reference :
  member (ec_metadata c) "executor_outcome_event_id" = Some reference →
  projection_run_status c status has_cache read = Ok s →
  ∃ row o, read (journal_key OUTCOME_EVENT (ec_run c)) = Some row ∧ e_payload row = POutcomeObserved o ∧ e_source row = "kernel" ∧
    as_text reference = Some (e_id row) ∧ oc_effect o = ec_effect c ∧ oc_run o = ec_run c ∧ settled_as c s (oc_outcome o) read.
Proof.
  clear render sha256_hex.
  intros Hm. unfold projection_run_status. rewrite Hm. intros (id & Hid & H)%bind_ok.
  assert (as_text reference = Some id) as Href.
  { destruct (as_text reference) as [x|]; [|done]. simpl in Hid. case_bool_decide; simplify_eq/=; done. }
  clear Hid. apply bind_ok in H as (row & Hrow & H).
  destruct (read (journal_key OUTCOME_EVENT (ec_run c))) as [row'|]; [|done]. injection Hrow as ->.
  destruct (e_payload row) as [| | | | | | | | | | | | | | | | | | | |o| | | | |] eqn:Hpay; try done.
  apply bind_ok in H as (tracking & _ & H). apply bind_ok in H as (fence & Hf & H). apply bind_ok in H as (expected & Hx & H).
  apply bind_ok in H as ([] & Hv%ensure_ok & H). apply bind_ok in H as ([] & Hr%ensure_ok & H).
  apply bind_ok in H as ([es rs] & Hst & H). apply bind_ok in H as ([] & Hes%ensure_ok & [= <-]).
  apply andb_true_iff in Hv as [Hv%bool_decide_eq_true Hk%bool_decide_eq_true], Hr as [Hr%bool_decide_eq_true He%bool_decide_eq_true].
  apply bool_decide_eq_true in Hes as <-. rewrite Hpay in Hv. injection Hv as <-. subst id.
  apply outcome_payload_spec in Hx as (Hrun & _ & Hproof). exists row, o. split_and!; [done..|].
  destruct (read (journal_key FENCE_EVENT (ec_run c))) as [fence'|] eqn:Hfence; [|done]. injection Hf as ->.
  rewrite He in Hproof. destruct (oc_outcome o) as [code body| |]; simpl in *.
  - apply bind_ok in Hst as ([] & Hc%ensure_ok & [= <-]). rewrite andb_true_iff, !bool_decide_eq_true in Hc. naive_solver.
  - apply bind_ok in Hst as ([] & Hc%ensure_ok & Hst). apply andb_true_iff in Hc as [_ Hx%bool_decide_eq_true].
    destruct (e_payload fence) as [| | | | | | | | | | | | | | | | | |f| | | | | | |] eqn:Hp; try done. injection Hst as Hst.
    destruct Hproof as (held & p & Hheld & H1 & H2 & H3 & H4 & H5); [done|]. split_and!; [done| |].
    + exists held, p. split_and!; [done..|]. destruct (co_lifetime (pf_closure p)); naive_solver.
    + exists fence, f. done.
  - apply bind_ok in Hst as ([] & Hc%ensure_ok & [= <- <-]). apply andb_true_iff in Hc as [_ Hx%bool_decide_eq_true].
    destruct Hproof as (held & p & Hheld & H1 & H2 & H3 & H4 & H5); [done|]. split_and!; [done..|].
    exists held, p. split_and!; [done..|]. destruct (co_lifetime (pf_closure p)); naive_solver.
Qed.

End outcome.
