(* ===== verification/RuntimePolicy.v ===== *)
(** The admission gate of an effect (store/lib.rs, [policy_block_on] and
    [capacity_block_on]): what the declared profiles of a program say of an agent, which
    capabilities an effect requires, and whether they are registered, bound for the program
    and allowed by the profile.  The registries are rows of the store that no operation on
    an instance changes. *)
From stdpp Require Import pretty.
From S2P Require Import Prelude RuntimeTables.
Local Open Scope string_scope.

(** ** Values *)

(** A decoded JSON value; the members of an object have different names. *)
Inductive json :=
| JNull | JBool (b : bool) | JInt (n : Z) | JFloat (digits : string) | JString (s : string)
| JArray (items : list json) | JObject (members : list (string * json)).

Definition as_str (v : json) : option string := match v with JString s => Some s | _ => None end.

Fixpoint find_member (k : string) (o : list (string * json)) : option json :=
  match o with
  | [] => None
  | (k', v) :: o => if bool_decide (k' = k) then Some v else find_member k o
  end.

(** [Value::get]. *)
Definition get (k : string) (v : json) : option json := match v with JObject o => find_member k o | _ => None end.

#[export] Instance json_eq_dec : EqDecision json.
Proof.
  refine (fix go v w := let _ : EqDecision json := @go in
    match v, w with
    | JNull, JNull => left _
    | JBool a, JBool b => cast_if (decide (a = b))
    | JInt a, JInt b => cast_if (decide (a = b))
    | JFloat a, JFloat b => cast_if (decide (a = b))
    | JString a, JString b => cast_if (decide (a = b))
    | JArray a, JArray b => cast_if (decide (a = b))
    | JObject a, JObject b => cast_if (decide (a = b))
    | _, _ => right _
    end); congruence.
Defined.

(** Decoded values are values of the runtime store. *)
#[export] Instance json_runtime : RuntimeJson json := {|
  null_value := JNull; empty_object := JObject [];
  is_array v := match v with JArray _ => true | _ => false end;
  member v k := get k v; as_text := as_str;
  object_size v := match v with JObject o => Some (length o) | _ => None end;
  object_of := JObject; array_of := JArray; text_of := JString; number_of := JInt; bool_of := JBool;
|}.

(** [Value::as_array], the strings of it. *)
Definition strings_of (v : json) : list string := match v with JArray items => omap as_str items | _ => [] end.

(** [find_map] over a slice, and over the member of an object with a given name. *)
Definition find_map {A B} (f : A → option B) : list A → option B :=
  fix go l := match l with [] => None | x :: l => match f x with Some y => Some y | None => go l end end.

Definition member_map {B} (f : json → option B) (k : string) : list (string * json) → option B :=
  fix go o := match o with [] => None | (k', v) :: o => if bool_decide (k' = k) then f v else go o end.

(** The name under which an object declares an agent: of the first of the four members that
    is there. *)
Definition declared_agent (o : list (string * json)) : option string :=
  match find_member "name" o with Some v => Some v | None =>
  match find_member "agent" o with Some v => Some v | None =>
  match find_member "agent_name" o with Some v => Some v | None => find_member "target" o end end end ≫= as_str.

(** ** Declared profiles *)

(** [declared_agents_present]. *)
Definition agent_entry (kv : string * json) : bool :=
  negb (bool_decide (kv.1 ∈ ["harnesses"; "workflow"; "schemas"]))
  && match kv.2 with
     | JObject entry => existsb (λ k, bool_decide (is_Some (find_member k entry)))
                          ["profile"; "capacity"; "capabilities"; "harness"; "provider"]
     | _ => false end.

Definition declared_agents_present (v : json) : bool :=
  match v with
  | JArray items => negb (bool_decide (length items = 0))
  | JObject o =>
      match find_member "agents" o with Some (JArray agents) => negb (bool_decide (length agents = 0)) | _ => false end
      || existsb agent_entry o
  | _ => false
  end.

(** [agent_profile_in_value]. *)
Fixpoint agent_profile_in_value (agent : string) (v : json) : option (option string) :=
  match v with
  | JArray items => find_map (agent_profile_in_value agent) items
  | JObject o =>
      match find_member agent o with
      | Some entry => Some (get "profile" entry ≫= as_str)
      | None =>
          match member_map (agent_profile_in_value agent) "agents" o with
          | Some profile => Some profile
          | None => if bool_decide (declared_agent o = Some agent) then Some (find_member "profile" o ≫= as_str) else None
          end
      end
  | _ => None
  end.

(** [capabilities_value] and [agent_capabilities_in_value]: an entry without capabilities
    ends the search. *)
Fixpoint agent_capabilities_in_value (agent : string) (v : json) : option (list string) :=
  match v with
  | JArray items => find_map (agent_capabilities_in_value agent) items
  | JObject o =>
      match find_member agent o with
      | Some entry => strings_of <$> get "capabilities" entry
      | None =>
          match member_map (agent_capabilities_in_value agent) "agents" o with
          | Some capabilities => Some capabilities
          | None => if bool_decide (declared_agent o = Some agent) then strings_of <$> find_member "capabilities" o else None
          end
      end
  | _ => None
  end.

(** [capacity_value]: an integer that is an [i64]. *)
Definition capacity_value (v : json) : option Z :=
  match v with
  | JInt n => if (-9223372036854775808 <=? n)%Z && (n <=? 9223372036854775807)%Z then Some n else None
  | _ => None
  end.

(** [agent_capacity_in_value]. *)
Fixpoint agent_capacity_in_value (agent : string) (v : json) : option Z :=
  match v with
  | JArray items => find_map (agent_capacity_in_value agent) items
  | JObject o =>
      match find_member agent o ≫= capacity_value with
      | Some c => Some c
      | None =>
          match (find_member agent o ≫= get "capacity") ≫= capacity_value with
          | Some c => Some c
          | None =>
              match member_map (agent_capacity_in_value agent) "agents" o with
              | Some c => Some c
              | None => if bool_decide (declared_agent o = Some agent) then find_member "capacity" o ≫= capacity_value else None
              end
          end
      end
  | _ => None
  end.

(** ** Registries *)

Record ProgramVersion := mkVersion { pv_program : string; pv_profiles : json }.

Record Registry := mkRegistry {
  rg_versions : gmap string ProgramVersion;
  rg_providers : list string;
  rg_schemas : list string;
  (** capability and program; no program is every program. *)
  rg_bindings : list (string * option string);
  rg_profiles : gmap string (string * json);
}.

Definition effect_provider_exists (g : Registry) (kind : string) : bool := bool_decide (kind ∈ rg_providers g).
Definition capability_schema_exists (g : Registry) (capability : string) : bool := bool_decide (capability ∈ rg_schemas g).
Definition capability_bound (g : Registry) (program capability : string) : bool :=
  existsb (λ b, bool_decide (b.1 = capability) && (bool_decide (b.2 = Some program) || bool_decide (b.2 = None))) (rg_bindings g).
Definition profile_policy (g : Registry) (profile : string) : option (string * list string) :=
  prod_map id strings_of <$> rg_profiles g !! profile.
Definition capability_allowed (allowed : list string) (capability : string) : bool :=
  existsb (λ item, bool_decide (item = "*") || bool_decide (item = capability)) allowed.

(** ** The gate *)

Record PolicyEffect := mkPolicyEffect {
  pe_kind : string; pe_target : option string; pe_status : string; pe_capabilities : json;
  pe_profile : option string; pe_program : string; pe_declared : json;
}.

Record PolicyBlock := mkBlock { pb_status : string; pb_reason : string }.

Definition bt (s : string) : string := "`" ++ s ++ "`".

(** [sort] then [dedup]. *)
Fixpoint dedup (l : list string) : list string :=
  match l with
  | x :: ((y :: _) as rest) => if bool_decide (x = y) then dedup rest else x :: dedup rest
  | _ => l
  end.

Definition sort_dedup (l : list string) : list string := dedup (merge_sort String.le l).

Definition explicit_required_capabilities (e : PolicyEffect) : list string := sort_dedup (strings_of (pe_capabilities e)).

Definition required_capabilities (e : PolicyEffect) : list string :=
  let explicit := explicit_required_capabilities e in
  sort_dedup (if bool_decide (explicit = []) then [pe_kind e] else explicit).

(** [agent_target_policy_block]. *)
Definition agent_target_policy_block (e : PolicyEffect) : option PolicyBlock :=
  if negb (bool_decide (pe_kind e = "agent.tell")) then None
  else target ← pe_target e;
    if negb (declared_agents_present (pe_declared e)) then None
    else match agent_profile_in_value target (pe_declared e) with
    | None => Some (mkBlock "blocked_by_profile" ("agent " ++ bt target ++ " is not declared by the program"))
    | Some declared =>
        let capabilities :=
          find_map (λ c, if bool_decide (c ∈ default [] (agent_capabilities_in_value target (pe_declared e))) then None
            else Some (mkBlock "blocked_by_capability" ("agent " ++ bt target ++ " does not declare required capability " ++ bt c)))
            (explicit_required_capabilities e) in
        match pe_profile e, declared with
        | Some actual, Some expected =>
            if bool_decide (actual = expected) then capabilities
            else Some (mkBlock "blocked_by_profile"
                   ("agent " ++ bt target ++ " uses profile " ++ bt actual ++ ", expected declared profile " ++ bt expected))
        | None, Some expected => Some (mkBlock "blocked_by_profile" ("agent " ++ bt target ++ " requires declared profile " ++ bt expected))
        | _, None => capabilities
        end
    end.

(** [policy_block_for_capabilities]. *)
Definition policy_block_for_capabilities (g : Registry) (e : PolicyEffect) (capabilities : list string) : option PolicyBlock :=
  match find_map (λ c,
    if negb (capability_schema_exists g c) then Some (mkBlock "blocked_by_capability" ("capability " ++ bt c ++ " is not registered"))
    else if negb (capability_bound g (pe_program e) c)
    then Some (mkBlock "blocked_by_capability" ("capability " ++ bt c ++ " is not bound for program " ++ pe_program e))
    else None) capabilities with
  | Some block => Some block
  | None =>
      profile ← pe_profile e;
      match profile_policy g profile with
      | None => Some (mkBlock "blocked_by_profile" ("profile " ++ bt profile ++ " is not registered"))
      | Some (mode, allowed) =>
          if bool_decide (mode = "audit") then None
          else find_map (λ c, if capability_allowed allowed c then None
                 else Some (mkBlock "blocked_by_profile" ("profile " ++ bt profile ++ " does not allow capability " ++ bt c))) capabilities
      end
  end.

(** What an [exec.command] effect is held to. *)
Definition script_capabilities (e : PolicyEffect) : list string :=
  let explicit := explicit_required_capabilities e in
  if existsb (String.prefix "script.") explicit then explicit else (explicit ++ ["script.raw"])%list.

Definition gated_statuses : list string :=
  ["queued"; "running"; "blocked_by_dependency"; "blocked_by_capacity"; "blocked_by_capability"; "blocked_by_profile"].

(** The decision of [policy_block_on] on the row it reads. *)
Definition policy_decision (g : Registry) (e : PolicyEffect) : option PolicyBlock :=
  if negb (bool_decide (pe_status e ∈ gated_statuses)) then None
  else match agent_target_policy_block e with
  | Some block => Some block
  | None =>
      if bool_decide (pe_kind e = "timer.wait") then None
      else if bool_decide (pe_kind e = "exec.command") then
        (λ b, if bool_decide (pb_status b = "blocked_by_capability")
              then mkBlock (pb_status b) ("security.script_disabled: " ++ pb_reason b) else b)
        <$> policy_block_for_capabilities g e (script_capabilities e)
      else if bool_decide (pe_kind e = "capability.call") then
        let explicit := explicit_required_capabilities e in
        if bool_decide (explicit = []) then
          match pe_target e with
          | Some target => if bool_decide (target = "")
              then Some (mkBlock "blocked_by_capability" "effect kind `capability.call` names no capability to authorize")
              else policy_block_for_capabilities g e [target]
          | None => Some (mkBlock "blocked_by_capability" "effect kind `capability.call` names no capability to authorize")
          end
        else policy_block_for_capabilities g e explicit
      else if negb (effect_provider_exists g (pe_kind e))
      then Some (mkBlock "blocked_by_capability" ("no effect provider is registered for " ++ bt (pe_kind e)))
      else policy_block_for_capabilities g e (required_capabilities e)
  end.

(** ** The rows of an effect *)

Section rows.
Context {V : Type} (as_json : V → json).
Implicit Types (T : Tables V).

(** The version an effect runs under: its own where it is known, the instance's otherwise. *)
Definition effect_version (g : Registry) (e : RtEffect V) : option ProgramVersion := re_version e ≫= λ v, rg_versions g !! v.

Definition policy_effect (g : Registry) T (effect : string) : option PolicyEffect :=
  e ← t_effects T !! effect;
  i ← t_instance T;
  active ← rg_versions g !! in_version i;
  Some (mkPolicyEffect (re_kind e) (re_target e) (re_status e) (as_json (re_capabilities e)) (re_profile e)
    (from_option pv_program (in_program i) (effect_version g e)) (from_option pv_profiles (pv_profiles active) (effect_version g e))).

(** [policy_block_on]. *)
Definition policy_block_on (g : Registry) T (effect : string) : option PolicyBlock :=
  policy_effect g T effect ≫= policy_decision g.

(** [capacity_block_on]. *)
Definition running_tells T (agent : string) : nat :=
  count_rows (λ e : RtEffect V, bool_decide (re_kind e = "agent.tell") && bool_decide (re_target e = Some agent)
    && bool_decide (re_status e = "running")) (t_effects T).

Definition declared_agent_capacity (g : Registry) T (effect agent : string) : option Z :=
  policy_effect g T effect ≫= λ e, agent_capacity_in_value agent (pe_declared e).

Definition capacity_block_on (g : Registry) T (effect : string) : option string :=
  e ← policy_effect g T effect;
  if negb (bool_decide (pe_kind e = "agent.tell")) then None
  else
    agent ← pe_target e;
    capacity ← agent_capacity_in_value agent (pe_declared e);
    let running := Z.of_nat (running_tells T agent) in
    if (capacity <=? running)%Z
    then Some ("agent " ++ bt agent ++ " capacity exhausted (" ++ pretty running ++ "/" ++ pretty capacity ++ " running)") else None.

End rows.

(** ** What the gate admits *)

Lemma find_map_none {A B} (f : A → option B) l : find_map f l = None ↔ ∀ x, x ∈ l → f x = None.
Proof.
  induction l as [|x l IH]; simpl; [split; [by intros _ y ?%elem_of_nil|done]|]. destruct (f x) eqn:Hx.
  - split; [done|]. intros H. specialize (H x). rewrite Hx in H. discriminate H. set_solver.
  - rewrite IH. split; [|set_solver]. intros H y [->|Hy]%elem_of_cons; auto.
Qed.

Lemma find_map_some {A B} (f : A → option B) l y : find_map f l = Some y → ∃ x, x ∈ l ∧ f x = Some y.
Proof.
  induction l as [|x l IH]; simpl; [done|]. destruct (f x) eqn:Hx; [intros [= ->]; exists x; set_solver|].
  intros (z & ? & ?)%IH. exists z. set_solver.
Qed.

(** The capabilities are registered and bound for the program, and the profile allows them. *)
Definition admitted (g : Registry) (program : string) (profile : option string) (capabilities : list string) : Prop :=
  (∀ c, c ∈ capabilities → capability_schema_exists g c = true ∧ capability_bound g program c = true) ∧
  ∀ p, profile = Some p → ∃ mode allowed, profile_policy g p = Some (mode, allowed) ∧
    (mode = "audit" ∨ ∀ c, c ∈ capabilities → capability_allowed allowed c = true).

Lemma capabilities_gate g e capabilities :
  policy_block_for_capabilities g e capabilities = None ↔ admitted g (pe_program e) (pe_profile e) capabilities.
Proof.
  unfold policy_block_for_capabilities, admitted.
  assert (∀ c, (if negb (capability_schema_exists g c) then Some (mkBlock "blocked_by_capability" ("capability " ++ bt c ++ " is not registered"))
    else if negb (capability_bound g (pe_program e) c)
    then Some (mkBlock "blocked_by_capability" ("capability " ++ bt c ++ " is not bound for program " ++ pe_program e))
    else None) = None ↔ capability_schema_exists g c = true ∧ capability_bound g (pe_program e) c = true) as Hc.
  { intros c. destruct (capability_schema_exists g c), (capability_bound g (pe_program e) c); simpl; naive_solver. }
  destruct (find_map _ capabilities) as [b|] eqn:Hf.
  - split; [done|]. intros [H _]. apply find_map_some in Hf as (c & Hin & Hb).
    by rewrite (proj2 (Hc c) (H c Hin)) in Hb.
  - assert (∀ c, c ∈ capabilities → capability_schema_exists g c = true ∧ capability_bound g (pe_program e) c = true) as Hall.
    { intros c Hin. apply Hc. by apply (proj1 (find_map_none _ _) Hf). }
    destruct (pe_profile e) as [p|]; simpl; [|split; [split; [done|by intros p [=]]|done]].
    destruct (profile_policy g p) as [[mode allowed]|] eqn:Hp.
    + case_bool_decide as Hm.
      * split; [|done]. intros _. split; [done|]. intros q [= <-]. eauto.
      * rewrite find_map_none. split.
        -- intros H. split; [done|]. intros q [= <-]. exists mode, allowed. split; [done|]. right. intros c Hin.
           specialize (H c Hin). by destruct (capability_allowed allowed c).
        -- intros [_ H] c Hin. destruct (H p eq_refl) as (m & a & Heq & [->|Ha]); simplify_eq. by rewrite (Ha c Hin).
    + split; [done|]. intros [_ H]. destruct (H p eq_refl) as (m & a & Heq & _). congruence.
Qed.

(** The capabilities that an effect is held to, by its kind. *)
Inductive held_to (g : Registry) (e : PolicyEffect) : list string → Prop :=
| held_script : pe_kind e = "exec.command" → held_to g e (script_capabilities e)
| held_call : pe_kind e = "capability.call" → explicit_required_capabilities e ≠ [] → held_to g e (explicit_required_capabilities e)
| held_target target : pe_kind e = "capability.call" → explicit_required_capabilities e = [] →
    pe_target e = Some target → target ≠ "" → held_to g e [target]
| held_kind : pe_kind e ∉ ["timer.wait"; "exec.command"; "capability.call"] → effect_provider_exists g (pe_kind e) = true →
    held_to g e (required_capabilities e).

(** The other ways of being held do not fit the kind at hand. *)
Ltac other_kinds :=
  intros [_ [?|(? & Hh & ?)]]; [done|]; destruct Hh as [|? ?|? ? ? ? ?|Hk ?]; simplify_eq; try done; try congruence; set_solver.

Lemma gate_exact g e :
  pe_status e ∈ gated_statuses →
  policy_decision g e = None ↔
    agent_target_policy_block e = None ∧
    (pe_kind e = "timer.wait" ∨ ∃ capabilities, held_to g e capabilities ∧ admitted g (pe_program e) (pe_profile e) capabilities).
Proof.
  intros Hs. unfold policy_decision. rewrite bool_decide_eq_true_2 by done. simpl.
  destruct (agent_target_policy_block e) as [b|]; [naive_solver|].
  case_bool_decide as Ht; [by intuition|]. case_bool_decide as Hx.
  { rewrite fmap_None, capabilities_gate. split; [|other_kinds].
    intros Ha. split; [done|]. right. eauto using held_script. }
  case_bool_decide as Hc.
  { case_bool_decide as He.
    - destruct (pe_target e) as [target|] eqn:Htg; [case_bool_decide as Hn|]; [split; [done|other_kinds]| |split; [done|other_kinds]].
      rewrite capabilities_gate. split; [|other_kinds]. intros Ha. split; [done|]. right. eauto using held_target.
    - rewrite capabilities_gate. split; [|other_kinds]. intros Ha. split; [done|]. right. eauto using held_call. }
  destruct (effect_provider_exists g (pe_kind e)) eqn:Hp; simpl; [|split; [done|other_kinds]].
  rewrite capabilities_gate. split; [|other_kinds]. intros Ha. split; [done|]. right.
  eexists. split; [apply held_kind; [set_solver|done]|done].
Qed.

(** The gate blocks with one of two statuses. *)
Definition block_statuses : list string := ["blocked_by_capability"; "blocked_by_profile"].

Lemma capabilities_block_status g e capabilities b :
  policy_block_for_capabilities g e capabilities = Some b → pb_status b ∈ block_statuses.
Proof.
  unfold policy_block_for_capabilities. destruct (find_map _ _) as [b'|] eqn:Hf.
  - intros [= <-]. apply find_map_some in Hf as (c & _ & Hb). repeat case_match; simplify_eq; unfold block_statuses; set_solver.
  - destruct (pe_profile e); simpl; [|done]. destruct (profile_policy _ _) as [[mode allowed]|].
    + case_bool_decide; [done|]. intros (c & _ & Hb)%find_map_some. case_match; simplify_eq. unfold block_statuses; set_solver.
    + intros [= <-]. unfold block_statuses; set_solver.
Qed.

Lemma agent_block_status e b : agent_target_policy_block e = Some b → pb_status b ∈ block_statuses.
Proof.
  unfold agent_target_policy_block. destruct (negb _); [done|]. destruct (pe_target e) as [target|]; simpl; [|done].
  destruct (negb _); [done|]. destruct (agent_profile_in_value _ _) as [declared|]; [|intros [= <-]; unfold block_statuses; set_solver].
  assert (∀ l, find_map (λ c, if bool_decide (c ∈ default [] (agent_capabilities_in_value target (pe_declared e))) then None
    else Some (mkBlock "blocked_by_capability" ("agent " ++ bt target ++ " does not declare required capability " ++ bt c))) l = Some b →
    pb_status b ∈ block_statuses) as Hcaps.
  { intros l (c & _ & Hb)%find_map_some. case_bool_decide; simplify_eq. unfold block_statuses; set_solver. }
  destruct (pe_profile e), declared; [case_bool_decide; [apply Hcaps|]|apply Hcaps| |apply Hcaps];
    intros [= <-]; unfold block_statuses; set_solver.
Qed.

Lemma decision_status g e b : policy_decision g e = Some b → pb_status b ∈ block_statuses.
Proof.
  unfold policy_decision. destruct (negb _); [done|].
  destruct (agent_target_policy_block e) as [b'|] eqn:Ha; [intros [= <-]; by eapply agent_block_status|].
  case_bool_decide; [done|]. case_bool_decide.
  { intros (b' & Hb & ->)%fmap_Some. apply capabilities_block_status in Hb. by case_bool_decide. }
  case_bool_decide.
  { repeat case_match; try (by apply capabilities_block_status); intros [= <-]; unfold block_statuses; set_solver. }
  destruct (negb _); [intros [= <-]; unfold block_statuses; set_solver|apply capabilities_block_status].
Qed.

Lemma policy_block_pending {V} (as_json : V → json) g T effect b :
  policy_block_on as_json g T effect = Some b → pending (pb_status b) = true.
Proof.
  unfold policy_block_on. intros (e & _ & Hb)%bind_Some. apply decision_status in Hb. apply bool_decide_eq_true.
  unfold block_statuses, PENDING_EFFECT_STATUSES in *. set_solver.
Qed.

Lemma script_required e : ∃ c, c ∈ script_capabilities e ∧ String.prefix "script." c = true.
Proof.
  unfold script_capabilities. destruct (existsb _ _) eqn:He.
  - apply existsb_elem in He as (c & ? & ?). eauto.
  - exists "script.raw". split; [set_solver|done].
Qed.

(** An [exec.command] effect that passes the gate has a script capability that is registered
    and bound for its program. *)
Lemma script_gate g e :
  pe_kind e = "exec.command" → pe_status e ∈ gated_statuses → policy_decision g e = None →
  ∃ c, String.prefix "script." c = true ∧ capability_schema_exists g c = true ∧ capability_bound g (pe_program e) c = true.
Proof.
  intros Hk Hs [_ [?|(cs & Hh & [Hc _])]]%gate_exact; [congruence| |done].
  destruct Hh as [|? ?|? ? ? ? ?|Hn ?]; [|congruence..|rewrite Hk in Hn; set_solver].
  destruct (script_required e) as (c & Hin & Hp). exists c. destruct (Hc c Hin). done.
Qed.

(** ** The specification of the gate, over the rows *)





(** *** The helpers of the gate, over the rows *)















(** The gate does not look at an effect that a binding or an admission blocked, whatever
    the registries say, and such an effect is pending: it can be claimed. *)
Lemma blocked_skips_gate g e :
  pe_status e ∈ ["blocked"; "blocked_by_admission"] → policy_decision g e = None ∧ pending (pe_status e) = true.
Proof.
  intros Hs%list_elem_of_In. unfold policy_decision. simpl in Hs. by destruct Hs as [<-|[<-|[]]].
Qed.
