(* ===== verification/RuntimeReplay.v ===== *)
(** The fold of the log back into the projection tables (store/lib.rs,
    [rebuild_projections] and the [replay_] functions), with the restore markers that
    rewind it and the format guard.  References between tables are checked where a row is
    inserted. *)
From S2P Require Import Prelude DependencyGraph EffectRecovery AttemptAdmission RuntimeTables.
Local Open Scope string_scope.

(** ** Names of events *)

Definition SUPPORTED_EVENT_FORMAT_VERSION : Z := 2.

Section replay.
Context {V : Type} `{!RuntimeJson V}.
Context (tracking_key : string → string) (instance_id : string).
Implicit Types (T : Tables V) (log : list (Event V)).

Definition event_type (p : Payload V) : string :=
  match p with
  | PInstanceCreated _ => "instance.created"
  | PRuleCommitted _ => "rule.committed"
  | PMarkReached _ _ _ => "mark.reached"
  | PFactDerived _ => "fact.derived"
  | PWorkflowTerminal t _ => match wt_kind t with WorkflowCompleted => "workflow.completed" | WorkflowFailed => "workflow.failed" end
  | PInstanceTransitioned _ _ => "instance.transitioned"
  | PRevisionActivated _ => "workflow.revision_activated"
  | PRunStarted _ => "effect.run_started"
  | PEffectTerminal _ => "effect.terminal"
  | PTerminalRefused _ _ _ _ => "run.terminal_refused"
  | PEffectRetried _ _ _ => "effect.retried"
  | PEffectCancelled _ => "effect.cancelled"
  | PCancellationRequested _ => "effect.cancellation_requested"
  | PLeaseRenewed _ _ _ => "lease.renewed"
  | PLeaseExpired execution _ _ _ _ => if execution then "exec.lease.expired" else "lease.expired"
  | PEffectBlocked _ _ _ _ => "effect.blocked"
  | PRestored _ _ => "context.restored"
  | PTracked _ => "exec.lifetime.tracked"
  | PFenceRequested _ => "exec.fence.requested"
  | PFenceProved _ => "exec.fence.proved"
  | POutcomeObserved _ => "exec.outcome.observed"
  | PSettlementRetained _ => "exec.settlement.retained"
  | PWakeScheduled _ => "exec.reconciliation.scheduled"
  | PDispositionRecorded _ => "effect.disposition.recorded"
  | PDispositionReconciled _ _ _ => "effect.disposition.reconciled"
  | POther t _ => t
  end.

(** The event types that the rebuild reads.  The three deliveries of a tracker are applied by
    a component of their own, which is left out: no event of the model carries them. *)
Definition projected_types : list string :=
  ["instance.created"; "rule.committed"; "fact.derived"; "workflow.completed"; "workflow.failed"; "instance.transitioned";
   "workflow.revision_activated"; "effect.run_started"; "effect.terminal"; "tracker.filing.result_delivered";
   "tracker.closing.result_delivered"; "tracker.control.result_delivered"; "effect.retried"; "effect.cancelled";
   "effect.cancellation_requested"; "lease.expired"; "exec.lease.expired"; "context.restored"].

(** Every event type that has a payload of its own; [POther] is an event of another type. *)
Definition named_types : list string :=
  (projected_types ++
   ["mark.reached"; "run.terminal_refused"; "lease.renewed"; "effect.blocked"; "exec.lifetime.tracked"; "exec.fence.requested";
    "exec.fence.proved"; "exec.outcome.observed"; "exec.settlement.retained"; "exec.reconciliation.scheduled";
    "effect.disposition.recorded"; "effect.disposition.reconciled"])%list.

(** ** One event *)

(** The fact of a commit as its payload gives it back: an absent span is a null. *)
Definition replayed_fact (f : NewFact V) : NewFact V :=
  mkNewFact (nf_id f) (nf_name f) (nf_key f) (nf_value f) (nf_schema f) (nf_provenance f) (nf_correlation f)
    (Some (default null_value (nf_span f))) (nf_validity f).

(** [replay_rule_commit]. *)
Definition replay_rule_commit (event_id at_ : string) (r : RuleRecord V) T : result runtime_error (Tables V) :=
  T ← each (λ f, insert_fact (rr_rule r) event_id (rr_version r) (rr_epoch r) (replayed_fact f)) (rr_facts r) T;
  T ← consume_facts (rr_consumed r) T;
  T ← each (insert_effect (rr_rule r) event_id at_ (rr_version r) (rr_epoch r)) (rr_effects r) T;
  each (insert_dependency instance_id (rr_rule r)) (rr_dependencies r) T.

(** [replay_fact_derived]. *)
Definition replay_fact_derived (event_id source : string) (f : NewFact V) T : result runtime_error (Tables V) :=
  if bool_decide (nf_id f = "") || bool_decide (nf_name f = "") || bool_decide (nf_key f = "") then Ok T
  else
    let '(version, epoch) := active_revision_on T in
    insert_fact source event_id version epoch
      (mkNewFact (nf_id f) (nf_name f) (nf_key f) (nf_value f) (nf_schema f) (nf_provenance f) (nf_correlation f)
         None (nf_validity f)) T.

(** [apply_instance_created]. *)
Definition apply_instance_created (c : CreatedInstance) T : Tables V :=
  if bool_decide (ci_program c = "") || bool_decide (ci_version c = "") then T
  else with_instance ((λ i, mkInstance (ci_program c) (ci_version c) (ci_epoch c) (ci_principal c) (ci_authority c)
    (ci_status c) (ci_input c) (in_last_event i) (in_last_error i) (ci_created_at c) (ci_started_at c)
    (in_completed i)) <$> t_instance T) T.

(** [replay_revision_activation], with the unique index on the epoch. *)
Definition replay_revision_activation (event_id : string) (key : option string) (r : RevisionRecord V) T
    : result runtime_error (Tables V) :=
  if bool_decide (vr_id r = "") || bool_decide (vr_from r = "") || bool_decide (vr_to r = "") then Ok T
  else
    T ← (if bool_decide (is_Some (t_revisions T !! vr_id r)) then Ok T
         else if bool_decide (0 < count_rows (λ v : RtRevision V, bool_decide (rv_epoch v = vr_epoch r)) (t_revisions T))
         then Err ConstraintFailed
         else Ok (with_revisions (<[vr_id r := mkRevision (vr_epoch r) (vr_from r) (vr_to r) event_id (vr_policy r)
                (vr_cancellation r) (vr_carries r) key]> (t_revisions T)) T));
    Ok (move_revision event_id (vr_to r) (vr_epoch r) T).

(** [replay_run_started]. *)
Definition replay_run_started (at_ : string) (r : RunRecord V) T : result runtime_error (Tables V) :=
  if bool_decide (sr_effect r = "") || bool_decide (sr_run r = "") || bool_decide (sr_lease r = "") then Ok T
  else if bool_decide (t_effects T !! sr_effect r = None) then Err ConstraintFailed
  else
    let T := (update_effect (sr_effect r) (λ e, unsettled (re_status e))
               (λ e, set_block None (re_block_category e) (set_status "running" e)) T).1 in
    let T := with_runs (<[sr_run r := mkRun (sr_effect r) (sr_provider r) (sr_worker r) "running" (sr_metadata r)
                at_ None None None]> (t_runs T)) T in
    Ok (with_leases (<[sr_lease r := mkLease (sr_run r) (sr_effect r) (sr_worker r) "active" (sr_expires_at r)]>
          (t_leases T)) T).

(** [terminal_run_status] (store/effect_recovery.rs). *)
Definition terminal_run_status (t : TerminalRecord V) : string :=
  match tr_run_status t with
  | Some s => s
  | None => if bool_decide (tr_metadata t ≫= metadata_recovery = Some "uncertain") then "uncertain" else tr_status t
  end.

(** The run that [replay_effect_terminal] writes: a missing row is inserted, a present one
    keeps its start. *)
Definition replayed_run (at_ : string) (t : TerminalRecord V) (old : option (RtRun V)) : RtRun V :=
  mkRun (tr_effect t) (default "replay" (tr_provider t)) (default "replay" (tr_worker t)) (terminal_run_status t)
    (default empty_object (tr_metadata t)) (from_option ru_started_at at_ old) (Some at_) (tr_exit t) (tr_summary t).

(** [replay_effect_terminal]. *)
Definition replay_effect_terminal (event_id at_ : string) (t : TerminalRecord V) T : result runtime_error (Tables V) :=
  if bool_decide (tr_effect t = "") then Ok T
  else
    T ← match default "" (tr_run t) with
        | "" => Ok T
        | run =>
            if bool_decide (t_effects T !! tr_effect t = None) then Err ConstraintFailed
            else Ok (release_leases run (tr_effect t)
                       (with_runs (<[run := replayed_run at_ t (t_runs T !! run)]> (t_runs T)) T))
        end;
    let T := (update_effect (tr_effect t) (λ _, true) (set_status (tr_status t)) T).1 in
    Ok (satisfy_dependencies instance_id (mark_requests_terminal (tr_effect t) event_id T)).

(** [replay_effect_cancelled]. *)
Definition replay_effect_cancelled (event_id effect : string) T : Tables V :=
  if bool_decide (effect = "") then T
  else
    let T := (update_effect effect (λ e, unsettled (re_status e)) (set_status "cancelled") T).1 in
    satisfy_dependencies instance_id (mark_requests_terminal effect event_id T).

Definition retryable (e : RtEffect V) : bool := bool_decide (re_status e ∈ ["failed"; "timed_out"]).

(** [replay_effect_retried]. *)
Definition replay_effect_retried (effect : string) T : result runtime_error (Tables V) :=
  let r := update_effect effect retryable (set_status "queued") T in
  if bool_decide (r.2 = 1) then Ok r.1 else Err (Conflict "replayed retry has no retryable effect").

(** [LEASE_EXEC_STATE_SQL]: whether the run is an execution, and whether it is tracked. *)
Definition run_tracked log (run : string) : bool :=
  existsb (λ e, bool_decide (e_key e = Some (tracking_key run))
    || match e_payload e with PTracked t => bool_decide (tk_run t = run) | _ => false end) log.

Definition exec_run T (run : string) : bool :=
  match t_runs T !! run with
  | Some r => match t_effects T !! ru_effect r with
              | Some e => bool_decide (ru_provider r = "exec") || bool_decide (re_kind e = "exec.command")
              | None => false
              end
  | None => false
  end.

Definition lease_exec_state log T (run : string) : bool * bool :=
  (exec_run T run || run_tracked log run, run_tracked log run).

(** The rows an expired lease of a plain run changes. *)
Definition expire_plain_run (run effect at_ : string) T : Tables V :=
  let T := with_runs (update_where run (λ r, bool_decide (ru_status r = "running")) (expire_run at_) (t_runs T)).1 T in
  (update_effect effect (λ e, bool_decide (re_status e = "running")) (set_status "failed") T).1.

Definition expire_lease_row (lease : string) T : Tables V :=
  with_leases (update_where lease (λ _, true) (set_lease_status "expired") (t_leases T)).1 T.

(** [replay_lease_expired]; the payload's [effect_status] is always [failed]. *)
Definition replay_lease_expired log (at_ lease run effect : string) T : Tables V :=
  if bool_decide (lease = "") || bool_decide (run = "") || bool_decide (effect = "") then T
  else
    let T := expire_lease_row lease T in
    if (lease_exec_state log T run).1 then T else expire_plain_run run effect at_ T.

(** [replay_cancellation_request]: the causation of the row is an event of the log. *)
Definition request_constraint (r : RequestRecord) (key : option string) T : bool :=
  bool_decide (t_effects T !! qr_effect r = None)
  || from_option (λ v, bool_decide (t_revisions T !! v = None)) false (qr_revision r)
  || bool_decide (0 < count_rows (λ q, bool_decide (is_Some (qr_revision r)) && bool_decide (rq_effect q = qr_effect r)
                                        && bool_decide (rq_revision q = qr_revision r)
                                        || bool_decide (is_Some key) && bool_decide (rq_key q = key)) (t_requests T)).

Definition replay_cancellation_request log (event_id : string) (key causation : option string) (r : RequestRecord) T
    : result runtime_error (Tables V) :=
  if bool_decide (qr_id r = "") || bool_decide (qr_effect r = "") then Ok T
  else
    let cause := match causation with
                 | Some c => if existsb (λ e : Event V, bool_decide (e_id e = c)) log then c else event_id
                 | None => event_id end in
    if bool_decide (is_Some (t_requests T !! qr_id r)) then Ok T
    else if request_constraint r key T then Err ConstraintFailed
    else Ok (with_requests (<[qr_id r := mkRequest (qr_effect r) (qr_revision r) (qr_reason r) (qr_by r) (Some cause)
               "requested" key None]> (t_requests T)) T).

(** The dispatch over event types in [rebuild_projections]. *)
Definition replay_event log T (e : Event V) : result runtime_error (Tables V) :=
  match e_payload e with
  | PRuleCommitted r => replay_rule_commit (e_id e) (e_at e) r T
  | PFactDerived f => replay_fact_derived (e_id e) (e_source e) f T
  | PWorkflowTerminal t _ => Ok (close_instance (e_id e) (terminal_status (wt_kind t)) (wt_name t) T)
  | PInstanceCreated c => Ok (apply_instance_created c T)
  | PInstanceTransitioned status reason => Ok (apply_transition (e_id e) status reason T)
  | PRevisionActivated r => replay_revision_activation (e_id e) (e_key e) r T
  | PRunStarted r => replay_run_started (e_at e) r T
  | PEffectTerminal t => replay_effect_terminal (e_id e) (e_at e) t T
  | PEffectCancelled effect => Ok (replay_effect_cancelled (e_id e) effect T)
  | PCancellationRequested r => replay_cancellation_request log (e_id e) (e_key e) (e_causation e) r T
  | PEffectRetried effect _ _ => replay_effect_retried effect T
  | PLeaseExpired _ lease run effect _ => Ok (replay_lease_expired log (e_at e) lease run effect T)
  | _ => Ok T
  end.

(** ** The rebuild *)

Fixpoint replay_events log (events : list (Event V)) T : result runtime_error (Tables V) :=
  match events with
  | [] => Ok T
  | e :: events => T' ← replay_event log T e; replay_events log events T'
  end.

(** The event types the query selects. *)
Definition selected (e : Event V) : bool :=
  match e_payload e with
  | PInstanceCreated _ | PRuleCommitted _ | PFactDerived _ | PWorkflowTerminal _ _ | PInstanceTransitioned _ _
  | PRevisionActivated _ | PRunStarted _ | PEffectTerminal _ | PEffectRetried _ _ _ | PEffectCancelled _
  | PCancellationRequested _ | PLeaseExpired _ _ _ _ _ | PRestored _ _ => true
  | _ => false
  end.

Definition restore_target (e : Event V) : option (option Z) :=
  match e_payload e with PRestored _ target => Some (Some target) | _ => None end.

Definition fetched (bound : option Z) log : list (Event V) :=
  filter (λ e, selected e && from_option (λ n, bool_decide (e_sequence e ≤ n)%Z) true bound = true) log.

Definition live_rows (bound : option Z) log : list (Event V) :=
  live_fold e_sequence restore_target (λ e, negb (bool_decide (is_Some (restore_target e)))) (fetched bound log).

Fixpoint check_formats (events : list (Event V)) : result runtime_error unit :=
  match events with
  | [] => Ok tt
  | e :: events =>
      match e_format e with
      | Some v => if (SUPPORTED_EVENT_FORMAT_VERSION <? v)%Z then Err (UnsupportedVersion (e_id e) v) else check_formats events
      | None => check_formats events
      end
  end.

Definition reset_instance (i : RtInstance) : RtInstance :=
  mkInstance (in_program i) (in_version i) (in_epoch i) (in_principal i) (in_authority i) "running" (in_input i)
    None None (in_created_at i) (in_started_at i) false.

Definition cleared_tables T : Tables V := 
  mkTables (reset_instance <$> t_instance T) ∅ ∅ [] ∅ ∅ ∅ ∅ (t_request_runs T).

(** [rebuild_projections_impl]. *)
Definition rebuild_projections_impl (bound : option Z) log T : result runtime_error (Tables V) :=
  _ ← check_formats (fetched bound log);
  replay_events log (live_rows bound log) (cleared_tables T).

Definition rebuild_projections log T := rebuild_projections_impl None log T.
Definition rebuild_projections_to (up_to_sequence : Z) log T := rebuild_projections_impl (Some up_to_sequence) log T.

End replay.
