(* ===== verification/RuntimeOps.v ===== *)
(** The operations of the runtime store on one instance (store/lib.rs): creation, rule
    commits, derived facts, the life of an effect (start, block, completion, expiry,
    cancellation, retry), leases, and restores.  An operation is a transaction: it yields
    the runtime it leaves together with its answer, and an error leaves the runtime alone
    unless the source commits before it reports.  What the database draws for the n-th
    event of the log is [draw n]. *)
From stdpp Require Import pretty.
From S2P Require Import Prelude DependencyGraph EffectRecovery AttemptAdmission RuntimeTables ExecLifetime ExecOutcome RuntimePolicy RuntimeReplay.
Local Open Scope string_scope.

Record Draw := mkDraw { dr_id : string; dr_at : string }.

Record Stored := mkStoredEvent { so_id : string; so_sequence : Z }.

#[export] Instance stored_eq_dec : EqDecision Stored.
Proof. solve_decision. Defined.

(** [ORDER BY] a text column, then the identifier. *)
Definition before {A} (key : A → string * string) (x y : A) : Prop :=
  ((key x).1 ≠ (key y).1 ∧ String.le (key x).1 (key y).1) ∨ ((key x).1 = (key y).1 ∧ String.le (key x).2 (key y).2).

#[export] Instance before_dec {A} (key : A → string * string) x y : Decision (before key x y).
Proof. unfold before. apply _. Defined.

(** ** Inputs *)

Record RuleCommit (V : Type) := mkCommit {
  rc_rule : string; rc_trigger : option string; rc_facts : list (NewFact V); rc_consumed : list string;
  rc_effects : list (NewEffect V); rc_dependencies : list NewEffectDependency;
  rc_terminal : option (WorkflowTerminal V * option string); rc_key : option string; rc_marks : list string;
  rc_context : option V;
}.
Arguments mkCommit {V}. Arguments rc_rule {V}. Arguments rc_trigger {V}. Arguments rc_facts {V}.
Arguments rc_consumed {V}. Arguments rc_effects {V}. Arguments rc_dependencies {V}. Arguments rc_terminal {V}.
Arguments rc_key {V}. Arguments rc_marks {V}. Arguments rc_context {V}.

Record RevisionGuard := mkGuard { gu_version : string; gu_epoch : Z; gu_frontier : option Z }.

Record DerivedFact (V : Type) := mkDerived {
  df_fact : NewFact V; df_source : string; df_causation : option string; df_key : option string;
}.
Arguments mkDerived {V}. Arguments df_fact {V}. Arguments df_source {V}. Arguments df_causation {V}. Arguments df_key {V}.

Record RunStart (V : Type) := mkRunStart {
  rs_effect : string; rs_run : string; rs_provider : string; rs_worker : string; rs_lease : string;
  rs_expires_at : string; rs_metadata : V;
}.
Arguments mkRunStart {V}. Arguments rs_effect {V}. Arguments rs_run {V}. Arguments rs_provider {V}.
Arguments rs_worker {V}. Arguments rs_lease {V}. Arguments rs_expires_at {V}. Arguments rs_metadata {V}.

Inductive RunAdmission := Resumable | FreshOnly.

(** ** What other components decide

    The registries of a program, fingerprints and digests, and the compatibility of
    revisions are decided elsewhere; an operation asks.  [journal_key] is the text of the
    JSON array of an event type and a run, [wake_key] of a run and a due time, and
    [render] of a value. *)
Class RuntimeGates (V : Type) := {
  as_json : V → json;
  registry : Registry;
  metadata_key : string → string;
  payload_digest : Payload V → string;
  input_fingerprint : V → string;
  execution_fingerprint : Tables V → string → V → string;
  admission_binding : list (Event V) → option ActionAdmissionBinding;
  inject_fingerprint : V → string → V;
  revision_check : Tables V → string → string → result runtime_error unit;
  file_manifest_check : Tables V → result runtime_error unit;
  log_digest : list (Event V) → string;
  journal_key : string → string → string;
  wake_key : string → Z → string;
  render : V → string;
  sha256_hex : string → string;
}.

(** [Track::key], [Fence::key] and [Proof::key]. *)
Definition tracking_key `{RuntimeGates V} (run : string) : string := journal_key EVENT_TYPE run.
Definition fence_key `{RuntimeGates V} (run : string) : string := journal_key FENCE_EVENT run.
Definition proof_key `{RuntimeGates V} (run : string) : string := journal_key PROOF_EVENT run.
Definition outcome_key `{RuntimeGates V} (run : string) : string := journal_key OUTCOME_EVENT run.
#[global] Arguments tracking_key : simpl never.
#[global] Arguments fence_key : simpl never.
#[global] Arguments proof_key : simpl never.
#[global] Arguments outcome_key : simpl never.

Section operations.
Context {V : Type} `{!EqDecision V, !RuntimeJson V, !RuntimeGates V}.
Context (instance_id : string) (draw : nat → Draw).
Implicit Types (T : Tables V) (log : list (Event V)) (rt : Runtime V).

(** ** The log *)

Definition head_sequence log : Z := from_option e_sequence 0%Z (last log).

Definition key_event log (key : string) : option (Event V) :=
  snd <$> list_find (λ e, e_key e = Some key) log.

Definition stored (e : Event V) : Stored := mkStoredEvent (e_id e) (e_sequence e).

(** [append_event_on], with the primary key and the unique index on keys. *)
Definition append_event (payload : Payload V) (source : string) (causation correlation key : option string) log
    : result runtime_error (list (Event V) * Event V) :=
  let d := draw (length log) in
  if existsb (λ e : Event V, bool_decide (e_id e = dr_id d)) log then Err ConstraintFailed
  else if from_option (λ k, bool_decide (is_Some (key_event log k))) false key
  then Err (Conflict ("duplicate event idempotency key for `" ++ event_type payload ++ "`"))
  else
    let e := mkEvent (dr_id d) (head_sequence log + 1)%Z payload (dr_at d) source causation correlation key
               (Some SUPPORTED_EVENT_FORMAT_VERSION) in
    Ok (log ++ [e], e)%list.

(** [append_event_idempotent_on]. *)
Definition append_event_idempotent (payload : Payload V) (source : string) (causation correlation : option string)
    (key : string) log : result runtime_error (list (Event V) * Event V) :=
  match key_event log key with
  | Some e => Ok (log, e)
  | None => append_event payload source causation correlation (Some key) log
  end.

(** The journal and the recovery events of a log. *)
Definition journal_event (e : Event V) : JournalEvent :=
  mkJournal (e_id e) (e_sequence e) (match e_payload e with
    | PRestored _ target => Restored (Some target)
    | PEffectRetried effect _ _ => Retried (Some effect)
    | PLeaseExpired false _ _ effect _ => Expired (Some effect)
    | PEffectTerminal t => Terminated (Some (tr_effect t))
    | _ => OtherKind
    end).

Definition recovery_event_of (e : Event V) : string * recovery_event :=
  (e_source e, match e_payload e with
    | PRunStarted r => RunStarted (Some (sr_effect r)) (Some (sr_run r)) (Some (sr_dispatch r))
    | PEffectTerminal t => EffectTerminal (Some (tr_effect t)) (tr_run t) (Some (tr_status t))
    | PLeaseExpired false _ run effect _ => LeaseExpired (Some effect) (Some run)
    | PDispositionRecorded e | PDispositionReconciled _ e _ => DispositionRecorded e
    | PSettlementRetained s => SettlementRetained (Some (sl_effect s)) (Some (sl_run s)) (executor_state s)
    | PFenceProved p => FenceProved (pf_effect p) (pf_run p) (not_admitted (pf_closure p))
    | _ => OtherEvent
    end).

(** [native_attempts]. *)
Definition native_attempts log (effect : string) : result runtime_error (list AttemptDisposition) :=
  match fold_attempts instance_id effect (recovery_event_of <$> log) with
  | Ok a => Ok a | Err e => Err (RecoveryRefused e)
  end.

Definition proved_absence (attempts : list AttemptDisposition) : result runtime_error unit :=
  match require_proved_absence attempts with Ok _ => Ok tt | Err e => Err (RecoveryRefused e) end.

(** ** Transactions *)

Definition transaction {A} rt (body : result runtime_error (Runtime V * A)) : Runtime V * result runtime_error A :=
  match body with Ok (rt', a) => (rt', Ok a) | Err e => (rt, Err e) end.

(** A transaction that commits and then reports. *)
Definition transaction' {A} rt (body : result runtime_error (Runtime V * result runtime_error A))
    : Runtime V * result runtime_error A :=
  match body with Ok (rt', a) => (rt', a) | Err e => (rt, Err e) end.

(** ** Creation (host_actions.rs, [create_instance_on]) *)

Definition create_instance (program version principal authority input created_at : string) (started_at : option string) rt
    : Runtime V * result runtime_error unit :=
  transaction rt (
    if bool_decide (is_Some (t_instance (rt_tables rt))) then Err ConstraintFailed
    else
      let row := mkInstance program version 0 principal authority "running" input None None created_at started_at false in
      '(log, _) ← append_event (PInstanceCreated (mkCreated program version 0 principal authority input created_at
                    started_at "running")) "kernel" None None None (rt_log rt);
      Ok (mkRuntime log (with_instance (Some row) (rt_tables rt)), tt)).

(** ** Rule commits *)

(** [rule_commit_payload]: refuses a validity that is not an array. *)
Definition rule_commit_payload (c : RuleCommit V) (version : option string) (epoch : Z) : result runtime_error (RuleRecord V) :=
  if existsb (λ f, from_option (λ v, negb (is_array v)) false (nf_validity f)) (rc_facts c)
  then Err (Conflict "fact validity must be a JSON array")
  else if from_option (λ t : WorkflowTerminal V * option string, from_option (λ v, negb (is_array v)) false (wt_validity t.1)) false (rc_terminal c)
  then Err (Conflict "workflow terminal validity must be a JSON array")
  else Ok (mkRule (rc_rule c) version epoch (rc_facts c) (rc_consumed c) (rc_effects c) (rc_dependencies c)
             (fst <$> rc_terminal c) (default null_value (rc_context c))).

Definition decimal (n : nat) : string := pretty (N.of_nat n).

(** The [mark.reached] events of a commit. *)
Fixpoint append_marks (rule event_id : string) (marks : list string) log : result runtime_error (list (Event V)) :=
  match marks with
  | [] => Ok log
  | mark :: marks =>
      '(log, _) ← append_event (PMarkReached mark rule event_id) "kernel" (Some event_id) None
                    (Some ("mark-reached:" ++ decimal (String.length mark) ++ ":" ++ mark ++ ":" ++ event_id)) log;
      append_marks rule event_id marks log
  end.

(** The rows of a commit. *)
Definition commit_rows (c : RuleCommit V) (event_id at_ : string) (version : option string) (epoch : Z) T
    : result runtime_error (Tables V) :=
  T ← each (insert_fact (rc_rule c) event_id version epoch) (rc_facts c) T;
  T ← consume_facts (rc_consumed c) T;
  T ← each (insert_effect (rc_rule c) event_id at_ version epoch) (rc_effects c) T;
  each (insert_dependency instance_id (rc_rule c)) (rc_dependencies c) T.

Definition commit_terminal (c : RuleCommit V) (event_id : string) log T : result runtime_error (list (Event V) * Tables V) :=
  match rc_terminal c with
  | None => Ok (log, T)
  | Some (t, key) =>
      '(log, e) ← append_event (PWorkflowTerminal t (rc_rule c)) "kernel" (Some event_id) (Some (rc_rule c)) key log;
      Ok (log, close_instance (e_id e) (terminal_status (wt_kind t)) (wt_name t) T)
  end.

(** [commit_rule_inner_retained] before its evidence rows. *)
Definition commit_rule (guard : option RevisionGuard) (c : RuleCommit V) rt : Runtime V * result runtime_error Stored :=
  let T := rt_tables rt in let log := rt_log rt in
  let '(version, epoch) := active_revision_on T in
  let '(pinned_version, pinned_epoch) := match guard with
    | Some g => (Some (gu_version g), gu_epoch g) | None => (version, epoch) end in
  transaction rt (
    record ← rule_commit_payload c pinned_version pinned_epoch;
    match rc_key c ≫= key_event log with
    | Some e =>
        if bool_decide (e_payload e = PRuleCommitted record) then Ok (rt, stored e)
        else Err (Conflict ("rule commit idempotency key reused with a DIFFERENT payload (rule `" ++ rc_rule c ++ "`)"))
    | None =>
        _ ← match instance_status_on T with
            | Some s => ensure (bool_decide (s = "running"))
                          (Conflict ("instance is " ++ s ++ "; rule commits require a running instance"))
            | None => Ok tt end;
        _ ← match guard with
            | Some g => ensure (bool_decide (version = Some (gu_version g)) && bool_decide (epoch = gu_epoch g))
                          (Conflict "active revision changed before rule commit")
            | None => Ok tt end;
        _ ← match guard ≫= gu_frontier with
            | Some f => ensure (bool_decide (head_sequence log = f)) (StaleFrontier f (head_sequence log))
            | None => Ok tt end;
        '(log, e) ← append_event (PRuleCommitted record) "kernel" (rc_trigger c) None (rc_key c) log;
        log ← append_marks (rc_rule c) (e_id e) (rc_marks c) log;
        T ← commit_rows c (e_id e) (e_at e) version epoch T;
        '(log, T) ← commit_terminal c (e_id e) log T;
        Ok (mkRuntime log T, stored e)
    end).

(** ** Derived facts *)

Definition without_span (f : NewFact V) : NewFact V :=
  mkNewFact (nf_id f) (nf_name f) (nf_key f) (nf_value f) (nf_schema f) (nf_provenance f) (nf_correlation f) None (nf_validity f).

(** [derive_fact_on]. *)
Definition derive_fact_on (d : DerivedFact V) log T : result runtime_error (list (Event V) * Tables V * Event V) :=
  let f := df_fact d in
  if from_option (λ v, negb (is_array v)) false (nf_validity f) then Err (Conflict "fact validity must be a JSON array")
  else
    let existing := df_key d ≫= key_event log in
    '(log, e) ← match existing with
                | Some e => Ok (log, e)
                | None => append_event (PFactDerived (without_span f)) (df_source d) (df_causation d) (nf_correlation f) (df_key d) log
                end;
    if bool_decide (is_Some existing) && bool_decide (is_Some (t_facts T !! (nf_name f, nf_key f))) then Ok (log, T, e)
    else
      let '(version, epoch) := active_revision_on T in
      T ← insert_fact (df_source d) (e_id e) version epoch f T;
      Ok (log, T, e).

Definition derive_fact (d : DerivedFact V) rt : Runtime V * result runtime_error Stored :=
  transaction rt (
    '(log, T, e) ← derive_fact_on d (rt_log rt) (rt_tables rt);
    Ok (mkRuntime log T, stored e)).

(** ** Effects a worker may claim *)

(** [live_event_ids_on]: the events that survive the restore markers, where there is one. *)
Definition live_event_ids log : option (list string) :=
  if existsb (λ e, bool_decide (is_Some (restore_target e))) log
  then Some (e_id <$> live_fold e_sequence restore_target (λ _, true) log) else None.

(** The [WHERE] of [claimable_effects_retained]. *)
Definition claim_candidate T (x : string * RtEffect V) : bool :=
  negb (bool_decide (re_kind x.2 = "timer.wait"))
  && (pending (re_status x.2) || bool_decide (re_kind x.2 = "workflow.invoke") && bool_decide (re_status x.2 = "running"))
  && negb (has_open_request x.1 T)
  && negb (existsb (unsatisfied (effect_store instance_id T) instance_id x.1) (t_dependencies T)).

Definition claim_candidates log T : list (string * RtEffect V) :=
  filter (λ x, from_option (λ live, bool_decide (re_event x.2 ∈ live)) true (live_event_ids log) = true)
    (merge_sort (before (λ x : string * RtEffect V, (re_created_at x.2, x.1)))
      (filter (λ x, claim_candidate T x = true) (map_to_list (t_effects T)))).

(** [persist_policy_block_on]: outside a transaction, so the row stays when the event fails. *)
Definition persist_policy_block (effect : string) (b : PolicyBlock) rt : Runtime V * result runtime_error unit :=
  let r := update_effect effect
             (λ e, (negb (bool_decide (re_status e = pb_status b)) || negb (bool_decide (re_block_reason e = Some (pb_reason b))))
                   && pending (re_status e))
             (λ e, set_block (Some (pb_reason b)) (re_block_category e) (set_status (pb_status b) e)) (rt_tables rt) in
  if bool_decide (r.2 = 1) then
    match append_event_idempotent (PEffectBlocked effect (pb_status b) None (pb_reason b)) "kernel" (Some effect) None
            (metadata_key ("policy-block:" ++ effect ++ ":" ++ pb_reason b)) (rt_log rt) with
    | Ok (log, _) => (mkRuntime log r.1, Ok tt)
    | Err e => (mkRuntime (rt_log rt) r.1, Err e)
    end
  else (mkRuntime (rt_log rt) r.1, Ok tt).

Record ClaimableEffect := mkClaimable { cl_effect : string; cl_row : RtEffect V; cl_admission : option string }.

(** The gates of each candidate, in order. *)
Fixpoint claim_each (admissions : gmap string string) (candidates : list (string * RtEffect V)) rt
    : Runtime V * result runtime_error (list ClaimableEffect) :=
  match candidates with
  | [] => (rt, Ok [])
  | (effect, row) :: candidates =>
      match policy_block_on as_json registry (rt_tables rt) effect with
      | Some b =>
          match persist_policy_block effect b rt with
          | (rt, Ok _) => claim_each admissions candidates rt
          | (rt, Err e) => (rt, Err e)
          end
      | None =>
          let '(rt', rest) := claim_each admissions candidates rt in
          (rt', match capacity_block_on as_json registry (rt_tables rt) effect with
                | Some _ => rest
                | None => l ← rest; Ok (mkClaimable effect row (admissions !! effect) :: l)
                end)
      end
  end.

(** [claimable_effects_retained]. *)
Definition claimable_effects rt : Runtime V * result runtime_error (list ClaimableEffect) :=
  if from_option (λ s, negb (bool_decide (s = "running"))) false (instance_status_on (rt_tables rt)) then (rt, Ok [])
  else match selections (journal_event <$> rt_log rt) with
  | Err _ => (rt, Err JournalRefused)
  | Ok admissions => claim_each admissions (claim_candidates (rt_log rt) (rt_tables rt)) rt
  end.

(** ** Starting a run *)

Definition run_lease T (run : string) : option (string * RtLease) :=
  head (filter (λ kl, le_run kl.2 = run) (map_to_list (t_leases T))).

(** The identity check of a run that is already there. *)
Definition run_identity_matches (s : RunStart V) (r : RtRun V) T : bool :=
  bool_decide (ru_effect r = rs_effect s) && bool_decide (ru_provider r = rs_provider s)
  && bool_decide (ru_worker r = rs_worker s) && bool_decide (ru_status r = "running")
  && match run_lease T (rs_run s) with
     | Some (id, l) => bool_decide (id = rs_lease s) && bool_decide (le_status l = "active")
     | None => false end
  && bool_decide (re_status <$> t_effects T !! ru_effect r = Some "running").

(** [run_block_event_key]. *)
Definition run_block_event_key (legacy : string) (payload : Payload V) (original : option (Payload V)) : string :=
  match original with
  | Some p => if bool_decide (p = payload) then legacy else legacy ++ ":reason:" ++ payload_digest payload
  | None => legacy
  end.

(** A block that [start_run] observes: the event, the status, and the error it reports. *)
Definition observe_block (legacy effect status reason : string) (error : runtime_error) rt
    : result runtime_error (Runtime V * result runtime_error Stored) :=
  let payload := PEffectBlocked effect status None reason in
  let key := run_block_event_key legacy payload (e_payload <$> key_event (rt_log rt) legacy) in
  '(log, _) ← append_event_idempotent payload "kernel" (Some effect) None key (rt_log rt);
  let T := (update_effect effect (λ e, pending (re_status e))
             (λ e, set_block (Some reason) (re_block_category e) (set_status status e)) (rt_tables rt)).1 in
  Ok (mkRuntime log T, Err error).

(** [native_dispatch_marker]. *)
Definition dispatch_marker log (s : RunStart V) (e : RtEffect V) (fingerprint : string) : DispatchMarker :=
  let m := unverified_dispatch_marker instance_id (rs_effect s) (rs_run s) (re_key e) (re_kind e) (re_target e)
             (rs_provider s) (input_fingerprint (re_input e)) fingerprint in
  let f := mk_frame m in
  mkMarker (mkFrame (fr_protocol f) (fr_instance f) (fr_effect f) (fr_run f) (fr_key f) (fr_kind f) (fr_target f)
    (fr_provider f) (fr_input_fingerprint f) (fr_execution_fingerprint f) (admission_binding log)) (mk_ceiling m).

(** The statements of a fresh start. *)
Definition begin_run (record : RunRecord V) rt : result runtime_error (Runtime V * Event V) :=
  '(log, e) ← append_event (PRunStarted record) "kernel" (Some (sr_effect record)) None (Some (sr_run record)) (rt_log rt);
  let r := update_effect (sr_effect record) (λ e, pending (re_status e))
             (λ e, set_block None None (set_status "running" e)) (rt_tables rt) in
  _ ← ensure (bool_decide (r.2 = 1)) (Conflict "effect is not claimable");
  let T := r.1 in
  _ ← ensure (bool_decide (t_runs T !! sr_run record = None)) ConstraintFailed;
  _ ← ensure (bool_decide (t_leases T !! sr_lease record = None)) ConstraintFailed;
  let T := with_runs (<[sr_run record := mkRun (sr_effect record) (sr_provider record) (sr_worker record) "running"
             (sr_metadata record) (e_at e) None None None]> (t_runs T)) T in
  let T := with_leases (<[sr_lease record := mkLease (sr_run record) (sr_effect record) (sr_worker record) "active"
             (sr_expires_at record)]> (t_leases T)) T in
  Ok (mkRuntime log T, e).

(** A start of a run that is already there returns its original event. *)
Definition reattach (record : RunRecord V) log : result runtime_error Stored :=
  match key_event log (sr_run record) with
  | None => Err (Conflict "active run has no durable run-start event")
  | Some e =>
      if bool_decide (e_payload e = PRunStarted record) then Ok (stored e)
      else Err (Conflict "active run start payload differs from its original event")
  end.

(** [start_run_observed_retained], without an observed definition to compare with and without
    a settlement in the same transaction. *)
Definition start_run (selection : option (option string)) (admission : RunAdmission) (s : RunStart V) rt
    : Runtime V * result runtime_error Stored :=
  let T := rt_tables rt in let log := rt_log rt in
  let existing := t_runs T !! rs_run s in
  transaction' rt (
    _ ← match selection with
        | None => Ok tt
        | Some expected =>
            match select (journal_event <$> log) (rs_effect s) with
            | Ok selected => ensure (bool_decide (selected = expected)) (Conflict "execution attempt admission changed")
            | Err _ => Err JournalRefused
            end
        end;
    _ ← ensure (from_option (λ r, run_identity_matches s r T) true existing)
          (Conflict "run id was reused with different active run identity");
    _ ← match instance_status_on T with
        | Some st => ensure (bool_decide (st = "running"))
                       (Conflict ("instance is " ++ st ++ "; provider runs require a running instance"))
        | None => Ok tt end;
    match policy_block_on as_json registry T (rs_effect s) with
    | Some b =>
        observe_block ("policy-block:" ++ rs_effect s ++ ":" ++ rs_run s) (rs_effect s) (pb_status b) (pb_reason b)
          (PolicyBlocked (rs_effect s) (pb_reason b)) rt
    | None =>
        _ ← ensure (negb (existsb (unsatisfied (effect_store instance_id T) instance_id (rs_effect s)) (t_dependencies T)))
              (Conflict "effect dependencies are not satisfied");
        _ ← ensure (negb (has_open_request (rs_effect s) T)) (Conflict "effect cancellation has been requested");
        match (if bool_decide (is_Some existing) then None else capacity_block_on as_json registry T (rs_effect s)) with
        | Some reason =>
            observe_block ("capacity-block:" ++ rs_effect s ++ ":" ++ rs_run s) (rs_effect s) "blocked_by_capacity" reason
              (CapacityBlocked (rs_effect s) reason) rt
        | None =>
            attempts ← native_attempts log (rs_effect s);
            _ ← (if match admission with
                    | Resumable => bool_decide (is_Some (find_attempt (rs_run s) attempts))
                    | FreshOnly => false end
                 then Ok tt else proved_absence attempts);
            e ← ok_or NoRow (t_effects T !! rs_effect s);
            let fingerprint := execution_fingerprint T (rs_effect s) (rs_metadata s) in
            let record := mkRunRecord (rs_effect s) (rs_run s) (rs_provider s) (rs_worker s) (rs_lease s) (rs_expires_at s)
                            (inject_fingerprint (rs_metadata s) fingerprint) (dispatch_marker log s e fingerprint) in
            if bool_decide (is_Some existing)
            then st ← reattach record log; Ok (rt, Ok st)
            else '(rt', e) ← begin_run record rt; Ok (rt', Ok (stored e))
        end
    end).

(** ** Completion *)

Definition completion_record (c : EffectCompletion V) (run_status : string) : TerminalRecord V :=
  mkTerminal (ec_effect c) (Some (ec_run c)) (Some (ec_provider c)) (Some (ec_worker c)) (ec_status c) (Some run_status)
    (ec_exit c) (ec_summary c) (Some (ec_metadata c)) None.

Definition finished_statuses : list string := ["completed"; "failed"; "timed_out"; "cancelled"; "uncertain"].

(** The facts a settlement projects in the same transaction. *)
Fixpoint settle_facts (event_id : string) (facts : list (NewFact V * string)) log T
    : result runtime_error (list (Event V) * Tables V) :=
  match facts with
  | [] => Ok (log, T)
  | (f, key) :: facts =>
      '(log, T, _) ← derive_fact_on (mkDerived f "kernel" (Some event_id) (Some key)) log T;
      _ ← ensure (from_option (λ r, negb (ft_consumed r)) false (t_facts T !! (nf_name f, nf_key f)))
            (Conflict "exec settlement fact was not projected");
      settle_facts event_id facts log T
  end.

(** A settlement that was retained is the one that is projected. *)
Definition check_settlement (c : EffectCompletion V) (facts : list (NewFact V * string)) (cache : option (string * string)) log T
    : result runtime_error unit :=
  match key_event log (retention_key (ec_run c)) with
  | None => Ok tt
  | Some e => row ← ok_or NoRow (t_effects T !! ec_effect c); verify_settlement render e (re_input row) c facts cache
  end.

(** [complete_effect_terminal_on], without the diagnostics, the row of the result cache and
    the facts that a file or a coercion attaches. *)
Definition complete_effect_terminal_on (c : EffectCompletion V) (run_status : string) (facts : list (NewFact V * string))
    (cache : option (string * string)) rt : result runtime_error (Runtime V * Stored) :=
  let T := rt_tables rt in
  _ ← check_settlement c facts cache (rt_log rt) T;
  run_status ← projection_run_status journal_key instance_id c run_status (bool_decide (is_Some cache)) (key_event (rt_log rt));
  '(log, e) ← append_event (PEffectTerminal (completion_record c run_status)) "kernel" (Some (ec_effect c)) None (ec_key c) (rt_log rt);
  let r := update_where (ec_run c) (λ r, bool_decide (ru_effect r = ec_effect c) && bool_decide (ru_status r = "running"))
             (finish_run run_status (e_at e) (ec_exit c) (ec_summary c) (ec_metadata c)) (t_runs T) in
  _ ← (if bool_decide (r.2 = 0)
       then Err (Conflict (if from_option (λ r : RtRun V, bool_decide (ru_effect r = ec_effect c) && bool_decide (ru_status r ∈ finished_statuses))
                                false (t_runs T !! ec_run c)
                           then "run already has a terminal completion" else "run is not running"))
       else Ok tt);
  let T := release_leases (ec_run c) (ec_effect c) (with_runs r.1 T) in
  let T := (update_effect (ec_effect c) (λ _, true) (set_status (ec_status c)) T).1 in
  let T := satisfy_dependencies instance_id (mark_requests_terminal (ec_effect c) (e_id e) T) in
  '(log, T) ← settle_facts (e_id e) facts log T;
  Ok (mkRuntime log T, stored e).

(** [record_terminal_refusal]: outside the transaction that refused. *)
Definition record_terminal_refusal (c : EffectCompletion V) (attempted : string)
    (outcome : Runtime V * result runtime_error Stored) : Runtime V * result runtime_error Stored :=
  match outcome with
  | (rt, Err (Conflict reason)) =>
      match append_event (PTerminalRefused (ec_run c) (ec_effect c) attempted reason) "kernel" (Some (ec_effect c))
              (Some (ec_run c)) (Some (metadata_key ("terminal-refused:" ++ ec_run c ++ ":" ++ attempted ++ ":" ++ reason))) (rt_log rt) with
      | Ok (log, _) => (mkRuntime log (rt_tables rt), Err (Conflict reason))
      | Err e => (rt, Err e)
      end
  | _ => outcome
  end.

(** [complete_effect] and [resolve_effect_uncertain]. *)
Definition complete_with (run_status : string) (c : EffectCompletion V) rt : Runtime V * result runtime_error Stored :=
  record_terminal_refusal c run_status (transaction rt (complete_effect_terminal_on c run_status [] None rt)).

Definition complete_effect (c : EffectCompletion V) rt := complete_with (ec_status c) c rt.
Definition resolve_effect_uncertain (c : EffectCompletion V) rt := complete_with "uncertain" c rt.

(** [complete_effect_settlement]: the completion and the facts of a settlement, at once. *)
Definition complete_effect_settlement (c : EffectCompletion V) (facts : list (NewFact V * string)) (cache : option (string * string)) rt
    : Runtime V * result runtime_error Stored :=
  transaction rt (complete_effect_terminal_on c (ec_status c) facts cache rt).

(** ** Blocks found by a worker *)

(** [block_effect_with_status_retained]. *)
Definition last_block log (effect : string) : option (Event V) :=
  last (filter (λ e, match e_payload e with PEffectBlocked _ _ _ _ => bool_decide (e_causation e = Some effect) | _ => false end = true) log).

Definition block_effect_with_status (effect status key_prefix category detail : string) rt : Runtime V * result runtime_error Stored :=
  let T := rt_tables rt in let log := rt_log rt in
  transaction rt (
    if from_option (λ e, bool_decide (re_status e = status) && bool_decide (re_block_category e = Some category)) false (t_effects T !! effect)
    then e ← ok_or NoRow (last_block log effect); Ok (rt, stored e)
    else
      '(log, e) ← append_event (PEffectBlocked effect status (Some category) detail) "kernel" (Some effect) None
                    (Some (key_prefix ++ ":" ++ instance_id ++ ":" ++ effect ++ ":" ++ category)) log;
      let T := (update_effect effect (λ e, pending (re_status e)) (λ e, set_block (Some detail) (Some category) (set_status status e)) T).1 in
      Ok (mkRuntime log T, stored e)).

Definition block_effect_binding effect category detail rt :=
  block_effect_with_status effect "blocked" "binding-block" category detail rt.
Definition deny_effect_admission effect category detail rt :=
  block_effect_with_status effect "blocked_by_admission" "admission-denial" category detail rt.

(** ** Transitions of the instance *)

Definition transition_instance (status : string) (reason key : option string) rt : Runtime V * result runtime_error Stored :=
  let T := rt_tables rt in
  transaction rt (
    current ← ok_or (Conflict "instance does not exist") (instance_status_on T);
    _ ← ensure (instance_transition_allowed current status)
          (Conflict ("cannot transition instance from " ++ current ++ " to " ++ status));
    '(log, e) ← append_event (PInstanceTransitioned status reason) "kernel" None None key (rt_log rt);
    Ok (mkRuntime log (apply_transition (e_id e) status reason T), stored e)).

(** ** Expiry, cancellation and retry of an effect *)

Definition runless_terminal (effect status : string) (reason : option string) : Payload V :=
  PEffectTerminal (mkTerminal effect None None None status None None None None reason).

Definition expire_effect (effect : string) (key : option string) rt : Runtime V * result runtime_error Stored :=
  transaction rt (
    '(log, e) ← append_event (runless_terminal effect "timed_out" (Some "deadline exceeded")) "kernel" (Some effect) None key (rt_log rt);
    let r := update_effect effect (λ e, unsettled (re_status e)) (set_status "timed_out") (rt_tables rt) in
    _ ← ensure (bool_decide (r.2 = 1)) (Conflict "effect cannot expire");
    Ok (mkRuntime log r.1, stored e)).

Definition cancel_effect (effect : string) (reason key : option string) rt : Runtime V * result runtime_error Stored :=
  transaction rt (
    '(log, e) ← append_event (runless_terminal effect "cancelled" reason) "kernel" (Some effect) None key (rt_log rt);
    let r := update_effect effect (λ e, unsettled (re_status e)) (set_status "cancelled") (rt_tables rt) in
    _ ← ensure (bool_decide (r.2 = 1)) (Conflict "effect cannot be cancelled");
    Ok (mkRuntime log (satisfy_dependencies instance_id (mark_requests_terminal effect (e_id e) r.1)), stored e)).

(** [RETRY_RUNS_SQL]: the runs of an effect, and whether the log tracks them. *)
Definition retry_runs (effect : string) log T : list (string * bool) :=
  (λ kr : string * RtRun V, (kr.1, existsb (λ e : Event V, match e_payload e with PTracked t => bool_decide (tk_run t = kr.1) | _ => false end) log))
    <$> filter (λ kr, ru_effect kr.2 = effect) (map_to_list (t_runs T)).

(** [retry_effect_selected_retained]. *)
Definition retry_effect (effect : string) (retry_after terminal_event key : option string) rt : Runtime V * result runtime_error Stored :=
  let T := rt_tables rt in let log := rt_log rt in
  let payload := PEffectRetried effect retry_after terminal_event in
  transaction rt (
    attempts ← native_attempts log effect;
    _ ← proved_absence attempts;
    match key ≫= key_event log with
    | Some e =>
        if bool_decide (e_payload e = payload) && bool_decide (e_source e = "kernel") && bool_decide (e_causation e = Some effect)
        then Ok (rt, stored e) else Err (Conflict "retry idempotency key has a different request")
    | None =>
        _ ← match terminal_event with
            | None => Ok tt
            | Some expected =>
                match terminal (journal_event <$> log) effect with
                | Ok t => ensure (bool_decide (t = Some expected)) (Conflict "retry terminal changed")
                | Err _ => Err JournalRefused
                end
            end;
        _ ← verify_retry_closure journal_key instance_id effect (retry_runs effect log T) (key_event log);
        '(log, e) ← append_event payload "kernel" (Some effect) None key log;
        let r := update_effect effect retryable (set_status "queued") T in
        _ ← ensure (bool_decide (r.2 = 1)) (Conflict "effect is not retryable");
        Ok (mkRuntime log r.1, stored e)
    end).

(** ** Leases *)

Definition renew_lease (lease run new_expires_at : string) (key : option string) rt : Runtime V * result runtime_error Stored :=
  transaction rt (
    '(log, e) ← append_event (PLeaseRenewed lease run new_expires_at) "kernel" (Some run) None key (rt_log rt);
    let r := update_where lease (λ l, bool_decide (le_run l = run) && bool_decide (le_status l = "active"))
               (set_lease_expiry new_expires_at) (t_leases (rt_tables rt)) in
    _ ← ensure (bool_decide (r.2 = 1)) (Conflict "lease cannot be renewed");
    Ok (mkRuntime log (with_leases r.1 (rt_tables rt)), stored e)).

(** [ensure_exec_fence_on]: the fence of a tracked run is requested once. *)
Definition ensure_exec_fence_on (reason : FenceReason) (run : string) log : result runtime_error (list (Event V) * Event V) :=
  _ ← fence_validate instance_id run;
  tracked ← ok_or (Conflict "exec fence tracking record is missing") (key_event log (tracking_key run));
  record ← fence_payload journal_key instance_id run reason tracked;
  match key_event log (fence_key run) with
  | Some e => _ ← verify_existing e record; Ok (log, e)
  | None => append_event (PFenceRequested record) "kernel" (Some (e_id tracked)) None (Some (fence_key run)) log
  end.

(** [ensure_exec_fence]. *)
Definition ensure_exec_fence (reason : FenceReason) (run : string) rt : Runtime V * result runtime_error Stored :=
  transaction rt ('(log, e) ← ensure_exec_fence_on reason run (rt_log rt); Ok (mkRuntime log (rt_tables rt), stored e)).

(** A record that is written once under its key: [accept] checks the one that is there, and
    [allow] what a new one requires. *)
Definition retain_once (payload : Payload V) (causation key : string) (accept : Event V → result runtime_error unit)
    (allow : result runtime_error unit) rt : result runtime_error (Runtime V * Stored) :=
  match key_event (rt_log rt) key with
  | Some e => _ ← accept e; Ok (rt, stored e)
  | None =>
      _ ← allow;
      '(log, e) ← append_event payload "kernel" (Some causation) None (Some key) (rt_log rt);
      Ok (mkRuntime log (rt_tables rt), stored e)
  end.

(** [retain_exec_fence_proof]: the closure of a tracked and fenced run is recorded once. *)
Definition retain_exec_fence_proof (run : string) (closure : Closure V) rt : Runtime V * result runtime_error Stored :=
  let log := rt_log rt in
  transaction rt (
    tracking ← ok_or (Conflict "exec closure journal reference is missing") (key_event log (tracking_key run));
    fence ← ok_or (Conflict "exec closure journal reference is missing") (key_event log (fence_key run));
    record ← proof_payload journal_key instance_id run closure tracking fence;
    retain_once (PFenceProved record) (e_id fence) (proof_key run) (λ e, verify_proved e record) (Ok tt) rt).

(** One expired lease. *)
Definition expire_lease (now : string) (x : string * RtLease) rt : result runtime_error (Runtime V) :=
  let '(lease, l) := x in
  let '(execution, tracked) := lease_exec_state tracking_key (rt_log rt) (rt_tables rt) (le_run l) in
  log ← (if tracked then fst <$> ensure_exec_fence_on FenceRecovery (le_run l) (rt_log rt) else Ok (rt_log rt));
  '(log, e) ← append_event (PLeaseExpired execution lease (le_run l) (le_effect l) now) "kernel" (Some (le_run l)) None
                (Some ("lease-expired:" ++ lease)) log;
  _ ← ensure (bool_decide (is_Some (t_leases (rt_tables rt) !! lease))) (Conflict "lease expiry was not retained");
  let T := expire_lease_row lease (rt_tables rt) in
  Ok (mkRuntime log (if execution then T else expire_plain_run (le_run l) (le_effect l) (e_at e) T)).

Fixpoint expire_each (now : string) (expired : list (string * RtLease)) rt : result runtime_error (Runtime V) :=
  match expired with
  | [] => Ok rt
  | x :: expired => rt' ← expire_lease now x rt; expire_each now expired rt'
  end.

Definition expired_leases (now : string) T : list (string * RtLease) :=
  merge_sort (before (λ kl : string * RtLease, (le_expires_at kl.2, kl.1)))
    (filter (λ kl, bool_decide (le_status kl.2 = "active") && bool_decide (String.le (le_expires_at kl.2) now) = true)
      (map_to_list (t_leases T))).

Definition expire_leases (now : string) rt : Runtime V * result runtime_error (list string) :=
  let expired := expired_leases now (rt_tables rt) in
  transaction rt (rt' ← expire_each now expired rt; Ok (rt', expired.*1)).

(** ** Cancellation requests *)

(** [CANCELLATION_FOR_RUN_SQL]. *)
Definition cancellation_for_run (effect run : string) T : bool :=
  existsb (λ kq, bool_decide (rq_effect kq.2 = effect) && bool_decide (run ∈ default [] (t_request_runs T !! kq.1)))
    (map_to_list (t_requests T)).

(** [fence_cancelled_exec_on]. *)
Definition fence_cancelled_exec (effect run : string) log T : result runtime_error (list (Event V)) :=
  if bool_decide (is_Some (key_event log (tracking_key run))) && cancellation_for_run effect run T
  then fst <$> ensure_exec_fence_on FenceCancellation run log else Ok log.

Definition running_runs (effect : string) T : list string :=
  fst <$> merge_sort (before (λ kr : string * RtRun V, (ru_started_at kr.2, kr.1)))
    (filter (λ kr, bool_decide (ru_effect kr.2 = effect) && bool_decide (ru_status kr.2 = "running") = true) (map_to_list (t_runs T))).

Fixpoint fence_runs (effect : string) (runs : list string) log T : result runtime_error (list (Event V)) :=
  match runs with
  | [] => Ok log
  | run :: runs => log ← fence_cancelled_exec effect run log T; fence_runs effect runs log T
  end.

(** [insert_effect_cancellation_request_on]; [request_id] is the identifier it draws. *)
Definition insert_cancellation_request (request_id effect : string) (revision reason : option string) (by_ : string)
    (causation key : option string) log T : result runtime_error (list (Event V) * Tables V * string) :=
  match key ≫= λ k, head (filter (λ kq, rq_key kq.2 = Some k) (map_to_list (t_requests T))) with
  | Some (id, _) => Ok (log, T, id)
  | None =>
      _ ← ensure (negb (has_open_request effect T)) (Conflict "effect already has an open cancellation request");
      let record := mkRequestRecord request_id effect revision reason by_ in
      '(log, _) ← append_event (PCancellationRequested record) "kernel" (Some (default effect causation)) revision key log;
      _ ← ensure (bool_decide (t_requests T !! request_id = None)) ConstraintFailed;
      _ ← ensure (negb (request_constraint record key T)) ConstraintFailed;
      _ ← ensure (from_option (λ c, existsb (λ e : Event V, bool_decide (e_id e = c)) log) true causation) ConstraintFailed;
      let T := with_requests (<[request_id := mkRequest effect revision reason by_ causation "requested" key None]> (t_requests T)) T in
      let T := with_request_runs (<[request_id := running_runs effect T]> (t_request_runs T)) T in
      log ← fence_runs effect (running_runs effect T) log T;
      Ok (log, T, request_id)
  end.

(** [request_effect_cancellation_retained]. *)
Definition request_effect_cancellation (request_id effect : string) (revision reason : option string) (by_ : string)
    (causation key : option string) rt : Runtime V * result runtime_error string :=
  let T := rt_tables rt in
  transaction rt (
    status ← ok_or (Conflict "effect does not exist") (re_status <$> t_effects T !! effect);
    _ ← ensure (bool_decide (status = "running")) (Conflict ("effect is " ++ status ++ "; cancellation requests require running work"));
    '(log, T, id) ← insert_cancellation_request request_id effect revision reason by_ causation key (rt_log rt) T;
    Ok (mkRuntime log T, id)).

(** ** Revisions *)

(** [normalize_cancellation_policy]. *)
Definition normalize_cancellation_policy (policy : string) : result runtime_error string :=
  if bool_decide (policy = "keep") then Ok "keep"
  else if bool_decide (policy ∈ ["cancel_queued"; "cancel queued"; "queued"]) then Ok "cancel_queued"
  else if bool_decide (policy ∈ ["request_running"; "request running"; "running"]) then Ok "request_running"
  else Err (Conflict ("unsupported revision cancellation policy `" ++ policy ++ "`")).

(** [revision_policy_effects_on]. *)
Definition policy_effects (P : string → bool) T : list string :=
  fst <$> merge_sort (before (λ kr : string * RtEffect V, (re_created_at kr.2, kr.1)))
    (filter (λ kr, P (re_status kr.2) = true) (map_to_list (t_effects T))).

Record RevisionActivation := mkActivation {
  av_id : string; av_from : string; av_to : string; av_policy : V; av_cancellation : string; av_carries : V;
  av_correspondence : V; av_key : option string; av_request_id : string → string;
}.

(** The terminals of the pending effects that the policy cancels. *)
Fixpoint cancel_pending (revision event_id : string) (ids : list string) log T : result runtime_error (list (Event V) * Tables V) :=
  match ids with
  | [] => Ok (log, T)
  | effect :: ids =>
      '(log, e) ← append_event (runless_terminal effect "cancelled" (Some "workflow revision")) "kernel" (Some event_id)
                    (Some revision) (Some ("revision-cancel:" ++ revision ++ ":" ++ effect)) log;
      let T := (update_effect effect (λ e, pending (re_status e)) (set_status "cancelled") T).1 in
      cancel_pending revision event_id ids log (mark_requests_terminal effect (e_id e) T)
  end.

(** The requests to the running effects. *)
Fixpoint request_running (a : RevisionActivation) (event_id : string) (ids : list string) log T
    : result runtime_error (list (Event V) * Tables V) :=
  match ids with
  | [] => Ok (log, T)
  | effect :: ids =>
      '(log, T, _) ← insert_cancellation_request (av_request_id a effect) effect (Some (av_id a)) (Some "workflow revision")
                       "workflow.revision" (Some event_id)
                       (Some ("revision-request-cancel:" ++ av_id a ++ ":" ++ effect)) log T;
      request_running a event_id ids log T
  end.

Definition satisfy_if (b : bool) T : Tables V := if b then satisfy_dependencies instance_id T else T.

(** [activate_revision_retained]; whether the target version exists, belongs to the program
    and is compatible is [revision_check]. *)
Definition activate_revision (a : RevisionActivation) rt : Runtime V * result runtime_error string :=
  let T := rt_tables rt in let log := rt_log rt in
  transaction rt (
    policy ← normalize_cancellation_policy (av_cancellation a);
    match av_key a ≫= λ k, head (filter (λ kv, rv_key kv.2 = Some k) (map_to_list (t_revisions T))) with
    | Some (id, v) =>
        _ ← ensure (bool_decide (rv_from v = av_from a) && bool_decide (rv_to v = av_to a) && bool_decide (rv_cancellation v = policy)
                    && bool_decide (rv_policy v = av_policy a) && bool_decide (rv_carries v = av_carries a))
              (Conflict "revision idempotency key was reused with different activation input");
        Ok (rt, id)
    | None =>
        i ← ok_or (Conflict "instance does not exist") (t_instance T);
        _ ← ensure (negb (bool_decide (in_status i ∈ ["completed"; "failed"; "cancelled"])))
              (Conflict ("instance is " ++ in_status i ++ "; revisions require a non-terminal instance"));
        _ ← ensure (bool_decide (in_version i = av_from a)) (Conflict ("active version is " ++ in_version i ++ "; expected " ++ av_from a));
        _ ← revision_check T (av_from a) (av_to a);
        let epoch := (in_epoch i + 1)%Z in
        let queued := if bool_decide (policy = "keep") then [] else policy_effects pending T in
        let running := if bool_decide (policy = "request_running") then policy_effects (λ s, bool_decide (s = "running")) T else [] in
        '(log, e) ← append_event (PRevisionActivated (mkRevisionRecord (av_id a) (av_from a) (av_to a) epoch (av_policy a) policy
                      (av_carries a) (av_correspondence a) queued running)) "kernel" None (Some (av_id a)) (av_key a) log;
        _ ← ensure (bool_decide (t_revisions T !! av_id a = None)) ConstraintFailed;
        _ ← ensure (bool_decide (count_rows (λ v : RtRevision V, bool_decide (rv_epoch v = epoch)) (t_revisions T) = 0)) ConstraintFailed;
        let T := with_revisions (<[av_id a := mkRevision epoch (av_from a) (av_to a) (e_id e) (av_policy a) policy (av_carries a)
                   (av_key a)]> (t_revisions T)) T in
        let T := move_revision (e_id e) (av_to a) epoch T in
        '(log, T) ← cancel_pending (av_id a) (e_id e) queued log T;
        let T := satisfy_if (negb (bool_decide (queued = []))) T in
        '(log, T) ← request_running a (e_id e) running log T;
        Ok (mkRuntime log (satisfy_if (negb (bool_decide (queued = []))) T), av_id a)
    end).

(** ** Facts outside a commit *)

Definition retire_fact (id : string) rt : Runtime V :=
  mkRuntime (rt_log rt) (with_facts (update_every (consumable id) (set_consumed true) (t_facts (rt_tables rt))) (rt_tables rt)).

Definition revive_fact (id : string) rt : Runtime V :=
  mkRuntime (rt_log rt) (with_facts (update_every (λ f : RtFact V, bool_decide (ft_id f = id) && ft_consumed f) (set_consumed false)
    (t_facts (rt_tables rt))) (rt_tables rt)).

(** ** Tracking of an execution (exec_lifetime.rs) *)

(** The running invocation that an operation requires, with its input and metadata. *)
Definition running_invocation (effect run : string) T : option (V * V) :=
  match t_runs T !! run, t_effects T !! effect with
  | Some r, Some e =>
      if bool_decide (ru_effect r = effect) && bool_decide (ru_provider r = "exec") && bool_decide (ru_worker r = "whip-exec")
         && bool_decide (ru_status r = "running") && bool_decide (re_status e = "running") && bool_decide (re_kind e = "exec.command")
      then Some (re_input e, ru_metadata r) else None
  | _, _ => None
  end.

(** [track_exec_lifetime]: only a running invocation is tracked, and its request is not
    replaced. *)
Definition track_exec_lifetime (t : Tracking V) rt : Runtime V * result runtime_error Stored :=
  let T := rt_tables rt in let log := rt_log rt in let effect := tk_effect t in let run := tk_run t in
  transaction rt (
    _ ← track_payload instance_id t;
    match key_event log (tracking_key run) with
    | Some e =>
        _ ← verify_tracked e t;
        log ← fence_cancelled_exec effect run log T;
        Ok (mkRuntime log T, stored e)
    | None =>
        '(input, metadata) ← ok_or (Conflict "exec lifetime tracking requires its running invocation") (running_invocation effect run T);
        _ ← verify_binding render sha256_hex t input metadata;
        '(log, e) ← append_event (PTracked t) "kernel" (Some run) None (Some (tracking_key run)) log;
        log ← fence_cancelled_exec effect run log T;
        Ok (mkRuntime log T, stored e)
    end).

(** [retain_exec_outcome]. *)
Definition retain_exec_outcome (run : string) (placement : V) (outcome : Outcome V) rt : Runtime V * result runtime_error Stored :=
  let log := rt_log rt in
  transaction rt (
    tracking ← ok_or (Conflict "exec outcome tracking is missing") (key_event log (tracking_key run));
    fence ← ok_or (Conflict "exec outcome fence is missing") (key_event log (fence_key run));
    record ← outcome_payload journal_key instance_id run placement outcome tracking fence
               (if needs_proof outcome then key_event log (proof_key run) else None);
    retain_once (POutcomeObserved record) (e_id fence) (outcome_key run) (λ e, verify_observed e record) (Ok tt) rt).

(** [retain_exec_settlement]. *)
Definition retain_exec_settlement (s : SettlementRecord V) rt : Runtime V * result runtime_error Stored :=
  transaction rt (
    retain_once (PSettlementRetained s) (sl_run s) (retention_key (sl_run s)) (λ e, verify_retained e s)
      ('(input, _) ← ok_or (Conflict "exec settlement requires its running invocation")
                       (running_invocation (sl_effect s) (sl_run s) (rt_tables rt));
       verify_input input s) rt).

(** [schedule_exec_reconciliation]. *)
Definition schedule_exec_reconciliation (w : WakeRecord V) rt : Runtime V * result runtime_error Stored :=
  transaction rt (
    _ ← wake_payload w;
    retain_once (PWakeScheduled w) (wk_run w) (wake_key (wk_run w) (wk_due w)) (λ e, verify_wake e w)
      ('(input, metadata) ← ok_or (Conflict "exec reconciliation requires its running invocation")
                              (running_invocation (wk_effect w) (wk_run w) (rt_tables rt));
       verify_retained_dispatch render sha256_hex (wk_input w) (wk_invocation w) input metadata) rt).

(** ** Restores *)

(** [commit_restore_retained]: the marker commits, then the tables are rebuilt. *)
Definition commit_restore (target : Z) (cut expected_head : string) (key : option string) rt : Runtime V * result runtime_error Stored :=
  let body :=
    _ ← file_manifest_check (rt_tables rt);
    _ ← ensure (bool_decide (expected_head = log_digest (rt_log rt))) (HeadMoved expected_head (log_digest (rt_log rt)));
    append_event (PRestored cut target) "restorable-context" None None key (rt_log rt) in
  match body with
  | Err e => (rt, Err e)
  | Ok (log, e) =>
      match rebuild_projections tracking_key instance_id log (rt_tables rt) with
      | Ok T => (mkRuntime log T, Ok (stored e))
      | Err err => (mkRuntime log (rt_tables rt), Err err)
      end
  end.

End operations.
