(* ===== verification/RuntimeErase.v ===== *)
(** What a rebuilt projection can differ in from the live one, as an erasure of columns,
    and that every statement respects it: a block that no event folds back (a pending
    status, its reason and category), the source span of a fact, the expiry of a renewed
    lease, the cause and resolution of a cancellation request.  Everything else has to agree. *)
From S2P Require Import Prelude DependencyGraph EffectRecovery AttemptAdmission RuntimeTables RuntimePolicy RuntimeReplay RuntimeOps.
Local Open Scope string_scope.

Section erase.
Context {V : Type}.
Implicit Types (T : Tables V).

Definition erase_status (s : string) : string := if pending s then "queued" else s.

Definition erase_effect (e : RtEffect V) : RtEffect V := set_block None None (set_status (erase_status (re_status e)) e).

Definition erase_fact (f : RtFact V) : RtFact V :=
  mkFact (ft_id f) (ft_version f) (ft_epoch f) (ft_value f) (ft_event f) (ft_rule f) (ft_schema f) (ft_provenance f)
    (ft_correlation f) None (ft_validity f) (ft_consumed f).

Definition erase_lease (l : RtLease) : RtLease := set_lease_expiry "" l.

Definition erase_request (q : RtRequest) : RtRequest :=
  mkRequest (rq_effect q) (rq_revision q) (rq_reason q) (rq_by q) None "" (rq_key q) None.

(** The tables agree. *)
Record agree (T T' : Tables V) : Prop := mkAgree {
  ag_instance : t_instance T = t_instance T';
  ag_facts : erase_fact <$> t_facts T = erase_fact <$> t_facts T';
  ag_effects : erase_effect <$> t_effects T = erase_effect <$> t_effects T';
  ag_dependencies : t_dependencies T = t_dependencies T';
  ag_runs : t_runs T = t_runs T';
  ag_leases : erase_lease <$> t_leases T = erase_lease <$> t_leases T';
  ag_requests : erase_request <$> t_requests T = erase_request <$> t_requests T';
  ag_revisions : t_revisions T = t_revisions T';
}.

#[export] Instance agree_equivalence : Equivalence agree.
Proof.
  split.
  - by intros T.
  - intros T T' []. by split.
  - intros T1 T2 T3 [] []. split; congruence.
Qed.

(** ** Rows under an erasure *)

Section rows.
Context {K R : Type} `{Countable K} (erase : R → R).
Implicit Types (m : gmap K R).

Lemma same_lookup m m' k : erase <$> m = erase <$> m' → erase <$> m !! k = erase <$> m' !! k.
Proof. intros Hm. by rewrite <- !lookup_fmap, Hm. Qed.

Lemma same_row m m' k r :
  erase <$> m = erase <$> m' → m !! k = Some r → ∃ r', m' !! k = Some r' ∧ erase r = erase r'.
Proof.
  intros Hm Hr. pose proof (same_lookup m m' k Hm) as Hk. rewrite Hr in Hk. simpl in Hk. symmetry in Hk.
  apply fmap_Some in Hk as (r' & ? & ?). eauto.
Qed.

Lemma same_none m m' k : erase <$> m = erase <$> m' → m !! k = None ↔ m' !! k = None.
Proof.
  intros Hm. pose proof (same_lookup m m' k Hm) as Hk.
  destruct (m !! k), (m' !! k); naive_solver.
Qed.

Lemma same_insert m m' k r r' :
  erase <$> m = erase <$> m' → erase r = erase r' → erase <$> <[k := r]> m = erase <$> <[k := r']> m'.
Proof. intros Hm Hr. by rewrite !fmap_insert, Hm, Hr. Qed.

(** A condition that does not look at what is erased. *)
Context (P : R → bool) (HP : ∀ r r', erase r = erase r' → P r = P r').

Lemma same_every (f f' : R → R) m m' :
  (∀ r r', P r = true → erase r = erase r' → erase (f r) = erase (f' r')) → erase <$> m = erase <$> m' →
  erase <$> update_every P f m = erase <$> update_every P f' m'.
Proof.
  intros Hf Hm. apply map_eq. intros k. unfold update_every. rewrite !lookup_fmap.
  pose proof (same_lookup m m' k Hm) as Hk. destruct (m !! k) as [r|] eqn:Hr, (m' !! k) as [r'|]; simplify_eq/=; [|done..].
  f_equal. rewrite <- (HP r r') by done. destruct (P r) eqn:Hp; auto.
Qed.

Lemma rows_forall2 m m' :
  erase <$> m = erase <$> m' →
  Forall2 (λ x y : K * R, x.1 = y.1 ∧ erase x.2 = erase y.2) (map_to_list m) (map_to_list m').
Proof.
  intros Hm. assert (prod_map id erase <$> map_to_list m = prod_map id erase <$> map_to_list m') as Heq.
  { rewrite <- !map_to_list_fmap. by rewrite Hm. }
  clear Hm. revert Heq. generalize (map_to_list m'). generalize (map_to_list m).
  induction l as [|x l IH]; intros [|y l'] Heq; simplify_eq/=; constructor; [|by apply IH].
  destruct x, y. by simplify_eq/=.
Qed.

Lemma same_count m m' : erase <$> m = erase <$> m' → count_rows P m = count_rows P m'.
Proof.
  intros Hm%rows_forall2. unfold count_rows. induction Hm as [|x y l l' [Hk Hr] Hl IH]; [done|].
  rewrite !filter_cons, (HP x.2 y.2) by done. destruct (decide _); simpl; by rewrite ?IH.
Qed.

End rows.

(** ** Statements respect the erasure *)

(** A fallible step of the live tables is matched by one of the others. *)
Definition simulates (step step' : Tables V → result runtime_error (Tables V)) : Prop :=
  ∀ T T' U, agree T T' → step T = Ok U → ∃ U', step' T' = Ok U' ∧ agree U U'.

Lemma simulates_each {A} (step step' : A → Tables V → result runtime_error (Tables V)) l :
  (∀ x, x ∈ l → simulates (step x) (step' x)) → simulates (each step l) (each step' l).
Proof.
  induction l as [|x l IH]; intros Hs T T' U HT; simpl; [intros [= <-]; eauto|].
  intros (T1 & H1 & H2)%bind_ok. destruct (Hs x (list_elem_of_here _ _) T T' T1 HT H1) as (T1' & H1' & HT1).
  rewrite H1'. simpl. apply (IH ltac:(set_solver) _ _ _ HT1 H2).
Qed.

Lemma each_fmap {A B} (f : A → B) step l T : each step (f <$> l) T = each (λ x : A, step (f x) : Tables V → _) l T.
Proof. revert T. induction l as [|x l IH]; intros T; simpl; [done|]. destruct (step (f x) T); simpl; auto. Qed.

Lemma erase_status_pending s s' : erase_status s = erase_status s' → pending s = pending s'.
Proof.
  unfold erase_status. destruct (pending s) eqn:H1, (pending s') eqn:H2; try done; intros Heq; subst;
    [by vm_compute in H2|by vm_compute in H1].
Qed.

Lemma erase_status_settled s s' : erase_status s = erase_status s' → pending s = false → s = s'.
Proof.
  intros Heq Hp. pose proof (erase_status_pending _ _ Heq) as Hs. unfold erase_status in Heq.
  rewrite <- Hs, Hp in Heq. done.
Qed.

Lemma pending_unsettled s : pending s = true → unsettled s = true.
Proof.
  unfold pending, unsettled. intros Hp%bool_decide_eq_true. apply negb_true_iff, bool_decide_eq_false. intros Hs.
  unfold PENDING_EFFECT_STATUSES, settled_statuses in *. set_solver.
Qed.

Lemma effect_status e e' : erase_effect e = erase_effect e' → erase_status (re_status e) = erase_status (re_status e').
Proof. intros He. by apply (f_equal re_status) in He. Qed.

Lemma effect_pending e e' : erase_effect e = erase_effect e' → pending (re_status e) = pending (re_status e').
Proof. intros He. by apply erase_status_pending, effect_status. Qed.

(** A status that is not pending is seen by both sides. *)
Lemma effect_settled e e' :
  erase_effect e = erase_effect e' → pending (re_status e) = false → re_status e = re_status e'.
Proof. intros He. apply erase_status_settled. by apply effect_status. Qed.

Lemma effect_is s e e' :
  pending s = false → erase_effect e = erase_effect e' → bool_decide (re_status e = s) = bool_decide (re_status e' = s).
Proof.
  intros Hs He. apply bool_decide_ext. split; intros Heq.
  - rewrite <- (effect_settled e e'); [done..|by rewrite Heq].
  - symmetry in He. rewrite <- (effect_settled e' e); [done..|by rewrite Heq].
Qed.

Lemma effect_unsettled e e' : erase_effect e = erase_effect e' → unsettled (re_status e) = unsettled (re_status e').
Proof.
  intros He. pose proof (effect_pending e e' He) as Hp. destruct (pending (re_status e)) eqn:Hpe.
  - by rewrite !pending_unsettled by congruence.
  - by rewrite (effect_settled e e' He Hpe).
Qed.

Lemma set_status_erase s e e' : erase_effect e = erase_effect e' → erase_effect (set_status s e) = erase_effect (set_status s e').
Proof. intros He. change (set_status (erase_status s) (erase_effect e) = set_status (erase_status s) (erase_effect e')). by rewrite He. Qed.

Lemma set_block_erase r c e : erase_effect (set_block r c e) = erase_effect e.
Proof. done. Qed.

Lemma pending_same s e : pending (re_status e) = true → pending s = true → erase_effect (set_status s e) = erase_effect e.
Proof. intros H1 H2. unfold erase_effect, erase_status. simpl. by rewrite H1, H2. Qed.

(** *** Facts *)

Definition same_fact (f f' : NewFact V) : Prop :=
  nf_id f = nf_id f' ∧ nf_name f = nf_name f' ∧ nf_key f = nf_key f' ∧ nf_value f = nf_value f' ∧
  nf_schema f = nf_schema f' ∧ nf_provenance f = nf_provenance f' ∧ nf_correlation f = nf_correlation f' ∧
  nf_validity f = nf_validity f'.

Lemma fact_id_taken_same place id m m' :
  erase_fact <$> m = erase_fact <$> m' → fact_id_taken place id m = fact_id_taken place id m'.
Proof.
  intros Hm%rows_forall2. unfold fact_id_taken. induction Hm as [|x y l l' [Hk Hr] Hl IH]; [done|]. simpl.
  apply (f_equal ft_id) in Hr. simpl in Hr. by rewrite Hk, Hr, IH.
Qed.

Lemma insert_fact_sim `{!RuntimeJson V} rule event_id version epoch f f' :
  same_fact f f' → simulates (insert_fact rule event_id version epoch f) (insert_fact rule event_id version epoch f').
Proof.
  intros (Hi & Hn & Hk & Hv & Hs & Hp & Hc & Hva) T T' U HT. unfold insert_fact.
  rewrite <- Hn, <- Hk, <- Hi, <- Hva, <- (fact_id_taken_same _ _ _ _ (ag_facts _ _ HT)).
  destruct (from_option _ _ _); [done|].
  pose proof (same_lookup erase_fact _ _ (nf_name f, nf_key f) (ag_facts _ _ HT)) as Hrow.
  destruct (t_facts T !! _) as [old|], (t_facts T' !! _) as [old'|]; try discriminate Hrow; apply (inj Some) in Hrow || clear Hrow.
  - replace (ft_consumed old') with (ft_consumed old) by (by apply (f_equal ft_consumed) in Hrow).
    destruct (ft_consumed old); [|intros [= <-]; eauto].
    destruct (fact_id_taken _ _ _); [done|]. intros [= <-]. eexists. split; [done|].
    destruct HT. split; try done. simpl. apply same_insert; [done|].
    change (revive_row (erase_fact old) (fact_row rule event_id version epoch f) = revive_row (erase_fact old') (fact_row rule event_id version epoch f')).
    rewrite Hrow. unfold revive_row, fact_row. simpl. by rewrite Hi, Hv, Hva.
  - destruct (fact_id_taken _ _ _); [done|]. intros [= <-]. eexists. split; [done|].
    destruct HT. split; try done. simpl. apply same_insert; [done|]. unfold erase_fact, fact_row. simpl.
    by rewrite Hi, Hv, Hs, Hp, Hc, Hva.
Qed.

Lemma consumable_same id f f' : erase_fact f = erase_fact f' → consumable id f = consumable id f'.
Proof.
  intros Hf. unfold consumable. pose proof (f_equal ft_id Hf) as H1. pose proof (f_equal ft_consumed Hf) as H2.
  simpl in *. by rewrite H1, H2.
Qed.

Lemma set_consumed_same b f f' : erase_fact f = erase_fact f' → erase_fact (set_consumed b f) = erase_fact (set_consumed b f').
Proof. intros Hf. change (set_consumed b (erase_fact f) = set_consumed b (erase_fact f')). by rewrite Hf. Qed.

Lemma consume_facts_sim ids : simulates (consume_facts ids) (consume_facts ids).
Proof.
  apply simulates_each. intros id _ T T' U HT. unfold consume_fact.
  rewrite <- (same_count erase_fact _ (consumable_same id) _ _ (ag_facts _ _ HT)).
  case_bool_decide; [|done]. intros [= <-]. eexists. split; [done|]. destruct HT. split; try done. simpl.
  apply same_every; [apply consumable_same|intros; by apply set_consumed_same|done].
Qed.

(** *** Effects and dependencies *)

Lemma insert_effect_sim rule event_id at_ version epoch e :
  simulates (insert_effect rule event_id at_ version epoch e) (insert_effect rule event_id at_ version epoch e).
Proof.
  intros T T' U HT. unfold insert_effect.
  assert (∀ r r' : RtEffect V, erase_effect r = erase_effect r' → bool_decide (re_key r = ne_key e) = bool_decide (re_key r' = ne_key e)) as Hkey.
  { intros r r' Hr. apply (f_equal re_key) in Hr. simpl in Hr. by rewrite Hr. }
  rewrite <- (same_count erase_effect _ Hkey _ _ (ag_effects _ _ HT)).
  assert (bool_decide (is_Some (t_effects T !! ne_id e)) = bool_decide (is_Some (t_effects T' !! ne_id e))) as ->.
  { apply bool_decide_ext. pose proof (same_lookup erase_effect _ _ (ne_id e) (ag_effects _ _ HT)).
    destruct (t_effects T !! ne_id e), (t_effects T' !! ne_id e); naive_solver. }
  destruct (_ || _); [done|]. intros [= <-]. eexists. split; [done|]. destruct HT. split; try done. simpl.
  by apply same_insert.
Qed.

Lemma effect_store_known instance_id T T' id :
  agree T T' → is_Some (effects (effect_store instance_id T) !! id) ↔ is_Some (effects (effect_store instance_id T') !! id).
Proof.
  intros HT. simpl. rewrite !lookup_fmap, !fmap_is_Some.
  pose proof (same_lookup erase_effect _ _ id (ag_effects _ _ HT)).
  destruct (t_effects T !! id), (t_effects T' !! id); naive_solver.
Qed.

Lemma insert_dependency_sim instance_id rule d :
  simulates (insert_dependency instance_id rule d) (insert_dependency instance_id rule d).
Proof.
  intros T T' U HT. unfold insert_dependency, insert_effect_dependency, instance_dependency_edges, row_admissible.
  simpl. rewrite (ag_dependencies _ _ HT). destruct (edge_closes_cycle _ _ _); [done|].
  pose proof (effect_store_known instance_id T T' (nd_upstream d) HT) as Hu.
  pose proof (effect_store_known instance_id T T' (nd_downstream d) HT) as Hd. simpl in Hu, Hd.
  rewrite (bool_decide_ext _ _ Hu), (bool_decide_ext _ _ Hd).
  destruct (_ && _ && _); [|done]. simpl. intros [= <-]. eexists. split; [done|]. destruct HT. by split.
Qed.

(** The pass that re-queues effects changes nothing that counts. *)
Lemma satisfy_agree instance_id T : agree T (satisfy_dependencies instance_id T).
Proof.
  split; try done. simpl. apply map_eq. intros id. rewrite !lookup_fmap, map_lookup_imap.
  destruct (t_effects T !! id) as [e|] eqn:He; [|done]. simpl. f_equal.
  change (map_imap _ _) with (effects (satisfy_dependencies_on (effect_store instance_id T) instance_id).1).
  rewrite satisfy_lookup. simpl. rewrite lookup_fmap, He. simpl.
  destruct (releasable _ _ _ _) eqn:Hr; simpl; [|by destruct e].
  apply releasable_true in Hr as (_ & Hb & _). simpl in Hb. symmetry. apply pending_same; [rewrite Hb|]; done.
Qed.

(** *** Requests, runs and leases *)

Lemma mark_agree effect event_id T : agree T (mark_requests_terminal effect event_id T).
Proof.
  split; try done. simpl. apply map_eq. intros id. unfold update_every. rewrite !lookup_fmap.
  destruct (t_requests T !! id); simpl; [|done]. by destruct (open_request _ _).
Qed.

Lemma lease_fields l l' : erase_lease l = erase_lease l' →
  le_run l = le_run l' ∧ le_effect l = le_effect l' ∧ le_worker l = le_worker l' ∧ le_status l = le_status l'.
Proof. intros Hl. unfold erase_lease, set_lease_expiry in Hl. by simplify_eq. Qed.

Lemma set_lease_status_same s l l' : erase_lease l = erase_lease l' →
  erase_lease (set_lease_status s l) = erase_lease (set_lease_status s l').
Proof. intros Hl. change (set_lease_status s (erase_lease l) = set_lease_status s (erase_lease l')). by rewrite Hl. Qed.

Lemma release_sim run effect T T' : agree T T' → agree (release_leases run effect T) (release_leases run effect T').
Proof.
  intros []. split; try done. simpl. apply same_every; [|intros; by apply set_lease_status_same|done].
  intros l l' Hl. unfold held_lease. by destruct (lease_fields l l' Hl) as (-> & -> & _ & ->).
Qed.

End erase.
