(* ===== verification/RuntimeShape.v ===== *)
(** The references between the tables of the runtime store: what every statement that
    the operations are made of keeps of them. *)
From S2P Require Import Prelude DependencyGraph EffectRecovery AttemptAdmission RuntimeTables RuntimePolicy RuntimeReplay RuntimeOps.
Local Open Scope string_scope.

Section shape.
Context {V : Type}.
Implicit Types (T : Tables V).

(** ** References between the tables *)

Record well_formed T : Prop := mkWellFormed {
  wf_instance : is_Some (t_instance T);
  wf_effects : ∀ id e, t_effects T !! id = Some e → id ≠ "";
  wf_runs : ∀ id r, t_runs T !! id = Some r → id ≠ "" ∧ is_Some (t_effects T !! ru_effect r);
  wf_leases : ∀ id l, t_leases T !! id = Some l → id ≠ "" ∧
    ∃ r, t_runs T !! le_run l = Some r ∧ ru_effect r = le_effect l ∧ (le_status l = "active" → ru_status r = "running");
  wf_one_lease : ∀ i j l m, t_leases T !! i = Some l → t_leases T !! j = Some m → le_run l = le_run m → i = j;
}.

(** A run stays in the table, and is an execution or not for good. *)
Definition exec_stable T T' : Prop :=
  ∀ run, is_Some (t_runs T !! run) → is_Some (t_runs T' !! run) ∧ exec_run T' run = exec_run T run.

(** A run that was there before, and is not running now if it was not then. *)
Definition old_run T (run : string) (r' : RtRun V) : Prop :=
  ∃ r, t_runs T !! run = Some r ∧ (ru_status r' = "running" → ru_status r = "running").

Lemma old_run_same T run r : t_runs T !! run = Some r → old_run T run r.
Proof. intros Hr. by exists r. Qed.

(** References stay sound, no run appears but [new], and no run that finished runs again. *)
Definition keeps_but (new : option string) T T' : Prop :=
  well_formed T → well_formed T' ∧ exec_stable T T' ∧
    ∀ run r', t_runs T' !! run = Some r' → old_run T run r' ∨ new = Some run.

Definition keeps T T' : Prop := keeps_but None T T'.

Lemma keeps_but_trans new T1 T2 T3 : keeps T1 T2 → keeps_but new T2 T3 → keeps_but new T1 T3.
Proof.
  intros H12 H23 Hwf. destruct (H12 Hwf) as (Hwf2 & Hs1 & Hn1). destruct (H23 Hwf2) as (Hwf3 & Hs2 & Hn2).
  split_and!; [done| |].
  - intros run Hr. destruct (Hs1 run Hr) as [Hr2 <-]. by apply Hs2.
  - intros run r [(r2 & Hr2 & H2)|Hr]%Hn2; [|by right]. left.
    destruct (Hn1 run r2 Hr2) as [(r1 & Hr1 & H1)|]; [|done]. exists r1. auto.
Qed.

#[export] Instance keeps_preorder : PreOrder keeps.
Proof.
  split; [|intros T1 T2 T3; apply keeps_but_trans]. intros T Hwf. split_and!; [done|by intros run Hr|]. left. by apply old_run_same.
Qed.

(** Tables with the same effects up to their statuses, the same runs and leases. *)
Definition same_refs T T' : Prop :=
  (∀ id, re_kind <$> t_effects T !! id = re_kind <$> t_effects T' !! id) ∧ t_runs T = t_runs T' ∧ t_leases T = t_leases T' ∧
  (is_Some (t_instance T) → is_Some (t_instance T')).

#[export] Instance same_refs_preorder : PreOrder same_refs.
Proof.
  split.
  - by intros T.
  - intros T1 T2 T3 (H1 & H2 & H3 & H4) (H5 & H6 & H7 & H8). split_and!; [|congruence..|auto]. intros id. by rewrite H1.
Qed.

Lemma same_refs_effect T T' id : same_refs T T' → is_Some (t_effects T !! id) ↔ is_Some (t_effects T' !! id).
Proof. intros (He & _). rewrite <- (fmap_is_Some re_kind (t_effects T !! id)), He, fmap_is_Some. done. Qed.

Lemma same_refs_keeps T T' : same_refs T T' → keeps T T'.
Proof.
  intros Hs [H0 H1 H2 H3 H4]. pose proof Hs as (He & Hr & Hl & Hi). split_and!; [split; [by apply Hi|..]|..].
  - intros id e Hid. destruct (proj2 (same_refs_effect T T' id Hs)) as [e' ?]; eauto.
  - intros id r. rewrite <- Hr. intros Hid. rewrite <- (same_refs_effect T T' _ Hs). by apply H2.
  - intros id l. rewrite <- Hl, <- Hr. apply H3.
  - intros i j l m. rewrite <- Hl. apply H4.
  - intros run Hx. rewrite <- Hr. split; [done|]. unfold exec_run. rewrite <- Hr. destruct (t_runs T !! run) as [r|]; [|done].
    pose proof (He (ru_effect r)) as Hk. destruct (t_effects T !! ru_effect r), (t_effects T' !! ru_effect r); simpl in Hk; try done.
    by injection Hk as ->.
  - rewrite <- Hr. left. by apply old_run_same.
Qed.

Lemma instance_refs f T : same_refs T (with_instance (f <$> t_instance T) T).
Proof. split_and!; [done..|]. by intros [i ->]. Qed.

Lemma update_effect_refs id P f T : (∀ e, re_kind (f e) = re_kind e) → same_refs T (update_effect id P f T).1.
Proof.
  intros Hf. split_and!; [|done..]. intros k. unfold update_effect, update_where. destruct (t_effects T !! id) as [r|] eqn:Hr; [|done].
  destruct (P r); [|done]. simpl. destruct (decide (id = k)) as [<-|]; [|by rewrite lookup_insert_ne].
  rewrite lookup_insert_eq, Hr. simpl. by rewrite Hf.
Qed.

Lemma satisfy_refs instance_id T : same_refs T (satisfy_dependencies instance_id T).
Proof.
  split_and!; [|done..]. intros k. unfold satisfy_dependencies. simpl. rewrite map_lookup_imap.
  destruct (t_effects T !! k); [|done]. simpl. by case_match.
Qed.

Lemma insert_fact_refs `{!RuntimeJson V} rule event_id version epoch f T T' :
  insert_fact rule event_id version epoch f T = Ok T' → same_refs T T'.
Proof. unfold insert_fact. repeat (case_match; try done); by intros [= <-]. Qed.

Lemma each_refs {A} (step : A → Tables V → result runtime_error (Tables V)) l T T' :
  (∀ x T T', step x T = Ok T' → same_refs T T') → each step l T = Ok T' → same_refs T T'.
Proof.
  intros Hs. revert T. induction l as [|x l IH]; intros T; simpl; [by intros [= <-]|].
  intros (T1 & H1 & H2)%bind_ok. etrans; eauto.
Qed.

Lemma consume_refs ids T T' : consume_facts ids T = Ok T' → same_refs T T'.
Proof. apply each_refs. clear. intros id T T'. unfold consume_fact. by case_bool_decide; [intros [= <-]|]. Qed.

Lemma insert_dependency_refs instance_id rule d T T' : insert_dependency instance_id rule d T = Ok T' → same_refs T T'.
Proof. unfold insert_dependency. repeat (case_match; try done). by intros [= <-]. Qed.

(** ** New rows *)

Lemma insert_effect_keeps rule event_id at_ version epoch e T T' :
  ne_id e ≠ "" → insert_effect rule event_id at_ version epoch e T = Ok T' → keeps T T'.
Proof.
  intros Hne. unfold insert_effect. destruct (_ || _) eqn:Hnew; [done|]. apply orb_false_iff in Hnew as [Hnew _].
  apply bool_decide_eq_false in Hnew. intros [= <-] [H0 H1 H2 H3 H4]. split_and!; [split; simpl; [done|..]| |left; by apply old_run_same].
  - intros id x. rewrite lookup_insert_Some. intros [[<- _]|[_ Hx]]; eauto.
  - intros id r Hr. destruct (H2 id r Hr) as [? ?]. split; [done|]. rewrite lookup_insert_is_Some.
    destruct (decide (ne_id e = ru_effect r)); auto.
  - done.
  - done.
  - intros run Hr. split; [done|]. unfold exec_run. simpl. destruct (t_runs T !! run) as [r|] eqn:Hx; [|done].
    destruct (H2 run r Hx) as [_ Hy]. rewrite lookup_insert_ne; [done|]. intros Heq. by rewrite <- Heq in Hy.
Qed.

Lemma effects_keep rule event_id at_ version epoch l T T' :
  Forall (λ e : NewEffect V, ne_id e ≠ "") l → each (insert_effect rule event_id at_ version epoch) l T = Ok T' → keeps T T'.
Proof.
  intros Hl. revert T. induction Hl as [|e l He Hl IH]; intros T; simpl; [by intros [= <-]|].
  intros (T1 & H1 & H2)%bind_ok. etrans; [by eapply insert_effect_keeps|eauto].
Qed.

(** A run that is not there yet, with its lease. *)
Lemma new_run_keeps T run lease effect provider worker metadata at_ expires :
  run ≠ "" → lease ≠ "" → is_Some (t_effects T !! effect) →
  t_runs T !! run = None → t_leases T !! lease = None →
  keeps_but (Some run) T (with_leases (<[lease := mkLease run effect worker "active" expires]> (t_leases T))
    (with_runs (<[run := mkRun effect provider worker "running" metadata at_ None None None]> (t_runs T)) T)).
Proof.
  intros Hrun Hlease He Hr Hl [H0 H1 H2 H3 H4]. split_and!; [split; simpl; [done|..]|..].
  - done.
  - intros id r. rewrite lookup_insert_Some. intros [[<- <-]|[_ Hid]]; eauto.
  - intros id l. rewrite lookup_insert_Some. intros [[<- <-]|[_ Hid]]; simpl.
    + split; [done|]. eexists. by rewrite lookup_insert_eq.
    + destruct (H3 id l Hid) as (Hne & r & Hlr & ? & ?). split; [done|]. exists r. rewrite lookup_insert_ne; [done|]. congruence.
  - assert (∀ i l, t_leases T !! i = Some l → le_run l ≠ run) as Hold.
    { intros i l Hi Heq. destruct (H3 i l Hi) as (_ & r & Hx & _). congruence. }
    intros i j l m. rewrite !lookup_insert_Some. intros [[<- <-]|[_ Hi]] [[<- <-]|[_ Hj]]; simpl; eauto.
    + intros Heq. by destruct (Hold j m Hj).
    + intros Heq. by destruct (Hold i l Hi).
  - intros x Hx. assert (x ≠ run) as Hne by (intros ->; rewrite Hr in Hx; by destruct Hx).
    unfold exec_run. simpl. by rewrite lookup_insert_ne.
  - intros x r'. simpl. rewrite lookup_insert_Some. intros [[-> _]|[_ Hx]]; auto using old_run_same.
Qed.

(** A run that leaves [running], with its leases. *)
Lemma finished_run_keeps T run r r' :
  t_runs T !! run = Some r → ru_status r = "running" → ru_effect r' = ru_effect r → ru_provider r' = ru_provider r →
  (well_formed T → ∀ id l, t_leases T !! id = Some l → le_run l = run → le_status l ≠ "active") →
  keeps T (with_runs (<[run := r']> (t_runs T)) T).
Proof.
  intros Hr Hrun Heff Hprov Hl Hwf. specialize (Hl Hwf). destruct Hwf as [H0 H1 H2 H3 H4]. split_and!; [split; simpl; [done|..]|..].
  - done.
  - intros id x. rewrite lookup_insert_Some. intros [[<- <-]|[_ Hid]]; [|eauto]. rewrite Heff. eauto.
  - intros id l Hid. destruct (H3 id l Hid) as (Hne & x & Hx & Hxe & Ha). split; [done|].
    destruct (decide (le_run l = run)) as [Heq|Hne'].
    + exists r'. rewrite Heq, lookup_insert_eq. split_and!; [done|congruence|]. intros Hact. by destruct (Hl id l Hid Heq).
    + exists x. by rewrite lookup_insert_ne.
  - done.
  - intros x Hx. unfold exec_run. simpl. rewrite lookup_insert_is_Some. split; [destruct (decide (run = x)); auto|].
    destruct (decide (run = x)) as [<-|]; [|by rewrite lookup_insert_ne].
    rewrite lookup_insert_eq, Hr. by rewrite Heff, Hprov.
  - intros x y. simpl. rewrite lookup_insert_Some. intros [[<- <-]|[_ Hx]]; left; [|by apply old_run_same]. exists r. auto.
Qed.

(** Leases whose status changes to another than active. *)
Lemma leases_keep T (m : gmap string RtLease) :
  (∀ id l, m !! id = Some l → ∃ l', t_leases T !! id = Some l' ∧ le_run l = le_run l' ∧ le_effect l = le_effect l' ∧
     (le_status l = "active" → le_status l' = "active")) →
  keeps T (with_leases m T).
Proof.
  intros Hm [H0 H1 H2 H3 H4]. split_and!; [split; simpl; [done..| |]|by intros run Hr|left; by apply old_run_same].
  - intros id l (l' & Hl' & -> & -> & Ha)%Hm. destruct (H3 id l' Hl') as (? & r & ? & ? & ?). eauto 10.
  - intros i j l m' (l' & Hl' & Hr & _)%Hm (m'' & Hm'' & Hr' & _)%Hm. rewrite Hr, Hr'. by apply H4.
Qed.
(** The statements of a completion: the run is finished and its lease released. *)
Lemma released_run_keeps T run r r' effect :
  t_runs T !! run = Some r → ru_status r = "running" → ru_effect r' = ru_effect r → ru_provider r' = ru_provider r → effect = ru_effect r →
  keeps T (release_leases run effect (with_runs (<[run := r']> (t_runs T)) T)).
Proof.
  intros Hr Hst Heff Hprov ->. etrans; [apply (leases_keep T (update_every (held_lease run (ru_effect r)) (set_lease_status "released") (t_leases T)))|].
  - intros id l. unfold update_every. rewrite lookup_fmap, fmap_Some. intros (l' & Hl' & ->). exists l'.
    destruct (held_lease _ _ _); [|done]. split_and!; [done..|]. by intros [=].
  - refine (finished_run_keeps (release_leases run (ru_effect r) T) run r r' Hr Hst Heff Hprov _).
    intros Hwf id l. simpl. unfold update_every. rewrite lookup_fmap, fmap_Some. intros (l' & Hl' & ->).
    destruct (held_lease _ _ _) eqn:Hh; [by intros _ [=]|]. intros Hrun Ha.
    destruct (wf_leases _ Hwf id l') as (_ & x & Hx & Hxe & _).
    { simpl. unfold update_every. rewrite lookup_fmap, Hl'. simpl. by rewrite Hh. }
    simpl in Hx. assert (le_effect l' = ru_effect r) as Hle by congruence.
    unfold held_lease in Hh. by rewrite Hrun, Hle, Ha, !bool_decide_eq_true_2 in Hh by done.
Qed.

End shape.
