(* ===== verification/RuntimeFold.v ===== *)
(** The projection tables are a function of the log: every operation appends events whose
    replay does to the tables what the operation did, up to the erased columns, so that a
    rebuild of a log succeeds and agrees with the live tables. *)
From S2P Require Import Prelude DependencyGraph EffectRecovery AttemptAdmission RuntimeTables ExecLifetime ExecOutcome RuntimePolicy RuntimeReplay RuntimeOps RuntimeErase RuntimeShape.
Local Open Scope string_scope.

Section fold.
Context {V : Type} `{!EqDecision V, !RuntimeJson V, !RuntimeGates V}.
Context (instance_id : string) (draw : nat → Draw).
Implicit Types (T : Tables V) (log L : list (Event V)) (rt : Runtime V).

Abbreviation replay_one := (replay_event tracking_key instance_id).
Abbreviation replay := (replay_events tracking_key instance_id).
Abbreviation append := (append_event draw).

(** ** The events of an operation fold to its changes *)

(** An event that an operation appended: stamped, numbered, and no restore marker. *)
Definition appended log (e : Event V) : Prop :=
  e_format e = Some SUPPORTED_EVENT_FORMAT_VERSION ∧ restore_target e = None ∧ e_sequence e = (head_sequence log + 1)%Z.

Fixpoint extends log (es : list (Event V)) : Prop :=
  match es with
  | [] => True
  | e :: es => appended log e ∧ extends (log ++ [e]) es
  end.

(** *** Keys of the log *)

Lemma key_event_cons log e k :
  key_event (e :: log) k = if bool_decide (e_key e = Some k) then Some e else key_event log k.
Proof.
  unfold key_event. simpl. case_bool_decide; [by rewrite decide_True|]. rewrite decide_False by done.
  by destruct (list_find _ log) as [[? ?]|].
Qed.

Lemma key_event_app log es k :
  key_event (log ++ es) k = match key_event log k with Some x => Some x | None => key_event es k end.
Proof.
  induction log as [|x log IH]; [done|]. simpl. rewrite !key_event_cons, IH. by destruct (bool_decide (e_key x = Some k)).
Qed.

Lemma key_event_snoc log e k :
  key_event (log ++ [e]) k = match key_event log k with Some x => Some x | None => if bool_decide (e_key e = Some k) then Some e else None end.
Proof. by rewrite key_event_app, key_event_cons. Qed.

Lemma key_event_later log es k : is_Some (key_event log k) → is_Some (key_event (log ++ es) k).
Proof. intros [x Hx]. rewrite key_event_app, Hx. eauto. Qed.

(** A run appears with the event that starts it, which holds the run's key, and a run that
    finished does not run again. *)
Definition fresh_runs log T log' T' : Prop :=
  ∀ run r', t_runs T' !! run = Some r' →
    old_run T run r' ∨ (key_event log run = None ∧ is_Some (key_event log' run)).

(** Nothing is tracked but executions, as far as the whole log goes. *)
Definition tracks_executions L T : Prop :=
  ∀ run, run_tracked tracking_key L run = true → is_Some (t_runs T !! run) → exec_run T run = true.

Definition tracking (p : Payload V) : bool := match p with PTracked _ => true | _ => false end.

(** The runs that events track are executions. *)
Definition tracked (es : list (Event V)) T : Prop :=
  ∀ e t, e ∈ es → e_payload e = PTracked t → exec_run T (tk_run t) = true.

(** The log continues to [L], which tracks executions only. *)
Definition continues L log T : Prop := tracks_executions L T ∧ ∃ more, L = (log ++ more)%list.

(** The tables [T'] come from the tables [T] by events that the log [log'] has after [log];
    [L] is the log of the rebuild. *)
Definition folds L log T log' T' : Prop :=
  ∃ es, log' = (log ++ es)%list ∧ extends log es ∧
    (well_formed T → well_formed T' ∧ exec_stable T T' ∧ fresh_runs log T log' T' ∧ tracked es T' ∧
      (continues L log' T' → ∀ U, agree T U → ∃ U', replay L es U = Ok U' ∧ agree T' U')).

Lemma exec_run_there T run : exec_run T run = true → is_Some (t_runs T !! run).
Proof. unfold exec_run. destruct (t_runs T !! run); [eauto|done]. Qed.

Lemma continues_back L log es T T' : exec_stable T T' → continues L (log ++ es) T' → continues L log T.
Proof.
  intros Hx [Ht [more ->]]. split; [|exists (es ++ more)%list; by rewrite app_assoc].
  intros run Hr Hs. destruct (Hx run Hs) as [Hs' <-]. by apply Ht.
Qed.

Lemma extends_app log es1 es2 : extends log es1 → extends (log ++ es1) es2 → extends log (es1 ++ es2).
Proof.
  revert log. induction es1 as [|e es1 IH]; intros log; simpl; [by rewrite app_nil_r|].
  intros [He H1] H2. split; [done|]. apply IH; [done|]. by rewrite <- app_assoc.
Qed.

Lemma replay_app L es1 es2 U :
  replay L (es1 ++ es2) U = (U' ← replay L es1 U; replay L es2 U').
Proof. revert U. induction es1 as [|e es1 IH]; intros U; simpl; [done|]. destruct (replay_one L U e); simpl; auto. Qed.

Lemma folds_refl L log T : folds L log T log T.
Proof.
  exists []. rewrite app_nil_r. split_and!; [done..|]. intros Hwf. split_and!; [done|by intros run Hr|left; by apply old_run_same| |eauto].
  intros e t He. by apply elem_of_nil in He.
Qed.

Lemma folds_trans L log1 T1 log2 T2 log3 T3 :
  folds L log1 T1 log2 T2 → folds L log2 T2 log3 T3 → folds L log1 T1 log3 T3.
Proof.
  intros (es1 & -> & Hx1 & H1) (es2 & -> & Hx2 & H2). exists (es1 ++ es2)%list.
  split_and!; [by rewrite app_assoc|by apply extends_app|]. intros Hwf.
  destruct (H1 Hwf) as (Hwf2 & Hs1 & Hf1 & Ht1 & Hr1). destruct (H2 Hwf2) as (Hwf3 & Hs2 & Hf2 & Ht2 & Hr2). split_and!; [done|..].
  - intros run Hr. destruct (Hs1 run Hr) as [Hr' <-]. by apply Hs2.
  - intros run r [(r2 & Ho2 & Hi2)|[Hn Hk]]%Hf2.
    + destruct (Hf1 run r2 Ho2) as [(r1 & Ho1 & Hi1)|[? ?]]; [left; exists r1; auto|right]. auto using key_event_later.
    + right. split; [|done]. rewrite key_event_app in Hn. by destruct (key_event log1 run).
  - intros e t [He|He]%elem_of_app Hp; [|by eapply Ht2]. pose proof (Ht1 e t He Hp) as Hrun.
    destruct (Hs2 _ (exec_run_there _ _ Hrun)) as [_ ->]. done.
  - intros Hc U HU. destruct (Hr1 (continues_back _ _ _ _ _ Hs2 Hc) U HU) as (U1 & HU1 & HA1).
    destruct (Hr2 Hc U1 HA1) as (U2 & HU2 & HA2). exists U2. by rewrite replay_app, HU1.
Qed.

Lemma folds_agree L log T log' T1 T2 : folds L log T log' T1 → keeps T1 T2 → agree T1 T2 → folds L log T log' T2.
Proof.
  intros H1 Hk HA. eapply folds_trans; [exact H1|]. exists []. rewrite app_nil_r. split_and!; [done..|]. intros Hwf.
  destruct (Hk Hwf) as (Hwf2 & Hs & Hn). split_and!; [done..| | |].
  - intros run r [?|]%Hn; [by left|done].
  - intros e t He. by apply elem_of_nil in He.
  - intros _ U HU. exists U. split; [done|]. by transitivity T1.
Qed.

Lemma folds_event L log T T' e new :
  appended log e → tracking (e_payload e) = false → keeps_but new T T' →
  (∀ run, new = Some run → e_key e = Some run ∧ key_event log run = None) →
  (well_formed T → continues L (log ++ [e]) T' → ∀ U, agree T U → ∃ U', replay_one L U e = Ok U' ∧ agree T' U') →
  folds L log T (log ++ [e])%list T'.
Proof.
  intros Ha Htr Hk Hnew He. exists [e]. split_and!; [done..|]. intros Hwf. destruct (Hk Hwf) as (Hwf' & Hs & Hn).
  split_and!; [done..| | |].
  - intros run r [?|[Hkey Hnone]%Hnew]%Hn; [by left|right]. split; [done|].
    rewrite key_event_snoc, Hnone, bool_decide_eq_true_2 by done. done.
  - intros x t ->%list_elem_of_singleton Hp. by rewrite Hp in Htr.
  - intros Hc U HU. destruct (He Hwf Hc U HU) as (U' & H1 & H2). exists U'. simpl. by rewrite H1.
Qed.

Lemma append_spec payload source causation correlation key log log' e :
  append payload source causation correlation key log = Ok (log', e) →
  log' = (log ++ [e])%list ∧ e_payload e = payload ∧ e_source e = source ∧ e_key e = key ∧ e_causation e = causation ∧
  e_sequence e = (head_sequence log + 1)%Z ∧ e_format e = Some SUPPORTED_EVENT_FORMAT_VERSION ∧
  (∀ x, x ∈ log → e_id x ≠ e_id e) ∧ (∀ k, key = Some k → key_event log k = None).
Proof.
  unfold append_event. destruct (existsb _ log) eqn:Hid; [done|].
  destruct (from_option _ false key) eqn:Hk; [done|]. intros [= <- <-]. split_and!; try done.
  - intros x Hx Heq. simpl in Heq. rewrite (proj2 (existsb_elem _ _)) in Hid; [done|].
    exists x. split; [done|]. by apply bool_decide_eq_true_2.
  - intros k ->. simpl in Hk. apply bool_decide_eq_false in Hk. by apply eq_None_not_Some.
Qed.

Lemma append_appended payload source causation correlation key log log' e :
  append payload source causation correlation key log = Ok (log', e) →
  match payload with PRestored _ _ => False | _ => True end → appended log e.
Proof.
  intros (_ & Hp & _ & _ & _ & Hs & Hf & _)%append_spec Hm. split_and!; [done| |done].
  unfold restore_target. rewrite Hp. by destruct payload.
Qed.

(** The payloads that the rebuild does not read. *)
Definition unprojected (p : Payload V) : bool :=
  match p with
  | PMarkReached _ _ _ | PTerminalRefused _ _ _ _ | PLeaseRenewed _ _ _ | PEffectBlocked _ _ _ _ | PTracked _
  | PFenceRequested _ | PFenceProved _ | POutcomeObserved _ | PSettlementRetained _ | PWakeScheduled _ | PDispositionRecorded _
  | PDispositionReconciled _ _ _ => true
  | POther type _ => negb (bool_decide (type ∈ named_types))
  | _ => false
  end.

Lemma replay_unprojected L T e : unprojected (e_payload e) = true → replay_one L T e = Ok T.
Proof. unfold replay_event. by destruct (e_payload e). Qed.

(** An event that an operation appends, whose replay does what the operation does. *)
Lemma folds_append_new L log T T' payload source causation correlation key log' e new :
  append payload source causation correlation key log = Ok (log', e) →
  match payload with PRestored _ _ | PTracked _ => False | _ => True end → keeps_but new T T' →
  (∀ run, new = Some run → key = Some run) →
  (well_formed T → continues L log' T' → e_payload e = payload → e_source e = source → e_key e = key →
    e_causation e = causation → ∀ U, agree T U → ∃ U', replay_one L U e = Ok U' ∧ agree T' U') →
  folds L log T log' T'.
Proof.
  intros Happ Hm Hk Hnew Hr. pose proof (append_spec _ _ _ _ _ _ _ _ Happ) as (-> & Hp & Hs & Hkey & Hca & _ & _ & _ & Hfree).
  eapply folds_event; [|by rewrite Hp; destruct payload|done| |eauto].
  - eapply append_appended; [exact Happ|by destruct payload].
  - intros run Hrun. rewrite Hkey. auto.
Qed.

Lemma folds_append L log T T' payload source causation correlation key log' e :
  append payload source causation correlation key log = Ok (log', e) →
  match payload with PRestored _ _ | PTracked _ => False | _ => True end → keeps T T' →
  (well_formed T → continues L log' T' → e_payload e = payload → e_source e = source → e_key e = key →
    e_causation e = causation → ∀ U, agree T U → ∃ U', replay_one L U e = Ok U' ∧ agree T' U') →
  folds L log T log' T'.
Proof.
  intros Happ Hm Hk Hr. by eapply folds_append_new.
Qed.

Lemma folds_unprojected L log T payload source causation correlation key log' e :
  append payload source causation correlation key log = Ok (log', e) → unprojected payload && negb (tracking payload) = true →
  folds L log T log' T.
Proof.
  intros Happ [Hu Ht]%andb_true_iff. eapply folds_append; [exact Happ|by destruct payload|done|].
  intros _ _ Hp _ _ _ U HU. exists U. by rewrite replay_unprojected by by rewrite Hp.
Qed.

(** An event whose replay is a step that the live step simulates. *)
Lemma folds_step L log T T' payload source causation correlation key log' e
    (step : Tables V → result runtime_error (Tables V)) :
  append payload source causation correlation key log = Ok (log', e) →
  match payload with PRestored _ _ | PTracked _ => False | _ => True end → keeps T T' →
  step T = Ok T' → (e_payload e = payload → simulates step (λ U, replay_one L U e)) → folds L log T log' T'.
Proof.
  intros Happ Hm Hk Hs Hsim. eapply folds_append; [done..|]. intros _ _ Hp _ _ _ U HU. by apply (Hsim Hp T U T').
Qed.

(** ** Rule commits *)

Lemma marks_fold L rule event_id marks log log' T :
  append_marks draw rule event_id marks log = Ok log' → folds L log T log' T.
Proof.
  revert log. induction marks as [|mark marks IH]; intros log; simpl; [intros [= ->]; apply folds_refl|].
  intros ([log1 e] & H1 & H2)%bind_ok. eapply folds_trans; [by eapply folds_unprojected|eauto].
Qed.

Lemma replayed_same f : same_fact f (replayed_fact f).
Proof. by destruct f. Qed.

Lemma simulates_bind (step1 step1' step2 step2' : Tables V → result runtime_error (Tables V)) :
  simulates step1 step1' → simulates step2 step2' →
  simulates (λ T, U ← step1 T; step2 U) (λ T, U ← step1' T; step2' U).
Proof.
  intros H1 H2 T T' U HT (T1 & HT1 & HT2)%bind_ok. destruct (H1 T T' T1 HT HT1) as (T1' & HT1' & HA).
  rewrite HT1'. simpl. by apply (H2 T1 T1' U).
Qed.

Lemma commit_rows_sim c event_id at_ version epoch record :
  record = mkRule (rc_rule c) version epoch (rc_facts c) (rc_consumed c) (rc_effects c) (rc_dependencies c)
             (fst <$> rc_terminal c) (default null_value (rc_context c)) →
  simulates (commit_rows instance_id c event_id at_ version epoch) (replay_rule_commit instance_id event_id at_ record).
Proof.
  intros ->. unfold commit_rows, replay_rule_commit. simpl.
  apply (simulates_bind _ _ (λ T, T ← consume_facts (rc_consumed c) T; _) (λ T, T ← consume_facts (rc_consumed c) T; _)).
  { apply simulates_each. intros f _. apply insert_fact_sim, replayed_same. }
  apply (simulates_bind _ _ (λ T, T ← _ T; _) (λ T, T ← _ T; _)); [apply consume_facts_sim|].
  apply simulates_bind; apply simulates_each; intros; [apply insert_effect_sim|apply insert_dependency_sim].
Qed.

Lemma close_sim event_id status name T U :
  agree T U → agree (close_instance event_id status name T) (close_instance event_id status name U).
Proof. intros []. split; try done. simpl. by f_equal. Qed.

Lemma commit_terminal_folds L c event_id log T log' T' :
  commit_terminal draw c event_id log T = Ok (log', T') → folds L log T log' T'.
Proof.
  unfold commit_terminal. destruct (rc_terminal c) as [[t key]|]; [|intros [= -> ->]; apply folds_refl].
  intros ([log1 e] & H1 & [= <- <-])%bind_ok. eapply folds_append; [exact H1|done|by apply same_refs_keeps, instance_refs|].
  intros _ _ Hp _ _ _ U HU. unfold replay_event. rewrite Hp. eexists. split; [done|]. by apply close_sim.
Qed.

Lemma commit_rows_keep c event_id at_ version epoch T T' :
  Forall (λ e : NewEffect V, ne_id e ≠ "") (rc_effects c) →
  commit_rows instance_id c event_id at_ version epoch T = Ok T' → keeps T T'.
Proof.
  intros Hids H. unfold commit_rows in H. apply bind_ok in H as (T1 & H1 & H). apply bind_ok in H as (T2 & H2 & H).
  apply bind_ok in H as (T3 & H3 & H4).
  etrans; [by eapply same_refs_keeps, each_refs; [|exact H1]; intros; eapply insert_fact_refs|].
  etrans; [by eapply same_refs_keeps, consume_refs|]. etrans; [by eapply effects_keep|].
  by eapply same_refs_keeps, each_refs; [|exact H4]; intros; eapply insert_dependency_refs.
Qed.

Lemma commit_rule_folds L guard c rt :
  Forall (λ e : NewEffect V, ne_id e ≠ "") (rc_effects c) →
  folds L (rt_log rt) (rt_tables rt) (rt_log (commit_rule instance_id draw guard c rt).1)
    (rt_tables (commit_rule instance_id draw guard c rt).1).
Proof.
  intros Hids. unfold commit_rule. destruct (active_revision_on (rt_tables rt)) as [version epoch] eqn:Hrev.
  destruct (match guard with Some g => _ | None => _ end) as [pv pe] eqn:Hpin.
  unfold transaction. destruct (rule_commit_payload c pv pe) as [record|] eqn:Hrec; simpl; [|apply folds_refl].
  destruct (rc_key c ≫= key_event (rt_log rt)) as [e|]; [case_bool_decide; apply folds_refl|].
  destruct (match instance_status_on _ with Some s => _ | None => _ end) as [?|?]; simpl; [|apply folds_refl].
  assert (∀ G : runtime_error, match guard with
      | Some g => ensure (bool_decide (version = Some (gu_version g)) && bool_decide (epoch = gu_epoch g)) G
      | None => Ok tt end = Ok tt → version = pv ∧ epoch = pe) as Hguard.
  { intros G. destruct guard as [g|]; simplify_eq/=; [|done]. rewrite ensure_ok, andb_true_iff, !bool_decide_eq_true.
    naive_solver. }
  destruct (match guard with Some g => ensure _ _ | None => _ end) as [[]|] eqn:Hg; simpl; [|apply folds_refl].
  apply Hguard in Hg as [-> ->].
  destruct (match guard ≫= gu_frontier with Some f => _ | None => _ end) as [?|?]; simpl; [|apply folds_refl].
  destruct (append _ _ _ _ _ _) as [[log1 e]|] eqn:Happ; simpl; [|apply folds_refl].
  destruct (append_marks _ _ _ _ _) as [log2|] eqn:Hm; simpl; [|apply folds_refl].
  destruct (commit_rows _ _ _ _ _ _ _) as [T1|] eqn:Hrows; simpl; [|apply folds_refl].
  destruct (commit_terminal _ _ _ _ _) as [[log3 T2]|] eqn:Hterm; simpl; [|apply folds_refl].
  eapply folds_trans; [|eapply folds_trans; [by eapply marks_fold|by eapply commit_terminal_folds]].
  eapply (folds_step _ _ _ _ _ _ _ _ _ _ _ _ Happ I (commit_rows_keep _ _ _ _ _ _ _ Hids Hrows) Hrows).
  intros Hp. unfold replay_event. rewrite Hp.
  apply commit_rows_sim. unfold rule_commit_payload in Hrec.
  destruct (existsb _ _); [done|]. destruct (from_option _ _ _); [done|]. by simplify_eq.
Qed.

(** An operation either fails, and leaves the runtime alone, or is its body. *)
Lemma transaction_folds {A} L rt (body : result runtime_error (Runtime V * A)) :
  (∀ rt' a, body = Ok (rt', a) → folds L (rt_log rt) (rt_tables rt) (rt_log rt') (rt_tables rt')) →
  folds L (rt_log rt) (rt_tables rt) (rt_log (transaction rt body).1) (rt_tables (transaction rt body).1).
Proof. intros Hb. unfold transaction. destruct body as [[rt' a]|]; simpl; [eauto|apply folds_refl]. Qed.

Lemma transaction'_folds {A} L rt (body : result runtime_error (Runtime V * result runtime_error A)) :
  (∀ rt' a, body = Ok (rt', a) → folds L (rt_log rt) (rt_tables rt) (rt_log rt') (rt_tables rt')) →
  folds L (rt_log rt) (rt_tables rt) (rt_log (transaction' rt body).1) (rt_tables (transaction' rt body).1).
Proof. intros Hb. unfold transaction'. destruct body as [[rt' a]|]; simpl; [eauto|apply folds_refl]. Qed.

(** ** Derived facts *)

Definition named_fact (f : NewFact V) : Prop := nf_id f ≠ "" ∧ nf_name f ≠ "" ∧ nf_key f ≠ "".

(** A key that is on record is on record for this fact. *)
Definition honest_key (d : DerivedFact V) log T : Prop :=
  is_Some (df_key d ≫= key_event log) → is_Some (t_facts T !! (nf_name (df_fact d), nf_key (df_fact d))).

Lemma named_fact_checked f :
  named_fact f → bool_decide (nf_id f = "") || bool_decide (nf_name f = "") || bool_decide (nf_key f = "") = false.
Proof. intros (? & ? & ?). by rewrite !bool_decide_eq_false_2. Qed.

Lemma derive_fact_folds_on L d log T log' T' e :
  named_fact (df_fact d) → honest_key d log T →
  derive_fact_on draw d log T = Ok (log', T', e) → folds L log T log' T'.
Proof.
  intros Hn Hh. unfold derive_fact_on. destruct (from_option _ _ _); [done|].
  intros ([log1 e1] & H1 & H2)%bind_ok.
  destruct (df_key d ≫= key_event log) as [e0|] eqn:Hk.
  - simplify_eq/=. rewrite !bool_decide_eq_true_2 in H2 by eauto. simplify_eq/=. apply folds_refl.
  - rewrite (bool_decide_eq_false_2 (is_Some None)) in H2 by apply is_Some_None. simpl in H2.
    destruct (active_revision_on T) as [version epoch] eqn:Hrev.
    apply bind_ok in H2 as (T1 & H2 & [= -> -> ->]).
    eapply folds_append; [exact H1|done|by eapply same_refs_keeps, insert_fact_refs|]. intros _ _ Hp Hs _ _ U HU.
    unfold replay_event. rewrite Hp, Hs. unfold replay_fact_derived. simpl.
    rewrite (named_fact_checked _ Hn).
    replace (active_revision_on U) with (active_revision_on T) by (unfold active_revision_on; by rewrite (ag_instance _ _ HU)).
    rewrite Hrev. assert (same_fact (df_fact d) (without_span (df_fact d))) as Hsame by done.
    by apply (insert_fact_sim _ _ _ _ _ _ Hsame T U T').
Qed.

Lemma derive_fact_folds L d rt :
  named_fact (df_fact d) → honest_key d (rt_log rt) (rt_tables rt) →
  folds L (rt_log rt) (rt_tables rt) (rt_log (derive_fact draw d rt).1) (rt_tables (derive_fact draw d rt).1).
Proof.
  intros Hn Hh. apply transaction_folds. intros rt' a H. apply bind_ok in H as ([[log' T'] e] & H & [= <- <-]).
  by eapply derive_fact_folds_on.
Qed.

(** ** Rows on both sides *)

Lemma effect_exists T U id e : agree T U → t_effects T !! id = Some e → ∃ e', t_effects U !! id = Some e' ∧ erase_effect e = erase_effect e'.
Proof. intros HU. apply same_row. apply HU. Qed.

Lemma effect_there T U id : agree T U → is_Some (t_effects T !! id) → bool_decide (t_effects U !! id = None) = false.
Proof.
  intros HU [e He]. destruct (effect_exists T U id e HU He) as (e' & -> & _). by rewrite bool_decide_eq_false_2.
Qed.

(** The update of one effect that the replay makes when its row passes. *)
Lemma update_effect_sim T U id P P' f f' e :
  agree T U → t_effects T !! id = Some e → P e = true →
  (∀ e', erase_effect e = erase_effect e' → P' e' = true ∧ erase_effect (f e) = erase_effect (f' e')) →
  agree (update_effect id P f T).1 (update_effect id P' f' U).1 ∧ (update_effect id P' f' U).2 = 1.
Proof.
  intros HU He HP Hf. destruct (effect_exists T U id e HU He) as (e' & He' & Heq). destruct (Hf e' Heq) as [HP' Hff].
  unfold update_effect, update_where. rewrite He, He', HP, HP'. simpl. split; [|done].
  destruct HU. split; try done. simpl. by apply same_insert.
Qed.

Lemma update_effect_changed T id P f :
  (update_effect id P f T).2 = 1 ↔ ∃ e, t_effects T !! id = Some e ∧ P e = true.
Proof.
  unfold update_effect, update_where. destruct (t_effects T !! id) as [e|]; simpl.
  - destruct (P e) eqn:HP; simpl; split; [eauto|done|done|]. intros (e' & [= <-] & ?). congruence.
  - split; [done|]. by intros (? & ? & _).
Qed.

(** ** Starting a run *)

Definition named_run (s : RunStart V) : Prop := rs_effect s ≠ "" ∧ rs_run s ≠ "" ∧ rs_lease s ≠ "".

Lemma begin_run_folds L record rt rt' e :
  sr_effect record ≠ "" → sr_run record ≠ "" → sr_lease record ≠ "" →
  begin_run draw record rt = Ok (rt', e) → folds L (rt_log rt) (rt_tables rt) (rt_log rt') (rt_tables rt').
Proof.
  intros H1 H2 H3 H. unfold begin_run in H. apply bind_ok in H as ([log' e'] & Happ & H).
  apply bind_ok in H as ([] & Hc%ensure_ok & H). apply bind_ok in H as ([] & Hr%ensure_ok & H).
  apply bind_ok in H as ([] & Hl%ensure_ok & [= <- <-]).
  apply bool_decide_eq_true, update_effect_changed in Hc as (row & Hrow & Hp).
  apply bool_decide_eq_true in Hr, Hl. cbn [rt_log rt_tables]. eapply (folds_append_new _ _ _ _ _ _ _ _ _ _ _ (Some (sr_run record))); [exact Happ|done| |by intros run [= <-]|].
  { assert (same_refs (rt_tables rt) (update_effect (sr_effect record) (λ e, pending (re_status e))
      (λ e, set_block None None (set_status "running" e)) (rt_tables rt)).1) as Hrefs by by apply update_effect_refs.
    eapply keeps_but_trans; [by apply same_refs_keeps, Hrefs|].
    refine (new_run_keeps _ _ _ _ _ _ _ _ _ H2 H3 _ Hr Hl).
    apply (same_refs_effect _ _ _ Hrefs). eauto. }
  intros _ _ Hpay _ _ _ U HU. unfold replay_event. rewrite Hpay. unfold replay_run_started.
  rewrite (bool_decide_eq_false_2 (sr_effect record = "")), (bool_decide_eq_false_2 (sr_run record = "")),
    (bool_decide_eq_false_2 (sr_lease record = "")) by done. simpl.
  rewrite (effect_there _ _ _ HU) by eauto. eexists. split; [done|].
  destruct (update_effect_sim (rt_tables rt) U (sr_effect record) (λ e, pending (re_status e)) (λ e, unsettled (re_status e))
    (λ e, set_block None None (set_status "running" e)) (λ e, set_block None (re_block_category e) (set_status "running" e)) row)
    as [[] _]; [done..| |].
  { intros e'' He''. split; [|rewrite !set_block_erase; by apply set_status_erase].
    apply pending_unsettled. by rewrite <- (effect_pending _ _ He''). }
  split; try done; simpl; first [by f_equal|by apply same_insert].
Qed.

Lemma append_idempotent_folds L payload source causation correlation key log log' e T :
  append_event_idempotent draw payload source causation correlation key log = Ok (log', e) → unprojected payload && negb (tracking payload) = true →
  folds L log T log' T.
Proof.
  unfold append_event_idempotent. destruct (key_event log key); [intros [= <- _]; intros; apply folds_refl|].
  apply folds_unprojected.
Qed.

(** A pending effect may take any pending status. *)
Lemma block_agree T id P f :
  (∀ e, P e = true → pending (re_status e) = true) →
  (∀ e, pending (re_status e) = true → erase_effect (f e) = erase_effect e) →
  agree T (update_effect id P f T).1.
Proof.
  intros HP Hf. unfold update_effect, update_where. destruct (t_effects T !! id) as [e|] eqn:He; [|by split].
  destruct (P e) eqn:Hp; [|by split]. split; try done. simpl.
  rewrite fmap_insert, (Hf e (HP e Hp)). symmetry. apply insert_id. by rewrite lookup_fmap, He.
Qed.

Lemma block_erase reason category status e :
  pending status = true → pending (re_status e) = true →
  erase_effect (set_block reason category (set_status status e)) = erase_effect (e : RtEffect V).
Proof. intros Hs He. rewrite set_block_erase. by apply pending_same. Qed.

Lemma observe_block_folds L legacy effect status reason error rt rt' a :
  pending status = true → observe_block draw legacy effect status reason error rt = Ok (rt', a) →
  folds L (rt_log rt) (rt_tables rt) (rt_log rt') (rt_tables rt').
Proof.
  intros Hs H. unfold observe_block in H. apply bind_ok in H as ([log' e] & Happ & [= <- <-]). simpl.
  eapply folds_agree; [by eapply append_idempotent_folds|by apply same_refs_keeps, update_effect_refs|].
  apply block_agree; [done|]. intros e' He'. by apply block_erase.
Qed.

Lemma start_run_folds L selection admission s rt :
  named_run s →
  folds L (rt_log rt) (rt_tables rt) (rt_log (start_run instance_id draw selection admission s rt).1)
    (rt_tables (start_run instance_id draw selection admission s rt).1).
Proof.
  intros (H1 & H2 & H3). apply transaction'_folds. intros rt' a H.
  apply bind_ok in H as ([] & _ & H). apply bind_ok in H as ([] & _ & H). apply bind_ok in H as ([] & _ & H).
  destruct (policy_block_on _ _ _ _) as [b|] eqn:Hpol.
  { eapply observe_block_folds; [|exact H]. by eapply policy_block_pending. }
  apply bind_ok in H as ([] & _ & H). apply bind_ok in H as ([] & _ & H).
  destruct (if bool_decide _ then None else _) as [reason|]; [by eapply observe_block_folds; [|exact H]|].
  apply bind_ok in H as (attempts & _ & H). apply bind_ok in H as ([] & _ & H). apply bind_ok in H as (e & _ & H).
  case_bool_decide.
  - apply bind_ok in H as (st & _ & [= <- <-]). apply folds_refl.
  - apply bind_ok in H as ([rt1 e1] & H & [= <- <-]). by eapply begin_run_folds; [..|exact H].
Qed.

(** ** Claims *)

Lemma persist_folds L effect b rt :
  pending (pb_status b) = true →
  folds L (rt_log rt) (rt_tables rt) (rt_log (persist_policy_block draw effect b rt).1)
    (rt_tables (persist_policy_block draw effect b rt).1).
Proof.
  intros Hb. set (T' := (update_effect effect
    (λ e, (negb (bool_decide (re_status e = pb_status b)) || negb (bool_decide (re_block_reason e = Some (pb_reason b))))
          && pending (re_status e))
    (λ e, set_block (Some (pb_reason b)) (re_block_category e) (set_status (pb_status b) e)) (rt_tables rt)).1).
  assert (keeps (rt_tables rt) T') as Hk by by apply same_refs_keeps, update_effect_refs.
  assert (agree (rt_tables rt) T') as HA.
  { apply block_agree; [by intros e [_ ?]%andb_true_iff|]. intros e He. by apply block_erase. }
  unfold persist_policy_block. case_bool_decide; [|by eapply folds_agree; [apply folds_refl|..]].
  destruct (append_event_idempotent _ _ _ _ _ _ _) as [[log e]|] eqn:Happ; [|by eapply folds_agree; [apply folds_refl|..]].
  by eapply folds_agree; [eapply append_idempotent_folds; [exact Happ|done]|..].
Qed.

Lemma claim_each_folds L admissions candidates rt :
  folds L (rt_log rt) (rt_tables rt) (rt_log (claim_each draw admissions candidates rt).1)
    (rt_tables (claim_each draw admissions candidates rt).1).
Proof.
  revert rt. induction candidates as [|[effect row] candidates IH]; intros rt; simpl; [apply folds_refl|].
  destruct (policy_block_on _ _ _ _) as [b|] eqn:Hb.
  - pose proof (persist_folds L effect b rt (policy_block_pending _ _ _ _ _ Hb)) as Hp.
    destruct (persist_policy_block _ _ _ _) as [rt1 [u|err]]; [|done]. eapply folds_trans; [exact Hp|apply IH].
  - specialize (IH rt). by destruct (claim_each _ _ _ _).
Qed.

Lemma claimable_folds L rt :
  folds L (rt_log rt) (rt_tables rt) (rt_log (claimable_effects instance_id draw rt).1)
    (rt_tables (claimable_effects instance_id draw rt).1).
Proof.
  unfold claimable_effects. destruct (from_option _ _ _); [apply folds_refl|].
  destruct (selections _); [apply claim_each_folds|apply folds_refl].
Qed.

(** ** Completion *)

(** A completion that names the provider and the worker of its run. *)
Definition own_run (c : EffectCompletion V) T : Prop :=
  ∀ r, t_runs T !! ec_run c = Some r → ru_provider r = ec_provider c ∧ ru_worker r = ec_worker c.

(** The run rows of a completion and of its replay. *)
Lemma finish_replayed c status at_ r :
  ru_effect r = ec_effect c → ru_provider r = ec_provider c → ru_worker r = ec_worker c →
  finish_run status at_ (ec_exit c) (ec_summary c) (ec_metadata c) r = replayed_run at_ (completion_record c status) (Some r).
Proof. intros H1 H2 H3. unfold finish_run, replayed_run. simpl. by rewrite H1, H2, H3. Qed.

(** The keys of a settlement's facts: different from each other and from the completion's,
    and on record only for their own fact. *)
Definition settled_keys (key : option string) (facts : list (NewFact V * string)) log T : Prop :=
  NoDup facts.*2 ∧ (∀ k, key = Some k → k ∉ facts.*2) ∧
  ∀ f k, (f, k) ∈ facts → is_Some (key_event log k) → is_Some (t_facts T !! (nf_name f, nf_key f)).

Lemma insert_fact_place rule event_id version epoch f T T' place :
  insert_fact rule event_id version epoch f T = Ok T' → is_Some (t_facts T !! place) → is_Some (t_facts T' !! place).
Proof.
  unfold insert_fact. repeat (case_match; try done); intros [= <-]; simpl; auto;
    intros [x Hx]; rewrite lookup_insert_is_Some; destruct (decide ((nf_name f, nf_key f) = place)); eauto.
Qed.

(** What deriving a fact leaves of the other keys and facts. *)
Lemma derive_fact_keeps d log T log' T' e k place :
  derive_fact_on draw d log T = Ok (log', T', e) → df_key d ≠ Some k →
  (key_event log' k = key_event log k) ∧ (is_Some (t_facts T !! place) → is_Some (t_facts T' !! place)).
Proof.
  intros H Hk. unfold derive_fact_on in H. destruct (from_option _ _ _); [done|].
  apply bind_ok in H as ([log1 e1] & H1 & H2).
  assert (key_event log1 k = key_event log k) as Hlog.
  { destruct (df_key d ≫= key_event log); [by simplify_eq/=|].
    apply append_spec in H1 as (-> & _ & _ & He & _). rewrite key_event_snoc, He, bool_decide_eq_false_2 by done.
    by destruct (key_event log k). }
  destruct (_ && _); [by simplify_eq/=|]. destruct (active_revision_on T).
  apply bind_ok in H2 as (T1 & H2 & [= -> -> ->]). split; [done|]. by eapply insert_fact_place.
Qed.

Lemma settle_facts_folds L event_id key facts log T log' T' :
  Forall (λ fk : NewFact V * string, named_fact fk.1) facts → settled_keys key facts log T →
  settle_facts draw event_id facts log T = Ok (log', T') → folds L log T log' T'.
Proof.
  revert log T. induction facts as [|[f k] facts IH]; intros log T Hn (Hnd & Hkey & Hh); simpl; [intros [= <- <-]; apply folds_refl|].
  apply Forall_cons in Hn as [Hf Hn]. rewrite fmap_cons in Hnd. apply NoDup_cons in Hnd as [Hk Hnd].
  intros ([[log1 T1] e] & H1 & H2)%bind_ok. apply bind_ok in H2 as ([] & _ & H2).
  eapply folds_trans; [eapply derive_fact_folds_on; [| |exact H1]; [exact Hf|]|].
  { intros Hx. by apply (Hh f k); [set_solver|]. }
  eapply IH; [done| |exact H2]. split_and!; [done|set_solver|].
  intros f' k' Hin. destruct (derive_fact_keeps _ _ _ _ _ _ k' (nf_name f', nf_key f') H1) as [-> Hp].
  - simpl. intros [= ->]. apply Hk. apply list_elem_of_fmap. by exists (f', k').
  - intros Hx. apply Hp. apply (Hh f' k'); [set_solver|done].
Qed.

(** The rows that a completion and its replay write, before the settlement's facts. *)
Lemma complete_rows_agree T U c status at_ event_id r :
  well_formed T → agree T U → t_runs T !! ec_run c = Some r → ru_effect r = ec_effect c → own_run c T →
  ∃ U', replay_effect_terminal instance_id event_id at_ (completion_record c status) U = Ok U' ∧
    agree (satisfy_dependencies instance_id (mark_requests_terminal (ec_effect c) event_id
      (update_effect (ec_effect c) (λ _, true) (set_status (ec_status c))
        (release_leases (ec_run c) (ec_effect c)
          (with_runs (<[ec_run c := finish_run status at_ (ec_exit c) (ec_summary c) (ec_metadata c) r]> (t_runs T)) T))).1)) U'.
Proof.
  intros Hwf HU Hr Heff Hown. destruct (Hown r Hr) as [Hprov Hwork]. destruct (wf_runs _ Hwf _ _ Hr) as [Hne [e He]]. rewrite Heff in He.
  assert (ec_effect c ≠ "") as Hce by (eapply wf_effects; eauto).
  assert (t_runs U !! ec_run c = Some r) as Hr' by by rewrite <- (ag_runs _ _ HU).
  unfold replay_effect_terminal. simpl. rewrite bool_decide_eq_false_2 by done.
  destruct (ec_run c) as [|ch run] eqn:Hrunid; [done|]. rewrite <- Hrunid in *.
  rewrite (effect_there _ _ _ HU) by eauto. simpl. rewrite Hr'. eexists. split; [done|].
  etrans; [symmetry; etrans; [apply mark_agree|apply satisfy_agree]|].
  etrans; [|etrans; [apply mark_agree|apply satisfy_agree]].
  assert (agree
    (release_leases (ec_run c) (ec_effect c)
      (with_runs (<[ec_run c := finish_run status at_ (ec_exit c) (ec_summary c) (ec_metadata c) r]> (t_runs T)) T))
    (release_leases (ec_run c) (ec_effect c)
      (with_runs (<[ec_run c := replayed_run at_ (completion_record c status) (Some r)]> (t_runs U)) U))) as HXY.
  { apply release_sim. destruct HU. split; try done. simpl. f_equal; [by apply finish_replayed|done]. }
  refine (proj1 (update_effect_sim _ _ _ (λ _, true) (λ _, true) _ _ e HXY He eq_refl _)).
  intros; split; [done|by apply set_status_erase].
Qed.

Lemma mark_refs effect event_id T : same_refs T (mark_requests_terminal effect event_id T).
Proof. done. Qed.

Lemma complete_rows_keep T c status at_ event_id r :
  t_runs T !! ec_run c = Some r → ru_status r = "running" → ru_effect r = ec_effect c →
  keeps T (satisfy_dependencies instance_id (mark_requests_terminal (ec_effect c) event_id
      (update_effect (ec_effect c) (λ _, true) (set_status (ec_status c))
        (release_leases (ec_run c) (ec_effect c)
          (with_runs (<[ec_run c := finish_run status at_ (ec_exit c) (ec_summary c) (ec_metadata c) r]> (t_runs T)) T))).1)).
Proof.
  intros Hr Hrun Heff. etrans; [|apply same_refs_keeps; etrans; [|apply satisfy_refs]; etrans; [|apply mark_refs]; by apply update_effect_refs].
  by apply (released_run_keeps T (ec_run c) r).
Qed.

Lemma complete_folds_on L c status facts cache rt rt' st :
  own_run c (rt_tables rt) → Forall (λ fk : NewFact V * string, named_fact fk.1) facts →
  settled_keys (ec_key c) facts (rt_log rt) (rt_tables rt) →
  complete_effect_terminal_on instance_id draw c status facts cache rt = Ok (rt', st) →
  folds L (rt_log rt) (rt_tables rt) (rt_log rt') (rt_tables rt').
Proof.
  intros Hs Hn (Hnd & Hkey & Hh) H. unfold complete_effect_terminal_on in H.
  apply bind_ok in H as ([] & _ & H). apply bind_ok in H as (status' & Hps & H).
  apply bind_ok in H as ([log1 e] & Happ & H). apply bind_ok in H as ([] & Hc & H).
  apply bind_ok in H as ([log2 T2] & Hset & [= <- <-]). simpl.
  unfold update_where in Hc, Hset. destruct (t_runs (rt_tables rt) !! ec_run c) as [r|] eqn:Hr; [|done].
  destruct (bool_decide (ru_effect r = ec_effect c) && bool_decide (ru_status r = "running")) eqn:Hb; [|done].
  apply andb_true_iff in Hb as [Heff%bool_decide_eq_true Hrun%bool_decide_eq_true]. simpl in Hset. clear Hc.
  pose proof (append_spec _ _ _ _ _ _ _ _ Happ) as (-> & Hp & _ & Hk & _).
  eapply folds_trans; [|eapply (settle_facts_folds L (e_id e) (ec_key c)); [done| |exact Hset]].
  - eapply folds_append; [exact Happ|done|by eapply complete_rows_keep|]. intros Hwf _ _ _ _ _ U HU. unfold replay_event.
    rewrite Hp. by eapply complete_rows_agree.
  - split_and!; [done..|]. intros f k Hin. rewrite key_event_snoc, Hk, bool_decide_eq_false_2.
    + intros Hx. apply (Hh f k Hin). by destruct (key_event (rt_log rt) k).
    + intros Heq. apply (Hkey k Heq). apply list_elem_of_fmap. by exists (f, k).
Qed.

Lemma complete_folds L c status rt :
  own_run c (rt_tables rt) →
  folds L (rt_log rt) (rt_tables rt) (rt_log (complete_with instance_id draw status c rt).1)
    (rt_tables (complete_with instance_id draw status c rt).1).
Proof.
  intros Hs. unfold complete_with, record_terminal_refusal, transaction.
  destruct (complete_effect_terminal_on _ _ _ _ _ _ _) as [[rt' st]|err] eqn:H.
  { eapply complete_folds_on; [done|constructor| |exact H].
    split_and!; [constructor|by intros k _ ?%elem_of_nil|by intros f k ?%elem_of_nil]. }
  destruct err; try apply folds_refl.
  destruct (append _ _ _ _ _ _) as [[log e]|] eqn:Happ; [|apply folds_refl]. by eapply folds_unprojected.
Qed.

Lemma settle_folds L c facts cache rt :
  own_run c (rt_tables rt) → Forall (λ fk : NewFact V * string, named_fact fk.1) facts →
  settled_keys (ec_key c) facts (rt_log rt) (rt_tables rt) →
  folds L (rt_log rt) (rt_tables rt) (rt_log (complete_effect_settlement instance_id draw c facts cache rt).1)
    (rt_tables (complete_effect_settlement instance_id draw c facts cache rt).1).
Proof. intros Hs Hn Hk. apply transaction_folds. intros rt' st H. by eapply complete_folds_on. Qed.

(** A record that no replay reads. *)
Lemma retain_folds L payload causation key accept admitted rt rt' st :
  retain_once draw payload causation key accept admitted rt = Ok (rt', st) →
  unprojected payload && negb (tracking payload) = true → folds L (rt_log rt) (rt_tables rt) (rt_log rt') (rt_tables rt').
Proof.
  intros H Hp. unfold retain_once in H. destruct (key_event _ key) as [e|].
  - apply bind_ok in H as ([] & _ & [= <- <-]). apply folds_refl.
  - apply bind_ok in H as ([] & _ & H). apply bind_ok in H as ([log' e] & Happ & [= <- <-]). by eapply folds_unprojected.
Qed.

(** ** The rest of an effect's life *)

Lemma block_folds L effect status prefix category detail rt :
  pending status = true →
  folds L (rt_log rt) (rt_tables rt) (rt_log (block_effect_with_status instance_id draw effect status prefix category detail rt).1)
    (rt_tables (block_effect_with_status instance_id draw effect status prefix category detail rt).1).
Proof.
  intros Hs. apply transaction_folds. intros rt' st H. destruct (from_option _ _ _).
  - apply bind_ok in H as (e & _ & [= <- <-]). apply folds_refl.
  - apply bind_ok in H as ([log' e] & Happ & [= <- <-]). simpl.
    eapply folds_agree; [by eapply folds_unprojected|by apply same_refs_keeps, update_effect_refs|].
    apply block_agree; [done|]. intros e' He'. by apply block_erase.
Qed.

Lemma transition_folds L status reason key rt :
  folds L (rt_log rt) (rt_tables rt) (rt_log (transition_instance draw status reason key rt).1)
    (rt_tables (transition_instance draw status reason key rt).1).
Proof.
  apply transaction_folds. intros rt' st H. apply bind_ok in H as (cur & _ & H). apply bind_ok in H as ([] & _ & H).
  apply bind_ok in H as ([log' e] & Happ & [= <- <-]). eapply folds_append; [exact Happ|done| |].
  { apply same_refs_keeps. unfold apply_transition. case_bool_decide; [done|apply instance_refs]. }
  intros _ _ Hp _ _ _ U HU. unfold replay_event. rewrite Hp. eexists. split; [done|].
  unfold apply_transition. case_bool_decide; [done|]. destruct HU. split; try done. simpl. by f_equal.
Qed.

(** The replay of a terminal without a run. *)
Lemma runless_agree T U id status reason event_id at_ P e :
  well_formed T → agree T U → t_effects T !! id = Some e → P e = true →
  ∃ U', replay_effect_terminal instance_id event_id at_ (mkTerminal id None None None status None None None None reason) U = Ok U' ∧
    agree (update_effect id P (set_status status) T).1 U'.
Proof.
  intros Hwf HU He HP. unfold replay_effect_terminal. simpl. rewrite bool_decide_eq_false_2 by (eapply wf_effects; eauto).
  eexists. split; [done|]. etrans; [|etrans; [apply mark_agree|apply satisfy_agree]].
  eapply proj1, (update_effect_sim _ _ _ P (λ _, true) _ _ e); [done..|intros; split; [done|by apply set_status_erase]].
Qed.

Lemma expire_effect_folds L effect key rt :
  folds L (rt_log rt) (rt_tables rt) (rt_log (expire_effect draw effect key rt).1) (rt_tables (expire_effect draw effect key rt).1).
Proof.
  apply transaction_folds. intros rt' st H. apply bind_ok in H as ([log' e] & Happ & H).
  apply bind_ok in H as ([] & Hc%ensure_ok & [= <- <-]). cbn [rt_log rt_tables].
  apply bool_decide_eq_true, update_effect_changed in Hc as (row & Hrow & Hu).
  eapply folds_append; [exact Happ|done|by apply same_refs_keeps, update_effect_refs|]. intros Hwf _ Hp _ _ _ U HU.
  unfold replay_event. rewrite Hp. by eapply runless_agree.
Qed.

Lemma cancel_effect_folds L effect reason key rt :
  folds L (rt_log rt) (rt_tables rt) (rt_log (cancel_effect instance_id draw effect reason key rt).1)
    (rt_tables (cancel_effect instance_id draw effect reason key rt).1).
Proof.
  apply transaction_folds. intros rt' st H. apply bind_ok in H as ([log' e] & Happ & H).
  apply bind_ok in H as ([] & Hc%ensure_ok & [= <- <-]). cbn [rt_log rt_tables].
  apply bool_decide_eq_true, update_effect_changed in Hc as (row & Hrow & Hu).
  eapply folds_agree; [|by apply same_refs_keeps; etrans; [apply mark_refs|apply satisfy_refs]|etrans; [apply mark_agree|apply satisfy_agree]].
  eapply folds_append; [exact Happ|done|by apply same_refs_keeps, update_effect_refs|]. intros Hwf _ Hp _ _ _ U HU.
  unfold replay_event. rewrite Hp. by eapply runless_agree.
Qed.

Lemma retryable_same e e' : erase_effect e = erase_effect e' → retryable e = true → retryable (e' : RtEffect V) = true.
Proof.
  unfold retryable. rewrite !bool_decide_eq_true. intros He Hr. rewrite <- (effect_settled e e' He); [done|].
  apply list_elem_of_In in Hr. simpl in Hr. by destruct Hr as [<-|[<-|[]]].
Qed.

Lemma retry_folds L effect retry_after terminal_event key rt :
  folds L (rt_log rt) (rt_tables rt) (rt_log (retry_effect instance_id draw effect retry_after terminal_event key rt).1)
    (rt_tables (retry_effect instance_id draw effect retry_after terminal_event key rt).1).
Proof.
  apply transaction_folds. intros rt' st H. apply bind_ok in H as (attempts & _ & H). apply bind_ok in H as ([] & _ & H).
  destruct (key ≫= key_event (rt_log rt)) as [e0|].
  { destruct (_ && _ && _); [|done]. simplify_eq. apply folds_refl. }
  apply bind_ok in H as ([] & _ & H). apply bind_ok in H as ([] & _ & H).
  apply bind_ok in H as ([log' e] & Happ & H). apply bind_ok in H as ([] & Hc%ensure_ok & [= <- <-]).
  cbn [rt_log rt_tables]. apply bool_decide_eq_true, update_effect_changed in Hc as (row & Hrow & Hu).
  eapply folds_append; [exact Happ|done|by apply same_refs_keeps, update_effect_refs|]. intros _ _ Hp _ _ _ U HU.
  unfold replay_event. rewrite Hp. unfold replay_effect_retried.
  destruct (update_effect_sim (rt_tables rt) U effect retryable retryable (set_status "queued") (set_status "queued") row)
    as [HA ->]; [done..| |].
  { intros e' He'. split; [by eapply retryable_same|by apply set_status_erase]. }
  rewrite bool_decide_eq_true_2 by done. eauto.
Qed.

Lemma renewed_keeps lease P expires T :
  keeps T (with_leases (update_where lease P (set_lease_expiry expires) (t_leases T)).1 T).
Proof.
  apply leases_keep. intros id l. unfold update_where. destruct (t_leases T !! lease) as [x|] eqn:Hx; [|eauto].
  destruct (P x); [|eauto]. simpl. rewrite lookup_insert_Some. intros [[<- <-]|[_ Hl]]; eauto.
Qed.

Lemma renew_folds L lease run expires key rt :
  folds L (rt_log rt) (rt_tables rt) (rt_log (renew_lease draw lease run expires key rt).1)
    (rt_tables (renew_lease draw lease run expires key rt).1).
Proof.
  apply transaction_folds. intros rt' st H. apply bind_ok in H as ([log' e] & Happ & H).
  apply bind_ok in H as ([] & _ & [= <- <-]). simpl. eapply folds_agree; [by eapply folds_unprojected|apply renewed_keeps|].
  split; try done. simpl. unfold update_where. destruct (t_leases (rt_tables rt) !! lease) as [l|] eqn:Hl; [|done].
  destruct (_ && _); [|done]. simpl. rewrite fmap_insert. symmetry. apply insert_id. by rewrite lookup_fmap, Hl.
Qed.

(** ** Leases that expire *)

Lemma fence_folds L reason run log log' T :
  fst <$> ensure_exec_fence_on instance_id draw reason run log = Ok log' → folds L log T log' T.
Proof.
  destruct (ensure_exec_fence_on instance_id draw reason run log) as [[log1 e1]|] eqn:H; [|done]. intros [= <-].
  unfold ensure_exec_fence_on in H. apply bind_ok in H as ([] & _ & H). apply bind_ok in H as (tracked & _ & H).
  apply bind_ok in H as (record & _ & H). destruct (key_event log (fence_key run)) as [e|].
  - apply bind_ok in H as ([] & _ & [= <- <-]). apply folds_refl.
  - by eapply folds_unprojected.
Qed.

Lemma ensure_fence_folds L reason run rt :
  folds L (rt_log rt) (rt_tables rt) (rt_log (ensure_exec_fence instance_id draw reason run rt).1)
    (rt_tables (ensure_exec_fence instance_id draw reason run rt).1).
Proof.
  apply transaction_folds. intros rt' st H. apply bind_ok in H as ([log' e] & H & [= <- <-]). simpl.
  eapply fence_folds. by rewrite H.
Qed.

Lemma proof_folds L run closure rt :
  folds L (rt_log rt) (rt_tables rt) (rt_log (retain_exec_fence_proof instance_id draw run closure rt).1)
    (rt_tables (retain_exec_fence_proof instance_id draw run closure rt).1).
Proof.
  apply transaction_folds. intros rt' st H. apply bind_ok in H as (tracking & _ & H). apply bind_ok in H as (fence & _ & H).
  apply bind_ok in H as (record & _ & H). by eapply retain_folds.
Qed.

Lemma outcome_folds L run placement outcome rt :
  folds L (rt_log rt) (rt_tables rt) (rt_log (retain_exec_outcome instance_id draw run placement outcome rt).1)
    (rt_tables (retain_exec_outcome instance_id draw run placement outcome rt).1).
Proof.
  apply transaction_folds. intros rt' st H. apply bind_ok in H as (tracking & _ & H). apply bind_ok in H as (fence & _ & H).
  apply bind_ok in H as (record & _ & H). by eapply retain_folds.
Qed.

Lemma retained_folds L s rt :
  folds L (rt_log rt) (rt_tables rt) (rt_log (retain_exec_settlement draw s rt).1) (rt_tables (retain_exec_settlement draw s rt).1).
Proof. apply transaction_folds. intros rt' st H. by eapply retain_folds. Qed.

Lemma wake_folds L w rt :
  folds L (rt_log rt) (rt_tables rt) (rt_log (schedule_exec_reconciliation draw w rt).1)
    (rt_tables (schedule_exec_reconciliation draw w rt).1).
Proof. apply transaction_folds. intros rt' st H. apply bind_ok in H as ([] & _ & H). by eapply retain_folds. Qed.

Lemma exec_run_same T U run : agree T U → exec_run U run = exec_run T run.
Proof.
  intros HU. unfold exec_run. rewrite (ag_runs _ _ HU). destruct (t_runs U !! run) as [r|]; [|done].
  pose proof (same_lookup erase_effect _ _ (ru_effect r) (ag_effects _ _ HU)) as He.
  destruct (t_effects T !! ru_effect r) as [e|], (t_effects U !! ru_effect r) as [e'|]; try done.
  apply (inj Some), (f_equal re_kind) in He. simpl in He. by rewrite He.
Qed.

Lemma update_where_same {R} (erase : R → R) id (P : R → bool) (f : R → R) (m m' : gmap string R) :
  (∀ r r', erase r = erase r' → P r = P r') → (∀ r r', erase r = erase r' → erase (f r) = erase (f r')) →
  erase <$> m = erase <$> m' → erase <$> (update_where id P f m).1 = erase <$> (update_where id P f m').1.
Proof.
  intros HP Hf Hm. pose proof (same_lookup erase m m' id Hm) as Hr. unfold update_where.
  destruct (m !! id) as [r|], (m' !! id) as [r'|]; simplify_eq/=; [|done].
  rewrite <- (HP r r') by done. destruct (P r); simpl; [|done]. apply same_insert; auto.
Qed.

Lemma expire_row_sim lease T U : agree T U → agree (expire_lease_row lease T) (expire_lease_row lease U).
Proof.
  intros []. split; try done. simpl. by apply update_where_same; [|intros; by apply set_lease_status_same|].
Qed.

Lemma expire_plain_sim run effect at_ T U :
  agree T U → agree (expire_plain_run run effect at_ T) (expire_plain_run run effect at_ U).
Proof.
  intros []. unfold expire_plain_run, update_effect. split; try done; simpl; [|congruence].
  apply update_where_same; [intros; by apply effect_is|intros; by apply set_status_erase|done].
Qed.

Lemma tracked_app log es run : run_tracked tracking_key log run = true → run_tracked tracking_key (log ++ es) run = true.
Proof. unfold run_tracked. rewrite existsb_app. by intros ->. Qed.

Lemma expire_row_keeps lease T : keeps T (expire_lease_row lease T).
Proof.
  apply leases_keep. intros id l. unfold update_where. destruct (t_leases T !! lease) as [x|] eqn:Hx; [|eauto].
  simpl. rewrite lookup_insert_Some. intros [[<- <-]|[_ Hl]]; [|eauto]. exists x. split_and!; [done..|]. by intros [=].
Qed.

Lemma expire_plain_keeps lease l at_ T :
  t_leases T !! lease = Some l → keeps T (expire_plain_run (le_run l) (le_effect l) at_ (expire_lease_row lease T)).
Proof.
  intros Hl. unfold expire_plain_run. etrans; [|by apply same_refs_keeps, update_effect_refs].
  etrans; [apply (expire_row_keeps lease)|]. unfold update_where at 1.
  destruct (t_runs _ !! le_run l) as [r|] eqn:Hr; [|done]. destruct (bool_decide (ru_status r = "running")) eqn:Hrn; [|done]. apply bool_decide_eq_true in Hrn.
  refine (finished_run_keeps _ _ r _ Hr Hrn _ _ _); [done..|]. intros Hwf id x Hx Hrun Ha. cut (id = lease).
  - intros ->. simpl in Hx. unfold update_where in Hx. by rewrite Hl in Hx; simpl in Hx; rewrite lookup_insert_eq in Hx; simplify_eq/=.
  - apply (wf_one_lease _ Hwf id lease x (set_lease_status "expired" l)); [done| |done].
    simpl. unfold update_where. rewrite Hl. apply lookup_insert_eq.
Qed.

(** The state of an execution is the same for the live operation and for the replay. *)
Lemma exec_state_same L T log run :
  continues L log T → is_Some (t_runs T !! run) →
  exec_run T run || run_tracked tracking_key log run = exec_run T run ∧ exec_run T run || run_tracked tracking_key L run = exec_run T run.
Proof.
  intros [Htr [more ->]] Hr.
  split; [destruct (run_tracked tracking_key log run) eqn:Ht|destruct (run_tracked tracking_key (log ++ more) run) eqn:Ht];
    try apply orb_false_r; rewrite (Htr run); auto using tracked_app.
Qed.

Lemma expire_lease_folds L now lease l rt rt' :
  t_leases (rt_tables rt) !! lease = Some l → le_status l = "active" →
  expire_lease instance_id draw now (lease, l) rt = Ok rt' →
  folds L (rt_log rt) (rt_tables rt) (rt_log rt') (rt_tables rt').
Proof.
  intros Hl Ha H. unfold expire_lease, lease_exec_state in H.
  apply bind_ok in H as (log1 & Hf & H). apply bind_ok in H as ([log2 e] & Happ & H).
  apply bind_ok in H as ([] & _ & [= <-]). cbn [rt_log rt_tables].
  assert (folds L (rt_log rt) (rt_tables rt) log1 (rt_tables rt)) as H1.
  { destruct (run_tracked _ _ _); [by eapply fence_folds|simplify_eq; apply folds_refl]. }
  eapply folds_trans; [exact H1|]. destruct H1 as (es & Hlog1 & _).
  set (T' := if _ || _ then _ else _). assert (keeps (rt_tables rt) T') as Hk.
  { unfold T'. destruct (_ || _); [apply expire_row_keeps|by apply expire_plain_keeps]. }
  eapply folds_append; [exact Happ|done|done|]. intros Hwf Hc Hp _ _ _ U HU.
  destruct (wf_leases _ Hwf _ _ Hl) as (Hne & r & Hr & Heff & Hact). specialize (Hact Ha).
  destruct (wf_runs _ Hwf _ _ Hr) as [Hrne He]. rewrite Heff in He.
  assert (le_effect l ≠ "") as Hene by (destruct He; eapply wf_effects; eauto).
  pose proof (append_spec _ _ _ _ _ _ _ _ Happ) as (-> & _).
  assert (continues L (rt_log rt) (rt_tables rt)) as Hc'.
  { rewrite Hlog1, <- app_assoc in Hc. destruct (Hk Hwf) as (_ & Hst & _). by eapply continues_back. }
  destruct (exec_state_same L (rt_tables rt) (rt_log rt) (le_run l) Hc') as [H1 H2]; [by eauto|].
  unfold replay_event. rewrite Hp. unfold replay_lease_expired.
  rewrite !bool_decide_eq_false_2 by done. simpl. eexists. split; [done|].
  change (exec_run (expire_lease_row lease U) (le_run l)) with (exec_run U (le_run l)).
  unfold T'. rewrite (exec_run_same _ _ _ HU), H1, H2.
  destruct (exec_run _ _); [by apply expire_row_sim|]. by apply expire_plain_sim, expire_row_sim.
Qed.

(** ** Cancellation requests *)

Lemma fence_cancelled_folds L effect run log log' T U :
  fence_cancelled_exec instance_id draw effect run log T = Ok log' → folds L log U log' U.
Proof.
  unfold fence_cancelled_exec. destruct (_ && _); [apply fence_folds|]. intros [= ->]. apply folds_refl.
Qed.

Lemma fence_runs_folds L effect runs log log' T U :
  fence_runs instance_id draw effect runs log T = Ok log' → folds L log U log' U.
Proof.
  revert log. induction runs as [|run runs IH]; intros log; simpl; [intros [= ->]; apply folds_refl|].
  intros (log1 & H1 & H2)%bind_ok. eapply folds_trans; [by eapply fence_cancelled_folds|eauto].
Qed.

Lemma request_fields q q' : erase_request q = erase_request q' →
  rq_effect q = rq_effect q' ∧ rq_revision q = rq_revision q' ∧ rq_key q = rq_key q'.
Proof. intros Hq. split_and!; [apply (f_equal rq_effect) in Hq|apply (f_equal rq_revision) in Hq|apply (f_equal rq_key) in Hq]; exact Hq. Qed.

Lemma request_constraint_same r key T U : agree T U → request_constraint r key T = request_constraint r key U.
Proof.
  intros HU. unfold request_constraint.
  erewrite (same_count erase_request); [|intros q q' Hq; by destruct (request_fields q q' Hq) as (-> & -> & ->)|apply HU].
  rewrite (ag_revisions _ _ HU). f_equal. f_equal.
  apply bool_decide_ext, (same_none erase_effect). apply HU.
Qed.

Lemma insert_request_folds L request_id effect revision reason by_ causation key log T log' T' id :
  request_id ≠ "" →
  insert_cancellation_request instance_id draw request_id effect revision reason by_ causation key log T = Ok (log', T', id) →
  folds L log T log' T'.
Proof.
  intros Hid H. unfold insert_cancellation_request in H.
  destruct (key ≫= _) as [[id0 q0]|]; [simplify_eq; apply folds_refl|].
  apply bind_ok in H as ([] & _ & H). apply bind_ok in H as ([log1 e] & Happ & H).
  apply bind_ok in H as ([] & Hnew%ensure_ok & H). apply bind_ok in H as ([] & Hc%ensure_ok & H).
  apply bind_ok in H as ([] & _ & H). apply bind_ok in H as (log2 & Hf & [= <- <- <-]).
  apply bool_decide_eq_true in Hnew. apply negb_true_iff in Hc.
  eapply folds_trans; [|by eapply fence_runs_folds].
  eapply folds_append; [exact Happ|done|by apply same_refs_keeps|]. intros Hwf _ Hp _ Hk _ U HU. unfold replay_event. rewrite Hp, Hk.
  unfold replay_cancellation_request. rewrite <- (request_constraint_same _ _ _ _ HU), Hc. simpl.
  assert (effect ≠ "") as Hne.
  { unfold request_constraint in Hc. simpl in Hc. rewrite !orb_false_iff in Hc. destruct Hc as [[Hc _] _].
    apply bool_decide_eq_false in Hc. destruct (t_effects T !! effect) eqn:He; [|done]. by eapply wf_effects. }
  rewrite !bool_decide_eq_false_2 by done.
  rewrite (proj1 (same_none erase_request _ _ request_id (ag_requests _ _ HU)) Hnew).
  rewrite bool_decide_eq_false_2 by apply is_Some_None. eexists. split; [done|].
  destruct HU. split; try done. simpl. by apply same_insert.
Qed.

Lemma request_folds L request_id effect revision reason by_ causation key rt :
  request_id ≠ "" →
  folds L (rt_log rt) (rt_tables rt)
    (rt_log (request_effect_cancellation instance_id draw request_id effect revision reason by_ causation key rt).1)
    (rt_tables (request_effect_cancellation instance_id draw request_id effect revision reason by_ causation key rt).1).
Proof.
  intros Hid. apply transaction_folds. intros rt' id H. apply bind_ok in H as (st & _ & H).
  apply bind_ok in H as ([] & _ & H). apply bind_ok in H as ([[log' T'] id'] & H & [= <- <-]).
  by eapply insert_request_folds.
Qed.

(** The event that tracks an execution. *)
Lemma folds_tracked L log T t source causation correlation key log' e :
  append (PTracked t) source causation correlation key log = Ok (log', e) → exec_run T (tk_run t) = true →
  folds L log T log' T.
Proof.
  intros Happ Hx. pose proof (append_spec _ _ _ _ _ _ _ _ Happ) as (-> & Hp & _). exists [e].
  assert (appended log e) by by eapply append_appended; [exact Happ|].
  split_and!; [done..|]. intros Hwf. split_and!; [done|by intros|left; by apply old_run_same|..].
  - intros x t' ->%list_elem_of_singleton. rewrite Hp. by intros [= <-].
  - intros _ U HU. exists U. simpl. rewrite replay_unprojected; [done|]. by rewrite Hp.
Qed.

Lemma running_invocation_exec effect run T (err : runtime_error) x :
  ok_or err (running_invocation effect run T) = Ok x → exec_run T run = true.
Proof.
  unfold running_invocation, exec_run. destruct (t_runs T !! run) as [r|]; [|done].
  destruct (t_effects T !! effect) as [e|] eqn:He; [|done]. destruct (_ && _) eqn:Hb; [|done]. intros _.
  rewrite !andb_true_iff, !bool_decide_eq_true in Hb. destruct Hb as (((((-> & ->) & _) & _) & _) & _). by rewrite He.
Qed.

Lemma track_folds L t rt :
  folds L (rt_log rt) (rt_tables rt) (rt_log (track_exec_lifetime instance_id draw t rt).1)
    (rt_tables (track_exec_lifetime instance_id draw t rt).1).
Proof.
  apply transaction_folds. intros rt' st H. apply bind_ok in H as ([] & _ & H). destruct (key_event _ _) as [e|].
  - apply bind_ok in H as ([] & _ & H). apply bind_ok in H as (log' & Hf & [= <- <-]). by eapply fence_cancelled_folds.
  - apply bind_ok in H as ([input metadata] & Hrun & H). apply bind_ok in H as ([] & _ & H). apply bind_ok in H as ([log1 e] & Happ & H).
    apply bind_ok in H as (log' & Hf & [= <- <-]). eapply folds_trans; [|by eapply fence_cancelled_folds].
    eapply folds_tracked; [exact Happ|]. by eapply running_invocation_exec.
Qed.

End fold.
