(* ===== verification/RuntimeBatch.v ===== *)
(** The operations that loop over rows: the leases that expire together, and the
    activation of a revision, which cancels pending effects and asks running ones to stop.
    Their events fold to what they do, like those of the operations on one row. *)
From S2P Require Import Prelude DependencyGraph EffectRecovery AttemptAdmission RuntimeTables RuntimePolicy RuntimeReplay RuntimeOps RuntimeErase RuntimeShape RuntimeFold.
Local Open Scope string_scope.

Section batch.
Context {V : Type} `{!EqDecision V, !RuntimeJson V, !RuntimeGates V}.
Context (instance_id : string) (draw : nat → Draw).
Implicit Types (T : Tables V) (log L : list (Event V)) (rt : Runtime V).

Abbreviation folds := (folds instance_id).

(** ** Leases *)

Lemma expire_lease_others now lease l rt rt' id :
  expire_lease instance_id draw now (lease, l) rt = Ok rt' → id ≠ lease →
  t_leases (rt_tables rt') !! id = t_leases (rt_tables rt) !! id.
Proof.
  intros H Hne. unfold expire_lease in H. destruct (lease_exec_state _ _ _ _) as [execution tracked].
  apply bind_ok in H as (log1 & _ & H). apply bind_ok in H as ([log2 e] & _ & H). apply bind_ok in H as ([] & _ & [= <-]).
  assert (t_leases (expire_lease_row lease (rt_tables rt)) !! id = t_leases (rt_tables rt) !! id) as Hrow.
  { simpl. unfold update_where. destruct (t_leases (rt_tables rt) !! lease); [|done]. by apply lookup_insert_ne. }
  by destruct execution.
Qed.

Lemma expire_each_folds L now expired rt rt' :
  NoDup expired.*1 → (∀ id l, (id, l) ∈ expired → t_leases (rt_tables rt) !! id = Some l ∧ le_status l = "active") →
  expire_each instance_id draw now expired rt = Ok rt' → folds L (rt_log rt) (rt_tables rt) (rt_log rt') (rt_tables rt').
Proof.
  revert rt. induction expired as [|[id l] expired IH]; intros rt Hnd Hrows; simpl; [intros [= ->]; apply folds_refl|].
  rewrite fmap_cons in Hnd. apply NoDup_cons in Hnd as [Hid Hnd]. intros (rt1 & H1 & H2)%bind_ok.
  destruct (Hrows id l) as [Hl Ha]; [set_solver|].
  eapply folds_trans; [eapply expire_lease_folds; [exact Hl|exact Ha|exact H1]|]. apply IH; [done| |done].
  intros id' l' Hin. erewrite expire_lease_others; [|exact H1|]; [apply Hrows; set_solver|].
  simpl. intros ->. apply Hid, list_elem_of_fmap. by exists (id, l').
Qed.

Lemma expired_leases_spec now T :
  NoDup (expired_leases now T).*1 ∧
  ∀ id l, (id, l) ∈ expired_leases now T ↔ t_leases T !! id = Some l ∧ le_status l = "active" ∧ String.le (le_expires_at l) now.
Proof.
  unfold expired_leases. split.
  - rewrite merge_sort_Permutation. eapply sublist_NoDup; [|apply fmap_sublist, sublist_filter]. apply NoDup_fst_map_to_list.
  - intros id l. rewrite merge_sort_Permutation, list_elem_of_filter, elem_of_map_to_list. simpl.
    rewrite andb_true_iff, !bool_decide_eq_true. naive_solver.
Qed.

Lemma expire_leases_folds L now rt :
  folds L (rt_log rt) (rt_tables rt) (rt_log (expire_leases instance_id draw now rt).1) (rt_tables (expire_leases instance_id draw now rt).1).
Proof.
  destruct (expired_leases_spec now (rt_tables rt)) as [Hnd Hrows].
  apply transaction_folds. intros rt' ids H. apply bind_ok in H as (rt1 & H & [= <- <-]).
  eapply expire_each_folds; [exact Hnd| |exact H]. intros id l [? [??]]%Hrows. done.
Qed.

(** ** Revisions *)

Lemma policy_effects_spec P T :
  NoDup (policy_effects P T) ∧
  ∀ id, id ∈ policy_effects P T ↔ ∃ e, t_effects T !! id = Some e ∧ P (re_status e) = true.
Proof.
  unfold policy_effects. split.
  - rewrite merge_sort_Permutation. eapply sublist_NoDup; [|apply fmap_sublist, sublist_filter]. apply NoDup_fst_map_to_list.
  - intros id. rewrite merge_sort_Permutation, list_elem_of_fmap. split.
    + intros ([id' e] & -> & He). apply list_elem_of_filter in He as [HP He%elem_of_map_to_list]. eauto.
    + intros (e & He & HP). exists (id, e). split; [done|]. apply list_elem_of_filter. by rewrite elem_of_map_to_list.
Qed.

Lemma update_effect_others id P f T id' :
  id' ≠ id → t_effects (update_effect id P f T).1 !! id' = t_effects T !! id'.
Proof.
  intros Hne. unfold update_effect, update_where. destruct (t_effects T !! id); [|done].
  destruct (P _); [|done]. simpl. by apply lookup_insert_ne.
Qed.

Lemma cancel_pending_folds L revision event_id ids log T log' T' :
  NoDup ids → (∀ id, id ∈ ids → ∃ e, t_effects T !! id = Some e ∧ pending (re_status e) = true) →
  cancel_pending draw revision event_id ids log T = Ok (log', T') → folds L log T log' T'.
Proof.
  revert log T. induction ids as [|id ids IH]; intros log T Hnd Hrows; simpl; [intros [= -> ->]; apply folds_refl|].
  apply NoDup_cons in Hnd as [Hid Hnd]. intros ([log1 e] & Happ & H)%bind_ok.
  destruct (Hrows id) as (row & Hrow & Hp); [set_solver|].
  eapply folds_trans; [|eapply IH; [done| |exact H]].
  - eapply folds_agree; [|apply same_refs_keeps, mark_refs|apply mark_agree].
    eapply folds_append; [exact Happ|done|by apply same_refs_keeps, update_effect_refs|]. intros Hwf _ Hpay _ _ _ U HU.
    unfold replay_event. rewrite Hpay. by eapply runless_agree.
  - intros id' Hin. destruct (Hrows id') as (row' & Hrow' & Hp'); [set_solver|]. exists row'. split; [|done].
    etrans; [apply update_effect_others|done]. by intros ->.
Qed.

Lemma request_running_folds L a event_id ids log T log' T' :
  (∀ id, av_request_id a id ≠ "") →
  request_running instance_id draw a event_id ids log T = Ok (log', T') → folds L log T log' T'.
Proof.
  intros Hids. revert log T. induction ids as [|id ids IH]; intros log T; simpl; [intros [= -> ->]; apply folds_refl|].
  intros ([[log1 T1] req] & H1 & H2)%bind_ok. eapply folds_trans; [|by apply IH].
  eapply insert_request_folds; [|exact H1]. apply Hids.
Qed.

Lemma satisfy_if_refs b T : same_refs T (satisfy_if instance_id b T).
Proof. destruct b; [apply satisfy_refs|done]. Qed.

Lemma satisfy_if_agree b T : agree T (satisfy_if instance_id b T).
Proof. destruct b; [apply satisfy_agree|done]. Qed.

(** The names of a revision and of its requests. *)
Definition named_revision (a : RevisionActivation (V := V)) : Prop :=
  av_id a ≠ "" ∧ av_from a ≠ "" ∧ av_to a ≠ "" ∧ ∀ id, av_request_id a id ≠ "".

Lemma revision_row_folds L a epoch policy queued running log T log' e :
  named_revision a → t_revisions T !! av_id a = None →
  count_rows (λ v : RtRevision V, bool_decide (rv_epoch v = epoch)) (t_revisions T) = 0 →
  append_event draw (PRevisionActivated (mkRevisionRecord (av_id a) (av_from a) (av_to a) epoch (av_policy a) policy
    (av_carries a) (av_correspondence a) queued running)) "kernel" None (Some (av_id a)) (av_key a) log = Ok (log', e) →
  folds L log T log' (move_revision (e_id e) (av_to a) epoch (with_revisions (<[av_id a := mkRevision epoch (av_from a) (av_to a)
    (e_id e) (av_policy a) policy (av_carries a) (av_key a)]> (t_revisions T)) T)).
Proof.
  intros (H1 & H2 & H3 & _) Hnew Hc Happ. eapply folds_append; [exact Happ|done| |].
  { apply same_refs_keeps. refine (transitivity (y := with_revisions _ T) _ (instance_refs _ _)). done. }
  intros _ _ Hp _ Hk _ U HU. unfold replay_event. rewrite Hp, Hk. unfold replay_revision_activation. simpl.
  rewrite (bool_decide_eq_false_2 (av_id a = "")), (bool_decide_eq_false_2 (av_from a = "")), (bool_decide_eq_false_2 (av_to a = "")) by done.
  simpl. rewrite <- (ag_revisions _ _ HU), Hnew, Hc. simpl. eexists. split; [done|].
  destruct HU. split; try done; simpl; by f_equal.
Qed.

Lemma activate_folds L a rt :
  named_revision a →
  folds L (rt_log rt) (rt_tables rt) (rt_log (activate_revision instance_id draw a rt).1)
    (rt_tables (activate_revision instance_id draw a rt).1).
Proof.
  intros Hn. apply transaction_folds. intros rt' id H. apply bind_ok in H as (policy & _ & H).
  destruct (av_key a ≫= _) as [[old v]|]; [apply bind_ok in H as ([] & _ & [= <- <-]); apply folds_refl|].
  apply bind_ok in H as (i & Hi & H). apply bind_ok in H as ([] & _ & H). apply bind_ok in H as ([] & _ & H).
  apply bind_ok in H as ([] & _ & H). apply bind_ok in H as ([log1 e] & Happ & H).
  apply bind_ok in H as ([] & Hnew%ensure_ok & H). apply bind_ok in H as ([] & Hc%ensure_ok & H).
  apply bind_ok in H as ([log2 T2] & Hq & H). apply bind_ok in H as ([log3 T3] & Hr & [= <- <-]).
  apply bool_decide_eq_true in Hnew, Hc. cbn [rt_log rt_tables].
  eapply folds_trans; [by eapply revision_row_folds|].
  eapply folds_agree; [|apply same_refs_keeps, satisfy_if_refs|apply satisfy_if_agree].
  eapply folds_trans; [|eapply request_running_folds; [apply Hn|exact Hr]].
  eapply folds_agree; [|apply same_refs_keeps, satisfy_if_refs|apply satisfy_if_agree].
  destruct (policy_effects_spec pending (rt_tables rt)) as [Hnd Hrows].
  eapply cancel_pending_folds; [| |exact Hq]; [by destruct (bool_decide (policy = "keep")); [constructor|]|].
  intros id. destruct (bool_decide (policy = "keep")); [by intros ?%elem_of_nil|]. by intros ?%Hrows.
Qed.

End batch.
