(* ===== verification/RuntimeHistory.v ===== *)
(** Histories of the runtime store: under the conditions on callers that [runtime_step] and
    [reserved] state, the tables that a sequence of operations and restores leaves agree with
    what a rebuild of the log gives, a rebuild to an earlier sequence gives the tables of
    that time, and a restore goes back to them. *)
From S2P Require Import Prelude DependencyGraph EffectRecovery AttemptAdmission RuntimeTables ExecLifetime ExecOutcome RuntimePolicy RuntimeReplay RuntimeOps RuntimeErase RuntimeShape RuntimeFold RuntimeBatch.
Local Open Scope string_scope.

Section history.
Context {V : Type} `{!EqDecision V, !RuntimeJson V, !RuntimeGates V}.
Context (instance_id : string) (draw : nat → Draw).
Implicit Types (T : Tables V) (log L : list (Event V)) (rt : Runtime V).

Abbreviation folds := (folds instance_id).
Abbreviation replay := (replay_events tracking_key instance_id).

(** ** Operations as steps *)

(** What an operation leaves; an operation that fails leaves what it found, or what it
    committed before it failed.  The statements of this file hold of callers that keep these
    conditions, which the operations themselves do not check:
    - the identifiers, names and keys that are written are not empty ([named_fact],
      [named_run], [named_revision], and the effects of a commit);
    - a fact is derived under the key of an event on record only when its row is there
      ([honest_key], [settled_keys]; the facts of one settlement have keys of their own);
    - a completion names the provider and the worker of its run ([own_run]);
    - a block sets a pending status;
    - an event that is appended on its own ([step_note]: evidence, a reconciliation) is one
      that a rebuild does not read.
    The two operations that change a fact without an event are no steps. *)
Inductive runtime_step rt : Runtime V → Prop :=
| step_commit guard c :
    Forall (λ e : NewEffect V, ne_id e ≠ "") (rc_effects c) → runtime_step rt (commit_rule instance_id draw guard c rt).1
| step_derive d :
    named_fact (df_fact d) → honest_key d (rt_log rt) (rt_tables rt) → runtime_step rt (derive_fact draw d rt).1
| step_claim : runtime_step rt (claimable_effects instance_id draw rt).1
| step_start selection admission s :
    named_run s → runtime_step rt (start_run instance_id draw selection admission s rt).1
| step_complete status c :
    own_run c (rt_tables rt) → runtime_step rt (complete_with instance_id draw status c rt).1
| step_settle c facts cache :
    own_run c (rt_tables rt) → Forall (λ fk : NewFact V * string, named_fact fk.1) facts →
    settled_keys (ec_key c) facts (rt_log rt) (rt_tables rt) →
    runtime_step rt (complete_effect_settlement instance_id draw c facts cache rt).1
| step_block effect status prefix category detail :
    pending status = true → runtime_step rt (block_effect_with_status instance_id draw effect status prefix category detail rt).1
| step_transition status reason key : runtime_step rt (transition_instance draw status reason key rt).1
| step_expire effect key : runtime_step rt (expire_effect draw effect key rt).1
| step_cancel effect reason key : runtime_step rt (cancel_effect instance_id draw effect reason key rt).1
| step_retry effect retry_after terminal_event key :
    runtime_step rt (retry_effect instance_id draw effect retry_after terminal_event key rt).1
| step_renew lease run expires key : runtime_step rt (renew_lease draw lease run expires key rt).1
| step_expire_leases now : runtime_step rt (expire_leases instance_id draw now rt).1
| step_request request_id effect revision reason by_ causation key :
    request_id ≠ "" →
    runtime_step rt (request_effect_cancellation instance_id draw request_id effect revision reason by_ causation key rt).1
| step_activate a : named_revision a → runtime_step rt (activate_revision instance_id draw a rt).1
| step_track t : runtime_step rt (track_exec_lifetime instance_id draw t rt).1
| step_fence reason run : runtime_step rt (ensure_exec_fence instance_id draw reason run rt).1
| step_proof run closure : runtime_step rt (retain_exec_fence_proof instance_id draw run closure rt).1
| step_outcome run placement outcome : runtime_step rt (retain_exec_outcome instance_id draw run placement outcome rt).1
| step_retain s : runtime_step rt (retain_exec_settlement draw s rt).1
| step_wake w : runtime_step rt (schedule_exec_reconciliation draw w rt).1
| step_note payload source causation correlation key log e :
    append_event draw payload source causation correlation key (rt_log rt) = Ok (log, e) →
    unprojected payload && negb (tracking payload) = true → runtime_step rt (mkRuntime log (rt_tables rt)).

Lemma step_folds L rt rt' : runtime_step rt rt' → folds L (rt_log rt) (rt_tables rt) (rt_log rt') (rt_tables rt').
Proof.
  destruct 1; eauto using commit_rule_folds, derive_fact_folds, claimable_folds, start_run_folds, complete_folds, block_folds, transition_folds,
    expire_effect_folds, cancel_effect_folds, retry_folds, renew_folds, expire_leases_folds, request_folds, activate_folds,
    settle_folds, track_folds, ensure_fence_folds, proof_folds, outcome_folds, retained_folds, wake_folds, folds_unprojected.
Qed.

(** ** Histories *)

(** The key of a tracking record belongs to the tracking record: no other operation is given
    it as an idempotency key.  A history asks this of its callers as well. *)
Definition reserved log : Prop :=
  ∀ e run, e ∈ log → e_key e = Some (tracking_key run) → ∃ t, e_payload e = PTracked t ∧ tk_run t = run.

Abbreviation restored cut expected key to rt := (commit_restore instance_id draw (head_sequence (rt_log to)) cut expected key rt).1.

(** [descends rt rt']: operations under the conditions of [runtime_step], and restores to
    states on the way, lead from [rt] to [rt'], with the tracking keys [reserved]. *)
Inductive descends rt : Runtime V → Prop :=
| descends_refl : descends rt rt
| descends_step rt1 rt2 : descends rt rt1 → runtime_step rt1 rt2 → reserved (rt_log rt2) → descends rt rt2
| descends_restore rt1 rt2 cut expected key :
    descends rt rt1 → descends rt1 rt2 → reserved (rt_log (restored cut expected key rt1 rt2)) →
    descends rt (restored cut expected key rt1 rt2).

(** A runtime right after its creation. *)
Definition new_runtime : Runtime V := mkRuntime [] (mkTables None ∅ ∅ [] ∅ ∅ ∅ ∅ ∅).

Definition created program version principal authority input at_ started : Runtime V :=
  (create_instance draw program version principal authority input at_ started new_runtime).1.

(** ** What holds along a history *)

Definition numbered log : Prop := ∀ i e, log !! i = Some e → e_sequence e = Z.of_nat (S i).

Record sound rt : Prop := mkSound {
  sd_formed : well_formed (rt_tables rt);
  sd_numbered : numbered (rt_log rt);
  sd_formats : Forall (λ e, e_format e = Some SUPPORTED_EVENT_FORMAT_VERSION) (rt_log rt);
  sd_reserved : reserved (rt_log rt);
  sd_keyed : ∀ run, is_Some (t_runs (rt_tables rt) !! run) → is_Some (key_event (rt_log rt) run);
  sd_tracked : ∀ e t, e ∈ rt_log rt → e_payload e = PTracked t →
    is_Some (key_event (rt_log rt) (tk_run t)) ∧
    (is_Some (t_runs (rt_tables rt) !! tk_run t) → exec_run (rt_tables rt) (tk_run t) = true);
  sd_replays : ∀ L T0, continues L (rt_log rt) (rt_tables rt) → is_Some (t_instance T0) →
    ∃ U, replay L (live_rows None (rt_log rt)) (cleared_tables T0) = Ok U ∧ agree (rt_tables rt) U;
}.

(** From one state to a later one. *)
Record moves rt rt' : Prop := mkMoves {
  mv_log : ∃ es, rt_log rt' = (rt_log rt ++ es)%list;
  mv_stable : exec_stable (rt_tables rt) (rt_tables rt');
  mv_live : ∃ rest, live_rows None (rt_log rt') = (live_rows None (rt_log rt) ++ rest)%list ∧
    Forall (λ e, (head_sequence (rt_log rt) < e_sequence e)%Z) rest;
}.

Lemma tracks_of L T :
  reserved L → (∀ e t, e ∈ L → e_payload e = PTracked t → is_Some (t_runs T !! tk_run t) → exec_run T (tk_run t) = true) →
  tracks_executions L T.
Proof.
  intros Hr Ht run (e & He & [Hk|Hp]%orb_true_iff)%existsb_elem Hrun.
  - apply bool_decide_eq_true in Hk. destruct (Hr e run He Hk) as (t & Hp & <-). eauto.
  - destruct (e_payload e) eqn:Hpe; try done. apply bool_decide_eq_true in Hp as <-. eauto.
Qed.

Lemma head_length log : numbered log → head_sequence log = Z.of_nat (length log).
Proof.
  intros Hn. unfold head_sequence. destruct log as [|e log _] using rev_ind; [done|].
  rewrite last_snoc, length_app. simpl. rewrite (Hn (length log) e); [lia|]. by rewrite lookup_app_r, Nat.sub_diag by lia.
Qed.

Lemma numbered_snoc log e : numbered log → e_sequence e = (head_sequence log + 1)%Z → numbered (log ++ [e]).
Proof.
  intros Hn He i x. rewrite lookup_app_Some, list_lookup_singleton_Some. intros [Hx|(Hi & Heq & <-)]; [by apply Hn|].
  rewrite He, head_length by done. lia.
Qed.

Lemma numbered_elem log e : numbered log → e ∈ log → (e_sequence e ≤ head_sequence log)%Z.
Proof.
  intros Hn [i Hi]%list_elem_of_lookup. rewrite (Hn i e Hi), (head_length log Hn). apply lookup_lt_Some in Hi. lia.
Qed.

(** The events of an operation are numbered on, stamped, and no markers. *)
Lemma extends_spec log es :
  numbered log → extends log es →
  numbered (log ++ es) ∧ Forall (λ e, e_format e = Some SUPPORTED_EVENT_FORMAT_VERSION) es ∧
  Forall (λ e, restore_target e = None) es ∧ Forall (λ e, (head_sequence log < e_sequence e)%Z) es.
Proof.
  revert log. induction es as [|e es IH]; intros log Hn; simpl; [by rewrite app_nil_r|].
  intros [(Hf & Hm & Hs) Hx]. pose proof (numbered_snoc _ _ Hn Hs) as Hn'.
  destruct (IH (log ++ [e])%list Hn' Hx) as (H1 & H2 & H3 & H4). rewrite <- app_assoc in H1. split_and!; [done|by constructor..|].
  constructor; [lia|]. eapply Forall_impl; [exact H4|]. simpl. intros x. unfold head_sequence at 1. rewrite last_snoc. simpl. lia.
Qed.

(** ** The live rows of a longer log *)

Lemma live_rows_app log es :
  Forall (λ e, restore_target e = None) es →
  live_rows None (log ++ es) = (live_rows None log ++ filter (λ e, selected e = true) es)%list.
Proof.
  intros Hes. unfold live_rows, fetched. rewrite filter_app, live_fold_app.
  - f_equal. rewrite list_filter_filter. apply filter_ext_in. intros e He.
    rewrite Forall_forall in Hes. specialize (Hes e He). simpl. rewrite andb_true_r, Hes. simpl. naive_solver.
  - apply Forall_forall. intros e [_ He]%list_elem_of_filter. rewrite Forall_forall in Hes. by apply Hes.
Qed.

Lemma replay_selected L es U : replay L (filter (λ e, selected e = true) es) U = replay L es U.
Proof.
  revert U. induction es as [|e es IH]; intros U; [done|]. rewrite filter_cons. case_decide as Hs; simpl.
  - destruct (replay_event _ _ _ _ _); simpl; [apply IH|done].
  - rewrite IH. unfold replay_event. unfold selected in Hs. by destruct (e_payload e).
Qed.

(** ** Operations preserve soundness *)

Lemma continues_self rt : sound rt → continues (rt_log rt) (rt_log rt) (rt_tables rt).
Proof.
  intros Hs. split; [|exists []; by rewrite app_nil_r]. apply tracks_of; [apply Hs|].
  intros e t He Hp. by eapply (sd_tracked _ Hs).
Qed.

Lemma step_moves rt rt' : sound rt → runtime_step rt rt' → reserved (rt_log rt') → sound rt' ∧ moves rt rt'.
Proof.
  intros Hs Hstep Hres. pose proof (λ L, step_folds L rt rt' Hstep) as Hf.
  destruct (Hf []) as (es & Hlog & Hext & Hwf). destruct (Hwf (sd_formed _ Hs)) as (Hwf' & Hst & Hfresh & Htr & _).
  destruct (extends_spec _ _ (sd_numbered _ Hs) Hext) as (Hnum & Hfmt & Hmark & Hlater).
  assert (∀ run, is_Some (t_runs (rt_tables rt') !! run) → is_Some (key_event (rt_log rt') run)) as Hkeyed.
  { intros run [r' Hr']. destruct (Hfresh run r' Hr') as [(r & Hr & _)|[_ Hk]]; [|done].
    rewrite Hlog. apply key_event_later, (sd_keyed _ Hs). eauto. }
  split; [split|split]; rewrite ?Hlog in *.
  - done.
  - done.
  - apply Forall_app. split; [apply Hs|done].
  - done.
  - done.
  - intros e t [He|He]%elem_of_app Hp.
    + destruct (sd_tracked _ Hs e t He Hp) as [Hk Hx]. split; [by apply key_event_later|].
      intros [r' Hr']. destruct (Hfresh (tk_run t) r' Hr') as [(r & Hr & _)|[Hn _]]; [|rewrite Hn in Hk; by destruct Hk].
      assert (is_Some (t_runs (rt_tables rt) !! tk_run t)) as Hr0 by eauto. destruct (Hst (tk_run t) Hr0) as [_ ->]. by apply Hx.
    + pose proof (Htr e t He Hp) as Hx. auto using exec_run_there.
  - intros L T0 Hc Hi. destruct (Hf L) as (es' & Hlog' & _ & Hr). rewrite ?Hlog in Hr, Hlog'. apply app_inv_head in Hlog' as <-.
    destruct (Hr (sd_formed _ Hs)) as (_ & _ & _ & _ & Hrep). specialize (Hrep Hc).
    destruct (sd_replays _ Hs L T0 (continues_back _ _ _ _ _ Hst Hc) Hi) as (U & HU & HA).
    destruct (Hrep U HA) as (U' & HU' & HA'). exists U'. split; [|done].
    rewrite live_rows_app by done. rewrite replay_app, HU. simpl. by rewrite replay_selected.
  - eauto.
  - done.
  - eexists. split; [by apply live_rows_app|]. apply Forall_forall. intros e [_ He]%list_elem_of_filter.
    rewrite Forall_forall in Hlater. by apply Hlater.
Qed.

Lemma moves_refl rt : moves rt rt.
Proof. split; [exists []|by intros run Hr|exists []]; by rewrite app_nil_r. Qed.

Lemma moves_trans rt1 rt2 rt3 : sound rt1 → sound rt2 → moves rt1 rt2 → moves rt2 rt3 → moves rt1 rt3.
Proof.
  intros Hs1 Hs2 [[es1 He1] Hst1 (rest1 & Hl1 & Hf1)] [[es2 He2] Hst2 (rest2 & Hl2 & Hf2)]. split.
  - exists (es1 ++ es2)%list. by rewrite He2, He1, app_assoc.
  - intros run Hr. destruct (Hst1 run Hr) as [Hr' <-]. by apply Hst2.
  - exists (rest1 ++ rest2)%list. rewrite Hl2, Hl1, app_assoc. split; [done|]. apply Forall_app. split; [done|].
    eapply Forall_impl; [exact Hf2|]. simpl. intros e.
    rewrite (head_length _ (sd_numbered _ Hs1)), (head_length _ (sd_numbered _ Hs2)), He1, length_app. lia.
Qed.

(** ** Tables that agree *)

Lemma agree_formed T U : agree T U → well_formed T → well_formed U.
Proof.
  intros HA [H0 H1 H2 H3 H4]. pose proof (symmetry HA) as HB. split.
  - by rewrite <- (ag_instance _ _ HA).
  - intros id e He. destruct (effect_exists _ _ _ _ HB He) as (e' & He' & _). eauto.
  - intros id r. rewrite <- (ag_runs _ _ HA). intros Hr.
    destruct (H2 id r Hr) as [Hne [e He]]. destruct (effect_exists _ _ _ _ HA He) as (e' & -> & _). eauto.
  - intros id l Hl. rewrite <- (ag_runs _ _ HA).
    destruct (same_row erase_lease _ _ _ _ (ag_leases _ _ HB) Hl) as (l' & Hl' & (-> & -> & _ & ->)%lease_fields). eauto.
  - intros i j l m Hl Hm. destruct (same_row erase_lease _ _ _ _ (ag_leases _ _ HB) Hl) as (l' & Hl' & (-> & _)%lease_fields).
    destruct (same_row erase_lease _ _ _ _ (ag_leases _ _ HB) Hm) as (m' & Hm' & (-> & _)%lease_fields). by apply (H4 i j l' m').
Qed.

Lemma agree_stable T U : agree T U → exec_stable T U.
Proof.
  intros HA run Hr. rewrite <- (ag_runs _ _ HA). split; [done|]. by apply exec_run_same.
Qed.

Lemma continues_agree L log es T U : agree T U → continues L (log ++ es) U → continues L log T.
Proof. intros HA. apply continues_back. by apply agree_stable. Qed.

(** ** The rebuild *)

Lemma formats_ok bound log :
  Forall (λ e, e_format e = Some SUPPORTED_EVENT_FORMAT_VERSION) log → check_formats (fetched bound log) = Ok tt.
Proof.
  intros Hf. assert (∀ es, Forall (λ e : Event V, e_format e = Some SUPPORTED_EVENT_FORMAT_VERSION) es → check_formats es = Ok tt) as Hall.
  { induction 1 as [|e es He Hes IH]; simpl; [done|]. rewrite He. simpl. done. }
  apply Hall, Forall_forall. intros e [_ He]%list_elem_of_filter. rewrite Forall_forall in Hf. by apply Hf.
Qed.

(** The rebuild to the head of an earlier state reads the log of that state. *)
Lemma fetched_prefix log es :
  numbered log → Forall (λ e, (head_sequence log < e_sequence e)%Z) es →
  fetched (Some (head_sequence log)) (log ++ es) = fetched None log.
Proof.
  intros Hn Hes. unfold fetched. rewrite filter_app, (filter_none _ es), app_nil_r.
  - apply filter_ext_in. intros e He. simpl. rewrite bool_decide_eq_true_2; [done|]. by apply numbered_elem.
  - intros e He. rewrite Forall_forall in Hes. specialize (Hes e He). simpl in *. rewrite bool_decide_eq_false_2 by lia.
    by rewrite andb_false_r.
Qed.

(** The marker of a restore rewinds the live rows to those of the earlier state. *)
Lemma restored_rows rt1 rt2 cut m :
  sound rt1 → moves rt1 rt2 → e_payload m = PRestored cut (head_sequence (rt_log rt1)) →
  live_rows None (rt_log rt2 ++ [m]) = live_rows None (rt_log rt1).
Proof.
  intros Hs [_ _ (rest & Hl & Hrest)] Hm. unfold live_rows, fetched. rewrite filter_app, filter_cons, filter_nil.
  rewrite decide_True by (unfold selected; by rewrite Hm).
  erewrite live_fold_restore; [|unfold restore_target; by rewrite Hm|unfold restore_target; by rewrite Hm].
  unfold live_rows, fetched in Hl. rewrite Hl, filter_app, (filter_none _ rest), app_nil_r.
  - apply filter_id. intros e He. apply numbered_elem; [apply Hs|].
    eapply elem_of_sublist in He; [|apply live_fold_sublist]. by apply list_elem_of_filter in He as [_ ?].
  - intros e He. rewrite Forall_forall in Hrest. specialize (Hrest e He). simpl in *. lia.
Qed.

(** ** Restores *)

Definition appended_marker cut target log (m : Event V) : Prop :=
  e_payload m = PRestored cut target ∧ e_sequence m = (head_sequence log + 1)%Z ∧
  e_format m = Some SUPPORTED_EVENT_FORMAT_VERSION.

(** What a restore to an earlier state leaves: what it found, or the earlier tables. *)
Lemma restore_spec rt1 rt2 cut expected key :
  sound rt1 → sound rt2 → moves rt1 rt2 → reserved (rt_log (restored cut expected key rt1 rt2)) →
  (∃ err, commit_restore instance_id draw (head_sequence (rt_log rt1)) cut expected key rt2 = (rt2, Err err)) ∨
  ∃ m T3, commit_restore instance_id draw (head_sequence (rt_log rt1)) cut expected key rt2
            = (mkRuntime (rt_log rt2 ++ [m]) T3, Ok (stored m)) ∧
    appended_marker cut (head_sequence (rt_log rt1)) (rt_log rt2) m ∧ agree (rt_tables rt1) T3.
Proof.
  intros Hs1 Hs2 Hm. pose proof Hm as [[es Hes] Hst _]. unfold commit_restore.
  destruct (file_manifest_check (rt_tables rt2)); simpl; [|eauto]. destruct (ensure _ _); simpl; [|eauto].
  destruct (append_event _ _ _ _ _ _ _) as [[log3 m]|] eqn:Happ; [|eauto].
  pose proof (append_spec _ _ _ _ _ _ _ _ _ Happ) as (-> & Hp & _ & _ & _ & Hseq & Hfmt & _). intros Hres. right.
  assert (reserved (rt_log rt2 ++ [m])) as Hr by by destruct (rebuild_projections _ _ _ _).
  assert (continues (rt_log rt2 ++ [m]) (rt_log rt1) (rt_tables rt1)) as Hc.
  { split; [|exists (es ++ [m])%list; by rewrite Hes, app_assoc]. apply tracks_of; [done|].
    intros e t [He| ->%list_elem_of_singleton]%elem_of_app Hpe Hrun; [|congruence].
    destruct (Hst (tk_run t) Hrun) as [Hrun2 <-]. by eapply (sd_tracked _ Hs2). }
  destruct (sd_replays _ Hs1 _ (rt_tables rt2) Hc (wf_instance _ (sd_formed _ Hs2))) as (T3 & HT3 & HA).
  exists m, T3. unfold rebuild_projections, rebuild_projections_impl.
  rewrite formats_ok; [|apply Forall_app; split; [apply Hs2|by apply Forall_singleton]]. simpl.
  rewrite (restored_rows rt1 rt2 cut m) by done. by rewrite HT3.
Qed.

Lemma restore_moves rt1 rt2 cut expected key :
  sound rt1 → sound rt2 → moves rt1 rt2 → reserved (rt_log (restored cut expected key rt1 rt2)) →
  sound (restored cut expected key rt1 rt2) ∧ moves rt1 (restored cut expected key rt1 rt2).
Proof.
  intros Hs1 Hs2 Hm Hres. destruct (restore_spec _ _ _ _ _ Hs1 Hs2 Hm Hres) as [[err ->]|(m & T3 & Heq & (Hp & Hseq & Hfmt) & HA)]; [done|].
  rewrite Heq in *. cbn [fst] in *. pose proof Hm as [[es Hes] Hst _].
  pose proof (restored_rows rt1 rt2 cut m Hs1 Hm Hp) as Hrows.
  assert (∀ run, is_Some (key_event (rt_log rt1) run) → is_Some (key_event (rt_log rt2 ++ [m]) run)) as Hkey.
  { intros run Hk. apply key_event_later. rewrite Hes. by apply key_event_later. }
  assert (∀ run, is_Some (t_runs T3 !! run) → is_Some (t_runs (rt_tables rt1) !! run)) as Hback.
  { intros run. by rewrite (ag_runs _ _ HA). }
  split; [split|split]; cbn [rt_log rt_tables] in *.
  - eapply agree_formed; [exact HA|apply Hs1].
  - apply numbered_snoc; [apply Hs2|done].
  - apply Forall_app. split; [apply Hs2|by apply Forall_singleton].
  - done.
  - intros run Hr%Hback. by apply Hkey, (sd_keyed _ Hs1).
  - intros e t [He| ->%list_elem_of_singleton]%elem_of_app Hpe; [|congruence].
    destruct (sd_tracked _ Hs2 e t He Hpe) as [Hk Hx]. split; [by apply key_event_later|].
    intros Hr%Hback. rewrite (exec_run_same _ _ _ HA). destruct (Hst (tk_run t) Hr) as [Hr2 <-]. by apply Hx.
  - intros L T0 Hc Hi. rewrite Hrows. rewrite Hes, <- app_assoc in Hc.
    destruct (sd_replays _ Hs1 L T0 (continues_agree _ _ _ _ _ HA Hc) Hi) as (U & HU & HAU). exists U. split; [done|].
    by transitivity (rt_tables rt1).
  - exists (es ++ [m])%list. by rewrite Hes, app_assoc.
  - by apply agree_stable.
  - exists []. by rewrite app_nil_r.
Qed.

(** ** Reachable states *)

Lemma descends_moves rt rt' : descends rt rt' → sound rt → sound rt' ∧ moves rt rt'.
Proof.
  induction 1 as [rt|rt rt1 rt2 _ IH Hstep Hres|rt rt1 rt2 cut expected key _ IH1 _ IH2 Hres]; intros Hs.
  - split; [done|apply moves_refl].
  - destruct (IH Hs) as [Hs1 Hm1]. destruct (step_moves _ _ Hs1 Hstep Hres) as [Hs2 Hm2]. split; [done|].
    by apply (moves_trans rt rt1 rt2).
  - destruct (IH1 Hs) as [Hs1 Hm1]. destruct (IH2 Hs1) as [Hs2 Hm2].
    destruct (restore_moves rt1 rt2 cut expected key Hs1 Hs2 Hm2 Hres) as [Hs3 Hm3]. split; [done|].
    by apply (moves_trans rt rt1).
Qed.

Lemma created_sound program version principal authority input at_ started :
  program ≠ "" → version ≠ "" → sound (created program version principal authority input at_ started).
Proof.
  intros Hp Hv. split; simpl.
  - by split; simpl.
  - by intros [|[|i]] e; simpl; intros [= <-].
  - by apply Forall_singleton.
  - by intros e run ->%list_elem_of_singleton.
  - by intros run [r Hr].
  - by intros e t ->%list_elem_of_singleton.
  - intros L T0 _ [i Hi]. unfold live_rows, fetched. simpl. eexists. split; [done|].
    unfold replay_event. simpl. unfold apply_instance_created. simpl. rewrite !bool_decide_eq_false_2 by done. simpl.
    rewrite Hi. by split.
Qed.

Lemma created_moves program version principal authority input at_ started rt :
  program ≠ "" → version ≠ "" → descends (created program version principal authority input at_ started) rt → sound rt.
Proof. intros Hp Hv Hd. eapply descends_moves; [exact Hd|]. by apply created_sound. Qed.

(** ** Theorems *)

(** C3: after any sequence of operations and restores whose callers keep the conditions of
    [runtime_step] and [reserved], replaying the log of an instance from scratch succeeds,
    and the tables it gives agree with the live ones up to the columns that [agree] leaves
    out (which pending status an effect has and its block, the span of a fact, the expiry of
    a lease, the cause and the resolution of a cancellation request).  The conditions are:
    what is written has names that are not empty; a fact is derived under the key of an
    event on record only when its row is there (otherwise a rebuild drops the fact,
    [foreign_key_fact_dropped]); a completion names the provider and the worker of its run;
    a block sets a pending status; an event appended on its own is one that a rebuild does
    not read; and the key of a tracking record is used for nothing else. *)
Theorem rebuild_agrees program version principal authority input at_ started rt :
  program ≠ "" → version ≠ "" → descends (created program version principal authority input at_ started) rt →
  ∃ T, rebuild_projections tracking_key instance_id (rt_log rt) (rt_tables rt) = Ok T ∧ agree (rt_tables rt) T.
Proof.
  intros Hp Hv Hd. pose proof (created_moves _ _ _ _ _ _ _ _ Hp Hv Hd) as Hs.
  destruct (sd_replays _ Hs _ (rt_tables rt) (continues_self rt Hs) (wf_instance _ (sd_formed _ Hs))) as (T & HT & HA).
  exists T. split; [|done]. unfold rebuild_projections, rebuild_projections_impl. by rewrite formats_ok by apply Hs.
Qed.

(** Under the same conditions, a rebuild to the head sequence of an earlier state gives the
    tables of that state, from the log of any state that came after it. *)
Theorem rebuild_to_agrees program version principal authority input at_ started rt1 rt2 :
  program ≠ "" → version ≠ "" → descends (created program version principal authority input at_ started) rt1 →
  descends rt1 rt2 →
  ∃ T, rebuild_projections_to tracking_key instance_id (head_sequence (rt_log rt1)) (rt_log rt2) (rt_tables rt2) = Ok T ∧
    agree (rt_tables rt1) T.
Proof.
  intros Hp Hv Hd1 Hd2. pose proof (created_moves _ _ _ _ _ _ _ _ Hp Hv Hd1) as Hs1.
  destruct (descends_moves _ _ Hd2 Hs1) as [Hs2 Hm]. pose proof Hm as [[es Hes] Hst _].
  assert (continues (rt_log rt2) (rt_log rt1) (rt_tables rt1)) as Hc.
  { pose proof (continues_self rt2 Hs2) as Hc. rewrite Hes in Hc at 2. by eapply continues_back. }
  destruct (sd_replays _ Hs1 _ (rt_tables rt2) Hc (wf_instance _ (sd_formed _ Hs2))) as (T & HT & HA).
  exists T. split; [|done]. unfold rebuild_projections_to, rebuild_projections_impl. rewrite formats_ok by apply Hs2. simpl.
  unfold live_rows. rewrite Hes at 2. rewrite fetched_prefix; [done|apply Hs1|].
  pose proof (sd_numbered _ Hs2) as Hn. rewrite Hes in Hn. apply Forall_lookup. intros i e He.
  rewrite (head_length _ (sd_numbered _ Hs1)), (Hn (length (rt_log rt1) + i) e); [lia|].
  rewrite lookup_app_r by lia. by replace (length (rt_log rt1) + i - length (rt_log rt1)) with i by lia.
Qed.

(** C4: in a history whose callers keep the conditions of [runtime_step] and [reserved]
    (names that are not empty, facts derived under no foreign event's key, completions that
    name the provider and the worker of their run, blocks that are pending, notes that a
    rebuild does not read, tracking keys used for nothing else), a restore to the head of an
    earlier state either refuses and changes nothing, or records its marker and leaves tables
    that agree with the tables of that state up to the columns [agree] leaves out; it never
    leaves a marker without the tables. *)
Theorem restore_goes_back program version principal authority input at_ started rt1 rt2 cut expected key :
  program ≠ "" → version ≠ "" → descends (created program version principal authority input at_ started) rt1 →
  descends rt1 rt2 → reserved (rt_log (restored cut expected key rt1 rt2)) →
  (∃ err, commit_restore instance_id draw (head_sequence (rt_log rt1)) cut expected key rt2 = (rt2, Err err)) ∨
  ∃ m T, commit_restore instance_id draw (head_sequence (rt_log rt1)) cut expected key rt2
           = (mkRuntime (rt_log rt2 ++ [m]) T, Ok (stored m)) ∧
    appended_marker cut (head_sequence (rt_log rt1)) (rt_log rt2) m ∧ agree (rt_tables rt1) T.
Proof.
  intros Hp Hv Hd1 Hd2 Hr. pose proof (created_moves _ _ _ _ _ _ _ _ Hp Hv Hd1) as Hs1.
  destruct (descends_moves _ _ Hd2 Hs1) as [Hs2 Hm]. by apply restore_spec.
Qed.

(** C20: in every state that an instance reaches through operations and restores under the
    conditions of [runtime_step] and [reserved], the log is numbered without gaps, no run has
    two leases, and every lease is that of a run that exists, of the effect the lease names,
    which exists too; the run of an active lease is running. *)
Theorem leases_hold_runs program version principal authority input at_ started rt :
  program ≠ "" → version ≠ "" → descends (created program version principal authority input at_ started) rt →
  numbered (rt_log rt) ∧
  (∀ id id' l l', t_leases (rt_tables rt) !! id = Some l → t_leases (rt_tables rt) !! id' = Some l' →
     le_run l = le_run l' → id = id') ∧
  (∀ id l, t_leases (rt_tables rt) !! id = Some l →
     ∃ r e, t_runs (rt_tables rt) !! le_run l = Some r ∧ ru_effect r = le_effect l ∧
       t_effects (rt_tables rt) !! le_effect l = Some e ∧ (le_status l = "active" → ru_status r = "running")).
Proof.
  intros Hp Hv Hd. pose proof (created_moves _ _ _ _ _ _ _ _ Hp Hv Hd) as Hs. pose proof (sd_formed _ Hs) as Hwf.
  split_and!; [apply Hs|apply Hwf|]. intros id l Hl.
  destruct (wf_leases _ Hwf id l Hl) as (_ & r & Hr & Heff & Hrun). destruct (wf_runs _ Hwf _ _ Hr) as [_ [e He]].
  rewrite Heff in He. eauto 10.
Qed.

End history.
