(* ===== verification/RuntimeGuard.v ===== *)
(** What the operations of the runtime store guarantee: what a run start has been checked
    against, that a finished run takes no second completion, and that a claimable effect can
    be started. *)
From S2P Require Import Prelude DependencyGraph ExecResolution EffectRecovery AttemptAdmission RuntimeTables ExecLifetime ExecOutcome RuntimePolicy RuntimeReplay RuntimeOps RuntimeErase RuntimeShape RuntimeFold RuntimeBatch RuntimeHistory.
Local Open Scope string_scope.

Section guard.
Context {V : Type} `{!EqDecision V, !RuntimeJson V, !RuntimeGates V}.
Context (instance_id : string) (draw : nat → Draw).
Implicit Types (T : Tables V) (log : list (Event V)) (rt : Runtime V).

Abbreviation start := (start_run instance_id draw).

(** ** A start that succeeds *)

(** Everything that a start has been checked against when a run begins. *)
Record begun (admission : RunAdmission) (s : RunStart V) rt rt' (st : Stored) : Prop := mkBegun {
  bg_running : from_option (λ x, bool_decide (x = "running")) true (instance_status_on (rt_tables rt)) = true;
  bg_policy : policy_block_on as_json registry (rt_tables rt) (rs_effect s) = None;
  bg_dependencies : existsb (unsatisfied (effect_store instance_id (rt_tables rt)) instance_id (rs_effect s)) (t_dependencies (rt_tables rt)) = false;
  bg_requests : has_open_request (rs_effect s) (rt_tables rt) = false;
  bg_capacity : capacity_block_on as_json registry (rt_tables rt) (rs_effect s) = None;
  bg_attempts : ∃ attempts, native_attempts instance_id (rt_log rt) (rs_effect s) = Ok attempts ∧
    (admission = Resumable ∧ is_Some (find_attempt (rs_run s) attempts) ∨ proved_absence attempts = Ok tt);
  bg_rows : ∃ record e, sr_effect record = rs_effect s ∧ sr_run record = rs_run s ∧ sr_lease record = rs_lease s ∧
    begin_run draw record rt = Ok (rt', e) ∧ st = stored e;
}.

(** A start that succeeds found its run, and leaves the store alone, or begins it. *)
Lemma start_inv selection admission s rt rt' st :
  start selection admission s rt = (rt', Ok st) →
  (is_Some (t_runs (rt_tables rt) !! rs_run s) ∧ rt' = rt) ∨ begun admission s rt rt' st.
Proof.
  unfold start_run, transaction'.
  match goal with |- (match ?b with Ok _ => _ | Err _ => _ end) = _ → _ => destruct b as [[rt1 a]|err] eqn:H; [|done] end.
  intros [= -> ->]. apply bind_ok in H as ([] & _ & H). apply bind_ok in H as ([] & _ & H). apply bind_ok in H as ([] & Hst & H).
  destruct (policy_block_on _ _ _ _) as [b|] eqn:Hpol; [by apply bind_ok in H as ([? ?] & _ & [=])|].
  apply bind_ok in H as ([] & Hdep%ensure_ok & H). apply bind_ok in H as ([] & Hreq%ensure_ok & H).
  destruct (if bool_decide _ then None else _) as [reason|] eqn:Hcap; [by apply bind_ok in H as ([? ?] & _ & [=])|].
  apply bind_ok in H as (attempts & Hat & H). apply bind_ok in H as ([] & Habs & H). apply bind_ok in H as (e & _ & H).
  destruct (bool_decide (is_Some (t_runs (rt_tables rt) !! rs_run s))) eqn:Hex.
  { apply bind_ok in H as (st' & _ & [= <- <-]). left. by apply bool_decide_eq_true in Hex. }
  apply bind_ok in H as ([rt1 e1] & H & [= <- <-]). right. apply negb_true_iff in Hdep, Hreq. split; try done.
  - destruct (instance_status_on _); [|done]. by apply ensure_ok in Hst.
  - exists attempts. split; [done|]. destruct admission; [|by right]. case_bool_decide; [by left|by right].
  - eexists _, e1. split_and!; [..|exact H|done]; done.
Qed.

(** ** Resubmission *)

(** An event of the kernel puts a run of the effect on record. *)
Definition on_record (effect run : string) (e : Event V) : Prop :=
  e_source e = "kernel" ∧
  match e_payload e with
  | PRunStarted r => sr_effect r = effect ∧ sr_run r = run
  | PEffectTerminal t => tr_effect t = effect ∧ default "" (tr_run t) = run
  | PLeaseExpired false _ run' effect' _ => effect' = effect ∧ run' = run
  | _ => False
  end.

(** What an event of the kernel says of the target of a run: evidence, recorded or brought by
    a reconciliation, or a proof that the run was never admitted. *)
Definition target_fate (effect run : string) (e : Event V) : option ExternalDisposition :=
  if bool_decide (e_source e = "kernel") then
    match e_payload e with
    | PDispositionRecorded v | PDispositionReconciled _ v _ =>
        if bool_decide (fr_effect (ev_frame v) = effect ∧ fr_run (ev_frame v) = run)
        then Some (match ev_disposition v with EvidenceApplied => Applied | EvidenceNotApplied => NotApplied end) else None
    | PFenceProved p =>
        match co_lifetime (pf_closure p) with
        | LNotAdmitted _ => if bool_decide (pf_effect p = effect ∧ pf_run p = run) then Some NotDispatched else None
        | _ => None
        end
    | _ => None
    end
  else None.

(** The kernel retained the executor's definite answer for a run. *)
Definition definite_answer (effect run : string) (e : Event V) : Prop :=
  e_source e = "kernel" ∧
  match e_payload e with
  | PSettlementRetained s => sl_effect s = effect ∧ sl_run s = run ∧ executor_state s ≠ Some "uncertain"
  | _ => False
  end.

(** The run is proved absent by what follows it in the log: one fate of its target, stated
    throughout, and not that it was applied; or no fate and the executor's definite answer. *)
Definition proved_absent (effect run : string) (post : list (Event V)) : Prop :=
  match omap (target_fate effect run) post with
  | [] => ∃ e, e ∈ post ∧ definite_answer effect run e
  | d :: ds => d ≠ Applied ∧ Forall (eq d) ds
  end.

(** Every run of the effect on record is proved absent by the events after its first one. *)
Definition all_absent (effect : string) log : Prop :=
  ∀ run pre e post, log = (pre ++ e :: post)%list → on_record effect run e → Forall (λ x, ¬ on_record effect run x) pre →
    proved_absent effect run post.

Lemma on_record_iff effect run e : mentioned_run effect (recovery_event_of e) = Some run ↔ on_record effect run e.
Proof.
  unfold mentioned_run, kernel_payload, on_record, recovery_event_of. simpl. case_bool_decide as Hk; [|naive_solver].
  destruct (e_payload e) as [| | | | | | |r|t| | | | | |[] lease run' effect' at_| | | | | | | | | | |]; try naive_solver;
    simpl; unfold run_or_empty; case_bool_decide; naive_solver.
Qed.

Lemma target_fate_eq effect run e : statement_of effect run (recovery_event_of e) = target_fate effect run e.
Proof.
  unfold statement_of, kernel_payload, target_fate, recovery_event_of. simpl. case_bool_decide; [|done].
  destruct (e_payload e) as [| | | | | | | | | | | | | |[]| | | | |p| | | |v|command v diagnosed|]; try done; simpl.
  - unfold not_admitted. destruct (co_lifetime (pf_closure p)); [done| |done]. by rewrite bool_decide_and.
  - rewrite bool_decide_and. by destruct (ev_disposition v).
  - rewrite bool_decide_and. by destruct (ev_disposition v).
Qed.

Lemma definite_answer_iff effect run e : answers effect run (recovery_event_of e) = true ↔ definite_answer effect run e.
Proof.
  unfold answers, kernel_payload, definite_answer, recovery_event_of. simpl. case_bool_decide as Hk; [|naive_solver].
  destruct (e_payload e) as [| | | | | | | | | | | | | |[]| | | | | | |s| | | |]; try naive_solver. simpl.
  rewrite !andb_true_iff, negb_true_iff, !bool_decide_eq_true, bool_decide_eq_false. unfold run_or_empty. naive_solver.
Qed.

Lemma proved_absent_iff effect run post : cleared effect run (recovery_event_of <$> post) ↔ proved_absent effect run post.
Proof.
  unfold cleared, proved_absent.
  assert (statements effect run (recovery_event_of <$> post) = omap (target_fate effect run) post) as ->.
  { clear. unfold statements. induction post as [|e post IH]; [done|]. simpl. rewrite target_fate_eq. destruct (target_fate effect run e); [f_equal|]; exact IH. }
  destruct (omap _ post); [|done]. setoid_rewrite list_elem_of_fmap. split.
  - intros (? & (e & -> & He) & Ha%definite_answer_iff). eauto.
  - intros (e & He & Ha%definite_answer_iff). eauto.
Qed.

(** The guard of a resubmission, over the log. *)
Lemma absent_iff effect log attempts :
  native_attempts instance_id log effect = Ok attempts → proved_absence attempts = Ok tt ↔ all_absent effect log.
Proof.
  unfold native_attempts. destruct (fold_attempts _ _ _) as [a|] eqn:Hfold; [|done]. intros [= ->].
  assert (proved_absence attempts = Ok tt ↔ require_proved_absence attempts = Ok tt) as ->.
  { unfold proved_absence. by destruct (require_proved_absence attempts) as [[]|]. }
  rewrite (absence_iff _ _ _ _ Hfold). unfold all_absent. split.
  - intros Hall run pre e post -> He Hpre. apply proved_absent_iff.
    apply (Hall run (recovery_event_of <$> pre) (recovery_event_of e)); [by rewrite fmap_app|by apply on_record_iff|].
    apply Forall_fmap. eapply Forall_impl; [exact Hpre|]. intros x Hx. simpl. by rewrite on_record_iff.
  - intros Hall run pre ev post Hlog Hm Hpre.
    apply fmap_app_inv in Hlog as (pre' & rest & -> & Hrest & ->). symmetry in Hrest.
    apply fmap_cons_inv in Hrest as (e & post' & -> & -> & ->).
    apply proved_absent_iff. apply (Hall run pre' e post'); [done|by apply on_record_iff|].
    apply Forall_forall. intros x Hx Hr%on_record_iff. rewrite Forall_forall in Hpre. apply (Hpre (recovery_event_of x)); [|done].
    apply list_elem_of_fmap. eauto.
Qed.

(** C7: a run begins only when every run of the effect that the log has on record is proved
    absent by what the log says after it: what the kernel recorded of its target, evidence
    recorded or reconciled and proofs that the run was never admitted, says one thing
    throughout and that is not that it was applied, or there is no such record and the
    executor gave a definite answer.  A start that may resume its run is covered when the
    log does not have that run on record. *)
Theorem no_blind_resubmission selection admission s rt rt' st :
  admission = FreshOnly ∨ Forall (λ e, ¬ on_record (rs_effect s) (rs_run s) e) (rt_log rt) →
  start selection admission s rt = (rt', Ok st) → rt_log rt' ≠ rt_log rt →
  all_absent (rs_effect s) (rt_log rt).
Proof.
  intros Hadm Hst Hnew. destruct (start_inv _ _ _ _ _ _ Hst) as [[_ ->]|Hb]; [done|].
  destruct (bg_attempts _ _ _ _ _ Hb) as (attempts & Hat & [[-> [a Ha]]|Habs]); [|by apply (absent_iff _ _ attempts)].
  exfalso. destruct Hadm as [[=]|Hnone]. unfold native_attempts in Hat.
  destruct (fold_attempts _ _ _) as [x|] eqn:Hfold; [|done]. injection Hat as ->.
  apply (attempt_iff _ _ _ _ Hfold) in Ha as (p & ev & q & opened & Hev & Ho & _).
  assert (ev ∈ recovery_event_of <$> rt_log rt) as (y & -> & Hy)%list_elem_of_fmap by (rewrite Hev; set_solver).
  rewrite Forall_forall in Hnone. apply (Hnone y Hy), on_record_iff. by eapply open_mentioned.
Qed.

(** ** Policy *)

(** no run of an [exec.command] effect that the gate covers begins unless a script
    capability is registered and bound for its program. *)
Theorem scripts_stay_off selection admission s rt rt' st e :
  start selection admission s rt = (rt', Ok st) → rt_log rt' ≠ rt_log rt →
  policy_effect as_json registry (rt_tables rt) (rs_effect s) = Some e →
  pe_kind e = "exec.command" → pe_status e ∈ gated_statuses →
  ∃ c, String.prefix "script." c = true ∧ capability_schema_exists registry c = true ∧ capability_bound registry (pe_program e) c = true.
Proof.
  intros Hst Hnew He Hk Hs. destruct (start_inv _ _ _ _ _ _ Hst) as [[_ ->]|Hb]; [done|].
  pose proof (bg_policy _ _ _ _ _ Hb) as Hp. unfold policy_block_on in Hp. rewrite He in Hp. by apply (script_gate registry e).
Qed.

(** ** Capacity *)

Lemma count_flip {R} (P : R → bool) (m : gmap string R) k r r' :
  m !! k = Some r → P r = false → P r' = true → count_rows P (<[k := r']> m) = S (count_rows P m).
Proof.
  intros Hk Hr Hr'. unfold count_rows. rewrite <- (insert_delete_id m k r Hk) at 2.
  rewrite <- insert_delete_eq, !map_to_list_insert by apply lookup_delete_eq.
  rewrite !filter_cons. simpl. by rewrite Hr, Hr', decide_True, decide_False by done.
Qed.

(** C21: a run of an agent's tell that begins leaves the agent within its declared capacity. *)
Theorem start_within_capacity selection admission s rt rt' st e agent capacity :
  start selection admission s rt = (rt', Ok st) → rt_log rt' ≠ rt_log rt →
  policy_effect as_json registry (rt_tables rt) (rs_effect s) = Some e →
  pe_kind e = "agent.tell" → pe_target e = Some agent → agent_capacity_in_value agent (pe_declared e) = Some capacity →
  running_tells (rt_tables rt') agent = S (running_tells (rt_tables rt) agent) ∧
  (Z.of_nat (running_tells (rt_tables rt') agent) ≤ capacity)%Z.
Proof.
  intros Hst Hnew He Hk Ht Hc. destruct (start_inv _ _ _ _ _ _ Hst) as [[_ ->]|Hb]; [done|].
  pose proof (bg_capacity _ _ _ _ _ Hb) as Hcap. unfold capacity_block_on in Hcap. rewrite He in Hcap. simpl in Hcap.
  rewrite Hk, Ht in Hcap. simpl in Hcap. rewrite Hc in Hcap. simpl in Hcap. destruct (capacity <=? _)%Z eqn:Hle in Hcap; [done|]. apply Z.leb_gt in Hle.
  cut (running_tells (rt_tables rt') agent = S (running_tells (rt_tables rt) agent)); [intros ->; split; [done|lia]|].
  destruct (bg_rows _ _ _ _ _ Hb) as (record & ev & Heff & _ & _ & H & _). unfold begin_run in H.
  apply bind_ok in H as ([log' e'] & _ & H). apply bind_ok in H as ([] & Hchg%ensure_ok & H).
  apply bind_ok in H as ([] & _ & H). apply bind_ok in H as ([] & _ & [= <- <-]).
  apply bool_decide_eq_true, update_effect_changed in Hchg as (row & Hrow & Hp). rewrite Heff in *.
  unfold running_tells. simpl. unfold update_where. rewrite Hrow, Hp. simpl.
  unfold policy_effect in He. rewrite Hrow in He. simpl in He. apply bind_Some in He as (i & _ & He). apply bind_Some in He as (v & _ & He).
  injection He as <-. simpl in Hk, Ht. eapply count_flip; [exact Hrow| |].
  - apply andb_false_iff. right. apply bool_decide_eq_false. intros Hrun. by rewrite Hrun in Hp.
  - simpl. by rewrite Hk, Ht, !bool_decide_eq_true_2.
Qed.

(** ** Completions *)

Definition later : relation (Runtime V) := rtc (λ a b, runtime_step instance_id draw a b ∧ reserved (rt_log b)).

Definition finished T (run : string) : Prop := ∃ r, t_runs T !! run = Some r ∧ ru_status r ≠ "running".

Lemma finished_later rt rt' run :
  sound instance_id rt → later rt rt' → finished (rt_tables rt) run → finished (rt_tables rt') run.
Proof.
  intros Hs Hl. induction Hl as [rt|rt rt1 rt2 [Hstep Hres] _ IH]; [done|]. intros (r & Hr & Hn).
  destruct (step_moves _ _ _ _ Hs Hstep Hres) as [Hs1 _]. apply IH; [done|].
  destruct (step_folds instance_id draw [] _ _ Hstep) as (es & _ & _ & Hwf).
  destruct (Hwf (sd_formed _ _ Hs)) as (_ & Hst & Hfresh & _).
  destruct (Hst run) as [[r1 Hr1] _]; [by eauto|]. exists r1. split; [done|]. intros Hrun.
  destruct (Hfresh run r1 Hr1) as [(r0 & Hr0 & H0)|[Hk _]].
  - rewrite Hr in Hr0. simplify_eq. auto.
  - destruct (sd_keyed _ _ Hs run) as [x Hx]; [by eauto|]. congruence.
Qed.

Lemma complete_refused c status facts cache rt :
  finished (rt_tables rt) (ec_run c) → ∃ err, complete_effect_terminal_on instance_id draw c status facts cache rt = Err err.
Proof.
  intros (r & Hr & Hn). unfold complete_effect_terminal_on. destruct (check_settlement _ _ _ _ _) as [[]|err]; simpl; [|eauto].
  destruct (projection_run_status _ _ _ _ _ _) as [status'|err]; simpl; [|eauto].
  destruct (append_event _ _ _ _ _ _ _) as [[log e]|err]; simpl; [|eauto].
  unfold update_where. rewrite Hr, (bool_decide_eq_false_2 (ru_status r = "running")), andb_false_r by done. simpl. eauto.
Qed.

(** C10: in a history whose callers keep the conditions of [runtime_step] and [reserved], a
    run that is finished stays finished through every later operation other than a restore
    (a restore to a state before its completion makes it running again,
    [restore_reopens_run]), and refuses every further completion and settlement: the tables
    stay as they are, and the log takes at most a record of the refusal. *)
Theorem finished_run_is_final program version principal authority input at_ started rt rt' c status facts cache :
  program ≠ "" → version ≠ "" → descends instance_id draw (created draw program version principal authority input at_ started) rt →
  finished (rt_tables rt) (ec_run c) → later rt rt' →
  (∃ err, complete_effect_settlement instance_id draw c facts cache rt' = (rt', Err err)) ∧
  let (rt'', answer) := complete_with instance_id draw status c rt' in
  (∃ err, answer = Err err) ∧ rt_tables rt'' = rt_tables rt' ∧
  (rt_log rt'' = rt_log rt' ∨ ∃ e reason, rt_log rt'' = (rt_log rt' ++ [e])%list ∧
     e_payload e = PTerminalRefused (ec_run c) (ec_effect c) status reason ∧ answer = Err (Conflict reason)).
Proof.
  intros Hp Hv Hd Hf Hl. pose proof (created_moves _ _ _ _ _ _ _ _ _ _ Hp Hv Hd) as Hs.
  pose proof (finished_later _ _ _ Hs Hl Hf) as Hfin. split.
  { destruct (complete_refused c (ec_status c) facts cache rt' Hfin) as [err Herr]. exists err.
    unfold complete_effect_settlement, transaction. by rewrite Herr. }
  destruct (complete_refused c status [] None rt' Hfin) as [err Herr].
  unfold complete_with, transaction. rewrite Herr. unfold record_terminal_refusal.
  destruct err; try (split_and!; [by eauto|done|by left]).
  destruct (append_event _ _ _ _ _ _ _) as [[log e]|] eqn:Happ; [|split_and!; [by eauto|done|by left]].
  apply append_spec in Happ as (-> & Hpay & _). split_and!; [by eauto|done|]. right. eauto.
Qed.

Lemma key_event_elem log k e : key_event log k = Some e → e ∈ log.
Proof.
  unfold key_event. destruct (list_find _ log) as [[i x]|] eqn:H; [|done]. intros [= <-].
  apply list_find_Some in H as [H _]. by eapply list_elem_of_lookup_2.
Qed.

(** ** Settlements *)

Lemma settle_facts_refs event_id facts log T log' T' : settle_facts draw event_id facts log T = Ok (log', T') → same_refs T T'.
Proof.
  revert log T. induction facts as [|[f key] facts IH]; intros log T H; simpl in H; [by injection H as _ <-|].
  apply bind_ok in H as ([[log1 T1] e] & Hd & H). apply bind_ok in H as ([] & _ & H). transitivity T1; [|by eapply IH].
  unfold derive_fact_on in Hd. destruct (from_option _ _ _) in Hd; [done|]. apply bind_ok in Hd as ([log2 e2] & _ & Hd).
  destruct (_ && _); [by injection Hd as _ <- _|]. destruct (active_revision_on T).
  apply bind_ok in Hd as (T2 & Hins & [= _ <- _]). by eapply insert_fact_refs.
Qed.

(** A completion leaves its run with the status that was projected. *)
Lemma completed_run c status facts cache rt rt' st :
  complete_effect_terminal_on instance_id draw c status facts cache rt = Ok (rt', st) →
  ∃ s, projection_run_status journal_key instance_id c status (bool_decide (is_Some cache)) (key_event (rt_log rt)) = Ok s ∧
    ru_status <$> t_runs (rt_tables rt') !! ec_run c = Some s.
Proof.
  intros H. unfold complete_effect_terminal_on in H. apply bind_ok in H as ([] & _ & H). apply bind_ok in H as (s & Hs & H).
  apply bind_ok in H as ([log1 e] & _ & H). apply bind_ok in H as ([] & Hc & H).
  apply bind_ok in H as ([log2 T2] & Hset & [= <- <-]). exists s. split; [done|]. simpl.
  unfold update_where in Hc, Hset. destruct (t_runs (rt_tables rt) !! ec_run c) as [r|] eqn:Hr; [|done].
  destruct (bool_decide (ru_effect r = ec_effect c) && _) eqn:Hb; [|done]. cbn [fst] in Hset.
  set (finish := finish_run s (e_at e) (ec_exit c) (ec_summary c) (ec_metadata c) r) in *.
  assert (same_refs (release_leases (ec_run c) (ec_effect c) (with_runs (<[ec_run c := finish]> (t_runs (rt_tables rt))) (rt_tables rt))) T2) as (_ & <- & _).
  { etrans; [|by eapply settle_facts_refs]. etrans; [|apply satisfy_refs]. etrans; [|apply mark_refs]. by apply update_effect_refs. }
  unfold release_leases. simpl. by rewrite lookup_insert_eq.
Qed.

(** C9: a settlement that refers to an outcome of the executor records what was observed.
    The outcome is on record for this effect and this run; a result is the response the
    broker returned; a run is called cancelled, timed out or failed without being executed
    only behind a proof that it was never admitted; and one that ended without a result is
    recorded as uncertain behind a proof that it ended. *)
Theorem settled_as_observed c facts cache rt rt' st reference :
  complete_effect_settlement instance_id draw c facts cache rt = (rt', Ok st) →
  member (ec_metadata c) "executor_outcome_event_id" = Some reference →
  ∃ row o s, row ∈ rt_log rt ∧ e_payload row = POutcomeObserved o ∧ e_source row = "kernel" ∧ as_text reference = Some (e_id row) ∧
    oc_effect o = ec_effect c ∧ oc_run o = ec_run c ∧
    ru_status <$> t_runs (rt_tables rt') !! ec_run c = Some s ∧ settled_as journal_key c s (oc_outcome o) (key_event (rt_log rt)).
Proof.
  intros H Href. unfold complete_effect_settlement, transaction in H.
  destruct (complete_effect_terminal_on _ _ _ _ _ _ _) as [[rt1 st1]|] eqn:Hc; [|done]. injection H as -> ->.
  apply completed_run in Hc as (s & Hs & Hrun). destruct (projection_spec journal_key instance_id c (ec_status c) _ _ s reference Href Hs) as (row & o & Hrow & H).
  exists row, o, s. apply key_event_elem in Hrow. naive_solver.
Qed.

(** ** Claims *)

(** Tables in which nothing changed but the blocks of pending effects. *)
Definition reblocked T T' : Prop := ∃ m, T' = with_effects m T ∧ erase_effect <$> t_effects T = erase_effect <$> m.

#[local] Instance reblocked_preorder : PreOrder reblocked.
Proof.
  split.
  - intros T. exists (t_effects T). by destruct T.
  - intros T1 T2 T3 (m & -> & Hm) (n & -> & Hn). exists n. simpl in Hn. by rewrite Hm.
Qed.

Lemma persist_reblocks effect b rt :
  pending (pb_status b) = true →
  let T' := rt_tables (persist_policy_block draw effect b rt).1 in
  reblocked (rt_tables rt) T' ∧ ∀ id, id ≠ effect → t_effects T' !! id = t_effects (rt_tables rt) !! id.
Proof.
  intros Hb. set (P := λ e : RtEffect V, (negb (bool_decide (re_status e = pb_status b)) ||
    negb (bool_decide (re_block_reason e = Some (pb_reason b)))) && pending (re_status e)).
  set (f := λ e : RtEffect V, set_block (Some (pb_reason b)) (re_block_category e) (set_status (pb_status b) e)).
  assert (rt_tables (persist_policy_block draw effect b rt).1 = (update_effect effect P f (rt_tables rt)).1) as ->.
  { unfold persist_policy_block. case_bool_decide; [|done]. by destruct (append_event_idempotent _ _ _ _ _ _ _) as [[? ?]|]. }
  split; [|intros id Hne; by apply update_effect_others].
  exists (update_where effect P f (t_effects (rt_tables rt))).1. split; [done|].
  refine (ag_effects _ _ (block_agree (rt_tables rt) effect P f _ _)).
  - by intros e [_ ?]%andb_true_iff.
  - intros e He. by apply block_erase.
Qed.

(** The gates read only the row of the effect, and how many tells of an agent run. *)
Lemma gates_same T T' effect :
  reblocked T T' → t_effects T' !! effect = t_effects T !! effect →
  policy_block_on as_json registry T' effect = policy_block_on as_json registry T effect ∧
  capacity_block_on as_json registry T' effect = capacity_block_on as_json registry T effect.
Proof.
  intros (m & -> & Hm) He.
  assert (policy_effect as_json registry (with_effects m T) effect = policy_effect as_json registry T effect) as Hpe.
  { unfold policy_effect. by rewrite He. }
  split; [unfold policy_block_on; by rewrite Hpe|]. unfold capacity_block_on. rewrite Hpe.
  destruct (policy_effect as_json registry T effect) as [e|]; [|done]. simpl. destruct (negb _); [done|].
  destruct (pe_target e) as [agent|]; [|done]. simpl. destruct (agent_capacity_in_value _ _) as [c|]; [|done]. simpl.
  assert (running_tells (with_effects m T) agent = running_tells T agent) as ->; [|done].
  unfold running_tells. simpl. symmetry. apply (same_count erase_effect); [|done]. intros r r' Hr.
  rewrite (effect_is "running" r r') by done. pose proof (f_equal re_kind Hr) as H1. pose proof (f_equal re_target Hr) as H2.
  simpl in H1, H2. by rewrite H1, H2.
Qed.

Lemma dependency_pending p s : pending s = true → dependency_satisfied p s = false.
Proof.
  intros Hs%pending_unsettled. unfold unsettled in Hs. apply negb_true_iff, bool_decide_eq_false in Hs.
  unfold dependency_satisfied. rewrite (bool_decide_eq_false_2 (s ∈ _)) by done.
  rewrite !(bool_decide_eq_false_2 (s = _)) by (intros ->; apply Hs; unfold settled_statuses; set_solver).
  by rewrite !andb_false_r.
Qed.

Lemma unsatisfied_same T T' effect :
  reblocked T T' →
  existsb (unsatisfied (effect_store instance_id T') instance_id effect) (t_dependencies T') =
  existsb (unsatisfied (effect_store instance_id T) instance_id effect) (t_dependencies T).
Proof.
  intros (m & -> & Hm). change (t_dependencies (with_effects m T)) with (t_dependencies T).
  induction (t_dependencies T) as [|d ds IH]; [done|]. simpl. rewrite IH. f_equal. unfold unsatisfied. f_equal. simpl. rewrite !lookup_fmap.
  pose proof (same_lookup erase_effect _ _ (upstream_effect_id d) Hm) as Hr.
  destruct (t_effects T !! upstream_effect_id d) as [e|], (m !! upstream_effect_id d) as [e'|]; try done. apply (inj Some) in Hr. simpl.
  f_equal. f_equal. pose proof (effect_pending e e' Hr) as Hp. destruct (pending (re_status e)) eqn:Hpe.
  - by rewrite !dependency_pending.
  - by rewrite (effect_settled e e').
Qed.

(** What the pass over the candidates leaves, and what it hands out. *)
Lemma claim_each_spec admissions candidates rt rt' l :
  NoDup candidates.*1 → claim_each draw admissions candidates rt = (rt', Ok l) →
  reblocked (rt_tables rt) (rt_tables rt') ∧
  (∀ id, id ∉ candidates.*1 → t_effects (rt_tables rt') !! id = t_effects (rt_tables rt) !! id) ∧
  ∀ x, x ∈ l → (cl_effect x, cl_row x) ∈ candidates ∧
    t_effects (rt_tables rt') !! cl_effect x = t_effects (rt_tables rt) !! cl_effect x ∧
    policy_block_on as_json registry (rt_tables rt') (cl_effect x) = None ∧
    capacity_block_on as_json registry (rt_tables rt') (cl_effect x) = None.
Proof.
  revert rt l. induction candidates as [|[effect row] candidates IH]; intros rt l; simpl.
  { intros _ [= <- <-]. split_and!; [done..|]. by intros x ?%elem_of_nil. }
  rewrite NoDup_cons. intros [Hne Hnd]. destruct (policy_block_on _ _ _ _) as [b|] eqn:Hb.
  - pose proof (persist_reblocks effect b rt (policy_block_pending _ _ _ _ _ Hb)) as [Hre Hoth].
    destruct (persist_policy_block _ _ _ _) as [rt1 [u|err]]; [|done]. intros H.
    destruct (IH rt1 l Hnd H) as (Hre' & Hoth' & Hl). split_and!; [by etrans| |].
    + intros id [Hid1 Hid2]%not_elem_of_cons. rewrite Hoth' by done. by apply Hoth.
    + intros x Hx. destruct (Hl x Hx) as (Hin & Hrow & Hg). split_and!; [by right| |apply Hg..]. rewrite Hrow. apply Hoth.
      intros Heq. apply Hne. rewrite <- Heq. apply list_elem_of_fmap. by exists (cl_effect x, cl_row x).
  - destruct (claim_each _ _ candidates rt) as [rt1 rest] eqn:Hrest. intros [= -> H].
    assert (∃ l0, rest = Ok l0 ∧ (l = l0 ∨ capacity_block_on as_json registry (rt_tables rt) effect = None ∧
      l = mkClaimable effect row (admissions !! effect) :: l0)) as (l0 & -> & Hl0).
    { destruct (capacity_block_on _ _ _ _); [by exists l; auto|]. apply bind_ok in H as (l0 & -> & [= <-]). eauto. }
    destruct (IH rt l0 Hnd Hrest) as (Hre & Hoth & Hl). split_and!; [done|set_solver|].
    assert (∀ x, x ∈ l0 → (cl_effect x, cl_row x) ∈ (effect, row) :: candidates ∧
      t_effects (rt_tables rt') !! cl_effect x = t_effects (rt_tables rt) !! cl_effect x ∧
      policy_block_on as_json registry (rt_tables rt') (cl_effect x) = None ∧
      capacity_block_on as_json registry (rt_tables rt') (cl_effect x) = None) as Hold.
    { intros x Hx. destruct (Hl x Hx) as (? & ? & ? & ?). split_and!; [by right|done..]. }
    destruct Hl0 as [->|[Hcap ->]]; [exact Hold|]. intros x [->|Hx]%elem_of_cons; [|by apply Hold]. simpl.
    destruct (gates_same _ _ effect Hre (Hoth effect Hne)) as [-> ->]. split_and!; [by left|by apply Hoth|done..].
Qed.

(** The names of a start are new: no run, no lease, no event of the log has them. *)
Record fresh_start (s : RunStart V) rt : Prop := mkFresh {
  fr_new_run : t_runs (rt_tables rt) !! rs_run s = None;
  fr_new_lease : t_leases (rt_tables rt) !! rs_lease s = None;
  fr_new_key : key_event (rt_log rt) (rs_run s) = None;
  fr_new_id : Forall (λ e, e_id e ≠ dr_id (draw (length (rt_log rt)))) (rt_log rt);
}.

Lemma append_fresh payload source causation correlation k log :
  Forall (λ e : Event V, e_id e ≠ dr_id (draw (length log))) log → key_event log k = None →
  ∃ log' e, append_event draw payload source causation correlation (Some k) log = Ok (log', e).
Proof.
  intros Hid Hk. unfold append_event. destruct (existsb _ log) eqn:Hx.
  - apply existsb_elem in Hx as (e & He & Heq%bool_decide_eq_true). rewrite Forall_forall in Hid. by destruct (Hid e He).
  - simpl. rewrite Hk, bool_decide_eq_false_2 by apply is_Some_None. eauto.
Qed.

Lemma begin_run_ok record rt row :
  t_effects (rt_tables rt) !! sr_effect record = Some row → pending (re_status row) = true →
  t_runs (rt_tables rt) !! sr_run record = None → t_leases (rt_tables rt) !! sr_lease record = None →
  key_event (rt_log rt) (sr_run record) = None → Forall (λ e, e_id e ≠ dr_id (draw (length (rt_log rt)))) (rt_log rt) →
  ∃ rt' e, begin_run draw record rt = Ok (rt', e) ∧
    (∃ r, t_runs (rt_tables rt') !! sr_run record = Some r ∧ ru_effect r = sr_effect record ∧ ru_status r = "running") ∧
    re_status <$> t_effects (rt_tables rt') !! sr_effect record = Some "running".
Proof.
  intros Hrow Hp Hr Hl Hk Hid. unfold begin_run.
  destruct (append_fresh (PRunStarted record) "kernel" (Some (sr_effect record)) None (sr_run record) (rt_log rt) Hid Hk) as (log & e & ->).
  simpl. unfold update_effect, update_where. rewrite Hrow, Hp. simpl. rewrite Hr, Hl. simpl. eexists _, e. split; [done|]. simpl. split.
  - eexists. by rewrite lookup_insert_eq.
  - by rewrite lookup_insert_eq.
Qed.

(** C19: an effect that a worker pass hands out, and that is not running already, can be
    started in the state the pass leaves, under new names, when the attempts of the effect
    fold from the log and every run on record is proved absent by what the log says after it
    (evidence recorded or reconciled, proofs, definite answers): neither the instance, nor
    the policy, nor the dependencies, nor a cancellation, nor the capacity refuses it. *)
Theorem claimable_can_start rt rt' l x s attempts :
  claimable_effects instance_id draw rt = (rt', Ok l) → x ∈ l → re_status (cl_row x) ≠ "running" → rs_effect s = cl_effect x →
  fresh_start s rt' → native_attempts instance_id (rt_log rt') (rs_effect s) = Ok attempts → all_absent (rs_effect s) (rt_log rt') →
  ∃ rt'' st, start None FreshOnly s rt' = (rt'', Ok st) ∧
    (∃ r, t_runs (rt_tables rt'') !! rs_run s = Some r ∧ ru_effect r = rs_effect s ∧ ru_status r = "running") ∧
    re_status <$> t_effects (rt_tables rt'') !! rs_effect s = Some "running".
Proof.
  intros H Hx Hnr Hs [Hrun Hlease Hkey Hid] Hat Habs%(absent_iff _ _ _ Hat). unfold claimable_effects in H.
  destruct (from_option _ _ _) eqn:Hst in H; [injection H as <- <-; by apply elem_of_nil in Hx|].
  destruct (selections _) as [admissions|]; [|done].
  assert (NoDup (claim_candidates instance_id (rt_log rt) (rt_tables rt)).*1) as Hnd.
  { unfold claim_candidates. eapply sublist_NoDup; [|apply fmap_sublist, sublist_filter]. rewrite merge_sort_Permutation.
    eapply sublist_NoDup; [|apply fmap_sublist, sublist_filter]. apply NoDup_fst_map_to_list. }
  destruct (claim_each_spec _ _ _ _ _ Hnd H) as (Hre & _ & Hl). destruct (Hl x Hx) as (Hin & Hrow & Hpol & Hcap).
  unfold claim_candidates in Hin. apply list_elem_of_filter in Hin as [_ Hin]. rewrite merge_sort_Permutation in Hin.
  apply list_elem_of_filter in Hin as [Hc Hin%elem_of_map_to_list]. rewrite Hin in Hrow.
  unfold claim_candidate in Hc. rewrite !andb_true_iff, orb_true_iff, andb_true_iff, !bool_decide_eq_true in Hc. simpl in Hc.
  destruct Hc as [[[_ [Hp|[_ ?]]] Hreq] Hdep]; [|done]. apply negb_true_iff in Hreq, Hdep.
  pose proof (unsatisfied_same _ _ (cl_effect x) Hre) as Hun. rewrite Hdep in Hun.
  assert (has_open_request (cl_effect x) (rt_tables rt') = false ∧ instance_status_on (rt_tables rt') = instance_status_on (rt_tables rt)) as [Hreq' Hst'].
  { by destruct Hre as (m & -> & _). }
  rewrite <- Hs in *. unfold start_run. rewrite Hrun. simpl. rewrite Hst', Hpol, Hun, Hreq', Hcap, Hat. simpl. rewrite Habs. simpl. rewrite Hrow. simpl.
  set (record := mkRunRecord _ _ _ _ _ _ _ _).
  destruct (begin_run_ok record rt' (cl_row x)) as (rt'' & e & Hb & Hr & He); [done..|].
  exists rt'', (stored e). split; [|done]. rewrite Hb.
  destruct (instance_status_on (rt_tables rt)) as [st|]; [|done]. simpl in Hst. apply negb_false_iff in Hst. by rewrite Hst.
Qed.

(** ** Trying again *)

(** C8: an effect is queued again only when every run of it that the runs table holds and the
    log tracks is closed: the kernel holds a proof for that run, whose lifetime evidence is
    conclusive and whose placement carries the invocation that was tracked.  A terminal
    status of the effect alone is not enough, since it does not end the process of the
    execution.  A run that a restore dropped from the table is not asked about
    ([dropped_run_not_rechecked]). *)
Theorem retry_waits_for_closure effect after terminal_event key rt rt' st run r e t :
  retry_effect instance_id draw effect after terminal_event key rt = (rt', Ok st) → rt_log rt' ≠ rt_log rt →
  t_runs (rt_tables rt) !! run = Some r → ru_effect r = effect →
  e ∈ rt_log rt → e_payload e = PTracked t → tk_run t = run →
  ∃ tracking held t' p, tracking ∈ rt_log rt ∧ held ∈ rt_log rt ∧ closed_run instance_id effect run tracking held t' p.
Proof.
  intros H Hnew Hr Heff He Hp Ht. unfold retry_effect, transaction in H.
  destruct (_ ≫= _) as [[rt1 st1]|] eqn:Hb in H; [|done]. injection H as <- <-.
  apply bind_ok in Hb as (attempts & _ & Hb). apply bind_ok in Hb as ([] & _ & Hb).
  destruct (key ≫= key_event (rt_log rt)) as [e0|]; [by destruct (_ && _ && _); simplify_eq|].
  apply bind_ok in Hb as ([] & _ & Hb). apply bind_ok in Hb as ([] & Hc & _).
  unfold verify_retry_closure in Hc. rewrite check_all_ok in Hc.
  assert ((run, true) ∈ retry_runs effect (rt_log rt) (rt_tables rt)) as Hin.
  { apply list_elem_of_fmap. exists (run, r). split.
    - simpl. f_equal. symmetry. apply existsb_exists. exists e. rewrite <- list_elem_of_In, Hp. split; [done|by apply bool_decide_eq_true].
    - apply list_elem_of_filter. split; [done|by apply elem_of_map_to_list]. }
  destruct (run_closure_spec _ _ _ _ _ _ (Hc _ Hin)) as [[[=] _]|(tracking & held & t' & p & H1 & H2 & H3)].
  exists tracking, held, t', p. eauto using key_event_elem.
Qed.

End guard.
