(* ===== verification/RuntimeExamples.v ===== *)
(** A small instance of the runtime store: an agent with a capacity of one and a script,
    on which the theorems about histories and operations are applied. *)
From S2P Require Import Prelude DependencyGraph ExecResolution EffectRecovery AttemptAdmission RuntimeTables ExecLifetime ExecOutcome RuntimePolicy RuntimeReplay RuntimeOps RuntimeErase RuntimeShape RuntimeFold RuntimeBatch RuntimeHistory RuntimeGuard.
Local Open Scope string_scope.

(** ** The instance *)

Definition example_registry : Registry :=
  mkRegistry {["v1" := mkVersion "p" (JObject [("agents", JArray [JObject [("name", JString "scout"); ("capacity", JInt 1)]])])]}
    ["agent.tell"] ["agent.tell"; "script.raw"] [("agent.tell", None); ("script.raw", Some "p")] ∅.

#[local] Instance example_gates : RuntimeGates json := {|
  as_json v := v; registry := example_registry; metadata_key k := k; payload_digest _ := "d";
  input_fingerprint _ := "in"; execution_fingerprint _ _ _ := "ex"; admission_binding _ := None; inject_fingerprint m _ := m;
  revision_check _ _ _ := Ok tt; file_manifest_check _ := Ok tt; log_digest _ := "head";
  journal_key kind run := kind ++ ":" ++ run; wake_key run _ := "wake:" ++ run; render _ := ""; sha256_hex _ := "digest";
|}.

Definition example_draw (n : nat) : Draw := mkDraw ("event-" ++ decimal n) "now".

Definition example_effect (id kind : string) (target : option string) : NewEffect json :=
  mkNewEffect id kind target JNull "queued" ("key-" ++ id) (JArray []) None None None None.

Definition example_commit : RuleCommit json :=
  mkCommit "rule" None [mkNewFact "f1" "note" "k1" JNull None "rule" None None None] []
    [example_effect "e1" "agent.tell" (Some "scout"); example_effect "e2" "exec.command" None;
     example_effect "e3" "agent.tell" (Some "scout")] [] None (Some "commit-1") ["begin"] None.

Definition example_start (effect run provider worker : string) : RunStart json :=
  mkRunStart effect run provider worker ("lease-" ++ run) "later" JNull.

Definition example_completion (effect run status : string) : EffectCompletion json :=
  mkCompletion effect run "native" "w" status None None JNull None.

(** The request of an execution and the closure of a run that was never admitted. *)
Definition example_invocation (effect run : string) : json :=
  JObject [("protocol", JString "whipplescript.exec.invocation/v1"); ("run_id", JString run);
    ("invocation", JObject [("instance_id", JString "i"); ("effect_id", JString effect)])].
Definition example_exec_start (effect run : string) : RunStart json :=
  mkRunStart effect run "exec" "whip-exec" ("lease-" ++ run) "later"
    (JObject [("executor_url", JString "http://executor"); ("executor_invocation", example_invocation effect run);
      ("executor_dispatch", JObject [("protocol", JString "whipplescript.exec.dispatch/v1"); ("input_sha256", JString "digest");
        ("request_body_sha256", JString "digest"); ("request_sha256", JString "digest")])]).
Definition example_tracking (effect run : string) : Tracking json :=
  mkTracking effect run JNull (example_invocation effect run) "http://executor".
Definition example_closure (effect run : string) : Closure json :=
  mkClosure (JObject [("protocol", JString "whipplescript.exec.placement/v2"); ("envelope", example_invocation effect run);
      ("selected", JObject [("instance_id", JString "i"); ("effect_id", JString effect)]);
      ("container_id", JString "c"); ("dispatch_id", JString "d")]) (LNotAdmitted "fence").

(** Creation, a commit, a start, its completion, the start of a script with its tracking,
    and a restore to the state after the first start. *)
Definition r0 : Runtime json := created example_draw "p" "v1" "who" "auth" "input" "now" None.
Definition r1 : Runtime json := (commit_rule "i" example_draw None example_commit r0).1.
Definition r2 : Runtime json := (start_run "i" example_draw None FreshOnly (example_start "e1" "run1" "native" "w") r1).1.
Definition r3 : Runtime json := (complete_with "i" example_draw "completed" (example_completion "e1" "run1" "completed") r2).1.
Definition r4 : Runtime json := (start_run "i" example_draw None FreshOnly (example_exec_start "e2" "run2") r3).1.
Definition r5 : Runtime json := (track_exec_lifetime "i" example_draw (example_tracking "e2" "run2") r4).1.
Definition r6 : Runtime json := (commit_restore "i" example_draw (head_sequence (rt_log r2)) "cut" "head" None r5).1.

(** The tracking keys of a log, checked. *)
Definition reserved_check (log : list (Event json)) : bool :=
  forallb (λ e, match e_key e with
    | Some k => if String.prefix (EVENT_TYPE ++ ":") k
                then match e_payload e with PTracked t => bool_decide (k = EVENT_TYPE ++ ":" ++ tk_run t) | _ => false end else true
    | None => true end) log.

Lemma prefix_app p s : String.prefix p (p ++ s) = true.
Proof. induction p as [|c p IH]; simpl; [by destruct s|]. by destruct (Ascii.ascii_dec c c). Qed.

Lemma reserved_ok log : reserved_check log = true → reserved log.
Proof.
  unfold reserved_check. rewrite forallb_forall. intros H e run He Hk. specialize (H e). rewrite Hk in H.
  rewrite <- list_elem_of_In in H. specialize (H He).
  assert (tracking_key run = (EVENT_TYPE ++ ":") ++ run) as Heq by done. rewrite Heq, prefix_app in H.
  destruct (e_payload e) as [| | | | | | | | | | | | | | | | |t| | | | | | | |]; try done. exists t. split; [done|].
  apply bool_decide_eq_true in H. change (EVENT_TYPE ++ ":" ++ tk_run t) with ((EVENT_TYPE ++ ":") ++ tk_run t) in H.
  by apply (inj (String.append (EVENT_TYPE ++ ":"))) in H.
Qed.

Lemma r2_descends : descends "i" example_draw r0 r2.
Proof.
  apply (descends_step _ _ _ r1).
  - apply (descends_step _ _ _ r0); [apply descends_refl|apply step_commit; repeat constructor; done|apply reserved_ok; vm_compute; reflexivity].
  - by apply step_start.
  - apply reserved_ok; vm_compute; reflexivity.
Qed.

Lemma r3_step : runtime_step "i" example_draw r2 r3.
Proof.
  apply step_complete. intros r. vm_compute. by intros [= <-].
Qed.

Lemma r3_descends : descends "i" example_draw r2 r3.
Proof. apply (descends_step _ _ _ r2); [apply descends_refl|apply r3_step|apply reserved_ok; vm_compute; reflexivity]. Qed.

Lemma r4_step : runtime_step "i" example_draw r3 r4.
Proof. by apply step_start. Qed.

Lemma r5_descends : descends "i" example_draw r2 r5.
Proof.
  apply (descends_step _ _ _ r4); [|apply step_track|apply reserved_ok; vm_compute; reflexivity].
  apply (descends_step _ _ _ r3); [apply r3_descends|apply r4_step|apply reserved_ok; vm_compute; reflexivity].
Qed.

Lemma r5_reached : descends "i" example_draw r0 r5.
Proof.
  apply (descends_step _ _ _ r4); [|apply step_track|apply reserved_ok; vm_compute; reflexivity].
  apply (descends_step _ _ _ r3); [|apply r4_step|apply reserved_ok; vm_compute; reflexivity].
  apply (descends_step _ _ _ r2); [apply r2_descends|apply r3_step|apply reserved_ok; vm_compute; reflexivity].
Qed.

Lemma r6_descends : descends "i" example_draw r0 r6.
Proof. eapply (descends_restore _ _ _ r2 r5); [apply r2_descends|apply r5_descends|apply reserved_ok; vm_compute; reflexivity]. Qed.

(** ** The theorems at work *)

Lemma rebuild_agrees_witness :
  ∃ T, rebuild_projections tracking_key "i" (rt_log r6) (rt_tables r6) = Ok T ∧ agree (rt_tables r6) T.
Proof. apply (rebuild_agrees "i" example_draw "p" "v1" "who" "auth" "input" "now" None r6); [done..|apply r6_descends]. Defined.

Lemma rebuild_to_agrees_witness :
  ∃ T, rebuild_projections_to tracking_key "i" (head_sequence (rt_log r2)) (rt_log r5) (rt_tables r5) = Ok T ∧ agree (rt_tables r2) T.
Proof.
  apply (rebuild_to_agrees "i" example_draw "p" "v1" "who" "auth" "input" "now" None r2 r5); [done..|apply r2_descends|apply r5_descends].
Defined.

Lemma restore_goes_back_witness :
  (∃ err, commit_restore "i" example_draw (head_sequence (rt_log r2)) "cut" "head" None r5 = (r5, Err err)) ∨
  ∃ m T, commit_restore "i" example_draw (head_sequence (rt_log r2)) "cut" "head" None r5
           = (mkRuntime (rt_log r5 ++ [m]) T, Ok (stored m)) ∧
    appended_marker "cut" (head_sequence (rt_log r2)) (rt_log r5) m ∧ agree (rt_tables r2) T.
Proof.
  apply (restore_goes_back "i" example_draw "p" "v1" "who" "auth" "input" "now" None r2 r5);
    [done..|apply r2_descends|apply r5_descends|apply reserved_ok; vm_compute; reflexivity].
Defined.

Lemma leases_hold_runs_witness :
  numbered (rt_log r5) ∧
  (∀ id id' l l', t_leases (rt_tables r5) !! id = Some l → t_leases (rt_tables r5) !! id' = Some l' → le_run l = le_run l' → id = id') ∧
  (t_leases (rt_tables r5) !! "lease-run1" = Some (mkLease "run1" "e1" "w" "released" "later") ∧
   t_leases (rt_tables r5) !! "lease-run2" = Some (mkLease "run2" "e2" "whip-exec" "active" "later") ∧
   ∃ r e, t_runs (rt_tables r5) !! "run2" = Some r ∧ ru_effect r = "e2" ∧ t_effects (rt_tables r5) !! "e2" = Some e ∧ ru_status r = "running").
Proof.
  destruct (leases_hold_runs "i" example_draw "p" "v1" "who" "auth" "input" "now" None r5) as (Hn & Hone & Hall); [done..|apply r5_reached|].
  split_and!; [exact Hn|exact Hone|vm_compute; reflexivity|vm_compute; reflexivity|].
  destruct (Hall "lease-run2" (mkLease "run2" "e2" "whip-exec" "active" "later")) as (r & e & Hr & He & Hx & Ha); [vm_compute; reflexivity|].
  exists r, e. split_and!; [done..|by apply Ha].
Defined.

(** A tracked script that failed, was fenced and proved not admitted, and is tried again. *)
Definition s2 : Runtime json := (start_run "i" example_draw None FreshOnly (example_exec_start "e2" "run1") r1).1.
Definition s3 : Runtime json := (complete_with "i" example_draw "failed"
  (mkCompletion "e2" "run1" "exec" "whip-exec" "failed" None None JNull None)
  (track_exec_lifetime "i" example_draw (example_tracking "e2" "run1") s2).1).1.
Definition s4 : Runtime json := (retain_exec_fence_proof "i" example_draw "run1" (example_closure "e2" "run1")
  (ensure_exec_fence "i" example_draw FenceRetry "run1" s3).1).1.
Definition s5 : Runtime json := (retry_effect "i" example_draw "e2" None None None s4).1.
Definition s6 : Runtime json := (start_run "i" example_draw None FreshOnly (example_exec_start "e2" "run2") s5).1.

(** Without the closure, the retry is refused. *)
Lemma unclosed_not_retried :
  (verify_retry_closure journal_key "i" "e2" (retry_runs "e2" (rt_log s3) (rt_tables s3)) (key_event (rt_log s3)))
  = Err (Conflict "executor retry requires retained fence intent").
Proof. vm_compute; reflexivity. Qed.

Lemma retry_waits_for_closure_witness :
  ∃ tracking held t' p, tracking ∈ rt_log s4 ∧ held ∈ rt_log s4 ∧ closed_run "i" "e2" "run1" tracking held t' p.
Proof.
  apply (retry_waits_for_closure "i" example_draw "e2" None None None s4 s5 (mkStoredEvent "event-8" 9) "run1"
    (mkRun "e2" "exec" "whip-exec" "failed" JNull "now" (Some "now") None None)
    (mkEvent "event-4" 5 (PTracked (example_tracking "e2" "run1")) "now" "kernel" (Some "run1") None
      (Some "exec.lifetime.tracked:run1") (Some 2%Z)) (example_tracking "e2" "run1"));
    [vm_compute; reflexivity|vm_compute; intros [=]|vm_compute; reflexivity|reflexivity|vm_compute; repeat constructor|reflexivity|reflexivity].
Defined.

Lemma no_blind_resubmission_witness :
  on_record "e2" "run1" (nth 3 (rt_log s5) (mkEvent "" 0 (POther "" JNull) "" "" None None None None)) ∧
  proved_absent "e2" "run1" (drop 4 (rt_log s5)).
Proof.
  assert (on_record "e2" "run1" (nth 3 (rt_log s5) (mkEvent "" 0 (POther "" JNull) "" "" None None None None))) as Hrec by by vm_compute.
  split; [exact Hrec|].
  apply (no_blind_resubmission "i" example_draw None FreshOnly (example_exec_start "e2" "run2") s5 s6 (mkStoredEvent "event-9" 10)
    ltac:(by left) ltac:(vm_compute; reflexivity) ltac:(vm_compute; intros [=])
    "run1" (take 3 (rt_log s5)) (nth 3 (rt_log s5) (mkEvent "" 0 (POther "" JNull) "" "" None None None None)));
    [vm_compute; reflexivity|exact Hrec|].
  vm_compute. repeat constructor; by intros [].
Defined.

(** Evidence that a reconciliation brings for the run of a failed script: that it was not
    applied lets the effect be tried again, and that it was applied refuses it. *)
Definition s7 : Runtime json := (complete_with "i" example_draw "failed"
  (mkCompletion "e2" "run1" "exec" "whip-exec" "failed" None None JNull None) s2).1.

Definition reconciled (disposition : EvidenceDisposition) : option (Runtime json) :=
  frame ← head (omap (λ e, match e_payload e with PRunStarted r => Some (mk_frame (sr_dispatch r)) | _ => None end) (rt_log s7));
  match append_event example_draw (PDispositionReconciled JNull (mkEvidence frame disposition "ref" "digest" "auth") false)
    "kernel" (Some "run1") None (Some "reconcile") (rt_log s7) with
  | Ok (log, _) => Some (mkRuntime log (rt_tables s7))
  | Err _ => None
  end.

Lemma reconciliation_heard :
  let retried rt := (retry_effect "i" example_draw "e2" None None None rt).2 in
  let refused := Err (RecoveryRefused (RecoveryConflict "external outcome does not prove safe resubmission")) in
  retried s7 = refused ∧ retried <$> reconciled EvidenceApplied = Some refused ∧
  retried <$> reconciled EvidenceNotApplied = Some (Ok (mkStoredEvent "event-6" 7)).
Proof. split_and!; vm_compute; reflexivity. Qed.

(** A tracked script that was cancelled before the provider admitted it. *)
Definition w4 : Runtime json :=
  (retain_exec_outcome "i" example_draw "run1" (co_placement (example_closure "e2" "run1")) OutcomeNotExecuted
    (retain_exec_fence_proof "i" example_draw "run1" (example_closure "e2" "run1")
      (ensure_exec_fence "i" example_draw FenceCancellation "run1"
        (track_exec_lifetime "i" example_draw (example_tracking "e2" "run1") s2).1).1).1).1.
Definition cancelled_completion : EffectCompletion json :=
  mkCompletion "e2" "run1" "exec" "whip-exec" "cancelled" None None (JObject [("executor_outcome_event_id", JString "event-7")]) None.
Definition w5 : Runtime json := (complete_effect_settlement "i" example_draw cancelled_completion [] None w4).1.

Lemma settled_as_observed_witness :
  ∃ row o s, row ∈ rt_log w4 ∧ e_payload row = POutcomeObserved o ∧ e_source row = "kernel" ∧ as_text (JString "event-7") = Some (e_id row) ∧
    oc_effect o = ec_effect cancelled_completion ∧ oc_run o = ec_run cancelled_completion ∧
    ru_status <$> t_runs (rt_tables w5) !! ec_run cancelled_completion = Some s ∧ settled_as journal_key cancelled_completion s (oc_outcome o) (key_event (rt_log w4)).
Proof.
  apply (settled_as_observed "i" example_draw cancelled_completion [] None w4 w5 (mkStoredEvent "event-8" 9) (JString "event-7"));
    [vm_compute; reflexivity|reflexivity].
Defined.

(** The same completion, told as a failure, is refused. *)
Lemma misreported_settlement_refused :
  (complete_effect_settlement "i" example_draw
    (mkCompletion "e2" "run1" "exec" "whip-exec" "failed" None None (ec_metadata cancelled_completion) None) [] None w4).2
  = Err (Conflict "exec settlement status contradicts its observed outcome").
Proof. vm_compute; reflexivity. Qed.

Lemma scripts_stay_off_witness :
  ∃ c, String.prefix "script." c = true ∧ capability_schema_exists registry c = true ∧ capability_bound registry "p" c = true.
Proof.
  apply (scripts_stay_off "i" example_draw None FreshOnly (example_exec_start "e2" "run1") r1 s2
    (mkStoredEvent "event-3" 4) (mkPolicyEffect "exec.command" None "queued" (JArray []) None "p"
      (JObject [("agents", JArray [JObject [("name", JString "scout"); ("capacity", JInt 1)]])])));
    [vm_compute; reflexivity|vm_compute; intros [=]|vm_compute; reflexivity|reflexivity|].
  unfold gated_statuses. simpl. left.
Defined.

Lemma start_within_capacity_witness :
  running_tells (rt_tables r2) "scout" = S (running_tells (rt_tables r1) "scout") ∧
  (Z.of_nat (running_tells (rt_tables r2) "scout") ≤ 1)%Z.
Proof.
  apply (start_within_capacity "i" example_draw None FreshOnly (example_start "e1" "run1" "native" "w") r1 r2
    (mkStoredEvent "event-3" 4) (mkPolicyEffect "agent.tell" (Some "scout") "queued" (JArray []) None "p"
      (JObject [("agents", JArray [JObject [("name", JString "scout"); ("capacity", JInt 1)]])])) "scout" 1);
    [vm_compute; reflexivity|vm_compute; intros [=]|vm_compute; reflexivity|reflexivity|reflexivity|vm_compute; reflexivity].
Defined.

Lemma finished_run_is_final_witness :
  (∃ err, complete_effect_settlement "i" example_draw (example_completion "e1" "run1" "failed") [] None r4 = (r4, Err err)) ∧
  let (rt'', answer) := complete_with "i" example_draw "failed" (example_completion "e1" "run1" "failed") r4 in
  (∃ err, answer = Err err) ∧ rt_tables rt'' = rt_tables r4 ∧
  (rt_log rt'' = rt_log r4 ∨ ∃ e reason, rt_log rt'' = (rt_log r4 ++ [e])%list ∧
     e_payload e = PTerminalRefused "run1" "e1" "failed" reason ∧ answer = Err (Conflict reason)).
Proof.
  apply (finished_run_is_final "i" example_draw "p" "v1" "who" "auth" "input" "now" None r3 r4
    (example_completion "e1" "run1" "failed") "failed" [] None).
  - done.
  - done.
  - apply (descends_step _ _ _ r2); [apply r2_descends|apply r3_step|apply reserved_ok; vm_compute; reflexivity].
  - eexists. split; [vm_compute; reflexivity|done].
  - eapply rtc_l; [|apply rtc_refl]. split; [apply r4_step|apply reserved_ok; vm_compute; reflexivity].
Defined.

Lemma claimable_can_start_witness :
  ∃ rt'' st, start_run "i" example_draw None FreshOnly (example_start "e1" "run1" "native" "w") r1 = (rt'', Ok st) ∧
    (∃ r, t_runs (rt_tables rt'') !! "run1" = Some r ∧ ru_effect r = "e1" ∧ ru_status r = "running") ∧
    re_status <$> t_effects (rt_tables rt'') !! "e1" = Some "running".
Proof.
  set (claims := match (claimable_effects "i" example_draw r1).2 with Ok l => l | Err _ => [] end).
  apply (claimable_can_start "i" example_draw r1 r1 claims
    (mkClaimable "e1" (mkRtEffect "agent.tell" (Some "scout") JNull "queued" "rule" "event-1" (Some "v1") 0 None "key-e1" (JArray []) None None "now" None None) None)
    (example_start "e1" "run1" "native" "w") []).
  - vm_compute; reflexivity.
  - vm_compute. left.
  - by vm_compute.
  - done.
  - split; [vm_compute; reflexivity..|]. vm_compute. repeat constructor; intros [=].
  - vm_compute; reflexivity.
  - assert (Forall (λ e, ∀ run, ¬ on_record "e1" run e) (rt_log r1)) as Hnone by (vm_compute; repeat constructor; by intros run []).
    intros run pre e post Hlog He _. rewrite Forall_forall in Hnone. destruct (Hnone e) with run; [|done].
    rewrite Hlog. apply elem_of_app. right. left.
Defined.

(** The same store, where no capability is bound any more. *)
Definition closed_registry : Registry := mkRegistry (rg_versions example_registry) ["agent.tell"] ["agent.tell"; "script.raw"] [] ∅.


(** ** A blocked script and the gate *)

Definition closed_gates : RuntimeGates json := {|
  as_json v := v; registry := closed_registry; metadata_key k := k; payload_digest _ := "d";
  input_fingerprint _ := "in"; execution_fingerprint _ _ _ := "ex"; admission_binding _ := None; inject_fingerprint m _ := m;
  revision_check _ _ _ := Ok tt; file_manifest_check _ := Ok tt; log_digest _ := "head";
  journal_key kind run := kind ++ ":" ++ run; wake_key run _ := "wake:" ++ run; render _ := ""; sha256_hex _ := "digest";
|}.

Definition b2 : Runtime json := (block_effect_binding "i" example_draw "e2" "binding_missing" "no provider" r1).1.

(** With scripts off, a queued script is refused, and one that a binding blocked is started. *)
Lemma blocked_script_starts :
  (@start_run json _ _ closed_gates "i" example_draw None FreshOnly (example_exec_start "e2" "run1") r1).2
  = Err (PolicyBlocked "e2" "security.script_disabled: capability `script.raw` is not bound for program p") ∧
  (@start_run json _ _ closed_gates "i" example_draw None FreshOnly (example_exec_start "e2" "run1") b2).2
  = Ok (mkStoredEvent "event-4" 5).
Proof. split; vm_compute; reflexivity. Qed.

(** A never-run effect that its deadline expired cannot be retried: its terminal event names
    no run, and the fold of attempts counts it as an attempt nothing proves absent. *)
Lemma expired_effect_not_retried :
  (retry_effect "i" example_draw "e1" None None None (expire_effect example_draw "e1" None r1).1).2
  = Err (RecoveryRefused (RecoveryConflict "external outcome does not prove safe resubmission")).
Proof. vm_compute; reflexivity. Qed.

(** The second attempt of a stale completion reports the key of the first refusal's record
    in place of the refusal. *)
Lemma repeated_refusal_hides_reason :
  let stale := complete_with "i" example_draw "failed" (example_completion "e1" "run1" "failed") in
  (stale r3).2 = Err (Conflict "run already has a terminal completion") ∧
  (stale (stale r3).1).2 = Err (Conflict "duplicate event idempotency key for `run.terminal_refused`").
Proof. split; vm_compute; reflexivity. Qed.

(** A renewed lease loses its renewal in a rebuild. *)
Lemma rebuild_forgets_renewal :
  let renewed := (renew_lease example_draw "lease-run1" "run1" "much-later" None r2).1 in
  le_expires_at <$> t_leases (rt_tables renewed) !! "lease-run1" = Some "much-later" ∧
  match rebuild_projections tracking_key "i" (rt_log renewed) (rt_tables renewed) with
  | Ok T => le_expires_at <$> t_leases T !! "lease-run1" = Some "later"
  | Err _ => False
  end.
Proof. split; vm_compute; reflexivity. Qed.

(** A fact that is derived under the key of the rule's commit is in the live tables and in
    no event, and a rebuild drops it: what [honest_key] rules out. *)
Lemma foreign_key_fact_dropped :
  let fact := mkNewFact "f2" "note" "k2" JNull None "rule" None None None in
  let derived := (derive_fact example_draw (mkDerived fact "rule" None (Some "commit-1")) r1).1 in
  is_Some (t_facts (rt_tables derived) !! ("note", "k2")) ∧ rt_log derived = rt_log r1 ∧
  match rebuild_projections tracking_key "i" (rt_log derived) (rt_tables derived) with
  | Ok T => t_facts T !! ("note", "k2") = None
  | Err _ => False
  end.
Proof. split_and!; [vm_compute; by eexists|vm_compute; reflexivity..]. Qed.

(** A restore that drops a finished run drops the completion with it: the run is there again
    as it was, which [later] rules out and a history with restores allows. *)
Lemma restore_reopens_run :
  ru_status <$> t_runs (rt_tables r5) !! "run1" = Some "completed" ∧ ru_status <$> t_runs (rt_tables r6) !! "run1" = Some "running".
Proof. split; vm_compute; reflexivity. Qed.

(** ** A tracked execution that a restore drops *)

(** The script is started, tracked, answered for, and dropped by a restore; a second run of
    it fails and is closed.  The retry passes, while no proof closes the first run, which the log tracks
    and the runs table no longer holds. *)
Definition d2 : Runtime json := (retain_exec_settlement example_draw (mkSettlement "e2" "run1" JNull JNull)
  (track_exec_lifetime "i" example_draw (example_tracking "e2" "run1") s2).1).1.
Definition d3 : Runtime json := (commit_restore "i" example_draw (head_sequence (rt_log r1)) "cut" "head" None d2).1.
Definition d4 : Runtime json := (complete_with "i" example_draw "failed"
  (mkCompletion "e2" "run2" "exec" "whip-exec" "failed" None None JNull None)
  (track_exec_lifetime "i" example_draw (example_tracking "e2" "run2")
    (start_run "i" example_draw None FreshOnly (example_exec_start "e2" "run2") d3).1).1).1.
Definition d5 : Runtime json := (retain_exec_fence_proof "i" example_draw "run2" (example_closure "e2" "run2")
  (ensure_exec_fence "i" example_draw FenceRetry "run2" d4).1).1.

Lemma dropped_run_not_rechecked :
  existsb (λ e, match e_payload e with PTracked t => bool_decide (tk_run t = "run1") | _ => false end) (rt_log d5) = true ∧
  t_runs (rt_tables d5) !! "run1" = None ∧
  existsb (λ e, match e_payload e with PFenceProved p => bool_decide (pf_run p = "run1") | _ => false end) (rt_log d5) = false ∧
  (retry_effect "i" example_draw "e2" None None None d5).2 = Ok (mkStoredEvent "event-12" 13).
Proof. split_and!; vm_compute; reflexivity. Qed.
